(* ===== verification/_CoqProject ===== *)
-Q . S2P
Prelude.v
Machine.v
Target.v
Bytes.v
Diagnostics.v
Object.v
ElfWrite.v
ElfImage.v
ElfRead.v
ElfSound.v
ElfRoundTrip.v
SymbolTable.v
Selection.v
LinkLayout.v
Relocation.v
Executable.v
Archive.v
ArchiveSound.v
Linker.v
Syntax.v
Layout.v
Limits.v
Integer.v
Float.v
Memory.v
MemoryCells.v
MemoryOps.v
MemorySafety.v
MemoryLifetime.v
MemoryTheorems.v
Signatures.v
Sources.v
ConstExpr.v
Frontend.v
Builder.v
Operands.v
Calls.v
Constants.v
Resolution.v
Cfg.v
Verify.v
Dominators.v
Ssa.v
Verified.v
BuilderInvariant.v
BuiltModule.v
BuilderSources.v
Passes.v
Interp.v
Preparation.v
Execution.v
Effects.v
