(* ===== verification/Prelude.v ===== *)
(** * Whale: a verification development

    Whale is a compiler toolchain in Rust.  Its core is an intermediate representation in SSA form
    ([src/ir]) with target contracts ([src/target-spec]), resource limits, a verifier, a constant
    evaluator, and an interpreter over a tracked memory that serves as the reference semantics.
    Beside it stand an object model ([src/object]) and a static linker ([src/linker]) that turns
    objects and archives into an ELF executable.  This library models both as written and proves
    what makes them correct.

    ** How the code is modelled

    The embedding is shallow: a Rust function is a function here, under the same name, a struct is a
    record and an enum an inductive type.  [result E A] is Rust's [Result] with a third case, [Panic],
    for every [unwrap], [expect], [unreachable!], index out of range or overflow the code could run
    into, so that "never panics" is a theorem and not an assumption.  A method that takes [&mut self]
    is a computation in the monad [stm S E], which keeps the state reached when it fails.  Machine
    integers are integers of [Z] with the wrapping or the check of the code written out ([Machine]).
    A [HashMap] is a [gmap], a [HashSet] a [gset], a [Vec] a list.  Loops that are not structural
    take fuel; each has a proof that the fuel it is given is enough, so what a loop does without any
    (most panic) is never seen.  The
    host allocator's refusals ([try_reserve]) are oracle arguments, and the table of memory fragments
    is the interface [FragmentTable], implemented by [gmap].

    ** The files

    - [Prelude]: results, the state monad, the predicates [wp] and [yields] that describe a run by its
      result, the relation [Respects] preserved by a computation, with their hint databases, and lemmas
      on lists and maps.  [Machine]: fixed-width integers.  [Bytes]: parts of byte strings and text.
    - [Target] (target-spec/src/lib.rs, extension.rs): targets and their storage contracts.
    - [Diagnostics] (diagnostic/src/lib.rs): diagnostics and their rendering.  A message is a list of
      pieces; what the standard library renders (escapes, numbers) stays a piece with its value.
    - [Object] (object/src/core, error.rs): sections, symbols, relocations, their validation and the
      relocation numbers of each format.
    - [ElfWrite] (object/src/formats/elf.rs) and [ElfRead] (elf_read.rs): the writer and the reader of
      ELF objects.  [ElfImage] describes the file the writer leaves, [ElfSound] is about the reader on
      arbitrary bytes, [ElfRoundTrip] about the reader on a written file.
    - [SymbolTable], [Selection], [LinkLayout], [Relocation], [Executable], [Archive], [Linker] (the
      files of linker/src/core of these names): symbol resolution, selection of archive members, the
      two layouts, relocation, the writer of the executable, archives and the shared read budget, and
      the link that composes them.  [ArchiveSound] is about the archive reader on arbitrary bytes.
    - [Syntax] (types.rs, value.rs, function.rs, instr.rs, block.rs, module.rs, const_expr.rs,
      source.rs): the data of the IR.
    - [Layout] (layout.rs): sizes, alignments and field offsets.
    - [Limits] (limits.rs): the resource budget and the walk that charges a module to it.
    - [Integer] (interpreter/integer.rs, constant.rs), [Float] (float.rs, float/*.rs,
      interpreter/scalar.rs): evaluation of scalar operators.
    - [Memory] (interpreter/memory.rs): the tracked memory.  [MemoryCells], [MemoryOps],
      [MemorySafety], [MemoryLifetime] hold its invariant and the lemmas of each operation,
      [MemoryTheorems] the properties.
    - [Signatures] (function.rs, global_storage.rs), [Sources] (source.rs): admission of signatures
      and declarations, source metadata.
    - [ConstExpr] (const_expr.rs): the constant evaluator, against the meaning of expressions.
    - [Operands], [Calls], [Constants], [Cfg], [Verify] (verifier.rs, verifier/*.rs): the verifier.
      [Resolution] proves the order of constant declarations, [Dominators] the control-flow analysis,
      [Ssa] the check of the uses, [Verified] what acceptance means and that the verifier is total.
    - [Frontend] (lower_ast/frontend.rs, error.rs): the expressions of the frontend, as far as the
      builder looks at them.  [Builder] (builder.rs): the module and function builders.
      [BuilderInvariant] holds what every checked operation keeps, [BuiltModule] what a built module
      satisfies, [BuilderSources] the source mappings of a function under construction.
    - [Passes] (pass.rs, zero/pass.rs): the runner of passes, the caches of analyses and the pass
      that does nothing.
    - [Interp] (interpreter/mod.rs): the interpreter, as a step over a machine state; [Preparation]
      is about the worklists before a run, [Execution] proves termination, resource bounds, expiry of
      locals and diagnostics.
    - [Effects] (effects.rs): the classification of side effects, against the interpreter.

    ** The theorems

    - The verifier ([Verified], [Ssa], [Resolution]): it never panics; a module it accepts has
      distinct identities, typed operands, laid out storage, constants with a unique valuation, and
      functions in SSA form; its SSA check is exact up to the analysis budget, its interval numbering
      answers path-based dominance, and its queue over constant declarations is exact.
    - The memory ([MemoryTheorems]): every operation on a reachable memory runs without a panic, keeps
      the invariant and is atomic on failure; loads return what was stored, provenance included; stores
      and copies refine their cell-wise specifications; expired stack allocations stay expired.
    - Execution ([Execution], [Effects]): every run ends within the step limit, the resource counters
      are exact, a failure is diagnosed with its location and exactly the calls its bounds allow, and
      effect classes are sound.
    - Scalars and constants ([Integer], [Float], [ConstExpr]): integer operators compute the wrapped
      exact result, floating-point operators the correctly rounded one, the constant evaluator the
      meaning of the expression; it names a resource limit only when the expression, or a type its
      references resolve to, exceeds it.
    - Object files ([ElfImage], [ElfSound], [ElfRoundTrip], [Linker]): the writer never panics and
      leaves a file whose headers lead to everything the object has; the reader is safe on arbitrary
      bytes and accepts only valid objects within its limits; reading a written file gives the normal
      form of the object at the cost stated; a linker fed with bytes never panics, is left alone by a
      failing call, and pays for all it keeps.
    - The linker ([Linker], [Executable], [Relocation], [LinkLayout], [SymbolTable], [Selection]): a link
      never panics; resolution and selection compute exactly what the rules of definitions and archives
      prescribe, and selection fails only when that costs more than its budgets; sections are placed aligned, disjoint, inside the segment of their permissions;
      relocations apply exactly if every field fits and none overlap, and then read back as their
      value; and loading the file by its program headers yields the relocated sections.
    - The builder ([BuiltModule], [BuilderSources]): whatever checked operations a client applies, the
      builder does not panic while its counters have room, and the module passes the structural checks
      of the verifier that [built_module_verifies] lists (a declaration may lack its definition, storage
      may have no layout, a block may lack its terminator, and the references of constant declarations
      are not looked at); an annotation maps exactly the operations since its checkpoint, and mappings
      keep following their operations while allocations are hoisted.
    - Passes ([Passes]): a run of any pass that does not panic is a transaction, and a cached analysis
      is never stale.
    - Layouts, limits, signatures and metadata ([Layout], [Limits], [Signatures], [Sources]): the
      checks decide their predicates.

    ** Fuel

    The walks over types, expressions and signatures take the node count plus one; the evaluation of an
    expression three times its size plus one; the loops of the control-flow analysis what is left of
    the analysis budget plus one, which every iteration charges; the queue of constant declarations
    their number plus one; the interpreter the step limit plus one; the selection from an archive one
    turn more than it has members, of which every turn but the last takes one; the parser of archives
    one turn per byte, of which every turn takes sixty; the search for the name of an ELF section
    symbol one turn more than there are names, since its candidates grow longer; the walk over the sources
    of a constant one turn per node of its expression; the preparation of a run two turns more than the
    module has instructions and the run arguments, since a function is visited once and each of its
    instructions adds at most one entry ([Preparation]); the remainder of floats 32
    turns, more than the bits of any difference of exponents.

    ** Not modelled

    The textual IR (lexer, parser, printer), the JSON import and export, the lowering of the AST, the
    assemblers, the writers of COFF and Mach-O objects, the reverse engineering tools, the toolchain
    driver and the command line.  Of what is modelled: [Display] implementations of the IR, the
    counter of type lookups of the verifier, and the conversions of floats through host arithmetic ([to_f64]; the rounding of [from_f64] to 32 bits is a parameter of
    the builder). *)
From stdpp Require Export prelude gmap strings.
From Stdlib Require Export ZArith Lia.

#[global] Set Default Proof Using "Type".

(** ** Fallible computations

    [Ok]/[Err] are Rust's [Result]; [Panic] is a Rust panic (a failed
    [expect]/[unwrap], an [unreachable!], an index out of range, a division by
    zero or an arithmetic overflow that the debug profile checks). *)
Inductive result (E A : Type) : Type :=
  | Ok (a : A)
  | Err (e : E)
  | Panic.
Arguments Ok {E A} a.
Arguments Err {E A} e.
Arguments Panic {E A}.

#[export] Instance result_ret E : MRet (result E) := λ A a, Ok a.
#[export] Instance result_bind E : MBind (result E) := λ A B k m,
  match m with Ok a => k a | Err e => Err e | Panic => Panic end.
#[export] Instance result_fmap E : FMap (result E) := λ A B f m,
  match m with Ok a => Ok (f a) | Err e => Err e | Panic => Panic end.

(** [Option::ok_or], [Result::map_err], [Option::expect]. *)
Definition ok_or {E A} (o : option A) (e : E) : result E A :=
  match o with Some a => Ok a | None => Err e end.
Definition map_err {E F A} (f : E → F) (m : result E A) : result F A :=
  match m with Ok a => Ok a | Err e => Err (f e) | Panic => Panic end.
Definition expect {E A} (o : option A) : result E A :=
  match o with Some a => Ok a | None => Panic end.
Definition guard_err {E} (b : bool) (e : E) : result E unit :=
  if b then Ok tt else Err e.

Definition is_ok {E A} (m : result E A) : bool :=
  match m with Ok _ => true | _ => false end.

(** [Result::ok]. *)
Definition ok {E A} (m : result E A) : option A := match m with Ok a => Some a | _ => None end.

Section result_lemmas.
Context {E A B : Type}.
Implicit Types (m : result E A) (k : A → result E B).

Lemma bind_Ok m k b : m ≫= k = Ok b ↔ ∃ a, m = Ok a ∧ k a = Ok b.
Proof. destruct m; cbn; naive_solver. Qed.

Lemma bind_Err m k e :
  m ≫= k = Err e ↔ m = Err e ∨ ∃ a, m = Ok a ∧ k a = Err e.
Proof. destruct m; cbn; naive_solver. Qed.

Lemma bind_Panic m k :
  m ≫= k = Panic ↔ m = Panic ∨ ∃ a, m = Ok a ∧ k a = Panic.
Proof. destruct m; cbn; naive_solver. Qed.

Lemma ok_or_Ok (o : option A) (e : E) a : ok_or o e = Ok a ↔ o = Some a.
Proof. destruct o; naive_solver. Qed.

Lemma ok_or_Err (o : option A) (e e' : E) : ok_or o e = Err e' ↔ o = None ∧ e = e'.
Proof. destruct o; naive_solver. Qed.

Lemma expect_Ok (o : option A) a : @expect E A o = Ok a ↔ o = Some a.
Proof. destruct o; naive_solver. Qed.

Lemma ok_or_not_Panic (o : option A) (e : E) : ok_or o e ≠ Panic.
Proof. by destruct o. Qed.
End result_lemmas.

Lemma guard_err_Ok {E} b (e : E) u : guard_err b e = Ok u ↔ b = true.
Proof. destruct b, u; naive_solver. Qed.
Lemma guard_err_Err {E} b (e e' : E) : guard_err b e = Err e' ↔ b = false ∧ e = e'.
Proof. destruct b; naive_solver. Qed.

(** [inv_ok] opens every successful bind among the hypotheses. *)
Ltac inv_ok_step :=
  match goal with
  | H : mbind _ _ = Ok _ |- _ => apply bind_Ok in H as (? & ? & ?)
  | H : ok_or _ _ = Ok _ |- _ => apply ok_or_Ok in H
  | H : expect _ = Ok _ |- _ => apply expect_Ok in H
  | H : guard_err _ _ = Ok _ |- _ => apply guard_err_Ok in H
  | H : Ok _ = Ok _ |- _ => injection H; clear H; intros; subst
  | H : Err _ = Ok _ |- _ => discriminate H
  | H : Panic = Ok _ |- _ => discriminate H
  | H : mret _ = Ok _ |- _ => injection H; clear H; intros; subst
  end.
Ltac inv_ok := repeat (inv_ok_step; simpl in *).

(** ** Stateful fallible computations

    A method that takes [&mut self] and returns a [Result]: the state reached is
    kept on the error path too, because earlier mutations are not rolled back. *)
Definition stm (S E A : Type) : Type := S → result E A * S.

#[export] Instance stm_ret S E : MRet (stm S E) := λ A a s, (Ok a, s).
#[export] Instance stm_bind S E : MBind (stm S E) := λ A B k m s,
  match m s with
  | (Ok a, s') => k a s'
  | (Err e, s') => (Err e, s')
  | (Panic, s') => (Panic, s')
  end.

Definition get {S E} : stm S E S := λ s, (Ok s, s).
Definition modify {S E} (f : S → S) : stm S E unit := λ s, (Ok tt, f s).
Definition lift {S E A} (m : result E A) : stm S E A := λ s, (m, s).
Definition asks {S E A} (f : S → A) : stm S E A := λ s, (Ok (f s), s).

Section stm_lemmas.
Context {S E A B : Type}.
Implicit Types (m : stm S E A) (k : A → stm S E B) (s : S).

Lemma stm_bind_Ok m k s b s'' :
  (m ≫= k) s = (Ok b, s'') ↔ ∃ a s', m s = (Ok a, s') ∧ k a s' = (Ok b, s'').
Proof.
  unfold mbind, stm_bind. destruct (m s) as [[a|e|] s'] eqn:?; naive_solver.
Qed.

Lemma stm_bind_Err m k s e s'' :
  (m ≫= k) s = (Err e, s'') ↔
    m s = (Err e, s'') ∨ ∃ a s', m s = (Ok a, s') ∧ k a s' = (Err e, s'').
Proof.
  unfold mbind, stm_bind. destruct (m s) as [[a|e'|] s'] eqn:?; naive_solver.
Qed.

Lemma stm_bind_Panic m k s s'' :
  (m ≫= k) s = (Panic, s'') ↔
    m s = (Panic, s'') ∨ ∃ a s', m s = (Ok a, s') ∧ k a s' = (Panic, s'').
Proof.
  unfold mbind, stm_bind. destruct (m s) as [[a|e'|] s'] eqn:?; naive_solver.
Qed.
End stm_lemmas.

Lemma stm_bind_eq {S E A B} (m : stm S E A) (k : A → stm S E B) s :
  (m ≫= k) s = match m s with
               | (Ok a, s') => k a s'
               | (Err e, s') => (Err e, s')
               | (Panic, s') => (Panic, s')
               end.
Proof. done. Qed.

(** Steps of a stateful computation, forwards: an [Ok] prefix is consumed. *)
Lemma stm_bind_step {S E A B} (m : stm S E A) (k : A → stm S E B) s a s' :
  m s = (Ok a, s') → (m ≫= k) s = k a s'.
Proof. intros H. unfold mbind, stm_bind. by rewrite H. Qed.

Ltac inv_stm_step :=
  match goal with
  | H : mbind _ _ _ = (Ok _, _) |- _ => apply stm_bind_Ok in H as (? & ? & ? & ?)
  | H : lift _ _ = (_, _) |- _ => unfold lift in H
  | H : asks _ _ = (_, _) |- _ => unfold asks in H
  | H : get _ = (_, _) |- _ => unfold get in H
  | H : modify _ _ = (_, _) |- _ => unfold modify in H
  | H : mret _ _ = (_, _) |- _ => unfold mret, stm_ret in H
  | H : (_, _) = (_, _) |- _ => injection H; clear H; intros; subst
  | _ => inv_ok_step
  end.
Ltac inv_stm := repeat (inv_stm_step; simpl in *).

(** A [for] loop over a slice. *)
Fixpoint for_each {S E A} (l : list A) (f : A → stm S E unit) : stm S E unit :=
  match l with
  | [] => mret tt
  | x :: l => _ ← f x; for_each l f
  end.

(** [Result::?] inside a [&mut self] method. *)
Definition throw {S E A} (e : E) : stm S E A := λ s, (Err e, s).
Definition when_err {S E} (b : bool) (e : E) : stm S E unit :=
  if b then throw e else mret tt.

(** ** Computations that respect a relation on states *)

(** Whatever its outcome, the computation leads from a state to a related one. *)
Definition Respects {S E A} (R : relation S) (op : stm S E A) : Prop := ∀ s r s',
  op s = (r, s') → R s s'.

Section respects.
Context {S E : Type} (R : relation S).

Lemma respects_pure `{!PreOrder R} {A} (f : S → result E A) : Respects R (λ s, (f s, s)).
Proof. by intros s r s' [= _ ->]. Qed.
Lemma respects_bind `{!PreOrder R} {A B} (op : stm S E A) (k : A → stm S E B) :
  Respects R op → (∀ a, Respects R (k a)) → Respects R (op ≫= k).
Proof.
  intros Hop Hk s r s'. unfold mbind, stm_bind. destruct (op s) as [[a|e|] s1] eqn:E1; intros E'.
  - etrans; [by eapply Hop|by eapply Hk].
  - injection E' as _ <-. by eapply Hop.
  - injection E' as _ <-. by eapply Hop.
Qed.
Lemma respects_modify (f : S → S) : (∀ s, R s (f s)) → Respects R (modify (E := E) f).
Proof. intros Hf s r s' [= _ <-]. apply Hf. Qed.
Lemma respects_if {A} (b : bool) (x y : stm S E A) :
  Respects R x → Respects R y → Respects R (if b then x else y).
Proof. by destruct b. Qed.
Lemma respects_decide {A} P `{Decision P} (x y : stm S E A) :
  Respects R x → Respects R y → Respects R (if decide P then x else y).
Proof. by case_decide. Qed.
Lemma respects_when_err `{!PreOrder R} (b : bool) (e : E) : Respects R (when_err b e).
Proof. destruct b; apply respects_pure. Qed.
Lemma respects_for_each `{!PreOrder R} {A} (l : list A) (f : A → stm S E unit) :
  (∀ x, Respects R (f x)) → Respects R (for_each l f).
Proof.
  intros Hf. induction l; simpl; [apply (respects_pure (λ _, Ok tt))|by apply respects_bind].
Qed.
End respects.

Create HintDb respects.
#[export] Hint Extern 0 (PreOrder _) => typeclasses eauto : respects.
#[export] Hint Resolve respects_if respects_decide respects_when_err respects_for_each : respects.
#[export] Hint Extern 2 (Respects _ (_ ≫= _)) => apply respects_bind : respects.
#[export] Hint Extern 1 (Respects _ (lift ?m)) => apply (respects_pure _ (λ _, m)) : respects.
#[export] Hint Extern 1 (Respects _ (mret ?a)) => apply (respects_pure _ (λ _, Ok a)) : respects.
#[export] Hint Extern 1 (Respects _ get) => apply (respects_pure _ Ok) : respects.
#[export] Hint Extern 1 (Respects _ (throw ?e)) => apply (respects_pure _ (λ _, Err e)) : respects.
#[export] Hint Extern 1 (Respects _ (modify _)) =>
  apply respects_modify; intros ?; reflexivity : respects.

(** Opens the pairs and matches of a computation, then uses the database. *)
Ltac respects_step :=
  first
    [ progress intros
    | match goal with
      | |- context [let '(_, _) := ?p in _] => destruct p
      | |- context [match ?x with _ => _ end] => destruct x
      end
    | solve [auto with respects]
    | apply respects_bind; [try typeclasses eauto|..] ].
Ltac respects_auto := repeat respects_step; auto with respects.

(** ** Weakest preconditions

    [wp F op Q s]: run from [s], the computation does not panic, an error satisfies [F], and a
    result and the state it leaves satisfy [Q]. *)
Definition wp {S E A} (F : E → Prop) (op : stm S E A) (Q : A → S → Prop) (s : S) : Prop :=
  match op s with
  | (Ok a, s') => Q a s'
  | (Err e, _) => F e
  | (Panic, _) => False
  end.

Section wp.
Context {S E : Type} (F : E → Prop).

Lemma wp_bind {A B} (op : stm S E A) (k : A → stm S E B) Q s :
  wp F op (λ a, wp F (k a) Q) s → wp F (op ≫= k) Q s.
Proof. unfold wp, mbind, stm_bind. by destruct (op s) as [[] ?]. Qed.
Lemma wp_ret {A} (a : A) Q (s : S) : Q a s → wp F (mret a) Q s.
Proof. done. Qed.
Lemma wp_mono {A} (op : stm S E A) (Q Q' : A → S → Prop) s :
  (∀ a s', Q a s' → Q' a s') → wp F op Q s → wp F op Q' s.
Proof. unfold wp. intros HQ. destruct (op s) as [[] ?]; auto. Qed.
Lemma wp_expect {A} (o : option A) a Q (s : S) :
  o = Some a → Q a s → wp F (lift (expect o)) Q s.
Proof. by intros ->. Qed.
Lemma wp_throw {A} e (Q : A → S → Prop) s : F e → wp F (throw e) Q s.
Proof. done. Qed.
Lemma wp_lift {A} (r : result E A) (Q : A → S → Prop) s :
  r ≠ Panic → (∀ e, r = Err e → F e) → (∀ a, r = Ok a → Q a s) → wp F (lift r) Q s.
Proof. unfold wp, lift. destruct r; auto. Qed.
Lemma wp_Ok {A} (op : stm S E A) Q s a s' : wp F op Q s → op s = (Ok a, s') → Q a s'.
Proof. unfold wp. intros H Eop. by rewrite Eop in H. Qed.
Lemma wp_errors {A} (F' : E → Prop) (op : stm S E A) (Q Q' : A → S → Prop) s :
  (∀ e, F e → F' e) → (∀ a s', Q a s' → Q' a s') → wp F op Q s → wp F' op Q' s.
Proof. unfold wp. intros HF HQ. destruct (op s) as [[] ?]; auto. Qed.
Lemma wp_respects {A} R (op : stm S E A) Q s :
  Respects R op → wp F op Q s → wp F op (λ a s', Q a s' ∧ R s s') s.
Proof.
  unfold wp. intros HR. destruct (op s) as [[a|e|] s'] eqn:Eop; [|done..]. split; [done|].
  by eapply HR.
Qed.
End wp.

(** The same for a result alone: [r] does not panic, [F] holds of its error and [Q] of its value. *)
Definition yields {E A} (F : E → Prop) (r : result E A) (Q : A → Prop) : Prop :=
  match r with Ok a => Q a | Err e => F e | Panic => False end.

Section yields.
Context {E : Type} (F : E → Prop).

Lemma yields_bind {A B} (r : result E A) (k : A → result E B) Q :
  yields F r (λ a, yields F (k a) Q) → yields F (r ≫= k) Q.
Proof. by destruct r. Qed.
Lemma yields_mono {A} (F' : E → Prop) (r : result E A) (Q Q' : A → Prop) :
  (∀ e, F e → F' e) → (∀ a, Q a → Q' a) → yields F r Q → yields F' r Q'.
Proof. destruct r; simpl; auto. Qed.
Lemma yields_expect {A} (o : option A) a (Q : A → Prop) : o = Some a → Q a → yields F (expect o) Q.
Proof. by intros ->. Qed.
Lemma yields_ok_or {A} (o : option A) e (Q : A → Prop) :
  (o = None → F e) → (∀ a, o = Some a → Q a) → yields F (ok_or o e) Q.
Proof. destruct o; simpl; auto. Qed.
Lemma yields_guard (b : bool) e (Q : unit → Prop) :
  (b = false → F e) → (b = true → Q tt) → yields F (guard_err b e) Q.
Proof. destruct b; simpl; auto. Qed.
Lemma yields_map_err {E' A} (g : E' → E) (r : result E' A) (Q : A → Prop) :
  r ≠ Panic → (∀ e, r = Err e → F (g e)) → (∀ a, r = Ok a → Q a) → yields F (map_err g r) Q.
Proof. destruct r; simpl; auto. Qed.
Lemma yields_case {A} (r : result E A) (Q : A → Prop) :
  r ≠ Panic → (∀ e, r = Err e → F e) → (∀ a, r = Ok a → Q a) → yields F r Q.
Proof. destruct r; simpl; auto. Qed.
Lemma wp_yields {S A} (r : result E A) (Q : A → S → Prop) s :
  yields F r (λ a, Q a s) → wp F (lift r) Q s.
Proof. by destruct r. Qed.
Lemma yields_not_Panic {A} (r : result E A) (Q : A → Prop) : yields F r Q → r ≠ Panic.
Proof. by destruct r. Qed.
Lemma yields_Ok {A} (r : result E A) (Q : A → Prop) a : yields F r Q → r = Ok a → Q a.
Proof. by intros H ->. Qed.
End yields.

(** [Iterator::try_fold]: a loop over a list that threads a state and may fail. *)
Fixpoint try_fold {E S A} (f : S → A → result E S) (l : list A) (s : S) : result E S :=
  match l with
  | [] => Ok s
  | x :: l => s ← f s x; try_fold f l s
  end.

Section try_fold.
Context {E S A : Type} (f : S → A → result E S).

Lemma try_fold_app l l' s : try_fold f (l ++ l') s = (try_fold f l s ≫= try_fold f l').
Proof. revert s. induction l as [|x l IH]; intros s; simpl; [done|]. destruct (f s x); simpl; auto. Qed.

(** Nested loops are one loop over the flattened list. *)
Lemma try_fold_join {B} (g : B → list A) (l : list B) s :
  try_fold (λ s b, try_fold f (g b) s) l s = try_fold f (l ≫= g) s.
Proof.
  revert s. induction l as [|b l IH]; intros s; [done|]. cbn [try_fold mbind list_bind].
  rewrite try_fold_app. destruct (try_fold f (g b) s); simpl; auto.
Qed.

Lemma try_fold_yields (F : E → Prop) (P : list A → S → Prop) l s :
  P [] s →
  (∀ done x rest s, l = done ++ x :: rest → P done s → yields F (f s x) (P (done ++ [x]))) →
  yields F (try_fold f l s) (P l).
Proof.
  intros H0 Hstep. cut (∀ done rest s, l = done ++ rest → P done s → yields F (try_fold f rest s) (P l)).
  { intros Hcut. by apply (Hcut [] l). }
  intros done rest. revert done. induction rest as [|x rest IH]; intros done s' Hl Hs; simpl.
  { rewrite app_nil_r in Hl. by subst. }
  apply yields_bind. eapply yields_mono; [done| |by eapply Hstep].
  intros s'' Hs''. apply (IH (done ++ [x])); [|done]. by rewrite <- app_assoc.
Qed.

(** The same with the number of turns made. *)
Lemma try_fold_count (F : E → Prop) (P : nat → S → Prop) l s :
  P 0 s → (∀ k x s, l !! k = Some x → P k s → yields F (f s x) (P (Datatypes.S k))) →
  yields F (try_fold f l s) (P (length l)).
Proof.
  intros H0 Hstep. apply (try_fold_yields F (λ l, P (length l))); [done|].
  intros done x rest s' -> Hs. rewrite length_app, Nat.add_1_r. apply Hstep; [|done].
  by rewrite lookup_app_r, Nat.sub_diag.
Qed.

(** A loop every turn of which is known to succeed. *)
Lemma try_fold_run (st : nat → S) l :
  (∀ k x, l !! k = Some x → f (st k) x = Ok (st (Datatypes.S k))) →
  try_fold f l (st 0%nat) = Ok (st (length l)).
Proof.
  intros Hstep. cut (∀ done rest, l = done ++ rest →
    try_fold f rest (st (length done)) = Ok (st (length l))).
  { intros Hcut. by apply (Hcut []). }
  intros done rest. revert done. induction rest as [|x rest IH]; intros done Hl; simpl.
  { by rewrite Hl, app_nil_r. }
  rewrite (Hstep (length done) x); [|by rewrite Hl, lookup_app_r, Nat.sub_diag].
  cbn [mbind result_bind]. replace (Datatypes.S (length done)) with (length (done ++ [x]))
    by (rewrite length_app; simpl; lia).
  apply IH. by rewrite <- app_assoc.
Qed.
End try_fold.

Lemma try_fold_fmap {E S A B} (f : S → A → result E S) (g : B → A) l s :
  try_fold f (g <$> l) s = try_fold (λ s b, f s (g b)) l s.
Proof. revert s. induction l as [|b l IH]; intros s; simpl; [done|]. destruct (f s (g b)); simpl; auto. Qed.

Lemma try_fold_ext {E S A} (f g : S → A → result E S) l s :
  (∀ s x, f s x = g s x) → try_fold f l s = try_fold g l s.
Proof. intros Hfg. revert s. induction l; intros s; simpl; [done|]. rewrite Hfg. destruct (g s _); simpl; auto. Qed.

(** A loop that only checks. *)
Lemma try_fold_check_Ok {E A} (f : A → result E unit) l :
  try_fold (λ _ x, f x) l tt = Ok tt ↔ Forall (λ x, f x = Ok tt) l.
Proof.
  induction l as [|x l IH]; simpl; [split; auto|]. rewrite Forall_cons, <- IH, bind_Ok.
  split; [by intros ([] & ? & ?)|intros [? ?]; by exists ()].
Qed.
Lemma try_fold_check_no_panic {E A} (f : A → result E unit) l :
  (∀ x, f x ≠ Panic) → try_fold (λ _ x, f x) l tt ≠ Panic.
Proof. intros Hf. induction l as [|x l IH]; simpl; [done|]. by intros [H|([] & _ & H)]%bind_Panic; [apply (Hf x)|]. Qed.

(** Computations that do not panic. *)
Create HintDb total.

Lemma total_bind {E A B} (r : result E A) (k : A → result E B) :
  r ≠ Panic → (∀ a, r = Ok a → k a ≠ Panic) → (r ≫= k) ≠ Panic.
Proof. destruct r; simpl; auto. Qed.
Lemma total_map_err {E F A} (g : E → F) (r : result E A) : r ≠ Panic → map_err g r ≠ Panic.
Proof. by destruct r. Qed.
Lemma total_guard {E} (b : bool) (e : E) : guard_err b e ≠ Panic.
Proof. by destruct b. Qed.
Lemma total_ok_or {E A} (o : option A) (e : E) : ok_or o e ≠ Panic.
Proof. by destruct o. Qed.
Lemma total_try_fold {E S A} (f : S → A → result E S) l s :
  (∀ s x, f s x ≠ Panic) → try_fold f l s ≠ Panic.
Proof. intros Hf. revert s. induction l as [|x l IH]; intros s; simpl; [done|]. by apply total_bind. Qed.
#[export] Hint Resolve total_map_err total_guard total_ok_or total_bind total_try_fold : total.
#[export] Hint Extern 1 (Ok _ ≠ Panic) => discriminate : total.
#[export] Hint Extern 1 (Err _ ≠ Panic) => discriminate : total.
#[export] Hint Extern 3 (_ ≠ Panic) => progress (repeat case_match) : total.
Ltac total_auto :=
  repeat (first [ solve [auto 2 with total] | progress intros | apply total_bind
                | apply total_try_fold | apply total_map_err | case_match ]).

(** Some element of a grown list. *)
Lemma exists_cons {A} (P : A → Prop) x l :
  (∃ y, y ∈ x :: l ∧ P y) ↔ P x ∨ ∃ y, y ∈ l ∧ P y.
Proof.
  split.
  - intros (y & [->|Hy]%elem_of_cons & HP); [by left|right; by exists y].
  - intros [HP|(y & Hy & HP)]; [exists x|exists y]; (split; [apply elem_of_cons; auto|done]).
Qed.
Lemma exists_snoc {A} (P : A → Prop) x l :
  (∃ y, y ∈ l ++ [x] ∧ P y) ↔ (∃ y, y ∈ l ∧ P y) ∨ P x.
Proof.
  split.
  - intros (y & [Hy|Hy%list_elem_of_singleton]%elem_of_app & HP); [left; by exists y|right; by subst].
  - intros [(y & Hy & HP)|HP]; [exists y|exists x]; (split; [apply elem_of_app|done]); [by left|].
    right. by apply list_elem_of_singleton.
Qed.

(** [Iterator::enumerate]. *)
Definition enumerate {A} (l : list A) : list (nat * A) := imap pair l.

Lemma elem_of_enumerate {A} (l : list A) i x : (i, x) ∈ enumerate l ↔ l !! i = Some x.
Proof.
  unfold enumerate. split.
  - intros (j & y & [= -> ->] & H)%elem_of_lookup_imap_1. done.
  - intros H. by apply (elem_of_lookup_imap_2 pair).
Qed.

Lemma length_enumerate {A} (l : list A) : length (enumerate l) = length l.
Proof. apply length_imap. Qed.
Lemma lookup_enumerate {A} (l : list A) k : enumerate l !! k = pair k <$> l !! k.
Proof. apply list_lookup_imap. Qed.
Lemma lookup_enumerate_Some {A} (l : list A) k x :
  enumerate l !! k = Some x → x.1 = k ∧ l !! k = Some x.2.
Proof. rewrite lookup_enumerate. by intros (y & Hy & ->)%fmap_Some. Qed.

Lemma try_fold_enumerate {E S A} (f : S → nat * A → result E S) (F : E → Prop) (P : nat → S → Prop) l s :
  P 0%nat s → (∀ k x s, l !! k = Some x → P k s → yields F (f s (k, x)) (P (Datatypes.S k))) →
  yields F (try_fold f (enumerate l) s) (P (length l)).
Proof.
  intros H0 Hstep. pose proof (try_fold_count f F P (enumerate l) s H0) as H.
  rewrite length_enumerate in H. apply H. intros k [i x] s' [Hi Hx]%lookup_enumerate_Some.
  cbn [fst snd] in *. subst. by apply Hstep.
Qed.

(** The rest of an enumeration. *)
Definition index_from {A} (n : nat) (l : list A) : list (nat * A) := imap (λ i x, ((n + i)%nat, x)) l.

Lemma drop_enumerate {A} (x : A) l : drop 1 (enumerate (x :: l)) = index_from 1 l.
Proof. unfold enumerate, index_from. by rewrite imap_cons. Qed.
Lemma index_from_app {A} n (l l' : list A) :
  index_from n (l ++ l') = index_from n l ++ index_from (n + length l) l'.
Proof.
  unfold index_from. rewrite imap_app. f_equal. apply imap_ext. intros i x _. simpl. f_equal. lia.
Qed.
Lemma lookup_index_from_Some {A} n (l : list A) k x :
  index_from n l !! k = Some x → x.1 = (n + k)%nat ∧ l !! k = Some x.2.
Proof. unfold index_from. rewrite list_lookup_imap. by intros (y & Hy & ->)%fmap_Some. Qed.
Lemma length_index_from {A} n (l : list A) : length (index_from n l) = length l.
Proof. apply length_imap. Qed.

Lemma try_fold_run_from {E S A} (f : S → nat * A → result E S) (st : nat → S) n l :
  (∀ k x, l !! k = Some x → f (st k) ((n + k)%nat, x) = Ok (st (Datatypes.S k))) →
  try_fold f (index_from n l) (st 0%nat) = Ok (st (length l)).
Proof.
  intros Hstep. rewrite (try_fold_run f st (index_from n l)).
  - by rewrite length_index_from.
  - intros k [i x] [Hi Hx]%lookup_index_from_Some. cbn [fst snd] in *. subst. by apply Hstep.
Qed.

Lemma NoDup_enumerate_fst {A} (l : list A) : NoDup (enumerate l).*1.
Proof.
  apply NoDup_alt. intros i j x. unfold enumerate.
  rewrite !list_lookup_fmap, !list_lookup_imap.
  destruct (l !! i), (l !! j); simpl; congruence.
Qed.

Lemma NoDup_enumerate {A} (l : list A) : NoDup (enumerate l).
Proof. eapply NoDup_fmap_1, NoDup_enumerate_fst. Qed.

(** Filters that keep or drop every element. *)
Lemma filter_kept {A} (P : A → Prop) `{!∀ x, Decision (P x)} (l : list A) : Forall P l → filter P l = l.
Proof. induction 1 as [|x l Hx _ IH]; [done|]. by rewrite filter_cons_True, IH. Qed.
Lemma filter_dropped {A} (P : A → Prop) `{!∀ x, Decision (P x)} (l : list A) :
  Forall (λ x, ¬ P x) l → filter P l = [].
Proof. induction 1 as [|x l Hx _ IH]; [done|]. by rewrite filter_cons_False. Qed.

Lemma Forall_index_from {A} (P : A → Prop) n (l : list A) :
  Forall P l → Forall (λ x, P x.2) (index_from n l).
Proof.
  intros Hl. apply Forall_forall. intros x Hin. apply list_elem_of_lookup in Hin as [k Hk].
  apply lookup_index_from_Some in Hk as [_ Hk]. by eapply (Forall_lookup_1 _ _ _ _ Hl).
Qed.

(** The first element a test accepts, as a list grows. *)
Lemma head_filter_snoc {A} (P : A → Prop) `{∀ x, Decision (P x)} l x :
  head (filter P (l ++ [x])) =
    match head (filter P l) with Some y => Some y | None => if decide (P x) then Some x else None end.
Proof.
  rewrite filter_app. destruct (filter P l); [|done]. simpl.
  unfold filter, list_filter. by destruct (decide (P x)).
Qed.

Lemma head_filter_Some {A} (P : A → Prop) `{∀ x, Decision (P x)} l x :
  head (filter P l) = Some x → P x ∧ x ∈ l.
Proof.
  intros Hh. apply (list_elem_of_filter P l x). destruct (filter P l); [done|].
  injection Hh as ->. apply elem_of_cons. by left.
Qed.

Lemma head_filter_None {A} (P : A → Prop) `{∀ x, Decision (P x)} l :
  head (filter P l) = None ↔ ∀ x, x ∈ l → ¬ P x.
Proof.
  split.
  - intros Hh x Hx HP. assert (x ∈ filter P l) as Hin by by apply list_elem_of_filter.
    destruct (filter P l); [by apply not_elem_of_nil in Hin|done].
  - intros Hn. destruct (filter P l) as [|y l'] eqn:E; [done|].
    destruct (proj1 (list_elem_of_filter P l y)) as [HP Hy].
    { rewrite E. apply elem_of_cons. by left. }
    by destruct (Hn y Hy).
Qed.

(** ** Generic lemmas on lists *)
Section lists.
Context {A : Type}.
Implicit Types l : list A.

(** The first element satisfying a test, as [Iterator::find]. *)
Definition find_opt (p : A → bool) l : option A := snd <$> list_find (λ x, p x = true) l.

Lemma find_opt_Some p l x : find_opt p l = Some x → x ∈ l ∧ p x = true.
Proof.
  unfold find_opt. intros ([i y] & Hy & ->)%fmap_Some. simpl.
  apply list_find_Some in Hy as (Hl & Hp & _). split; [|done].
  by eapply list_elem_of_lookup_2.
Qed.

Lemma find_opt_unique p l i x :
  l !! i = Some x → p x = true → (∀ j y, l !! j = Some y → p y = true → j = i) →
  find_opt p l = Some x.
Proof.
  intros Hx Hp Hu. unfold find_opt. rewrite (proj2 (list_find_Some _ _ i x)); [done|].
  split; [done|]. split; [done|]. intros j y Hy Hj Hpy. specialize (Hu j y Hy Hpy). lia.
Qed.
End lists.

(** [Iterator::collect] into a [HashMap]: a later entry replaces an earlier one. *)
Definition collect `{Countable K} {V} (l : list (K * V)) : gmap K V :=
  foldl (λ m p, <[p.1 := p.2]> m) ∅ l.

Section collect.
Context `{Countable K} {V : Type}.
Implicit Types l : list (K * V).

Lemma collect_snoc l k v : collect (l ++ [(k, v)]) = <[k := v]> (collect l).
Proof. unfold collect. by rewrite foldl_app. Qed.

Lemma collect_lookup_Some l k v : collect l !! k = Some v → (k, v) ∈ l.
Proof.
  induction l as [|[k' v'] l IH] using rev_ind; [done|].
  rewrite collect_snoc, elem_of_app, list_elem_of_singleton.
  destruct (decide (k = k')) as [->|Hk].
  - rewrite lookup_insert_eq. intros [= ->]. by right.
  - rewrite lookup_insert_ne by done. auto.
Qed.

Lemma collect_lookup_None l k : collect l !! k = None ↔ k ∉ l.*1.
Proof.
  induction l as [|[k' v'] l IH] using rev_ind; [split; [intros _; apply not_elem_of_nil|done]|].
  rewrite collect_snoc, fmap_app, elem_of_app. cbn [fmap list_fmap fst]. rewrite list_elem_of_singleton.
  destruct (decide (k = k')) as [->|Hk].
  - rewrite lookup_insert_eq. split; [done|]. intros []. by right.
  - rewrite lookup_insert_ne by done. rewrite IH. tauto.
Qed.

Lemma collect_is_Some l k : is_Some (collect l !! k) ↔ k ∈ l.*1.
Proof.
  rewrite <- not_eq_None_Some, collect_lookup_None. split; [apply dec_stable|tauto].
Qed.

Lemma collect_lookup_NoDup l k v : NoDup l.*1 → (k, v) ∈ l → collect l !! k = Some v.
Proof.
  induction l as [|[k' v'] l IH] using rev_ind; [by intros ? ?%not_elem_of_nil|].
  rewrite collect_snoc, fmap_app, NoDup_app, elem_of_app, list_elem_of_singleton.
  cbn [fmap list_fmap fst].
  intros (Hnd&Hdis&_) [Hin|[= -> ->]]; [|by rewrite lookup_insert_eq].
  rewrite lookup_insert_ne; [auto|]. intros ->.
  apply (Hdis k); [apply list_elem_of_fmap; by exists (k, v)|by apply list_elem_of_singleton].
Qed.
End collect.

(** Splice [xs] over positions [i .. i + length xs) of [l]; positions past the end of
    [l] are dropped (callers check the range first). *)
Definition splice {A} (i : nat) (xs l : list A) : list A :=
  take i l ++ take (length l - i) xs ++ drop (i + length xs) l.

Lemma length_splice {A} i (xs l : list A) :
  i + length xs ≤ length l → length (splice i xs l) = length l.
Proof. intros. unfold splice. rewrite !length_app, !length_take, length_drop. lia. Qed.

Lemma lookup_splice {A} i (xs l : list A) j :
  i + length xs ≤ length l →
  splice i xs l !! j =
    if decide (i ≤ j < i + length xs) then xs !! (j - i)%nat else l !! j.
Proof.
  intros Hlen. unfold splice. rewrite (take_ge xs) by lia.
  case_decide as Hj.
  - rewrite lookup_app_r by (rewrite length_take; lia).
    rewrite length_take, lookup_app_l by lia. f_equal. lia.
  - destruct (decide (j < i)).
    + rewrite lookup_app_l by (rewrite length_take; lia). by rewrite lookup_take_lt.
    + rewrite lookup_app_r by (rewrite length_take; lia).
      rewrite length_take, lookup_app_r by lia. rewrite lookup_drop. f_equal. lia.
Qed.

Lemma Forall_splice {A} (P : A → Prop) i xs l :
  Forall P xs → Forall P l → Forall P (splice i xs l).
Proof. intros. unfold splice. auto using Forall_app_2, Forall_take, Forall_drop. Qed.
