(* ===== verification/Machine.v ===== *)
(** * Machine integers

    Rust's fixed-width arithmetic over [Z]: representatives, checked and wrapping
    operations, bit masks, powers of two, rounding up to an alignment and
    little-endian byte lists.  Nothing here is specific to Whale; every
    component of the development uses these definitions for the machine
    arithmetic of its source. *)
From S2P Require Export Prelude.
Local Open Scope Z_scope.

(** ** Representatives *)

(** [z as uW] and [z as iW]. *)
Definition wrapu (w z : Z) : Z := z mod 2 ^ w.
Definition wraps (w z : Z) : Z := (z + 2 ^ (w - 1)) mod 2 ^ w - 2 ^ (w - 1).

Definition in_u (w z : Z) : bool := (0 <=? z) && (z <? 2 ^ w).
Definition in_s (w z : Z) : bool := (- 2 ^ (w - 1) <=? z) && (z <? 2 ^ (w - 1)).

(** [uW::checked_*] / [uW::try_from] and their signed counterparts. *)
Definition checked_u (w z : Z) : option Z := if in_u w z then Some z else None.
Definition checked_s (w z : Z) : option Z := if in_s w z then Some z else None.

Definition umax (w : Z) : Z := 2 ^ w - 1.
Definition smin (w : Z) : Z := - 2 ^ (w - 1).

(** An arithmetic operator whose overflow the debug profile turns into a panic. *)
Definition debug_u {E} (w z : Z) : result E Z := expect (checked_u w z).

(** [!z] at width [w]. *)
Definition notu (w z : Z) : Z := wrapu w (Z.lnot z).

(** [uW::is_power_of_two]. *)
Definition is_power_of_two (z : Z) : bool := (0 <? z) && (Z.land z (z - 1) =? 0).

(** [uW::leading_zeros]. *)
Definition leading_zeros (w z : Z) : Z := if z <=? 0 then w else w - 1 - Z.log2 z.

(** [v.checked_add(v.wrapping_neg() & (a - 1))] on [u64]: the shape every
    alignment helper of the code has. *)
Definition align_up64 (v a : Z) : option Z := checked_u 64 (v + Z.land (wrapu 64 (- v)) (a - 1)).

(** [uW::to_le_bytes] truncated to [n] bytes, and [from_le_bytes]. *)
Fixpoint to_le_bytes (n : nat) (z : Z) : list Z :=
  match n with
  | O => []
  | S n => z mod 256 :: to_le_bytes n (z / 256)
  end.
Fixpoint from_le_bytes (bs : list Z) : Z :=
  match bs with
  | [] => 0
  | b :: bs => b + 256 * from_le_bytes bs
  end.

(** ** Range lemmas *)

Lemma in_u_spec w z : in_u w z = true ↔ 0 ≤ z < 2 ^ w.
Proof. unfold in_u. lia. Qed.
Lemma in_s_spec w z : in_s w z = true ↔ - 2 ^ (w - 1) ≤ z < 2 ^ (w - 1).
Proof. unfold in_s. lia. Qed.

Lemma checked_u_Some w z n : checked_u w z = Some n ↔ n = z ∧ 0 ≤ z < 2 ^ w.
Proof. unfold checked_u, in_u. destruct (_ && _) eqn:?; naive_solver lia. Qed.
Lemma checked_u_None w z : checked_u w z = None ↔ ¬ 0 ≤ z < 2 ^ w.
Proof. unfold checked_u, in_u. destruct (_ && _) eqn:?; naive_solver lia. Qed.
Lemma checked_s_Some w z n :
  checked_s w z = Some n ↔ n = z ∧ - 2 ^ (w - 1) ≤ z < 2 ^ (w - 1).
Proof. unfold checked_s, in_s. destruct (_ && _) eqn:?; naive_solver lia. Qed.
Lemma checked_s_None w z : checked_s w z = None ↔ ¬ - 2 ^ (w - 1) ≤ z < 2 ^ (w - 1).
Proof. unfold checked_s, in_s. destruct (_ && _) eqn:?; naive_solver lia. Qed.

Lemma checked_u_id w z : 0 ≤ z < 2 ^ w → checked_u w z = Some z.
Proof. intros. by apply checked_u_Some. Qed.
Lemma debug_u_id {E} w z : 0 ≤ z < 2 ^ w → @debug_u E w z = Ok z.
Proof. intros. unfold debug_u. by rewrite checked_u_id. Qed.

Lemma pow2_pos w : 0 ≤ w → 0 < 2 ^ w.
Proof. intros. apply Z.pow_pos_nonneg; lia. Qed.
Lemma pow2_half w : 0 < w → 2 ^ w = 2 * 2 ^ (w - 1).
Proof. intros. rewrite <- Z.pow_succ_r by lia. f_equal. lia. Qed.

Lemma wrapu_range w z : 0 ≤ w → 0 ≤ wrapu w z < 2 ^ w.
Proof. intros. apply Z.mod_pos_bound, pow2_pos. lia. Qed.
Lemma wraps_range w z : 0 < w → - 2 ^ (w - 1) ≤ wraps w z < 2 ^ (w - 1).
Proof.
  intros. unfold wraps. pose proof (pow2_half w ltac:(lia)).
  pose proof (pow2_pos w ltac:(lia)).
  pose proof (Z.mod_pos_bound (z + 2 ^ (w - 1)) (2 ^ w) ltac:(lia)). lia.
Qed.
Lemma wrapu_id w z : 0 ≤ z < 2 ^ w → wrapu w z = z.
Proof. apply Z.mod_small. Qed.
Lemma wraps_id w z : 0 < w → - 2 ^ (w - 1) ≤ z < 2 ^ (w - 1) → wraps w z = z.
Proof.
  intros Hw ?. unfold wraps. pose proof (pow2_half w Hw). rewrite Z.mod_small; lia.
Qed.

(** Both representatives only depend on the residue. *)
Lemma wrapu_eq_iff w a b : 0 ≤ w → wrapu w a = wrapu w b ↔ (2 ^ w | a - b).
Proof.
  intros. unfold wrapu. pose proof (pow2_pos w ltac:(lia)). split; intros Heq.
  - exists (a / 2 ^ w - b / 2 ^ w).
    rewrite (Z.div_mod a (2 ^ w)), (Z.div_mod b (2 ^ w)) at 1 by lia. lia.
  - destruct Heq as [k Hk]. replace a with (b + k * 2 ^ w) by lia.
    apply Z.mod_add. lia.
Qed.

Lemma wraps_eq_iff w a b : 0 ≤ w → wraps w a = wraps w b ↔ (2 ^ w | a - b).
Proof.
  intros Hw.
  transitivity (wrapu w (a + 2 ^ (w - 1)) = wrapu w (b + 2 ^ (w - 1))).
  - unfold wraps, wrapu. lia.
  - rewrite wrapu_eq_iff by done. by replace (_ + _ - (_ + _)) with (a - b) by lia.
Qed.

Lemma wrapu_congr w z : 0 ≤ w → (2 ^ w | wrapu w z - z).
Proof.
  intros. apply wrapu_eq_iff; [lia|]. unfold wrapu. apply Z.mod_mod.
  pose proof (pow2_pos w ltac:(lia)). lia.
Qed.
Lemma wraps_congr w z : 0 < w → (2 ^ w | wraps w z - z).
Proof. intros. apply wraps_eq_iff; [lia|]. by rewrite wraps_id by eauto using wraps_range. Qed.

Lemma wrapu_wraps w z : 0 < w → wrapu w (wraps w z) = wrapu w z.
Proof. intros. apply wrapu_eq_iff; [lia|]. by apply wraps_congr. Qed.
Lemma wraps_wrapu w z : 0 ≤ w → wraps w (wrapu w z) = wraps w z.
Proof. intros. apply wraps_eq_iff; [lia|]. by apply wrapu_congr. Qed.

Lemma pow2_divide a b : 0 ≤ a ≤ b → (2 ^ a | 2 ^ b).
Proof.
  intros. exists (2 ^ (b - a)). rewrite <- Z.pow_add_r by lia. f_equal. lia.
Qed.
Lemma wrapu_wrapu w w' z : 0 ≤ w ≤ w' → wrapu w (wrapu w' z) = wrapu w z.
Proof.
  intros. apply wrapu_eq_iff; [lia|].
  etrans; [by apply (pow2_divide w w')|]. apply wrapu_congr. lia.
Qed.
Lemma wraps_wrapu_wide w w' z : 0 ≤ w ≤ w' → wraps w (wrapu w' z) = wraps w z.
Proof.
  intros. apply wraps_eq_iff; [lia|].
  etrans; [by apply (pow2_divide w w')|]. apply wrapu_congr. lia.
Qed.

(** The signed representative of an in-range unsigned pattern. *)
Lemma wraps_of_u w v :
  0 < w → 0 ≤ v < 2 ^ w → wraps w v = if v <? 2 ^ (w - 1) then v else v - 2 ^ w.
Proof.
  intros Hw Hv. pose proof (pow2_half w Hw). destruct (Z.ltb_spec v (2 ^ (w - 1))).
  - apply wraps_id; lia.
  - transitivity (wraps w (v - 2 ^ w)).
    + apply wraps_eq_iff; [lia|]. exists 1. lia.
    + apply wraps_id; lia.
Qed.

(** ** Masks and bits *)

Lemma land_mask w z : 0 ≤ w → Z.land z (2 ^ w - 1) = wrapu w z.
Proof.
  intros. unfold wrapu. rewrite <- Z.land_ones by lia. f_equal. rewrite Z.ones_equiv. lia.
Qed.

Lemma testbit_high w v i : 0 ≤ v < 2 ^ w → w ≤ i → Z.testbit v i = false.
Proof.
  intros Hv ?. destruct (Z.lt_ge_cases i 0); [by apply Z.testbit_neg_r|].
  apply Z.testbit_false; [lia|].
  rewrite Z.div_small; [done|]. split; [lia|].
  eapply Z.lt_le_trans; [apply Hv|]. apply Z.pow_le_mono_r; lia.
Qed.

(** The top bit of a [w]-bit pattern decides its sign. *)
Lemma land_top_bit w v :
  0 < w → 0 ≤ v < 2 ^ w → Z.land v (2 ^ (w - 1)) = if v <? 2 ^ (w - 1) then 0 else 2 ^ (w - 1).
Proof.
  intros Hw Hv. pose proof (pow2_half w Hw) as Hh.
  assert (Z.testbit v (w - 1) = negb (v <? 2 ^ (w - 1))) as Ht.
  { destruct (Z.ltb_spec v (2 ^ (w - 1))); simpl.
    - eapply testbit_high; [split; [apply Hv|done]|lia].
    - apply Z.testbit_true; [lia|]. replace (v / 2 ^ (w - 1)) with 1; [done|].
      apply Z.div_unique with (v - 2 ^ (w - 1)); lia. }
  apply Z.bits_inj'. intros i Hi. rewrite Z.land_spec.
  destruct (decide (i = w - 1)) as [->|].
  - rewrite Z.pow2_bits_true, andb_true_r, Ht by lia.
    destruct (Z.ltb_spec v (2 ^ (w - 1))); simpl; [by rewrite Z.bits_0|].
    by rewrite Z.pow2_bits_true by lia.
  - rewrite Z.pow2_bits_false, andb_false_r by lia.
    destruct (_ <? _); [by rewrite Z.bits_0|]. by rewrite Z.pow2_bits_false by lia.
Qed.

Lemma land_range a b : 0 ≤ a → 0 ≤ Z.land a b ≤ a.
Proof.
  intros. split; [apply Z.land_nonneg; lia|].
  assert (Z.land a b + Z.ldiff a b = a) as Hs.
  { rewrite Z.add_nocarry_lxor.
    - apply Z.bits_inj'. intros i Hi. rewrite Z.lxor_spec, Z.land_spec, Z.ldiff_spec.
      destruct (Z.testbit a i), (Z.testbit b i); done.
    - apply Z.bits_inj'. intros i Hi.
      rewrite !Z.land_spec, Z.ldiff_spec, Z.bits_0.
      destruct (Z.testbit a i), (Z.testbit b i); done. }
  assert (0 ≤ Z.ldiff a b) by (apply Z.ldiff_nonneg; lia). lia.
Qed.

Lemma bitop_range (f : bool → bool → bool) op w a b :
  f false false = false →
  (∀ i, 0 ≤ i → Z.testbit (op a b) i = f (Z.testbit a i) (Z.testbit b i)) →
  0 ≤ op a b → 0 ≤ w → 0 ≤ a < 2 ^ w → 0 ≤ b < 2 ^ w → 0 ≤ op a b < 2 ^ w.
Proof.
  intros Hf Hop H0 Hw Ha Hb. split; [done|].
  destruct (decide (op a b = 0)) as [->|]; [by apply pow2_pos|].
  apply Z.log2_lt_pow2; [lia|].
  destruct (Z.lt_ge_cases (Z.log2 (op a b)) w) as [|Hge]; [done|].
  exfalso. pose proof (Z.bit_log2 (op a b) ltac:(lia)) as Hb2.
  rewrite Hop in Hb2 by apply Z.log2_nonneg.
  by rewrite (testbit_high w), (testbit_high w), Hf in Hb2 by done.
Qed.

Lemma land_u_range w a b : 0 ≤ w → 0 ≤ a < 2 ^ w → 0 ≤ b < 2 ^ w → 0 ≤ Z.land a b < 2 ^ w.
Proof.
  intros. apply (bitop_range andb); [done|intros; apply Z.land_spec| |done..].
  apply Z.land_nonneg. lia.
Qed.
Lemma lor_u_range w a b : 0 ≤ w → 0 ≤ a < 2 ^ w → 0 ≤ b < 2 ^ w → 0 ≤ Z.lor a b < 2 ^ w.
Proof.
  intros. apply (bitop_range orb); [done|intros; apply Z.lor_spec| |done..].
  apply Z.lor_nonneg. lia.
Qed.
Lemma lxor_u_range w a b : 0 ≤ w → 0 ≤ a < 2 ^ w → 0 ≤ b < 2 ^ w → 0 ≤ Z.lxor a b < 2 ^ w.
Proof.
  intros. apply (bitop_range xorb); [done|intros; apply Z.lxor_spec| |done..].
  apply Z.lxor_nonneg. lia.
Qed.

(** ** Powers of two and alignment *)

Lemma is_power_of_two_spec z : is_power_of_two z = true ↔ ∃ k, 0 ≤ k ∧ z = 2 ^ k.
Proof.
  unfold is_power_of_two. rewrite andb_true_iff, Z.ltb_lt, Z.eqb_eq. split.
  - intros [Hz Hl]. exists (Z.log2 z). split; [apply Z.log2_nonneg|].
    destruct (Z.log2_spec z Hz) as [Hlo Hhi].
    destruct (decide (2 ^ Z.log2 z = z)) as [->|]; [done|exfalso].
    assert (Z.testbit (Z.land z (z - 1)) (Z.log2 z) = true) as Ht; [|by rewrite Hl, Z.bits_0 in Ht].
    rewrite Z.land_spec, Z.bit_log2 by done. simpl.
    pose proof (Z.log2_nonneg z). pose proof (pow2_pos (Z.log2 z) ltac:(lia)).
    replace (Z.log2 z) with (Z.log2 (z - 1)); [apply Z.bit_log2; lia|].
    apply Z.log2_unique; lia.
  - intros (k & Hk & ->). split; [by apply pow2_pos|].
    rewrite land_mask by done. unfold wrapu. apply Z.mod_same. pose proof (pow2_pos k Hk). lia.
Qed.

Lemma is_power_of_two_pos z : is_power_of_two z = true → 0 < z.
Proof. unfold is_power_of_two. lia. Qed.

Lemma is_power_of_two_max a b :
  is_power_of_two a = true → is_power_of_two b = true → is_power_of_two (Z.max a b) = true.
Proof. intros. by destruct (Z.max_spec a b) as [[_ ->]|[_ ->]]. Qed.

(** Two powers of two divide one another in the order of their sizes. *)
Lemma power_of_two_divide a b :
  is_power_of_two a = true → is_power_of_two b = true → a ≤ b → (a | b).
Proof.
  rewrite !is_power_of_two_spec. intros (i & Hi & ->) (j & Hj & ->) Hle.
  apply pow2_divide. split; [done|].
  destruct (Z.le_gt_cases i j); [done|].
  assert (2 ^ j < 2 ^ i) by (apply Z.pow_lt_mono_r; lia). lia.
Qed.

(** [align_up64] returns the least multiple of the alignment at or above its
    argument, and fails exactly when that multiple is not a [u64]. *)
Definition next_multiple (v a : Z) : Z := v + (- v) mod a.

Lemma next_multiple_spec v a :
  0 < a → (a | next_multiple v a) ∧ v ≤ next_multiple v a < v + a ∧
    (∀ m, (a | m) → v ≤ m → next_multiple v a ≤ m).
Proof.
  intros Ha. unfold next_multiple. pose proof (Z.mod_pos_bound (- v) a Ha) as Hb.
  assert ((a | v + (- v) mod a)) as Hd.
  { exists (- (- v / a)). pose proof (Z.div_mod (- v) a ltac:(lia)). lia. }
  split; [done|]. split; [lia|]. intros m Hm Hvm.
  destruct (Z.le_gt_cases (v + (- v) mod a) m); [done|].
  assert ((a | v + (- v) mod a - m)) as [k Hk] by by apply Z.divide_sub_r.
  assert (k < 1) by nia. assert (0 < k) by nia. lia.
Qed.

Lemma next_multiple_id v a : 0 < a → (a | v) → next_multiple v a = v.
Proof.
  intros Ha Hd. unfold next_multiple. apply Z.divide_opp_r in Hd.
  apply Z.mod_divide in Hd; lia.
Qed.

Lemma align_up64_eq v a :
  is_power_of_two a = true → a ≤ 2 ^ 64 → align_up64 v a = checked_u 64 (next_multiple v a).
Proof.
  intros (k & Hk & ->)%is_power_of_two_spec Hle. unfold align_up64, next_multiple.
  assert (k ≤ 64).
  { destruct (Z.le_gt_cases k 64); [done|].
    assert (2 ^ 64 < 2 ^ k) by (apply Z.pow_lt_mono_r; lia). lia. }
  rewrite land_mask by done. by rewrite wrapu_wrapu by lia.
Qed.

Lemma align_up64_Some v a r :
  is_power_of_two a = true → a ≤ 2 ^ 64 → align_up64 v a = Some r →
  r = next_multiple v a ∧ (a | r) ∧ v ≤ r < v + a ∧ 0 ≤ r < 2 ^ 64.
Proof.
  intros Ha Hle H. rewrite align_up64_eq in H by done.
  apply checked_u_Some in H as [-> ?].
  pose proof (is_power_of_two_pos a Ha).
  pose proof (next_multiple_spec v a ltac:(lia)). tauto.
Qed.

(** ** Little-endian bytes *)

Lemma length_to_le_bytes n z : length (to_le_bytes n z) = n.
Proof. revert z. induction n; intros; simpl; by rewrite ?IHn. Qed.

Lemma to_le_bytes_range n z : Forall (λ b, 0 ≤ b < 256) (to_le_bytes n z).
Proof.
  revert z. induction n; intros; simpl; constructor; [|done].
  by apply Z.mod_pos_bound.
Qed.

Lemma from_to_le_bytes n z : from_le_bytes (to_le_bytes n z) = z mod 2 ^ (8 * Z.of_nat n).
Proof.
  revert z. induction n as [|n IH]; intros; [by rewrite Z.mod_1_r|].
  cbn [to_le_bytes from_le_bytes]. rewrite IH.
  replace (8 * Z.of_nat (S n)) with (8 + 8 * Z.of_nat n) by lia.
  rewrite Z.pow_add_r by lia. change (2 ^ 8) with 256.
  rewrite Z.rem_mul_r; [lia|lia|]. apply pow2_pos. lia.
Qed.

Lemma from_le_bytes_range bs :
  Forall (λ b, 0 ≤ b < 256) bs → 0 ≤ from_le_bytes bs < 2 ^ (8 * Z.of_nat (length bs)).
Proof.
  induction 1 as [|b bs Hb _ IH]; [done|]. cbn [from_le_bytes length].
  replace (8 * Z.of_nat (S (length bs))) with (8 + 8 * Z.of_nat (length bs)) by lia.
  rewrite Z.pow_add_r by lia. change (2 ^ 8) with 256. lia.
Qed.

Lemma to_from_le_bytes bs :
  Forall (λ b, 0 ≤ b < 256) bs → to_le_bytes (length bs) (from_le_bytes bs) = bs.
Proof.
  induction 1 as [|b bs Hb _ IH]; [done|]. cbn [from_le_bytes length to_le_bytes].
  rewrite (Z.mul_comm 256), Z.mod_add, Z.mod_small by lia.
  rewrite Z.div_add, Z.div_small, Z.add_0_l by lia. by rewrite IH.
Qed.

Lemma from_to_le_bytes_id n z :
  0 ≤ z < 2 ^ (8 * Z.of_nat n) → from_le_bytes (to_le_bytes n z) = z.
Proof. intros. rewrite from_to_le_bytes. by apply Z.mod_small. Qed.

Create HintDb machine.
#[export] Hint Resolve pow2_pos wrapu_range wraps_range is_power_of_two_max : machine.

(** ** Intervals in order *)

(** Placements one after another between two positions. *)
Fixpoint chain {A} (at_ size : A → Z) (c : Z) (ps : list A) (c' : Z) : Prop :=
  match ps with
  | [] => c ≤ c'
  | p :: ps => c ≤ at_ p ∧ 0 ≤ size p ∧ chain at_ size (at_ p + size p) ps c'
  end.

Section chain.
Context {A : Type} (at_ size : A → Z).
#[local] Set Default Proof Using "Type*".

Lemma chain_app c ps c1 qs c2 :
  chain at_ size c ps c1 → chain at_ size c1 qs c2 → chain at_ size c (ps ++ qs) c2.
Proof.
  revert c. induction ps as [|p ps IH]; intros c; simpl.
  - intros H. destruct qs; simpl; [lia|]. intros (? & ? & ?). split; [lia|done].
  - intros (? & ? & ?) ?. split; [done|]. split; [done|]. by apply IH.
Qed.

Lemma chain_weaken c ps c1 c2 : chain at_ size c ps c1 → c1 ≤ c2 → chain at_ size c ps c2.
Proof. intros H ?. rewrite <- (app_nil_r ps). by eapply chain_app. Qed.

Lemma chain_le c ps c' : chain at_ size c ps c' → c ≤ c'.
Proof.
  revert c. induction ps as [|p ps IH]; intros c; simpl; [done|].
  intros (? & ? & H%IH). lia.
Qed.

Lemma chain_bounds c ps c' p :
  chain at_ size c ps c' → p ∈ ps → c ≤ at_ p ∧ 0 ≤ size p ∧ at_ p + size p ≤ c'.
Proof.
  revert c. induction ps as [|q ps IH]; intros c; [by intros _ ?%not_elem_of_nil|].
  simpl. intros (Hc & Hq & Hch) [->|Hin]%elem_of_cons; [apply chain_le in Hch; lia|].
  destruct (IH _ Hch Hin). lia.
Qed.

Lemma chain_disjoint c ps c' i j p q :
  chain at_ size c ps c' → ps !! i = Some p → ps !! j = Some q → (i < j)%nat →
  at_ p + size p ≤ at_ q.
Proof.
  revert c i j. induction ps as [|x ps IH]; intros c [|i] [|j]; simpl; try done; try lia.
  - intros (_ & _ & Hch) [= ->] Hj _. eapply chain_bounds in Hch; [|by eapply list_elem_of_lookup_2].
    tauto.
  - intros (_ & _ & Hch) Hi Hj ?. eapply IH; eauto. lia.
Qed.
Lemma chain_tighten c ps c' e :
  chain at_ size c ps c' → c ≤ e → (∀ p, p ∈ ps → at_ p + size p ≤ e) → chain at_ size c ps e.
Proof.
  revert c. induction ps as [|p ps IH]; intros c; simpl; [done|].
  intros (Hc & Hs & Hch) Hce He. split; [done|]. split; [done|]. apply IH; [done| |].
  - apply He. apply elem_of_cons. by left.
  - intros q Hq. apply He. apply elem_of_cons. by right.
Qed.

Lemma chain_filter (P : A → Prop) `{∀ x, Decision (P x)} c ps c' :
  chain at_ size c ps c' → chain at_ size c (filter P ps) c'.
Proof.
  revert c. induction ps as [|p ps IH]; intros c; [done|].
  intros (Hc & Hs & Hch). destruct (decide (P p)).
  - rewrite filter_cons_True by done. split; [done|]. split; [done|]. by apply IH.
  - rewrite filter_cons_False by done. apply IH in Hch.
    eapply (chain_app c [] (at_ p + size p)); [cbn; lia|done].
Qed.

Lemma chain_fmap {B} (g : A → B) (at' size' : B → Z) c ps c' :
  (∀ p, p ∈ ps → at' (g p) = at_ p ∧ size' (g p) = size p) →
  chain at_ size c ps c' → chain at' size' c (g <$> ps) c'.
Proof.
  revert c. induction ps as [|p ps IH]; intros c Hg; [done|].
  destruct (Hg p) as [Ha Hs]; [apply elem_of_cons; by left|].
  rewrite fmap_cons. cbn [chain]. rewrite Ha, Hs.
  intros (? & ? & ?). split; [done|]. split; [done|]. apply IH; [|done].
  intros q Hq. apply Hg. apply elem_of_cons. by right.
Qed.
End chain.
