(* ===== verification/Target.v ===== *)
(** * Target contracts ([target-spec])

    Output targets, their data and storage layouts, object identities and the
    validation of an explicitly supplied target, as in
    [target-spec/src/lib.rs] and [target-spec/src/extension.rs]. *)
From S2P Require Export Machine.
Local Open Scope Z_scope.

(** ** Characters of a Rust [String] (UTF-8 bytes) *)

Definition bytes_of_string (s : string) : list Z :=
  (λ a, Z.of_nat (Ascii.nat_of_ascii a)) <$> String.list_ascii_of_string s.

(** [str::chars] on well-formed UTF-8. *)
Fixpoint decode_utf8 (bs : list Z) : list Z :=
  match bs with
  | [] => []
  | b :: bs1 =>
      if b <? 128 then b :: decode_utf8 bs1 else
      match bs1 with
      | c :: bs2 =>
          if b <? 224 then ((b mod 32) * 64 + c mod 64) :: decode_utf8 bs2 else
          match bs2 with
          | d :: bs3 =>
              if b <? 240 then ((b mod 16) * 4096 + (c mod 64) * 64 + d mod 64) :: decode_utf8 bs3
              else
              match bs3 with
              | e :: bs4 =>
                  ((b mod 8) * 262144 + (c mod 64) * 4096 + (d mod 64) * 64 + e mod 64)
                    :: decode_utf8 bs4
              | [] => []
              end
          | [] => []
          end
      | [] => []
      end
  end.
Definition chars (s : string) : list Z := decode_utf8 (bytes_of_string s).

(** [char::is_control] (category Cc) and [char::is_whitespace] (White_Space). *)
Definition is_control (c : Z) : bool := (c <? 32) || ((127 <=? c) && (c <? 160)).
Definition is_whitespace (c : Z) : bool :=
  ((9 <=? c) && (c <=? 13)) || (c =? 32) || (c =? 133) || (c =? 160) || (c =? 5760)
  || ((8192 <=? c) && (c <=? 8202)) || (c =? 8232) || (c =? 8233) || (c =? 8239)
  || (c =? 8287) || (c =? 12288).

(** ** Data *)

Inductive Endian := Little | Big.
#[export] Instance Endian_eq_dec : EqDecision Endian.
Proof. solve_decision. Defined.

Record DataLayout := mkDataLayout { ptr_bits : Z; endian : Endian }.
#[export] Instance DataLayout_eq_dec : EqDecision DataLayout.
Proof. solve_decision. Defined.

Inductive ObjectFormat := ELF64 | COFF | MachO64.
#[export] Instance ObjectFormat_eq_dec : EqDecision ObjectFormat.
Proof. solve_decision. Defined.

Inductive Machine := X86_64 | AArch64 | RiscV64 | LoongArch64.
#[export] Instance Machine_eq_dec : EqDecision Machine.
Proof. solve_decision. Defined.

Record ObjectTarget := mkObjectTarget {
  format : ObjectFormat;
  machine : Machine;
  ot_endian : Endian;
  address_bits : Z;
}.
#[export] Instance ObjectTarget_eq_dec : EqDecision ObjectTarget.
Proof. solve_decision. Defined.

Inductive Target := X86_64WhaleLinux.
#[export] Instance Target_eq_dec : EqDecision Target.
Proof. solve_decision. Defined.

Inductive TargetError :=
  | Contract (reason : string)
  | UnsupportedTarget (name : string)
  | LayoutMismatch (target : Target) (actual : DataLayout)
  | UnsupportedObjectTarget (target : ObjectTarget)
  | UnsupportedAmd64ObjectTarget (target : ObjectTarget).

(** ** Object targets *)

Definition elf64 (m : Machine) : ObjectTarget := mkObjectTarget ELF64 m Little 64.
Definition coff (m : Machine) : ObjectTarget := mkObjectTarget COFF m Little 64.
Definition macho64 (m : Machine) : ObjectTarget := mkObjectTarget MachO64 m Little 64.

Definition validate_object (t : ObjectTarget) : result TargetError unit :=
  if bool_decide (ot_endian t = Little) && (address_bits t =? 64)
     && (bool_decide (format t = ELF64)
         || bool_decide (machine t = X86_64) || bool_decide (machine t = AArch64))
  then Ok tt
  else Err (UnsupportedObjectTarget t).

Definition data_layout (t : Target) : DataLayout :=
  match t with X86_64WhaleLinux => mkDataLayout 64 Little end.

Definition object_target (t : Target) : ObjectTarget :=
  match t with
  | X86_64WhaleLinux => mkObjectTarget ELF64 X86_64 Little (ptr_bits (data_layout t))
  end.

Definition validate_amd64 (t : ObjectTarget) : result TargetError unit :=
  if decide (t = object_target X86_64WhaleLinux) then Ok tt
  else Err (UnsupportedAmd64ObjectTarget t).

Definition elf_machine (t : ObjectTarget) : result TargetError Z :=
  _ ← validate_object t;
  if bool_decide (format t ≠ ELF64) then Err (UnsupportedObjectTarget t)
  else match machine t with
       | X86_64 => Ok 62
       | AArch64 => Ok 183
       | RiscV64 => Ok 243
       | LoongArch64 => Ok 258
       end.

Definition elf_flags (t : ObjectTarget) : Z :=
  match machine t with LoongArch64 => 0x41 | _ => 0 end.

(** ** Whale targets *)

Definition SUPPORTED : list Target := [X86_64WhaleLinux].

Definition target_name (t : Target) : string :=
  match t with X86_64WhaleLinux => "x86_64-whale-linux" end.

Definition lookup_target (name : string) : result TargetError Target :=
  ok_or (find_opt (λ t, bool_decide (target_name t = name)) SUPPORTED) (UnsupportedTarget name).

Definition validate_layout (t : Target) (actual : DataLayout) : result TargetError unit :=
  if decide (actual = data_layout t) then Ok tt else Err (LayoutMismatch t actual).

(** ** Open target specifications *)

Inductive OutputKind :=
  | NativeObject (object : ObjectTarget)
  | JvmClass (major : Z)
  | CliAssembly
  | CustomOutput (name : string)
  | Bytecode (name : string).

Inductive MemoryModel := Tracked | Native | CustomMemory (name : string).

(** [scalar_align] has five entries, for the byte sizes 1, 2, 4, 8 and 16. *)
Record StorageLayout := mkStorageLayout {
  data : DataLayout;
  scalar_align : list Z;
  pointer_align : Z;
  large_array : option (Z * Z);
}.

Record TargetSpec := mkTargetSpec {
  id : string;
  output : OutputKind;
  storage : StorageLayout;
  memory : MemoryModel;
}.

Definition validate_storage (s : StorageLayout) : result string unit :=
  if negb ((ptr_bits (data s) =? 32) || (ptr_bits (data s) =? 64)) then
    Err "storage layout requires 32-bit or 64-bit pointers"
  else
  let valid := is_power_of_two in
  if negb (forallb valid (scalar_align s))
     || negb (valid (pointer_align s))
     || match large_array s with Some (_, a) => negb (valid a) | None => false end then
    Err "storage alignment must be a nonzero power of two"
  else
  if existsb (λ '(i, a), 2 ^ Z.of_nat i <? a) (imap pair (scalar_align s))
     || (ptr_bits (data s) / 8 <? pointer_align s) then
    Err "scalar alignment cannot exceed scalar storage size"
  else Ok tt.

Definition validate_spec (t : TargetSpec) : result string unit :=
  if bool_decide (id t = "")
     || existsb (λ c, is_control c || is_whitespace c) (chars (id t)) then
    Err "target identity must be nonempty and contain no whitespace or controls"
  else
  _ ← validate_storage (storage t);
  match output t with
  | NativeObject object =>
      if negb (address_bits object =? ptr_bits (data (storage t)))
         || negb (bool_decide (ot_endian object = endian (data (storage t)))) then
        Err "native object and storage layouts disagree"
      else Ok tt
  | _ => Ok tt
  end.

Definition specification (t : Target) : TargetSpec :=
  mkTargetSpec (target_name t) (NativeObject (object_target t))
    (mkStorageLayout (data_layout t) [1; 2; 4; 8; 16] 8 (Some (16, 16))) Tracked.

(** ** Facts used by the components *)

Lemma specification_valid t : validate_spec (specification t) = Ok tt.
Proof. by destruct t. Qed.

(** What validation guarantees of a storage layout. *)
Record storage_ok (s : StorageLayout) : Prop := {
  so_bits : ptr_bits (data s) = 32 ∨ ptr_bits (data s) = 64;
  so_scalar i a : scalar_align s !! i = Some a →
    is_power_of_two a = true ∧ a ≤ 2 ^ Z.of_nat i;
  so_pointer : is_power_of_two (pointer_align s) = true
    ∧ pointer_align s ≤ ptr_bits (data s) / 8;
  so_large th a : large_array s = Some (th, a) → is_power_of_two a = true;
}.

Lemma existsb_false {A} (f : A → bool) l :
  existsb f l = false ↔ ∀ i x, l !! i = Some x → f x = false.
Proof.
  induction l as [|y l IH]; simpl; [naive_solver|].
  rewrite orb_false_iff, IH. split.
  - intros [Hy Hl] [|i] x ?; simplify_eq/=; eauto.
  - intros Hall. split; [by apply (Hall 0%nat)|]. intros i. apply (Hall (S i)).
Qed.

Lemma forallb_lookup {A} (f : A → bool) l :
  forallb f l = true ↔ ∀ i x, l !! i = Some x → f x = true.
Proof.
  induction l as [|y l IH]; simpl; [naive_solver|].
  rewrite andb_true_iff, IH. split.
  - intros [Hy Hl] [|i] x ?; simplify_eq/=; eauto.
  - intros Hall. split; [by apply (Hall 0%nat)|]. intros i. apply (Hall (S i)).
Qed.

Lemma validate_storage_ok s u : validate_storage s = Ok u → storage_ok s.
Proof.
  unfold validate_storage. intros H.
  destruct (_ || _) eqn:Hbits in H; [|done]. simpl in H.
  destruct (forallb _ _) eqn:Hall in H; [|done].
  destruct (is_power_of_two (pointer_align s)) eqn:Hp in H; [|done]. simpl in H.
  destruct (match large_array s with Some _ => _ | None => _ end) eqn:Hla in H; [done|].
  destruct (existsb _ _) eqn:Hex in H; [done|]. simpl in H.
  destruct (_ <? _) eqn:Hpb in H; [done|].
  pose proof (proj1 (forallb_lookup _ _) Hall) as Hall'.
  pose proof (proj1 (existsb_false _ _) Hex) as Hex'.
  split.
  - lia.
  - intros i a Hi. split; [by eapply Hall'|].
    specialize (Hex' i (i, a)). rewrite list_lookup_imap, Hi in Hex'.
    specialize (Hex' eq_refl). simpl in Hex'. lia.
  - split; [done|lia].
  - intros th a Hl. rewrite Hl in Hla. by apply negb_false_iff.
Qed.

Lemma validate_spec_storage t u : validate_spec t = Ok u → storage_ok (storage t).
Proof.
  unfold validate_spec. intros H. destruct (_ || _); [done|].
  apply bind_Ok in H as (? & H & _). by eapply validate_storage_ok.
Qed.
