(* ===== verification/Bytes.v ===== *)
(** * Byte strings

    Parts of byte lists, little-endian reads, UTF-8 and the byte strings of Rust [str] values, as the
    readers and writers of binary formats use them. *)
From S2P Require Export Target.
Local Open Scope Z_scope.

(** The [n] bytes at an offset, and the number they encode. *)
Definition slice (at_ : Z) (n : nat) (bytes : list Z) : list Z := take n (drop (Z.to_nat at_) bytes).
Definition read_le (at_ : Z) (n : nat) (bytes : list Z) : Z := from_le_bytes (slice at_ n bytes).

(** [.len() as u64]. *)
Definition len {A} (l : list A) : Z := Z.of_nat (length l).
Definition name_len (s : string) : Z := Z.of_nat (String.length s).

Definition is_byte (b : Z) : Prop := 0 ≤ b < 256.

(** ** Strings as bytes *)

Definition string_of_bytes (bs : list Z) : string :=
  String.string_of_list_ascii ((λ b, Ascii.ascii_of_nat (Z.to_nat b)) <$> bs).

(** [str::from_utf8] accepts: the well-formed sequences of the Unicode standard. *)
Definition is_continuation (b : Z) : bool := (0x80 <=? b) && (b <=? 0xBF).
Definition second_of_three (a b : Z) : bool :=
  (if a =? 0xE0 then 0xA0 <=? b else 0x80 <=? b) && (if a =? 0xED then b <=? 0x9F else b <=? 0xBF).
Definition second_of_four (a b : Z) : bool :=
  (if a =? 0xF0 then 0x90 <=? b else 0x80 <=? b) && (if a =? 0xF4 then b <=? 0x8F else b <=? 0xBF).

Fixpoint from_utf8 (bs : list Z) : bool :=
  match bs with
  | [] => true
  | a :: bs1 =>
      if a <? 0x80 then from_utf8 bs1 else
      match bs1 with
      | [] => false
      | b :: bs2 =>
          if (0xC2 <=? a) && (a <=? 0xDF) then is_continuation b && from_utf8 bs2 else
          match bs2 with
          | [] => false
          | c :: bs3 =>
              if (0xE0 <=? a) && (a <=? 0xEF) then
                second_of_three a b && is_continuation c && from_utf8 bs3
              else
              match bs3 with
              | [] => false
              | d :: bs4 =>
                  (0xF0 <=? a) && (a <=? 0xF4) && second_of_four a b && is_continuation c
                  && is_continuation d && from_utf8 bs4
              end
          end
      end
  end.

(** ** Lemmas *)

Section slices.
Implicit Types (bytes xs : list Z) (n : nat).

Lemma length_slice at_ n bytes :
  (Z.to_nat at_ + n ≤ length bytes)%nat → length (slice at_ n bytes) = n.
Proof. intros. unfold slice. rewrite length_take, length_drop. lia. Qed.

Lemma lookup_slice at_ n bytes (k : nat) :
  (k < n)%nat → slice at_ n bytes !! k = bytes !! (Z.to_nat at_ + k)%nat.
Proof. intros. unfold slice. by rewrite lookup_take_lt, lookup_drop. Qed.

Lemma slice_bytes at_ n bytes : Forall is_byte bytes → Forall is_byte (slice at_ n bytes).
Proof. intros. by apply Forall_take, Forall_drop. Qed.

Lemma slice_app_at bytes xs rest at_ :
  Z.to_nat at_ = length bytes → slice at_ (length xs) (bytes ++ xs ++ rest) = xs.
Proof. intros Hat. unfold slice. by rewrite Hat, drop_app_length, take_app_length. Qed.

Lemma slice_app_l at_ n bytes rest :
  (Z.to_nat at_ + n ≤ length bytes)%nat → slice at_ n (bytes ++ rest) = slice at_ n bytes.
Proof.
  intros. unfold slice. rewrite drop_app_le by lia. apply take_app_le. rewrite length_drop. lia.
Qed.

(** A part of a part. *)
Lemma slice_slice a n b m bytes :
  0 ≤ a → 0 ≤ b → (Z.to_nat b + m ≤ n)%nat → slice b m (slice a n bytes) = slice (a + b) m bytes.
Proof.
  intros. unfold slice. rewrite skipn_firstn_comm, take_take, drop_drop. f_equal; [lia|]. f_equal. lia.
Qed.

Lemma read_le_range at_ n bytes :
  Forall is_byte bytes → 0 ≤ read_le at_ n bytes < 2 ^ (8 * Z.of_nat n).
Proof.
  intros Hb. pose proof (from_le_bytes_range _ (slice_bytes at_ n _ Hb)) as [H1 H2].
  split; [exact H1|]. eapply Z.lt_le_trans; [exact H2|]. apply Z.pow_le_mono_r; [lia|].
  unfold slice. rewrite length_take. lia.
Qed.
End slices.

Lemma len_nonneg {A} (l : list A) : 0 ≤ len l.
Proof. unfold len. lia. Qed.
Lemma len_app {A} (l l' : list A) : len (l ++ l') = len l + len l'.
Proof. unfold len. rewrite length_app. lia. Qed.
Lemma len_cons {A} (x : A) l : len (x :: l) = 1 + len l.
Proof. unfold len. rewrite length_cons. lia. Qed.

(** [n] bytes from an offset inside a text of a known number. *)
Lemma read_le_slice at_ n bytes v :
  slice at_ n bytes = to_le_bytes n v → 0 ≤ v < 2 ^ (8 * Z.of_nat n) → read_le at_ n bytes = v.
Proof. intros Hs Hv. unfold read_le. rewrite Hs. by apply from_to_le_bytes_id. Qed.

Lemma bytes_of_string_range s : Forall is_byte (bytes_of_string s).
Proof.
  unfold bytes_of_string, is_byte. apply Forall_fmap, Forall_true. intros a. simpl.
  pose proof (Ascii.nat_ascii_bounded a). lia.
Qed.

Lemma length_bytes_of_string s : length (bytes_of_string s) = String.length s.
Proof. unfold bytes_of_string. rewrite length_fmap. induction s; simpl; congruence. Qed.
Lemma len_bytes_of_string s : len (bytes_of_string s) = name_len s.
Proof. unfold len, name_len. by rewrite length_bytes_of_string. Qed.
Lemma name_len_nonneg s : 0 ≤ name_len s.
Proof. unfold name_len. lia. Qed.

Lemma string_of_bytes_of_string s : string_of_bytes (bytes_of_string s) = s.
Proof.
  induction s as [|a s IH]; [done|]. change (String.String (Ascii.ascii_of_nat (Z.to_nat
    (Z.of_nat (Ascii.nat_of_ascii a)))) (string_of_bytes (bytes_of_string s)) = String.String a s).
  by rewrite IH, Nat2Z.id, Ascii.ascii_nat_embedding.
Qed.

Lemma bytes_of_string_of_bytes bs : Forall is_byte bs → bytes_of_string (string_of_bytes bs) = bs.
Proof.
  induction 1 as [|b bs Hb _ IH]; [done|]. change (Z.of_nat (Ascii.nat_of_ascii
    (Ascii.ascii_of_nat (Z.to_nat b))) :: bytes_of_string (string_of_bytes bs) = b :: bs).
  unfold is_byte in Hb. rewrite IH, Ascii.nat_ascii_embedding by lia. f_equal. lia.
Qed.

Lemma name_len_of_bytes bs : name_len (string_of_bytes bs) = len bs.
Proof.
  unfold name_len, string_of_bytes, len. f_equal.
  induction bs as [|b bs IH]; [done|]. rewrite fmap_cons. simpl. by rewrite IH.
Qed.

Lemma bytes_of_string_app s t : bytes_of_string (s +:+ t) = bytes_of_string s ++ bytes_of_string t.
Proof.
  unfold bytes_of_string. rewrite <- fmap_app. f_equal. induction s as [|a s IH]; [done|]. simpl. by rewrite IH.
Qed.

Lemma name_len_app s t : name_len (s +:+ t) = name_len s + name_len t.
Proof. by rewrite <- !len_bytes_of_string, bytes_of_string_app, len_app. Qed.

Lemma forallb_bytes bs : forallb (λ b, (0 <=? b) && (b <? 256)) bs = true → Forall is_byte bs.
Proof.
  induction bs as [|b bs IH]; cbn [forallb]; [by constructor|]. intros [Hb H]%andb_true_iff.
  constructor; [unfold is_byte; lia|by apply IH].
Qed.
