(* ===== verification/Diagnostics.v ===== *)
(** * Diagnostics ([diagnostic/src/lib.rs])

    The rendering boundary the tools share: contexts, the machine-readable diagnostic and its
    [Display].  A formatted [String] is the list of the pieces its format string puts together; how a
    number, a quoted string or an escaped name is spelled is left to the pieces, so messages that
    differ as pieces may still read the same. *)
From S2P Require Export Target.
Local Open Scope Z_scope.

(** ** Formatted text *)
Inductive Piece :=
  | Text (s : string)
  | Quoted (s : string)   (* [{:?}] of a string *)
  | Escaped (s : string)  (* [ContextName] *)
  | Number (n : Z).
#[export] Instance Piece_eq_dec : EqDecision Piece.
Proof. solve_decision. Defined.

Notation Message := (list Piece).

(** ** Data *)
Record SourceLocation := mkSourceLocation {
  source : string;
  line : Z;
  column : Z;
  end_line : option Z;
  end_column : option Z;
  start_byte : option Z;
  end_byte : option Z;
}.
#[export] Instance SourceLocation_eq_dec : EqDecision SourceLocation.
Proof. solve_decision. Defined.

Module Context.
Inductive t :=
  | Source (location : SourceLocation)
  | Object (name : string) (member : option string)
  | Input (index : nat)
  | Section_ (index : nat) (name : option string)
  | FileOffset (at_ : Z)
  | SectionOffset (at_ : Z)
  | Symbol (name : string)
  | Function_ (id : Z)
  | Block (id : Z)
  | Instruction (index : nat)
  | OriginalNode (id : Z).
#[global] Instance t_eq_dec : EqDecision t.
Proof. solve_decision. Defined.
End Context.

Record Diagnostic := mkDiagnostic {
  component : string;
  phase : string;
  code : string;
  message : Message;
  contexts : list Context.t;
}.

Definition new_diagnostic (component phase code : string) (message : Message) : Diagnostic :=
  mkDiagnostic component phase code message [].

Definition with_context (d : Diagnostic) (c : Context.t) : Diagnostic :=
  mkDiagnostic (component d) (phase d) (code d) (message d) (contexts d ++ [c]).

Class ToDiagnostic (A : Type) := diagnostic : A → Diagnostic.

#[export] Instance diagnostic_itself : ToDiagnostic Diagnostic := λ d, d.

(** ** [Display] *)
Definition display_context (c : Context.t) : Message :=
  match c with
  | Context.Source s =>
      [Text " at "; Escaped (source s); Text ":"; Number (line s); Text ":"; Number (column s)]
  | Context.Object name member =>
      [Text " in "; Escaped name]
      ++ match member with Some m => [Text "("; Escaped m; Text ")"] | None => [] end
  | Context.Input i => [Text " input "; Number (Z.of_nat i)]
  | Context.Section_ index name =>
      [Text " section "; Number (Z.of_nat index)]
      ++ match name with Some n => [Text " "; Quoted n] | None => [] end
  | Context.FileOffset at_ => [Text " at file offset "; Number at_]
  | Context.SectionOffset at_ => [Text " at section offset "; Number at_]
  | Context.Symbol s => [Text " symbol "; Quoted s]
  | Context.Function_ id => [Text " function @f"; Number id]
  | Context.Block id => [Text " block %b"; Number id]
  | Context.Instruction i => [Text " instruction "; Number (Z.of_nat i)]
  | Context.OriginalNode id => [Text " original @n"; Number id]
  end.

Definition display_diagnostic (d : Diagnostic) : Message :=
  [Text (code d); Text ": "] ++ message d ++ (contexts d ≫= display_context).

(** [to_string] of a value with a diagnostic. *)
Definition to_message `{ToDiagnostic A} (a : A) : Message := display_diagnostic (diagnostic a).

(** ** Derived [Debug] of the target data, and [Display] of target errors *)
Definition debug_machine (m : Machine) : string :=
  match m with
  | X86_64 => "X86_64"
  | AArch64 => "AArch64"
  | RiscV64 => "RiscV64"
  | LoongArch64 => "LoongArch64"
  end.
Definition debug_endian (e : Endian) : string :=
  match e with Little => "Little" | Big => "Big" end.
Definition debug_format (f : ObjectFormat) : string :=
  match f with ELF64 => "ELF64" | COFF => "COFF" | MachO64 => "MachO64" end.
Definition debug_target (t : ObjectTarget) : Message :=
  [Text "ObjectTarget { format: "; Text (debug_format (format t));
   Text ", machine: "; Text (debug_machine (machine t));
   Text ", endian: "; Text (debug_endian (ot_endian t));
   Text ", address_bits: "; Number (address_bits t); Text " }"].
Definition debug_layout (l : DataLayout) : Message :=
  [Text "DataLayout { ptr_bits: "; Number (ptr_bits l);
   Text ", endian: "; Text (debug_endian (endian l)); Text " }"].

(** The separator of the list of supported targets. *)
Definition supported_names : Message :=
  imap (λ i t, if (i =? 0)%nat then [Text (target_name t)] else [Text ", "; Text (target_name t)])
    SUPPORTED ≫= λ m, m.

Definition display_target_error (e : TargetError) : Message :=
  match e with
  | Contract reason => [Text reason]
  | UnsupportedTarget name =>
      [Text "unsupported target "; Quoted name; Text "; supported targets: "] ++ supported_names
  | LayoutMismatch target actual =>
      [Text "data layout "] ++ debug_layout actual
      ++ [Text " does not match target "; Text (target_name target); Text " (expected "]
      ++ debug_layout (data_layout target) ++ [Text ")"]
  | UnsupportedObjectTarget target =>
      [Text "unsupported object target "] ++ debug_target target
      ++ [Text "; supported serialization contract: ELF64, little endian, 64-bit addresses; machines: X86_64, AArch64, RiscV64, LoongArch64; COFF/Mach-O: little-endian 64-bit X86_64/AArch64"]
  | UnsupportedAmd64ObjectTarget target =>
      [Text "unsupported object target "] ++ debug_target target
      ++ [Text "; this operation requires ELF64, little endian, 64-bit AMD64"]
  end.
