(* ===== verification/Object.v ===== *)
(** * Relocatable objects ([object/src/core], [object/src/error.rs])

    Sections, symbols and relocations of an object file, the encodings of relocations in the three
    formats ([formats/coff/relocations.rs], [formats/macho/relocations.rs]) and the structural
    validation writers and the linker rely on.  A [usize] that only indexes a list is a [nat]; an
    offset, on which the code computes, is an integer of [Z]. *)
From S2P Require Export Diagnostics.
Local Open Scope Z_scope.

(** ** Sections, symbols and relocations *)

Module SectionKind.
Inductive t := Text_ | Data | Bss | ReadOnlyData.
#[global] Instance t_eq_dec : EqDecision t.
Proof. solve_decision. Defined.
End SectionKind.

Record Section_ := mkSection {
  sec_name : string;
  sec_kind : SectionKind.t;
  sec_data : list Z;
  zero_fill : Z;
  sec_align : Z;
}.
#[export] Instance Section_eq_dec : EqDecision Section_.
Proof. solve_decision. Defined.

Module Binding.
Inductive t := Local_ | Global_ | Weak.
#[global] Instance t_eq_dec : EqDecision t.
Proof. solve_decision. Defined.
End Binding.

Module Visibility.
Inductive t := Default_ | Hidden.
#[global] Instance t_eq_dec : EqDecision t.
Proof. solve_decision. Defined.
End Visibility.

Module SymbolKind.
Inductive t := NoType | Function_ | Object.
#[global] Instance t_eq_dec : EqDecision t.
Proof. solve_decision. Defined.
End SymbolKind.

Record ObjectSymbol := mkSymbol {
  sym_kind : SymbolKind.t;
  sym_name : string;
  sym_section : option nat;
  sym_value : Z;
  sym_size : Z;
  sym_binding : Binding.t;
  sym_visibility : Visibility.t;
}.
#[export] Instance ObjectSymbol_eq_dec : EqDecision ObjectSymbol.
Proof. solve_decision. Defined.

Inductive RelocKind :=
  | TargetSpecific (machine : Machine) (code : Z)
  | CoffSpecific (machine : Machine) (code : Z)
  | MachSpecific (machine : Machine) (code : Z)
  | Absolute64
  | Absolute32
  | SignedAbsolute32
  | Relative32
  | Relative8
  | GOTPCREL
  | PLT32.
#[export] Instance RelocKind_eq_dec : EqDecision RelocKind.
Proof. solve_decision. Defined.

Record ObjectRelocation := mkRelocation {
  rel_section : nat;
  rel_offset : Z;
  rel_symbol : string;
  rel_addend : Z;
  rel_kind : RelocKind;
}.
#[export] Instance ObjectRelocation_eq_dec : EqDecision ObjectRelocation.
Proof. solve_decision. Defined.

Record ObjectFile := mkObject {
  target : ObjectTarget;
  sections : list Section_;
  symbols : list ObjectSymbol;
  relocations : list ObjectRelocation;
}.
#[export] Instance ObjectFile_eq_dec : EqDecision ObjectFile.
Proof. solve_decision. Defined.

(** The fields are values of their machine types. *)
Record section_typed (s : Section_) : Prop := {
  st_data : Forall (λ b, 0 ≤ b < 256) (sec_data s);
  st_length : Z.of_nat (length (sec_data s)) < 2 ^ 63;
  st_zero_fill : 0 ≤ zero_fill s < 2 ^ 64;
  st_align : 0 ≤ sec_align s < 2 ^ 64;
}.
Definition symbol_typed (s : ObjectSymbol) : Prop :=
  0 ≤ sym_value s < 2 ^ 64 ∧ 0 ≤ sym_size s < 2 ^ 64.
Definition relocation_typed (r : ObjectRelocation) : Prop :=
  0 ≤ rel_offset r < 2 ^ 64 ∧ - 2 ^ 63 ≤ rel_addend r < 2 ^ 63.
Record object_typed (o : ObjectFile) : Prop := {
  ot_sections : Forall section_typed (sections o);
  ot_symbols : Forall symbol_typed (symbols o);
  ot_relocations : Forall relocation_typed (relocations o);
}.

(** ** Errors *)

Module ErrorKind.
Inductive t :=
  | InvalidTarget | InvalidAlignment | InvalidName | InvalidSection | InvalidSymbol
  | DuplicateSymbol | InvalidRelocation | OutOfBounds | Overflow | ResourceLimit | Unsupported
  | Truncated | InvalidEncoding | HostAllocation.
#[global] Instance t_eq_dec : EqDecision t.
Proof. solve_decision. Defined.
End ErrorKind.

Definition error_code (k : ErrorKind.t) : string :=
  match k with
  | ErrorKind.InvalidTarget => "invalid-target"
  | ErrorKind.InvalidAlignment => "invalid-alignment"
  | ErrorKind.InvalidName => "invalid-name"
  | ErrorKind.InvalidSection => "invalid-section"
  | ErrorKind.InvalidSymbol => "invalid-symbol"
  | ErrorKind.DuplicateSymbol => "duplicate-symbol"
  | ErrorKind.InvalidRelocation => "invalid-relocation"
  | ErrorKind.OutOfBounds => "out-of-bounds"
  | ErrorKind.Overflow => "overflow"
  | ErrorKind.ResourceLimit => "resource-limit"
  | ErrorKind.Unsupported => "unsupported"
  | ErrorKind.Truncated => "truncated"
  | ErrorKind.InvalidEncoding => "invalid-encoding"
  | ErrorKind.HostAllocation => "host-allocation"
  end.

Module Resource.
Inductive t :=
  | InputBytes | Sections | ProgramHeaders | Symbols | Relocations | PayloadBytes | StringBytes
  | Work | OutputBytes.
#[global] Instance t_eq_dec : EqDecision t.
Proof. solve_decision. Defined.
End Resource.

Definition debug_resource (r : Resource.t) : string :=
  match r with
  | Resource.InputBytes => "InputBytes"
  | Resource.Sections => "Sections"
  | Resource.ProgramHeaders => "ProgramHeaders"
  | Resource.Symbols => "Symbols"
  | Resource.Relocations => "Relocations"
  | Resource.PayloadBytes => "PayloadBytes"
  | Resource.StringBytes => "StringBytes"
  | Resource.Work => "Work"
  | Resource.OutputBytes => "OutputBytes"
  end.

Record ObjectError := mkObjectError {
  oe_kind : ErrorKind.t;
  oe_phase : string;
  oe_message : Message;
  oe_contexts : list Context.t;
  oe_resource : option Resource.t;
}.

Definition new_error (phase : string) (kind : ErrorKind.t) (message : Message) : ObjectError :=
  mkObjectError kind phase message [] None.
Definition error_context (c : Context.t) (e : ObjectError) : ObjectError :=
  mkObjectError (oe_kind e) (oe_phase e) (oe_message e) (oe_contexts e ++ [c]) (oe_resource e).
Definition error_at (offset : Z) : ObjectError → ObjectError :=
  error_context (Context.FileOffset offset).
Definition error_section (index : nat) : ObjectError → ObjectError :=
  error_context (Context.Section_ index None).
Definition error_symbol (name : string) : ObjectError → ObjectError :=
  error_context (Context.Symbol name).
Definition error_limit (phase : string) (r : Resource.t) : ObjectError :=
  mkObjectError ErrorKind.ResourceLimit phase
    [Text "object "; Text (debug_resource r); Text " limit exceeded"] [] (Some r).

#[export] Instance object_error_diagnostic : ToDiagnostic ObjectError := λ e,
  mkDiagnostic "object" (oe_phase e) (error_code (oe_kind e)) (oe_message e) (oe_contexts e).

(** ** Relocation encodings *)

Definition debug_reloc (k : RelocKind) : Message :=
  match k with
  | TargetSpecific m c => [Text "TargetSpecific { machine: "; Text (debug_machine m);
                           Text ", code: "; Number c; Text " }"]
  | CoffSpecific m c => [Text "CoffSpecific { machine: "; Text (debug_machine m);
                         Text ", code: "; Number c; Text " }"]
  | MachSpecific m c => [Text "MachSpecific { machine: "; Text (debug_machine m);
                         Text ", code: "; Number c; Text " }"]
  | Absolute64 => [Text "Absolute64"]
  | Absolute32 => [Text "Absolute32"]
  | SignedAbsolute32 => [Text "SignedAbsolute32"]
  | Relative32 => [Text "Relative32"]
  | Relative8 => [Text "Relative8"]
  | GOTPCREL => [Text "GOTPCREL"]
  | PLT32 => [Text "PLT32"]
  end.

Definition unsupported_reloc (what : string) (k : RelocKind) (m : Machine) : Message :=
  [Text what] ++ debug_reloc k ++ [Text " for "; Text (debug_machine m)].

Definition coff_encoding (k : RelocKind) (m : Machine) : result Message (Z * Z) :=
  let unsupported := Err (unsupported_reloc "unsupported COFF relocation " k m) in
  match m, k with
  | X86_64, Absolute64 => Ok (1, 8)
  | X86_64, Absolute32 => Ok (2, 4)
  | X86_64, (Relative32 | PLT32) => Ok (4, 4)
  | AArch64, Absolute64 => Ok (14, 8)
  | AArch64, Absolute32 => Ok (1, 4)
  | AArch64, CoffSpecific AArch64 c =>
      if (c =? 3) || (c =? 5) || (c =? 15) then Ok (c, 4) else unsupported
  | _, _ => unsupported
  end.

Definition macho_encoding (k : RelocKind) (m : Machine) : result Message (Z * Z) :=
  let unsupported := Err (unsupported_reloc "unsupported Mach-O relocation " k m) in
  match m, k with
  | AArch64, Absolute64 => Ok (0, 8)
  | AArch64, MachSpecific AArch64 c =>
      if c =? 0 then Ok (0, 8) else if c =? 2 then Ok (2, 4) else unsupported
  | X86_64, Absolute64 => Ok (0, 8)
  | X86_64, Relative32 => Ok (1, 4)
  | X86_64, PLT32 => Ok (2, 4)
  | X86_64, MachSpecific X86_64 c =>
      if c =? 0 then Ok (0, 8) else if (c =? 1) || (c =? 2) then Ok (c, 4) else unsupported
  | _, _ => unsupported
  end.

Definition elf_encoding (k : RelocKind) (m : Machine) : result Message (Z * Z) :=
  let unsupported := Err (unsupported_reloc "unsupported relocation " k m) in
  match m, k with
  | X86_64, Absolute64 => Ok (1, 8)
  | X86_64, Absolute32 => Ok (10, 4)
  | X86_64, SignedAbsolute32 => Ok (11, 4)
  | X86_64, Relative32 => Ok (2, 4)
  | X86_64, Relative8 => Ok (15, 1)
  | X86_64, GOTPCREL => Ok (9, 4)
  | X86_64, PLT32 => Ok (4, 4)
  | AArch64, Absolute64 => Ok (257, 8)
  | AArch64, Absolute32 => Ok (258, 4)
  | (RiscV64 | LoongArch64), Absolute64 => Ok (2, 8)
  | (RiscV64 | LoongArch64), Absolute32 => Ok (1, 4)
  | AArch64, TargetSpecific AArch64 c =>
      if (c =? 274) || (c =? 280) || (c =? 282) || (c =? 283) then Ok (c, 4) else unsupported
  | RiscV64, TargetSpecific RiscV64 c =>
      if (c =? 16) || (c =? 17) then Ok (c, 4) else unsupported
  | LoongArch64, TargetSpecific LoongArch64 c =>
      if (64 <=? c) && (c <=? 66) then Ok (c, 4) else unsupported
  | _, _ => unsupported
  end.

(** The code of the relocation in the format and the width of the field it patches. *)
Definition encoding (k : RelocKind) (t : ObjectTarget) : result Message (Z * Z) :=
  match format t with
  | COFF => coff_encoding k (machine t)
  | MachO64 => macho_encoding k (machine t)
  | ELF64 => elf_encoding k (machine t)
  end.

(** ** Sections *)

(** [str::contains('\0')]. *)
Definition contains_nul (s : string) : bool := existsb (λ b, b =? 0) (bytes_of_string s).

Definition data_len (s : Section_) : Z := Z.of_nat (length (sec_data s)).

Definition memory_size (s : Section_) : result Message Z :=
  if negb (bool_decide (sec_kind s = SectionKind.Bss)) && negb (zero_fill s =? 0) then
    Err [Text "section "; Quoted (sec_name s); Text ": zero_fill is only valid for BSS"]
  else if bool_decide (sec_kind s = SectionKind.Bss)
          && existsb (λ b, negb (b =? 0)) (sec_data s) then
    Err [Text "BSS section "; Quoted (sec_name s); Text " has a nonzero initializer"]
  else ok_or (checked_u 64 (data_len s + zero_fill s))
         [Text "section "; Quoted (sec_name s); Text ": memory size overflow"].

Definition file_size (s : Section_) : Z :=
  if decide (sec_kind s = SectionKind.Bss) then 0 else data_len s.

(** ** Objects *)

Definition with_target (t : ObjectTarget) : ObjectFile := mkObject t [] [] [].

Definition new_object (f : ObjectFormat) : ObjectFile :=
  let t := object_target X86_64WhaleLinux in
  with_target (mkObjectTarget f (machine t) (ot_endian t) (address_bits t)).

(** The index of the new section and the object with it. *)
Definition add_section (o : ObjectFile) (name : string) (kind : SectionKind.t) (align : Z)
  : nat * ObjectFile :=
  (length (sections o),
   mkObject (target o) (sections o ++ [mkSection name kind [] 0 align]) (symbols o)
     (relocations o)).

(** ** Validation *)

Definition invalid (kind : ErrorKind.t) (message : Message) : ObjectError :=
  new_error "validate" kind message.

Definition validate_section (index : nat) (s : Section_) : result ObjectError unit :=
  _ ← guard_err (bool_decide (sec_kind s = SectionKind.Bss) || (zero_fill s =? 0))
        (error_section index (invalid ErrorKind.InvalidSection
           [Text "section "; Quoted (sec_name s); Text ": zero_fill is only valid for BSS"]));
  _ ← guard_err (negb (bool_decide (sec_kind s = SectionKind.Bss)
                       && existsb (λ b, negb (b =? 0)) (sec_data s)))
        (error_section index (invalid ErrorKind.InvalidSection
           [Text "BSS section "; Quoted (sec_name s); Text " has a nonzero initializer"]));
  _ ← ok_or (checked_u 64 (data_len s + zero_fill s))
        (error_section index (invalid ErrorKind.Overflow
           [Text "section "; Quoted (sec_name s); Text ": memory size overflow"]));
  _ ← guard_err (negb (contains_nul (sec_name s)))
        (error_section index (invalid ErrorKind.InvalidName
           [Text "section name "; Quoted (sec_name s); Text " contains embedded NUL byte"]));
  guard_err ((sec_align s =? 0) || is_power_of_two (sec_align s))
    (error_section index (invalid ErrorKind.InvalidAlignment
       [Text "section "; Quoted (sec_name s); Text " alignment "; Number (sec_align s);
        Text " must be zero or a power of two"])).

Fixpoint validate_sections (index : nat) (ss : list Section_) : result ObjectError unit :=
  match ss with
  | [] => Ok tt
  | s :: ss => _ ← validate_section index s; validate_sections (S index) ss
  end.

(** [names] holds the names of the symbols before this one; the result adds its name. *)
Definition validate_symbol (o : ObjectFile) (names : gset string) (s : ObjectSymbol)
  : result ObjectError (gset string) :=
  _ ← guard_err (negb (contains_nul (sym_name s)))
        (error_symbol (sym_name s) (invalid ErrorKind.InvalidName
           [Text "symbol name "; Quoted (sym_name s); Text " contains embedded NUL byte"]));
  _ ← guard_err (bool_decide (sym_name s ∉ names))
        (error_symbol (sym_name s) (invalid ErrorKind.DuplicateSymbol
           [Text "duplicate symbol name "; Quoted (sym_name s)]));
  let names := {[sym_name s]} ∪ names in
  match sym_section s with
  | None => Ok names
  | Some index =>
      section ← ok_or (sections o !! index)
        (error_symbol (sym_name s) (error_section index (invalid ErrorKind.InvalidSection
           [Text "symbol "; Quoted (sym_name s); Text " references invalid section ";
            Number (Z.of_nat index)])));
      end_ ← ok_or (checked_u 64 (sym_value s + sym_size s))
        (error_symbol (sym_name s) (invalid ErrorKind.Overflow
           [Text "symbol range overflow for "; Quoted (sym_name s)]));
      size ← expect (ok (memory_size section));
      _ ← guard_err (end_ <=? size)
        (error_symbol (sym_name s) (error_section index (invalid ErrorKind.OutOfBounds
           [Text "symbol range for "; Quoted (sym_name s); Text " exceeds section ";
            Quoted (sec_name section); Text " size "; Number size])));
      Ok names
  end.

Fixpoint validate_symbols (o : ObjectFile) (names : gset string) (ss : list ObjectSymbol)
  : result ObjectError unit :=
  match ss with
  | [] => Ok tt
  | s :: ss => names ← validate_symbol o names s; validate_symbols o names ss
  end.

Definition validate_relocation (o : ObjectFile) (r : ObjectRelocation)
  : result ObjectError unit :=
  _ ← guard_err (negb (contains_nul (rel_symbol r)))
        (error_symbol (rel_symbol r) (invalid ErrorKind.InvalidName
           [Text "relocation reference "; Quoted (rel_symbol r);
            Text " contains embedded NUL byte"]));
  section ← ok_or (sections o !! rel_section r)
        (error_section (rel_section r) (invalid ErrorKind.InvalidSection
           [Text "relocation for "; Quoted (rel_symbol r); Text " references invalid section ";
            Number (Z.of_nat (rel_section r))]));
  _ ← guard_err (negb (bool_decide (sec_kind section = SectionKind.Bss)))
        (error_section (rel_section r) (invalid ErrorKind.InvalidRelocation
           [Text "relocations targeting BSS section "; Quoted (sec_name section);
            Text " are not supported"]));
  '(_, width) ← map_err (λ e, error_section (rel_section r) (invalid ErrorKind.InvalidRelocation e))
        (encoding (rel_kind r) (target o));
  end_ ← ok_or (checked_u 64 (rel_offset r + width))
        (error_section (rel_section r) (invalid ErrorKind.Overflow
           [Text "relocation range overflow in section "; Quoted (sec_name section);
            Text " at offset "; Number (rel_offset r)]));
  guard_err (end_ <=? data_len section)
    (error_section (rel_section r) (invalid ErrorKind.OutOfBounds
       [Text "relocation range "; Number (rel_offset r); Text ".."; Number end_;
        Text " exceeds section "; Quoted (sec_name section); Text " size ";
        Number (data_len section)])).

Fixpoint validate_relocations (o : ObjectFile) (rs : list ObjectRelocation)
  : result ObjectError unit :=
  match rs with
  | [] => Ok tt
  | r :: rs => _ ← validate_relocation o r; validate_relocations o rs
  end.

Definition validate_diagnostic (o : ObjectFile) : result ObjectError unit :=
  _ ← map_err (λ e, invalid ErrorKind.InvalidTarget (display_target_error e))
        (validate_object (target o));
  _ ← validate_sections 0 (sections o);
  _ ← validate_symbols o ∅ (symbols o);
  validate_relocations o (relocations o).

Definition validate (o : ObjectFile) : result Message unit :=
  map_err to_message (validate_diagnostic o).

(** ** What validation accepts *)

Definition extent (s : Section_) : Z := data_len s + zero_fill s.

Record section_ok (s : Section_) : Prop := {
  so_fill : sec_kind s ≠ SectionKind.Bss → zero_fill s = 0;
  so_bss : sec_kind s = SectionKind.Bss → Forall (λ b, b = 0) (sec_data s);
  so_extent : 0 ≤ extent s < 2 ^ 64;
  so_name : contains_nul (sec_name s) = false;
  so_align : sec_align s = 0 ∨ is_power_of_two (sec_align s) = true;
}.

(** A defined symbol lies inside its section. *)
Record symbol_ok (o : ObjectFile) (s : ObjectSymbol) : Prop := {
  yo_name : contains_nul (sym_name s) = false;
  yo_section i : sym_section s = Some i →
    ∃ section, sections o !! i = Some section
      ∧ 0 ≤ sym_value s + sym_size s < 2 ^ 64 ∧ sym_value s + sym_size s ≤ extent section;
}.

(** The field a relocation patches lies in the payload of its section. *)
Record relocation_ok (o : ObjectFile) (r : ObjectRelocation) : Prop := {
  ro_name : contains_nul (rel_symbol r) = false;
  ro_field : ∃ section c width, sections o !! rel_section r = Some section
    ∧ sec_kind section ≠ SectionKind.Bss
    ∧ encoding (rel_kind r) (target o) = Ok (c, width)
    ∧ 0 ≤ rel_offset r + width < 2 ^ 64 ∧ rel_offset r + width ≤ data_len section;
}.

Record object_ok (o : ObjectFile) : Prop := {
  oo_target : validate_object (target o) = Ok tt;
  oo_sections : Forall section_ok (sections o);
  oo_names : NoDup (sym_name <$> symbols o);
  oo_symbols : Forall (symbol_ok o) (symbols o);
  oo_relocations : Forall (relocation_ok o) (relocations o);
}.

Lemma data_len_nonneg s : 0 ≤ data_len s.
Proof. unfold data_len. lia. Qed.

Lemma encoding_no_panic k t : encoding k t ≠ Panic.
Proof.
  unfold encoding, elf_encoding, coff_encoding, macho_encoding.
  repeat (case_match; try done).
Qed.

Lemma bss_nonzero s :
  existsb (λ b, negb (b =? 0)) (sec_data s) = false ↔ Forall (λ b, b = 0) (sec_data s).
Proof.
  rewrite existsb_false, Forall_lookup. split; intros H i x Hx; specialize (H i x Hx); lia.
Qed.

Lemma checked_extent s : 0 ≤ extent s < 2 ^ 64 → checked_u 64 (data_len s + zero_fill s) = Some (extent s).
Proof. intros. by apply checked_u_Some. Qed.

Lemma memory_size_ok s : section_ok s → memory_size s = Ok (extent s).
Proof.
  intros [Hf Hb He _ _]. unfold memory_size.
  destruct (decide (sec_kind s = SectionKind.Bss)) as [Hk|Hk].
  - rewrite bool_decide_eq_true_2 by done. simpl.
    rewrite (proj2 (bss_nonzero s)) by auto. simpl.
    by rewrite checked_extent.
  - rewrite bool_decide_eq_false_2 by done. rewrite (proj2 (Z.eqb_eq _ _) (Hf Hk)). simpl.
    by rewrite checked_extent.
Qed.

Lemma memory_size_Ok s n :
  memory_size s = Ok n → n = extent s ∧ 0 ≤ n < 2 ^ 64
    ∧ (sec_kind s ≠ SectionKind.Bss → zero_fill s = 0).
Proof.
  unfold memory_size. destruct (bool_decide_reflect (sec_kind s = SectionKind.Bss)) as [Hk|Hk]; simpl.
  - destruct (existsb _ _); [done|]. by intros [-> ?]%ok_or_Ok%checked_u_Some.
  - destruct (Z.eqb_spec (zero_fill s) 0); [|done]. by intros [-> ?]%ok_or_Ok%checked_u_Some.
Qed.

Lemma memory_size_no_panic s : memory_size s ≠ Panic.
Proof. unfold memory_size. repeat (case_match; try done). apply ok_or_not_Panic. Qed.

Lemma file_size_extent s :
  section_ok s → sec_kind s ≠ SectionKind.Bss → file_size s = extent s.
Proof.
  intros Hs Hk. unfold file_size, extent. rewrite decide_False by done.
  rewrite (so_fill _ Hs Hk). lia.
Qed.

Lemma validate_section_decides i s : validate_section i s = Ok tt ↔ section_ok s.
Proof.
  unfold validate_section. split.
  - intros H. inv_ok. split.
    + intros Hk. rewrite bool_decide_eq_false_2 in * by done. simpl in *. lia.
    + intros Hk. rewrite bool_decide_eq_true_2 in * by done. simpl in *.
      apply bss_nonzero. by apply negb_true_iff.
    + by match goal with H : checked_u _ _ = Some _ |- _ => apply checked_u_Some in H as [-> ?] end.
    + by apply negb_true_iff.
    + match goal with H : _ || _ = true |- _ => apply orb_true_iff in H end.
      rewrite <- Z.eqb_eq. tauto.
  - intros [Hf Hb He Hn Ha].
    assert (bool_decide (sec_kind s = SectionKind.Bss) || (zero_fill s =? 0) = true) as ->.
    { case_bool_decide; simpl; [done|]. rewrite Hf; done. }
    simpl. assert (bool_decide (sec_kind s = SectionKind.Bss)
                   && existsb (λ b, negb (b =? 0)) (sec_data s) = false) as ->.
    { case_bool_decide; simpl; [|done]. apply bss_nonzero; auto. }
    simpl. rewrite checked_extent by done. simpl.
    rewrite Hn. simpl. destruct Ha as [->| ->]; [done|]. by rewrite orb_true_r.
Qed.

Lemma validate_sections_decides i ss : validate_sections i ss = Ok tt ↔ Forall section_ok ss.
Proof.
  revert i. induction ss as [|s ss IH]; intros i; simpl; [split; auto|].
  rewrite bind_Ok, Forall_cons, <- (IH (S i)), <- (validate_section_decides i s).
  split; [by intros ([] & ? & ?)|intros [? ?]; by exists ()].
Qed.

Lemma validate_symbol_decides o names s names' :
  Forall section_ok (sections o) →
  validate_symbol o names s = Ok names' ↔
    symbol_ok o s ∧ sym_name s ∉ names ∧ names' = {[sym_name s]} ∪ names.
Proof.
  intros Hss. unfold validate_symbol. split.
  - intros H. apply bind_Ok in H as (?&?%guard_err_Ok%negb_true_iff&H).
    apply bind_Ok in H as (?&?%guard_err_Ok%bool_decide_eq_true&H). cbv zeta in H.
    destruct (sym_section s) as [i|] eqn:Ei; [|injection H as <-; repeat split; naive_solver].
    apply bind_Ok in H as (section&Hsec%ok_or_Ok&H).
    apply bind_Ok in H as (e&[-> He]%ok_or_Ok%checked_u_Some&H).
    rewrite memory_size_ok in H by (eapply Forall_lookup_1 in Hsec; eauto). simpl in H.
    apply bind_Ok in H as (?&?%guard_err_Ok&[= <-]).
    split; [|done]. split; [done|]. rewrite Ei. intros ? [= <-]. exists section. repeat split; lia || done.
  - intros (Hok & Hn & ->). rewrite (yo_name _ _ Hok). simpl.
    rewrite bool_decide_eq_true_2 by done. simpl.
    destruct (sym_section s) as [i|] eqn:Ei; [|done].
    destruct (yo_section _ _ Hok i Ei) as (section & Hsec & He & Hle). rewrite Hsec. simpl.
    rewrite (proj2 (checked_u_Some _ _ _) (conj eq_refl He)). simpl.
    rewrite memory_size_ok by (eapply Forall_lookup_1 in Hsec; eauto). simpl.
    by rewrite (proj2 (Z.leb_le _ _) Hle).
Qed.

Lemma validate_symbols_decides o names ss :
  Forall section_ok (sections o) →
  validate_symbols o names ss = Ok tt ↔
    Forall (symbol_ok o) ss ∧ NoDup (sym_name <$> ss) ∧ (∀ s, s ∈ ss → sym_name s ∉ names).
Proof.
  intros Hss. revert names. induction ss as [|s ss IH]; intros names.
  { simpl. split; [intros _; repeat split; [done|apply NoDup_nil_2|by intros ? ?%not_elem_of_nil]|done]. }
  cbn [validate_symbols fmap list_fmap]. rewrite bind_Ok, Forall_cons, NoDup_cons. split.
  - intros (names' & (Hs & Hn & ->)%validate_symbol_decides & H) ; [|done].
    apply IH in H as (Hf & Hnd & Hdis). split; [done|]. split.
    + split; [|done]. intros (s' & Heq & Hin)%list_elem_of_fmap. apply (Hdis s' Hin).
      rewrite Heq. apply elem_of_union_l. by apply elem_of_singleton.
    + intros s' [->|Hin]%elem_of_cons; [done|]. intros Hs'. apply (Hdis s' Hin).
      by apply elem_of_union_r.
  - intros ((Hs & Hf) & (Hnin & Hnd) & Hdis). exists ({[sym_name s]} ∪ names). split.
    + apply validate_symbol_decides; [done|]. split; [done|]. split; [|done].
      apply Hdis. apply elem_of_cons. by left.
    + apply IH. split; [done|]. split; [done|]. intros s' Hin [Heq%elem_of_singleton|Hin']%elem_of_union.
      * apply Hnin. apply list_elem_of_fmap. by exists s'.
      * apply (Hdis s'); [apply elem_of_cons; by right|done].
Qed.

Lemma validate_relocation_decides o r : validate_relocation o r = Ok tt ↔ relocation_ok o r.
Proof.
  unfold validate_relocation. split.
  - intros H. apply bind_Ok in H as (?&?%guard_err_Ok%negb_true_iff&H).
    apply bind_Ok in H as (section&Hsec%ok_or_Ok&H).
    apply bind_Ok in H as (?&?%guard_err_Ok%negb_true_iff%bool_decide_eq_false&H).
    apply bind_Ok in H as ([c w]&Henc&H).
    destruct (encoding _ _) as [p| |] eqn:E; try done. injection Henc as ->.
    apply bind_Ok in H as (e&[-> He]%ok_or_Ok%checked_u_Some&H%guard_err_Ok).
    split; [done|]. exists section, c, w. repeat split; lia || done.
  - intros [Hn (section & c & w & Hsec & Hk & Henc & He & Hle)]. rewrite Hn, Hsec. simpl.
    rewrite bool_decide_eq_false_2 by done. simpl. rewrite Henc. simpl.
    rewrite (proj2 (checked_u_Some _ _ _) (conj eq_refl He)). simpl.
    by rewrite (proj2 (Z.leb_le _ _) Hle).
Qed.

Lemma validate_relocations_decides o rs :
  validate_relocations o rs = Ok tt ↔ Forall (relocation_ok o) rs.
Proof.
  induction rs as [|r rs IH]; simpl; [split; auto|].
  rewrite bind_Ok, Forall_cons, <- IH, <- validate_relocation_decides.
  split; [by intros ([] & ? & ?)|intros [? ?]; by exists ()].
Qed.

Lemma validate_diagnostic_decides o : validate_diagnostic o = Ok tt ↔ object_ok o.
Proof.
  unfold validate_diagnostic. split.
  - intros H. apply bind_Ok in H as ([]&Ht&H). apply bind_Ok in H as ([]&Hs&H).
    apply bind_Ok in H as ([]&Hy&Hr). apply validate_sections_decides in Hs.
    apply validate_symbols_decides in Hy as (Hy & Hnd & _); [|done].
    apply validate_relocations_decides in Hr. split; try done.
    by destruct (validate_object _) as [[]| |].
  - intros [Ht Hs Hnd Hy Hr]. rewrite Ht. simpl.
    rewrite (proj2 (validate_sections_decides _ _) Hs). simpl.
    rewrite (proj2 (validate_symbols_decides o ∅ _ Hs)).
    + simpl. by apply validate_relocations_decides.
    + split; [done|]. split; [done|]. intros s _. apply not_elem_of_empty.
Qed.

Lemma validate_no_panic o : validate_diagnostic o ≠ Panic.
Proof.
  unfold validate_diagnostic. intros H. apply bind_Panic in H as [H|([]&_&H)].
  { revert H. unfold validate_object. by case_match. }
  apply bind_Panic in H as [H|([]&Hs&H)].
  { revert H. generalize 0%nat. induction (sections o) as [|s ss IH]; intros i; simpl; [done|].
    intros [H|([]&_&H)]%bind_Panic; [|by eapply IH].
    unfold validate_section, guard_err, ok_or in H. repeat (case_match; simpl in *; try done). }
  apply validate_sections_decides in Hs.
  apply bind_Panic in H as [H|([]&_&H)].
  - revert H. generalize (∅ : gset string). induction (symbols o) as [|s ss IH]; intros N; simpl; [done|].
    intros [H|(?&_&H)]%bind_Panic; [|by eapply IH]. unfold validate_symbol in H.
    apply bind_Panic in H as [H|(?&_&H)]; [revert H; unfold guard_err; by case_match|].
    apply bind_Panic in H as [H|(?&_&H)]; [revert H; unfold guard_err; by case_match|].
    cbv zeta in H. destruct (sym_section s); [|done].
    apply bind_Panic in H as [H|(section&Hsec%ok_or_Ok&H)]; [by apply ok_or_not_Panic in H|].
    apply bind_Panic in H as [H|(?&_&H)]; [by apply ok_or_not_Panic in H|].
    rewrite memory_size_ok in H by (eapply Forall_lookup_1 in Hsec; eauto). simpl in H.
    revert H. unfold guard_err. by case_match.
  - induction (relocations o) as [|r rs IH]; simpl in H; [done|].
    apply bind_Panic in H as [H|([]&_&H)]; [|by apply IH]. unfold validate_relocation in H.
    apply bind_Panic in H as [H|(?&_&H)]; [revert H; unfold guard_err; by case_match|].
    apply bind_Panic in H as [H|(section&_&H)]; [by apply ok_or_not_Panic in H|].
    apply bind_Panic in H as [H|(?&_&H)]; [revert H; unfold guard_err; by case_match|].
    apply bind_Panic in H as [H|([? ?]&_&H)].
    { revert H. pose proof (encoding_no_panic (rel_kind r) (target o)). by destruct (encoding _ _). }
    apply bind_Panic in H as [H|(?&_&H)]; [by apply ok_or_not_Panic in H|].
    revert H. unfold guard_err. by case_match.
Qed.

Lemma validate_decides o : validate o = Ok tt ↔ object_ok o.
Proof.
  rewrite <- validate_diagnostic_decides. unfold validate.
  by destruct (validate_diagnostic o) as [[]| |].
Qed.

(** The bytes of payload of a list of objects. *)
Definition payload_of (objects : list ObjectFile) : Z :=
  foldr (λ o n, foldr (λ s k, data_len s + k) 0 (sections o) + n) 0 objects.

Lemma payload_of_snoc objects o : payload_of (objects ++ [o]) = payload_of objects + payload_of [o].
Proof. unfold payload_of. induction objects; simpl in *; lia. Qed.

Lemma payload_of_nonneg objects : 0 ≤ payload_of objects.
Proof.
  unfold payload_of. induction objects as [|o os IH]; simpl; [done|].
  assert (0 ≤ foldr (λ s k, data_len s + k) 0 (sections o)); [|lia].
  induction (sections o) as [|s ss IH']; simpl; [done|]. pose proof (data_len_nonneg s). lia.
Qed.

(** ** Sample objects

    A program that calls [callee] and keeps its address in data, and a library that defines it. *)

Definition sample_main : ObjectFile :=
  mkObject (object_target X86_64WhaleLinux)
    [mkSection ".text" SectionKind.Text_ [0xe8; 0; 0; 0; 0; 0xc3] 0 16;
     mkSection ".data" SectionKind.Data [1; 2; 3; 4; 0; 0; 0; 0; 0; 0; 0; 0] 0 4;
     mkSection ".bss" SectionKind.Bss [] 32 8]
    [mkSymbol SymbolKind.Function_ "_start" (Some 0%nat) 0 6 Binding.Global_ Visibility.Default_;
     mkSymbol SymbolKind.NoType "callee" None 0 0 Binding.Global_ Visibility.Default_;
     mkSymbol SymbolKind.NoType "hook" None 0 0 Binding.Weak Visibility.Default_]
    [mkRelocation 0 1 "callee" (-4) PLT32; mkRelocation 1 4 "callee" 0 Absolute64].

Definition sample_library : ObjectFile :=
  mkObject (object_target X86_64WhaleLinux)
    [mkSection ".text" SectionKind.Text_ [0x90; 0xc3] 0 16]
    [mkSymbol SymbolKind.Function_ "callee" (Some 0%nat) 1 1 Binding.Global_ Visibility.Default_] [].

(** A member that nothing needs. *)
Definition sample_spare : ObjectFile :=
  mkObject (object_target X86_64WhaleLinux)
    [mkSection ".rodata" SectionKind.ReadOnlyData [7] 0 1]
    [mkSymbol SymbolKind.Object "spare" (Some 0%nat) 0 1 Binding.Global_ Visibility.Default_] [].

Definition sample_objects : list ObjectFile := [sample_main; sample_library].

Lemma sample_typed : Forall object_typed [sample_main; sample_library; sample_spare].
Proof. repeat (constructor || split); cbn; lia. Qed.

Lemma sample_objects_typed : Forall object_typed sample_objects.
Proof.
  pose proof sample_typed as H. rewrite !Forall_cons in H. unfold sample_objects. rewrite !Forall_cons. tauto.
Qed.

Example sample_valid : validate_diagnostic sample_main = Ok tt.
Proof. by vm_compute. Qed.
