(* ===== verification/ElfWrite.v ===== *)
(** * The ELF writer ([object/src/formats/elf.rs])

    Relocatable objects are written in one pass behind a [preflight] that accounts for the whole
    output.  A vector of headers and the vector of payloads pushed beside it are one list of pairs;
    whether the host grants a [try_reserve] is the oracle [host], asked with the site of the request
    and the number of the loop turn; [size_of::<SymBuild>()], the layout of which the compiler
    chooses, is the argument [stride]. *)
From S2P Require Export Bytes Object.
Local Open Scope string_scope.
Local Open Scope list_scope.
Local Open Scope Z_scope.

Definition Host : Type := string → nat → bool.

Definition write_error (kind : ErrorKind.t) (message : Message) : ObjectError :=
  new_error "write" kind message.
Definition output_limit : ObjectError :=
  mkObjectError ErrorKind.ResourceLimit "write"
    [Text "ELF output exceeds configured size limit"] [] (Some Resource.OutputBytes).
Definition write_overflow (what : string) : ObjectError :=
  write_error ErrorKind.Overflow [Text what].
Definition write_allocation (what : string) : ObjectError :=
  write_error ErrorKind.HostAllocation [Text what].

(** ** Constants and file records *)

Definition ELF_HDR_SIZE : Z := 64.
Definition ELF_SHDR_SIZE : Z := 64.
Definition ELF_SYM_SIZE : Z := 24.
Definition ELF_RELA_SIZE : Z := 24.
Definition SHT_NULL : Z := 0.
Definition SHT_PROGBITS : Z := 1.
Definition SHT_SYMTAB : Z := 2.
Definition SHT_STRTAB : Z := 3.
Definition SHT_RELA : Z := 4.
Definition SHT_NOBITS : Z := 8.
Definition SHF_WRITE : Z := 0x1.
Definition SHF_ALLOC : Z := 0x2.
Definition SHF_EXECINSTR : Z := 0x4.
Definition SHF_INFO_LINK : Z := 0x40.
Definition DEFAULT_MAX_OUTPUT_SIZE : Z := 256 * 1024 * 1024.

Record Elf64Header := mkElf64Header {
  eh_ident : list Z;
  eh_type : Z;
  eh_machine : Z;
  eh_version : Z;
  eh_entry : Z;
  eh_phoff : Z;
  eh_shoff : Z;
  eh_flags : Z;
  eh_ehsize : Z;
  eh_phentsize : Z;
  eh_phnum : Z;
  eh_shentsize : Z;
  eh_shnum : Z;
  eh_shstrndx : Z;
}.

Definition header_bytes (h : Elf64Header) : list Z :=
  eh_ident h ++ to_le_bytes 2 (eh_type h) ++ to_le_bytes 2 (eh_machine h)
  ++ to_le_bytes 4 (eh_version h) ++ to_le_bytes 8 (eh_entry h) ++ to_le_bytes 8 (eh_phoff h)
  ++ to_le_bytes 8 (eh_shoff h) ++ to_le_bytes 4 (eh_flags h) ++ to_le_bytes 2 (eh_ehsize h)
  ++ to_le_bytes 2 (eh_phentsize h) ++ to_le_bytes 2 (eh_phnum h) ++ to_le_bytes 2 (eh_shentsize h)
  ++ to_le_bytes 2 (eh_shnum h) ++ to_le_bytes 2 (eh_shstrndx h).

Record Elf64Shdr := mkShdr {
  sh_name : Z;
  sh_type : Z;
  sh_flags : Z;
  sh_addr : Z;
  sh_offset : Z;
  sh_size : Z;
  sh_link : Z;
  sh_info : Z;
  sh_addralign : Z;
  sh_entsize : Z;
}.

Definition shdr_bytes (h : Elf64Shdr) : list Z :=
  to_le_bytes 4 (sh_name h) ++ to_le_bytes 4 (sh_type h) ++ to_le_bytes 8 (sh_flags h)
  ++ to_le_bytes 8 (sh_addr h) ++ to_le_bytes 8 (sh_offset h) ++ to_le_bytes 8 (sh_size h)
  ++ to_le_bytes 4 (sh_link h) ++ to_le_bytes 4 (sh_info h) ++ to_le_bytes 8 (sh_addralign h)
  ++ to_le_bytes 8 (sh_entsize h).

Record Elf64Sym := mkSym {
  st_name : Z;
  st_info : Z;
  st_other : Z;
  st_shndx : Z;
  st_value : Z;
  st_size : Z;
}.

Definition sym_bytes (s : Elf64Sym) : list Z :=
  to_le_bytes 4 (st_name s) ++ [st_info s] ++ [st_other s] ++ to_le_bytes 2 (st_shndx s)
  ++ to_le_bytes 8 (st_value s) ++ to_le_bytes 8 (st_size s).

Record Elf64Rela := mkRela {
  r_offset : Z;
  r_info : Z;
  r_addend : Z;
}.

Definition rela_bytes (r : Elf64Rela) : list Z :=
  to_le_bytes 8 (r_offset r) ++ to_le_bytes 8 (r_info r) ++ to_le_bytes 8 (r_addend r).

(** ** Checked sizes *)

Definition align_up (value align : Z) : result ObjectError Z :=
  _ ← guard_err (is_power_of_two align)
        (write_error ErrorKind.InvalidAlignment [Text "ELF alignment must be a power of two"]);
  ok_or (align_up64 value align) (write_overflow "ELF alignment overflow").

Definition checked_u32 (value : Z) (field : string) : result ObjectError Z :=
  ok_or (checked_u 32 value)
    (write_error ErrorKind.Overflow [Text "ELF "; Text field; Text " exceeds 32-bit range"]).

Definition checked_section_count (input relocation_sections : Z) : result ObjectError Z :=
  count ← ok_or (n ← checked_u 64 (input + relocation_sections); checked_u 64 (n + 4))
            (write_overflow "ELF section count overflow");
  _ ← guard_err (count <? 0xff00)
        (write_error ErrorKind.Unsupported [Text "ELF extended section numbering is not supported"]);
  Ok (wrapu 16 count).

Definition checked_output_size (size limit : Z) : result ObjectError Z :=
  _ ← guard_err (size <=? limit) output_limit;
  size ← ok_or (checked_u 64 size) (write_overflow "ELF output exceeds host capacity");
  _ ← guard_err (size <=? 2 ^ 63 - 1) (write_overflow "ELF output exceeds host capacity");
  Ok size.

Definition checked_table_bytes (count stride limit : Z) : result ObjectError Z :=
  size ← ok_or (checked_u 64 (count * stride)) (write_overflow "ELF table size overflow");
  checked_output_size size limit.

Definition checked_name_end (current name_len : Z) : result ObjectError Z :=
  end_ ← ok_or (n ← checked_u 64 (current + name_len); checked_u 64 (n + 1))
           (write_overflow "ELF string table overflow");
  _ ← checked_u32 end_ "string table size";
  Ok end_.

(** The table with the name appended, and the offset of the name. *)
Definition push_name (granted : bool) (table : list Z) (name : string)
  : result ObjectError (list Z * Z) :=
  _ ← checked_name_end (len table) (name_len name);
  index ← checked_u32 (len table) "string offset";
  _ ← guard_err granted (write_allocation "ELF string allocation failed");
  Ok (table ++ bytes_of_string name ++ [0], index).

Definition section_type_and_flags (kind : SectionKind.t) : Z * Z :=
  match kind with
  | SectionKind.Text_ => (SHT_PROGBITS, Z.lor SHF_ALLOC SHF_EXECINSTR)
  | SectionKind.Data => (SHT_PROGBITS, Z.lor SHF_ALLOC SHF_WRITE)
  | SectionKind.ReadOnlyData => (SHT_PROGBITS, SHF_ALLOC)
  | SectionKind.Bss => (SHT_NOBITS, Z.lor SHF_ALLOC SHF_WRITE)
  end.

Definition binding_to_stb (b : Binding.t) : Z :=
  match b with Binding.Local_ => 0 | Binding.Global_ => 1 | Binding.Weak => 2 end.

Definition visibility_to_stv (v : Visibility.t) : Z :=
  match v with Visibility.Default_ => 0 | Visibility.Hidden => 2 end.

(** ** Preflight *)

Definition count_relocation (o : ObjectFile) (counts : gmap nat Z) (r : ObjectRelocation)
  : result ObjectError (gmap nat Z) :=
  _ ← guard_err (rel_section r <? length (sections o))%nat
        (error_section (rel_section r) (write_error ErrorKind.InvalidSection
           [Text "relocation references invalid section "; Number (Z.of_nat (rel_section r))]));
  count ← ok_or (checked_u 64 (default 0 (counts !! rel_section r) + 1))
            (write_overflow "ELF relocation count overflow");
  Ok (<[rel_section r := count]> counts).

(** The state is the file offset and the size of the section names. *)
Definition preflight_section (counts : gmap nat Z) (limit : Z) (st : Z * Z) (x : nat * Section_)
  : result ObjectError (Z * Z) :=
  let '(offset, shstr_size) := st in
  let '(index, section) := x in
  shstr_size ← checked_name_end shstr_size (name_len (sec_name section));
  _ ← checked_output_size shstr_size limit;
  _ ← guard_err ((sec_align section =? 0) || is_power_of_two (sec_align section))
        (error_section index (write_error ErrorKind.InvalidAlignment
           [Text "section "; Quoted (sec_name section); Text " alignment ";
            Number (sec_align section); Text " must be zero or a power of two"]));
  aligned ← align_up offset (Z.max (sec_align section) 1);
  offset ← (if decide (sec_kind section = SectionKind.Bss) then Ok offset
            else ok_or (checked_u 64 (aligned + file_size section))
                   (write_overflow "ELF file layout overflow"));
  shstr_size ← (if bool_decide (is_Some (counts !! index)) then
                  name_len ← ok_or (checked_u 64 (name_len (sec_name section) + 5))
                    (write_overflow "ELF string table overflow");
                  shstr_size ← checked_name_end shstr_size name_len;
                  _ ← checked_output_size shstr_size limit;
                  Ok shstr_size
                else Ok shstr_size);
  _ ← checked_output_size offset limit;
  Ok (offset, shstr_size).

(** The state is the names seen, the number of symbols and the size of their names. *)
Definition preflight_name (limit : Z) (st : gset string * Z * Z) (name : string)
  : result ObjectError (gset string * Z * Z) :=
  let '(names, symbols, str_size) := st in
  _ ← checked_output_size (name_len name) limit;
  if decide (name ∈ names) then Ok st
  else
    symbols ← ok_or (checked_u 64 (symbols + 1)) (write_overflow "ELF symbol count overflow");
    str_size ← (if decide (name = "") then Ok str_size
                else str_size ← checked_name_end str_size (name_len name);
                     _ ← checked_output_size str_size limit;
                     Ok str_size);
    Ok ({[name]} ∪ names, symbols, str_size).

Definition preflight_table (counts : gmap nat Z) (limit offset : Z) (index : nat)
  : result ObjectError Z :=
  match counts !! index with
  | None => Ok offset
  | Some count =>
      bytes ← checked_table_bytes count ELF_RELA_SIZE limit;
      offset ← align_up offset 8;
      ok_or (checked_u 64 (offset + bytes)) (write_overflow "ELF file layout overflow")
  end.

Definition preflight (stride : Z) (o : ObjectFile) (limit : Z) : result ObjectError unit :=
  counts ← try_fold (count_relocation o) (relocations o) ∅;
  section_count ← checked_section_count (len (sections o)) (Z.of_nat (size counts));
  '(offset, shstr_size) ←
    try_fold (preflight_section counts limit) (enumerate (sections o)) (ELF_HDR_SIZE, 1);
  '(names, symbols, str_size) ←
    try_fold (preflight_name limit) ((sym_name <$> symbols o) ++ (rel_symbol <$> relocations o))
      (∅, 1, 1);
  _ ← checked_u32 symbols "symbol count";
  offset ← try_fold (preflight_table counts limit) (seq 0 (length (sections o))) offset;
  sym_bytes ← checked_table_bytes symbols ELF_SYM_SIZE limit;
  offset ← align_up offset 8;
  offset ← ok_or (checked_u 64 (offset + sym_bytes)) (write_overflow "ELF file layout overflow");
  shstr_size ← try_fold (λ n name, checked_name_end n (name_len name))
                 [".symtab"; ".strtab"; ".shstrtab"] shstr_size;
  offset ← ok_or (n ← checked_u 64 (offset + str_size); checked_u 64 (n + shstr_size))
             (write_overflow "ELF file layout overflow");
  headers ← checked_table_bytes section_count ELF_SHDR_SIZE limit;
  total ← align_up offset 8;
  total ← ok_or (checked_u 64 (total + headers)) (write_overflow "ELF header layout overflow");
  _ ← checked_output_size total limit;
  try_fold (λ _ x, _ ← checked_table_bytes x.1 x.2 (umax 64); Ok tt)
    [(section_count, 64); (symbols, stride); (symbols, 24)] tt.

(** ** Headers and payloads *)

Notation Entry := (Elf64Shdr * option (list Z))%type.

Record Build := mkBuild { shstrtab : list Z; entries : list Entry }.

Definition null_shdr : Elf64Shdr := mkShdr 0 SHT_NULL 0 0 0 0 0 0 0 0.

(** The state is completed by the header index of each section. *)
Definition push_section (host : Host) (st : Build * list nat) (x : nat * Section_)
  : result ObjectError (Build * list nat) :=
  let '(b, section_to_shdr_idx) := st in
  let '(sec_idx, section) := x in
  '(table, name_idx) ← push_name (host "section name" sec_idx) (shstrtab b) (sec_name section);
  let '(type_, flags) := section_type_and_flags (sec_kind section) in
  data_size ← expect (ok (memory_size section));
  let shdr := mkShdr name_idx type_ flags 0 0 data_size 0 0 (Z.max (sec_align section) 1) 0 in
  let payload := if type_ =? SHT_NOBITS then None else Some (sec_data section) in
  Ok (mkBuild table (entries b ++ [(shdr, payload)]),
      <[sec_idx := length (entries b)]> section_to_shdr_idx).

(** ** Symbols *)

Notation SymBuild := ObjectSymbol.

(** A relocation against a name without a symbol declares it. *)
Definition declare_reference (st : gset string * list SymBuild) (r : ObjectRelocation)
  : gset string * list SymBuild :=
  let '(names, symbols) := st in
  if decide (rel_symbol r ∈ names) then st
  else ({[rel_symbol r]} ∪ names,
        symbols ++ [mkSymbol SymbolKind.NoType (rel_symbol r) None 0 0 Binding.Global_
                      Visibility.Default_]).

Definition all_symbols (o : ObjectFile) : list SymBuild :=
  (foldl declare_reference (list_to_set (sym_name <$> symbols o), symbols o) (relocations o)).2.

Definition is_local_symbol (s : SymBuild) : Prop := sym_binding s = Binding.Local_.

Definition ordered_syms (o : ObjectFile) : list SymBuild :=
  filter is_local_symbol (all_symbols o) ++ filter (λ s, ¬ is_local_symbol s) (all_symbols o).

(** [take_while]. *)
Fixpoint local_prefix (symbols : list SymBuild) : nat :=
  match symbols with
  | [] => 0
  | s :: symbols => if decide (is_local_symbol s) then S (local_prefix symbols) else 0
  end.

Definition kind_to_stt (k : SymbolKind.t) : Z :=
  match k with SymbolKind.NoType => 0 | SymbolKind.Object => 1 | SymbolKind.Function_ => 2 end.

(** The state: string table, symbols written and the index of each name. *)
Definition push_symbol (host : Host) (section_to_shdr_idx : list nat)
    (st : list Z * list Elf64Sym * gmap string nat) (x : nat * SymBuild)
  : result ObjectError (list Z * list Elf64Sym * gmap string nat) :=
  let '(strtab, elf_syms, symbol_index_by_name) := st in
  let '(i, sym) := x in
  '(strtab, name_idx) ←
    (if decide (sym_name sym = "") then Ok (strtab, 0)
     else push_name (host "symbol name" i) strtab (sym_name sym));
  shndx ← ok_or
    (checked_u 16 (Z.of_nat (default 0%nat (idx ← sym_section sym; section_to_shdr_idx !! idx))))
    (write_overflow "ELF symbol section index overflow");
  let elf_sym := mkSym name_idx
    (Z.lor (Z.shiftl (binding_to_stb (sym_binding sym)) 4) (kind_to_stt (sym_kind sym)))
    (visibility_to_stv (sym_visibility sym)) shndx (sym_value sym) (sym_size sym) in
  let index := length elf_syms in
  Ok (strtab, elf_syms ++ [elf_sym],
      match symbol_index_by_name !! sym_name sym with
      | Some _ => symbol_index_by_name
      | None => <[sym_name sym := index]> symbol_index_by_name
      end).

(** ** Relocations *)

Definition group_relocation (groups : list (list ObjectRelocation)) (r : ObjectRelocation)
  : result ObjectError (list (list ObjectRelocation)) :=
  row ← expect (groups !! rel_section r);
  Ok (<[rel_section r := row ++ [r]]> groups).

Definition rela_of (o : ObjectFile) (symbol_index_by_name : gmap string nat) (r : ObjectRelocation)
  : result ObjectError Elf64Rela :=
  index ← ok_or (symbol_index_by_name !! rel_symbol r)
    (write_error ErrorKind.InvalidRelocation [Text "ELF relocation symbol missing"]);
  sym_idx ← checked_u32 (Z.of_nat index) "relocation symbol index";
  '(rtype, _) ← map_err (write_error ErrorKind.InvalidRelocation) (encoding (rel_kind r) (target o));
  Ok (mkRela (rel_offset r) (Z.lor (Z.shiftl sym_idx 32) rtype) (rel_addend r)).

(** The state is completed by the header indices of the relocation sections. *)
Definition push_relas (host : Host) (o : ObjectFile) (limit : Z) (section_to_shdr_idx : list nat)
    (symbol_index_by_name : gmap string nat) (st : Build * list nat)
    (x : nat * list ObjectRelocation) : result ObjectError (Build * list nat) :=
  let '(b, rela_shdr_indices) := st in
  let '(sec_idx, relocs) := x in
  if decide (relocs = []) then Ok st
  else
    section ← expect (sections o !! sec_idx);
    '(table, name_idx) ← push_name (host "relocation section name" sec_idx) (shstrtab b)
                            (".rela" +:+ sec_name section);
    _ ← checked_table_bytes (len relocs) ELF_RELA_SIZE limit;
    _ ← guard_err (host "relocations" sec_idx) (write_allocation "ELF relocation allocation failed");
    rela_data ← try_fold (λ data r, rela ← rela_of o symbol_index_by_name r;
                            Ok (data ++ rela_bytes rela)) relocs [];
    shdr_idx ← expect (section_to_shdr_idx !! sec_idx);
    target_sec_idx ← checked_u32 (Z.of_nat shdr_idx) "relocation section index";
    let shdr := mkShdr name_idx SHT_RELA SHF_INFO_LINK 0 0 (len rela_data) 0 target_sec_idx 8
                  ELF_RELA_SIZE in
    Ok (mkBuild table (entries b ++ [(shdr, Some rela_data)]),
        rela_shdr_indices ++ [length (entries b)]).

(** ** Layout and output *)

Definition set_link (link : Z) (e : Entry) : Entry :=
  let '(h, p) := e in
  (mkShdr (sh_name h) (sh_type h) (sh_flags h) (sh_addr h) (sh_offset h) (sh_size h) link
     (sh_info h) (sh_addralign h) (sh_entsize h), p).

(** [shdrs[idx].link = link]. *)
Definition link_entry (es : list Entry) (idx : nat) (link : Z) : result ObjectError (list Entry) :=
  e ← expect (es !! idx);
  Ok (<[idx := set_link link e]> es).

Definition place_entry (st : Z * list Entry) (e : Entry) : result ObjectError (Z * list Entry) :=
  let '(current_offset, placed) := st in
  let '(h, payload) := e in
  offset ← align_up current_offset (Z.max (sh_addralign h) 1);
  let shdr size := mkShdr (sh_name h) (sh_type h) (sh_flags h) (sh_addr h) offset size (sh_link h)
                     (sh_info h) (sh_addralign h) (sh_entsize h) in
  if sh_type h =? SHT_NOBITS then Ok (current_offset, placed ++ [(shdr (sh_size h), payload)])
  else
    let size := default 0 (len <$> payload) in
    current_offset ← ok_or (checked_u 64 (offset + size)) (write_overflow "ELF file layout overflow");
    Ok (current_offset, placed ++ [(shdr size, payload)]).

(** [if out.len() < offset { out.resize(offset, 0) }]. *)
Definition pad_to (offset : Z) (out : list Z) : list Z :=
  out ++ replicate (Z.to_nat (offset - len out)) 0.

Definition emit_entry (out : list Z) (e : Entry) : result ObjectError (list Z) :=
  let '(h, payload) := e in
  if sh_type h =? SHT_NOBITS then Ok out
  else
    offset ← ok_or (checked_u 64 (sh_offset h)) (write_overflow "ELF offset exceeds host capacity");
    Ok (pad_to offset out ++ default [] payload).

(** [shdrs.push] and [payloads.push] behind the push of a name. *)
Definition push_table (granted : bool) (b : Build) (name : string) (shdr : Z → Elf64Shdr)
    (payload : list Z) : result ObjectError Build :=
  '(table, name_idx) ← push_name granted (shstrtab b) name;
  Ok (mkBuild table (entries b ++ [(shdr name_idx, Some payload)])).

Definition ELF_IDENT : list Z := [0x7f; 69; 76; 70; 2; 1; 1; 0; 0; 0; 0; 0; 0; 0; 0; 0].

(** Layout of the tables and the bytes of the file. *)
Definition emit_elf (host : Host) (o : ObjectFile) (limit machine : Z)
    (relocation_sections : gset nat) (shstrtab_idx : nat) (es : list Entry) : result ObjectError (list Z) :=
  '(current_offset, placed) ← try_fold place_entry (tail es) (ELF_HDR_SIZE, take 1 es);
  shoff ← align_up current_offset 8;
  section_bytes ← checked_table_bytes (len placed) ELF_SHDR_SIZE limit;
  total_size ← ok_or (checked_u 64 (shoff + section_bytes)) (write_overflow "ELF header layout overflow");
  _ ← checked_output_size total_size limit;
  section_count ← checked_section_count (len (sections o)) (Z.of_nat (size relocation_sections));
  shstrndx ← ok_or (checked_u 16 (Z.of_nat shstrtab_idx))
               (write_overflow "ELF section-name table index overflow");
  let hdr := mkElf64Header ELF_IDENT 1 machine 1 0 0 shoff (elf_flags (target o)) ELF_HDR_SIZE 0 0
               ELF_SHDR_SIZE section_count shstrndx in
  _ ← guard_err (host "output" 0%nat) (write_allocation "ELF output allocation failed");
  out ← try_fold emit_entry (tail placed) (header_bytes hdr);
  shoff ← ok_or (checked_u 64 shoff) (write_overflow "ELF header offset exceeds host capacity");
  Ok (pad_to shoff out ++ (placed ≫= λ e, shdr_bytes e.1)).

Definition write_elf_checked (host : Host) (stride : Z) (o : ObjectFile) (limit : Z)
  : result ObjectError (list Z) :=
  machine ← map_err (λ e, write_error ErrorKind.InvalidTarget (display_target_error e))
              (elf_machine (target o));
  let relocation_sections : gset nat := list_to_set (rel_section <$> relocations o) in
  _ ← checked_section_count (len (sections o)) (Z.of_nat (size relocation_sections));
  _ ← preflight stride o limit;
  _ ← validate_diagnostic o;
  '(b, section_to_shdr_idx) ← try_fold (push_section host) (enumerate (sections o))
    (mkBuild [0] [(null_shdr, None)], replicate (length (sections o)) 0%nat);
  let ordered := ordered_syms o in
  let first_global_index := (1 + local_prefix ordered)%nat in
  symbol_count ← ok_or (checked_u 64 (len ordered + 1)) (write_overflow "ELF symbol count overflow");
  _ ← checked_u32 symbol_count "symbol count";
  _ ← checked_table_bytes symbol_count ELF_SYM_SIZE limit;
  _ ← guard_err (host "symbols" 0%nat) (write_allocation "ELF symbol allocation failed");
  '(strtab, elf_syms, symbol_index_by_name) ←
    try_fold (push_symbol host section_to_shdr_idx) (enumerate ordered)
      ([0], [mkSym 0 0 0 0 0 0], ∅);
  grouped ← try_fold group_relocation (relocations o) (replicate (length (sections o)) []);
  '(b, rela_shdr_indices) ←
    try_fold (push_relas host o limit section_to_shdr_idx symbol_index_by_name) (enumerate grouped)
      (b, []);
  '(table, symtab_name) ← push_name (host "table name" 0%nat) (shstrtab b) ".symtab";
  let symtab_idx := length (entries b) in
  _ ← checked_table_bytes (len elf_syms) ELF_SYM_SIZE limit;
  _ ← guard_err (host "symbol table" 0%nat) (write_allocation "ELF symbol table allocation failed");
  let symtab_data := elf_syms ≫= sym_bytes in
  info ← checked_u32 (Z.of_nat first_global_index) "first global symbol index";
  let symtab := mkShdr symtab_name SHT_SYMTAB 0 0 0 (len symtab_data) 0 info 8 ELF_SYM_SIZE in
  let b := mkBuild table (entries b ++ [(symtab, Some symtab_data)]) in
  let strtab_idx := length (entries b) in
  b ← push_table (host "table name" 1%nat) b ".strtab"
        (λ name, mkShdr name SHT_STRTAB 0 0 0 (len strtab) 0 0 1 0) strtab;
  link ← checked_u32 (Z.of_nat strtab_idx) "string table index";
  es ← link_entry (entries b) symtab_idx link;
  es ← try_fold (λ es idx, link ← checked_u32 (Z.of_nat symtab_idx) "symbol table index";
                   link_entry es idx link) rela_shdr_indices es;
  '(table, shstrtab_name) ← push_name (host "table name" 2%nat) (shstrtab b) ".shstrtab";
  let shstrtab_idx := length es in
  let es := es ++ [(mkShdr shstrtab_name SHT_STRTAB 0 0 0 (len table) 0 0 1 0, Some table)] in
  emit_elf host o limit machine relocation_sections shstrtab_idx es.

Definition write_elf_with_limit (host : Host) (stride : Z) (o : ObjectFile) (limit : Z)
  : result Message (list Z) := map_err to_message (write_elf_checked host stride o limit).
Definition write_elf (host : Host) (stride : Z) (o : ObjectFile) : result Message (list Z) :=
  write_elf_with_limit host stride o DEFAULT_MAX_OUTPUT_SIZE.
