(* ===== verification/ElfImage.v ===== *)
(** * The file the ELF writer leaves

    What the loops of [ElfWrite] build, stated of the finished file: a header, the sections, their
    relocations and the three tables, each described by the section header table at the end, with
    every name and every payload where its header says. *)
From S2P Require Export ElfWrite.
Local Open Scope string_scope.
Local Open Scope list_scope.
Local Open Scope Z_scope.

(** ** Names in a string table *)

(** The table holds the name, closed by NUL, at the index. *)
Definition named (table : list Z) (index : Z) (name : string) : Prop :=
  0 ≤ index < 2 ^ 32 ∧ ∃ rest, drop (Z.to_nat index) table = bytes_of_string name ++ 0 :: rest.

(** Tables begin and end with NUL, and hold bytes. *)
Record string_table (table : list Z) : Prop := {
  tb_head : head table = Some 0;
  tb_last : last table = Some 0;
  tb_bytes : Forall is_byte table;
  tb_length : len table < 2 ^ 32;
}.

Lemma named_grow table index name more : named table index name → named (table ++ more) index name.
Proof.
  intros [Hi [rest Hd]]. split; [done|]. exists (rest ++ more).
  rewrite drop_app_le, Hd, <- app_assoc; [done|].
  apply (f_equal length) in Hd. rewrite length_drop, length_app, length_cons in Hd. lia.
Qed.

Lemma named_empty table : head table = Some 0 → named table 0 "".
Proof. intros H. split; [lia|]. destruct table as [|b table]; [done|]. injection H as ->. by exists table. Qed.

Lemma string_table_nul : string_table [0].
Proof. split; [done|done|by repeat constructor|unfold len; simpl; lia]. Qed.

Lemma checked_name_end_Ok current n e :
  checked_name_end current n = Ok e → e = current + n + 1 ∧ 0 ≤ e < 2 ^ 32.
Proof.
  unfold checked_name_end. intros H. apply bind_Ok in H as (e'&He%ok_or_Ok&H).
  apply bind_Some in He as (m & [-> _]%checked_u_Some & [-> _]%checked_u_Some).
  apply bind_Ok in H as (u&[_ Hu]%ok_or_Ok%checked_u_Some&[= <-]). split; [done|lia].
Qed.

Section names.
Context (F : ObjectError → Prop).

Lemma push_name_yields granted table name :
  (∀ e, F e) → string_table table →
  yields F (push_name granted table name) (λ r,
    (∃ more, r.1 = table ++ more) ∧ string_table r.1 ∧ named r.1 r.2 name).
Proof.
  intros HF Ht. unfold push_name.
  destruct (checked_name_end (len table) (name_len name)) as [e|e|] eqn:He; [|apply HF|exfalso; revert He].
  - apply checked_name_end_Ok in He as [-> He]. cbn [mbind result_bind].
    apply yields_bind, yields_ok_or; [auto|]. intros i [-> Hi]%checked_u_Some.
    apply yields_bind, yields_guard; [auto|]. intros _. cbn [yields fst snd].
    split; [by eexists|]. split; [split|split; [lia|]].
    + destruct table; [|apply Ht]. by pose proof (tb_head _ Ht).
    + by rewrite app_assoc, last_snoc.
    + apply Forall_app_2; [apply Ht|]. apply Forall_app_2; [apply bytes_of_string_range|].
      by repeat constructor.
    + rewrite !len_app, len_bytes_of_string. unfold len at 2. simpl. lia.
    + exists []. unfold len. by rewrite Nat2Z.id, drop_app_length.
  - unfold checked_name_end. intros [H|(?&_&H)]%bind_Panic; [by apply ok_or_not_Panic in H|].
    apply bind_Panic in H as [H|(?&_&H)]; [by apply ok_or_not_Panic in H|done].
Qed.
End names.

Lemma contains_nul_bytes s : contains_nul s = false → Forall (λ b, b ≠ 0) (bytes_of_string s).
Proof.
  unfold contains_nul. rewrite existsb_false, Forall_lookup. intros H i b Hb. specialize (H i b Hb). lia.
Qed.

(** ** The headers *)

(** The fields of an entry that layout and links leave alone. *)
Definition section_shdr (s : Section_) (h : Elf64Shdr) : Prop :=
  sh_type h = (section_type_and_flags (sec_kind s)).1 ∧ sh_flags h = (section_type_and_flags (sec_kind s)).2
  ∧ sh_addr h = 0 ∧ sh_size h = extent s ∧ sh_link h = 0 ∧ sh_info h = 0
  ∧ sh_addralign h = Z.max (sec_align s) 1 ∧ sh_entsize h = 0.

Definition section_payload (s : Section_) : option (list Z) :=
  if decide (sec_kind s = SectionKind.Bss) then None else Some (sec_data s).

Definition section_entry (names : list Z) (s : Section_) (e : Entry) : Prop :=
  named names (sh_name e.1) (sec_name s) ∧ section_shdr s e.1 ∧ e.2 = section_payload s.

(** The relocations of each section that has some. *)
Definition relocations_of (o : ObjectFile) (i : nat) : list ObjectRelocation :=
  filter (λ r, rel_section r = i) (relocations o).
Definition relocated_sections (o : ObjectFile) : list nat :=
  filter (λ i, relocations_of o i ≠ []) (seq 0 (length (sections o))).

(** The symbol a relocation refers to comes at its index; index zero is the null symbol. *)
Definition rela_ok (o : ObjectFile) (r : ObjectRelocation) (a : Elf64Rela) : Prop :=
  r_offset a = rel_offset r ∧ r_addend a = rel_addend r ∧
  ∃ (i : nat) s c width, ordered_syms o !! i = Some s ∧ sym_name s = rel_symbol r
    ∧ encoding (rel_kind r) (target o) = Ok (c, width)
    ∧ 0 ≤ Z.of_nat (S i) < 2 ^ 32 ∧ r_info a = Z.lor (Z.shiftl (Z.of_nat (S i)) 32) c.

Definition rela_entry (o : ObjectFile) (names : list Z) (link : Z) (i : nat) (e : Entry) : Prop :=
  (∃ s, sections o !! i = Some s ∧ named names (sh_name e.1) (".rela" +:+ sec_name s))
  ∧ sh_type e.1 = SHT_RELA ∧ sh_flags e.1 = SHF_INFO_LINK ∧ sh_addr e.1 = 0
  ∧ sh_size e.1 = 24 * len (relocations_of o i) ∧ sh_link e.1 = link
  ∧ sh_info e.1 = Z.of_nat (S i) ∧ sh_addralign e.1 = 8 ∧ sh_entsize e.1 = ELF_RELA_SIZE
  ∧ ∃ relas, Forall2 (rela_ok o) (relocations_of o i) relas ∧ e.2 = Some (relas ≫= rela_bytes).

Definition table_entry_ok (names : list Z) (name : string) (type_ size link info align entsize : Z)
    (payload : list Z) (e : Entry) : Prop :=
  named names (sh_name e.1) name ∧ sh_type e.1 = type_ ∧ sh_flags e.1 = 0 ∧ sh_addr e.1 = 0
  ∧ sh_size e.1 = size ∧ sh_link e.1 = link ∧ sh_info e.1 = info ∧ sh_addralign e.1 = align
  ∧ sh_entsize e.1 = entsize ∧ e.2 = Some payload.

(** A symbol and its record. *)
Definition symbol_record (strings : list Z) (s : ObjectSymbol) (e : Elf64Sym) : Prop :=
  named strings (st_name e) (sym_name s)
  ∧ st_info e = Z.lor (Z.shiftl (binding_to_stb (sym_binding s)) 4) (kind_to_stt (sym_kind s))
  ∧ st_other e = visibility_to_stv (sym_visibility s)
  ∧ st_shndx e = (match sym_section s with Some i => Z.of_nat (S i) | None => 0 end)
  ∧ 0 ≤ st_shndx e < 2 ^ 16
  ∧ st_value e = sym_value s ∧ st_size e = sym_size s.

Lemma section_entry_grow names more s e :
  section_entry names s e → section_entry (names ++ more) s e.
Proof. intros (Hn & Hh & Hp). split; [by apply named_grow|done]. Qed.
Lemma rela_entry_grow o names more link i e :
  rela_entry o names link i e → rela_entry o (names ++ more) link i e.
Proof. intros ((s & Hs & Hn) & H). split; [exists s; split; [done|by apply named_grow]|done]. Qed.
Lemma symbol_record_grow strings more s e :
  symbol_record strings s e → symbol_record (strings ++ more) s e.
Proof. intros (Hn & H). split; [by apply named_grow|done]. Qed.

Lemma section_type_nobits s :
  (section_type_and_flags (sec_kind s)).1 =? SHT_NOBITS = bool_decide (sec_kind s = SectionKind.Bss).
Proof. by destruct (sec_kind s). Qed.

(** ** The loop over the sections *)

Section sections.
Context (F : ObjectError → Prop) (HF : ∀ e, F e) (host : Host) (o : ObjectFile) (Hok : object_ok o).
#[local] Set Default Proof Using "Type*".

(** After [k] sections. *)
Definition sections_pushed (k : nat) (st : Build * list nat) : Prop :=
  string_table (shstrtab st.1)
  ∧ (∃ secs, entries st.1 = (null_shdr, None) :: secs
       ∧ Forall2 (section_entry (shstrtab st.1)) (take k (sections o)) secs)
  ∧ length st.2 = length (sections o)
  ∧ ∀ i, (i < k)%nat → st.2 !! i = Some (S i).

Lemma push_section_yields k s st :
  sections o !! k = Some s → sections_pushed k st →
  yields F (push_section host st (k, s)) (sections_pushed (S k)).
Proof.
  destruct st as [b idx]. intros Hs (Ht & (secs & Hes & Hf) & Hl & Hidx).
  cbn [fst snd] in *. unfold push_section.
  apply yields_bind. eapply yields_mono, (push_name_yields F); [done| |done|done].
  intros [table name] ([more Hmore] & Ht' & Hn). cbn [fst snd] in *.
  destruct (section_type_and_flags (sec_kind s)) as [ty fl] eqn:Ety.
  assert (section_ok s) as Hsok by (eapply Forall_lookup_1; [apply (oo_sections _ Hok)|done]).
  rewrite memory_size_ok by done. cbn [ok expect mbind result_bind yields].
  assert (length secs = k) as Hlen.
  { apply Forall2_length in Hf. rewrite length_take in Hf. apply lookup_lt_Some in Hs. lia. }
  split; [done|]. cbn [fst snd shstrtab entries]. split; [|split].
  - eexists. split; [rewrite Hes; by rewrite <- app_comm_cons|].
    rewrite (take_S_r _ _ s) by done. apply Forall2_app.
    + rewrite Hmore. eapply Forall2_impl; [exact Hf|]. intros. by apply section_entry_grow.
    + constructor; [|constructor]. split; [done|]. split.
      * unfold section_shdr. rewrite Ety. by repeat split.
      * cbn [snd]. unfold section_payload.
        pose proof (section_type_nobits s) as Hnb. rewrite Ety in Hnb. cbn [fst] in Hnb. rewrite Hnb.
        by case_decide; [rewrite bool_decide_eq_true_2|rewrite bool_decide_eq_false_2].
  - by rewrite length_insert.
  - intros j Hj. rewrite Hes. cbn [length]. rewrite Hlen. destruct (decide (j = k)) as [->|Hne].
    + rewrite list_lookup_insert_eq; [done|]. rewrite Hl. by eapply lookup_lt_Some.
    + rewrite list_lookup_insert_ne by done. apply Hidx. lia.
Qed.

Lemma push_sections_yields :
  yields F (try_fold (push_section host) (enumerate (sections o))
              (mkBuild [0] [(null_shdr, None)], replicate (length (sections o)) 0%nat))
    (sections_pushed (length (sections o))).
Proof.
  apply try_fold_enumerate.
  - split; [exact string_table_nul|]. split; [exists []; split; [done|by rewrite take_0]|].
    split; [apply length_replicate|]. lia.
  - apply push_section_yields.
Qed.
End sections.

(** ** The symbols written *)

Definition reference_symbol (r : ObjectRelocation) : ObjectSymbol :=
  mkSymbol SymbolKind.NoType (rel_symbol r) None 0 0 Binding.Global_ Visibility.Default_.

(** After the relocations [rs]. *)
Record declared_symbols (o : ObjectFile) (rs : list ObjectRelocation)
    (st : gset string * list ObjectSymbol) : Prop := {
  dc_names : st.1 = list_to_set (sym_name <$> st.2);
  dc_distinct : NoDup (sym_name <$> st.2);
  dc_symbols : ∃ more, st.2 = symbols o ++ more
    ∧ ∀ s, s ∈ more → ∃ r, r ∈ rs ∧ s = reference_symbol r;
  dc_references : ∀ r, r ∈ rs → rel_symbol r ∈ sym_name <$> st.2;
}.

Lemma declare_references_ok o rs :
  NoDup (sym_name <$> symbols o) →
  declared_symbols o rs (foldl declare_reference (list_to_set (sym_name <$> symbols o), symbols o) rs).
Proof.
  intros Hnd. induction rs as [|r rs IH] using rev_ind.
  - split; [done|done| |by intros ? ?%not_elem_of_nil].
    exists []. split; [by rewrite app_nil_r|by intros ? ?%not_elem_of_nil].
  - rewrite foldl_app. cbn [foldl]. destruct (foldl _ _ rs) as [names syms].
    destruct IH as [Hn Hd (more & Hs & Hmore) Hr]. cbn [fst snd] in *. unfold declare_reference.
    case_decide as Hin.
    + split; cbn [fst snd]; [done|done| |].
      * exists more. split; [done|]. intros s (r' & ? & ?)%Hmore. exists r'. set_solver.
      * intros r' [Hr'|Hr'%list_elem_of_singleton]%elem_of_app; [by apply Hr|]. subst.
        by apply elem_of_list_to_set in Hin.
    + assert (rel_symbol r ∉ sym_name <$> syms) as Hnin by by rewrite Hn, elem_of_list_to_set in Hin.
      split; cbn [fst snd]; rewrite ?fmap_app; cbn [fmap list_fmap sym_name].
      * rewrite list_to_set_app_L, Hn. set_solver.
      * apply NoDup_app. split; [done|]. split; [|apply NoDup_singleton].
        intros x Hx ->%list_elem_of_singleton. done.
      * exists (more ++ [reference_symbol r]). split; [by rewrite Hs, <- app_assoc|].
        intros s [Hsm|Hsm%list_elem_of_singleton]%elem_of_app.
        -- destruct (Hmore s Hsm) as (r' & ? & ?). exists r'. set_solver.
        -- exists r. set_solver.
      * intros r' [Hr'|Hr'%list_elem_of_singleton]%elem_of_app; apply elem_of_app; [left; by apply Hr|].
        right. subst. by apply list_elem_of_singleton.
Qed.

Section ordered.
Context (o : ObjectFile) (Hok : object_ok o).
#[local] Set Default Proof Using "Type*".

Lemma all_symbols_ok :
  declared_symbols o (relocations o)
    (foldl declare_reference (list_to_set (sym_name <$> symbols o), symbols o) (relocations o)).
Proof. apply declare_references_ok, (oo_names _ Hok). Qed.

Lemma ordered_permutation : ordered_syms o ≡ₚ all_symbols o.
Proof using.
  unfold ordered_syms. generalize (all_symbols o) as l. induction l as [|s l IH]; [done|].
  rewrite !filter_cons. destruct (decide (is_local_symbol s)).
  - rewrite decide_False by tauto. simpl. by rewrite IH.
  - rewrite decide_True by tauto. rewrite <- Permutation_middle. by rewrite IH.
Qed.

Lemma ordered_distinct : NoDup (sym_name <$> ordered_syms o).
Proof. rewrite ordered_permutation. apply (dc_distinct _ _ _ all_symbols_ok). Qed.

Lemma elem_of_ordered s :
  s ∈ ordered_syms o → s ∈ symbols o ∨ ∃ r, r ∈ relocations o ∧ s = reference_symbol r.
Proof.
  rewrite ordered_permutation. unfold all_symbols.
  destruct (dc_symbols _ _ _ all_symbols_ok) as (more & -> & Hmore).
  intros [?|?%Hmore]%elem_of_app; auto.
Qed.

Lemma ordered_symbols s : s ∈ symbols o → s ∈ ordered_syms o.
Proof.
  rewrite ordered_permutation. unfold all_symbols.
  destruct (dc_symbols _ _ _ all_symbols_ok) as (more & -> & _). intros. apply elem_of_app. by left.
Qed.

Lemma ordered_references r :
  r ∈ relocations o → ∃ i s, ordered_syms o !! i = Some s ∧ sym_name s = rel_symbol r.
Proof.
  intros Hr. pose proof (dc_references _ _ _ all_symbols_ok r Hr) as Hin.
  apply list_elem_of_fmap in Hin as (s & Hs & Hin). change (s ∈ all_symbols o) in Hin.
  rewrite <- ordered_permutation in Hin. apply list_elem_of_lookup in Hin as [i Hi]. by exists i, s.
Qed.

Lemma ordered_section s i : s ∈ ordered_syms o → sym_section s = Some i → (i < length (sections o))%nat.
Proof.
  intros [Hs|(r & _ & ->)]%elem_of_ordered Hi; [|done].
  pose proof (oo_symbols _ Hok) as Hall. rewrite Forall_forall in Hall.
  destruct (yo_section _ _ (Hall s Hs) i Hi) as (section & Hsec & _). by eapply lookup_lt_Some.
Qed.

Lemma ordered_name s : s ∈ ordered_syms o → contains_nul (sym_name s) = false.
Proof.
  intros [Hs|(r & Hr & ->)]%elem_of_ordered.
  - pose proof (oo_symbols _ Hok) as Hall. rewrite Forall_forall in Hall. apply (Hall s Hs).
  - pose proof (oo_relocations _ Hok) as Hall. rewrite Forall_forall in Hall. apply (Hall r Hr).
Qed.

Lemma local_prefix_le ss : (local_prefix ss ≤ length ss)%nat.
Proof using. induction ss as [|s ss IH]; simpl; [lia|]. case_decide; lia. Qed.

(** The symbols before the first global one are the local ones. *)
Lemma ordered_local i s :
  ordered_syms o !! i = Some s → (i < local_prefix (ordered_syms o))%nat ↔ sym_binding s = Binding.Local_.
Proof using.
  unfold ordered_syms. set (ls := filter _ _). set (gs := filter _ _).
  assert (local_prefix (ls ++ gs) = length ls) as ->.
  { assert (Forall is_local_symbol ls) as Hl by (apply Forall_forall; by intros x [Hx _]%list_elem_of_filter).
    assert (Forall (λ s, ¬ is_local_symbol s) gs) as Hg by (apply Forall_forall; by intros x [Hx _]%list_elem_of_filter).
    induction Hl as [|x l Hx _ IH]; simpl; [destruct Hg; simpl; [done|]; by rewrite decide_False|].
    rewrite decide_True by done. by rewrite IH. }
  intros [Hi|[Hi1 Hi2]]%lookup_app_Some.
  - split; [|intros _; by eapply lookup_lt_Some]. intros _.
    apply list_elem_of_lookup_2, list_elem_of_filter in Hi. apply Hi.
  - apply list_elem_of_lookup_2, list_elem_of_filter in Hi2 as [Hi2 _]. unfold is_local_symbol in Hi2.
    split; [lia|done].
Qed.
End ordered.

Definition null_sym : Elf64Sym := mkSym 0 0 0 0 0 0.

Section symbols.
Context (F : ObjectError → Prop) (HF : ∀ e, F e) (host : Host) (o : ObjectFile) (Hok : object_ok o).
Context (idx : list nat) (Hlen : length idx = length (sections o)).
Context (Hidx : ∀ i, (i < length (sections o))%nat → idx !! i = Some (S i)).
#[local] Set Default Proof Using "Type*".

(** After [k] symbols. *)
Record symbols_pushed (k : nat) (st : list Z * list Elf64Sym * gmap string nat) : Prop := {
  sp_table : string_table st.1.1;
  sp_records : ∃ recs, st.1.2 = null_sym :: recs
    ∧ Forall2 (symbol_record st.1.1) (take k (ordered_syms o)) recs;
  sp_index i s : (i < k)%nat → ordered_syms o !! i = Some s → st.2 !! sym_name s = Some (S i);
  sp_fresh n : n ∉ sym_name <$> take k (ordered_syms o) → st.2 !! n = None;
}.

Lemma shndx_eq s :
  s ∈ ordered_syms o →
  Z.of_nat (default 0%nat (i ← sym_section s; idx !! i)) =
    match sym_section s with Some i => Z.of_nat (S i) | None => 0 end.
Proof.
  intros Hs. destruct (sym_section s) as [i|] eqn:Ei; [|done]. cbn [mbind option_bind].
  rewrite Hidx; [done|]. by eapply ordered_section.
Qed.

Lemma push_symbol_yields k s st :
  ordered_syms o !! k = Some s → symbols_pushed k st →
  yields F (push_symbol host idx st (k, s)) (symbols_pushed (S k)).
Proof.
  destruct st as [[strtab syms] index]. intros Hs [Ht (recs & Hrecs & Hf) Hi Hfresh].
  cbn [fst snd] in *. unfold push_symbol.
  apply yields_bind. eapply (yields_mono F _ _ (λ r,
    (∃ more, r.1 = strtab ++ more) ∧ string_table r.1 ∧ named r.1 r.2 (sym_name s))); [done| |].
  2: { case_decide as He; [|by apply push_name_yields]. cbn [yields fst snd].
       split; [exists []; by rewrite app_nil_r|]. split; [done|]. rewrite He. apply named_empty, Ht. }
  intros [table name] ([more Hmore] & Ht' & Hn). cbn [fst snd] in *.
  rewrite shndx_eq by by eapply list_elem_of_lookup_2.
  apply yields_bind, yields_ok_or; [auto|]. intros shndx [-> Hsh]%checked_u_Some. cbn [yields].
  assert (length recs = k) as Hl.
  { apply Forall2_length in Hf. rewrite length_take in Hf. apply lookup_lt_Some in Hs. lia. }
  assert (sym_name s ∉ sym_name <$> take k (ordered_syms o)) as Hnew.
  { intros (s' & Heq & (j & Hj & Hlt)%elem_of_take)%list_elem_of_fmap.
    pose proof (ordered_distinct _ Hok) as Hnd.
    assert (k = j); [|lia]. eapply NoDup_lookup; [exact Hnd|by rewrite list_lookup_fmap, Hs|].
    rewrite list_lookup_fmap, Hj. simpl. congruence. }
  rewrite (Hfresh _ Hnew). split; cbn [fst snd].
  - done.
  - eexists. split; [rewrite Hrecs; by rewrite <- app_comm_cons|].
    rewrite (take_S_r _ _ s) by done. apply Forall2_app.
    + rewrite Hmore. eapply Forall2_impl; [exact Hf|]. intros. by apply symbol_record_grow.
    + constructor; [|constructor]. split; [done|]. by repeat (split; [done|]).
  - intros i s' Hi' Hs'. destruct (decide (i = k)) as [->|Hne].
    + rewrite Hs in Hs'. injection Hs' as <-. rewrite lookup_insert_eq, Hrecs. simpl. congruence.
    + rewrite lookup_insert_ne; [apply Hi; [lia|done]|]. intros Heq. apply Hnew.
      rewrite Heq. apply list_elem_of_fmap. exists s'. split; [done|]. apply elem_of_take.
      exists i. split; [done|lia].
  - intros n Hnin. rewrite (take_S_r _ _ s), fmap_app, not_elem_of_app in Hnin by done.
    destruct Hnin as [Hn1 Hn2]. rewrite lookup_insert_ne; [by apply Hfresh|].
    intros <-. apply Hn2. by apply list_elem_of_singleton.
Qed.

Lemma push_symbols_yields :
  yields F (try_fold (push_symbol host idx) (enumerate (ordered_syms o)) ([0], [null_sym], ∅))
    (symbols_pushed (length (ordered_syms o))).
Proof.
  apply try_fold_enumerate.
  - split; cbn [fst snd].
    + exact string_table_nul.
    + exists []. split; [done|by rewrite take_0].
    + lia.
    + intros. apply lookup_empty.
  - apply push_symbol_yields.
Qed.
End symbols.

(** ** The relocations written *)

Lemma group_relocations_yields (F : ObjectError → Prop) n rs :
  Forall (λ r, (rel_section r < n)%nat) rs →
  yields F (try_fold group_relocation rs (replicate n []))
    (λ groups, groups = (λ i, filter (λ r, rel_section r = i) rs) <$> seq 0 n).
Proof.
  intros Hrs. apply (try_fold_yields _ F (λ rs groups,
    groups = (λ i, filter (λ r, rel_section r = i) rs) <$> seq 0 n)).
  - apply list_eq. intros i. rewrite list_lookup_fmap. destruct (decide (i < n)%nat).
    + rewrite lookup_replicate_2, lookup_seq_lt by done. done.
    + rewrite !lookup_ge_None_2; [done| |]; rewrite ?length_replicate, ?length_seq; lia.
  - intros pre r post groups Hl ->. unfold group_relocation.
    assert (rel_section r < n)%nat as Hr.
    { rewrite Hl, Forall_app, Forall_cons in Hrs. tauto. }
    rewrite list_lookup_fmap, lookup_seq_lt by done. cbn [fmap option_fmap option_map expect mbind result_bind yields].
    rewrite Nat.add_0_l. apply list_eq. intros i. destruct (decide (i < n)%nat).
    + destruct (decide (i = rel_section r)) as [->|Hne].
      * rewrite list_lookup_insert_eq, list_lookup_fmap, lookup_seq_lt by (rewrite ?length_fmap, ?length_seq; lia).
        simpl. by rewrite filter_app, filter_cons_True, filter_nil.
      * rewrite list_lookup_insert_ne, !list_lookup_fmap, lookup_seq_lt by done. simpl.
        by rewrite filter_app, filter_cons_False, filter_nil, app_nil_r.
    + rewrite !lookup_ge_None_2; [done| |]; rewrite ?length_insert, length_fmap, length_seq; lia.
Qed.

Lemma length_rela_bytes a : length (rela_bytes a) = 24%nat.
Proof. by unfold rela_bytes; rewrite !length_app, !length_to_le_bytes. Qed.
Lemma length_sym_bytes s : length (sym_bytes s) = 24%nat.
Proof. by unfold sym_bytes; rewrite !length_app, !length_to_le_bytes. Qed.
Lemma length_shdr_bytes h : length (shdr_bytes h) = 64%nat.
Proof. by unfold shdr_bytes; rewrite !length_app, !length_to_le_bytes. Qed.
Lemma length_header_bytes h : length (header_bytes h) = (length (eh_ident h) + 48)%nat.
Proof. unfold header_bytes. rewrite !length_app, !length_to_le_bytes. lia. Qed.

(** Records of one size, one behind the other. *)
Lemma len_records {A} (f : A → list Z) (n : nat) (l : list A) :
  (∀ x, length (f x) = n) → len (l ≫= f) = Z.of_nat n * len l.
Proof.
  intros Hf. induction l as [|x l IH]; [unfold len; simpl; lia|].
  cbn [mbind list_bind]. rewrite len_app, len_cons, IH. unfold len at 1. rewrite Hf. lia.
Qed.

Lemma slice_records {A} (f : A → list Z) (n : nat) (l : list A) i x :
  (∀ x, length (f x) = n) → l !! i = Some x → slice (Z.of_nat (i * n)) n (l ≫= f) = f x.
Proof.
  intros Hf Hx. rewrite <- (take_drop_middle l i x Hx), bind_app, bind_cons.
  rewrite <- (Hf x). rewrite slice_app_at; [done|].
  assert (len (take i l ≫= f) = Z.of_nat n * len (take i l)) as Hl by by apply len_records.
  unfold len in Hl. rewrite length_take in Hl. apply lookup_lt_Some in Hx. rewrite Hf. nia.
Qed.

Section relas.
Context (F : ObjectError → Prop) (HF : ∀ e, F e) (host : Host) (o : ObjectFile) (Hok : object_ok o).
Context (limit : Z) (idx : list nat) (index : gmap string nat).
Context (Hidx : ∀ i, (i < length (sections o))%nat → idx !! i = Some (S i)).
Context (Hindex : ∀ i s, ordered_syms o !! i = Some s → index !! sym_name s = Some (S i)).
#[local] Set Default Proof Using "Type*".

Lemma rela_of_yields r :
  r ∈ relocations o → yields F (rela_of o index r) (rela_ok o r).
Proof.
  intros Hr. destruct (ordered_references _ Hok r Hr) as (i & s & Hs & Hname).
  unfold rela_of. rewrite <- Hname, (Hindex i s Hs). cbn [ok_or mbind result_bind].
  apply yields_bind, yields_ok_or; [auto|]. intros n [-> Hn]%checked_u_Some.
  apply yields_bind, yields_map_err; [apply encoding_no_panic|auto|].
  intros [c width] Henc. cbn [yields]. split; [done|]. split; [done|].
  exists i, s, c, width. by repeat (split; [done|]).
Qed.

Lemma relas_yields i :
  yields F (try_fold (λ data r, rela ← rela_of o index r; Ok (data ++ rela_bytes rela))
              (relocations_of o i) [])
    (λ data, ∃ relas, Forall2 (rela_ok o) (relocations_of o i) relas ∧ data = relas ≫= rela_bytes).
Proof.
  apply (try_fold_yields _ F (λ rs data,
    ∃ relas, Forall2 (rela_ok o) rs relas ∧ data = relas ≫= rela_bytes)); [by exists []|].
  intros pre r post data Hl (relas & Hf & ->).
  apply yields_bind. eapply yields_mono, rela_of_yields; [done| |].
  - intros a Ha. cbn [yields]. exists (relas ++ [a]). split; [by apply Forall2_app; [|constructor]|].
    by rewrite bind_app, bind_singleton.
  - assert (r ∈ relocations_of o i) as Hin by (rewrite Hl; set_solver).
    by apply list_elem_of_filter in Hin as [_ ?].
Qed.

(** After the relocations of [k] sections. *)
Definition relas_pushed (k : nat) (st : Build * list nat) : Prop :=
  string_table (shstrtab st.1) ∧ ∃ secs relas,
    entries st.1 = ((null_shdr, None) :: secs) ++ relas
    ∧ Forall2 (section_entry (shstrtab st.1)) (sections o) secs
    ∧ Forall2 (rela_entry o (shstrtab st.1) 0) (filter (λ i, relocations_of o i ≠ []) (seq 0 k)) relas
    ∧ st.2 = seq (S (length (sections o))) (length relas).

Lemma push_relas_yields k st :
  (k < length (sections o))%nat → relas_pushed k st →
  yields F (push_relas host o limit idx index st (k, relocations_of o k)) (relas_pushed (S k)).
Proof.
  destruct st as [b ris]. intros Hk (Ht & secs & relas & Hes & Hsecs & Hrelas & Hris).
  cbn [fst snd] in *. unfold push_relas, relas_pushed. rewrite seq_S, filter_app, Nat.add_0_l. case_decide as Hnil.
  { split; [done|]. exists secs, relas. rewrite filter_cons_False, filter_nil, app_nil_r by (by intros []).
    done. }
  destruct (lookup_lt_is_Some_2 _ _ Hk) as [s Hs]. rewrite Hs. cbn [expect mbind result_bind].
  apply yields_bind. eapply yields_mono, (push_name_yields F); [done| |done|done].
  intros [table name] ([more Hmore] & Ht' & Hn). cbn [fst snd] in *.
  apply yields_bind, yields_case; [|auto|].
  { unfold checked_table_bytes, checked_output_size, guard_err, ok_or. repeat (case_match; simpl; try done). }
  intros _ _. apply yields_bind, yields_guard; [auto|]. intros _.
  apply yields_bind. eapply yields_mono, relas_yields; [done|]. intros data (as_ & Has & ->).
  rewrite (Hidx k Hk). cbn [expect mbind result_bind].
  apply yields_bind, yields_ok_or; [auto|]. intros tgt [-> Htgt]%checked_u_Some. cbn [yields].
  assert (len (as_ ≫= rela_bytes) = 24 * len (relocations_of o k)) as Hlen.
  { rewrite (len_records _ 24) by apply length_rela_bytes. unfold len. by rewrite (Forall2_length _ _ _ Has). }
  split; [done|]. cbn [fst snd shstrtab entries].
  exists secs, (relas ++ [(mkShdr name SHT_RELA SHF_INFO_LINK 0 0 (len (as_ ≫= rela_bytes)) 0
    (Z.of_nat (S k)) 8 ELF_RELA_SIZE, Some (as_ ≫= rela_bytes))]).
  split; [by rewrite Hes, <- app_assoc|]. rewrite Hmore. split; [|split].
  - eapply Forall2_impl; [exact Hsecs|]. intros. by apply section_entry_grow.
  - apply Forall2_app.
    + eapply Forall2_impl; [exact Hrelas|]. intros. by apply rela_entry_grow.
    + rewrite filter_cons_True, filter_nil by done. constructor; [|constructor].
      split; [exists s; split; [done|]; by rewrite <- Hmore|].
      repeat (split; [done|]). exists as_. done.
  - rewrite length_app, Hes. cbn [length app]. rewrite length_app, <- (Forall2_length _ _ _ Hsecs), Hris.
    rewrite Nat.add_1_r, seq_S. done.
Qed.

Lemma push_all_relas_yields b :
  sections_pushed o (length (sections o)) (b, idx) →
  yields F (try_fold (push_relas host o limit idx index)
              (enumerate (relocations_of o <$> seq 0 (length (sections o)))) (b, []))
    (relas_pushed (length (sections o))).
Proof.
  intros (Ht & (secs & Hes & Hf) & _). cbn [fst snd] in *. rewrite firstn_all in Hf.
  replace (relas_pushed (length (sections o))) with
    (relas_pushed (length (relocations_of o <$> seq 0 (length (sections o)))))
    by by rewrite length_fmap, length_seq.
  apply try_fold_enumerate.
  - split; [done|]. exists secs, []. cbn [fst snd]. by rewrite app_nil_r.
  - intros k rs st Hrs. rewrite list_lookup_fmap in Hrs. apply fmap_Some in Hrs as (j & Hj & ->).
    apply lookup_seq in Hj as [-> Hj]. by apply push_relas_yields.
Qed.
End relas.

(** ** Links and places *)

Definition with_offset (offset : Z) (h : Elf64Shdr) : Elf64Shdr :=
  mkShdr (sh_name h) (sh_type h) (sh_flags h) (sh_addr h) offset (sh_size h) (sh_link h)
    (sh_info h) (sh_addralign h) (sh_entsize h).
(** The entry, at the place it got. *)
Definition moved (e p : Entry) : Prop := ∃ offset, 0 ≤ offset < 2 ^ 64 ∧ p = (with_offset offset e.1, e.2).

Lemma section_entry_moved names s e p : moved e p → section_entry names s e → section_entry names s p.
Proof. by intros (off & _ & ->). Qed.
Lemma rela_entry_moved o names link i e p :
  moved e p → rela_entry o names link i e → rela_entry o names link i p.
Proof. by intros (off & _ & ->). Qed.
Lemma table_entry_moved names name ty size link info align entsize payload e p :
  moved e p → table_entry_ok names name ty size link info align entsize payload e →
  table_entry_ok names name ty size link info align entsize payload p.
Proof. by intros (off & _ & ->). Qed.

Lemma rela_entry_linked o names link link' i e :
  rela_entry o names link i e → rela_entry o names link' i (set_link link' e).
Proof.
  destruct e as [h p]. intros (? & ? & ? & ? & ? & ? & ? & ? & ? & ?). by repeat (split; [done|]).
Qed.

(** Headers whose size is that of their payload. *)
Definition in_file (e : Entry) : Prop := sh_type e.1 ≠ SHT_NOBITS.
#[export] Instance in_file_dec e : Decision (in_file e).
Proof. unfold in_file. apply _. Defined.
Definition sized (e : Entry) : Prop :=
  1 ≤ sh_addralign e.1 ∧ (in_file e → ∃ data, e.2 = Some data ∧ sh_size e.1 = len data).

Lemma section_entry_sized names s e :
  section_ok s → section_entry names s e → sized e.
Proof.
  intros Hs (_ & (Hty & _ & _ & Hsz & _ & _ & Hal & _) & Hp). split; [lia|].
  unfold in_file. rewrite Hty, Hp, Hsz. unfold section_payload. intros Hn.
  rewrite decide_False by (intros Hk; by rewrite Hk in Hn). exists (sec_data s). split; [done|].
  rewrite <- (file_size_extent s Hs) by (intros Hk; by rewrite Hk in Hn).
  unfold file_size. by rewrite decide_False by (intros Hk; by rewrite Hk in Hn).
Qed.

Lemma rela_entry_sized o names link i e : rela_entry o names link i e → sized e.
Proof.
  intros (_ & _ & _ & _ & Hsz & _ & _ & Hal & _ & relas & Hf & Hp). split; [lia|]. intros _.
  exists (relas ≫= rela_bytes). split; [done|]. rewrite Hsz, (len_records _ 24) by apply length_rela_bytes.
  unfold len. by rewrite (Forall2_length _ _ _ Hf).
Qed.

Section links.
Context (F : ObjectError → Prop) (HF : ∀ e, F e).
#[local] Set Default Proof Using "Type*".

Lemma link_entries_yields (v : nat) pre mid post :
  yields F (try_fold (λ es idx, link ← checked_u32 (Z.of_nat v) "symbol table index";
                        link_entry es idx link) (seq (length pre) (length mid)) (pre ++ mid ++ post))
    (λ es, es = pre ++ (set_link (Z.of_nat v) <$> mid) ++ post).
Proof.
  revert pre. induction mid as [|e mid IH]; intros pre; [done|].
  cbn [length seq try_fold]. apply yields_bind, yields_bind, yields_ok_or; [auto|].
  intros l [-> Hl]%checked_u_Some. unfold link_entry.
  rewrite lookup_app_r, Nat.sub_diag by lia. cbn [lookup list_lookup app expect mbind result_bind yields].
  rewrite insert_app_r_alt, Nat.sub_diag by lia. cbn [insert list_insert fmap list_fmap].
  specialize (IH (pre ++ [set_link (Z.of_nat v) e])). rewrite length_app, Nat.add_1_r in IH.
  rewrite <- !app_assoc in IH. exact IH.
Qed.

Lemma align_up_yields v a :
  0 ≤ v → 1 ≤ a → yields F (align_up v a) (λ r, v ≤ r < 2 ^ 64).
Proof.
  intros Hv Ha. unfold align_up. apply yields_bind, yields_guard; [auto|]. intros _.
  apply yields_ok_or; [auto|]. unfold align_up64. intros r [-> Hr]%checked_u_Some.
  pose proof (Z.land_nonneg (wrapu 64 (- v)) (a - 1)) as Hl. lia.
Qed.

(** The offsets of the entries in the file, in order. *)
Notation offsets_between := (chain (sh_offset ∘ (fst (A := Elf64Shdr) (B := option (list Z))))
                               (sh_size ∘ (fst (A := Elf64Shdr) (B := option (list Z))))).

Lemma place_entries_yields es cur acc :
  0 ≤ cur → Forall sized es →
  yields F (try_fold place_entry es (cur, acc)) (λ r, ∃ ps, r.2 = acc ++ ps ∧ Forall2 moved es ps
    ∧ offsets_between cur (filter in_file ps) r.1).
Proof.
  revert cur acc. induction es as [|[h p] es IH]; intros cur acc Hcur Hes.
  { exists []. rewrite app_nil_r. split; [done|]. split; [constructor|]. simpl. lia. }
  apply Forall_cons in Hes as [[Hal Hsz] Hes]. cbn [fst snd] in *. cbn [try_fold place_entry].
  apply yields_bind, yields_bind. eapply yields_mono, align_up_yields; [done| |done|lia].
  intros off Hoff. cbn beta in Hoff. destruct (Z.eqb_spec (sh_type h) SHT_NOBITS) as [Hty|Hty].
  - cbn [yields]. eapply yields_mono, IH; [done| |done|done].
    intros r (ps & -> & Hf & Hch). exists ((with_offset off h, p) :: ps).
    split; [by rewrite <- app_assoc|]. split; [constructor; [exists off; split; [lia|done]|done]|].
    rewrite filter_cons_False; [done|]. unfold in_file. cbn. tauto.
  - destruct Hsz as (data & -> & Hsz); [done|]. cbn [fmap option_fmap option_map default Datatypes.id].
    apply yields_bind, yields_ok_or; [auto|]. intros cur' [-> Hcur']%checked_u_Some. cbn [yields].
    pose proof (len_nonneg data).
    eapply yields_mono, IH; [done| |lia|done]. intros r (ps & -> & Hf & Hch).
    exists ((with_offset off h, Some data) :: ps).
    split; [rewrite <- app_assoc; unfold with_offset; by rewrite Hsz|].
    split; [constructor; [exists off; split; [lia|done]|done]|].
    rewrite filter_cons_True by done. rewrite <- Hsz in Hch.
    split; [cbn; lia|]. split; [cbn; lia|exact Hch].
Qed.

(** Each payload comes to lie at its offset. *)
Definition payload_in (out : list Z) (e : Entry) : Prop :=
  in_file e → ∃ data, e.2 = Some data ∧ sh_size e.1 = len data ∧ 0 ≤ sh_offset e.1 < 2 ^ 64
    ∧ sh_offset e.1 + len data ≤ len out ∧ slice (sh_offset e.1) (length data) out = data.

Lemma payload_in_grow out more e : payload_in out e → payload_in (out ++ more) e.
Proof.
  intros H Hin. destruct (H Hin) as (data & Hp & Hs & Hoff & Hle & Hsl). exists data.
  pose proof (len_nonneg more). rewrite len_app.
  repeat (split; [done || lia|]). rewrite slice_app_l; [done|]. unfold len in *. lia.
Qed.

Lemma len_pad_to offset out : len out ≤ offset → len (pad_to offset out) = offset.
Proof. intros. unfold pad_to. rewrite len_app. unfold len at 2. rewrite length_replicate. lia. Qed.

Lemma emit_entries_yields ps c c' out :
  len out ≤ c → Forall sized ps → offsets_between c (filter in_file ps) c' →
  yields F (try_fold emit_entry ps out) (λ out', (∃ more, out' = out ++ more) ∧ len out' ≤ c'
    ∧ Forall (payload_in out') ps).
Proof.
  revert c out. induction ps as [|[h p] ps IH]; intros c out Hc Hps Hch.
  { cbn in *. split; [exists []; by rewrite app_nil_r|]. split; [lia|constructor]. }
  apply Forall_cons in Hps as [[_ Hsz] Hps]. cbn [try_fold emit_entry].
  destruct (Z.eqb_spec (sh_type h) SHT_NOBITS) as [Hty|Hty].
  - cbn [mbind result_bind]. rewrite filter_cons_False in Hch by (unfold in_file; cbn; tauto).
    eapply yields_mono, IH; [done| |done|done|done].
    intros out' (Hm & Hl & Hf). split; [done|]. split; [done|]. constructor; [|done]. intros Hin. by destruct Hin.
  - rewrite filter_cons_True in Hch by done. destruct Hch as (Hoff & Hnn & Hch).
    cbn [compose fst] in Hoff, Hnn, Hch. destruct Hsz as (data & Hp & Hsz); [done|]. cbn [fst snd] in *. subst p.
    apply yields_bind, yields_bind, yields_ok_or; [auto|]. intros o' [-> Ho]%checked_u_Some. cbn [default Datatypes.id yields].
    assert (len (pad_to (sh_offset h) out) = sh_offset h) as Hpad by (apply len_pad_to; lia).
    assert (len (pad_to (sh_offset h) out ++ data) = sh_offset h + sh_size h) as Hl1.
    { by rewrite len_app, Hpad, Hsz. }
    eapply yields_mono, IH; [done| |by rewrite Hl1|done|exact Hch].
    intros out' ([more ->] & Hl & Hf). split; [|split; [done|]].
    { unfold pad_to. eexists. by rewrite <- !app_assoc. }
    constructor; [|done]. apply payload_in_grow. intros _. exists data.
    cbn [fst snd]. rewrite Hl1. repeat (split; [done || lia|]).
    rewrite <- (app_nil_r data) at 2. apply slice_app_at. unfold len in Hpad. lia.
Qed.
End links.

(** ** The file *)

Definition null_entry : Entry := (null_shdr, None).
Definition symtab_index (secs relas : list Entry) : Z := 1 + len secs + len relas.

Record elf_file (o : ObjectFile) (limit machine : Z) (bs : list Z) (shoff : Z) (secs relas : list Entry)
    (symtab strtab shstrtab : Entry) (names strings : list Z) (recs : list Elf64Sym) : Prop := {
  ef_secs : Forall2 (section_entry names) (sections o) secs;
  ef_relas : Forall2 (rela_entry o names (symtab_index secs relas)) (relocated_sections o) relas;
  ef_symtab : table_entry_ok names ".symtab" SHT_SYMTAB (24 * (len recs + 1)) (symtab_index secs relas + 1)
    (1 + Z.of_nat (local_prefix (ordered_syms o))) 8 24 ((null_sym :: recs) ≫= sym_bytes) symtab;
  ef_strtab : table_entry_ok names ".strtab" SHT_STRTAB (len strings) 0 0 1 0 strings strtab;
  ef_shstrtab : table_entry_ok names ".shstrtab" SHT_STRTAB (len names) 0 0 1 0 names shstrtab;
  ef_names : string_table names;
  ef_strings : string_table strings;
  ef_recs : Forall2 (symbol_record strings) (ordered_syms o) recs;
  ef_records : len recs + 1 < 2 ^ 32;
  ef_payloads : Forall (payload_in bs) (secs ++ relas ++ [symtab; strtab; shstrtab]);
  ef_offsets : Forall (λ e, 0 ≤ sh_offset e.1 < 2 ^ 64) (secs ++ relas ++ [symtab; strtab; shstrtab]);
  ef_header : slice 0 64 bs = header_bytes (mkElf64Header ELF_IDENT 1 machine 1 0 0 shoff
    (elf_flags (target o)) 64 0 0 64 (symtab_index secs relas + 3) (symtab_index secs relas + 2));
  ef_shoff : 64 ≤ shoff < 2 ^ 64;
  ef_table i e : (null_entry :: secs ++ relas ++ [symtab; strtab; shstrtab]) !! i = Some e →
    slice (shoff + 64 * Z.of_nat i) 64 bs = shdr_bytes e.1;
  ef_length : len bs = shoff + 64 * (symtab_index secs relas + 3);
  ef_count : symtab_index secs relas + 3 < 0xff00;
  ef_limit : len bs ≤ limit;
}.

Arguments ef_secs {_ _ _ _ _ _ _ _ _ _ _ _ _} _.
Arguments ef_relas {_ _ _ _ _ _ _ _ _ _ _ _ _} _.
Arguments ef_symtab {_ _ _ _ _ _ _ _ _ _ _ _ _} _.
Arguments ef_strtab {_ _ _ _ _ _ _ _ _ _ _ _ _} _.
Arguments ef_shstrtab {_ _ _ _ _ _ _ _ _ _ _ _ _} _.
Arguments ef_names {_ _ _ _ _ _ _ _ _ _ _ _ _} _.
Arguments ef_strings {_ _ _ _ _ _ _ _ _ _ _ _ _} _.
Arguments ef_recs {_ _ _ _ _ _ _ _ _ _ _ _ _} _.
Arguments ef_records {_ _ _ _ _ _ _ _ _ _ _ _ _} _.
Arguments ef_payloads {_ _ _ _ _ _ _ _ _ _ _ _ _} _.
Arguments ef_offsets {_ _ _ _ _ _ _ _ _ _ _ _ _} _.
Arguments ef_header {_ _ _ _ _ _ _ _ _ _ _ _ _} _.
Arguments ef_shoff {_ _ _ _ _ _ _ _ _ _ _ _ _} _.
Arguments ef_table {_ _ _ _ _ _ _ _ _ _ _ _ _} _ i e _.
Arguments ef_length {_ _ _ _ _ _ _ _ _ _ _ _ _} _.
Arguments ef_count {_ _ _ _ _ _ _ _ _ _ _ _ _} _.
Arguments ef_limit {_ _ _ _ _ _ _ _ _ _ _ _ _} _.

Lemma checked_table_bytes_yields F count stride limit :
  (∀ e : ObjectError, F e) → yields F (checked_table_bytes count stride limit)
    (λ n, n = count * stride ∧ 0 ≤ n < 2 ^ 64).
Proof.
  intros HF. unfold checked_table_bytes, checked_output_size.
  apply yields_bind, yields_ok_or; [auto|]. intros n [-> Hn]%checked_u_Some.
  apply yields_bind, yields_guard; [auto|]. intros _.
  apply yields_bind, yields_ok_or; [auto|]. intros ? [-> _]%checked_u_Some.
  apply yields_bind, yields_guard; [auto|]. intros _. done.
Qed.

Lemma checked_output_size_yields F size limit :
  (∀ e : ObjectError, F e) → yields F (checked_output_size size limit) (λ _, size ≤ limit).
Proof.
  intros HF. unfold checked_output_size. apply yields_bind, yields_guard; [auto|]. intros Hle.
  apply yields_bind, yields_ok_or; [auto|]. intros ? _. apply yields_bind, yields_guard; [auto|].
  intros _. cbn [yields]. lia.
Qed.

Lemma checked_section_count_yields F n m :
  (∀ e : ObjectError, F e) → 0 ≤ n → 0 ≤ m →
  yields F (checked_section_count n m) (λ c, c = n + m + 4 ∧ c < 0xff00).
Proof.
  intros HF Hn Hm. unfold checked_section_count. apply yields_bind, yields_ok_or; [auto|].
  intros c (k & [-> _]%checked_u_Some & [-> _]%checked_u_Some)%bind_Some.
  apply yields_bind, yields_guard; [auto|]. intros Hlt. cbn [yields].
  rewrite wrapu_id by lia. lia.
Qed.

Lemma emit_elf_yields F host o limit machine rs shidx es :
  (∀ e, F e) → Forall sized es →
  Z.of_nat (length es) + 1 = len (sections o) + Z.of_nat (size rs) + 4 →
  yields F (emit_elf host o limit machine rs shidx (null_entry :: es)) (λ bs, ∃ shoff ps,
    Forall2 moved es ps ∧ Forall (payload_in bs) ps
    ∧ slice 0 64 bs = header_bytes (mkElf64Header ELF_IDENT 1 machine 1 0 0 shoff
        (elf_flags (target o)) 64 0 0 64 (len (null_entry :: es)) (Z.of_nat shidx))
    ∧ 64 ≤ shoff < 2 ^ 64
    ∧ (∀ i e, (null_entry :: ps) !! i = Some e → slice (shoff + 64 * Z.of_nat i) 64 bs = shdr_bytes e.1)
    ∧ len bs = shoff + 64 * len (null_entry :: es) ∧ len (null_entry :: es) < 0xff00
    ∧ len bs ≤ limit).
Proof.
  intros HF Hes Hcount. unfold emit_elf. cbn [tail take]. apply yields_bind.
  eapply yields_mono, (place_entries_yields F HF es 64 [null_entry]); [done| |done|done].
  intros [cur placed] (ps & Hp & Hmv & Hch). cbn [fst snd] in *. subst placed. cbn [app tail].
  pose proof (chain_le _ _ _ _ _ Hch) as Hcur.
  apply yields_bind. eapply yields_mono, (align_up_yields F); [done| |done|lia|lia].
  intros shoff Hshoff. cbn beta in Hshoff.
  assert (len (null_entry :: ps) = len (null_entry :: es)) as Hlen.
  { unfold len. by rewrite !length_cons, (Forall2_length _ _ _ Hmv). }
  apply yields_bind. eapply yields_mono, (checked_table_bytes_yields F); [done| |done].
  intros n [-> Hn]. rewrite Hlen in Hn |- *.
  apply yields_bind, yields_ok_or; [auto|]. intros total [-> Htotal]%checked_u_Some.
  apply yields_bind. eapply yields_mono, (checked_output_size_yields F); [done| |done]. intros ? Hlim. cbn beta in Hlim.
  apply yields_bind. eapply yields_mono, (checked_section_count_yields F); [done| |done|apply len_nonneg|lia].
  intros c [-> Hc]. apply yields_bind, yields_ok_or; [auto|]. intros i [-> Hi]%checked_u_Some.
  apply yields_bind, yields_guard; [auto|]. intros _.
  replace (len (sections o) + Z.of_nat (size rs) + 4) with (len (null_entry :: es)) in *
    by (rewrite len_cons; unfold len at 1; lia).
  set (hdr := mkElf64Header _ _ _ _ _ _ _ _ _ _ _ _ _ _).
  assert (length (header_bytes hdr) = 64%nat) as Hhdr by by rewrite length_header_bytes.
  assert (Forall sized ps) as Hps.
  { clear -Hes Hmv. induction Hmv as [|e p es ps (off & _ & ->) _ IH]; [done|].
    apply Forall_cons in Hes as [? ?]. constructor; [done|auto]. }
  apply yields_bind. eapply yields_mono, (emit_entries_yields F HF ps 64 cur (header_bytes hdr));
    [done| |unfold len; lia|done|done].
  intros out ([more ->] & Hout & Hpay). apply yields_bind, yields_ok_or; [auto|].
  intros ? [-> _]%checked_u_Some. cbn [yields].
  assert (len (pad_to shoff (header_bytes hdr ++ more)) = shoff) as Hpad by (apply len_pad_to; lia).
  assert (len (pad_to shoff (header_bytes hdr ++ more) ++ ((null_entry :: ps) ≫= λ e, shdr_bytes e.1))
          = shoff + 64 * len (null_entry :: es)) as Hbs.
  { rewrite len_app, Hpad, (len_records _ 64), Hlen by (intros; apply length_shdr_bytes). done. }
  unfold ELF_SHDR_SIZE in *. exists shoff, ps. rewrite Hbs. split; [done|]. split; [|split; [|split; [lia|split; [|split; [done|lia]]]]].
  - eapply Forall_impl; [exact Hpay|]. intros e He. unfold pad_to. rewrite <- app_assoc.
    by apply payload_in_grow.
  - unfold pad_to. rewrite <- !app_assoc. rewrite slice_app_l by lia.
    unfold slice. change (Z.to_nat 0) with 0%nat. rewrite drop_0, take_ge by lia. done.
  - intros j e Hj. rewrite <- (slice_records (λ e : Entry, shdr_bytes e.1) 64 _ j e) by (done || intros; apply length_shdr_bytes).
    unfold slice. rewrite drop_app_ge by (unfold len in Hpad; lia). f_equal. f_equal.
    unfold len in Hpad. lia.
Qed.

Lemma relocated_sections_size o :
  Forall (λ r, (rel_section r < length (sections o))%nat) (relocations o) →
  size (list_to_set (rel_section <$> relocations o) : gset nat) = length (relocated_sections o).
Proof.
  intros Hr. rewrite <- (size_list_to_set (C := gset nat) (relocated_sections o)).
  - f_equal. apply set_eq. intros i. rewrite !elem_of_list_to_set.
    unfold relocated_sections. rewrite list_elem_of_filter, elem_of_seq, list_elem_of_fmap. split.
    + intros (r & -> & Hin). assert (rel_section r < length (sections o))%nat by by apply (proj1 (Forall_forall _ _) Hr).
      split; [|lia].
      intros Hnil. apply (not_elem_of_nil (A := ObjectRelocation) r). rewrite <- Hnil.
      by apply list_elem_of_filter.
    + intros [Hne _]. destruct (relocations_of o i) as [|r rs] eqn:E; [done|].
      assert (r ∈ relocations_of o i) as Hin by (rewrite E; apply elem_of_cons; by left).
      apply list_elem_of_filter in Hin as [<- Hin]. by exists r.
  - apply NoDup_filter, NoDup_seq.
Qed.

Lemma relocations_sections o :
  object_ok o → Forall (λ r, (rel_section r < length (sections o))%nat) (relocations o).
Proof.
  intros Hok. eapply Forall_impl; [exact (oo_relocations _ Hok)|].
  intros r [_ (section & c & w & Hs & _)]. by eapply lookup_lt_Some.
Qed.

(** The entries of the tables, of one section header table. *)
Lemma push_table_yields F granted b name shdr payload :
  (∀ e, F e) → string_table (shstrtab b) →
  yields F (push_table granted b name shdr payload) (λ b',
    (∃ more, shstrtab b' = shstrtab b ++ more) ∧ string_table (shstrtab b')
    ∧ ∃ idx, named (shstrtab b') idx name ∧ entries b' = entries b ++ [(shdr idx, Some payload)]).
Proof.
  intros HF Ht. unfold push_table. apply yields_bind.
  eapply yields_mono, (push_name_yields F); [done| |done|done].
  intros [table idx] (Hm & Ht' & Hn). cbn [yields fst snd shstrtab entries] in *.
  split; [done|]. split; [done|]. exists idx. done.
Qed.

Lemma table_entry_sized names name ty link info align entsize payload e :
  table_entry_ok names name ty (len payload) link info align entsize payload e → 1 ≤ align → sized e.
Proof.
  intros (_ & _ & _ & _ & Hs & _ & _ & Ha & _ & Hp) Hal. split; [lia|]. intros _. by exists payload.
Qed.

Lemma Forall2_moved {A} (P : A → Entry → Prop) l es ps :
  (∀ x e p, moved e p → P x e → P x p) → Forall2 P l es → Forall2 moved es ps → Forall2 P l ps.
Proof.
  intros HP Hl. revert ps. induction Hl as [|x e l es Hx _ IH]; intros ps Hps; inversion Hps; subst; eauto.
Qed.

(** Layout and output of tables that are complete. *)
Lemma finish_yields F host o limit machine shidx secs relas symtab strtab shstrtab names strings recs :
  (∀ e, F e) → object_ok o →
  Forall2 (section_entry names) (sections o) secs →
  Forall2 (rela_entry o names (symtab_index secs relas)) (relocated_sections o) relas →
  table_entry_ok names ".symtab" SHT_SYMTAB (len ((null_sym :: recs) ≫= sym_bytes))
    (symtab_index secs relas + 1) (1 + Z.of_nat (local_prefix (ordered_syms o))) 8 24
    ((null_sym :: recs) ≫= sym_bytes) symtab →
  table_entry_ok names ".strtab" SHT_STRTAB (len strings) 0 0 1 0 strings strtab →
  table_entry_ok names ".shstrtab" SHT_STRTAB (len names) 0 0 1 0 names shstrtab →
  string_table names → string_table strings → Forall2 (symbol_record strings) (ordered_syms o) recs →
  len recs + 1 < 2 ^ 32 → Z.of_nat shidx = symtab_index secs relas + 2 →
  yields F (emit_elf host o limit machine (list_to_set (rel_section <$> relocations o)) shidx
              (null_entry :: secs ++ relas ++ [symtab; strtab; shstrtab]))
    (λ bs, ∃ shoff secs relas symtab strtab shstrtab,
       elf_file o limit machine bs shoff secs relas symtab strtab shstrtab names strings recs).
Proof.
  intros HF Hok Hsecs Hrelas Hsym Hstr Hshstr Hnames Hstrings Hrecs Hcount Hidx.
  assert (len (null_entry :: secs ++ relas ++ [symtab; strtab; shstrtab]) = symtab_index secs relas + 3) as Hlen.
  { unfold symtab_index. rewrite len_cons, !len_app. unfold len at 3. simpl. lia. }
  eapply yields_mono, emit_elf_yields; [done| |done| |].
  2: { rewrite !Forall_app. split; [|split].
       - eapply Forall2_Forall_r; [exact Hsecs|]. eapply Forall_impl; [exact (oo_sections _ Hok)|].
         intros s Hs e He. by eapply section_entry_sized.
       - eapply Forall2_Forall_r; [exact Hrelas|]. apply Forall_true. intros i e He. by eapply rela_entry_sized.
       - rewrite !Forall_cons. split; [by eapply table_entry_sized|]. split; [by eapply table_entry_sized|].
         split; [by eapply table_entry_sized|constructor]. }
  2: { rewrite relocated_sections_size by by apply relocations_sections.
       rewrite (Forall2_length _ _ _ Hrelas). unfold len. rewrite (Forall2_length _ _ _ Hsecs).
       rewrite !length_app. cbn [length]. lia. }
  intros bs (shoff & ps & Hmv & Hpay & Hhdr & Hshoff & Htab & Hbs & Hc & Hlim). rewrite Hlen in *.
  apply Forall2_app_inv_l in Hmv as (secs' & ps1 & Hm1 & Hmv & ->).
  apply Forall2_app_inv_l in Hmv as (relas' & ps2 & Hm2 & Hmv & ->).
  assert (symtab_index secs' relas' = symtab_index secs relas) as Hsi.
  { unfold symtab_index, len. by rewrite (Forall2_length _ _ _ Hm1), (Forall2_length _ _ _ Hm2). }
  apply Forall2_cons_inv_l in Hmv as (symtab' & ps3 & Hm3 & Hmv & ->).
  apply Forall2_cons_inv_l in Hmv as (strtab' & ps4 & Hm4 & Hmv & ->).
  apply Forall2_cons_inv_l in Hmv as (shstrtab' & ps5 & Hm5 & Hmv & ->).
  apply Forall2_nil_inv_l in Hmv as ->.
  exists shoff, secs', relas', symtab', strtab', shstrtab'. split; rewrite ?Hsi; try done.
  - eapply Forall2_moved; [|exact Hsecs|exact Hm1]. intros ????. by eapply section_entry_moved.
  - eapply Forall2_moved; [|exact Hrelas|exact Hm2]. intros ????. by eapply rela_entry_moved.
  - eapply table_entry_moved; [done|]. rewrite (len_records _ 24), len_cons in Hsym by apply length_sym_bytes.
    by rewrite (Z.add_comm 1) in Hsym.
  - by eapply table_entry_moved.
  - by eapply table_entry_moved.
  - assert (∀ es ps, Forall2 moved es ps → Forall (λ e : Entry, 0 ≤ sh_offset e.1 < 2 ^ 64) ps) as Hoff.
    { induction 1 as [|e p es ps (off & ? & ->) _ IH]; by constructor. }
    rewrite !Forall_app. split; [by eapply Hoff|]. split; [by eapply Hoff|].
    eapply (Hoff [symtab; strtab; shstrtab]). by repeat constructor.
  - rewrite Hhdr. do 2 f_equal. lia.
Qed.

(** The preflight only counts. *)
Lemma checked_output_size_total size limit : checked_output_size size limit ≠ Panic.
Proof. unfold checked_output_size. total_auto. Qed.
Lemma checked_table_bytes_total count stride limit : checked_table_bytes count stride limit ≠ Panic.
Proof. unfold checked_table_bytes, checked_output_size. total_auto. Qed.
Lemma checked_name_end_total current n : checked_name_end current n ≠ Panic.
Proof. unfold checked_name_end, checked_u32. total_auto. Qed.
Lemma align_up_total v a : align_up v a ≠ Panic.
Proof. unfold align_up. total_auto. Qed.
#[local] Hint Resolve checked_output_size_total checked_table_bytes_total checked_name_end_total
  align_up_total : total.

Lemma preflight_total stride o limit : preflight stride o limit ≠ Panic.
Proof.
  unfold preflight, count_relocation, checked_section_count, checked_u32, preflight_section,
    preflight_name, preflight_table. total_auto.
Qed.

Lemma write_elf_yields host stride o limit :
  yields (λ _, True) (write_elf_checked host stride o limit) (λ bs,
    object_ok o ∧ ∃ machine shoff secs relas symtab strtab shstrtab names strings recs,
      elf_machine (target o) = Ok machine
      ∧ elf_file o limit machine bs shoff secs relas symtab strtab shstrtab names strings recs).
Proof.
  set (F := λ _ : ObjectError, True). assert (∀ e, F e) as HF by done.
  unfold write_elf_checked.
  apply yields_bind, yields_map_err.
  { unfold elf_machine, validate_object. repeat (case_match; simpl; try done). }
  { done. }
  intros machine Hmachine. apply yields_bind.
  eapply yields_mono, (checked_section_count_yields F); [done| |done|apply len_nonneg|lia].
  intros sc [_ Hsc]. apply yields_bind, yields_case; [apply preflight_total|done|]. intros _ _.
  apply yields_bind, yields_case; [apply validate_no_panic|done|].
  intros [] Hok%validate_diagnostic_decides.
  pose proof (relocations_sections _ Hok) as Hrs.
  apply yields_bind. eapply yields_mono, (push_sections_yields F HF host o Hok); [done|].
  intros [b idx] Hpushed. pose proof Hpushed as (_ & _ & Hlidx & Hidx). cbn [fst snd] in Hlidx, Hidx.
  apply yields_bind, yields_ok_or; [done|]. intros symbol_count [-> _]%checked_u_Some.
  apply yields_bind, yields_ok_or; [done|]. intros ? [-> Hcount]%checked_u_Some.
  apply yields_bind. eapply yields_mono, (checked_table_bytes_yields F); [done| |done]. intros _ _.
  apply yields_bind, yields_guard; [done|]. intros _.
  apply yields_bind. eapply yields_mono, (push_symbols_yields F HF host o Hok idx Hlidx Hidx); [done|].
  intros [[strings elf_syms] index] [Hstrings (recs & Hrecs & Hfr) Hindex _]. cbn [fst snd] in *.
  rewrite firstn_all in Hfr. subst elf_syms.
  apply yields_bind. eapply yields_mono, (group_relocations_yields F _ _ Hrs); [done|]. intros groups ->.
  assert (∀ i s, ordered_syms o !! i = Some s → index !! sym_name s = Some (S i)) as Hindex'.
  { intros i s Hs. apply Hindex; [by eapply lookup_lt_Some|done]. }
  apply yields_bind. eapply yields_mono,
    (push_all_relas_yields F HF host o Hok limit idx index Hidx Hindex' b Hpushed); [done|].
  intros [b1 ris] (Hnames1 & secs & relas & Hes1 & Hsecs & Hrelas & Hris). cbn [fst snd] in *.
  apply yields_bind. eapply yields_mono, (push_name_yields F); [done| |done|done].
  intros [names2 symtab_name] ([more2 Hmore2] & Hnames2 & Hsym). cbn [fst snd] in *.
  apply yields_bind. eapply yields_mono, (checked_table_bytes_yields F); [done| |done]. intros _ _.
  apply yields_bind, yields_guard; [done|]. intros _.
  apply yields_bind, yields_ok_or; [done|]. intros info [-> Hinfo]%checked_u_Some.
  apply yields_bind. eapply yields_mono, (push_table_yields F); [done| |done|done].
  intros b3 ([more3 Hmore3] & Hnames3 & str_name & Hstr & Hes3). cbn [shstrtab entries] in *.
  apply yields_bind, yields_ok_or; [done|]. intros link [-> Hlink]%checked_u_Some.
  set (symtab := mkShdr symtab_name _ _ _ _ _ _ _ _ _) in *.
  set (payload := (null_sym :: recs) ≫= sym_bytes) in *.
  set (strtab := (mkShdr str_name _ _ _ _ _ _ _ _ _, Some strings)) in *.
  set (st := length (entries b1)) in *.
  assert (entries b3 = ((null_entry :: secs) ++ relas) ++ (symtab, Some payload) :: [strtab]) as Hes3'.
  { rewrite Hes3, Hes1, <- !app_assoc. done. }
  assert (st = length ((null_entry :: secs) ++ relas)) as Hst by (unfold st; by rewrite Hes1).
  apply yields_bind. unfold link_entry at 1. rewrite Hes3', Hst, list_lookup_middle by done.
  cbn [expect mbind result_bind yields].
  rewrite insert_app_r_alt, Nat.sub_diag by lia. cbn [insert list_insert].
  rewrite <- Hst, <- app_assoc, Hris, (Forall2_length _ _ _ Hsecs).
  apply yields_bind. eapply yields_mono,
    (link_entries_yields F HF st (null_entry :: secs) relas (_ :: [strtab])); [done|].
  intros es ->. apply yields_bind. eapply yields_mono, (push_name_yields F); [done| |done|done].
  intros [names4 shstr_name] ([more4 Hmore4] & Hnames4 & Hshstr). cbn [fst snd] in *.
  set (shstrtab := (mkShdr shstr_name _ _ _ _ _ _ _ _ _, Some names4)).
  assert (Forall2 (section_entry names4) (sections o) secs) as Hsecs4.
  { rewrite Hmore4, Hmore3, Hmore2. eapply Forall2_impl; [exact Hsecs|].
    intros. by do 3 apply section_entry_grow. }
  assert (Forall2 (rela_entry o names4 (Z.of_nat st)) (relocated_sections o)
            (set_link (Z.of_nat st) <$> relas)) as Hrelas4.
  { apply Forall2_fmap_r. rewrite Hmore4, Hmore3, Hmore2. eapply Forall2_impl; [exact Hrelas|].
    intros i e He. do 3 apply rela_entry_grow. by eapply rela_entry_linked. }
  assert (len payload = 24 * (len recs + 1)) as Hpayload.
  { unfold payload. rewrite (len_records _ 24) by apply length_sym_bytes. rewrite len_cons. lia. }
  assert (Z.of_nat st = symtab_index secs (set_link (Z.of_nat st) <$> relas)) as Hsti.
  { rewrite Hst. unfold symtab_index, len. rewrite length_app, length_fmap. cbn [length]. lia. }
  rewrite <- app_assoc. cbn [app]. rewrite <- app_assoc. cbn [app].
  eapply yields_mono, (finish_yields F host o limit machine _ secs _ _ strtab shstrtab names4 strings recs);
    [done| |try done..].
  - intros bs (shoff & H). split; [done|]. naive_solver.
  - rewrite <- Hsti. exact Hrelas4.
  - rewrite <- Hsti. unfold symtab, set_link. split; [rewrite Hmore4, Hmore3; by do 2 apply named_grow|].
    repeat (split; [done|]). split; [cbn; rewrite length_app; simpl; unfold st; lia|].
    split; [cbn; lia|]. by repeat (split; [done|]).
  - split; [rewrite Hmore4; by apply named_grow|]. by repeat (split; [done|]).
  - assert (len recs = len (ordered_syms o)) as -> by (unfold len; by rewrite (Forall2_length _ _ _ Hfr)). lia.
  - rewrite <- Hsti, Hst. rewrite length_cons, !length_app. cbn [length]. rewrite length_fmap. lia.
Qed.

Lemma write_elf_ok host stride o limit bs :
  write_elf_checked host stride o limit = Ok bs →
  object_ok o ∧ ∃ machine shoff secs relas symtab strtab shstrtab names strings recs,
    elf_machine (target o) = Ok machine
    ∧ elf_file o limit machine bs shoff secs relas symtab strtab shstrtab names strings recs.
Proof. intros Hw. pose proof (write_elf_yields host stride o limit) as Hy. by rewrite Hw in Hy. Qed.

(** C23: The ELF writer never panics, and what it writes for an object is the file of a valid object:
    within the limit, with a header that leads to the section headers, every payload and every name
    where its header says, a record for each symbol and for each relocation. *)
Theorem write_elf_sound host stride o limit :
  write_elf_checked host stride o limit ≠ Panic
  ∧ ∀ bs, write_elf_checked host stride o limit = Ok bs →
      object_ok o ∧ ∃ machine shoff secs relas symtab strtab shstrtab names strings recs,
        elf_machine (target o) = Ok machine
        ∧ elf_file o limit machine bs shoff secs relas symtab strtab shstrtab names strings recs.
Proof.
  split; [exact (yields_not_Panic _ _ _ (write_elf_yields host stride o limit))|]. intros bs. apply write_elf_ok.
Qed.
