(* ===== verification/ElfRead.v ===== *)
(** * The ELF reader ([object/src/formats/elf_read.rs])

    A view checks every access against the input; the importer turns a relocatable file into an
    object under a budget of sections, symbols, relocations, payload, names and work.  Whether the
    host grants a [try_reserve] is the oracle [host]. *)
From stdpp Require Export pretty.
From S2P Require Export ElfWrite.
Local Open Scope string_scope.
Local Open Scope list_scope.
Local Open Scope Z_scope.

Definition read_error (kind : ErrorKind.t) (message : string) : ObjectError :=
  new_error "read" kind [Text message].
Definition limit_error (r : Resource.t) : ObjectError := error_limit "read" r.

Record ObjectReadLimits := mkLimits {
  max_input_bytes : Z;
  max_sections : Z;
  max_program_headers : Z;
  max_symbols : Z;
  max_relocations : Z;
  max_payload_bytes : Z;
  max_string_bytes : Z;
  max_work : Z;
}.

Definition default_read_limits : ObjectReadLimits :=
  mkLimits (256 * 1024 * 1024) 65279 4096 1000000 1000000 (256 * 1024 * 1024) (16 * 1024 * 1024)
    (512 * 1024 * 1024).

Record ObjectReadUsage := mkUsage {
  us_input_bytes : Z;
  us_sections : Z;
  us_program_headers : Z;
  us_symbols : Z;
  us_relocations : Z;
  us_payload_bytes : Z;
  us_string_bytes : Z;
  us_work : Z;
}.

Record ElfHeader := mkElfHeader {
  h_kind : Z;
  h_entry : Z;
  h_program_offset : Z;
  h_section_offset : Z;
  h_program_entry_size : Z;
  h_program_count : Z;
  h_section_entry_size : Z;
  h_section_count : Z;
  h_string_section : Z;
}.

Record ElfSectionHeader := mkSectionHeader {
  sc_name : Z;
  sc_kind : Z;
  sc_flags : Z;
  sc_address : Z;
  sc_offset : Z;
  sc_size : Z;
  sc_link : Z;
  sc_info : Z;
  sc_align : Z;
  sc_entry_size : Z;
}.

Record ElfProgramHeader := mkElfProgramHeader {
  ph_kind : Z;
  ph_flags : Z;
  ph_offset : Z;
  ph_virtual_address : Z;
  ph_physical_address : Z;
  ph_file_size : Z;
  ph_memory_size : Z;
  ph_align : Z;
}.

(** ** The view *)

Record ElfView := mkView { bytes : list Z; header : ElfHeader }.

(** [slice::get]. *)
Definition get_at {A} (l : list A) (i : Z) : option A := if i <? len l then l !! Z.to_nat i else None.

Definition range (v : ElfView) (offset size : Z) : result ObjectError (list Z) :=
  end_ ← ok_or (checked_u 64 (offset + size))
           (error_at offset (read_error ErrorKind.Overflow "ELF range overflow"));
  start ← ok_or (checked_u 64 offset)
            (error_at offset (read_error ErrorKind.OutOfBounds "ELF offset exceeds host range"));
  end_ ← ok_or (checked_u 64 end_)
           (error_at offset (read_error ErrorKind.OutOfBounds "ELF range exceeds host range"));
  ok_or (if (start <=? end_) && (end_ <=? len (bytes v))
         then Some (slice start (Z.to_nat (end_ - start)) (bytes v)) else None)
    (error_at offset (read_error ErrorKind.Truncated "ELF range exceeds input")).

Definition table (v : ElfView) (offset count stride : Z) : result ObjectError unit :=
  size ← ok_or (checked_u 64 (count * stride))
           (error_at offset (read_error ErrorKind.Overflow "ELF table size overflow"));
  _ ← range v offset size;
  Ok tt.

Definition read_u (v : ElfView) (n : Z) (at_ : Z) : result ObjectError Z :=
  from_le_bytes <$> range v at_ n.
Definition u16 (v : ElfView) : Z → result ObjectError Z := read_u v 2.
Definition u32 (v : ElfView) : Z → result ObjectError Z := read_u v 4.
Definition u64 (v : ElfView) : Z → result ObjectError Z := read_u v 8.
Definition i64 (v : ElfView) (at_ : Z) : result ObjectError Z := wraps 64 <$> u64 v at_.

Definition any_nonzero (bs : list Z) : bool := existsb (λ b, negb (b =? 0)) bs.

(** The identification of a supported file. *)
Definition check_ident (bs : list Z) : result ObjectError unit :=
  _ ← guard_err (bool_decide (slice 0 4 bs = [0x7f; 69; 76; 70]))
        (error_at 0 (read_error ErrorKind.InvalidEncoding "invalid ELF magic"));
  b4 ← expect (bs !! 4%nat);
  b5 ← expect (bs !! 5%nat);
  b6 ← expect (bs !! 6%nat);
  _ ← guard_err ((b4 =? 2) && (b5 =? 1) && (b6 =? 1))
        (error_at 4 (read_error ErrorKind.Unsupported "only ELF64 little-endian version 1 is supported"));
  b7 ← expect (bs !! 7%nat);
  b8 ← expect (bs !! 8%nat);
  guard_err (((b7 =? 0) || (b7 =? 3)) && (b8 =? 0) && negb (any_nonzero (slice 9 7 bs)))
    (error_at 7 (read_error ErrorKind.Unsupported "unsupported ELF ABI or identification padding")).

Definition read_header (v : ElfView) : result ObjectError ElfHeader :=
  kind ← u16 v 16;
  entry ← u64 v 24;
  program_offset ← u64 v 32;
  section_offset ← u64 v 40;
  program_entry_size ← u16 v 54;
  program_count ← u16 v 56;
  section_entry_size ← u16 v 58;
  section_count ← u16 v 60;
  string_section ← u16 v 62;
  Ok (mkElfHeader kind entry program_offset section_offset program_entry_size program_count
        section_entry_size section_count string_section).

Definition check_tables (v : ElfView) (limits : ObjectReadLimits) : result ObjectError unit :=
  let h := header v in
  _ ← guard_err (negb ((0xff00 <=? h_section_count h) || (h_program_count h =? 0xffff)
                       || (h_string_section h =? 0xffff)
                       || ((h_section_count h =? 0) && negb (h_section_offset h =? 0))))
        (error_at 56 (read_error ErrorKind.Unsupported "ELF extended numbering is unsupported"));
  _ ← guard_err (h_section_count h <=? max_sections limits) (limit_error Resource.Sections);
  _ ← guard_err (h_program_count h <=? max_program_headers limits)
        (limit_error Resource.ProgramHeaders);
  _ ← (if 0 <? h_section_count h then
         _ ← guard_err ((h_section_entry_size h =? 64) && (h_string_section h <? h_section_count h))
               (error_at 58 (read_error ErrorKind.InvalidSection
                  "invalid section table stride or string index"));
         table v (h_section_offset h) (h_section_count h) 64
       else guard_err (h_string_section h =? 0)
         (error_at 62 (read_error ErrorKind.InvalidSection
            "absent section table has a string index")));
  if 0 <? h_program_count h then
    _ ← guard_err (h_program_entry_size h =? 56)
          (error_at 54 (read_error ErrorKind.InvalidEncoding "invalid program header stride"));
    table v (h_program_offset h) (h_program_count h) 56
  else Ok tt.

Definition empty_header : ElfHeader := mkElfHeader 0 0 0 0 0 0 0 0 0.

(** [ElfView::parse]. *)
Definition parse_view (bs : list Z) (limits : ObjectReadLimits) : result ObjectError ElfView :=
  _ ← guard_err (len bs <=? max_input_bytes limits) (limit_error Resource.InputBytes);
  _ ← guard_err (64 <=? len bs)
        (error_at (len bs) (read_error ErrorKind.Truncated "ELF64 header requires 64 bytes"));
  _ ← check_ident bs;
  let view := mkView bs empty_header in
  machine ← u16 view 18;
  _ ← guard_err (machine =? 62)
        (error_at 18 (read_error ErrorKind.InvalidTarget "only AMD64 ELF machine 62 is supported"));
  version ← u32 view 20;
  flags ← u32 view 48;
  header_size ← u16 view 52;
  _ ← guard_err ((version =? 1) && (flags =? 0) && (header_size =? 64))
        (error_at 20 (read_error ErrorKind.Unsupported
           "unsupported ELF version, flags or header size"));
  header ← read_header view;
  let view := mkView bs header in
  _ ← check_tables view limits;
  Ok view.

(** The offset of an entry of a table. *)
Definition table_entry (offset index stride : Z) (what : string) : result ObjectError Z :=
  at_ ← ok_or (checked_u 64 (index * stride))
          (read_error ErrorKind.Overflow (what +:+ " table index overflow"));
  ok_or (checked_u 64 (offset + at_)) (read_error ErrorKind.Overflow (what +:+ " table offset overflow")).

(** [self.u32(at + k)] and its like. *)
Definition field (v : ElfView) (n at_ k : Z) : result ObjectError Z :=
  at_ ← debug_u 64 (at_ + k); read_u v n at_.

Definition section_header (v : ElfView) (index : nat) : result ObjectError ElfSectionHeader :=
  _ ← guard_err (Z.of_nat index <? h_section_count (header v))
        (error_section index (read_error ErrorKind.InvalidSection "section index outside table"));
  at_ ← table_entry (h_section_offset (header v)) (Z.of_nat index) 64 "section";
  name ← u32 v at_;
  kind ← field v 4 at_ 4;
  flags ← field v 8 at_ 8;
  address ← field v 8 at_ 16;
  offset ← field v 8 at_ 24;
  size ← field v 8 at_ 32;
  link ← field v 4 at_ 40;
  info ← field v 4 at_ 44;
  align ← field v 8 at_ 48;
  entry_size ← field v 8 at_ 56;
  Ok (mkSectionHeader name kind flags address offset size link info align entry_size).

Definition elf_program (v : ElfView) (index : nat) : result ObjectError ElfProgramHeader :=
  _ ← guard_err (Z.of_nat index <? h_program_count (header v))
        (read_error ErrorKind.OutOfBounds "program index outside table");
  at_ ← table_entry (h_program_offset (header v)) (Z.of_nat index) 56 "program";
  kind ← u32 v at_;
  flags ← field v 4 at_ 4;
  offset ← field v 8 at_ 8;
  virtual_address ← field v 8 at_ 16;
  physical_address ← field v 8 at_ 24;
  file_size ← field v 8 at_ 32;
  memory_size ← field v 8 at_ 40;
  align ← field v 8 at_ 48;
  Ok (mkElfProgramHeader kind flags offset virtual_address physical_address file_size memory_size
        align).

(** ** The budget *)

Record Budget := mkBudget {
  bd_limits : ObjectReadLimits;
  bd_work : Z;
  bd_strings : Z;
  bd_payload : Z;
}.

Definition charge (n : Z) (b : Budget) : result ObjectError Budget :=
  work ← ok_or (checked_u 64 (bd_work b + n)) (limit_error Resource.Work);
  _ ← guard_err (work <=? max_work (bd_limits b)) (limit_error Resource.Work);
  Ok (mkBudget (bd_limits b) work (bd_strings b) (bd_payload b)).

Definition charge_strings (n : Z) (b : Budget) : result ObjectError Budget :=
  strings ← ok_or (checked_u 64 (bd_strings b + n)) (limit_error Resource.StringBytes);
  _ ← guard_err (strings <=? max_string_bytes (bd_limits b)) (limit_error Resource.StringBytes);
  Ok (mkBudget (bd_limits b) (bd_work b) strings (bd_payload b)).

Definition charge_payload (n : Z) (b : Budget) : result ObjectError Budget :=
  payload ← ok_or (checked_u 64 (bd_payload b + n)) (limit_error Resource.PayloadBytes);
  _ ← guard_err (payload <=? max_payload_bytes (bd_limits b)) (limit_error Resource.PayloadBytes);
  Ok (mkBudget (bd_limits b) (bd_work b) (bd_strings b) payload).

(** [Budget::own]: the copy of a name. *)
Definition own (granted : bool) (s : string) (b : Budget) : result ObjectError (string * Budget) :=
  b ← charge_strings (name_len s) b;
  b ← charge (name_len s) b;
  _ ← guard_err granted (read_error ErrorKind.HostAllocation "name allocation failed");
  Ok (s, b).

(** [Budget::name]: the name at an index of a string table. *)
Definition name_at (v : ElfView) (t : ElfSectionHeader) (index : Z) (b : Budget)
  : result ObjectError (string * Budget) :=
  _ ← guard_err (negb (negb (sc_kind t =? 3) || (sc_size t <=? index)))
        (error_at (sc_offset t) (read_error ErrorKind.InvalidName
           "invalid string table or name offset"));
  start ← ok_or (checked_u 64 (sc_offset t + index))
            (read_error ErrorKind.Overflow "string offset overflow");
  size ← debug_u 64 (sc_size t - index);
  tail ← range v start size;
  let remaining := Z.max 0 (max_work (bd_limits b) - bd_work b) in
  let search := take (Z.to_nat (Z.min (len tail) (Z.min (remaining + 1) (umax 64)))) tail in
  match list_find (λ byte, byte = 0) search with
  | None =>
      if remaining <? len tail then Err (limit_error Resource.Work)
      else Err (error_at start (read_error ErrorKind.InvalidName "unterminated ELF name"))
  | Some (end_, _) =>
      b ← charge (Z.of_nat end_ + 1) b;
      b ← charge_strings (Z.of_nat end_) b;
      let name := take end_ tail in
      _ ← guard_err (from_utf8 name)
            (error_at start (read_error ErrorKind.InvalidName "ELF name is not UTF-8"));
      Ok (string_of_bytes name, b)
  end.

Definition is_string_table (bs : list Z) : bool :=
  bool_decide (head bs = Some 0) && bool_decide (last bs = Some 0).

Definition reserve (granted : bool) : result ObjectError unit :=
  guard_err granted (read_error ErrorKind.HostAllocation "ELF metadata allocation failed").

(** ** Sections *)

Definition read_section_header (v : ElfView) (st : Budget * list ElfSectionHeader) (index : nat)
  : result ObjectError (Budget * list ElfSectionHeader) :=
  let '(b, headers) := st in
  b ← charge 1 b;
  section ← section_header v index;
  _ ← (if decide (index = 0%nat) then
         zero ← range v (h_section_offset (header v)) 64;
         guard_err (negb (any_nonzero zero))
           (error_section 0 (read_error ErrorKind.InvalidSection "section zero is not null"))
       else if negb (sc_kind section =? 0) then
         _ ← guard_err ((sc_align section =? 0) || is_power_of_two (sc_align section))
               (error_section index (read_error ErrorKind.InvalidAlignment
                  "section alignment must be zero or power of two"));
         _ ← guard_err (sc_address section =? 0)
               (error_section index (read_error ErrorKind.InvalidSection
                  "ET_REL section has a virtual address"));
         if negb (sc_kind section =? 8) then
           _ ← range v (sc_offset section) (sc_size section); Ok tt
         else Ok tt
       else Ok tt);
  Ok (b, headers ++ [section]).

Record Import := mkImport {
  im_budget : Budget;
  im_sections : list Section_;
  im_mapping : list (option nat);
  im_symbol_table : option nat;
}.

Definition payload_kind (kind flags : Z) : option SectionKind.t :=
  if (kind =? 1) && (flags =? 6) then Some SectionKind.Text_
  else if (kind =? 1) && (flags =? 3) then Some SectionKind.Data
  else if (kind =? 1) && (flags =? 2) then Some SectionKind.ReadOnlyData
  else if (kind =? 8) && (flags =? 3) then Some SectionKind.Bss
  else None.

(** A section with a payload. *)
Definition import_payload (host : Host) (v : ElfView) (index : nat) (section : ElfSectionHeader)
    (name : string) (b : Budget) (im : Import) : result ObjectError Import :=
  kind ← ok_or (payload_kind (sc_kind section) (sc_flags section))
    (error_section index (read_error ErrorKind.Unsupported "unsupported ELF section flags"));
  _ ← guard_err ((sc_link section =? 0) && (sc_info section =? 0) && (sc_entry_size section =? 0))
        (error_section index (read_error ErrorKind.Unsupported
           "unsupported payload section metadata"));
  '(data, b) ←
    (if sc_kind section =? 8 then Ok ([], b)
     else
       n ← ok_or (checked_u 64 (sc_size section)) (limit_error Resource.PayloadBytes);
       b ← charge_payload n b;
       b ← charge n b;
       _ ← reserve (host "payload" index);
       data ← range v (sc_offset section) (sc_size section);
       Ok (data, b));
  let mapping := <[index := Some (length (im_sections im))]> (im_mapping im) in
  '(name, b) ← own (host "section name" index) name b;
  Ok (mkImport b
        (im_sections im ++
           [mkSection name kind data (if sc_kind section =? 8 then sc_size section else 0)
              (sc_align section)])
        mapping (im_symbol_table im)).

Definition import_section (host : Host) (v : ElfView) (names : ElfSectionHeader) (im : Import)
    (x : nat * ElfSectionHeader) : result ObjectError Import :=
  let '(index, section) := x in
  if sc_kind section =? 0 then Ok im
  else
    '(name, b) ← map_err (error_section index) (name_at v names (sc_name section) (im_budget im));
    let im' := mkImport b (im_sections im) (im_mapping im) in
    if (sc_kind section =? 1) || (sc_kind section =? 8) then
      import_payload host v index section name b im
    else if sc_kind section =? 2 then
      match im_symbol_table im with
      | Some _ => Err (error_section index (read_error ErrorKind.Unsupported
                         "multiple ELF symbol tables are unsupported"))
      | None => Ok (im' (Some index))
      end
    else if sc_kind section =? 3 then
      valid ← (if sc_flags section =? 0
               then is_string_table <$> range v (sc_offset section) (sc_size section) else Ok false);
      _ ← guard_err valid
            (error_section index (read_error ErrorKind.InvalidName "invalid ELF string table"));
      Ok (im' (im_symbol_table im))
    else if sc_kind section =? 4 then
      _ ← guard_err (Z.land (sc_flags section) (notu 64 0x40) =? 0)
            (error_section index (read_error ErrorKind.Unsupported "unsupported RELA section flags"));
      Ok (im' (im_symbol_table im))
    else Err (error_section index (new_error "read" ErrorKind.Unsupported
                [Text "unsupported ELF section type "; Number (sc_kind section)])).

(** ** Symbols *)

Record RawSymbol := mkRaw {
  raw_name : string;
  raw_kind : Z;
  raw_binding : Z;
  raw_visibility : Z;
  raw_section : Z;
  raw_value : Z;
  raw_size : Z;
}.

Definition read_symbol (v : ElfView) (symtab strings : ElfSectionHeader)
    (st : Budget * list RawSymbol * gset string) (index : nat)
  : result ObjectError (Budget * list RawSymbol * gset string) :=
  let '(b, raw, used_names) := st in
  b ← charge 1 b;
  offset ← debug_u 64 (Z.of_nat index * 24);
  at_ ← debug_u 64 (sc_offset symtab + offset);
  name_index ← u32 v at_;
  '(name, b) ← name_at v strings name_index b;
  at4 ← debug_u 64 (at_ + 4);
  info ← range v at4 2;
  info0 ← expect (info !! 0%nat);
  info1 ← expect (info !! 1%nat);
  section ← field v 2 at_ 6;
  value ← field v 8 at_ 8;
  size ← field v 8 at_ 16;
  let symbol := mkRaw name (Z.land info0 15) (Z.shiftr info0 4) info1 section value size in
  _ ← (if decide (index = 0%nat) then
         zero ← range v at_ 24;
         guard_err (negb (any_nonzero zero))
           (error_at at_ (read_error ErrorKind.InvalidSymbol "symbol zero is not null"))
       else guard_err (Bool.eqb (Z.of_nat index <? sc_info symtab) (raw_binding symbol =? 0))
         (error_at at_ (read_error ErrorKind.InvalidSymbol
            "local/global symbol ordering contradicts sh_info")));
  Ok (b, raw ++ [symbol],
      if (raw_kind symbol =? 3) || (raw_kind symbol =? 4) then used_names
      else {[name]} ∪ used_names).

(** A name no symbol has: [$] is appended while it is taken, one turn per name at most. *)
Fixpoint helper_name (fuel : nat) (used_names helper_names : gset string) (name : string)
    (b : Budget) : result ObjectError (string * Budget) :=
  match fuel with
  | O => Panic
  | S fuel =>
      if bool_decide (name ∈ used_names) || bool_decide (name ∈ helper_names) then
        b ← charge (name_len name + 1) b;
        helper_name fuel used_names helper_names (name +:+ "$") b
      else Ok (name, b)
  end.

Definition symbol_binding (binding : Z) : option Binding.t :=
  if binding =? 0 then Some Binding.Local_
  else if binding =? 1 then Some Binding.Global_
  else if binding =? 2 then Some Binding.Weak
  else None.

Definition symbol_visibility (visibility : Z) : option Visibility.t :=
  if visibility =? 0 then Some Visibility.Default_
  else if visibility =? 2 then Some Visibility.Hidden
  else None.

Definition symbol_kind (kind : Z) : option SymbolKind.t :=
  if kind =? 0 then Some SymbolKind.NoType
  else if kind =? 1 then Some SymbolKind.Object
  else if kind =? 2 then Some SymbolKind.Function_
  else None.

Record SymbolImport := mkSymbolImport {
  si_budget : Budget;
  si_symbols : list ObjectSymbol;
  si_mapping : list (option nat);
  si_helpers : gset string;
}.

(** The name of the symbol that stands for a section. *)
Definition section_symbol (used_names : gset string) (mapping : list (option nat)) (index : nat)
    (symbol : RawSymbol) (binding : Binding.t) (visibility : Visibility.t) (st : SymbolImport)
  : result ObjectError (SymbolKind.t * string * option nat * Budget * gset string) :=
  _ ← guard_err (bool_decide (binding = Binding.Local_)
                 && bool_decide (visibility = Visibility.Default_)
                 && (raw_value symbol =? 0) && (raw_size symbol =? 0))
        (error_symbol (raw_name symbol) (read_error ErrorKind.InvalidSymbol
           "invalid STT_SECTION auxiliary symbol"));
  section ← ok_or (mjoin (get_at mapping (raw_section symbol)))
    (error_symbol (raw_name symbol) (read_error ErrorKind.InvalidSection
       "section symbol references unsupported section"));
  '(name, b) ← helper_name (S (size used_names + size (si_helpers st))) used_names (si_helpers st)
                 ("__whale_elf_section_" +:+ pretty (N.of_nat index)) (si_budget st);
  doubled ← ok_or (checked_u 64 (name_len name * 2)) (limit_error Resource.StringBytes);
  b ← charge_strings doubled b;
  Ok (SymbolKind.NoType, name, Some section, b, {[name]} ∪ si_helpers st).

Definition ordinary_symbol (host : Host) (mapping : list (option nat)) (index : nat)
    (symbol : RawSymbol) (st : SymbolImport)
  : result ObjectError (SymbolKind.t * string * option nat * Budget * gset string) :=
  kind ← ok_or (symbol_kind (raw_kind symbol))
    (error_symbol (raw_name symbol) (read_error ErrorKind.Unsupported "unsupported ELF symbol type"));
  section ←
    (if raw_section symbol =? 0 then Ok None
     else section ← ok_or (mjoin (get_at mapping (raw_section symbol)))
            (error_symbol (raw_name symbol) (read_error ErrorKind.Unsupported
               "unsupported absolute/common/section symbol index"));
          Ok (Some section));
  '(name, b) ← own (host "symbol name" index) (raw_name symbol) (si_budget st);
  Ok (kind, name, section, b, si_helpers st).

Definition import_symbol (host : Host) (used_names : gset string) (mapping : list (option nat))
    (st : SymbolImport) (x : nat * RawSymbol) : result ObjectError SymbolImport :=
  let '(index, symbol) := x in
  binding ← ok_or (symbol_binding (raw_binding symbol))
    (error_symbol (raw_name symbol) (read_error ErrorKind.Unsupported
       "unsupported ELF symbol binding"));
  visibility ← ok_or (symbol_visibility (raw_visibility symbol))
    (error_symbol (raw_name symbol) (read_error ErrorKind.Unsupported
       "unsupported ELF symbol visibility"));
  if raw_kind symbol =? 4 then
    _ ← guard_err (bool_decide (binding = Binding.Local_) && (raw_section symbol =? 0xfff1)
                   && (raw_value symbol =? 0) && (raw_size symbol =? 0))
          (error_symbol (raw_name symbol) (read_error ErrorKind.InvalidSymbol
             "invalid STT_FILE auxiliary symbol"));
    Ok st
  else
    '(kind, name, section, b, helpers) ←
      (if raw_kind symbol =? 3
       then section_symbol used_names mapping index symbol binding visibility st
       else ordinary_symbol host mapping index symbol st);
    Ok (mkSymbolImport b
          (si_symbols st ++ [mkSymbol kind name section (raw_value symbol) (raw_size symbol) binding
                               visibility])
          (<[index := Some (length (si_symbols st))]> (si_mapping st)) helpers).

(** ** Relocations *)

Definition reloc_kind (code : Z) : option RelocKind :=
  if code =? 1 then Some Absolute64
  else if code =? 10 then Some Absolute32
  else if code =? 11 then Some SignedAbsolute32
  else if code =? 2 then Some Relative32
  else if code =? 15 then Some Relative8
  else if code =? 9 then Some GOTPCREL
  else if code =? 4 then Some PLT32
  else None.

Definition import_relocation (host : Host) (v : ElfView) (symbols : list ObjectSymbol)
    (symbol_mapping : list (option nat)) (index target : nat) (section : ElfSectionHeader)
    (st : Budget * list ObjectRelocation) (n : nat)
  : result ObjectError (Budget * list ObjectRelocation) :=
  let '(b, relocations) := st in
  b ← charge 1 b;
  offset ← debug_u 64 (Z.of_nat n * 24);
  at_ ← debug_u 64 (sc_offset section + offset);
  info ← field v 8 at_ 8;
  at8 ← debug_u 64 (at_ + 8);
  symbol ← ok_or (mjoin (get_at symbol_mapping (Z.shiftr info 32)))
    (error_section index (error_at at8 (read_error ErrorKind.InvalidRelocation
       "RELA references absent/null/file auxiliary symbol")));
  kind ← ok_or (reloc_kind (wrapu 32 info))
    (error_section index (error_at at8 (new_error "read" ErrorKind.Unsupported
       [Text "unsupported AMD64 RELA type "; Number (wrapu 32 info)])));
  place ← u64 v at_;
  place ← ok_or (checked_u 64 place)
    (error_at at_ (read_error ErrorKind.OutOfBounds "relocation offset exceeds host range"));
  referenced ← expect (symbols !! symbol);
  '(name, b) ← own (host "relocation name" (length relocations)) (sym_name referenced) b;
  addend ← (at16 ← debug_u 64 (at_ + 16); i64 v at16);
  Ok (b, relocations ++ [mkRelocation target place name addend kind]).

(** The state: budget, relocations so far and their number. *)
Definition import_relas (host : Host) (v : ElfView) (symbols : list ObjectSymbol)
    (symbol_mapping mapping : list (option nat)) (sym_index : nat)
    (st : Budget * list ObjectRelocation * Z) (x : nat * ElfSectionHeader)
  : result ObjectError (Budget * list ObjectRelocation * Z) :=
  let '(b, relocations, relocation_count) := st in
  let '(index, section) := x in
  _ ← guard_err ((sc_entry_size section =? 24) && (sc_size section mod 24 =? 0)
                 && (sc_link section =? Z.of_nat sym_index))
        (error_section index (read_error ErrorKind.InvalidRelocation
           "invalid RELA stride or symbol-table link"));
  target ← ok_or (mjoin (get_at mapping (sc_info section)))
    (error_section index (read_error ErrorKind.InvalidRelocation
       "RELA target is not a supported payload section"));
  count ← ok_or (checked_u 64 (sc_size section / 24)) (limit_error Resource.Relocations);
  relocation_count ← ok_or (checked_u 64 (relocation_count + count))
    (limit_error Resource.Relocations);
  _ ← guard_err (relocation_count <=? max_relocations (bd_limits b)) (limit_error Resource.Relocations);
  _ ← reserve (host "relocations" index);
  '(b, relocations) ←
    try_fold (import_relocation host v symbols symbol_mapping index target section)
      (seq 0 (Z.to_nat count)) (b, relocations);
  Ok (b, relocations, relocation_count).

(** ** The importer *)

(** What the header of a relocatable file has to satisfy. *)
Definition check_relocatable (h : ElfHeader) : result ObjectError unit :=
  _ ← guard_err (h_kind h =? 1)
        (error_at 16 (read_error ErrorKind.Unsupported "ObjectFile::read requires ELF ET_REL"));
  _ ← guard_err ((h_entry h =? 0) && (h_program_count h =? 0) && (h_program_offset h =? 0))
        (read_error ErrorKind.InvalidEncoding "ET_REL cannot carry an entry or program headers");
  guard_err (negb (h_section_count h =? 0) && negb (h_string_section h =? 0))
    (read_error ErrorKind.InvalidSection "ET_REL requires a section-name table").

(** The symbol table, its strings and the number of its symbols. *)
Definition symbol_table (headers : list ElfSectionHeader) (sym_index : nat)
    (limits : ObjectReadLimits) : result ObjectError (ElfSectionHeader * ElfSectionHeader * Z) :=
  symtab ← expect (headers !! sym_index);
  _ ← guard_err ((sc_flags symtab =? 0) && (sc_entry_size symtab =? 24)
                 && (sc_size symtab mod 24 =? 0) && (sc_link symtab <? len headers))
        (error_section sym_index (read_error ErrorKind.InvalidSymbol
           "invalid ELF symbol table metadata"));
  strings ← expect (get_at headers (sc_link symtab));
  _ ← guard_err (sc_kind strings =? 3)
        (error_section sym_index (read_error ErrorKind.InvalidSymbol
           "symbol table link is not a string table"));
  count ← ok_or (checked_u 64 (sc_size symtab / 24)) (limit_error Resource.Symbols);
  _ ← guard_err (negb (count =? 0) && (count <=? max_symbols limits)) (limit_error Resource.Symbols);
  _ ← guard_err (negb (sc_info symtab =? 0) && (sc_info symtab <=? count))
        (error_section sym_index (read_error ErrorKind.InvalidSymbol
           "invalid first-global symbol index"));
  Ok (symtab, strings, count).

Definition read_elf_with_usage (host : Host) (bs : list Z) (limits : ObjectReadLimits)
  : result ObjectError (ObjectFile * ObjectReadUsage) :=
  view ← parse_view bs limits;
  let h := header view in
  _ ← check_relocatable h;
  _ ← reserve (host "headers" 0%nat);
  '(budget, headers) ← try_fold (read_section_header view) (seq 0 (Z.to_nat (h_section_count h)))
                         (mkBudget limits 0 0 0, []);
  names ← expect (headers !! Z.to_nat (h_string_section h));
  valid ← (if sc_kind names =? 3
           then is_string_table <$> range view (sc_offset names) (sc_size names) else Ok false);
  _ ← guard_err valid
        (error_section (Z.to_nat (h_string_section h)) (read_error ErrorKind.InvalidName
           "invalid section-name string table"));
  _ ← reserve (host "mapping" 0%nat);
  im ← try_fold (import_section host view names) (drop 1 (enumerate headers))
         (mkImport budget [] (replicate (Z.to_nat (h_section_count h)) None) None);
  sym_index ← ok_or (im_symbol_table im)
    (read_error ErrorKind.InvalidSymbol "ET_REL requires a symbol table");
  '(symtab, strings, count) ← symbol_table headers sym_index limits;
  _ ← reserve (host "symbols" 0%nat);
  _ ← guard_err (host "used names" 0%nat)
        (read_error ErrorKind.HostAllocation "symbol name allocation failed");
  '(budget, raw, used_names) ← try_fold (read_symbol view symtab strings) (seq 0 (Z.to_nat count))
                                  (im_budget im, [], ∅);
  _ ← reserve (host "symbol mapping" 0%nat);
  si ← try_fold (import_symbol host used_names (im_mapping im)) (drop 1 (enumerate raw))
         (mkSymbolImport budget [] (replicate (Z.to_nat count) None) ∅);
  '(budget, relocations, relocation_count) ←
    try_fold (import_relas host view (si_symbols si) (si_mapping si) (im_mapping im) sym_index)
      (filter (λ x, sc_kind x.2 = 4) (enumerate headers)) (si_budget si, [], 0);
  let object := mkObject (object_target X86_64WhaleLinux) (im_sections im) (si_symbols si)
                  relocations in
  _ ← validate_diagnostic object;
  Ok (object, mkUsage (len bs) (h_section_count h) (h_program_count h) count relocation_count
                (bd_payload budget) (bd_strings budget) (bd_work budget)).

Definition read_elf (host : Host) (bs : list Z) (limits : ObjectReadLimits)
  : result ObjectError ObjectFile := fst <$> read_elf_with_usage host bs limits.

(** [ObjectFile::read] and its like. *)
Definition read_with_limits (host : Host) (bs : list Z) (limits : ObjectReadLimits)
  : result ObjectError ObjectFile := read_elf host bs limits.
Definition read_object (host : Host) (bs : list Z) : result ObjectError ObjectFile :=
  read_with_limits host bs default_read_limits.
Definition read_with_usage (host : Host) (bs : list Z) (limits : ObjectReadLimits)
  : result ObjectError (ObjectFile * ObjectReadUsage) := read_elf_with_usage host bs limits.
