(* ===== verification/ElfSound.v ===== *)
(** * The ELF reader on arbitrary input

    Whatever the bytes are, the reader neither panics nor overflows: every access is inside the
    input, every index inside its table, the search for a helper name ends, and what it accepts is a
    valid object of machine-width values whose cost is within the limits. *)
From S2P Require Export ElfRead.
Local Open Scope string_scope.
Local Open Scope list_scope.
Local Open Scope Z_scope.

(** Limits are 64-bit numbers. *)
Definition limits_range (l : ObjectReadLimits) : Prop :=
  Forall (λ n, 0 ≤ n < 2 ^ 64) [max_input_bytes l; max_sections l; max_program_headers l; max_symbols l;
    max_relocations l; max_payload_bytes l; max_string_bytes l; max_work l].

(** What a read reports stays within its limits. *)
Record admits (l : ObjectReadLimits) (u : ObjectReadUsage) : Prop := {
  am_input : us_input_bytes u ≤ max_input_bytes l;
  am_sections : us_sections u ≤ max_sections l;
  am_program_headers : us_program_headers u ≤ max_program_headers l;
  am_symbols : us_symbols u ≤ max_symbols l;
  am_relocations : us_relocations u ≤ max_relocations l;
  am_payload : us_payload_bytes u ≤ max_payload_bytes l;
  am_strings : us_string_bytes u ≤ max_string_bytes l;
  am_work : us_work u ≤ max_work l;
}.

(** The budget is within the limits, with so many bytes of payload charged. *)
Record within (l : ObjectReadLimits) (p : Z) (b : Budget) : Prop := {
  wi_limits : bd_limits b = l;
  wi_work : 0 ≤ bd_work b ≤ max_work l;
  wi_strings : 0 ≤ bd_strings b ≤ max_string_bytes l;
  wi_payload : bd_payload b = p ∧ 0 ≤ p ≤ max_payload_bytes l;
}.

Record header_typed (h : ElfSectionHeader) : Prop := {
  ht_offset : 0 ≤ sc_offset h < 2 ^ 64;
  ht_size : 0 ≤ sc_size h < 2 ^ 64;
  ht_link : 0 ≤ sc_link h < 2 ^ 32;
  ht_info : 0 ≤ sc_info h < 2 ^ 32;
  ht_align : 0 ≤ sc_align h < 2 ^ 64;
  ht_name : 0 ≤ sc_name h < 2 ^ 32;
}.

(** The bytes of payload of a list of sections. *)
Definition sections_payload (ss : list Section_) : Z := foldr (λ s n, data_len s + n) 0 ss.
Lemma sections_payload_snoc ss s : sections_payload (ss ++ [s]) = sections_payload ss + data_len s.
Proof. unfold sections_payload. induction ss; cbn in *; lia. Qed.

(** The entries of a mapping are below a bound. *)
Definition mapping_ok (mapping : list (option nat)) (n : nat) : Prop :=
  ∀ i j, mapping !! i = Some (Some j) → (j < n)%nat.

Lemma mapping_ok_replicate k n : mapping_ok (replicate k None) n.
Proof. intros i j Hi. by apply lookup_replicate_1 in Hi as [? _]. Qed.

Lemma mapping_ok_insert mapping i n : mapping_ok mapping n → mapping_ok (<[i := Some n]> mapping) (S n).
Proof.
  intros Hm k j [(-> & [= ->] & _)|[_ Hj]]%list_lookup_insert_Some; [lia|]. specialize (Hm k j Hj). lia.
Qed.

Lemma mapping_ok_get mapping n i j : mapping_ok mapping n → mjoin (get_at mapping i) = Some j → (j < n)%nat.
Proof.
  unfold get_at. intros Hm Hj. destruct (_ <? _); [|done]. destruct (mapping !! _) as [[j'|]|] eqn:E; try done.
  injection Hj as ->. by eapply Hm.
Qed.

Lemma get_at_bound {A} (xs : list A) i : 0 ≤ i < len xs → ∃ x, get_at xs i = Some x ∧ xs !! Z.to_nat i = Some x.
Proof.
  intros Hi. unfold get_at. rewrite (proj2 (Z.ltb_lt _ _)) by lia.
  destruct (lookup_lt_is_Some_2 xs (Z.to_nat i)) as [x Hx]; [unfold len in Hi; lia|]. by exists x.
Qed.

Lemma any_nonzero_false xs : any_nonzero xs = false → Forall (λ b, b = 0) xs.
Proof.
  unfold any_nonzero. rewrite existsb_false, Forall_lookup. intros H i b Hb. specialize (H i b Hb). lia.
Qed.
Lemma from_le_bytes_zero xs : Forall (λ b, b = 0) xs → from_le_bytes xs = 0.
Proof. induction 1 as [|b xs -> _ IH]; [done|]. cbn [from_le_bytes]. lia. Qed.

(** A host that grants every request. *)
Definition all_granted : Host := λ _ _, true.

(** The file of the sample object. *)
Definition sample_written : list Z :=
  Eval vm_compute in match write_elf_checked all_granted 48 sample_main 4096 with Ok bs => bs | _ => [] end.

Section sound.
Context (F : ObjectError → Prop) (HF : ∀ e, F e) (host : Host).
Context (bs : list Z) (Hbytes : Forall is_byte bs) (Hlen : len bs < 2 ^ 63).
Context (l : ObjectReadLimits) (Hl : limits_range l).
#[local] Set Default Proof Using "Type*".
Implicit Types (v : ElfView) (b : Budget) (h : ElfSectionHeader).

(** ** Reads *)

Lemma range_yields v off n : bytes v = bs → 0 ≤ off → 0 ≤ n →
  yields F (range v off n) (λ r, r = slice off (Z.to_nat n) bs ∧ off + n ≤ len bs ∧ len r = n).
Proof.
  intros Hv Ho Hn. unfold range. rewrite Hv.
  do 3 (apply yields_bind, yields_ok_or; [auto|]; intros ? [-> ?]%checked_u_Some).
  apply yields_ok_or; [auto|]. intros r Hr.
  destruct (Z.leb_spec off (off + n)), (Z.leb_spec (off + n) (len bs)); try done. injection Hr as <-.
  split; [do 2 f_equal; lia|]. split; [done|]. unfold len at 1. rewrite length_slice; unfold len in *; lia.
Qed.

Lemma read_u_yields v n at_ : bytes v = bs → 0 ≤ at_ → 0 ≤ n →
  yields F (read_u v n at_) (λ x, x = read_le at_ (Z.to_nat n) bs ∧ 0 ≤ x < 2 ^ (8 * n) ∧ at_ + n ≤ len bs).
Proof.
  intros Hv Ha Hn. unfold read_u. change (from_le_bytes <$> range v at_ n) with
    (fmap (M := result ObjectError) from_le_bytes (range v at_ n)).
  pose proof (range_yields v at_ n Hv Ha Hn) as Hr. destruct (range v at_ n) as [r|e|]; cbn in *; [|done|done].
  destruct Hr as (-> & Hle & _). split; [done|]. split; [|done].
  pose proof (read_le_range at_ (Z.to_nat n) bs Hbytes) as Hb. by rewrite Z2Nat.id in Hb.
Qed.

Lemma field_yields v n at_ k : bytes v = bs → 0 ≤ at_ ≤ len bs → 0 ≤ n → 0 ≤ k < 2 ^ 63 →
  yields F (field v n at_ k)
    (λ x, x = read_le (at_ + k) (Z.to_nat n) bs ∧ 0 ≤ x < 2 ^ (8 * n) ∧ at_ + k + n ≤ len bs).
Proof.
  intros Hv Ha Hn Hk. unfold field. rewrite debug_u_id by lia. cbn [mbind result_bind].
  apply read_u_yields; [done|lia|done].
Qed.

(** ** The budget *)

Lemma charge_within {p} n b : 0 ≤ n → within l p b → yields F (charge n b) (within l p).
Proof.
  intros Hn [Hb Hw Hs Hp]. unfold charge.
  apply yields_bind, yields_ok_or; [auto|]. intros w [-> ?]%checked_u_Some.
  apply yields_bind, yields_guard; [auto|]. rewrite Hb. intros ?%Z.leb_le. by split; cbn; try lia.
Qed.
Lemma charge_strings_within {p} n b : 0 ≤ n → within l p b → yields F (charge_strings n b) (within l p).
Proof.
  intros Hn [Hb Hw Hs Hp]. unfold charge_strings.
  apply yields_bind, yields_ok_or; [auto|]. intros w [-> ?]%checked_u_Some.
  apply yields_bind, yields_guard; [auto|]. rewrite Hb. intros ?%Z.leb_le. by split; cbn; try lia.
Qed.
Lemma charge_payload_within {p} n b : 0 ≤ n → within l p b → yields F (charge_payload n b) (within l (p + n)).
Proof.
  intros Hn [Hb Hw Hs Hp]. unfold charge_payload.
  apply yields_bind, yields_ok_or; [auto|]. intros w [-> ?]%checked_u_Some.
  apply yields_bind, yields_guard; [auto|]. rewrite Hb. intros ?%Z.leb_le. by split; cbn; try lia.
Qed.

Lemma own_within {p} granted s b : within l p b →
  yields F (own granted s b) (λ r, r.1 = s ∧ within l p r.2).
Proof.
  intros Hb. pose proof (name_len_nonneg s). unfold own.
  apply yields_bind. eapply yields_mono, charge_strings_within; [done| |done|done]. intros b1 Hb1.
  apply yields_bind. eapply yields_mono, charge_within; [done| |done|done]. intros b2 Hb2.
  apply yields_bind, yields_guard; [auto|]. by intros _.
Qed.

Lemma name_at_within {p} v h index b : bytes v = bs → header_typed h → 0 ≤ index → within l p b →
  yields F (name_at v h index b) (λ r, within l p r.2).
Proof.
  intros Hv [Ho Hs _ _ _ _] Hi Hb. unfold name_at.
  apply yields_bind, yields_guard; [auto|]. intros [_ Hlt%Z.leb_gt]%negb_true_iff%orb_false_iff.
  apply yields_bind, yields_ok_or; [auto|]. intros start [-> Hst]%checked_u_Some.
  rewrite debug_u_id by lia. cbn [mbind result_bind].
  apply yields_bind. eapply yields_mono, range_yields; [done| |done|lia|lia]. intros tail (-> & _ & _).
  destruct (list_find _ _) as [[e x]|]; [|case_match; apply HF].
  apply yields_bind. eapply yields_mono, charge_within; [done| |lia|done]. intros b1 Hb1.
  apply yields_bind. eapply yields_mono, charge_strings_within; [done| |lia|done]. intros b2 Hb2.
  apply yields_bind, yields_guard; [auto|]. by intros _.
Qed.
(** ** Headers *)

Definition covered h : Prop := sc_kind h ≠ 0 → sc_kind h ≠ 8 → sc_offset h + sc_size h ≤ len bs.

(** A view whose tables the check accepted. *)
Definition view_ok v : Prop := bytes v = bs ∧ 0 ≤ h_section_offset (header v) < 2 ^ 64
  ∧ 0 ≤ h_section_count (header v) ≤ max_sections l
  ∧ 0 ≤ h_program_count (header v) ≤ max_program_headers l
  ∧ 0 ≤ h_string_section (header v)
  ∧ (0 < h_section_count (header v) → h_string_section (header v) < h_section_count (header v)).

Lemma section_header_yields v index : view_ok v →
  yields F (section_header v index) (λ h, header_typed h ∧ ∃ at_,
    at_ = h_section_offset (header v) + Z.of_nat index * 64 ∧ at_ + 64 ≤ len bs
    ∧ sc_kind h = read_le (at_ + 4) 4 bs).
Proof.
  intros (Hv & Ho & _). unfold section_header, table_entry.
  apply yields_bind, yields_guard; [auto|]. intros _.
  apply yields_bind, yields_bind, yields_ok_or; [auto|]. intros n [-> Hn]%checked_u_Some.
  apply yields_ok_or; [auto|]. intros at_ [Hat Hatb]%checked_u_Some. subst at_.
  set (at_ := _ + _) in *.
  apply yields_bind. eapply yields_mono, read_u_yields; [done| |done|lia|lia]. intros name (_ & Hname & Hle). cbn in Hname.
  apply yields_bind. eapply yields_mono, field_yields; [done| |done|lia|lia|lia]. intros kind (Hk & _ & _).
  apply yields_bind. eapply yields_mono, field_yields; [done| |done|lia|lia|lia]. intros flags _.
  apply yields_bind. eapply yields_mono, field_yields; [done| |done|lia|lia|lia]. intros address _.
  apply yields_bind. eapply yields_mono, field_yields; [done| |done|lia|lia|lia]. intros offset (_ & Hoff & _).
  apply yields_bind. eapply yields_mono, field_yields; [done| |done|lia|lia|lia]. intros size (_ & Hsz & _).
  apply yields_bind. eapply yields_mono, field_yields; [done| |done|lia|lia|lia]. intros link (_ & Hlk & _).
  apply yields_bind. eapply yields_mono, field_yields; [done| |done|lia|lia|lia]. intros info (_ & Hinf & _).
  apply yields_bind. eapply yields_mono, field_yields; [done| |done|lia|lia|lia]. intros align (_ & Hal & _).
  apply yields_bind. eapply yields_mono, field_yields; [done| |done|lia|lia|lia]. intros entry_size (_ & _ & Hle').
  cbn [yields]. split; [by split|]. exists at_. split; [done|]. split; [lia|exact Hk].
Qed.

(** After the headers of [k] sections. *)
Definition headers_ok (k : nat) (hs : list ElfSectionHeader) : Prop :=
  length hs = k ∧ Forall header_typed hs ∧ Forall covered hs.

Lemma read_section_header_yields {p} v k b hs : view_ok v → within l p b → headers_ok k hs →
  yields F (read_section_header v (b, hs) k) (λ r, within l p r.1 ∧ headers_ok (S k) r.2).
Proof.
  intros Hv Hb (Hk & Ht & Hc). unfold read_section_header.
  apply yields_bind. eapply yields_mono, charge_within; [done| |lia|done]. intros b1 Hb1.
  apply yields_bind. eapply yields_mono, section_header_yields; [done| |done]. intros h (Hht & at_ & Hat & Hle & Hkind).
  pose proof Hv as (Hvb & Hvo & _). pose proof Hht as [Ho Hs _ _ _ _].
  apply yields_bind. apply (yields_mono F F _ (λ _, covered h)); [done| |].
  - intros _ Hh. cbn [yields fst snd]. split; [done|]. split; [rewrite length_app; simpl; lia|].
    split; apply Forall_app_2; try done; by constructor; [|constructor].
  - case_decide as Hk0.
    + apply yields_bind. eapply yields_mono, range_yields; [done| |done|lia|lia].
      intros zero (-> & Hz & _). apply yields_guard; [auto|]. intros Hzero%negb_true_iff%any_nonzero_false Hk1.
      exfalso. apply Hk1. rewrite Hkind. unfold read_le. apply from_le_bytes_zero.
      rewrite Hat, Hk0. replace (h_section_offset (header v) + Z.of_nat 0 * 64 + 4) with (h_section_offset (header v) + 4) by lia.
      rewrite <- (slice_slice _ (Z.to_nat 64) 4 4) by lia. unfold slice at 1. by apply Forall_take, Forall_drop.
    + destruct (Z.eqb_spec (sc_kind h) 0) as [Hk1|Hk1]; cbn [negb]; [by intros ?|].
      apply yields_bind, yields_guard; [auto|]. intros _. apply yields_bind, yields_guard; [auto|]. intros _.
      destruct (Z.eqb_spec (sc_kind h) 8) as [Hk2|Hk2]; cbn [negb]; [by intros ??|].
      apply yields_bind. eapply yields_mono, range_yields; [done| |done|lia|lia]. intros ? (_ & Hin & _) ? ?. exact Hin.
Qed.

Lemma read_headers_yields v n : view_ok v →
  yields F (try_fold (read_section_header v) (seq 0 n) (mkBudget l 0 0 0, []))
    (λ r, within l 0 r.1 ∧ headers_ok n r.2).
Proof.
  intros Hv. pose proof (try_fold_count (read_section_header v) F (λ k r, within l 0 r.1 ∧ headers_ok k r.2)
    (seq 0 n) (mkBudget l 0 0 0, [])) as Hrun. rewrite length_seq in Hrun. apply Hrun.
  - unfold limits_range in Hl. rewrite !Forall_cons in Hl.
    split; [split; cbn; [done|lia..]|]. split; [done|]. by split.
  - intros k x [b hs] [-> _]%lookup_seq [Hb Hh]. by apply read_section_header_yields.
Qed.

Lemma check_ident_yields : 64 ≤ len bs → yields F (check_ident bs) (λ _, True).
Proof.
  intros H64. unfold check_ident. apply yields_bind, yields_guard; [auto|]. intros _.
  destruct (lookup_lt_is_Some_2 bs 4) as [b4 ->]; [unfold len in H64; lia|].
  destruct (lookup_lt_is_Some_2 bs 5) as [b5 ->]; [unfold len in H64; lia|].
  destruct (lookup_lt_is_Some_2 bs 6) as [b6 ->]; [unfold len in H64; lia|].
  destruct (lookup_lt_is_Some_2 bs 7) as [b7 ->]; [unfold len in H64; lia|].
  destruct (lookup_lt_is_Some_2 bs 8) as [b8 ->]; [unfold len in H64; lia|].
  cbn [expect mbind result_bind]. apply yields_bind, yields_guard; [auto|]. intros _.
  by apply yields_guard; [auto|].
Qed.

Lemma table_yields v off n stride : bytes v = bs → 0 ≤ off → 0 ≤ n → 0 ≤ stride →
  yields F (table v off n stride) (λ _, True).
Proof.
  intros. unfold table. apply yields_bind, yields_ok_or; [auto|]. intros s [-> ?]%checked_u_Some.
  apply yields_bind. eapply yields_mono, range_yields; [done| |done|lia|lia]. done.
Qed.

Lemma read_header_yields v : bytes v = bs → 64 ≤ len bs →
  yields F (read_header v) (λ e, 0 ≤ h_program_offset e ∧ 0 ≤ h_section_offset e < 2 ^ 64
    ∧ 0 ≤ h_program_count e ∧ 0 ≤ h_section_count e ∧ 0 ≤ h_string_section e).
Proof.
  intros Hv H64. unfold read_header, u16, u64.
  do 9 (apply yields_bind; eapply yields_mono, read_u_yields; [done| |done|lia|lia]; intros ? (_ & ? & _)).
  cbn [yields]. cbn in *. lia.
Qed.

Lemma check_tables_yields v : bytes v = bs → 0 ≤ h_section_offset (header v) < 2 ^ 64 →
  0 ≤ h_program_offset (header v) → 0 ≤ h_program_count (header v) → 0 ≤ h_section_count (header v) →
  0 ≤ h_string_section (header v) →
  yields F (check_tables v l) (λ _, view_ok v).
Proof.
  intros Hv Hso Hpo Hpc Hsc Hss. unfold check_tables.
  apply yields_bind, yields_guard; [auto|]. intros _.
  apply yields_bind, yields_guard; [auto|]. intros Hs%Z.leb_le.
  apply yields_bind, yields_guard; [auto|]. intros Hp%Z.leb_le.
  apply yields_bind. apply (yields_mono F F _ (λ _, view_ok v)); [done| |].
  - intros _ Hview. destruct (0 <? h_program_count (header v)); [|done].
    apply yields_bind, yields_guard; [auto|]. intros _.
    eapply yields_mono, table_yields; [done| |done|lia..]. done.
  - assert (0 < h_section_count (header v) → h_string_section (header v) < h_section_count (header v) → view_ok v) as Hview.
    { intros ??. by repeat (split; [done|lia || done]). }
    destruct (Z.ltb_spec 0 (h_section_count (header v))) as [Hpos|Hz].
    + apply yields_bind, yields_guard; [auto|]. intros [_ Hlt%Z.ltb_lt]%andb_true_iff.
      eapply yields_mono, table_yields; [done| |done|lia..]. intros _ _. by apply Hview.
    + apply yields_guard; [auto|]. intros _. split; [done|]. split; [lia|]. repeat (split; [lia|]). lia.
Qed.

Lemma parse_view_yields : yields F (parse_view bs l) (λ v, view_ok v ∧ len bs ≤ max_input_bytes l).
Proof.
  unfold parse_view. apply yields_bind, yields_guard; [auto|]. intros Hin%Z.leb_le.
  apply yields_bind, yields_guard; [auto|]. intros H64%Z.leb_le.
  apply yields_bind. eapply yields_mono, check_ident_yields; [done| |done]. intros _ _.
  apply yields_bind. eapply yields_mono, read_u_yields; [done| |done|lia|lia]. intros machine _.
  apply yields_bind, yields_guard; [auto|]. intros _.
  do 3 (apply yields_bind; eapply yields_mono, read_u_yields; [done| |done|lia|lia]; intros ? _).
  apply yields_bind, yields_guard; [auto|]. intros _.
  apply yields_bind. eapply yields_mono, read_header_yields; [done| |done|done]. intros h (? & ? & ? & ? & ?).
  apply yields_bind. eapply yields_mono, check_tables_yields; [done| |done..]. done.
Qed.

(** ** Sections *)

Context (hs : list ElfSectionHeader) (Hhs : Forall header_typed hs) (Hcov : Forall covered hs).

Record import_ok (im : Import) : Prop := {
  io_budget : within l (sections_payload (im_sections im)) (im_budget im);
  io_sections : Forall section_typed (im_sections im);
  io_mapping : mapping_ok (im_mapping im) (length (im_sections im));
  io_symtab i : im_symbol_table im = Some i → ∃ h, hs !! i = Some h ∧ sc_kind h = 2;
}.

Lemma header_at i h : hs !! i = Some h → header_typed h ∧ covered h.
Proof. intros Hi. split; [by eapply (Forall_lookup_1 _ _ _ _ Hhs)|by eapply (Forall_lookup_1 _ _ _ _ Hcov)]. Qed.

Lemma import_payload_yields v index h name b im :
  view_ok v → header_typed h → within l (sections_payload (im_sections im)) b → import_ok im →
  yields F (import_payload host v index h name b im)
    (λ im', import_ok im' ∧ length (im_sections im') = S (length (im_sections im))).
Proof.
  intros (Hv & _) [Ho Hs _ _ Ha _] Hb [_ Hsec Hm Hst]. unfold import_payload.
  apply yields_bind, yields_ok_or; [auto|]. intros kind _.
  apply yields_bind, yields_guard; [auto|]. intros _.
  apply yields_bind. apply (yields_mono F F _ (λ r, Forall is_byte r.1 ∧ len r.1 < 2 ^ 63 ∧ within l (sections_payload (im_sections im) + len r.1) r.2)); [done| |].
  - intros [data b1] (Hd & Hdl & Hb1). cbn [fst snd] in *.
    apply yields_bind. eapply yields_mono, own_within; [done| |done]. intros [name' b2] [_ Hb2]. cbn [yields fst snd] in *.
    split; [split; cbn|].
    + by rewrite sections_payload_snoc.
    + apply Forall_app_2; [done|]. constructor; [|constructor]. split; cbn; try done. destruct (_ =? 8); lia.
    + rewrite length_app, Nat.add_1_r. by apply mapping_ok_insert.
    + done.
    + cbn. rewrite length_app. simpl. lia.
  - destruct (sc_kind h =? 8); [split; [by constructor|]; cbn; rewrite Z.add_0_r; done|].
    apply yields_bind, yields_ok_or; [auto|]. intros n [-> Hn]%checked_u_Some.
    apply yields_bind. eapply yields_mono, charge_payload_within; [done| |lia|done]. intros b1 Hb1.
    apply yields_bind. eapply yields_mono, charge_within; [done| |lia|done]. intros b2 Hb2.
    apply yields_bind, yields_guard; [auto|]. intros _.
    apply yields_bind. eapply yields_mono, range_yields; [done| |done|lia|lia]. intros data (Hd & Hle & Hdl).
    cbn [yields fst snd]. split; [rewrite Hd; by apply slice_bytes|]. split; [lia|by rewrite Hdl].
Qed.

Lemma import_section_yields v names im i h :
  view_ok v → header_typed names → hs !! i = Some h → import_ok im →
  yields F (import_section host v names im (i, h))
    (λ im', import_ok im' ∧ (length (im_sections im') ≤ S (length (im_sections im)))%nat).
Proof.
  intros Hv Hn Hh Him. destruct (header_at _ _ Hh) as [Ht _]. pose proof Him as [Hb Hs Hm Hst].
  assert (bytes v = bs) as Hvb by apply Hv.
  unfold import_section. destruct (Z.eqb_spec (sc_kind h) 0); [split; [done|lia]|].
  apply yields_bind. pose proof (name_at_within v names (sc_name h) (im_budget im) Hvb Hn (proj1 (ht_name _ Ht)) Hb) as Hname.
  destruct (name_at _ _ _ _) as [[name b]|e|]; cbn in Hname |- *; [|apply HF|done].
  assert (∀ st, (∀ j, st = Some j → ∃ h, hs !! j = Some h ∧ sc_kind h = 2) →
    import_ok (mkImport b (im_sections im) (im_mapping im) st)
    ∧ (length (im_sections im) ≤ S (length (im_sections im)))%nat) as Hsame.
  { intros st Hst'. split; [by split|lia]. }
  destruct ((sc_kind h =? 1) || (sc_kind h =? 8)).
  { eapply yields_mono, import_payload_yields; [done| |done..]. intros im' [? ->]. split; [done|lia]. }
  destruct (Z.eqb_spec (sc_kind h) 2) as [H2|_].
  { destruct (im_symbol_table im); [apply HF|]. apply Hsame. intros j [= <-]. by exists h. }
  destruct (sc_kind h =? 3).
  { apply yields_bind. destruct (sc_flags h =? 0).
    - pose proof (range_yields v (sc_offset h) (sc_size h) Hvb (proj1 (ht_offset _ Ht)) (proj1 (ht_size _ Ht))) as Hr.
      destruct (range v _ _) as [r|e|]; cbn in Hr |- *; [|apply HF|done].
      apply yields_bind, yields_guard; [auto|]. intros _. by apply Hsame.
    - cbn. apply HF. }
  destruct (sc_kind h =? 4); [|apply HF].
  apply yields_bind, yields_guard; [auto|]. intros _. by apply Hsame.
Qed.

Lemma import_sections_yields v names b : view_ok v → header_typed names → within l 0 b →
  yields F (try_fold (import_section host v names) (drop 1 (enumerate hs))
              (mkImport b [] (replicate (Z.to_nat (h_section_count (header v))) None) None))
    (λ im, import_ok im ∧ (length (im_sections im) ≤ length hs - 1)%nat).
Proof.
  intros Hv Hn Hb. pose proof (try_fold_count (import_section host v names) F
    (λ k im, import_ok im ∧ (length (im_sections im) ≤ k)%nat) (drop 1 (enumerate hs))) as Hrun.
  rewrite length_drop, length_enumerate in Hrun. apply Hrun.
  - split; [|done]. split; cbn; [done|done|apply mapping_ok_replicate|done].
  - intros k [i h] im Hi [Him Hle]. rewrite lookup_drop in Hi. apply lookup_enumerate_Some in Hi as [Hi Hh]. cbn [fst snd] in *. subst i.
    eapply yields_mono, import_section_yields; [done| |done..]. intros im' [? ?]. split; [done|lia].
Qed.

(** ** Symbols *)

(** The tables a symbol table section stands for. *)
Definition table_in h count : Prop :=
  header_typed h ∧ sc_offset h + sc_size h ≤ len bs ∧ 0 ≤ count ∧ count * 24 ≤ sc_size h.

Lemma symbol_table_yields index : (∃ h, hs !! index = Some h ∧ sc_kind h = 2) →
  yields F (symbol_table hs index l) (λ r, table_in r.1.1 r.2 ∧ header_typed r.1.2 ∧ 0 < r.2 ≤ max_symbols l).
Proof.
  intros (h & Hh & Hk). destruct (header_at _ _ Hh) as [Ht Hc]. unfold symbol_table. rewrite Hh.
  cbn [expect mbind result_bind]. apply yields_bind, yields_guard; [auto|].
  intros [[_ _]%andb_true_iff Hlk%Z.ltb_lt]%andb_true_iff.
  destruct (get_at_bound hs (sc_link h)) as (s & -> & Hs); [split; [apply Ht|done]|].
  cbn [expect mbind result_bind]. apply yields_bind, yields_guard; [auto|]. intros _.
  apply yields_bind, yields_ok_or; [auto|]. intros count [-> Hcount]%checked_u_Some.
  apply yields_bind, yields_guard; [auto|]. intros [?%negb_true_iff%Z.eqb_neq ?%Z.leb_le]%andb_true_iff.
  apply yields_bind, yields_guard; [auto|]. intros _. cbn [yields fst snd].
  split; [|split; [apply (header_at _ _ Hs)|lia]]. split; [done|]. split; [apply Hc; rewrite Hk; done|].
  split; [lia|]. pose proof (ht_size _ Ht). Z.to_euclidean_division_equations. lia.
Qed.

Definition raw_typed (s : RawSymbol) : Prop := 0 ≤ raw_value s < 2 ^ 64 ∧ 0 ≤ raw_size s < 2 ^ 64.

Lemma read_symbol_yields {p} v symtab strings count b raw used k :
  bytes v = bs → table_in symtab count → header_typed strings → Z.of_nat k < count →
  within l p b → Forall raw_typed raw → length raw = k →
  yields F (read_symbol v symtab strings (b, raw, used) k)
    (λ r, within l p r.1.1 ∧ Forall raw_typed r.1.2 ∧ length r.1.2 = S k).
Proof.
  intros Hv (Ht & Hin & Hc0 & Hc) Hs Hk Hb Hraw Hlr. pose proof (ht_offset _ Ht). pose proof (ht_size _ Ht).
  unfold read_symbol. apply yields_bind. eapply yields_mono, charge_within; [done| |lia|done]. intros b1 Hb1.
  rewrite debug_u_id by lia. cbn [mbind result_bind]. rewrite debug_u_id by lia. cbn [mbind result_bind].
  set (at_ := _ + _). assert (0 ≤ at_ ≤ len bs) as Hat by lia.
  apply yields_bind. eapply yields_mono, read_u_yields; [done| |done|lia|lia]. intros n (_ & Hn & _). cbn in Hn.
  apply yields_bind. eapply yields_mono, name_at_within; [done| |done|done|lia|done]. intros [name b2] Hb2. cbn [snd] in Hb2.
  rewrite debug_u_id by lia. cbn [mbind result_bind].
  apply yields_bind. eapply yields_mono, range_yields; [done| |done|lia|lia]. intros info (_ & _ & Hli).
  destruct info as [|i0 [|i1 [|? ?]]]; try done; cbn [lookup list_lookup expect mbind result_bind].
  all: try by (exfalso; unfold len in Hli; cbn in Hli; lia).
  apply yields_bind. eapply yields_mono, field_yields; [done| |done|lia|lia|lia]. intros section _.
  apply yields_bind. eapply yields_mono, field_yields; [done| |done|lia|lia|lia]. intros value (_ & Hval & _).
  apply yields_bind. eapply yields_mono, field_yields; [done| |done|lia|lia|lia]. intros size (_ & Hsz & _).
  apply yields_bind. apply (yields_mono F F _ (λ _, True)); [done| |].
  - intros _ _. cbn [yields fst snd]. split; [done|]. split.
    + apply Forall_app_2; [done|]. by constructor; [|constructor].
    + rewrite length_app. simpl. lia.
  - case_decide; [|by apply yields_guard; [auto|]].
    apply yields_bind. eapply yields_mono, range_yields; [done| |done|lia|lia]. intros zero _.
    by apply yields_guard; [auto|].
Qed.

Lemma read_symbols_yields {p} v symtab strings count b :
  bytes v = bs → table_in symtab count → header_typed strings → within l p b →
  yields F (try_fold (read_symbol v symtab strings) (seq 0 (Z.to_nat count)) (b, [], ∅))
    (λ r, within l p r.1.1 ∧ Forall raw_typed r.1.2 ∧ len r.1.2 = count).
Proof.
  intros Hv Ht Hs Hb. assert (0 ≤ count) as Hc by apply Ht.
  pose proof (try_fold_count (read_symbol v symtab strings) F
    (λ k r, within l p r.1.1 ∧ Forall raw_typed r.1.2 ∧ length r.1.2 = k) (seq 0 (Z.to_nat count)) (b, [], ∅)) as Hrun.
  rewrite length_seq in Hrun. eapply yields_mono, Hrun; [done| | |].
  - intros r (? & ? & Hr). split; [done|]. split; [done|]. unfold len. lia.
  - by split.
  - intros k x [[b1 raw] used] [-> Hk]%lookup_seq (Hb1 & Hraw & Hl1). cbn [fst snd] in *.
    eapply (read_symbol_yields _ _ _ count); try done. lia.
Qed.

(** The names that a longer candidate can still meet. *)
Definition met (used helpers : gset string) (n : Z) : gset string :=
  filter (λ x, n ≤ name_len x) (used ∪ helpers).

Lemma met_longer used helpers name n : name ∈ used ∪ helpers → name_len name < n →
  (size (met used helpers n) < size (met used helpers (name_len name)))%nat.
Proof using.
  intros Hin Hn. apply subset_size. apply strict_spec_alt. split.
  - intros x [Hx ?]%elem_of_filter. apply elem_of_filter. split; [cbn in *; lia|done].
  - intros Heq. assert (name ∈ met used helpers n) as [Hx _]%elem_of_filter.
    { rewrite Heq. by apply elem_of_filter. } cbn in Hx. lia.
Qed.

Lemma helper_name_yields {p} fuel used helpers name b :
  (size (met used helpers (name_len name)) < fuel)%nat → within l p b →
  yields F (helper_name fuel used helpers name b) (λ r, r.1 ∉ used ∪ helpers ∧ within l p r.2).
Proof.
  clear -HF Hl. revert name b. induction fuel as [|fuel IH]; intros name b Hfuel Hb; [lia|]. cbn [helper_name].
  pose proof (name_len_nonneg name) as Hn.
  destruct (bool_decide _ || bool_decide _) eqn:E.
  - apply yields_bind. eapply yields_mono, charge_within; [done| |lia|done]. intros b1 Hb1. apply IH; [|done].
    assert (name ∈ used ∪ helpers) as Hin.
    { apply orb_true_iff in E. rewrite !bool_decide_eq_true in E. set_solver. }
    pose proof (met_longer used helpers name (name_len (name +:+ "$")) Hin) as Hlt.
    rewrite name_len_app in Hlt |- *. change (name_len "$") with 1 in *. lia.
  - apply orb_false_iff in E. rewrite !bool_decide_eq_false in E. cbn [yields fst snd]. split; [set_solver|done].
Qed.

Record symbols_ok (p : Z) (st : SymbolImport) : Prop := {
  yk_budget : within l p (si_budget st);
  yk_symbols : Forall symbol_typed (si_symbols st);
  yk_mapping : mapping_ok (si_mapping st) (length (si_symbols st));
}.

Lemma import_symbol_yields {p} used mapping st i s : symbols_ok p st → raw_typed s →
  yields F (import_symbol host used mapping st (i, s))
    (λ st', symbols_ok p st' ∧ (length (si_symbols st') ≤ S (length (si_symbols st)))%nat).
Proof.
  clear -HF Hl. intros [Hb Hs Hm] [Hv Hz]. unfold import_symbol.
  apply yields_bind, yields_ok_or; [auto|]. intros binding _.
  apply yields_bind, yields_ok_or; [auto|]. intros visibility _.
  destruct (raw_kind s =? 4).
  { apply yields_bind, yields_guard; [auto|]. intros _. split; [done|lia]. }
  apply yields_bind. apply (yields_mono F F _ (λ r, within l p r.1.2)); [done| |].
  - intros [[[[kind name] section] b1] helpers] Hb1. cbn [yields fst snd] in *. split.
    + split; cbn; [done| |].
      * apply Forall_app_2; [done|]. by constructor; [|constructor].
      * rewrite length_app, Nat.add_1_r. by apply mapping_ok_insert.
    + cbn. rewrite length_app. simpl. lia.
  - destruct (raw_kind s =? 3); unfold section_symbol, ordinary_symbol.
    + apply yields_bind, yields_guard; [auto|]. intros _.
      apply yields_bind, yields_ok_or; [auto|]. intros section _.
      apply yields_bind. eapply yields_mono, helper_name_yields; [done| | |done].
      * intros [name b1] [_ Hb1]. cbn [fst snd] in *.
        apply yields_bind, yields_ok_or; [auto|]. intros d [-> Hd]%checked_u_Some.
        apply yields_bind. eapply yields_mono, charge_strings_within; [done| |lia|done]. done.
      * assert (size (met used (si_helpers st) (name_len ("__whale_elf_section_" +:+ pretty (N.of_nat i))))
                ≤ size (used ∪ si_helpers st))%nat by (apply subseteq_size; intros x [_ ?]%elem_of_filter; done).
        rewrite size_union_alt in *. assert (size (si_helpers st ∖ used) ≤ size (si_helpers st))%nat by (apply subseteq_size; set_solver). lia.
    + apply yields_bind, yields_ok_or; [auto|]. intros kind _.
      apply yields_bind. apply (yields_mono F F _ (λ _, True)); [done| |].
      * intros section _. apply yields_bind. eapply yields_mono, own_within; [done| |done]. by intros [name b1] [_ Hb1].
      * destruct (raw_section s =? 0); [done|]. by apply yields_bind, yields_ok_or; [auto|].
Qed.

Lemma import_symbols_yields {p} used mapping b raw n : within l p b → Forall raw_typed raw →
  yields F (try_fold (import_symbol host used mapping) (drop 1 (enumerate raw))
              (mkSymbolImport b [] (replicate n None) ∅))
    (λ st, symbols_ok p st ∧ (length (si_symbols st) ≤ length raw - 1)%nat).
Proof.
  clear -HF Hl. intros Hb Hraw. pose proof (try_fold_count (import_symbol host used mapping) F
    (λ k st, symbols_ok p st ∧ (length (si_symbols st) ≤ k)%nat) (drop 1 (enumerate raw))) as Hrun.
  rewrite length_drop, length_enumerate in Hrun. apply Hrun.
  - split; [|done]. split; cbn; [done|done|apply mapping_ok_replicate].
  - intros k [i s] st Hi [Hst Hle]. rewrite lookup_drop in Hi. apply lookup_enumerate_Some in Hi as [Hi Hh].
    cbn [fst snd] in *. eapply yields_mono, import_symbol_yields; [done| |done|by eapply (Forall_lookup_1 _ _ _ _ Hraw)].
    intros st' [? ?]. split; [done|lia].
Qed.

(** ** Relocations *)

Lemma import_relocation_yields {p} v symbols mapping index target h count b rs k :
  bytes v = bs → mapping_ok mapping (length symbols) → table_in h count → Z.of_nat k < count →
  within l p b → Forall relocation_typed rs →
  yields F (import_relocation host v symbols mapping index target h (b, rs) k)
    (λ r, within l p r.1 ∧ Forall relocation_typed r.2 ∧ length r.2 = S (length rs)).
Proof.
  intros Hv Hm (Ht & Hin & Hc0 & Hc) Hk Hb Hrs. pose proof (ht_offset _ Ht). pose proof (ht_size _ Ht).
  unfold import_relocation. apply yields_bind. eapply yields_mono, charge_within; [done| |lia|done]. intros b1 Hb1.
  rewrite debug_u_id by lia. cbn [mbind result_bind]. rewrite debug_u_id by lia. cbn [mbind result_bind].
  set (at_ := sc_offset h + Z.of_nat k * 24). assert (0 ≤ at_ ≤ len bs) as Hat by lia.
  apply yields_bind. eapply yields_mono, field_yields; [done| |done|lia|lia|lia]. intros info _.
  rewrite (debug_u_id 64 (at_ + 8)) by lia. cbn [mbind result_bind].
  apply yields_bind, yields_ok_or; [auto|]. intros symbol Hsym.
  apply yields_bind, yields_ok_or; [auto|]. intros kind _.
  apply yields_bind. eapply yields_mono, read_u_yields; [done| |done|lia|lia]. intros place (_ & Hplace & _).
  apply yields_bind, yields_ok_or; [auto|]. intros ? [-> _]%checked_u_Some.
  pose proof (mapping_ok_get _ _ _ _ Hm Hsym) as Hlt. destruct (lookup_lt_is_Some_2 _ _ Hlt) as [referenced ->].
  cbn [expect mbind result_bind].
  apply yields_bind. eapply yields_mono, own_within; [done| |done]. intros [name b2] [_ Hb2]. cbn [fst snd] in *.
  apply yields_bind. apply (yields_mono F F _ (λ a, - 2 ^ 63 ≤ a < 2 ^ 63)); [done| |].
  - intros addend Ha. cbn [yields fst snd]. split; [done|]. split.
    + apply Forall_app_2; [done|]. by constructor; [|constructor].
    + rewrite length_app. simpl. lia.
  - rewrite debug_u_id by lia. cbn [mbind result_bind]. unfold i64.
    pose proof (read_u_yields v 8 (at_ + 16) Hv ltac:(lia) ltac:(lia)) as Hr. unfold u64.
    destruct (read_u v 8 (at_ + 16)) as [x|e|]; cbn in Hr |- *; [|apply HF|done].
    apply (wraps_range 64). lia.
Qed.

(** The relocations so far, counted. *)
Definition relocated (p : Z) (st : Budget * list ObjectRelocation * Z) : Prop :=
  let '(b, rs, n) := st in
  within l p b ∧ Forall relocation_typed rs ∧ n = len rs ∧ n ≤ max_relocations l.

Lemma import_relas_yields {p} v symbols symbol_mapping mapping sym_index st i h :
  bytes v = bs → mapping_ok symbol_mapping (length symbols) → hs !! i = Some h → sc_kind h = 4 → relocated p st →
  yields F (import_relas host v symbols symbol_mapping mapping sym_index st (i, h)) (relocated p).
Proof.
  destruct st as [[b rs] n]. intros Hv Hm Hh Hk (Hb & Hrs & Hn & Hle). destruct (header_at _ _ Hh) as [Ht Hc].
  unfold import_relas. apply yields_bind, yields_guard; [auto|]. intros _.
  apply yields_bind, yields_ok_or; [auto|]. intros target _.
  apply yields_bind, yields_ok_or; [auto|]. intros count [-> Hcount]%checked_u_Some.
  apply yields_bind, yields_ok_or; [auto|]. intros total [-> Htotal]%checked_u_Some.
  apply yields_bind, yields_guard; [auto|]. rewrite (wi_limits _ _ _ Hb). intros Hmax%Z.leb_le.
  apply yields_bind, yields_guard; [auto|]. intros _. apply yields_bind. set (count := sc_size h / 24) in *.
  assert (table_in h count) as Htab.
  { split; [done|]. split; [apply Hc; by rewrite Hk|]. split; [lia|].
    pose proof (ht_size _ Ht). unfold count. Z.to_euclidean_division_equations. lia. }
  pose proof (try_fold_count (import_relocation host v symbols symbol_mapping i target h) F
    (λ k r, within l p r.1 ∧ Forall relocation_typed r.2 ∧ length r.2 = (length rs + k)%nat)
    (seq 0 (Z.to_nat count)) (b, rs)) as Hrun.
  rewrite length_seq in Hrun. eapply yields_mono, Hrun; [done| | |].
  - intros [b1 rs1] (? & ? & Hl1). cbn [yields relocated fst snd] in *. unfold len in *. split; [done|]. split; [done|]. lia.
  - cbn [fst snd]. split; [done|]. split; [done|lia].
  - intros k x [b1 rs1] [-> Hlt]%lookup_seq (Hb1 & Hrs1 & Hl1). cbn [fst snd] in *.
    eapply yields_mono, (import_relocation_yields v symbols symbol_mapping i target h count); try done; [|lia].
    intros r (? & ? & ->). split; [done|]. split; [done|lia].
Qed.

Lemma import_all_relas_yields {p} v symbols symbol_mapping mapping sym_index b :
  bytes v = bs → mapping_ok symbol_mapping (length symbols) → within l p b →
  yields F (try_fold (import_relas host v symbols symbol_mapping mapping sym_index)
              (filter (λ x, sc_kind x.2 = 4) (enumerate hs)) (b, [], 0)) (relocated p).
Proof.
  intros Hv Hm Hb. apply (try_fold_yields _ F (λ _, relocated p)).
  - unfold limits_range in Hl. rewrite !Forall_cons in Hl. split; [done|]. split; [done|]. split; [done|lia].
  - intros pre [i h] post st Heq Hst.
    assert ((i, h) ∈ filter (λ x, sc_kind x.2 = 4) (enumerate hs)) as Hin by (rewrite Heq; set_solver).
    apply list_elem_of_filter in Hin as [Hk Hin%elem_of_enumerate]. by apply import_relas_yields.
Qed.

End sound.

(** ** The reader *)

(** What the reader answers with. *)
Record read_ok (bs : list Z) (l : ObjectReadLimits) (r : ObjectFile * ObjectReadUsage) : Prop := {
  rk_valid : object_ok r.1;
  rk_typed : object_typed r.1;
  rk_target : target r.1 = object_target X86_64WhaleLinux;
  rk_limits : admits l r.2;
  rk_input : us_input_bytes r.2 = len bs;
  rk_sections : len (sections r.1) < us_sections r.2;
  rk_symbols : len (symbols r.1) < us_symbols r.2;
  rk_relocations : len (relocations r.1) = us_relocations r.2;
  rk_payload : sections_payload (sections r.1) = us_payload_bytes r.2;
  rk_nonneg : 0 ≤ us_program_headers r.2 ∧ 0 ≤ us_string_bytes r.2 ∧ 0 ≤ us_work r.2;
}.

Lemma read_elf_yields F host bs l :
  (∀ e, F e) → Forall is_byte bs → len bs < 2 ^ 63 → limits_range l →
  yields F (read_elf_with_usage host bs l) (read_ok bs l).
Proof.
  intros HF Hbytes Hlen Hl. unfold read_elf_with_usage.
  apply yields_bind. eapply yields_mono, (parse_view_yields F HF bs Hbytes Hlen l Hl); [done|].
  intros v [Hv Hin]. apply yields_bind. unfold check_relocatable.
  apply yields_bind, yields_guard; [auto|]. intros _. apply yields_bind, yields_guard; [auto|]. intros _.
  apply yields_guard; [auto|]. intros [Hc0%negb_true_iff%Z.eqb_neq Hs0%negb_true_iff%Z.eqb_neq]%andb_true_iff.
  apply yields_bind, yields_guard; [auto|]. intros _.
  pose proof Hv as (Hvb & Hso & Hsc & Hpc & Hss & Hlt). specialize (Hlt ltac:(lia)).
  apply yields_bind. eapply yields_mono, (read_headers_yields F HF bs Hbytes Hlen l Hl); [done| |done].
  intros [b hs] (Hb & Hlhs & Hhs & Hcov). cbn [fst snd] in *.
  destruct (lookup_lt_is_Some_2 hs (Z.to_nat (h_string_section (header v)))) as [names Hnames]; [lia|].
  rewrite Hnames. cbn [expect mbind result_bind].
  pose proof (Forall_lookup_1 _ _ _ _ Hhs Hnames) as Hnt.
  apply yields_bind. apply (yields_mono F F _ (λ _, True)); [done| |].
  2: { destruct (sc_kind names =? 3); [|done].
       pose proof (range_yields F HF bs Hbytes Hlen v _ _ Hvb (proj1 (ht_offset _ Hnt)) (proj1 (ht_size _ Hnt))) as Hr.
       destruct (range v _ _); cbn in Hr |- *; auto. }
  intros valid _. apply yields_bind, yields_guard; [auto|]. intros _. apply yields_bind, yields_guard; [auto|]. intros _.
  apply yields_bind. eapply yields_mono, (import_sections_yields F HF host bs Hbytes Hlen l Hl hs Hhs Hcov); [done| |done..].
  intros im ([Hib Hisec Him Hist] & Hilen). apply yields_bind, yields_ok_or; [auto|]. intros sym_index Hsym.
  apply yields_bind. eapply yields_mono, (symbol_table_yields F HF bs Hbytes Hlen l Hl hs Hhs Hcov); [done| |by apply Hist].
  intros [[symtab strings] count] (Htab & Hstr & Hcount). cbn [fst snd] in *.
  apply yields_bind, yields_guard; [auto|]. intros _. apply yields_bind, yields_guard; [auto|]. intros _.
  apply yields_bind. eapply yields_mono, (read_symbols_yields F HF bs Hbytes Hlen l Hl hs Hhs Hcov); [done| |done..].
  intros [[b2 raw] used] (Hb2 & Hraw & Hlraw). cbn [fst snd] in *.
  apply yields_bind, yields_guard; [auto|]. intros _.
  apply yields_bind. eapply yields_mono, (import_symbols_yields F HF host l Hl); [done| |done..].
  intros si ([Hsb Hss' Hsm] & Hslen).
  apply yields_bind. eapply yields_mono, (import_all_relas_yields F HF host bs Hbytes Hlen l Hl hs Hhs Hcov); [done| |done..].
  intros [[b3 rs] n] (Hb3 & Hrs & -> & Hn).
  apply yields_bind, yields_case; [apply validate_no_panic|auto|]. intros [] Hok%validate_diagnostic_decides.
  cbn [yields]. split; cbn [fst snd]; try done.
  - destruct Hb3. split; cbn; lia.
  - cbn. unfold len. lia.
  - cbn. unfold len in *. lia.
  - symmetry. apply Hb3.
  - destruct Hb3. cbn. lia.
Qed.

(** C10: The ELF reader is safe on arbitrary bytes: it never panics, overflows or indexes out of
    bounds, its search for a helper name ends, and what it accepts is a valid AMD64 object of
    machine-width values, read at a cost within every limit. *)
Theorem read_elf_sound host bs l :
  Forall is_byte bs → len bs < 2 ^ 63 → limits_range l →
  read_elf_with_usage host bs l ≠ Panic
  ∧ ∀ r, read_elf_with_usage host bs l = Ok r → read_ok bs l r.
Proof.
  intros Hb Hlen Hl. pose proof (read_elf_yields (λ _, True) host bs l (λ _, I) Hb Hlen Hl) as Hy.
  split; [by eapply yields_not_Panic|]. intros r. by eapply yields_Ok.
Qed.

Lemma read_elf_sound_witness :
  read_elf_with_usage all_granted sample_written default_read_limits ≠ Panic
  ∧ ∀ r, read_elf_with_usage all_granted sample_written default_read_limits = Ok r →
      read_ok sample_written default_read_limits r.
Proof.
  apply read_elf_sound.
  - by apply forallb_bytes.
  - vm_compute. reflexivity.
  - repeat constructor; vm_compute; discriminate.
Defined.
