(* ===== verification/ElfRoundTrip.v ===== *)
(** * Writing and reading an ELF object

    Reading back what the writer wrote gives the object in its normal form: alignments of at least
    one, BSS without bytes, local symbols first, the names that relocations use declared, relocations
    grouped by section.  The reader charges what [read_usage] counts, and succeeds if its limits
    admit that. *)
From S2P Require Export ElfImage ElfSound.
Local Open Scope string_scope.
Local Open Scope list_scope.
Local Open Scope Z_scope.

(** ** The normal form *)

Definition normal_section (s : Section_) : Section_ :=
  if decide (sec_kind s = SectionKind.Bss)
  then mkSection (sec_name s) (sec_kind s) [] (extent s) (Z.max (sec_align s) 1)
  else mkSection (sec_name s) (sec_kind s) (sec_data s) 0 (Z.max (sec_align s) 1).

Definition normal_relocations (o : ObjectFile) : list ObjectRelocation :=
  relocated_sections o ≫= relocations_of o.

Definition normal_object (o : ObjectFile) : ObjectFile :=
  mkObject (target o) (normal_section <$> sections o) (ordered_syms o) (normal_relocations o).

(** ** Costs *)

Record Cost := mkCost { c_work : Z; c_strings : Z; c_payload : Z }.
Definition cost_add (a b : Cost) : Cost :=
  mkCost (c_work a + c_work b) (c_strings a + c_strings b) (c_payload a + c_payload b).
Declare Scope cost_scope.
Delimit Scope cost_scope with cost.
Notation "a + b" := (cost_add a b) : cost_scope.
Definition no_cost : Cost := mkCost 0 0 0.
Definition work_cost (n : Z) : Cost := mkCost n 0 0.
Definition total {A} (cost : A → Cost) (l : list A) : Cost :=
  foldr (λ x c, (cost x + c)%cost) no_cost l.

Definition name_cost (s : string) : Cost := mkCost (name_len s + 1) (name_len s) 0.
Definition own_cost (s : string) : Cost := mkCost (name_len s) (name_len s) 0.
Definition payload_cost (s : Section_) : Cost := mkCost (file_size s) 0 (file_size s).
Definition section_cost (s : Section_) : Cost :=
  (name_cost (sec_name s) + (payload_cost s + own_cost (sec_name s)))%cost.
Definition rela_name (o : ObjectFile) (i : nat) : string :=
  ".rela" +:+ default "" (sec_name <$> sections o !! i).
Definition symbol_cost (s : ObjectSymbol) : Cost := (work_cost 1 + name_cost (sym_name s))%cost.
Definition relocation_cost (r : ObjectRelocation) : Cost := (work_cost 1 + own_cost (rel_symbol r))%cost.

Definition section_count (o : ObjectFile) : Z := len (sections o) + len (relocated_sections o) + 4.

(** The headers, the sections, the names of the other sections, the symbols and the relocations. *)
Definition header_cost (o : ObjectFile) : Cost := work_cost (section_count o).
Definition tables_cost (o : ObjectFile) : Cost :=
  (header_cost o + total section_cost (sections o)
   + total (λ i, name_cost (rela_name o i)) (relocated_sections o)
   + total name_cost [".symtab"; ".strtab"; ".shstrtab"])%cost.
Definition symbols_cost (o : ObjectFile) : Cost :=
  (tables_cost o + (work_cost 1 + name_cost "") + total symbol_cost (ordered_syms o))%cost.
Definition import_cost (o : ObjectFile) : Cost :=
  (symbols_cost o + total (λ s, own_cost (sym_name s)) (ordered_syms o))%cost.
Definition read_cost (o : ObjectFile) : Cost :=
  (import_cost o + total relocation_cost (normal_relocations o))%cost.

Definition read_usage (o : ObjectFile) (size : Z) : ObjectReadUsage :=
  mkUsage size (section_count o) 0 (len (ordered_syms o) + 1) (len (normal_relocations o))
    (c_payload (read_cost o)) (c_strings (read_cost o)) (c_work (read_cost o)).

Record limits_typed (l : ObjectReadLimits) : Prop := {
  lt_input : max_input_bytes l < 2 ^ 64;
  lt_relocations : max_relocations l < 2 ^ 64;
  lt_payload : max_payload_bytes l < 2 ^ 64;
  lt_strings : max_string_bytes l < 2 ^ 64;
  lt_work : max_work l < 2 ^ 64;
}.

(** ** Lemmas on costs *)

Definition cost_nonneg (c : Cost) : Prop := 0 ≤ c_work c ∧ 0 ≤ c_strings c ∧ 0 ≤ c_payload c.
Definition cost_le (a b : Cost) : Prop :=
  c_work a ≤ c_work b ∧ c_strings a ≤ c_strings b ∧ c_payload a ≤ c_payload b.

#[export] Instance cost_le_preorder : PreOrder cost_le.
Proof. split; unfold cost_le; [intros a|intros a b c]; lia. Qed.

Lemma cost_eq a b :
  c_work a = c_work b → c_strings a = c_strings b → c_payload a = c_payload b → a = b.
Proof. destruct a, b. cbn. congruence. Qed.
Lemma cost_add_assoc a b c : (a + (b + c) = (a + b) + c)%cost.
Proof. unfold cost_add. cbn. f_equal; lia. Qed.
Lemma cost_add_0_r a : (a + no_cost = a)%cost.
Proof. destruct a. unfold cost_add. cbn. f_equal; lia. Qed.

Lemma cost_add_0_l a : (no_cost + a = a)%cost.
Proof. destruct a. unfold cost_add. cbn. f_equal; lia. Qed.

Lemma total_snoc {A} (cost : A → Cost) l x : total cost (l ++ [x]) = (total cost l + cost x)%cost.
Proof.
  induction l as [|y l IH]; cbn [total foldr app].
  - by rewrite cost_add_0_r, cost_add_0_l.
  - change (foldr _ no_cost (l ++ [x])) with (total cost (l ++ [x])). rewrite IH. apply cost_add_assoc.
Qed.
Lemma total_app {A} (cost : A → Cost) l l' : total cost (l ++ l') = (total cost l + total cost l')%cost.
Proof.
  induction l' as [|x l' IH] using rev_ind; [by rewrite app_nil_r, cost_add_0_r|].
  by rewrite app_assoc, !total_snoc, IH, cost_add_assoc.
Qed.
Lemma total_take_S {A} (cost : A → Cost) l k x :
  l !! k = Some x → total cost (take (S k) l) = (total cost (take k l) + cost x)%cost.
Proof. intros Hx. by rewrite (take_S_r _ _ x), total_snoc. Qed.

Lemma cost_add_nonneg a b : cost_nonneg a → cost_nonneg b → cost_nonneg (a + b)%cost.
Proof. unfold cost_nonneg. cbn. lia. Qed.
Lemma total_nonneg {A} (cost : A → Cost) l : (∀ x, cost_nonneg (cost x)) → cost_nonneg (total cost l).
Proof.
  intros Hc. induction l as [|x l IH]; [unfold cost_nonneg; cbn; lia|]. by apply cost_add_nonneg.
Qed.
Lemma cost_le_add_r a b : cost_nonneg b → cost_le a (a + b)%cost.
Proof. unfold cost_nonneg, cost_le. cbn. lia. Qed.
Lemma cost_le_add_2 a b b' : cost_le b b' → cost_le (a + b)%cost (a + b')%cost.
Proof. unfold cost_le. cbn. lia. Qed.
Lemma total_take_le {A} (cost : A → Cost) l k :
  (∀ x, cost_nonneg (cost x)) → cost_le (total cost (take k l)) (total cost l).
Proof.
  intros Hc. rewrite <- (take_drop k l) at 2. rewrite total_app. apply cost_le_add_r. by apply total_nonneg.
Qed.

Lemma name_cost_nonneg s : cost_nonneg (name_cost s).
Proof. pose proof (name_len_nonneg s). unfold cost_nonneg. cbn. lia. Qed.
Lemma own_cost_nonneg s : cost_nonneg (own_cost s).
Proof. pose proof (name_len_nonneg s). unfold cost_nonneg. cbn. lia. Qed.
Lemma work_cost_nonneg n : 0 ≤ n → cost_nonneg (work_cost n).
Proof. unfold cost_nonneg. cbn. lia. Qed.
Lemma file_size_nonneg s : 0 ≤ file_size s.
Proof. unfold file_size. case_decide; [lia|apply data_len_nonneg]. Qed.
Lemma payload_cost_nonneg s : cost_nonneg (payload_cost s).
Proof. pose proof (file_size_nonneg s). unfold cost_nonneg. cbn. lia. Qed.
Lemma section_cost_nonneg s : cost_nonneg (section_cost s).
Proof. apply cost_add_nonneg, cost_add_nonneg; [apply name_cost_nonneg|apply payload_cost_nonneg|apply own_cost_nonneg]. Qed.
Lemma symbol_cost_nonneg s : cost_nonneg (symbol_cost s).
Proof. apply cost_add_nonneg; [by apply work_cost_nonneg|apply name_cost_nonneg]. Qed.
Lemma relocation_cost_nonneg r : cost_nonneg (relocation_cost r).
Proof. apply cost_add_nonneg; [by apply work_cost_nonneg|apply own_cost_nonneg]. Qed.
#[export] Hint Resolve name_cost_nonneg own_cost_nonneg payload_cost_nonneg section_cost_nonneg
  symbol_cost_nonneg relocation_cost_nonneg cost_add_nonneg total_nonneg : cost.
#[export] Hint Extern 1 (cost_nonneg (work_cost _)) => apply work_cost_nonneg; lia : cost.

(** ** The budget after a cost *)

Section budget.
Context (l : ObjectReadLimits) (Hl : limits_typed l).
#[local] Set Default Proof Using "Type*".

Definition spent (c : Cost) : Budget := mkBudget l (c_work c) (c_strings c) (c_payload c).
Definition fits (c : Cost) : Prop :=
  cost_nonneg c ∧ c_work c ≤ max_work l ∧ c_strings c ≤ max_string_bytes l
  ∧ c_payload c ≤ max_payload_bytes l.

Lemma fits_le c c' : fits c' → cost_nonneg c → cost_le c c' → fits c.
Proof using. unfold fits, cost_nonneg, cost_le. lia. Qed.

Lemma charge_spent c n : 0 ≤ n → fits (c + work_cost n)%cost → cost_nonneg c →
  charge n (spent c) = Ok (spent (c + work_cost n)%cost).
Proof.
  intros Hn (Hc & Hw & _) [H _]. destruct Hl. cbn in *. unfold charge. cbn [bd_work bd_limits spent].
  rewrite checked_u_id by (cbn in *; lia). cbn [ok_or mbind result_bind].
  rewrite (proj2 (Z.leb_le _ _)) by (cbn in *; lia). unfold spent. cbn. repeat f_equal; lia.
Qed.

Lemma charge_strings_spent c n : 0 ≤ n → fits (c + mkCost 0 n 0)%cost → cost_nonneg c →
  charge_strings n (spent c) = Ok (spent (c + mkCost 0 n 0)%cost).
Proof.
  intros Hn (Hc & _ & Hs & _) (_ & H & _). destruct Hl. cbn in *. unfold charge_strings.
  cbn [bd_strings bd_limits spent]. rewrite checked_u_id by (cbn in *; lia). cbn [ok_or mbind result_bind].
  rewrite (proj2 (Z.leb_le _ _)) by (cbn in *; lia). unfold spent. cbn. repeat f_equal; lia.
Qed.

Lemma charge_payload_spent c n : 0 ≤ n → fits (c + mkCost 0 0 n)%cost → cost_nonneg c →
  charge_payload n (spent c) = Ok (spent (c + mkCost 0 0 n)%cost).
Proof.
  intros Hn (Hc & _ & _ & Hp) (_ & _ & H). destruct Hl. cbn in *. unfold charge_payload.
  cbn [bd_payload bd_limits spent]. rewrite checked_u_id by (cbn in *; lia). cbn [ok_or mbind result_bind].
  rewrite (proj2 (Z.leb_le _ _)) by (cbn in *; lia). unfold spent. cbn. repeat f_equal; lia.
Qed.

Lemma own_spent c s : fits (c + own_cost s)%cost → cost_nonneg c →
  own true s (spent c) = Ok (s, spent (c + own_cost s)%cost).
Proof.
  intros Hf Hc. pose proof (name_len_nonneg s). unfold own.
  rewrite charge_strings_spent; [|done| |done].
  2: { eapply fits_le; [exact Hf|..]; unfold cost_nonneg, cost_le in *; cbn in *; lia. }
  cbn [mbind result_bind]. rewrite charge_spent; [|done| |].
  - cbn [mbind result_bind guard_err]. do 3 f_equal. apply cost_eq; cbn; lia.
  - eapply fits_le; [exact Hf|..]; unfold cost_nonneg, cost_le in *; cbn in *; lia.
  - unfold cost_nonneg in *; cbn in *; lia.
Qed.
End budget.

(** ** Reading records back *)

(** The file holds the record at the offset. *)
Definition record_at (bs : list Z) (at_ : Z) (record : list Z) : Prop :=
  0 ≤ at_ ∧ at_ + len record ≤ len bs ∧ slice at_ (length record) bs = record.

Section reads.
Context (v : ElfView) (Hlen : len (bytes v) < 2 ^ 64).
#[local] Set Default Proof Using "Type*".

Lemma range_run off n :
  0 ≤ off → 0 ≤ n → off + n ≤ len (bytes v) → range v off n = Ok (slice off (Z.to_nat n) (bytes v)).
Proof.
  intros Ho Hn Hle. unfold range. rewrite checked_u_id by lia. cbn [ok_or mbind result_bind].
  rewrite checked_u_id by lia. cbn [ok_or mbind result_bind]. rewrite checked_u_id by lia.
  cbn [ok_or mbind result_bind]. rewrite (proj2 (Z.leb_le off (off + n))) by lia.
  rewrite (proj2 (Z.leb_le (off + n) _)) by lia. simpl. do 2 f_equal. lia.
Qed.

Lemma record_range at_ record :
  record_at (bytes v) at_ record → range v at_ (len record) = Ok record.
Proof.
  intros (H0 & Hle & Hs). rewrite range_run by (lia || apply len_nonneg).
  unfold len. by rewrite Nat2Z.id, Hs.
Qed.

Lemma record_slice at_ record k n :
  record_at (bytes v) at_ record → 0 ≤ k → k + Z.of_nat n ≤ len record →
  record_at (bytes v) (at_ + k) (slice k n record).
Proof using.
  intros (H0 & Hle & Hs) Hk Hn. assert (length (slice k n record) = n) as Hl.
  { apply length_slice. unfold len in Hn. lia. }
  split; [lia|]. split; [unfold len at 1; rewrite Hl; lia|]. rewrite Hl.
  pose proof (slice_slice at_ (length record) k n (bytes v)) as Hss. rewrite Hs in Hss.
  rewrite Hss; [done|lia|lia|]. unfold len in Hn. lia.
Qed.

Lemma record_u at_ record k n x :
  record_at (bytes v) at_ record → slice k n record = to_le_bytes n x →
  0 ≤ x < 2 ^ (8 * Z.of_nat n) → 0 ≤ k → k + Z.of_nat n ≤ len record →
  read_u v (Z.of_nat n) (at_ + k) = Ok x.
Proof.
  intros Hr Hs Hx Hk Hn. pose proof (record_slice _ _ k n Hr Hk Hn) as Hrs. rewrite Hs in Hrs.
  apply record_range in Hrs. unfold len in Hrs. rewrite length_to_le_bytes in Hrs.
  unfold read_u. rewrite Hrs. cbn [fmap result_fmap]. by rewrite from_to_le_bytes_id.
Qed.

Lemma record_field at_ record k n m x :
  m = Z.of_nat n → record_at (bytes v) at_ record → slice k n record = to_le_bytes n x →
  0 ≤ x < 2 ^ (8 * Z.of_nat n) → 0 ≤ k → k + Z.of_nat n ≤ len record → 0 < Z.of_nat n →
  field v m at_ k = Ok x.
Proof.
  intros -> Hr Hs Hx Hk Hn Hpos. unfold field. pose proof Hr as (? & ? & _).
  rewrite debug_u_id by lia. cbn [mbind result_bind]. by eapply record_u.
Qed.

Lemma record_first at_ record n m x :
  m = Z.of_nat n → record_at (bytes v) at_ record → slice 0 n record = to_le_bytes n x →
  0 ≤ x < 2 ^ (8 * Z.of_nat n) → Z.of_nat n ≤ len record → read_u v m at_ = Ok x.
Proof. intros ->. intros. rewrite <- (Z.add_0_r at_). eapply record_u; eauto; lia. Qed.
End reads.

(** The header a section header is read as. *)
Definition read_as (h : Elf64Shdr) : ElfSectionHeader :=
  mkSectionHeader (sh_name h) (sh_type h) (sh_flags h) (sh_addr h) (sh_offset h) (sh_size h)
    (sh_link h) (sh_info h) (sh_addralign h) (sh_entsize h).

Record shdr_typed (h : Elf64Shdr) : Prop := {
  sh_name_ty : 0 ≤ sh_name h < 2 ^ 32;
  sh_type_ty : 0 ≤ sh_type h < 2 ^ 32;
  sh_flags_ty : 0 ≤ sh_flags h < 2 ^ 64;
  sh_addr_ty : 0 ≤ sh_addr h < 2 ^ 64;
  sh_offset_ty : 0 ≤ sh_offset h < 2 ^ 64;
  sh_size_ty : 0 ≤ sh_size h < 2 ^ 64;
  sh_link_ty : 0 ≤ sh_link h < 2 ^ 32;
  sh_info_ty : 0 ≤ sh_info h < 2 ^ 32;
  sh_addralign_ty : 0 ≤ sh_addralign h < 2 ^ 64;
  sh_entsize_ty : 0 ≤ sh_entsize h < 2 ^ 64;
}.

Lemma section_header_run v index h :
  len (bytes v) < 2 ^ 64 → shdr_typed h → Z.of_nat index < h_section_count (header v) →
  record_at (bytes v) (h_section_offset (header v) + 64 * Z.of_nat index) (shdr_bytes h) →
  0 ≤ h_section_offset (header v) →
  section_header v index = Ok (read_as h).
Proof.
  intros Hlen [] Hi Hr Ho. unfold section_header, table_entry.
  assert (len (shdr_bytes h) = 64) as Hl by (unfold len; by rewrite length_shdr_bytes).
  pose proof Hr as (_ & Hle & _). rewrite Hl in Hle.
  rewrite (proj2 (Z.ltb_lt _ _) Hi). cbn [guard_err mbind result_bind].
  rewrite checked_u_id by lia. cbn [ok_or mbind result_bind]. rewrite checked_u_id by lia.
  cbn [ok_or mbind result_bind]. rewrite (Z.mul_comm (Z.of_nat index)).
  unfold u32. rewrite (record_first v Hlen _ _ 4 4 _ eq_refl Hr eq_refl) by (done || lia). cbn [mbind result_bind].
  rewrite (record_field v Hlen _ _ 4 4 4 _ eq_refl Hr eq_refl) by (done || lia). cbn [mbind result_bind].
  rewrite (record_field v Hlen _ _ 8 8 8 _ eq_refl Hr eq_refl) by (done || lia). cbn [mbind result_bind].
  rewrite (record_field v Hlen _ _ 16 8 8 _ eq_refl Hr eq_refl) by (done || lia). cbn [mbind result_bind].
  rewrite (record_field v Hlen _ _ 24 8 8 _ eq_refl Hr eq_refl) by (done || lia). cbn [mbind result_bind].
  rewrite (record_field v Hlen _ _ 32 8 8 _ eq_refl Hr eq_refl) by (done || lia). cbn [mbind result_bind].
  rewrite (record_field v Hlen _ _ 40 4 4 _ eq_refl Hr eq_refl) by (done || lia). cbn [mbind result_bind].
  rewrite (record_field v Hlen _ _ 44 4 4 _ eq_refl Hr eq_refl) by (done || lia). cbn [mbind result_bind].
  rewrite (record_field v Hlen _ _ 48 8 8 _ eq_refl Hr eq_refl) by (done || lia). cbn [mbind result_bind].
  rewrite (record_field v Hlen _ _ 56 8 8 _ eq_refl Hr eq_refl) by (done || lia). cbn [mbind result_bind].
  done.
Qed.

(** A name, up to its NUL. *)
Lemma find_nul xs rest k :
  Forall (λ b, b ≠ 0) xs → (length xs < k)%nat →
  list_find (λ byte, byte = 0) (take k (xs ++ 0 :: rest)) = Some (length xs, 0).
Proof.
  intros Hxs Hk. apply list_find_Some. split; [|split; [done|]].
  - rewrite lookup_take_lt, lookup_app_r, Nat.sub_diag by lia. done.
  - intros j y Hy Hj. rewrite lookup_take_lt, lookup_app_l in Hy by lia.
    eapply Forall_lookup_1 in Hxs; [|exact Hy]. done.
Qed.

(** An entry whose payload the file holds. *)
Definition payload_record (bs : list Z) (h : Elf64Shdr) (data : list Z) : Prop :=
  sh_size h = len data ∧ record_at bs (sh_offset h) data.

Lemma payload_in_record bs e data :
  payload_in bs e → in_file e → e.2 = Some data → payload_record bs e.1 data.
Proof.
  intros H Hin Hp. destruct (H Hin) as (data' & Hp' & Hs & Ho & Hle & Hsl).
  rewrite Hp in Hp'. injection Hp' as <-. split; [done|]. split; [lia|done].
Qed.

Section names.
Context (v : ElfView) (Hlen : len (bytes v) < 2 ^ 64).
Context (l : ObjectReadLimits) (Hl : limits_typed l).
#[local] Set Default Proof Using "Type*".

Lemma name_at_run h table name index c :
  sh_type h = SHT_STRTAB → payload_record (bytes v) h table → named table index name →
  contains_nul name = false → from_utf8 (bytes_of_string name) = true →
  fits l (c + name_cost name)%cost → cost_nonneg c →
  name_at v (read_as h) index (spent l c) = Ok (name, spent l (c + name_cost name)%cost).
Proof.
  intros Hty (Hsz & Hrec) (Hi & rest & Hdrop) Hnul Hutf Hf Hc.
  pose proof Hrec as (Ho & Hle & _). pose proof (name_len_nonneg name) as Hn.
  assert (len table = index + name_len name + 1 + len rest) as Htl.
  { apply (f_equal len) in Hdrop. unfold len at 1 in Hdrop. rewrite length_drop in Hdrop.
    rewrite len_app, len_cons, len_bytes_of_string in Hdrop. unfold len in *. lia. }
  pose proof (len_nonneg rest).
  unfold name_at. cbn [read_as sc_kind sc_size sc_offset]. rewrite Hty, Hsz.
  rewrite (proj2 (Z.leb_gt (len table) index)) by lia. cbn [SHT_STRTAB Z.eqb Pos.eqb negb orb guard_err mbind result_bind].
  rewrite checked_u_id by lia. cbn [ok_or mbind result_bind].
  rewrite debug_u_id by lia. cbn [mbind result_bind].
  assert (range v (sh_offset h + index) (len table - index) = Ok (bytes_of_string name ++ 0 :: rest)) as ->.
  { pose proof (record_slice v _ _ index (Z.to_nat (len table - index)) Hrec) as Hr.
    specialize (Hr ltac:(lia) ltac:(lia)). apply (record_range v Hlen) in Hr.
    unfold slice in Hr. rewrite Hdrop, take_ge in Hr.
    - unfold len at 1 in Hr. rewrite length_app, length_bytes_of_string, length_cons in Hr.
      rewrite <- Hr. f_equal. unfold len, name_len in *. lia.
    - rewrite length_app, length_bytes_of_string, length_cons. unfold len, name_len in *. lia. }
  cbn [mbind result_bind spent bd_limits bd_work].
  pose proof Hf as (_ & Hw & _). destruct Hl as [_ _ _ _ Hlw]. destruct Hc as (Hc1 & Hc2 & Hc3). cbn in Hw.
  rewrite find_nul.
  - rewrite length_bytes_of_string. fold (name_len name).
    rewrite charge_spent; [|done|lia| |unfold cost_nonneg; lia].
    2: { eapply fits_le; [exact Hf|..]; unfold cost_nonneg, cost_le; cbn; lia. }
    cbn [mbind result_bind]. rewrite charge_strings_spent; [|done|lia| |unfold cost_nonneg; cbn; lia].
    2: { eapply fits_le; [exact Hf|..]; unfold cost_nonneg, cost_le; cbn; lia. }
    cbn [mbind result_bind]. rewrite take_app_length' by by rewrite length_bytes_of_string.
    rewrite Hutf, string_of_bytes_of_string. cbn [guard_err mbind result_bind].
    do 3 f_equal. apply cost_eq; cbn; lia.
  - apply contains_nul_bytes. done.
  - rewrite length_bytes_of_string. rewrite len_app, len_cons, len_bytes_of_string.
    unfold umax, name_len in *. lia.
Qed.
End names.

(** ** The run of the reader over a written file *)

(** Every name an object uses is text. *)
Record names_utf8 (o : ObjectFile) : Prop := {
  nu_sections : Forall (λ s, from_utf8 (bytes_of_string (sec_name s)) = true) (sections o);
  nu_symbols : Forall (λ s, from_utf8 (bytes_of_string (sym_name s)) = true) (symbols o);
  nu_relocations : Forall (λ r, from_utf8 (bytes_of_string (rel_symbol r)) = true) (relocations o);
}.

Section file.
Context (o : ObjectFile) (limit : Z) (bs : list Z) (shoff : Z) (secs relas : list Entry).
Context (symtab strtab shstrtab : Entry) (names strings : list Z) (recs : list Elf64Sym).
Context (H : elf_file o limit 62 bs shoff secs relas symtab strtab shstrtab names strings recs).
Context (Hok : object_ok o) (Htyped : object_typed o) (Hutf : names_utf8 o).
Context (Htarget : target o = object_target X86_64WhaleLinux) (Hlimit : limit < 2 ^ 64).
Context (l : ObjectReadLimits) (Hl : limits_typed l) (Had : admits l (read_usage o (len bs))).
#[local] Set Default Proof Using "Type*".

Definition file_entries : list Entry := secs ++ relas ++ [symtab; strtab; shstrtab].
Definition file_header : ElfHeader :=
  mkElfHeader 1 0 0 shoff 0 0 64 (section_count o) (section_count o - 1).
Definition file_view : ElfView := mkView bs file_header.

Lemma file_length : len bs < 2 ^ 64.
Proof. pose proof (ef_limit H). lia. Qed.

Lemma file_section_count : symtab_index secs relas + 3 = section_count o.
Proof.
  unfold symtab_index, section_count, len.
  rewrite <- (Forall2_length _ _ _ (ef_secs H)).
  rewrite <- (Forall2_length _ _ _ (ef_relas H)). lia.
Qed.

Lemma file_count_bounds : 4 ≤ section_count o < 0xff00.
Proof.
  pose proof (ef_count H) as Hc. rewrite file_section_count in Hc.
  unfold section_count in *. pose proof (len_nonneg (sections o)). pose proof (len_nonneg (relocated_sections o)). lia.
Qed.

Lemma file_size_eq : len bs = shoff + 64 * section_count o.
Proof. pose proof (ef_length H) as Hc. by rewrite file_section_count in Hc. Qed.

Lemma length_file_entries : len (null_entry :: file_entries) = section_count o.
Proof.
  rewrite <- file_section_count. unfold file_entries, symtab_index. rewrite len_cons, !len_app.
  unfold len at 3. simpl. lia.
Qed.

Lemma file_record i e :
  (null_entry :: file_entries) !! i = Some e → record_at bs (shoff + 64 * Z.of_nat i) (shdr_bytes e.1).
Proof.
  intros Hi. pose proof (ef_table H i e Hi) as Ht.
  pose proof (ef_shoff H). apply lookup_lt_Some in Hi.
  pose proof length_file_entries as Hlf. unfold len in Hlf.
  split; [lia|]. split.
  - unfold len at 1. rewrite length_shdr_bytes, file_size_eq. lia.
  - by rewrite length_shdr_bytes.
Qed.

Lemma file_header_record :
  record_at bs 0 (header_bytes (mkElf64Header ELF_IDENT 1 62 1 0 0 shoff 0 64 0 0 64
                                  (section_count o) (section_count o - 1))).
Proof.
  pose proof (ef_header H) as Hh. rewrite Htarget in Hh.
  replace (symtab_index secs relas + 2) with (symtab_index secs relas + 3 - 1) in Hh by lia.
  rewrite file_section_count in Hh. pose proof (ef_shoff H).
  pose proof file_size_eq. pose proof file_count_bounds.
  split; [lia|]. split; [unfold len at 1; rewrite length_header_bytes; simpl; lia|].
  by rewrite length_header_bytes.
Qed.

Lemma parse_run : parse_view bs l = Ok file_view.
Proof.
  pose proof file_header_record as Hr. pose proof file_length as Hlen.
  pose proof (ef_shoff H) as Hsh. pose proof file_size_eq as Hsize.
  pose proof file_count_bounds as Hcount. destruct Had as [Hin Hsec Hph _ _ _ _ _]. cbn in Hin, Hsec, Hph.
  pose proof Hr as (_ & _ & Hs). rewrite length_header_bytes in Hs. cbn [eh_ident ELF_IDENT length Nat.add] in Hs.
  set (hdr := header_bytes _) in *.
  assert (∀ k b, (k < 64)%nat → hdr !! k = Some b → bs !! k = Some b) as Hbyte.
  { intros k b Hk Hb. rewrite <- Hs, lookup_slice in Hb by done. exact Hb. }
  unfold parse_view. rewrite (proj2 (Z.leb_le _ _) Hin). cbn [guard_err mbind result_bind].
  rewrite (proj2 (Z.leb_le 64 (len bs))) by lia. cbn [guard_err mbind result_bind].
  unfold check_ident.
  assert (slice 0 4 bs = [0x7f; 69; 76; 70]) as ->.
  { transitivity (slice 0 4 hdr); [|done]. rewrite <- Hs. symmetry. apply (slice_slice 0 64 0 4); lia. }
  rewrite (Hbyte 4%nat 2), (Hbyte 5%nat 1), (Hbyte 6%nat 1), (Hbyte 7%nat 0), (Hbyte 8%nat 0) by (done || lia).
  assert (slice 9 7 bs = [0; 0; 0; 0; 0; 0; 0]) as ->.
  { transitivity (slice 9 7 hdr); [|done]. rewrite <- Hs. symmetry. apply (slice_slice 0 64 9 7); lia. }
  cbn -[u16 u32 u64 slice Z.of_nat read_header check_tables].
  set (view := mkView bs empty_header).
  assert (∀ at_ k n m x, at_ = k → m = Z.of_nat n → slice k n hdr = to_le_bytes n x →
    0 ≤ x < 2 ^ (8 * Z.of_nat n) → 0 ≤ k → k + Z.of_nat n ≤ 64 → read_u view m at_ = Ok x) as Hu.
  { intros at_ k n m x -> -> Hx Hb Hk Hkn. rewrite <- (Z.add_0_l k).
    apply (record_u view Hlen 0 hdr); try done. }
  unfold u16, u32.
  rewrite (Hu 18 18 2%nat 2 62) by (done || lia). cbn [mbind result_bind Z.eqb Pos.eqb guard_err].
  rewrite (Hu 20 20 4%nat 4 1) by (done || lia). cbn [mbind result_bind].
  rewrite (Hu 48 48 4%nat 4 0) by (done || lia). cbn [mbind result_bind].
  rewrite (Hu 52 52 2%nat 2 64) by (done || lia). cbn [mbind result_bind Z.eqb Pos.eqb andb guard_err].
  unfold read_header, u16, u64.
  rewrite (Hu 16 16 2%nat 2 1) by (done || lia). cbn [mbind result_bind].
  rewrite (Hu 24 24 8%nat 8 0) by (done || lia). cbn [mbind result_bind].
  rewrite (Hu 32 32 8%nat 8 0) by (done || lia). cbn [mbind result_bind].
  rewrite (Hu 40 40 8%nat 8 shoff) by (done || lia). cbn [mbind result_bind].
  rewrite (Hu 54 54 2%nat 2 0) by (done || lia). cbn [mbind result_bind].
  rewrite (Hu 56 56 2%nat 2 0) by (done || lia). cbn [mbind result_bind].
  rewrite (Hu 58 58 2%nat 2 64) by (done || lia). cbn [mbind result_bind].
  rewrite (Hu 60 60 2%nat 2 (section_count o)) by (done || lia). cbn [mbind result_bind].
  rewrite (Hu 62 62 2%nat 2 (section_count o - 1)) by (done || lia). cbn [mbind result_bind].
  change (mkElfHeader 1 0 0 shoff 0 0 64 (section_count o) (section_count o - 1)) with file_header.
  change (mkView bs file_header) with file_view.
  assert (check_tables file_view l = Ok tt) as ->; [|done].
  unfold check_tables. cbn [file_view header file_header h_section_count h_program_count
    h_string_section h_section_offset h_section_entry_size h_program_offset].
  rewrite (proj2 (Z.leb_gt 0xff00 _)) by lia. rewrite (proj2 (Z.eqb_neq (section_count o - 1) 0xffff)) by lia.
  rewrite (proj2 (Z.eqb_neq (section_count o) 0)) by lia. cbn [orb andb negb Z.eqb guard_err mbind result_bind].
  rewrite (proj2 (Z.leb_le _ _) Hsec). cbn [guard_err mbind result_bind].
  rewrite (proj2 (Z.leb_le _ _) Hph). cbn [guard_err mbind result_bind].
  rewrite (proj2 (Z.ltb_lt 0 (section_count o))) by lia.
  rewrite (proj2 (Z.ltb_lt (section_count o - 1) (section_count o))) by lia.
  cbn [Z.eqb Pos.eqb andb guard_err mbind result_bind]. unfold table.
  rewrite (checked_u_id 64 (section_count o * 64)) by lia. cbn [ok_or mbind result_bind].
  rewrite range_run by (cbn; lia). cbn -[slice]. done.
Qed.
(** What the reader checks of every header but the null one. *)
Record readable (e : Entry) : Prop := {
  rd_typed : shdr_typed e.1;
  rd_address : sh_addr e.1 = 0;
  rd_align : is_power_of_two (sh_addralign e.1) = true;
  rd_kind : sh_type e.1 ≠ 0;
  rd_payload : payload_in bs e;
}.

Lemma payload_size e : payload_in bs e → in_file e → 0 ≤ sh_size e.1 < 2 ^ 64.
Proof.
  intros Hp Hin. destruct (Hp Hin) as (data & _ & Hs & ? & Hle & _). pose proof file_length.
  pose proof (len_nonneg data). lia.
Qed.

Lemma section_readable s e :
  s ∈ sections o → section_entry names s e → payload_in bs e → 0 ≤ sh_offset e.1 < 2 ^ 64 → readable e.
Proof.
  intros Hs ((Hn & _) & (Hty & Hfl & Had0 & Hsz & Hlk & Hinf & Hal & Hes) & _) Hp Hoff.
  pose proof (proj1 (Forall_forall _ _) (oo_sections _ Hok) s Hs) as Hsok.
  pose proof (proj1 (Forall_forall _ _) (ot_sections _ Htyped) s Hs) as Hst.
  split; try done.
  - split; rewrite ?Hty, ?Hfl, ?Had0, ?Hsz, ?Hlk, ?Hinf, ?Hal, ?Hes; try done || lia.
    + by destruct (sec_kind s).
    + by destruct (sec_kind s).
    + apply (so_extent _ Hsok).
    + pose proof (st_align _ Hst). lia.
  - rewrite Hal. destruct (so_align _ Hsok) as [->|Ha]; [done|]. by apply is_power_of_two_max.
  - rewrite Hty. by destruct (sec_kind s).
Qed.

Lemma rela_readable i e :
  rela_entry o names (symtab_index secs relas) i e → (i < length (sections o))%nat →
  payload_in bs e → 0 ≤ sh_offset e.1 < 2 ^ 64 → readable e.
Proof.
  intros ((s & _ & Hn & _) & Hty & Hfl & Had0 & Hsz & Hlk & Hinf & Hal & Hes & _) Hi Hp Hoff.
  pose proof file_count_bounds as Hc. pose proof file_section_count.
  unfold section_count, len in Hc.
  assert (0 ≤ sh_size e.1 < 2 ^ 64) as Hsize by (apply payload_size; [done|unfold in_file; by rewrite Hty]).
  split; rewrite ?Hty, ?Had0, ?Hal; try done.
  split; rewrite ?Hty, ?Hfl, ?Had0, ?Hlk, ?Hinf, ?Hal, ?Hes; try done || lia.
  unfold symtab_index, section_count in *. pose proof (len_nonneg secs). pose proof (len_nonneg relas). unfold len in *. lia.
Qed.

Lemma table_readable name ty size link info align entsize payload e :
  table_entry_ok names name ty size link info align entsize payload e →
  ty = SHT_SYMTAB ∨ ty = SHT_STRTAB → 0 ≤ link < 2 ^ 32 → 0 ≤ info < 2 ^ 32 →
  align = 1 ∨ align = 8 → 0 ≤ entsize < 2 ^ 64 →
  payload_in bs e → 0 ≤ sh_offset e.1 < 2 ^ 64 → readable e.
Proof.
  intros ((Hn & _) & Hty & Hfl & Had0 & Hsz & Hlk & Hinf & Hal & Hes & _) Ht Hl1 Hi1 Ha He1 Hp Hoff.
  assert (0 ≤ sh_size e.1 < 2 ^ 64) as Hsize.
  { apply payload_size; [done|]. unfold in_file. rewrite Hty. by destruct Ht as [->| ->]. }
  assert (0 ≤ ty < 2 ^ 32 ∧ ty ≠ 0) as [? ?] by (destruct Ht as [->| ->]; by vm_compute).
  split; rewrite ?Hty, ?Had0, ?Hal; try done.
  - split; rewrite ?Hty, ?Hfl, ?Had0, ?Hlk, ?Hinf, ?Hal, ?Hes; try done || lia.
  - by destruct Ha as [->| ->].
Qed.

Lemma entries_readable : Forall readable file_entries.
Proof.
  pose proof (ef_payloads H) as Hpay.
  pose proof (ef_offsets H) as Hoff.
  unfold file_entries. rewrite !Forall_app, !Forall_cons in Hpay, Hoff |- *.
  destruct Hpay as (Hp1 & Hp2 & Hp3 & Hp4 & Hp5 & _), Hoff as (Ho1 & Ho2 & Ho3 & Ho4 & Ho5 & _).
  pose proof file_count_bounds as Hc. pose proof file_section_count as Hsc.
  assert (0 ≤ symtab_index secs relas + 1 < 2 ^ 32) as Hsi.
  { unfold symtab_index in *. pose proof (len_nonneg secs). pose proof (len_nonneg relas). lia. }
  assert (0 ≤ 1 + Z.of_nat (local_prefix (ordered_syms o)) < 2 ^ 32) as Hfirst.
  { pose proof (ef_records H) as Hr.
    pose proof (ef_recs H) as Hf. apply Forall2_length in Hf.
    pose proof (local_prefix_le (ordered_syms o)). unfold len in Hr. lia. }
  split; [|split; [|split; [|split; [|split; [|constructor]]]]].
  - pose proof (ef_secs H) as Hf. apply Forall_forall. intros e He.
    apply list_elem_of_lookup in He as [i Hi]. destruct (Forall2_lookup_r _ _ _ _ _ Hf Hi) as (s & Hs & Hse).
    eapply section_readable; [by eapply list_elem_of_lookup_2|done| |].
    + eapply Forall_lookup_1 in Hp1; [exact Hp1|done].
    + eapply (Forall_lookup_1 _ _ _ _ Ho1 Hi).
  - pose proof (ef_relas H) as Hf. apply Forall_forall. intros e He.
    apply list_elem_of_lookup in He as [i Hi]. destruct (Forall2_lookup_r _ _ _ _ _ Hf Hi) as (j & Hj & Hse).
    eapply rela_readable; [done| | |].
    + apply list_elem_of_lookup_2, list_elem_of_filter in Hj as [_ Hj%elem_of_seq]. lia.
    + eapply Forall_lookup_1 in Hp2; [exact Hp2|done].
    + eapply (Forall_lookup_1 _ _ _ _ Ho2 Hi).
  - eapply table_readable; [apply (ef_symtab H)|by left|lia|lia|by right|lia|done|done].
  - eapply table_readable; [apply (ef_strtab H)|by right|lia|lia|by left|lia|done|done].
  - eapply table_readable; [apply (ef_shstrtab H)|by right|lia|lia|by left|lia|done|done].
Qed.

(** Every stage of the read costs no more than the whole. *)
Lemma read_fits : fits l (read_cost o).
Proof.
  destruct Had as [_ _ _ _ _ Hp Hs Hw]. cbn [read_usage us_payload_bytes us_string_bytes us_work] in *.
  split; [|done]. unfold read_cost, import_cost, symbols_cost, tables_cost, header_cost.
  pose proof file_count_bounds. auto 20 with cost.
Qed.

Lemma header_cost_nonneg : cost_nonneg (header_cost o).
Proof. pose proof file_count_bounds. apply work_cost_nonneg. lia. Qed.
Lemma tables_cost_nonneg : cost_nonneg (tables_cost o).
Proof. pose proof header_cost_nonneg. unfold tables_cost. auto 20 with cost. Qed.
Lemma symbols_cost_nonneg : cost_nonneg (symbols_cost o).
Proof. pose proof tables_cost_nonneg. unfold symbols_cost. auto 20 with cost. Qed.
Lemma import_cost_nonneg : cost_nonneg (import_cost o).
Proof. pose proof symbols_cost_nonneg. unfold import_cost. auto 20 with cost. Qed.
#[local] Hint Resolve header_cost_nonneg tables_cost_nonneg symbols_cost_nonneg import_cost_nonneg : cost.

Lemma import_fits : fits l (import_cost o).
Proof. eapply fits_le; [apply read_fits|auto with cost|]. apply cost_le_add_r. auto with cost. Qed.
Lemma symbols_fits : fits l (symbols_cost o).
Proof. eapply fits_le; [apply import_fits|auto with cost|]. apply cost_le_add_r. auto with cost. Qed.
Lemma tables_fits : fits l (tables_cost o).
Proof.
  eapply fits_le; [apply symbols_fits|auto with cost|]. unfold symbols_cost.
  etransitivity; apply cost_le_add_r; auto with cost.
Qed.
Lemma header_fits : fits l (header_cost o).
Proof.
  eapply fits_le; [apply tables_fits|auto with cost|]. unfold tables_cost.
  do 2 (etransitivity; [|apply cost_le_add_r; auto with cost]). apply cost_le_add_r. auto with cost.
Qed.

Definition file_headers : list ElfSectionHeader := (λ e : Entry, read_as e.1) <$> (null_entry :: file_entries).

Lemma read_section_header_run k e :
  (null_entry :: file_entries) !! k = Some e →
  read_section_header file_view (spent l (work_cost (Z.of_nat k)), take k file_headers) k =
    Ok (spent l (work_cost (Z.of_nat (S k))), take (S k) file_headers).
Proof.
  intros He. pose proof (file_record k e He) as Hrec. pose proof file_length as Hlen.
  pose proof (lookup_lt_Some _ _ _ He) as Hk. pose proof length_file_entries as Hlf. unfold len in Hlf.
  pose proof (ef_shoff H) as Hsh. unfold read_section_header.
  assert (work_cost (Z.of_nat k) + work_cost 1 = work_cost (Z.of_nat (S k)))%cost as Hcost by (apply cost_eq; cbn; lia).
  rewrite charge_spent; [|done|lia| |auto with cost].
  2: { rewrite Hcost. eapply fits_le; [apply header_fits|auto with cost|]. unfold cost_le. cbn. lia. }
  rewrite Hcost. cbn [mbind result_bind].
  assert (file_headers !! k = Some (read_as e.1)) as Hhk by (unfold file_headers; by rewrite list_lookup_fmap, He).
  rewrite (take_S_r _ _ _ Hhk). destruct k as [|k].
  - injection He as <-.
    rewrite (section_header_run file_view 0 null_shdr); [|done| | |exact Hrec|cbn; lia].
    + cbn [mbind result_bind]. rewrite decide_True by done.
      apply (record_range file_view Hlen) in Hrec. cbn [fst] in Hrec. rewrite Z.add_0_r in Hrec.
      change (len (shdr_bytes null_entry.1)) with 64 in Hrec. cbn [file_view header file_header h_section_offset].
      rewrite Hrec. done.
    + by split; cbn.
    + cbn. pose proof file_count_bounds. lia.
  - cbn [lookup list_lookup] in He. pose proof (Forall_lookup_1 _ _ _ _ entries_readable He) as [Hty Ha Hal Hkd Hp].
    rewrite (section_header_run file_view (S k) e.1); [|done|done| |exact Hrec|cbn; lia].
    + cbn [mbind result_bind read_as sc_kind sc_align sc_address sc_offset sc_size]. rewrite decide_False by done.
      rewrite (proj2 (Z.eqb_neq _ _) Hkd), Ha, Hal, orb_true_r. cbn [negb guard_err mbind result_bind Z.eqb].
      destruct (Z.eqb_spec (sh_type e.1) 8) as [H8|H8]; cbn [negb mbind result_bind]; [done|].
      destruct (Hp H8) as (data & _ & Hsz & Ho & Hle & _). rewrite range_run; [done|done|lia| |cbn; lia].
      rewrite Hsz. apply len_nonneg.
    + cbn [file_view header file_header h_section_count]. cbn [length] in *. lia.
Qed.

Lemma headers_run :
  try_fold (read_section_header file_view) (seq 0 (Z.to_nat (section_count o))) (mkBudget l 0 0 0, []) =
    Ok (spent l (header_cost o), file_headers).
Proof.
  pose proof length_file_entries as Hlf. unfold len in Hlf.
  rewrite <- Hlf, Nat2Z.id.
  pose proof (try_fold_run (read_section_header file_view)
    (λ k, (spent l (work_cost (Z.of_nat k)), take k file_headers)) (seq 0 (length (null_entry :: file_entries)))) as Hrun.
  rewrite length_seq in Hrun. cbn beta in Hrun. rewrite Hlf in Hrun.
  rewrite (take_ge file_headers (length (null_entry :: file_entries))) in Hrun
    by (unfold file_headers; by rewrite length_fmap).
  apply Hrun. intros k i Hi. apply lookup_seq in Hi as [-> Hi].
  destruct (lookup_lt_is_Some_2 _ _ Hi) as [e He]. by eapply read_section_header_run.
Qed.

(** *** Sections *)

#[local] Ltac fits_from Hf :=
  eapply fits_le; [exact Hf|..]; unfold cost_nonneg, cost_le in *; cbn in *; lia.

Lemma names_payload : payload_record bs shstrtab.1 names ∧ sh_type shstrtab.1 = SHT_STRTAB.
Proof.
  destruct (ef_shstrtab H) as (_ & Hty & _ & _ & _ & _ & _ & _ & _ & Hp). split; [|done].
  apply payload_in_record; [|unfold in_file; by rewrite Hty|done].
  pose proof (ef_payloads H) as Hpay. rewrite !Forall_app, !Forall_cons in Hpay. tauto.
Qed.

Lemma section_name_run name index c :
  named names index name → contains_nul name = false → from_utf8 (bytes_of_string name) = true →
  fits l (c + name_cost name)%cost → cost_nonneg c →
  name_at file_view (read_as shstrtab.1) index (spent l c) = Ok (name, spent l (c + name_cost name)%cost).
Proof.
  intros. destruct names_payload. apply (name_at_run file_view file_length l Hl _ names); done.
Qed.

Lemma import_payload_run s e index c im :
  section_ok s → section_entry names s e → payload_in bs e →
  cost_nonneg c → fits l (c + (payload_cost s + own_cost (sec_name s)))%cost →
  import_payload all_granted file_view index (read_as e.1) (sec_name s) (spent l c) im =
    Ok (mkImport (spent l (c + (payload_cost s + own_cost (sec_name s)))%cost)
          (im_sections im ++ [normal_section s])
          (<[index := Some (length (im_sections im))]> (im_mapping im)) (im_symbol_table im)).
Proof.
  intros Hs (_ & (Hty & Hfl & _ & Hsz & Hlk & Hinf & Hal & Hes) & Hp) Hpay Hc Hf.
  pose proof (name_len_nonneg (sec_name s)) as Hn. pose proof (file_size_nonneg s) as Hfs.
  unfold import_payload, reserve, all_granted.
  cbn [read_as sc_kind sc_flags sc_link sc_info sc_entry_size sc_size sc_offset sc_align].
  assert (payload_kind (sh_type e.1) (sh_flags e.1) = Some (sec_kind s)) as ->.
  { rewrite Hty, Hfl. by destruct (sec_kind s). }
  rewrite Hlk, Hinf, Hes, Hal, Hty. cbn [ok_or Z.eqb andb guard_err mbind result_bind].
  pose proof (section_type_nobits s) as Hnb. unfold SHT_NOBITS in Hnb. rewrite Hnb.
  unfold normal_section. case_bool_decide as Hk.
  - cbn [mbind result_bind]. assert (file_size s = 0) as Hf0 by (unfold file_size; by rewrite decide_True).
    assert (payload_cost s + own_cost (sec_name s) = own_cost (sec_name s))%cost as Hpc.
    { apply cost_eq; cbn; lia. }
    rewrite Hpc in *. rewrite own_spent by done. cbn [mbind result_bind].
    rewrite decide_True by done. rewrite Hsz. done.
  - destruct (Hpay ltac:(unfold in_file; rewrite Hty; by destruct (sec_kind s))) as (data & Hd & Hlen & Ho & Hle & Hsl).
    pose proof file_length. pose proof (len_nonneg data).
    assert (file_size s = sh_size e.1) as Hfse by (by rewrite file_size_extent, Hsz).
    unfold section_payload in Hp. rewrite decide_False in Hp by done. rewrite Hd in Hp. injection Hp as ->.
    rewrite checked_u_id by lia. cbn [ok_or mbind result_bind]. rewrite <- Hfse.
    rewrite charge_payload_spent; [|done|lia|fits_from Hf|done]. cbn [mbind result_bind].
    rewrite charge_spent; [|done|lia|fits_from Hf|unfold cost_nonneg in *; cbn; lia].
    cbn [mbind result_bind guard_err]. rewrite Hfse.
    rewrite (range_run file_view file_length) by (cbn; lia). cbn [mbind result_bind].
    replace (Z.to_nat (sh_size e.1)) with (length (sec_data s)) by (rewrite Hlen; unfold len; lia).
    cbn [file_view bytes]. rewrite Hsl.
    rewrite own_spent; [|done|fits_from Hf|unfold cost_nonneg in *; cbn; lia]. cbn [mbind result_bind].
    rewrite decide_False by done. do 2 f_equal. apply f_equal, cost_eq; cbn; lia.
Qed.

(** The mapping after [k] of the indices [1 ..] got the numbers [0 ..]. *)
Definition mapping_upto (n k : nat) : list (option nat) :=
  None :: (Some <$> seq 0 k) ++ replicate (n - 1 - k) None.

Lemma mapping_0 n : (0 < n)%nat → replicate n None = mapping_upto n 0.
Proof using. intros. destruct n; [lia|]. unfold mapping_upto. simpl. do 2 f_equal. lia. Qed.

Lemma mapping_S n k : (S k < n)%nat → <[S k := Some k]> (mapping_upto n k) = mapping_upto n (S k).
Proof using.
  intros Hk. unfold mapping_upto. match goal with |- <[_ := _]> (_ :: ?l) = _ => change (None :: <[k := Some k]> l = mapping_upto n (S k)) end.
  unfold mapping_upto. f_equal.
  rewrite insert_app_r_alt by (rewrite length_fmap, length_seq; lia).
  rewrite length_fmap, length_seq, Nat.sub_diag.
  replace (n - 1 - k)%nat with (S (n - 1 - S k)) by lia. cbn [replicate insert list_insert].
  rewrite seq_S, fmap_app, <- app_assoc. done.
Qed.

Lemma mapping_lookup n k i : (i < k)%nat → mjoin (get_at (mapping_upto n k) (Z.of_nat (S i))) = Some i.
Proof using.
  intros Hi. unfold get_at.
  assert (S i < length (mapping_upto n k))%nat as Hlt.
  { unfold mapping_upto. cbn [length]. rewrite length_app, length_fmap, length_seq. lia. }
  rewrite (proj2 (Z.ltb_lt _ _)) by (unfold len; lia). rewrite Nat2Z.id. unfold mapping_upto.
  match goal with |- mjoin ((_ :: ?m) !! S i) = _ => change (mjoin (m !! i) = Some i) end.
  rewrite lookup_app_l by (rewrite length_fmap, length_seq; lia).
  by rewrite list_lookup_fmap, lookup_seq_lt.
Qed.

Definition import_state (c : Cost) (k : nat) (symtab : option nat) : Import :=
  mkImport (spent l c) (normal_section <$> take k (sections o))
    (mapping_upto (Z.to_nat (section_count o)) k) symtab.

Lemma import_section_run c k s e :
  sections o !! k = Some s → secs !! k = Some e →
  cost_nonneg c → fits l (c + section_cost s)%cost →
  import_section all_granted file_view (read_as shstrtab.1) (import_state c k None) (S k, read_as e.1) =
    Ok (import_state (c + section_cost s)%cost (S k) None).
Proof.
  intros Hs He Hc Hf. pose proof (name_len_nonneg (sec_name s)). pose proof (file_size_nonneg s).
  pose proof (Forall2_lookup_lr _ _ _ _ _ _ (ef_secs H) Hs He) as Hse.
  pose proof (Forall_lookup_1 _ _ _ _ (oo_sections _ Hok) Hs) as Hsok.
  pose proof (Forall_lookup_1 _ _ _ _ (nu_sections _ Hutf) Hs) as Hsu.
  pose proof (ef_payloads H) as Hpay. apply Forall_app in Hpay as [Hpay _].
  pose proof (Forall_lookup_1 _ _ _ _ Hpay He) as Hpe.
  pose proof (lookup_lt_Some _ _ _ Hs) as Hk. pose proof file_count_bounds. pose proof Hse as (Hn & (Hty & _) & _).
  unfold import_section. cbn [read_as sc_kind sc_name import_state im_budget im_sections im_mapping im_symbol_table].
  rewrite (proj2 (Z.eqb_neq (sh_type e.1) 0)) by (rewrite Hty; by destruct (sec_kind s)).
  rewrite (section_name_run (sec_name s)); [|done|apply Hsok|done|fits_from Hf|done]. cbn [map_err mbind result_bind].
  assert ((sh_type e.1 =? 1) || (sh_type e.1 =? 8) = true) as -> by (rewrite Hty; by destruct (sec_kind s)).
  rewrite (import_payload_run s); [|done|done|done|unfold cost_nonneg in *; cbn; lia|].
  2: { by rewrite <- cost_add_assoc. }
  cbn [import_state im_sections im_mapping im_symbol_table]. unfold import_state, section_cost.
  rewrite <- cost_add_assoc, (take_S_r _ _ s), fmap_app by done.
  rewrite length_fmap, length_take, Nat.min_l by lia.
  rewrite mapping_S; [done|]. unfold section_count, len in *. lia.
Qed.

Lemma import_rela_run c i index e :
  rela_entry o names (symtab_index secs relas) i e → i ∈ relocated_sections o →
  cost_nonneg c → fits l (c + name_cost (rela_name o i))%cost →
  import_section all_granted file_view (read_as shstrtab.1)
      (import_state c (length (sections o)) None) (index, read_as e.1) =
    Ok (import_state (c + name_cost (rela_name o i))%cost (length (sections o)) None).
Proof.
  intros ((s & Hs & Hn) & Hty & Hfl & _) _ Hc Hf.
  assert (rela_name o i = ".rela" +:+ sec_name s) as Hname by (unfold rela_name; by rewrite Hs).
  pose proof (Forall_lookup_1 _ _ _ _ (oo_sections _ Hok) Hs) as Hsok.
  pose proof (Forall_lookup_1 _ _ _ _ (nu_sections _ Hutf) Hs) as Hsu. cbn beta in Hsu.
  unfold import_section. cbn [read_as sc_kind sc_name sc_flags import_state im_budget im_sections im_mapping im_symbol_table].
  rewrite Hty, Hfl, Hname in *. cbn [SHT_RELA Z.eqb Pos.eqb orb].
  rewrite (section_name_run (".rela" +:+ sec_name s)); [|done| | |done|done].
  - done.
  - pose proof (so_name _ Hsok) as Hnul. unfold contains_nul in *. rewrite bytes_of_string_app, existsb_app, Hnul. done.
  - rewrite bytes_of_string_app. exact Hsu.
Qed.

Lemma import_table_run c name index e ty size link info align entsize payload st :
  table_entry_ok names name ty size link info align entsize payload e →
  contains_nul name = false → from_utf8 (bytes_of_string name) = true →
  ty = SHT_SYMTAB ∧ st = None ∨ ty = SHT_STRTAB ∧ payload_record bs e.1 payload ∧ string_table payload →
  cost_nonneg c → fits l (c + name_cost name)%cost →
  import_section all_granted file_view (read_as shstrtab.1)
      (import_state c (length (sections o)) st) (index, read_as e.1) =
    Ok (import_state (c + name_cost name)%cost (length (sections o))
          (if decide (ty = SHT_SYMTAB) then Some index else st)).
Proof.
  intros (Hn & Hty & Hfl & _) Hnul Hu Hcase Hc Hf.
  unfold import_section. cbn [read_as sc_kind sc_name sc_flags sc_offset sc_size import_state im_budget im_sections im_mapping im_symbol_table].
  rewrite Hty, Hfl. destruct Hcase as [[-> ->]|(-> & [Hsz Hrec] & Ht)].
  - cbn [SHT_SYMTAB Z.eqb Pos.eqb orb]. by rewrite (section_name_run name).
  - cbn [SHT_STRTAB Z.eqb Pos.eqb orb]. rewrite (section_name_run name) by done. cbn [map_err mbind result_bind].
    rewrite Hsz. rewrite (record_range file_view file_length _ _ Hrec).
    cbn [fmap result_fmap mbind result_bind]. unfold is_string_table.
    by rewrite (tb_head _ Ht), (tb_last _ Ht).
Qed.

Definition symtab_at : nat := S (length secs + length relas).

Lemma import_sections_run :
  try_fold (import_section all_granted file_view (read_as shstrtab.1))
      (index_from 1 ((λ e : Entry, read_as e.1) <$> secs)) (import_state (header_cost o) 0 None) =
    Ok (import_state (header_cost o + total section_cost (sections o))%cost (length (sections o)) None).
Proof.
  pose proof (Forall2_length _ _ _ (ef_secs H)) as Hlen.
  set (st k := import_state (header_cost o + total section_cost (take k (sections o)))%cost k None).
  pose proof (try_fold_run_from (import_section all_granted file_view (read_as shstrtab.1)) st 1
    ((λ e : Entry, read_as e.1) <$> secs)) as Hrun.
  unfold st in Hrun. rewrite length_fmap, <- Hlen, firstn_all, take_0 in Hrun. cbn [total foldr] in Hrun.
  rewrite cost_add_0_r in Hrun. apply Hrun. intros k h Hk.
  rewrite list_lookup_fmap in Hk. apply fmap_Some in Hk as (e & He & ->).
  destruct (Forall2_lookup_r _ _ _ _ _ (ef_secs H) He) as (s & Hs & _).
  rewrite (total_take_S _ _ _ _ Hs), cost_add_assoc. apply import_section_run; [done|done|auto with cost|].
  rewrite <- cost_add_assoc, <- (total_take_S _ _ _ _ Hs).
  eapply fits_le; [apply tables_fits|auto with cost|]. unfold tables_cost.
  do 2 (etransitivity; [|apply cost_le_add_r; auto with cost]).
  apply cost_le_add_2, total_take_le. auto with cost.
Qed.

Lemma import_relas_run :
  try_fold (import_section all_granted file_view (read_as shstrtab.1))
      (index_from (1 + length secs) ((λ e : Entry, read_as e.1) <$> relas))
      (import_state (header_cost o + total section_cost (sections o))%cost (length (sections o)) None) =
    Ok (import_state (header_cost o + total section_cost (sections o)
          + total (λ i, name_cost (rela_name o i)) (relocated_sections o))%cost (length (sections o)) None).
Proof.
  pose proof (Forall2_length _ _ _ (ef_relas H)) as Hlen.
  set (cost := λ i, name_cost (rela_name o i)).
  set (st k := import_state (header_cost o + total section_cost (sections o)
    + total cost (take k (relocated_sections o)))%cost (length (sections o)) None).
  pose proof (try_fold_run_from (import_section all_granted file_view (read_as shstrtab.1)) st
    (1 + length secs) ((λ e : Entry, read_as e.1) <$> relas)) as Hrun.
  unfold st in Hrun. rewrite length_fmap, <- Hlen, firstn_all, take_0 in Hrun. cbn [total foldr] in Hrun.
  rewrite cost_add_0_r in Hrun. apply Hrun. intros k h Hk.
  rewrite list_lookup_fmap in Hk. apply fmap_Some in Hk as (e & He & ->).
  destruct (Forall2_lookup_r _ _ _ _ _ (ef_relas H) He) as (i & Hi & Hie).
  rewrite (total_take_S _ _ _ _ Hi), cost_add_assoc.
  apply import_rela_run; [done|by eapply list_elem_of_lookup_2|unfold cost; auto 10 with cost|].
  change (name_cost (rela_name o i)) with (cost i). rewrite <- cost_add_assoc, <- (total_take_S cost _ _ _ Hi).
  eapply fits_le; [apply tables_fits|unfold cost; auto 10 with cost|]. unfold tables_cost.
  etransitivity; [|apply cost_le_add_r; auto with cost]. apply cost_le_add_2, total_take_le. unfold cost. auto with cost.
Qed.

Lemma import_run :
  try_fold (import_section all_granted file_view (read_as shstrtab.1)) (drop 1 (enumerate file_headers))
      (mkImport (spent l (header_cost o)) [] (replicate (Z.to_nat (section_count o)) None) None) =
    Ok (import_state (tables_cost o) (length (sections o)) (Some symtab_at)).
Proof.
  pose proof file_count_bounds as Hcount. unfold file_headers, file_entries. rewrite fmap_cons, drop_enumerate, mapping_0 by lia.
  rewrite !fmap_app, !index_from_app, !try_fold_app.
  change (mkImport _ _ _ _) with (import_state (header_cost o) 0 None).
  rewrite import_sections_run. cbn [mbind result_bind]. rewrite !length_fmap, try_fold_app, import_relas_run.
  cbn [mbind result_bind]. set (c := (_ + _ + _)%cost).
  assert (cost_nonneg c) as Hc by (unfold c; auto 10 with cost).
  pose proof tables_fits as Hf. unfold tables_cost in Hf |- *. fold c in Hf |- *. cbn [total foldr] in Hf |- *.
  pose proof (name_cost_nonneg ".symtab") as Hn1. pose proof (name_cost_nonneg ".strtab") as Hn2.
  pose proof (name_cost_nonneg ".shstrtab") as Hn3.
  pose proof (ef_payloads H) as Hpay. rewrite !Forall_app, !Forall_cons in Hpay.
  destruct Hpay as (_ & _ & _ & Hp2 & _).
  unfold index_from. cbn [fmap list_fmap imap try_fold compose].
  rewrite (import_table_run c ".symtab" _ symtab _ _ _ _ _ _ _ _ (ef_symtab H));
    [|done|done|by left|done|fits_from Hf]. cbn [mbind result_bind]. rewrite decide_True by done.
  rewrite (import_table_run _ ".strtab" _ strtab _ _ _ _ _ _ _ _ (ef_strtab H)); [|done|done| |auto with cost|fits_from Hf].
  2: { right. split; [done|]. split; [|apply (ef_strings H)]. destruct (ef_strtab H) as (_ & Hty & _ & _ & _ & _ & _ & _ & _ & Hp).
       apply payload_in_record; [done|unfold in_file; by rewrite Hty|done]. }
  cbn [mbind result_bind]. rewrite decide_False by done.
  rewrite (import_table_run _ ".shstrtab" _ shstrtab _ _ _ _ _ _ _ _ (ef_shstrtab H)); [|done|done| |auto with cost|fits_from Hf].
  2: { right. split; [done|]. split; [apply names_payload|apply (ef_names H)]. }
  cbn [mbind result_bind]. rewrite decide_False by done.
  do 2 f_equal; [apply cost_eq; cbn; lia|]. f_equal. unfold symtab_at. lia.
Qed.

(** *** Symbols *)

Definition null_symbol : ObjectSymbol :=
  mkSymbol SymbolKind.NoType "" None 0 0 Binding.Local_ Visibility.Default_.
Notation file_symbols := (null_symbol :: ordered_syms o).
Notation file_records := (null_sym :: recs).

(** What a symbol is read as. *)
Definition raw_of (s : ObjectSymbol) : RawSymbol :=
  mkRaw (sym_name s) (kind_to_stt (sym_kind s)) (binding_to_stb (sym_binding s))
    (visibility_to_stv (sym_visibility s))
    (match sym_section s with Some i => Z.of_nat (S i) | None => 0 end) (sym_value s) (sym_size s).
Definition names_used (ss : list ObjectSymbol) : gset string :=
  foldl (λ u s, {[sym_name s]} ∪ u) ∅ ss.

Lemma file_symbol_records : Forall2 (symbol_record strings) file_symbols file_records.
Proof.
  constructor; [|apply (ef_recs H)]. split; [apply named_empty, (ef_strings H)|].
  repeat (split; [done|]). done.
Qed.

Lemma file_symbol_facts s : s ∈ file_symbols →
  contains_nul (sym_name s) = false ∧ from_utf8 (bytes_of_string (sym_name s)) = true
  ∧ 0 ≤ sym_value s < 2 ^ 64 ∧ 0 ≤ sym_size s < 2 ^ 64.
Proof.
  intros [->|Hs]%elem_of_cons; [done|].
  split; [by eapply ordered_name|]. destruct (elem_of_ordered _ Hok s Hs) as [Hin|(r & Hr & ->)].
  - split; [apply (proj1 (Forall_forall _ _) (nu_symbols _ Hutf) s Hin)|].
    apply (proj1 (Forall_forall _ _) (ot_symbols _ Htyped) s Hin).
  - split; [apply (proj1 (Forall_forall _ _) (nu_relocations _ Hutf) r Hr)|]. by cbn.
Qed.

Lemma strings_payload : payload_record bs strtab.1 strings ∧ sh_type strtab.1 = SHT_STRTAB.
Proof.
  destruct (ef_strtab H) as (_ & Hty & _ & _ & _ & _ & _ & _ & _ & Hp). split; [|done].
  apply payload_in_record; [|unfold in_file; by rewrite Hty|done].
  pose proof (ef_payloads H) as Hpay. rewrite !Forall_app, !Forall_cons in Hpay. tauto.
Qed.

Lemma symbols_payload : payload_record bs symtab.1 (file_records ≫= sym_bytes) ∧ sh_type symtab.1 = SHT_SYMTAB.
Proof.
  destruct (ef_symtab H) as (_ & Hty & _ & _ & _ & _ & _ & _ & _ & Hp). split; [|done].
  apply payload_in_record; [|unfold in_file; by rewrite Hty|done].
  pose proof (ef_payloads H) as Hpay. rewrite !Forall_app, !Forall_cons in Hpay. tauto.
Qed.

Lemma symbol_at k e :
  file_records !! k = Some e → record_at bs (sh_offset symtab.1 + Z.of_nat k * 24) (sym_bytes e).
Proof.
  intros He. destruct symbols_payload as [[_ Hrec] _].
  rewrite <- (slice_records sym_bytes 24 file_records k e) by (done || apply length_sym_bytes).
  replace (Z.of_nat k * 24) with (Z.of_nat (k * 24)) by lia.
  apply (record_slice file_view); [done|lia|].
  rewrite (len_records _ 24) by apply length_sym_bytes. apply lookup_lt_Some in He. unfold len. lia.
Qed.

Lemma file_records_length : len file_records = len (ordered_syms o) + 1.
Proof. rewrite len_cons. unfold len. rewrite (Forall2_length _ _ _ (ef_recs H)). lia. Qed.

Lemma symbol_table_run :
  symbol_table file_headers symtab_at l = Ok (read_as symtab.1, read_as strtab.1, len (ordered_syms o) + 1).
Proof.
  pose proof file_records_length as Hrl. rewrite len_cons in Hrl.
  destruct (ef_symtab H) as (_ & Hty & Hfl & _ & Hsz & Hlk & Hinf & _ & Hes & _).
  destruct strings_payload as [_ Hsty]. pose proof file_count_bounds. pose proof file_section_count as Hsc.
  pose proof length_file_entries as Hle. pose proof (am_symbols _ _ Had) as Hms. cbn in Hms.
  assert (len file_headers = section_count o) as Hlh.
  { rewrite <- Hle. unfold file_headers, len. by rewrite length_fmap. }
  assert (∀ i e, (null_entry :: file_entries) !! i = Some e → file_headers !! i = Some (read_as e.1)) as Hh.
  { intros i e He. unfold file_headers. by rewrite list_lookup_fmap, He. }
  assert (0 ≤ symtab_index secs relas) by (unfold symtab_index; pose proof (len_nonneg secs); pose proof (len_nonneg relas); lia).
  assert (Z.to_nat (symtab_index secs relas) = symtab_at) as Hat by (unfold symtab_index, symtab_at, len; lia).
  unfold symbol_table. rewrite (Hh _ symtab).
  2: { change (file_entries !! (length secs + length relas)%nat = Some symtab). unfold file_entries.
       rewrite app_assoc, lookup_app_r by (rewrite length_app; lia). by rewrite length_app, Nat.sub_diag. }
  cbn [expect mbind result_bind read_as sc_flags sc_entry_size sc_size sc_link sc_info].
  rewrite Hfl, Hes, Hsz, Hlk, Hlh, Hinf. rewrite (Z.mul_comm 24), Z.mod_mul, Z.div_mul by done.
  rewrite (proj2 (Z.ltb_lt _ (section_count o))) by lia. cbn [Z.eqb Pos.eqb andb guard_err mbind result_bind].
  unfold get_at. rewrite Hlh, (proj2 (Z.ltb_lt _ (section_count o))) by lia.
  rewrite (Hh _ strtab).
  2: { replace (Z.to_nat (symtab_index secs relas + 1)) with (S symtab_at) by lia.
       change (file_entries !! S (length secs + length relas) = Some strtab). unfold file_entries.
       rewrite app_assoc, lookup_app_r by (rewrite length_app; lia).
       replace (S (length secs + length relas) - length (secs ++ relas))%nat with 1%nat by (rewrite length_app; lia).
       done. }
  cbn [expect mbind result_bind read_as sc_kind]. rewrite Hsty. cbn [SHT_STRTAB Z.eqb Pos.eqb guard_err mbind result_bind].
  pose proof (ef_records H). pose proof (len_nonneg recs). pose proof (local_prefix_le (ordered_syms o)).
  rewrite checked_u_id by lia. cbn [ok_or mbind result_bind].
  rewrite (proj2 (Z.eqb_neq (len recs + 1) 0)) by lia. rewrite (proj2 (Z.leb_le (len recs + 1) _)) by lia.
  cbn [negb andb guard_err mbind result_bind].
  rewrite (proj2 (Z.eqb_neq (1 + _) 0)) by lia. rewrite (proj2 (Z.leb_le (1 + _) _)) by (unfold len in *; lia).
  cbn [negb andb guard_err mbind result_bind]. do 2 f_equal. lia.
Qed.

Lemma read_symbol_run k c raws used s e :
  file_symbols !! k = Some s → file_records !! k = Some e →
  cost_nonneg c → fits l (c + symbol_cost s)%cost →
  read_symbol file_view (read_as symtab.1) (read_as strtab.1) (spent l c, raws, used) k =
    Ok (spent l (c + symbol_cost s)%cost, raws ++ [raw_of s], {[sym_name s]} ∪ used).
Proof.
  intros Hs He Hc Hf. pose proof (symbol_at k e He) as Hr. pose proof file_length as Hlen.
  destruct (Forall2_lookup_lr _ _ _ _ _ _ file_symbol_records Hs He) as (Hn & Hin & Hot & Hsh & Hshb & Hv & Hsz).
  destruct (file_symbol_facts s) as (Hnul & Hu & Hvb & Hszb); [by eapply list_elem_of_lookup_2|].
  pose proof (name_len_nonneg (sym_name s)) as Hnn.
  pose proof Hr as (Hat0 & Hle & _). assert (len (sym_bytes e) = 24) as Hl24 by (unfold len; by rewrite length_sym_bytes).
  rewrite Hl24 in Hle. destruct (ef_symtab H) as (_ & _ & _ & _ & _ & _ & Hinf & _).
  assert (0 ≤ sh_offset symtab.1) as Hoff by apply symbols_payload.
  unfold read_symbol. rewrite charge_spent; [|done|lia| |done].
  2: { eapply fits_le; [exact Hf|auto with cost|]. unfold symbol_cost. rewrite cost_add_assoc.
       apply cost_le_add_r. auto with cost. }
  cbn [mbind result_bind]. rewrite debug_u_id by lia. cbn [mbind result_bind read_as sc_offset].
  rewrite debug_u_id by lia. cbn [mbind result_bind]. set (at_ := sh_offset symtab.1 + Z.of_nat k * 24) in *.
  unfold u32. rewrite (record_first file_view Hlen _ _ 4 4 (st_name e) eq_refl Hr eq_refl) by (apply Hn || lia).
  cbn [mbind result_bind].
  destruct strings_payload. rewrite (name_at_run file_view Hlen l Hl _ strings (sym_name s)); try done.
  2: { by rewrite <- cost_add_assoc. }
  2: { auto with cost. }
  cbn [mbind result_bind]. rewrite debug_u_id by lia. cbn [mbind result_bind].
  pose proof (record_slice file_view _ _ 4 2 Hr ltac:(lia) ltac:(lia)) as Hr2.
  change (slice 4 2 (sym_bytes e)) with [st_info e; st_other e] in Hr2. apply (record_range file_view Hlen) in Hr2.
  change (len [st_info e; st_other e]) with 2 in Hr2. rewrite Hr2.
  cbn [mbind result_bind lookup list_lookup expect].
  rewrite (record_field file_view Hlen _ _ 6 2 2 (st_shndx e) eq_refl Hr eq_refl) by (done || lia). cbn [mbind result_bind].
  rewrite (record_field file_view Hlen _ _ 8 8 8 (st_value e) eq_refl Hr eq_refl) by (lia || by rewrite Hv).
  cbn [mbind result_bind].
  rewrite (record_field file_view Hlen _ _ 16 8 8 (st_size e) eq_refl Hr eq_refl) by (lia || by rewrite Hsz).
  cbn [mbind result_bind]. rewrite Hv, Hsz, Hot, Hsh.
  assert (Z.land (st_info e) 15 = kind_to_stt (sym_kind s)
          ∧ Z.shiftr (st_info e) 4 = binding_to_stb (sym_binding s)) as [-> ->].
  { rewrite Hin. by destruct (sym_kind s), (sym_binding s). }
  cbn [read_as sc_info raw_kind raw_binding]. unfold raw_of, symbol_cost. rewrite cost_add_assoc.
  assert ((kind_to_stt (sym_kind s) =? 3) || (kind_to_stt (sym_kind s) =? 4) = false) as -> by by destruct (sym_kind s).
  case_decide as Hk.
  - subst k. injection Hs as <-. injection He as <-. apply (record_range file_view Hlen) in Hr. rewrite Hl24 in Hr.
    by rewrite Hr.
  - destruct k as [|k]; [done|]. change (ordered_syms o !! k = Some s) in Hs.
    pose proof (ordered_local o k s Hs) as Hloc. rewrite Hinf.
    assert (Z.of_nat (S k) <? 1 + Z.of_nat (local_prefix (ordered_syms o)) = (binding_to_stb (sym_binding s) =? 0)) as ->.
    { apply eq_bool_prop_intro. rewrite !Is_true_true, Z.ltb_lt, Z.eqb_eq. destruct (sym_binding s) eqn:Eb; cbn; split; intros; try lia; try done.
      - pose proof (proj2 Hloc eq_refl). lia.
      - assert (k < local_prefix (ordered_syms o))%nat as Hp by lia. by apply Hloc in Hp.
      - assert (k < local_prefix (ordered_syms o))%nat as Hp by lia. by apply Hloc in Hp. }
    by rewrite eqb_reflx.
Qed.

Lemma names_used_snoc ss s : names_used (ss ++ [s]) = {[sym_name s]} ∪ names_used ss.
Proof using. unfold names_used. by rewrite foldl_app. Qed.

Lemma read_symbols_run :
  try_fold (read_symbol file_view (read_as symtab.1) (read_as strtab.1))
      (seq 0 (Z.to_nat (len (ordered_syms o) + 1))) (spent l (tables_cost o), [], ∅) =
    Ok (spent l (symbols_cost o), raw_of <$> file_symbols, names_used file_symbols).
Proof.
  set (st k := (spent l (tables_cost o + total symbol_cost (take k file_symbols))%cost,
                raw_of <$> take k file_symbols, names_used (take k file_symbols))).
  assert (Z.to_nat (len (ordered_syms o) + 1) = length file_symbols) as ->.
  { rewrite length_cons. unfold len. lia. }
  pose proof (try_fold_run (read_symbol file_view (read_as symtab.1) (read_as strtab.1)) st
    (seq 0 (length file_symbols))) as Hrun.
  rewrite length_seq in Hrun. unfold st in Hrun. rewrite firstn_all, take_0 in Hrun.
  assert (tables_cost o + total symbol_cost file_symbols = symbols_cost o)%cost as Hcost.
  { unfold symbols_cost. by rewrite <- cost_add_assoc. }
  rewrite Hcost in Hrun. cbn [total foldr fmap list_fmap names_used foldl] in Hrun.
  rewrite cost_add_0_r in Hrun. apply Hrun. intros k i Hi. apply lookup_seq in Hi as [-> Hk].
  destruct (lookup_lt_is_Some_2 _ _ Hk) as [s Hs].
  destruct (Forall2_lookup_l _ _ _ _ _ file_symbol_records Hs) as (e & He & _).
  rewrite (take_S_r _ _ s Hs), fmap_app, names_used_snoc, total_snoc, cost_add_assoc.
  apply (read_symbol_run _ _ _ _ s e Hs He); [auto 10 with cost|].
  rewrite <- cost_add_assoc, <- total_snoc, <- (take_S_r _ _ s Hs).
  eapply fits_le; [apply symbols_fits|auto 10 with cost|]. rewrite <- Hcost.
  apply cost_le_add_2, total_take_le. auto with cost.
Qed.

(** *** The symbols of the object *)

Definition symbol_state (k : nat) : SymbolImport :=
  mkSymbolImport (spent l (symbols_cost o + total (λ s, own_cost (sym_name s)) (take k (ordered_syms o)))%cost)
    (take k (ordered_syms o)) (mapping_upto (Z.to_nat (len (ordered_syms o) + 1)) k) ∅.

Lemma import_symbol_run k s :
  ordered_syms o !! k = Some s →
  import_symbol all_granted (names_used file_symbols)
      (mapping_upto (Z.to_nat (section_count o)) (length (sections o))) (symbol_state k) (S k, raw_of s) =
    Ok (symbol_state (S k)).
Proof.
  intros Hs. pose proof (lookup_lt_Some _ _ _ Hs) as Hk. pose proof file_count_bounds as Hsc.
  unfold import_symbol, symbol_state. cbn [raw_of raw_binding raw_visibility raw_kind raw_name].
  assert (symbol_binding (binding_to_stb (sym_binding s)) = Some (sym_binding s)) as -> by by destruct (sym_binding s).
  assert (symbol_visibility (visibility_to_stv (sym_visibility s)) = Some (sym_visibility s)) as ->
    by by destruct (sym_visibility s).
  assert (kind_to_stt (sym_kind s) =? 4 = false) as -> by by destruct (sym_kind s).
  assert (kind_to_stt (sym_kind s) =? 3 = false) as -> by by destruct (sym_kind s).
  cbn [ok_or mbind result_bind]. unfold ordinary_symbol. cbn [raw_of raw_section raw_name raw_kind si_budget si_helpers].
  assert (symbol_kind (kind_to_stt (sym_kind s)) = Some (sym_kind s)) as -> by by destruct (sym_kind s).
  cbn [ok_or mbind result_bind].
  assert (match sym_section s with Some i => Z.of_nat (S i) | None => 0 end =? 0 = bool_decide (sym_section s = None)) as Hz.
  { destruct (sym_section s); [apply Z.eqb_neq; lia|done]. }
  rewrite Hz. set (section := if bool_decide _ then _ else _).
  assert (section = Ok (sym_section s)) as ->.
  { unfold section. destruct (sym_section s) as [i|] eqn:Ei; [|done]. cbn [bool_decide decide decide_rel].
    rewrite bool_decide_eq_false_2 by done. rewrite mapping_lookup; [done|].
    eapply ordered_section; [done|by eapply list_elem_of_lookup_2|done]. }
  cbn [mbind result_bind]. rewrite (take_S_r _ _ s Hs), total_snoc.
  rewrite own_spent; [|done| |auto 10 with cost].
  2: { rewrite <- cost_add_assoc. change (own_cost (sym_name s)) with ((λ s, own_cost (sym_name s)) s).
       rewrite <- total_snoc, <- (take_S_r _ _ s Hs). eapply fits_le; [apply import_fits|auto 10 with cost|].
       apply cost_le_add_2, total_take_le. auto with cost. }
  cbn [mbind result_bind raw_of raw_value raw_size si_symbols si_mapping].
  rewrite cost_add_assoc, length_take, Nat.min_l by lia. rewrite mapping_S by (unfold len; lia).
  do 2 f_equal. by destruct s.
Qed.

Lemma import_symbols_run :
  try_fold (import_symbol all_granted (names_used file_symbols)
      (mapping_upto (Z.to_nat (section_count o)) (length (sections o))))
      (drop 1 (enumerate (raw_of <$> file_symbols)))
      (mkSymbolImport (spent l (symbols_cost o)) []
         (replicate (Z.to_nat (len (ordered_syms o) + 1)) None) ∅) =
    Ok (symbol_state (length (ordered_syms o))).
Proof.
  rewrite fmap_cons, drop_enumerate.
  rewrite (mapping_0 (Z.to_nat (len (ordered_syms o) + 1))) by (unfold len; lia).
  assert (symbols_cost o = symbols_cost o
    + total (λ s, own_cost (sym_name s)) (take 0 (ordered_syms o)))%cost as Hc
    by by rewrite take_0, cost_add_0_r.
  rewrite Hc at 1. change [] with (take 0 (ordered_syms o)). fold (symbol_state 0).
  rewrite <- (length_fmap raw_of (ordered_syms o)).
  apply try_fold_run_from. intros k raw Hk. rewrite list_lookup_fmap in Hk.
  apply fmap_Some in Hk as (s & Hs & ->). by apply import_symbol_run.
Qed.

Lemma symbol_state_end :
  symbol_state (length (ordered_syms o)) =
    mkSymbolImport (spent l (import_cost o)) (ordered_syms o)
      (mapping_upto (Z.to_nat (len (ordered_syms o) + 1)) (length (ordered_syms o))) ∅.
Proof. unfold symbol_state. by rewrite firstn_all. Qed.

(** *** Relocations *)

Lemma reloc_kind_encoding k c w : elf_encoding k X86_64 = Ok (c, w) → reloc_kind c = Some k ∧ 0 ≤ c < 2 ^ 32.
Proof using. destruct k; try done; by intros [= <- <-]. Qed.

Lemma rela_info (i c : Z) : 0 ≤ i < 2 ^ 32 → 0 ≤ c < 2 ^ 32 →
  let info := Z.lor (Z.shiftl i 32) c in
  0 ≤ info < 2 ^ 64 ∧ Z.shiftr info 32 = i ∧ wrapu 32 info = c.
Proof using.
  intros Hi Hc info. assert (info = i * 2 ^ 32 + c) as ->.
  { unfold info. rewrite <- Z.shiftl_mul_pow2 by lia. symmetry. apply Z.add_nocarry_lor.
    apply Z.bits_inj'. intros n Hn. rewrite Z.land_spec, Z.bits_0.
    destruct (decide (n < 32)); [by rewrite Z.shiftl_spec_low by lia|].
    assert (c = 0 ∨ 0 < c) as [->|Hpos] by lia; [by rewrite Z.bits_0, andb_false_r|].
    assert (Z.log2 c < 32) by (apply Z.log2_lt_pow2; lia).
    by rewrite (Z.bits_above_log2 c), andb_false_r by lia. }
  split; [nia|]. rewrite Z.shiftr_div_pow2 by lia. unfold wrapu. split.
  - rewrite Z.add_comm, Z.div_add, Z.div_small; lia.
  - rewrite Z.add_comm, Z.mod_add, Z.mod_small; lia.
Qed.

Lemma import_relocation_run index i (e : Entry) (as_ : list Elf64Rela) k r a c rs :
  (∀ k a, as_ !! k = Some a → record_at bs (sh_offset e.1 + Z.of_nat k * 24) (rela_bytes a)) →
  as_ !! k = Some a → rela_ok o r a → r ∈ relocations o → rel_section r = i →
  cost_nonneg c → fits l (c + relocation_cost r)%cost → 0 ≤ sh_offset e.1 →
  import_relocation all_granted file_view (ordered_syms o)
      (mapping_upto (Z.to_nat (len (ordered_syms o) + 1)) (length (ordered_syms o))) index i (read_as e.1)
      (spent l c, rs) k =
    Ok (spent l (c + relocation_cost r)%cost, rs ++ [r]).
Proof.
  intros Hrecs Ha (Hoff & Hadd & j & s & code & w & Hs & Hname & Henc & Hj & Hinfo) Hr Hi Hc Hf Ho.
  pose proof (Hrecs k a Ha) as Hrec. pose proof file_length as Hlen. pose proof (name_len_nonneg (rel_symbol r)).
  assert (len (rela_bytes a) = 24) as Hl24 by (unfold len; by rewrite length_rela_bytes).
  pose proof Hrec as (Hat0 & Hle & _). rewrite Hl24 in Hle.
  rewrite Htarget in Henc. apply reloc_kind_encoding in Henc as [Hkind Hcode].
  destruct (rela_info _ _ Hj Hcode) as (Hib & Hsym & Hty). rewrite <- Hinfo in Hib, Hsym, Hty.
  destruct (proj1 (Forall_forall _ _) (ot_relocations _ Htyped) r Hr) as [Hofft Haddt].
  unfold import_relocation. rewrite charge_spent; [|done|lia|fits_from Hf|done]. cbn [mbind result_bind].
  rewrite debug_u_id by lia. cbn [mbind result_bind read_as sc_offset].
  rewrite debug_u_id by lia. cbn [mbind result_bind]. set (at_ := sh_offset e.1 + Z.of_nat k * 24) in *.
  rewrite (record_field file_view Hlen _ _ 8 8 8 (r_info a) eq_refl Hrec eq_refl) by (done || lia). cbn [mbind result_bind].
  rewrite debug_u_id by lia. cbn [mbind result_bind].
  rewrite Hsym, Hty, mapping_lookup by by eapply lookup_lt_Some. cbn [ok_or mbind result_bind]. rewrite Hkind.
  cbn [ok_or mbind result_bind]. unfold u64.
  rewrite (record_first file_view Hlen _ _ 8 8 (r_offset a) eq_refl Hrec eq_refl) by (lia || by rewrite Hoff).
  cbn [mbind result_bind]. rewrite checked_u_id by (by rewrite Hoff). cbn [ok_or mbind result_bind].
  rewrite Hs. cbn [expect mbind result_bind]. rewrite Hname.
  unfold relocation_cost in *. rewrite cost_add_assoc in *. rewrite own_spent; [|done|done|auto with cost].
  cbn [mbind result_bind]. rewrite debug_u_id by lia. cbn [mbind result_bind].
  assert (i64 file_view (at_ + 16) = Ok (rel_addend r)) as ->.
  { pose proof (record_slice file_view _ _ 16 8 Hrec ltac:(lia) ltac:(lia)) as Hr2.
    change (slice 16 8 (rela_bytes a)) with (to_le_bytes 8 (r_addend a)) in Hr2.
    apply (record_range file_view Hlen) in Hr2. unfold len in Hr2. rewrite length_to_le_bytes in Hr2.
    change (Z.of_nat 8) with 8 in Hr2. unfold i64, u64, read_u. rewrite Hr2. cbn [fmap result_fmap].
    rewrite from_to_le_bytes, Hadd. change (8 * Z.of_nat 8) with 64. change (rel_addend r mod 2 ^ 64) with (wrapu 64 (rel_addend r)).
    by rewrite wraps_wrapu, wraps_id. }
  cbn [mbind result_bind]. rewrite Hoff, <- Hi. by destruct r.
Qed.

Notation symbol_mapping := (mapping_upto (Z.to_nat (len (ordered_syms o) + 1)) (length (ordered_syms o))).
Notation section_mapping := (mapping_upto (Z.to_nat (section_count o)) (length (sections o))).

Lemma import_section_relocations_run index i (e : Entry) c rs (as_ : list Elf64Rela) :
  Forall2 (rela_ok o) (relocations_of o i) as_ → record_at bs (sh_offset e.1) (as_ ≫= rela_bytes) →
  cost_nonneg c → fits l (c + total relocation_cost (relocations_of o i))%cost →
  try_fold (import_relocation all_granted file_view (ordered_syms o) symbol_mapping index i (read_as e.1))
      (seq 0 (length (relocations_of o i))) (spent l c, rs) =
    Ok (spent l (c + total relocation_cost (relocations_of o i))%cost, rs ++ relocations_of o i).
Proof.
  intros Has Hrec Hc Hf. set (rels := relocations_of o i) in *.
  set (st k := (spent l (c + total relocation_cost (take k rels))%cost, rs ++ take k rels)).
  pose proof (try_fold_run (import_relocation all_granted file_view (ordered_syms o) symbol_mapping index i
    (read_as e.1)) st (seq 0 (length rels))) as Hrun.
  rewrite length_seq in Hrun. unfold st in Hrun. rewrite firstn_all, take_0 in Hrun.
  cbn [total foldr] in Hrun. rewrite cost_add_0_r, app_nil_r in Hrun. apply Hrun.
  intros k j Hj. apply lookup_seq in Hj as [-> Hk].
  destruct (lookup_lt_is_Some_2 _ _ Hk) as [r Hr].
  destruct (Forall2_lookup_l _ _ _ _ _ Has Hr) as (a & Ha & Hra).
  assert (r ∈ rels) as Hin by by eapply list_elem_of_lookup_2. apply list_elem_of_filter in Hin as [Hsec Hin].
  rewrite (total_take_S _ _ _ _ Hr), cost_add_assoc, (take_S_r _ _ r Hr), app_assoc.
  apply (import_relocation_run _ _ _ as_ _ r a); try done.
  - intros k' a' Ha'. rewrite <- (slice_records rela_bytes 24 as_ k' a') by (done || apply length_rela_bytes).
    replace (Z.of_nat k' * 24) with (Z.of_nat (k' * 24)) by lia.
    apply (record_slice file_view); [done|lia|].
    rewrite (len_records _ 24) by apply length_rela_bytes. apply lookup_lt_Some in Ha'. unfold len. lia.
  - auto 10 with cost.
  - rewrite <- cost_add_assoc, <- (total_take_S _ _ _ _ Hr).
    eapply fits_le; [exact Hf|auto 10 with cost|]. apply cost_le_add_2, total_take_le. auto with cost.
  - apply Hrec.
Qed.

Definition relocations_upto (k : nat) : list ObjectRelocation := take k (relocated_sections o) ≫= relocations_of o.

Lemma relocations_upto_S k i :
  relocated_sections o !! k = Some i → relocations_upto (S k) = relocations_upto k ++ relocations_of o i.
Proof using. intros Hi. unfold relocations_upto. by rewrite (take_S_r _ _ i Hi), bind_app, bind_singleton. Qed.

Lemma relocations_upto_prefix k : ∃ rest, normal_relocations o = relocations_upto k ++ rest.
Proof using.
  exists (drop k (relocated_sections o) ≫= relocations_of o). unfold relocations_upto, normal_relocations.
  by rewrite <- bind_app, take_drop.
Qed.

Definition relocation_state (k : nat) : Budget * list ObjectRelocation * Z :=
  (spent l (import_cost o + total relocation_cost (relocations_upto k))%cost, relocations_upto k,
   len (relocations_upto k)).

Lemma import_relas_step k i e index :
  relocated_sections o !! k = Some i → relas !! k = Some e →
  import_relas all_granted file_view (ordered_syms o) symbol_mapping section_mapping symtab_at
      (relocation_state k) (index, read_as e.1) = Ok (relocation_state (S k)).
Proof.
  intros Hi He. destruct (Forall2_lookup_lr _ _ _ _ _ _ (ef_relas H) Hi He)
    as (_ & Hty & _ & _ & Hsz & Hlk & Hinf & _ & Hes & as_ & Has & Hp).
  assert (payload_in bs e) as Hpay.
  { pose proof (ef_payloads H) as Hall. rewrite !Forall_app in Hall. destruct Hall as (_ & Hall & _).
    apply (Forall_lookup_1 _ _ _ _ Hall He). }
  assert (i < length (sections o))%nat as Hilt.
  { apply list_elem_of_lookup_2, list_elem_of_filter in Hi as [_ Hin%elem_of_seq]. lia. }
  assert (in_file e) as Hinf' by (unfold in_file; by rewrite Hty).
  destruct (payload_in_record _ _ _ Hpay Hinf' Hp) as [_ Hrec].
  pose proof (relocations_upto_S k i Hi) as Hup. destruct (relocations_upto_prefix (S k)) as [rest Hrest].
  assert (fits l (import_cost o + total relocation_cost (relocations_upto (S k)))%cost) as Hf.
  { eapply fits_le; [apply read_fits|auto 10 with cost|]. apply cost_le_add_2. rewrite Hrest, total_app.
    apply cost_le_add_r. auto with cost. }
  assert (len (relocations_upto (S k)) ≤ max_relocations l) as Hmax.
  { pose proof (am_relocations _ _ Had) as Hm. cbn in Hm. rewrite Hrest, len_app in Hm.
    pose proof (len_nonneg rest). lia. }
  pose proof (lt_relocations _ Hl). pose proof (len_nonneg (relocations_of o i)). pose proof (len_nonneg (relocations_upto k)).
  rewrite Hup, len_app in Hmax. rewrite Hup, total_app, cost_add_assoc in Hf.
  unfold import_relas, relocation_state. cbn [read_as sc_entry_size sc_size sc_link sc_info].
  rewrite Hes, Hsz, Hlk, Hinf. rewrite (Z.mul_comm 24), Z.mod_mul, Z.div_mul by done.
  assert (symtab_index secs relas = Z.of_nat symtab_at) as -> by (unfold symtab_index, symtab_at, len; lia).
  rewrite (Z.eqb_refl (Z.of_nat symtab_at)). cbn [Z.eqb ELF_RELA_SIZE Pos.eqb andb guard_err mbind result_bind].
  rewrite mapping_lookup by done. cbn [ok_or mbind result_bind]. rewrite checked_u_id by lia. cbn [ok_or mbind result_bind].
  rewrite checked_u_id by lia. cbn [ok_or mbind result_bind].
  match goal with |- context [bd_limits ?b] => change (bd_limits b) with l end.
  rewrite (proj2 (Z.leb_le _ _)) by lia. cbn [guard_err mbind result_bind].
  change (reserve (all_granted "relocations" index)) with (Ok (E := ObjectError) tt). cbn [mbind result_bind].
  replace (Z.to_nat (len (relocations_of o i))) with (length (relocations_of o i)) by (unfold len; lia).
  pose proof (import_section_relocations_run index i e (import_cost o + total relocation_cost (relocations_upto k))%cost
    (relocations_upto k) as_ Has Hrec ltac:(auto 10 with cost) Hf) as Hrun.
  rewrite Hrun.
  cbn [mbind result_bind]. by rewrite Hup, total_app, cost_add_assoc, len_app.
Qed.

Lemma import_relas_all :
  try_fold (import_relas all_granted file_view (ordered_syms o) symbol_mapping section_mapping symtab_at)
      (filter (λ x, sc_kind x.2 = 4) (enumerate file_headers)) (spent l (import_cost o), [], 0) =
    Ok (spent l (read_cost o), normal_relocations o, len (normal_relocations o)).
Proof.
  pose proof (Forall2_length _ _ _ (ef_relas H)) as Hlen.
  assert (filter (λ x, sc_kind x.2 = 4) (enumerate file_headers) =
            index_from (1 + length secs) ((λ e : Entry, read_as e.1) <$> relas)) as ->.
  { assert (enumerate file_headers = index_from 0 [read_as null_entry.1]
      ++ index_from 1 ((λ e : Entry, read_as e.1) <$> secs)
      ++ index_from (1 + length secs) ((λ e : Entry, read_as e.1) <$> relas)
      ++ index_from (1 + length secs + length relas) ((λ e : Entry, read_as e.1) <$> [symtab; strtab; shstrtab])) as ->.
    { change (enumerate file_headers) with (index_from 0 ([read_as null_entry.1] ++ ((λ e : Entry, read_as e.1) <$> file_entries))).
      unfold file_entries. rewrite !fmap_app, !index_from_app, !length_fmap. done. }
    rewrite !filter_app.
    rewrite (filter_dropped _ (index_from 0 _)), (filter_dropped _ (index_from 1 _)), (filter_kept _ (index_from (1 + length secs) _)),
      (filter_dropped _ (index_from _ (_ <$> [_; _; _]))).
    - by rewrite app_nil_r.
    - apply (Forall_index_from (λ h, sc_kind h ≠ 4)). destruct (ef_symtab H) as (_ & Ht1 & _), (ef_strtab H) as (_ & Ht2 & _), (ef_shstrtab H) as (_ & Ht3 & _).
      cbn [fmap list_fmap]. rewrite !Forall_cons. cbn [read_as sc_kind]. rewrite Ht1, Ht2, Ht3. done.
    - apply (Forall_index_from (λ h, sc_kind h = 4)), Forall_fmap, Forall_forall. intros e He. apply list_elem_of_lookup in He as [k Hk].
      destruct (Forall2_lookup_r _ _ _ _ _ (ef_relas H) Hk) as (i & _ & _ & Hty & _). exact Hty.
    - apply (Forall_index_from (λ h, sc_kind h ≠ 4)), Forall_fmap, Forall_forall. intros e He. apply list_elem_of_lookup in He as [k Hk].
      destruct (Forall2_lookup_r _ _ _ _ _ (ef_secs H) Hk) as (s & _ & _ & (Hty & _) & _).
      cbn. rewrite Hty. by destruct (sec_kind s).
    - apply (Forall_index_from (λ h, sc_kind h ≠ 4)). by constructor. }
  pose proof (try_fold_run_from (import_relas all_granted file_view (ordered_syms o) symbol_mapping section_mapping
    symtab_at) relocation_state (1 + length secs) ((λ e : Entry, read_as e.1) <$> relas)) as Hrun.
  assert (relocation_state 0 = (spent l (import_cost o), [], 0)) as <-.
  { unfold relocation_state, relocations_upto. by rewrite take_0, cost_add_0_r. }
  assert (relocation_state (length relas) = (spent l (read_cost o), normal_relocations o, len (normal_relocations o))) as <-.
  { unfold relocation_state, relocations_upto. by rewrite <- Hlen, firstn_all. }
  rewrite length_fmap in Hrun. apply Hrun. intros k h Hk.
  rewrite list_lookup_fmap in Hk. apply fmap_Some in Hk as (e & He & ->).
  destruct (Forall2_lookup_r _ _ _ _ _ (ef_relas H) He) as (i & Hi & _).
  by eapply import_relas_step.
Qed.

Lemma read_run :
  validate_diagnostic (normal_object o) = Ok tt →
  read_elf_with_usage all_granted bs l = Ok (normal_object o, read_usage o (len bs)).
Proof.
  intros Hvalid. pose proof file_count_bounds as Hsc. unfold read_elf_with_usage. rewrite parse_run.
  cbn [mbind result_bind]. unfold check_relocatable. cbn [file_view header file_header h_kind h_entry h_program_count
    h_program_offset h_section_count h_string_section].
  rewrite (proj2 (Z.eqb_neq (section_count o) 0)), (proj2 (Z.eqb_neq (section_count o - 1) 0)) by lia.
  cbn [Z.eqb Pos.eqb andb negb guard_err mbind result_bind].
  change (reserve (all_granted "headers" 0%nat)) with (Ok (E := ObjectError) tt). cbn [mbind result_bind].
  change (mkView bs (mkElfHeader 1 0 0 shoff 0 0 64 (section_count o) (section_count o - 1))) with file_view.
  rewrite headers_run. cbn [mbind result_bind].
  assert (file_headers !! Z.to_nat (section_count o - 1) = Some (read_as shstrtab.1)) as ->.
  { pose proof length_file_entries as Hl'. unfold file_headers. rewrite list_lookup_fmap. unfold file_entries in *.
    replace (Z.to_nat (section_count o - 1)) with (length (null_entry :: secs ++ relas ++ [symtab; strtab]) + 0)%nat.
    2: { rewrite <- Hl'. unfold len. rewrite !length_cons, !length_app. cbn [length]. lia. }
    replace (null_entry :: secs ++ relas ++ [symtab; strtab; shstrtab])
      with ((null_entry :: secs ++ relas ++ [symtab; strtab]) ++ [shstrtab]) by by rewrite <- app_comm_cons, <- !app_assoc.
    by rewrite lookup_app_r, Nat.add_sub_swap, Nat.sub_diag by lia. }
  cbn [expect mbind result_bind]. destruct names_payload as [[Hnsz Hnrec] Hnty].
  cbn [read_as sc_kind sc_offset sc_size]. rewrite Hnty, Hnsz. cbn [SHT_STRTAB Z.eqb Pos.eqb].
  rewrite (record_range file_view file_length _ _ Hnrec). cbn [fmap result_fmap mbind result_bind].
  unfold is_string_table at 1. rewrite (tb_head _ (ef_names H)), (tb_last _ (ef_names H)).
  rewrite !bool_decide_eq_true_2 by done. cbn [andb guard_err mbind result_bind].
  change (reserve (all_granted "mapping" 0%nat)) with (Ok (E := ObjectError) tt). cbn [mbind result_bind].
  change (mkSectionHeader _ _ _ _ _ _ _ _ _ _) with (read_as shstrtab.1).
  rewrite import_run. cbn [mbind result_bind import_state im_symbol_table im_budget im_mapping im_sections ok_or].
  rewrite symbol_table_run. cbn [mbind result_bind].
  change (reserve (all_granted "symbols" 0%nat)) with (Ok (E := ObjectError) tt). cbn [mbind result_bind].
  change (all_granted "used names" 0%nat) with true. cbn [guard_err mbind result_bind].
  rewrite read_symbols_run. cbn [mbind result_bind].
  change (reserve (all_granted "symbol mapping" 0%nat)) with (Ok (E := ObjectError) tt). cbn [mbind result_bind].
  rewrite import_symbols_run, symbol_state_end. cbn [mbind result_bind si_symbols si_mapping si_budget].
  rewrite import_relas_all. cbn [mbind result_bind]. rewrite firstn_all, <- Htarget.
  change (mkObject (target o) _ _ _) with (normal_object o). rewrite Hvalid. cbn [mbind result_bind].
  do 2 f_equal.
Qed.

End file.

(** ** The normal form of a valid object *)

Lemma normal_kind s : sec_kind (normal_section s) = sec_kind s.
Proof. unfold normal_section. by case_decide. Qed.
Lemma normal_extent s : section_ok s → extent (normal_section s) = extent s.
Proof.
  intros Hs. unfold normal_section, extent. case_decide as Hk; unfold data_len; cbn; [unfold extent, data_len; lia|].
  rewrite (so_fill _ Hs Hk). lia.
Qed.
Lemma normal_data s : sec_kind s ≠ SectionKind.Bss → sec_data (normal_section s) = sec_data s.
Proof. intros Hk. unfold normal_section. by rewrite decide_False. Qed.

Lemma normal_section_ok s : section_ok s → section_ok (normal_section s).
Proof.
  intros Hs. split.
  - rewrite normal_kind. unfold normal_section. intros Hk. by rewrite decide_False.
  - rewrite normal_kind. unfold normal_section. intros Hk. rewrite decide_True by done. by constructor.
  - rewrite normal_extent by done. apply Hs.
  - unfold normal_section. case_decide; apply Hs.
  - right. assert (sec_align (normal_section s) = Z.max (sec_align s) 1) as ->
      by (unfold normal_section; by case_decide).
    destruct (so_align _ Hs) as [->|Ha]; [done|by apply is_power_of_two_max].
Qed.

Section normal.
Context (o : ObjectFile) (Hok : object_ok o).
#[local] Set Default Proof Using "Type*".

Lemma normal_lookup i s : sections o !! i = Some s → sections (normal_object o) !! i = Some (normal_section s).
Proof using. intros Hs. cbn [normal_object sections]. by rewrite list_lookup_fmap, Hs. Qed.

Lemma elem_of_normal_relocations r : r ∈ normal_relocations o → r ∈ relocations o.
Proof using.
  unfold normal_relocations, relocations_of. intros (i & Hr & _)%list_elem_of_bind.
  by apply list_elem_of_filter in Hr as [_ Hr].
Qed.

Lemma normal_object_ok : object_ok (normal_object o).
Proof.
  split; cbn [normal_object target symbols relocations].
  - apply (oo_target _ Hok).
  - cbn [sections]. apply Forall_fmap. eapply Forall_impl; [apply (oo_sections _ Hok)|]. apply normal_section_ok.
  - by apply ordered_distinct.
  - apply Forall_forall. intros s Hs. split; [by eapply ordered_name|]. intros i Hi.
    destruct (elem_of_ordered _ Hok s Hs) as [Hin|(r & _ & ->)]; [|done].
    destruct (yo_section _ _ (proj1 (Forall_forall _ _) (oo_symbols _ Hok) s Hin) i Hi) as (section & Hsec & Hr & Hle).
    exists (normal_section section). split; [by apply normal_lookup|]. rewrite normal_extent; [done|].
    apply (Forall_lookup_1 _ _ _ _ (oo_sections _ Hok) Hsec).
  - apply Forall_forall. intros r Hr%elem_of_normal_relocations.
    destruct (proj1 (Forall_forall _ _) (oo_relocations _ Hok) r Hr) as [Hn (section & c & w & Hsec & Hk & Henc & Hb & Hle)].
    split; [done|]. exists (normal_section section), c, w. rewrite normal_kind.
    split; [by apply normal_lookup|]. repeat (split; [done|]). unfold data_len. by rewrite normal_data.
Qed.

(** Grouping by section keeps every relocation. *)
Lemma filter_below (n : nat) (rs : list ObjectRelocation) :
  filter (λ r, rel_section r < S n)%nat rs ≡ₚ
  filter (λ r, rel_section r < n)%nat rs ++ filter (λ r, rel_section r = n) rs.
Proof using.
  induction rs as [|r rs IH]; [done|]. rewrite !filter_cons.
  destruct (decide (rel_section r < S n)%nat), (decide (rel_section r < n)%nat), (decide (rel_section r = n)); try lia.
  - by rewrite <- app_comm_cons, IH.
  - by rewrite <- Permutation_middle, IH.
  - exact IH.
Qed.

Lemma normal_relocations_permutation : normal_relocations o ≡ₚ relocations o.
Proof.
  pose proof (relocations_sections _ Hok) as Hrs. unfold normal_relocations, relocated_sections.
  transitivity (filter (λ r, rel_section r < length (sections o))%nat (relocations o)); [|by rewrite filter_kept].
  generalize (length (sections o)) as n. induction n as [|n IH].
  - by rewrite (filter_dropped _ (relocations o)) by (apply Forall_true; intros r Hr; cbn beta in Hr; lia).
  - rewrite seq_S, filter_app, bind_app, IH, filter_below. f_equiv. cbn [Nat.add].
    destruct (decide (relocations_of o n = [])) as [Hnil|Hne].
    + rewrite filter_cons_False, filter_nil by tauto. unfold relocations_of in Hnil. by rewrite Hnil.
    + by rewrite filter_cons_True, filter_nil, bind_singleton by done.
Qed.
End normal.

(** C9: What the ELF writer leaves for a typed AMD64 object is read back as the normal form of the
    object, at exactly the stated usage, under every budget that admits that usage; the normal form
    keeps the symbols and, up to their order, the relocations. *)
Theorem elf_round_trip host stride o limit bs l :
  object_typed o → names_utf8 o → target o = object_target X86_64WhaleLinux → limit < 2 ^ 64 →
  limits_typed l → admits l (read_usage o (len bs)) →
  write_elf_checked host stride o limit = Ok bs →
  read_elf_with_usage all_granted bs l = Ok (normal_object o, read_usage o (len bs))
  ∧ relocations (normal_object o) ≡ₚ relocations o ∧ symbols o ⊆ symbols (normal_object o).
Proof.
  intros Ht Hu Htarget Hlimit Hl Had Hw. apply write_elf_ok in Hw as (Hok & Hfile).
  destruct Hfile as (machine & shoff & secs & relas & symtab & strtab & shstrtab & names & strings & recs & Hm & Hf).
  rewrite Htarget in Hm. injection Hm as <-. split; [|split].
  - eapply read_run; try done. by apply validate_diagnostic_decides, normal_object_ok.
  - by apply normal_relocations_permutation.
  - intros s Hs. by apply ordered_symbols.
Qed.

Lemma elf_round_trip_witness :
  read_elf_with_usage all_granted sample_written default_read_limits =
    Ok (normal_object sample_main, read_usage sample_main (len sample_written))
  ∧ relocations (normal_object sample_main) ≡ₚ relocations sample_main
  ∧ symbols sample_main ⊆ symbols (normal_object sample_main).
Proof.
  apply (elf_round_trip all_granted 48 sample_main 4096).
  - apply (Forall_inv sample_typed).
  - split; repeat constructor.
  - reflexivity.
  - lia.
  - split; vm_compute; reflexivity.
  - split; vm_compute; discriminate.
  - vm_compute. reflexivity.
Defined.
