(* ===== verification/SymbolTable.v ===== *)
(** * Symbol resolution ([linker/src/core/symbol_table.rs])

    The table of the symbols a link defines and of the references its relocations make, and the
    proof that resolution finds exactly what the rules of strong, weak and local symbols prescribe. *)
From S2P Require Export Object.
Local Open Scope Z_scope.

(** ** Data *)

Inductive SymbolKey :=
  | GlobalKey (name : string)
  | LocalKey (object_index : nat) (name : string).
#[export] Instance SymbolKey_eq_dec : EqDecision SymbolKey.
Proof. solve_decision. Defined.
#[export] Instance SymbolKey_countable : Countable SymbolKey.
Proof.
  refine (inj_countable'
    (λ k, match k with GlobalKey n => inl n | LocalKey i n => inr (i, n) end)
    (λ c, match c with inl n => GlobalKey n | inr (i, n) => LocalKey i n end) _).
  by intros [].
Defined.

Record ResolvedSymbol := mkResolved {
  rs_name : string;
  rs_object : option nat;
  rs_section : option nat;
  rs_value : Z;
  rs_size : Z;
  rs_binding : Binding.t;
  rs_kind : SymbolKind.t;
  rs_visibility : Visibility.t;
}.

Record ResolvedReference := mkReference {
  ref_object : nat;
  ref_section : nat;
  ref_offset : Z;
  ref_target : SymbolKey;
  ref_weak_undefined : bool;
}.

Record SymbolTable := mkTable {
  table_symbols : gmap SymbolKey ResolvedSymbol;
  table_references : list ResolvedReference;
}.

Definition new_table : SymbolTable := mkTable ∅ [].

(** ** Resolution *)

Definition link_input (index : nat) (e : Message) : Message :=
  [Text "link input "; Number (Z.of_nat index); Text ": "] ++ e.

Definition validate_input (index : nat) (o : ObjectFile) : result Message unit :=
  _ ← map_err (λ e, link_input index (display_target_error e)) (validate_amd64 (target o));
  map_err (link_input index) (validate o).

Definition is_defined (s : ObjectSymbol) : bool := bool_decide (is_Some (sym_section s)).
Definition is_local (s : ObjectSymbol) : bool := bool_decide (sym_binding s = Binding.Local_).

Definition key_of (d : nat * ObjectSymbol) : SymbolKey :=
  if is_local d.2 then LocalKey d.1 (sym_name d.2) else GlobalKey (sym_name d.2).

Definition resolved (d : nat * ObjectSymbol) : ResolvedSymbol :=
  mkResolved (sym_name d.2) (Some d.1) (sym_section d.2) (sym_value d.2) (sym_size d.2)
    (sym_binding d.2) (sym_kind d.2) (sym_visibility d.2).

Definition add_definition (i : nat) (symbols : gmap SymbolKey ResolvedSymbol) (s : ObjectSymbol)
  : result Message (gmap SymbolKey ResolvedSymbol) :=
  let key := key_of (i, s) in
  let inserted := <[key := resolved (i, s)]> symbols in
  match symbols !! key with
  | None => Ok inserted
  | Some existing =>
      if is_local s then
        Err [Text "Duplicate local symbol in object "; Number (Z.of_nat i); Text ": ";
             Text (sym_name s)]
      else
      match rs_binding existing, sym_binding s with
      | Binding.Global_, Binding.Global_ =>
          owner ← expect (rs_object existing);
          Err [Text "Duplicate global symbol "; Quoted (sym_name s); Text ": objects ";
               Number (Z.of_nat owner); Text " and "; Number (Z.of_nat i)]
      | Binding.Global_, Binding.Weak | Binding.Weak, Binding.Weak => Ok symbols
      | _, _ => Ok inserted
      end
  end.

Definition define_symbols (objects : list ObjectFile)
  : result Message (gmap SymbolKey ResolvedSymbol) :=
  try_fold (λ m io, try_fold (add_definition io.1) (filter is_defined (symbols io.2)) m)
    (enumerate objects) ∅.

(** The declarations of an object by name. *)
Definition declarations (o : ObjectFile) : gmap string ObjectSymbol :=
  collect ((λ s, (sym_name s, s)) <$> symbols o).

Definition declared (p : ObjectSymbol → bool) (d : option ObjectSymbol) : bool :=
  match d with Some s => p s | None => false end.
Definition is_weak (s : ObjectSymbol) : bool := bool_decide (sym_binding s = Binding.Weak).

Definition reference_key (i : nat) (o : ObjectFile) (r : ObjectRelocation) : SymbolKey :=
  if declared is_local (declarations o !! rel_symbol r)
  then LocalKey i (rel_symbol r) else GlobalKey (rel_symbol r).

Definition zero_symbol (r : ObjectRelocation) (declaration : ObjectSymbol) : ResolvedSymbol :=
  mkResolved (rel_symbol r) None None 0 0 Binding.Weak (sym_kind declaration)
    (sym_visibility declaration).

Definition unresolved_reference (i : nat) (r : ObjectRelocation) (s : Section_) : Message :=
  [Text "Unresolved strong symbol "; Quoted (rel_symbol r); Text " referenced by object ";
   Number (Z.of_nat i); Text ", section "; Quoted (sec_name s); Text " (";
   Number (Z.of_nat (rel_section r)); Text "), offset "; Number (rel_offset r)].

Definition add_reference (symbols : gmap SymbolKey ResolvedSymbol) (i : nat) (o : ObjectFile)
    (st : list ResolvedReference * gmap SymbolKey ResolvedSymbol) (r : ObjectRelocation)
  : result Message (list ResolvedReference * gmap SymbolKey ResolvedSymbol) :=
  let '(references, weak_undefined) := st in
  let declaration := declarations o !! rel_symbol r in
  let key := reference_key i o r in
  let missing := bool_decide (symbols !! key = None) in
  if missing && negb (declared is_weak declaration) then
    s ← expect (sections o !! rel_section r);
    Err (unresolved_reference i r s)
  else
    weak_undefined ←
      (if missing then
         d ← expect declaration;
         Ok (if decide (is_Some (weak_undefined !! key)) then weak_undefined
             else <[key := zero_symbol r d]> weak_undefined)
       else Ok weak_undefined);
    Ok (references ++ [mkReference i (rel_section r) (rel_offset r) key missing], weak_undefined).

Definition resolve_references (symbols : gmap SymbolKey ResolvedSymbol) (objects : list ObjectFile)
  : result Message (list ResolvedReference * gmap SymbolKey ResolvedSymbol) :=
  try_fold (λ st io, try_fold (add_reference symbols io.1 io.2) (relocations io.2) st)
    (enumerate objects) ([], ∅).

(** The new table; [HashMap::extend] lets the entries it adds win. *)
Definition resolved_table (objects : list ObjectFile) : result Message SymbolTable :=
  _ ← try_fold (λ _ io, validate_input io.1 io.2) (enumerate objects) tt;
  symbols ← define_symbols objects;
  '(references, weak_undefined) ← resolve_references symbols objects;
  Ok (mkTable (weak_undefined ∪ symbols) references).

(** [resolve] clears the table first and fills it at the end. *)
Definition resolve (objects : list ObjectFile) : stm SymbolTable Message unit :=
  _ ← modify (λ _, new_table);
  table ← lift (resolved_table objects);
  modify (λ _, table).

(** [new] followed by [resolve]. *)
Definition resolve_new (objects : list ObjectFile) : result Message SymbolTable :=
  match resolve objects new_table with
  | (Ok _, t) => Ok t
  | (Err e, _) => Err e
  | (Panic, _) => Panic
  end.

(** ** What resolution finds *)

(** The definitions of a link, in input order, and those a key denotes: the first strong one, or the
    first weak or local one. *)
Definition definitions (objects : list ObjectFile) : list (nat * ObjectSymbol) :=
  enumerate objects ≫= λ io, pair io.1 <$> filter is_defined (symbols io.2).
Definition is_strong (d : nat * ObjectSymbol) : bool :=
  bool_decide (sym_binding d.2 = Binding.Global_).
Definition chosen (ds : list (nat * ObjectSymbol)) (k : SymbolKey) : option (nat * ObjectSymbol) :=
  match head (filter (λ d, key_of d = k ∧ is_strong d) ds) with
  | Some d => Some d
  | None => head (filter (λ d, key_of d = k) ds)
  end.
Definition strong_keys (ds : list (nat * ObjectSymbol)) : list SymbolKey :=
  key_of <$> filter is_strong ds.

Definition reference : Type := nat * ObjectFile * ObjectRelocation.
Definition references_of (objects : list ObjectFile) : list reference :=
  enumerate objects ≫= λ io, (λ r, (io, r)) <$> relocations io.2.
Definition key_referenced (x : reference) : SymbolKey := reference_key x.1.1 x.1.2 x.2.
Definition declaration_of (x : reference) : option ObjectSymbol :=
  declarations x.1.2 !! rel_symbol x.2.

(** A link whose objects are sound, where no two strong definitions share a name and every reference
    is to a definition or declared weak. *)
Record resolvable (objects : list ObjectFile) : Prop := {
  rv_inputs : Forall (λ o, validate_amd64 (target o) = Ok tt ∧ object_ok o) objects;
  rv_strong : NoDup (strong_keys (definitions objects));
  rv_references : Forall (λ x, is_Some (chosen (definitions objects) (key_referenced x))
    ∨ declared is_weak (declaration_of x) = true) (references_of objects);
}.

(** The first reference to a key, from which an undefined weak symbol takes its kind. *)
Definition first_reference (xs : list reference) (k : SymbolKey) : option reference :=
  head (filter (λ x, key_referenced x = k) xs).

Record table_ok (objects : list ObjectFile) (t : SymbolTable) : Prop := {
  to_symbols k : table_symbols t !! k =
    match chosen (definitions objects) k with
    | Some d => Some (resolved d)
    | None => x ← first_reference (references_of objects) k;
              zero_symbol x.2 <$> declaration_of x
    end;
  to_references : table_references t =
    (λ x, mkReference x.1.1 (rel_section x.2) (rel_offset x.2) (key_referenced x)
            (bool_decide (chosen (definitions objects) (key_referenced x) = None)))
    <$> references_of objects;
}.

Lemma chosen_snoc ds d k :
  chosen (ds ++ [d]) k =
    if decide (key_of d = k) then
      match chosen ds k with
      | Some e => if is_strong e then Some e else if is_strong d then Some d else Some e
      | None => Some d
      end
    else chosen ds k.
Proof.
  unfold chosen. rewrite !head_filter_snoc.
  destruct (head (filter (λ d, key_of d = k ∧ is_strong d) ds)) as [e|] eqn:E1.
  - apply head_filter_Some in E1 as [[_ Hs] _]. apply Is_true_true in Hs. rewrite Hs.
    by case_decide.
  - destruct (head (filter (λ d, key_of d = k) ds)) as [e|] eqn:E2.
    + apply head_filter_Some in E2 as [Hk Hin].
      assert (is_strong e = false) as He.
      { destruct (is_strong e) eqn:Es; [|done].
        destruct (proj1 (head_filter_None _ _) E1 e Hin). by rewrite Es. }
      rewrite He. destruct (decide (key_of d = k)); [|rewrite decide_False by tauto; done].
      destruct (is_strong d); [rewrite decide_True by done|rewrite decide_False by naive_solver]; done.
    + destruct (decide (key_of d = k)) as [Hk|]; [|rewrite decide_False by tauto; done].
      destruct (is_strong d); [rewrite decide_True by done|rewrite decide_False by naive_solver]; done.
Qed.

Lemma chosen_Some ds k d : chosen ds k = Some d → key_of d = k ∧ d ∈ ds.
Proof.
  unfold chosen. destruct (head (filter (λ d, _ ∧ _) ds)) eqn:E.
  - intros [= ->]. apply head_filter_Some in E. tauto.
  - by intros [? ?]%head_filter_Some.
Qed.

Lemma chosen_None ds k : chosen ds k = None ↔ k ∉ key_of <$> ds.
Proof.
  rewrite list_elem_of_fmap. unfold chosen. split.
  - destruct (head (filter (λ d, _ ∧ _) ds)); [done|]. rewrite head_filter_None. naive_solver.
  - intros Hn. rewrite (proj2 (head_filter_None _ _)), (proj2 (head_filter_None _ _)); naive_solver.
Qed.

Lemma chosen_strong ds k d :
  chosen ds k = Some d → is_strong d = true ↔ k ∈ strong_keys ds.
Proof.
  unfold chosen, strong_keys. rewrite list_elem_of_fmap.
  destruct (head (filter (λ d, _ ∧ _) ds)) as [e|] eqn:E.
  - intros [= ->]. apply head_filter_Some in E as [[<- Hs] Hin]. split; [|by intros _; apply Is_true_true].
    intros _. exists d. split; [done|]. by apply list_elem_of_filter.
  - intros [Hk Hin]%head_filter_Some. pose proof (proj1 (head_filter_None _ _) E) as Hn. split.
    + intros Hs. destruct (Hn d Hin). split; [done|by apply Is_true_true].
    + intros (e & -> & [Hs He]%list_elem_of_filter). by destruct (Hn e He).
Qed.

Lemma strong_keys_snoc ds d :
  strong_keys (ds ++ [d]) = strong_keys ds ++ (if is_strong d then [key_of d] else []).
Proof.
  unfold strong_keys. rewrite filter_app, fmap_app. f_equal.
  unfold filter, list_filter. destruct (is_strong d) eqn:E.
  - by rewrite decide_True by by apply Is_true_true.
  - by rewrite decide_False by by apply Is_true_false.
Qed.

Lemma key_of_local i s : is_local s = true → key_of (i, s) = LocalKey i (sym_name s).
Proof. unfold key_of. simpl. by intros ->. Qed.
Lemma key_of_global i s : is_local s = false → key_of (i, s) = GlobalKey (sym_name s).
Proof. unfold key_of. simpl. by intros ->. Qed.

(** ** The definitions *)

Definition defines (ds : list (nat * ObjectSymbol)) (m : gmap SymbolKey ResolvedSymbol) : Prop :=
  (∀ k, m !! k = resolved <$> chosen ds k) ∧ NoDup (strong_keys ds).

Lemma insert_defines ds d m :
  defines ds m →
  (∀ e, chosen ds (key_of d) = Some e → is_strong e = false ∧ is_strong d = true) →
  defines (ds ++ [d]) (<[key_of d := resolved d]> m).
Proof.
  intros [Hm Hnd] Hc. split.
  - intros k. rewrite chosen_snoc. case_decide as Hk.
    + subst k. rewrite lookup_insert_eq. destruct (chosen ds _) as [e|]; [|done].
      by destruct (Hc e eq_refl) as [-> ->].
    + by rewrite lookup_insert_ne.
  - rewrite strong_keys_snoc. destruct (is_strong d); [|by rewrite app_nil_r].
    apply NoDup_app. split; [done|]. split; [|apply NoDup_singleton].
    intros k Hk Hk'. apply list_elem_of_singleton in Hk'. subst k.
    destruct (chosen ds (key_of d)) as [e|] eqn:E.
    + destruct (Hc e eq_refl) as [He _]. by rewrite (proj2 (chosen_strong _ _ _ E) Hk) in He.
    + apply chosen_None in E. apply E. unfold strong_keys in Hk.
      apply list_elem_of_fmap in Hk as (d' & Hd' & [_ Hin]%list_elem_of_filter).
      apply list_elem_of_fmap. by exists d'.
Qed.

Lemma keep_defines ds d e m :
  defines ds m → chosen ds (key_of d) = Some e → is_strong d = false → defines (ds ++ [d]) m.
Proof.
  intros [Hm Hnd] He Hd. split.
  - intros k. rewrite chosen_snoc, Hm. case_decide as Hk; [|done]. subst k. rewrite He, Hd.
    by destruct (is_strong e).
  - by rewrite strong_keys_snoc, Hd, app_nil_r.
Qed.

Lemma add_definition_yields ds i s m :
  defines ds m → (is_local s = true → key_of (i, s) ∉ key_of <$> ds) →
  yields (λ _, ¬ NoDup (strong_keys (ds ++ [(i, s)]))) (add_definition i m s)
    (defines (ds ++ [(i, s)])).
Proof.
  intros Hdef Hloc. unfold add_definition. cbv zeta. rewrite (proj1 Hdef).
  destruct (chosen ds (key_of (i, s))) as [e|] eqn:He; simpl.
  2: { apply insert_defines; [done|]. by rewrite He. }
  destruct (chosen_Some _ _ _ He) as [Hk Hin].
  destruct (is_local s) eqn:Hl.
  { destruct (Hloc eq_refl). rewrite <- Hk. apply list_elem_of_fmap. by exists e. }
  assert (is_local e.2 = false) as Hle.
  { unfold key_of in Hk. simpl in Hk. rewrite Hl in Hk. by destruct (is_local e.2). }
  unfold is_local in Hl, Hle. apply bool_decide_eq_false in Hl, Hle.
  pose proof (chosen_strong _ _ _ He) as Hs.
  assert (∀ b, is_strong (b, s) = bool_decide (sym_binding s = Binding.Global_)) as Hbs by done.
  destruct (sym_binding e.2) eqn:Ebe; [done| |]; destruct (sym_binding s) eqn:Ebs; try done.
  - simpl. intros Hnd. rewrite strong_keys_snoc in Hnd.
    assert (is_strong (i, s) = true) as Hsi by (unfold is_strong; simpl; by rewrite Ebs).
    rewrite Hsi in Hnd. apply NoDup_app in Hnd as (_ & Hnd & _). apply (Hnd (key_of (i, s))).
    + apply Hs. unfold is_strong. by rewrite Ebe.
    + by apply list_elem_of_singleton.
  - by eapply (keep_defines _ (i, s)).
  - apply insert_defines; [done|]. intros e'. rewrite He. intros [= <-].
    unfold is_strong. simpl. by rewrite Ebe, Ebs.
  - by eapply (keep_defines _ (i, s)).
Qed.

(** Names are distinct within an object, so local keys never meet. *)
Lemma definitions_NoDup objects :
  Forall (λ o, NoDup (sym_name <$> symbols o)) objects →
  NoDup ((λ d, (d.1, sym_name d.2)) <$> definitions objects).
Proof.
  intros Hall. unfold definitions.
  replace ((λ d : nat * ObjectSymbol, (d.1, sym_name d.2)) <$>
             (enumerate objects ≫= λ io, pair io.1 <$> filter is_defined (symbols io.2)))
    with (enumerate objects ≫= λ io, (λ s, (io.1, sym_name s)) <$> filter is_defined (symbols io.2)).
  2: { induction (enumerate objects) as [|io l IH]; [done|].
       cbn [mbind list_bind]. rewrite fmap_app, <- list_fmap_compose, <- IH. done. }
  apply NoDup_bind; [| |apply NoDup_enumerate].
  - intros [i o] [j o'] y Hi%elem_of_enumerate Hj%elem_of_enumerate
      (s & -> & _)%list_elem_of_fmap (s' & [= -> _] & _)%list_elem_of_fmap. simpl in *. congruence.
  - intros [i o] Hi%elem_of_enumerate. simpl. eapply Forall_lookup_1 in Hall; [|exact Hi].
    simpl in Hall. apply (NoDup_fmap_2 (pair i)) in Hall. rewrite <- list_fmap_compose in Hall.
    eapply sublist_NoDup; [exact Hall|]. apply (fmap_sublist (pair i ∘ sym_name)).
    apply sublist_filter.
Qed.

Lemma local_fresh objects ds i s rest :
  Forall (λ o, NoDup (sym_name <$> symbols o)) objects →
  definitions objects = ds ++ (i, s) :: rest → is_local s = true → key_of (i, s) ∉ key_of <$> ds.
Proof.
  intros Hall%definitions_NoDup Heq Hl. rewrite Heq, fmap_app in Hall.
  apply NoDup_app in Hall as (_ & Hd & _). rewrite key_of_local by done.
  intros (d & Hk & Hin)%list_elem_of_fmap. unfold key_of in Hk.
  destruct (is_local d.2); [|done]. injection Hk as -> Hn. apply (Hd (d.1, sym_name d.2)).
  - apply list_elem_of_fmap. by exists d.
  - simpl. apply elem_of_cons. left. congruence.
Qed.

Lemma define_symbols_flat objects :
  define_symbols objects =
    try_fold (λ m d, add_definition d.1 m d.2) (definitions objects) ∅.
Proof.
  unfold define_symbols, definitions. rewrite <- try_fold_join. apply try_fold_ext.
  intros m io. by rewrite try_fold_fmap.
Qed.

Lemma define_symbols_yields objects :
  Forall (λ o, NoDup (sym_name <$> symbols o)) objects →
  yields (λ _, ¬ NoDup (strong_keys (definitions objects))) (define_symbols objects)
    (defines (definitions objects)).
Proof.
  intros Hall. rewrite define_symbols_flat. apply try_fold_yields.
  { split; [intros k; by rewrite lookup_empty|apply NoDup_nil_2]. }
  intros ds [i s] rest m Heq Hm. simpl.
  eapply yields_mono, add_definition_yields; [|done|done|by eapply local_fresh].
  simpl. intros _ Hn. rewrite Heq, cons_middle, app_assoc. intros Hnd. apply Hn.
  unfold strong_keys in *. rewrite filter_app, fmap_app in Hnd. by apply NoDup_app in Hnd as [? _].
Qed.

(** ** The references *)

Section references.
Context (objects : list ObjectFile) (m : gmap SymbolKey ResolvedSymbol).
Let ds := definitions objects.
Context (Hm : ∀ k, m !! k = resolved <$> chosen ds k).
#[local] Set Default Proof Using "Type*".

Definition linked (x : reference) : Prop :=
  is_Some (chosen ds (key_referenced x)) ∨ declared is_weak (declaration_of x) = true.

Definition made (x : reference) : ResolvedReference :=
  mkReference x.1.1 (rel_section x.2) (rel_offset x.2) (key_referenced x)
    (bool_decide (chosen ds (key_referenced x) = None)).

Definition referenced (xs : list reference)
    (st : list ResolvedReference * gmap SymbolKey ResolvedSymbol) : Prop :=
  st.1 = made <$> xs ∧ Forall linked xs
  ∧ ∀ k, st.2 !! k = match chosen ds k with
                     | Some _ => None
                     | None => x ← first_reference xs k; zero_symbol x.2 <$> declaration_of x
                     end.

Lemma weak_declared x : declared is_weak (declaration_of x) = true → is_Some (declaration_of x).
Proof. by destruct (declaration_of x). Qed.

(** Every entry of [weak_undefined] has a declaration, so a key has one from its first reference. *)
Lemma first_reference_entry xs k x :
  Forall linked xs → chosen ds k = None → first_reference xs k = Some x → is_Some (declaration_of x).
Proof.
  intros Hf Hn [<- Hin]%head_filter_Some. rewrite Forall_forall in Hf.
  destruct (Hf x Hin) as [[? Hs]|Hw]; [congruence|by apply weak_declared].
Qed.

Lemma add_reference_yields xs i o r st :
  is_Some (sections o !! rel_section r) → referenced xs st →
  yields (λ _, ¬ linked (i, o, r)) (add_reference m i o st r) (referenced (xs ++ [(i, o, r)])).
Proof.
  intros [sec Hsec] (Hrefs & Hlinked & Hweak). destruct st as [refs weak].
  set (x := (i, o, r)). unfold add_reference. cbv zeta.
  change (declarations o !! rel_symbol r) with (declaration_of x).
  change (reference_key i o r) with (key_referenced x). simpl in Hrefs, Hweak.
  assert (bool_decide (m !! key_referenced x = None)
          = bool_decide (chosen ds (key_referenced x) = None)) as ->.
  { apply bool_decide_ext. rewrite Hm. by destruct (chosen ds _). }
  assert (∀ k, first_reference (xs ++ [x]) k =
    match first_reference xs k with Some y => Some y
    | None => if decide (key_referenced x = k) then Some x else None end) as Hsnoc.
  { intros k. unfold first_reference. by rewrite head_filter_snoc. }
  case_bool_decide as Hmiss.
  - destruct (declared is_weak (declaration_of x)) eqn:Hw; simpl.
    2: { rewrite Hsec. simpl. intros [[? ?]|?]; congruence. }
    destruct (weak_declared _ Hw) as [d Hd]. rewrite Hd. simpl. split; [|split].
    + simpl. rewrite Hrefs, fmap_app. simpl. unfold made at 3. by rewrite bool_decide_eq_true_2.
    + apply Forall_app. split; [done|]. apply Forall_cons. split; [by right|done].
    + intros k. rewrite Hsnoc. simpl. destruct (decide (is_Some (weak !! key_referenced x))) as [Hin|Hin].
      * rewrite Hweak. destruct (chosen ds k) eqn:Ek; [done|].
        destruct (first_reference xs k) eqn:Ef; [done|]. case_decide as Hk; [|done]. subst k.
        rewrite Hweak, Ek, Ef in Hin. by apply is_Some_None in Hin.
      * rewrite Hweak, Hmiss in Hin. destruct (decide (key_referenced x = k)) as [<-|Hk].
        -- rewrite lookup_insert_eq, Hmiss. destruct (first_reference xs _) as [y|] eqn:Ef.
           ++ destruct (first_reference_entry _ _ _ Hlinked Hmiss Ef) as [dy Hdy].
              destruct Hin. simpl. rewrite Hdy. by eexists.
           ++ simpl. by rewrite Hd.
        -- rewrite lookup_insert_ne, Hweak by done. by destruct (first_reference xs k).
  - simpl. split; [|split].
    + simpl. rewrite Hrefs, fmap_app. simpl. unfold made at 3. by rewrite bool_decide_eq_false_2.
    + apply Forall_app. split; [done|]. apply Forall_cons. split; [left|done].
      by apply not_eq_None_Some.
    + intros k. rewrite Hsnoc. simpl. rewrite Hweak. destruct (chosen ds k) eqn:Ek; [done|].
      destruct (first_reference xs k); [done|]. rewrite decide_False; [done|]. congruence.
Qed.

Lemma resolve_references_flat :
  resolve_references m objects =
    try_fold (λ st x, add_reference m x.1.1 x.1.2 st x.2) (references_of objects) ([], ∅).
Proof.
  unfold resolve_references, references_of. rewrite <- try_fold_join. apply try_fold_ext.
  intros st io. by rewrite try_fold_fmap.
Qed.

Lemma resolve_references_yields :
  Forall object_ok objects →
  yields (λ _, ¬ Forall linked (references_of objects)) (resolve_references m objects)
    (referenced (references_of objects)).
Proof.
  intros Hok. rewrite resolve_references_flat. apply try_fold_yields.
  { split; [done|]. split; [done|]. intros k. cbn [snd]. rewrite lookup_empty. by destruct (chosen ds k). }
  intros xs [[i o] r] rest st Heq Hst. simpl.
  eapply yields_mono, add_reference_yields; [|done| |done].
  - simpl. intros _ Hn Hall. apply Hn. rewrite Forall_forall in Hall. apply Hall. rewrite Heq.
    apply elem_of_app. right. apply elem_of_cons. by left.
  - assert ((i, o, r) ∈ references_of objects) as Hin.
    { rewrite Heq. apply elem_of_app. right. apply elem_of_cons. by left. }
    apply list_elem_of_bind in Hin as ([i' o'] & (r' & [= -> -> ->] & Hr)%list_elem_of_fmap & Ho).
    apply elem_of_enumerate in Ho. eapply Forall_lookup_1 in Hok; [|exact Ho].
    pose proof (oo_relocations _ Hok) as Hrel. rewrite Forall_forall in Hrel.
    destruct (ro_field _ _ (Hrel _ Hr)) as (section & _ & _ & Hsec & _). by eexists.
Qed.
End references.

(** ** The table *)

Lemma validate_input_decides i o :
  validate_input i o = Ok tt ↔ validate_amd64 (target o) = Ok tt ∧ object_ok o.
Proof.
  unfold validate_input. rewrite <- validate_decides.
  destruct (validate_amd64 (target o)) as [[]| |], (validate o) as [[]| |]; simpl; naive_solver.
Qed.

Lemma validate_input_no_panic i o : validate_input i o ≠ Panic.
Proof.
  unfold validate_input, validate, validate_amd64. pose proof (validate_no_panic o).
  case_decide; [|done]. simpl. by destruct (validate_diagnostic o).
Qed.

Lemma validate_inputs_decides objects :
  try_fold (λ _ io, validate_input io.1 io.2) (enumerate objects) tt = Ok tt ↔
    Forall (λ o, validate_amd64 (target o) = Ok tt ∧ object_ok o) objects.
Proof.
  rewrite (try_fold_check_Ok (λ io, validate_input io.1 io.2)), !Forall_forall. split.
  - intros H o [i Hi]%list_elem_of_lookup. apply (validate_input_decides i).
    by apply (H (i, o)), elem_of_enumerate.
  - intros H [i o] Hi%elem_of_enumerate. apply validate_input_decides, H.
    by eapply list_elem_of_lookup_2.
Qed.

Lemma resolved_table_yields objects :
  yields (λ _, ¬ resolvable objects) (resolved_table objects)
    (λ t, resolvable objects ∧ table_ok objects t).
Proof.
  unfold resolved_table. apply yields_bind.
  destruct (try_fold _ (enumerate objects) tt) as [[]|e|] eqn:Ein; simpl.
  2: { intros [Hin _ _]. apply validate_inputs_decides in Hin. congruence. }
  2: { revert Ein. apply (try_fold_check_no_panic (λ io, validate_input io.1 io.2)).
       intros [i o]. apply validate_input_no_panic. }
  apply validate_inputs_decides in Ein.
  apply yields_bind. eapply yields_mono, define_symbols_yields.
  { simpl. intros _ Hn [_ Hs _]. done. }
  2: { eapply Forall_impl; [exact Ein|]. intros o [_ Ho]. apply Ho. }
  simpl. intros m [Hm Hnd]. apply yields_bind.
  eapply yields_mono, (resolve_references_yields objects m Hm).
  { simpl. intros _ Hn [_ _ Hr]. done. }
  2: { eapply Forall_impl; [exact Ein|]. by intros o [_ Ho]. }
  intros [refs weak] (Hrefs & Hlinked & Hweak). simpl in *. split; [done|]. split; [|done].
  intros k. simpl. rewrite lookup_union, Hm, Hweak.
  destruct (chosen (definitions objects) k) as [d|]; simpl; [by destruct (weak !! k)|].
  by destruct (first_reference _ k) as [x|]; simpl; [destruct (declaration_of x)|].
Qed.

Lemma resolve_new_eq objects : resolve_new objects = resolved_table objects.
Proof.
  unfold resolve_new, resolve. rewrite stm_bind_eq. simpl. rewrite stm_bind_eq. unfold lift.
  by destruct (resolved_table objects).
Qed.

Lemma resolve_new_yields objects :
  yields (λ _, ¬ resolvable objects) (resolve_new objects)
    (λ t, resolvable objects ∧ table_ok objects t).
Proof. rewrite resolve_new_eq. apply resolved_table_yields. Qed.

Lemma table_ok_unique objects t t' : table_ok objects t → table_ok objects t' → t = t'.
Proof.
  intros [Hs Hr] [Hs' Hr']. destruct t as [ss rs], t' as [ss' rs']. simpl in *. f_equal; [|congruence].
  apply map_eq. intros k. by rewrite Hs, Hs'.
Qed.

(** C21: Resolution succeeds exactly on the links whose objects are valid AMD64 ELF objects, in which
    no name has two strong definitions and every reference is defined or declared weak.  It then
    yields the one table in which a name stands for its strong definition wherever that comes in the
    input, else for its first weak definition, a local name for the definition of its own object, and
    an undefined weak reference for zero; it never panics. *)
Theorem resolve_decides objects t :
  resolve_new objects ≠ Panic ∧
  (resolve_new objects = Ok t ↔ resolvable objects ∧ table_ok objects t).
Proof.
  pose proof (resolve_new_yields objects) as Hy. destruct (resolve_new objects) as [t'|e|]; [|..]; try done.
  - destruct Hy as [Hr Ht]. split; [done|]. split; [by intros [= <-]|].
    intros [_ Ht']. f_equal. by eapply table_ok_unique.
  - simpl in Hy. split; [done|]. split; [done|]. tauto.
Qed.
