(* ===== verification/Selection.v ===== *)
(** * Selection of archive members ([linker/src/core/selection.rs])

    Which objects take part in a link: every object given, and of each archive, from left to right,
    the members that define a symbol the objects selected so far need, until no member does. *)
From S2P Require Export SymbolTable.
Local Open Scope Z_scope.

(** ** Inputs *)

Record ArchiveObject := mkMember { member_name : string; member_object : ObjectFile }.

Module LinkInput.
Inductive t := Object (object : ObjectFile) | Archive (members : list ArchiveObject).
End LinkInput.

(** ** The work budget and the payload budget *)

Definition MAX_SELECTED : nat := 4096.
Definition SELECTION_WORK : Z := 10000000.

Definition work_exceeded : Message := [Text "archive selection work budget exceeded"].
Definition objects_exceeded : Message := [Text "selected object limit exceeded"].
Definition payload_exceeded : Message := [Text "selected payload byte limit exceeded"].

Definition charge (fuel : Z) : result Message Z := ok_or (checked_u 64 (fuel - 1)) work_exceeded.

Definition check_payload (o : ObjectFile) (total limit : Z) : result Message Z :=
  try_fold (λ total s,
    total ← ok_or (checked_u 64 (total + data_len s)) payload_exceeded;
    _ ← guard_err (total <=? limit) payload_exceeded;
    Ok total) (sections o) total.

(** ** What the selected objects need *)

Definition exported (s : ObjectSymbol) : bool := is_defined s && negb (is_local s).

Definition collect_definitions (objects : list ObjectFile) (fuel : Z)
  : result Message (gset string * Z) :=
  try_fold (λ st o, try_fold (λ '(definitions, fuel) s,
      fuel ← charge fuel;
      Ok (if exported s then {[sym_name s]} ∪ definitions else definitions, fuel)) (symbols o) st)
    objects (∅, fuel).

Definition local_names (o : ObjectFile) : gset string :=
  list_to_set (sym_name <$> filter (λ s, is_local s && is_defined s) (symbols o)).
Definition weak_names (o : ObjectFile) : gset string :=
  list_to_set (sym_name <$> filter (λ s, is_weak s && negb (is_defined s)) (symbols o)).

Definition add_needed (definitions : gset string) (o : ObjectFile) (st : gset string * Z)
    (r : ObjectRelocation) : result Message (gset string * Z) :=
  let '(needed, fuel) := st in
  fuel ← charge fuel;
  Ok (if bool_decide (rel_symbol r ∉ definitions) && bool_decide (rel_symbol r ∉ local_names o)
         && bool_decide (rel_symbol r ∉ weak_names o)
      then {[rel_symbol r]} ∪ needed else needed, fuel).

Definition unresolved (objects : list ObjectFile) (entry : string) (fuel : Z)
  : result Message (gset string * Z) :=
  '(definitions, fuel) ← collect_definitions objects fuel;
  let needed := if decide (entry ∈ definitions) then ∅ else {[entry]} in
  try_fold (λ st o, try_fold (add_needed definitions o) (relocations o) st) objects (needed, fuel).

(** ** Selection *)

(** The symbols of a member up to the first one that meets the demand. *)
Fixpoint scan_symbols (demand : gset string) (ss : list ObjectSymbol) (fuel : Z)
  : result Message (bool * Z) :=
  match ss with
  | [] => Ok (false, fuel)
  | s :: ss =>
      fuel ← charge fuel;
      if exported s && bool_decide (sym_name s ∈ demand) then Ok (true, fuel)
      else scan_symbols demand ss fuel
  end.

(** The first unused member from index [i] on that meets the demand. *)
Fixpoint find_member (demand : gset string) (used : list bool) (i : nat)
    (members : list ArchiveObject) (fuel : Z) : result Message (option nat * Z) :=
  match members with
  | [] => Ok (None, fuel)
  | member :: members =>
      used_i ← expect (used !! i);
      if used_i : bool then find_member demand used (S i) members fuel
      else
        '(found, fuel) ← scan_symbols demand (symbols (member_object member)) fuel;
        if found : bool then Ok (Some i, fuel) else find_member demand used (S i) members fuel
  end.

Record State := mkState { selected : list ObjectFile; work_left : Z; payload : Z }.

(** The rescans of one archive; each turn but the last uses a member, which bounds [turns]. *)
Fixpoint select_archive (turns : nat) (entry : string) (max_bytes : Z)
    (members : list ArchiveObject) (used : list bool) (st : State) : result Message State :=
  match turns with
  | O => Panic
  | S turns =>
      '(demand, fuel) ← unresolved (selected st) entry (work_left st);
      '(found, fuel) ← find_member demand used 0 members fuel;
      match found with
      | None => Ok (mkState (selected st) fuel (payload st))
      | Some index =>
          member ← expect (members !! index);
          total ← check_payload (member_object member) (payload st) max_bytes;
          let sel := selected st ++ [member_object member] in
          _ ← guard_err (bool_decide (length sel ≤ MAX_SELECTED)%nat) objects_exceeded;
          select_archive turns entry max_bytes members (<[index := true]> used)
            (mkState sel fuel total)
      end
  end.

Definition select_input (entry : string) (max_bytes : Z) (st : State) (input : LinkInput.t)
  : result Message State :=
  match input with
  | LinkInput.Object o =>
      _ ← guard_err (negb (bool_decide (MAX_SELECTED ≤ length (selected st))%nat)) objects_exceeded;
      total ← check_payload o (payload st) max_bytes;
      Ok (mkState (selected st ++ [o]) (work_left st) total)
  | LinkInput.Archive members =>
      select_archive (S (length members)) entry max_bytes members
        (replicate (length members) false) st
  end.

Definition select (inputs : list LinkInput.t) (entry : string) (max_bytes : Z)
  : result Message (list ObjectFile) :=
  st ← try_fold (select_input entry max_bytes) inputs (mkState [] SELECTION_WORK 0);
  Ok (selected st).

(** ** What selection prescribes *)

Definition exports (o : ObjectFile) (n : string) : Prop :=
  ∃ s, s ∈ symbols o ∧ exported s = true ∧ sym_name s = n.

(** A name the objects need: one that none of them exports and that is the entry or is referenced by
    an object which neither defines it locally nor declares it weak. *)
Definition needs (entry : string) (objects : list ObjectFile) (n : string) : Prop :=
  (∀ o, o ∈ objects → ¬ exports o n) ∧
  (n = entry ∨ ∃ o r, o ∈ objects ∧ r ∈ relocations o ∧ rel_symbol r = n
                       ∧ n ∉ local_names o ∧ n ∉ weak_names o).

Definition wanted (entry : string) (objects : list ObjectFile) (o : ObjectFile) : Prop :=
  ∃ n, exports o n ∧ needs entry objects n.

(** One turn: the first member not yet used that is wanted joins the selection. *)
Inductive pull (entry : string) (members : list ArchiveObject)
  : list bool * list ObjectFile → list bool * list ObjectFile → Prop :=
  | pull_member used sel i m :
      members !! i = Some m → used !! i = Some false → wanted entry sel (member_object m) →
      (∀ j m', (j < i)%nat → members !! j = Some m' → used !! j = Some false →
        ¬ wanted entry sel (member_object m')) →
      pull entry members (used, sel) (<[i := true]> used, sel ++ [member_object m]).

(** No member left is wanted. *)
Definition closed (entry : string) (members : list ArchiveObject) (used : list bool)
    (sel : list ObjectFile) : Prop :=
  ∀ i m, members !! i = Some m → used !! i = Some false → ¬ wanted entry sel (member_object m).

Inductive selects (entry : string) : list ObjectFile → list LinkInput.t → list ObjectFile → Prop :=
  | selects_nil sel : selects entry sel [] sel
  | selects_object sel o inputs res :
      selects entry (sel ++ [o]) inputs res →
      selects entry sel (LinkInput.Object o :: inputs) res
  | selects_archive sel members used sel' inputs res :
      rtc (pull entry members) (replicate (length members) false, sel) (used, sel') →
      closed entry members used sel' → selects entry sel' inputs res →
      selects entry sel (LinkInput.Archive members :: inputs) res.

(** ** What selection costs

    A unit of work is a symbol or a relocation of an object already selected, or a symbol of an
    unused member, read up to the first one that meets the demand. *)

Definition needed_names (entry : string) (objects : list ObjectFile) : gset string :=
  ({[entry]} ∪ list_to_set (objects ≫= λ o, rel_symbol <$>
     filter (λ r, rel_symbol r ∉ local_names o ∧ rel_symbol r ∉ weak_names o) (relocations o)))
  ∖ list_to_set (objects ≫= λ o, sym_name <$> filter (λ s, exported s = true) (symbols o)).

Definition meeting (demand : gset string) (s : ObjectSymbol) : bool :=
  exported s && bool_decide (sym_name s ∈ demand).
Fixpoint scan_work (demand : gset string) (ss : list ObjectSymbol) : nat :=
  match ss with
  | [] => 0
  | s :: ss => S (if meeting demand s then 0 else scan_work demand ss)
  end.
Fixpoint members_work (demand : gset string) (used : list bool) (members : list ArchiveObject) : nat :=
  match used, members with
  | true :: used, _ :: members => members_work demand used members
  | false :: used, m :: members =>
      scan_work demand (symbols (member_object m)) +
      (if existsb (meeting demand) (symbols (member_object m)) then 0
       else members_work demand used members)
  | _, _ => 0
  end.
Definition names_work (objects : list ObjectFile) : nat :=
  length (objects ≫= symbols) + length (objects ≫= relocations).
Definition turn_work (entry : string) (members : list ArchiveObject) (used : list bool)
    (sel : list ObjectFile) : nat :=
  names_work sel + members_work (needed_names entry sel) used members.

(** A turn that takes a member, with the work done so far. *)
Inductive turn (entry : string) (members : list ArchiveObject)
  : list bool * list ObjectFile * nat → list bool * list ObjectFile * nat → Prop :=
  | turn_pull used sel used' sel' w :
      pull entry members (used, sel) (used', sel') →
      turn entry members (used, sel, w) (used', sel', w + turn_work entry members used sel)%nat.

(** The prescribed selection with its work; an archive ends with the turn that finds nothing. *)
Inductive selects_with (entry : string)
  : list ObjectFile * nat → list LinkInput.t → list ObjectFile * nat → Prop :=
  | selects_with_nil s : selects_with entry s [] s
  | selects_with_object sel w o inputs res :
      selects_with entry (sel ++ [o], w) inputs res →
      selects_with entry (sel, w) (LinkInput.Object o :: inputs) res
  | selects_with_archive sel w members used sel' w' inputs res :
      rtc (turn entry members) (replicate (length members) false, sel, w) (used, sel', w') →
      closed entry members used sel' →
      selects_with entry (sel', w' + turn_work entry members used sel')%nat inputs res →
      selects_with entry (sel, w) (LinkInput.Archive members :: inputs) res.

(** The turns of some archive of the inputs take more than the work budget of ten million units. *)
Definition overworked (entry : string) (inputs : list LinkInput.t) : Prop :=
  ∃ done members rest sel0 w0 used sel w,
    inputs = done ++ LinkInput.Archive members :: rest ∧
    selects_with entry ([], 0%nat) done (sel0, w0) ∧
    rtc (turn entry members) (replicate (length members) false, sel0, w0) (used, sel, w) ∧
    10000000 < Z.of_nat (w + turn_work entry members used sel).

Lemma turns_pulls entry members a b :
  rtc (turn entry members) a b → rtc (pull entry members) a.1 b.1.
Proof. induction 1 as [|? ? ? []]; [done|by eapply rtc_l]. Qed.
Lemma selects_with_selects entry a inputs b : selects_with entry a inputs b → selects entry a.1 inputs b.1.
Proof. induction 1; [constructor|by constructor|]. econstructor; [by apply turns_pulls in H|done|done]. Qed.

Lemma needed_names_spec entry objects n : n ∈ needed_names entry objects ↔ needs entry objects n.
Proof.
  unfold needed_names, needs, exports.
  rewrite elem_of_difference, elem_of_union, elem_of_singleton, !elem_of_list_to_set, !list_elem_of_bind.
  setoid_rewrite list_elem_of_fmap. setoid_rewrite list_elem_of_filter. split.
  - intros [[->|(o & (r & -> & [? ?] & ?) & ?)] Hn]; (split; [naive_solver|]); [by left|].
    right. by exists o, r.
  - intros [Hn [->|(o & r & ? & ? & <- & ? & ?)]]; (split; [|naive_solver]); [by left|].
    right. exists o. split; [|done]. by exists r.
Qed.

(** ** The helpers *)

(** What is left of [fuel] after [n] units, and a failure to pay them. *)
Definition spent (fuel : Z) (n : nat) (fuel' : Z) : Prop := fuel' = fuel - Z.of_nat n ∧ 0 ≤ fuel'.
Definition unpaid (fuel : Z) (n : nat) (e : Message) : Prop := e = work_exceeded ∧ fuel < Z.of_nat n.

Lemma charge_yields fuel : 0 ≤ fuel < 2 ^ 64 → yields (unpaid fuel 1) (charge fuel) (spent fuel 1).
Proof.
  intros Hf. apply yields_ok_or.
  - intros Hn%checked_u_None. split; [done|lia].
  - intros f [-> ?]%checked_u_Some. split; lia.
Qed.

Lemma collect_definitions_yields objects fuel :
  0 ≤ fuel < 2 ^ 64 →
  yields (unpaid fuel (length (objects ≫= symbols))) (collect_definitions objects fuel)
    (λ st, spent fuel (length (objects ≫= symbols)) st.2
           ∧ ∀ n, n ∈ st.1 ↔ ∃ o, o ∈ objects ∧ exports o n).
Proof.
  intros Hfuel. unfold collect_definitions. rewrite try_fold_join.
  eapply yields_mono, (try_fold_yields _ _ (λ done (st : gset string * Z),
    spent fuel (length done) st.2 ∧ ∀ n, n ∈ st.1 ↔ ∃ s, s ∈ done ∧ exported s = true ∧ sym_name s = n)).
  - done.
  - simpl. intros st [Hf Hst]. split; [done|]. intros n. rewrite Hst. split.
    + intros (s & (o & Hs & Ho)%list_elem_of_bind & He & Hn). exists o. split; [done|]. by exists s.
    + intros (o & Ho & s & Hs & He & Hn). exists s. split; [|done]. apply list_elem_of_bind. by exists o.
  - split; [split; simpl; lia|]. intros n. simpl.
    split; [by intros ?%not_elem_of_empty|by intros (? & ?%not_elem_of_nil & _)].
  - intros done s rest [defs fuel'] Hlist [[Hf ?] Hst]. simpl in Hf, Hst |- *. apply yields_bind.
    eapply yields_mono, charge_yields; [| |simpl in *; lia].
    + intros e [-> ?]. split; [done|]. rewrite Hlist, length_app. simpl. lia.
    + intros fuel'' [-> ?]. split; [split; simpl; rewrite ?length_app; simpl; lia|]. simpl. intros n.
      rewrite (exists_snoc (λ s, exported s = true ∧ sym_name s = n)), <- Hst.
      destruct (exported s) eqn:E; [rewrite elem_of_union, elem_of_singleton|]; naive_solver.
Qed.

Lemma length_pairs (objects : list ObjectFile) :
  length (objects ≫= λ o, pair o <$> relocations o) = length (objects ≫= relocations).
Proof. induction objects as [|o objects IH]; csimpl; [done|]. by rewrite !length_app, length_fmap, IH. Qed.

(** The names needed among the relocations passed so far. *)
Definition lacking (defs : gset string) (entry : string) (done : list (ObjectFile * ObjectRelocation))
    (n : string) : Prop :=
  n ∉ defs ∧ (n = entry ∨ ∃ p, p ∈ done ∧ rel_symbol p.2 = n ∧ n ∉ local_names p.1 ∧ n ∉ weak_names p.1).

Lemma add_needed_yields defs entry done o r needed fuel :
  0 ≤ fuel < 2 ^ 64 → (∀ n, n ∈ needed ↔ lacking defs entry done n) →
  yields (unpaid fuel 1) (add_needed defs o (needed, fuel) r)
    (λ st, spent fuel 1 st.2 ∧ ∀ n, n ∈ st.1 ↔ lacking defs entry (done ++ [(o, r)]) n).
Proof.
  intros Hfuel Hst. apply yields_bind. eapply yields_mono, charge_yields; [done| |done].
  intros fuel' Hspent. split; [done|]. simpl. intros n. unfold lacking in *.
  rewrite (exists_snoc (λ p, rel_symbol p.2 = n ∧ n ∉ local_names p.1 ∧ n ∉ weak_names p.1)). simpl.
  set (p := _ && _). assert (p = true ↔ rel_symbol r ∉ defs ∧ rel_symbol r ∉ local_names o
    ∧ rel_symbol r ∉ weak_names o) as Hp.
  { subst p. rewrite !andb_true_iff, !bool_decide_eq_true. tauto. }
  specialize (Hst n). destruct p.
  - rewrite elem_of_union, elem_of_singleton, Hst. destruct (proj1 Hp eq_refl) as (H1 & H2 & H3).
    split; [intros [->|?]|]; tauto || intuition congruence.
  - rewrite Hst. assert (¬ (rel_symbol r = n ∧ n ∉ local_names o ∧ n ∉ weak_names o ∧ n ∉ defs)).
    { intros (<- & ? & ? & ?). by assert (false = true) by by apply Hp. }
    tauto.
Qed.

Lemma unresolved_yields objects entry fuel :
  0 ≤ fuel < 2 ^ 64 →
  yields (unpaid fuel (names_work objects)) (unresolved objects entry fuel)
    (λ st, st.1 = needed_names entry objects ∧ spent fuel (names_work objects) st.2).
Proof.
  intros Hfuel. unfold unresolved, names_work. apply yields_bind.
  eapply yields_mono, collect_definitions_yields; [intros e []; split; [done|lia]| |done].
  intros [defs fuel'] [[Hf' Hf] Hdefs]. simpl in Hdefs, Hf', Hf.
  set (needed0 := if decide (entry ∈ defs) then ∅ else {[entry]} : gset string).
  replace (try_fold (λ st o, try_fold (add_needed defs o) (relocations o) st) objects (needed0, fuel'))
    with (try_fold (λ st p, add_needed defs p.1 st p.2)
            (objects ≫= λ o, pair o <$> relocations o) (needed0, fuel')).
  2: { rewrite <- try_fold_join. apply try_fold_ext. intros st o. by rewrite try_fold_fmap. }
  eapply yields_mono, (try_fold_yields _ _ (λ done (st : gset string * Z),
    spent fuel' (length done) st.2 ∧ ∀ n, n ∈ st.1 ↔ lacking defs entry done n)).
  - done.
  - simpl. intros st [[Hl ?] Hst]. rewrite length_pairs in Hl. split; [|split; lia].
    apply set_eq. intros n. rewrite Hst, needed_names_spec. unfold lacking, needs. rewrite Hdefs.
    setoid_rewrite list_elem_of_bind. setoid_rewrite list_elem_of_fmap. split.
    + intros [Hn [->|([o r] & (o' & (r' & [= -> ->] & Hr) & Ho) & Heq & Hl' & Hw)]]; (split; [naive_solver|]).
      * by left.
      * right. exists o', r'. simpl in *. done.
    + intros [Hn [->|(o & r & Ho & Hr & Heq & Hl' & Hw)]]; (split; [naive_solver|]).
      * by left.
      * right. exists (o, r). simpl. split; [|done]. exists o. split; [|done]. by exists r.
  - split; [split; simpl; lia|]. simpl. intros n. subst needed0. unfold lacking. split.
    + case_decide as He; [by intros ?%not_elem_of_empty|intros ->%elem_of_singleton]. auto.
    + intros [Hn [->|(? & ?%not_elem_of_nil & _)]]; [|done]. rewrite decide_False by done.
      by apply elem_of_singleton.
  - intros done [o r] rest [needed fuel''] Hlist [[Hf2 ?] Hst]. simpl in Hf2, Hst |- *.
    apply (f_equal length) in Hlist. rewrite length_pairs, length_app in Hlist. simpl in *.
    eapply yields_mono, add_needed_yields; [intros e [-> ?]; split; [done|lia]| |lia|done].
    intros st [[? ?] Hst']. split; [|done]. split; rewrite ?length_app; simpl; lia.
Qed.

Definition meets (demand : gset string) (o : ObjectFile) : Prop :=
  ∃ s, s ∈ symbols o ∧ exported s = true ∧ sym_name s ∈ demand.

Lemma meets_wanted entry sel o : meets (needed_names entry sel) o ↔ wanted entry sel o.
Proof. unfold meets, wanted, exports. setoid_rewrite <- needed_names_spec. naive_solver. Qed.

Lemma meets_existsb demand o : meets demand o ↔ existsb (meeting demand) (symbols o) = true.
Proof.
  unfold meets, meeting. rewrite existsb_exists. split.
  - intros (s & Hs & He & Hd). exists s. split; [by apply list_elem_of_In|]. rewrite He. by apply bool_decide_eq_true.
  - intros (s & Hs & [He Hd%bool_decide_eq_true]%andb_true_iff). exists s. by rewrite list_elem_of_In.
Qed.

Lemma scan_symbols_yields demand ss fuel :
  0 ≤ fuel < 2 ^ 64 →
  yields (unpaid fuel (scan_work demand ss)) (scan_symbols demand ss fuel)
    (λ st, st.1 = existsb (meeting demand) ss ∧ spent fuel (scan_work demand ss) st.2).
Proof.
  revert fuel. induction ss as [|s ss IH]; intros fuel Hfuel; cbn [scan_symbols scan_work existsb].
  { split; [done|]. split; simpl; lia. }
  apply yields_bind. eapply yields_mono, charge_yields; [intros e []; split; [done|lia]| |done].
  intros fuel' [-> ?]. fold (meeting demand s). destruct (meeting demand s); cbn [orb].
  - split; [done|]. split; simpl in *; lia.
  - eapply yields_mono, IH; [| |lia].
    + intros e [-> ?]. split; [done|lia].
    + intros st (-> & ? & ?). split; [done|]. split; lia.
Qed.

(** The first unused member at or after [i] that meets the demand. *)
Definition first_meeting (demand : gset string) (used : list bool) (i : nat)
    (members : list ArchiveObject) (found : option nat) : Prop :=
  let skipped j := ∀ m, members !! (j - i)%nat = Some m → used !! j = Some false →
                     ¬ meets demand (member_object m) in
  match found with
  | Some k => (i ≤ k)%nat ∧ used !! k = Some false
      ∧ (∃ m, members !! (k - i)%nat = Some m ∧ meets demand (member_object m))
      ∧ (∀ j, (i ≤ j < k)%nat → skipped j)
  | None => ∀ j, (i ≤ j)%nat → skipped j
  end.

Lemma first_meeting_further demand used i m members found :
  (used !! i = Some false → ¬ meets demand (member_object m)) →
  first_meeting demand used (S i) members found → first_meeting demand used i (m :: members) found.
Proof.
  intros Hm. assert (∀ j, (S i ≤ j)%nat → (m :: members) !! (j - i)%nat = members !! (j - S i)%nat) as Hj.
  { intros j ?. by replace (j - i)%nat with (S (j - S i)) by lia. }
  assert (∀ j, (i ≤ j)%nat → j ≠ i → (S i ≤ j)%nat) as Hi by lia.
  destruct found as [k|]; simpl.
  - intros (Hk & Hu & (m' & Hm' & Hmeet) & Hskip). split; [lia|]. split; [done|]. split.
    { exists m'. by rewrite Hj. }
    intros j ? m''. destruct (decide (j = i)) as [->|].
    + rewrite Nat.sub_diag. simpl. naive_solver.
    + rewrite Hj by lia. apply Hskip. lia.
  - intros Hskip j ? m''. destruct (decide (j = i)) as [->|].
    + rewrite Nat.sub_diag. simpl. naive_solver.
    + rewrite Hj by lia. apply Hskip. lia.
Qed.

Lemma find_member_yields demand used i members fuel :
  length used = (i + length members)%nat → 0 ≤ fuel < 2 ^ 64 →
  yields (unpaid fuel (members_work demand (drop i used) members))
    (find_member demand used i members fuel)
    (λ st, first_meeting demand used i members st.1
           ∧ spent fuel (members_work demand (drop i used) members) st.2).
Proof.
  revert i fuel. induction members as [|m members IH]; intros i fuel Hlen Hfuel; simpl.
  { split; [by intros j _ m|]. destruct (drop i used) as [|[]]; split; simpl; lia. }
  simpl in Hlen. destruct (lookup_lt_is_Some_2 used i) as [b Hb]; [lia|]. rewrite Hb. simpl.
  rewrite (drop_S _ _ _ Hb). assert (length used = S i + length members)%nat as Hlen' by lia.
  destruct b; cbn [members_work].
  { eapply yields_mono, IH; [done| |done|done]. intros st [? ?]. split; [|done].
    apply first_meeting_further; [congruence|done]. }
  apply yields_bind. eapply yields_mono, scan_symbols_yields; [intros e []; split; [done|lia]| |done].
  intros [found fuel'] (Hfound & Hl & ?). simpl in *. subst fuel'. rewrite <- Hfound. destruct found.
  - split; [|split; [simpl; lia|done]]. simpl. split; [done|]. split; [done|]. rewrite Nat.sub_diag.
    split; [|intros j ?; lia]. exists m. split; [done|]. by apply meets_existsb.
  - eapply yields_mono, IH; [| |done|lia].
    + intros e [-> ?]. split; [done|lia].
    + intros st (Hfirst & ? & ?). split; [|split; lia]. apply first_meeting_further; [|done].
      intros _ Hm%meets_existsb. congruence.
Qed.

Lemma check_payload_yields o total limit :
  0 ≤ total ≤ limit → limit < 2 ^ 64 →
  yields (λ e, e = payload_exceeded ∧ limit < total + payload_of [o]) (check_payload o total limit)
    (λ total', total' = total + payload_of [o] ∧ total' ≤ limit).
Proof.
  intros Ht Hl. unfold check_payload, payload_of. simpl. rewrite Z.add_0_r.
  assert (∀ ss, 0 ≤ foldr (λ s k, data_len s + k) 0 ss) as Hpos.
  { induction ss as [|s ss IH]; simpl; [done|]. pose proof (data_len_nonneg s). lia. }
  revert total Ht. induction (sections o) as [|s ss IH]; intros total Ht; simpl; [lia|].
  specialize (Hpos ss). pose proof (data_len_nonneg s).
  destruct (checked_u 64 (total + data_len s)) as [t|] eqn:E; simpl.
  2: { apply checked_u_None in E. split; [done|]. lia. }
  apply checked_u_Some in E as [-> E]. unfold guard_err.
  destruct (Z.leb_spec (total + data_len s) limit); simpl; [|split; [done|lia]].
  eapply yields_mono, IH; [| |lia]; simpl; [intros e [-> ?]|intros t [-> ?]]; (split; [done||lia|lia]).
Qed.

(** ** Turns *)

Definition unused (used : list bool) : nat := length (filter (λ b, b = false) used).

Lemma unused_insert used i : used !! i = Some false → unused used = S (unused (<[i := true]> used)).
Proof.
  unfold unused. revert i. induction used as [|b used IH]; intros [|i]; simpl; try done.
  - intros [= ->]. by rewrite filter_cons_True, filter_cons_False.
  - intros Hi. specialize (IH i Hi). destruct b.
    + by rewrite !filter_cons_False.
    + rewrite !filter_cons_True by done. simpl. lia.
Qed.

Lemma unused_le used : (unused used ≤ length used)%nat.
Proof. unfold unused. apply length_filter. Qed.

(** An error names a limit that the prescribed selection exceeds. *)
Definition selection_error (over : Prop) (reached : list ObjectFile → Prop) (max_bytes : Z)
    (e : Message) : Prop :=
  (e = work_exceeded ∧ over)
  ∨ (e = objects_exceeded ∧ ∃ sel, reached sel ∧ (MAX_SELECTED < length sel)%nat)
  ∨ (e = payload_exceeded ∧ ∃ sel, reached sel ∧ max_bytes < payload_of sel).

Lemma selection_error_mono (O O' : Prop) (P Q : list ObjectFile → Prop) max_bytes e :
  (O → O') → (∀ sel, P sel → Q sel) → selection_error O P max_bytes e → selection_error O' Q max_bytes e.
Proof. unfold selection_error. naive_solver. Qed.

Record within (max_bytes : Z) (w : nat) (st : State) : Prop := {
  wi_left : work_left st = SELECTION_WORK - Z.of_nat w;
  wi_work : Z.of_nat w ≤ SELECTION_WORK;
  wi_payload : payload st = payload_of (selected st);
  wi_bytes : payload st ≤ max_bytes;
  wi_objects : (length (selected st) ≤ MAX_SELECTED)%nat;
}.

Section turns.
Context (entry : string) (max_bytes : Z) (members : list ArchiveObject).
Context (Hmax : 0 ≤ max_bytes < 2 ^ 64).
#[local] Set Default Proof Using "Type*".

(** What the turns from a state on lead to. *)
Definition turns_error (used : list bool) (sel : list ObjectFile) (w : nat) : Message → Prop :=
  selection_error
    (∃ used' sel' w', rtc (turn entry members) (used, sel, w) (used', sel', w') ∧
       SELECTION_WORK < Z.of_nat (w' + turn_work entry members used' sel'))
    (λ sel', ∃ used', rtc (pull entry members) (used, sel) (used', sel')) max_bytes.

Lemma turns_error_step used sel used' sel' w e :
  pull entry members (used, sel) (used', sel') →
  turns_error used' sel' (w + turn_work entry members used sel) e → turns_error used sel w e.
Proof.
  intros Hpull. apply selection_error_mono.
  - intros (u & s & w' & Hrtc & Hw). exists u, s, w'. split; [|done]. eapply rtc_l; [by constructor|done].
  - intros s [u Hrtc]. exists u. by eapply rtc_l.
Qed.

(** The search for the first wanted member, and its cost. *)
Lemma turn_search used st w :
  length used = length members → within max_bytes w st →
  yields (turns_error used (selected st) w)
    ('(demand, fuel) ← unresolved (selected st) entry (work_left st);
     find_member demand used 0 members fuel)
    (λ p, first_meeting (needed_names entry (selected st)) used 0 members p.1 ∧
       spent SELECTION_WORK (w + turn_work entry members used (selected st)) p.2).
Proof.
  intros Hlen [Hleft Hwork _ _ _]. unfold turns_error, turn_work.
  assert (∀ n fuel e, unpaid fuel n e → (fuel = SELECTION_WORK - Z.of_nat w - Z.of_nat (names_work (selected st)) ∧
      n = members_work (needed_names entry (selected st)) used members ∨
      fuel = SELECTION_WORK - Z.of_nat w ∧ n = names_work (selected st)) →
    turns_error used (selected st) w e) as Herr.
  { intros n fuel e [-> ?] Hn. left. split; [done|]. exists used, (selected st), w.
    split; [done|]. unfold turn_work. lia. }
  unfold SELECTION_WORK in *. apply yields_bind.
  eapply yields_mono, unresolved_yields; [intros e He; eapply Herr; [exact He|lia]| |lia].
  intros [demand fuel] (Hdemand & Hfuel & ?). simpl in *. subst demand.
  eapply yields_mono, find_member_yields; [intros e He; eapply Herr; [exact He|rewrite drop_0; lia]| |done|lia].
  rewrite drop_0. intros p (? & ? & ?). split; [done|]. split; lia.
Qed.

Lemma select_archive_yields turns used st w :
  (unused used < turns)%nat → length used = length members → within max_bytes w st →
  yields (turns_error used (selected st) w)
    (select_archive turns entry max_bytes members used st)
    (λ st', ∃ used' w',
       rtc (turn entry members) (used, selected st, w) (used', selected st', w')
       ∧ closed entry members used' (selected st')
       ∧ within max_bytes (w' + turn_work entry members used' (selected st')) st').
Proof.
  revert used st w. induction turns as [|turns IH]; intros used st w Hturns Hlen Hst; [lia|].
  cbn [select_archive]. pose proof (turn_search used st w Hlen Hst) as Hsearch.
  destruct (unresolved (selected st) entry (work_left st)) as [[demand fuel]|e|];
    cbn [mbind result_bind] in Hsearch |- *; [|done..].
  destruct (find_member demand used 0 members fuel) as [[found fuel']|e|];
    cbn [mbind result_bind yields fst snd] in Hsearch |- *; [|done..].
  destruct Hsearch as [Hfirst [Hfuel Hpos]]. destruct Hst as [_ _ Hpay Hbytes Hobjs].
  destruct found as [i|]; cbn [first_meeting] in Hfirst.
  - destruct Hfirst as (_ & Hu & (m & Hm & Hmeet) & Hskip). rewrite Nat.sub_0_r in Hm.
    assert (pull entry members (used, selected st)
              (<[i := true]> used, selected st ++ [member_object m])) as Hpull.
    { constructor; [done|done|by apply meets_wanted|]. intros j m' ? Hj ? Hw.
      eapply (Hskip j); [lia|by rewrite Nat.sub_0_r|done|]. by apply meets_wanted. }
    rewrite Hm. cbn [expect mbind result_bind]. apply yields_bind.
    pose proof (payload_of_nonneg (selected st)).
    eapply yields_mono, check_payload_yields; [| |lia|lia].
    { intros e [-> He]. right; right. split; [done|]. eexists. split; [eexists; by apply rtc_once|].
      rewrite payload_of_snoc. lia. }
    intros total [-> Htotal]. cbv zeta. apply yields_bind, yields_guard.
    { intros Hb%bool_decide_eq_false. right; left. split; [done|].
      eexists. split; [eexists; by apply rtc_once|lia]. }
    intros Hb%bool_decide_eq_true.
    eapply yields_mono, (IH _ _ (w + turn_work entry members used (selected st))%nat); cbn [selected payload].
    + intros e. by apply turns_error_step.
    + intros st' (used' & w' & Hrtc & Hcl). exists used', w'. split; [|done].
      eapply rtc_l; [by constructor|done].
    + pose proof (unused_insert _ _ Hu). lia.
    + by rewrite length_insert.
    + split; cbn [selected payload work_left]; [lia|lia|rewrite payload_of_snoc; lia|lia|done].
  - exists used, w. split; [done|]. cbn [selected]. split.
    + intros j m Hj Huj Hw. eapply (Hfirst j); [lia|by rewrite Nat.sub_0_r|done|]. by apply meets_wanted.
    + split; cbn [selected payload work_left]; [lia|lia|done|done|done].
Qed.
End turns.

(** ** The whole selection *)

(** What is selected while one input is taken, and the states the whole selection goes through. *)
Definition taking (entry : string) (sel0 : list ObjectFile) (input : LinkInput.t)
    (sel : list ObjectFile) : Prop :=
  match input with
  | LinkInput.Object o => sel = sel0 ++ [o]
  | LinkInput.Archive members =>
      ∃ used, rtc (pull entry members) (replicate (length members) false, sel0) (used, sel)
  end.
Definition reaches (entry : string) (inputs : list LinkInput.t) (sel : list ObjectFile) : Prop :=
  ∃ done input rest sel0, inputs = done ++ input :: rest ∧ selects entry [] done sel0
    ∧ taking entry sel0 input sel.

Lemma selects_with_snoc entry a inputs b input c :
  selects_with entry a inputs b → selects_with entry b [input] c → selects_with entry a (inputs ++ [input]) c.
Proof.
  intros H1. revert c. induction H1; intros c H2; simpl; [done|constructor; auto|].
  econstructor; eauto.
Qed.

(** The work while one input is taken. *)
Definition overtaking (entry : string) (sel0 : list ObjectFile) (w0 : nat) (input : LinkInput.t) : Prop :=
  match input with
  | LinkInput.Object _ => False
  | LinkInput.Archive members => ∃ used sel w,
      rtc (turn entry members) (replicate (length members) false, sel0, w0) (used, sel, w) ∧
      SELECTION_WORK < Z.of_nat (w + turn_work entry members used sel)
  end.

Lemma select_input_yields entry max_bytes st w input :
  0 ≤ max_bytes < 2 ^ 64 → within max_bytes w st →
  yields (selection_error (overtaking entry (selected st) w input) (taking entry (selected st) input) max_bytes)
    (select_input entry max_bytes st input)
    (λ st', ∃ w', within max_bytes w' st' ∧ selects_with entry (selected st, w) [input] (selected st', w')).
Proof.
  intros Hmax Hst. destruct input as [o|members]; cbn [select_input taking overtaking].
  - destruct Hst as [Hleft Hwork Hpay Hbytes Hobjs]. apply yields_bind, yields_guard.
    { intros Hb%negb_false_iff%bool_decide_eq_true. right; left. split; [done|].
      eexists. split; [done|]. rewrite length_app. cbn [length]. lia. }
    intros Hb%negb_true_iff%bool_decide_eq_false. apply yields_bind.
    pose proof (payload_of_nonneg (selected st)).
    eapply yields_mono, check_payload_yields; [| |lia|lia].
    { intros e [-> He]. right; right. split; [done|]. eexists. split; [done|].
      rewrite payload_of_snoc. lia. }
    intros total [-> Htotal]. exists w. split; [|cbn [selected]; by do 2 constructor].
    split; cbn [selected payload work_left]; [done|done|rewrite payload_of_snoc; lia|lia|].
    rewrite length_app. cbn [length]. lia.
  - eapply yields_mono, select_archive_yields; [done| |done| |by rewrite length_replicate|done].
    + intros st' (used & w' & Hrtc & Hcl & Hin). eexists. split; [exact Hin|].
      econstructor; [done..|constructor].
    + pose proof (unused_le (replicate (length members) false)). rewrite length_replicate in H. lia.
Qed.

Lemma select_yields inputs entry max_bytes :
  0 ≤ max_bytes < 2 ^ 64 →
  yields (selection_error (overworked entry inputs) (reaches entry inputs) max_bytes)
    (select inputs entry max_bytes)
    (λ res, (∃ w, selects_with entry ([], 0%nat) inputs (res, w) ∧ Z.of_nat w ≤ SELECTION_WORK)
            ∧ payload_of res ≤ max_bytes ∧ (length res ≤ MAX_SELECTED)%nat).
Proof.
  intros Hmax. unfold select. apply yields_bind.
  eapply yields_mono, (try_fold_yields _ _
    (λ done st, ∃ w, within max_bytes w st ∧ selects_with entry ([], 0%nat) done (selected st, w))).
  - done.
  - intros st (w & [Hl Hw Hp Hb Ho] & Hs). cbn. split; [by exists w|]. split; [lia|done].
  - exists 0%nat. split; [|constructor].
    split; cbn [selected payload work_left]; [lia|unfold SELECTION_WORK; lia|done|lia|apply Nat.le_0_l].
  - intros done input rest st Heq (w & Hw & Hs). eapply yields_mono, select_input_yields; [| |done..].
    + intros e. apply selection_error_mono.
      * destruct input as [|members]; [done|]. intros (used & sel & w' & ? & ?).
        by exists done, members, rest, (selected st), w, used, sel, w'.
      * intros sel Hsel. exists done, input, rest, (selected st). split; [done|].
        by apply selects_with_selects in Hs.
    + intros st' (w' & Hw' & Hs'). exists w'. split; [done|]. by eapply selects_with_snoc.
Qed.

(** ** The selection is unique *)

Lemma pull_deterministic entry members s a b : pull entry members s a → pull entry members s b → a = b.
Proof.
  intros [used sel i m Hm Hu Hw Hfirst] Hb. inversion Hb as [? ? j m' Hm' Hu' Hw' Hfirst']; subst.
  destruct (Nat.lt_trichotomy i j) as [Hlt|[->|Hlt]].
  - by destruct (Hfirst' i m Hlt Hm Hu).
  - by rewrite Hm in Hm'; injection Hm' as ->.
  - by destruct (Hfirst j m' Hlt Hm' Hu').
Qed.

Lemma closed_no_pull entry members used sel s :
  closed entry members used sel → ¬ pull entry members (used, sel) s.
Proof. intros Hcl Hp. inversion Hp; subst. by eapply Hcl. Qed.

Lemma closed_unique entry members s a b :
  rtc (pull entry members) s a → closed entry members a.1 a.2 →
  rtc (pull entry members) s b → closed entry members b.1 b.2 → a = b.
Proof.
  intros Ha Hca. induction Ha as [[u sel]|s s' a Hp _ IH]; intros Hb Hcb.
  - inversion Hb as [|? s' ? Hp]; [done|]; subst. by apply closed_no_pull in Hp.
  - apply IH; [done| |done]. inversion Hb as [|? s'' ? Hp' Hb']; subst.
    + destruct b as [u sel]. by apply closed_no_pull in Hp.
    + by rewrite (pull_deterministic _ _ _ _ _ Hp Hp').
Qed.

Lemma selects_deterministic entry sel inputs a b :
  selects entry sel inputs a → selects entry sel inputs b → a = b.
Proof.
  intros Ha. revert b. induction Ha as [|sel o inputs res Ha IH|sel members used sel' inputs res Hr Hc Ha IH];
    intros b Hb; inversion Hb as [| |? ? used2 sel2 ? ? Hr2 Hc2 Hb2]; subst; [done|auto|].
  pose proof (closed_unique _ _ _ _ _ Hr Hc Hr2 Hc2) as [= <- <-]. auto.
Qed.

(** C22: Selection never panics.  What it returns is the one list of objects the rules of archives
    prescribe, the inputs in order and from each archive, again and again, its first unused member
    that exports a needed symbol, until none does; that list keeps the limits, and the symbols and
    relocations read to find it are at most ten million.  An error names a limit that the
    prescribed selection does exceed: the number of objects, their bytes, or the work of its turns. *)
Theorem select_exact inputs entry max_bytes (Hmax : 0 ≤ max_bytes < 2 ^ 64) :
  match select inputs entry max_bytes with
  | Ok res => selects entry [] inputs res ∧ (∀ res', selects entry [] inputs res' → res' = res)
      ∧ payload_of res ≤ max_bytes ∧ (length res ≤ MAX_SELECTED)%nat
      ∧ ∃ w, selects_with entry ([], 0%nat) inputs (res, w) ∧ Z.of_nat w ≤ 10000000
  | Err e => selection_error (overworked entry inputs) (reaches entry inputs) max_bytes e
  | Panic => False
  end.
Proof.
  pose proof (select_yields inputs entry max_bytes Hmax) as Hy.
  destruct (select inputs entry max_bytes) as [res|e|]; [|done..].
  destruct Hy as ((w & Hs & Hw) & Hb & Hl). assert (Hs' := selects_with_selects _ _ _ _ Hs). split; [done|].
  split; [|split; [done|split; [done|by exists w]]].
  intros res' Hres. by eapply selects_deterministic.
Qed.

Definition sample_inputs : list LinkInput.t :=
  [LinkInput.Object sample_main;
   LinkInput.Archive [mkMember "spare.o" sample_spare; mkMember "callee.o" sample_library]].

(** Only the member that defines the symbol called is taken from the archive. *)
Example sample_selected : select sample_inputs "_start" 100000 = Ok sample_objects.
Proof. by vm_compute. Qed.

Lemma select_exact_witness :
  select sample_inputs "_start" 100000 = Ok sample_objects ∧
  (∃ w, selects_with "_start" ([], 0%nat) sample_inputs (sample_objects, w) ∧ Z.of_nat w ≤ 10000000) ∧
  (select sample_inputs "_start" 10 = Err payload_exceeded ∧
   ∃ sel, reaches "_start" sample_inputs sel ∧ 10 < payload_of sel).
Proof.
  assert (select sample_inputs "_start" 100000 = Ok sample_objects) as Hs by (vm_compute; reflexivity).
  split; [exact Hs|]. split.
  - pose proof (select_exact sample_inputs "_start" 100000 ltac:(lia)) as Hy. rewrite Hs in Hy. apply Hy.
  - assert (select sample_inputs "_start" 10 = Err payload_exceeded) as He by (vm_compute; reflexivity).
    split; [exact He|]. pose proof (select_exact sample_inputs "_start" 10 ltac:(lia)) as Hy. rewrite He in Hy.
    by destruct Hy as [[? _]|[[? _]|[_ ?]]].
Defined.
