(* ===== verification/LinkLayout.v ===== *)
(** * Placement of sections ([linker/src/core/layout.rs], [executable_layout] of [executable.rs])

    Where each input section goes in memory and in the file: the payload layout, and the layout of an
    executable with its load segments. *)
From S2P Require Export SymbolTable.
Local Open Scope Z_scope.

(** ** Data *)

Record SectionPlacement := mkPlacement {
  pl_object : nat;
  pl_section : nat;
  pl_kind : SectionKind.t;
  pl_align : Z;
  pl_file_offset : Z;
  pl_address : Z;
  pl_file_size : Z;
  pl_memory_size : Z;
}.

Record Layout := mkLayout {
  section_offsets : list (list Z);
  section_sizes : list Z;
  placements : list SectionPlacement;
  base_address : Z;
  lay_file_size : Z;
  lay_memory_size : Z;
}.

Record Segment := mkSegment {
  seg_flags : Z;
  seg_offset : Z;
  seg_address : Z;
  seg_file_size : Z;
  seg_memory_size : Z;
}.

(** ** The payload layout *)

Definition section_context (oi si : nat) (s : Section_) : Message :=
  [Text "input "; Number (Z.of_nat oi); Text " section "; Number (Z.of_nat si); Text " ";
   Quoted (sec_name s)].

(** The state of the loop over the sections of an object: the offsets of the object, the layout and
    the end of the memory used. *)
Definition compute_section (oi : nat) (st : list Z * Layout * Z) (x : nat * Section_)
  : result Message (list Z * Layout * Z) :=
  let '(offsets, layout, memory_end) := st in
  let '(si, sec) := x in
  let context := section_context oi si sec in
  let align := Z.max (sec_align sec) 1 in
  _ ← guard_err (is_power_of_two align)
        (context ++ [Text ": alignment must be zero or a power of two"]);
  size ← memory_size sec;
  let fsize := file_size sec in
  address ← ok_or (align_up64 memory_end align) (context ++ [Text ": memory alignment overflow"]);
  memory_end ← ok_or (checked_u 64 (address + size)) (context ++ [Text ": memory size overflow"]);
  file_offset ← ok_or (align_up64 (lay_file_size layout) align)
                  (context ++ [Text ": file alignment overflow"]);
  lay_file ← (if decide (sec_kind sec = SectionKind.Bss) then Ok (lay_file_size layout)
              else ok_or (checked_u 64 (file_offset + fsize)) (context ++ [Text ": file size overflow"]));
  Ok (offsets ++ [address],
      mkLayout (section_offsets layout) (section_sizes layout ++ [size])
        (placements layout ++ [mkPlacement oi si (sec_kind sec) align file_offset address fsize size])
        (base_address layout) lay_file (lay_memory_size layout),
      memory_end).

Definition compute_object (st : Layout * Z) (x : nat * ObjectFile) : result Message (Layout * Z) :=
  let '(layout, memory_end) := st in
  let '(oi, obj) := x in
  _ ← map_err (λ e, link_input oi (display_target_error e)) (validate_amd64 (target obj));
  '(offsets, layout, memory_end) ←
     try_fold (compute_section oi) (enumerate (sections obj)) ([], layout, memory_end);
  Ok (mkLayout (section_offsets layout ++ [offsets]) (section_sizes layout) (placements layout)
        (base_address layout) (lay_file_size layout) (lay_memory_size layout), memory_end).

Definition compute (objects : list ObjectFile) (base : Z) : result Message Layout :=
  '(layout, memory_end) ←
     try_fold compute_object (enumerate objects) (mkLayout [] [] [] base 0 0, base);
  memory ← debug_u 64 (memory_end - base);
  Ok (mkLayout (section_offsets layout) (section_sizes layout) (placements layout) base
        (lay_file_size layout) memory).

(** ** The executable layout *)

Definition BASE : Z := 0x400000.
Definition PAGE : Z := 4096.
Definition USER_END : Z := 2 ^ 47 - PAGE.

Definition align_executable (value alignment : Z) : result Message Z :=
  ok_or (align_up64 value alignment) [Text "executable alignment overflow"].

Definition has_kind (kinds : list SectionKind.t) (objects : list ObjectFile) : bool :=
  existsb (λ o, existsb (λ s, bool_decide (sec_kind s ∈ kinds)) (sections o)) objects.

(** The headers: the ELF header, one program header per segment and one for the stack. *)
Definition header_size (objects : list ObjectFile) : Z :=
  64 + 56 * (2 + Z.b2z (has_kind [SectionKind.ReadOnlyData] objects)
               + Z.b2z (has_kind [SectionKind.Data; SectionKind.Bss] objects)).

(** [layout.section_offsets[oi][si] = va]. *)
Definition set_offset (offsets : list (list Z)) (oi si : nat) (va : Z) : result Message (list (list Z)) :=
  row ← expect (offsets !! oi);
  _ ← expect (row !! si);
  Ok (<[oi := <[si := va]> row]> offsets).

Record Cursor := mkCursor { cur_layout : Layout; cursor : Z; file_end : Z }.

Definition place_section (kind : SectionKind.t) (oi : nat) (st : Cursor) (x : nat * Section_)
  : result Message Cursor :=
  let '(si, sec) := x in
  if decide (sec_kind sec ≠ kind) then Ok st
  else
    let layout := cur_layout st in
    start ← ok_or (checked_u 64 (BASE + cursor st)) [Text "executable address overflow"];
    va ← align_executable start (Z.max (sec_align sec) 1);
    offset ← debug_u 64 (va - BASE);
    size ← memory_size sec;
    offsets ← set_offset (section_offsets layout) oi si va;
    let placements := placements layout ++
      [mkPlacement oi si kind (Z.max (sec_align sec) 1) offset va (file_size sec) size] in
    next ← ok_or (checked_u 64 (offset + size)) [Text "executable memory size overflow"];
    Ok (mkCursor (mkLayout offsets (section_sizes layout) placements (base_address layout)
                    (lay_file_size layout) (lay_memory_size layout))
          next (if decide (kind = SectionKind.Bss) then file_end st else next)).

Definition place_kind (objects : list ObjectFile) (st : Cursor) (kind : SectionKind.t)
  : result Message Cursor :=
  try_fold (λ st x, try_fold (place_section kind x.1) (enumerate (sections x.2)) st)
    (enumerate objects) st.

Definition place_segment (objects : list ObjectFile) (max_bytes : Z)
    (st : Layout * list Segment) (x : list SectionKind.t * Z)
  : result Message (Layout * list Segment) :=
  let '(layout, segments) := st in
  let '(kinds, flags) := x in
  if negb ((flags =? 5) || has_kind kinds objects) then Ok (layout, segments)
  else
    start ← (if flags =? 5 then Ok 0 else align_executable (lay_file_size layout) PAGE);
    let first := if flags =? 5 then header_size objects else start in
    c ← try_fold (place_kind objects) kinds (mkCursor layout first first);
    _ ← guard_err (file_end c <=? max_bytes) [Text "executable output byte limit exceeded"];
    memory_end ← ok_or (checked_u 64 (BASE + cursor c)) [Text "executable virtual address overflow"];
    _ ← guard_err (memory_end <=? USER_END)
          [Text "executable exceeds portable lower 48-bit user address space"];
    address ← debug_u 64 (BASE + start);
    fsize ← debug_u 64 (file_end c - start);
    msize ← debug_u 64 (cursor c - start);
    let layout := cur_layout c in
    Ok (mkLayout (section_offsets layout) (section_sizes layout) (placements layout)
          (base_address layout) (file_end c) (cursor c),
        segments ++ [mkSegment flags start address fsize msize]).

Definition SEGMENTS : list (list SectionKind.t * Z) :=
  [([SectionKind.Text_], 5); ([SectionKind.ReadOnlyData], 4);
   ([SectionKind.Data; SectionKind.Bss], 6)].

Definition check_object (o : ObjectFile) : result Message unit :=
  _ ← map_err display_target_error (validate_amd64 (target o));
  validate o.

Definition all_sizes (objects : list ObjectFile) : result Message (list Z) :=
  try_fold (λ sizes s, size ← memory_size s; Ok (sizes ++ [size])) (objects ≫= sections) [].

Definition executable_layout (objects : list ObjectFile) (max_bytes : Z)
  : result Message (Layout * list Segment) :=
  _ ← try_fold (λ _ o, check_object o) objects tt;
  let header := header_size objects in
  let layout := mkLayout ((λ o, replicate (length (sections o)) 0) <$> objects) [] [] BASE header header in
  '(layout, segments) ← try_fold (place_segment objects max_bytes) SEGMENTS (layout, []);
  sizes ← all_sizes objects;
  Ok (mkLayout (section_offsets layout) sizes (placements layout) (base_address layout)
        (lay_file_size layout) (lay_memory_size layout), segments).

(** ** Sections and their placements *)

(** An address of section [si] of object [oi]. *)
Definition offset_at (offsets : list (list Z)) (oi si : nat) : option Z :=
  row ← offsets !! oi; row !! si.
Definition section_at (objects : list ObjectFile) (oi si : nat) : option Section_ :=
  o ← objects !! oi; sections o !! si.

Definition index_of (p : SectionPlacement) : nat * nat := (pl_object p, pl_section p).

(** The sections of a link with their indices, and those of one kind. *)
Definition Item : Type := nat * (nat * Section_).
Definition all_items (objects : list ObjectFile) : list Item :=
  enumerate objects ≫= λ io, pair io.1 <$> enumerate (sections io.2).
Definition item_index (x : Item) : nat * nat := (x.1, x.2.1).
Definition items_of (objects : list ObjectFile) (kind : SectionKind.t) : list Item :=
  filter (λ x, sec_kind x.2.2 = kind) (all_items objects).

Lemma section_at_typed objects oi si s :
  Forall object_typed objects → section_at objects oi si = Some s → section_typed s.
Proof.
  unfold section_at. destruct (objects !! oi) as [o|] eqn:Ho; [|done]. simpl. intros Ht Hs.
  eapply Forall_lookup_1 in Ht; [|exact Ho]. pose proof (ot_sections _ Ht) as Hts.
  by eapply Forall_lookup_1 in Hts.
Qed.

Lemma elem_of_all_items objects oi si s :
  (oi, (si, s)) ∈ all_items objects ↔ section_at objects oi si = Some s.
Proof.
  unfold all_items, section_at. rewrite list_elem_of_bind. split.
  - intros ([i o] & (y & [= -> <-] & Hs%elem_of_enumerate)%list_elem_of_fmap & Ho%elem_of_enumerate).
    simpl in *. by rewrite Ho.
  - destruct (objects !! oi) as [o|] eqn:Ho; [|done]. simpl. intros Hs.
    exists (oi, o). split; [|by apply elem_of_enumerate]. apply list_elem_of_fmap.
    exists (si, s). split; [done|]. by apply elem_of_enumerate.
Qed.

Lemma all_items_NoDup objects : NoDup (item_index <$> all_items objects).
Proof.
  unfold all_items.
  replace (item_index <$> (enumerate objects ≫= λ io, pair io.1 <$> enumerate (sections io.2)))
    with (enumerate objects ≫= λ io, pair io.1 <$> (enumerate (sections io.2)).*1).
  2: { induction (enumerate objects) as [|io l IH]; [done|].
       cbn [mbind list_bind]. rewrite fmap_app, <- !list_fmap_compose, <- IH. done. }
  apply NoDup_bind; [| |apply NoDup_enumerate].
  - intros [i o] [j o'] y Hi%elem_of_enumerate Hj%elem_of_enumerate
      (s & -> & _)%list_elem_of_fmap (s' & [= -> _] & _)%list_elem_of_fmap. simpl in *. congruence.
  - intros [i o] _. apply NoDup_fmap_2; [apply _|]. apply NoDup_enumerate_fst.
Qed.

(** What a placement says of its section. *)
Record describes (x : Item) (p : SectionPlacement) : Prop := {
  de_index : index_of p = item_index x;
  de_kind : pl_kind p = sec_kind x.2.2;
  de_align : pl_align p = Z.max (sec_align x.2.2) 1;
  de_file : pl_file_size p = file_size x.2.2;
  de_memory : pl_memory_size p = extent x.2.2;
  de_aligned : (pl_align p | pl_address p);
}.

(** Each section of a kind is placed once, behind the cursor, and its address recorded. *)
Record placed (objects : list ObjectFile) (items : list Item) (st st' : Cursor)
    (ps : list SectionPlacement) : Prop := {
  pd_placements : placements (cur_layout st') = placements (cur_layout st) ++ ps;
  pd_describes : Forall2 describes items ps;
  pd_address : Forall (λ p, pl_address p = BASE + pl_file_offset p) ps;
  pd_chain : chain pl_file_offset pl_memory_size (cursor st) ps (cursor st');
  pd_here p : p ∈ ps →
    offset_at (section_offsets (cur_layout st')) (pl_object p) (pl_section p) = Some (pl_address p);
  pd_else oi si : (oi, si) ∉ index_of <$> ps →
    offset_at (section_offsets (cur_layout st')) oi si
      = offset_at (section_offsets (cur_layout st)) oi si;
  pd_sizes : section_sizes (cur_layout st') = section_sizes (cur_layout st);
  pd_base : base_address (cur_layout st') = base_address (cur_layout st);
  pd_file : lay_file_size (cur_layout st') = lay_file_size (cur_layout st);
}.

Lemma placed_nil objects st : placed objects [] st st [].
Proof.
  split; try done; [by rewrite app_nil_r|apply Z.le_refl|by intros p Hp%not_elem_of_nil].
Qed.

Lemma describes_index items ps : Forall2 describes items ps → index_of <$> ps = item_index <$> items.
Proof. induction 1 as [|x p xs ps Hd _ IH]; [done|]. rewrite !fmap_cons, IH. f_equal. apply Hd. Qed.

Lemma placed_trans objects xs ys st0 st1 st2 ps qs :
  NoDup (item_index <$> (xs ++ ys)) →
  placed objects xs st0 st1 ps → placed objects ys st1 st2 qs →
  placed objects (xs ++ ys) st0 st2 (ps ++ qs).
Proof.
  intros Hnd [P1 D1 A1 C1 H1 E1 S1 B1 F1] [P2 D2 A2 C2 H2 E2 S2 B2 F2].
  rewrite fmap_app, <- (describes_index _ _ D1), <- (describes_index _ _ D2) in Hnd.
  apply NoDup_app in Hnd as (_ & Hdis & _). split.
  - by rewrite P2, P1, app_assoc.
  - by apply Forall2_app.
  - by apply Forall_app.
  - by eapply chain_app.
  - intros p [Hp|Hp]%elem_of_app; [|by apply H2]. rewrite E2; [by apply H1|].
    apply Hdis. apply list_elem_of_fmap. by exists p.
  - intros oi si. rewrite fmap_app, not_elem_of_app. intros [Hp Hq]. by rewrite E2, E1.
  - congruence.
  - congruence.
  - congruence.
Qed.

(** ** The loops place every section *)

Definition layout_limit (e : Message) : Prop :=
  e ∈ [ [Text "executable address overflow"]; [Text "executable alignment overflow"];
        [Text "executable memory size overflow"]; [Text "executable output byte limit exceeded"];
        [Text "executable virtual address overflow"];
        [Text "executable exceeds portable lower 48-bit user address space"] ].

Ltac layout_limit := unfold layout_limit; rewrite !elem_of_cons; tauto.

Section place.
Context (objects : list ObjectFile).
Context (Hok : Forall object_ok objects) (Htyped : Forall object_typed objects).
#[local] Set Default Proof Using "Type*".

(** The table of offsets has a slot for each section. *)
Definition shaped (offsets : list (list Z)) : Prop := ∀ oi si,
  is_Some (section_at objects oi si) → is_Some (offset_at offsets oi si).

Lemma section_at_ok oi si s : section_at objects oi si = Some s → section_ok s ∧ section_typed s.
Proof.
  unfold section_at. destruct (objects !! oi) as [o|] eqn:Ho; [|done]. simpl. intros Hs.
  eapply Forall_lookup_1 in Hok; [|exact Ho]. eapply Forall_lookup_1 in Htyped; [|exact Ho].
  pose proof (oo_sections _ Hok) as Hss. pose proof (ot_sections _ Htyped) as Hts.
  split; [by eapply Forall_lookup_1 in Hss|by eapply Forall_lookup_1 in Hts].
Qed.

Lemma align_of_section s :
  section_ok s → section_typed s →
  is_power_of_two (Z.max (sec_align s) 1) = true ∧ Z.max (sec_align s) 1 ≤ 2 ^ 64.
Proof.
  intros [_ _ _ _ Ha] [_ _ _ Ht]. split; [|lia]. destruct Ha as [->|Ha]; [done|].
  pose proof (is_power_of_two_pos _ Ha). by rewrite Z.max_l by lia.
Qed.

Lemma set_offset_yields offsets oi si va :
  is_Some (offset_at offsets oi si) →
  ∃ offsets', set_offset offsets oi si va = Ok offsets' ∧ offset_at offsets' oi si = Some va
    ∧ ∀ oi' si', (oi', si') ≠ (oi, si) → offset_at offsets' oi' si' = offset_at offsets oi' si'.
Proof.
  unfold offset_at, set_offset. destruct (offsets !! oi) as [row|] eqn:Hrow; [|by intros []].
  simpl. intros [old Hold]. rewrite Hold. simpl. eexists. split; [done|].
  pose proof (lookup_lt_Some _ _ _ Hrow). pose proof (lookup_lt_Some _ _ _ Hold).
  rewrite list_lookup_insert_eq by done. simpl. rewrite list_lookup_insert_eq by done. split; [done|].
  intros oi' si' Hne. destruct (decide (oi' = oi)) as [->|].
  - rewrite list_lookup_insert_eq by done. simpl. rewrite Hrow. simpl.
    rewrite list_lookup_insert_ne; [done|congruence].
  - by rewrite list_lookup_insert_ne.
Qed.

(** The state after a section has been placed. *)
Definition advances (kind : SectionKind.t) (st st' : Cursor) : Prop :=
  shaped (section_offsets (cur_layout st')) ∧
  (kind = SectionKind.Bss → file_end st' = file_end st) ∧
  (kind ≠ SectionKind.Bss → file_end st = cursor st → file_end st' = cursor st').

Lemma place_section_yields st oi si sec :
  section_at objects oi si = Some sec → 0 ≤ cursor st →
  shaped (section_offsets (cur_layout st)) →
  yields layout_limit (place_section (sec_kind sec) oi st (si, sec))
    (λ st', ∃ p, placed objects [(oi, (si, sec))] st st' [p] ∧ advances (sec_kind sec) st st').
Proof.
  intros Hsec Hcur Hshape. destruct (section_at_ok _ _ _ Hsec) as [Hs Ht].
  destruct (align_of_section _ Hs Ht) as [Hpow Hle].
  unfold place_section. rewrite decide_False by tauto. cbv zeta.
  apply yields_bind, yields_ok_or; [intros; layout_limit|].
  intros start [-> Hstart]%checked_u_Some. apply yields_bind, yields_ok_or; [intros; layout_limit|].
  intros va Hva. apply align_up64_Some in Hva as (_ & Hdiv & Hva & Hva64); [|done..].
  rewrite debug_u_id by (unfold BASE in *; lia).
  cbn [mbind result_bind]. rewrite memory_size_ok by done. cbn [mbind result_bind].
  destruct (set_offset_yields (section_offsets (cur_layout st)) oi si va) as (offsets & -> & Hhere & Helse).
  { apply Hshape. by eexists. }
  cbn [mbind result_bind]. apply yields_bind, yields_ok_or; [intros; layout_limit|].
  intros next [-> Hnext]%checked_u_Some. simpl.
  set (p := mkPlacement _ _ _ _ _ _ _ _). exists p. split.
  - assert (∀ P : SectionPlacement → Prop, (∀ q, q ∈ [p] → P q) ↔ P p) as Hp.
    { intros P. setoid_rewrite list_elem_of_singleton. naive_solver. }
    split; cbn [cur_layout placements section_offsets section_sizes base_address lay_file_size cursor].
    + done.
    + apply Forall2_cons. split; [|done]. by split.
    + apply Forall_cons. split; [|done]. cbn. lia.
    + cbn. pose proof (so_extent _ Hs). lia.
    + by apply (Hp (λ p, offset_at _ (pl_object p) (pl_section p) = Some (pl_address p))).
    + intros oi' si' Hn. apply Helse. intros [= -> ->]. apply Hn. by apply list_elem_of_singleton.
    + done.
    + done.
    + done.
  - split; [|split]; cbn.
    + intros oi' si' Hx. destruct (decide ((oi', si') = (oi, si))) as [[= -> ->]|Hne].
      * by rewrite Hhere.
      * rewrite Helse by done. by apply Hshape.
    + intros ->. by rewrite decide_True.
    + intros Hn _. by rewrite decide_False.
Qed.

Lemma place_kind_flat st kind :
  place_kind objects st kind =
    try_fold (λ st x, place_section kind x.1 st x.2) (all_items objects) st.
Proof.
  unfold place_kind, all_items. rewrite <- try_fold_join. apply try_fold_ext.
  intros st' io. by rewrite try_fold_fmap.
Qed.

Lemma items_snoc P `{∀ x : Item, Decision (P x)} (xs : list Item) x :
  filter P (xs ++ [x]) = filter P xs ++ (if decide (P x) then [x] else []).
Proof. by rewrite filter_app. Qed.

Lemma place_kind_yields st kind :
  0 ≤ cursor st → shaped (section_offsets (cur_layout st)) →
  yields layout_limit (place_kind objects st kind)
    (λ st', ∃ ps, placed objects (items_of objects kind) st st' ps ∧ advances kind st st').
Proof.
  intros Hcur Hshape. rewrite place_kind_flat. apply (try_fold_yields _ _ (λ done st', ∃ ps,
    placed objects (filter (λ x, sec_kind x.2.2 = kind) done) st st' ps ∧ advances kind st st')).
  { exists []. split; [apply placed_nil|]. by repeat split. }
  intros done [oi [si sec]] rest st' Heq (ps & Hps & Hshape' & Hb & Hf). rewrite items_snoc. simpl.
  destruct (decide (sec_kind sec = kind)) as [<-|Hk].
  2: { unfold place_section. rewrite decide_True by done. exists ps. rewrite app_nil_r.
       split; [done|]. by split. }
  assert ((oi, (si, sec)) ∈ all_items objects) as Hin.
  { rewrite Heq. apply elem_of_app. right. apply elem_of_cons. by left. }
  pose proof (chain_le _ _ _ _ _ (pd_chain _ _ _ _ _ Hps)).
  eapply yields_mono, place_section_yields; [done| |by apply elem_of_all_items|lia|done].
  intros st'' (p & Hp & Hshape'' & Hb' & Hf'). exists (ps ++ [p]). split.
  - eapply placed_trans; [|done..]. pose proof (all_items_NoDup objects) as Hnd. rewrite Heq in Hnd.
    rewrite cons_middle, app_assoc, fmap_app in Hnd. apply NoDup_app in Hnd as [Hnd _].
    eapply sublist_NoDup; [exact Hnd|]. apply fmap_sublist. apply sublist_app; [|done].
    apply sublist_filter.
  - split; [done|]. split.
    + intros Hbss. by rewrite Hb', Hb.
    + intros Hn Hc. by apply Hf', Hf.
Qed.

Lemma items_of_index ks : NoDup ks → NoDup (item_index <$> (ks ≫= items_of objects)).
Proof.
  intros Hks. assert (∀ k x, x ∈ items_of objects k ↔ sec_kind x.2.2 = k ∧ x ∈ all_items objects) as Hin.
  { intros k x. apply (list_elem_of_filter (λ x, sec_kind x.2.2 = k)). }
  replace (item_index <$> (ks ≫= items_of objects)) with (ks ≫= λ k, item_index <$> items_of objects k).
  2: { clear. induction ks as [|k ks IH]; [done|]. cbn [mbind list_bind]. by rewrite fmap_app, <- IH. }
  apply NoDup_bind; [| |done].
  - intros k k' y _ _ ([i [j s]] & -> & [<- Hx]%Hin)%list_elem_of_fmap
      ([i' [j' s']] & [= <- <-] & [<- Hx']%Hin)%list_elem_of_fmap.
    apply elem_of_all_items in Hx, Hx'. simpl. congruence.
  - intros k _. eapply sublist_NoDup; [apply (all_items_NoDup objects)|].
    apply fmap_sublist, sublist_filter.
Qed.

Lemma place_kinds_yields ks st :
  NoDup ks → 0 ≤ cursor st → shaped (section_offsets (cur_layout st)) →
  yields layout_limit (try_fold (place_kind objects) ks st)
    (λ st', ∃ ps, placed objects (ks ≫= items_of objects) st st' ps
      ∧ shaped (section_offsets (cur_layout st'))
      ∧ (Forall (λ k, k = SectionKind.Bss) ks → file_end st' = file_end st)
      ∧ (Forall (λ k, k ≠ SectionKind.Bss) ks → file_end st = cursor st → file_end st' = cursor st')).
Proof.
  intros Hnd Hcur Hshape. apply (try_fold_yields _ _ (λ done st', ∃ ps,
    placed objects (done ≫= items_of objects) st st' ps
      ∧ shaped (section_offsets (cur_layout st'))
      ∧ (Forall (λ k, k = SectionKind.Bss) done → file_end st' = file_end st)
      ∧ (Forall (λ k, k ≠ SectionKind.Bss) done → file_end st = cursor st → file_end st' = cursor st'))).
  { exists []. split; [apply placed_nil|]. done. }
  intros done kind rest st' Heq (ps & Hps & Hshape' & Hb & Hf).
  pose proof (chain_le _ _ _ _ _ (pd_chain _ _ _ _ _ Hps)).
  eapply yields_mono, place_kind_yields; [done| |lia|done].
  intros st'' (qs & Hqs & Hshape'' & Hb' & Hf'). exists (ps ++ qs).
  rewrite bind_app, bind_singleton. split; [|split; [done|split]].
  - eapply placed_trans; [|done..]. rewrite <- (bind_singleton (items_of objects)), <- bind_app.
    apply items_of_index. rewrite Heq, cons_middle, app_assoc in Hnd. by apply NoDup_app in Hnd as [? _].
  - intros [Hd [-> _]%Forall_cons]%Forall_app. by rewrite Hb', Hb.
  - intros [Hd [Hk _]%Forall_cons]%Forall_app Hc. by apply Hf', Hf.
Qed.

Lemma has_kind_items ks : has_kind ks objects = false → ks ≫= items_of objects = [].
Proof.
  intros Hk. destruct (ks ≫= items_of objects) as [|x l] eqn:E; [done|].
  assert (x ∈ ks ≫= items_of objects) as Hx by (rewrite E; apply elem_of_cons; by left).
  apply list_elem_of_bind in Hx as (k & Hx & Hks).
  apply (list_elem_of_filter (λ x, sec_kind x.2.2 = k)) in Hx as [Hkind Hin].
  destruct x as [oi [si s]]. apply elem_of_all_items in Hin. unfold section_at in Hin.
  destruct (objects !! oi) as [o|] eqn:Ho; [|done]. simpl in *.
  unfold has_kind in Hk. rewrite existsb_false in Hk. specialize (Hk oi o Ho).
  rewrite existsb_false in Hk. specialize (Hk si s Hin).
  apply bool_decide_eq_false in Hk. by rewrite Hkind in Hk.
Qed.
End place.

(** ** Segments *)

Definition flags_of (kind : SectionKind.t) : Z :=
  match kind with
  | SectionKind.Text_ => 5
  | SectionKind.ReadOnlyData => 4
  | SectionKind.Data | SectionKind.Bss => 6
  end.

(** A segment starts on a page and its image is congruent to its addresses. *)
Record segment_ok (layout : Layout) (s : Segment) : Prop := {
  sg_address : seg_address s = BASE + seg_offset s;
  sg_page : (PAGE | seg_offset s);
  sg_sizes : 0 ≤ seg_offset s ∧ 0 ≤ seg_file_size s ≤ seg_memory_size s;
  sg_file : seg_offset s + seg_file_size s ≤ lay_file_size layout;
  sg_user : seg_address s + seg_memory_size s ≤ USER_END;
  sg_flags : 0 ≤ seg_flags s < 8;
}.

(** A segment contains a section: its bytes in the image, or zeros behind the image. *)
Record contains (s : Segment) (p : SectionPlacement) : Prop := {
  co_flags : seg_flags s = flags_of (pl_kind p);
  co_start : seg_offset s ≤ pl_file_offset p;
  co_end : pl_file_offset p + pl_memory_size p ≤ seg_offset s + seg_memory_size s;
  co_image : pl_kind p ≠ SectionKind.Bss →
    pl_file_offset p + pl_memory_size p ≤ seg_offset s + seg_file_size s;
  co_zeros : pl_kind p = SectionKind.Bss → seg_offset s + seg_file_size s ≤ pl_file_offset p;
}.

Record laid_out (objects : list ObjectFile) (max_bytes : Z) (kinds : list SectionKind.t)
    (layout : Layout) (segments : list Segment) : Prop := {
  lo_describes : Forall2 describes (kinds ≫= items_of objects) (placements layout);
  lo_address : Forall (λ p, pl_address p = BASE + pl_file_offset p) (placements layout);
  lo_offsets p : p ∈ placements layout →
    offset_at (section_offsets layout) (pl_object p) (pl_section p) = Some (pl_address p);
  lo_chain : chain pl_file_offset pl_memory_size (header_size objects) (placements layout)
               (lay_memory_size layout);
  lo_segments : segments ≠ [] → chain seg_offset seg_memory_size 0 segments (lay_memory_size layout);
  lo_segment : Forall (segment_ok layout) segments;
  lo_contains p : p ∈ placements layout → ∃ s, s ∈ segments ∧ contains s p;
  lo_headers : ∀ s, head segments = Some s →
    seg_flags s = 5 ∧ seg_offset s = 0 ∧ header_size objects ≤ seg_file_size s;
  lo_size : header_size objects ≤ lay_file_size layout ≤ lay_memory_size layout;
  lo_limit : segments ≠ [] → lay_file_size layout ≤ max_bytes;
}.

Lemma placed_kind objects ks ps p :
  Forall2 describes (ks ≫= items_of objects) ps → p ∈ ps → pl_kind p ∈ ks.
Proof.
  intros Hd [i Hp]%list_elem_of_lookup. eapply Forall2_lookup_r in Hd as (x & Hx & Hdx); [|exact Hp].
  apply list_elem_of_lookup_2, list_elem_of_bind in Hx as (k & Hx & Hk).
  apply (list_elem_of_filter (λ x, sec_kind x.2.2 = k)) in Hx as [<- _]. by rewrite (de_kind _ _ Hdx).
Qed.

Lemma header_size_range objects : 176 ≤ header_size objects ≤ 288.
Proof. unfold header_size. destruct (has_kind [_] _), (has_kind [_; _] _); simpl; lia. Qed.

(** The position a new segment starts at, and the first one its sections may take. *)
Definition segment_start (objects : list ObjectFile) (layout : Layout) (flags : Z)
  : result Message (Z * Z) :=
  start ← (if flags =? 5 then Ok 0 else align_executable (lay_file_size layout) PAGE);
  Ok (start, if flags =? 5 then header_size objects else start).

Section segments.
Context (objects : list ObjectFile) (max_bytes : Z).
Context (Hok : Forall object_ok objects) (Htyped : Forall object_typed objects).
#[local] Set Default Proof Using "Type*".

(** What the segments before this one leave. *)
Record ready (kinds : list SectionKind.t) (layout : Layout) (segments : list Segment) : Prop := {
  re_laid : laid_out objects max_bytes kinds layout segments;
  re_shaped : shaped objects (section_offsets layout);
  re_base : base_address layout = BASE;
}.

Lemma start_yields kinds layout segments flags :
  laid_out objects max_bytes kinds layout segments →
  lay_file_size layout = lay_memory_size layout → ((flags =? 5) = true ↔ segments = []) →
  (segments = [] → lay_memory_size layout = header_size objects) →
  yields layout_limit
    (if flags =? 5 then Ok 0 else align_executable (lay_file_size layout) PAGE)
    (λ start, 0 ≤ start ∧ (PAGE | start) ∧ (flags = 5 → start = 0) ∧
       let first := if flags =? 5 then header_size objects else start in
       start ≤ first ∧ lay_memory_size layout ≤ first ∧
       (segments ≠ [] → lay_memory_size layout ≤ start)).
Proof.
  intros Hlaid Heq Hflags Hfirst. pose proof (header_size_range objects).
  pose proof (lo_size _ _ _ _ _ Hlaid). destruct (flags =? 5) eqn:Ef; simpl.
  - rewrite (Hfirst (proj1 Hflags eq_refl)). pose proof (proj1 Hflags eq_refl).
    split; [done|]. split; [apply Z.divide_0_r|]. split; [done|].
    split; [lia|]. by split.
  - unfold align_executable. apply yields_ok_or; [intros _; layout_limit|].
    intros r Hr. apply align_up64_Some in Hr as (_ & Hdiv & Hle & Hr); [|done|done].
    split; [lia|]. split; [done|]. split; [intros ->; done|]. split; [done|]. split; [lia|]. intros _. lia.
Qed.

(** A new segment behind the ones there are keeps the layout in order. *)
Lemma laid_out_snoc done ks layout segments flags start first c fe ps qs :
  laid_out objects max_bytes done layout segments →
  NoDup (done ++ ks) → Forall (λ k, flags_of k = flags) ks →
  placed objects (ks ≫= items_of objects) (mkCursor layout first first) c (ps ++ qs) →
  (∀ p, p ∈ ps → pl_kind p ≠ SectionKind.Bss) → (∀ p, p ∈ qs → pl_kind p = SectionKind.Bss) →
  chain pl_file_offset pl_memory_size first ps fe →
  chain pl_file_offset pl_memory_size fe qs (cursor c) →
  0 ≤ start ≤ first → (PAGE | start) → lay_memory_size layout ≤ first →
  lay_file_size layout ≤ first → first ≤ fe ≤ cursor c →
  (segments ≠ [] → lay_memory_size layout ≤ start) →
  (segments = [] → flags = 5 ∧ start = 0 ∧ first = header_size objects) →
  fe ≤ max_bytes → BASE + cursor c ≤ USER_END → 0 ≤ flags < 8 →
  laid_out objects max_bytes (done ++ ks)
    (mkLayout (section_offsets (cur_layout c)) (section_sizes (cur_layout c))
       (placements (cur_layout c)) (base_address (cur_layout c)) fe (cursor c))
    (segments ++ [mkSegment flags start (BASE + start) (fe - start) (cursor c - start)]).
Proof.
  intros Hl Hnd Hfl Hp Hps Hqs Hc1 Hc2 Hstart Hpage Hmem Hfile Hfe Hnil Hone Hmax Huser Hrange.
  pose proof (header_size_range objects). pose proof (lo_size _ _ _ _ _ Hl) as Hsize.
  pose proof (pd_placements _ _ _ _ _ Hp) as Hpl. cbn [cur_layout] in Hpl.
  assert (∀ p, p ∈ placements layout → index_of p ∉ index_of <$> (ps ++ qs)) as Hdis.
  { intros p Hin Hidx. apply (items_of_index objects Hok Htyped) in Hnd. rewrite bind_app, fmap_app in Hnd.
    apply NoDup_app in Hnd as (_ & Hnd & _). apply (Hnd (index_of p)).
    - rewrite <- (describes_index _ _ (lo_describes _ _ _ _ _ Hl)). apply list_elem_of_fmap. by exists p.
    - by rewrite <- (describes_index _ _ (pd_describes _ _ _ _ _ Hp)). }
  split; cbn [placements section_offsets lay_file_size lay_memory_size]; try rewrite Hpl.
  - rewrite bind_app. apply Forall2_app; [apply Hl|apply Hp].
  - apply Forall_app. split; [apply Hl|apply Hp].
  - intros p [Hin|Hin]%elem_of_app.
    + rewrite (pd_else _ _ _ _ _ Hp) by by apply (Hdis p). cbn. by apply (lo_offsets _ _ _ _ _ Hl).
    + by apply (pd_here _ _ _ _ _ Hp).
  - eapply chain_app; [eapply chain_weaken; [apply Hl|exact Hmem]|]. by eapply chain_app.
  - intros _. destruct segments as [|s0 segs] eqn:Es; [cbn; lia|]. rewrite <- Es in *.
    eapply chain_app; [eapply chain_weaken; [apply (lo_segments _ _ _ _ _ Hl)|apply Hnil]|]; try (by rewrite Es).
    cbn. lia.
  - apply Forall_app. split.
    + eapply Forall_impl; [apply Hl|]. intros s [? ? ? ? ? ?]. split; cbn; try done. lia.
    + apply Forall_cons. split; [|done]. split; cbn; try done; try lia.
  - assert (∀ p, p ∈ ps ++ qs → flags = flags_of (pl_kind p)) as Hflp.
    { intros p Hin. eapply placed_kind in Hin; [|apply Hp]. rewrite Forall_forall in Hfl.
      by rewrite Hfl. }
    intros p [Hin|Hin]%elem_of_app.
    { destruct (lo_contains _ _ _ _ _ Hl p Hin) as (s & Hs & Hc). exists s. split; [|done].
      apply elem_of_app. by left. }
    eexists. split; [apply elem_of_app; right; apply elem_of_cons; by left|].
    specialize (Hflp p Hin). apply elem_of_app in Hin as [Hin|Hin].
    + pose proof (chain_bounds _ _ _ _ _ _ Hc1 Hin). pose proof (Hps p Hin). split; cbn; try lia; done.
    + pose proof (chain_bounds _ _ _ _ _ _ Hc2 Hin). pose proof (Hqs p Hin). split; cbn; try lia; done.
  - destruct segments as [|s0 segs]; [|apply Hl]. intros s [= <-].
    destruct (Hone eq_refl) as (-> & -> & ->). cbn. split; [done|]. split; [done|]. lia.
  - lia.
  - done.
Qed.

Lemma place_segment_yields done layout segments ds bs flags :
  ready done layout segments → lay_file_size layout = lay_memory_size layout →
  ((flags =? 5) = true ↔ segments = []) →
  (segments = [] → lay_memory_size layout = header_size objects) →
  NoDup (done ++ ds ++ bs) →
  Forall (λ k, k ≠ SectionKind.Bss) ds → Forall (λ k, k = SectionKind.Bss) bs →
  Forall (λ k, flags_of k = flags) (ds ++ bs) → 0 ≤ flags < 8 →
  yields layout_limit (place_segment objects max_bytes (layout, segments) (ds ++ bs, flags))
    (λ st, ready (done ++ ds ++ bs) st.1 st.2
       ∧ (bs = [] → lay_file_size st.1 = lay_memory_size st.1)
       ∧ length st.2 = (length segments
           + if ((flags =? 5) || has_kind (ds ++ bs) objects)%Z then 1 else 0)%nat).
Proof.
  intros [Hlaid Hshape Hbase] Heq Hflags Hfirst Hnd Hds Hbs Hfl Hrange. unfold place_segment.
  destruct ((flags =? 5) || has_kind (ds ++ bs) objects) eqn:Eexists; cbn [negb].
  2: { apply orb_false_iff in Eexists as [_ Hno]. apply (has_kind_items objects Hok Htyped) in Hno.
       destruct Hlaid. simpl. split; [|split; [done|lia]]. split; [|done..].
       split; try done. by rewrite bind_app, Hno, app_nil_r. }
  pose proof (lo_size _ _ _ _ _ Hlaid) as Hsize. pose proof (header_size_range objects) as Hhdr.
  apply yields_bind. eapply yields_mono, start_yields; [done| |done..].
  intros start (Hstart & Hpage & Hzero & Hsf & Hmf & Hms). cbv zeta.
  set (first := if flags =? 5 then header_size objects else start) in *.
  assert (NoDup ds ∧ NoDup bs) as [Hnds Hnbs].
  { apply NoDup_app in Hnd as (_ & _ & Hnd). apply NoDup_app in Hnd. tauto. }
  rewrite try_fold_app. apply yields_bind, yields_bind.
  eapply yields_mono, place_kinds_yields; [done| |done|done|done|cbn; lia|done].
  intros c1 (ps & Hps & Hshape1 & _ & Hend1). specialize (Hend1 Hds eq_refl).
  pose proof (chain_le _ _ _ _ _ (pd_chain _ _ _ _ _ Hps)) as Hle1. cbn in Hle1.
  eapply yields_mono, place_kinds_yields; [done| |done|done|done|lia|done].
  intros c2 (qs & Hqs & Hshape2 & Hend2 & Hend2'). specialize (Hend2 Hbs).
  pose proof (chain_le _ _ _ _ _ (pd_chain _ _ _ _ _ Hqs)) as Hle2.
  apply yields_bind, yields_guard; [intros; layout_limit|]. intros Hmax%Z.leb_le.
  apply yields_bind, yields_ok_or; [intros; layout_limit|]. intros e [-> He]%checked_u_Some.
  apply yields_bind, yields_guard; [intros; layout_limit|]. intros Huser%Z.leb_le.
  rewrite !debug_u_id by (unfold BASE, USER_END, PAGE in *; lia). cbn [mbind result_bind yields fst snd].
  assert (placed objects ((ds ++ bs) ≫= items_of objects) (mkCursor layout first first) c2 (ps ++ qs))
    as Hpq.
  { rewrite bind_app. eapply placed_trans; [|done..]. rewrite <- bind_app.
    apply (items_of_index objects Hok Htyped). by apply NoDup_app in Hnd as (_ & _ & ?). }
  split; [|split; [|by rewrite length_app]].
  - split; [|done|cbn; by rewrite (pd_base _ _ _ _ _ Hpq)].
    eapply (laid_out_snoc _ _ _ _ _ _ first _ _ ps qs); try done; try lia.
    + intros p Hin. eapply placed_kind in Hin; [|apply Hps]. rewrite Forall_forall in Hds. by apply Hds.
    + intros p Hin. eapply placed_kind in Hin; [|apply Hqs]. rewrite Forall_forall in Hbs. by apply Hbs.
    + rewrite Hend2, Hend1. apply Hps.
    + rewrite Hend2, Hend1. apply Hqs.
    + intros Hnil. apply Hflags, Z.eqb_eq in Hnil. subst first. rewrite Hnil. auto.
  - intros ->. cbn. apply Hend2'; [done|]. apply Hend1.
Qed.
End segments.

(** ** The executable layout *)

Definition ALL_KINDS : list SectionKind.t :=
  [SectionKind.Text_; SectionKind.ReadOnlyData; SectionKind.Data; SectionKind.Bss].

Definition link_inputs_ok (objects : list ObjectFile) : Prop :=
  Forall (λ o, validate_amd64 (target o) = Ok tt ∧ object_ok o) objects.

Record executable_ok (objects : list ObjectFile) (max_bytes : Z) (layout : Layout)
    (segments : list Segment) : Prop := {
  ex_laid : laid_out objects max_bytes ALL_KINDS layout segments;
  ex_base : base_address layout = BASE;
  ex_sizes : section_sizes layout = extent <$> (objects ≫= sections);
  ex_headers : segments ≠ [] ∧ header_size objects = 64 + 56 * (Z.of_nat (length segments) + 1);
}.

Lemma check_objects_decides objects :
  try_fold (λ _ o, check_object o) objects tt = Ok tt ↔ link_inputs_ok objects.
Proof.
  rewrite try_fold_check_Ok. apply Forall_iff. intros o. unfold check_object.
  rewrite <- validate_decides.
  destruct (validate_amd64 (target o)) as [[]| |], (validate o) as [[]| |]; simpl; naive_solver.
Qed.

Lemma check_object_no_panic o : check_object o ≠ Panic.
Proof.
  unfold check_object, validate, validate_amd64. pose proof (validate_no_panic o).
  case_decide; [|done]. simpl. by destruct (validate_diagnostic o).
Qed.

Lemma all_sizes_yields objects :
  Forall object_ok objects → all_sizes objects = Ok (extent <$> (objects ≫= sections)).
Proof.
  intros Hok. unfold all_sizes. assert (Forall section_ok (objects ≫= sections)) as Hs.
  { apply Forall_bind. eapply Forall_impl; [exact Hok|]. intros o Ho. apply Ho. }
  assert (∀ done, try_fold (λ sizes s, size ← memory_size s; Ok (sizes ++ [size]))
    (objects ≫= sections) done = Ok (done ++ (extent <$> (objects ≫= sections)))) as Hgen; [|by apply Hgen].
  induction Hs as [|s ss Hs _ IH]; intros done; [by rewrite app_nil_r|].
  cbn [try_fold]. rewrite memory_size_ok by done. cbn [mbind result_bind]. rewrite IH.
  by rewrite <- app_assoc.
Qed.

Lemma initial_ready objects max_bytes :
  ready objects max_bytes []
    (mkLayout ((λ o, replicate (length (sections o)) 0) <$> objects) [] [] BASE
       (header_size objects) (header_size objects)) [].
Proof.
  split; [|..|done].
  - split; cbn; try done; try lia; 
      intros p Hp; by apply not_elem_of_nil in Hp.
  - intros oi si. unfold section_at, offset_at. cbn. rewrite list_lookup_fmap.
    destruct (objects !! oi) as [o|]; [|by intros []]. simpl. intros [s Hs].
    rewrite lookup_replicate_2; [by eexists|]. by eapply lookup_lt_Some.
Qed.

Lemma executable_layout_yields objects max_bytes :
  Forall object_typed objects →
  yields (λ e, ¬ link_inputs_ok objects ∨ layout_limit e) (executable_layout objects max_bytes)
    (λ st, link_inputs_ok objects ∧ executable_ok objects max_bytes st.1 st.2).
Proof.
  intros Htyped. unfold executable_layout. apply yields_bind.
  destruct (try_fold (λ _ o, check_object o) objects tt) as [[]|e|] eqn:Ein; simpl.
  2: { left. intros Hin%check_objects_decides. congruence. }
  2: { revert Ein. apply try_fold_check_no_panic, check_object_no_panic. }
  apply check_objects_decides in Ein. rename Ein into Hin.
  assert (Forall object_ok objects) as Hok by (eapply Forall_impl; [exact Hin|by intros o [_ ?]]).
  rewrite all_sizes_yields by done.
  eapply yields_mono; [intros e He; by right; exact He|intros st H; exact H|].
  apply yields_bind. unfold SEGMENTS. cbn [try_fold]. apply yields_bind.
  pose proof (header_size_range objects) as Hhdr.
  eapply yields_mono, (place_segment_yields objects max_bytes Hok Htyped [] _ [] [SectionKind.Text_] [] 5);
    [done| |apply initial_ready|done|done|done|..|done].
  2: { apply NoDup_singleton. }
  2: { by repeat constructor. }
  2: { constructor. }
  2: { by repeat constructor. }
  intros [l1 s1] (R1 & E1 & N1). cbn [fst snd app] in *. specialize (E1 eq_refl). cbn in N1.
  apply yields_bind.
  eapply yields_mono, (place_segment_yields objects max_bytes Hok Htyped _ _ _
    [SectionKind.ReadOnlyData] [] 4); [done| |exact R1|done|..|done].
  2: { cbn. split; [done|]. intros ->. done. }
  2: { intros ->. done. }
  2: { apply (bool_decide_unpack _). by vm_compute. }
  2: { by repeat constructor. }
  2: { constructor. }
  2: { by repeat constructor. }
  intros [l2 s2] (R2 & E2 & N2). cbn [fst snd app] in *. specialize (E2 eq_refl). cbn [orb Z.eqb] in N2.
  apply yields_bind.
  eapply yields_mono, (place_segment_yields objects max_bytes Hok Htyped _ _ _
    [SectionKind.Data] [SectionKind.Bss] 6); [done| |exact R2|done|..|done].
  2: { cbn. split; [done|]. intros ->. cbn in N2. lia. }
  2: { intros ->. cbn in N2. lia. }
  2: { apply (bool_decide_unpack _). by vm_compute. }
  2: { by repeat constructor. }
  2: { by repeat constructor. }
  2: { by repeat constructor. }
  intros [l3 s3] (R3 & _ & N3). cbn [fst snd app] in *.
  cbn. split; [done|]. destruct R3 as [L3 _ B3]. split; cbn; try done.
  - destruct L3 as [? ? ? ? ? Hseg ? ? ? ?]. split; try done.
    eapply Forall_impl; [exact Hseg|]. intros s []. by split.
  - split; [intros ->; cbn in N3; lia|]. rewrite N3, N2, N1. unfold header_size.
    cbn. destruct (has_kind [_] _), (has_kind [_; _] _); cbn; lia.
Qed.

(** The section an index stands for has a placement, in a segment. *)
Lemma section_placed objects max_bytes layout segments oi si s :
  executable_ok objects max_bytes layout segments → section_at objects oi si = Some s →
  ∃ p seg, p ∈ placements layout ∧ describes (oi, (si, s)) p
    ∧ offset_at (section_offsets layout) oi si = Some (pl_address p)
    ∧ pl_address p = BASE + pl_file_offset p
    ∧ seg ∈ segments ∧ segment_ok layout seg ∧ contains seg p.
Proof.
  intros [Hl _ _ _] Hs. apply elem_of_all_items in Hs.
  assert ((oi, (si, s)) ∈ ALL_KINDS ≫= items_of objects) as Hin.
  { apply list_elem_of_bind. exists (sec_kind s). split.
    - by apply (list_elem_of_filter (λ x, sec_kind x.2.2 = sec_kind s)).
    - unfold ALL_KINDS. rewrite !elem_of_cons. destruct (sec_kind s); tauto. }
  apply list_elem_of_lookup in Hin as [i Hi].
  eapply Forall2_lookup_l in Hi as (p & Hp & Hd); [|exact (lo_describes _ _ _ _ _ Hl)].
  apply list_elem_of_lookup_2 in Hp. pose proof (lo_offsets _ _ _ _ _ Hl p Hp) as Hoff.
  destruct (lo_contains _ _ _ _ _ Hl p Hp) as (seg & Hseg & Hc).
  pose proof (lo_segment _ _ _ _ _ Hl) as Hsegs. pose proof (lo_address _ _ _ _ _ Hl) as Haddr.
  rewrite Forall_forall in Hsegs. rewrite Forall_forall in Haddr.
  pose proof (de_index _ _ Hd) as [= <- <-]. exists p, seg. auto 10.
Qed.

Lemma placements_NoDup objects max_bytes layout segments :
  executable_ok objects max_bytes layout segments → Forall object_ok objects →
  Forall object_typed objects → NoDup (index_of <$> placements layout).
Proof.
  intros [Hl _ _ _] Hok Htyped. rewrite (describes_index _ _ (lo_describes _ _ _ _ _ Hl)).
  apply items_of_index; [done..|]. apply (bool_decide_unpack _). by vm_compute.
Qed.

(** C20: The layout of an executable never panics and fails only on invalid inputs or beyond a limit.
    On success each section is placed once, at an aligned address whose offset in the file is its
    distance from the base; sections do not overlap each other or the headers; each lies in the load
    segment of its kind, initialised bytes in the image of the segment and BSS in its zero tail;
    segments are disjoint, start on pages congruent to their file offsets, end below the user
    limit, and the file keeps the byte limit. *)
Theorem executable_layout_sound objects max_bytes (Htyped : Forall object_typed objects) :
  match executable_layout objects max_bytes with
  | Ok (layout, segments) =>
      (∀ oi si s, section_at objects oi si = Some s →
         ∃ p seg, p ∈ placements layout ∧ describes (oi, (si, s)) p
           ∧ offset_at (section_offsets layout) oi si = Some (pl_address p)
           ∧ pl_address p = BASE + pl_file_offset p
           ∧ seg ∈ segments ∧ segment_ok layout seg ∧ contains seg p)
      ∧ NoDup (index_of <$> placements layout)
      ∧ (∀ p, p ∈ placements layout → header_size objects ≤ pl_file_offset p)
      ∧ (∀ i j p q, placements layout !! i = Some p → placements layout !! j = Some q → (i < j)%nat →
           pl_address p + pl_memory_size p ≤ pl_address q)
      ∧ (∀ i j s t, segments !! i = Some s → segments !! j = Some t → (i < j)%nat →
           seg_address s + seg_memory_size s ≤ seg_address t)
      ∧ lay_file_size layout ≤ max_bytes
  | Err e => ¬ link_inputs_ok objects ∨ layout_limit e
  | Panic => False
  end.
Proof.
  pose proof (executable_layout_yields objects max_bytes Htyped) as Hy.
  destruct (executable_layout objects max_bytes) as [[layout segments]|e|]; [|done..].
  destruct Hy as [Hin Hex]. cbn in Hex.
  assert (Forall object_ok objects) as Hok by (eapply Forall_impl; [exact Hin|by intros o [_ ?]]).
  split; [intros oi si s; by eapply section_placed|]. split; [by eapply placements_NoDup|].
  destruct Hex as [Hl _ _ [Hne _]]. split; [|split; [|split]].
  - intros p Hp. pose proof (chain_bounds _ _ _ _ _ _ (lo_chain _ _ _ _ _ Hl) Hp). tauto.
  - intros i j p q Hi Hj Hij.
    pose proof (chain_disjoint _ _ _ _ _ _ _ _ _ (lo_chain _ _ _ _ _ Hl) Hi Hj Hij).
    pose proof (lo_address _ _ _ _ _ Hl) as Ha. rewrite Forall_lookup in Ha.
    rewrite (Ha _ _ Hi), (Ha _ _ Hj). lia.
  - intros i j s t Hi Hj Hij.
    pose proof (chain_disjoint _ _ _ _ _ _ _ _ _ (lo_segments _ _ _ _ _ Hl Hne) Hi Hj Hij).
    pose proof (lo_segment _ _ _ _ _ Hl) as Ha. rewrite Forall_lookup in Ha.
    rewrite (sg_address _ _ (Ha _ _ Hi)), (sg_address _ _ (Ha _ _ Hj)). lia.
  - by apply Hl.
Qed.

(** ** The payload layout *)

Definition initialised (p : SectionPlacement) : Prop := pl_kind p ≠ SectionKind.Bss.

Record payload_ok (objects : list ObjectFile) (base : Z) (layout : Layout) : Prop := {
  po_describes : Forall2 describes (all_items objects) (placements layout);
  po_offsets p : p ∈ placements layout →
    offset_at (section_offsets layout) (pl_object p) (pl_section p) = Some (pl_address p);
  po_memory : chain pl_address pl_memory_size base (placements layout) (base + lay_memory_size layout);
  po_file : chain pl_file_offset pl_file_size 0 (filter initialised (placements layout))
              (lay_file_size layout);
  po_aligned : Forall (λ p, (pl_align p | pl_file_offset p)) (placements layout);
  po_sizes : section_sizes layout = pl_memory_size <$> placements layout;
  po_base : base_address layout = base;
}.

(** The sections placed so far, behind those of the earlier objects. *)
Record payload_placed (items : list Item) (layout0 : Layout) (memory0 : Z) (layout : Layout)
    (memory_end : Z) (ps : list SectionPlacement) : Prop := {
  pp_placements : placements layout = placements layout0 ++ ps;
  pp_describes : Forall2 describes items ps;
  pp_memory : chain pl_address pl_memory_size memory0 ps memory_end;
  pp_file : chain pl_file_offset pl_file_size (lay_file_size layout0) (filter initialised ps)
              (lay_file_size layout);
  pp_aligned : Forall (λ p, (pl_align p | pl_file_offset p)) ps;
  pp_sizes : section_sizes layout = section_sizes layout0 ++ (pl_memory_size <$> ps);
  pp_bound : memory0 < 2 ^ 64 → memory_end < 2 ^ 64;
}.

Lemma payload_placed_nil layout memory : payload_placed [] layout memory layout memory [].
Proof. split; cbn; rewrite ?app_nil_r; try done; try lia. Qed.

Lemma payload_placed_trans xs ys l0 m0 l1 m1 l2 m2 ps qs :
  payload_placed xs l0 m0 l1 m1 ps → payload_placed ys l1 m1 l2 m2 qs →
  payload_placed (xs ++ ys) l0 m0 l2 m2 (ps ++ qs).
Proof.
  intros [P1 D1 M1 F1 A1 S1 B1] [P2 D2 M2 F2 A2 S2 B2]. split.
  - by rewrite P2, P1, app_assoc.
  - by apply Forall2_app.
  - by eapply chain_app.
  - rewrite filter_app. by eapply chain_app.
  - by apply Forall_app.
  - by rewrite S2, S1, fmap_app, app_assoc.
  - auto.
Qed.

Lemma max_align_typed s : section_typed s → Z.max (sec_align s) 1 ≤ 2 ^ 64.
Proof. intros [_ _ _ ?]. lia. Qed.

Definition compute_error (e : Message) : Prop := True.

Lemma compute_section_yields oi offsets layout memory_end si sec :
  section_typed sec → 0 ≤ lay_file_size layout →
  yields compute_error (compute_section oi (offsets, layout, memory_end) (si, sec))
    (λ st, ∃ p, payload_placed [(oi, (si, sec))] layout memory_end st.1.2 st.2 [p]
       ∧ st.1.1 = offsets ++ [pl_address p]
       ∧ section_offsets st.1.2 = section_offsets layout
       ∧ base_address st.1.2 = base_address layout).
Proof.
  intros Ht Hfile. pose proof (max_align_typed _ Ht) as Hle. unfold compute_section. cbv zeta.
  apply yields_bind, yields_guard; [done|]. intros Hpow.
  apply yields_bind, yields_case; [apply memory_size_no_panic|done|].
  intros size (-> & Hsize & Hfill)%memory_size_Ok.
  apply yields_bind, yields_ok_or; [done|]. intros va Hva.
  apply align_up64_Some in Hva as (_ & Hdiv & Hva & _); [|done..].
  apply yields_bind, yields_ok_or; [done|]. intros next [-> Hnext]%checked_u_Some.
  apply yields_bind, yields_ok_or; [done|]. intros off Hoff.
  apply align_up64_Some in Hoff as (_ & Hdiv' & Hoff & _); [|done..].
  pose proof (data_len_nonneg sec) as Hlen. apply yields_bind.
  set (p := mkPlacement oi si (sec_kind sec) (Z.max (sec_align sec) 1) off va (file_size sec) (extent sec)).
  case_decide as Hk; cbn [yields].
  - exists p. split; [|done]. split; [done| | | | |done|cbn; lia].
    + apply Forall2_cons. split; [by split|done].
    + cbn. lia.
    + rewrite filter_cons_False by (unfold initialised; cbn; tauto). cbn. lia.
    + by apply Forall_cons.
  - apply yields_ok_or; [done|]. intros f [-> Hf]%checked_u_Some. cbn [yields].
    exists p. split; [|done]. split; [done| | | | |done|cbn; lia].
    + apply Forall2_cons. split; [by split|done].
    + cbn. lia.
    + rewrite filter_cons_True by done. cbn. unfold file_size in *. rewrite decide_False in * by done. lia.
    + by apply Forall_cons.
Qed.

Lemma compute_sections_yields oi layout memory_end ss :
  Forall section_typed ss → 0 ≤ lay_file_size layout →
  yields compute_error (try_fold (compute_section oi) (enumerate ss) ([], layout, memory_end))
    (λ st, ∃ ps, payload_placed (pair oi <$> enumerate ss) layout memory_end st.1.2 st.2 ps
       ∧ st.1.1 = pl_address <$> ps
       ∧ section_offsets st.1.2 = section_offsets layout
       ∧ base_address st.1.2 = base_address layout).
Proof.
  intros Ht Hf. apply (try_fold_yields _ _ (λ done st, ∃ ps,
    payload_placed (pair oi <$> done) layout memory_end st.1.2 st.2 ps
       ∧ st.1.1 = pl_address <$> ps ∧ section_offsets st.1.2 = section_offsets layout
       ∧ base_address st.1.2 = base_address layout)).
  { exists []. split; [apply payload_placed_nil|done]. }
  intros done [si sec] rest [[offsets l] m] Heq (ps & Hps & Ho0 & Hso & Hb). cbn [fst snd] in *. subst offsets.
  pose proof (chain_le _ _ _ _ _ (pp_file _ _ _ _ _ _ Hps)).
  eapply yields_mono, compute_section_yields; [done| | |lia].
  - intros [[offsets' l'] m'] (p & Hp & Ho & Hso' & Hb'). cbn [fst snd] in *. exists (ps ++ [p]).
    split; [rewrite fmap_app; by eapply payload_placed_trans|]. split; [by rewrite fmap_app, Ho|].
    split; congruence.
  - assert ((si, sec) ∈ enumerate ss) as Hin%elem_of_enumerate.
    { rewrite Heq. apply elem_of_app. right. apply elem_of_cons. by left. }
    by eapply Forall_lookup_1 in Ht.
Qed.

(** The state of the outer loop after some objects. *)
Record objects_placed (base : Z) (xs : list (nat * ObjectFile)) (layout : Layout) (memory_end : Z)
    : Prop := {
  op_placed : payload_placed (xs ≫= λ io, pair io.1 <$> enumerate (sections io.2))
    (mkLayout [] [] [] base 0 0) base layout memory_end (placements layout);
  op_offsets : length (section_offsets layout) = length xs;
  op_lookup p : p ∈ placements layout →
    offset_at (section_offsets layout) (pl_object p) (pl_section p) = Some (pl_address p);
  op_base : base_address layout = base;
}.

Lemma compute_object_yields base xs layout memory_end o :
  object_typed o → objects_placed base xs layout memory_end →
  yields compute_error (compute_object (layout, memory_end) (length xs, o))
    (λ st, objects_placed base (xs ++ [(length xs, o)]) st.1 st.2).
Proof.
  intros Ht [Hp Hlen Hlookup Hbase]. unfold compute_object.
  pose proof (chain_le _ _ _ _ _ (pp_file _ _ _ _ _ _ Hp)) as Hf. cbn [lay_file_size] in Hf.
  apply yields_bind, yields_map_err; [unfold validate_amd64; by case_decide|done|]. intros [] _.
  apply yields_bind. eapply yields_mono, compute_sections_yields; [done| |apply Ht|done].
  intros [[offsets l] m] (ps & Hps & Ho & Hso & Hb). cbn [fst snd] in *. subst offsets. cbn [yields fst snd].
  pose proof (payload_placed_trans _ _ _ _ _ _ _ _ _ _ Hp Hps) as Htr.
  pose proof (pp_placements _ _ _ _ _ _ Hps) as Hpl.
  split; cbn [section_offsets placements base_address].
  - rewrite bind_app, bind_singleton, Hpl. destruct Htr as [_ D M F A S B]. by split.
  - rewrite !length_app, Hso, Hlen. done.
  - rewrite Hpl, Hso. intros p [Hin|Hin]%elem_of_app.
    + specialize (Hlookup p Hin). unfold offset_at in *.
      destruct (section_offsets layout !! pl_object p) eqn:E; [|done].
      rewrite lookup_app_l by by eapply lookup_lt_Some. by rewrite E.
    + apply list_elem_of_lookup in Hin as [i Hi].
      eapply Forall2_lookup_r in Hi as Hx; [|apply (pp_describes _ _ _ _ _ _ Hps)].
      destruct Hx as (x & (y & -> & Hy)%list_lookup_fmap_Some & Hd).
      unfold enumerate in Hy. apply list_lookup_imap_Some in Hy as (s & Hs & ->).
      pose proof (de_index _ _ Hd) as [= Ho Hsec]. cbn in Ho, Hsec. unfold offset_at.
      rewrite Ho, Hsec, <- Hlen, lookup_app_r, Nat.sub_diag by done. simpl.
      rewrite list_lookup_fmap, Hi. done.
  - congruence.
Qed.

Lemma compute_yields objects base :
  Forall object_typed objects → 0 ≤ base < 2 ^ 64 →
  yields compute_error (compute objects base) (payload_ok objects base).
Proof.
  intros Ht Hbase. unfold compute. apply yields_bind.
  eapply yields_mono, (try_fold_yields _ _
    (λ done st, objects_placed base done st.1 st.2)).
  - done.
  - intros [layout m] [Hp _ Hlookup Hb]. cbn [fst snd] in *.
    pose proof (chain_le _ _ _ _ _ (pp_memory _ _ _ _ _ _ Hp)).
    pose proof (pp_bound _ _ _ _ _ _ Hp (proj2 Hbase)).
    rewrite debug_u_id by lia. cbn [mbind result_bind yields].
    destruct Hp as [_ D M F A S _]. split; try done.
    cbn. by replace (base + (m - base)) with m by lia.
  - split; cbn; [apply payload_placed_nil|done| |done]. intros p Hp. by apply not_elem_of_nil in Hp.
  - intros done [oi o] rest [layout m] Heq Hst. cbn [fst snd] in *.
    assert (enumerate objects !! length done = Some (oi, o)) as Hl.
    { rewrite Heq. by apply list_lookup_middle. }
    unfold enumerate in Hl. apply list_lookup_imap_Some in Hl as (o' & Ho & [= -> ->]).
    apply compute_object_yields; [|done]. by eapply Forall_lookup_1 in Ht.
Qed.

(** The payload layout never panics.  On success it places the sections in input order: each at
    an aligned address behind the one before it, from the base to the end of the memory it reports;
    the initialised ones likewise in the file, where BSS takes no room; and it records the address
    and the size of each section. *)
Theorem payload_layout_sound objects base
    (Htyped : Forall object_typed objects) (Hbase : 0 ≤ base < 2 ^ 64) :
  compute objects base ≠ Panic ∧
  (∀ layout, compute objects base = Ok layout → payload_ok objects base layout).
Proof.
  pose proof (compute_yields objects base Htyped Hbase) as Hy. split.
  - intros E. by rewrite E in Hy.
  - intros layout E. by rewrite E in Hy.
Qed.

(** ** The samples *)

Definition sample_layout : Layout * list Segment :=
  match executable_layout sample_objects 100000 with
  | Ok st => st
  | _ => (mkLayout [] [] [] 0 0 0, [])
  end.

Example sample_laid_out :
  section_offsets sample_layout.1 = [[0x4000f0; 0x401000; 0x401010]; [0x400100]].
Proof. by vm_compute. Qed.

Lemma executable_layout_sound_witness :
  is_ok (executable_layout sample_objects 100000) = true ∧
  (match executable_layout sample_objects 100000 with
   | Ok (layout, segments) =>
       (∀ oi si s, section_at sample_objects oi si = Some s →
          ∃ p seg, p ∈ placements layout ∧ describes (oi, (si, s)) p
            ∧ offset_at (section_offsets layout) oi si = Some (pl_address p)
            ∧ pl_address p = BASE + pl_file_offset p
            ∧ seg ∈ segments ∧ segment_ok layout seg ∧ contains seg p)
       ∧ NoDup (index_of <$> placements layout)
       ∧ (∀ p, p ∈ placements layout → header_size sample_objects ≤ pl_file_offset p)
       ∧ (∀ i j p q, placements layout !! i = Some p → placements layout !! j = Some q → (i < j)%nat →
            pl_address p + pl_memory_size p ≤ pl_address q)
       ∧ (∀ i j s t, segments !! i = Some s → segments !! j = Some t → (i < j)%nat →
            seg_address s + seg_memory_size s ≤ seg_address t)
       ∧ lay_file_size layout ≤ 100000
   | Err e => ¬ link_inputs_ok sample_objects ∨ layout_limit e
   | Panic => False
   end).
Proof.
  split; [by vm_compute|]. apply (executable_layout_sound sample_objects 100000 sample_objects_typed).
Defined.

Lemma payload_layout_sound_witness :
  is_ok (compute sample_objects 4096) = true ∧
  compute sample_objects 4096 ≠ Panic ∧
  (∀ layout, compute sample_objects 4096 = Ok layout → payload_ok sample_objects 4096 layout).
Proof.
  split; [by vm_compute|]. apply (payload_layout_sound sample_objects 4096 sample_objects_typed). lia.
Defined.
