(* ===== verification/Relocation.v ===== *)
(** * Relocations ([linker/src/core/relocation.rs])

    The checked, transactional application of the static AMD64 relocations to copies of the section
    payloads. *)
From stdpp Require Import sorting.
From S2P Require Export LinkLayout.
Local Open Scope Z_scope.

(** ** Errors *)

Module RelocErrorKind.
Inductive t := InvalidInput | Resolution | Layout_ | Unsupported | Range | Overlap | Limit.
#[global] Instance t_eq_dec : EqDecision t.
Proof. solve_decision. Defined.
End RelocErrorKind.

Record RelocationError := mkRelocError {
  re_kind : RelocErrorKind.t;
  re_object : option nat;
  re_section : option nat;
  re_offset : option Z;
  re_message : Message;
}.

Definition reloc_error (kind : RelocErrorKind.t) (message : Message) : RelocationError :=
  mkRelocError kind None None None message.

Definition debug_reloc_error (k : RelocErrorKind.t) : string :=
  match k with
  | RelocErrorKind.InvalidInput => "InvalidInput"
  | RelocErrorKind.Resolution => "Resolution"
  | RelocErrorKind.Layout_ => "Layout"
  | RelocErrorKind.Unsupported => "Unsupported"
  | RelocErrorKind.Range => "Range"
  | RelocErrorKind.Overlap => "Overlap"
  | RelocErrorKind.Limit => "Limit"
  end.

(** [Display]. *)
Definition display_reloc_error (e : RelocationError) : Message :=
  [Text "relocation "; Text (debug_reloc_error (re_kind e))]
  ++ match re_object e with Some o => [Text " in object "; Number (Z.of_nat o)] | None => [] end
  ++ match re_section e with Some s => [Text " section "; Number (Z.of_nat s)] | None => [] end
  ++ match re_offset e with Some at_ => [Text " at offset "; Number at_] | None => [] end
  ++ [Text ": "] ++ re_message e.

Definition reloc_error_code (k : RelocErrorKind.t) : string :=
  match k with
  | RelocErrorKind.InvalidInput => "link.relocation.input"
  | RelocErrorKind.Resolution => "link.relocation.symbol"
  | RelocErrorKind.Layout_ => "link.relocation.layout"
  | RelocErrorKind.Unsupported => "link.relocation.unsupported"
  | RelocErrorKind.Range => "link.relocation.range"
  | RelocErrorKind.Overlap => "link.relocation.overlap"
  | RelocErrorKind.Limit => "link.relocation.limit"
  end.

#[export] Instance reloc_error_diagnostic : ToDiagnostic RelocationError := λ e,
  mkDiagnostic "linker" "relocation" (reloc_error_code (re_kind e)) (re_message e)
    (match re_object e with Some o => [Context.Input o] | None => [] end
     ++ match re_section e with Some s => [Context.Section_ s None] | None => [] end
     ++ match re_offset e with Some at_ => [Context.SectionOffset at_] | None => [] end).

(** ** The ordered map of patched fields

    A [BTreeMap] from object, section and offset to the end of the field, as the list of its entries
    in the order of the keys. *)

Definition Key : Type := nat * nat * Z.
Definition key_compare (a b : Key) : comparison :=
  match (a.1.1 ?= b.1.1)%nat with
  | Eq => match (a.1.2 ?= b.1.2)%nat with Eq => a.2 ?= b.2 | c => c end
  | c => c
  end.
Definition key_le (a b : Key) : bool := match key_compare a b with Gt => false | _ => true end.

Notation Fields := (list (Key * Z)).

(** [range(..=key).next_back()] and [range(key..).next()]. *)
Definition last_upto (fs : Fields) (k : Key) : option (Key * Z) := last (filter (λ f, key_le f.1 k) fs).
Definition first_from (fs : Fields) (k : Key) : option (Key * Z) := head (filter (λ f, key_le k f.1) fs).

Fixpoint insert_field (k : Key) (v : Z) (fs : Fields) : Fields :=
  match fs with
  | [] => [(k, v)]
  | f :: fs =>
      match key_compare k f.1 with
      | Lt => (k, v) :: f :: fs
      | Eq => (k, v) :: fs
      | Gt => f :: insert_field k v fs
      end
  end.

(** A field meets the one before it or the one behind it. *)
Definition overlaps (occupied : Fields) (oi si : nat) (offset end_ : Z) : bool :=
  let key := (oi, si, offset) in
  match last_upto occupied key with
  | Some (o, s, _, e) => (o =? oi)%nat && (s =? si)%nat && (offset <? e)
  | None => false
  end
  || match first_from occupied key with
     | Some (o, s, start, _) => (o =? oi)%nat && (s =? si)%nat && (start <? end_)
     | None => false
     end.

(** ** One relocation *)

Definition symbol_address (layout : Layout) (symbol : ResolvedSymbol) (weak_undefined : bool)
  : result RelocationError Z :=
  match rs_object symbol, rs_section symbol with
  | Some owner, Some section =>
      ok_or (base ← offset_at (section_offsets layout) owner section;
             checked_u 64 (base + rs_value symbol))
        (reloc_error RelocErrorKind.Layout_ [Text "symbol address overflow or missing placement"])
  | None, None =>
      if weak_undefined then Ok 0
      else Err (reloc_error RelocErrorKind.Unsupported [Text "unsupported symbol address class"])
  | _, _ => Err (reloc_error RelocErrorKind.Unsupported [Text "unsupported symbol address class"])
  end.

(** The value to store and the width of the field. *)
Definition relocated (k : RelocKind) (absolute place : Z) : option (Z * Z) :=
  match k with
  | Absolute64 => Some (absolute, 8)
  | Absolute32 | SignedAbsolute32 => Some (absolute, 4)
  | Relative32 | PLT32 => Some (absolute - place, 4)
  | Relative8 => Some (absolute - place, 1)
  | GOTPCREL | MachSpecific _ _ | TargetSpecific _ _ | CoffSpecific _ _ => None
  end.

Definition fits (k : RelocKind) (value : Z) : bool :=
  match k with
  | Absolute64 => in_u 64 value
  | Absolute32 => in_u 32 value
  | SignedAbsolute32 | Relative32 | PLT32 => in_s 32 value
  | Relative8 => in_s 8 value
  | GOTPCREL | MachSpecific _ _ | TargetSpecific _ _ | CoffSpecific _ _ => false
  end.

Record Patch := mkPatch {
  pa_object : nat;
  pa_section : nat;
  pa_offset : Z;
  pa_width : Z;
  pa_bytes : list Z;
}.

Definition relocate (objects : list ObjectFile) (layout : Layout) (symbols : SymbolTable)
    (occupied : Fields) (r : ObjectRelocation) (ref : ResolvedReference)
  : result RelocationError (Patch * Fields) :=
  let oi := ref_object ref in
  let si := ref_section ref in
  object ← expect (objects !! oi);
  symbol ← expect (table_symbols symbols !! ref_target ref);
  target ← symbol_address layout symbol (ref_weak_undefined ref);
  base ← expect (offset_at (section_offsets layout) oi si);
  place ← ok_or (checked_u 64 (base + rel_offset r))
            (reloc_error RelocErrorKind.Layout_ [Text "relocation place overflow"]);
  let absolute := target + rel_addend r in
  '(value, width) ← ok_or (relocated (rel_kind r) absolute place)
    (reloc_error RelocErrorKind.Unsupported
       [Text "GOTPCREL requires unsupported dynamic/GOT structures"]);
  _ ← guard_err (fits (rel_kind r) value)
        (reloc_error RelocErrorKind.Range
           (debug_reloc (rel_kind r) ++ [Text " value "; Number value; Text " is out of range"]));
  let exceeds := reloc_error RelocErrorKind.Range [Text "patch exceeds section payload"] in
  end_ ← ok_or (checked_u 64 (rel_offset r + width)) exceeds;
  section ← expect (sections object !! si);
  _ ← guard_err (end_ <=? data_len section) exceeds;
  _ ← guard_err (negb (overlaps occupied oi si (rel_offset r) end_))
        (reloc_error RelocErrorKind.Overlap [Text "overlapping relocation patches"]);
  Ok (mkPatch oi si (rel_offset r) width (to_le_bytes 8 (wrapu 64 value)),
      insert_field (oi, si, rel_offset r) end_ occupied).

Definition locate_error (ref : ResolvedReference) (e : RelocationError) : RelocationError :=
  mkRelocError (re_kind e) (Some (ref_object ref)) (Some (ref_section ref)) (Some (ref_offset ref))
    (re_message e).

(** ** The whole of it *)

(** Every section has an address that leaves room for it, within the payload budget. *)
Definition check_section (layout : Layout) (max_bytes : Z) (oi : nat) (total : Z)
    (x : nat * Section_) : result RelocationError Z :=
  let '(si, section) := x in
  address ← ok_or (offset_at (section_offsets layout) oi si)
              (reloc_error RelocErrorKind.Layout_ [Text "missing section placement"]);
  size ← map_err (reloc_error RelocErrorKind.InvalidInput) (memory_size section);
  _ ← ok_or (checked_u 64 (address + size))
        (reloc_error RelocErrorKind.Layout_ [Text "section address overflow"]);
  let exceeded := reloc_error RelocErrorKind.Limit [Text "section payload budget exceeded"] in
  total ← ok_or (checked_u 64 (total + data_len section)) exceeded;
  _ ← guard_err (total <=? max_bytes) exceeded;
  Ok total.

Definition apply_patch (payloads : list (list (list Z))) (p : Patch)
  : result RelocationError (list (list (list Z))) :=
  row ← expect (payloads !! pa_object p);
  data ← expect (row !! pa_section p);
  _ ← expect (if pa_offset p + pa_width p <=? Z.of_nat (length data) then Some tt else None);
  let data := splice (Z.to_nat (pa_offset p)) (take (Z.to_nat (pa_width p)) (pa_bytes p)) data in
  Ok (<[pa_object p := <[pa_section p := data]> row]> payloads).

Definition apply_relocations (objects : list ObjectFile) (layout : Layout) (max_bytes : Z)
  : result RelocationError (list (list (list Z))) :=
  symbols ← map_err (reloc_error RelocErrorKind.Resolution) (resolve_new objects);
  _ ← try_fold (λ total io, try_fold (check_section layout max_bytes io.1)
                              (enumerate (sections io.2)) total) (enumerate objects) 0;
  '(patches, _) ← try_fold (λ st x,
      '(p, occupied) ← map_err (locate_error x.2) (relocate objects layout symbols st.2 x.1 x.2);
      Ok (st.1 ++ [p], occupied))
    (zip (objects ≫= relocations) (table_references symbols)) ([], []);
  try_fold apply_patch patches ((λ o, sec_data <$> sections o) <$> objects).

(** ** The ordered map *)

Definition key_lt (a b : Key) : Prop :=
  (a.1.1 < b.1.1)%nat ∨ a.1.1 = b.1.1 ∧ ((a.1.2 < b.1.2)%nat ∨ a.1.2 = b.1.2 ∧ a.2 < b.2).

Lemma key_compare_spec a b : CompareSpec (a = b) (key_lt a b) (key_lt b a) (key_compare a b).
Proof.
  unfold key_compare, key_lt. destruct a as [[a1 a2] a3], b as [[b1 b2] b3]. simpl.
  destruct (Nat.compare_spec a1 b1); [|constructor; lia..].
  destruct (Nat.compare_spec a2 b2); [|constructor; lia..].
  destruct (Z.compare_spec a3 b3); constructor; [congruence|lia..].
Qed.

Lemma key_le_spec a b : key_le a b = true ↔ a = b ∨ key_lt a b.
Proof.
  unfold key_le. destruct (key_compare_spec a b) as [->|H|H]; [by split; auto|by split; auto|].
  split; [done|]. intros [->|?]; unfold key_lt in *; lia.
Qed.

Record fields_ok (fs : Fields) : Prop := {
  fo_sorted : StronglySorted (λ f g, key_lt f.1 g.1) fs;
  fo_nonempty f : f ∈ fs → f.1.2 < f.2;
  fo_disjoint f g : f ∈ fs → g ∈ fs → f.1.1 = g.1.1 → f.1.2 < g.1.2 → f.2 ≤ g.1.2;
}.

Lemma last_upto_Some fs k f :
  StronglySorted (λ f g, key_lt f.1 g.1) fs → last_upto fs k = Some f →
  f ∈ fs ∧ key_le f.1 k = true ∧ ∀ g, g ∈ fs → key_le g.1 k = true → g = f ∨ key_lt g.1 f.1.
Proof.
  intros Hs (l & Hl)%last_Some.
  assert (∀ g, g ∈ fs ∧ key_le g.1 k = true ↔ g ∈ l ++ [f]) as Hin.
  { intros g. rewrite <- Hl, list_elem_of_filter, Is_true_true. tauto. }
  destruct (proj2 (Hin f)) as [Hf Hk]; [apply elem_of_app; right; by apply list_elem_of_singleton|].
  split; [done|]. split; [done|]. intros g Hg Hgk.
  pose proof (proj1 (Hin g) (conj Hg Hgk)) as Hgl.
  apply elem_of_app in Hgl as [Hgl|Hgf%list_elem_of_singleton]; [|by left].
  right. eapply (StronglySorted_app_1_elem_of (λ f g : Key * Z, key_lt f.1 g.1) l [f]); [|done|by apply list_elem_of_singleton].
  rewrite <- Hl. clear -Hs. induction Hs as [|x l Hs IH Hx]; [constructor|].
  destruct (decide (key_le x.1 k)); [rewrite filter_cons_True by done|by rewrite filter_cons_False].
  constructor; [done|]. apply Forall_forall. intros y [_ Hy]%list_elem_of_filter. rewrite Forall_forall in Hx. by apply Hx.
Qed.

Lemma first_from_Some fs k f :
  StronglySorted (λ f g, key_lt f.1 g.1) fs → first_from fs k = Some f →
  f ∈ fs ∧ key_le k f.1 = true ∧ ∀ g, g ∈ fs → key_le k g.1 = true → g = f ∨ key_lt f.1 g.1.
Proof.
  intros Hs Hf. unfold first_from in Hf. induction Hs as [|x l Hs IH Hx]; [done|].
  destruct (decide (key_le k x.1)) as [Hk|Hk];
    [rewrite filter_cons_True in Hf by done|rewrite filter_cons_False in Hf by done].
  - injection Hf as <-. apply Is_true_true in Hk. split; [apply elem_of_cons; by left|].
    split; [done|]. intros g [->|Hg]%elem_of_cons _; [by left|]. right.
    rewrite Forall_forall in Hx. by apply Hx.
  - destruct (IH Hf) as (Hin & Hle & Hg). split; [apply elem_of_cons; by right|]. split; [done|].
    intros g [->|Hgl]%elem_of_cons Hkg; [|auto]. by apply Is_true_true in Hkg.
Qed.

Lemma first_from_None fs k g : first_from fs k = None → g ∈ fs → key_le k g.1 = false.
Proof.
  intros Hn Hg. apply (proj1 (head_filter_None _ _) Hn g) in Hg. by apply Is_true_false in Hg.
Qed.
Lemma last_upto_None fs k g : last_upto fs k = None → g ∈ fs → key_le g.1 k = false.
Proof.
  intros Hn%last_None Hg. destruct (key_le g.1 k) eqn:E; [|done].
  assert (g ∈ filter (λ f, key_le f.1 k) fs) as Hin.
  { apply list_elem_of_filter. split; [by apply Is_true_true|done]. }
  rewrite Hn in Hin. by apply not_elem_of_nil in Hin.
Qed.

(** Looking at the two neighbours finds every overlap. *)
Lemma overlaps_spec fs oi si off end_ :
  fields_ok fs → off < end_ →
  overlaps fs oi si off end_ = true ↔ ∃ f, f ∈ fs ∧ f.1.1 = (oi, si) ∧ f.1.2 < end_ ∧ off < f.2.
Proof.
  intros [Hs Hne Hdis] Hoe. unfold overlaps. rewrite orb_true_iff. split.
  - intros [H|H].
    + destruct (last_upto _ _) as [[[[o s] b] e]|] eqn:E; [|done]. apply last_upto_Some in E as (Hin & Hk & _); [|done].
      apply andb_true_iff in H as [[->%Nat.eqb_eq ->%Nat.eqb_eq]%andb_true_iff He%Z.ltb_lt].
      eexists. split; [done|]. simpl. split; [done|]. apply key_le_spec in Hk. unfold key_lt in Hk. simpl in Hk.
      split; [|done]. destruct Hk as [[= ->]|Hk]; lia.
    + destruct (first_from _ _) as [[[[o s] b] e]|] eqn:E; [|done]. apply first_from_Some in E as (Hin & Hk & _); [|done].
      apply andb_true_iff in H as [[->%Nat.eqb_eq ->%Nat.eqb_eq]%andb_true_iff He%Z.ltb_lt].
      eexists. split; [done|]. simpl. split; [done|]. split; [done|]. apply key_le_spec in Hk.
      specialize (Hne _ Hin). unfold key_lt in Hk. simpl in *. destruct Hk as [[= ->]|Hk]; lia.
  - intros ([[[o s] b] e] & Hin & [= -> ->] & Hb & He). simpl in *.
    destruct (Z.le_gt_cases b off) as [Hle|Hgt].
    + left. assert (key_le (oi, si, b) (oi, si, off) = true) as Hk.
      { apply key_le_spec. unfold key_lt. simpl. destruct (decide (b = off)) as [->|]; [by left|right; lia]. }
      destruct (last_upto fs (oi, si, off)) as [[[[o s] b'] e']|] eqn:E.
      2: { eapply last_upto_None in E; [|exact Hin]. simpl in E. congruence. }
      apply last_upto_Some in E as (Hin' & Hk' & Hmax); [|done].
      destruct (Hmax _ Hin Hk) as [[= -> -> -> ->]|Hlt]; [rewrite !Nat.eqb_refl; simpl; lia|].
      apply key_le_spec in Hk'. unfold key_lt in Hlt, Hk'. simpl in *.
      assert (o = oi ∧ s = si ∧ b < b' ∧ b' ≤ off) as (-> & -> & ? & ?).
      { destruct Hk' as [[= -> -> ->]|?]; repeat split; lia. }
      specialize (Hdis _ _ Hin Hin' eq_refl). simpl in Hdis. lia.
    + right. assert (key_le (oi, si, off) (oi, si, b) = true) as Hk.
      { apply key_le_spec. unfold key_lt. simpl. right. lia. }
      destruct (first_from fs (oi, si, off)) as [[[[o s] b'] e']|] eqn:E.
      2: { eapply first_from_None in E; [|exact Hin]. simpl in E. congruence. }
      apply first_from_Some in E as (Hin' & Hk' & Hmin); [|done].
      apply key_le_spec in Hk'. unfold key_lt in Hk'. simpl in *.
      assert (o = oi ∧ s = si ∧ b' ≤ b) as (-> & -> & ?).
      { destruct (Hmin _ Hin Hk) as [[= -> -> -> ->]|Hlt]; [repeat split; lia|].
        unfold key_lt in Hlt. simpl in Hlt. destruct Hk' as [[= -> -> ->]|?]; repeat split; lia. }
      rewrite !Nat.eqb_refl. simpl. lia.
Qed.

Lemma elem_of_insert_field f k v fs :
  StronglySorted (λ f g, key_lt f.1 g.1) fs → (∀ g, g ∈ fs → g.1 ≠ k) →
  f ∈ insert_field k v fs ↔ f = (k, v) ∨ f ∈ fs.
Proof.
  intros Hs Hk. induction Hs as [|g l Hs IH Hg]; simpl; [by rewrite list_elem_of_singleton, elem_of_nil; tauto|].
  destruct (key_compare_spec k g.1) as [E|E|E].
  - destruct (Hk g); [apply elem_of_cons; by left|done].
  - rewrite !elem_of_cons. tauto.
  - rewrite !elem_of_cons, IH; [tauto|]. intros g' Hg'. apply Hk. apply elem_of_cons. by right.
Qed.

Lemma insert_field_sorted k v fs :
  StronglySorted (λ f g, key_lt f.1 g.1) fs → (∀ g, g ∈ fs → g.1 ≠ k) →
  StronglySorted (λ f g, key_lt f.1 g.1) (insert_field k v fs).
Proof.
  intros Hs Hk. induction Hs as [|g l Hs IH Hg]; simpl; [by repeat constructor|].
  assert (∀ g', g' ∈ l → g'.1 ≠ k) as Hk'.
  { intros g' Hg'. apply Hk. apply elem_of_cons. by right. }
  destruct (key_compare_spec k g.1) as [E|E|E].
  - destruct (Hk g); [apply elem_of_cons; by left|done].
  - constructor; [by constructor|]. constructor; [done|].
    eapply Forall_impl; [exact Hg|]. simpl. unfold key_lt in *. intros h ?. lia.
  - constructor; [auto|]. apply Forall_forall. intros h Hh%elem_of_insert_field; [|done..].
    destruct Hh as [->|Hh]; [done|]. rewrite Forall_forall in Hg. by apply Hg.
Qed.

Lemma insert_field_ok fs oi si off end_ :
  fields_ok fs → off < end_ → overlaps fs oi si off end_ = false →
  fields_ok (insert_field (oi, si, off) end_ fs)
  ∧ ∀ f, f ∈ insert_field (oi, si, off) end_ fs ↔ f = (oi, si, off, end_) ∨ f ∈ fs.
Proof.
  intros Hfs Hoe Hno.
  assert (∀ f, f ∈ fs → f.1.1 = (oi, si) → end_ ≤ f.1.2 ∨ f.2 ≤ off) as Hdis.
  { intros f Hf Heq. destruct (decide (end_ ≤ f.1.2)); [by left|]. destruct (decide (f.2 ≤ off)); [by right|].
    assert (overlaps fs oi si off end_ = true) as Ht; [|congruence].
    apply overlaps_spec; [done..|]. exists f. split; [done|]. split; [done|]. lia. }
  pose proof (fo_nonempty _ Hfs) as Hne.
  assert (∀ f, f ∈ fs → f.1 ≠ (oi, si, off)) as Hk.
  { intros f Hf Heq. specialize (Hne f Hf). destruct (Hdis f Hf); rewrite Heq in *; simpl in *; try done; lia. }
  assert (∀ f, f ∈ insert_field (oi, si, off) end_ fs ↔ f = (oi, si, off, end_) ∨ f ∈ fs) as Hin.
  { intros f. apply elem_of_insert_field; [apply Hfs|done]. }
  split; [|done]. split.
  - apply insert_field_sorted; [apply Hfs|done].
  - intros f [->|Hf]%Hin; [done|by apply Hne].
  - intros f g [->|Hf]%Hin [->|Hg]%Hin Heq Hlt; simpl in *.
    + lia.
    + destruct (Hdis g Hg ltac:(congruence)); [done|]. specialize (Hne g Hg). lia.
    + destruct (Hdis f Hf ltac:(congruence)); lia.
    + by apply (fo_disjoint _ Hfs f g).
Qed.

(** ** What a relocation stores, and when it can be applied *)

Section meaning.
Context (objects : list ObjectFile) (layout : Layout).

(** S and P of a reference. *)
Definition target_address (x : reference) : option Z :=
  match chosen (definitions objects) (key_referenced x) with
  | Some d => si ← sym_section d.2; base ← offset_at (section_offsets layout) d.1 si;
              checked_u 64 (base + sym_value d.2)
  | None => Some 0
  end.
Definition place_address (x : reference) : option Z :=
  base ← offset_at (section_offsets layout) x.1.1 (rel_section x.2);
  checked_u 64 (base + rel_offset x.2).

(** The value and the width of the field, where the value fits. *)
Definition field_value (x : reference) : option (Z * Z) :=
  s ← target_address x;
  p ← place_address x;
  vw ← relocated (rel_kind x.2) (s + rel_addend x.2) p;
  if fits (rel_kind x.2) vw.1 then Some vw else None.

(** The field of a reference lies in its payload and its value fits. *)
Definition has_field (x : reference) (value width : Z) : Prop :=
  field_value x = Some (value, width)
  ∧ ∃ s, section_at objects x.1.1 (rel_section x.2) = Some s ∧ rel_offset x.2 + width ≤ data_len s.

(** Where two fields would meet. *)
Definition collide (x y : reference) : Prop :=
  x.1.1 = y.1.1 ∧ rel_section x.2 = rel_section y.2 ∧
  ∃ v w v' w', field_value x = Some (v, w) ∧ field_value y = Some (v', w')
    ∧ rel_offset x.2 < rel_offset y.2 + w' ∧ rel_offset y.2 < rel_offset x.2 + w.

Record applicable (max_bytes : Z) : Prop := {
  ap_resolvable : resolvable objects;
  ap_placed oi si s : section_at objects oi si = Some s →
    ∃ a, offset_at (section_offsets layout) oi si = Some a ∧ 0 ≤ a + extent s < 2 ^ 64;
  ap_bytes : payload_of objects ≤ max_bytes;
  ap_fields x : x ∈ references_of objects → ∃ v w, has_field x v w;
  ap_disjoint i j x y : references_of objects !! i = Some x → references_of objects !! j = Some y →
    (i < j)%nat → ¬ collide x y;
}.
End meaning.

Definition payload_at (payloads : list (list (list Z))) (oi si : nat) : option (list Z) :=
  row ← payloads !! oi; row !! si.

(** A byte position of a section that belongs to the field of a reference. *)
Definition covers (objects : list ObjectFile) (layout : Layout) (oi si : nat) (j : nat)
    (x : reference) : Prop :=
  x.1.1 = oi ∧ rel_section x.2 = si ∧
  ∃ v w, field_value objects layout x = Some (v, w) ∧
    rel_offset x.2 ≤ Z.of_nat j < rel_offset x.2 + w.

Definition signed_kind (k : RelocKind) : bool :=
  match k with SignedAbsolute32 | Relative32 | PLT32 | Relative8 => true | _ => false end.

(** The value of a field as the instruction reads it. *)
Definition read_field (k : RelocKind) (bytes : list Z) : Z :=
  let v := from_le_bytes bytes in
  if signed_kind k then wraps (8 * Z.of_nat (length bytes)) v else v.

Record patched (objects : list ObjectFile) (layout : Layout) (payloads : list (list (list Z)))
    : Prop := {
  pt_shape oi si : is_Some (payload_at payloads oi si) ↔ is_Some (section_at objects oi si);
  pt_length oi si s bytes : section_at objects oi si = Some s →
    payload_at payloads oi si = Some bytes → length bytes = length (sec_data s);
  pt_field x v w bytes : x ∈ references_of objects → has_field objects layout x v w →
    payload_at payloads x.1.1 (rel_section x.2) = Some bytes →
    read_field (rel_kind x.2) (take (Z.to_nat w) (drop (Z.to_nat (rel_offset x.2)) bytes)) = v;
  pt_else oi si s bytes j : section_at objects oi si = Some s →
    payload_at payloads oi si = Some bytes →
    (∀ x, x ∈ references_of objects → ¬ covers objects layout oi si j x) →
    bytes !! j = sec_data s !! j;
}.

Lemma relocated_width k a p v w : relocated k a p = Some (v, w) → w = 1 ∨ w = 4 ∨ w = 8.
Proof. destruct k; simpl; intros [= <- <-]; auto. Qed.

Lemma take_le_bytes n m z : (n ≤ m)%nat → take n (to_le_bytes m z) = to_le_bytes n z.
Proof.
  revert m z. induction n as [|n IH]; intros [|m] z Hle; simpl; try done; [lia|].
  f_equal. apply IH. lia.
Qed.

Lemma to_le_bytes_mod n w z : 8 * Z.of_nat n ≤ w → to_le_bytes n (wrapu w z) = to_le_bytes n z.
Proof.
  revert w z. induction n as [|n IH]; intros w z Hw; [done|]. simpl. unfold wrapu in *.
  rewrite Nat2Z.inj_succ in Hw.
  assert (2 ^ w = 256 * 2 ^ (w - 8)) as Hp.
  { change 256 with (2 ^ 8). rewrite <- Z.pow_add_r by lia. f_equal. lia. }
  pose proof (pow2_pos (w - 8) ltac:(lia)). f_equal.
  - apply Z.mod_mod_divide. rewrite Hp. apply Z.divide_factor_l.
  - rewrite Hp, Z.rem_mul_r by lia. rewrite (Z.mul_comm 256), Z.div_add by lia.
    rewrite Z.div_small, Z.add_0_l by (apply Z.mod_pos_bound; lia). apply IH. lia.
Qed.

(** A value that fits is read back from its bytes. *)
Lemma read_field_correct k a p v w :
  relocated k a p = Some (v, w) → fits k v = true →
  read_field k (to_le_bytes (Z.to_nat w) v) = v.
Proof.
  intros Hr Hf. unfold read_field. rewrite length_to_le_bytes, from_to_le_bytes.
  assert (∀ b, 0 < b → in_s b v = true → wraps b (v mod 2 ^ b) = v) as Hs.
  { intros b Hb Hin. apply in_s_spec in Hin. change (v mod 2 ^ b) with (wrapu b v).
    rewrite wraps_wrapu by lia. by apply wraps_id. }
  destruct k; simpl in *; try done; injection Hr as <- <-;
    first [apply (Hs 32); done | apply (Hs 8); done | apply in_u_spec in Hf; by apply Z.mod_small].
Qed.

(** ** One relocation, given the table *)

Section relocate.
Context (objects : list ObjectFile) (layout : Layout) (t : SymbolTable).
Context (Htyped : Forall object_typed objects).
Context (Hres : resolvable objects) (Ht : table_ok objects t).
Context (Hplaced : ∀ oi si s, section_at objects oi si = Some s →
  ∃ a, offset_at (section_offsets layout) oi si = Some a ∧ 0 ≤ a + extent s < 2 ^ 64).
#[local] Set Default Proof Using "Type*".

Lemma elem_of_references i o r :
  (i, o, r) ∈ references_of objects ↔ objects !! i = Some o ∧ r ∈ relocations o.
Proof using objects.
  unfold references_of. rewrite list_elem_of_bind. split.
  - intros ([i' o'] & (r' & [= -> -> ->] & Hr)%list_elem_of_fmap & Ho%elem_of_enumerate). done.
  - intros [Ho Hr]. exists (i, o). split; [|by apply elem_of_enumerate].
    apply list_elem_of_fmap. by exists r.
Qed.

(** The section a reference patches. *)
Lemma reference_section i o r :
  (i, o, r) ∈ references_of objects →
  ∃ s, objects !! i = Some o ∧ sections o !! rel_section r = Some s ∧ section_at objects i (rel_section r) = Some s
    ∧ 0 ≤ rel_offset r.
Proof using Htyped Hres.
  intros [Ho Hr]%elem_of_references. pose proof (rv_inputs _ Hres) as Hin.
  eapply Forall_lookup_1 in Hin as [_ Hok]; [|exact Ho].
  eapply Forall_lookup_1 in Htyped; [|exact Ho].
  pose proof (oo_relocations _ Hok) as Hrel. rewrite Forall_forall in Hrel.
  pose proof (ot_relocations _ Htyped) as Hrt. rewrite Forall_forall in Hrt.
  destruct (ro_field _ _ (Hrel r Hr)) as (s & _ & _ & Hs & _). exists s.
  split; [done|]. split; [done|]. unfold section_at. rewrite Ho. split; [done|]. apply (Hrt r Hr).
Qed.

Lemma symbol_lookup x :
  x ∈ references_of objects →
  ∃ symbol, table_symbols t !! key_referenced x = Some symbol ∧
    ∃ e, symbol_address layout symbol (bool_decide (chosen (definitions objects) (key_referenced x) = None))
      = ok_or (target_address objects layout x) e.
Proof.
  intros Hx. rewrite (to_symbols _ _ Ht). unfold target_address.
  destruct (chosen (definitions objects) (key_referenced x)) as [d|] eqn:Ed.
  - eexists. split; [done|]. destruct (chosen_Some _ _ _ Ed) as [_ Hd].
    apply list_elem_of_bind in Hd as ([i o] & (s & -> & [Hdef _]%list_elem_of_filter)%list_elem_of_fmap & _).
    unfold is_defined in Hdef. apply Is_true_true, bool_decide_eq_true in Hdef as [si Hsi].
    unfold symbol_address. simpl. rewrite Hsi. simpl. eexists. done.
  - pose proof (rv_references _ Hres) as Hl. fold (linked objects) in Hl.
    change (Forall (linked objects) (references_of objects)) in Hl.
    destruct (first_reference (references_of objects) (key_referenced x)) as [y|] eqn:Ey.
    2: { by destruct (proj1 (head_filter_None _ _) Ey x Hx). }
    assert (∃ d, declaration_of y = Some d) as [d Hd].
    { apply head_filter_Some in Ey as [Hk Hy]. rewrite Forall_forall in Hl.
      destruct (Hl y Hy) as [[? Hs]|Hw]; [rewrite Hk in Hs; congruence|].
      destruct (declaration_of y); [by eexists|done]. }
    simpl. rewrite Hd. simpl. eexists. split; [done|]. unfold symbol_address. simpl.
    exists (reloc_error RelocErrorKind.Unsupported []). done.
Qed.

(** The fields of the references before this one. *)
Record occupied_by (xs : list reference) (occupied : Fields) : Prop := {
  oc_ok : fields_ok occupied;
  oc_fields f : f ∈ occupied ↔ ∃ x v w, x ∈ xs ∧ has_field objects layout x v w
    ∧ f = (x.1.1, rel_section x.2, rel_offset x.2, rel_offset x.2 + w);
  oc_has x : x ∈ xs → ∃ v w, has_field objects layout x v w;
  oc_disjoint i j x y : xs !! i = Some x → xs !! j = Some y → (i < j)%nat →
    ¬ collide objects layout x y;
}.

Definition patch_of (x : reference) (p : Patch) : Prop :=
  ∃ v w, has_field objects layout x v w ∧
    p = mkPatch x.1.1 (rel_section x.2) (rel_offset x.2) w (to_le_bytes 8 (wrapu 64 v)).

Lemma field_value_width x v w : field_value objects layout x = Some (v, w) → w = 1 ∨ w = 4 ∨ w = 8.
Proof using objects layout.
  unfold field_value. destruct (target_address _ _ _) as [a|]; [|done]. simpl.
  destruct (place_address _ _) as [p|]; [|done]. simpl.
  destruct (relocated _ _ _) as [[v' w']|] eqn:E; [|done]. simpl.
  destruct (fits _ _); [|done]. intros [= <- <-]. by eapply relocated_width.
Qed.

Lemma relocate_yields xs occupied x :
  x ∈ references_of objects → (∀ y, y ∈ xs → y ∈ references_of objects) → occupied_by xs occupied →
  yields (λ _, (¬ ∃ v w, has_field objects layout x v w) ∨ ∃ y, y ∈ xs ∧ collide objects layout y x)
    (relocate objects layout t occupied x.2 (made objects x))
    (λ st, patch_of x st.1 ∧ occupied_by (xs ++ [x]) st.2).
Proof.
  intros Hx Hxs Hocc. destruct x as [[i o] r].
  destruct (reference_section _ _ _ Hx) as (s & Ho & Hs & Hsec & Hoff).
  destruct (Hplaced _ _ _ Hsec) as (base & Hbase & Hext).
  destruct (symbol_lookup _ Hx) as (symbol & Hsym & e & Haddr).
  set (x := (i, o, r)) in *. unfold relocate. cbv zeta. change (snd x) with r.
  change (ref_object (made objects x)) with i. change (ref_section (made objects x)) with (rel_section r).
  change (ref_target (made objects x)) with (key_referenced x).
  change (ref_weak_undefined (made objects x))
    with (bool_decide (chosen (definitions objects) (key_referenced x) = None)).
  rewrite Ho, Hsym. cbn [expect mbind result_bind]. rewrite Haddr. clear Haddr.
  assert (place_address layout x = checked_u 64 (base + rel_offset r)) as Hplace.
  { unfold place_address. simpl. by rewrite Hbase. }
  (* the address of the symbol *)
  apply yields_bind, yields_ok_or.
  { intros Ha. left. intros (v & w & Hv & _). unfold field_value in Hv. by rewrite Ha in Hv. }
  intros a Ha. rewrite Hbase. cbn [expect mbind result_bind].
  apply yields_bind, yields_ok_or.
  { intros Hp. left. intros (v & w & Hv & _). unfold field_value in Hv. by rewrite Ha, Hplace, Hp in Hv. }
  intros p Hp.
  apply yields_bind, yields_ok_or.
  { intros Hr. left. intros (v & w & Hv & _). unfold field_value in Hv. rewrite Ha, Hplace, Hp in Hv.
    simpl in Hv. by rewrite Hr in Hv. }
  intros [v w] Hr. pose proof (relocated_width _ _ _ _ _ Hr) as Hw.
  apply yields_bind, yields_guard.
  { intros Hf. left. intros (v' & w' & Hv & _). unfold field_value in Hv. rewrite Ha, Hplace, Hp in Hv.
    simpl in Hv. rewrite Hr in Hv. simpl in Hv. by rewrite Hf in Hv. }
  intros Hf. assert (field_value objects layout x = Some (v, w)) as Hfv.
  { unfold field_value. rewrite Ha, Hplace, Hp. simpl. rewrite Hr. simpl. by rewrite Hf. }
  (* the room for it *)
  assert ((∃ v w, has_field objects layout x v w) → rel_offset r + w ≤ data_len s) as Hroom.
  { intros (v' & w' & Hv & s' & Hs' & Hle). simpl in Hs', Hle.
    rewrite Hfv in Hv. injection Hv as <- <-. rewrite Hsec in Hs'. by injection Hs' as <-. }
  destruct (section_at_typed _ _ _ _ Htyped Hsec) as [_ Hlen _ _].
  apply yields_bind, yields_ok_or.
  { intros Hn%checked_u_None. left. intros Hle%Hroom. unfold data_len in Hle. lia. }
  intros ? [-> He]%checked_u_Some. rewrite Hs. cbn [expect mbind result_bind].
  apply yields_bind, yields_guard.
  { intros Hn%Z.leb_gt. left. intros Hle%Hroom. lia. }
  intros Hle%Z.leb_le.
  assert (has_field objects layout x v w) as Hhas by (split; [done|]; by exists s).
  (* the other fields *)
  assert (rel_offset r < rel_offset r + w) as Hlt by lia.
  pose proof (overlaps_spec occupied i (rel_section r) _ _ (oc_ok _ _ Hocc) Hlt) as Hover.
  assert (overlaps occupied i (rel_section r) (rel_offset r) (rel_offset r + w) = true ↔
    ∃ y, y ∈ xs ∧ (∃ v w, has_field objects layout y v w) ∧ collide objects layout y x) as Hcol.
  { rewrite Hover. setoid_rewrite (oc_fields _ _ Hocc). split.
    - intros (f & (y & v' & w' & Hy & Hfy & ->) & [= Hi Hsi] & H1 & H2). simpl in *.
      exists y. split; [done|]. split; [by exists v', w'|]. split; [done|]. split; [done|].
      exists v', w', v, w. split; [apply Hfy|]. split; [done|]. simpl. lia.
    - intros (y & Hy & (v' & w' & Hfy) & Hi & Hsi & vy & wy & vx & wx & Hvy & Hvx & H1 & H2).
      rewrite (proj1 Hfy) in Hvy. injection Hvy as <- <-. rewrite Hfv in Hvx. injection Hvx as <- <-.
      eexists. split; [by exists y, v', w'|]. simpl in *. split; [by rewrite Hi, Hsi|]. lia. }
  apply yields_bind, yields_guard.
  { intros Hn%negb_false_iff. apply Hcol in Hn as (y & Hy & _ & Hc). right. by exists y. }
  intros Hno%negb_true_iff. cbn [yields fst snd].
  destruct (insert_field_ok _ _ _ _ _ (oc_ok _ _ Hocc) Hlt Hno) as [Hfok Hfin].
  split; [by exists v, w|]. split; [done| | |].
  - intros f. rewrite Hfin, (oc_fields _ _ Hocc). split.
    + intros [->|(y & v' & w' & Hy & Hfy & ->)].
      * exists x, v, w. split; [apply elem_of_app; right; by apply list_elem_of_singleton|done].
      * exists y, v', w'. split; [apply elem_of_app; by left|done].
    + intros (y & v' & w' & [Hy|Hy%list_elem_of_singleton]%elem_of_app & Hfy & ->); [|subst y].
      * right. by exists y, v', w'.
      * left. destruct Hfy as [Hfy _]. rewrite Hfv in Hfy. by injection Hfy as <- <-.
  - intros y [Hy|Hy%list_elem_of_singleton]%elem_of_app; [|subst y]; [by apply (oc_has _ _ Hocc)|by exists v, w].
  - intros a' b' y z Hy Hz Hab. apply lookup_app_Some in Hz as [Hz|[Hge Hz]].
    + rewrite lookup_app_l in Hy by (apply lookup_lt_Some in Hz; lia). by apply (oc_disjoint _ _ Hocc a' b').
    + pose proof (lookup_lt_Some _ _ _ Hz) as Hl. simpl in Hl.
      assert (b' = length xs) as -> by lia. rewrite Nat.sub_diag in Hz. injection Hz as <-.
      rewrite lookup_app_l in Hy by lia. intros Hc.
      assert (overlaps occupied i (rel_section r) (rel_offset r) (rel_offset r + w) = true); [|congruence].
      apply Hcol. apply list_elem_of_lookup_2 in Hy. exists y. split; [done|]. split; [|done].
      by apply (oc_has _ _ Hocc).
Qed.

(** ** Patching the payloads *)

(** The payloads with the fields of some references written. *)
Record written (xs : list reference) (payloads : list (list (list Z))) : Prop := {
  wr_shape oi si : is_Some (payload_at payloads oi si) ↔ is_Some (section_at objects oi si);
  wr_length oi si s bytes : section_at objects oi si = Some s →
    payload_at payloads oi si = Some bytes → length bytes = length (sec_data s);
  wr_field x v w bytes k : x ∈ xs → has_field objects layout x v w →
    payload_at payloads x.1.1 (rel_section x.2) = Some bytes → (k < Z.to_nat w)%nat →
    bytes !! (Z.to_nat (rel_offset x.2) + k)%nat = to_le_bytes 8 (wrapu 64 v) !! k;
  wr_else oi si s bytes j : section_at objects oi si = Some s →
    payload_at payloads oi si = Some bytes →
    (∀ x, x ∈ xs → ¬ covers objects layout oi si j x) → bytes !! j = sec_data s !! j;
}.

Lemma payload_at_insert payloads oi si row data data' oi' si' :
  payloads !! oi = Some row → row !! si = Some data →
  payload_at (<[oi := <[si := data']> row]> payloads) oi' si' =
    if decide ((oi', si') = (oi, si)) then Some data' else payload_at payloads oi' si'.
Proof.
  intros Hrow Hdata. unfold payload_at.
  pose proof (lookup_lt_Some _ _ _ Hrow). pose proof (lookup_lt_Some _ _ _ Hdata).
  destruct (decide (oi' = oi)) as [->|Hoi].
  - rewrite list_lookup_insert_eq by done. simpl. destruct (decide (si' = si)) as [->|Hsi].
    + rewrite list_lookup_insert_eq by done. by rewrite decide_True.
    + rewrite list_lookup_insert_ne by done. rewrite decide_False by congruence. by rewrite Hrow.
  - rewrite list_lookup_insert_ne by done. by rewrite decide_False by congruence.
Qed.

Lemma apply_patch_yields xs payloads x p :
  x ∈ references_of objects → written xs payloads → patch_of x p →
  (∀ y, y ∈ xs → y ∈ references_of objects ∧ ¬ collide objects layout y x) →
  yields (λ _, False) (apply_patch payloads p) (written (xs ++ [x])).
Proof.
  intros Hx Hw (v & w & Hf & ->) Hxs. destruct x as [[i o] r].
  destruct (reference_section _ _ _ Hx) as (s & _ & _ & Hsec & Hoff).
  set (x := (i, o, r)) in *. destruct Hf as [Hv (s' & Hs' & Hle)]. simpl in Hs', Hle.
  rewrite Hsec in Hs'. injection Hs' as <-.
  destruct (proj2 (wr_shape _ _ Hw i (rel_section r))) as [data Hdata]; [by eexists|].
  pose proof (wr_length _ _ Hw _ _ _ _ Hsec Hdata) as Hlen. unfold data_len in Hle.
  pose proof (field_value_width _ _ _ Hv) as Hwidth.
  unfold apply_patch. cbn [pa_object pa_section pa_offset pa_width pa_bytes].
  unfold payload_at in Hdata. destruct (payloads !! i) as [row|] eqn:Hrow; [|done]. simpl in Hdata.
  change (x.1.1) with i. change (x.2) with r. rewrite Hrow. cbn [expect mbind result_bind]. rewrite Hdata.
  cbn [expect mbind result_bind]. rewrite Hlen.
  rewrite (proj2 (Z.leb_le _ _) Hle). cbn [expect mbind result_bind yields].
  rewrite take_le_bytes by lia. set (bs := to_le_bytes (Z.to_nat w) (wrapu 64 v)).
  assert (length bs = Z.to_nat w) as Hbs by apply length_to_le_bytes.
  assert (Z.to_nat (rel_offset r) + length bs ≤ length data)%nat as Hfit by lia.
  assert (payload_at payloads i (rel_section r) = Some data) as Hat.
  { unfold payload_at. by rewrite Hrow. }
  set (data' := splice _ _ _).
  pose proof (λ oi si, payload_at_insert payloads i (rel_section r) row data data' oi si Hrow Hdata) as Hins.
  split.
  - intros oi si. rewrite Hins, <- (wr_shape _ _ Hw). case_decide as Hd; [|done].
    injection Hd as -> ->. rewrite Hat. by split; eexists.
  - intros oi si sec bytes Hsec'. rewrite Hins. case_decide as Hd.
    + injection Hd as -> ->. intros [= <-]. unfold data'. rewrite length_splice by done.
      by eapply wr_length.
    + by apply (wr_length _ _ Hw).
  - intros y v' w' bytes k [Hy|Hy%list_elem_of_singleton]%elem_of_app Hfy.
    + rewrite Hins. case_decide as Hd; [|by apply (wr_field _ _ Hw)].
      injection Hd as Hi Hsi. intros [= <-] Hk. unfold data'. rewrite lookup_splice by done.
      destruct (Hxs y Hy) as [Hyr Hnc]. destruct y as [[i' o'] r'].
      destruct (reference_section _ _ _ Hyr) as (_ & _ & _ & _ & Hoff'). cbn in *.
      rewrite decide_False; [apply (wr_field _ _ Hw _ _ _ _ _ Hy Hfy); [|done]; cbn; congruence|].
      intros Hin. apply Hnc. split; [done|]. split; [done|]. exists v', w', v, w.
      split; [apply Hfy|]. split; [done|]. cbn. pose proof (field_value_width _ _ _ (proj1 Hfy)). lia.
    + subst y. rewrite Hins. cbn. rewrite decide_True by done. intros [= <-] Hk.
      destruct Hfy as [Hfy _]. rewrite Hv in Hfy. injection Hfy as <- <-.
      unfold data'. rewrite lookup_splice by done. rewrite decide_True by lia.
      replace (Z.to_nat (rel_offset r) + k - Z.to_nat (rel_offset r))%nat with k by lia.
      unfold bs. rewrite <- (take_le_bytes (Z.to_nat w) 8) by lia. by rewrite lookup_take_lt by lia.
  - intros oi si sec bytes j Hsec' Hb Hnone. rewrite Hins in Hb. case_decide as Hd.
    + injection Hd as -> ->. injection Hb as <-. unfold data'. rewrite lookup_splice by done.
      rewrite decide_False.
      * apply (wr_else _ _ Hw _ _ _ _ _ Hsec' Hat). intros y Hy. apply Hnone. apply elem_of_app. by left.
      * intros Hin. apply (Hnone x). { apply elem_of_app. right. by apply list_elem_of_singleton. }
        split; [done|]. split; [done|]. exists v, w. split; [done|]. cbn. lia.
    + apply (wr_else _ _ Hw _ _ _ _ _ Hsec' Hb). intros y Hy. apply Hnone. apply elem_of_app. by left.
Qed.

Lemma initial_written : written [] ((λ o, sec_data <$> sections o) <$> objects).
Proof.
  assert (∀ oi si, payload_at ((λ o, sec_data <$> sections o) <$> objects) oi si
    = sec_data <$> section_at objects oi si) as Hat.
  { intros oi si. unfold payload_at, section_at. rewrite list_lookup_fmap.
    destruct (objects !! oi); simpl; [|done]. by rewrite list_lookup_fmap. }
  split.
  - intros oi si. by rewrite Hat, fmap_is_Some.
  - intros oi si s bytes Hs. rewrite Hat, Hs. by intros [= <-].
  - intros x v w bytes k Hx. by apply not_elem_of_nil in Hx.
  - intros oi si s bytes j Hs. rewrite Hat, Hs. by intros [= <-].
Qed.

Lemma apply_patches_yields xs ps :
  (∀ x, x ∈ xs → x ∈ references_of objects) → Forall2 patch_of xs ps →
  (∀ i j x y, xs !! i = Some x → xs !! j = Some y → (i < j)%nat → ¬ collide objects layout x y) →
  yields (λ _, False) (try_fold apply_patch ps ((λ o, sec_data <$> sections o) <$> objects)) (written xs).
Proof.
  intros Hxs Hps Hdis.
  eapply yields_mono, (try_fold_yields _ (λ _, False) (λ done payloads, written (take (length done) xs) payloads)).
  - done.
  - intros payloads. by rewrite <- (Forall2_length _ _ _ Hps), take_ge.
  - apply initial_written.
  - intros done p rest payloads Heq Hw. rewrite Heq in Hps.
    apply Forall2_app_inv_r in Hps as (xs1 & xs2 & H1 & H2 & ->).
    apply Forall2_cons_inv_r in H2 as (x & xs3 & Hp & H3 & ->).
    rewrite <- (Forall2_length _ _ _ H1) in Hw. rewrite take_app_length in Hw.
    rewrite length_app. cbn [length]. rewrite <- (Forall2_length _ _ _ H1).
    rewrite cons_middle, app_assoc, take_app_length' by (rewrite length_app; done).
    assert (∀ y, y ∈ xs1 ++ x :: xs3 → y ∈ references_of objects) as Hxs' by done.
    apply apply_patch_yields; [|done|done|].
    + apply Hxs. apply elem_of_app. right. apply elem_of_cons. by left.
    + intros y Hy. split; [apply Hxs, elem_of_app; by left|].
      apply list_elem_of_lookup in Hy as [i Hi]. pose proof (lookup_lt_Some _ _ _ Hi).
      apply (Hdis i (length xs1)); [by rewrite lookup_app_l|by apply list_lookup_middle|done].
Qed.
End relocate.

(** ** The whole of it *)

Lemma zip_references objects t :
  table_ok objects t →
  zip (objects ≫= relocations) (table_references t) =
    (λ x, (x.2, made objects x)) <$> references_of objects.
Proof.
  intros Ht. rewrite (to_references _ _ Ht).
  assert (objects ≫= relocations = snd <$> references_of objects) as ->.
  { clear Ht t. unfold references_of, enumerate.
    cut (∀ (f : nat → nat), objects ≫= relocations =
      snd <$> (imap (λ i o, (f i, o)) objects ≫= λ io, (λ r, (io, r)) <$> relocations io.2)).
    { intros Hcut. apply (Hcut (λ n, n)). }
    induction objects as [|o os IH]; intros f; [done|]. cbn [imap mbind list_bind].
    rewrite fmap_app, <- list_fmap_compose. f_equal.
    - simpl. symmetry. apply list_fmap_id.
    - apply (IH (f ∘ S)). }
  change (λ x : reference, mkReference _ _ _ _ _) with (made objects).
  induction (references_of objects) as [|x xs IH]; [done|]. simpl. by f_equal.
Qed.

Lemma check_sections_yields objects layout max_bytes :
  Forall object_ok objects → 0 ≤ max_bytes < 2 ^ 64 →
  yields (λ _, ¬ ((∀ oi si s, section_at objects oi si = Some s →
      ∃ a, offset_at (section_offsets layout) oi si = Some a ∧ 0 ≤ a + extent s < 2 ^ 64)
    ∧ payload_of objects ≤ max_bytes))
    (try_fold (λ total io, try_fold (check_section layout max_bytes io.1)
                              (enumerate (sections io.2)) total) (enumerate objects) 0)
    (λ _, (∀ oi si s, section_at objects oi si = Some s →
      ∃ a, offset_at (section_offsets layout) oi si = Some a ∧ 0 ≤ a + extent s < 2 ^ 64)
    ∧ payload_of objects ≤ max_bytes).
Proof.
  intros Hok Hmax.
  set (total_of := foldr (λ x : Item, Z.add (data_len x.2.2)) 0).
  assert (∀ xs ys, total_of (xs ++ ys) = total_of xs + total_of ys) as Happ.
  { intros xs ys. induction xs; simpl in *; lia. }
  assert (∀ xs, 0 ≤ total_of xs) as Hpos.
  { induction xs as [|x xs IH]; simpl in *; [lia|]. pose proof (data_len_nonneg x.2.2). lia. }
  assert (payload_of objects = total_of (all_items objects)) as Hpay.
  { unfold payload_of, all_items, enumerate.
    assert (∀ (f : nat → nat), foldr (λ o n, foldr (λ s k, data_len s + k) 0 (sections o) + n) 0 objects =
      total_of (imap (λ i o, (f i, o)) objects ≫= λ io, pair io.1 <$> imap pair (sections io.2))) as Hgen;
      [|apply (Hgen (λ n, n))].
    induction objects as [|o os IH]; intros f; [done|]. inversion Hok; subst. cbn [imap mbind list_bind foldr].
    rewrite Happ. f_equal; [|exact (IH ltac:(done) (f ∘ S))].
    assert (∀ g : nat → nat, foldr (λ s k, data_len s + k) 0 (sections o) =
      total_of (pair (f 0%nat) <$> imap (λ i s, (g i, s)) (sections o))) as Hin; [|apply (Hin (λ n, n))].
    induction (sections o) as [|s ss IHs]; intros g; [done|]. cbn. f_equal. apply (IHs (g ∘ S)). }
  replace (try_fold (λ total io, try_fold (check_section layout max_bytes io.1)
                              (enumerate (sections io.2)) total) (enumerate objects) 0)
    with (try_fold (λ total (x : Item), check_section layout max_bytes x.1 total x.2) (all_items objects) 0).
  2: { unfold all_items. rewrite <- try_fold_join. apply try_fold_ext. intros z io. by rewrite try_fold_fmap. }
  eapply yields_mono, (try_fold_yields _ _ (λ done total, total = total_of done ∧ total_of done ≤ max_bytes
    ∧ ∀ oi si s, (oi, (si, s)) ∈ done →
      ∃ a, offset_at (section_offsets layout) oi si = Some a ∧ 0 ≤ a + extent s < 2 ^ 64)).
  - intros e He. exact He.
  - intros total (-> & Hle & Hin). split; [|lia]. intros oi si s Hs. by apply Hin, elem_of_all_items.
  - split; [done|]. split; [cbn; lia|]. intros oi si s Hx. by apply not_elem_of_nil in Hx.
  - intros done [oi [si s]] rest total Heq (-> & Hle & Hin). unfold check_section. cbn [fst snd].
    assert (section_at objects oi si = Some s) as Hs.
    { apply elem_of_all_items. rewrite Heq. apply elem_of_app. right. apply elem_of_cons. by left. }
    apply yields_bind, yields_ok_or.
    { intros Hn [Hpl _]. destruct (Hpl _ _ _ Hs) as (a & Ha & _). congruence. }
    intros a Ha. assert (section_ok s) as Hsok.
    { unfold section_at in Hs. destruct (objects !! oi) as [o|] eqn:Ho; [|done]. simpl in Hs.
      eapply Forall_lookup_1 in Hok; [|exact Ho]. eapply Forall_lookup_1 in Hs; [|apply Hok]. done. }
    rewrite memory_size_ok by done. cbn [map_err mbind result_bind].
    apply yields_bind, yields_ok_or.
    { intros Hn%checked_u_None [Hpl _]. destruct (Hpl _ _ _ Hs) as (a' & Ha' & ?).
      rewrite Ha in Ha'. injection Ha' as <-. lia. }
    intros ? [-> Hext]%checked_u_Some. cbv zeta.
    assert (total_of (all_items objects) = total_of done + (data_len s + total_of rest)) as Htot.
    { rewrite Heq, Happ. done. }
    pose proof (Hpos rest). pose proof (Hpos done). pose proof (data_len_nonneg s).
    apply yields_bind, yields_ok_or.
    { intros Hn%checked_u_None [_ Hb]. lia. }
    intros ? [-> Hsum]%checked_u_Some. apply yields_bind, yields_guard.
    { intros Hn%Z.leb_gt [_ Hb]. lia. }
    intros Hb%Z.leb_le. cbn [yields]. rewrite Happ. cbn. split; [lia|]. split; [lia|].
    intros oi' si' s' [Hx|Hx%list_elem_of_singleton]%elem_of_app; [by apply Hin|].
    injection Hx as -> -> ->. by exists a.
Qed.

(** The fields read back their values. *)
Lemma written_patched objects layout xs payloads :
  Forall object_typed objects → resolvable objects →
  written objects layout xs payloads → xs = references_of objects → patched objects layout payloads.
Proof.
  intros Htyped Hres [Hsh Hlen Hf He] ->. split; [done|done| |done].
  intros x v w bytes Hx [Hv (s & Hs & Hle)] Hb.
  assert (0 ≤ rel_offset x.2) as Hoff.
  { destruct x as [[i o] r]. by destruct (reference_section objects Htyped Hres i o r Hx) as (? & ? & ? & ? & ?). }
  pose proof (Hlen _ _ _ _ Hs Hb) as Hl. unfold data_len in Hle.
  assert (w = 1 ∨ w = 4 ∨ w = 8) as Hw.
  { by eapply field_value_width. }
  assert (take (Z.to_nat w) (drop (Z.to_nat (rel_offset x.2)) bytes) = to_le_bytes (Z.to_nat w) v) as ->.
  { rewrite <- (to_le_bytes_mod (Z.to_nat w) 64 v) by lia.
    apply list_eq_same_length with (Z.to_nat w).
    - apply length_to_le_bytes.
    - rewrite length_take, length_drop. lia.
    - intros k a b Hk Ha Hbk. rewrite lookup_take_lt, lookup_drop in Ha by done.
      rewrite (Hf x v w bytes k Hx) in Ha; [|by split; [|exists s]|done|done].
      rewrite <- (take_le_bytes (Z.to_nat w) 8) in Hbk by lia. rewrite lookup_take_lt in Hbk by done. congruence. }
  unfold field_value in Hv. destruct (target_address _ _ _) as [a|]; [|done]. simpl in Hv.
  destruct (place_address _ _) as [p|]; [|done]. simpl in Hv.
  destruct (relocated _ _ _) as [[v' w']|] eqn:E; [|done]. simpl in Hv.
  destruct (fits _ _) eqn:Efit; [|done]. injection Hv as -> ->. by eapply read_field_correct.
Qed.

Lemma apply_relocations_yields objects layout max_bytes :
  Forall object_typed objects → 0 ≤ max_bytes < 2 ^ 64 →
  yields (λ _, ¬ applicable objects layout max_bytes) (apply_relocations objects layout max_bytes)
    (λ payloads, applicable objects layout max_bytes ∧ patched objects layout payloads).
Proof.
  intros Htyped Hmax. unfold apply_relocations. apply yields_bind.
  pose proof (resolve_new_yields objects) as Hy.
  destruct (resolve_new objects) as [t|e|]; [|simpl in *; by intros [Hr _ _ _ _]|done].
  destruct Hy as [Hres Ht]. simpl.
  assert (Forall object_ok objects) as Hok.
  { eapply Forall_impl; [apply (rv_inputs _ Hres)|]. by intros o [_ ?]. }
  apply yields_bind. eapply yields_mono, check_sections_yields; [|..|done|done].
  { intros e Hn [_ Hp Hb _ _]. by apply Hn. }
  intros _ [Hplaced Hbytes]. rewrite (zip_references objects t Ht). apply yields_bind.
  rewrite try_fold_fmap.
  eapply yields_mono, (try_fold_yields _ _ (λ done st,
    Forall2 (patch_of objects layout) done st.1 ∧ occupied_by objects layout done st.2)).
  - intros e He. exact He.
  - intros [ps occupied] [Hps Hocc]. cbn [fst snd] in *.
    eapply yields_mono, (apply_patches_yields objects layout t Htyped Hres Ht Hplaced (references_of objects));
      [done| |done|done|apply Hocc].
    intros payloads Hw. split.
    + split; [done|done|done| |apply Hocc]. intros x Hx. by apply (oc_has _ _ _ _ Hocc).
    + by eapply written_patched.
  - split; [done|]. split.
    + split; [constructor|by intros f Hf%elem_of_nil|by intros f g Hf%elem_of_nil].
    + intros f. split; [by intros Hf%elem_of_nil|by intros (x & v & w & Hx%elem_of_nil & _)].
    + by intros x Hx%elem_of_nil.
    + by intros i j x y Hx.
  - intros done x rest [ps occupied] Heq [Hps Hocc]. cbn [fst snd] in *.
    assert (∀ y, y ∈ done ++ [x] → y ∈ references_of objects) as Hin.
    { intros y Hy. rewrite Heq, cons_middle, app_assoc. apply elem_of_app. by left. }
    apply yields_bind.
    pose proof (relocate_yields objects layout t Htyped Hres Ht Hplaced done occupied x) as Hr.
    assert (x ∈ done ++ [x]) as Hx by (apply elem_of_app; right; by apply list_elem_of_singleton).
    specialize (Hr (Hin x Hx) (λ y Hy, Hin y (proj2 (elem_of_app _ _ _) (or_introl Hy))) Hocc).
    destruct (relocate _ _ _ _ _ _) as [[p occ']|e|]; [| |done]; simpl in *.
    + destruct Hr as [Hp Hocc']. split; [|done]. apply Forall2_app; [done|]. by apply Forall2_cons.
    + intros [_ _ _ Hfields Hdis]. destruct Hr as [Hno|(y & Hy & Hc)]; [by apply Hno, Hfields, Hin|].
      apply list_elem_of_lookup in Hy as [i Hi]. pose proof (lookup_lt_Some _ _ _ Hi).
      eapply (Hdis i (length done)); [..|done|exact Hc].
      * rewrite Heq. by rewrite lookup_app_l.
      * rewrite Heq. by apply list_lookup_middle.
Qed.

(** C12: Applying relocations never panics.  It succeeds exactly if the link resolves, every section
    has an address that leaves it room, the payloads keep the budget, the value of each relocation
    fits its field, the field lies in its payload and no two fields meet.  Then each field reads back
    as S + A or S + A - P, and every byte outside the fields is that of the input. *)
Theorem relocations_exact objects layout max_bytes
    (Htyped : Forall object_typed objects) (Hmax : 0 ≤ max_bytes < 2 ^ 64) :
  apply_relocations objects layout max_bytes ≠ Panic
  ∧ ((∃ payloads, apply_relocations objects layout max_bytes = Ok payloads)
     ↔ applicable objects layout max_bytes)
  ∧ ∀ payloads, apply_relocations objects layout max_bytes = Ok payloads →
      patched objects layout payloads.
Proof.
  pose proof (apply_relocations_yields objects layout max_bytes Htyped Hmax) as Hy.
  destruct (apply_relocations objects layout max_bytes) as [payloads|e|]; simpl in Hy; [| |done].
  - destruct Hy as [Ha Hp]. split; [done|]. split; [|by intros ? [= <-]].
    split; [done|]. intros _. by exists payloads.
  - split; [done|]. split; [|done]. split; [by intros [??]|done].
Qed.

(** The call reaches the byte behind the no-operation of the library, at 0x400101. *)
Example sample_relocated :
  (λ ps, payload_at ps 0 0) <$> apply_relocations sample_objects sample_layout.1 100000
    = Ok (Some [0xe8; 12; 0; 0; 0; 0xc3]).
Proof. by vm_compute. Qed.

Lemma relocations_exact_witness :
  is_ok (apply_relocations sample_objects sample_layout.1 100000) = true ∧
  (apply_relocations sample_objects sample_layout.1 100000 ≠ Panic
   ∧ ((∃ payloads, apply_relocations sample_objects sample_layout.1 100000 = Ok payloads)
      ↔ applicable sample_objects sample_layout.1 100000)
   ∧ ∀ payloads, apply_relocations sample_objects sample_layout.1 100000 = Ok payloads →
       patched sample_objects sample_layout.1 payloads).
Proof.
  split; [by vm_compute|].
  apply (relocations_exact sample_objects sample_layout.1 100000 sample_objects_typed). lia.
Defined.
