(* ===== verification/Executable.v ===== *)
(** * Emission of the executable ([write_executable_checked] of [linker/src/core/executable.rs])

    The ELF header, the program headers and the payloads of a static executable, and the proof that
    loading the file by its program headers gives every section its relocated bytes at its address. *)
From S2P Require Export Bytes Relocation.
Local Open Scope Z_scope.

(** ** Errors of a link ([linker/src/diagnostic.rs]) *)

Module LinkErrorKind.
Inductive t := Input | Selection | Symbols | Entry | Layout_ | Relocation_ | Emission.
#[global] Instance t_eq_dec : EqDecision t.
Proof. solve_decision. Defined.
End LinkErrorKind.

Record LinkError := mkLinkError {
  le_kind : LinkErrorKind.t;
  le_message : Message;
  le_contexts : list Context.t;
  le_input_cause : option ObjectError;
  le_relocation_cause : option RelocationError;
}.

Definition link_error (kind : LinkErrorKind.t) (message : Message) : LinkError :=
  mkLinkError kind message [] None None.

Definition link_phase (k : LinkErrorKind.t) : string * string :=
  match k with
  | LinkErrorKind.Input => ("input", "link.input")
  | LinkErrorKind.Selection => ("selection", "link.selection")
  | LinkErrorKind.Symbols => ("symbols", "link.symbols")
  | LinkErrorKind.Entry => ("entry", "link.entry")
  | LinkErrorKind.Layout_ => ("layout", "link.layout")
  | LinkErrorKind.Relocation_ => ("relocation", "link.relocation")
  | LinkErrorKind.Emission => ("emit", "link.emit")
  end.

#[export] Instance link_error_diagnostic : ToDiagnostic LinkError := λ e,
  let '(phase, code) := link_phase (le_kind e) in
  mkDiagnostic "linker" phase code (le_message e) (le_contexts e).

(** ** Writing into the file *)

(** [out[at..at + bytes.len()].copy_from_slice(bytes)]. *)
Definition put_bytes (out : list Z) (w : Z * list Z) : result LinkError (list Z) :=
  _ ← expect (if w.1 + Z.of_nat (length w.2) <=? Z.of_nat (length out) then Some tt else None);
  Ok (splice (Z.to_nat w.1) w.2 out).

Definition put16 (at_ value : Z) : Z * list Z := (at_, to_le_bytes 2 value).
Definition put32 (at_ value : Z) : Z * list Z := (at_, to_le_bytes 4 value).
Definition put64 (at_ value : Z) : Z * list Z := (at_, to_le_bytes 8 value).

Definition IDENT : list Z := [0x7f; 69; 76; 70; 2; 1; 1; 0; 0; 0; 0; 0; 0; 0; 0; 0].

Definition header_writes (address : Z) (segments : list Segment) : list (Z * list Z) :=
  [(0, IDENT); put16 16 2; put16 18 62; put32 20 1; put64 24 address; put64 32 64; put16 52 64;
   put16 54 56; put16 56 (wrapu 16 (Z.of_nat (length segments) + 1))].

Definition segment_writes (i : nat) (s : Segment) : list (Z * list Z) :=
  let at_ := 64 + Z.of_nat i * 56 in
  [put32 at_ 1; put32 (at_ + 4) (seg_flags s); put64 (at_ + 8) (seg_offset s);
   put64 (at_ + 16) (seg_address s); put64 (at_ + 24) (seg_address s);
   put64 (at_ + 32) (seg_file_size s); put64 (at_ + 40) (seg_memory_size s); put64 (at_ + 48) PAGE].

Definition GNU_STACK : Z := 0x6474e551.

Definition stack_writes (segments : list Segment) : list (Z * list Z) :=
  let stack := 64 + Z.of_nat (length segments) * 56 in
  [put32 stack GNU_STACK; put32 (stack + 4) 6; put64 (stack + 48) 16].

Definition write_section (payloads : list (list (list Z))) (out : list Z) (p : SectionPlacement)
  : result LinkError (list Z) :=
  if decide (pl_kind p = SectionKind.Bss) then Ok out
  else
    start ← ok_or (checked_u 64 (pl_file_offset p))
              (link_error LinkErrorKind.Emission [Text "section offset exceeds host capacity"]);
    payload ← expect (payload_at payloads (pl_object p) (pl_section p));
    put_bytes out (start, payload).

Definition write_executable_checked (objects : list ObjectFile) (entry : string) (max_bytes : Z)
  : result LinkError (list Z) :=
  _ ← guard_err (negb (bool_decide (entry = "")))
        (link_error LinkErrorKind.Entry [Text "entry symbol must not be empty"]);
  symbols ← map_err (link_error LinkErrorKind.Symbols) (resolve_new objects);
  selected ← ok_or (table_symbols symbols !! GlobalKey entry)
    (link_error LinkErrorKind.Entry
       [Text "entry symbol "; Quoted entry; Text " is missing or not globally defined"]);
  '(owner, section) ← ok_or
    (match rs_object selected, rs_section selected with
     | Some owner, Some section => Some (owner, section)
     | _, _ => None
     end)
    (link_error LinkErrorKind.Entry [Text "entry symbol is undefined"]);
  source ← expect (section_at objects owner section);
  _ ← guard_err (negb (negb (bool_decide (sec_kind source = SectionKind.Text_))
                       || (data_len source <=? rs_value selected)))
        (link_error LinkErrorKind.Entry [Text "entry must point inside an executable section"]);
  '(layout, segments) ← map_err (link_error LinkErrorKind.Layout_) (executable_layout objects max_bytes);
  base ← expect (offset_at (section_offsets layout) owner section);
  address ← ok_or (checked_u 64 (base + rs_value selected))
              (link_error LinkErrorKind.Entry [Text "entry address overflow"]);
  payloads ← map_err
    (λ e, mkLinkError LinkErrorKind.Relocation_ (display_reloc_error e)
            (contexts (diagnostic e)) None (Some e))
    (apply_relocations objects layout max_bytes);
  size ← ok_or (checked_u 64 (lay_file_size layout))
           (link_error LinkErrorKind.Emission [Text "executable exceeds host capacity"]);
  out ← try_fold put_bytes (header_writes address segments) (replicate (Z.to_nat size) 0);
  out ← try_fold (λ out x, try_fold put_bytes (segment_writes x.1 x.2) out) (enumerate segments) out;
  out ← try_fold put_bytes (stack_writes segments) out;
  try_fold (write_section payloads) (placements layout) out.

(** ** Reading the file back, as a loader does *)

Record ProgramHeader := mkProgramHeader {
  p_type : Z;
  p_flags : Z;
  p_offset : Z;
  p_vaddr : Z;
  p_filesz : Z;
  p_memsz : Z;
  p_align : Z;
}.

Definition program_header (bytes : list Z) (at_ : Z) : ProgramHeader :=
  mkProgramHeader (read_le at_ 4 bytes) (read_le (at_ + 4) 4 bytes) (read_le (at_ + 8) 8 bytes)
    (read_le (at_ + 16) 8 bytes) (read_le (at_ + 32) 8 bytes) (read_le (at_ + 40) 8 bytes)
    (read_le (at_ + 48) 8 bytes).

(** The table at [e_phoff], of [e_phnum] entries of [e_phentsize] bytes. *)
Definition program_headers (bytes : list Z) : list ProgramHeader :=
  (λ i, program_header bytes (read_le 32 8 bytes + Z.of_nat i * read_le 54 2 bytes))
  <$> seq 0 (Z.to_nat (read_le 56 2 bytes)).

(** The byte at an address after loading, and the permissions of its page: the bytes of the file, then
    zeros up to the size in memory. *)
Definition maps (h : ProgramHeader) (a : Z) : bool :=
  (p_type h =? 1) && (p_vaddr h <=? a) && (a <? p_vaddr h + p_memsz h).
Definition loaded (bytes : list Z) (a : Z) : option (Z * Z) :=
  h ← find_opt (λ h, maps h a) (program_headers bytes);
  b ← (if a - p_vaddr h <? p_filesz h then bytes !! Z.to_nat (p_offset h + (a - p_vaddr h))
       else Some 0);
  Some (b, p_flags h).

Definition entry_point (bytes : list Z) : Z := read_le 24 8 bytes.

(** ** Writes in order *)

Definition write_size (w : Z * list Z) : Z := Z.of_nat (length w.2).
Notation writes_between := (chain (fst (A := Z) (B := list Z)) write_size).

(** The file holds the bytes of a write. *)
Definition holds (out : list Z) (w : Z * list Z) : Prop := ∀ k : nat,
  (k < length w.2)%nat → out !! (Z.to_nat w.1 + k)%nat = w.2 !! k.

Lemma put_bytes_yields out w :
  0 ≤ w.1 → w.1 + write_size w ≤ Z.of_nat (length out) →
  yields (λ _, False) (put_bytes out w) (λ out', length out' = length out ∧ holds out' w
    ∧ ∀ j : nat, (Z.of_nat j < w.1 ∨ w.1 + write_size w ≤ Z.of_nat j) → out' !! j = out !! j).
Proof.
  unfold write_size. intros H0 Hle. unfold put_bytes. rewrite (proj2 (Z.leb_le _ _) Hle).
  cbn [expect mbind result_bind yields].
  assert (Z.to_nat w.1 + length w.2 ≤ length out)%nat by lia.
  split; [by apply length_splice|]. split.
  - intros k Hk. rewrite lookup_splice by done. rewrite decide_True by lia. f_equal. lia.
  - intros j Hj. rewrite lookup_splice by done. by rewrite decide_False by lia.
Qed.

Lemma puts_yields ws c c' out :
  writes_between c ws c' → 0 ≤ c → c' ≤ Z.of_nat (length out) →
  yields (λ _, False) (try_fold put_bytes ws out) (λ out', length out' = length out
    ∧ Forall (holds out') ws
    ∧ ∀ j : nat, (Z.of_nat j < c ∨ c' ≤ Z.of_nat j) → out' !! j = out !! j).
Proof.
  revert c out. induction ws as [|w ws IH]; intros c out; simpl; [by intros|].
  intros (Hc & Hs & Hch) H0 Hle. pose proof (chain_le _ _ _ _ _ Hch) as Hcc.
  apply yields_bind. eapply yields_mono, put_bytes_yields; [done| |lia|lia].
  intros out1 (Hl1 & Hw & Ho1). eapply yields_mono, IH; [done| |exact Hch|lia|lia].
  intros out2 (Hl2 & Hws & Ho2). split; [lia|]. split.
  - constructor; [|done]. intros k Hk. rewrite Ho2; [by apply Hw|left; unfold write_size; lia].
  - intros j Hj. rewrite Ho2 by lia. apply Ho1. lia.
Qed.

(** What was written is read back. *)
Lemma holds_slice out at_ bs :
  (Z.to_nat at_ + length bs ≤ length out)%nat → holds out (at_, bs) → slice at_ (length bs) out = bs.
Proof.
  intros Hle H. unfold slice. apply list_eq_same_length with (length bs); [done| |].
  - rewrite length_take, length_drop. lia.
  - intros k a b Hk Ha Hb. rewrite lookup_take_lt, lookup_drop in Ha by done.
    specialize (H k Hk). simpl in H. congruence.
Qed.

Lemma holds_read out at_ n v :
  (Z.to_nat at_ + n ≤ length out)%nat → 0 ≤ v < 2 ^ (8 * Z.of_nat n) →
  holds out (at_, to_le_bytes n v) → read_le at_ n out = v.
Proof.
  intros Hle Hv H. unfold read_le. rewrite <- (length_to_le_bytes n v) at 1.
  rewrite holds_slice; [by apply from_to_le_bytes_id| |done]. by rewrite length_to_le_bytes.
Qed.

Lemma header_chain address segments : writes_between 0 (header_writes address segments) 64.
Proof. cbn -[to_le_bytes]. unfold write_size. cbn. lia. Qed.

Lemma segment_chain i s :
  writes_between (64 + Z.of_nat i * 56) (segment_writes i s) (64 + Z.of_nat (S i) * 56).
Proof. unfold write_size. cbn. lia. Qed.

Lemma segments_chain segments :
  writes_between 64 (enumerate segments ≫= λ x, segment_writes x.1 x.2)
    (64 + Z.of_nat (length segments) * 56).
Proof.
  unfold enumerate. induction segments as [|s segments IH] using rev_ind; [cbn; lia|].
  rewrite imap_app, bind_app, length_app. eapply chain_app; [exact IH|]. cbn [imap].
  rewrite bind_singleton. cbn [fst snd length].
  replace (length segments + 1)%nat with (S (length segments)) by lia.
  rewrite Nat.add_0_r. apply segment_chain.
Qed.

Lemma stack_chain segments :
  writes_between (64 + Z.of_nat (length segments) * 56) (stack_writes segments)
    (64 + 56 * (Z.of_nat (length segments) + 1)).
Proof. unfold write_size. cbn. lia. Qed.

(** ** The sections *)

Definition section_write (payloads : list (list (list Z))) (p : SectionPlacement) : Z * list Z :=
  (pl_file_offset p, default [] (payload_at payloads (pl_object p) (pl_section p))).

Lemma write_section_eq payloads out p :
  (initialised p → 0 ≤ pl_file_offset p < 2 ^ 64
     ∧ is_Some (payload_at payloads (pl_object p) (pl_section p))) →
  write_section payloads out p =
    if decide (initialised p) then put_bytes out (section_write payloads p) else Ok out.
Proof.
  intros Hp. unfold write_section. destruct (decide (pl_kind p = SectionKind.Bss)) as [Hk|Hk].
  - by rewrite decide_False by (unfold initialised; tauto).
  - rewrite decide_True by done. destruct (Hp Hk) as [Hoff [data Hdata]].
    rewrite checked_u_id by done. unfold section_write. by rewrite Hdata.
Qed.

Lemma write_sections_flat payloads ps out :
  (∀ p, p ∈ ps → initialised p →
     0 ≤ pl_file_offset p < 2 ^ 64 ∧ is_Some (payload_at payloads (pl_object p) (pl_section p))) →
  try_fold (write_section payloads) ps out =
    try_fold put_bytes (section_write payloads <$> filter initialised ps) out.
Proof.
  revert out. induction ps as [|p ps IH]; intros out Hps; [done|].
  assert (∀ out, try_fold (write_section payloads) ps out =
    try_fold put_bytes (section_write payloads <$> filter initialised ps) out) as IH'.
  { intros out'. apply IH. intros q Hq. apply Hps. apply elem_of_cons. by right. }
  cbn [try_fold]. rewrite write_section_eq by (apply Hps, elem_of_cons; by left).
  case_decide as Hk; [rewrite filter_cons_True by done|rewrite filter_cons_False by done; apply IH'].
  rewrite fmap_cons. cbn [try_fold]. destruct (put_bytes _ _); simpl; [apply IH'|done|done].
Qed.

(** ** The whole image *)

Section image.
Context (objects : list ObjectFile) (max_bytes : Z) (layout : Layout) (segments : list Segment).
Context (payloads : list (list (list Z))) (address : Z).
Context (Hin : link_inputs_ok objects) (Htyped : Forall object_typed objects).
Context (Hex : executable_ok objects max_bytes layout segments) (Hmax : max_bytes < 2 ^ 64).
Context (Hpatched : patched objects layout payloads) (Haddress : 0 ≤ address < 2 ^ 64).
#[local] Set Default Proof Using "Type*".

(** Every write of the image, in the order of the file. *)
Definition image_writes : list (Z * list Z) :=
  header_writes address segments ++ (enumerate segments ≫= λ x, segment_writes x.1 x.2)
  ++ stack_writes segments ++ (section_write payloads <$> filter initialised (placements layout)).

Let laid := ex_laid _ _ _ _ Hex.

Lemma placement_section p :
  p ∈ placements layout →
  ∃ s, section_at objects (pl_object p) (pl_section p) = Some s
    ∧ describes (pl_object p, (pl_section p, s)) p.
Proof.
  intros [i Hp]%list_elem_of_lookup. pose proof (lo_describes _ _ _ _ _ laid) as Hd.
  eapply Forall2_lookup_r in Hd as ([oi [si s]] & Hx & Hd); [|exact Hp].
  apply list_elem_of_lookup_2, list_elem_of_bind in Hx as (k & [_ Hx]%list_elem_of_filter & _).
  apply elem_of_all_items in Hx. exists s. pose proof (de_index _ _ Hd) as [= Ho Hs].
  cbn in Ho, Hs. by rewrite Ho, Hs.
Qed.

Lemma section_payload p :
  p ∈ placements layout → initialised p →
  ∃ data, payload_at payloads (pl_object p) (pl_section p) = Some data
    ∧ Z.of_nat (length data) = pl_memory_size p.
Proof.
  intros Hp Hk. destruct (placement_section p Hp) as (s & Hs & Hd).
  destruct (proj2 (pt_shape _ _ _ Hpatched (pl_object p) (pl_section p))) as [data Hdata]; [by eexists|].
  exists data. split; [done|]. rewrite (pt_length _ _ _ Hpatched _ _ _ _ Hs Hdata), (de_memory _ _ Hd).
  cbn. unfold extent, data_len. rewrite (so_fill s); [lia| |].
  - unfold link_inputs_ok in Hin. unfold section_at in Hs.
    destruct (objects !! pl_object p) as [o|] eqn:Ho; [|done]. simpl in Hs.
    eapply Forall_lookup_1 in Ho; [|exact Hin]. destruct Ho as [_ Ho].
    by eapply Forall_lookup_1 in Hs; [|apply Ho].
  - intros Hb. apply Hk. by rewrite (de_kind _ _ Hd).
Qed.

Lemma placement_bounds p :
  p ∈ placements layout →
  header_size objects ≤ pl_file_offset p ∧ 0 ≤ pl_memory_size p
  ∧ (initialised p → pl_file_offset p + pl_memory_size p ≤ lay_file_size layout).
Proof.
  intros Hp. pose proof (chain_bounds _ _ _ _ _ _ (lo_chain _ _ _ _ _ laid) Hp) as (H1 & H2 & _).
  split; [done|]. split; [done|]. intros Hk.
  destruct (lo_contains _ _ _ _ _ laid p Hp) as (s & Hs & Hc).
  pose proof (lo_segment _ _ _ _ _ laid) as Hsegs. rewrite Forall_forall in Hsegs.
  pose proof (sg_file _ _ (Hsegs s Hs)). pose proof (co_image _ _ Hc Hk). lia.
Qed.

Lemma sections_chain :
  writes_between (header_size objects)
    (section_write payloads <$> filter initialised (placements layout)) (lay_file_size layout).
Proof.
  eapply (chain_fmap pl_file_offset pl_memory_size).
  - intros p [Hk Hp]%list_elem_of_filter. destruct (section_payload p Hp Hk) as (data & Hdata & Hlen).
    unfold section_write, write_size. cbn. rewrite Hdata. done.
  - eapply chain_tighten; [apply chain_filter, (lo_chain _ _ _ _ _ laid)|apply (lo_size _ _ _ _ _ laid)|].
    intros p [Hk Hp]%list_elem_of_filter. by apply placement_bounds.
Qed.

Lemma image_chain : writes_between 0 image_writes (lay_file_size layout).
Proof.
  unfold image_writes. eapply chain_app; [apply header_chain|].
  eapply chain_app; [apply segments_chain|]. eapply chain_app; [apply stack_chain|].
  rewrite <- (proj2 (ex_headers _ _ _ _ Hex)). apply sections_chain.
Qed.

Lemma image_yields :
  yields (λ _, False)
    (out ← try_fold put_bytes (header_writes address segments)
             (replicate (Z.to_nat (lay_file_size layout)) 0);
     out ← try_fold (λ out x, try_fold put_bytes (segment_writes x.1 x.2) out) (enumerate segments) out;
     out ← try_fold put_bytes (stack_writes segments) out;
     try_fold (write_section payloads) (placements layout) out)
    (λ out, Z.of_nat (length out) = lay_file_size layout ∧ Forall (holds out) image_writes).
Proof.
  pose proof (lo_size _ _ _ _ _ laid). pose proof (header_size_range objects).
  pose proof (puts_yields _ _ _ (replicate (Z.to_nat (lay_file_size layout)) 0) image_chain) as Hy.
  rewrite length_replicate in Hy. specialize (Hy ltac:(lia) ltac:(lia)).
  unfold image_writes in Hy. rewrite !try_fold_app in Hy.
  assert (∀ out, try_fold (write_section payloads) (placements layout) out =
    try_fold put_bytes (section_write payloads <$> filter initialised (placements layout)) out) as Hws.
  { intros out. apply write_sections_flat. intros p Hp Hk. destruct (placement_bounds p Hp) as (H1 & H2 & H3).
    specialize (H3 Hk). pose proof (lo_limit _ _ _ _ _ laid (proj1 (ex_headers _ _ _ _ Hex))).
    split; [lia|]. destruct (section_payload p Hp Hk) as (data & -> & _). by eexists. }
  destruct (try_fold put_bytes (header_writes _ _) _) as [o1| |]; [|done..]. cbn [mbind result_bind] in *.
  rewrite try_fold_join. rewrite try_fold_app in Hy.
  destruct (try_fold put_bytes (enumerate segments ≫= _) o1) as [o2| |]; [|done..]. cbn [mbind result_bind] in *.
  rewrite try_fold_app in Hy.
  destruct (try_fold put_bytes (stack_writes _) o2) as [o3| |]; [|done..]. cbn [mbind result_bind] in *.
  rewrite Hws. eapply yields_mono; [| |exact Hy]; [done|]. intros out (Hl & Hh & _). split; [lia|done].
Qed.

(** ** Reading the image back *)

Section read.
Context (out : list Z) (Hlen : Z.of_nat (length out) = lay_file_size layout).
Context (Hholds : Forall (holds out) image_writes).

Lemma image_write w : w ∈ image_writes → holds out w ∧ 0 ≤ w.1 ∧ w.1 + write_size w ≤ Z.of_nat (length out).
Proof.
  intros Hw. rewrite Forall_forall in Hholds. split; [by apply Hholds|].
  pose proof (chain_bounds _ _ _ _ _ _ image_chain Hw). lia.
Qed.

(** A number written at a position reads back. *)
Lemma read_number at_ n v :
  (at_, to_le_bytes n v) ∈ image_writes → 0 ≤ v < 2 ^ (8 * Z.of_nat n) → read_le at_ n out = v.
Proof.
  intros Hw Hv. destruct (image_write _ Hw) as (Hh & H0 & Hle). unfold write_size in Hle. cbn in H0, Hle.
  rewrite length_to_le_bytes in Hle. apply holds_read; [lia|done|done].
Qed.

Lemma read_header at_ n v :
  (at_, to_le_bytes n v) ∈ header_writes address segments → 0 ≤ v < 2 ^ (8 * Z.of_nat n) →
  read_le at_ n out = v.
Proof. intros Hw. apply read_number. unfold image_writes. apply elem_of_app. by left. Qed.

Lemma read_segment i s at_ n v :
  segments !! i = Some s → (at_, to_le_bytes n v) ∈ segment_writes i s →
  0 ≤ v < 2 ^ (8 * Z.of_nat n) → read_le at_ n out = v.
Proof.
  intros Hs Hw. apply read_number. unfold image_writes. rewrite !elem_of_app. right; left.
  apply list_elem_of_bind. exists (i, s). split; [done|]. by apply elem_of_enumerate.
Qed.

Lemma segment_count : (1 ≤ length segments ≤ 3)%nat.
Proof.
  destruct (ex_headers _ _ _ _ Hex) as [Hne Hh]. pose proof (header_size_range objects).
  destruct segments; [done|]. cbn [length] in *. lia.
Qed.

Lemma segment_fields i s :
  segments !! i = Some s →
  program_header out (64 + Z.of_nat i * 56) =
    mkProgramHeader 1 (seg_flags s) (seg_offset s) (seg_address s) (seg_file_size s)
      (seg_memory_size s) PAGE.
Proof.
  intros Hs. pose proof (lo_segment _ _ _ _ _ laid) as Hok. rewrite Forall_lookup in Hok.
  destruct (Hok i s Hs) as [Ha Hp (Ho & Hf & Hm) Hfile Hu Hfl].
  pose proof (lo_limit _ _ _ _ _ laid (proj1 (ex_headers _ _ _ _ Hex))).
  unfold USER_END, PAGE, BASE in *.
  unfold program_header. f_equal;
    (eapply read_segment; [exact Hs|unfold segment_writes; rewrite !elem_of_cons; tauto|cbn; lia]).
Qed.

Lemma stack_field :
  p_type (program_header out (64 + Z.of_nat (length segments) * 56)) = GNU_STACK.
Proof.
  cbn. apply read_number; [|done]. unfold image_writes. rewrite !elem_of_app. right; right; left.
  unfold stack_writes. rewrite !elem_of_cons. tauto.
Qed.

Lemma headers_read :
  program_headers out = (λ i, program_header out (64 + Z.of_nat i * 56)) <$> seq 0 (S (length segments)).
Proof.
  pose proof segment_count. unfold program_headers.
  rewrite (read_header 32 8 64), (read_header 54 2 56), (read_header 56 2 (Z.of_nat (length segments) + 1)).
  - by replace (Z.to_nat (Z.of_nat (length segments) + 1)) with (S (length segments)) by lia.
  - unfold header_writes, put16. rewrite wrapu_id by lia. rewrite !elem_of_cons. tauto.
  - cbn. lia.
  - unfold header_writes. rewrite !elem_of_cons. tauto.
  - done.
  - unfold header_writes. rewrite !elem_of_cons. tauto.
  - done.
Qed.

Lemma entry_read : entry_point out = address.
Proof.
  apply read_header; [|cbn; lia]. unfold header_writes. rewrite !elem_of_cons. tauto.
Qed.

(** The one program header that maps an address of a segment. *)
Lemma find_header i s a :
  segments !! i = Some s → seg_address s ≤ a < seg_address s + seg_memory_size s →
  find_opt (λ h, maps h a) (program_headers out) =
    Some (mkProgramHeader 1 (seg_flags s) (seg_offset s) (seg_address s) (seg_file_size s)
            (seg_memory_size s) PAGE).
Proof.
  intros Hs Ha. rewrite headers_read. rewrite <- (segment_fields i s Hs).
  apply (find_opt_unique _ _ i).
  - rewrite list_lookup_fmap, lookup_seq_lt; [done|]. apply lookup_lt_Some in Hs. lia.
  - rewrite (segment_fields i s Hs). unfold maps. cbn. lia.
  - intros j h (n & -> & [-> Hn]%lookup_seq)%list_lookup_fmap_Some Hm. cbn [Nat.add] in *.
    destruct (decide (j = length segments)) as [->|Hj].
    { unfold maps in Hm. by rewrite stack_field in Hm. }
    destruct (lookup_lt_is_Some_2 segments j) as [s' Hs']; [lia|].
    rewrite (segment_fields j s' Hs') in Hm. unfold maps in Hm. cbn in Hm.
    destruct (ex_headers _ _ _ _ Hex) as [Hne _]. pose proof (lo_segments _ _ _ _ _ laid Hne) as Hch.
    pose proof (lo_segment _ _ _ _ _ laid) as Hok. rewrite Forall_lookup in Hok.
    pose proof (sg_address _ _ (Hok _ _ Hs)). pose proof (sg_address _ _ (Hok _ _ Hs')).
    destruct (Nat.lt_trichotomy i j) as [Hlt|[->|Hlt]]; [|done|].
    + pose proof (chain_disjoint _ _ _ _ _ _ _ _ _ Hch Hs Hs' Hlt). lia.
    + pose proof (chain_disjoint _ _ _ _ _ _ _ _ _ Hch Hs' Hs Hlt). lia.
Qed.

(** The byte of a section after loading, and the permissions of its kind. *)
Lemma section_loaded oi si s base k :
  section_at objects oi si = Some s → offset_at (section_offsets layout) oi si = Some base →
  0 ≤ k < extent s →
  ∃ b, loaded out (base + k) = Some (b, flags_of (sec_kind s)) ∧
    if decide (sec_kind s = SectionKind.Bss) then b = 0
    else ∃ data, payload_at payloads oi si = Some data ∧ data !! Z.to_nat k = Some b.
Proof.
  intros Hs Hbase Hk.
  destruct (section_placed _ _ _ _ _ _ _ Hex Hs) as (p & seg & Hp & Hd & Hoff & Haddr & Hseg & Hsok & Hc).
  rewrite Hbase in Hoff. injection Hoff as ->. apply list_elem_of_lookup in Hseg as [i Hi].
  pose proof (de_memory _ _ Hd) as Hmem. pose proof (de_kind _ _ Hd) as Hkind. cbn in Hmem, Hkind.
  pose proof (co_start _ _ Hc). pose proof (co_end _ _ Hc). pose proof (sg_address _ _ Hsok) as Hsa.
  unfold loaded. rewrite (find_header i seg) by (done || lia). cbn.
  assert (seg_flags seg = flags_of (sec_kind s)) as -> by (rewrite (co_flags _ _ Hc); congruence).
  destruct (decide (sec_kind s = SectionKind.Bss)) as [Hb|Hb].
  - exists 0. pose proof (co_zeros _ _ Hc ltac:(congruence)).
    rewrite (proj2 (Z.ltb_ge _ _)) by lia. done.
  - assert (initialised p) as Hinit by (unfold initialised; congruence).
    pose proof (co_image _ _ Hc Hinit). rewrite (proj2 (Z.ltb_lt _ _)) by lia.
    destruct (section_payload p Hp Hinit) as (data & Hdata & Hlen').
    pose proof (de_index _ _ Hd) as [= Ho Hsi]. rewrite Ho, Hsi in Hdata.
    destruct (lookup_lt_is_Some_2 data (Z.to_nat k)) as [b Hbk]; [lia|]. exists b.
    split; [|by exists data].
    destruct (image_write (section_write payloads p)) as (Hh & _ & _).
    { unfold image_writes. rewrite !elem_of_app. right; right; right. apply list_elem_of_fmap.
      exists p. split; [done|]. by apply list_elem_of_filter. }
    specialize (Hh (Z.to_nat k)). unfold section_write in Hh. cbn in Hh. rewrite Ho, Hsi, Hdata in Hh.
    cbn in Hh. rewrite Hbk in Hh. pose proof (placement_bounds p Hp). pose proof (header_size_range objects).
    replace (Z.to_nat (seg_offset seg + (pl_address p + k - seg_address seg)))
      with (Z.to_nat (pl_file_offset p) + Z.to_nat k)%nat by lia.
    rewrite Hh by (apply lookup_lt_Some in Hbk; lia). done.
Qed.
End read.
End image.

(** ** The theorem *)

(** The definition the entry name denotes, inside an executable section. *)
Record entry_ok (objects : list ObjectFile) (entry : string) (owner section : nat) (value : Z) : Prop := {
  en_named : entry ≠ "";
  en_chosen : ∃ s, chosen (definitions objects) (GlobalKey entry) = Some (owner, s)
    ∧ sym_section s = Some section ∧ sym_value s = value;
  en_text : ∃ s, section_at objects owner section = Some s ∧ sec_kind s = SectionKind.Text_
    ∧ 0 ≤ value < data_len s;
}.

(** Loading the file puts every section at its address, with its relocated bytes and permissions. *)
Definition image_ok (objects : list ObjectFile) (layout : Layout)
    (payloads : list (list (list Z))) (bytes : list Z) : Prop :=
  ∀ oi si s base k, section_at objects oi si = Some s →
    offset_at (section_offsets layout) oi si = Some base → 0 ≤ k < extent s →
    ∃ b, loaded bytes (base + k) = Some (b, flags_of (sec_kind s)) ∧
      if decide (sec_kind s = SectionKind.Bss) then b = 0
      else ∃ data, payload_at payloads oi si = Some data ∧ data !! Z.to_nat k = Some b.

Record executable_image (objects : list ObjectFile) (entry : string) (max_bytes : Z)
    (bytes : list Z) (layout : Layout) (segments : list Segment)
    (payloads : list (list (list Z))) : Prop := {
  ei_layout : executable_layout objects max_bytes = Ok (layout, segments);
  ei_payloads : apply_relocations objects layout max_bytes = Ok payloads;
  ei_placed : executable_ok objects max_bytes layout segments;
  ei_patched : patched objects layout payloads;
  ei_image : image_ok objects layout payloads bytes;
  ei_entry : ∃ owner section value base, entry_ok objects entry owner section value
    ∧ offset_at (section_offsets layout) owner section = Some base
    ∧ entry_point bytes = base + value;
  ei_size : Z.of_nat (length bytes) ≤ max_bytes;
}.

Lemma write_executable_yields objects entry max_bytes :
  Forall object_typed objects → 0 ≤ max_bytes < 2 ^ 64 →
  yields (λ e, le_kind e ≠ LinkErrorKind.Input) (write_executable_checked objects entry max_bytes)
    (λ bytes, resolvable objects ∧ ∃ layout segments payloads,
       executable_image objects entry max_bytes bytes layout segments payloads).
Proof.
  intros Htyped Hmax. unfold write_executable_checked.
  apply yields_bind, yields_guard; [done|]. intros Hname%negb_true_iff%bool_decide_eq_false.
  apply yields_bind. pose proof (resolve_new_yields objects) as Hy.
  destruct (resolve_new objects) as [t|e|]; [|done..]. destruct Hy as [Hres Ht]. cbn [map_err yields].
  apply yields_bind, yields_ok_or; [done|]. intros selected Hsel.
  apply yields_bind, yields_ok_or; [done|]. intros [owner section] Hos.
  destruct (rs_object selected) as [owner'|] eqn:Ho; [|done].
  destruct (rs_section selected) as [section'|] eqn:Hsec; [|done]. injection Hos as -> ->.
  assert (∃ s, chosen (definitions objects) (GlobalKey entry) = Some (owner, s)
    ∧ sym_section s = Some section ∧ sym_value s = rs_value selected) as (sym & Hch & Hss & Hval).
  { rewrite (to_symbols _ _ Ht) in Hsel.
    destruct (chosen (definitions objects) (GlobalKey entry)) as [[i s]|].
    - injection Hsel as <-. cbn in *. injection Ho as ->. by exists s.
    - destruct (first_reference _ _) as [x|]; [|done]. simpl in Hsel.
      destruct (declaration_of x); [|done]. by injection Hsel as <-. }
  pose proof (rv_inputs _ Hres) as Hin.
  assert (∃ src, section_at objects owner section = Some src ∧ 0 ≤ rs_value selected) as (src & Hsrc & Hpos).
  { apply chosen_Some in Hch as [_ Hd].
    apply list_elem_of_bind in Hd as ([i o] & (s & [= -> ->] & [_ Hs]%list_elem_of_filter)%list_elem_of_fmap
      & Hio%elem_of_enumerate). cbn in Hs, Hio.
    eapply Forall_lookup_1 in Hin as [_ Hok]; [|exact Hio].
    eapply Forall_lookup_1 in Htyped; [|exact Hio].
    pose proof (oo_symbols _ Hok) as Hsy. rewrite Forall_forall in Hsy.
    pose proof (ot_symbols _ Htyped) as Hst. rewrite Forall_forall in Hst.
    destruct (yo_section _ _ (Hsy s Hs) _ Hss) as (src & Hsrc & _). exists src.
    cbn [fst]. unfold section_at. cbn [fst] in *. rewrite Hio. split; [done|].
    rewrite <- Hval. by destruct (Hst s Hs) as [[? _] _]. }
  rewrite Hsrc. cbn [expect mbind result_bind]. apply yields_bind, yields_guard; [done|].
  intros [Htext%negb_false_iff%bool_decide_eq_true Hv%Z.leb_gt]%negb_true_iff%orb_false_iff.
  apply yields_bind. pose proof (executable_layout_yields objects max_bytes Htyped) as Hlay.
  destruct (executable_layout objects max_bytes) as [[layout segments]|e|] eqn:Elay; [|done..].
  destruct Hlay as [Hinputs Hex]. cbn [fst snd map_err yields] in *.
  destruct (section_placed _ _ _ _ _ _ _ Hex Hsrc) as (p & _ & _ & _ & Hbase & _).
  rewrite Hbase. cbn [expect mbind result_bind].
  apply yields_bind, yields_ok_or; [done|]. intros ? [-> Haddr]%checked_u_Some.
  apply yields_bind. pose proof (apply_relocations_yields objects layout max_bytes Htyped Hmax) as Hrel.
  destruct (apply_relocations objects layout max_bytes) as [payloads|e|] eqn:Erel; [|done..].
  destruct Hrel as [_ Hpatched]. cbn [map_err yields].
  pose proof (lo_size _ _ _ _ _ (ex_laid _ _ _ _ Hex)). pose proof (header_size_range objects).
  pose proof (lo_limit _ _ _ _ _ (ex_laid _ _ _ _ Hex) (proj1 (ex_headers _ _ _ _ Hex))).
  rewrite checked_u_id by lia. cbn [ok_or mbind result_bind].
  pose proof (image_yields objects max_bytes layout segments payloads _ Hinputs Htyped Hex (proj2 Hmax)
    Hpatched Haddr) as Himg.
  eapply yields_mono; [| |exact Himg]; [done|]. intros bytes [Hlen Hholds].
  split; [done|]. exists layout, segments, payloads. split; [done..| | |lia].
  - intros oi si s base k. by apply (section_loaded objects max_bytes layout segments payloads
      (pl_address p + rs_value selected) Hinputs Htyped Hex (proj2 Hmax) Hpatched Haddr).
  - exists owner, section, (rs_value selected), (pl_address p). split; [|split; [done|]].
    + split; [done| |]; [by exists sym|]. exists src. split; [done|]. split; [done|]. lia.
    + by apply (entry_read objects max_bytes layout segments payloads _ Hinputs Htyped Hex (proj2 Hmax)
        Hpatched Haddr).
Qed.

(** C11: Emission never panics.  On success the file is within its limit; loading it by its program
    headers puts each section, and only initialised bytes from the file, at the address the layout
    gives it, with its relocated payload, zeros for BSS and the permissions of its kind; and the entry
    point is the definition the entry name denotes, inside an executable section. *)
Theorem executable_loads objects entry max_bytes
    (Htyped : Forall object_typed objects) (Hmax : 0 ≤ max_bytes < 2 ^ 64) :
  write_executable_checked objects entry max_bytes ≠ Panic
  ∧ ∀ bytes, write_executable_checked objects entry max_bytes = Ok bytes →
      resolvable objects ∧ ∃ layout segments payloads,
        executable_image objects entry max_bytes bytes layout segments payloads.
Proof.
  pose proof (write_executable_yields objects entry max_bytes Htyped Hmax) as Hy.
  split; [intros E; by rewrite E in Hy|]. intros bytes E. by rewrite E in Hy.
Qed.

(** The first byte of the program, executable, and a byte of its BSS, writable. *)
Example sample_executable :
  (λ bytes, (entry_point bytes, loaded bytes 0x4000f0, loaded bytes 0x401010, loaded bytes 0x500000))
    <$> write_executable_checked sample_objects "_start" 100000
    = Ok (0x4000f0, Some (0xe8, 5), Some (0, 6), None).
Proof. by vm_compute. Qed.

Lemma executable_loads_witness :
  is_ok (write_executable_checked sample_objects "_start" 100000) = true ∧
  (write_executable_checked sample_objects "_start" 100000 ≠ Panic
   ∧ ∀ bytes, write_executable_checked sample_objects "_start" 100000 = Ok bytes →
       resolvable sample_objects ∧ ∃ layout segments payloads,
         executable_image sample_objects "_start" 100000 bytes layout segments payloads).
Proof.
  split; [by vm_compute|].
  apply (executable_loads sample_objects "_start" 100000 sample_objects_typed). lia.
Defined.
