(* ===== verification/Archive.v ===== *)
(** * The archive reader ([linker/src/core/archive.rs])

    Ordinary Unix archives, in the GNU and the BSD spelling of long names, parsed under budgets of
    names and work that are shared with the object reader.  Names stay byte strings until they are
    kept; every member is read under the oracle of its number. *)
From S2P Require Export ElfSound Selection Executable.
Local Open Scope string_scope.
Local Open Scope list_scope.
Local Open Scope Z_scope.

(** ** Text *)

(** The characters [char::is_whitespace] accepts, by the length of their encoding. *)
Definition white1 (a : Z) : bool := ((9 <=? a) && (a <=? 13)) || (a =? 32).
Definition white2 (a b : Z) : bool := (a =? 0xC2) && ((b =? 0x85) || (b =? 0xA0)).
Definition white3 (a b c : Z) : bool :=
  ((a =? 0xE1) && (b =? 0x9A) && (c =? 0x80))
  || ((a =? 0xE2) && (b =? 0x80)
      && (((0x80 <=? c) && (c <=? 0x8A)) || (c =? 0xA8) || (c =? 0xA9) || (c =? 0xAF)))
  || ((a =? 0xE2) && (b =? 0x81) && (c =? 0x9F))
  || ((a =? 0xE3) && (b =? 0x80) && (c =? 0x80)).

Fixpoint strip_white (two : Z → Z → bool) (three : Z → Z → Z → bool) (bs : list Z) : list Z :=
  match bs with
  | a :: bs1 =>
      if white1 a then strip_white two three bs1 else
      match bs1 with
      | b :: bs2 =>
          if two a b then strip_white two three bs2 else
          match bs2 with
          | c :: bs3 => if three a b c then strip_white two three bs3 else bs
          | [] => bs
          end
      | [] => bs
      end
  | [] => []
  end.

(** [str::trim_end] and [str::trim]. *)
Definition trim_end (bs : list Z) : list Z :=
  rev (strip_white (λ b a, white2 a b) (λ c b a, white3 a b c) (rev bs)).
Definition trim (bs : list Z) : list Z := trim_end (strip_white white2 white3 bs).

(** [str::trim_end_matches] of an ASCII character. *)
Fixpoint drop_byte (c : Z) (bs : list Z) : list Z :=
  match bs with b :: rest => if b =? c then drop_byte c rest else bs | [] => [] end.
Definition trim_end_byte (c : Z) (bs : list Z) : list Z := rev (drop_byte c (rev bs)).

(** [str::strip_prefix]. *)
Definition strip_prefix (prefix bs : list Z) : option (list Z) :=
  if decide (take (length prefix) bs = prefix) then Some (drop (length prefix) bs) else None.

Definition is_digit (b : Z) : bool := (48 <=? b) && (b <=? 57).
Definition digits_value (bs : list Z) : Z := foldl (λ n b, 10 * n + (b - 48)) 0 bs.

Definition decimal (bs : list Z) : result string Z :=
  _ ← guard_err (from_utf8 bs) "invalid archive decimal field";
  let value := trim bs in
  _ ← guard_err (negb (bool_decide (value = [])) && forallb is_digit value)
        "invalid archive decimal field";
  ok_or (checked_u 64 (digits_value value)) "archive decimal field overflow".

Definition is_bsd_index (name : list Z) : bool :=
  bool_decide (name ∈ bytes_of_string <$>
    ["__.SYMDEF"; "__.SYMDEF SORTED"; "__.SYMDEF_64"; "__.SYMDEF_64 SORTED"]).

(** ** The parser *)

Definition name_budget : string := "archive name byte budget exceeded".
Definition work_budget : string := "archive parsing work budget exceeded".

Record ArchiveMember := mkArchiveMember { am_name : string; am_bytes : list Z }.

Definition charge_archive (work amount limit : Z) : result string Z :=
  ok_or (n ← checked_u 64 (work + amount); if n <=? limit then Some n else None) work_budget.

(** [bytes.get(start..end)]. *)
Definition sub_slice (bs : list Z) (start end_ : Z) : option (list Z) :=
  if (start <=? end_) && (end_ <=? len bs)
  then Some (slice start (Z.to_nat (end_ - start)) bs) else None.

Record Scan := mkScan {
  sn_cursor : Z;
  sn_work : Z;
  sn_members : list ArchiveMember;
  sn_names : Z;
  sn_strings : Z;
  sn_long_names : option (list Z);
}.

(** What the name field of a header stands for: the name, if the entry is a member; the payload
    behind it; the bytes looked at; and the work and the table of long names from then on. *)
Record Named := mkNamed {
  nm_name : option (list Z);
  nm_payload : list Z;
  nm_inspected : option Z;
  nm_work : Z;
  nm_long_names : option (list Z);
}.

(** [#1/N]: the name comes first in the payload. *)
Definition bsd_name (count payload : list Z) (work max_work : Z) (long_names : option (list Z))
  : result string Named :=
  length ← decimal count;
  work ← charge_archive work length max_work;
  name ← ok_or (sub_slice payload 0 length) "BSD archive name exceeds member";
  _ ← guard_err (from_utf8 name) "archive name is not UTF-8";
  Ok (mkNamed (Some (trim_end_byte 0 name)) (drop (Z.to_nat length) payload) (Some length) work
        long_names).

(** [/N]: the name is in the table of long names. *)
Definition gnu_name (offset payload : list Z) (work max_work : Z) (long_names : option (list Z))
  : result string Named :=
  offset ← decimal offset;
  table ← ok_or long_names "archive long name table is missing";
  suffix ← ok_or (sub_slice table offset (len table)) "archive long name offset exceeds table";
  remaining ← debug_u 64 (max_work - work);
  let search := take (Z.to_nat (Z.min (len suffix) (Z.min (remaining + 1) (umax 64)))) suffix in
  match list_find (λ b, b = 10 ∨ b = 0) search with
  | None =>
      if remaining <? len suffix then Err work_budget else Err "unterminated archive long name"
  | Some (length, _) =>
      inspected ← debug_u 64 (Z.of_nat length + 1);
      work ← charge_archive work inspected max_work;
      let name := take length suffix in
      _ ← guard_err (from_utf8 name) "archive name is not UTF-8";
      Ok (mkNamed (Some (trim_end_byte 47 name)) payload (Some inspected) work long_names)
  end.

Definition member_name_of (raw payload : list Z) (work max_work : Z)
    (long_names : option (list Z)) : result string Named :=
  if decide (raw = bytes_of_string "//") then Ok (mkNamed None payload None work (Some payload))
  else if decide (raw = bytes_of_string "/" ∨ raw = bytes_of_string "/SYM64/")
  then Ok (mkNamed None payload None work long_names)
  else match strip_prefix (bytes_of_string "#1/") raw with
       | Some count => bsd_name count payload work max_work long_names
       | None =>
           match strip_prefix (bytes_of_string "/") raw with
           | Some offset => gnu_name offset payload work max_work long_names
           | None => Ok (mkNamed (Some (trim_end_byte 47 raw)) payload None work long_names)
           end
       end.

Definition saturating (w z : Z) : Z := Z.min z (umax w).

(** [if let Some(name) = name { .. }]. *)
Definition keep_member (max_names max_strings max_work : Z) (nm : Named) (st : Scan)
  : result string Scan :=
  match nm_name nm with
  | None => Ok st
  | Some name =>
      if is_bsd_index name then Ok st else
      names ← ok_or (n ← checked_u 64 (sn_names st + len name);
                     if n <=? max_names then Some n else None) name_budget;
      strings ← ok_or (n ← checked_u 64 (sn_strings st + default (len name) (nm_inspected nm));
                       n ← checked_u 64 (n + len name);
                       if n <=? max_strings then Some n else None) name_budget;
      work ← charge_archive (sn_work st) (saturating 64 (saturating 64 (len name * 2) + 1)) max_work;
      _ ← guard_err (negb (bool_decide (name = []) || existsb (λ b, b =? 0) name))
            "invalid archive member name";
      _ ← guard_err (len (sn_members st) <? 4096) "archive member limit exceeded";
      Ok (mkScan (sn_cursor st) work
            (sn_members st ++ [mkArchiveMember (string_of_bytes name) (nm_payload nm)]) names strings
            (sn_long_names st))
  end.

(** One turn of the loop. *)
Definition scan_member (bs : list Z) (max_names max_strings max_work : Z) (st : Scan)
  : result string Scan :=
  let cursor := sn_cursor st in
  work ← charge_archive (sn_work st) 60 max_work;
  header_end ← ok_or (checked_u 64 (cursor + 60)) "archive header overflow";
  header ← ok_or (sub_slice bs cursor header_end) "truncated archive header";
  _ ← guard_err (bool_decide (drop 58 header = [96; 10])) "invalid archive header trailer";
  size ← decimal (slice 48 10 header);
  start ← debug_u 64 (cursor + 60);
  end_ ← ok_or (checked_u 64 (start + size)) "archive member size overflow";
  payload ← ok_or (sub_slice bs start end_) "archive member exceeds input";
  _ ← guard_err (from_utf8 (take 16 header)) "archive name is not UTF-8";
  let raw := trim_end (take 16 header) in
  nm ← member_name_of raw payload work max_work (sn_long_names st);
  st ← keep_member max_names max_strings max_work nm
         (mkScan cursor (nm_work nm) (sn_members st) (sn_names st) (sn_strings st) (nm_long_names nm));
  cursor ← (if size mod 2 =? 0 then Ok end_
            else _ ← guard_err (bool_decide (get_at bs end_ = Some 10))
                       "missing archive odd-member padding";
                 debug_u 64 (end_ + 1));
  Ok (mkScan cursor (sn_work st) (sn_members st) (sn_names st) (sn_strings st) (sn_long_names st)).

(** Every turn moves the cursor by a header at least: as many turns as bytes are enough. *)
Fixpoint scan_loop (fuel : nat) (bs : list Z) (max_names max_strings max_work : Z) (st : Scan)
  : result string Scan :=
  match fuel with
  | O => Panic
  | S fuel =>
      if sn_cursor st <? len bs then
        st ← scan_member bs max_names max_strings max_work st;
        scan_loop fuel bs max_names max_strings max_work st
      else Ok st
  end.

Definition ARCHIVE_MAGIC : list Z := bytes_of_string "!<arch>" ++ [10].

Definition parse_archive (bs : list Z) (max_names max_strings max_work : Z)
  : result string (list ArchiveMember * Z * Z) :=
  _ ← guard_err (bool_decide (take 8 bs = ARCHIVE_MAGIC))
        "expected ordinary ar archive (thin archives are unsupported)";
  _ ← guard_err (len bs <=? 256 * 1024 * 1024) "archive input byte limit exceeded";
  work ← charge_archive 0 8 max_work;
  st ← scan_loop (S (length bs)) bs max_names max_strings max_work (mkScan 8 work [] 0 0 None);
  Ok (sn_members st, sn_strings st, sn_work st).

Definition read_archive (bs : list Z) : result string (list ArchiveMember) :=
  '(members, _, _) ← parse_archive bs (1024 * 1024) (umax 64) (512 * 1024 * 1024);
  Ok members.

(** ** The shared budget *)

Notation ReadBudget := ObjectReadLimits.

Definition new_budget (limits : ObjectReadLimits) : ReadBudget := limits.

(** [ReadBudget::subtract]. *)
Definition subtract (slot amount : Z) (r : Resource.t) : result ObjectError Z :=
  ok_or (checked_u 64 (slot - amount)) (error_limit "read" r).

Definition take_input (b : ReadBudget) (bytes : Z) : result ObjectError ReadBudget :=
  n ← subtract (max_input_bytes b) bytes Resource.InputBytes;
  Ok (mkLimits n (max_sections b) (max_program_headers b) (max_symbols b) (max_relocations b)
        (max_payload_bytes b) (max_string_bytes b) (max_work b)).

Definition consume (b : ReadBudget) (u : ObjectReadUsage) : result ObjectError ReadBudget :=
  sections ← subtract (max_sections b) (us_sections u) Resource.Sections;
  program_headers ← subtract (max_program_headers b) (us_program_headers u) Resource.ProgramHeaders;
  symbols ← subtract (max_symbols b) (us_symbols u) Resource.Symbols;
  relocations ← subtract (max_relocations b) (us_relocations u) Resource.Relocations;
  payload ← subtract (max_payload_bytes b) (us_payload_bytes u) Resource.PayloadBytes;
  strings ← subtract (max_string_bytes b) (us_string_bytes u) Resource.StringBytes;
  work ← subtract (max_work b) (us_work u) Resource.Work;
  Ok (mkLimits (max_input_bytes b) sections program_headers symbols relocations payload strings work).

Definition read_member (host : Host) (b : ReadBudget) (bs : list Z)
  : result ObjectError (ObjectFile * ReadBudget) :=
  let limits := mkLimits (len bs) (max_sections b) (max_program_headers b) (max_symbols b)
                  (max_relocations b) (max_payload_bytes b) (max_string_bytes b) (max_work b) in
  '(object, usage) ← read_elf_with_usage host bs limits;
  b ← consume b usage;
  Ok (object, b).

Definition input_error (cause : ObjectError) : LinkError :=
  mkLinkError LinkErrorKind.Input (to_message cause) (oe_contexts cause) (Some cause) None.

(** [ReadBudget::object]: the result, and the budget the call leaves. *)
Definition budget_object (host : Host) (self : ReadBudget) (bs : list Z)
  : result LinkError ObjectFile * ReadBudget :=
  let r := next ← map_err input_error (take_input self (len bs));
           map_err input_error (read_member host next bs) in
  match r with
  | Ok (object, next) => (Ok object, next)
  | Err e => (Err e, self)
  | Panic => (Panic, self)
  end.

Definition archive_error (message : string) : LinkError :=
  if decide (message = name_budget) then input_error (error_limit "read" Resource.StringBytes)
  else if decide (message = work_budget) then input_error (error_limit "read" Resource.Work)
  else link_error LinkErrorKind.Input [Text message].

Definition member_input_error (name : string) (cause : ObjectError) : LinkError :=
  let error := input_error cause in
  mkLinkError (le_kind error) ([Text "archive member "; Quoted name; Text ": "] ++ le_message error)
    (le_contexts error ++ [Context.Object "archive" (Some name)]) (le_input_cause error)
    (le_relocation_cause error).

Definition read_archive_member (host : nat → Host) (st : ReadBudget * list ArchiveObject)
    (x : nat * ArchiveMember) : result LinkError (ReadBudget * list ArchiveObject) :=
  let '(next, objects) := st in
  let '(index, member) := x in
  '(object, next) ← map_err (member_input_error (am_name member))
                      (read_member (host index) next (am_bytes member));
  Ok (next, objects ++ [mkMember (am_name member) object]).

(** [ReadBudget::archive]. *)
Definition budget_archive (host : nat → Host) (self : ReadBudget) (bs : list Z)
  : result LinkError (list ArchiveObject) * ReadBudget :=
  let r :=
    next ← map_err input_error (take_input self (len bs));
    '(members, names, work) ← map_err archive_error
      (parse_archive bs (1024 * 1024) (max_string_bytes next) (max_work next));
    strings ← map_err input_error (subtract (max_string_bytes next) names Resource.StringBytes);
    work ← map_err input_error (subtract (max_work next) work Resource.Work);
    let next := mkLimits (max_input_bytes next) (max_sections next) (max_program_headers next)
                  (max_symbols next) (max_relocations next) (max_payload_bytes next) strings work in
    try_fold (read_archive_member host) (enumerate members) (next, []) in
  match r with
  | Ok (next, objects) => (Ok objects, next)
  | Err e => (Err e, self)
  | Panic => (Panic, self)
  end.

Definition read_objects_with_limits (host : nat → Host) (bs : list Z) (limits : ObjectReadLimits)
  : result LinkError (list ArchiveObject) := fst (budget_archive host (new_budget limits) bs).
Definition read_objects (host : nat → Host) (bs : list Z) : result LinkError (list ArchiveObject) :=
  read_objects_with_limits host bs default_read_limits.
