(* ===== verification/ArchiveSound.v ===== *)
(** * The archive reader on arbitrary input

    The parser ends, never panics and yields members that are parts of the input, in order and apart,
    within the budgets of names and work; a round trip over a plain archive says what it yields.  The
    shared read budget pays for every byte, and whatever a linker is fed, its inputs stay valid. *)
From S2P Require Export Archive.
Local Open Scope string_scope.
Local Open Scope list_scope.
Local Open Scope Z_scope.

(** ** Text *)

Lemma strip_white_suffix two three bs : ∃ pre, bs = pre ++ strip_white two three bs.
Proof.
  cut (∀ n, (length bs ≤ n)%nat → ∃ pre, bs = pre ++ strip_white two three bs); [by eauto|].
  intros n. revert bs. induction n as [|n IH]; intros bs Hn; [destruct bs; [by exists []|cbn in Hn; lia]|].
  destruct bs as [|a bs1]; [by exists []|]. cbn [strip_white length] in *.
  destruct (white1 a).
  { destruct (IH bs1) as [pre Hp]; [lia|]. exists (a :: pre). cbn. by rewrite <- Hp. }
  destruct bs1 as [|b bs2]; [by exists []|]. cbn [length] in Hn. destruct (two a b).
  { destruct (IH bs2) as [pre Hp]; [lia|]. exists (a :: b :: pre). cbn. by rewrite <- Hp. }
  destruct bs2 as [|c bs3]; [by exists []|]. cbn [length] in Hn. destruct (three a b c); [|by exists []].
  destruct (IH bs3) as [pre Hp]; [lia|]. exists (a :: b :: c :: pre). cbn. by rewrite <- Hp.
Qed.

Lemma drop_byte_suffix c bs : ∃ pre, bs = pre ++ drop_byte c bs.
Proof.
  induction bs as [|b bs [pre IH]]; [by exists []|]. cbn. destruct (b =? c); [|by exists []].
  exists (b :: pre). cbn. by rewrite <- IH.
Qed.

Lemma trim_end_prefix bs : ∃ post, bs = trim_end bs ++ post.
Proof.
  unfold trim_end. destruct (strip_white_suffix (λ b a, white2 a b) (λ c b a, white3 a b c) (rev bs)) as [pre Hp].
  exists (rev pre). rewrite <- rev_app_distr, <- Hp. by rewrite rev_involutive.
Qed.
Lemma trim_end_byte_prefix c bs : ∃ post, bs = trim_end_byte c bs ++ post.
Proof.
  unfold trim_end_byte. destruct (drop_byte_suffix c (rev bs)) as [pre Hp].
  exists (rev pre). rewrite <- rev_app_distr, <- Hp. by rewrite rev_involutive.
Qed.

Lemma trim_end_bytes bs : Forall is_byte bs → Forall is_byte (trim_end bs).
Proof. destruct (trim_end_prefix bs) as [post Hp]. rewrite Hp at 1. by intros [? _]%Forall_app. Qed.
Lemma trim_end_byte_bytes c bs : Forall is_byte bs → Forall is_byte (trim_end_byte c bs).
Proof. destruct (trim_end_byte_prefix c bs) as [post Hp]. rewrite Hp at 1. by intros [? _]%Forall_app. Qed.
#[export] Hint Resolve trim_end_bytes trim_end_byte_bytes slice_bytes Forall_take Forall_drop : bytes.

Lemma strip_prefix_bytes p bs rest : strip_prefix p bs = Some rest → Forall is_byte bs → Forall is_byte rest.
Proof. unfold strip_prefix. case_decide; [|done]. intros [= <-]. apply Forall_drop. Qed.

Lemma digits_value_nonneg bs : forallb is_digit bs = true → 0 ≤ digits_value bs.
Proof.
  unfold digits_value. cut (∀ n, 0 ≤ n → forallb is_digit bs = true → 0 ≤ foldl (λ n b, 10 * n + (b - 48)) n bs).
  { intros Hc. by apply Hc. }
  induction bs as [|b bs IH]; intros n Hn Hb; [done|]. cbn [forallb foldl] in *.
  apply andb_true_iff in Hb as [Hb1%andb_true_iff Hb2]. apply IH; [lia|done].
Qed.

Section parse.
Context (F : string → Prop) (HF : ∀ e, F e).
Context (bs : list Z) (Hbytes : Forall is_byte bs) (Hlen : len bs < 2 ^ 63).
Context (max_names max_strings max_work : Z).
Context (Hnames : 0 ≤ max_names) (Hstrings : 0 ≤ max_strings) (Hwork : max_work < 2 ^ 64).
#[local] Set Default Proof Using "Type*".

Lemma decimal_yields text : yields F (decimal text) (λ n, 0 ≤ n < 2 ^ 64).
Proof using HF.
  unfold decimal. do 2 (apply yields_bind, yields_guard; [auto|]; intros _).
  apply yields_ok_or; [auto|]. by intros n [-> ?]%checked_u_Some.
Qed.

Lemma charge_archive_yields work n : 0 ≤ work → 0 ≤ n →
  yields F (charge_archive work n max_work) (λ w, w = work + n ∧ w ≤ max_work).
Proof using HF.
  intros. unfold charge_archive. apply yields_ok_or; [auto|].
  intros w (m & [-> _]%checked_u_Some & Hm)%bind_Some. destruct (Z.leb_spec (work + n) max_work); [|done].
  by injection Hm as <-.
Qed.

(** The bytes are the part of the input at the offset. *)
Definition part (at_ : Z) (data : list Z) : Prop :=
  0 ≤ at_ ∧ at_ + len data ≤ len bs ∧ slice at_ (length data) bs = data.

Lemma part_bytes at_ data : part at_ data → Forall is_byte data.
Proof. intros (_ & _ & <-). by apply slice_bytes. Qed.

Lemma sub_slice_part start end_ data : 0 ≤ start →
  sub_slice bs start end_ = Some data → part start data ∧ start + len data = end_ ∧ end_ ≤ len bs.
Proof using.
  unfold sub_slice. intros Hs H. destruct (Z.leb_spec start end_), (Z.leb_spec end_ (len bs)); try done. injection H as <-.
  assert (length (slice start (Z.to_nat (end_ - start)) bs) = Z.to_nat (end_ - start)) as Hl.
  { apply length_slice. unfold len in *. lia. }
  unfold part, len at 1 3. rewrite Hl. split; [split; [done|split; [lia|done]]|lia].
Qed.

Lemma part_drop at_ data n : part at_ data → (n ≤ length data)%nat →
  part (at_ + Z.of_nat n) (drop n data) ∧ at_ + Z.of_nat n + len (drop n data) = at_ + len data.
Proof using.
  intros (H0 & Hle & Hs) Hn. assert (len (drop n data) = len data - Z.of_nat n) as Hl.
  { unfold len. rewrite length_drop. lia. }
  split; [|lia]. split; [lia|]. split; [lia|]. rewrite length_drop. rewrite <- Hs at 2.
  unfold slice. rewrite skipn_firstn_comm, drop_drop. do 2 f_equal. lia.
Qed.

(** What a name field may stand for. *)
Record named_ok (start end_ work : Z) (nm : Named) : Prop := {
  no_work : work ≤ nm_work nm ≤ max_work;
  no_name name : nm_name nm = Some name → Forall is_byte name;
  no_inspected n : nm_inspected nm = Some n → 0 ≤ n;
  no_payload : ∃ at_, start ≤ at_ ∧ at_ + len (nm_payload nm) = end_ ∧ part at_ (nm_payload nm);
  no_long table : nm_long_names nm = Some table → Forall is_byte table;
}.

Lemma member_name_of_yields raw start end_ payload work long_names :
  Forall is_byte raw → part start payload → start + len payload = end_ → 0 ≤ work ≤ max_work →
  (∀ table, long_names = Some table → Forall is_byte table) →
  yields F (member_name_of raw payload work max_work long_names) (named_ok start end_ work).
Proof.
  intros Hraw Hp Hend Hw Hlong. pose proof (part_bytes _ _ Hp) as Hpb. pose proof Hp as (Hs0 & Hpe & _).
  assert (∃ at_, start ≤ at_ ∧ at_ + len payload = end_ ∧ part at_ payload) as Hpl by (exists start; by split; [lia|]).
  unfold member_name_of. case_decide; [split; cbn; try done; [lia|by intros ? [= <-]]|].
  case_decide; [split; cbn; done || lia|].
  destruct (strip_prefix (bytes_of_string "#1/") raw) as [count|] eqn:E1.
  - unfold bsd_name. apply yields_bind. eapply yields_mono, decimal_yields; [done|]. intros n [Hn0 Hn1].
    apply yields_bind. eapply yields_mono, charge_archive_yields; [done| |lia|lia]. intros w [-> Hwm].
    apply yields_bind, yields_ok_or; [auto|]. intros name Hname.
    apply yields_bind, yields_guard; [auto|]. intros _. cbn [yields].
    assert (Forall is_byte name ∧ n ≤ len payload) as [Hnb Hnl].
    { unfold sub_slice in Hname. destruct (Z.leb_spec 0 n), (Z.leb_spec n (len payload)); try done.
      injection Hname as <-. split; [by apply slice_bytes|lia]. }
    destruct (part_drop start payload (Z.to_nat n) Hp) as [Hp' Hl']; [unfold len in Hnl; lia|].
    split; cbn; try done; [lia|intros ? [= <-]; auto with bytes|intros ? [= <-]; lia|].
    exists (start + Z.of_nat (Z.to_nat n)). split; [lia|]. by rewrite Hl'.
  - destruct (strip_prefix (bytes_of_string "/") raw) as [offset|] eqn:E2.
    + unfold gnu_name. apply yields_bind. eapply yields_mono, decimal_yields; [done|]. intros n [Hn0 Hn1].
      apply yields_bind, yields_ok_or; [auto|]. intros table Htab.
      apply yields_bind, yields_ok_or; [auto|]. intros suffix Hsuf.
      assert (Forall is_byte suffix) as Hsb.
      { unfold sub_slice in Hsuf. destruct (_ && _); [|done]. injection Hsuf as <-. apply slice_bytes, Hlong, Htab. }
      rewrite debug_u_id by lia. cbn [mbind result_bind].
      destruct (list_find _ _) as [[k x]|] eqn:Ef; [|case_match; apply HF].
      assert (Z.of_nat k < umax 64) as Hk.
      { apply list_find_Some in Ef as (Hk%lookup_lt_Some & _). rewrite length_take in Hk. lia. }
      unfold sub_slice in Hsuf. destruct (Z.leb_spec n (len table)), (Z.leb_spec (len table) (len table)); try done.
      rewrite debug_u_id by (unfold umax in Hk; lia). cbn [mbind result_bind].
      apply yields_bind. eapply yields_mono, charge_archive_yields; [done| |lia|lia]. intros w [-> Hwm].
      apply yields_bind, yields_guard; [auto|]. intros _. cbn [yields].
      split; cbn; try done; [lia|intros ? [= <-]; auto with bytes|intros ? [= <-]; lia].
    + split; cbn; try done; [lia|intros ? [= <-]; auto with bytes].
Qed.
(** ** The loop *)

(** Where the members kept so far lie. *)
Definition placed (places : list (Z * ArchiveMember)) (end_ : Z) : Prop :=
  chain fst (len ∘ am_bytes ∘ snd) 8 places end_ ∧ Forall (λ p, part p.1 (am_bytes p.2)) places.

Definition member_named (m : ArchiveMember) : Prop :=
  am_name m ≠ "" ∧ contains_nul (am_name m) = false.
Definition names_len (ms : list ArchiveMember) : Z := foldr (λ m n, name_len (am_name m) + n) 0 ms.

Record kept (end_ : Z) (st : Scan) : Prop := {
  kp_work : 0 ≤ sn_work st ≤ max_work;
  kp_places : ∃ places, places.*2 = sn_members st ∧ placed places end_;
  kp_named : Forall member_named (sn_members st);
  kp_count : len (sn_members st) ≤ 4096;
  kp_names : sn_names st = names_len (sn_members st) ∧ sn_names st ≤ max_names;
  kp_strings : sn_names st ≤ sn_strings st ≤ max_strings;
  kp_long table : sn_long_names st = Some table → Forall is_byte table;
}.

Lemma names_len_snoc ms m : names_len (ms ++ [m]) = names_len ms + name_len (am_name m).
Proof using. unfold names_len. induction ms; cbn in *; lia. Qed.
Lemma names_len_nonneg ms : 0 ≤ names_len ms.
Proof using. unfold names_len. induction ms as [|m ms IH]; cbn; [done|]. pose proof (name_len_nonneg (am_name m)). lia. Qed.

Lemma string_of_bytes_named name : Forall is_byte name → name ≠ [] → existsb (λ b, b =? 0) name = false →
  member_named (mkArchiveMember (string_of_bytes name) []).
Proof using.
  intros Hb Hne Hnul. split; cbn [am_name].
  - intros He. apply (f_equal name_len) in He. rewrite name_len_of_bytes in He. destruct name; [done|].
    unfold len in He. by cbn in He.
  - unfold contains_nul. by rewrite bytes_of_string_of_bytes.
Qed.

Lemma keep_member_yields start end_ work nm st :
  8 ≤ start → named_ok start end_ work nm → 0 ≤ work → sn_work st = nm_work nm →
  (∀ places, placed places start → placed places end_) →
  (∃ places, places.*2 = sn_members st ∧ placed places start) → kept end_ st →
  yields F (keep_member max_names max_strings max_work nm st) (kept end_).
Proof.
  intros Hs8 [Hw Hnb Hins (at_ & Hat & Hate & Hpart) _] Hw0 Hst Hgrow (places & Hp2 & Hpl) Hk. unfold keep_member.
  destruct (nm_name nm) as [name|]; [|done]. destruct (is_bsd_index name); [done|].
  pose proof Hk as [_ _ Hnamed Hcount [Hn Hnm] Hstr Hlong]. pose proof (len_nonneg name).
  pose proof (names_len_nonneg (sn_members st)). specialize (Hnb name eq_refl).
  apply yields_bind, yields_ok_or; [auto|]. intros n (? & [-> _]%checked_u_Some & Hlen1)%bind_Some.
  destruct (Z.leb_spec (sn_names st + len name) max_names) as [Hle1|]; [|done]. injection Hlen1 as <-.
  apply yields_bind, yields_ok_or; [auto|].
  intros s (? & [-> _]%checked_u_Some & (? & [-> _]%checked_u_Some & Hlen2)%bind_Some)%bind_Some.
  destruct (Z.leb_spec (sn_strings st + default (len name) (nm_inspected nm) + len name) max_strings) as [Hle2|]; [|done].
  injection Hlen2 as <-.
  assert (0 ≤ default (len name) (nm_inspected nm)) as Hd.
  { destruct (nm_inspected nm) as [i|] eqn:Ei; [by apply Hins|done]. }
  apply yields_bind. eapply yields_mono, charge_archive_yields; [done| |lia|unfold saturating, umax; lia].
  intros w [-> Hwm]. apply yields_bind, yields_guard; [auto|].
  intros [Hne%bool_decide_eq_false Hnul]%negb_true_iff%orb_false_iff.
  apply yields_bind, yields_guard; [auto|]. intros Hc%Z.ltb_lt. cbn [yields].
  split; cbn [sn_work sn_members sn_names sn_strings sn_long_names].
  - unfold saturating, umax in *. lia.
  - exists (places ++ [(at_, mkArchiveMember (string_of_bytes name) (nm_payload nm))]).
    split; [by rewrite fmap_app, Hp2|]. destruct Hpl as [Hch Hparts]. split.
    + eapply chain_app; [exact Hch|]. cbn. pose proof (len_nonneg (nm_payload nm)). lia.
    + apply Forall_app_2; [done|]. by constructor; [|constructor].
  - apply Forall_app_2; [done|]. constructor; [|constructor]. by apply string_of_bytes_named.
  - rewrite len_app. unfold len at 2. cbn. lia.
  - rewrite names_len_snoc. cbn [am_name]. rewrite name_len_of_bytes. lia.
  - lia.
  - exact Hlong.
Qed.

(** The state between turns. *)
Definition scanned (st : Scan) : Prop := 8 ≤ sn_cursor st ≤ len bs ∧ kept (sn_cursor st) st.

Lemma scan_member_yields st : scanned st → sn_cursor st < len bs →
  yields F (scan_member bs max_names max_strings max_work st)
    (λ st', scanned st' ∧ sn_cursor st + 60 ≤ sn_cursor st').
Proof.
  intros [Hcur Hk] Hlt. pose proof Hk as [Hw (places & Hp2 & Hpl) Hnamed Hcount Hn Hstr Hlong]. unfold scan_member.
  apply yields_bind. eapply yields_mono, charge_archive_yields; [done| |lia|lia]. intros work [-> Hwm].
  apply yields_bind, yields_ok_or; [auto|]. intros hend [-> Hhe]%checked_u_Some.
  apply yields_bind, yields_ok_or; [auto|]. intros hdr Hhdr. apply sub_slice_part in Hhdr as (Hhp & Hhl & Hhb); [|lia].
  apply yields_bind, yields_guard; [auto|]. intros _.
  apply yields_bind. eapply yields_mono, decimal_yields; [done|]. intros size [Hz0 Hz1].
  rewrite debug_u_id by lia. cbn [mbind result_bind].
  apply yields_bind, yields_ok_or; [auto|]. intros end_ [-> He]%checked_u_Some.
  apply yields_bind, yields_ok_or; [auto|]. intros payload Hpay. apply sub_slice_part in Hpay as (Hpp & Hpe & Hpb); [|lia].
  apply yields_bind, yields_guard; [auto|]. intros _.
  apply yields_bind. eapply yields_mono, (member_name_of_yields _ (sn_cursor st + 60) (sn_cursor st + 60 + size));
    [done| |apply trim_end_bytes, Forall_take, (part_bytes _ _ Hhp)|done|done|lia|done].
  intros nm Hnm. pose proof Hnm as [Hnw _ _ _ Hnl].
  assert (∀ e e' ps, e ≤ e' → placed ps e → placed ps e') as Hgrow.
  { intros e e' ps Hee [Hch Hparts]. split; [by eapply chain_weaken|done]. }
  apply yields_bind. eapply yields_mono, (keep_member_yields (sn_cursor st + 60) (sn_cursor st + 60 + size)); [done| |lia|done|lia|done| | |].
  - intros st' [Hw' (ps & Hps & Hpl') Hnamed' Hcount' Hn' Hstr' Hlong'].
    apply yields_bind. apply (yields_mono F F _ (λ c, sn_cursor st + 60 + size ≤ c ≤ len bs)); [done| |].
    + intros c Hc. cbn [yields]. split; [|cbn; lia]. split; [cbn; lia|]. split; cbn; try done.
      exists ps. split; [done|]. eapply Hgrow; [|exact Hpl']. lia.
    + destruct (size mod 2 =? 0); [cbn; lia|]. apply yields_bind, yields_guard; [auto|].
      intros Hg%bool_decide_eq_true. unfold get_at in Hg.
      destruct (Z.ltb_spec (sn_cursor st + 60 + size) (len bs)); [|done]. rewrite debug_u_id by lia. cbn. lia.
  - intros ps. apply Hgrow. lia.
  - exists places. split; [done|]. eapply Hgrow; [|exact Hpl]. lia.
  - split; cbn; try done; [lia|]. exists places. split; [done|]. eapply Hgrow; [|exact Hpl]. lia.
Qed.

Lemma scan_loop_yields fuel st : scanned st → len bs - sn_cursor st < Z.of_nat fuel →
  yields F (scan_loop fuel bs max_names max_strings max_work st) (λ st', scanned st' ∧ sn_cursor st' = len bs).
Proof.
  revert st. induction fuel as [|fuel IH]; intros st Hst Hf.
  { destruct Hst as [Hc _]. lia. }
  cbn [scan_loop]. destruct (Z.ltb_spec (sn_cursor st) (len bs)) as [Hlt|Hge].
  - apply yields_bind. eapply yields_mono, scan_member_yields; [done| |done|done].
    intros st' [Hst' Hc]. apply IH; [done|lia].
  - split; [done|]. destruct Hst as [Hc _]. lia.
Qed.
End parse.

(** What a parse keeps: parts of the input in their order, with names, within the budgets. *)
Record archive_parsed (bs : list Z) (max_names max_strings max_work : Z)
    (r : list ArchiveMember * Z * Z) : Prop := {
  ap_places : ∃ places, places.*2 = r.1.1 ∧ placed bs places (len bs);
  ap_named : Forall member_named r.1.1;
  ap_count : len r.1.1 ≤ 4096;
  ap_names : names_len r.1.1 ≤ max_names;
  ap_strings : names_len r.1.1 ≤ r.1.2 ≤ max_strings;
  ap_work : 0 ≤ r.2 ≤ max_work;
}.

Lemma parse_archive_yields F bs max_names max_strings max_work :
  (∀ e, F e) → Forall is_byte bs → 0 ≤ max_names → 0 ≤ max_strings → max_work < 2 ^ 64 →
  yields F (parse_archive bs max_names max_strings max_work) (archive_parsed bs max_names max_strings max_work).
Proof.
  intros HF Hb Hmn Hms Hmw. unfold parse_archive. apply yields_bind, yields_guard; [auto|]. intros Hmagic%bool_decide_eq_true.
  apply yields_bind, yields_guard; [auto|]. intros Hlen%Z.leb_le.
  apply yields_bind. eapply yields_mono, (charge_archive_yields F HF); [done| |done|done]. intros w [-> Hw].
  assert (8 ≤ len bs) as H8.
  { apply (f_equal length) in Hmagic. rewrite length_take in Hmagic. unfold len.
    change (length ARCHIVE_MAGIC) with 8%nat in Hmagic. lia. }
  apply yields_bind. eapply yields_mono,
    (scan_loop_yields F HF bs Hb ltac:(lia) max_names max_strings max_work Hmn Hms Hmw); [done| | |].
  - intros st [[_ [Hkw (ps & Hps & Hpl) Hnamed Hc [Hn1 Hn2] Hstr _]] Hcur]. cbn [yields]. rewrite Hcur in Hpl.
    split; cbn [fst snd]; try done; try lia. by exists ps.
  - split; cbn; [lia|]. split; cbn; try done; try lia.
    exists []. split; [done|]. split; [cbn; lia|constructor].
  - cbn. unfold len in *. lia.
Qed.

(** ** The shared budget *)

Definition count_of {A} (f : ObjectFile → list A) (os : list ObjectFile) : Z := foldr (λ o n, len (f o) + n) 0 os.

Lemma count_of_app {A} (f : ObjectFile → list A) os os' : count_of f (os ++ os') = count_of f os + count_of f os'.
Proof. unfold count_of. induction os; cbn in *; lia. Qed.
Lemma payload_of_app os os' : payload_of (os ++ os') = payload_of os + payload_of os'.
Proof. unfold payload_of. induction os; cbn in *; lia. Qed.

(** What the budget lost covers what the objects hold. *)
Record paid (b b' : ReadBudget) (os : list ObjectFile) : Prop := {
  pd_input : max_input_bytes b' ≤ max_input_bytes b;
  pd_sections : count_of sections os ≤ max_sections b - max_sections b';
  pd_symbols : count_of symbols os ≤ max_symbols b - max_symbols b';
  pd_relocations : count_of relocations os = max_relocations b - max_relocations b';
  pd_payload : payload_of os = max_payload_bytes b - max_payload_bytes b';
  pd_strings : max_string_bytes b' ≤ max_string_bytes b;
  pd_work : max_work b' ≤ max_work b;
}.

Lemma paid_nil b : paid b b [].
Proof. split; cbn; lia. Qed.
Lemma paid_trans b b' b'' os os' : paid b b' os → paid b' b'' os' → paid b b'' (os ++ os').
Proof. intros [] []. split; rewrite ?count_of_app, ?payload_of_app; lia. Qed.

Record object_read (o : ObjectFile) : Prop := {
  or_valid : object_ok o;
  or_typed : object_typed o;
  or_target : target o = object_target X86_64WhaleLinux;
}.

Lemma subtract_yields (F : ObjectError → Prop) slot n r :
  (∀ e, F e) → yields F (subtract slot n r) (λ m, m = slot - n ∧ 0 ≤ m < 2 ^ 64).
Proof. intros HF. unfold subtract. apply yields_ok_or; [auto|]. by intros m [-> ?]%checked_u_Some. Qed.

Lemma take_input_yields (F : ObjectError → Prop) b n :
  (∀ e, F e) → limits_range b → 0 ≤ n →
  yields F (take_input b n) (λ b', limits_range b' ∧ paid b b' [] ∧ max_string_bytes b' = max_string_bytes b
    ∧ max_work b' = max_work b).
Proof.
  intros HF Hb Hn. unfold take_input. apply yields_bind. eapply yields_mono, subtract_yields; [done| |done].
  intros m [-> Hm]. cbn [yields]. unfold limits_range in *. rewrite !Forall_cons in Hb |- *. cbn.
  split; [tauto|]. split; [|done]. split; cbn; lia.
Qed.

Lemma consume_yields (F : ObjectError → Prop) bs b o u :
  (∀ e, F e) → limits_range b → read_ok bs (mkLimits (len bs) (max_sections b) (max_program_headers b)
    (max_symbols b) (max_relocations b) (max_payload_bytes b) (max_string_bytes b) (max_work b)) (o, u) →
  yields F (consume b u) (λ b', limits_range b' ∧ paid b b' [o]).
Proof.
  intros HF Hb [_ _ _ Had _ Hs Hy Hr Hp (Hn1 & Hn2 & Hn3)]. cbn [fst snd] in *. unfold consume.
  do 7 (apply yields_bind; eapply yields_mono, subtract_yields; [done| |done]; intros ? [-> ?]).
  cbn [yields]. unfold limits_range in *. rewrite !Forall_cons in Hb |- *. cbn.
  split; [tauto|]. split; cbn; try lia. rewrite <- Hp. unfold payload_of, sections_payload. cbn. lia.
Qed.

Lemma read_member_yields (F : ObjectError → Prop) host b bs :
  (∀ e, F e) → Forall is_byte bs → len bs < 2 ^ 63 → limits_range b →
  yields F (read_member host b bs) (λ r, object_read r.1 ∧ limits_range r.2 ∧ paid b r.2 [r.1]).
Proof.
  intros HF Hbytes Hlen Hb. unfold read_member. apply yields_bind.
  eapply yields_mono, (read_elf_yields F); [done| |done..|].
  - intros [o u] Hr. apply yields_bind. eapply yields_mono, consume_yields; [done| |done|done|exact Hr].
    intros b' [Hb' Hp]. cbn [yields fst snd]. split; [|done]. destruct Hr. by split.
  - unfold limits_range in *. rewrite !Forall_cons in Hb |- *. cbn. pose proof (len_nonneg bs).
    split; [lia|tauto].
Qed.

Definition input_blamed (e : LinkError) : Prop := le_kind e = LinkErrorKind.Input.

Lemma yields_input_error {A} (r : result ObjectError A) Q (g : ObjectError → LinkError) :
  (∀ e, input_blamed (g e)) → yields (λ _, True) r Q → yields input_blamed (map_err g r) Q.
Proof. intros Hg. destruct r; cbn; auto. Qed.

(** A call of the budget: what it yields, and that an error leaves the budget alone. *)
Definition budget_call {A} (self : ReadBudget) (r : result LinkError A * ReadBudget) (objects : A → list ObjectFile)
  : Prop :=
  match r with
  | (Ok a, b') => limits_range b' ∧ paid self b' (objects a) ∧ Forall object_read (objects a)
  | (Err e, b') => b' = self ∧ input_blamed e
  | (Panic, _) => False
  end.

Lemma budget_object_call host self bs :
  Forall is_byte bs → len bs < 2 ^ 63 → limits_range self →
  budget_call self (budget_object host self bs) (λ o, [o]).
Proof.
  intros Hb Hlen Hl. unfold budget_object.
  assert (yields input_blamed (next ← map_err input_error (take_input self (len bs)); map_err input_error (read_member host next bs))
    (λ r, limits_range r.2 ∧ paid self r.2 [r.1] ∧ object_read r.1)) as Hy.
  { apply yields_bind, yields_input_error; [done|]. eapply yields_mono, (take_input_yields (λ _, True)); [done| |done|done|apply len_nonneg].
    intros next (Hn & Hp & _). apply yields_input_error; [done|].
    eapply yields_mono, (read_member_yields (λ _, True)); [done| |done..]. intros r (Ho & Hr & Hp').
    split; [done|]. split; [|done]. by apply (paid_trans _ _ _ [] _ Hp). }
  destruct (_ ≫= _) as [[o b']|e|]; cbn in Hy |- *; [|done|done]. destruct Hy as (? & ? & ?).
  split; [done|]. split; [done|]. by constructor; [|constructor].
Qed.

Definition members_objects (ms : list ArchiveObject) : list ObjectFile := member_object <$> ms.

Lemma budget_archive_call host self bs :
  Forall is_byte bs → len bs < 2 ^ 63 → limits_range self →
  budget_call self (budget_archive host self bs) members_objects.
Proof.
  intros Hb Hlen Hl. unfold budget_archive. set (r := _ ≫= _).
  assert (yields input_blamed r (λ r, limits_range r.1 ∧ paid self r.1 (members_objects r.2)
    ∧ Forall object_read (members_objects r.2))) as Hy.
  2: { clearbody r. destruct r as [[b' os]|e|]; cbn in Hy |- *; done. }
  unfold r. apply yields_bind, yields_input_error; [done|].
  eapply yields_mono, (take_input_yields (λ _, True)); [done| |done|done|apply len_nonneg].
  intros next (Hn & Hp & Hns & Hnw). pose proof Hn as Hn'. unfold limits_range in Hn'. rewrite !Forall_cons in Hn'.
  apply yields_bind. assert (∀ e, input_blamed (archive_error e)) as Hae.
  { intros e. unfold archive_error. by repeat case_decide. }
  pose proof (parse_archive_yields (λ _, True) bs (1024 * 1024) (max_string_bytes next) (max_work next)
    ltac:(done) Hb ltac:(lia) ltac:(lia) ltac:(lia)) as Hparse.
  destruct (parse_archive _ _ _ _) as [[[ms nl] work]|e|]; cbn [map_err yields] in Hparse |- *; [|apply Hae|done].
  destruct Hparse as [(places & Hpl & _ & Hparts) _ _ _ Hstr Hwork]. cbn [fst snd] in *.
  pose proof (names_len_nonneg ms) as Hnn.
  apply yields_bind, yields_input_error; [done|]. eapply yields_mono, (subtract_yields (λ _, True)); [done| |done]. intros s [-> Hs].
  apply yields_bind, yields_input_error; [done|]. eapply yields_mono, (subtract_yields (λ _, True)); [done| |done]. intros w [-> Hw].
  set (next' := mkLimits _ _ _ _ _ _ _ _).
  assert (limits_range next') as Hn1 by (unfold limits_range; rewrite !Forall_cons; cbn; tauto).
  assert (paid self next' []) as Hp1.
  { apply (paid_trans _ next _ [] [] Hp). split; cbn; lia. }
  eapply (yields_mono input_blamed), (try_fold_yields _ input_blamed (λ _ r, limits_range r.1
    ∧ paid self r.1 (members_objects r.2) ∧ Forall object_read (members_objects r.2))); [done|done| |].
  { split; [done|]. by split. }
  intros pre [i m] post [b os] Heq (Hbr & Hbp & Hall). cbn [fst snd] in *. unfold read_archive_member.
  apply yields_bind, yields_input_error; [done|].
  assert (m ∈ places.*2) as Hin.
  { rewrite Hpl. apply (list_elem_of_lookup_2 _ i), elem_of_enumerate. rewrite Heq. set_solver. }
  apply list_elem_of_fmap in Hin as ([at_ m'] & -> & Hin). apply (proj1 (Forall_forall _ _) Hparts) in Hin as (Hat0 & Hle & Hsl).
  cbn [fst snd] in *. pose proof (len_nonneg (am_bytes m')).
  eapply yields_mono, (read_member_yields (λ _, True)); [done| |done|rewrite <- Hsl; by apply slice_bytes|lia|done].
  intros [o b'] (Ho & Hb' & Hp'). cbn [yields fst snd] in *. unfold members_objects. rewrite fmap_app.
  split; [done|]. split; [by eapply paid_trans|]. apply Forall_app_2; [done|]. by constructor; [|constructor].
Qed.

(** ** A sample archive *)

(** The header and the contents of a member, the size spelled out. *)
Definition sample_entry (name size : string) (data : list Z) : list Z :=
  let field (n : nat) (s : string) := take n (bytes_of_string s ++ replicate n 32) in
  field 16%nat name ++ field 12%nat "0" ++ field 6%nat "0" ++ field 6%nat "0" ++ field 8%nat "644"
  ++ field 10%nat size ++ [96; 10] ++ data ++ (if Z.odd (len data) then [10] else []).

Definition written (o : ObjectFile) : list Z :=
  match write_elf_checked all_granted 48 o 4096 with Ok bs => bs | _ => [] end.

(** A symbol index, a member with a short name and one named in the table of long names. *)
Definition sample_archive : list Z := Eval vm_compute in
  ARCHIVE_MAGIC ++ sample_entry "/" "3" [0; 0; 0]
  ++ sample_entry "//" "22" (bytes_of_string "a_rather_long_name.o/" ++ [10])
  ++ sample_entry "/0" "488" (written sample_library) ++ sample_entry "spare.o/" "488" (written sample_spare).

Example sample_sizes : (len (written sample_library), len (written sample_spare)) = (488, 488).
Proof. by vm_compute. Qed.
Example sample_members :
  fmap (M := list) am_name <$> read_archive sample_archive = Ok ["a_rather_long_name.o"; "spare.o"].
Proof. by vm_compute. Qed.
