(* ===== verification/Linker.v ===== *)
(** * The linker ([linker/src/core/linker.rs])

    The inputs of a link, owned or read from bytes under one budget, and the whole of it: validation,
    selection of archive members, resolution, layout, relocation and emission.  A method that changes
    the linker and may fail yields its result and the linker it leaves. *)
From S2P Require Export Selection Executable ArchiveSound.
Local Open Scope Z_scope.

(** ** State *)

Inductive OutputFormat := ELF64Executable.

Record Linker := mkLinker {
  inputs : list LinkInput.t;
  output_format : OutputFormat;
  entry : string;
  read_budget : ReadBudget;
}.

Definition with_read_limits (format : OutputFormat) (limits : ObjectReadLimits) : Linker :=
  mkLinker [] format "_start" (new_budget limits).

Definition new_linker (format : OutputFormat) : Linker := with_read_limits format default_read_limits.

Definition add_object (l : Linker) (o : ObjectFile) : Linker :=
  mkLinker (inputs l ++ [LinkInput.Object o]) (output_format l) (entry l) (read_budget l).

Definition at_input (index : nat) (e : LinkError) : LinkError :=
  mkLinkError (le_kind e) (le_message e) (le_contexts e ++ [Context.Input index]) (le_input_cause e)
    (le_relocation_cause e).

Definition add_object_bytes (host : Host) (l : Linker) (bs : list Z) : result LinkError unit * Linker :=
  let '(r, budget) := budget_object host (read_budget l) bs in
  match map_err (at_input (length (inputs l))) r with
  | Ok o => (Ok tt, mkLinker (inputs l ++ [LinkInput.Object o]) (output_format l) (entry l) budget)
  | Err e => (Err e, mkLinker (inputs l) (output_format l) (entry l) budget)
  | Panic => (Panic, l)
  end.

Definition add_archive (host : nat → Host) (l : Linker) (bs : list Z) : result LinkError unit * Linker :=
  let '(r, budget) := budget_archive host (read_budget l) bs in
  match map_err (at_input (length (inputs l))) r with
  | Ok ms => (Ok tt, mkLinker (inputs l ++ [LinkInput.Archive ms]) (output_format l) (entry l) budget)
  | Err e => (Err e, mkLinker (inputs l) (output_format l) (entry l) budget)
  | Panic => (Panic, l)
  end.

Definition set_entry (l : Linker) (name : string) : Linker :=
  mkLinker (inputs l) (output_format l) name (read_budget l).

(** ** Linking *)

Definition invalid_target (e : TargetError) : ObjectError :=
  new_error "validate" ErrorKind.InvalidTarget (display_target_error e).

Definition link_input_error (index : nat) (e : ObjectError) : LinkError :=
  mkLinkError LinkErrorKind.Input (link_input index (to_message e))
    (oe_contexts e ++ [Context.Input index]) (Some e) None.

Definition member_error (name : string) (e : Message) : LinkError :=
  link_error LinkErrorKind.Input ([Text "member "; Quoted name; Text ": "] ++ e).

Definition validate_link_input (x : nat * LinkInput.t) : result LinkError unit :=
  match x.2 with
  | LinkInput.Object o =>
      map_err (link_input_error x.1)
        (_ ← map_err invalid_target (validate_amd64 (target o)); validate_diagnostic o)
  | LinkInput.Archive members =>
      try_fold (λ _ m, map_err (member_error (member_name m)) (validate (member_object m))) members tt
  end.

Definition DEFAULT_LIMIT : Z := 256 * 1024 * 1024.

Definition link_with_limit (l : Linker) (max_bytes : Z) : result LinkError (list Z) :=
  _ ← try_fold (λ _ x, validate_link_input x) (enumerate (inputs l)) tt;
  objects ← map_err (link_error LinkErrorKind.Selection) (select (inputs l) (entry l) max_bytes);
  _ ← map_err (link_error LinkErrorKind.Symbols) (resolve_new objects);
  match output_format l with
  | ELF64Executable => write_executable_checked objects (entry l) max_bytes
  end.

Definition link_checked (l : Linker) : result LinkError (list Z) := link_with_limit l DEFAULT_LIMIT.

Definition link (l : Linker) : result Message (list Z) := map_err to_message (link_checked l).

(** ** What a link yields *)

Definition input_ok (i : LinkInput.t) : Prop :=
  match i with
  | LinkInput.Object o => validate_amd64 (target o) = Ok tt ∧ object_ok o
  | LinkInput.Archive members => Forall (λ m, object_ok (member_object m)) members
  end.
Definition input_typed (i : LinkInput.t) : Prop :=
  match i with
  | LinkInput.Object o => object_typed o
  | LinkInput.Archive members => Forall (λ m, object_typed (member_object m)) members
  end.

Lemma validate_link_input_decides x : validate_link_input x = Ok tt ↔ input_ok x.2.
Proof.
  unfold validate_link_input. destruct (x.2) as [o|members]; simpl.
  - rewrite <- validate_diagnostic_decides.
    destruct (validate_amd64 (target o)) as [[]|e|]; simpl; [|naive_solver..].
    destruct (validate_diagnostic o) as [[]|e|]; simpl; naive_solver.
  - rewrite (try_fold_check_Ok (λ m, map_err (member_error (member_name m)) (validate (member_object m)))).
    apply Forall_iff. intros m. rewrite <- validate_decides.
    destruct (validate (member_object m)) as [[]|e|]; simpl; naive_solver.
Qed.

Lemma validate_link_input_no_panic x : validate_link_input x ≠ Panic.
Proof.
  unfold validate_link_input. destruct (x.2) as [o|members].
  - unfold validate_amd64. pose proof (validate_no_panic o). case_decide; simpl; [|done].
    by destruct (validate_diagnostic o).
  - apply (try_fold_check_no_panic (λ m, map_err (member_error (member_name m)) (validate (member_object m)))).
    intros m. unfold validate. pose proof (validate_no_panic (member_object m)).
    by destruct (validate_diagnostic (member_object m)).
Qed.

Lemma validate_link_input_kind x e : validate_link_input x = Err e → le_kind e = LinkErrorKind.Input.
Proof.
  unfold validate_link_input. destruct (x.2) as [o|members].
  - destruct (_ ≫= _); simpl; [done|by intros [= <-]|done].
  - generalize tt. induction members as [|m members IH]; intros u; simpl; [done|].
    destruct (validate (member_object m)) as [[]|e'|]; simpl; [apply IH|by intros [= <-]|done].
Qed.

Lemma validate_link_inputs_yields l :
  yields (λ e, le_kind e = LinkErrorKind.Input ∧ ¬ Forall input_ok (inputs l))
    (try_fold (λ _ x, validate_link_input x) (enumerate (inputs l)) tt)
    (λ _, Forall input_ok (inputs l)).
Proof.
  assert (Forall (λ x, validate_link_input x = Ok tt) (enumerate (inputs l)) ↔ Forall input_ok (inputs l)) as Hiff.
  { rewrite !Forall_forall. split.
    - intros H i [n Hn]%list_elem_of_lookup. apply (validate_link_input_decides (n, i)).
      by apply H, elem_of_enumerate.
    - intros H [n i] Hn%elem_of_enumerate. apply validate_link_input_decides, H.
      by eapply list_elem_of_lookup_2. }
  destruct (try_fold _ _ _) as [[]|e|] eqn:E; simpl.
  - apply Hiff. by apply try_fold_check_Ok.
  - split.
    + clear Hiff. revert E. generalize tt. induction (enumerate (inputs l)) as [|x xs IH]; intros u; simpl; [done|].
      destruct (validate_link_input x) as [[]|e'|] eqn:Ex; simpl; [apply IH| |done].
      intros [= <-]. by eapply validate_link_input_kind.
    + intros H%Hiff%try_fold_check_Ok. congruence.
  - revert E. apply try_fold_check_no_panic, validate_link_input_no_panic.
Qed.

(** The selected objects come from the inputs. *)
Lemma pull_Forall (P : ObjectFile → Prop) name members s s' :
  pull name members s s' → Forall (λ m, P (member_object m)) members → Forall P s.2 → Forall P s'.2.
Proof.
  intros [used sel i m Hm _ _ _] Hall Hs. cbn in *. apply Forall_app. split; [done|].
  apply Forall_cons. split; [|done]. by apply (Forall_lookup_1 _ _ _ _ Hall Hm).
Qed.

Lemma selects_Forall (P : ObjectFile → Prop) name sel is_ res :
  selects name sel is_ res →
  Forall (λ i, match i with LinkInput.Object o => P o
                          | LinkInput.Archive ms => Forall (λ m, P (member_object m)) ms end) is_ →
  Forall P sel → Forall P res.
Proof.
  induction 1 as [|sel o is_ res _ IH|sel ms used sel' is_ res Hr _ _ IH]; intros Hall Hsel; [done| |].
  - apply Forall_cons in Hall as [Ho Hall]. apply IH; [done|]. apply Forall_app. by split; [|apply Forall_cons].
  - apply Forall_cons in Hall as [Hms Hall]. apply IH; [done|].
    cut (∀ s s', rtc (pull name ms) s s' → Forall P s.2 → Forall P s'.2).
    { intros Hcut. apply (Hcut _ _ Hr Hsel). }
    clear -Hms. induction 1 as [|s s' s'' Hp _ IH]; intros Hs; [done|]. apply IH.
    by eapply pull_Forall.
Qed.

Lemma link_yields l max_bytes :
  Forall input_typed (inputs l) → 0 ≤ max_bytes < 2 ^ 64 →
  yields (λ e, le_kind e = LinkErrorKind.Input ↔ ¬ Forall input_ok (inputs l)) (link_with_limit l max_bytes)
    (λ bytes, Forall input_ok (inputs l) ∧ ∃ objects layout segments payloads,
       selects (entry l) [] (inputs l) objects ∧ resolvable objects
       ∧ executable_image objects (entry l) max_bytes bytes layout segments payloads).
Proof.
  intros Htyped Hmax. unfold link_with_limit. apply yields_bind.
  eapply yields_mono, validate_link_inputs_yields; [by intros e [? ?]|]. intros u Hok.
  assert (∀ A (r : result LinkError A) Q, yields (λ e, le_kind e ≠ LinkErrorKind.Input) r Q →
    yields (λ e, le_kind e = LinkErrorKind.Input ↔ ¬ Forall input_ok (inputs l)) r Q) as Hother.
  { intros A r Q. apply yields_mono; [|done]. intros e He. split; [done|by intros []]. }
  apply Hother. apply yields_bind.
  pose proof (select_yields (inputs l) (entry l) max_bytes Hmax) as Hsel.
  destruct (select _ _ _) as [objects|e|]; [|done..]. destruct Hsel as ((w & Hsel%selects_with_selects & _) & _ & _). cbn [map_err yields].
  assert (Forall object_typed objects) as Hobjs.
  { eapply selects_Forall; [exact Hsel| |done]. eapply Forall_impl; [exact Htyped|]. by intros []. }
  apply yields_bind. pose proof (resolve_new_yields objects) as Hres.
  destruct (resolve_new objects); [|done..]. cbn [map_err yields]. destruct (output_format l).
  eapply yields_mono, write_executable_yields; [done| |done|done].
  intros bytes (Hr & layout & segments & payloads & Himg). split; [done|].
  by exists objects, layout, segments, payloads.
Qed.

(** C7: Linking never panics and blames its inputs exactly if one is invalid.  On success the objects
    linked are those the rules of archives select, every reference among them resolves, and loading
    the file gives each of their sections its relocated bytes at its address. *)
Theorem link_correct l max_bytes
    (Htyped : Forall input_typed (inputs l)) (Hmax : 0 ≤ max_bytes < 2 ^ 64) :
  match link_with_limit l max_bytes with
  | Ok bytes => Forall input_ok (inputs l) ∧ ∃ objects layout segments payloads,
      selects (entry l) [] (inputs l) objects ∧ resolvable objects
      ∧ executable_image objects (entry l) max_bytes bytes layout segments payloads
  | Err e => le_kind e = LinkErrorKind.Input ↔ ¬ Forall input_ok (inputs l)
  | Panic => False
  end.
Proof. exact (link_yields l max_bytes Htyped Hmax). Qed.

Definition sample_linker : Linker := mkLinker sample_inputs ELF64Executable "_start" default_read_limits.

Lemma sample_linker_typed : Forall input_typed (inputs sample_linker).
Proof.
  pose proof sample_typed as H. rewrite !Forall_cons in H. destruct H as (Hm & Hl & Hs & _).
  apply Forall_cons. split; [done|]. apply Forall_cons. split; [|done].
  apply Forall_cons. split; [done|]. by apply Forall_cons.
Qed.

Lemma link_correct_witness :
  is_ok (link_with_limit sample_linker 100000) = true ∧
  (match link_with_limit sample_linker 100000 with
   | Ok bytes => Forall input_ok (inputs sample_linker) ∧ ∃ objects layout segments payloads,
       selects (entry sample_linker) [] (inputs sample_linker) objects ∧ resolvable objects
       ∧ executable_image objects (entry sample_linker) 100000 bytes layout segments payloads
   | Err e => le_kind e = LinkErrorKind.Input ↔ ¬ Forall input_ok (inputs sample_linker)
   | Panic => False
   end).
Proof.
  split; [by vm_compute|]. apply (link_correct sample_linker 100000 sample_linker_typed). lia.
Defined.

(** ** Linkers fed with bytes *)

Inductive Feed :=
  | FeedObject (host : Host) (bs : list Z)
  | FeedArchive (host : nat → Host) (bs : list Z)
  | FeedEntry (name : string).

Definition feed_bytes (f : Feed) : list Z :=
  match f with FeedObject _ bs | FeedArchive _ bs => bs | FeedEntry _ => [] end.
Definition feed_typed (f : Feed) : Prop := Forall is_byte (feed_bytes f) ∧ len (feed_bytes f) < 2 ^ 63.

(** One call, and a sequence of them; the caller goes on after an error. *)
Definition feed (l : Linker) (f : Feed) : result LinkError unit * Linker :=
  match f with
  | FeedObject host bs => add_object_bytes host l bs
  | FeedArchive host bs => add_archive host l bs
  | FeedEntry name => (Ok tt, set_entry l name)
  end.
Definition feed_all (l : Linker) (fs : list Feed) : Linker := foldl (λ l f, (feed l f).2) l fs.

Definition input_objects (i : LinkInput.t) : list ObjectFile :=
  match i with LinkInput.Object o => [o] | LinkInput.Archive ms => members_objects ms end.

(** Every input is an object the reader accepted, and the budget paid for all of them. *)
Record fed (limits : ObjectReadLimits) (l : Linker) : Prop := {
  fd_range : limits_range (read_budget l);
  fd_paid : paid limits (read_budget l) (inputs l ≫= input_objects);
  fd_read : Forall object_read (inputs l ≫= input_objects);
}.

Lemma fed_start format limits : limits_range limits → fed limits (with_read_limits format limits).
Proof. intros H. split; [done|apply paid_nil|constructor]. Qed.

Lemma fed_grow limits l budget i :
  fed limits l → limits_range budget → paid (read_budget l) budget (input_objects i) →
  Forall object_read (input_objects i) →
  fed limits (mkLinker (inputs l ++ [i]) (output_format l) (entry l) budget).
Proof.
  intros [_ Hp Hr] Hb Hp' Hr'. split; cbn [read_budget inputs]; rewrite ?bind_app, ?bind_singleton; [done| |].
  - by eapply paid_trans.
  - by apply Forall_app_2.
Qed.

(** A call keeps the invariant, never panics, and changes nothing if it fails. *)
Lemma feed_step limits l f :
  fed limits l → feed_typed f →
  (feed l f).1 ≠ Panic ∧ fed limits (feed l f).2 ∧ (is_ok (feed l f).1 = false → (feed l f).2 = l).
Proof.
  intros Hl [Hb Hn]. pose proof (fd_range _ _ Hl) as Hr. destruct f as [host bs|host bs|name]; cbn [feed feed_bytes] in *.
  - unfold add_object_bytes. pose proof (budget_object_call host (read_budget l) bs Hb Hn Hr) as Hc.
    destruct (budget_object _ _ _) as [[o|e|] b]; cbn in Hc |- *; [|by destruct Hc as [-> _]; destruct l|done].
    destruct Hc as (? & ? & ?). split; [done|]. split; [by apply fed_grow|done].
  - unfold add_archive. pose proof (budget_archive_call host (read_budget l) bs Hb Hn Hr) as Hc.
    destruct (budget_archive _ _ _) as [[ms|e|] b]; cbn in Hc |- *; [|by destruct Hc as [-> _]; destruct l|done].
    destruct Hc as (? & ? & ?). split; [done|]. split; [by apply fed_grow|done].
  - split; [done|]. split; [|done]. destruct Hl. by split.
Qed.

Lemma feed_all_fed limits l fs : fed limits l → Forall feed_typed fs → fed limits (feed_all l fs).
Proof.
  intros Hl Hfs. revert l Hl. induction Hfs as [|f fs Hf _ IH]; intros l Hl; [done|]. apply IH. by apply feed_step.
Qed.

Lemma object_read_amd64 o : object_read o → validate_amd64 (target o) = Ok tt ∧ object_ok o.
Proof. intros [Hok _ ->]. by split. Qed.

Lemma fed_inputs limits l : fed limits l → Forall input_ok (inputs l) ∧ Forall input_typed (inputs l).
Proof.
  intros [_ _ Hr]. rewrite !Forall_forall. rewrite Forall_forall in Hr.
  assert (∀ i o, i ∈ inputs l → o ∈ input_objects i → object_read o) as Hin.
  { intros i o Hi Ho. apply Hr, list_elem_of_bind. by exists i. }
  split; intros [o|ms] Hi; cbn.
  - apply object_read_amd64, (Hin _ _ Hi). by apply list_elem_of_singleton.
  - apply Forall_forall. intros m Hm. apply (Hin _ _ Hi), list_elem_of_fmap. by exists m.
  - apply (Hin _ o Hi). by apply list_elem_of_singleton.
  - apply Forall_forall. intros m Hm. apply (Hin _ (member_object m) Hi), list_elem_of_fmap. by exists m.
Qed.

(** C8: Whatever bytes a linker is fed, in objects and archives and whether the calls succeed or not:
    no call panics, one that fails changes nothing, the budget pays for the sections, symbols,
    relocations and payload of every input kept, and the link then never blames its inputs: it
    yields the executable image of the objects selected or an error of a later phase. *)
Theorem fed_link format limits fs f max_bytes :
  limits_range limits → Forall feed_typed fs → feed_typed f → 0 ≤ max_bytes < 2 ^ 64 →
  let l := feed_all (with_read_limits format limits) fs in
  (feed l f).1 ≠ Panic ∧ (is_ok (feed l f).1 = false → (feed l f).2 = l)
  ∧ paid limits (read_budget l) (inputs l ≫= input_objects)
  ∧ match link_with_limit l max_bytes with
    | Ok bytes => ∃ objects layout segments payloads,
        selects (entry l) [] (inputs l) objects ∧ resolvable objects
        ∧ executable_image objects (entry l) max_bytes bytes layout segments payloads
    | Err e => le_kind e ≠ LinkErrorKind.Input
    | Panic => False
    end.
Proof.
  intros Hlim Hfs Hf Hmax l. pose proof (feed_all_fed limits _ fs (fed_start format limits Hlim) Hfs) as Hl.
  fold l in Hl. destruct (feed_step _ _ f Hl Hf) as (Hp & _ & Hsame). destruct (fed_inputs _ _ Hl) as [Hok Hty].
  split; [done|]. split; [done|]. split; [apply Hl|].
  pose proof (link_yields l max_bytes Hty Hmax) as Hlink. destruct (link_with_limit l max_bytes) as [bytes|e|]; cbn in Hlink.
  - apply Hlink.
  - intros He. by apply Hlink in He.
  - done.
Qed.

(** A linker fed with the sample files. *)
Definition sample_feed : list Feed :=
  [FeedObject all_granted sample_written; FeedArchive (λ _, all_granted) sample_archive; FeedEntry "_start"].

Lemma sample_feed_typed : Forall feed_typed (FeedObject all_granted [0x7f; 69] :: sample_feed).
Proof. repeat constructor; cbn [feed_bytes sample_feed]; by apply forallb_bytes || by vm_compute. Qed.

Lemma fed_link_witness :
  let l := feed_all (with_read_limits ELF64Executable default_read_limits) sample_feed in
  is_ok (link_with_limit l 100000) = true
  ∧ (feed l (FeedObject all_granted [0x7f; 69])).1 ≠ Panic
  ∧ (is_ok (feed l (FeedObject all_granted [0x7f; 69])).1 = false → (feed l (FeedObject all_granted [0x7f; 69])).2 = l)
  ∧ paid default_read_limits (read_budget l) (inputs l ≫= input_objects)
  ∧ match link_with_limit l 100000 with
    | Ok bytes => ∃ objects layout segments payloads,
        selects (entry l) [] (inputs l) objects ∧ resolvable objects
        ∧ executable_image objects (entry l) 100000 bytes layout segments payloads
    | Err e => le_kind e ≠ LinkErrorKind.Input
    | Panic => False
    end.
Proof.
  split; [by vm_compute|]. apply (fed_link ELF64Executable default_read_limits).
  - repeat constructor; vm_compute; discriminate.
  - apply (Forall_inv_tail sample_feed_typed).
  - apply (Forall_inv sample_feed_typed).
  - lia.
Defined.
