(* ===== verification/Syntax.v ===== *)
(** * The IR data model

    The data of [ir/src]: types, identities, constants, instructions,
    terminators, blocks, functions, globals, source metadata and modules.
    Every Rust enum whose variants would clash lives in a [Module] of its name, so
    that [BinOp.Add] reads as [BinOp::Add] does. *)
From S2P Require Export Target.
Local Open Scope Z_scope.

(** ** Identities ([value.rs]) *)

Record FunctionId := mkFunctionId { fid : Z }.
Record GlobalId := mkGlobalId { gid : Z }.
Record ValueId := mkValueId { vid : Z }.
Record BlockId := mkBlockId { bid : Z }.

#[export] Instance FunctionId_eq_dec : EqDecision FunctionId.
Proof. solve_decision. Defined.
#[export] Instance GlobalId_eq_dec : EqDecision GlobalId.
Proof. solve_decision. Defined.
#[export] Instance ValueId_eq_dec : EqDecision ValueId.
Proof. solve_decision. Defined.
#[export] Instance BlockId_eq_dec : EqDecision BlockId.
Proof. solve_decision. Defined.
#[export] Instance FunctionId_countable : Countable FunctionId.
Proof. by refine (inj_countable' fid mkFunctionId _); intros []. Defined.
#[export] Instance GlobalId_countable : Countable GlobalId.
Proof. by refine (inj_countable' gid mkGlobalId _); intros []. Defined.
#[export] Instance ValueId_countable : Countable ValueId.
Proof. by refine (inj_countable' vid mkValueId _); intros []. Defined.
#[export] Instance BlockId_countable : Countable BlockId.
Proof. by refine (inj_countable' bid mkBlockId _); intros []. Defined.

(** ** Types ([types.rs], [function.rs]) *)

Inductive CallingConvention := Whale | SysV64.
#[export] Instance CallingConvention_eq_dec : EqDecision CallingConvention.
Proof. solve_decision. Defined.

Inductive Linkage := Internal | External.
#[export] Instance Linkage_eq_dec : EqDecision Linkage.
Proof. solve_decision. Defined.

Module Ty.
Inductive t :=
  | Void
  | Bool
  | I1 | U1 | I8 | I16 | I32 | I64 | I128 | U8 | U16 | U32 | U64 | U128
  | F16 | F32 | F64
  | Ptr (inner : t)
  | FnPtr (sig : signature)
  | Array (element : t) (count : Z)
  | Struct (fields : list t)
  | Tuple (items : list t)
with signature :=
  | Sig (params : list t) (ret : t) (convention : CallingConvention) (variadic : bool).
End Ty.
Notation ty := Ty.t.
Notation FunctionSignature := Ty.signature.

Definition params (s : FunctionSignature) : list ty := let '(Ty.Sig ps _ _ _) := s in ps.
Definition ret (s : FunctionSignature) : ty := let '(Ty.Sig _ r _ _) := s in r.
Definition convention (s : FunctionSignature) : CallingConvention :=
  let '(Ty.Sig _ _ c _) := s in c.
Definition variadic (s : FunctionSignature) : bool := let '(Ty.Sig _ _ _ v) := s in v.

(** [FunctionSignature::whale]. *)
Definition whale (ps : list ty) (r : ty) : FunctionSignature := Ty.Sig ps r Whale false.
(** [Type::ptr_to]. *)
Definition ptr_to (inner : ty) : ty := Ty.Ptr inner.

(** Induction that reaches the types nested in lists and signatures. *)
Section ty_induction.
Context (P : ty → Prop) (Q : FunctionSignature → Prop).
Context (HVoid : P Ty.Void) (HBool : P Ty.Bool).
Context (HI1 : P Ty.I1) (HU1 : P Ty.U1) (HI8 : P Ty.I8) (HI16 : P Ty.I16)
  (HI32 : P Ty.I32) (HI64 : P Ty.I64) (HI128 : P Ty.I128) (HU8 : P Ty.U8)
  (HU16 : P Ty.U16) (HU32 : P Ty.U32) (HU64 : P Ty.U64) (HU128 : P Ty.U128)
  (HF16 : P Ty.F16) (HF32 : P Ty.F32) (HF64 : P Ty.F64).
Context (HPtr : ∀ t, P t → P (Ty.Ptr t)).
Context (HFnPtr : ∀ s, Q s → P (Ty.FnPtr s)).
Context (HArray : ∀ t n, P t → P (Ty.Array t n)).
Context (HStruct : ∀ ts, Forall P ts → P (Ty.Struct ts)).
Context (HTuple : ∀ ts, Forall P ts → P (Ty.Tuple ts)).
Context (HSig : ∀ ps r c v, Forall P ps → P r → Q (Ty.Sig ps r c v)).

Fixpoint ty_ind_nested (t : ty) : P t :=
  let go := fix go (ts : list ty) : Forall P ts :=
    match ts with
    | [] => @List.Forall_nil ty P
    | t :: ts => @List.Forall_cons ty P t ts (ty_ind_nested t) (go ts)
    end in
  match t with
  | Ty.Void => HVoid | Ty.Bool => HBool
  | Ty.I1 => HI1 | Ty.U1 => HU1 | Ty.I8 => HI8 | Ty.I16 => HI16 | Ty.I32 => HI32
  | Ty.I64 => HI64 | Ty.I128 => HI128 | Ty.U8 => HU8 | Ty.U16 => HU16
  | Ty.U32 => HU32 | Ty.U64 => HU64 | Ty.U128 => HU128
  | Ty.F16 => HF16 | Ty.F32 => HF32 | Ty.F64 => HF64
  | Ty.Ptr t => HPtr _ (ty_ind_nested t)
  | Ty.FnPtr s =>
      HFnPtr _ match s with
               | Ty.Sig ps r c v => HSig ps r c v (go ps) (ty_ind_nested r)
               end
  | Ty.Array t n => HArray _ n (ty_ind_nested t)
  | Ty.Struct ts => HStruct _ (go ts)
  | Ty.Tuple ts => HTuple _ (go ts)
  end.
End ty_induction.

Fixpoint ty_dec (a b : ty) {struct a} : {a = b} + {a ≠ b}
with sig_dec (a b : FunctionSignature) {struct a} : {a = b} + {a ≠ b}.
Proof.
  - decide equality; [apply Z.eq_dec|apply (list_eq_dec (dec := ty_dec))..].
  - decide equality; [apply Bool.bool_dec|apply CallingConvention_eq_dec|].
    apply (list_eq_dec (dec := ty_dec)).
Defined.
#[export] Instance ty_eq_dec : EqDecision ty := ty_dec.
#[export] Instance sig_eq_dec : EqDecision FunctionSignature := sig_dec.

(** ** Constants ([instr.rs], [float.rs]) *)

Inductive FloatBits := F16Bits (bits : Z) | F32Bits (bits : Z) | F64Bits (bits : Z).
#[export] Instance FloatBits_eq_dec : EqDecision FloatBits.
Proof. solve_decision. Defined.

Module ConstValue.
Inductive t := Bool (b : bool) | I (v : Z) | U (v : Z) | F (bits : FloatBits).
#[global] Instance eq_dec : EqDecision t.
Proof. solve_decision. Defined.
End ConstValue.
Notation const_value := ConstValue.t.

(** ** Operators ([instr.rs]) *)

Module ICmpPred.
Inductive t := Eq | Ne | Ult | Ule | Ugt | Uge | Slt | Sle | Sgt | Sge.
#[global] Instance eq_dec : EqDecision t.
Proof. solve_decision. Defined.
End ICmpPred.

Module FCmpPred.
Inductive t :=
  | Oeq | One | Olt | Ole | Ogt | Oge | Ord | Uno | Ueq | Une | Ult | Ule | Ugt | Uge.
#[global] Instance eq_dec : EqDecision t.
Proof. solve_decision. Defined.
End FCmpPred.

Module CastOp.
Inductive t :=
  | CheckedInt | ZExt | SExt | Trunc | FExt | FTrunc | IToF_S | IToF_U | FToI_S | FToI_U
  | Bitcast | PtrToInt | IntToPtr.
#[global] Instance eq_dec : EqDecision t.
Proof. solve_decision. Defined.
End CastOp.

Module BinOp.
Inductive t :=
  | Add | Sub | Mul | UDiv | SDiv | URem | SRem
  | FAdd | FSub | FMul | FDiv | FRem
  | And | Or | Xor | Shl | LShr | AShr.
#[global] Instance eq_dec : EqDecision t.
Proof. solve_decision. Defined.
End BinOp.

Module CheckedOp.
Inductive t := UAdd | USub | UMul | SAdd | SSub | SMul.
#[global] Instance eq_dec : EqDecision t.
Proof. solve_decision. Defined.
End CheckedOp.

Module CmpOp.
Inductive t :=
  | Eq | Ne | SLt | SLe | SGt | SGe | ULt | ULe | UGt | UGe
  | FEq | FNe | FLt | FLe | FGt | FGe.
#[global] Instance eq_dec : EqDecision t.
Proof. solve_decision. Defined.
End CmpOp.

(** [CmpOp::float_predicate]. *)
Definition float_predicate (op : CmpOp.t) : option FCmpPred.t :=
  match op with
  | CmpOp.FEq => Some FCmpPred.Oeq
  | CmpOp.FNe => Some FCmpPred.Une
  | CmpOp.FLt => Some FCmpPred.Olt
  | CmpOp.FLe => Some FCmpPred.Ole
  | CmpOp.FGt => Some FCmpPred.Ogt
  | CmpOp.FGe => Some FCmpPred.Oge
  | _ => None
  end.

Module Callee.
Inductive t := Direct (f : FunctionId) | Indirect (v : ValueId).
#[global] Instance eq_dec : EqDecision t.
Proof. solve_decision. Defined.
End Callee.

(** ** Constant expressions ([const_expr.rs]) *)

Module ConstRef.
Inductive t := Global (g : GlobalId) | Local (v : ValueId).
#[global] Instance eq_dec : EqDecision t.
Proof. solve_decision. Defined.
End ConstRef.

Module ConstBinaryOp.
Inductive t :=
  | Add | Sub | Mul | BitAnd | BitOr | BitXor | Div | Rem | ShiftLeft | ShiftRight
  | LogicalAnd | LogicalOr.
#[global] Instance eq_dec : EqDecision t.
Proof. solve_decision. Defined.
End ConstBinaryOp.

Module ConstCompareOp.
Inductive t := Eq | Ne | Lt | Le | Gt | Ge.
#[global] Instance eq_dec : EqDecision t.
Proof. solve_decision. Defined.
End ConstCompareOp.

Module ConstExpr.
Inductive t := mk (ty : ty) (kind : kind)
with kind :=
  | Not (value : t)
  | Neg (value : t)
  | Literal (value : const_value)
  | Reference (reference : ConstRef.t)
  | Binary (op : ConstBinaryOp.t) (left right : t)
  | Compare (op : ConstCompareOp.t) (left right : t).
End ConstExpr.
Notation const_expr := ConstExpr.t.

Definition expr_ty (e : const_expr) : ty := let '(ConstExpr.mk t _) := e in t.
Definition expr_kind (e : const_expr) : ConstExpr.kind := let '(ConstExpr.mk _ k) := e in k.

(** ** Instructions ([instr.rs]) *)

Module Instruction.
Inductive t :=
  | GlobalAddr (dst : ValueId) (global : GlobalId) (ty : ty)
  | LifetimeEnd (ptr : ValueId)
  | PtrDiff (dst lhs rhs : ValueId)
  | ConstDecl (dst : ValueId) (name : string) (expression : const_expr) (value : const_value)
  | Const (dst : ValueId) (ty : ty) (value : const_value)
  | Undef (dst : ValueId) (ty : ty)
  | Mov (dst : ValueId) (ty : ty) (src : ValueId)
  | Bin (dst : ValueId) (op : BinOp.t) (ty : ty) (lhs rhs : ValueId)
  | Neg (dst : ValueId) (ty : ty) (src : ValueId)
  | Not (dst : ValueId) (ty : ty) (src : ValueId)
  | Cmp (dst : ValueId) (op : CmpOp.t) (ty : ty) (lhs rhs : ValueId)
  | ICmp (dst : ValueId) (pred : ICmpPred.t) (ty : ty) (lhs rhs : ValueId)
  | FCmp (dst : ValueId) (pred : FCmpPred.t) (ty : ty) (lhs rhs : ValueId)
  | Select (dst : ValueId) (ty : ty) (cond on_true on_false : ValueId)
  | Cast (dst : ValueId) (op : CastOp.t) (dst_ty src_ty : ty) (src : ValueId)
  | Phi (dst : ValueId) (ty : ty) (incomings : list (ValueId * BlockId))
  | Extract (dst : ValueId) (dst_ty : ty) (tuple : ValueId) (index : Z)
  | Checked (dst : ValueId) (op : CheckedOp.t) (ty : ty) (lhs rhs : ValueId)
  | Alloca (dst : ValueId) (ty : ty) (align : Z)
  | VolatileLoad (dst : ValueId) (ty : ty) (ptr : ValueId) (align : Z)
  | VolatileStore (ty : ty) (value ptr : ValueId) (align : Z)
  | Load (dst : ValueId) (ty : ty) (ptr : ValueId) (align : Z)
  | Uninit (ty : ty) (ptr : ValueId) (align : Z)
  | Store (ty : ty) (value ptr : ValueId) (align : Z)
  | Gep (dst : ValueId) (dst_ty : ty) (base_ptr : ValueId) (indices : list ValueId)
  | Memcpy (dst src n : ValueId) (align : Z)
  | Memset (dst val n : ValueId) (align : Z)
  | NullFunction (dst : ValueId) (signature : FunctionSignature)
  | FunctionAddr (dst : ValueId) (function : FunctionId) (signature : FunctionSignature)
  | Call (convention : CallingConvention) (dst : option ValueId) (ret_ty : ty)
      (callee : Callee.t) (args : list ValueId)
  | TrapIf (cond : ValueId) (reason : string).
End Instruction.
Notation instruction := Instruction.t.

Module Terminator.
Inductive t :=
  | Br (target : BlockId)
  | CBr (cond : ValueId) (then_bb else_bb : BlockId)
  | Switch (ty : ty) (value : ValueId) (default_bb : BlockId)
      (cases : list (const_value * BlockId))
  | Ret (ty : ty) (value : option ValueId)
  | Trap (reason : string).
End Terminator.
Notation terminator := Terminator.t.

(** ** Blocks, functions, globals and modules *)

Record BasicBlock := mkBlock {
  block_id : BlockId;
  block_name : string;
  instructions : list instruction;
  block_terminator : option terminator;
}.
(** [BasicBlock::is_terminated]. *)
Definition is_terminated (b : BasicBlock) : bool :=
  match block_terminator b with Some _ => true | None => false end.

Record Param := mkParam { param_name : string; param_id : ValueId; param_ty : ty }.

Record Function := mkFunction {
  function_id : FunctionId;
  function_name : string;
  function_params : list Param;
  ret_ty : ty;
  blocks : list BasicBlock;
  entry : BlockId;
  value_types : list (ValueId * ty);
}.
(** [Function::value_type]. *)
Definition value_type (f : Function) (v : ValueId) : option ty :=
  snd <$> find_opt (λ p, bool_decide (p.1 = v)) (value_types f).

Record FunctionDecl := mkDecl {
  decl_id : FunctionId;
  decl_name : string;
  decl_signature : FunctionSignature;
  decl_linkage : Linkage;
  decl_link_name : option string;
}.

Module GlobalStorageInit.
Inductive t := Value (v : const_value) | Uninitialized.
End GlobalStorageInit.

Record GlobalStorage := mkGlobalStorage {
  gs_id : GlobalId;
  gs_name : string;
  gs_ty : ty;
  gs_init : GlobalStorageInit.t;
  gs_readonly : bool;
  gs_align : Z;
  gs_linkage : Linkage;
  gs_link_name : option string;
}.

Record Global := mkGlobal {
  global_id : GlobalId;
  global_name : string;
  global_ty : ty;
  global_init : const_value;
  init_expr : const_expr;
  global_align : Z;
}.

(** *** Source metadata ([source.rs]) *)

Record SourceFile := mkSourceFile { file_id : Z; file_name : string }.

Record SourceSpan := mkSourceSpan {
  span_file : Z; span_line : Z; span_column : Z; span_end_line : Z; span_end_column : Z;
}.
#[export] Instance SourceSpan_eq_dec : EqDecision SourceSpan.
Proof. solve_decision. Defined.

Record OriginalNode := mkOriginalNode { node_id : Z; node_span : option SourceSpan }.

Module SourceTarget.
Inductive t :=
  | Instruction (function : FunctionId) (block : BlockId) (index : nat)
  | Terminator (function : FunctionId) (block : BlockId)
  | Global (g : GlobalId).
#[global] Instance eq_dec : EqDecision t.
Proof. solve_decision. Defined.
End SourceTarget.

Record SourceMapping := mkSourceMapping {
  mapping_target : SourceTarget.t; mapping_original : Z;
}.

Record SourceMetadata := mkSources {
  files : list SourceFile;
  originals : list OriginalNode;
  mappings : list SourceMapping;
}.

Record OriginalLocation := mkLocation {
  location_original : Z;
  location_source : option (string * SourceSpan);
}.

Record Module_ := mkModule {
  module_target : string;
  datalayout : DataLayout;
  globals : list Global;
  global_storage : list GlobalStorage;
  functions : list Function;
  declarations : list FunctionDecl;
  sources : SourceMetadata;
}.

(** ** Runtime failures ([interpreter/memory.rs], [interpreter/mod.rs]) *)

Module MemoryTrap.
Inductive t :=
  | NullPointer
  | MissingProvenance
  | ExpiredAllocation
  | OutOfBounds
  | AddressOverflow
  | PermissionDenied
  | Misaligned (address alignment : Z)
  | Uninitialized (offset : Z)
  | InvalidBool (byte : Z)
  | OverlappingCopy
  | DifferentAllocation
  | InvalidLifetimeEnd.
#[global] Instance eq_dec : EqDecision t.
Proof. solve_decision. Defined.
End MemoryTrap.

Module TrapReason.
Inductive t :=
  | DivisionByZero
  | RemainderByZero
  | InvalidConversion
  | Explicit (reason : string)
  | Memory (reason : MemoryTrap.t)
  | NullFunction
  | InvalidFunctionPointer
  | FunctionSignatureMismatch.
#[global] Instance eq_dec : EqDecision t.
Proof. solve_decision. Defined.
End TrapReason.
