(* ===== verification/Layout.v ===== *)
(** * Storage layout ([layout.rs])

    Sizes, alignments and field offsets of types for an explicit target.  The code
    is transcribed with its checked 64-bit arithmetic and its nesting budget; the
    theorems state that a computed layout is a sound placement (aligned, disjoint,
    in bounds, minimally padded) and that the budget only decides whether a layout
    is returned, never which one. *)
From S2P Require Export Syntax.
Local Open Scope Z_scope.

(** ** The code *)

(** [limits.rs]: [MAX_IR_NESTING]. *)
Definition MAX_IR_NESTING : nat := 256.

Record TypeLayout := mkTypeLayout {
  size : Z;
  align : Z;
  field_offsets : list Z;
  element_stride : option Z;
}.
#[export] Instance TypeLayout_eq_dec : EqDecision TypeLayout.
Proof. solve_decision. Defined.

Module LayoutError.
Inductive t := Void | Overflow | DepthLimit | ZeroSizedPointerArithmetic | InvalidTarget.
#[global] Instance eq_dec : EqDecision t.
Proof. solve_decision. Defined.
End LayoutError.

Definition align_up (size align : Z) : result LayoutError.t Z :=
  mask ← debug_u 64 (align - 1);
  let padding := Z.land (wrapu 64 (- size)) mask in
  ok_or (checked_u 64 (size + padding)) LayoutError.Overflow.

(** One iteration of the field loop of [layout_storage]. *)
Definition push_field (acc field : TypeLayout) : result LayoutError.t TypeLayout :=
  start ← align_up (size acc) (align field);
  next ← ok_or (checked_u 64 (start + size field)) LayoutError.Overflow;
  Ok (mkTypeLayout next (Z.max (align acc) (align field)) (field_offsets acc ++ [start])
        (element_stride acc)).

Definition scalar (size align : Z) : TypeLayout := mkTypeLayout size align [] None.

Definition max_size (storage : StorageLayout) : Z :=
  if ptr_bits (data storage) =? 32 then umax 32 else umax 64.

Definition checked_sub_nat (a b : nat) : option nat := if decide (b ≤ a)%nat then Some (a - b)%nat else None.

Fixpoint layout_storage (t : ty) (storage : StorageLayout) (max_depth : nat)
    : result LayoutError.t TypeLayout :=
  let scalar_for (size : Z) (index : nat) :=
    a ← expect (scalar_align storage !! index); Ok (scalar size a) in
  let aggregate (fields : list ty) :=
    remaining ← ok_or (checked_sub_nat max_depth 1) LayoutError.DepthLimit;
    let loop := fix loop (fields : list ty) (acc : TypeLayout) : result LayoutError.t TypeLayout :=
      match fields with
      | [] => Ok acc
      | field :: fields =>
          field ← layout_storage field storage remaining;
          acc ← push_field acc field;
          loop fields acc
      end in
    acc ← loop fields (scalar 0 1);
    size ← align_up (size acc) (align acc);
    Ok (mkTypeLayout size (align acc) (field_offsets acc) (element_stride acc)) in
  r ← match t with
    | Ty.Void => Err LayoutError.Void
    | Ty.Bool | Ty.I1 | Ty.U1 | Ty.I8 | Ty.U8 => scalar_for 1 0%nat
    | Ty.I16 | Ty.U16 | Ty.F16 => scalar_for 2 1%nat
    | Ty.I32 | Ty.U32 | Ty.F32 => scalar_for 4 2%nat
    | Ty.I64 | Ty.U64 | Ty.F64 => scalar_for 8 3%nat
    | Ty.I128 | Ty.U128 => scalar_for 16 4%nat
    | Ty.Ptr _ | Ty.FnPtr _ =>
        Ok (scalar (ptr_bits (data storage) / 8) (pointer_align storage))
    | Ty.Array element count =>
        remaining ← ok_or (checked_sub_nat max_depth 1) LayoutError.DepthLimit;
        element ← layout_storage element storage remaining;
        total ← ok_or (checked_u 64 (size element * count)) LayoutError.Overflow;
        Ok (mkTypeLayout total (align element) [] (Some (size element)))
    | Ty.Struct fields | Ty.Tuple fields => aggregate fields
    end;
  if max_size storage <? size r then Err LayoutError.Overflow else Ok r.

Definition layout_for_target (t : ty) (target : TargetSpec) (max_depth : nat)
    : result LayoutError.t TypeLayout :=
  _ ← map_err (λ _, LayoutError.InvalidTarget) (validate_spec target);
  layout_storage t (storage target) (Nat.min max_depth MAX_IR_NESTING).

Definition layout_of_with_limit (t : ty) (target : Target) (max_depth : nat)
    : result LayoutError.t TypeLayout :=
  layout_for_target t (specification target) max_depth.

Definition layout_of (t : ty) (target : Target) : result LayoutError.t TypeLayout :=
  layout_of_with_limit t target 128.

Definition is_array (t : ty) : bool := match t with Ty.Array _ _ => true | _ => false end.

Definition allocation_align_for_target (t : ty) (target : TargetSpec) : result LayoutError.t Z :=
  layout ← layout_for_target t target 128;
  Ok match large_array (storage target) with
     | Some (threshold, align') =>
         if is_array t && (threshold <=? size layout) then Z.max (align layout) align'
         else align layout
     | None => align layout
     end.
Definition allocation_align (t : ty) (target : Target) : result LayoutError.t Z :=
  allocation_align_for_target t (specification target).

Definition pointer_stride (pointee : ty) (target : Target) : result LayoutError.t Z :=
  l ← layout_of pointee target;
  if size l =? 0 then Err LayoutError.ZeroSizedPointerArithmetic else Ok (size l).

(** ** What a layout promises *)

(** The field loop as a function of its own, for the proofs. *)
Fixpoint layout_fields (storage : StorageLayout) (remaining : nat) (fields : list ty)
    (acc : TypeLayout) : result LayoutError.t TypeLayout :=
  match fields with
  | [] => Ok acc
  | field :: fields =>
      field ← layout_storage field storage remaining;
      acc ← push_field acc field;
      layout_fields storage remaining fields acc
  end.

Record layout_ok (l : TypeLayout) : Prop := {
  lo_align : is_power_of_two (align l) = true;
  lo_align_small : align l ≤ 2 ^ 63;
  lo_size : 0 ≤ size l < 2 ^ 64;
  lo_tail : (align l | size l);
}.

(** [placed c ls os e]: starting at offset [c], the fields laid out as [ls] sit at
    [os], each at the least suitably aligned offset, the last ending at [e]. *)
Inductive placed : Z → list TypeLayout → list Z → Z → Prop :=
  | placed_nil c : placed c [] [] c
  | placed_cons c l ls o os e :
      (align l | o) → c ≤ o < c + align l →
      placed (o + size l) ls os e →
      placed c (l :: ls) (o :: os) e.

Definition field_types (t : ty) : option (list ty) :=
  match t with Ty.Struct ts | Ty.Tuple ts => Some ts | _ => None end.

(** The placement of the parts of an aggregate. *)
Definition parts_ok (storage : StorageLayout) (d : nat) (t : ty) (l : TypeLayout) : Prop :=
  match t with
  | Ty.Struct ts | Ty.Tuple ts => ∃ ls e,
      Forall2 (λ t l', layout_storage t storage (d - 1) = Ok l') ts ls ∧
      placed 0 ls (field_offsets l) e ∧
      align l = foldr (λ l', Z.max (align l')) 1 ls ∧
      size l = next_multiple e (align l)
  | Ty.Array element count => ∃ l',
      layout_storage element storage (d - 1) = Ok l' ∧
      element_stride l = Some (size l') ∧ size l = size l' * count ∧ align l = align l'
  | _ => field_offsets l = [] ∧ element_stride l = None
  end.

(** Nesting depth of aggregates; a pointer does not lay out its pointee. *)
Fixpoint nesting (t : ty) : nat :=
  match t with
  | Ty.Array e _ => S (nesting e)
  | Ty.Struct ts | Ty.Tuple ts => S (foldr (λ t n, Nat.max (nesting t) n) 0%nat ts)
  | _ => 0%nat
  end.

(** ** Lemmas *)

Lemma align_up_Ok v a r :
  is_power_of_two a = true → a ≤ 2 ^ 64 → align_up v a = Ok r →
  r = next_multiple v a ∧ (a | r) ∧ v ≤ r < v + a ∧ 0 ≤ r < 2 ^ 64.
Proof.
  intros Ha Hle H. unfold align_up, debug_u in H. inv_ok.
  apply checked_u_Some in H as [-> _]. by apply align_up64_Some.
Qed.

Lemma layout_storage_fields ts s d acc :
  (fix loop (fields : list ty) (acc : TypeLayout) : result LayoutError.t TypeLayout :=
     match fields with
     | [] => Ok acc
     | field :: fields =>
         field ← layout_storage field s d;
         acc ← push_field acc field;
         loop fields acc
     end) ts acc = layout_fields s d ts acc.
Proof.
  revert acc. induction ts as [|t ts IH]; intros acc; simpl; [done|].
  destruct (layout_storage t s d) as [l|e|]; simpl; [|done..].
  destruct (push_field acc l); simpl; [apply IH|done..].
Qed.

Lemma checked_sub_1 d r : checked_sub_nat d 1 = Some r → (1 ≤ d)%nat ∧ r = (d - 1)%nat.
Proof. unfold checked_sub_nat. case_decide; naive_solver. Qed.

(** Opening a successful layout: the checks that follow the case analysis. *)
Lemma bounds_check_Ok {E} (storage : StorageLayout) (m : result E TypeLayout) e l :
  (r ← m; if max_size storage <? size r then Err e else Ok r) = Ok l →
  m = Ok l ∧ size l ≤ max_size storage.
Proof. intros H. inv_ok. destruct (Z.ltb_spec (max_size storage) (size x)); by simplify_eq. Qed.

Lemma max_size_bound storage : max_size storage < 2 ^ 64.
Proof. unfold max_size, umax. case_match; lia. Qed.

Lemma foldr_max_base (ls : list TypeLayout) b x :
  foldr (λ l, Z.max (align l)) (Z.max b x) ls = Z.max x (foldr (λ l, Z.max (align l)) b ls).
Proof. induction ls; simpl; lia. Qed.

Lemma layout_fields_placed s d ts acc r :
  (∀ i t l, ts !! i = Some t → layout_storage t s d = Ok l → layout_ok l) →
  is_power_of_two (align acc) = true → align acc ≤ 2 ^ 63 → 0 ≤ size acc < 2 ^ 64 →
  layout_fields s d ts acc = Ok r →
  is_power_of_two (align r) = true ∧ align r ≤ 2 ^ 63 ∧ 0 ≤ size r < 2 ^ 64 ∧
  element_stride r = element_stride acc ∧
  ∃ ls os, Forall2 (λ t l', layout_storage t s d = Ok l') ts ls ∧
    field_offsets r = field_offsets acc ++ os ∧ placed (size acc) ls os (size r) ∧
    align r = foldr (λ l', Z.max (align l')) (align acc) ls.
Proof.
  revert acc. induction ts as [|t ts IH]; intros acc Hts Ha Hal Hsz H; simpl in H.
  { inv_ok. do 4 (split; [done|]). exists [], []. rewrite app_nil_r. by repeat constructor. }
  apply bind_Ok in H as (l & Hl & H). apply bind_Ok in H as (acc' & Hp & H).
  pose proof (Hts 0%nat t l eq_refl Hl) as [Lp Ls Lz Lt].
  unfold push_field in Hp. inv_ok.
  apply align_up_Ok in H0 as (Hx & Hd & Hr & Hb); [|done|lia].
  apply checked_u_Some in H1 as [-> Hn].
  destruct (IH (mkTypeLayout (x + size l) (Z.max (align acc) (align l))
    (field_offsets acc ++ [x]) (element_stride acc))) as (? & ? & ? & ? & ls & os & Hls & Hos & Hpl & Hmax).
  { intros i t' l' Hi. by apply (Hts (S i)). }
  { simpl. by apply is_power_of_two_max. }
  { simpl. lia. } { simpl. lia. } { done. }
  simpl in *. do 4 (split; [done|]). exists (l :: ls), (x :: os). split_and!.
  - by constructor.
  - rewrite Hos. by rewrite <- app_assoc.
  - by econstructor.
  - rewrite Hmax. simpl. apply foldr_max_base.
Qed.

Lemma scalar_layout_ok s i a :
  storage_ok s → (i ≤ 4)%nat → scalar_align s !! i = Some a →
  layout_ok (scalar (2 ^ Z.of_nat i) a).
Proof.
  intros Hs Hi Ha. destruct (so_scalar s Hs i a Ha) as [Hp Hle].
  assert (2 ^ Z.of_nat i ≤ 2 ^ 4) by (apply Z.pow_le_mono_r; lia).
  pose proof (pow2_pos (Z.of_nat i) ltac:(lia)).
  split; simpl; [done|lia|lia|]. apply power_of_two_divide; [done| |done].
  apply is_power_of_two_spec. exists (Z.of_nat i). lia.
Qed.

Lemma pointer_layout_ok s :
  storage_ok s → layout_ok (scalar (ptr_bits (data s) / 8) (pointer_align s)).
Proof.
  intros Hs. destruct (so_pointer s Hs) as [Hp Hle].
  assert (ptr_bits (data s) / 8 = 4 ∨ ptr_bits (data s) / 8 = 8) as Hb.
  { destruct (so_bits s Hs) as [-> | ->]; [by left|by right]. }
  split; simpl; [done|lia|lia|]. apply power_of_two_divide; [done| |done].
  by destruct Hb as [-> | ->].
Qed.

Lemma next_multiple_range v a : 0 < a → 0 ≤ v → 0 ≤ next_multiple v a.
Proof. intros. pose proof (next_multiple_spec v a ltac:(done)). lia. Qed.

(** The aggregate case: fields placed from offset zero, then rounded up. *)
Lemma aggregate_sound s d ts acc sz :
  (∀ i t l, ts !! i = Some t → layout_storage t s d = Ok l → layout_ok l) →
  layout_fields s d ts (scalar 0 1) = Ok acc →
  align_up (size acc) (align acc) = Ok sz →
  layout_ok (mkTypeLayout sz (align acc) (field_offsets acc) (element_stride acc)) ∧
  ∃ ls e, Forall2 (λ t l', layout_storage t s d = Ok l') ts ls ∧
    placed 0 ls (field_offsets acc) e ∧
    align acc = foldr (λ l', Z.max (align l')) 1 ls ∧ sz = next_multiple e (align acc).
Proof.
  intros Hts Hf Ha.
  apply layout_fields_placed in Hf as (Hp & Hl & Hz & _ & ls & os & Hls & Hos & Hpl & Hm);
    [|done..]. simpl in *.
  apply align_up_Ok in Ha as (Hx & Hd & Hr & Hb); [|done|lia].
  split; [by split|]. exists ls, (size acc). rewrite Hos. done.
Qed.

Lemma layout_storage_sound s t d l :
  storage_ok s → layout_storage t s d = Ok l → layout_ok l ∧ parts_ok s d t l.
Proof.
  intros Hs. revert d l.
  induction t as [ | | | | | | | | | | | | | | | | |t IH|? _|t n IH|ts IH|ts IH|] using ty_ind_nested
    with (Q := λ _, True); [intros d l H..|exact I].
  all: cbn [layout_storage] in H.
  1: by apply bounds_check_Ok in H as [? _].
  all: apply bounds_check_Ok in H as [Hm Hmax]; pose proof (max_size_bound s).
  all: try (inv_ok; match goal with Hi : scalar_align ?st !! ?i = Some ?a |- _ =>
    pose proof (scalar_layout_ok st i a ltac:(done) ltac:(lia) Hi) end; split; [done|done]).
  - inv_ok. split; [by apply pointer_layout_ok|done].
  - inv_ok. split; [by apply pointer_layout_ok|done].
  - apply bind_Ok in Hm as (rem & Hrem & Hm). apply ok_or_Ok, checked_sub_1 in Hrem as [? ->].
    apply bind_Ok in Hm as (le & Hle & Hm). inv_ok.
    destruct (IH _ _ Hle) as [[Ha Hl Hz Ht] _].
    match goal with H : checked_u _ _ = _ |- _ => apply checked_u_Some in H as [-> Hr] end.
    split; [split; simpl; try done|].
    + by apply Z.divide_mul_l.
    + simpl. by exists le.
  - apply bind_Ok in Hm as (rem & Hrem & Hm). apply ok_or_Ok, checked_sub_1 in Hrem as [? ->].
    rewrite layout_storage_fields in Hm. inv_ok.
    eapply aggregate_sound; [|done..].
    intros i t l Hi Hl. rewrite Forall_lookup in IH. by destruct (IH _ _ Hi _ _ Hl).
  - apply bind_Ok in Hm as (rem & Hrem & Hm). apply ok_or_Ok, checked_sub_1 in Hrem as [? ->].
    rewrite layout_storage_fields in Hm. inv_ok.
    eapply aggregate_sound; [|done..].
    intros i t l Hi Hl. rewrite Forall_lookup in IH. by destruct (IH _ _ Hi _ _ Hl).
Qed.

(** Placed fields do not overlap and end before the end. *)
Lemma placed_bounds c ls os e :
  placed c ls os e → Forall layout_ok ls → c ≤ e ∧ length os = length ls ∧
  ∀ i l o, ls !! i = Some l → os !! i = Some o →
    c ≤ o ∧ (align l | o) ∧ o + size l ≤ e ∧
    ∀ j l' o', (i < j)%nat → ls !! j = Some l' → os !! j = Some o' → o + size l ≤ o'.
Proof.
  induction 1 as [c|c l ls o os e Hd Ho Hpl IH]; intros Hok.
  { split; [lia|]. split; [done|]. by intros i ??. }
  apply Forall_cons in Hok as [Hl Hok]. destruct (IH Hok) as (He & Hlen & Hall).
  pose proof (lo_size l Hl).
  split; [lia|]. split; [simpl; lia|]. intros i l' o' Hi Hoi.
  destruct i as [|i]; simplify_eq/=.
  - split_and!; [lia|done|lia|]. intros [|j] l2 o2 Hj Hlj Hoj; [lia|].
    by destruct (Hall j l2 o2 Hlj Hoj).
  - destruct (Hall i l' o' Hi Hoi) as (? & ? & ? & Hnext). split_and!; [lia|done|lia|].
    intros [|j] l2 o2 Hj Hlj Hoj; [lia|]. simpl in *. eapply Hnext; [|done..]. lia.
Qed.

Lemma Forall2_layout_ok s d ts ls :
  storage_ok s → Forall2 (λ t l', layout_storage t s d = Ok l') ts ls → Forall layout_ok ls.
Proof.
  intros Hs. induction 1; constructor; [|done]. by eapply layout_storage_sound.
Qed.

Lemma nesting_Forall s ts d d' :
  Forall (λ t, ∀ d d', (nesting t ≤ d)%nat → (nesting t ≤ d')%nat →
    layout_storage t s d = layout_storage t s d' ∧
    layout_storage t s d ≠ Err LayoutError.DepthLimit) ts →
  (foldr (λ t n, Nat.max (nesting t) n) 0%nat ts ≤ d)%nat →
  (foldr (λ t n, Nat.max (nesting t) n) 0%nat ts ≤ d')%nat →
  Forall (λ t, layout_storage t s d = layout_storage t s d' ∧
    layout_storage t s d ≠ Err LayoutError.DepthLimit) ts.
Proof.
  induction 1 as [|t ts Ht Hts IH]; intros Hd Hd'; simpl in *; constructor.
  - apply Ht; lia.
  - apply IH; lia.
Qed.

(** The nesting budget: enough depth never fails with [DepthLimit], and any two
    sufficient budgets give the same answer. *)
Lemma layout_depth_irrelevant s t d d' :
  (nesting t ≤ d)%nat → (nesting t ≤ d')%nat →
  layout_storage t s d = layout_storage t s d' ∧ layout_storage t s d ≠ Err LayoutError.DepthLimit.
Proof.
  assert (∀ (m : result LayoutError.t TypeLayout), m ≠ Err LayoutError.DepthLimit →
    (r ← m; if max_size s <? size r then Err LayoutError.Overflow else Ok r)
      ≠ Err LayoutError.DepthLimit) as Hcheck.
  { intros [r|e|] ? Heq; simpl in Heq; [by case_match|naive_solver|done]. }
  assert (∀ x a, align_up x a ≠ Err LayoutError.DepthLimit) as Hup.
  { intros x a Heq. unfold align_up, debug_u in Heq.
    destruct (checked_u 64 (a - 1)); simpl in Heq; [|done].
    by destruct (checked_u 64 _). }
  assert (∀ acc l, push_field acc l ≠ Err LayoutError.DepthLimit) as Hpush.
  { intros acc l Heq. unfold push_field in Heq. apply bind_Err in Heq as [?|(? & ? & Heq)].
    - by eapply Hup.
    - by destruct (checked_u 64 _). }
  assert (∀ ts d d' acc, Forall (λ t, layout_storage t s d = layout_storage t s d' ∧
      layout_storage t s d ≠ Err LayoutError.DepthLimit) ts →
    layout_fields s d ts acc = layout_fields s d' ts acc ∧
    layout_fields s d ts acc ≠ Err LayoutError.DepthLimit) as Hfields.
  { induction ts as [|t0 ts IH]; intros e e' acc Hts; [done|].
    apply Forall_cons in Hts as [[Heq Hne] Hts]. simpl. rewrite <- Heq.
    destruct (layout_storage t0 s e) as [l|x|] eqn:Hl; simpl; [|naive_solver|done].
    pose proof (Hpush acc l). destruct (push_field acc l); simpl; [by apply IH|naive_solver|done]. }
  assert (∀ ts d d', Forall (λ t, layout_storage t s d = layout_storage t s d' ∧
      layout_storage t s d ≠ Err LayoutError.DepthLimit) ts →
    layout_storage (Ty.Struct ts) s (S d) = layout_storage (Ty.Struct ts) s (S d') ∧
    layout_storage (Ty.Struct ts) s (S d) ≠ Err LayoutError.DepthLimit) as Haggregate.
  { intros ts e e' Hts. cbn [layout_storage]. unfold checked_sub_nat.
    rewrite !decide_True by lia. simpl. rewrite !Nat.sub_0_r, !layout_storage_fields.
    destruct (Hfields ts e e' (scalar 0 1) Hts) as [<- Hne]. split; [done|].
    apply Hcheck. destruct (layout_fields s e ts _) as [acc|x|]; simpl; [|naive_solver|done].
    pose proof (Hup (size acc) (align acc)). destruct (align_up _ _); simpl; naive_solver. }
  revert d d'.
  induction t as [ | | | | | | | | | | | | | | | | |t IH|? _|t n IH|ts IH|ts IH|] using ty_ind_nested
    with (Q := λ _, True); [intros d d' Hd Hd'..|exact I].
  all: cbn [layout_storage].
  all: try (split; [done|]; apply Hcheck;
    first [done | by match goal with |- context [?l !! ?i] => destruct (l !! i) end]).
  - destruct d as [|e]; [simpl in *; lia|]. destruct d' as [|e']; [simpl in *; lia|].
    unfold checked_sub_nat. rewrite !decide_True by lia. simpl. rewrite !Nat.sub_0_r.
    destruct (IH e e') as [<- Hne]; [simpl in *; lia..|]. split; [done|].
    apply Hcheck. destruct (layout_storage t s e); simpl; [|naive_solver|done].
    by destruct (checked_u 64 _).
  - destruct d as [|e]; [simpl in *; lia|]. destruct d' as [|e']; [simpl in *; lia|].
    apply (Haggregate ts e e'), nesting_Forall; [done|simpl in *; lia..].
  - destruct d as [|e]; [simpl in *; lia|]. destruct d' as [|e']; [simpl in *; lia|].
    apply (Haggregate ts e e'), nesting_Forall; [done|simpl in *; lia..].
Qed.

(** No arithmetic of the layout code panics on a validated target. *)
Lemma align_up_not_Panic v a : 0 < a → a ≤ 2 ^ 64 → align_up v a ≠ Panic.
Proof.
  intros Ha Hle. unfold align_up, debug_u. rewrite (proj2 (checked_u_Some 64 (a - 1) (a - 1))) by lia.
  simpl. apply ok_or_not_Panic.
Qed.

Lemma layout_fields_not_Panic s d ts acc :
  Forall (λ t, layout_storage t s d ≠ Panic) ts →
  (∀ i t l, ts !! i = Some t → layout_storage t s d = Ok l → layout_ok l) →
  layout_fields s d ts acc ≠ Panic.
Proof.
  revert acc. induction ts as [|t ts IH]; intros acc Hts Hok; simpl; [done|].
  apply Forall_cons in Hts as [Ht Hts].
  destruct (layout_storage t s d) as [l|e|] eqn:Hl; simpl; [|done..].
  pose proof (Hok 0%nat t l eq_refl Hl) as [Lp Ls Lz Lt]. apply is_power_of_two_pos in Lp.
  unfold push_field. pose proof (align_up_not_Panic (size acc) (align l)).
  destruct (align_up (size acc) (align l)) as [st|e|]; simpl; [|done|naive_solver lia].
  destruct (checked_u 64 _); simpl; [|done].
  apply IH; [done|]. intros i t' l' Hi. by apply (Hok (S i)).
Qed.

Lemma layout_storage_not_Panic s t d :
  storage_ok s → length (scalar_align s) = 5%nat → layout_storage t s d ≠ Panic.
Proof.
  intros Hs Hlen.
  assert (∀ (m : result LayoutError.t TypeLayout), m ≠ Panic →
    (r ← m; if max_size s <? size r then Err LayoutError.Overflow else Ok r) ≠ Panic) as Hcheck.
  { intros [r|e|] ?; simpl; [by case_match|done|done]. }
  assert (∀ i, (i < 5)%nat → ∃ a, scalar_align s !! i = Some a) as Hsc.
  { intros i Hi. apply lookup_lt_is_Some. lia. }
  assert (∀ ts d, Forall (λ t, ∀ d, layout_storage t s d ≠ Panic) ts →
    layout_storage (Ty.Struct ts) s d ≠ Panic) as Haggregate.
  { intros ts [|e] Hts; cbn [layout_storage]; [done|].
    unfold checked_sub_nat. rewrite decide_True by lia. simpl.
    rewrite Nat.sub_0_r, layout_storage_fields. apply Hcheck.
    assert (∀ i t l, ts !! i = Some t → layout_storage t s e = Ok l → layout_ok l) as Hok.
    { intros i t' l _ Hl. by eapply layout_storage_sound. }
    pose proof (layout_fields_not_Panic s e ts (scalar 0 1)
      ltac:(by eapply Forall_impl; [exact Hts|]; naive_solver) Hok) as Hnp.
    destruct (layout_fields s e ts (scalar 0 1)) as [acc|x|] eqn:Hf; simpl; [|done..].
    apply layout_fields_placed in Hf as (Hp & Hl & _); [|done..].
    apply is_power_of_two_pos in Hp as Hpos.
    pose proof (align_up_not_Panic (size acc) (align acc) ltac:(lia) ltac:(lia)).
    by destruct (align_up _ _). }
  revert d.
  induction t as [ | | | | | | | | | | | | | | | | |t IH|? _|t n IH|ts IH|ts IH|? ? ? ? _ _]
    using ty_ind_nested with (Q := λ _, True); [intros d..|exact I].
  all: cbn [layout_storage].
  all: try (apply Hcheck; first [done | match goal with |- context [?l !! ?i] =>
    destruct (Hsc i ltac:(lia)) as [? ->] end; done]).
  - apply Hcheck. destruct d as [|e]; [done|]. unfold checked_sub_nat.
    rewrite decide_True by lia. simpl. rewrite Nat.sub_0_r. specialize (IH e).
    destruct (layout_storage t s e); simpl; [|done..]. by destruct (checked_u 64 _).
  - by apply (Haggregate ts d).
  - by apply (Haggregate ts d).
Qed.

(** ** Properties *)

(** C25: a layout computed for a validated target is a sound placement: the
    alignment is a power of two dividing the size; struct and tuple fields sit, in
    declaration order, at aligned and pairwise disjoint offsets inside the object, with
    less than one alignment unit of padding before each; an array is a whole number of strides. *)
Theorem layout_sound (t : ty) (target : TargetSpec) (d : nat) (l : TypeLayout) :
  layout_for_target t target d = Ok l →
  is_power_of_two (align l) = true ∧ (align l | size l) ∧ 0 ≤ size l < 2 ^ 64 ∧
  match t with
  | Ty.Struct ts | Ty.Tuple ts =>
      length (field_offsets l) = length ts ∧
      ∀ i f o, ts !! i = Some f → field_offsets l !! i = Some o →
        ∃ lf, layout_storage f (storage target) (Nat.min d MAX_IR_NESTING - 1) = Ok lf ∧
          (align lf | o) ∧ (align lf | align l) ∧ 0 ≤ o ∧ o + size lf ≤ size l ∧
          ∀ j o', (i < j)%nat → field_offsets l !! j = Some o' → o + size lf ≤ o'
  | Ty.Array element count =>
      ∃ le, layout_storage element (storage target) (Nat.min d MAX_IR_NESTING - 1) = Ok le ∧
        element_stride l = Some (size le) ∧ size l = size le * count ∧ align l = align le
  | _ => field_offsets l = [] ∧ element_stride l = None
  end.
Proof.
  unfold layout_for_target. intros H. apply bind_Ok in H as (u & Hv & H).
  destruct (validate_spec target) eqn:Hval; simplify_eq/=.
  pose proof (validate_spec_storage _ _ Hval) as Hs.
  destruct (layout_storage_sound _ _ _ _ Hs H) as [[Ha _ Hz Ht] Hparts].
  do 3 (split; [done|]).
  assert (∀ ts, (∃ ls e, Forall2 (λ t l', layout_storage t (storage target)
      (Nat.min d MAX_IR_NESTING - 1) = Ok l') ts ls ∧ placed 0 ls (field_offsets l) e ∧
      align l = foldr (λ l', Z.max (align l')) 1 ls ∧ size l = next_multiple e (align l)) →
    length (field_offsets l) = length ts ∧
      ∀ i f o, ts !! i = Some f → field_offsets l !! i = Some o →
        ∃ lf, layout_storage f (storage target) (Nat.min d MAX_IR_NESTING - 1) = Ok lf ∧
          (align lf | o) ∧ (align lf | align l) ∧ 0 ≤ o ∧ o + size lf ≤ size l ∧
          ∀ j o', (i < j)%nat → field_offsets l !! j = Some o' → o + size lf ≤ o') as Hagg.
  { intros ts (ls & e & Hls & Hpl & Hal & Hsz).
    pose proof (Forall2_layout_ok _ _ _ _ Hs Hls) as Hok.
    destruct (placed_bounds _ _ _ _ Hpl Hok) as (He & Hlen & Hb).
    pose proof (Forall2_length _ _ _ Hls) as Hlt.
    pose proof (next_multiple_spec e (align l) (is_power_of_two_pos _ Ha)) as (_ & Hn & _).
    split; [congruence|]. intros i f o Hf Ho.
    destruct (Forall2_lookup_l _ _ _ _ _ Hls Hf) as (lf & Hlf & Hflf).
    destruct (Hb i lf o Hlf Ho) as (? & ? & ? & Hnext).
    pose proof (proj1 (Forall_lookup _ _) Hok _ _ Hlf) as Lf.
    exists lf. split_and!; [done|done| |lia|lia|].
    - apply power_of_two_divide; [apply Lf|done|]. rewrite Hal.
      clear -Hlf. revert i Hlf. induction ls as [|l0 ls IH]; intros [|i] ?; simplify_eq/=; [lia|].
      specialize (IH _ Hlf). lia.
    - intros j o' Hij Ho'. destruct (lookup_lt_is_Some_2 ls j) as [l' Hl'].
      { apply lookup_lt_Some in Ho'. lia. }
      by eapply Hnext. }
  by destruct t; auto.
Qed.

Lemma layout_sound_witness :
  let l := mkTypeLayout 24 8 [0; 8; 16] None in
  let t := Ty.Struct [Ty.U8; Ty.I64; Ty.Array Ty.U16 3] in
  layout_for_target t (specification X86_64WhaleLinux) 128 = Ok l ∧
  is_power_of_two (align l) = true ∧ (align l | size l).
Proof.
  split; [vm_compute; reflexivity|].
  destruct (layout_sound (Ty.Struct [Ty.U8; Ty.I64; Ty.Array Ty.U16 3])
    (specification X86_64WhaleLinux) 128 (mkTypeLayout 24 8 [0; 8; 16] None))
    as (H1 & H2 & _); [vm_compute; reflexivity|].
  exact (conj H1 H2).
Defined.

(** The nesting budget never changes an answer: on a validated target with
    the five scalar alignments of its type, laying out never panics, a budget that covers the type's
    nesting is never exhausted, and all such budgets return the same result. *)
Theorem layout_budget (t : ty) (target : TargetSpec) (d d' : nat) :
  validate_spec target = Ok tt → length (scalar_align (storage target)) = 5%nat →
  (nesting t ≤ d ≤ MAX_IR_NESTING)%nat → (nesting t ≤ d')%nat →
  layout_for_target t target d ≠ Panic ∧
  layout_for_target t target d ≠ Err LayoutError.DepthLimit ∧
  layout_for_target t target d' = layout_for_target t target d.
Proof.
  intros Hv Hlen Hd Hd'. pose proof (validate_spec_storage _ _ Hv) as Hs.
  unfold layout_for_target. rewrite Hv. simpl.
  split; [by apply layout_storage_not_Panic|].
  destruct (layout_depth_irrelevant (storage target) t (Nat.min d MAX_IR_NESTING)
    (Nat.min d' MAX_IR_NESTING)) as [Heq Hne]; [lia..|]. by rewrite Heq in *.
Qed.

Lemma layout_budget_witness :
  let t := Ty.Array (Ty.Tuple [Ty.U8; Ty.Ptr Ty.Void]) 4 in
  let s := specification X86_64WhaleLinux in
  layout_for_target t s 2 ≠ Panic ∧ layout_for_target t s 2 ≠ Err LayoutError.DepthLimit ∧
  layout_for_target t s 100 = layout_for_target t s 2.
Proof.
  apply (layout_budget (Ty.Array (Ty.Tuple [Ty.U8; Ty.Ptr Ty.Void]) 4)
    (specification X86_64WhaleLinux) 2 100);
    [vm_compute; reflexivity|reflexivity|unfold MAX_IR_NESTING; simpl; lia|simpl; lia].
Defined.
