(* ===== verification/Limits.v ===== *)
(** * Resource budgets ([limits.rs])

    Before any recursive traversal, types, signatures, constant expressions and
    whole modules are walked with an explicit worklist that charges one node per
    visited element and bounds the nesting depth.  The worklist is a list whose
    head is the top of the Rust [Vec]; its loop runs on fuel, and the fuel used
    (the size of the traversed term) is proved to be enough.  The theorems say
    what the walk decides: a term is accepted exactly when its node count fits the
    remaining budget and its depth the limit, and acceptance charges that count. *)
From S2P Require Export Layout.
Local Open Scope Z_scope.

(** ** The code *)

Record IrLimits := mkIrLimits {
  max_type_depth : Z;
  max_const_depth : Z;
  max_nodes : Z;
  max_input_bytes : Z;
  max_tokens : Z;
  max_analysis_work : Z;
}.

Definition default_limits : IrLimits :=
  mkIrLimits 128 128 1000000 (8 * 1024 * 1024) 1000000 (16 * 1024 * 1024).

Module Resource.
Inductive t :=
  | TypeDepth | ConstantDepth | Nodes | InputBytes | Tokens | Configuration | AnalysisWork.
#[global] Instance eq_dec : EqDecision t.
Proof. solve_decision. Defined.
End Resource.

Record LimitError := mkLimitError { resource : Resource.t; limit : Z }.
#[export] Instance LimitError_eq_dec : EqDecision LimitError.
Proof. solve_decision. Defined.

Definition validate_limits (l : IrLimits) : result LimitError unit :=
  if (Z.of_nat MAX_IR_NESTING <? max_type_depth l) || (Z.of_nat MAX_IR_NESTING <? max_const_depth l)
  then Err (mkLimitError Resource.Configuration (Z.of_nat MAX_IR_NESTING))
  else Ok tt.

Record Budget := mkBudget { limits : IrLimits; remaining : Z }.

Definition new_budget (l : IrLimits) : result LimitError Budget :=
  _ ← validate_limits l; Ok (mkBudget l (max_nodes l)).

Definition nodes (n : Z) : stm Budget LimitError unit := λ b,
  if n <=? remaining b then (Ok tt, mkBudget (limits b) (remaining b - n))
  else (Err (mkLimitError Resource.Nodes (max_nodes (limits b))), b).

Definition saturating_sub (a b : Z) : Z := Z.max 0 (a - b).
Definition len {A} (l : list A) : Z := Z.of_nat (length l).

(** The end of an iteration of [Budget::ty]: what is pushed on the worklist, whose
    top is the head of the list. *)
Definition ty_push (t : ty) (depth : Z) (pending : list (ty * Z))
    : stm Budget LimitError (list (ty * Z)) :=
  b ← get;
  match t with
  | Ty.Ptr t | Ty.Array t _ => mret ((t, depth + 1) :: pending)
  | Ty.Struct ts | Ty.Tuple ts =>
      _ ← when_err (saturating_sub (remaining b) (len pending) <? len ts)
            (mkLimitError Resource.Nodes (max_nodes (limits b)));
      mret (((λ t, (t, depth + 1)) <$> ts) ++ pending)
  | Ty.FnPtr sig =>
      _ ← when_err (saturating_sub (remaining b) (len pending) <=? len (params sig))
            (mkLimitError Resource.Nodes (max_nodes (limits b)));
      mret (((λ t, (t, depth + 1)) <$> params sig) ++ (ret sig, depth + 1) :: pending)
  | _ => mret pending
  end.

(** The loop of [Budget::ty]. *)
Fixpoint ty_loop (fuel : nat) (pending : list (ty * Z)) : stm Budget LimitError unit :=
  match fuel with
  | O => lift Panic
  | S fuel =>
      match pending with
      | [] => mret tt
      | (t, depth) :: pending =>
          _ ← nodes 1;
          b ← get;
          _ ← when_err (max_type_depth (limits b) <? depth)
                (mkLimitError Resource.TypeDepth (max_type_depth (limits b)));
          pending ← ty_push t depth pending;
          ty_loop fuel pending
      end
  end.

(** Nodes of a type, and of a signature's types. *)
Fixpoint ty_nodes (t : ty) : nat :=
  match t with
  | Ty.Ptr t | Ty.Array t _ => S (ty_nodes t)
  | Ty.Struct ts | Ty.Tuple ts => S (foldr (λ t n, ty_nodes t + n)%nat 0%nat ts)
  | Ty.FnPtr (Ty.Sig ps r _ _) =>
      S (ty_nodes r + foldr (λ t n, ty_nodes t + n)%nat 0%nat ps)
  | _ => 1%nat
  end.

Definition budget_ty (root : ty) : stm Budget LimitError unit :=
  ty_loop (S (ty_nodes root)) [(root, 0)].

Definition budget_signature (sig : FunctionSignature) : stm Budget LimitError unit :=
  _ ← nodes 1;
  _ ← budget_ty (ret sig);
  for_each (params sig) budget_ty.

Fixpoint expr_size (e : const_expr) : nat :=
  let '(ConstExpr.mk _ k) := e in
  match k with
  | ConstExpr.Not v | ConstExpr.Neg v => S (expr_size v)
  | ConstExpr.Literal _ | ConstExpr.Reference _ => 1%nat
  | ConstExpr.Binary _ l r | ConstExpr.Compare _ l r => S (expr_size l + expr_size r)
  end.

(** The end of an iteration of [Budget::expression]. *)
Definition expr_push (e : const_expr) (depth : Z) (pending : list (const_expr * Z))
    : list (const_expr * Z) :=
  match expr_kind e with
  | ConstExpr.Neg value | ConstExpr.Not value => (value, depth + 1) :: pending
  | ConstExpr.Binary _ l r | ConstExpr.Compare _ l r =>
      (l, depth + 1) :: (r, depth + 1) :: pending
  | _ => pending
  end.

(** The loop of [Budget::expression]. *)
Fixpoint expression_loop (fuel : nat) (pending : list (const_expr * Z))
    : stm Budget LimitError unit :=
  match fuel with
  | O => lift Panic
  | S fuel =>
      match pending with
      | [] => mret tt
      | (e, depth) :: pending =>
          _ ← nodes 1;
          b ← get;
          _ ← when_err (max_const_depth (limits b) <? depth)
                (mkLimitError Resource.ConstantDepth (max_const_depth (limits b)));
          _ ← budget_ty (expr_ty e);
          expression_loop fuel (expr_push e depth pending)
      end
  end.

Definition budget_expression (root : const_expr) : stm Budget LimitError unit :=
  expression_loop (S (expr_size root)) [(root, 0)].

(** *** The whole-module check *)

Fixpoint check_file_names (l : IrLimits) (source_bytes : Z) (fs : list SourceFile)
    : result LimitError unit :=
  match fs with
  | [] => Ok tt
  | f :: fs =>
      match checked_u 64 (source_bytes + Z.of_nat (String.length (file_name f))) with
      | Some n =>
          if n <=? max_input_bytes l then check_file_names l n fs
          else Err (mkLimitError Resource.InputBytes (max_input_bytes l))
      | None => Err (mkLimitError Resource.InputBytes (max_input_bytes l))
      end
  end.

Definition check_instruction (ins : instruction) : stm Budget LimitError unit :=
  _ ← nodes 1;
  match ins with
  | Instruction.ConstDecl _ _ expression _ => budget_expression expression
  | Instruction.Const _ t _ | Instruction.Undef _ t | Instruction.Mov _ t _
  | Instruction.Bin _ _ t _ _ | Instruction.Neg _ t _ | Instruction.Not _ t _
  | Instruction.Cmp _ _ t _ _ | Instruction.ICmp _ _ t _ _ | Instruction.FCmp _ _ t _ _
  | Instruction.Select _ t _ _ _ | Instruction.Checked _ _ t _ _ | Instruction.Alloca _ t _
  | Instruction.VolatileLoad _ t _ _ | Instruction.Load _ t _ _
  | Instruction.VolatileStore t _ _ _ | Instruction.Store t _ _ _
  | Instruction.Uninit t _ _ | Instruction.GlobalAddr _ _ t => budget_ty t
  | Instruction.Phi _ t incomings => _ ← budget_ty t; nodes (len incomings)
  | Instruction.Cast _ _ dst_ty src_ty _ => _ ← budget_ty src_ty; budget_ty dst_ty
  | Instruction.Extract _ dst_ty _ _ => budget_ty dst_ty
  | Instruction.Gep _ dst_ty _ indices => _ ← budget_ty dst_ty; nodes (len indices)
  | Instruction.NullFunction _ signature | Instruction.FunctionAddr _ _ signature =>
      budget_signature signature
  | Instruction.Call _ _ ret_ty _ args => _ ← budget_ty ret_ty; nodes (len args)
  | _ => mret tt
  end.

Definition check_terminator (t : terminator) : stm Budget LimitError unit :=
  _ ← nodes 1;
  match t with
  | Terminator.Ret t _ => budget_ty t
  | Terminator.Switch t _ _ cases => _ ← budget_ty t; nodes (len cases)
  | _ => mret tt
  end.

Definition check_block (block : BasicBlock) : stm Budget LimitError unit :=
  _ ← nodes 1;
  _ ← for_each (instructions block) check_instruction;
  match block_terminator block with
  | Some t => check_terminator t
  | None => mret tt
  end.

Definition check_function (f : Function) : stm Budget LimitError unit :=
  _ ← nodes 1;
  _ ← budget_ty (ret_ty f);
  _ ← for_each (function_params f) (λ p, _ ← nodes 1; budget_ty (param_ty p));
  _ ← for_each (value_types f) (λ p, _ ← nodes 1; budget_ty p.2);
  for_each (blocks f) check_block.

Definition walk_module (m : Module_) (l : IrLimits) : stm Budget LimitError unit :=
  _ ← nodes (len (files (sources m)));
  _ ← nodes (len (originals (sources m)));
  _ ← nodes (len (mappings (sources m)));
  _ ← lift (check_file_names l 0 (files (sources m)));
  _ ← for_each (globals m) (λ g,
        _ ← nodes 1; _ ← budget_ty (global_ty g); budget_expression (init_expr g));
  _ ← for_each (global_storage m) (λ g, _ ← nodes 1; budget_ty (gs_ty g));
  _ ← for_each (declarations m) (λ d, _ ← nodes 1; budget_signature (decl_signature d));
  for_each (functions m) check_function.

Definition check_module (m : Module_) (l : IrLimits) : result LimitError unit :=
  b ← new_budget l;
  (walk_module m l b).1.

(** ** What the walk decides *)

Fixpoint ty_depth (t : ty) : nat :=
  match t with
  | Ty.Ptr t | Ty.Array t _ => S (ty_depth t)
  | Ty.Struct [] | Ty.Tuple [] => 0%nat
  | Ty.Struct ts | Ty.Tuple ts => S (foldr (λ t n, Nat.max (ty_depth t) n) 0%nat ts)
  | Ty.FnPtr (Ty.Sig ps r _ _) =>
      S (Nat.max (ty_depth r) (foldr (λ t n, Nat.max (ty_depth t) n) 0%nat ps))
  | _ => 0%nat
  end.

(** Nodes and depth over a worklist. *)
Definition pending_nodes (pending : list (ty * Z)) : nat :=
  foldr (λ p n, ty_nodes p.1 + n)%nat 0%nat pending.
Definition pending_fits (l : IrLimits) (pending : list (ty * Z)) : Prop :=
  Forall (λ p, p.2 + Z.of_nat (ty_depth p.1) ≤ max_type_depth l) pending.
#[export] Instance pending_fits_dec l pending : Decision (pending_fits l pending).
Proof. apply _. Defined.

(** A signature's types are walked in turn, a constant expression charges its own
    node, its type and its operands. *)
Definition sig_nodes (sig : FunctionSignature) : nat :=
  S (ty_nodes (ret sig) + sum_list_with ty_nodes (params sig)).
Fixpoint expr_nodes (e : const_expr) : nat :=
  let '(ConstExpr.mk t k) := e in
  S (ty_nodes t + match k with
                  | ConstExpr.Not v | ConstExpr.Neg v => expr_nodes v
                  | ConstExpr.Literal _ | ConstExpr.Reference _ => 0
                  | ConstExpr.Binary _ l r | ConstExpr.Compare _ l r => expr_nodes l + expr_nodes r
                  end)%nat.
Fixpoint expr_depth (e : const_expr) : nat :=
  let '(ConstExpr.mk _ k) := e in
  match k with
  | ConstExpr.Not v | ConstExpr.Neg v => S (expr_depth v)
  | ConstExpr.Literal _ | ConstExpr.Reference _ => 0%nat
  | ConstExpr.Binary _ l r | ConstExpr.Compare _ l r => S (Nat.max (expr_depth l) (expr_depth r))
  end.
(** The types an expression is annotated with. *)
Fixpoint expr_types (e : const_expr) : list ty :=
  let '(ConstExpr.mk t k) := e in
  t :: match k with
       | ConstExpr.Not v | ConstExpr.Neg v => expr_types v
       | ConstExpr.Literal _ | ConstExpr.Reference _ => []
       | ConstExpr.Binary _ l r | ConstExpr.Compare _ l r => expr_types l ++ expr_types r
       end.

Definition spend (n : nat) (b : Budget) : Budget := mkBudget (limits b) (remaining b - Z.of_nat n).
Definition limit_of (l : IrLimits) (r : Resource.t) : Z :=
  match r with
  | Resource.TypeDepth => max_type_depth l
  | Resource.ConstantDepth => max_const_depth l
  | Resource.Nodes => max_nodes l
  | Resource.InputBytes => max_input_bytes l
  | Resource.Tokens => max_tokens l
  | Resource.Configuration => Z.of_nat MAX_IR_NESTING
  | Resource.AnalysisWork => max_analysis_work l
  end.
Definition exceeded (l : IrLimits) (r : Resource.t) : LimitError := mkLimitError r (limit_of l r).

(** The demands of a walk on the resources that are not used up: [fits r] holds when
    the traversed term stays within the limit on [r]. *)
Definition demand := Resource.t → Prop.
Definition no_demand : demand := λ _, True.
Definition both (f g : demand) : demand := λ r, f r ∧ g r.
Definition each {A} (f : A → demand) (l : list A) : demand := λ r, Forall (λ x, f x r) l.
Definition type_fits (l : IrLimits) (t : ty) : demand := λ r,
  r = Resource.TypeDepth → Z.of_nat (ty_depth t) ≤ max_type_depth l.
Definition const_fits (l : IrLimits) (e : const_expr) : demand := λ r,
  r = Resource.ConstantDepth → Z.of_nat (expr_depth e) ≤ max_const_depth l.
Definition expr_fits (l : IrLimits) (e : const_expr) : demand :=
  both (each (type_fits l) (expr_types e)) (const_fits l e).
Definition sig_fits (l : IrLimits) (sig : FunctionSignature) : demand :=
  each (type_fits l) (ret sig :: params sig).

(** What a walk that charges [n] nodes under the demand [fits] does: it succeeds and
    charges them when everything fits; otherwise it reports a resource whose limit
    the term really exceeds, with that limit. *)
Definition walk_outcome (fits : demand) (n : nat) (m : stm Budget LimitError unit)
    (b : Budget) : Prop :=
  ((∀ r, fits r) ∧ Z.of_nat n ≤ remaining b ∧ m b = (Ok tt, spend n b)) ∨
  (∃ r b', m b = (Err (exceeded (limits b) r), b') ∧ limits b' = limits b ∧
     (if decide (r = Resource.Nodes) then remaining b < Z.of_nat n else ¬ fits r)).

Lemma ty_nodes_pos t : (1 ≤ ty_nodes t)%nat.
Proof. destruct t as [ | | | | | | | | | | | | | | | | | |[]| | | ]; simpl; lia. Qed.

Lemma pending_nodes_app p q : pending_nodes (p ++ q) = (pending_nodes p + pending_nodes q)%nat.
Proof. induction p as [|[t d] p IH]; simpl; lia. Qed.
Lemma pending_nodes_map ts d :
  pending_nodes ((λ t, (t, d)) <$> ts) = foldr (λ t n, ty_nodes t + n)%nat 0%nat ts.
Proof. induction ts as [|t ts IH]; csimpl; lia. Qed.
Lemma pending_nodes_length p : (length p ≤ pending_nodes p)%nat.
Proof. induction p as [|[t d] p IH]; simpl; [lia|]. pose proof (ty_nodes_pos t). lia. Qed.
Lemma depth_fold ts (d m : Z) :
  d ≤ m → 
  d + Z.of_nat (foldr (λ t n, Nat.max (ty_depth t) n) 0%nat ts) ≤ m ↔
  Forall (λ t, d + Z.of_nat (ty_depth t) ≤ m) ts.
Proof.
  intros Hd. induction ts as [|t ts IH]; simpl; [split; [constructor|lia]|].
  rewrite Forall_cons, <- IH. lia.
Qed.
Lemma pending_fits_app l p q :
  pending_fits l (p ++ q) ↔ pending_fits l p ∧ pending_fits l q.
Proof. apply Forall_app. Qed.
Lemma pending_fits_cons l t d q :
  pending_fits l ((t, d) :: q) ↔ d + Z.of_nat (ty_depth t) ≤ max_type_depth l ∧ pending_fits l q.
Proof. unfold pending_fits. by rewrite Forall_cons. Qed.
Lemma pending_fits_map l ts d :
  pending_fits l ((λ t, (t, d)) <$> ts) ↔ Forall (λ t, d + Z.of_nat (ty_depth t) ≤ max_type_depth l) ts.
Proof. unfold pending_fits. by rewrite Forall_fmap. Qed.

Lemma walk_outcome_ext fits fits' n n' m m' b :
  (∀ r, fits r ↔ fits' r) → n = n' → m b = m' b →
  walk_outcome fits n m b → walk_outcome fits' n' m' b.
Proof.
  intros Hf -> Hm. unfold walk_outcome. rewrite Hm.
  intros [(?&?&?)|(r&b'&?&?&Hr)].
  - left. naive_solver.
  - right. exists r, b'. split_and!; [done..|]. case_decide; naive_solver.
Qed.

(** Walks compose: demands are conjoined, nodes added. *)
Lemma walk_outcome_bind f1 f2 n1 n2 m1 m2 b :
  walk_outcome f1 n1 m1 b →
  (Z.of_nat n1 ≤ remaining b → walk_outcome f2 n2 m2 (spend n1 b)) →
  walk_outcome (both f1 f2) (n1 + n2) (_ ← m1; m2) b.
Proof.
  unfold both. intros [(Hf1&Hn1&H1)|(r&b'&H1&Hl&Hr)] H2.
  - unfold walk_outcome. rewrite (stm_bind_step _ _ _ _ _ H1).
    destruct (H2 Hn1) as [(Hf2&Hn2&->)|(r&b'&->&Hl&Hr)]; simpl in *.
    + left. split_and!; [naive_solver|lia|]. unfold spend. simpl. do 2 f_equal. lia.
    + right. exists r, b'. split_and!; [done..|]. case_decide; [lia|naive_solver].
  - right. exists r, b'. split_and!; [|done|case_decide; [lia|naive_solver]].
    unfold mbind, stm_bind. by rewrite H1.
Qed.

Lemma walk_outcome_nodes k b :
  0 ≤ remaining b → walk_outcome no_demand k (nodes (Z.of_nat k)) b.
Proof.
  intros Hb. unfold walk_outcome, nodes. destruct (Z.leb_spec (Z.of_nat k) (remaining b)).
  - left. split_and!; [done..|]. unfold spend. done.
  - right. exists Resource.Nodes, b. by split_and!.
Qed.

Lemma walk_outcome_done b : 0 ≤ remaining b → walk_outcome no_demand 0 (mret ()) b.
Proof. intros Hb. left. split_and!; [done..|]. unfold spend. rewrite Z.sub_0_r. by destruct b. Qed.

Lemma walk_outcome_1 fits n m b :
  0 ≤ remaining b →
  (1 ≤ remaining b → walk_outcome fits n m (spend 1 b)) →
  walk_outcome fits (S n) (_ ← nodes 1; m) b.
Proof.
  intros Hb Hm.
  eapply walk_outcome_ext; [..|apply (walk_outcome_bind no_demand fits 1 n (nodes 1) m)];
    [|done|done|by apply (walk_outcome_nodes 1)|exact Hm].
  intros r. unfold both, no_demand. tauto.
Qed.

Lemma walk_outcome_each {A} (f : A → demand) (n : A → nat) (m : A → stm Budget LimitError unit)
    l lim :
  (∀ x b, 0 ≤ remaining b → limits b = lim → walk_outcome (f x) (n x) (m x) b) →
  ∀ b, 0 ≤ remaining b → limits b = lim →
    walk_outcome (each f l) (sum_list_with n l) (for_each l m) b.
Proof.
  intros Hm. induction l as [|x l IH]; intros b Hb Hl; simpl.
  - eapply walk_outcome_ext; [..|by apply walk_outcome_done]; [|done..].
    intros r. unfold each, no_demand. split; [constructor|done].
  - eapply walk_outcome_ext; [..|apply walk_outcome_bind; [by apply Hm|]];
      [|done|done|intros; apply IH; simpl; [lia|done]].
    intros r. unfold each, both. by rewrite Forall_cons.
Qed.

Lemma foldr_nodes_ge ts : (length ts ≤ foldr (λ t n, ty_nodes t + n)%nat 0%nat ts)%nat.
Proof. induction ts as [|t ts IH]; simpl; [lia|]. pose proof (ty_nodes_pos t). lia. Qed.

(** What is pushed needs exactly the nodes and the depth of the popped type; the
    early test on wide nodes only rejects what the walk would reject. *)
Lemma ty_push_spec t d pending b :
  0 ≤ remaining b → d ≤ max_type_depth (limits b) →
  (∃ pending', ty_push t d pending b = (Ok pending', b) ∧
     pending_nodes ((t, d) :: pending) = S (pending_nodes pending') ∧
     (pending_fits (limits b) ((t, d) :: pending) ↔ pending_fits (limits b) pending')) ∨
  (ty_push t d pending b = (Err (exceeded (limits b) Resource.Nodes), b) ∧
   remaining b < Z.of_nat (pending_nodes ((t, d) :: pending) - 1)).
Proof.
  intros Hb Hd. pose proof (pending_nodes_length pending) as Hlen.
  assert (∀ t', pending_fits (limits b) ((t', d + 1) :: pending) ↔
      d + Z.of_nat (S (ty_depth t')) ≤ max_type_depth (limits b) ∧
      pending_fits (limits b) pending) as Hone.
  { intros t'. rewrite pending_fits_cons. split; intros []; (split; [lia|done]). }
  assert (∀ ts, pending_fits (limits b) (((λ t, (t, d + 1)) <$> ts) ++ pending) ↔
      d + Z.of_nat (ty_depth (Ty.Struct ts)) ≤ max_type_depth (limits b) ∧
      pending_fits (limits b) pending) as Hmany.
  { intros ts. rewrite pending_fits_app, pending_fits_map. destruct ts as [|t0 ts].
    - simpl. split; [intros [_ ?]|intros [_ ?]]; (split; [|done]); [lia|constructor].
    - destruct (decide (d + 1 ≤ max_type_depth (limits b))).
      + rewrite <- depth_fold by done. simpl. split; intros []; (split; [lia|done]).
      + simpl. rewrite Forall_cons. split; intros [? ?]; (split; [|done]); [|lia]. lia. }
  assert (∀ ts, (length ts ≤ foldr (λ t n, ty_nodes t + n) 0 ts)%nat) as Hwide
    by apply foldr_nodes_ge.
  destruct t as [ | | | | | | | | | | | | | | | | |t|[ps r c v]|t k|ts|ts];
    try (left; exists pending; split; [done|split; [done|]];
         rewrite pending_fits_cons; simpl; split; [tauto|intros; split; [lia|done]]).
  1,3: left; exists ((t, d + 1) :: pending); split; [done|split; [simpl; lia|]];
       rewrite Hone; apply pending_fits_cons.
  2,3: pose proof (Hwide ts);
    destruct (Z.ltb_spec (saturating_sub (remaining b) (len pending)) (len ts)) as [Hc|Hc];
    [right; pose proof Hc as Hc'; unfold saturating_sub, len in Hc'; split; [|simpl; lia];
       unfold ty_push, mbind, stm_bind, get; simpl;
       by rewrite (proj2 (Z.ltb_lt _ _)) by exact Hc
    |left; eexists; split;
       [unfold ty_push, mbind, stm_bind, get; simpl;
        rewrite (proj2 (Z.ltb_ge _ _)) by exact Hc; done|];
       rewrite pending_nodes_app, pending_nodes_map; split; [simpl; lia|];
       rewrite Hmany, pending_fits_cons; done].
  pose proof (Hwide ps).
    destruct (Z.leb_spec (saturating_sub (remaining b) (len pending)) (len ps)) as [Hc|Hc].
    + right. pose proof Hc as Hc'. unfold saturating_sub, len in Hc'. pose proof (ty_nodes_pos r).
      split; [|simpl; lia]. unfold ty_push, mbind, stm_bind, get. simpl.
      by rewrite (proj2 (Z.leb_le _ _)) by exact Hc.
    + left. eexists. split.
      { unfold ty_push, mbind, stm_bind, get. simpl.
        rewrite (proj2 (Z.leb_gt _ _)) by exact Hc. done. }
      rewrite pending_nodes_app, pending_nodes_map. split; [simpl; lia|].
      rewrite pending_fits_app, pending_fits_cons, pending_fits_map, pending_fits_cons.
      destruct (decide (d + 1 ≤ max_type_depth (limits b))).
      * rewrite <- depth_fold by done. simpl.
        split; [intros []; split; [lia|split; [lia|done]]|].
        intros (?&?&?); split; [lia|done].
      * simpl. split; [intros []; lia|intros (?&?&?); lia].
Qed.

Lemma ty_loop_walk fuel : ∀ pending b,
  0 ≤ remaining b → (pending_nodes pending < fuel)%nat →
  walk_outcome (λ r, r = Resource.TypeDepth → pending_fits (limits b) pending)
    (pending_nodes pending) (ty_loop fuel pending) b.
Proof.
  induction fuel as [|fuel IH]; intros pending b Hb Hfuel; [lia|].
  destruct pending as [|[t d] pending].
  { eapply walk_outcome_ext; [..|by apply walk_outcome_done]; [|done..].
    intros r. split; [constructor|done]. }
  assert (∃ n, pending_nodes ((t, d) :: pending) = S n) as [n Hn].
  { pose proof (ty_nodes_pos t). simpl. exists (ty_nodes t + pending_nodes pending - 1)%nat. lia. }
  rewrite Hn. apply walk_outcome_1; [done|]. intros Hb1.
  change (limits b) with (limits (spend 1 b)). set (b1 := spend 1 b) in *.
  assert (remaining b1 = remaining b - 1) as Hr1 by done. clearbody b1.
  unfold walk_outcome. rewrite (stm_bind_step get _ b1 b1 b1) by done. unfold when_err.
  destruct (Z.ltb_spec (max_type_depth (limits b1)) d).
  { right. exists Resource.TypeDepth, b1. split_and!; [done..|].
    simpl. rewrite pending_fits_cons. intros Hf. specialize (Hf eq_refl). lia. }
  rewrite (stm_bind_step (mret ()) _ b1 () b1) by done.
  destruct (ty_push_spec t d pending b1) as [(p' & Hp & Hcount & Hfits)|[Hp Hn']]; [lia|done|..].
  - rewrite (stm_bind_step _ _ _ _ _ Hp). rewrite Hcount in Hn. simplify_eq.
    eapply walk_outcome_ext; [|done|done|apply IH; lia].
    intros r. simpl. by rewrite Hfits.
  - right. exists Resource.Nodes, b1. rewrite Hn in Hn'. split_and!; [|done|simpl; lia].
    unfold mbind, stm_bind. by rewrite Hp.
Qed.

Lemma budget_ty_walk t b :
  0 ≤ remaining b → walk_outcome (type_fits (limits b) t) (ty_nodes t) (budget_ty t) b.
Proof.
  intros Hb. eapply walk_outcome_ext; [..|apply (ty_loop_walk (S (ty_nodes t)) [(t, 0)])];
    [|simpl; lia|done|done|simpl; lia].
  intros r. unfold type_fits. rewrite pending_fits_cons. split; [naive_solver|].
  intros Ht Hr. split; [by apply Ht|constructor].
Qed.

(** The worklist of [Budget::expression]. *)
Definition item_fits (l : IrLimits) (p : const_expr * Z) : demand := λ r,
  each (type_fits l) (expr_types p.1) r ∧
  (r = Resource.ConstantDepth → p.2 + Z.of_nat (expr_depth p.1) ≤ max_const_depth l).
Definition items_nodes (pending : list (const_expr * Z)) : nat :=
  sum_list_with (λ p, expr_nodes p.1) pending.
Definition items_size (pending : list (const_expr * Z)) : nat :=
  sum_list_with (λ p, expr_size p.1) pending.

Lemma each_cons {A} (f : A → demand) x l r : each f (x :: l) r ↔ f x r ∧ each f l r.
Proof. unfold each. by rewrite Forall_cons. Qed.
Lemma each_app {A} (f : A → demand) l l' r : each f (l ++ l') r ↔ each f l r ∧ each f l' r.
Proof. unfold each. by rewrite Forall_app. Qed.

Lemma expr_push_nodes e d pending :
  items_nodes ((e, d) :: pending) = S (ty_nodes (expr_ty e) + items_nodes (expr_push e d pending)) ∧
  items_size ((e, d) :: pending) = S (items_size (expr_push e d pending)).
Proof. destruct e as [t []]; unfold items_nodes, items_size, expr_push; simpl; lia. Qed.

Lemma expr_push_fits l e d pending r :
  each (item_fits l) ((e, d) :: pending) r ↔
    type_fits l (expr_ty e) r ∧ (r = Resource.ConstantDepth → d ≤ max_const_depth l) ∧
    each (item_fits l) (expr_push e d pending) r.
Proof.
  destruct e as [t []]; unfold expr_push; simpl; rewrite !each_cons; unfold item_fits; simpl;
    rewrite each_cons, ?each_app;
    (split; intros Hf; destruct_and? Hf; split_and!; try tauto; try (intros ->);
     repeat match goal with H : ?x = ?x → _ |- _ => specialize (H eq_refl) end; first [constructor|lia]).
Qed.

Lemma expression_loop_walk fuel : ∀ pending b,
  0 ≤ remaining b → (items_size pending < fuel)%nat →
  walk_outcome (each (item_fits (limits b)) pending)
    (items_nodes pending) (expression_loop fuel pending) b.
Proof.
  induction fuel as [|fuel IH]; intros pending b Hb Hfuel; [lia|].
  destruct pending as [|[e d] pending].
  { eapply walk_outcome_ext; [..|by apply walk_outcome_done]; [|done..].
    intros r. split; [constructor|done]. }
  destruct (expr_push_nodes e d pending) as [Hn Hs]. rewrite Hs in Hfuel.
  rewrite Hn. apply walk_outcome_1; [done|]. intros Hb1.
  change (limits b) with (limits (spend 1 b)). set (b1 := spend 1 b) in *.
  assert (remaining b1 = remaining b - 1) as Hr1 by done. clearbody b1.
  unfold walk_outcome. rewrite (stm_bind_step get _ b1 b1 b1) by done. unfold when_err.
  destruct (Z.ltb_spec (max_const_depth (limits b1)) d).
  { right. exists Resource.ConstantDepth, b1. split_and!; [done..|].
    simpl. rewrite expr_push_fits. intros (_&Hf&_). specialize (Hf eq_refl). lia. }
  rewrite (stm_bind_step (mret ()) _ b1 () b1) by done.
  eapply walk_outcome_ext; [|done|done|apply walk_outcome_bind;
    [apply budget_ty_walk; lia|intros; apply IH; [simpl; lia|lia]]].
  intros r. rewrite expr_push_fits. unfold both. simpl. tauto.
Qed.

Lemma budget_expression_walk e b :
  0 ≤ remaining b → walk_outcome (expr_fits (limits b) e) (expr_nodes e) (budget_expression e) b.
Proof.
  intros Hb.
  eapply walk_outcome_ext; [..|apply (expression_loop_walk (S (expr_size e)) [(e, 0)])];
    [|unfold items_nodes; simpl; lia|done|done|unfold items_size; simpl; lia].
  intros r. rewrite each_cons. unfold expr_fits, both, item_fits, const_fits. simpl.
  split; [tauto|]. intros. split; [tauto|constructor].
Qed.

Lemma budget_signature_walk sig b :
  0 ≤ remaining b → walk_outcome (sig_fits (limits b) sig) (sig_nodes sig) (budget_signature sig) b.
Proof.
  intros Hb. apply walk_outcome_1; [done|]. intros Hb1.
  eapply walk_outcome_ext; [|done|done|apply walk_outcome_bind;
    [apply budget_ty_walk; simpl; lia
    |intros; eapply (walk_outcome_each (type_fits (limits b)) _ _ _ (limits b));
       [|simpl in *; lia|done]; intros ??? <-; by apply budget_ty_walk]].
  intros r. unfold sig_fits. by rewrite each_cons.
Qed.

(** *** Whole modules *)

(** Everything a module's elements demand: the types they are annotated with, their
    expressions and signatures, and the entries counted on top of one node each. *)
Record Cost := mkCost {
  cost_entries : nat;
  cost_types : list ty;
  cost_exprs : list const_expr;
  cost_sigs : list FunctionSignature;
}.
Definition no_cost : Cost := mkCost 0 [] [] [].
Definition entries (n : nat) : Cost := mkCost n [] [] [].
Definition of_types (ts : list ty) : Cost := mkCost 0 ts [] [].
Definition of_expr (e : const_expr) : Cost := mkCost 0 [] [e] [].
Definition of_sig (s : FunctionSignature) : Cost := mkCost 0 [] [] [s].
Definition cost_app (a b : Cost) : Cost :=
  mkCost (cost_entries a + cost_entries b) (cost_types a ++ cost_types b)
    (cost_exprs a ++ cost_exprs b) (cost_sigs a ++ cost_sigs b).
Definition cost_all {A} (f : A → Cost) (l : list A) : Cost :=
  foldr (λ x c, cost_app (f x) c) no_cost l.
Notation "a +++ b" := (cost_app a b) (at level 60, right associativity).

Definition cost_nodes (c : Cost) : nat :=
  cost_entries c + sum_list_with ty_nodes (cost_types c) +
  sum_list_with expr_nodes (cost_exprs c) + sum_list_with sig_nodes (cost_sigs c).
Definition cost_fits (l : IrLimits) (c : Cost) : demand := λ r,
  each (type_fits l) (cost_types c) r ∧ each (expr_fits l) (cost_exprs c) r ∧
  each (sig_fits l) (cost_sigs c) r.

Definition instruction_cost (ins : instruction) : Cost :=
  entries 1 +++
  match ins with
  | Instruction.ConstDecl _ _ expression _ => of_expr expression
  | Instruction.Const _ t _ | Instruction.Undef _ t | Instruction.Mov _ t _
  | Instruction.Bin _ _ t _ _ | Instruction.Neg _ t _ | Instruction.Not _ t _
  | Instruction.Cmp _ _ t _ _ | Instruction.ICmp _ _ t _ _ | Instruction.FCmp _ _ t _ _
  | Instruction.Select _ t _ _ _ | Instruction.Checked _ _ t _ _ | Instruction.Alloca _ t _
  | Instruction.VolatileLoad _ t _ _ | Instruction.Load _ t _ _
  | Instruction.VolatileStore t _ _ _ | Instruction.Store t _ _ _
  | Instruction.Uninit t _ _ | Instruction.GlobalAddr _ _ t
  | Instruction.Extract _ t _ _ => of_types [t]
  | Instruction.Phi _ t incomings => of_types [t] +++ entries (length incomings)
  | Instruction.Cast _ _ dst_ty src_ty _ => of_types [src_ty] +++ of_types [dst_ty]
  | Instruction.Gep _ dst_ty _ indices => of_types [dst_ty] +++ entries (length indices)
  | Instruction.NullFunction _ signature | Instruction.FunctionAddr _ _ signature =>
      of_sig signature
  | Instruction.Call _ _ ret_ty _ args => of_types [ret_ty] +++ entries (length args)
  | _ => no_cost
  end.

Definition terminator_cost (t : terminator) : Cost :=
  entries 1 +++
  match t with
  | Terminator.Ret t _ => of_types [t]
  | Terminator.Switch t _ _ cases => of_types [t] +++ entries (length cases)
  | _ => no_cost
  end.
Definition block_cost (block : BasicBlock) : Cost :=
  entries 1 +++ cost_all instruction_cost (instructions block) +++
  match block_terminator block with Some t => terminator_cost t | None => no_cost end.
Definition function_cost (f : Function) : Cost :=
  entries 1 +++ of_types [ret_ty f] +++
  cost_all (λ p, entries 1 +++ of_types [param_ty p]) (function_params f) +++
  cost_all (λ p, entries 1 +++ of_types [p.2]) (value_types f) +++
  cost_all block_cost (blocks f).
Definition rest_cost (m : Module_) : Cost :=
  cost_all (λ g, entries 1 +++ of_types [global_ty g] +++ of_expr (init_expr g)) (globals m) +++
  cost_all (λ g, entries 1 +++ of_types [gs_ty g]) (global_storage m) +++
  cost_all (λ d, entries 1 +++ of_sig (decl_signature d)) (declarations m) +++
  cost_all function_cost (functions m).
Definition module_cost (m : Module_) : Cost :=
  entries (length (files (sources m))) +++ entries (length (originals (sources m))) +++
  entries (length (mappings (sources m))) +++ rest_cost m.
Definition name_bytes (fs : list SourceFile) : Z :=
  foldr (λ f n, Z.of_nat (String.length (file_name f)) + n) 0 fs.

(** A walk that costs [c]. *)
Definition costs (lim : IrLimits) (c : Cost) (m : stm Budget LimitError unit) : Prop :=
  ∀ b, 0 ≤ remaining b → limits b = lim → walk_outcome (cost_fits lim c) (cost_nodes c) m b.

Lemma cost_nodes_app a b : cost_nodes (a +++ b) = (cost_nodes a + cost_nodes b)%nat.
Proof. unfold cost_nodes. simpl. rewrite !sum_list_with_app. lia. Qed.
Lemma cost_fits_app l a b r : cost_fits l (a +++ b) r ↔ cost_fits l a r ∧ cost_fits l b r.
Proof. unfold cost_fits. simpl. rewrite !each_app. tauto. Qed.

Section costs.
Context (lim : IrLimits).

Lemma costs_bind a b m k : costs lim a m → costs lim b k → costs lim (a +++ b) (_ ← m; k).
Proof.
  intros Hm Hk bu Hb Hl.
  eapply walk_outcome_ext; [|symmetry; apply cost_nodes_app|done|apply walk_outcome_bind;
    [by apply Hm|intros; apply Hk; [simpl; lia|done]]].
  intros r. by rewrite cost_fits_app.
Qed.
Lemma costs_done : costs lim no_cost (mret ()).
Proof.
  intros b Hb Hl. eapply walk_outcome_ext; [|done|done|by apply walk_outcome_done].
  intros r. split; [|done]. intros _. split_and!; constructor.
Qed.
Lemma costs_entries n : costs lim (entries n) (nodes (Z.of_nat n)).
Proof.
  intros b Hb Hl.
  eapply walk_outcome_ext; [| |done|by apply walk_outcome_nodes]; [|unfold cost_nodes; simpl; lia].
  intros r. split; [|done]. intros _. split_and!; constructor.
Qed.
Lemma costs_one : costs lim (entries 1) (nodes 1).
Proof. apply (costs_entries 1). Qed.
Lemma costs_ty t : costs lim (of_types [t]) (budget_ty t).
Proof.
  intros b Hb <-.
  eapply walk_outcome_ext; [| |done|by apply budget_ty_walk]; [|unfold cost_nodes; simpl; lia].
  intros r. unfold cost_fits. simpl. rewrite each_cons. unfold each. rewrite !Forall_nil. tauto.
Qed.
Lemma costs_expr e : costs lim (of_expr e) (budget_expression e).
Proof.
  intros b Hb <-.
  eapply walk_outcome_ext; [| |done|by apply budget_expression_walk]; [|unfold cost_nodes; simpl; lia].
  intros r. unfold cost_fits. simpl. rewrite each_cons. unfold each. rewrite !Forall_nil. tauto.
Qed.
Lemma costs_sig s : costs lim (of_sig s) (budget_signature s).
Proof.
  intros b Hb <-.
  eapply walk_outcome_ext; [| |done|by apply budget_signature_walk];
    [|unfold cost_nodes; simpl; unfold sig_nodes; lia].
  intros r. unfold cost_fits. simpl. rewrite each_cons. unfold each. rewrite !Forall_nil. tauto.
Qed.
Lemma costs_each {A} (c : A → Cost) (f : A → stm Budget LimitError unit) l :
  (∀ x, costs lim (c x) (f x)) → costs lim (cost_all c l) (for_each l f).
Proof.
  intros Hf. induction l as [|x l IH]; simpl; [apply costs_done|by apply costs_bind].
Qed.
End costs.
Create HintDb costs.
#[export] Hint Resolve costs_bind costs_done costs_one costs_entries costs_ty costs_expr
  costs_sig costs_each : costs.

Lemma check_instruction_costs lim ins : costs lim (instruction_cost ins) (check_instruction ins).
Proof. apply costs_bind; [apply costs_one|]. destruct ins; unfold len; auto with costs. Qed.
#[export] Hint Resolve check_instruction_costs : costs.

Lemma check_terminator_costs lim t : costs lim (terminator_cost t) (check_terminator t).
Proof. apply costs_bind; [apply costs_one|]. destruct t; unfold len; auto with costs. Qed.

Lemma check_block_costs lim b : costs lim (block_cost b) (check_block b).
Proof.
  unfold check_block, block_cost. destruct (block_terminator b);
    auto 10 using check_terminator_costs with costs.
Qed.
#[export] Hint Resolve check_block_costs : costs.

Lemma check_function_costs lim f : costs lim (function_cost f) (check_function f).
Proof. unfold check_function, function_cost. auto 20 with costs. Qed.
#[export] Hint Resolve check_function_costs : costs.

(** What a module demands, file names included. *)
Definition names_fit (l : IrLimits) (fs : list SourceFile) : demand := λ r,
  r = Resource.InputBytes → name_bytes fs ≤ max_input_bytes l.
Definition module_fits (l : IrLimits) (m : Module_) : demand :=
  both (cost_fits l (module_cost m)) (names_fit l (files (sources m))).
(** The limits are [usize]. *)
Definition limits_ok (l : IrLimits) : Prop := 0 ≤ max_nodes l ∧ 0 ≤ max_input_bytes l < 2 ^ 64.

Lemma name_bytes_nonneg fs : 0 ≤ name_bytes fs.
Proof. induction fs; simpl; lia. Qed.

Lemma check_file_names_spec l fs : ∀ n,
  0 ≤ n ≤ max_input_bytes l → max_input_bytes l < 2 ^ 64 →
  check_file_names l n fs =
    if n + name_bytes fs <=? max_input_bytes l then Ok () else Err (exceeded l Resource.InputBytes).
Proof.
  induction fs as [|f fs IH]; intros n Hn Hl; simpl.
  - by rewrite Z.add_0_r, (proj2 (Z.leb_le _ _)) by lia.
  - pose proof (name_bytes_nonneg fs).
    destruct (checked_u 64 _) as [n'|] eqn:Hc.
    + apply checked_u_Some in Hc as [-> ?]. rewrite Z.add_assoc.
      destruct (Z.leb_spec (n + Z.of_nat (String.length (file_name f))) (max_input_bytes l)).
      * apply IH; lia.
      * by rewrite (proj2 (Z.leb_gt _ _)) by lia.
    + apply checked_u_None in Hc. by rewrite (proj2 (Z.leb_gt _ _)) by lia.
Qed.

Lemma check_names_walk l fs b :
  limits_ok l → limits b = l → 0 ≤ remaining b →
  walk_outcome (names_fit l fs) 0 (lift (check_file_names l 0 fs)) b.
Proof.
  intros [_ Hl] Hb Hr. unfold walk_outcome, lift, names_fit.
  rewrite check_file_names_spec, Z.add_0_l by lia. destruct (Z.leb_spec (name_bytes fs) (max_input_bytes l)).
  - left. split_and!; [done..|]. unfold spend. rewrite Z.sub_0_r. by destruct b.
  - right. exists Resource.InputBytes, b. rewrite Hb. split; [done|]. split; [done|].
    simpl. intros Hf. specialize (Hf eq_refl). lia.
Qed.

Lemma rest_costs m l :
  costs l (rest_cost m)
    (_ ← for_each (globals m) (λ g,
           _ ← nodes 1; _ ← budget_ty (global_ty g); budget_expression (init_expr g));
     _ ← for_each (global_storage m) (λ g, _ ← nodes 1; budget_ty (gs_ty g));
     _ ← for_each (declarations m) (λ d, _ ← nodes 1; budget_signature (decl_signature d));
     for_each (functions m) check_function).
Proof. unfold rest_cost. auto 20 with costs. Qed.

Lemma check_module_walk m l :
  limits_ok l →
  walk_outcome (module_fits l m) (cost_nodes (module_cost m)) (walk_module m l)
    (mkBudget l (max_nodes l)).
Proof.
  intros Hl. unfold walk_module.
  set (b := mkBudget l (max_nodes l)).
  assert (0 ≤ remaining b) as Hb by apply Hl. assert (limits b = l) as Hbl by done.
  clearbody b.
  eapply walk_outcome_ext; [..|reflexivity|
    apply walk_outcome_bind; [by apply (costs_entries l)|intros];
    apply walk_outcome_bind; [by apply (costs_entries l); [simpl; lia|]|intros];
    apply walk_outcome_bind; [by apply (costs_entries l); [simpl in *; lia|]|intros];
    apply walk_outcome_bind; [by apply (check_names_walk l); [| |simpl in *; lia]|intros];
    apply (rest_costs m l); [simpl in *; lia|done]].
  - intros r. unfold module_fits, both, module_cost, rest_cost. rewrite !cost_fits_app. tauto.
  - unfold module_cost, rest_cost. rewrite !cost_nodes_app. lia.
Qed.

(** ** Properties *)

(** C31: [Budget::ty] terminates without a panic and decides exactly whether a type is
    within the budget: a type whose node count fits what remains and whose depth fits
    the limit is accepted, and exactly its nodes are charged; any other type is
    rejected, with the depth error only when it is too deep and the node error only
    when it has too many nodes, in particular for the early rejection of wide nodes. *)
Theorem budget_ty_decides t b (Hb : 0 ≤ remaining b) :
  (Z.of_nat (ty_nodes t) ≤ remaining b → Z.of_nat (ty_depth t) ≤ max_type_depth (limits b) →
   budget_ty t b = (Ok (), mkBudget (limits b) (remaining b - Z.of_nat (ty_nodes t)))) ∧
  (∀ r b', budget_ty t b = (r, b') → r ≠ Ok () →
   limits b' = limits b ∧
   (r = Err (mkLimitError Resource.TypeDepth (max_type_depth (limits b))) ∧
      max_type_depth (limits b) < Z.of_nat (ty_depth t) ∨
    r = Err (mkLimitError Resource.Nodes (max_nodes (limits b))) ∧
      remaining b < Z.of_nat (ty_nodes t))).
Proof.
  destruct (budget_ty_walk t b Hb) as [(Hf&Hn&->)|(r&b'&->&Hl&Hr)].
  - split; [done|]. intros ?? [= <- <-]. done.
  - split.
    + intros Hn Hd. exfalso. case_decide; [lia|]. apply Hr. by intros _.
    + intros ?? [= <- <-] _. split; [done|]. case_decide as Hc; [subst r; by right|].
      left. unfold type_fits in Hr. destruct (decide (r = Resource.TypeDepth)) as [->|?].
      * split; [done|]. apply Z.lt_nge. intros ?. by apply Hr.
      * exfalso. by apply Hr.
Qed.

Lemma budget_ty_decides_witness :
  let t := Ty.Struct [Ty.Ptr Ty.I8; Ty.FnPtr (whale [Ty.I32] Ty.Void)] in
  budget_ty t (mkBudget default_limits 6) = (Ok (), mkBudget default_limits 0) ∧
  (budget_ty t (mkBudget default_limits 5)).1 = Err (mkLimitError Resource.Nodes 1000000).
Proof.
  split.
  - refine (proj1 (budget_ty_decides _ (mkBudget default_limits 6) _) _ _); vm_compute; discriminate.
  - vm_compute. reflexivity.
Defined.

(** [check_module] never panics and accepts a module exactly when the configured
    depths are below [MAX_IR_NESTING], every type, expression and signature of every
    element is within the depth limits, the file names fit the input limit and the
    total number of traversed nodes fits [max_nodes]; a rejection names a resource the
    module really exceeds, with its configured limit. *)
Theorem check_module_decides m l (Hl : limits_ok l) :
  (check_module m l = Ok () ↔
     max_type_depth l ≤ Z.of_nat MAX_IR_NESTING ∧ max_const_depth l ≤ Z.of_nat MAX_IR_NESTING ∧
     Z.of_nat (cost_nodes (module_cost m)) ≤ max_nodes l ∧ ∀ r, module_fits l m r) ∧
  check_module m l ≠ Panic ∧
  (∀ e, check_module m l = Err e →
     e = exceeded l (resource e) ∧
     match resource e with
     | Resource.Configuration =>
         Z.of_nat MAX_IR_NESTING < Z.max (max_type_depth l) (max_const_depth l)
     | Resource.Nodes => max_nodes l < Z.of_nat (cost_nodes (module_cost m))
     | r => ¬ module_fits l m r
     end).
Proof.
  unfold check_module, new_budget, validate_limits.
  destruct (orb _ _) eqn:Hv; simpl.
  - apply orb_true_iff in Hv. rewrite !Z.ltb_lt in Hv.
    split; [split; [done|lia]|]. split; [done|]. intros e [= <-]. split; [done|simpl; lia].
  - apply orb_false_iff in Hv as [Hv1 Hv2]. apply Z.ltb_ge in Hv1, Hv2.
    destruct (check_module_walk m l Hl) as [(Hf&Hn&->)|(r&b'&->&_&Hr)]; simpl in *.
    + split; [tauto|]. split; [done|]. by intros ? [=].
    + split; [|split; [done|]].
      * split; [done|]. intros (_&_&Hn&Hf). case_decide; [lia|]. by destruct Hr.
      * intros e [= <-]. split; [done|]. simpl. case_decide; [by subst r|].
        destruct r; try done. exfalso. apply Hr.
        split; [|done]. split_and!; apply Forall_forall; intros x _; try done.
        -- split; [apply Forall_forall|]; done.
        -- apply Forall_forall. done.
Qed.

Lemma check_module_decides_witness :
  let m := mkModule "x86_64-whale-linux"%string (mkDataLayout 64 Little) [] []
    [mkFunction (mkFunctionId 0) "f"%string [] Ty.I32 [] (mkBlockId 0) []] []
    (mkSources [] [] []) in
  limits_ok default_limits ∧ check_module m default_limits ≠ Panic.
Proof.
  split; [vm_compute; by split_and!|].
  refine (proj1 (proj2 (check_module_decides _ default_limits _))). vm_compute. by split_and!.
Defined.
