(* ===== verification/Integer.v ===== *)
(** * Integer evaluation ([interpreter/integer.rs], [constant.rs])

    The interpreter keeps an integer as a [ConstValue] and computes on its
    [u128] bit pattern.  The first part transcribes that code; the second
    part relates it to arithmetic on mathematical integers: every operation of
    width [N] computes the [N]-bit wrap of the exact result, traps exactly on a zero
    divisor, and reports overflow exactly when the exact result is out of range. *)
From S2P Require Export Syntax.
Local Open Scope Z_scope.

(** ** The code *)

Definition shape (t : ty) : option (Z * bool) :=
  match t with
  | Ty.I1 => Some (1, true)
  | Ty.U1 => Some (1, false)
  | Ty.I8 => Some (8, true)
  | Ty.U8 => Some (8, false)
  | Ty.I16 => Some (16, true)
  | Ty.U16 => Some (16, false)
  | Ty.I32 => Some (32, true)
  | Ty.U32 => Some (32, false)
  | Ty.I64 => Some (64, true)
  | Ty.U64 => Some (64, false)
  | Ty.I128 => Some (128, true)
  | Ty.U128 => Some (128, false)
  | _ => None
  end.

Definition mask (bits : Z) : Z := if bits =? 128 then umax 128 else Z.shiftl 1 bits - 1.

Section with_error.
Context {E : Type}.

(** [integer::raw]: the bit pattern; a float is unreachable. *)
Definition raw (value : const_value) (bits : Z) : result E Z :=
  v ← match value with
      | ConstValue.I v => Ok (wrapu 128 v)
      | ConstValue.U v => Ok v
      | ConstValue.Bool b => Ok (if b then 1 else 0)
      | ConstValue.F _ => Panic
      end;
  Ok (Z.land v (mask bits)).

Definition signed (value bits : Z) : Z :=
  if (bits <? 128) && negb (Z.land value (Z.shiftl 1 (bits - 1)) =? 0)
  then wraps 128 (Z.lor value (notu 128 (mask bits)))
  else wraps 128 value.

Definition pack (t : ty) (value : Z) : result E const_value :=
  '(bits, is_signed) ← expect (shape t);
  let value := Z.land value (mask bits) in
  if is_signed : bool then Ok (ConstValue.I (signed value bits)) else Ok (ConstValue.U value).
End with_error.

Definition bin (op : BinOp.t) (t : ty) (lhs rhs : const_value) : result TrapReason.t const_value :=
  '(bits, _) ← expect (shape t);
  a ← raw lhs bits;
  b ← raw rhs bits;
  let count := b mod bits in
  value ← match op with
    | BinOp.Add => Ok (wrapu 128 (a + b))
    | BinOp.Sub => Ok (wrapu 128 (a - b))
    | BinOp.Mul => Ok (wrapu 128 (a * b))
    | BinOp.UDiv => if b =? 0 then Err TrapReason.DivisionByZero else Ok (a / b)
    | BinOp.SDiv => if b =? 0 then Err TrapReason.DivisionByZero
        else Ok (wrapu 128 (wraps 128 (Z.quot (signed a bits) (signed b bits))))
    | BinOp.URem => if b =? 0 then Err TrapReason.RemainderByZero else Ok (a mod b)
    | BinOp.SRem => if b =? 0 then Err TrapReason.RemainderByZero
        else Ok (wrapu 128 (wraps 128 (Z.rem (signed a bits) (signed b bits))))
    | BinOp.And => Ok (Z.land a b)
    | BinOp.Or => Ok (Z.lor a b)
    | BinOp.Xor => Ok (Z.lxor a b)
    | BinOp.Shl => Ok (wrapu 128 (Z.shiftl a count))
    | BinOp.LShr => Ok (Z.shiftr a count)
    | BinOp.AShr => Ok (wrapu 128 (Z.shiftr (signed a bits) count))
    | _ => Panic
    end;
  pack t value.

Definition is_none_or {A} (o : option A) (f : A → bool) : bool :=
  match o with None => true | Some a => f a end.

Definition checked (op : CheckedOp.t) (t : ty) (lhs rhs : const_value)
    : result TrapReason.t (const_value * bool) :=
  '(bits, _) ← expect (shape t);
  a ← raw lhs bits;
  b ← raw rhs bits;
  let '(wrapped, overflow) :=
    match op with
    | CheckedOp.UAdd =>
        let sum := wrapu 128 (a + b) in
        let carry := negb (in_u 128 (a + b)) in
        (sum, carry || (mask bits <? sum))
    | CheckedOp.USub => (wrapu 128 (a - b), a <? b)
    | CheckedOp.UMul =>
        (wrapu 128 (a * b), is_none_or (checked_u 128 (a * b)) (λ v, mask bits <? v))
    | CheckedOp.SAdd | CheckedOp.SSub | CheckedOp.SMul =>
        let sa := signed a bits in
        let sb := signed b bits in
        let '(wrapped, exact) :=
          match op with
          | CheckedOp.SAdd => (wrapu 128 (a + b), checked_s 128 (sa + sb))
          | CheckedOp.SSub => (wrapu 128 (a - b), checked_s 128 (sa - sb))
          | _ => (wrapu 128 (a * b), checked_s 128 (sa * sb))
          end in
        let overflow := is_none_or exact (λ v,
          (bits <? 128)
          && ((v <? - Z.shiftl 1 (bits - 1)) || (Z.shiftl 1 (bits - 1) <=? v))) in
        (wrapped, overflow)
    end in
  v ← pack t wrapped;
  Ok (v, overflow).

Definition cast (op : CastOp.t) (src_ty dst_ty : ty) (value : const_value)
    : result TrapReason.t const_value :=
  let bits := match shape src_ty with Some s => s.1 | None => 1 end in
  value ← raw value bits;
  let value := if decide (op = CastOp.SExt) then wrapu 128 (signed value bits) else value in
  pack dst_ty value.

Definition compare (pred : ICmpPred.t) (t : ty) (lhs rhs : const_value)
    : result TrapReason.t bool :=
  let bits := match shape t with Some s => s.1 | None => 1 end in
  a ← raw lhs bits;
  b ← raw rhs bits;
  Ok match pred with
     | ICmpPred.Eq => a =? b
     | ICmpPred.Ne => negb (a =? b)
     | ICmpPred.Ult => a <? b
     | ICmpPred.Ule => a <=? b
     | ICmpPred.Ugt => b <? a
     | ICmpPred.Uge => b <=? a
     | ICmpPred.Slt => signed a bits <? signed b bits
     | ICmpPred.Sle => signed a bits <=? signed b bits
     | ICmpPred.Sgt => signed b bits <? signed a bits
     | ICmpPred.Sge => signed b bits <=? signed a bits
     end.

Definition checked_cast (src dst : ty) (value : const_value)
    : result TrapReason.t const_value :=
  '(sb, ss) ← expect (shape src);
  '(db, ds) ← expect (shape dst);
  raw ← raw value sb;
  let negative := ss && (signed raw sb <? 0) in
  let magnitude := if negative : bool then Z.abs (signed raw sb) else raw in
  let maximum :=
    if ds : bool then Z.shiftl 1 (db - 1) - (if negb negative : bool then 1 else 0) else mask db in
  if (negative && negb ds) || (maximum <? magnitude) then Err TrapReason.InvalidConversion
  else pack dst (if negative : bool then wrapu 128 (0 - magnitude) else magnitude).

(** [Instruction::Not] and [Instruction::Neg] on integers, as the run loop computes
    them. *)
Definition not_int (t : ty) (v : const_value) : result TrapReason.t const_value :=
  '(bits, _) ← expect (shape t);
  r ← raw v bits;
  pack t (notu 128 r).
Definition neg_int {E} (t : ty) (v : const_value) : result E const_value :=
  '(bits, _) ← expect (shape t);
  r ← raw v bits;
  pack t (wrapu 128 (0 - r)).

(** [constant.rs]: a literal of the declared category and range. *)
Definition valid_constant (t : ty) (value : const_value) : bool :=
  match t, value with
  | Ty.Bool, ConstValue.Bool _ => true
  | Ty.F16, ConstValue.F (F16Bits _)
  | Ty.F32, ConstValue.F (F32Bits _)
  | Ty.F64, ConstValue.F (F64Bits _) => true
  | Ty.I128, ConstValue.I _ | Ty.U128, ConstValue.U _ => true
  | (Ty.I1 | Ty.I8 | Ty.I16 | Ty.I32 | Ty.I64), ConstValue.I v =>
      let bits :=
        match t with Ty.I1 => 1 | Ty.I8 => 8 | Ty.I16 => 16 | Ty.I32 => 32 | _ => 64 end in
      let limit := Z.shiftl 1 (bits - 1) in
      (- limit <=? v) && (v <? limit)
  | (Ty.U1 | Ty.U8 | Ty.U16 | Ty.U32 | Ty.U64), ConstValue.U v =>
      let bits :=
        match t with Ty.U1 => 1 | Ty.U8 => 8 | Ty.U16 => 16 | Ty.U32 => 32 | _ => 64 end in
      v <? Z.shiftl 1 bits
  | _, _ => false
  end.

(** The ranges of the Rust carriers: an [i128], a [u128] and the float payloads are
    in range by their types, which [Z] does not say. *)
Definition carrier_ok (v : const_value) : bool :=
  match v with
  | ConstValue.Bool _ => true
  | ConstValue.I z => in_s 128 z
  | ConstValue.U z => in_u 128 z
  | ConstValue.F (F16Bits b) => in_u 16 b
  | ConstValue.F (F32Bits b) => in_u 32 b
  | ConstValue.F (F64Bits b) => in_u 64 b
  end.

(** A runtime constant of type [t]. *)
Definition has_type (t : ty) (v : const_value) : bool := valid_constant t v && carrier_ok v.

(** ** Mathematical meaning *)

(** The value an integer constant denotes, and the constant of type [t] that denotes
    the [N]-bit wrap of [z]. *)
Definition denote (v : const_value) : Z :=
  match v with
  | ConstValue.I z | ConstValue.U z => z
  | ConstValue.Bool b => if b then 1 else 0
  | ConstValue.F _ => 0
  end.

Definition wrap (t : ty) (z : Z) : Z :=
  match shape t with
  | Some (bits, true) => wraps bits z
  | Some (bits, false) => wrapu bits z
  | None => 0
  end.
Definition inject (t : ty) (z : Z) : const_value :=
  match shape t with
  | Some (_, true) => ConstValue.I (wrap t z)
  | _ => ConstValue.U (wrap t z)
  end.
Definition int_range (t : ty) (z : Z) : bool :=
  match shape t with
  | Some (bits, true) => in_s bits z
  | Some (bits, false) => in_u bits z
  | None => false
  end.
Definition is_int (t : ty) : bool := match shape t with Some _ => true | None => false end.

(** The exact result of an operation on the [bits]-bit patterns of [x] and [y],
    before it is wrapped into the type. *)
Definition int_semantics (op : BinOp.t) (bits x y : Z) : result TrapReason.t Z :=
  let ux := wrapu bits x in let uy := wrapu bits y in
  let sx := wraps bits x in let sy := wraps bits y in
  let count := uy mod bits in
  match op with
  | BinOp.Add => Ok (x + y)
  | BinOp.Sub => Ok (x - y)
  | BinOp.Mul => Ok (x * y)
  | BinOp.UDiv => if uy =? 0 then Err TrapReason.DivisionByZero else Ok (ux / uy)
  | BinOp.SDiv => if uy =? 0 then Err TrapReason.DivisionByZero else Ok (Z.quot sx sy)
  | BinOp.URem => if uy =? 0 then Err TrapReason.RemainderByZero else Ok (ux mod uy)
  | BinOp.SRem => if uy =? 0 then Err TrapReason.RemainderByZero else Ok (Z.rem sx sy)
  | BinOp.And => Ok (Z.land x y)
  | BinOp.Or => Ok (Z.lor x y)
  | BinOp.Xor => Ok (Z.lxor x y)
  | BinOp.Shl => Ok (x * 2 ^ count)
  | BinOp.LShr => Ok (ux / 2 ^ count)
  | BinOp.AShr => Ok (sx / 2 ^ count)
  | _ => Panic
  end.

(** The exact result of a checked operation, and whether it leaves the range. *)
Definition checked_semantics (op : CheckedOp.t) (bits x y : Z) : Z * bool :=
  let ux := wrapu bits x in let uy := wrapu bits y in
  let sx := wraps bits x in let sy := wraps bits y in
  match op with
  | CheckedOp.UAdd => (ux + uy, negb (in_u bits (ux + uy)))
  | CheckedOp.USub => (ux - uy, negb (in_u bits (ux - uy)))
  | CheckedOp.UMul => (ux * uy, negb (in_u bits (ux * uy)))
  | CheckedOp.SAdd => (sx + sy, negb (in_s bits (sx + sy)))
  | CheckedOp.SSub => (sx - sy, negb (in_s bits (sx - sy)))
  | CheckedOp.SMul => (sx * sy, negb (in_s bits (sx * sy)))
  end.

(** ** Lemmas *)

Lemma shape_bits t bits s : shape t = Some (bits, s) → 0 < bits ≤ 128.
Proof. by destruct t; intros [= <- <-]. Qed.

Lemma is_int_shape t : is_int t = true → ∃ bits s, shape t = Some (bits, s).
Proof. unfold is_int. destruct (shape t) as [[bits s]|]; [eauto|done]. Qed.

Lemma mask_eq bits : 0 < bits ≤ 128 → mask bits = 2 ^ bits - 1.
Proof.
  intros. unfold mask, umax. destruct (Z.eqb_spec bits 128) as [->|]; [done|].
  by rewrite Z.shiftl_1_l.
Qed.

Definition not_float (v : const_value) : bool :=
  match v with ConstValue.F _ => false | _ => true end.

Lemma raw_eq {E} v bits :
  not_float v = true → 0 < bits ≤ 128 → @raw E v bits = Ok (wrapu bits (denote v)).
Proof.
  intros Hv Hb. unfold raw. destruct v as [b|z|z|f]; simpl in *; [| | |done];
    rewrite mask_eq, land_mask by lia; try done.
  by rewrite wrapu_wrapu by lia.
Qed.

Lemma wraps_lor_sign_extension bits v :
  0 < bits < 128 → 2 ^ (bits - 1) ≤ v < 2 ^ bits →
  wraps 128 (Z.lor v (notu 128 (2 ^ bits - 1))) = v - 2 ^ bits.
Proof.
  intros Hb Hv. pose proof (pow2_half bits ltac:(lia)) as Hh.
  assert (2 ^ bits ≤ 2 ^ 127) by (apply Z.pow_le_mono_r; lia).
  pose proof (pow2_half 128 ltac:(lia)) as H128.
  assert (notu 128 (2 ^ bits - 1) = 2 ^ 128 - 2 ^ bits) as Hn.
  { unfold notu. transitivity (wrapu 128 (2 ^ 128 - 2 ^ bits)); [|apply wrapu_id; lia].
    apply wrapu_eq_iff; [lia|]. exists (-1). unfold Z.lnot. lia. }
  assert (Z.lor v (2 ^ 128 - 2 ^ bits) = v + (2 ^ 128 - 2 ^ bits)) as ->%(eq_trans (f_equal _ Hn)).
  { symmetry. rewrite Z.add_nocarry_lxor, Z.lxor_lor; [done|..];
      apply Z.bits_inj'; intros i Hi; rewrite Z.land_spec, Z.bits_0.
    all: destruct (Z.lt_ge_cases i bits) as [Hlt|Hge];
      [|by rewrite (testbit_high bits v) by lia].
    all: replace (2 ^ 128 - 2 ^ bits) with ((2 ^ (128 - bits) - 1) * 2 ^ bits)
        by (rewrite Z.mul_sub_distr_r, <- Z.pow_add_r by lia; do 2 f_equal; lia).
    all: by rewrite Z.mul_pow2_bits_low, andb_false_r by lia. }
  transitivity (wraps 128 (v - 2 ^ bits)).
  - apply wraps_eq_iff; [lia|]. exists 1. lia.
  - apply wraps_id; [lia|]. lia.
Qed.

Lemma signed_eq v bits :
  0 < bits ≤ 128 → 0 ≤ v < 2 ^ bits → signed v bits = wraps bits v.
Proof.
  intros Hb Hv. unfold signed. rewrite Z.shiftl_1_l, mask_eq, land_top_bit by lia.
  destruct (Z.ltb_spec bits 128); simpl; [|by replace bits with 128 by lia].
  pose proof (pow2_pos (bits - 1) ltac:(lia)).
  rewrite (wraps_of_u bits) by lia. destruct (Z.ltb_spec v (2 ^ (bits - 1))); simpl.
  - apply wraps_id; [lia|].
    assert (2 ^ (bits - 1) ≤ 2 ^ 127) by (apply Z.pow_le_mono_r; lia). lia.
  - destruct (Z.eqb_spec (2 ^ (bits - 1)) 0); [lia|]. simpl.
    apply wraps_lor_sign_extension; lia.
Qed.

Lemma signed_wrapu bits z : 0 < bits ≤ 128 → signed (wrapu bits z) bits = wraps bits z.
Proof.
  intros. rewrite signed_eq, wraps_wrapu by (try apply wrapu_range; lia). done.
Qed.

Lemma pack_eq {E} t z : is_int t = true → @pack E t z = Ok (inject t z).
Proof.
  intros (bits & s & Hs)%is_int_shape. pose proof (shape_bits _ _ _ Hs).
  unfold pack, inject, wrap. rewrite Hs. simpl.
  rewrite mask_eq, land_mask by lia. destruct s; [|done]. by rewrite signed_wrapu by lia.
Qed.

Lemma inject_congr t bits s a b :
  shape t = Some (bits, s) → (2 ^ bits | a - b) → inject t a = inject t b.
Proof.
  intros Hs Hd. pose proof (shape_bits _ _ _ Hs). unfold inject, wrap. rewrite Hs.
  destruct s; f_equal; [apply wraps_eq_iff|apply wrapu_eq_iff]; done || lia.
Qed.

Lemma inject_wrapu t bits s w z :
  shape t = Some (bits, s) → bits ≤ w → inject t (wrapu w z) = inject t z.
Proof.
  intros Hs ?. pose proof (shape_bits _ _ _ Hs). eapply inject_congr; [done|].
  etrans; [by apply (pow2_divide bits w); lia|]. apply wrapu_congr. lia.
Qed.
Lemma inject_wraps t bits s w z :
  shape t = Some (bits, s) → bits ≤ w → inject t (wraps w z) = inject t z.
Proof.
  intros Hs ?. pose proof (shape_bits _ _ _ Hs). eapply inject_congr; [done|].
  etrans; [by apply (pow2_divide bits w); lia|]. apply wraps_congr. lia.
Qed.

(** Bitwise operations commute with truncation. *)
Lemma wrapu_bitop (f : bool → bool → bool) op w x y :
  (∀ a b i, 0 ≤ i → Z.testbit (op a b) i = f (Z.testbit a i) (Z.testbit b i)) →
  f false false = false → 0 ≤ w →
  op (wrapu w x) (wrapu w y) = wrapu w (op x y).
Proof.
  intros Hop Hf Hw. apply Z.bits_inj'. intros i Hi. rewrite Hop by done.
  unfold wrapu. destruct (Z.lt_ge_cases i w).
  - by rewrite !Z.mod_pow2_bits_low, Hop by done.
  - by rewrite !Z.mod_pow2_bits_high by lia.
Qed.

Lemma wrapu_land w x y : 0 ≤ w → Z.land (wrapu w x) (wrapu w y) = wrapu w (Z.land x y).
Proof. apply (wrapu_bitop andb Z.land); [intros; apply Z.land_spec|done]. Qed.
Lemma wrapu_lor w x y : 0 ≤ w → Z.lor (wrapu w x) (wrapu w y) = wrapu w (Z.lor x y).
Proof. apply (wrapu_bitop orb Z.lor); [intros; apply Z.lor_spec|done]. Qed.
Lemma wrapu_lxor w x y : 0 ≤ w → Z.lxor (wrapu w x) (wrapu w y) = wrapu w (Z.lxor x y).
Proof. apply (wrapu_bitop xorb Z.lxor); [intros; apply Z.lxor_spec|done]. Qed.

Lemma inject_in_range t z : is_int t = true → int_range t (denote (inject t z)) = true.
Proof.
  intros (bits & s & Hs)%is_int_shape. pose proof (shape_bits _ _ _ Hs).
  unfold int_range, inject, wrap. rewrite Hs.
  destruct s; simpl; [apply in_s_spec, wraps_range|apply in_u_spec, wrapu_range]; lia.
Qed.

Lemma denote_inject t z : int_range t z = true → denote (inject t z) = z.
Proof.
  unfold int_range, inject, wrap. destruct (shape t) as [[bits s]|] eqn:Hs; [|done].
  pose proof (shape_bits _ _ _ Hs).
  destruct s; simpl; rewrite ?in_s_spec, ?in_u_spec; intros;
    [apply wraps_id|apply wrapu_id]; lia.
Qed.

Lemma has_type_int t v :
  is_int t = true → has_type t v = true ↔ int_range t (denote v) = true ∧ v = inject t (denote v).
Proof.
  intros (bits & s & Hs)%is_int_shape. pose proof (shape_bits _ _ _ Hs) as Hb.
  unfold has_type. split.
  - intros [Hv Hc]%andb_true_iff.
    assert (int_range t (denote v) = true) as Hr.
    { destruct t; simplify_eq/=; destruct v as [|z|z|]; try done; unfold int_range;
        simpl in *; rewrite ?Z.shiftl_1_l in *; unfold in_s, in_u in *; lia. }
    split; [done|]. destruct t; simplify_eq/=; destruct v as [|z|z|]; try done;
      unfold inject; simpl; f_equal; symmetry; unfold int_range in Hr; simpl in *;
      rewrite ?in_s_spec, ?in_u_spec in Hr; first [apply wraps_id|apply wrapu_id]; lia.
  - intros [Hr ->]. pose proof (inject_in_range t (denote v)) as Hi.
    unfold is_int in Hi. rewrite Hs in Hi. specialize (Hi eq_refl). revert Hi.
    generalize (denote v) as z. intros z. clear Hr.
    destruct t; simplify_eq/=; unfold inject, int_range; simpl; unfold in_s, in_u;
      rewrite ?Z.shiftl_1_l; intros; apply andb_true_iff; split; try done; try lia.
    all: apply andb_true_iff; split; [lia|]; apply Z.ltb_lt;
      eapply Z.lt_le_trans; [apply Z.ltb_lt; lia|];
      apply Z.pow_le_mono_r; lia.
Qed.

Lemma has_type_not_float t v : is_int t = true → has_type t v = true → not_float v = true.
Proof. intros Ht [_ ->]%has_type_int; [|done]. unfold inject. by destruct (shape t) as [[? []]|]. Qed.

Lemma has_type_inject t z : is_int t = true → has_type t (inject t z) = true.
Proof.
  intros Ht. apply has_type_int; [done|]. split; [by apply inject_in_range|].
  destruct (is_int_shape t Ht) as (bits & s & Hs). pose proof (shape_bits _ _ _ Hs).
  unfold inject, wrap. rewrite Hs. destruct s; simpl; f_equal; symmetry.
  - apply wraps_id; [lia|]. by apply wraps_range; lia.
  - apply wrapu_id, wrapu_range; lia.
Qed.

(** ** The operations compute exact results, wrapped *)

Lemma raw_has_type {E} t bits s v :
  shape t = Some (bits, s) → has_type t v = true →
  @raw E v bits = Ok (wrapu bits (denote v)).
Proof.
  intros Hs Hv. apply raw_eq; [|by eapply shape_bits].
  apply (has_type_not_float t); [|done]. unfold is_int. by rewrite Hs.
Qed.

Lemma shape_is_int t bits s : shape t = Some (bits, s) → is_int t = true.
Proof. unfold is_int. by intros ->. Qed.

(** Residues of the exact results. *)
Lemma wrapu_add_congr bits x y : 0 ≤ bits → (2 ^ bits | wrapu bits x + wrapu bits y - (x + y)).
Proof.
  intros. replace (_ + _ - (x + y)) with ((wrapu bits x - x) + (wrapu bits y - y)) by lia.
  apply Z.divide_add_r; by apply wrapu_congr.
Qed.
Lemma wrapu_sub_congr bits x y : 0 ≤ bits → (2 ^ bits | wrapu bits x - wrapu bits y - (x - y)).
Proof.
  intros. replace (_ - _ - (x - y)) with ((wrapu bits x - x) - (wrapu bits y - y)) by lia.
  apply Z.divide_sub_r; by apply wrapu_congr.
Qed.
Lemma wrapu_mul_congr bits x y : 0 ≤ bits → (2 ^ bits | wrapu bits x * wrapu bits y - x * y).
Proof.
  intros. replace (_ * _ - x * y)
    with (wrapu bits x * (wrapu bits y - y) + (wrapu bits x - x) * y) by lia.
  apply Z.divide_add_r; [apply Z.divide_mul_r|apply Z.divide_mul_l]; by apply wrapu_congr.
Qed.
Lemma wraps_add_congr bits x y : 0 < bits → (2 ^ bits | wrapu bits x + wrapu bits y - (wraps bits x + wraps bits y)).
Proof.
  intros. rewrite <- (wrapu_wraps bits x), <- (wrapu_wraps bits y) by done.
  apply wrapu_add_congr. lia.
Qed.
Lemma wraps_sub_congr bits x y : 0 < bits → (2 ^ bits | wrapu bits x - wrapu bits y - (wraps bits x - wraps bits y)).
Proof.
  intros. rewrite <- (wrapu_wraps bits x), <- (wrapu_wraps bits y) by done.
  apply wrapu_sub_congr. lia.
Qed.
Lemma wraps_mul_congr bits x y : 0 < bits → (2 ^ bits | wrapu bits x * wrapu bits y - wraps bits x * wraps bits y).
Proof.
  intros. rewrite <- (wrapu_wraps bits x), <- (wrapu_wraps bits y) by done.
  apply wrapu_mul_congr. lia.
Qed.

(** [a << count] on 128 bits, seen at the width of the type. *)
Lemma shl_congr bits x c :
  0 < bits ≤ 128 → 0 ≤ c → (2 ^ bits | wrapu 128 (Z.shiftl (wrapu bits x) c) - x * 2 ^ c).
Proof.
  intros. rewrite Z.shiftl_mul_pow2 by done.
  replace (_ - x * 2 ^ c) with
    ((wrapu 128 (wrapu bits x * 2 ^ c) - wrapu bits x * 2 ^ c) + (wrapu bits x - x) * 2 ^ c) by lia.
  apply Z.divide_add_r.
  - etrans; [by apply (pow2_divide bits 128); lia|]. apply wrapu_congr. lia.
  - apply Z.divide_mul_l, wrapu_congr. lia.
Qed.

(** The interpreter's integer operators agree with exact arithmetic: for
    operands of an integer type, every operator computes its mathematical result
    wrapped into the type, and traps exactly when the divisor's pattern is zero. *)
Lemma bin_exact t bits s op l r :
  shape t = Some (bits, s) → has_type t l = true → has_type t r = true →
  bin op t l r = inject t <$> int_semantics op bits (denote l) (denote r).
Proof.
  intros Hs Hl Hr. pose proof (shape_bits _ _ _ Hs) as Hb.
  unfold bin. rewrite Hs. simpl. erewrite !raw_has_type by done. simpl.
  set (x := denote l). set (y := denote r).
  pose proof (Z.mod_pos_bound (wrapu bits y) bits ltac:(lia)).
  assert (∀ z, @pack TrapReason.t t z = Ok (inject t z)) as Hp
    by (intros; apply pack_eq; by eapply shape_is_int).
  destruct op; simpl; try done; rewrite ?signed_wrapu by lia;
    try (destruct (wrapu bits y =? 0); [done|]); simpl; rewrite Hp; f_equal;
    rewrite ?(inject_wrapu t bits s 128), ?(inject_wraps t bits s 128) by (done || lia); try done.
  - eapply inject_congr; [done|]. apply wrapu_add_congr. lia.
  - eapply inject_congr; [done|]. apply wrapu_sub_congr. lia.
  - eapply inject_congr; [done|]. apply wrapu_mul_congr. lia.
  - rewrite wrapu_land by lia. by eapply inject_wrapu.
  - rewrite wrapu_lor by lia. by eapply inject_wrapu.
  - rewrite wrapu_lxor by lia. by eapply inject_wrapu.
  - eapply inject_congr; [done|].
    rewrite Z.shiftl_mul_pow2 by lia.
    replace (_ - _) with ((wrapu bits x - x) * 2 ^ (wrapu bits y mod bits)) by lia.
    apply Z.divide_mul_l, wrapu_congr. lia.
  - by rewrite Z.shiftr_div_pow2 by lia.
  - by rewrite Z.shiftr_div_pow2 by lia.
Qed.

Lemma checked_exact t bits s op l r :
  shape t = Some (bits, s) → has_type t l = true → has_type t r = true →
  let '(exact, overflow) := checked_semantics op bits (denote l) (denote r) in
  checked op t l r = Ok (inject t exact, overflow).
Proof.
  intros Hs Hl Hr. pose proof (shape_bits _ _ _ Hs) as Hb.
  unfold checked, checked_semantics. rewrite Hs. simpl.
  erewrite !raw_has_type by done. simpl. rewrite !signed_wrapu by lia.
  set (x := denote l). set (y := denote r).
  pose proof (wrapu_range bits x ltac:(lia)). pose proof (wrapu_range bits y ltac:(lia)).
  pose proof (wraps_range bits x ltac:(lia)). pose proof (wraps_range bits y ltac:(lia)).
  assert (2 ^ bits ≤ 2 ^ 128) by (apply Z.pow_le_mono_r; lia).
  pose proof (pow2_half bits ltac:(lia)).
  assert (∀ z, @pack TrapReason.t t z = Ok (inject t z)) as Hp
    by (intros; apply pack_eq; by eapply shape_is_int).
  assert (∀ e, is_none_or (checked_s 128 e) (λ v, (bits <? 128) &&
    ((v <? - Z.shiftl 1 (bits - 1)) || (Z.shiftl 1 (bits - 1) <=? v))) = negb (in_s bits e)) as Hso.
  { intros e. rewrite Z.shiftl_1_l. unfold checked_s.
    destruct (in_s 128 e) eqn:He; simpl.
    - unfold in_s in *. destruct (Z.ltb_spec bits 128); simpl; [lia|].
      replace bits with 128 by lia. lia.
    - assert (2 ^ (bits - 1) ≤ 2 ^ 127) by (apply Z.pow_le_mono_r; lia).
      unfold in_s in *. lia. }
  destruct op; simpl; rewrite Hp; simpl; do 2 f_equal; rewrite ?mask_eq by lia;
    rewrite ?(inject_wrapu t bits s 128) by (done || lia); rewrite ?Hso; try done.
  all: try (eapply inject_congr; [done|];
    first [apply wraps_add_congr|apply wraps_sub_congr|apply wraps_mul_congr]; lia).
  - unfold in_u. destruct (Z.le_gt_cases (2 ^ 128) (wrapu bits x + wrapu bits y)).
    + lia.
    + rewrite (wrapu_id 128) by lia. lia.
  - unfold in_u. lia.
  - unfold checked_u. unfold in_u. destruct (_ && _) eqn:?; simpl; lia.
Qed.

(** Comparisons decide the order of the unsigned or the signed patterns. *)
Definition compare_semantics (pred : ICmpPred.t) (bits x y : Z) : bool :=
  let ux := wrapu bits x in let uy := wrapu bits y in
  let sx := wraps bits x in let sy := wraps bits y in
  match pred with
  | ICmpPred.Eq => ux =? uy
  | ICmpPred.Ne => negb (ux =? uy)
  | ICmpPred.Ult => ux <? uy
  | ICmpPred.Ule => ux <=? uy
  | ICmpPred.Ugt => uy <? ux
  | ICmpPred.Uge => uy <=? ux
  | ICmpPred.Slt => sx <? sy
  | ICmpPred.Sle => sx <=? sy
  | ICmpPred.Sgt => sy <? sx
  | ICmpPred.Sge => sy <=? sx
  end.

Lemma compare_exact t bits s pred l r :
  shape t = Some (bits, s) → has_type t l = true → has_type t r = true →
  compare pred t l r = Ok (compare_semantics pred bits (denote l) (denote r)).
Proof.
  intros Hs Hl Hr. pose proof (shape_bits _ _ _ Hs).
  unfold compare. rewrite Hs. simpl. erewrite !raw_has_type by done. simpl.
  by rewrite !signed_wrapu by lia.
Qed.

(** For operands of the type itself the patterns are the values: equality is
    equality, and the order of the type's own signedness is the order of values. *)
Lemma wrap_denote t bits (s : bool) v :
  shape t = Some (bits, s) → has_type t v = true →
  (if s then wraps bits (denote v) else wrapu bits (denote v)) = denote v.
Proof.
  intros Hs [Hr _]%has_type_int; [|by eapply shape_is_int].
  pose proof (shape_bits _ _ _ Hs). unfold int_range in Hr. rewrite Hs in Hr.
  destruct s; [apply wraps_id|apply wrapu_id]; rewrite ?in_s_spec, ?in_u_spec in Hr; lia.
Qed.

Lemma wrapu_denote_inj t bits s l r :
  shape t = Some (bits, s) → has_type t l = true → has_type t r = true →
  wrapu bits (denote l) = wrapu bits (denote r) → denote l = denote r.
Proof.
  intros Hs Hl Hr Heq. pose proof (shape_bits _ _ _ Hs).
  pose proof (wrap_denote _ _ _ _ Hs Hl) as El. pose proof (wrap_denote _ _ _ _ Hs Hr) as Er.
  destruct s; [|congruence]. rewrite <- El, <- Er.
  rewrite <- (wraps_wrapu bits (denote l)), <- (wraps_wrapu bits (denote r)) by lia. congruence.
Qed.

Lemma cast_exact op src dst sbits ss v :
  shape src = Some (sbits, ss) → is_int dst = true → has_type src v = true →
  cast op src dst v = Ok (inject dst
    (if decide (op = CastOp.SExt) then wraps sbits (denote v) else wrapu sbits (denote v))).
Proof.
  intros Hs Hd Hv. destruct (is_int_shape _ Hd) as (db & ds & Hds).
  pose proof (shape_bits _ _ _ Hs). pose proof (shape_bits _ _ _ Hds).
  unfold cast. rewrite Hs. simpl. erewrite raw_has_type by done. simpl.
  destruct (decide _); rewrite pack_eq by done; f_equal.
  rewrite signed_wrapu by lia. eapply inject_wrapu; [done|lia].
Qed.

(** A checked conversion preserves the value or traps, exactly when the value does
    not fit the destination. *)
Lemma checked_cast_exact src dst v :
  is_int src = true → is_int dst = true → has_type src v = true →
  checked_cast src dst v =
    if int_range dst (denote v) then Ok (inject dst (denote v))
    else Err TrapReason.InvalidConversion.
Proof.
  intros Hsi Hdi Hv. destruct (is_int_shape _ Hsi) as (sb & ss & Hs).
  destruct (is_int_shape _ Hdi) as (db & ds & Hd).
  pose proof (shape_bits _ _ _ Hs). pose proof (shape_bits _ _ _ Hd).
  unfold checked_cast. rewrite Hs, Hd. simpl. erewrite raw_has_type by done. simpl.
  rewrite signed_wrapu by lia.
  pose proof (wrap_denote _ _ _ _ Hs Hv) as Hden.
  pose proof (wrapu_range sb (denote v) ltac:(lia)).
  pose proof (wraps_range sb (denote v) ltac:(lia)).
  pose proof (pow2_half db ltac:(lia)). pose proof (pow2_pos (db - 1) ltac:(lia)).
  rewrite mask_eq, Z.shiftl_1_l, pack_eq by (done || lia).
  unfold int_range. rewrite Hd.
  set (x := denote v) in *.
  assert (ss && (wraps sb x <? 0) = (x <? 0)) as ->.
  { destruct ss; simpl; [by rewrite Hden|]. lia. }
  destruct (Z.ltb_spec x 0) as [Hneg|Hpos]; simpl.
  - destruct ss; [|lia]. rewrite Hden. rewrite Z.abs_neq by lia.
    assert (inject dst (wrapu 128 (0 - - x)) = inject dst x) as ->.
    { replace (0 - - x) with x by lia. eapply inject_wrapu; [done|lia]. }
    destruct ds; simpl.
    + destruct (in_s db x) eqn:Hr; unfold in_s in Hr;
        destruct (Z.ltb_spec (2 ^ (db - 1) - 0) (- x)); done || lia.
    + destruct (in_u db x) eqn:Hr; unfold in_u in Hr; done || lia.
  - assert (wrapu sb x = x) as ->.
    { destruct ss; [|done]. rewrite <- Hden at 1. rewrite wrapu_wraps by lia.
      apply wrapu_id. pose proof (pow2_half sb ltac:(lia)). lia. }
    destruct ds; simpl.
    + destruct (in_s db x) eqn:Hr; unfold in_s in Hr;
        destruct (Z.ltb_spec (2 ^ (db - 1) - 1) x); done || lia.
    + destruct (in_u db x) eqn:Hr; unfold in_u in Hr;
        destruct (Z.ltb_spec (2 ^ db - 1) x); done || lia.
Qed.

(** ** Properties *)

Definition int_binop (op : BinOp.t) : bool :=
  match op with
  | BinOp.FAdd | BinOp.FSub | BinOp.FMul | BinOp.FDiv | BinOp.FRem => false
  | _ => true
  end.

Lemma int_semantics_not_Panic op bits x y :
  int_binop op = true → int_semantics op bits x y ≠ Panic.
Proof. destruct op; simpl; try done; by case_match. Qed.

(** C27: on operands of an integer type, the interpreter's binary operator is total
    (never panics), traps exactly when the divisor is zero, and otherwise yields a
    constant of the type that denotes the exact result wrapped to the width. *)
Theorem bin_correct (t : ty) (bits : Z) (s : bool) (op : BinOp.t) (l r : const_value) :
  shape t = Some (bits, s) → int_binop op = true →
  has_type t l = true → has_type t r = true →
  match bin op t l r with
  | Ok v => has_type t v = true ∧
      ∃ z, int_semantics op bits (denote l) (denote r) = Ok z ∧ v = inject t z
  | Err e => denote r = 0 ∧
      e = (if decide (op = BinOp.UDiv ∨ op = BinOp.SDiv) then TrapReason.DivisionByZero
           else TrapReason.RemainderByZero) ∧
      (op = BinOp.UDiv ∨ op = BinOp.SDiv ∨ op = BinOp.URem ∨ op = BinOp.SRem)
  | Panic => False
  end.
Proof.
  intros Hs Hop Hl Hr. erewrite bin_exact by done.
  pose proof (int_semantics_not_Panic op bits (denote l) (denote r) Hop) as Hnp.
  pose proof (shape_is_int _ _ _ Hs) as Hi. pose proof (shape_bits _ _ _ Hs).
  destruct (int_semantics _ _ _ _) as [z|e|] eqn:Hsem; simpl; [|clear Hnp|done].
  - split; [by apply has_type_inject|eauto].
  - assert (wrapu bits (denote r) = 0) as Hz.
    { destruct op; simplify_eq/=; destruct (Z.eqb_spec (wrapu bits (denote r)) 0); done. }
    assert (denote r = 0) as ->.
    { rewrite <- (denote_inject t 0).
      - eapply (wrapu_denote_inj t); [done..|by apply has_type_inject|].
        rewrite Hz. rewrite denote_inject; [done|]. unfold int_range. rewrite Hs.
        pose proof (pow2_pos (bits - 1)). destruct s; [apply in_s_spec|apply in_u_spec];
          pose proof (pow2_pos bits); lia.
      - unfold int_range. rewrite Hs. pose proof (pow2_pos (bits - 1)).
        destruct s; [apply in_s_spec|apply in_u_spec]; pose proof (pow2_pos bits); lia. }
    split; [done|].
    destruct op; simplify_eq/=; rewrite Hz in Hsem; simplify_eq/=;
      (split; [reflexivity|naive_solver]).
Qed.

Lemma bin_correct_witness :
  bin BinOp.SDiv Ty.I8 (ConstValue.I (-128)) (ConstValue.I (-1)) = Ok (ConstValue.I (-128)) ∧
  match bin BinOp.SDiv Ty.I8 (ConstValue.I (-128)) (ConstValue.I (-1)) with
  | Ok v => has_type Ty.I8 v = true ∧
      ∃ z, int_semantics BinOp.SDiv 8 (-128) (-1) = Ok z ∧ v = inject Ty.I8 z
  | Err e => -1 = 0 ∧ e = TrapReason.DivisionByZero ∧ (BinOp.SDiv = BinOp.UDiv ∨
      BinOp.SDiv = BinOp.SDiv ∨ BinOp.SDiv = BinOp.URem ∨ BinOp.SDiv = BinOp.SRem)
  | Panic => False
  end.
Proof.
  split; [vm_compute; reflexivity|].
  apply (bin_correct Ty.I8 8 true BinOp.SDiv (ConstValue.I (-128)) (ConstValue.I (-1)));
    vm_compute; reflexivity.
Defined.

(** C35: checked arithmetic returns the wrapped result of the exact operation, and
    its flag is set exactly when the exact result lies outside the type, for the operators of
    the type's own signedness on the denoted values. *)
Theorem checked_correct (t : ty) (bits : Z) (s : bool) (op : CheckedOp.t) (l r : const_value) :
  shape t = Some (bits, s) →
  s = (match op with CheckedOp.UAdd | CheckedOp.USub | CheckedOp.UMul => false | _ => true end) →
  has_type t l = true → has_type t r = true →
  let exact := match op with
    | CheckedOp.UAdd | CheckedOp.SAdd => denote l + denote r
    | CheckedOp.USub | CheckedOp.SSub => denote l - denote r
    | CheckedOp.UMul | CheckedOp.SMul => denote l * denote r
    end in
  ∃ v overflow, checked op t l r = Ok (v, overflow) ∧ has_type t v = true ∧
    v = inject t exact ∧ (overflow = false ↔ int_range t exact = true) ∧
    (overflow = false → denote v = exact).
Proof.
  intros Hs Hsg Hl Hr exact. pose proof (shape_is_int _ _ _ Hs) as Hi.
  pose proof (checked_exact t bits s op l r Hs Hl Hr) as Hc.
  pose proof (wrap_denote _ _ _ _ Hs Hl) as El. pose proof (wrap_denote _ _ _ _ Hs Hr) as Er.
  assert (checked_semantics op bits (denote l) (denote r) = (exact, negb (int_range t exact))) as Hx.
  { unfold exact, int_range. rewrite Hs. destruct op; subst s; simpl; by rewrite ?El, ?Er. }
  rewrite Hx in Hc. exists (inject t exact), (negb (int_range t exact)).
  split_and!; try done; [by apply has_type_inject|rewrite negb_false_iff; done|].
  intros Hf%negb_false_iff. by apply denote_inject.
Qed.

Lemma checked_correct_witness :
  ∃ v overflow, checked CheckedOp.SMul Ty.I16 (ConstValue.I (-300)) (ConstValue.I 200)
      = Ok (v, overflow) ∧ has_type Ty.I16 v = true ∧
    v = inject Ty.I16 (-300 * 200) ∧
    (overflow = false ↔ int_range Ty.I16 (-300 * 200) = true) ∧
    (overflow = false → denote v = -300 * 200).
Proof.
  apply (checked_correct Ty.I16 16 true CheckedOp.SMul (ConstValue.I (-300)) (ConstValue.I 200));
    vm_compute; reflexivity.
Defined.

(** A checked integer conversion succeeds exactly when the source value is
    representable in the destination, and then preserves it; otherwise it traps with
    InvalidConversion. *)
Theorem checked_cast_correct (src dst : ty) (v : const_value) :
  is_int src = true → is_int dst = true → has_type src v = true →
  match checked_cast src dst v with
  | Ok v' => int_range dst (denote v) = true ∧ has_type dst v' = true ∧ denote v' = denote v
  | Err e => int_range dst (denote v) = false ∧ e = TrapReason.InvalidConversion
  | Panic => False
  end.
Proof.
  intros Hs Hd Hv. rewrite checked_cast_exact by done.
  destruct (int_range dst (denote v)) eqn:Hr; [|done].
  split; [done|]. split; [by apply has_type_inject|by apply denote_inject].
Qed.

Lemma checked_cast_correct_witness :
  match checked_cast Ty.I128 Ty.I8 (ConstValue.I (-128)) with
  | Ok v' => int_range Ty.I8 (-128) = true ∧ has_type Ty.I8 v' = true ∧ denote v' = -128
  | Err e => int_range Ty.I8 (-128) = false ∧ e = TrapReason.InvalidConversion
  | Panic => False
  end.
Proof.
  apply (checked_cast_correct Ty.I128 Ty.I8 (ConstValue.I (-128))); vm_compute; reflexivity.
Defined.

(** Comparisons of operands of one integer type decide equality of the denoted
    values, and the ordered predicates of the type's own signedness decide their order. *)
Theorem compare_correct (t : ty) (bits : Z) (s : bool) (l r : const_value) :
  shape t = Some (bits, s) → has_type t l = true → has_type t r = true →
  compare ICmpPred.Eq t l r = Ok (bool_decide (l = r)) ∧
  compare ICmpPred.Ne t l r = Ok (bool_decide (l ≠ r)) ∧
  compare (if s then ICmpPred.Slt else ICmpPred.Ult) t l r = Ok (denote l <? denote r) ∧
  compare (if s then ICmpPred.Sle else ICmpPred.Ule) t l r = Ok (denote l <=? denote r) ∧
  compare (if s then ICmpPred.Sgt else ICmpPred.Ugt) t l r = Ok (denote r <? denote l) ∧
  compare (if s then ICmpPred.Sge else ICmpPred.Uge) t l r = Ok (denote r <=? denote l).
Proof.
  intros Hs Hl Hr. pose proof (shape_is_int _ _ _ Hs) as Hi.
  pose proof (wrap_denote _ _ _ _ Hs Hl) as El. pose proof (wrap_denote _ _ _ _ Hs Hr) as Er.
  assert ((wrapu bits (denote l) =? wrapu bits (denote r)) = bool_decide (l = r)) as Heq.
  { apply Bool.eq_true_iff_eq. rewrite Z.eqb_eq, bool_decide_eq_true. split; [|by intros ->].
    intros Hw. pose proof (wrapu_denote_inj _ _ _ _ _ Hs Hl Hr Hw) as Hd.
    apply has_type_int in Hl as [_ ->], Hr as [_ ->]; [|done..]. by rewrite Hd. }
  split_and!; erewrite compare_exact by done; simpl; f_equal.
  - done.
  - rewrite Heq. by rewrite bool_decide_not.
  - destruct s; simpl; by rewrite El, Er.
  - destruct s; simpl; by rewrite El, Er.
  - destruct s; simpl; by rewrite El, Er.
  - destruct s; simpl; by rewrite El, Er.
Qed.

Lemma compare_correct_witness :
  compare ICmpPred.Slt Ty.I32 (ConstValue.I (-5)) (ConstValue.I 3) = Ok true ∧
  compare ICmpPred.Slt Ty.I32 (ConstValue.I (-5)) (ConstValue.I 3) = Ok (-5 <? 3).
Proof.
  split; [vm_compute; reflexivity|].
  apply (compare_correct Ty.I32 32 true (ConstValue.I (-5)) (ConstValue.I 3));
    vm_compute; reflexivity.
Defined.
