(* ===== verification/Float.v ===== *)
(** * Software floating point ([float.rs], [float/arithmetic.rs],
      [float/conversions.rs], [interpreter/scalar.rs])

    IEEE binary16, binary32 and binary64 on their storage bits.  The first part
    transcribes the code.  The [i32] exponents stay within a few thousand and the
    [u128] significands below [2^128], so their sums, differences and products are
    written on [Z]; the theorem [significands_fit] proves the bounds.  A left shift
    that drops bits ([<<] on [u128]) is wrapped.

    The second part gives the meaning of the code: a finite value is
    [± sig * 2^exp], the packer is the nearest-even rounding of an arbitrary such
    number, and each operation rounds the exact mathematical result once. *)
From Stdlib Require Import Ascii Zpow_facts.
From S2P Require Export Integer.
Local Open Scope Z_scope.

(** ** The code *)

(** *** [float.rs] *)

Definition width (f : FloatBits) : Z :=
  match f with F16Bits _ => 16 | F32Bits _ => 32 | F64Bits _ => 64 end.
Definition bits (f : FloatBits) : Z :=
  match f with F16Bits x | F32Bits x | F64Bits x => x end.

(** [FloatBits::compare]: the [order] of the operands, and the whole method. *)
Definition float_order (sign a b : Z) : comparison :=
  let magnitude := sign - 1 in
  if (Z.land a magnitude =? 0) && (Z.land b magnitude =? 0) then Eq
  else if negb (Z.land (Z.lxor a b) sign =? 0) then
    if negb (Z.land a sign =? 0) then Lt else Gt
  else if negb (Z.land a sign =? 0) then Z.compare b a
  else Z.compare a b.

Definition float_compare (self rhs : FloatBits) (predicate : FCmpPred.t) : option bool :=
  if negb (width self =? width rhs) then None else
  let '(exponent, fraction) :=
    match self with
    | F16Bits _ => (0x7c00, 0x03ff)
    | F32Bits _ => (0x7f800000, 0x007fffff)
    | F64Bits _ => (0x7ff0000000000000, 0x000fffffffffffff)
    end in
  let a := bits self in
  let b := bits rhs in
  let nan bits :=
    (Z.land bits exponent =? exponent) && negb (Z.land bits fraction =? 0) in
  let ordered := negb (nan a) && negb (nan b) in
  let sign := Z.shiftl 1 (width self - 1) in
  let order := float_order sign a b in
  let equal := match order with Eq => true | _ => false end in
  let less := match order with Lt => true | _ => false end in
  let greater := match order with Gt => true | _ => false end in
  Some match predicate with
       | FCmpPred.Oeq => ordered && equal
       | FCmpPred.One => ordered && negb equal
       | FCmpPred.Olt => ordered && less
       | FCmpPred.Ole => ordered && negb greater
       | FCmpPred.Ogt => ordered && greater
       | FCmpPred.Oge => ordered && negb less
       | FCmpPred.Ord => ordered
       | FCmpPred.Uno => negb ordered
       | FCmpPred.Ueq => negb ordered || equal
       | FCmpPred.Une => negb ordered || negb equal
       | FCmpPred.Ult => negb ordered || less
       | FCmpPred.Ule => negb ordered || negb greater
       | FCmpPred.Ugt => negb ordered || greater
       | FCmpPred.Uge => negb ordered || negb less
       end.

(** [f64_to_f16], on the bits of the binary64 argument. *)
Definition f64_to_f16 (bits : Z) : Z :=
  let sign := Z.land (Z.shiftr bits 48) 0x8000 in
  let exp := Z.land (Z.shiftr bits 52) 0x7ff in
  let fraction := Z.land bits (Z.shiftl 1 52 - 1) in
  if exp =? 0x7ff then Z.lor sign (if fraction =? 0 then 0x7c00 else 0x7e00)
  else if exp =? 0 then sign else
  let unbiased := exp - 1023 in
  if 15 <? unbiased then Z.lor sign 0x7c00
  else if unbiased <? -25 then sign else
  let mantissa := Z.lor fraction (Z.shiftl 1 52) in
  let shift := if unbiased <? -14 then 28 - unbiased else 42 in
  let base := Z.shiftr mantissa shift in
  let remainder := Z.land mantissa (Z.shiftl 1 shift - 1) in
  let halfway := Z.shiftl 1 (shift - 1) in
  let rounded := base + Z.b2z ((halfway <? remainder)
                               || ((remainder =? halfway) && negb (Z.land base 1 =? 0))) in
  if unbiased <? -14 then Z.lor sign (wrapu 16 rounded)
  else Z.lor sign (wrapu 16 (Z.shiftl (unbiased + 14) 10) + wrapu 16 rounded).

(** *** [float/arithmetic.rs] *)

Record Format := mkFormat { f_width : Z; f_fraction : Z; f_bias : Z }.

Definition format_of (value : FloatBits) : Format :=
  match value with
  | F16Bits _ => mkFormat 16 10 15
  | F32Bits _ => mkFormat 32 23 127
  | F64Bits _ => mkFormat 64 52 1023
  end.

Definition f_sign (f : Format) : Z := Z.shiftl 1 (f_width f - 1).
Definition f_infinity (f : Format) : Z := wrapu 64 (Z.shiftl (f_bias f * 2 + 1) (f_fraction f)).
Definition f_bits (f : Format) (raw : Z) : FloatBits :=
  if f_width f =? 16 then F16Bits (wrapu 16 raw)
  else if f_width f =? 32 then F32Bits (wrapu 32 raw)
  else F64Bits raw.
Definition f_nan (f : Format) : FloatBits :=
  f_bits f (Z.lor (f_infinity f) (Z.shiftl 1 (f_fraction f - 1))).
Definition f_special (f : Format) (negative infinity : bool) : FloatBits :=
  f_bits f (Z.lor (if negative then f_sign f else 0) (if infinity then f_infinity f else 0)).

Record Parts := mkParts {
  negative : bool;
  sig : Z;
  exp : Z;
  nan : bool;
  infinity : bool;
}.

Definition set_negative (v : bool) (p : Parts) : Parts :=
  mkParts v (sig p) (exp p) (nan p) (infinity p).

Definition unpack (f : Format) (value : FloatBits) : Parts :=
  let bits := bits value in
  let e := Z.shiftr (Z.land bits (notu 64 (f_sign f))) (f_fraction f) in
  let fraction := Z.land bits (Z.shiftl 1 (f_fraction f) - 1) in
  let special := e =? 2 * f_bias f + 1 in
  mkParts
    (negb (Z.land bits (f_sign f) =? 0))
    (if (e =? 0) || special then fraction else Z.lor fraction (Z.shiftl 1 (f_fraction f)))
    (Z.max e 1 - f_bias f - f_fraction f)
    (special && negb (fraction =? 0))
    (special && (fraction =? 0)).

(** [round]. *)
Definition round_shift (value shift : Z) : Z :=
  if 128 <? shift then 0
  else if shift =? 128 then Z.b2z (Z.shiftl 1 127 <? value)
  else
    let q := Z.shiftr value shift in
    let remainder := Z.land value (Z.shiftl 1 shift - 1) in
    let halfway := Z.shiftl 1 (shift - 1) in
    q + Z.b2z ((halfway <? remainder) || ((remainder =? halfway) && negb (Z.land q 1 =? 0))).

Definition f_pack (f : Format) (negative : bool) (sig exp : Z) : FloatBits :=
  if sig =? 0 then f_special f negative false else
  let highest := 127 - leading_zeros 128 sig in
  let target := Z.max (exp + highest - f_fraction f) (1 - f_bias f - f_fraction f) in
  let shift := target - exp in
  let rounded :=
    if 0 <? shift then round_shift sig shift else wrapu 128 (Z.shiftl sig (- shift)) in
  let '(rounded, target) :=
    if Z.shiftl 1 (f_fraction f + 1) <=? rounded then (Z.shiftr rounded 1, target + 1)
    else (rounded, target) in
  if rounded =? 0 then f_special f negative false else
  let exponent :=
    if rounded <? Z.shiftl 1 (f_fraction f) then 0 else target + f_fraction f + f_bias f in
  if 2 * f_bias f <? exponent then f_special f negative true else
  f_bits f
    (Z.lor (Z.lor (if negative then f_sign f else 0)
                  (wrapu 64 (Z.shiftl exponent (f_fraction f))))
           (Z.land (wrapu 64 rounded) (Z.shiftl 1 (f_fraction f) - 1))).

Definition normalize (f : Format) (p : Parts) : Parts :=
  if negb (sig p =? 0) then
    let shift := leading_zeros 128 (sig p) - (127 - f_fraction f) in
    mkParts (negative p) (wrapu 128 (Z.shiftl (sig p) shift)) (exp p - shift) (nan p) (infinity p)
  else p.

Definition jam (value shift : Z) : Z :=
  if shift =? 0 then value
  else if 128 <=? shift then Z.b2z (negb (value =? 0))
  else Z.lor (Z.shiftr value shift) (Z.b2z (negb (Z.land value (Z.shiftl 1 shift - 1) =? 0))).

Definition negate (value : FloatBits) : FloatBits :=
  let f := format_of value in
  f_bits f (Z.lxor (bits value) (f_sign f)).

(** The [while shift != 0] loop of [FRem]; [shift] is a [u32] that each iteration
    halves, so 32 iterations suffice. *)
Fixpoint frem_loop (fuel : nat) (r power shift m : Z) : Z :=
  match fuel with
  | O => r
  | S fuel =>
      if shift =? 0 then r else
      let r := if negb (Z.land shift 1 =? 0) then (r * power) mod m else r in
      frem_loop fuel r ((power * power) mod m) (Z.shiftr shift 1) m
  end.

(** The lexicographic test that orders the operands of an addition. *)
Definition below (a b : Parts) : bool :=
  (exp a <? exp b) || ((exp a =? exp b) && (sig a <? sig b)).

(** [FAdd] and [FSub] of two finite nonzero operands, already ordered. *)
Definition add_ordered (f : Format) (a b : Parts) : FloatBits :=
  let av := wrapu 128 (Z.shiftl (sig a) 3) in
  let bv := jam (wrapu 128 (Z.shiftl (sig b) 3)) (exp a - exp b) in
  if eqb (negative a) (negative b) then f_pack f (negative a) (av + bv) (exp a - 3)
  else f_pack f (negative a && negb (av =? bv)) (av - bv) (exp a - 3).

Definition add_parts (f : Format) (a b : Parts) : FloatBits :=
  if infinity a || infinity b then
    if infinity a && infinity b && xorb (negative a) (negative b) then f_nan f
    else f_special f (if infinity a then negative a else negative b) true
  else if (sig a =? 0) && (sig b =? 0) then f_special f (negative a && negative b) false
  else if sig a =? 0 then f_pack f (negative b) (sig b) (exp b)
  else if sig b =? 0 then f_pack f (negative a) (sig a) (exp a)
  else if below a b then add_ordered f b a else add_ordered f a b.

Definition mul_parts (f : Format) (a b : Parts) : FloatBits :=
  let negative := xorb (negative a) (negative b) in
  if (infinity a && (sig b =? 0) && negb (infinity b))
     || (infinity b && (sig a =? 0) && negb (infinity a)) then f_nan f
  else if infinity a || infinity b then f_special f negative true
  else f_pack f negative (sig a * sig b) (exp a + exp b).

Definition div_parts (f : Format) (a b : Parts) : FloatBits :=
  let negative := xorb (negative a) (negative b) in
  if (infinity a && infinity b)
     || (negb (infinity a) && negb (infinity b) && (sig a =? 0) && (sig b =? 0)) then f_nan f
  else if infinity a || ((sig b =? 0) && negb (infinity b)) then f_special f negative true
  else if infinity b || (sig a =? 0) then f_special f negative false
  else
    let shift := f_fraction f + 4 in
    let numerator := wrapu 128 (Z.shiftl (sig a) shift) in
    let q := Z.lor (numerator / sig b) (Z.b2z (negb (numerator mod sig b =? 0))) in
    f_pack f negative q (exp a - exp b - shift).

Definition rem_parts (f : Format) (lhs : FloatBits) (a b : Parts) : FloatBits :=
  if infinity a || ((sig b =? 0) && negb (infinity b)) then f_nan f
  else if infinity b || (sig a =? 0) || (exp a <? exp b) then lhs
  else
    let r := frem_loop 32 (sig a mod sig b) (2 mod sig b) (exp a - exp b) (sig b) in
    f_pack f (negative a) r (exp b).

Definition arithmetic (op : BinOp.t) (lhs rhs : FloatBits) : option FloatBits :=
  if negb (width lhs =? width rhs) then None else
  let f := format_of lhs in
  let a := unpack f lhs in
  let b := unpack f rhs in
  if nan a || nan b then Some (f_nan f) else
  let b :=
    if decide (op = BinOp.FSub) then set_negative (negb (negative b)) b else b in
  let a := normalize f a in
  let b := normalize f b in
  match op with
  | BinOp.FAdd | BinOp.FSub => Some (add_parts f a b)
  | BinOp.FMul => Some (mul_parts f a b)
  | BinOp.FDiv => Some (div_parts f a b)
  | BinOp.FRem => Some (rem_parts f lhs a b)
  | _ => None
  end.

(** *** [float/conversions.rs] *)

Section with_error.
Context {E : Type}.

Definition format (t : ty) : result E Format :=
  match t with
  | Ty.F16 => Ok (format_of (F16Bits 0))
  | Ty.F32 => Ok (format_of (F32Bits 0))
  | Ty.F64 => Ok (format_of (F64Bits 0))
  | _ => Panic
  end.

(** [FToI_S] and [FToI_U]: the magnitude of a finite value truncated to an integer,
    unless it does not fit in a [u128]. *)
Definition trunc_magnitude (p : Parts) : option Z :=
  if sig p =? 0 then Some 0
  else if 0 <=? exp p then
    if (128 <=? exp p) || (Z.shiftr (umax 128) (exp p) <? sig p) then None
    else Some (wrapu 128 (Z.shiftl (sig p) (exp p)))
  else Some (if - exp p <? 128 then Z.shiftr (sig p) (- exp p) else 0).

Definition convert (op : CastOp.t) (src dst : ty) (value : const_value)
    : result E (option const_value) :=
  match op with
  | CastOp.FExt | CastOp.FTrunc =>
      match value with
      | ConstValue.F value =>
          let parts := unpack (format_of value) value in
          f ← format dst;
          Ok (Some (ConstValue.F
            (if nan parts then f_nan f
             else if infinity parts then f_special f (negative parts) true
             else f_pack f (negative parts) (sig parts) (exp parts))))
      | _ => Panic
      end
  | CastOp.IToF_S | CastOp.IToF_U =>
      '(bits, signed) ← expect (shape src);
      raw ← raw value bits;
      let negative := (signed : bool) && negb (Z.land raw (Z.shiftl 1 (bits - 1)) =? 0) in
      let magnitude := if negative : bool then wrapu 128 (0 - raw) else raw in
      let magnitude :=
        if bits <? 128 then Z.land magnitude (Z.shiftl 1 bits - 1) else magnitude in
      f ← format dst;
      Ok (Some (ConstValue.F (f_pack f negative magnitude 0)))
  | CastOp.FToI_S | CastOp.FToI_U =>
      match value with
      | ConstValue.F value =>
          let p := unpack (format_of value) value in
          if nan p || infinity p then Ok None else
          match trunc_magnitude p with
          | None => Ok None
          | Some magnitude =>
              '(bits, signed) ← expect (shape dst);
              let maximum :=
                if signed : bool then Z.shiftl 1 (bits - 1) - Z.b2z (negb (negative p))
                else if bits =? 128 then umax 128
                else Z.shiftl 1 bits - 1 in
              if (negative p && negb signed && negb (magnitude =? 0)) || (maximum <? magnitude)
              then Ok None
              else v ← pack dst (if negative p then wrapu 128 (0 - magnitude) else magnitude);
                   Ok (Some v)
          end
      | _ => Panic
      end
  | _ => Ok None
  end.

(** *** [interpreter/scalar.rs] *)

Definition float_type (t : ty) : bool :=
  match t with Ty.F16 | Ty.F32 | Ty.F64 => true | _ => false end.

Definition scalar_raw (t : ty) (value : const_value) : result E Z :=
  match value with
  | ConstValue.F b => Ok (bits b)
  | _ => raw value (match shape t with Some s => s.1 | None => 1 end)
  end.

Definition scalar_pack (t : ty) (bits : Z) : result E const_value :=
  match t with
  | Ty.F16 => Ok (ConstValue.F (F16Bits (wrapu 16 bits)))
  | Ty.F32 => Ok (ConstValue.F (F32Bits (wrapu 32 bits)))
  | Ty.F64 => Ok (ConstValue.F (F64Bits (wrapu 64 bits)))
  | _ => pack t bits
  end.

Definition scalar_compare (predicate : FCmpPred.t) (lhs rhs : const_value) : result E bool :=
  match lhs, rhs with
  | ConstValue.F lhs, ConstValue.F rhs => expect (float_compare lhs rhs predicate)
  | _, _ => Panic
  end.
End with_error.

(** *** Hexadecimal storage text ([FloatBits::parse] and its [Display]) *)

Inductive FloatParseError := WidthError | PrefixError | DigitsError (width digits : Z) | RadixError.

Definition hex_value (c : ascii) : option Z :=
  let n := Z.of_nat (nat_of_ascii c) in
  if (48 <=? n) && (n <=? 57) then Some (n - 48)
  else if (97 <=? n) && (n <=? 102) then Some (n - 87)
  else if (65 <=? n) && (n <=? 70) then Some (n - 55)
  else None.

(** [u64::from_str_radix] on digits already checked. *)
Fixpoint from_hex (acc : Z) (s : list ascii) : option Z :=
  match s with
  | [] => Some acc
  | c :: s => d ← hex_value c; from_hex (16 * acc + d) s
  end.

Definition parse (width : Z) (text : list ascii) : result FloatParseError FloatBits :=
  digits ← (if width =? 16 then Ok 4 else if width =? 32 then Ok 8
            else if width =? 64 then Ok 16 else Err WidthError);
  match text with
  | "0"%char :: "x"%char :: hex =>
      if negb (Z.of_nat (length hex) =? digits)
         || negb (forallb (λ c, bool_decide (is_Some (hex_value c))) hex)
      then Err (DigitsError width digits)
      else
        bits ← ok_or (from_hex 0 hex) RadixError;
        Ok (if width =? 16 then F16Bits (wrapu 16 bits)
            else if width =? 32 then F32Bits (wrapu 32 bits)
            else F64Bits bits)
  | _ => Err PrefixError
  end.

Definition hex_digit (n : Z) : ascii :=
  ascii_of_nat (Z.to_nat (if n <? 10 then n + 48 else n + 87)).

(** [{:0width$x}] of a value that fits [n] digits. *)
Fixpoint to_hex (n : nat) (v : Z) : list ascii :=
  match n with
  | O => []
  | S n => to_hex n (v / 16) ++ [hex_digit (v mod 16)]
  end.
Definition display (f : FloatBits) : list ascii :=
  "0"%char :: "x"%char :: to_hex (Z.to_nat (width f / 4)) (bits f).

(** ** Formats and magnitudes *)

Definition format_ok (f : Format) : Prop := ∃ v, f = format_of v.

(** The exponent of the smallest subnormal, negated: magnitudes are counted in units
    of [2 ^ - f_scale f]. *)
Definition f_scale (f : Format) : Z := f_bias f + f_fraction f - 1.

(** The magnitude of the storage bits [b] (sign bit cleared), in those units.  The
    bits of the infinity stand for the power of two above the largest finite value. *)
Definition mag (f : Format) (b : Z) : Z :=
  if b <? 2 ^ f_fraction f then b
  else (2 ^ f_fraction f + b mod 2 ^ f_fraction f) * 2 ^ (b / 2 ^ f_fraction f - 1).

Definition is_negative (v : FloatBits) : bool := 2 ^ (width v - 1) <=? bits v.
Definition magnitude (v : FloatBits) : Z := bits v mod 2 ^ (width v - 1).
Definition float_ok (v : FloatBits) : Prop := 0 ≤ bits v < 2 ^ width v.
Definition is_nan (v : FloatBits) : bool := f_infinity (format_of v) <? magnitude v.
Definition is_infinite (v : FloatBits) : bool := f_infinity (format_of v) =? magnitude v.
Definition is_finite (v : FloatBits) : bool := magnitude v <? f_infinity (format_of v).

(** The value of a finite float, in units of [2 ^ - f_scale]. *)
Definition scaled (v : FloatBits) : Z :=
  (if is_negative v then -1 else 1) * mag (format_of v) (magnitude v).

(** The float of format [f] with a given sign and magnitude bits. *)
Definition signed_bits (f : Format) (neg : bool) (b : Z) : FloatBits :=
  f_bits f (Z.b2z neg * 2 ^ (f_width f - 1) + b).

Lemma format_facts f :
  format_ok f →
  10 ≤ f_fraction f ≤ 52 ∧ 15 ≤ f_bias f ≤ 1023 ∧
  f_fraction f + 6 ≤ f_width f ≤ 64 ∧
  2 ^ (f_width f - 1) = (2 * f_bias f + 2) * 2 ^ f_fraction f ∧
  f_infinity f = (2 * f_bias f + 1) * 2 ^ f_fraction f ∧
  f_sign f = 2 ^ (f_width f - 1).
Proof. intros [[] ->]; vm_compute; split_and!; congruence. Qed.

Lemma format_of_ok v : format_ok (format_of v).
Proof. by exists v. Qed.
Lemma width_format v : f_width (format_of v) = width v.
Proof. by destruct v. Qed.

(** Disjoint bit fields add up. *)
Lemma lor_add_low n k b : 0 ≤ n → 0 ≤ b < 2 ^ n → Z.lor (k * 2 ^ n) b = k * 2 ^ n + b.
Proof.
  intros Hn Hb. rewrite Z.add_nocarry_lxor, Z.lxor_lor; [done|..];
    apply Z.bits_inj'; intros i Hi; rewrite Z.land_spec, Z.bits_0;
    (destruct (Z.lt_ge_cases i n);
      [by rewrite Z.mul_pow2_bits_low by lia|by rewrite (testbit_high n b), andb_false_r by lia]).
Qed.

Lemma land_low n z : 0 ≤ n → Z.land z (Z.shiftl 1 n - 1) = z mod 2 ^ n.
Proof. intros. by rewrite Z.shiftl_1_l, land_mask by done. Qed.

Lemma land_notu_sign w b : 0 < w ≤ 64 → 0 ≤ b < 2 ^ w →
  Z.land b (notu 64 (2 ^ (w - 1))) = b mod 2 ^ (w - 1).
Proof.
  intros Hw Hb. apply Z.bits_inj'. intros i Hi. rewrite Z.land_spec.
  unfold notu, wrapu. destruct (Z.lt_ge_cases i (w - 1)).
  - rewrite !Z.mod_pow2_bits_low, Z.lnot_spec, Z.pow2_bits_false by lia. by rewrite andb_true_r.
  - rewrite (Z.mod_pow2_bits_high b) by lia. destruct (decide (i = w - 1)) as [->|].
    + rewrite Z.mod_pow2_bits_low, Z.lnot_spec, Z.pow2_bits_true by lia. by rewrite andb_false_r.
    + by rewrite (testbit_high w b) by lia.
Qed.

Lemma f_bits_range f v : format_ok f → 0 ≤ v < 2 ^ f_width f →
  bits (f_bits f v) = v ∧ format_of (f_bits f v) = f.
Proof.
  intros [[] ->] Hv; unfold f_bits; simpl in *; rewrite ?wrapu_id by done; done.
Qed.

Lemma signed_bits_range f neg b :
  format_ok f → 0 ≤ b < 2 ^ (f_width f - 1) →
  0 ≤ Z.b2z neg * 2 ^ (f_width f - 1) + b < 2 ^ f_width f.
Proof.
  intros Hf Hb. destruct (format_facts f Hf) as (?&?&?&_). rewrite (pow2_half (f_width f)) by lia.
  pose proof (pow2_pos (f_width f - 1) ltac:(lia)). destruct neg; simpl; lia.
Qed.

Lemma signed_bits_fields f neg b :
  format_ok f → 0 ≤ b < 2 ^ (f_width f - 1) →
  format_of (signed_bits f neg b) = f ∧ float_ok (signed_bits f neg b) ∧
  is_negative (signed_bits f neg b) = neg ∧ magnitude (signed_bits f neg b) = b.
Proof.
  intros Hf Hb. unfold signed_bits. pose proof (signed_bits_range f neg b Hf Hb) as Hr.
  destruct (f_bits_range f _ Hf Hr) as [H1 H2].
  unfold float_ok, is_negative, magnitude. rewrite <- width_format, H1, H2.
  split; [done|]. split; [done|]. destruct neg; simpl; split.
  - apply Z.leb_le. lia.
  - rewrite Z.add_comm, Z.mod_add by lia. by apply Z.mod_small.
  - apply Z.leb_gt. lia.
  - by apply Z.mod_small.
Qed.

Lemma signed_bits_eta v : float_ok v → signed_bits (format_of v) (is_negative v) (magnitude v) = v.
Proof.
  unfold float_ok, is_negative, magnitude, signed_bits. rewrite <- width_format. intros Hv.
  assert (0 < width v) by (destruct v; simpl; lia). rewrite width_format in *.
  pose proof (pow2_half (width v) ltac:(done)).
  replace (Z.b2z _ * _ + _) with (bits v).
  - destruct v; unfold f_bits; simpl in *; by rewrite ?wrapu_id.
  - destruct (Z.leb_spec (2 ^ (width v - 1)) (bits v)); simpl.
    + rewrite (Z.mod_eq (bits v)) by lia.
      replace (bits v / _) with 1; [lia|]. apply (Z.div_unique _ _ _ (bits v - 2 ^ (width v - 1))); lia.
    + rewrite Z.mod_small; lia.
Qed.

(** ** Unpacking *)

Lemma magnitude_range v : float_ok v → 0 ≤ magnitude v < 2 ^ (width v - 1).
Proof. intros _. apply Z.mod_pos_bound, pow2_pos. destruct v; simpl; lia. Qed.

Lemma unpack_eq v :
  float_ok v →
  let f := format_of v in
  let e := magnitude v / 2 ^ f_fraction f in
  let m := magnitude v mod 2 ^ f_fraction f in
  unpack f v = mkParts (is_negative v)
    (if (e =? 0) || (e =? 2 * f_bias f + 1) then m else 2 ^ f_fraction f + m)
    (Z.max e 1 - 1 - f_scale f) (is_nan v) (is_infinite v).
Proof.
  intros Hv f e m. pose proof (format_of_ok v) as Hf. fold f in Hf.
  destruct (format_facts f Hf) as (Hp&Hβ&Hw&Hsign&Hinf&Hs).
  pose proof (width_format v) as Hwidth. fold f in Hwidth.
  pose proof (magnitude_range v Hv) as Hmag.
  unfold float_ok in Hv. rewrite <- Hwidth in *.
  unfold unpack. rewrite Hs, land_notu_sign, land_low by lia.
  assert (bits v mod 2 ^ f_fraction f = m) as ->.
  { unfold m, magnitude. rewrite <- Hwidth. apply Znumtheory.Zmod_div_mod; [lia..|].
    apply pow2_divide. lia. }
  assert (Z.shiftr (bits v mod 2 ^ (f_width f - 1)) (f_fraction f) = e) as ->.
  { rewrite Z.shiftr_div_pow2 by lia. unfold e, magnitude. by rewrite <- Hwidth. }
  assert (0 ≤ m < 2 ^ f_fraction f) as Hm by (apply Z.mod_pos_bound; lia).
  assert (magnitude v = e * 2 ^ f_fraction f + m) as Heq.
  { unfold e, m. pose proof (Z.div_mod (magnitude v) (2 ^ f_fraction f)). lia. }
  assert (0 ≤ e) as He by (apply Z.div_pos; lia).
  assert (e ≤ 2 * f_bias f + 1) as He' by nia.
  f_equal.
  - unfold is_negative. rewrite <- Hwidth, land_top_bit by lia.
    destruct (Z.ltb_spec (bits v) (2 ^ (f_width f - 1))), (Z.leb_spec (2 ^ (f_width f - 1)) (bits v));
      lia.
  - destruct (_ || _); [done|]. rewrite Z.shiftl_1_l, Z.lor_comm.
    rewrite <- (Z.mul_1_l (2 ^ f_fraction f)), lor_add_low; lia.
  - unfold f_scale. lia.
  - unfold is_nan. fold f. rewrite Hinf, Heq.
    destruct (Z.eqb_spec e (2 * f_bias f + 1)), (Z.eqb_spec m 0); simpl;
      symmetry; rewrite ?Z.ltb_lt, ?Z.ltb_ge; try nia.
  - unfold is_infinite. fold f. rewrite Hinf, Heq.
    destruct (Z.eqb_spec e (2 * f_bias f + 1)), (Z.eqb_spec m 0); simpl;
      symmetry; rewrite ?Z.eqb_eq, ?Z.eqb_neq; try nia.
Qed.

(** ** Magnitudes *)

Lemma mag_encode f t q :
  format_ok f → 0 ≤ t → 0 ≤ q ≤ 2 ^ (f_fraction f + 1) → t = 0 ∨ 2 ^ f_fraction f ≤ q →
  mag f (t * 2 ^ f_fraction f + q) = q * 2 ^ t.
Proof.
  intros Hf Ht Hq Hor. destruct (format_facts f Hf) as (Hp&_). set (p := f_fraction f) in *.
  pose proof (pow2_pos p ltac:(lia)). rewrite (Z.pow_add_r 2 p 1), Z.pow_1_r in Hq by lia.
  unfold mag. fold p. destruct (Z.ltb_spec (t * 2 ^ p + q) (2 ^ p)).
  - assert (t = 0) as -> by nia. lia.
  - destruct (decide (q < 2 ^ p)) as [?|?]; [destruct Hor; [subst t; lia|lia]|].
    destruct (decide (q = 2 * 2 ^ p)) as [->|].
    + replace (t * 2 ^ p + 2 * 2 ^ p) with ((t + 2) * 2 ^ p) by lia.
      rewrite Z.mod_mul, Z.div_mul by lia.
      replace (t + 2 - 1) with (Z.succ t) by lia. rewrite Z.pow_succ_r by lia. lia.
    + replace (t * 2 ^ p + q) with (q - 2 ^ p + (t + 1) * 2 ^ p) by lia.
      rewrite Z.mod_add, Z.div_add, Z.mod_small, Z.div_small by lia.
      replace (0 + (t + 1) - 1) with t by lia. lia.
Qed.

Lemma mag_decompose f b :
  format_ok f → 0 ≤ b → ∃ t q, 0 ≤ t ∧ 0 ≤ q < 2 ^ (f_fraction f + 1) ∧
    (t = 0 ∨ 2 ^ f_fraction f ≤ q) ∧ b = t * 2 ^ f_fraction f + q ∧ mag f b = q * 2 ^ t.
Proof.
  intros Hf Hb. destruct (format_facts f Hf) as (Hp&_).
  pose proof (pow2_pos (f_fraction f) ltac:(lia)).
  pose proof (Z.pow_add_r 2 (f_fraction f) 1 ltac:(lia) ltac:(lia)) as Hp1.
  rewrite Z.pow_1_r in Hp1.
  destruct (Z.ltb_spec b (2 ^ f_fraction f)) as [?|?].
  - exists 0, b. assert (b = 0 * 2 ^ f_fraction f + b) as Hb' by lia.
    split_and!; try lia. rewrite Hb' at 1. apply mag_encode; auto; lia.
  - pose proof (Z.div_mod b (2 ^ f_fraction f) ltac:(lia)).
    pose proof (Z.mod_pos_bound b (2 ^ f_fraction f) ltac:(lia)).
    assert (1 ≤ b / 2 ^ f_fraction f) by (apply Z.div_le_lower_bound; lia).
    exists (b / 2 ^ f_fraction f - 1), (2 ^ f_fraction f + b mod 2 ^ f_fraction f).
    assert (b = (b / 2 ^ f_fraction f - 1) * 2 ^ f_fraction f
                + (2 ^ f_fraction f + b mod 2 ^ f_fraction f)) as Hb' by lia.
    split_and!; try lia. rewrite Hb' at 1. apply mag_encode; auto; lia.
Qed.

Lemma mag_mono f b b' : format_ok f → 0 ≤ b < b' → mag f b < mag f b'.
Proof.
  intros Hf Hb. destruct (format_facts f Hf) as (Hp&_).
  destruct (mag_decompose f b) as (t&q&Ht&Hq&Hor&Hb1&->); [done|lia|].
  destruct (mag_decompose f b') as (t'&q'&Ht'&Hq'&Hor'&Hb1'&->); [done|lia|].
  rewrite Z.pow_add_r, Z.pow_1_r in * by lia. set (P := 2 ^ f_fraction f) in *.
  assert (0 < P) by (apply pow2_pos; lia).
  destruct (Z.lt_trichotomy t t') as [Hlt|[<-|Hlt]].
  - assert (2 * 2 ^ t ≤ 2 ^ t').
    { rewrite <- Z.pow_succ_r by lia. apply Z.pow_le_mono_r; lia. }
    pose proof (pow2_pos t ltac:(lia)). destruct Hor'; [lia|]. nia.
  - pose proof (pow2_pos t ltac:(lia)). nia.
  - destruct Hor as [->|Hor]; [lia|]. exfalso. nia.
Qed.

Lemma mag_infinity f :
  format_ok f → mag f (f_infinity f) = 2 ^ f_fraction f * 2 ^ (2 * f_bias f).
Proof.
  intros Hf. destruct (format_facts f Hf) as (Hp&Hβ&_&_&->&_).
  replace ((2 * f_bias f + 1) * 2 ^ f_fraction f)
    with ((2 * f_bias f) * 2 ^ f_fraction f + 2 ^ f_fraction f) by lia.
  pose proof (pow2_pos (f_fraction f) ltac:(lia)).
  apply mag_encode; [done|lia| |auto with lia].
  rewrite Z.pow_add_r, Z.pow_1_r by lia. lia.
Qed.

(** ** Nearest-even division *)

Definition rne (n d : Z) : Z :=
  n / d + Z.b2z ((d <? 2 * (n mod d)) || ((2 * (n mod d) =? d) && Z.odd (n / d))).

Lemma rne_spec n d :
  0 < d → 2 * Z.abs (n - rne n d * d) ≤ d ∧ (2 * Z.abs (n - rne n d * d) = d → Z.even (rne n d) = true).
Proof.
  intros Hd. unfold rne. pose proof (Z.div_mod n d ltac:(lia)).
  pose proof (Z.mod_pos_bound n d ltac:(lia)).
  set (q := n / d) in *. set (r := n mod d) in *.
  destruct (Z.ltb_spec d (2 * r)); simpl; [split; lia|].
  destruct (Z.eqb_spec (2 * r) d); simpl; [|rewrite Z.add_0_r; split; lia].
  destruct (Z.odd q) eqn:Hq; simpl; [|rewrite Z.add_0_r].
  - split; [lia|]. intros _. by rewrite Z.even_add, <- Z.negb_odd, Hq.
  - split; [lia|]. intros _. by rewrite <- Z.negb_odd, Hq.
Qed.

Lemma land_1_odd q : negb (Z.land q 1 =? 0) = Z.odd q.
Proof.
  change 1 with (Z.ones 1) at 1. rewrite Z.land_ones, Z.pow_1_r, Zmod_odd by lia.
  by destruct (Z.odd q).
Qed.

Lemma round_shift_eq value shift :
  0 ≤ value < 2 ^ 128 → 0 < shift → round_shift value shift = rne value (2 ^ shift).
Proof.
  intros Hv Hs. unfold round_shift, rne.
  destruct (Z.ltb_spec 128 shift).
  - assert (2 * 2 ^ 128 ≤ 2 ^ shift).
    { rewrite <- Z.pow_succ_r by lia. apply Z.pow_le_mono_r; lia. }
    rewrite Z.div_small, Z.mod_small by lia. simpl.
    destruct (Z.ltb_spec (2 ^ shift) (2 * value)), (Z.eqb_spec (2 * value) (2 ^ shift)); simpl; lia.
  - destruct (Z.eqb_spec shift 128) as [->|].
    + rewrite Z.div_small, Z.mod_small, Z.shiftl_1_l by lia.
      replace (2 ^ 128) with (2 * 2 ^ 127) by done. simpl (Z.odd 0). rewrite andb_false_r, orb_false_r.
      f_equal. destruct (Z.ltb_spec (2 ^ 127) value), (Z.ltb_spec (2 * 2 ^ 127) (2 * value)); lia.
    + rewrite Z.shiftr_div_pow2, land_low, Z.shiftl_1_l, land_1_odd, (pow2_half shift) by lia.
      f_equal. f_equal. f_equal; [|f_equal].
      * set (r := value mod _). destruct (Z.ltb_spec (2 ^ (shift - 1)) r),
          (Z.ltb_spec (2 * 2 ^ (shift - 1)) (2 * r)); lia.
      * set (r := value mod _). destruct (Z.eqb_spec r (2 ^ (shift - 1))),
          (Z.eqb_spec (2 * r) (2 * 2 ^ (shift - 1))); lia.
Qed.

(** ** Packing *)

(** The quantum of the result in magnitude units, and the rounded quotient. *)
Definition quantum (f : Format) (m e : Z) : Z := Z.max (e + Z.log2 m - f_fraction f + f_scale f) 0.
Definition quotient (f : Format) (m e : Z) : Z :=
  let s := quantum f m e - f_scale f - e in
  if 0 <? s then rne m (2 ^ s) else m * 2 ^ (- s).

Lemma rne_bounds n d a b : 0 < d → a * d ≤ n ≤ b * d → a ≤ rne n d ≤ b.
Proof. intros Hd Hn. destruct (rne_spec n d Hd) as [Hr _]. nia. Qed.

Lemma quotient_range f m e :
  format_ok f → 0 < m →
  0 ≤ quotient f m e ≤ 2 ^ (f_fraction f + 1) ∧
  (quantum f m e = 0 ∨ 2 ^ f_fraction f ≤ quotient f m e).
Proof.
  intros Hf Hm. destruct (format_facts f Hf) as (Hp&Hβ&_).
  destruct (Z.log2_spec m Hm) as [Hlo Hhi]. pose proof (Z.log2_nonneg m).
  unfold quotient. set (T := quantum f m e). set (s := T - f_scale f - e).
  assert (T = Z.max (e + Z.log2 m - f_fraction f + f_scale f) 0) as HT by done.
  assert (Z.log2 m - f_fraction f ≤ s) by lia.
  assert (T = 0 ∨ s = Z.log2 m - f_fraction f) as Hor by lia.
  destruct (Z.ltb_spec 0 s).
  - pose proof (pow2_pos s ltac:(lia)). split.
    + apply rne_bounds; [lia|]. rewrite <- Z.pow_add_r by lia. split; [lia|].
      transitivity (2 ^ Z.succ (Z.log2 m)); [lia|]. apply Z.pow_le_mono_r; lia.
    + destruct Hor as [?|?]; [by left|right].
      apply (rne_bounds m (2 ^ s) _ (2 ^ (f_fraction f + 1))); [lia|].
      rewrite <- !Z.pow_add_r by lia. split.
      * etrans; [|apply Hlo]. apply Z.pow_le_mono_r; lia.
      * transitivity (2 ^ Z.succ (Z.log2 m)); [lia|]. apply Z.pow_le_mono_r; lia.
  - pose proof (pow2_pos (- s) ltac:(lia)). split.
    + split; [nia|]. transitivity (2 ^ Z.succ (Z.log2 m) * 2 ^ (- s)); [nia|].
      rewrite <- Z.pow_add_r by lia. apply Z.pow_le_mono_r; lia.
    + destruct Hor as [?|?]; [by left|right].
      transitivity (2 ^ Z.log2 m * 2 ^ (- s)); [|nia].
      rewrite <- Z.pow_add_r by lia. apply Z.pow_le_mono_r; lia.
Qed.

(** Field composition of the packer. *)
Lemma pack_bits f (neg : bool) t m :
  format_ok f → 0 ≤ t ≤ 2 * f_bias f + 1 → 0 ≤ m < 2 ^ f_fraction f →
  f_bits f (Z.lor (Z.lor (if neg then f_sign f else 0) (wrapu 64 (Z.shiftl t (f_fraction f)))) m) =
  signed_bits f neg (t * 2 ^ f_fraction f + m) ∧
  f_bits f (Z.lor (if neg then f_sign f else 0) (t * 2 ^ f_fraction f + m)) =
  signed_bits f neg (t * 2 ^ f_fraction f + m).
Proof.
  intros Hf Ht Hm. destruct (format_facts f Hf) as (Hp&Hβ&Hw&Hs&_&->).
  assert (2 ^ f_width f ≤ 2 ^ 64) as Hwp by (apply Z.pow_le_mono_r; lia).
  rewrite (pow2_half (f_width f)) in Hwp by lia.
  assert ((if neg then 2 ^ (f_width f - 1) else 0) = Z.b2z neg * 2 ^ (f_width f - 1)) as ->
    by (destruct neg; simpl; lia).
  unfold signed_bits. rewrite Z.shiftl_mul_pow2 by lia.
  rewrite (wrapu_id 64 (t * 2 ^ f_fraction f)) by nia. split; f_equal.
  - rewrite (lor_add_low (f_width f - 1)) by (first [lia|split; nia]).
    rewrite Hs. replace (Z.b2z neg * ((2 * f_bias f + 2) * 2 ^ f_fraction f) + t * 2 ^ f_fraction f)
      with ((Z.b2z neg * (2 * f_bias f + 2) + t) * 2 ^ f_fraction f) by lia.
    rewrite lor_add_low by lia. lia.
  - apply lor_add_low; [lia|]. nia.
Qed.

Lemma special_eq f neg inf :
  format_ok f → f_special f neg inf = signed_bits f neg (if inf then f_infinity f else 0).
Proof.
  intros Hf. destruct (format_facts f Hf) as (Hp&Hβ&_&_&Hinf&_). unfold f_special.
  pose proof (pow2_pos (f_fraction f) ltac:(lia)). destruct inf.
  - rewrite Hinf, <- (Z.add_0_r (_ * 2 ^ _)). apply pack_bits; [done|lia..].
  - destruct (pack_bits f neg 0 0) as [_ Hb]; [done|lia..|]. exact Hb.
Qed.

Lemma nan_eq f :
  format_ok f → f_nan f = signed_bits f false (f_infinity f + 2 ^ (f_fraction f - 1)).
Proof. by intros [[] ->]. Qed.

Lemma f_pack_eq f neg m e :
  format_ok f → 0 < m < 2 ^ 128 →
  f_pack f neg m e =
    signed_bits f neg
      (Z.min (quantum f m e * 2 ^ f_fraction f + quotient f m e) (f_infinity f)).
Proof.
  intros Hf Hm. destruct (format_facts f Hf) as (Hp&Hβ&_&_&Hinf&_).
  destruct (quotient_range f m e Hf ltac:(lia)) as [Hq Hor].
  unfold f_pack. rewrite (proj2 (Z.eqb_neq m 0)) by lia.
  assert (127 - leading_zeros 128 m = Z.log2 m) as ->.
  { unfold leading_zeros. rewrite (proj2 (Z.leb_gt m 0)) by lia. lia. }
  assert (Z.max (e + Z.log2 m - f_fraction f) (1 - f_bias f - f_fraction f)
          = quantum f m e - f_scale f) as -> by (unfold quantum, f_scale; lia).
  set (T := quantum f m e) in *. assert (0 ≤ T) by (unfold T, quantum; lia).
  replace (- (T - f_scale f - e)) with (- (T - f_scale f - e)) by lia.
  assert ((if 0 <? T - f_scale f - e then round_shift m (T - f_scale f - e)
           else wrapu 128 (Z.shiftl m (- (T - f_scale f - e)))) = quotient f m e) as ->.
  { unfold quotient in *. fold T in Hq |- *. destruct (Z.ltb_spec 0 (T - f_scale f - e)).
    - apply round_shift_eq; lia.
    - rewrite Z.shiftl_mul_pow2 by lia. apply wrapu_id. split; [lia|].
      eapply Z.le_lt_trans; [apply Hq|]. apply Z.pow_lt_mono_r; lia. }
  set (q := quotient f m e) in *. clearbody q T. rewrite !Z.shiftl_1_l.
  assert (2 ^ f_fraction f < 2 ^ 63) by (apply Z.pow_lt_mono_r; lia).
  pose proof (pow2_pos (f_fraction f) ltac:(lia)).
  rewrite Z.pow_add_r, Z.pow_1_r in * by lia. set (P := 2 ^ f_fraction f) in *.
  assert (∀ t m, 0 ≤ t ≤ 2 * f_bias f → 0 ≤ m < P → T * P + q = t * P + m →
    f_bits f (Z.lor (Z.lor (if neg then f_sign f else 0) (wrapu 64 (Z.shiftl t (f_fraction f)))) m) =
    signed_bits f neg (Z.min (T * P + q) (f_infinity f))) as Hfinite.
  { intros t k Ht Hk Heq. rewrite (proj1 (pack_bits f neg t k Hf ltac:(lia) Hk)). f_equal. nia. }
  assert (∀ z, 0 ≤ z < 2 ^ 64 → Z.land (wrapu 64 z) (P - 1) = z mod P) as Hland.
  { intros z Hz. rewrite wrapu_id by done. apply land_mask. lia. }
  destruct (Z.leb_spec (P * 2) q).
  - assert (q = 2 * P) as -> by lia. rewrite Z.shiftr_div_pow2, Z.pow_1_r by lia.
    rewrite (Z.mul_comm 2 P), Z.div_mul by lia.
    rewrite (proj2 (Z.eqb_neq P 0)), (proj2 (Z.ltb_ge P P)) by lia.
    replace (T - f_scale f + 1 + f_fraction f + f_bias f) with (T + 2) by (unfold f_scale; lia).
    destruct (Z.ltb_spec (2 * f_bias f) (T + 2)).
    + rewrite special_eq by done. f_equal. nia.
    + rewrite Hland, Z.mod_same by lia. rewrite (Z.mul_comm P 2). apply Hfinite; lia.
  - destruct (Z.eqb_spec q 0) as [->|].
    + rewrite special_eq by done. f_equal. nia.
    + destruct (Z.ltb_spec q P).
      * rewrite (proj2 (Z.ltb_ge _ _)), Hland, Z.mod_small by lia. apply Hfinite; lia.
      * replace (T - f_scale f + f_fraction f + f_bias f) with (T + 1) by (unfold f_scale; lia).
        destruct (Z.ltb_spec (2 * f_bias f) (T + 1)).
        -- rewrite special_eq by done. f_equal. nia.
        -- rewrite Hland by lia. apply Hfinite; [lia|apply Z.mod_pos_bound; lia|].
           rewrite (Z.mod_eq q) by lia. replace (q / P) with 1; [lia|].
           apply (Z.div_unique _ _ _ (q - P)); lia.
Qed.

(** ** Correct rounding *)

(** [rounds_to f neg n d x]: the float [x] has sign [neg], and its magnitude is the
    nearest of the format to [n / d] (in magnitude units), ties going to an even
    last bit.  The infinity takes part as the power of two above the largest finite
    value, which is IEEE's overflow rule. *)
Definition rounds_to (f : Format) (neg : bool) (n d : Z) (x : FloatBits) : Prop :=
  ∃ b, x = signed_bits f neg b ∧ 0 ≤ b ≤ f_infinity f ∧
    ∀ c, 0 ≤ c ≤ f_infinity f →
      Z.abs (n - d * mag f b) ≤ Z.abs (n - d * mag f c) ∧
      (Z.abs (n - d * mag f b) = Z.abs (n - d * mag f c) → c ≠ b → Z.even b = true).

(** The number [n/d] agrees with [m * 2^c] as far as rounding above bit 1 can see: it is
    equal, or the last bit of [m] is a sticky bit. *)
Definition sticky (f : Format) (m c n d : Z) : Prop :=
  let h := Z.max 0 (- c) in
  n * 2 ^ h = d * m * 2 ^ (c + h) ∨
  (Z.odd m = true ∧ 2 ^ (f_fraction f + 2) ≤ m ∧
   d * (m - 1) * 2 ^ (c + h) < n * 2 ^ h < d * (m + 1) * 2 ^ (c + h)).

(** Arithmetic of the two cases: [g] is the unit of [m], [w] the quantum in those
    units, [r] the quotient. *)
Lemma close_exact d g m r w :
  0 < d * g → 2 * Z.abs (m - r * w) ≤ w →
  2 * Z.abs (d * m * g - d * r * (w * g)) ≤ d * (w * g) ∧
  (2 * Z.abs (d * m * g - d * r * (w * g)) = d * (w * g) → 2 * Z.abs (m - r * w) = w).
Proof.
  intros Hdg Hw. replace (d * m * g - d * r * (w * g)) with (d * g * (m - r * w)) by ring.
  replace (d * (w * g)) with (d * g * w) by ring.
  rewrite Z.abs_mul, (Z.abs_eq (d * g)) by lia.
  revert Hdg. generalize (d * g) as x. intros x Hx. split; [nia|]. intros Heq.
  apply (Z.mul_reg_l _ _ x); lia.
Qed.

Lemma close_sticky d g m r w k w' x :
  0 < d * g → m = 2 * k + 1 → w = 4 * w' → 2 * Z.abs (m - r * w) ≤ w →
  d * (m - 1) * g < x < d * (m + 1) * g →
  2 * Z.abs (x - d * r * (w * g)) < d * (w * g).
Proof.
  intros Hdg Hm Hw Hr. replace (d * (m - 1) * g) with (d * g * m - d * g) by ring.
  replace (d * (m + 1) * g) with (d * g * m + d * g) by ring.
  replace (d * r * (w * g)) with (d * g * (r * w)) by ring.
  replace (d * (w * g)) with (d * g * w) by ring.
  revert Hdg. generalize (d * g) as y. intros y Hy Hx.
  assert (2 * (Z.abs (m - r * w) + 1) ≤ w) as Hr' by (subst; lia).
  assert (Z.abs (y * (m - r * w)) = y * Z.abs (m - r * w)) as Habs by (rewrite Z.abs_mul; lia).
  assert (y * (2 * (Z.abs (m - r * w) + 1)) ≤ y * w) by (apply Z.mul_le_mono_nonneg_l; lia).
  rewrite Z.mul_sub_distr_l in Habs. lia.
Qed.

Lemma big_exact d g m w b : 0 < d * g → b * w ≤ m → b * d * (w * g) ≤ d * m * g.
Proof.
  intros Hdg Hb. replace (b * d * (w * g)) with (d * g * (b * w)) by ring.
  replace (d * m * g) with (d * g * m) by ring. apply Z.mul_le_mono_nonneg_l; lia.
Qed.

Lemma big_sticky d g m w b k w' x :
  0 < d * g → m = 2 * k + 1 → w = 4 * w' → b * w ≤ m → d * (m - 1) * g < x →
  b * d * (w * g) ≤ x.
Proof.
  intros Hdg Hm Hw Hb Hx. transitivity (d * (m - 1) * g); [|lia].
  apply big_exact; [done|]. subst. replace (b * (4 * w')) with (2 * (2 * (b * w'))) in * by ring. lia.
Qed.

(** The rounded quotient is within half a quantum, exactly half only when even. *)
Lemma quotient_close f m e n d :
  format_ok f → 0 < m → 0 < d → sticky f m (e + f_scale f) n d →
  let h := Z.max 0 (- (e + f_scale f)) in
  let u := 2 ^ (quantum f m e + h) in
  let q := quotient f m e in
  2 * Z.abs (n * 2 ^ h - d * q * u) ≤ d * u ∧
  (2 * Z.abs (n * 2 ^ h - d * q * u) = d * u → Z.even q = true) ∧
  (0 < quantum f m e → 2 ^ f_fraction f * d * u ≤ n * 2 ^ h).
Proof.
  intros Hf Hm Hd Hst h u q. destruct (format_facts f Hf) as (Hp&_).
  destruct (Z.log2_spec m Hm) as [Hlo Hhi]. pose proof (Z.log2_nonneg m).
  unfold sticky in Hst. fold h in Hst. set (c := e + f_scale f) in *.
  set (T := quantum f m e) in *. set (g := 2 ^ (c + h)) in *.
  assert (T = Z.max (c + Z.log2 m - f_fraction f) 0) as HT by (unfold T, quantum; lia).
  assert (0 < g) by (apply pow2_pos; lia).
  assert (0 < u) by (apply pow2_pos; lia).
  set (N := n * 2 ^ h) in *.
  unfold q, quotient. fold T. replace (T - f_scale f - e) with (T - c) by lia.
  destruct (Z.ltb_spec 0 (T - c)) as [Hs|Hs].
  - assert (u = 2 ^ (T - c) * g) as Hu by (unfold u, g; rewrite <- Z.pow_add_r by lia; f_equal; lia).
    pose proof (pow2_pos (T - c) ltac:(lia)).
    destruct (rne_spec m (2 ^ (T - c)) ltac:(done)) as [Hr Hev].
    set (r := rne m (2 ^ (T - c))) in *. set (w := 2 ^ (T - c)) in *.
    assert (0 < T → 2 ^ f_fraction f * w ≤ m) as Hbig.
    { intros. unfold w. rewrite <- Z.pow_add_r by lia. etrans; [|exact Hlo].
      apply Z.pow_le_mono_r; lia. }
    assert (0 < d * g) by lia.
    destruct Hst as [Hexact|(Hodd&Hlarge&Hn)].
    + rewrite Hexact, Hu. destruct (close_exact d g m r w) as [Hle Heq]; [done..|].
      split; [done|]. split; [auto|]. intros HT0. apply big_exact; auto.
    + assert (∃ w', w = 4 * w') as [w' Hw'].
      { assert (f_fraction f + 2 ≤ Z.log2 m) by (apply Z.log2_le_pow2; lia).
        exists (2 ^ (T - c - 2)). unfold w. change 4 with (2 ^ 2).
        rewrite <- Z.pow_add_r by lia. f_equal. lia. }
      apply Z.odd_spec in Hodd as [k Hk]. rewrite Hu.
      pose proof (close_sticky d g m r w k w' N) as Hstrict.
      split; [apply Z.lt_le_incl; auto|]. split.
      * intros Heq. exfalso. specialize (Hstrict ltac:(done) Hk Hw' Hr Hn). lia.
      * intros HT0. destruct Hn. eapply big_sticky; eauto.
  - assert (h = 0) as Hh by lia. assert (0 ≤ T ≤ c) by lia.
    assert (g = 2 ^ (c - T) * u) as Hg.
    { unfold g, u. rewrite Hh, <- Z.pow_add_r by lia. f_equal. lia. }
    replace (- (T - c)) with (c - T) by lia.
    destruct Hst as [Hexact|(_&Hlarge&_)].
    + assert (N - d * (m * 2 ^ (c - T)) * u = 0) as -> by (rewrite Hexact, Hg; ring).
      split_and!; [lia|lia|]. intros. rewrite Hexact, Hg.
      assert (2 ^ f_fraction f ≤ m * 2 ^ (c - T)).
      { transitivity (2 ^ Z.log2 m * 2 ^ (c - T)).
        - rewrite <- Z.pow_add_r by lia. apply Z.pow_le_mono_r; lia.
        - pose proof (pow2_pos (c - T) ltac:(lia)). apply Z.mul_le_mono_nonneg_r; lia. }
      replace (d * m * (2 ^ (c - T) * u)) with (d * (m * 2 ^ (c - T)) * u) by ring.
      rewrite <- (Z.mul_1_l u) at 1. apply big_exact; lia.
    + assert (f_fraction f + 2 ≤ Z.log2 m) by (apply Z.log2_le_pow2; lia). lia.
Qed.

Lemma near_grid x w q k :
  0 < w → 2 * Z.abs (x - q * w) ≤ w → (2 * Z.abs (x - q * w) = w → Z.even q = true) →
  Z.abs (x - q * w) ≤ Z.abs (x - k * w) ∧
  (Z.abs (x - q * w) = Z.abs (x - k * w) → k ≠ q → Z.even q = true).
Proof.
  intros Hw Hx Heven. destruct (decide (k = q)) as [->|Hk]; [done|].
  assert (w ≤ Z.abs (k * w - q * w)) by (rewrite <- Z.mul_sub_distr_r, Z.abs_mul; nia).
  split; [lia|]. intros. apply Heven. lia.
Qed.

Lemma mag_inj f b c : format_ok f → 0 ≤ b → 0 ≤ c → mag f b = mag f c → b = c.
Proof.
  intros Hf Hb Hc Heq. destruct (Z.lt_trichotomy b c) as [?|[?|?]]; [|done|].
  - pose proof (mag_mono f b c Hf). lia.
  - pose proof (mag_mono f c b Hf). lia.
Qed.

Lemma scale_abs h x y : 0 < h → Z.abs (x * h - y * h) = h * Z.abs (x - y).
Proof. intros. rewrite <- Z.mul_sub_distr_r, Z.abs_mul. lia. Qed.

(** Distances may be compared after scaling. *)
Lemma scaled_le h x y z (P : Prop) :
  0 < h →
  (Z.abs (x * h - y * h) ≤ Z.abs (x * h - z * h) ∧
   (Z.abs (x * h - y * h) = Z.abs (x * h - z * h) → P)) →
  Z.abs (x - y) ≤ Z.abs (x - z) ∧ (Z.abs (x - y) = Z.abs (x - z) → P).
Proof.
  intros Hh. rewrite !scale_abs by done. intros [Hle Heq]. split; [nia|].
  intros Heq'. apply Heq. by rewrite Heq'.
Qed.

Lemma small_mag q p j t : 0 ≤ j < t → 0 ≤ q < 2 ^ p * 2 → q * 2 ^ j < 2 ^ p * 2 ^ t.
Proof.
  intros Hj Hq. assert (2 * 2 ^ j ≤ 2 ^ t).
  { rewrite <- Z.pow_succ_r by lia. apply Z.pow_le_mono_r; lia. }
  pose proof (pow2_pos j ltac:(lia)). nia.
Qed.

(** The packer rounds to nearest, ties to even. *)
Lemma f_pack_rounds f neg m e n d :
  format_ok f → 0 < m < 2 ^ 128 → 0 < d → sticky f m (e + f_scale f) n d →
  rounds_to f neg n d (f_pack f neg m e).
Proof.
  intros Hf Hm Hd Hst. destruct (format_facts f Hf) as (Hp&Hβ&_&_&Hinf&_).
  destruct (quotient_close f m e n d Hf ltac:(lia) Hd Hst) as (Hclose&Heven&Hbig).
  destruct (quotient_range f m e Hf ltac:(lia)) as [Hq Hor].
  rewrite f_pack_eq by done. set (h := Z.max 0 (- (e + f_scale f))) in *.
  assert (0 ≤ quantum f m e) as HT by (unfold quantum; lia).
  set (T := quantum f m e) in *. set (q := quotient f m e) in *. clearbody T q.
  pose proof (mag_encode f T q Hf HT Hq Hor) as Hmag.
  rewrite (Z.pow_add_r 2 T h) in * by lia. set (H := 2 ^ h) in *.
  assert (0 < H) as HH by (apply pow2_pos; lia). clearbody H.
  rewrite Z.pow_add_r, Z.pow_1_r in Hq by lia. pose proof (pow2_pos T HT).
  assert (∃ P', 2 ^ f_fraction f = 2 * P' ∧ 0 < P') as (P'&HP'&?).
  { exists (2 ^ (f_fraction f - 1)). split; [apply pow2_half; lia|apply pow2_pos; lia]. }
  exists (Z.min (T * 2 ^ f_fraction f + q) (f_infinity f)). split; [done|].
  split; [nia|]. intros c Hc. apply (scaled_le H); [done|].
  destruct (mag_decompose f c) as (j&σ&Hj&Hσ&Hjσ&Hcb&Hcm); [done|lia|].
  rewrite Z.pow_add_r, Z.pow_1_r in Hσ by lia.
  destruct (Z.leb_spec (T * 2 ^ f_fraction f + q) (f_infinity f)) as [Hfin|Hov].
  - rewrite Z.min_l, Hmag by done.
    replace (d * (q * 2 ^ T) * H) with (q * (d * (2 ^ T * H))) in * by ring.
    replace (d * q * (2 ^ T * H)) with (q * (d * (2 ^ T * H))) in * by ring.
    assert (0 < d * (2 ^ T * H)) as Hw by nia.
    destruct (Z.le_gt_cases T j).
    + replace (d * mag f c * H) with ((σ * 2 ^ (j - T)) * (d * (2 ^ T * H)))
        by (rewrite Hcm; replace j with (j - T + T) at 2 by lia; rewrite (Z.pow_add_r 2 (j - T)) by lia; ring).
      destruct (near_grid _ _ q (σ * 2 ^ (j - T)) Hw Hclose Heven) as [Hle Heq].
      split; [done|]. intros Hd' Hcb'.
      rewrite HP', Z.even_add, Z.mul_assoc, (Z.mul_comm T 2), <- Z.mul_assoc, Z.even_mul. simpl.
      rewrite Heq; [done|done|]. intros Hk. apply Hcb'.
      apply (mag_inj f); [done|lia|clear -HT Hq HP' H0; nia|].
      rewrite Hcm, Hmag, <- Hk, <- Z.mul_assoc, <- Z.pow_add_r by lia. do 2 f_equal. lia.
    + specialize (Hbig ltac:(lia)).
      destruct (near_grid _ _ q (2 ^ f_fraction f) Hw Hclose Heven) as [Hle _].
      assert (mag f c < 2 ^ f_fraction f * 2 ^ T) as Hsmall.
      { rewrite Hcm. apply small_mag; lia. }
      assert (d * mag f c * H < 2 ^ f_fraction f * (d * (2 ^ T * H))).
      { replace (2 ^ f_fraction f * (d * (2 ^ T * H))) with ((d * H) * (2 ^ f_fraction f * 2 ^ T)) by ring.
        replace (d * mag f c * H) with ((d * H) * mag f c) by ring.
        apply Z.mul_lt_mono_pos_l; nia. }
      assert (2 ^ f_fraction f * (d * (2 ^ T * H)) ≤ n * H) by lia.
      split; lia.
  - rewrite Z.min_r, mag_infinity by (done || lia).
    assert (2 * f_bias f ≤ T) by (clear -Hov Hinf Hq HP' H0; nia). specialize (Hbig ltac:(lia)).
    assert (2 ^ (2 * f_bias f) ≤ 2 ^ T) by (apply Z.pow_le_mono_r; lia).
    assert (d * (2 ^ f_fraction f * 2 ^ (2 * f_bias f)) * H ≤ n * H).
    { etrans; [|exact Hbig].
      replace (d * (2 ^ f_fraction f * 2 ^ (2 * f_bias f)) * H)
        with ((2 ^ f_fraction f * d * H) * 2 ^ (2 * f_bias f)) by ring.
      replace (2 ^ f_fraction f * d * (2 ^ T * H)) with ((2 ^ f_fraction f * d * H) * 2 ^ T) by ring.
      apply Z.mul_le_mono_nonneg_l; [nia|done]. }
    destruct (decide (c = f_infinity f)) as [->|Hne].
    { rewrite mag_infinity by done. split; [lia|done]. }
    assert (mag f c < mag f (f_infinity f)) as Hlt by (apply mag_mono; [done|lia]).
    rewrite mag_infinity in Hlt by done.
    assert (d * mag f c * H < d * (2 ^ f_fraction f * 2 ^ (2 * f_bias f)) * H).
    { replace (d * mag f c * H) with ((d * H) * mag f c) by ring.
      replace (d * (2 ^ f_fraction f * 2 ^ (2 * f_bias f)) * H)
        with ((d * H) * (2 ^ f_fraction f * 2 ^ (2 * f_bias f))) by ring.
      apply Z.mul_lt_mono_pos_l; nia. }
    split; lia.
Qed.

Lemma signed_zero_rounds f neg d : format_ok f → 0 < d → rounds_to f neg 0 d (signed_bits f neg 0).
Proof.
  intros Hf Hd. destruct (format_facts f Hf) as (Hp&Hβ&_&_&Hinf&_).
  pose proof (pow2_pos (f_fraction f) ltac:(lia)).
  assert (mag f 0 = 0) as H0 by (unfold mag; by rewrite (proj2 (Z.ltb_lt _ _)) by lia).
  exists 0. split; [done|]. split; [nia|]. intros c Hc. rewrite H0. split; [lia|]. done.
Qed.

Lemma f_pack_zero f neg e : format_ok f → f_pack f neg 0 e = signed_bits f neg 0.
Proof. intros Hf. unfold f_pack. simpl. by apply (special_eq f neg false). Qed.

(** Stickiness may be checked at any scale that makes the exponents nonnegative. *)
Lemma sticky_by k f m c n d :
  0 ≤ k → 0 ≤ c + k →
  n * 2 ^ k = d * m * 2 ^ (c + k) ∨
  (Z.odd m = true ∧ 2 ^ (f_fraction f + 2) ≤ m ∧
   d * (m - 1) * 2 ^ (c + k) < n * 2 ^ k < d * (m + 1) * 2 ^ (c + k)) →
  sticky f m c n d.
Proof.
  intros Hk Hck. unfold sticky. set (h := Z.max 0 (- c)).
  set (r := k - h). assert (0 ≤ r) by lia. pose proof (pow2_pos r ltac:(done)) as Hr.
  replace k with (h + r) by lia. replace (c + (h + r)) with (c + h + r) by lia.
  rewrite !Z.pow_add_r, !Z.mul_assoc by lia.
  intros [Heq|(?&?&Hl&Hu)]; [left; nia|right].
  split_and!; [done..| |]; eapply (Z.mul_lt_mono_pos_r (2 ^ r)); eauto.
Qed.

Lemma rounds_exact f neg m e c x :
  format_ok f → 0 ≤ m < 2 ^ 128 → 0 ≤ c ≤ f_infinity f →
  (∃ k, 0 ≤ k ∧ 0 ≤ e + f_scale f + k ∧ mag f c * 2 ^ k = m * 2 ^ (e + f_scale f + k)) →
  x = f_pack f neg m e → x = signed_bits f neg c.
Proof.
  intros Hf Hm Hc (k & Hk & Hek & Heq) ->.
  destruct (decide (m = 0)) as [->|].
  { rewrite f_pack_zero by done. f_equal. apply (mag_inj f); [done..|lia|].
    pose proof (pow2_pos k ltac:(done)).
    assert (mag f 0 = 0) as -> by (by destruct Hf as [[] ->]). nia. }
  destruct (f_pack_rounds f neg m e (mag f c) 1) as (b & -> & Hb & Hnear); [done|lia..| |].
  { apply (sticky_by k); [done..|]. left. lia. }
  f_equal. destruct (Hnear c Hc) as [Hle _]. apply (mag_inj f); [done|lia..|lia].
Qed.

(** ** Operands *)

(** A finite operand: the parts denote the magnitude [x] of a value of the format. *)
Definition denotes (f : Format) (a : Parts) (x : Z) : Prop :=
  nan a = false ∧ infinity a = false ∧ 0 ≤ sig a < 2 ^ (f_fraction f + 1) ∧
  - f_fraction f - f_scale f ≤ exp a < 2 * f_bias f - f_scale f ∧
  ∀ k, 0 ≤ k → 0 ≤ exp a + f_scale f + k → sig a * 2 ^ (exp a + f_scale f + k) = x * 2 ^ k.
Definition normalized (f : Format) (a : Parts) : Prop := sig a = 0 ∨ 2 ^ f_fraction f ≤ sig a.

Lemma nan_not_finite v : is_finite v = true → is_nan v = false ∧ is_infinite v = false.
Proof. unfold is_finite, is_nan, is_infinite. lia. Qed.

Lemma unpack_denotes v :
  float_ok v → is_finite v = true →
  denotes (format_of v) (unpack (format_of v) v) (mag (format_of v) (magnitude v)) ∧
  negative (unpack (format_of v) v) = is_negative v ∧
  - f_scale (format_of v) ≤ exp (unpack (format_of v) v).
Proof.
  intros Hv Hfin. destruct (nan_not_finite v Hfin) as [Hnan Hinf'].
  rewrite unpack_eq by done. set (f := format_of v) in *.
  pose proof (format_of_ok v) as Hf. fold f in Hf.
  destruct (format_facts f Hf) as (Hp&Hβ&Hw&Hsign&Hinf&_).
  pose proof (magnitude_range v Hv) as Hm. set (b := magnitude v) in *.
  unfold is_finite in Hfin. fold f b in Hfin. apply Z.ltb_lt in Hfin. rewrite Hinf in Hfin.
  pose proof (pow2_pos (f_fraction f) ltac:(lia)) as HP.
  pose proof (Z.div_mod b (2 ^ f_fraction f) ltac:(lia)) as Hdm.
  pose proof (Z.mod_pos_bound b (2 ^ f_fraction f) ltac:(lia)) as Hmod.
  set (e := b / 2 ^ f_fraction f) in *. set (k := b mod 2 ^ f_fraction f) in *.
  assert (0 ≤ e) by (apply Z.div_pos; lia). assert (e < 2 * f_bias f + 1) by nia.
  split; [|split; [done|simpl; lia]].
  rewrite (proj2 (Z.eqb_neq e (2 * f_bias f + 1))), orb_false_r by lia.
  unfold denotes. simpl. unfold mag. fold e k.
  rewrite (Z.pow_add_r 2 _ 1), Z.pow_1_r by lia.
  split; [done|]. split; [done|].
  assert (e < 2 * f_bias f + 1) by lia.
  destruct (Z.eqb_spec e 0) as [He|He].
  - rewrite He in *. split; [lia|]. split; [unfold f_scale in *; lia|].
    intros j Hj Hej. rewrite (proj2 (Z.ltb_lt b _)) by lia.
    replace (Z.max 0 1 - 1 - f_scale f + f_scale f + j) with j by lia. nia.
  - split; [lia|]. split; [unfold f_scale in *; lia|].
    intros j Hj Hej. rewrite (proj2 (Z.ltb_ge b _)) by nia.
    replace (Z.max e 1 - 1 - f_scale f + f_scale f + j) with (e - 1 + j) by lia.
    rewrite Z.pow_add_r by lia. lia.
Qed.

Lemma normalize_spec f a x :
  format_ok f → denotes f a x → - f_scale f ≤ exp a →
  denotes f (normalize f a) x ∧ normalized f (normalize f a) ∧
  negative (normalize f a) = negative a.
Proof.
  intros Hf (Hn&Hi&Hsig&Hexp&Hden) Hlow. destruct (format_facts f Hf) as (Hp&_).
  unfold normalize, normalized. destruct (Z.eqb_spec (sig a) 0) as [H0|H0]; simpl.
  { split; [done|]. by split; [left|]. }
  destruct (Z.log2_spec (sig a) ltac:(lia)) as [Hlo Hhi]. pose proof (Z.log2_nonneg (sig a)).
  assert (Z.log2 (sig a) ≤ f_fraction f) by (destruct (Z.log2_lt_pow2 (sig a) (f_fraction f + 1)); lia).
  assert (leading_zeros 128 (sig a) - (127 - f_fraction f) = f_fraction f - Z.log2 (sig a)) as ->.
  { unfold leading_zeros. rewrite (proj2 (Z.leb_gt _ _)) by lia. lia. }
  set (s := f_fraction f - Z.log2 (sig a)). pose proof (pow2_pos s ltac:(lia)).
  assert (2 ^ f_fraction f ≤ sig a * 2 ^ s < 2 ^ (f_fraction f + 1)) as Hr.
  { replace (f_fraction f) with (Z.log2 (sig a) + s) at 1 by lia.
    replace (f_fraction f + 1) with (Z.succ (Z.log2 (sig a)) + s) by lia.
    rewrite !Z.pow_add_r by lia. nia. }
  rewrite Z.shiftl_mul_pow2, wrapu_id.
  2:{ split; [lia|]. eapply Z.lt_le_trans; [apply Hr|]. apply Z.pow_le_mono_r; lia. }
  2:{ lia. }
  split; [|split; [right; lia|done]]. unfold denotes; simpl.
  split_and!; [done|done|lia|lia|lia|lia|].
  intros k Hk Hek. rewrite <- (Hden k) by lia.
  rewrite <- Z.mul_assoc, <- Z.pow_add_r by lia. do 2 f_equal. lia.
Qed.

(** What [arithmetic] computes with: a finite operand, normalized. *)
Definition operand (f : Format) (v : FloatBits) (a : Parts) : Prop :=
  denotes f a (mag f (magnitude v)) ∧ normalized f a ∧ negative a = is_negative v.

Lemma operand_of v :
  float_ok v → is_finite v = true → operand (format_of v) v (normalize (format_of v) (unpack (format_of v) v)).
Proof.
  intros Hv Hfin. destruct (unpack_denotes v Hv Hfin) as (Hd&Hn&He).
  destruct (normalize_spec _ _ _ (format_of_ok v) Hd He) as (?&?&?).
  split_and!; [done..|congruence].
Qed.

Lemma denotes_pos f a x : denotes f a x → 0 ≤ x ∧ (x = 0 ↔ sig a = 0).
Proof.
  intros (_&_&Hsig&_&Hden). set (k := Z.abs (exp a + f_scale f)).
  specialize (Hden k ltac:(lia) ltac:(lia)).
  pose proof (pow2_pos k ltac:(lia)). pose proof (pow2_pos (exp a + f_scale f + k) ltac:(lia)).
  split; [nia|]. split; intros Hz; rewrite Hz in Hden; nia.
Qed.

(** *** Multiplication *)

Lemma mul_rounds f a b x y :
  format_ok f → denotes f a x → denotes f b y →
  rounds_to f (xorb (negative a) (negative b)) (x * y) (2 ^ f_scale f) (mul_parts f a b).
Proof.
  intros Hf Ha Hb. destruct (format_facts f Hf) as (Hp&Hβ&_).
  destruct (denotes_pos _ _ _ Ha) as [? Hax], (denotes_pos _ _ _ Hb) as [? Hby].
  destruct Ha as (_&Hai&Hsa&Hea&Hda), Hb as (_&Hbi&Hsb&Heb&Hdb).
  assert (0 < f_scale f) by (unfold f_scale; lia).
  unfold mul_parts. rewrite Hai, Hbi. simpl.
  pose proof (pow2_pos (f_scale f) ltac:(lia)).
  destruct (decide (sig a * sig b = 0)) as [Hz|Hz].
  - rewrite Hz, f_pack_zero by done. replace (x * y) with 0 by nia. by apply signed_zero_rounds.
  - apply f_pack_rounds; [done| |done|].
    + assert (2 ^ (f_fraction f + 1) * 2 ^ (f_fraction f + 1) ≤ 2 ^ 128).
      { rewrite <- Z.pow_add_r by lia. apply Z.pow_le_mono_r; lia. }
      nia.
    + set (k := f_fraction f + 2 * f_scale f).
      specialize (Hda k ltac:(lia) ltac:(lia)). specialize (Hdb k ltac:(lia) ltac:(lia)).
      apply (sticky_by (k + k)); [lia..|]. left.
      replace (exp a + exp b + f_scale f + (k + k))
        with ((exp a + f_scale f + k) + (exp b + f_scale f + k) - f_scale f) by lia.
      assert (2 ^ f_scale f * 2 ^ ((exp a + f_scale f + k) + (exp b + f_scale f + k) - f_scale f) =
              2 ^ (exp a + f_scale f + k) * 2 ^ (exp b + f_scale f + k)) as Hpow.
      { rewrite <- !Z.pow_add_r by lia. f_equal. lia. }
      rewrite Z.pow_add_r by lia.
      transitivity ((x * 2 ^ k) * (y * 2 ^ k)); [ring|]. rewrite <- Hda, <- Hdb.
      transitivity (sig a * sig b * (2 ^ (exp a + f_scale f + k) * 2 ^ (exp b + f_scale f + k))); [ring|].
      rewrite <- Hpow. ring.
Qed.

Lemma lor_1_odd q : Z.odd (Z.lor q 1) = true ∧ (Z.lor q 1 = q ∨ Z.lor q 1 = q + 1).
Proof.
  split.
  - rewrite <- Z.bit0_odd, Z.lor_spec. apply orb_true_r.
  - destruct (Z.odd q) eqn:Hq.
    + left. apply Z.bits_inj'. intros i Hi. rewrite Z.lor_spec.
      destruct (decide (i = 0)) as [->|]; [by rewrite Z.bit0_odd, Hq|].
      change 1 with (2 ^ 0). rewrite Z.pow2_bits_false by lia. apply orb_false_r.
    + right. rewrite Z.add_nocarry_lxor, Z.lxor_lor; [done|..];
        apply Z.bits_inj'; intros i Hi; rewrite Z.land_spec, Z.bits_0;
        (destruct (decide (i = 0)) as [->|]; [by rewrite Z.bit0_odd, Hq|]);
        change 1 with (2 ^ 0); rewrite Z.pow2_bits_false by lia; apply andb_false_r.
Qed.

(** *** Division *)

Lemma sticky_div n d q r m :
  0 < r < d → n = d * q + r → m = q ∨ m = q + 1 → d * (m - 1) < n < d * (m + 1).
Proof. intros Hr -> [->| ->]; lia. Qed.

Lemma div_rounds f a b x y :
  format_ok f → denotes f a x → denotes f b y → normalized f a → normalized f b → y ≠ 0 →
  rounds_to f (xorb (negative a) (negative b)) (x * 2 ^ f_scale f) y (div_parts f a b).
Proof.
  intros Hf Ha Hb Hna Hnb Hy. destruct (format_facts f Hf) as (Hp&Hβ&_).
  destruct (denotes_pos _ _ _ Ha) as [? Hax], (denotes_pos _ _ _ Hb) as [? Hby].
  destruct Ha as (_&Hai&Hsa&Hea&Hda), Hb as (_&Hbi&Hsb&Heb&Hdb).
  assert (0 < f_scale f) by (unfold f_scale; lia).
  assert (sig b ≠ 0) as Hsb0 by tauto. destruct Hnb as [|Hnb]; [done|].
  unfold div_parts. rewrite Hai, Hbi. simpl.
  rewrite (proj2 (Z.eqb_neq (sig b) 0)), andb_false_r by done. simpl.
  destruct (Z.eqb_spec (sig a) 0) as [Hz|Hz].
  { rewrite special_eq by done. replace (x * _) with 0 by (rewrite (proj2 Hax Hz); ring).
    apply signed_zero_rounds; [done|lia]. }
  destruct Hna as [|Hna]; [done|].
  set (p := f_fraction f) in *. set (s := p + 4).
  assert (2 ^ (p + 1) * 2 ^ s < 2 ^ 127) as Hwide.
  { rewrite <- Z.pow_add_r by lia. apply Z.pow_lt_mono_r; lia. }
  pose proof (pow2_pos s ltac:(lia)). pose proof (pow2_pos p ltac:(lia)).
  rewrite Z.shiftl_mul_pow2 by lia.
  set (num := sig a * 2 ^ s). assert (0 ≤ num < 2 ^ 127) as Hnum.
  { assert (num < 2 ^ (p + 1) * 2 ^ s) by (apply Z.mul_lt_mono_pos_r; lia).
    split; [apply Z.mul_nonneg_nonneg; lia|lia]. }
  rewrite wrapu_id by lia.
  pose proof (Z.div_mod num (sig b) ltac:(lia)) as Hdm.
  pose proof (Z.mod_pos_bound num (sig b) ltac:(lia)) as Hmod.
  set (q := num / sig b) in *. set (r := num mod sig b) in *.
  assert (2 ^ (p + 2) < q) as Hq.
  { apply Z.lt_le_trans with (2 ^ (p + 3)); [apply Z.pow_lt_mono_r; lia|].
    apply Z.div_le_lower_bound; [lia|]. unfold num, s.
    replace (p + 3) with (p + 4 - 1) by lia. rewrite (pow2_half (p + 4)) by lia.
    rewrite Z.pow_add_r, Z.pow_1_r in Hsb by lia.
    pose proof (pow2_pos (p + 4 - 1) ltac:(lia)). nia. }
  assert (q ≤ num) by (apply Z.div_le_upper_bound; nia).
  pose proof (pow2_pos (p + 2) ltac:(lia)).
  assert (∃ m, Z.lor q (Z.b2z (negb (r =? 0))) = m ∧ 
    (r = 0 ∧ m = q ∨ r ≠ 0 ∧ Z.odd m = true ∧ (m = q ∨ m = q + 1))) as (m & -> & Hm).
  { eexists. split; [reflexivity|]. destruct (Z.eqb_spec r 0); [left; by rewrite Z.lor_0_r|right].
    split; [done|]. by apply lor_1_odd. }
  apply f_pack_rounds; [done| |lia|].
  { destruct Hm as [[_ ->]|(_&_&[->| ->])]; lia. }
  set (k := Z.abs (exp a) + Z.abs (exp b) + f_scale f + s).
  specialize (Hda k ltac:(lia) ltac:(lia)). specialize (Hdb k ltac:(lia) ltac:(lia)).
  assert (0 < 2 ^ k) as Hk by (apply pow2_pos; lia).
  set (u := 2 ^ (exp a + f_scale f - s + f_scale f + k + k)).
  assert (0 < u) by (apply pow2_pos; lia).
  assert (x * 2 ^ f_scale f * 2 ^ k * 2 ^ k = num * u) as Hnum'.
  { transitivity ((x * 2 ^ k) * (2 ^ f_scale f * 2 ^ k)); [ring|]. rewrite <- Hda.
    unfold num, u. clear Hda Hdb Hm Hdm Hmod. clearbody q r.
    rewrite <- Z.pow_add_r, <- !Z.mul_assoc, <- !Z.pow_add_r by lia. do 2 f_equal. lia. }
  assert (∀ j, y * j * 2 ^ (exp a - exp b - s + f_scale f + k) * 2 ^ k = sig b * j * u) as Hden.
  { intros j. transitivity ((y * 2 ^ k) * (j * 2 ^ (exp a - exp b - s + f_scale f + k))); [ring|].
    rewrite <- Hdb. unfold u.
    transitivity (sig b * j * (2 ^ (exp b + f_scale f + k) * 2 ^ (exp a - exp b - s + f_scale f + k)));
      [ring|]. rewrite <- Z.pow_add_r by lia. do 2 f_equal. lia. }
  apply (sticky_by k); [lia..|].
  destruct Hm as [[Hr ->]|(Hr&Hodd&Hm)]; [left|right].
  - apply (Z.mul_reg_r _ _ (2 ^ k)); [lia|]. rewrite Hnum', Hden. f_equal. lia.
  - split; [done|]. split; [fold p; clear -Hm Hq; destruct Hm; lia|].
    destruct (sticky_div num (sig b) q r m) as [Hl Hu]; [lia|done..|].
    split; apply (Z.mul_lt_mono_pos_r (2 ^ k)); rewrite ?Hnum', ?Hden; try done;
      by apply Z.mul_lt_mono_pos_r.
Qed.

(** *** Addition *)

Lemma jam_spec v s :
  0 ≤ v < 2 ^ 128 → 0 ≤ s →
  jam v s * 2 ^ s = v ∨
  (Z.odd (jam v s) = true ∧ ¬ (2 ^ s | v) ∧ (jam v s - 1) * 2 ^ s < v < (jam v s + 1) * 2 ^ s).
Proof.
  intros Hv Hs. unfold jam. destruct (Z.eqb_spec s 0) as [->|]; [left; lia|].
  pose proof (pow2_pos s Hs). destruct (Z.leb_spec 128 s).
  - assert (2 ^ 128 ≤ 2 ^ s) by (apply Z.pow_le_mono_r; lia).
    destruct (Z.eqb_spec v 0) as [->|]; simpl; [left; lia|right].
    split; [done|]. split; [|lia]. intros Hd%Z.divide_pos_le; lia.
  - rewrite land_low, Z.shiftr_div_pow2 by lia.
    pose proof (Z.div_mod v (2 ^ s) ltac:(lia)) as Hdm.
    pose proof (Z.mod_pos_bound v (2 ^ s) ltac:(lia)).
    destruct (Z.eqb_spec (v mod 2 ^ s) 0) as [Hz|Hz]; simpl Z.b2z.
    + left. rewrite Z.lor_0_r. lia.
    + right. destruct (lor_1_odd (v / 2 ^ s)) as [Hodd Hor]. split; [done|].
      split; [by intros ?%Z.mod_divide; [|lia]|]. destruct Hor as [->| ->]; nia.
Qed.

Lemma odd_even_add a j (b : bool) : Z.odd j = true → Z.odd (if b then 2 * a + j else 2 * a - j) = true.
Proof.
  intros Hj. destruct b; rewrite ?Z.odd_add, ?Z.odd_sub, Z.odd_mul; simpl; by rewrite Hj.
Qed.

(** Arithmetic of the aligned operand [j] of unit [w]. *)
Lemma align_exact a b j w p :
  p ≤ a → 0 ≤ b < p * 2 → j * w = b * 8 → w = 1 ∧ b ≤ a ∨ 2 ≤ w → 0 ≤ j ≤ a * 8.
Proof. intros Ha Hb Hj [[-> ?]|?]; [lia|nia]. Qed.
Lemma align_inexact b j w p :
  0 ≤ b < p * 2 → 16 ≤ w → (j - 1) * w < b * 8 < (j + 1) * w → 0 ≤ j ≤ p.
Proof. intros Hb Hw Hj. nia. Qed.
Lemma sign_scale z k m u : 0 < k → 0 < u → 0 ≤ m → z * k = m * u → 0 ≤ z ∧ (z = 0 ↔ m = 0).
Proof. intros Hk Hu Hm Heq. split; [nia|]. split; intros ->; nia. Qed.
Lemma pos_scale z k m u : 0 < k → 0 < u → 1 ≤ m → (m - 1) * u < z * k → 0 < z.
Proof. intros Hk Hu Hm Hlt. nia. Qed.

(** Aligning the smaller operand with a sticky bit leaves a sticky sum. *)
Lemma add_sticky f a b x y (same : bool) :
  format_ok f → denotes f a x → denotes f b y → normalized f a → normalized f b →
  sig a ≠ 0 → sig b ≠ 0 → below a b = false →
  let j := jam (sig b * 8) (exp a - exp b) in
  let m := if same then sig a * 8 + j else sig a * 8 - j in
  let z := if same then x + y else x - y in
  0 ≤ m < 2 ^ 128 ∧ 0 ≤ z ∧ (z = 0 ↔ m = 0) ∧ (same = true → 0 < m) ∧
  sticky f m (exp a - 3 + f_scale f) z 1.
Proof.
  intros Hf Ha Hb Hna Hnb Ha0 Hb0 Hbelow j m z. destruct (format_facts f Hf) as (Hp&Hβ&_).
  destruct Ha as (_&_&Hsa&Hea&Hda), Hb as (_&_&Hsb&Heb&Hdb).
  destruct Hna as [|Hna], Hnb as [|Hnb]; try done.
  unfold below in Hbelow. apply orb_false_iff in Hbelow as [Hb1 Hb2].
  set (p := f_fraction f) in *. set (s := exp a - exp b) in *. assert (0 ≤ s) as Hs by lia.
  rewrite Z.pow_add_r, Z.pow_1_r in Hsa, Hsb by lia.
  assert (2 ^ p < 2 ^ 53) as Hp53 by (apply Z.pow_lt_mono_r; lia).
  assert (2 ^ 10 ≤ 2 ^ p) as Hp10 by (apply Z.pow_le_mono_r; lia).
  assert (0 < f_scale f) by (unfold f_scale, p in *; lia).
  set (k := 2 * p + f_scale f + 3 + s).
  specialize (Hda k ltac:(lia) ltac:(lia)). specialize (Hdb k ltac:(lia) ltac:(lia)).
  set (v := 2 ^ (exp b + f_scale f - 3 + k)). assert (0 < v) as Hv by (apply pow2_pos; lia).
  pose proof (pow2_pos s Hs) as Hws. set (w := 2 ^ s) in *.
  assert (2 ^ (exp a - 3 + f_scale f + k) = w * v) as Hu.
  { unfold w, v. rewrite <- Z.pow_add_r by lia. f_equal. lia. }
  assert (x * 2 ^ k = sig a * 8 * (w * v)) as Hx.
  { rewrite <- Hda, <- Hu, <- Z.mul_assoc. change 8 with (2 ^ 3). rewrite <- Z.pow_add_r by lia.
    do 2 f_equal. lia. }
  assert (y * 2 ^ k = sig b * 8 * v) as Hy.
  { rewrite <- Hdb. unfold v. rewrite <- Z.mul_assoc. change 8 with (2 ^ 3).
    rewrite <- Z.pow_add_r by lia. do 2 f_equal. lia. }
  assert (0 < 2 ^ k) as Hk by (apply pow2_pos; lia).
  assert (s = 0 ∧ w = 1 ∧ sig b ≤ sig a ∨ 2 ≤ w) as Hw.
  { destruct (decide (s = 0)) as [Hs0|]; [left|right].
    - split; [done|]. split; [unfold w; by rewrite Hs0|]. lia.
    - change 2 with (2 ^ 1). apply Z.pow_le_mono_r; lia. }
  assert (z * 2 ^ k = (if same then sig a * 8 * w + sig b * 8 else sig a * 8 * w - sig b * 8) * v) as Hz.
  { unfold z. destruct same; [rewrite Z.mul_add_distr_r|rewrite Z.mul_sub_distr_r]; rewrite Hx, Hy; ring. }
  destruct (jam_spec (sig b * 8) s ltac:(lia) Hs) as [Hj|(Hodd&Hnd&Hj)]; fold j w in Hj.
  - assert (0 ≤ j ≤ sig a * 8) as Hjr.
    { apply (align_exact _ (sig b) _ w (2 ^ p)); [done|lia|done|tauto]. }
    assert (z * 2 ^ k = m * (w * v)) as Hzm.
    { rewrite Hz, <- Hj. unfold m. destruct same; ring. }
    assert (0 ≤ m < 2 ^ 128) as Hm by (unfold m; clear -Hjr Hsa Hp53; destruct same; lia).
    destruct (sign_scale z (2 ^ k) m (w * v)) as [Hz0 Hzm0];
      [done|by apply Z.mul_pos_pos|apply Hm|done|].
    split; [done|]. split; [done|]. split; [done|].
    split; [intros ->; unfold m; clear -Hjr Hna Hp10; lia|].
    apply (sticky_by k); [lia..|]. left. rewrite Hzm, Hu. lia.
  - assert (16 ≤ w) as Hw16.
    { unfold w. change 16 with (2 ^ 4). apply Z.pow_le_mono_r; [lia|].
      destruct (Z.le_gt_cases s 3); [|lia]. exfalso. apply Hnd.
      apply Z.divide_mul_r. change 8 with (2 ^ 3). apply pow2_divide. lia. }
    assert (0 ≤ j ≤ 2 ^ p) as Hjr by (apply (align_inexact (sig b) j w); [lia|done..]).
    assert (4 * 2 ^ p ≤ m < 2 ^ 128) as Hm
      by (unfold m; clear -Hjr Hna Hsa Hp53; destruct same; lia).
    assert ((m - 1) * (w * v) < z * 2 ^ k < (m + 1) * (w * v)) as Hzm.
    { rewrite Hz, !Z.mul_assoc. unfold m.
      split; apply Z.mul_lt_mono_pos_r; try done; destruct same; lia. }
    assert (0 < z) as Hz0.
    { apply (pos_scale z (2 ^ k) m (w * v)); [done|by apply Z.mul_pos_pos|lia|apply Hzm]. }
    clear Hda Hdb Hx Hy Hz Hj Hw Hws Hnd.
    split; [lia|]. split; [lia|]. split; [lia|]. split; [lia|].
    apply (sticky_by k); [lia..|]. right. rewrite Hu, !Z.mul_1_l.
    split; [|split; [fold p; rewrite Z.pow_add_r by lia; lia|done]].
    unfold m. replace (sig a * 8) with (2 * (sig a * 4)) by ring.
    apply (odd_even_add _ _ same Hodd).
Qed.

Lemma add_ordered_rounds f a b x y :
  format_ok f → denotes f a x → denotes f b y → normalized f a → normalized f b →
  sig a ≠ 0 → sig b ≠ 0 → below a b = false →
  let same := eqb (negative a) (negative b) in
  let z := if same then x + y else x - y in
  0 ≤ z ∧
  (z ≠ 0 → rounds_to f (negative a) z 1 (add_ordered f a b)) ∧
  (z = 0 → add_ordered f a b = signed_bits f (negative a && negative b) 0).
Proof.
  intros Hf Ha Hb Hna Hnb Ha0 Hb0 Hbelow same z. destruct (format_facts f Hf) as (Hp&Hβ&_).
  pose proof Ha as (_&_&Hsa&_). pose proof Hb as (_&_&Hsb&_).
  rewrite Z.pow_add_r, Z.pow_1_r in Hsa, Hsb by lia.
  assert (2 ^ f_fraction f < 2 ^ 53) by (apply Z.pow_lt_mono_r; lia).
  unfold add_ordered. rewrite !Z.shiftl_mul_pow2 by lia. change (2 ^ 3) with 8.
  rewrite !wrapu_id by lia. fold same.
  destruct (add_sticky f a b x y same) as (Hm&Hz&Hzm&Hpos&Hst); auto.
  fold z in Hz, Hzm, Hst. set (j := jam (sig b * 8) (exp a - exp b)) in *.
  set (m := if same then sig a * 8 + j else sig a * 8 - j) in *.
  assert ((if same then f_pack f (negative a) (sig a * 8 + j) (exp a - 3)
           else f_pack f (negative a && negb (sig a * 8 =? j)) (sig a * 8 - j) (exp a - 3)) =
          f_pack f (negative a && (same || negb (m =? 0))) m (exp a - 3)) as ->.
  { unfold m. destruct same; simpl; [by rewrite andb_true_r|]. do 3 f_equal.
    destruct (Z.eqb_spec (sig a * 8) j), (Z.eqb_spec (sig a * 8 - j) 0); lia. }
  split; [done|]. split.
  - intros Hz0. rewrite (proj2 (Z.eqb_neq m 0)), orb_true_r, andb_true_r by tauto.
    apply f_pack_rounds; auto with lia.
  - intros Hz0. assert (m = 0) as Hm0 by tauto. rewrite Hm0, f_pack_zero by done. f_equal.
    assert (same = false) as Hsame by (destruct same; [specialize (Hpos eq_refl); lia|done]).
    rewrite Hsame. subst same. by destruct (negative a), (negative b).
Qed.

(** *** Remainder *)

Lemma frem_loop_spec fuel : ∀ r power shift m,
  0 < m → 0 ≤ shift < 2 ^ Z.of_nat fuel → 0 ≤ r < m → 0 ≤ power →
  frem_loop fuel r power shift m = (r * power ^ shift) mod m.
Proof.
  induction fuel as [|fuel IH]; intros r power shift m Hm Hs Hr Hpow; simpl.
  { change (2 ^ Z.of_nat 0) with 1 in Hs. assert (shift = 0) as -> by lia. rewrite Z.pow_0_r, Z.mul_1_r, Z.mod_small; done. }
  destruct (Z.eqb_spec shift 0) as [->|].
  { rewrite Z.pow_0_r, Z.mul_1_r, Z.mod_small; done. }
  rewrite Nat2Z.inj_succ, Z.pow_succ_r in Hs by lia.
  rewrite land_1_odd, Z.shiftr_div_pow2, Z.pow_1_r by lia.
  pose proof (Z.div_mod shift 2 ltac:(lia)) as Hdm. rewrite Zmod_odd in Hdm.
  assert (0 ≤ shift / 2 < 2 ^ Z.of_nat fuel) as Hs2.
  { split; [apply Z.div_pos; lia|apply Z.div_lt_upper_bound; lia]. }
  set (r' := if Z.odd shift then _ else r).
  assert (0 ≤ r' < m) as Hr' by (unfold r'; destruct (Z.odd shift); [apply Z.mod_pos_bound|]; lia).
  rewrite IH; [|done|done|done|apply Z.mod_pos_bound; lia].
  rewrite <- Z.mul_mod_idemp_r, Zpower_mod, Z.mod_mod, <- Zpower_mod, Z.mul_mod_idemp_r by lia.
  assert ((power * power) ^ (shift / 2) = power ^ (2 * (shift / 2))) as Hsq.
  { rewrite Z.pow_mul_r, Z.pow_2_r by lia. done. }
  rewrite Hsq. unfold r'. destruct (Z.odd shift).
  - rewrite Z.mul_mod_idemp_l by lia. f_equal. rewrite Hdm at 2.
    rewrite Z.pow_add_r, Z.pow_1_r by lia. ring.
  - do 2 f_equal. f_equal. lia.
Qed.

Lemma mul_pow_mod a c s m : 0 < m → (a mod m * (c mod m) ^ s) mod m = (a * c ^ s) mod m.
Proof.
  intros Hm. rewrite Z.mul_mod_idemp_l, <- (Z.mul_mod_idemp_r a ((c mod m) ^ s)) by lia.
  rewrite <- (Zpower_mod c s m) by lia. by rewrite Z.mul_mod_idemp_r by lia.
Qed.

(** A significand of at most [f_fraction + 1] bits at an exponent of the format is
    representable. *)
Lemma representable f s c x :
  format_ok f → 0 ≤ s < 2 ^ (f_fraction f + 1) → c < 2 * f_bias f → 0 ≤ x →
  (∃ k, 0 ≤ k ∧ 0 ≤ c + k ∧ x * 2 ^ k = s * 2 ^ (c + k)) →
  ∃ b, 0 ≤ b < f_infinity f ∧ mag f b = x.
Proof.
  intros Hf Hs Hc Hx (k & Hk & Hck & Heq). destruct (format_facts f Hf) as (Hp&Hβ&_&_&->&_).
  rewrite Z.pow_add_r, Z.pow_1_r in Hs by lia. pose proof (pow2_pos k Hk) as Hk'.
  assert (∃ t q, 0 ≤ t < 2 * f_bias f ∧ 0 ≤ q < 2 ^ f_fraction f * 2 ∧
            (t = 0 ∨ 2 ^ f_fraction f ≤ q) ∧ x = q * 2 ^ t) as (t & q & Ht & Hq & Hor & ->).
  { destruct (Z.lt_ge_cases c 0).
    - exists 0, x. split; [lia|]. split; [|lia]. split; [done|].
      assert (2 ^ k = 2 ^ (c + k) * 2 ^ (- c)) as H2k by (rewrite <- Z.pow_add_r by lia; f_equal; lia).
      pose proof (pow2_pos (c + k) Hck). pose proof (pow2_pos (- c) ltac:(lia)).
      rewrite H2k, Z.mul_assoc, (Z.mul_comm x), <- Z.mul_assoc, (Z.mul_comm s) in Heq.
      apply Z.mul_reg_l in Heq; [|lia]. nia.
    - assert (x = s * 2 ^ c) as ->.
      { rewrite Z.pow_add_r, Z.mul_assoc in Heq by lia. apply Z.mul_reg_r in Heq; lia. }
      destruct (decide (s = 0)) as [->|Hs0]; [exists 0, 0; lia|].
      destruct (Z.log2_spec s ltac:(lia)) as [Hlo Hhi]. pose proof (Z.log2_nonneg s).
      assert (Z.log2 s ≤ f_fraction f).
      { destruct (Z.log2_lt_pow2 s (f_fraction f + 1)); [lia|].
        rewrite Z.pow_add_r, Z.pow_1_r in * by lia. lia. }
      set (j := Z.min c (f_fraction f - Z.log2 s)).
      exists (c - j), (s * 2 ^ j). pose proof (pow2_pos j ltac:(lia)).
      split; [lia|]. split; [split; [lia|]|split].
      + apply Z.lt_le_trans with (2 ^ Z.succ (Z.log2 s) * 2 ^ j); [nia|].
        rewrite <- Z.pow_add_r by lia. rewrite <- (Z.pow_1_r 2) at 3.
        rewrite <- Z.pow_add_r by lia. apply Z.pow_le_mono_r; lia.
      + destruct (decide (j = c)); [left; lia|right].
        transitivity (2 ^ Z.log2 s * 2 ^ j); [|nia].
        rewrite <- Z.pow_add_r by lia. apply Z.pow_le_mono_r; lia.
      + rewrite <- Z.mul_assoc, <- Z.pow_add_r by lia. do 2 f_equal. lia. }
  exists (t * 2 ^ f_fraction f + q). split; [nia|].
  apply mag_encode; [done|lia| |done]. rewrite Z.pow_add_r, Z.pow_1_r by lia. lia.
Qed.

Lemma rem_exact f lhs a b x y :
  format_ok f → operand f lhs a → float_ok lhs → format_of lhs = f → is_finite lhs = true →
  x = mag f (magnitude lhs) → denotes f b y → normalized f b → y ≠ 0 →
  ∃ c, rem_parts f lhs a b = signed_bits f (negative a) c ∧ 0 ≤ c < f_infinity f ∧
       mag f c = x mod y.
Proof.
  intros Hf (Ha&Hna&Hneg) Hlhs Hfl Hfin -> Hb Hnb Hy. destruct (format_facts f Hf) as (Hp&Hβ&_).
  destruct (denotes_pos _ _ _ Ha) as [Hx Hax], (denotes_pos _ _ _ Hb) as [Hy0 Hby].
  set (x := mag f (magnitude lhs)) in *.
  destruct Ha as (_&Hai&Hsa&Hea&Hda), Hb as (_&Hbi&Hsb&Heb&Hdb).
  assert (sig b ≠ 0) as Hsb0 by tauto. destruct Hnb as [|Hnb]; [done|].
  assert (x < y ∨ x = 0 → ∃ c, lhs = signed_bits f (negative a) c ∧ 0 ≤ c < f_infinity f ∧
            mag f c = x mod y) as Hsame.
  { intros Hxy. exists (magnitude lhs). split; [by rewrite Hneg, <- Hfl, signed_bits_eta|].
    split.
    - unfold is_finite in Hfin. rewrite Hfl in Hfin.
      pose proof (magnitude_range lhs Hlhs). lia.
    - fold x. rewrite Z.mod_small; lia. }
  unfold rem_parts. rewrite Hai, Hbi, (proj2 (Z.eqb_neq (sig b) 0)) by done.
  cbn [andb orb negb]. assert (0 < f_scale f) by (unfold f_scale; lia). set (k := f_fraction f + f_scale f).
  specialize (Hda k ltac:(lia) ltac:(lia)). specialize (Hdb k ltac:(lia) ltac:(lia)).
  assert (0 < 2 ^ k) as Hk by (apply pow2_pos; lia).
  destruct (Z.eqb_spec (sig a) 0) as [Hz|Hz]; [apply Hsame; tauto|].
  destruct (Z.ltb_spec (exp a) (exp b)) as [He|He]; cbn [orb].
  { apply Hsame. left. rewrite Z.pow_add_r, Z.pow_1_r in Hsa by lia.
    apply (Z.mul_lt_mono_pos_r (2 ^ k)); [done|]. rewrite <- Hda, <- Hdb.
    apply Z.lt_le_trans with (2 ^ f_fraction f * 2 ^ (exp b + f_scale f + k)).
    - apply small_mag; lia.
    - apply Z.mul_le_mono_nonneg_r; [|done]. apply Z.pow_nonneg. lia. }
  rewrite frem_loop_spec; [|lia| |apply Z.mod_pos_bound; lia|apply Z.mod_pos_bound; lia].
  2:{ split; [lia|]. assert (2 ^ 12 ≤ 2 ^ Z.of_nat 32) by (apply Z.pow_le_mono_r; lia).
      unfold f_scale in *. lia. }
  set (s := exp a - exp b).
  assert ((sig a mod sig b * (2 mod sig b) ^ s) mod sig b = (sig a * 2 ^ s) mod sig b) as ->.
  { apply mul_pow_mod. lia. }
  set (r := (sig a * 2 ^ s) mod sig b).
  assert (0 ≤ r < sig b) as Hr by (apply Z.mod_pos_bound; lia).
  assert ((x mod y) * 2 ^ k = r * 2 ^ (exp b + f_scale f + k)) as Hxy.
  { rewrite <- Z.mul_mod_distr_r, <- Hda, <- Hdb by lia.
    replace (exp a + f_scale f + k) with (s + (exp b + f_scale f + k)) by lia.
    rewrite Z.pow_add_r, Z.mul_assoc by lia.
    rewrite Z.mul_mod_distr_r; [done|lia|]. apply Z.pow_nonzero; lia. }
  destruct (representable f r (exp b + f_scale f) (x mod y)) as (c & Hc & Hmag); [done|lia|lia| | |].
  { apply Z.mod_pos_bound. lia. }
  { exists k. split_and!; [lia|lia|done]. }
  exists c. split; [|done]. apply (rounds_exact f _ r (exp b)); [done| |lia| |done].
  - split; [lia|]. assert (2 ^ (f_fraction f + 1) ≤ 2 ^ 128) by (apply Z.pow_le_mono_r; lia). lia.
  - exists k. rewrite Hmag. split_and!; [lia|lia|done].
Qed.

(** The bounds under which the code's unchecked [u128] and [i32] arithmetic is exact:
    products, shifted numerators, aligned sums and the remainder loop fit a [u128],
    and exponents fit an [i32] with room for the packer's adjustments. *)
Lemma significands_fit f a b x y :
  format_ok f → denotes f a x → denotes f b y →
  sig a * sig b < 2 ^ 106 ∧ sig a * 2 ^ (f_fraction f + 4) < 2 ^ 109 ∧
  sig a * 8 + (sig b * 8 + 1) < 2 ^ 58 ∧
  (∀ r power, 0 ≤ r < sig b → 0 ≤ power < sig b → r * power < 2 ^ 106) ∧
  Z.abs (exp a) < 2 ^ 12 ∧ Z.abs (exp b) < 2 ^ 12 ∧ Z.abs (exp a + exp b) < 2 ^ 13 ∧
  Z.abs (exp a - exp b - (f_fraction f + 4)) < 2 ^ 13.
Proof.
  intros Hf (_&_&Hsa&Hea&_) (_&_&Hsb&Heb&_). destruct (format_facts f Hf) as (Hp&Hβ&_).
  assert (2 ^ (f_fraction f + 1) ≤ 2 ^ 53) as H53 by (apply Z.pow_le_mono_r; lia).
  assert (2 ^ (f_fraction f + 4) ≤ 2 ^ 56) as H56 by (apply Z.pow_le_mono_r; lia).
  pose proof (pow2_pos (f_fraction f + 4) ltac:(lia)).
  change (2 ^ 106) with (2 ^ 53 * 2 ^ 53). change (2 ^ 109) with (2 ^ 53 * 2 ^ 56).
  unfold f_scale in *. split_and!; [nia|nia|lia|intros; nia|lia..].
Qed.

(** ** The operations *)

Definition with_sign (neg : bool) (x : Z) : Z := if neg then - x else x.

Lemma scaled_eq v f : format_of v = f → scaled v = with_sign (is_negative v) (mag f (magnitude v)).
Proof. intros <-. unfold scaled, with_sign. destruct (is_negative v); lia. Qed.

(** [correct f n d neg0 z]: [z] is the rounding of the signed rational [n / d], a zero
    taking the sign [neg0]. *)
Definition correct (f : Format) (n d : Z) (neg0 : bool) (z : FloatBits) : Prop :=
  rounds_to f (if n =? 0 then neg0 else n <? 0) (Z.abs n) d z.

Lemma pack_denotes f a x neg :
  format_ok f → denotes f a x → sig a ≠ 0 → rounds_to f neg x 1 (f_pack f neg (sig a) (exp a)).
Proof.
  intros Hf (_&_&Hs&He&Hd) Hs0. destruct (format_facts f Hf) as (Hp&Hβ&_).
  assert (0 < f_scale f) by (unfold f_scale; lia).
  assert (2 ^ (f_fraction f + 1) ≤ 2 ^ 128) by (apply Z.pow_le_mono_r; lia).
  apply f_pack_rounds; [done|lia|lia|].
  set (k := f_fraction f + f_scale f). specialize (Hd k ltac:(lia) ltac:(lia)).
  apply (sticky_by k); [lia..|]. left. lia.
Qed.

Lemma add_correct f a b x y :
  format_ok f → denotes f a x → denotes f b y → normalized f a → normalized f b →
  correct f (with_sign (negative a) x + with_sign (negative b) y) 1
    (negative a && negative b) (add_parts f a b).
Proof.
  intros Hf Ha Hb Hna Hnb.
  destruct (denotes_pos _ _ _ Ha) as [Hx Hax], (denotes_pos _ _ _ Hb) as [Hy Hby].
  pose proof Ha as (_&Hai&_). pose proof Hb as (_&Hbi&_).
  unfold add_parts, correct. rewrite Hai, Hbi. cbn [orb].
  destruct (Z.eqb_spec (sig a) 0) as [Ha0|Ha0], (Z.eqb_spec (sig b) 0) as [Hb0|Hb0]; cbn [andb].
  - assert (x = 0) as -> by tauto. assert (y = 0) as -> by tauto.
    replace (with_sign _ 0 + with_sign _ 0) with 0
      by (destruct (negative a), (negative b); done).
    rewrite special_eq by done. by apply signed_zero_rounds.
  - assert (x = 0) as -> by tauto. assert (y ≠ 0) by tauto.
    replace (with_sign (negative a) 0) with 0 by (by destruct (negative a)).
    assert ((if 0 + with_sign (negative b) y =? 0 then negative a && negative b
             else 0 + with_sign (negative b) y <? 0) = negative b) as ->
      by (destruct (negative b); simpl; rewrite (proj2 (Z.eqb_neq _ _)) by lia; lia).
    replace (Z.abs (0 + with_sign (negative b) y)) with y by (destruct (negative b); simpl; lia).
    by apply pack_denotes.
  - assert (y = 0) as -> by tauto. assert (x ≠ 0) by tauto.
    replace (with_sign (negative b) 0) with 0 by (by destruct (negative b)).
    assert ((if with_sign (negative a) x + 0 =? 0 then negative a && negative b
             else with_sign (negative a) x + 0 <? 0) = negative a) as ->
      by (destruct (negative a); simpl; rewrite (proj2 (Z.eqb_neq _ _)) by lia; lia).
    replace (Z.abs (with_sign (negative a) x + 0)) with x by (destruct (negative a); simpl; lia).
    by apply pack_denotes.
  - assert (∀ a b x y, denotes f a x → denotes f b y → normalized f a → normalized f b →
      sig a ≠ 0 → sig b ≠ 0 → below a b = false →
      correct f (with_sign (negative a) x + with_sign (negative b) y) 1
        (negative a && negative b) (add_ordered f a b)) as Hord.
    { clear -Hf. intros a b x y Ha Hb Hna Hnb Ha0 Hb0 Hbelow.
      destruct (add_ordered_rounds f a b x y) as (Hz&Hr&H0); try done.
      destruct (denotes_pos _ _ _ Ha) as [Hx _], (denotes_pos _ _ _ Hb) as [Hy _].
      set (z := if eqb _ _ then x + y else x - y) in *.
      assert (with_sign (negative a) x + with_sign (negative b) y = with_sign (negative a) z) as ->
        by (unfold z, with_sign; destruct (negative a), (negative b); simpl; lia).
      unfold correct. destruct (decide (z = 0)) as [Hz0|Hz0].
      - rewrite (H0 Hz0), Hz0.
        replace (with_sign (negative a) 0) with 0 by (by destruct (negative a)).
        by apply signed_zero_rounds.
      - assert ((if with_sign (negative a) z =? 0 then negative a && negative b
                 else with_sign (negative a) z <? 0) = negative a) as ->
          by (destruct (negative a); simpl; rewrite (proj2 (Z.eqb_neq _ _)) by lia; lia).
        replace (Z.abs (with_sign (negative a) z)) with z by (destruct (negative a); simpl; lia).
        auto. }
    destruct (below a b) eqn:Hbelow.
    + rewrite Z.add_comm, (andb_comm (negative a)). apply Hord; try done.
      unfold below in *. lia.
    + by apply Hord.
Qed.

Lemma signed_product_sign f n d neg x z :
  rounds_to f neg x d z → 0 ≤ x → n = with_sign neg x → correct f n d neg z.
Proof.
  intros Hr Hx ->. unfold correct.
  replace (Z.abs (with_sign neg x)) with x by (destruct neg; simpl; lia).
  destruct (Z.eqb_spec (with_sign neg x) 0); [done|].
  replace (with_sign neg x <? 0) with neg; [done|]. destruct neg; simpl in *; lia.
Qed.

(** The exact result of an operation on [x] and [y], as a signed rational in magnitude
    units, and the sign of an exact zero. *)
Definition exact_result (op : BinOp.t) (f : Format) (x y : Z) : option (Z * Z) :=
  match op with
  | BinOp.FAdd => Some (x + y, 1)
  | BinOp.FSub => Some (x - y, 1)
  | BinOp.FMul => Some (x * y, 2 ^ f_scale f)
  | BinOp.FDiv => if y =? 0 then None else Some (Z.sgn y * x * 2 ^ f_scale f, Z.abs y)
  | _ => None
  end.
Definition zero_sign (op : BinOp.t) (x y : FloatBits) : bool :=
  match op with
  | BinOp.FAdd => is_negative x && is_negative y
  | BinOp.FSub => is_negative x && negb (is_negative y)
  | _ => xorb (is_negative x) (is_negative y)
  end.

Lemma normalize_set_negative f v p : normalize f (set_negative v p) = set_negative v (normalize f p).
Proof. unfold normalize, set_negative. simpl. by destruct (negb _). Qed.

Lemma normalize_negative f p : negative (normalize f p) = negative p.
Proof. unfold normalize. by destruct (negb _). Qed.

(** What [arithmetic] does once NaNs are excluded. *)
Definition on_parts (op : BinOp.t) (f : Format) (lhs : FloatBits) (a b : Parts) : option FloatBits :=
  match op with
  | BinOp.FAdd => Some (add_parts f a b)
  | BinOp.FSub => Some (add_parts f a (set_negative (negb (negative b)) b))
  | BinOp.FMul => Some (mul_parts f a b)
  | BinOp.FDiv => Some (div_parts f a b)
  | BinOp.FRem => Some (rem_parts f lhs a b)
  | _ => None
  end.

Lemma arithmetic_parts op x y :
  float_ok x → float_ok y → width x = width y → is_nan x || is_nan y = false →
  ∃ a b,
    (is_finite x = true → operand (format_of x) x a) ∧
    (is_finite y = true → operand (format_of x) y b) ∧
    arithmetic op x y = on_parts op (format_of x) x a b ∧
    (infinity a = is_infinite x ∧ negative a = is_negative x ∧ (is_infinite x = true → sig a = 0)) ∧
    (infinity b = is_infinite y ∧ negative b = is_negative y ∧ (is_infinite y = true → sig b = 0)).
Proof.
  intros Hx Hy Hw [Hnx Hny]%orb_false_iff.
  assert (format_of y = format_of x) as Hfmt by (by destruct x, y).
  assert (∀ v, float_ok v → let p := unpack (format_of v) v in
    nan p = is_nan v ∧ infinity (normalize (format_of v) p) = is_infinite v ∧
    negative (normalize (format_of v) p) = is_negative v ∧
    (is_infinite v = true → sig (normalize (format_of v) p) = 0)) as Hparts.
  { intros v Hv p. subst p. rewrite normalize_negative, unpack_eq by done. cbn [nan negative].
    split; [done|]. split; [unfold normalize; by destruct (negb _)|]. split; [done|].
    intros Hinf. unfold is_infinite in Hinf. apply Z.eqb_eq in Hinf. rewrite <- Hinf.
    unfold normalize. cbn [sig].
    destruct (format_facts _ (format_of_ok v)) as (?&?&_&_&->&_).
    pose proof (pow2_pos (f_fraction (format_of v)) ltac:(lia)).
    by rewrite Z.div_mul, Z.mod_mul, Z.eqb_refl, orb_true_r by lia. }
  destruct (Hparts x Hx) as (Hx1&Hx2&Hx3&Hx4), (Hparts y Hy) as (Hy1&Hy2&Hy3&Hy4).
  rewrite Hfmt in Hy1, Hy2, Hy3, Hy4. pose proof (operand_of y Hy) as Hoy. rewrite Hfmt in Hoy.
  exists (normalize (format_of x) (unpack (format_of x) x)),
    (normalize (format_of x) (unpack (format_of x) y)).
  split; [by apply operand_of|]. split; [done|]. split; [|done].
  unfold arithmetic. rewrite (proj2 (Z.eqb_eq _ _) Hw), Hx1, Hy1, Hnx, Hny. cbn [negb orb].
  unfold on_parts.
  destruct (decide (op = BinOp.FSub)) as [->|Hop].
  - by rewrite normalize_set_negative, normalize_negative.
  - by destruct op.
Qed.

(** C26: each of the four IEEE operations on finite operands returns the correctly
    rounded result: the float nearest to the exact sum, difference, product or
    quotient, ties to even, overflow to infinity, with the sign of the exact result (or
    IEEE's sign of an exact zero). *)
Theorem arithmetic_correctly_rounded op x y n d
    (Hx : float_ok x) (Hy : float_ok y) (Hw : width x = width y)
    (Hfx : is_finite x = true) (Hfy : is_finite y = true)
    (Hop : exact_result op (format_of x) (scaled x) (scaled y) = Some (n, d)) :
  ∃ z, arithmetic op x y = Some z ∧ correct (format_of x) n d (zero_sign op x y) z.
Proof.
  assert (format_of y = format_of x) as Hfmt by (by destruct x, y).
  destruct (nan_not_finite x Hfx) as [Hx1 _], (nan_not_finite y Hfy) as [Hy1 _].
  destruct (arithmetic_parts op x y) as (a & b & Ha & Hb & -> & _ & _); [done..|by rewrite Hx1, Hy1|].
  destruct (Ha Hfx) as (Hdx&Hnx&Hsx), (Hb Hfy) as (Hdy&Hny&Hsy). clear Ha Hb.
  pose proof (format_of_ok x) as Hf. set (f := format_of x) in *.
  rewrite (scaled_eq x f), (scaled_eq y f) in Hop by done. unfold zero_sign.
  destruct (denotes_pos _ _ _ Hdx) as [Hx0 _], (denotes_pos _ _ _ Hdy) as [Hy0 _].
  rewrite <- Hsx, <- Hsy in *.
  set (mx := mag f (magnitude x)) in *. set (my := mag f (magnitude y)) in *.
  destruct op; try discriminate Hop; simpl in Hop.
  - injection Hop as <- <-. eexists. split; [reflexivity|]. by apply add_correct.
  - injection Hop as <- <-. eexists. split; [reflexivity|].
    replace (_ - with_sign (negative b) my) with
      (with_sign (negative a) mx + with_sign (negb (negative b)) my)
      by (unfold with_sign; destruct (negative b); simpl; lia).
    by apply (add_correct f a (set_negative (negb (negative b)) b)).
  - injection Hop as <- <-. eexists. split; [reflexivity|].
    eapply signed_product_sign; [by apply mul_rounds|by apply Z.mul_nonneg_nonneg|].
    unfold with_sign. destruct (negative a), (negative b); simpl; ring.
  - destruct (Z.eqb_spec (with_sign (negative b) my) 0) as [|Hmy]; [done|].
    injection Hop as <- <-. eexists. split; [reflexivity|].
    assert (my ≠ 0) as Hmy' by (destruct (negative b); simpl in Hmy; lia).
    replace (Z.abs (with_sign (negative b) my)) with my by (destruct (negative b); simpl; lia).
    pose proof (pow2_pos (f_scale f)).
    eapply signed_product_sign; [by apply div_rounds|apply Z.mul_nonneg_nonneg; [done|]|].
    + apply Z.pow_nonneg. lia.
    + unfold with_sign. destruct (negative a), (negative b); simpl;
        rewrite ?Z.sgn_neg, ?Z.sgn_pos by lia; ring.
Qed.

Lemma arithmetic_correctly_rounded_witness :
  ∃ z, arithmetic BinOp.FDiv (F16Bits 0x3c00) (F16Bits 0xc200) = Some z ∧
       correct (format_of (F16Bits 0)) (- 2 ^ 24 * 2 ^ 24) (3 * 2 ^ 24) true z.
Proof.
  apply (arithmetic_correctly_rounded BinOp.FDiv (F16Bits 0x3c00) (F16Bits 0xc200));
    first [reflexivity|split; vm_compute; congruence].
Defined.

Lemma is_nan_signed_bits f neg b :
  format_ok f → 0 ≤ b < 2 ^ (f_width f - 1) →
  is_nan (signed_bits f neg b) = (f_infinity f <? b) ∧
  is_finite (signed_bits f neg b) = (b <? f_infinity f).
Proof.
  intros Hf Hb. destruct (signed_bits_fields f neg b Hf Hb) as (H1&_&_&H2).
  unfold is_nan, is_finite. by rewrite H1, H2.
Qed.

Lemma infinity_range f : format_ok f → 0 < f_infinity f < 2 ^ (f_width f - 1).
Proof.
  intros Hf. destruct (format_facts f Hf) as (Hp&Hβ&_&->&->&_).
  pose proof (pow2_pos (f_fraction f) ltac:(lia)). nia.
Qed.

Lemma mag_nonneg f b : format_ok f → 0 ≤ b → 0 ≤ mag f b.
Proof.
  intros Hf Hb. destruct (mag_decompose f b Hf Hb) as (t&q&?&?&_&_&->).
  apply Z.mul_nonneg_nonneg; [lia|apply Z.pow_nonneg; lia].
Qed.

(** C36: the remainder of finite operands by a nonzero divisor is exact: it is the
    truncated remainder of the two values, with the sign of the dividend, and the
    modular-exponentiation loop reaches it. *)
Theorem remainder_exact x y
    (Hx : float_ok x) (Hy : float_ok y) (Hw : width x = width y)
    (Hfx : is_finite x = true) (Hfy : is_finite y = true) (Hy0 : scaled y ≠ 0) :
  ∃ z, arithmetic BinOp.FRem x y = Some z ∧ is_finite z = true ∧
       is_negative z = is_negative x ∧ scaled z = Z.rem (scaled x) (scaled y).
Proof.
  assert (format_of y = format_of x) as Hfmt by (by destruct x, y).
  pose proof (format_of_ok x) as Hf.
  destruct (nan_not_finite x Hfx) as [Hx1 _], (nan_not_finite y Hfy) as [Hy1 _].
  rewrite (scaled_eq y (format_of x)) in * by done. rewrite (scaled_eq x (format_of x)) by done.
  destruct (arithmetic_parts BinOp.FRem x y) as (a & b & Ha & Hb & -> & _ & _);
    [done..|by rewrite Hx1, Hy1|].
  pose proof (Ha Hfx) as Hox. destruct (Hb Hfy) as (Hdy&Hny&_). cbn [on_parts].
  destruct (rem_exact (format_of x) x _ _ _ _ Hf Hox Hx eq_refl Hfx eq_refl Hdy Hny)
    as (c & Hz & Hc & Hmag).
  { intros H0. apply Hy0. rewrite H0. by destruct (is_negative y). }
  eexists. split; [by rewrite Hz|]. destruct Hox as (_&_&->).
  pose proof (infinity_range _ Hf).
  destruct (signed_bits_fields (format_of x) (is_negative x) c Hf) as (H1&_&H2&H3); [lia|].
  rewrite (proj2 (is_nan_signed_bits (format_of x) (is_negative x) c Hf ltac:(lia))).
  split; [lia|]. split; [done|].
  rewrite (scaled_eq _ (format_of x)), H2, H3, Hmag by done.
  pose proof (mag_nonneg _ _ Hf (proj1 (magnitude_range x Hx))).
  pose proof (mag_nonneg _ _ Hf (proj1 (magnitude_range y Hy))).
  assert (mag (format_of x) (magnitude y) ≠ 0).
  { intros Hm0. apply Hy0. rewrite Hm0. by destruct (is_negative y). }
  rewrite <- Z.rem_mod_nonneg by lia.
  unfold with_sign in *. destruct (is_negative x), (is_negative y);
    rewrite ?Z.rem_opp_l, ?Z.rem_opp_r by lia; done.
Qed.

Lemma remainder_exact_witness :
  ∃ z, arithmetic BinOp.FRem (F16Bits 0xc900) (F16Bits 0x4200) = Some z ∧ is_finite z = true ∧
       is_negative z = true ∧ scaled z = Z.rem (-10 * 2 ^ 24) (3 * 2 ^ 24).
Proof.
  apply (remainder_exact (F16Bits 0xc900) (F16Bits 0x4200));
    first [reflexivity|split; vm_compute; congruence|vm_compute; congruence].
Defined.

(** ** Comparison *)

Lemma land_pow2_bit z k : 0 ≤ k → Z.land z (2 ^ k) = if Z.testbit z k then 2 ^ k else 0.
Proof.
  intros Hk. apply Z.bits_inj'. intros i Hi. rewrite Z.land_spec.
  destruct (decide (i = k)) as [->|].
  - rewrite Z.pow2_bits_true, andb_true_r by done.
    destruct (Z.testbit z k); by rewrite ?Z.pow2_bits_true, ?Z.bits_0.
  - rewrite Z.pow2_bits_false, andb_false_r by done.
    destruct (Z.testbit z k); by rewrite ?Z.pow2_bits_false, ?Z.bits_0.
Qed.

Lemma sign_bit v : float_ok v → Z.testbit (bits v) (width v - 1) = is_negative v.
Proof.
  intros Hv. assert (0 < width v) by (destruct v; simpl; lia).
  pose proof (land_top_bit (width v) (bits v) ltac:(done) Hv) as Hl.
  rewrite land_pow2_bit in Hl by lia. pose proof (pow2_pos (width v - 1) ltac:(lia)).
  unfold is_negative. destruct (Z.testbit _ _), (Z.ltb_spec (bits v) (2 ^ (width v - 1))); lia.
Qed.

Lemma land_field z n p : 0 ≤ n → 0 ≤ p → Z.land z ((2 ^ n - 1) * 2 ^ p) = (z / 2 ^ p) mod 2 ^ n * 2 ^ p.
Proof.
  intros Hn Hp. replace (2 ^ n - 1) with (Z.ones n) by (rewrite Z.ones_equiv; lia).
  apply Z.bits_inj'. intros i Hi. rewrite Z.land_spec.
  destruct (Z.lt_ge_cases i p); [rewrite !Z.mul_pow2_bits_low by done; apply andb_false_r|].
  rewrite !Z.mul_pow2_bits by lia. rewrite <- Z.land_ones, Z.land_spec by lia.
  rewrite <- Z.shiftr_div_pow2, Z.shiftr_spec by lia. do 2 f_equal. lia.
Qed.

(** The four outcomes of a comparison each predicate accepts. *)
Definition accepts (p : FCmpPred.t) (unordered : bool) (c : comparison) : bool :=
  let '(lt, eq, gt, un) :=
    match p with
    | FCmpPred.Oeq => (false, true, false, false)
    | FCmpPred.One => (true, false, true, false)
    | FCmpPred.Olt => (true, false, false, false)
    | FCmpPred.Ole => (true, true, false, false)
    | FCmpPred.Ogt => (false, false, true, false)
    | FCmpPred.Oge => (false, true, true, false)
    | FCmpPred.Ord => (true, true, true, false)
    | FCmpPred.Uno => (false, false, false, true)
    | FCmpPred.Ueq => (false, true, false, true)
    | FCmpPred.Une => (true, false, true, true)
    | FCmpPred.Ult => (true, false, false, true)
    | FCmpPred.Ule => (true, true, false, true)
    | FCmpPred.Ugt => (false, false, true, true)
    | FCmpPred.Uge => (false, true, true, true)
    end in
  if unordered then un else match c with Lt => lt | Eq => eq | Gt => gt end.

Lemma compare_fields v :
  float_ok v →
  let '(exponent, fraction) :=
    match v with
    | F16Bits _ => (0x7c00, 0x03ff)
    | F32Bits _ => (0x7f800000, 0x007fffff)
    | F64Bits _ => (0x7ff0000000000000, 0x000fffffffffffff)
    end in
  exponent = f_infinity (format_of v) ∧
  ∀ w, float_ok w → format_of w = format_of v →
    (Z.land (bits w) exponent =? exponent) && negb (Z.land (bits w) fraction =? 0) = is_nan w.
Proof.
  intros Hv.
  set (ef := match v with F16Bits _ => _ | F32Bits _ => _ | F64Bits _ => _ end).
  assert (ef = (f_infinity (format_of v), 2 ^ f_fraction (format_of v) - 1)) as -> by (by destruct v).
  split; [done|]. intros w Hw Hfmt. rewrite <- Hfmt. pose proof (format_of_ok w) as Hf.
  destruct (format_facts _ Hf) as (Hp&Hβ&Hwd&Hs&Hinf&_).
  unfold is_nan. set (f := format_of w) in *.
  assert (2 * f_bias f + 1 = 2 ^ (f_width f - 1 - f_fraction f) - 1) as Hexp
    by (unfold f; by destruct w).
  pose proof (pow2_pos (f_fraction f) ltac:(lia)).
  rewrite Hinf, Hexp at 1 2. rewrite land_field, land_mask by lia.
  set (n := f_width f - 1 - f_fraction f) in *.
  assert (magnitude w = (bits w / 2 ^ f_fraction f) mod 2 ^ n * 2 ^ f_fraction f
            + wrapu (f_fraction f) (bits w)) as Hmag.
  { unfold magnitude, wrapu. rewrite <- width_format. fold f.
    replace (f_width f - 1) with (f_fraction f + n) by lia. rewrite Z.pow_add_r by lia.
    rewrite Z.rem_mul_r by (try apply pow2_pos; lia). lia. }
  assert (0 ≤ wrapu (f_fraction f) (bits w) < 2 ^ f_fraction f) as Hm by (apply wrapu_range; lia).
  assert (0 ≤ (bits w / 2 ^ f_fraction f) mod 2 ^ n < 2 ^ n) as He
    by (apply Z.mod_pos_bound, pow2_pos; lia).
  rewrite Hmag, Hinf, Hexp. set (e := (bits w / _) mod _) in *. set (m := wrapu _ _) in *.
  destruct (decide (e = 2 ^ n - 1)) as [->|Hne].
  - rewrite Z.eqb_refl. cbn [andb]. destruct (Z.eqb_spec m 0); simpl; lia.
  - rewrite (proj2 (Z.eqb_neq _ _)) by nia. simpl. symmetry. apply Z.ltb_ge. nia.
Qed.

Lemma mag_compare f b c :
  format_ok f → 0 ≤ b → 0 ≤ c → Z.compare (mag f b) (mag f c) = Z.compare b c.
Proof.
  intros Hf Hb Hc. destruct (Z.compare_spec b c) as [->|?|?].
  - apply Z.compare_refl.
  - apply Z.compare_lt_iff, mag_mono; [done|lia].
  - apply Z.compare_gt_iff, mag_mono; [done|lia].
Qed.

Lemma bits_split v : float_ok v → bits v = Z.b2z (is_negative v) * 2 ^ (width v - 1) + magnitude v.
Proof.
  intros Hv. pose proof (signed_bits_eta v Hv) as He.
  pose proof (magnitude_range v Hv) as Hm. rewrite <- width_format in *.
  pose proof (signed_bits_range _ (is_negative v) _ (format_of_ok v) Hm) as Hr.
  destruct (f_bits_range _ _ (format_of_ok v) Hr) as [Hb _].
  rewrite <- He at 1. exact Hb.
Qed.

Lemma float_order_correct x y :
  float_ok x → float_ok y → width x = width y →
  float_order (Z.shiftl 1 (width x - 1)) (bits x) (bits y) = Z.compare (scaled x) (scaled y).
Proof.
  intros Hx Hy Hw. assert (format_of y = format_of x) as Hfmt by (by destruct x, y).
  pose proof (format_of_ok x) as Hf. unfold float_order.
  pose proof (magnitude_range x Hx) as Hmx. pose proof (magnitude_range y Hy) as Hmy.
  assert (0 < width x) by (destruct x; simpl; lia). rewrite <- Hw in Hmy.
  rewrite Z.shiftl_1_l, !land_mask by lia.
  change (wrapu (width x - 1) (bits x)) with (magnitude x).
  replace (wrapu (width x - 1) (bits y)) with (magnitude y) by (unfold magnitude; by rewrite Hw).
  rewrite !land_pow2_bit, Z.lxor_spec, sign_bit by (done || lia).
  assert (Z.testbit (bits y) (width x - 1) = is_negative y) as -> by (by rewrite Hw, sign_bit).
  rewrite (scaled_eq x (format_of x)), (scaled_eq y (format_of x)) by done.
  pose proof (mag_compare _ (magnitude x) (magnitude y) Hf ltac:(lia) ltac:(lia)) as Hc.
  pose proof (mag_compare _ (magnitude y) (magnitude x) Hf ltac:(lia) ltac:(lia)) as Hc'.
  pose proof (mag_nonneg _ (magnitude x) Hf ltac:(lia)).
  pose proof (mag_nonneg _ (magnitude y) Hf ltac:(lia)).
  assert (∀ b, 0 ≤ b → mag (format_of x) b = 0 ↔ b = 0) as Hzero.
  { intros b Hb. assert (mag (format_of x) 0 = 0) as Hm0 by (by destruct x).
    split; [|by intros ->]. intros Hmb. apply (mag_inj (format_of x)); [done..|congruence]. }
  pose proof (Hzero (magnitude x) ltac:(lia)). pose proof (Hzero (magnitude y) ltac:(lia)).
  pose proof (pow2_pos (width x - 1) ltac:(lia)).
  rewrite (bits_split x), (bits_split y), <- Hw by done.
  set (X := mag _ (magnitude x)) in *. set (Y := mag _ (magnitude y)) in *.
  destruct (Z.eqb_spec (magnitude x) 0), (Z.eqb_spec (magnitude y) 0);
    destruct (is_negative x), (is_negative y); cbn [andb xorb negb with_sign Z.b2z];
    rewrite ?(proj2 (Z.eqb_neq (2 ^ (width x - 1)) 0)) by lia;
    rewrite ?Z.eqb_refl; cbn [negb].
  all: rewrite ?Z.add_compare_mono_l, ?Z.mul_0_l, ?Z.add_0_l, ?Z.compare_opp; try congruence.
  all: symmetry; first [apply Z.compare_eq_iff; lia|apply Z.compare_lt_iff; lia
                       |apply Z.compare_gt_iff; lia].
Qed.

(** The bit-level comparison decides each ordered and unordered predicate by the
    order of the values: two floats are unordered exactly when one is a NaN, both zeros
    are equal and the infinities are beyond every finite value. *)
Theorem float_compare_correct x y p (Hx : float_ok x) (Hy : float_ok y) :
  float_compare x y p =
    if width x =? width y
    then Some (accepts p (is_nan x || is_nan y) (Z.compare (scaled x) (scaled y)))
    else None.
Proof.
  unfold float_compare. destruct (Z.eqb_spec (width x) (width y)) as [Hw|Hw]; cbn [negb]; [|done].
  assert (format_of y = format_of x) as Hfmt by (by destruct x, y).
  pose proof (compare_fields x Hx) as Hfields. revert Hfields.
  set (ef := match x with F16Bits _ => _ | F32Bits _ => _ | F64Bits _ => _ end).
  destruct ef as [exponent fraction]. intros [_ Hnan].
  rewrite !Hnan, float_order_correct, <- !negb_orb by done.
  f_equal. set (un := is_nan x || is_nan y).
  rewrite (negb_involutive un).
  destruct (Z.compare (scaled x) (scaled y)), un; by destruct p.
Qed.

Lemma float_compare_correct_witness :
  float_compare (F32Bits 0x80000000) (F32Bits 0) FCmpPred.Oeq = Some true ∧
  float_compare (F32Bits 0xff800000) (F32Bits 0x7fc00000) FCmpPred.Ult = Some true.
Proof.
  rewrite (float_compare_correct (F32Bits 0x80000000) (F32Bits 0)) by (split; vm_compute; congruence).
  rewrite (float_compare_correct (F32Bits 0xff800000)) by (split; vm_compute; congruence).
  split; reflexivity.
Defined.

(** ** Invalid operations *)

(** IEEE's invalid operations on operands that are not NaN. *)
Definition is_zero (v : FloatBits) : bool := magnitude v =? 0.
Definition invalid_operation (op : BinOp.t) (x y : FloatBits) : bool :=
  match op with
  | BinOp.FAdd => is_infinite x && is_infinite y && xorb (is_negative x) (is_negative y)
  | BinOp.FSub => is_infinite x && is_infinite y && eqb (is_negative x) (is_negative y)
  | BinOp.FMul => (is_infinite x && is_zero y) || (is_infinite y && is_zero x)
  | BinOp.FDiv => (is_infinite x && is_infinite y) || (is_zero x && is_zero y)
  | BinOp.FRem => is_infinite x || is_zero y
  | _ => false
  end.

(** A result that is not a NaN. *)
Definition numeric (f : Format) (z : FloatBits) : Prop :=
  ∃ neg b, z = signed_bits f neg b ∧ 0 ≤ b ≤ f_infinity f.

Lemma numeric_not_nan f z : format_ok f → numeric f z → is_nan z = false.
Proof.
  intros Hf (neg & b & -> & Hb). pose proof (infinity_range f Hf).
  rewrite (proj1 (is_nan_signed_bits f neg b Hf ltac:(lia))). lia.
Qed.
Lemma rounds_numeric f neg n d z : rounds_to f neg n d z → numeric f z.
Proof. intros (b & -> & Hb & _). by exists neg, b. Qed.
Lemma special_numeric f neg inf : format_ok f → numeric f (f_special f neg inf).
Proof.
  intros Hf. rewrite special_eq by done. pose proof (infinity_range f Hf).
  eexists _, _. split; [reflexivity|]. destruct inf; lia.
Qed.
Lemma f_nan_is_nan f : format_ok f → is_nan (f_nan f) = true.
Proof. by intros [[] ->]. Qed.
Lemma zero_mag f b x : denotes f b (mag f (magnitude x)) → format_of x = f → float_ok x →
  is_zero x = (sig b =? 0).
Proof.
  intros Hd Hfmt Hx. destruct (denotes_pos _ _ _ Hd) as [_ Hiff]. unfold is_zero.
  assert (mag f 0 = 0) as Hm0 by (by rewrite <- Hfmt; destruct x).
  pose proof (magnitude_range x Hx). pose proof (format_of_ok x) as Hf. rewrite Hfmt in Hf.
  destruct (Z.eqb_spec (magnitude x) 0) as [Heq|Hne], (Z.eqb_spec (sig b) 0) as [Hz|Hz]; try done.
  - exfalso. apply Hz, Hiff. by rewrite Heq.
  - exfalso. apply Hne, (mag_inj f); [done|lia|done|]. rewrite Hm0. tauto.
Qed.

Definition float_op (op : BinOp.t) : bool :=
  match op with
  | BinOp.FAdd | BinOp.FSub | BinOp.FMul | BinOp.FDiv | BinOp.FRem => true
  | _ => false
  end.

(** The parts of an operand that is not a NaN. *)
Definition number (f : Format) (x : FloatBits) (a : Parts) : Prop :=
  (is_finite x = true → operand f x a) ∧
  infinity a = is_infinite x ∧ negative a = is_negative x ∧ (is_infinite x = true → sig a = 0).

Lemma number_cases f x a :
  number f x a → format_of x = f → float_ok x → is_nan x = false →
  (infinity a = true ∧ is_infinite x = true ∧ is_zero x = false ∧ sig a = 0) ∨
  (infinity a = false ∧ is_infinite x = false ∧ is_finite x = true ∧ is_zero x = (sig a =? 0) ∧
   denotes f a (mag f (magnitude x)) ∧ normalized f a).
Proof.
  intros (Hfin&Hinf&Hneg&Hsig) Hfmt Hx Hnan. destruct (is_infinite x) eqn:Hi; [left|right].
  - pose proof (infinity_range _ (format_of_ok x)). unfold is_infinite, is_zero in *.
    split_and!; auto. lia.
  - assert (is_finite x = true) as Hf by (unfold is_infinite, is_nan, is_finite in *; lia).
    destruct (Hfin Hf) as (Hd&Hn&_). split_and!; try done. by eapply zero_mag.
Qed.

Lemma on_parts_invalid op f x y a b z :
  float_op op = true →
  format_ok f → format_of x = f → format_of y = f → float_ok x → float_ok y →
  is_nan x = false → is_nan y = false → number f x a → number f y b →
  on_parts op f x a b = Some z →
  if invalid_operation op x y then z = f_nan f else numeric f z.
Proof.
  intros Hop Hf Hfx Hfy Hx Hy Hnx Hny Ha Hb Hz.
  pose proof (proj1 (proj2 (proj2 Ha))) as Hsa. pose proof (proj1 (proj2 (proj2 Hb))) as Hsb.
  destruct (number_cases f x a Ha Hfx Hx Hnx) as [(Hia&Hix&Hzx&Hsx)|(Hia&Hix&Hfinx&Hzx&Hdx&Hnox)],
    (number_cases f y b Hb Hfy Hy Hny) as [(Hib&Hiy&Hzy&Hsy)|(Hib&Hiy&Hfiny&Hzy&Hdy&Hnoy)];
    pose proof (λ neg inf, special_numeric f neg inf Hf) as Hspec.
  all: destruct op; try discriminate Hop; injection Hz as <-; unfold invalid_operation;
    rewrite ?Hix, ?Hiy, ?Hzx, ?Hzy; cbn [andb orb].
  1-15: unfold add_parts, mul_parts, div_parts, rem_parts; cbn [set_negative infinity negative sig exp];
    rewrite ?Hia, ?Hib, ?Hsx, ?Hsy, <- ?Hsa, <- ?Hsb; cbn [andb orb negb Z.eqb].
  1,2: destruct (negative a), (negative b); cbn [xorb negb eqb]; auto.
  all: rewrite ?andb_false_r, ?orb_false_r; cbn [andb orb]; auto using special_numeric.
  - destruct (sig b =? 0); cbn [andb]; auto.
  - destruct (sig a =? 0); cbn [andb]; auto.
  - rewrite <- (signed_bits_eta x Hx), Hfx. eexists _, _. split; [reflexivity|].
    pose proof (magnitude_range x Hx). unfold is_finite in Hfinx. rewrite Hfx in Hfinx. lia.
  - eapply rounds_numeric. by apply add_correct.
  - eapply rounds_numeric. by apply (add_correct f a (set_negative (negb (negative b)) b)).
  - eapply rounds_numeric. by apply mul_rounds.
  - destruct (denotes_pos _ _ _ Hdy) as [_ Hzero].
    destruct (Z.eqb_spec (sig a) 0) as [Ha0|Ha0], (Z.eqb_spec (sig b) 0) as [Hb0|Hb0]; cbn [andb].
    2,4: eapply rounds_numeric, div_rounds; try done; tauto.
    all: unfold div_parts; rewrite Hia, Hib, Hb0; cbn [andb orb negb Z.eqb].
    + by rewrite Ha0.
    + rewrite (proj2 (Z.eqb_neq _ _)) by done. cbn [andb]. auto.
  - destruct (denotes_pos _ _ _ Hdy) as [_ Hzero].
    destruct (Z.eqb_spec (sig b) 0) as [Hb0|Hb0].
    + unfold rem_parts. by rewrite Hia, Hib, Hb0.
    + destruct (rem_exact f x a b _ _ Hf (proj1 Ha Hfinx) Hx Hfx Hfinx eq_refl Hdy Hnoy)
        as (c & -> & Hc & _); [tauto|]. eexists _, _. split; [reflexivity|]. lia.
Qed.

(** An operation on numbers yields a NaN exactly for IEEE's invalid operations
    (opposite infinities, zero times infinity, [0/0], [inf/inf], a remainder of an
    infinity or by zero), and a NaN operand always yields the canonical NaN. *)
Theorem nan_iff_invalid op x y
    (Hop : float_op op = true)
    (Hx : float_ok x) (Hy : float_ok y) (Hw : width x = width y) :
  ∃ z, arithmetic op x y = Some z ∧
    is_nan z = (is_nan x || is_nan y) || invalid_operation op x y ∧
    (is_nan z = true → z = f_nan (format_of x)).
Proof.
  assert (format_of y = format_of x) as Hfmt by (by destruct x, y).
  pose proof (format_of_ok x) as Hf.
  destruct (is_nan x || is_nan y) eqn:Hnan.
  { exists (f_nan (format_of x)). split; [|by rewrite f_nan_is_nan].
    unfold arithmetic. rewrite (proj2 (Z.eqb_eq _ _) Hw). cbn [negb].
    rewrite (unpack_eq x Hx). pose proof (unpack_eq y Hy) as Huy. rewrite Hfmt in Huy.
    cbv zeta in Huy. rewrite Huy. cbn [nan]. by rewrite Hnan. }
  destruct (arithmetic_parts op x y Hx Hy Hw Hnan) as (a & b & Ha & Hb & -> & Hia & Hib).
  set (f := format_of x) in *.
  assert (∀ z (inv : bool), (if inv then z = f_nan f else numeric f z) →
    is_nan z = inv ∧ (is_nan z = true → z = f_nan f)) as Hcase.
  { intros z [] Hz.
    - rewrite Hz. by rewrite f_nan_is_nan.
    - by rewrite (numeric_not_nan f z Hf Hz). }
  assert (∀ z, on_parts op f x a b = Some z →
    if invalid_operation op x y then z = f_nan f else numeric f z) as Hall.
  { intros z. apply on_parts_invalid; try done; by apply orb_false_iff in Hnan as []. }
  assert (∃ z, on_parts op f x a b = Some z) as [z Hz].
  { destruct op; try discriminate Hop; eexists; reflexivity. }
  exists z. split; [done|]. by apply Hcase, Hall.
Qed.

Lemma nan_iff_invalid_witness :
  ∃ z, arithmetic BinOp.FSub (F64Bits 0x7ff0000000000000) (F64Bits 0x7ff0000000000000) = Some z ∧
    is_nan z = true ∧ (is_nan z = true → z = F64Bits 0x7ff8000000000000).
Proof.
  apply (nan_iff_invalid BinOp.FSub (F64Bits 0x7ff0000000000000) (F64Bits 0x7ff0000000000000));
    [reflexivity|split; vm_compute; congruence..|reflexivity].
Defined.

(** ** Conversions *)

Lemma pack_correct f neg m e n d :
  format_ok f → 0 ≤ m < 2 ^ 128 → 0 < d → 
  (∃ k, 0 ≤ k ∧ 0 ≤ e + f_scale f + k ∧ n * 2 ^ k = d * m * 2 ^ (e + f_scale f + k)) →
  rounds_to f neg n d (f_pack f neg m e).
Proof.
  intros Hf Hm Hd (k & Hk & Hek & Heq). destruct (decide (m = 0)) as [->|].
  - rewrite f_pack_zero by done. pose proof (pow2_pos k Hk).
    assert (n = 0) as -> by nia. by apply signed_zero_rounds.
  - apply f_pack_rounds; [done|lia|done|]. apply (sticky_by k); [done..|]. by left.
Qed.

Lemma format_of_type t f v : @format Empty_set t = Ok f → has_type t (ConstValue.F v) = true →
  format_of v = f ∧ float_ok v.
Proof.
  intros Hf Ht. destruct t; try discriminate Hf; destruct v; try discriminate Ht;
    injection Hf as <-; unfold has_type in Ht; simpl in Ht; apply in_u_spec in Ht; done.
Qed.

Lemma format_ok_of {E} t g : @format E t = Ok g → format_ok g.
Proof.
  destruct t; try discriminate; intros [= <-];
    [by exists (F16Bits 0)|by exists (F32Bits 0)|by exists (F64Bits 0)].
Qed.

(** Widening and narrowing conversions round the exact value once: a finite value
    to the nearest of the destination format, an infinity to the infinity of the same
    sign and a NaN to the canonical NaN. *)
Theorem float_conversion_correct {E} op src dst v g
    (Hop : op = CastOp.FExt ∨ op = CastOp.FTrunc)
    (Hg : @format E dst = Ok g) (Hv : float_ok v) :
  ∃ z, @convert E op src dst (ConstValue.F v) = Ok (Some (ConstValue.F z)) ∧
    (is_nan v = true → z = f_nan g) ∧
    (is_infinite v = true → z = f_special g (is_negative v) true) ∧
    (is_finite v = true →
     rounds_to g (is_negative v) (Z.abs (scaled v) * 2 ^ f_scale g) (2 ^ f_scale (format_of v)) z).
Proof.
  assert (format_ok g) as Hgok.
  { by eapply format_ok_of. }
  eexists. split; [destruct Hop as [-> | ->]; unfold convert; rewrite Hg; reflexivity|].
  assert (∀ neg : bool, Z.abs ((if neg then -1 else 1) * mag (format_of v) (magnitude v)) =
            mag (format_of v) (magnitude v)) as Habs.
  { intros neg. pose proof (mag_nonneg _ _ (format_of_ok v) (proj1 (magnitude_range v Hv))).
    destruct neg; lia. }
  unfold scaled. rewrite Habs.
  split_and!.
  - intros Hn. by rewrite unpack_eq, Hn.
  - intros Hi. assert (is_nan v = false) as Hn by (unfold is_nan, is_infinite in *; lia).
    rewrite unpack_eq by done. cbn [nan infinity negative]. by rewrite Hn, Hi.
  - intros Hfin. destruct (nan_not_finite v Hfin) as [Hn Hi].
    destruct (unpack_denotes v Hv Hfin) as ((Hn'&Hi'&Hs&He&Hd)&Hneg&Hlow).
    rewrite Hn', Hi', Hneg. set (f := format_of v) in *.
    destruct (format_facts f (format_of_ok v)) as (Hp&Hβ&_).
    destruct (format_facts g Hgok) as (Hp'&Hβ'&_).
    assert (0 < f_scale f ∧ 0 < f_scale g) as [? ?] by (unfold f_scale; lia).
    apply pack_correct; [done| |apply pow2_pos; lia|].
    + assert (2 ^ (f_fraction f + 1) ≤ 2 ^ 128) by (apply Z.pow_le_mono_r; lia). lia.
    + exists (f_scale f). split; [lia|]. split; [lia|].
      rewrite <- !Z.mul_assoc, <- Z.pow_add_r, Z.mul_assoc by lia.
      rewrite <- (Hd (f_scale g + f_scale f)) by lia.
      replace (exp (unpack f v) + f_scale f + (f_scale g + f_scale f))
        with (f_scale f + (exp (unpack f v) + f_scale g + f_scale f)) by lia.
      rewrite (Z.pow_add_r 2 (f_scale f)) by lia. ring.
Qed.

Lemma float_conversion_correct_witness :
  ∃ z, @convert Empty_set CastOp.FTrunc Ty.F64 Ty.F16 (ConstValue.F (F64Bits 0x3ff0020000000000)) =
         Ok (Some (ConstValue.F z)) ∧
    (is_nan (F64Bits 0x3ff0020000000000) = true → z = F16Bits 0x7e00) ∧
    (is_infinite (F64Bits 0x3ff0020000000000) = true → z = f_special (format_of (F16Bits 0)) false true) ∧
    (is_finite (F64Bits 0x3ff0020000000000) = true →
     rounds_to (format_of (F16Bits 0)) false
       (Z.abs (scaled (F64Bits 0x3ff0020000000000)) * 2 ^ 24) (2 ^ 1074) z).
Proof.
  apply (float_conversion_correct CastOp.FTrunc Ty.F64 Ty.F16 (F64Bits 0x3ff0020000000000)
           (format_of (F16Bits 0)));
    [by right|reflexivity|split; vm_compute; congruence].
Defined.

(** An integer converts to the nearest float, its sign kept. *)
Theorem int_to_float_correct {E} op src dst v g
    (Hop : op = CastOp.IToF_S ∨ op = CastOp.IToF_U)
    (Hg : @format E dst = Ok g) (Hsrc : is_int src = true) (Hv : has_type src v = true) :
  ∃ z, @convert E op src dst v = Ok (Some (ConstValue.F z)) ∧
    rounds_to g (denote v <? 0) (Z.abs (denote v) * 2 ^ f_scale g) 1 z.
Proof.
  assert (format_ok g) as Hgok.
  { by eapply format_ok_of. }
  destruct (proj1 (has_type_int src v Hsrc) Hv) as [Hr _].
  pose proof (has_type_not_float src v Hsrc Hv) as Hnf.
  destruct (is_int_shape src Hsrc) as (w & s & Hs). pose proof (shape_bits _ _ _ Hs) as Hw.
  assert (0 < f_scale g) by (destruct (format_facts g Hgok) as (?&?&_); unfold f_scale; lia).
  assert (∀ neg m, m = Z.abs (denote v) → neg = (denote v <? 0) → 0 ≤ m < 2 ^ 128 →
    rounds_to g (denote v <? 0) (Z.abs (denote v) * 2 ^ f_scale g) 1 (f_pack g neg m 0)) as Hpack.
  { intros neg m -> -> Hm. apply pack_correct; [done|lia|lia|].
    exists 0. rewrite Z.pow_0_r, !Z.add_0_l, Z.add_0_r. split_and!; [lia|lia|ring]. }
  eexists. split.
  { destruct Hop as [-> | ->]; simpl; rewrite Hs; cbn [expect]; cbn [mbind result_bind];
      rewrite raw_eq, Hg by done; reflexivity. }
  pose proof (wrapu_range w (denote v) ltac:(lia)) as Hwr.
  rewrite !Z.shiftl_1_l, land_top_bit by lia. pose proof (pow2_half w ltac:(lia)) as Hhalf.
  pose proof (pow2_pos (w - 1) ltac:(lia)).
  assert (2 ^ w ≤ 2 ^ 128) by (apply Z.pow_le_mono_r; lia).
  unfold int_range in Hr. rewrite Hs in Hr.
  assert (∀ z, 0 ≤ z < 2 ^ w → (if w <? 128 then Z.land z (2 ^ w - 1) else z) = z) as Hmask.
  { intros z Hz. destruct (w <? 128); [|done]. rewrite land_mask by lia. by apply wrapu_id. }
  destruct s; cbn [andb].
  - apply in_s_spec in Hr. 
    assert (wrapu w (denote v) = if denote v <? 0 then denote v + 2 ^ w else denote v) as Hraw.
    { destruct (Z.ltb_spec (denote v) 0); [|apply wrapu_id; lia].
      transitivity (wrapu w (denote v + 2 ^ w)); [|apply wrapu_id; lia].
      apply wrapu_eq_iff; [lia|]. exists (-1). lia. }
    rewrite Hraw. destruct (Z.ltb_spec (denote v) 0) as [Hneg|Hpos].
    + rewrite (proj2 (Z.ltb_ge _ _)) by lia.
      rewrite (proj2 (Z.eqb_neq _ 0)) by lia. cbn [negb].
      assert ((if w <? 128 then Z.land (wrapu 128 (0 - (denote v + 2 ^ w))) (2 ^ w - 1)
               else wrapu 128 (0 - (denote v + 2 ^ w))) = Z.abs (denote v)) as ->.
      { transitivity (wrapu w (0 - (denote v + 2 ^ w))).
        - destruct (Z.ltb_spec w 128); [|by replace w with 128 by lia].
          by rewrite land_mask, wrapu_wrapu by lia.
        - transitivity (wrapu w (Z.abs (denote v))); [|apply wrapu_id; lia].
          apply wrapu_eq_iff; [lia|]. exists (-1). lia. }
      apply Hpack; lia.
    + rewrite (proj2 (Z.ltb_lt _ _)) by lia. cbn [negb Z.eqb]. rewrite Hmask by lia.
      apply Hpack; lia.
  - apply in_u_spec in Hr. rewrite (wrapu_id w) by done. rewrite Hmask by done.
    apply Hpack; lia.
Qed.

Lemma int_to_float_correct_witness :
  ∃ z, @convert Empty_set CastOp.IToF_S Ty.I8 Ty.F16 (ConstValue.I (-100)) = Ok (Some (ConstValue.F z)) ∧
    rounds_to (format_of (F16Bits 0)) true (100 * 2 ^ 24) 1 z.
Proof.
  apply (int_to_float_correct CastOp.IToF_S Ty.I8 Ty.F16 (ConstValue.I (-100)) (format_of (F16Bits 0)));
    [by left|reflexivity..].
Defined.

(** The magnitude of a finite value truncated toward zero. *)
Lemma trunc_magnitude_spec f p x :
  format_ok f → denotes f p x → - f_scale f ≤ exp p →
  trunc_magnitude p = checked_u 128 (x / 2 ^ f_scale f).
Proof.
  intros Hf Hden Hlow. destruct (format_facts f Hf) as (Hp&Hβ&_).
  destruct (denotes_pos _ _ _ Hden) as [Hx Hx0]. destruct Hden as (_&_&Hs&He&Hd).
  assert (0 < f_scale f) as Hscale by (unfold f_scale; lia).
  pose proof (pow2_pos (f_scale f) ltac:(lia)).
  specialize (Hd 0 ltac:(lia) ltac:(lia)). rewrite Z.pow_0_r, Z.mul_1_r, Z.add_0_r in Hd.
  assert (2 ^ (f_fraction f + 1) ≤ 2 ^ 53) as H53 by (apply Z.pow_le_mono_r; lia).
  unfold trunc_magnitude, checked_u, in_u, umax.
  destruct (Z.eqb_spec (sig p) 0) as [Hz|Hz].
  { by rewrite (proj2 Hx0 Hz). }
  destruct (Z.leb_spec 0 (exp p)).
  - assert (x / 2 ^ f_scale f = sig p * 2 ^ exp p) as ->.
    { rewrite <- Hd, Z.pow_add_r, Z.mul_assoc, Z.div_mul by lia. done. }
    pose proof (pow2_pos (exp p) ltac:(lia)).
    rewrite Z.shiftr_div_pow2, Z.shiftl_mul_pow2 by lia.
    destruct (Z.leb_spec 128 (exp p)); cbn [orb].
    + assert (2 ^ 128 ≤ 2 ^ exp p) by (apply Z.pow_le_mono_r; lia).
      rewrite (proj2 (Z.ltb_ge _ (2 ^ 128))) by nia. by rewrite andb_false_r.
    + destruct (Z.ltb_spec ((2 ^ 128 - 1) / 2 ^ exp p) (sig p)) as [Hlt|Hge].
      * rewrite (proj2 (Z.ltb_ge _ (2 ^ 128))); [by rewrite andb_false_r|].
        apply Z.nlt_ge. intros Hlt'. apply Z.lt_nge in Hlt. apply Hlt.
        apply Z.div_le_lower_bound; lia.
      * assert (sig p * 2 ^ exp p < 2 ^ 128).
        { pose proof (Z.mul_div_le (2 ^ 128 - 1) (2 ^ exp p) ltac:(done)). nia. }
        rewrite (proj2 (Z.ltb_lt _ (2 ^ 128))), (proj2 (Z.leb_le 0 _)), wrapu_id by nia. done.
  - assert (x / 2 ^ f_scale f = sig p / 2 ^ (- exp p)) as ->.
    { rewrite <- Hd. replace (f_scale f) with (- exp p + (exp p + f_scale f)) at 2 by lia.
      rewrite (Z.pow_add_r 2 (- exp p)) by lia. apply Z.div_mul_cancel_r; [|].
      - apply Z.pow_nonzero; lia.
      - apply Z.pow_nonzero; lia. }
    pose proof (pow2_pos (- exp p) ltac:(lia)).
    assert (0 ≤ sig p / 2 ^ (- exp p) ≤ sig p) as Hr.
    { split; [apply Z.div_pos; lia|apply Z.div_le_upper_bound; nia]. }
    assert (2 ^ 53 ≤ 2 ^ 128) by (apply Z.pow_le_mono_r; lia).
    rewrite (proj2 (Z.ltb_lt _ (2 ^ 128))), (proj2 (Z.leb_le 0 _)) by lia. cbn [andb].
    f_equal. destruct (Z.ltb_spec (- exp p) 128); [by rewrite Z.shiftr_div_pow2 by lia|].
    symmetry. apply Z.div_small. split; [lia|].
    assert (2 ^ 53 < 2 ^ (- exp p)) by (apply Z.pow_lt_mono_r; lia). lia.
Qed.

(** A float converts to the integer of its truncation toward zero when that is
    representable in the destination type, and is an invalid conversion otherwise; NaN
    and infinities are always invalid. *)
Theorem float_to_int_correct {E} op src dst v
    (Hop : op = CastOp.FToI_S ∨ op = CastOp.FToI_U)
    (Hdst : is_int dst = true) (Hv : float_ok v) :
  let t := Z.quot (scaled v) (2 ^ f_scale (format_of v)) in
  @convert E op src dst (ConstValue.F v) =
    Ok (if is_finite v && int_range dst t then Some (inject dst t) else None).
Proof.
  intros t. pose proof (format_of_ok v) as Hf. set (f := format_of v) in *.
  assert (nan (unpack f v) || infinity (unpack f v) = negb (is_finite v)) as Hni.
  { unfold f. rewrite unpack_eq by done. cbn [nan infinity].
    unfold is_nan, is_infinite, is_finite. fold f. lia. }
  assert (is_finite v = true → trunc_magnitude (unpack f v) = checked_u 128 (Z.abs t) ∧
            negative (unpack f v) = is_negative v ∧ t = with_sign (is_negative v) (Z.abs t)) as Hmag.
  { intros Hfin. destruct (unpack_denotes v Hv Hfin) as (Hden&Hneg&Hlow). fold f in Hden, Hneg, Hlow.
    rewrite (trunc_magnitude_spec f _ _ Hf Hden Hlow).
    destruct (denotes_pos _ _ _ Hden) as [Hx _].
    assert (0 < 2 ^ f_scale f) by (apply pow2_pos; destruct (format_facts f Hf) as (?&?&_);
                                   unfold f_scale; lia).
    pose proof (Z.div_pos (mag f (magnitude v)) (2 ^ f_scale f) Hx ltac:(done)).
    unfold t. rewrite (scaled_eq v f) by done. unfold with_sign.
    destruct (is_negative v); rewrite ?Z.quot_opp_l, Z.quot_div_nonneg by lia;
      rewrite ?Z.abs_opp, Z.abs_eq by done; done. }
  destruct (is_int_shape dst Hdst) as (w & s & Hs). pose proof (shape_bits _ _ _ Hs) as Hw.
  assert (convert op src dst (ConstValue.F v) =
    if nan (unpack f v) || infinity (unpack f v) then Ok None else
    match trunc_magnitude (unpack f v) with
    | None => Ok None
    | Some magnitude =>
        if (negative (unpack f v) && negb s && negb (magnitude =? 0))
           || ((if s then Z.shiftl 1 (w - 1) - Z.b2z (negb (negative (unpack f v)))
                else if w =? 128 then umax 128 else Z.shiftl 1 w - 1) <? magnitude)
        then Ok None
        else v ← @pack E dst (if negative (unpack f v) then wrapu 128 (0 - magnitude) else magnitude);
             Ok (Some v)
    end) as ->.
  { destruct Hop as [-> | ->]; unfold convert; fold f; rewrite Hs; by destruct (_ || _), s. }
  rewrite Hni. destruct (is_finite v); cbn [negb andb]; [|done].
  destruct (Hmag eq_refl) as (-> & -> & Ht). clear Hmag Hni.
  assert ((if s then Z.shiftl 1 (w - 1) - Z.b2z (negb (is_negative v))
           else if w =? 128 then umax 128 else Z.shiftl 1 w - 1) =
          if s then 2 ^ (w - 1) - Z.b2z (negb (is_negative v)) else 2 ^ w - 1) as ->.
  { rewrite !Z.shiftl_1_l. destruct s; [done|]. destruct (Z.eqb_spec w 128) as [->|]; done. }
  assert (inject dst (if is_negative v then wrapu 128 (0 - Z.abs t) else Z.abs t) = inject dst t) as Hinj.
  { rewrite Ht at 3. destruct (is_negative v); cbn [with_sign]; [|done].
    rewrite (inject_wrapu dst w s) by (done || lia). by rewrite Z.sub_0_l. }
  assert (2 ^ w ≤ 2 ^ 128) by (apply Z.pow_le_mono_r; lia).
  pose proof (pow2_half w ltac:(lia)). pose proof (pow2_pos (w - 1) ltac:(lia)).
  unfold int_range. rewrite Hs.
  destruct (checked_u 128 (Z.abs t)) as [m|] eqn:Hc.
  - apply checked_u_Some in Hc as [-> Hc]. clear Hc.
    rewrite pack_eq by done. cbn [mbind result_bind]. rewrite Hinj. clear Hinj.
    set (c := (_ || _)). enough (c = negb (if s then in_s w t else in_u w t)) as ->
      by (by destruct s, (in_s w t), (in_u w t)).
    subst c. unfold in_s, in_u. clearbody t. pose proof (Z.abs_nonneg t) as Hm.
    remember (Z.abs t) as m eqn:Hmeq. clear Hmeq. subst t.
    destruct s, (is_negative v); cbn [with_sign negb andb orb Z.b2z]; lia.
  - apply checked_u_None in Hc. unfold in_s, in_u.
    assert ((- 2 ^ (w - 1) <=? t) && (t <? 2 ^ (w - 1)) = false) as -> by lia.
    assert ((0 <=? t) && (t <? 2 ^ w) = false) as -> by lia. by destruct s.
Qed.

Lemma float_to_int_correct_witness :
  @convert Empty_set CastOp.FToI_S Ty.F16 Ty.I8 (ConstValue.F (F16Bits 0xd802)) =
    Ok (Some (ConstValue.I (-128))) ∧
  @convert Empty_set CastOp.FToI_U Ty.F16 Ty.U8 (ConstValue.F (F16Bits 0xbc00)) = Ok None.
Proof.
  split.
  - rewrite (float_to_int_correct CastOp.FToI_S Ty.F16 Ty.I8) by
      (first [by left|reflexivity|split; vm_compute; congruence]). reflexivity.
  - rewrite (float_to_int_correct CastOp.FToI_U Ty.F16 Ty.U8) by
      (first [by right|reflexivity|split; vm_compute; congruence]). reflexivity.
Defined.

(** ** Direct narrowing to binary16 *)

Lemma rne_small n d : 0 ≤ 2 * n < d → rne n d = 0.
Proof.
  intros Hn. unfold rne. rewrite Z.div_small, Z.mod_small by lia.
  rewrite (proj2 (Z.ltb_ge _ _)), (proj2 (Z.eqb_neq _ _)) by lia. done.
Qed.

Lemma rne_bits m s :
  0 ≤ m → 0 < s →
  Z.shiftr m s + Z.b2z ((Z.shiftl 1 (s - 1) <? Z.land m (Z.shiftl 1 s - 1))
    || ((Z.land m (Z.shiftl 1 s - 1) =? Z.shiftl 1 (s - 1)) && negb (Z.land (Z.shiftr m s) 1 =? 0))) =
  rne m (2 ^ s).
Proof.
  intros Hm Hs. unfold rne.
  rewrite Z.shiftr_div_pow2, land_low, Z.shiftl_1_l, land_1_odd, (pow2_half s) by lia.
  set (r := m mod _). f_equal. f_equal. f_equal; [|f_equal].
  - destruct (Z.ltb_spec (2 ^ (s - 1)) r), (Z.ltb_spec (2 * 2 ^ (s - 1)) (2 * r)); lia.
  - destruct (Z.eqb_spec r (2 ^ (s - 1))), (Z.eqb_spec (2 * r) (2 * 2 ^ (s - 1))); lia.
Qed.

(** The fields of [f64_to_f16], and the rest of the function on them. *)
Definition f64_round (sign e fr : Z) : Z :=
  if e =? 0x7ff then Z.lor sign (if fr =? 0 then 0x7c00 else 0x7e00)
  else if e =? 0 then sign
  else if 15 <? e - 1023 then Z.lor sign 0x7c00
  else if e - 1023 <? -25 then sign else
  let mantissa := Z.lor fr (Z.shiftl 1 52) in
  let shift := if e - 1023 <? -14 then 28 - (e - 1023) else 42 in
  let rounded := Z.shiftr mantissa shift +
    Z.b2z ((Z.shiftl 1 (shift - 1) <? Z.land mantissa (Z.shiftl 1 shift - 1))
      || ((Z.land mantissa (Z.shiftl 1 shift - 1) =? Z.shiftl 1 (shift - 1))
          && negb (Z.land (Z.shiftr mantissa shift) 1 =? 0))) in
  if e - 1023 <? -14 then Z.lor sign (wrapu 16 rounded)
  else Z.lor sign (wrapu 16 (Z.shiftl (e - 1023 + 14) 10) + wrapu 16 rounded).

Lemma f64_fields_eq b neg m :
  b = Z.b2z neg * 2 ^ 63 + m → 0 ≤ m < 2 ^ 63 →
  f64_to_f16 b = f64_round (Z.b2z neg * 2 ^ 15) (m / 2 ^ 52) (m mod 2 ^ 52).
Proof.
  intros Hb Hm.
  assert (Z.land (Z.shiftr b 48) 0x8000 = Z.b2z neg * 2 ^ 15) as Hsign.
  { change 0x8000 with (2 ^ 15). rewrite land_pow2_bit, Z.shiftr_spec by lia. simpl (15 + 48).
    rewrite Hb, Z.testbit_odd, Z.shiftr_div_pow2 by lia.
    rewrite Z.add_comm, Z.div_add, Z.div_small by lia. by destruct neg. }
  assert (Z.land (Z.shiftr b 52) 0x7ff = m / 2 ^ 52) as Hexp.
  { change 0x7ff with (2 ^ 11 - 1). rewrite land_mask, Z.shiftr_div_pow2 by lia.
    replace (2 ^ 63) with (2 ^ 11 * 2 ^ 52) in Hb by done.
    rewrite Hb, Z.mul_assoc, Z.add_comm, Z.div_add by lia. unfold wrapu.
    rewrite Z.mod_add, Z.mod_small; [done|split; [apply Z.div_pos; lia|]|done].
    apply Z.div_lt_upper_bound; lia. }
  assert (Z.land b (Z.shiftl 1 52 - 1) = m mod 2 ^ 52) as Hfrac.
  { rewrite land_low by lia. replace (2 ^ 63) with (2 ^ 11 * 2 ^ 52) in Hb by done.
    by rewrite Hb, Z.mul_assoc, Z.add_comm, Z.mod_add by lia. }
  unfold f64_to_f16. by rewrite Hsign, Hexp, Hfrac.
Qed.

(** The direct binary64 to binary16 rounding used for numeric constants agrees with
    the generic narrowing conversion on every value that is not a NaN. *)
Theorem f64_to_f16_correct {E} b (Hb : 0 ≤ b < 2 ^ 64) (Hnan : is_nan (F64Bits b) = false) :
  @convert E CastOp.FTrunc Ty.F64 Ty.F16 (ConstValue.F (F64Bits b)) =
    Ok (Some (ConstValue.F (F16Bits (f64_to_f16 b)))).
Proof.
  pose proof (unpack_eq (F64Bits b) Hb) as Hu. cbv zeta in Hu.
  unfold convert. rewrite Hu, Hnan. cbn [nan infinity negative sig exp].
  pose proof (magnitude_range (F64Bits b) Hb) as Hm.
  pose proof (bits_split (F64Bits b) Hb) as Hsplit. cbn [bits width] in Hsplit, Hm.
  set (neg := is_negative (F64Bits b)) in *. set (m := magnitude (F64Bits b)) in *.
  change (f_fraction (format_of (F64Bits b))) with 52. change (f_bias (format_of (F64Bits b))) with 1023.
  change (f_scale (format_of (F64Bits b))) with 1074.
  pose proof (Z.div_mod m (2 ^ 52) ltac:(done)) as Hdm.
  pose proof (Z.mod_pos_bound m (2 ^ 52) ltac:(done)) as Hmod.
  change (f_infinity (format_of (F64Bits b))) with (2047 * 2 ^ 52) in Hnan.
  rewrite (f64_fields_eq b neg m) by done.
  unfold is_infinite. fold m. change (f_infinity (format_of (F64Bits b))) with (2047 * 2 ^ 52).
  unfold is_nan in Hnan. fold m in Hnan. apply Z.ltb_ge in Hnan.
  change (f_infinity (format_of (F64Bits b))) with (2047 * 2 ^ 52) in Hnan.
  set (e := m / 2 ^ 52) in *. set (fr := m mod 2 ^ 52) in *. clearbody e fr.
  assert (0 ≤ e ≤ 2047) as He by lia.
  change (2 * 1023 + 1) with 2047.
  cbn [format mbind result_bind]. do 3 f_equal. set (g := format_of (F16Bits 0)).
  assert (format_ok g) as Hg by apply format_of_ok.
  assert (∀ X, 0 ≤ X < 2 ^ 15 → signed_bits g neg X = F16Bits (Z.lor (Z.b2z neg * 2 ^ 15) X)) as Hres.
  { intros X HX. rewrite lor_add_low by lia. unfold signed_bits, f_bits. simpl.
    rewrite wrapu_id; [done|]. destruct neg; simpl; lia. }
  unfold f64_round. destruct (Z.eqb_spec e 2047) as [->|He1].
  { assert (fr = 0) as -> by lia. rewrite (proj2 (Z.eqb_eq (2047 * 2 ^ 52) m)) by lia.
    rewrite special_eq by done. by rewrite Hres. }
  rewrite (proj2 (Z.eqb_neq (2047 * 2 ^ 52) m)) by lia. rewrite orb_false_r.
  destruct (Z.eqb_spec e 0) as [->|He0].
  { assert (F16Bits (Z.b2z neg * 2 ^ 15) = signed_bits g neg 0) as ->
      by (rewrite Hres by lia; by rewrite Z.lor_0_r).
    destruct (decide (fr = 0)) as [->|Hfr]; [by rewrite f_pack_zero|].
    assert (Z.log2 fr < 52) as Hlog by (apply Z.log2_lt_pow2; lia). pose proof (Z.log2_nonneg fr).
    rewrite f_pack_eq by (done || lia).
    assert (quantum g fr (Z.max 0 1 - 1 - 1074) = 0) as Hq by (unfold quantum, f_scale; simpl; lia).
    unfold quotient. rewrite Hq. simpl (0 <? _). cbv beta iota.
    rewrite rne_small; [done|]. split; [lia|].
    apply Z.lt_le_trans with (2 ^ 53); [lia|]. apply Z.pow_le_mono_r; [lia|]. done. }
  set (mant := 2 ^ 52 + fr).
  assert (Z.log2 mant = 52) as Hlog by (apply Z.log2_unique; unfold mant; lia).
  rewrite f_pack_eq by (done || unfold mant; lia).
  assert (quantum g mant (Z.max e 1 - 1 - 1074) = Z.max (e - 1023 + 14) 0) as HT
    by (unfold quantum; rewrite Hlog; unfold f_scale; simpl; lia).
  pose proof (quotient_range g mant (Z.max e 1 - 1 - 1074) Hg ltac:(unfold mant; lia)) as [Hq Hor].
  unfold quotient in *. rewrite HT in *. set (T := Z.max (e - 1023 + 14) 0) in *.
  change (f_scale g) with 24 in *. change (f_fraction g) with 10 in *.
  change (f_infinity g) with 31744.
  replace (T - 24 - (Z.max e 1 - 1 - 1074)) with (T + 28 - (e - 1023)) in * by lia.
  set (s := T + 28 - (e - 1023)) in *. assert (42 ≤ s) as Hs by lia.
  rewrite (proj2 (Z.ltb_lt 0 s)) in * by lia. change (2 ^ (10 + 1)) with 2048 in Hq.
  change (2 ^ 10) with 1024 in *.
  destruct (Z.ltb_spec 15 (e - 1023)).
  { rewrite Z.min_r by lia. by rewrite Hres. }
  destruct (Z.ltb_spec (e - 1023) (-25)).
  { assert (2 ^ 54 ≤ 2 ^ s) by (apply Z.pow_le_mono_r; lia).
    rewrite rne_small by (unfold mant; lia). assert (T = 0) as -> by lia.
    rewrite Z.min_l, Hres, Z.lor_0_r by lia. done. }
  assert (Z.lor fr (Z.shiftl 1 52) = mant) as ->.
  { rewrite Z.lor_comm. change (Z.shiftl 1 52) with (1 * 2 ^ 52).
    rewrite lor_add_low by lia. unfold mant. lia. }
  assert ((if e - 1023 <? -14 then 28 - (e - 1023) else 42) = s) as ->
    by (unfold s, T; destruct (Z.ltb_spec (e - 1023) (-14)); lia).
  rewrite rne_bits by (unfold mant; lia). set (q := rne mant (2 ^ s)) in *.
  rewrite Z.min_l, Hres by lia.
  destruct (Z.ltb_spec (e - 1023) (-14)).
  - rewrite wrapu_id by lia. by assert (T = 0) as -> by lia.
  - rewrite (wrapu_id 16 q), Z.shiftl_mul_pow2 by lia. change (2 ^ 10) with 1024.
    rewrite wrapu_id by lia. by assert (T = e - 1023 + 14) as <- by lia.
Qed.

Lemma f64_to_f16_correct_witness :
  @convert Empty_set CastOp.FTrunc Ty.F64 Ty.F16 (ConstValue.F (F64Bits 0x3e70000000000001)) =
    Ok (Some (ConstValue.F (F16Bits 1))).
Proof.
  rewrite (f64_to_f16_correct 0x3e70000000000001) by (first [split; vm_compute; congruence|reflexivity]).
  reflexivity.
Defined.

(** ** Storage text *)

Lemma hex_digit_value n : 0 ≤ n < 16 → hex_value (hex_digit n) = Some n.
Proof.
  intros Hn. replace n with (Z.of_nat (Z.to_nat n)) by lia.
  assert (Z.to_nat n < 16)%nat as Hlt by lia. clear Hn. revert Hlt. generalize (Z.to_nat n).
  intros k Hk. do 16 (destruct k as [|k]; [reflexivity|]). lia.
Qed.

Lemma length_to_hex n v : length (to_hex n v) = n.
Proof. revert v. induction n; intros; simpl; [done|]. rewrite length_app, IHn. simpl. lia. Qed.

Lemma from_hex_app acc s s' : from_hex acc (s ++ s') = acc' ← from_hex acc s; from_hex acc' s'.
Proof.
  revert acc. induction s as [|c s IH]; intros; simpl; [done|].
  destruct (hex_value c); simpl; [apply IH|done].
Qed.

Lemma from_to_hex n v acc :
  0 ≤ v < 16 ^ Z.of_nat n → from_hex acc (to_hex n v) = Some (acc * 16 ^ Z.of_nat n + v).
Proof.
  revert v. induction n as [|n IH]; intros v Hv; simpl to_hex.
  { simpl in *. f_equal. lia. }
  rewrite Nat2Z.inj_succ, Z.pow_succ_r in * by lia.
  pose proof (Z.div_mod v 16 ltac:(done)). pose proof (Z.mod_pos_bound v 16 ltac:(done)).
  rewrite from_hex_app, IH by (split; [apply Z.div_pos|apply Z.div_lt_upper_bound]; lia).
  simpl. rewrite hex_digit_value by lia. simpl. f_equal. lia.
Qed.

Lemma to_hex_digits n v : forallb (λ c, bool_decide (is_Some (hex_value c))) (to_hex n v) = true.
Proof.
  revert v. induction n as [|n IH]; intros v; simpl; [done|].
  rewrite forallb_app, IH. simpl.
  rewrite hex_digit_value by (apply Z.mod_pos_bound; lia). by rewrite bool_decide_eq_true_2 by done.
Qed.

(** The storage text of a float parses back to the same bits, NaN payloads
    included. *)
Theorem parse_display v (Hv : float_ok v) : parse (width v) (display v) = Ok v.
Proof.
  unfold parse, display.
  assert (∃ d, 0 ≤ d ∧ width v = 4 * d ∧ Z.to_nat (width v / 4) = Z.to_nat d) as (d & Hd & Hw & Hn).
  { exists (width v / 4). by destruct v. }
  pose proof (from_to_hex (Z.to_nat (width v / 4)) (bits v) 0) as Hp.
  rewrite Z.mul_0_l, Z.add_0_l in Hp. unfold float_ok in Hv.
  assert (16 ^ Z.of_nat (Z.to_nat (width v / 4)) = 2 ^ width v) as Hpow.
  { rewrite Hn, Hw, Z2Nat.id, (Z.pow_mul_r 2) by lia. done. }
  rewrite Hpow in Hp. specialize (Hp Hv). rewrite to_hex_digits, Hp, length_to_hex.
  clear Hp Hpow Hn Hw. destruct v; cbn [width bits] in Hv; cbn; by rewrite ?wrapu_id by exact Hv.
Qed.

Lemma parse_display_witness : parse 32 (display (F32Bits 0x7fc00001)) = Ok (F32Bits 0x7fc00001).
Proof. apply (parse_display (F32Bits 0x7fc00001)). split; vm_compute; congruence. Defined.

(** Negation flips the sign and nothing else, for every storage value including
    zeros, infinities and NaN payloads; it is its own inverse. *)
Theorem negate_correct v (Hv : float_ok v) :
  negate v = signed_bits (format_of v) (negb (is_negative v)) (magnitude v) ∧
  negate (negate v) = v ∧ scaled (negate v) = - scaled v.
Proof.
  assert (∀ v, float_ok v →
    negate v = signed_bits (format_of v) (negb (is_negative v)) (magnitude v)) as Hneg.
  { clear v Hv. intros v Hv. unfold negate, signed_bits. f_equal.
    pose proof (bits_split v Hv) as Hb. pose proof (magnitude_range v Hv) as Hm.
    destruct (format_facts _ (format_of_ok v)) as (?&?&?&_&_&->).
    rewrite width_format in *. set (k := width v - 1) in *. set (m := magnitude v) in *.
    rewrite Hb. apply Z.bits_inj'. intros i Hi. rewrite Z.lxor_spec.
    assert (∀ s, Z.testbit (Z.b2z s * 2 ^ k + m) i = if decide (i = k) then s else Z.testbit m i) as Hbit.
    { intros s. rewrite <- (lor_add_low k), Z.lor_spec by lia. case_decide as Hik.
      - subst i. rewrite Z.mul_pow2_bits, Z.sub_diag by lia. rewrite (testbit_high k m) by lia.
        by destruct s.
      - destruct s; [|by rewrite Z.bits_0]. by rewrite Z.mul_1_l, Z.pow2_bits_false. }
    rewrite !Hbit. case_decide as Hik.
    - subst i. rewrite Z.pow2_bits_true by lia. apply xorb_true_r.
    - rewrite Z.pow2_bits_false by done. apply xorb_false_r. }
  pose proof (magnitude_range v Hv) as Hm. rewrite <- width_format in Hm.
  destruct (signed_bits_fields (format_of v) (negb (is_negative v)) (magnitude v) (format_of_ok v) Hm)
    as (H1&H2&H3&H4).
  rewrite (Hneg v Hv). split; [done|]. split.
  - rewrite Hneg, H1, H3, H4, negb_involutive by done. by apply signed_bits_eta.
  - rewrite (scaled_eq _ _ H1), H3, H4, (scaled_eq v _ eq_refl).
    unfold with_sign. destruct (is_negative v); simpl; lia.
Qed.

Lemma negate_correct_witness : negate (negate (F16Bits 0x7e01)) = F16Bits 0x7e01.
Proof. apply (negate_correct (F16Bits 0x7e01)). split; vm_compute; congruence. Defined.
