(* ===== verification/Memory.v ===== *)
(** * Tracked memory ([interpreter/memory.rs], values of [interpreter/mod.rs])

    Synthetic addresses, byte initialization and capabilities.  A pointer carries an
    address and possibly a capability (arena, allocation, generation, bounds, offset and
    permissions); stored pointers leave one fragment per byte next to the raw bytes, so
    that provenance survives a byte-wise copy and nothing else.

    The code is transcribed as computations on an explicit [Memory].  The table of fragments is a [HashMap]: its contents are a finite map, its capacity
    (which the work accounting reads) is left to any implementation of the interface
    [FragmentTable].  Whether the host grants a reservation is an oracle argument [host]
    of the operations that allocate: [host i] answers the [i]-th request.

    [MemoryCells.v] proves what the operations do. *)
From S2P Require Export Float Layout.
Local Open Scope Z_scope.

(** ** Values *)

Module FunctionTarget.
Inductive t := Null | Defined (id : FunctionId) | InvalidBits (bits : Z).
#[global] Instance eq_dec : EqDecision t.
Proof. solve_decision. Defined.
End FunctionTarget.

(** The signature is shared behind an [Arc]; equality looks through it. *)
Record FunctionPointer := mkFunctionPointer {
  fp_signature : FunctionSignature;
  fp_target : FunctionTarget.t;
}.
#[export] Instance FunctionPointer_eq_dec : EqDecision FunctionPointer.
Proof. solve_decision. Defined.

Definition fp_bits (p : FunctionPointer) : Z :=
  match fp_target p with
  | FunctionTarget.Null => 0
  | FunctionTarget.Defined id => fid id + 1
  | FunctionTarget.InvalidBits bits => bits
  end.

Record Capability := mkCapability {
  arena : Z;
  allocation : nat;
  generation : Z;
  lower : Z;
  upper : Z;
  offset : Z;
  cap_read : bool;
  cap_write : bool;
}.
#[export] Instance Capability_eq_dec : EqDecision Capability.
Proof. solve_decision. Defined.

Record Pointer := mkPointer { address : Z; capability : option Capability }.
#[export] Instance Pointer_eq_dec : EqDecision Pointer.
Proof. solve_decision. Defined.
Definition raw_pointer (address : Z) : Pointer := mkPointer address None.

Module Value.
Inductive t :=
  | Scalar (v : const_value)
  | Checked (v : const_value) (flag : bool)
  | Pointer (p : Pointer)
  | FunctionPointer (p : FunctionPointer).
#[global] Instance eq_dec : EqDecision t.
Proof. solve_decision. Defined.
End Value.
Notation value := Value.t.

Definition value_scalar {E} (v : value) : result E const_value :=
  match v with Value.Scalar v => Ok v | _ => Panic end.
Definition value_pointer {E} (v : value) : result E Pointer :=
  match v with Value.Pointer p => Ok p | _ => Panic end.
Definition value_boolean {E} (v : value) : result E bool :=
  v ← value_scalar v; match v with ConstValue.Bool b => Ok b | _ => Panic end.

(** ** The state *)

Record MemoryLimits := mkMemoryLimits {
  max_bytes : Z;
  max_allocations : Z;
  max_pointer_fragments : Z;
  max_work : Z;
}.
Definition default_memory_limits : MemoryLimits :=
  mkMemoryLimits (64 * 1024 * 1024) 16384 262144 (256 * 1024 * 1024).

Module MemoryResource.
Inductive t := Bytes | Allocations | PointerFragments | Work | HostAllocation.
#[global] Instance eq_dec : EqDecision t.
Proof. solve_decision. Defined.
End MemoryResource.

Module Fault.
Inductive t := Trap (trap : MemoryTrap.t) | Limit (resource : MemoryResource.t) (limit : Z).
#[global] Instance eq_dec : EqDecision t.
Proof. solve_decision. Defined.
End Fault.
Notation fault := Fault.t.

Module StoredPointer.
Inductive t := Data (p : Pointer) | Function (p : FunctionPointer).
#[global] Instance eq_dec : EqDecision t.
Proof. solve_decision. Defined.
End StoredPointer.

Definition stored_bits (p : StoredPointer.t) : Z :=
  match p with StoredPointer.Data p => address p | StoredPointer.Function p => fp_bits p end.

Record Fragment := mkFragment { fragment_pointer : StoredPointer.t; fragment_byte : Z }.
#[export] Instance Fragment_eq_dec : EqDecision Fragment.
Proof. solve_decision. Defined.

(** What the code relies on of [HashMap<usize, Fragment>]: the map it holds, a
    capacity that the address space bounds, and an iteration order. *)
Class FragmentTable (T : Type) := {
  ft_new : T;
  ft_contents : T → gmap nat Fragment;
  ft_capacity : T → Z;
  ft_reserve : nat → T → T;
  ft_retain : (nat → bool) → T → T;
  ft_extend : list (nat * Fragment) → T → T;
  ft_clear : T → T;
  ft_iter : T → list (nat * Fragment);
  ft_contents_new : ft_contents ft_new = ∅;
  ft_capacity_range t : 0 ≤ ft_capacity t < 2 ^ 60;
  ft_contents_reserve n t : ft_contents (ft_reserve n t) = ft_contents t;
  ft_contents_retain f t :
    ft_contents (ft_retain f t) = filter (λ p, f p.1 = true) (ft_contents t);
  ft_contents_extend l t :
    ft_contents (ft_extend l t) = foldl (λ m p, <[p.1 := p.2]> m) (ft_contents t) l;
  ft_contents_clear t : ft_contents (ft_clear t) = ∅;
  ft_iter_contents t : ft_iter t ≡ₚ map_to_list (ft_contents t);
}.

Inductive AllocationKind := Stack | GlobalStore.
#[export] Instance AllocationKind_eq_dec : EqDecision AllocationKind.
Proof. solve_decision. Defined.

Module GepStep.
Inductive t := Stride (stride : Z) | Field (offset : Z).
#[global] Instance eq_dec : EqDecision t.
Proof. solve_decision. Defined.
End GepStep.

(** [layout]: the shared layout of a type, already checked when the code runs. *)
Definition layout {E} (t : ty) : result E TypeLayout :=
  match layout_of_with_limit t X86_64WhaleLinux MAX_IR_NESTING with
  | Ok l => Ok l
  | _ => Panic
  end.

(** Slice operations that panic out of range. *)
Definition slice {E A} (l : list A) (s e : nat) : result E (list A) :=
  if bool_decide (s ≤ e ∧ e ≤ length l)%nat then Ok (take (e - s) (drop s l)) else Panic.
Definition write_slice {E A} (l : list A) (s e : nat) (xs : list A) : result E (list A) :=
  if bool_decide (s ≤ e ∧ e ≤ length l ∧ length xs = e - s)%nat
  then Ok (splice s xs l) else Panic.

Section memory.
Context {T : Type} `{FragmentTable T}.

Record Allocation := mkAllocation {
  kind : AllocationKind;
  base : Z;
  alloc_generation : Z;
  alive : bool;
  readable : bool;
  writable : bool;
  data : list Z;
  initialized : list Z;
  fragments : T;
}.

Record Memory := mkMemory {
  mem_arena : Z;
  allocations : list Allocation;
  mem_limits : MemoryLimits;
  used_bytes : Z;
  fragment_count : Z;
  work : Z;
  next_address : Z;
}.

Definition mem (A : Type) : Type := stm Memory fault A.

Definition set_allocations (l : list Allocation) (m : Memory) : Memory :=
  mkMemory (mem_arena m) l (mem_limits m) (used_bytes m) (fragment_count m) (work m)
    (next_address m).
Definition set_fragment_count (n : Z) (m : Memory) : Memory :=
  mkMemory (mem_arena m) (allocations m) (mem_limits m) (used_bytes m) n (work m)
    (next_address m).
Definition set_work (n : Z) (m : Memory) : Memory :=
  mkMemory (mem_arena m) (allocations m) (mem_limits m) (used_bytes m) (fragment_count m) n
    (next_address m).
Definition set_used (bytes next : Z) (m : Memory) : Memory :=
  mkMemory (mem_arena m) (allocations m) (mem_limits m) bytes (fragment_count m) (work m) next.

Definition set_kind (k : AllocationKind) (a : Allocation) : Allocation :=
  mkAllocation k (base a) (alloc_generation a) (alive a) (readable a) (writable a) (data a)
    (initialized a) (fragments a).
Definition set_writable (w : bool) (a : Allocation) : Allocation :=
  mkAllocation (kind a) (base a) (alloc_generation a) (alive a) (readable a) w (data a)
    (initialized a) (fragments a).
Definition set_fragments (t : T) (a : Allocation) : Allocation :=
  mkAllocation (kind a) (base a) (alloc_generation a) (alive a) (readable a) (writable a) (data a)
    (initialized a) t.
Definition set_data (d : list Z) (a : Allocation) : Allocation :=
  mkAllocation (kind a) (base a) (alloc_generation a) (alive a) (readable a) (writable a) d
    (initialized a) (fragments a).
Definition set_initialized (i : list Z) (a : Allocation) : Allocation :=
  mkAllocation (kind a) (base a) (alloc_generation a) (alive a) (readable a) (writable a) (data a)
    i (fragments a).
Definition retired (a : Allocation) : Allocation :=
  mkAllocation (kind a) (base a) (alloc_generation a) false (readable a) (writable a) [] []
    (ft_clear (fragments a)).

(** [self.allocations[id]], read and assigned. *)
Definition allocation_at (id : nat) : mem Allocation := λ m,
  (expect (allocations m !! id), m).
Definition update_allocation (id : nat) (f : Allocation → Allocation) : mem unit := λ m,
  match allocations m !! id with
  | Some a => (Ok tt, set_allocations (<[id := f a]> (allocations m)) m)
  | None => (Panic, m)
  end.

Definition trap {A} (t : MemoryTrap.t) : mem A := throw (Fault.Trap t).
Definition trap_when (b : bool) (t : MemoryTrap.t) : mem unit := when_err b (Fault.Trap t).
Definition or_trap {A} (o : option A) (t : MemoryTrap.t) : mem A := lift (ok_or o (Fault.Trap t)).
Definition host_limit (granted : bool) (limit : Z) : mem unit :=
  when_err (negb granted) (Fault.Limit MemoryResource.HostAllocation limit).

(** ** The operations *)

(** [Memory::new]; the static counter of arenas is passed along. *)
Definition new (next_arena : Z) (limits : MemoryLimits) : Memory * Z :=
  (mkMemory next_arena [] limits 0 0 0 0x1000, wrapu 64 (next_arena + 1)).

Definition charge (n : Z) : mem unit := λ m,
  match checked_u 64 (work m + n) with
  | Some total =>
      if total <=? max_work (mem_limits m) then (Ok tt, set_work total m)
      else (Err (Fault.Limit MemoryResource.Work (max_work (mem_limits m))), m)
  | None => (Err (Fault.Limit MemoryResource.Work (max_work (mem_limits m))), m)
  end.

Definition allocate (host : nat → bool) (size natural align : Z) : mem Pointer :=
  m ← get;
  _ ← when_err (max_allocations (mem_limits m) <=? Z.of_nat (length (allocations m)))
        (Fault.Limit MemoryResource.Allocations (max_allocations (mem_limits m)));
  bytes ← lift (match checked_u 64 (used_bytes m + size) with
                | Some n => if n <=? max_bytes (mem_limits m) then Ok n
                            else Err (Fault.Limit MemoryResource.Bytes (max_bytes (mem_limits m)))
                | None => Err (Fault.Limit MemoryResource.Bytes (max_bytes (mem_limits m)))
                end);
  let length := Z.to_nat size in
  let alignment := Z.max align natural in
  decrement ← lift (debug_u 64 (alignment - 1));
  address ← or_trap ((λ a, Z.land a (notu 64 decrement)) <$> checked_u 64 (next_address m + decrement))
              MemoryTrap.AddressOverflow;
  next ← or_trap (a ← checked_u 64 (address + Z.max size 1); checked_u 64 (a + 1))
           MemoryTrap.AddressOverflow;
  cost ← or_trap (n ← checked_u 64 (size * 2); checked_u 64 (n + 1)) MemoryTrap.AddressOverflow;
  _ ← charge cost;
  _ ← host_limit (host 0%nat) size;
  _ ← host_limit (host 1%nat) size;
  _ ← host_limit (host 2%nat) size;
  m ← get;
  let id := List.length (allocations m) in
  let capability := mkCapability (mem_arena m) id 0 0 size 0 true true in
  _ ← modify (λ m, set_allocations
        (allocations m ++ [mkAllocation Stack address 0 true true true
                             (replicate length 0) (replicate length 0) ft_new]) m);
  _ ← modify (set_used bytes next);
  mret (mkPointer address (Some capability)).

Definition allocate_global (host : nat → bool) (size natural align : Z) : mem Pointer :=
  pointer ← allocate host size natural align;
  cap ← lift (expect (capability pointer));
  _ ← update_allocation (allocation cap) (set_kind GlobalStore);
  mret pointer.

Definition identity (m : Memory) (pointer : Pointer) : result fault (nat * Capability) :=
  if address pointer =? 0 then Err (Fault.Trap MemoryTrap.NullPointer) else
  cap ← ok_or (capability pointer) (Fault.Trap MemoryTrap.MissingProvenance);
  if negb (arena cap =? mem_arena m) then Err (Fault.Trap MemoryTrap.ExpiredAllocation) else
  a ← ok_or (allocations m !! allocation cap) (Fault.Trap MemoryTrap.ExpiredAllocation);
  if negb (alive a) || negb (alloc_generation a =? generation cap)
  then Err (Fault.Trap MemoryTrap.ExpiredAllocation) else
  if (offset cap <? lower cap) || (upper cap <? offset cap)
     || (Z.of_nat (length (data a)) <? upper cap)
     || negb (bool_decide (checked_u 64 (base a + offset cap) = Some (address pointer)))
  then Err (Fault.Trap MemoryTrap.OutOfBounds) else
  Ok (allocation cap, cap).

(** [&self] methods inside [&mut self] ones. *)
Definition reads {A} (f : Memory → result fault A) : mem A := λ m, (f m, m).

Definition seal_global (pointer : Pointer) (readonly : bool) : mem Pointer :=
  '(id, _) ← reads (λ m, identity m pointer);
  a ← allocation_at id;
  _ ← trap_when (negb (bool_decide (kind a = GlobalStore))) MemoryTrap.InvalidLifetimeEnd;
  _ ← update_allocation id (set_writable (negb readonly));
  cap ← lift (expect (capability pointer));
  mret (mkPointer (address pointer)
          (Some (mkCapability (arena cap) (allocation cap) (generation cap) (lower cap) (upper cap)
                   (offset cap) (cap_read cap) (negb readonly)))).

Definition retire_allocation (id : nat) : mem unit :=
  a ← allocation_at id;
  if alive a then
    m ← get;
    count ← lift (debug_u 64 (fragment_count m - Z.of_nat (base.size (ft_contents (fragments a)))));
    _ ← modify (set_fragment_count count);
    update_allocation id retired
  else mret tt.

Definition retire_stack (pointer : Pointer) (owner_start : nat) : mem unit :=
  '(id, cap) ← reads (λ m, identity m pointer);
  a ← allocation_at id;
  _ ← trap_when (bool_decide (id < owner_start)%nat || negb (bool_decide (kind a = Stack))
                 || negb (offset cap =? 0) || negb (lower cap =? 0)
                 || negb (upper cap =? Z.of_nat (length (data a))))
        MemoryTrap.InvalidLifetimeEnd;
  cost ← lift (debug_u 64 (1 + Z.of_nat (base.size (ft_contents (fragments a)))));
  _ ← charge cost;
  retire_allocation id.

Definition difference (m : Memory) (lhs rhs : Pointer) : result fault Z :=
  '(a, lcap) ← identity m lhs;
  '(b, rcap) ← identity m rhs;
  if negb (a =? b)%nat || negb (generation lcap =? generation rcap)
  then Err (Fault.Trap MemoryTrap.DifferentAllocation)
  else Ok (offset lcap - offset rcap).

Definition compare_order (m : Memory) (lhs rhs : Pointer) : result fault comparison :=
  d ← difference m lhs rhs; Ok (Z.compare d 0).

Definition access (m : Memory) (pointer : Pointer) (n align : Z) (write : bool)
    : result fault (nat * nat * nat) :=
  '(id, cap) ← identity m pointer;
  end_ ← ok_or (checked_u 64 (offset cap + n)) (Fault.Trap MemoryTrap.AddressOverflow);
  if upper cap <? end_ then Err (Fault.Trap MemoryTrap.OutOfBounds) else
  a ← expect (allocations m !! id);
  let permitted := if write then cap_write cap && writable a else cap_read cap && readable a in
  if negb permitted then Err (Fault.Trap MemoryTrap.PermissionDenied) else
  if align =? 0 then Panic else
  if negb (address pointer mod align =? 0)
  then Err (Fault.Trap (MemoryTrap.Misaligned (address pointer) align)) else
  Ok (id, Z.to_nat (offset cap), Z.to_nat end_).

(** One step of [gep]: the displacement of an index. *)
Definition gep_delta (step : GepStep.t) (index : const_value) : result fault Z :=
  match step with
  | GepStep.Field offset => Ok offset
  | GepStep.Stride stride =>
      index ← match index with
              | ConstValue.I v => Ok v
              | ConstValue.U v => ok_or (checked_s 128 v) (Fault.Trap MemoryTrap.AddressOverflow)
              | _ => Panic
              end;
      ok_or (checked_s 128 (index * stride)) (Fault.Trap MemoryTrap.AddressOverflow)
  end.

Fixpoint gep_loop (b offset : Z) (steps : list (GepStep.t * const_value)) : result fault Z :=
  match steps with
  | [] => Ok offset
  | (step, index) :: steps =>
      delta ← gep_delta step index;
      offset ← ok_or (checked_s 128 (offset + delta)) (Fault.Trap MemoryTrap.AddressOverflow);
      address ← ok_or (checked_s 128 (b + offset)) (Fault.Trap MemoryTrap.AddressOverflow);
      if negb (in_u 64 address) then Err (Fault.Trap MemoryTrap.AddressOverflow)
      else gep_loop b offset steps
  end.

Definition gep (m : Memory) (pointer : Pointer) (plan : list GepStep.t)
    (indices : list const_value) : result fault Pointer :=
  match indices with
  | [] => Ok pointer
  | _ =>
      '(_, cap) ← identity m pointer;
      let b := address pointer - offset cap in
      new ← gep_loop b (offset cap) (zip plan indices);
      new ← ok_or (checked_u 64 new) (Fault.Trap MemoryTrap.OutOfBounds);
      if (new <? lower cap) || (upper cap <? new) then Err (Fault.Trap MemoryTrap.OutOfBounds) else
      address ← expect (checked_u 64 (b + new));
      Ok (mkPointer address
            (Some (mkCapability (arena cap) (allocation cap) (generation cap) (lower cap)
                     (upper cap) new (cap_read cap) (cap_write cap))))
  end.

Definition equal (m : Memory) (lhs rhs : Pointer) : result fault bool :=
  if (address lhs =? 0) && (address rhs =? 0) then Ok true else
  if address lhs =? 0 then _ ← identity m rhs; Ok false else
  if address rhs =? 0 then _ ← identity m lhs; Ok false else
  '(_, a) ← identity m lhs;
  '(_, b) ← identity m rhs;
  Ok (bool_decide ((allocation a, generation a, offset a) = (allocation b, generation b, offset b))).

Definition in_range (s e i : nat) : bool := (s <=? i)%nat && (i <? e)%nat.

Definition replace_fragments (host : bool) (id s e : nat) (new : list (nat * Fragment)) : mem unit :=
  a ← allocation_at id;
  cost ← lift (debug_u 64 (3 * ft_capacity (fragments a) + Z.of_nat (length new)));
  _ ← charge cost;
  m ← get;
  let removed :=
    length (filter (λ p, in_range s e p.1 = true) (map_to_list (ft_contents (fragments a)))) in
  left_over ← lift (debug_u 64 (fragment_count m - Z.of_nat removed));
  count ← lift (debug_u 64 (left_over + Z.of_nat (length new)));
  _ ← when_err (max_pointer_fragments (mem_limits m) <? count)
        (Fault.Limit MemoryResource.PointerFragments (max_pointer_fragments (mem_limits m)));
  _ ← host_limit host (Z.of_nat (length new));
  _ ← update_allocation id (λ a, set_fragments (ft_reserve (length new) (fragments a)) a);
  _ ← update_allocation id (λ a,
        set_fragments (ft_retain (λ i, negb (in_range s e i)) (fragments a)) a);
  _ ← update_allocation id (λ a, set_fragments (ft_extend new (fragments a)) a);
  modify (set_fragment_count count).

(** Overwriting a range of the bytes or of the initialization flags. *)
Definition write_data (id s e : nat) (xs : list Z) : mem unit :=
  a ← allocation_at id;
  d ← lift (write_slice (data a) s e xs);
  update_allocation id (set_data d).
Definition write_initialized (id s e : nat) (xs : list Z) : mem unit :=
  a ← allocation_at id;
  d ← lift (write_slice (initialized a) s e xs);
  update_allocation id (set_initialized d).

Definition uninit (host : bool) (pointer : Pointer) (size align : Z) : mem unit :=
  '(id, s, e) ← reads (λ m, access m pointer size align true);
  _ ← charge (Z.of_nat (e - s));
  _ ← replace_fragments host id s e [];
  write_initialized id s e (replicate (e - s) 0).

(** [Memory::copy]; the oracle answers the three buffers, then the table. *)
Definition mem_copy (host : nat → bool) (dst src : Pointer) (size align : Z) : mem unit :=
  if size =? 0 then mret tt else
  '(source, ss, se) ← reads (λ m, access m src size align false);
  '(destination, ds, de) ← reads (λ m, access m dst size align true);
  _ ← trap_when ((source =? destination)%nat && (ss <? de)%nat && (ds <? se)%nat)
        MemoryTrap.OverlappingCopy;
  a ← allocation_at source;
  cost ← or_trap (n ← checked_u 64 (size * 4); checked_u 64 (n + ft_capacity (fragments a)))
           MemoryTrap.AddressOverflow;
  _ ← charge cost;
  a ← allocation_at source;
  let count := Nat.min (base.size (ft_contents (fragments a))) (se - ss) in
  _ ← host_limit (host 0%nat) size;
  _ ← host_limit (host 1%nat) size;
  _ ← host_limit (host 2%nat) (Z.of_nat count);
  bytes ← lift (slice (data a) ss se);
  inits ← lift (slice (initialized a) ss se);
  let copied :=
    (λ p : nat * Fragment, ((ds + (p.1 - ss))%nat, p.2)) <$>
      filter (λ p, in_range ss se p.1 = true) (ft_iter (fragments a)) in
  _ ← replace_fragments (host 3%nat) destination ds de copied;
  _ ← write_data destination ds de bytes;
  write_initialized destination ds de inits.

Definition mem_set (host : bool) (dst : Pointer) (byte size align : Z) : mem unit :=
  if size =? 0 then mret tt else
  '(id, s, e) ← reads (λ m, access m dst size align true);
  cost ← or_trap (checked_u 64 (size * 2)) MemoryTrap.AddressOverflow;
  _ ← charge cost;
  _ ← replace_fragments host id s e [];
  _ ← write_data id s e (replicate (e - s) byte);
  write_initialized id s e (replicate (e - s) 1).

(** The first uninitialized offset among [n] offsets from [start]. *)
Fixpoint check_initialized (flags : list Z) (start n : nat) : result fault unit :=
  match n with
  | O => Ok tt
  | S n =>
      f ← expect (flags !! start);
      if f =? 0 then Err (Fault.Trap (MemoryTrap.Uninitialized (Z.of_nat start)))
      else check_initialized flags (S start) n
  end.

(** All eight fragments of one stored pointer, whose bits are the stored bytes. *)
Definition complete_fragment (frags : gmap nat Fragment) (start : nat) (address : Z)
    : option StoredPointer.t :=
  f ← frags !! start;
  if (fragment_byte f =? 0) && (stored_bits (fragment_pointer f) =? address)
     && forallb (λ i, bool_decide (frags !! (start + i)%nat =
                        Some (mkFragment (fragment_pointer f) (Z.of_nat i)))) (seq 0 8)
  then Some (fragment_pointer f) else None.

Definition load_scalar (m : Memory) (id start : nat) (t : ty)
    (callable_signature : option FunctionSignature) : result fault value :=
  a ← expect (allocations m !! id);
  l ← layout t;
  let n := Z.to_nat (size l) in
  _ ← check_initialized (initialized a) start n;
  bytes ← slice (data a) start (start + n);
  if bool_decide (t = Ty.Bool) then
    b ← expect (bytes !! 0%nat);
    if b =? 0 then Ok (Value.Scalar (ConstValue.Bool false))
    else if b =? 1 then Ok (Value.Scalar (ConstValue.Bool true))
    else Err (Fault.Trap (MemoryTrap.InvalidBool b))
  else
    match t with
    | Ty.Ptr _ =>
        if negb (length bytes =? 8)%nat then Panic else
        let address := from_le_bytes bytes in
        Ok (Value.Pointer
          (if address =? 0 then raw_pointer 0
           else match complete_fragment (ft_contents (fragments a)) start address with
                | Some (StoredPointer.Data pointer) => pointer
                | _ => raw_pointer address
                end))
    | Ty.FnPtr signature =>
        if negb (length bytes =? 8)%nat then Panic else
        let address := from_le_bytes bytes in
        let signature := match callable_signature with Some s => s | None => signature end in
        Ok (Value.FunctionPointer
          (if address =? 0 then mkFunctionPointer signature FunctionTarget.Null
           else match complete_fragment (ft_contents (fragments a)) start address with
                | Some (StoredPointer.Function pointer) =>
                    if decide (fp_signature pointer = signature) then pointer
                    else mkFunctionPointer signature (FunctionTarget.InvalidBits address)
                | _ => mkFunctionPointer signature (FunctionTarget.InvalidBits address)
                end))
    | _ =>
        if (16 <? length bytes)%nat then Panic else
        v ← scalar_pack t (from_le_bytes bytes); Ok (Value.Scalar v)
    end.

Definition load_with_signature (pointer : Pointer) (t : ty) (align : Z)
    (signature : option FunctionSignature) : mem value :=
  l ← lift (layout t);
  '(id, s, e) ← reads (λ m, access m pointer (size l) align false);
  _ ← charge (Z.of_nat (e - s));
  match t with
  | Ty.Tuple fields =>
      o0 ← lift (expect (field_offsets l !! 0%nat));
      t0 ← lift (expect (fields !! 0%nat));
      a ← reads (λ m, load_scalar m id (s + Z.to_nat o0) t0 None);
      o1 ← lift (expect (field_offsets l !! 1%nat));
      t1 ← lift (expect (fields !! 1%nat));
      b ← reads (λ m, load_scalar m id (s + Z.to_nat o1) t1 None);
      v ← lift (value_scalar a);
      flag ← lift (value_boolean b);
      mret (Value.Checked v flag)
  | _ => reads (λ m, load_scalar m id s t signature)
  end.

(** [Memory::encode]: the bytes and the fragments a value leaves at [start]. *)
Definition encode {E} (t : ty) (v : value) (start : nat)
    : result E (list (nat * Z) * list (nat * Fragment)) :=
  l ← layout t;
  let n := Z.to_nat (size l) in
  let stored (p : StoredPointer.t) :=
    (λ i, ((start + i)%nat, mkFragment p (Z.of_nat i))) <$> seq 0 8 in
  '(bits, frags) ←
    match v with
    | Value.Pointer p => Ok (address p, stored (StoredPointer.Data p))
    | Value.FunctionPointer p => Ok (fp_bits p, stored (StoredPointer.Function p))
    | Value.Scalar v => b ← scalar_raw t v; Ok (b, [])
    | _ => Panic
    end;
  if (16 <? n)%nat then Panic else
  Ok (imap (λ i b, ((start + i)%nat, b)) (to_le_bytes n bits), frags).

(** The [for (at, byte) in bytes] loop of [store]. *)
Fixpoint write_bytes (id : nat) (bytes : list (nat * Z)) : mem unit :=
  match bytes with
  | [] => mret tt
  | (at_, byte) :: bytes =>
      _ ← write_data id at_ (S at_) [byte];
      _ ← write_initialized id at_ (S at_) [1];
      write_bytes id bytes
  end.

Definition store (host : bool) (pointer : Pointer) (t : ty) (v : value) (align : Z) : mem unit :=
  l ← lift (layout t);
  '(id, s, e) ← reads (λ m, access m pointer (size l) align true);
  '(bytes, frags) ← lift
    (match t, v with
     | Ty.Tuple fields, Value.Checked v flag =>
         o0 ← expect (field_offsets l !! 0%nat);
         t0 ← expect (fields !! 0%nat);
         '(b0, f0) ← encode t0 (Value.Scalar v) (s + Z.to_nat o0);
         o1 ← expect (field_offsets l !! 1%nat);
         t1 ← expect (fields !! 1%nat);
         '(b1, f1) ← encode t1 (Value.Scalar (ConstValue.Bool flag)) (s + Z.to_nat o1);
         Ok (b0 ++ b1, f0 ++ f1)
     | _, _ => encode t v s
     end);
  _ ← charge (Z.of_nat (e - s));
  _ ← replace_fragments host id s e frags;
  write_bytes id bytes.

Definition allocation_count (m : Memory) : nat := length (allocations m).

(** The loop of [retire_from] over [count] ids from [id]. *)
Fixpoint retire_loop (id count : nat) : mem unit :=
  match count with
  | O => mret tt
  | S count =>
      a ← allocation_at id;
      _ ← (if decide (kind a = Stack) then retire_allocation id else mret tt);
      retire_loop (S id) count
  end.

Definition retire_from (start : nat) : mem unit :=
  m ← get;
  cost ← lift (debug_u 64 (Z.of_nat (length (allocations m)) - Z.of_nat start));
  _ ← charge cost;
  retire_loop start (length (allocations m) - start).
End memory.
Arguments Allocation T : clear implicits.
Arguments Memory T : clear implicits.
Arguments mem T A : clear implicits.

(** A concrete table, for evaluation: a finite map with a tight capacity. *)
#[export] Instance gmap_table : FragmentTable (gmap nat Fragment).
Proof.
  refine {|
    ft_new := ∅;
    ft_contents t := t;
    ft_capacity t := Z.min (Z.of_nat (base.size t)) (2 ^ 60 - 1);
    ft_reserve _ t := t;
    ft_retain f t := filter (λ p, f p.1 = true) t;
    ft_extend l t := foldl (λ m p, <[p.1 := p.2]> m) t l;
    ft_clear _ := ∅;
    ft_iter t := map_to_list t;
  |}; done || (intros; lia).
Defined.
