(* ===== verification/MemoryCells.v ===== *)
(** * Memory safety ([interpreter/memory.rs])

    What the operations of [Memory.v] do.  The state is read as independent byte cells
    (byte, initialization flag, pointer fragment): every mutating operation either
    fails and changes nothing but the work counter, or overwrites exactly the cells of
    its range with the cells the operation prescribes.  From this follow the invariant,
    the absence of panics, store-load round trips, framing, byte-wise copying of
    provenance and the safety of expired, foreign and out-of-bounds pointers. *)
From S2P Require Export Memory.
Local Open Scope Z_scope.

(** ** Runtime values and their types *)

(** A data pointer as the machine has it: a null address carries no capability, and
    the fields of a capability are machine words. *)
Definition pointer_ok (p : Pointer) : Prop :=
  0 ≤ address p < 2 ^ 64 ∧
  match capability p with Some cap => address p ≠ 0 ∧ 0 ≤ lower cap | None => True end.

Definition function_ok (p : FunctionPointer) : Prop :=
  match fp_target p with
  | FunctionTarget.Null => True
  | FunctionTarget.Defined id => 0 ≤ fid id < 2 ^ 32
  | FunctionTarget.InvalidBits bits => 0 < bits < 2 ^ 64
  end.

Definition fragment_ok (f : Fragment) : Prop :=
  match fragment_pointer f with
  | StoredPointer.Data p => pointer_ok p
  | StoredPointer.Function p => function_ok p
  end.

(** [v] is a runtime value of type [t]; of the aggregates only the checked pairs are
    values. *)
Definition value_ok (t : ty) (v : value) : Prop :=
  match v with
  | Value.Scalar v => has_type t v = true
  | Value.Checked v _ => ∃ i, t = Ty.Tuple [i; Ty.Bool] ∧ is_int i = true ∧ has_type i v = true
  | Value.Pointer p => (∃ inner, t = Ty.Ptr inner) ∧ pointer_ok p
  | Value.FunctionPointer p => t = Ty.FnPtr (fp_signature p) ∧ function_ok p
  end.

Section cells.
Context {T : Type} `{FragmentTable T}.
Implicit Types (m : Memory T) (a : Allocation T).

(** ** The invariant *)

Record alloc_ok (a : Allocation T) : Prop := {
  alloc_bytes : Forall (λ b, 0 ≤ b < 256) (data a);
  alloc_flags : Forall (λ f, f = 0 ∨ f = 1) (initialized a);
  alloc_length : length (initialized a) = length (data a);
  alloc_fragments i f : ft_contents (fragments a) !! i = Some f →
    (i < length (data a))%nat ∧ fragment_ok f;
  alloc_retired : alive a = false → data a = [];
  alloc_gen : alloc_generation a = 0;
  alloc_base : 0 < base a;
}.

Definition limits_bounded (l : MemoryLimits) : Prop :=
  0 ≤ max_bytes l < 2 ^ 64 ∧ 0 ≤ max_allocations l < 2 ^ 63 ∧
  0 ≤ max_pointer_fragments l < 2 ^ 60 ∧ 0 ≤ max_work l < 2 ^ 64.

Definition fragments_of (l : list (Allocation T)) : nat :=
  sum_list_with (λ a, base.size (ft_contents (fragments a))) l.
Definition bytes_of (l : list (Allocation T)) : nat := sum_list_with (λ a, length (data a)) l.

Record memory_ok m : Prop := {
  ok_limits : limits_bounded (mem_limits m);
  ok_allocs : Forall alloc_ok (allocations m);
  ok_placed i j a b : (i < j)%nat → allocations m !! i = Some a → allocations m !! j = Some b →
    base a + Z.of_nat (length (data a)) < base b;
  ok_below i a : allocations m !! i = Some a →
    base a + Z.of_nat (length (data a)) < next_address m;
  ok_next : 0 < next_address m < 2 ^ 64;
  ok_count : fragment_count m = Z.of_nat (fragments_of (allocations m));
  ok_max_count : fragment_count m ≤ max_pointer_fragments (mem_limits m);
  ok_bytes : Z.of_nat (bytes_of (allocations m)) ≤ used_bytes m ≤ max_bytes (mem_limits m);
  ok_number : Z.of_nat (length (allocations m)) ≤ max_allocations (mem_limits m);
  ok_work : 0 ≤ work m ≤ max_work (mem_limits m);
}.

(** ** Outcomes

    [runs m0 op Q m]: from [m], [op] never panics; when it succeeds [Q] holds, and when
    it fails nothing but the work counter differs from [m0]. *)
Definition work_only m0 m : Prop :=
  ∃ w, m = set_work w m0 ∧ work m0 ≤ w ≤ max_work (mem_limits m0).
Definition runs {A} m0 (op : mem T A) (Q : A → Memory T → Prop) m : Prop :=
  match op m with
  | (Ok x, m') => Q x m'
  | (Err _, m') => work_only m0 m'
  | (Panic, _) => False
  end.

Lemma work_only_refl m : memory_ok m → work_only m m.
Proof. intros Hm. exists (work m). destruct m; split; [done|]. pose proof (ok_work _ Hm). simpl in *. lia. Qed.

Lemma work_only_ok m m' : memory_ok m → work_only m m' → memory_ok m'.
Proof.
  intros [] (w & -> & Hw). split; simpl; try done. lia.
Qed.

Lemma runs_bind {A B} m0 (op : mem T A) (k : A → mem T B) Q m :
  runs m0 op (λ x m', runs m0 (k x) Q m') m → runs m0 (op ≫= k) Q m.
Proof. unfold runs, mbind, stm_bind. by destruct (op m) as [[|e|] m']. Qed.

Lemma runs_ret {A} m0 (x : A) Q m : Q x m → runs m0 (mret x) Q m.
Proof. done. Qed.

Lemma runs_mono {A} m0 (op : mem T A) (Q Q' : A → Memory T → Prop) m :
  runs m0 op Q m → (∀ x m', Q x m' → Q' x m') → runs m0 op Q' m.
Proof. unfold runs. destruct (op m) as [[]]; naive_solver. Qed.

Lemma runs_when_err m0 c e m Q :
  work_only m0 m → (c = false → Q tt m) → runs m0 (when_err c e) Q m.
Proof. unfold runs, when_err. intros Hw HQ. destruct c; simpl; auto. Qed.

Lemma runs_lift {A} m0 (r : result fault A) Q m :
  work_only m0 m → r ≠ Panic → (∀ x, r = Ok x → Q x m) → runs m0 (lift r) Q m.
Proof. unfold runs, lift. intros Hw Hr HQ. destruct r; auto. Qed.

Lemma runs_lift_ok {A} m0 (x : A) Q m : Q x m → runs m0 (lift (Ok x)) Q m.
Proof. done. Qed.

Lemma runs_reads {A} m0 (f : Memory T → result fault A) Q m :
  work_only m0 m → f m ≠ Panic → (∀ x, f m = Ok x → Q x m) → runs m0 (reads f) Q m.
Proof. unfold runs, reads. intros Hw Hr HQ. destruct (f m); auto. Qed.

Lemma runs_get m0 Q m : Q m m → runs m0 get Q m.
Proof. done. Qed.
Lemma runs_modify m0 f Q m : Q tt (f m) → runs m0 (modify f) Q m.
Proof. done. Qed.

Lemma runs_allocation_at m0 id a Q m :
  allocations m !! id = Some a → Q a m → runs m0 (allocation_at id) Q m.
Proof. unfold runs, allocation_at. by intros ->. Qed.

Lemma runs_update m0 id f a Q m :
  allocations m !! id = Some a →
  Q tt (set_allocations (<[id := f a]> (allocations m)) m) → runs m0 (update_allocation id f) Q m.
Proof. unfold runs, update_allocation. by intros ->. Qed.

(** Charging is the only effect that a later failure keeps. *)
Lemma runs_charge m0 n Q m :
  limits_bounded (mem_limits m0) → 0 ≤ n → work_only m0 m →
  (∀ m', work_only m0 m' → allocations m' = allocations m → Q tt m') →
  runs m0 (charge n) Q m.
Proof.
  intros Hl Hn (w & -> & Hw) HQ. unfold runs, charge. simpl.
  destruct (checked_u 64 (w + n)) as [total|] eqn:Hc.
  - apply checked_u_Some in Hc as [-> ?]. destruct (Z.leb_spec (w + n) (max_work (mem_limits m0))).
    + apply HQ; [|done]. exists (w + n). split; [done|lia].
    + exists w. done.
  - exists w. done.
Qed.

Lemma runs_or_trap {A} m0 (o : option A) t Q m :
  work_only m0 m → (∀ x, o = Some x → Q x m) → runs m0 (or_trap o t) Q m.
Proof. unfold runs, or_trap, lift. destruct o; simpl; auto. Qed.

Lemma runs_debug m0 z Q m : 0 ≤ z < 2 ^ 64 → Q z m → runs m0 (lift (debug_u 64 z)) Q m.
Proof.
  intros Hz HQ. unfold runs, lift, debug_u.
  by rewrite (proj2 (checked_u_Some 64 z z)) by done.
Qed.

(** ** Access *)

(** What a successful [identity] and [access] establish. *)
Definition tracked m (p : Pointer) (id : nat) (cap : Capability) (a : Allocation T) : Prop :=
  capability p = Some cap ∧ allocation cap = id ∧ arena cap = mem_arena m ∧
  allocations m !! id = Some a ∧ alive a = true ∧ alloc_generation a = generation cap ∧
  lower cap ≤ offset cap ≤ upper cap ∧ upper cap ≤ Z.of_nat (length (data a)) ∧
  0 ≤ base a + offset cap < 2 ^ 64 ∧ address p = base a + offset cap ∧ address p ≠ 0.

Lemma identity_spec m p :
  identity m p ≠ Panic ∧
  ∀ id cap, identity m p = Ok (id, cap) ↔ ∃ a, tracked m p id cap a.
Proof.
  unfold identity, tracked. destruct (Z.eqb_spec (address p) 0) as [H0|H0].
  { split; [done|]. intros. split; [done|]. intros (a&?). naive_solver. }
  destruct (capability p) as [cap|] eqn:Hc; simpl; [|split; [done|]; naive_solver].
  destruct (Z.eqb_spec (arena cap) (mem_arena m)) as [Ha|Ha]; simpl; [|split; [done|]; naive_solver].
  destruct (allocations m !! allocation cap) as [a|] eqn:Hl; simpl; [|split; [done|]].
  2:{ intros. split; [done|]. intros (a&?&?&?&?&_). congruence. }
  destruct (alive a) eqn:Hal; simpl.
  2:{ split; [done|]. intros. split; [done|]. intros (a'&?&?&?&?&?&_). congruence. }
  destruct (Z.eqb_spec (alloc_generation a) (generation cap)) as [Hg|Hg]; simpl.
  2:{ split; [done|]. intros. split; [done|]. intros (a'&?&?&?&?&?&?&_). congruence. }
  destruct (_ || _) eqn:Hb.
  - split; [done|]. intros id cap'. split; [done|].
    intros (a'&?&?&?&?&?&?&?&?&?&?&?). simplify_eq.
    rewrite !orb_true_iff, negb_true_iff, bool_decide_eq_false in Hb.
    destruct Hb as [[[Hb|Hb]|Hb]|Hb]; [lia..|].
    exfalso. apply Hb, checked_u_Some. split; [congruence|done].
  - rewrite !orb_false_iff, negb_false_iff, bool_decide_eq_true in Hb.
    destruct Hb as [[[Hb1 Hb2] Hb3] [Hb4 Hb5]%checked_u_Some].
    split; [done|]. intros id cap'. split.
    + intros [= <- <-]. exists a. split_and!; try done; lia.
    + intros (a'&?&?&?). by simplify_eq.
Qed.

Lemma access_spec m p n al w :
  0 < al →
  access m p n al w ≠ Panic ∧
  ∀ id s e, 0 ≤ n → access m p n al w = Ok (id, s, e) →
    ∃ cap a, tracked m p id cap a ∧ offset cap + n ≤ upper cap ∧
      (0 ≤ offset cap → s = Z.to_nat (offset cap) ∧ e = Z.to_nat (offset cap + n) ∧
        (s ≤ e ≤ length (data a))%nat ∧ Z.of_nat (e - s) = n) ∧
      (if w then cap_write cap && writable a else cap_read cap && readable a) = true ∧
      (al | address p).
Proof.
  intros Hal. unfold access. destruct (identity_spec m p) as [Hnp Hid].
  destruct (identity m p) as [[i cap]|f|] eqn:Hi; simpl; [|split; done|done].
  destruct (proj1 (Hid i cap) eq_refl) as (a & Ht). pose proof Ht as (_&_&_&Ha&_).
  destruct (checked_u 64 _) as [end_|] eqn:Hend; simpl; [|split; done].
  apply checked_u_Some in Hend as [-> Hend].
  destruct (Z.ltb_spec (upper cap) (offset cap + n)); [split; done|].
  rewrite Ha. simpl. set (permitted := if w then _ else _).
  destruct permitted eqn:Hp; simpl; [|split; done].
  rewrite (proj2 (Z.eqb_neq al 0)) by lia.
  destruct (Z.eqb_spec (address p mod al) 0) as [Hm|Hm]; simpl; [|split; done].
  split; [done|]. intros id s e Hn [= <- <- <-]. exists cap, a.
  split; [done|]. split; [done|]. split.
  - intros Ho. destruct Ht as (_&_&_&_&_&_&_&Hup&_). lia.
  - split; [done|]. by apply Z.mod_divide; [lia|].
Qed.

(** ** Overwriting cells *)

Lemma in_range_spec s e i : reflect (s ≤ i < e)%nat (in_range s e i).
Proof.
  apply iff_reflect. unfold in_range. rewrite andb_true_iff, Nat.leb_le, Nat.ltb_lt. lia.
Qed.

(** A cell: byte, initialization flag and fragment. *)
Definition cell : Type := Z * Z * option Fragment.
Definition cell_byte (c : cell) : Z := c.1.1.
Definition cell_flag (c : cell) : Z := c.1.2.
Definition cell_fragment (c : cell) : option Fragment := c.2.
Definition cell_at a (i : nat) : cell :=
  (data a !!! i, initialized a !!! i, ft_contents (fragments a) !! i).
Definition cells_of a (s n : nat) : list cell := cell_at a <$> seq s n.
Definition cell_ok (c : cell) : Prop :=
  0 ≤ cell_byte c < 256 ∧ (cell_flag c = 0 ∨ cell_flag c = 1) ∧
  ∀ f, cell_fragment c = Some f → fragment_ok f.

(** Replacing the fragments of a range. *)
Definition with_fragments (s : nat) (new : list (option Fragment)) (old : gmap nat Fragment)
    (i : nat) : option Fragment :=
  if in_range s (s + length new) i then mjoin (new !! (i - s)%nat) else old !! i.

(** The allocation after its cells from [s] became [cs], with [t] as fragment table. *)
Definition overwritten (s : nat) (cs : list cell) (t : T) a : Allocation T :=
  mkAllocation (kind a) (base a) (alloc_generation a) (alive a) (readable a) (writable a)
    (splice s (cell_byte <$> cs) (data a)) (splice s (cell_flag <$> cs) (initialized a)) t.

(** [overwrites id s cs m m']: [m'] is [m] with the cells of allocation [id] from [s]
    overwritten by [cs]; only the work and fragment counters change besides. *)
Definition overwrites (id s : nat) (cs : list cell) m m' : Prop :=
  ∃ a t w, allocations m !! id = Some a ∧ (s + length cs ≤ length (data a))%nat ∧
    (∀ i, ft_contents t !! i = with_fragments s (cell_fragment <$> cs) (ft_contents (fragments a)) i) ∧
    work m ≤ w ≤ max_work (mem_limits m) ∧
    let l := <[id := overwritten s cs t a]> (allocations m) in
    m' = mkMemory (mem_arena m) l (mem_limits m) (used_bytes m) (Z.of_nat (fragments_of l)) w
           (next_address m) ∧
    Z.of_nat (fragments_of l) ≤ max_pointer_fragments (mem_limits m).

Lemma sum_list_insert {A} (f : A → nat) l i x y :
  l !! i = Some x → (sum_list_with f (<[i := y]> l) + f x = sum_list_with f l + f y)%nat.
Proof.
  revert i. induction l as [|z l IH]; intros [|i] Hl; simplify_eq/=; [lia|].
  specialize (IH i Hl). lia.
Qed.

Lemma sum_list_lookup {A} (f : A → nat) l i x : l !! i = Some x → (f x ≤ sum_list_with f l)%nat.
Proof.
  revert i. induction l as [|z l IH]; intros [|i] Hl; simplify_eq/=; [lia|].
  specialize (IH i Hl). lia.
Qed.

(** Overwriting with valid cells keeps the invariant. *)
Lemma overwrites_ok id s cs m m' :
  memory_ok m → Forall cell_ok cs → overwrites id s cs m m' → memory_ok m'.
Proof.
  intros [] Hcs (a & t & w & Ha & Hlen & Ht & Hw & -> & Hmax).
  pose proof (proj1 (Forall_lookup _ _) ok_allocs0 _ _ Ha) as [].
  assert (length (data (overwritten s cs t a)) = length (data a)) as Hld.
  { simpl. rewrite length_splice; [done|]. by rewrite length_fmap. }
  assert (∀ j b, <[id := overwritten s cs t a]> (allocations m) !! j = Some b →
    ∃ b', allocations m !! j = Some b' ∧ base b = base b' ∧ length (data b) = length (data b')) as Hsame.
  { intros j b Hb. destruct (decide (j = id)) as [->|Hne].
    - rewrite list_lookup_insert_eq in Hb by (by eapply lookup_lt_Some). simplify_eq. by exists a.
    - rewrite list_lookup_insert_ne in Hb by done. by exists b. }
  split; simpl; try done; try lia.
  - apply Forall_insert; [done|]. split; simpl.
    + apply Forall_splice; [|done]. apply Forall_fmap. eapply Forall_impl; [done|]. by intros ? [].
    + apply Forall_splice; [|done]. apply Forall_fmap. eapply Forall_impl; [done|]. by intros ? (_&?&_).
    + rewrite !length_splice; rewrite ?length_fmap; lia.
    + intros i f. rewrite Ht, length_splice by (by rewrite length_fmap).
      unfold with_fragments, in_range. rewrite length_fmap.
      destruct (Nat.leb_spec s i), (Nat.ltb_spec i (s + length cs)); simpl;
        intros Hf; try (split; [lia|]); try (by eapply alloc_fragments0).
      rewrite list_lookup_fmap in Hf.
      destruct (cs !! (i - s)%nat) as [c|] eqn:Hc; simpl in Hf; [|done].
      rewrite Forall_lookup in Hcs. destruct (Hcs _ _ Hc) as (_&_&?). auto.
    + intros Hdead. apply length_zero_iff_nil. rewrite length_splice by (by rewrite length_fmap).
      by rewrite alloc_retired0.
    + done.
    + done.
  - intros i j b c Hij Hb Hc. destruct (Hsame _ _ Hb) as (b'&?&->&->), (Hsame _ _ Hc) as (c'&?&->&_). eauto.
  - intros i b Hb. destruct (Hsame _ _ Hb) as (b'&?&->&->). eauto.
  - unfold bytes_of in *. pose proof (sum_list_insert (λ a, length (data a)) _ _ _ (overwritten s cs t a) Ha).
    lia.
  - rewrite length_insert. lia.
Qed.

(** The fragments of a list of entries. *)
Lemma foldl_insert_lookup (l : list (nat * Fragment)) (g : gmap nat Fragment) i :
  NoDup l.*1 →
  foldl (λ g p, <[p.1 := p.2]> g) g l !! i =
    match list_to_map (M := gmap nat Fragment) l !! i with Some f => Some f | None => g !! i end.
Proof.
  revert g. induction l as [|[j f] l IH]; intros g Hnd; simpl; [by rewrite lookup_empty|].
  apply NoDup_cons in Hnd as [Hj Hnd]. rewrite IH by done. simpl.
  destruct (decide (i = j)) as [->|Hne].
  - rewrite lookup_insert_eq. rewrite (not_elem_of_list_to_map_1 l j) by done.
    by rewrite lookup_insert_eq.
  - by rewrite !lookup_insert_ne by done.
Qed.

(** The entries of a list of optional fragments at consecutive offsets. *)
Definition entries_at (s : nat) (new : list (option Fragment)) (l : list (nat * Fragment)) : Prop :=
  NoDup l.*1 ∧
  ∀ i f, (i, f) ∈ l ↔ (s ≤ i)%nat ∧ new !! (i - s)%nat = Some (Some f).

Lemma entries_at_lookup s new l i :
  entries_at s new l →
  list_to_map (M := gmap nat Fragment) l !! i = if decide (s ≤ i)%nat then mjoin (new !! (i - s)%nat) else None.
Proof.
  intros [Hnd Hl]. destruct (list_to_map l !! i) as [f|] eqn:Hf.
  - apply elem_of_list_to_map in Hf; [|done]. apply Hl in Hf as [Hs Hf].
    by rewrite decide_True, Hf by done.
  - apply not_elem_of_list_to_map in Hf. case_decide as Hs; [|done].
    destruct (new !! (i - s)%nat) as [[f|]|] eqn:Hn; [|done..]. exfalso. apply Hf.
    apply list_elem_of_fmap. exists (i, f). split; [done|]. by apply Hl.
Qed.

Lemma length_filter_split {A} (f : A → bool) (l : list A) :
  (length (filter (λ x, f x = true) l) + length (filter (λ x, negb (f x) = true) l) = length l)%nat.
Proof.
  induction l as [|x l IH]; [done|]. rewrite !filter_cons. destruct (f x); simpl; lia.
Qed.

Lemma size_filter_list (P : nat * Fragment → Prop) `{!∀ p, Decision (P p)} (g : gmap nat Fragment) :
  base.size (filter P g) = length (filter P (map_to_list g)).
Proof.
  rewrite map_filter_alt, <- length_map_to_list, map_to_list_to_map; [done|].
  apply NoDup_fmap_fst; [|apply NoDup_filter, NoDup_map_to_list].
  intros i f f' [_ Hf]%list_elem_of_filter [_ Hf']%list_elem_of_filter.
  apply elem_of_map_to_list in Hf, Hf'. congruence.
Qed.

Lemma map_lookup_filter_split (P : nat * Fragment → Prop) `{!∀ p, Decision (P p)} (g : gmap nat Fragment) i :
  (∀ f, P (i, f)) → filter P g !! i = g !! i.
Proof.
  intros HP. destruct (g !! i) eqn:Hi.
  - by apply map_lookup_filter_Some.
  - apply map_lookup_filter_None. by left.
Qed.

(** Counting the fragments after a replacement. *)
Lemma replaced_size s new l (g g' : gmap nat Fragment) :
  entries_at s new l →
  (∀ i, g' !! i = with_fragments s new g i) →
  (base.size g' + length (filter (λ p, in_range s (s + length new) p.1 = true) (map_to_list g)) =
   base.size g + length l)%nat.
Proof.
  intros Hl Hg'. pose proof Hl as [Hnd Hin].
  set (inside := λ p : nat * Fragment, in_range s (s + length new) p.1).
  set (kept := filter (λ p, negb (inside p) = true) g).
  assert (g' = list_to_map l ∪ kept) as ->.
  { apply map_eq. intros i. rewrite Hg', lookup_union.
    rewrite (entries_at_lookup s new l i Hl). unfold with_fragments, in_range.
    assert (kept !! i = if in_range s (s + length new) i then None else g !! i) as ->.
    { unfold kept. destruct (g !! i) as [f|] eqn:Hi.
      - destruct (in_range s (s + length new) i) eqn:Hr.
        + apply map_lookup_filter_None. right. intros f' _. unfold inside. simpl. by rewrite Hr.
        + apply map_lookup_filter_Some. split; [done|]. unfold inside. simpl. by rewrite Hr.
      - rewrite (proj2 (map_lookup_filter_None _ _ _)) by (by left). by destruct (in_range _ _ _). }
    unfold in_range. case_decide as Hs.
    - rewrite (proj2 (Nat.leb_le s i)) by done. simpl.
      destruct (Nat.ltb_spec i (s + length new)).
      + by destruct (mjoin _).
      + rewrite (lookup_ge_None_2 new) by lia. simpl. by destruct (g !! i).
    - rewrite (proj2 (Nat.leb_gt s i)) by lia. simpl. by destruct (g !! i). }
  rewrite map_size_disj_union.
  - rewrite <- (length_map_to_list (list_to_map l)), <- (length_map_to_list g).
    unfold kept. rewrite size_filter_list, (map_to_list_to_map l) by done.
    pose proof (length_filter_split inside (map_to_list g)). unfold inside in *. lia.
  - apply map_disjoint_spec. intros i f f' Hf Hf'.
    rewrite (entries_at_lookup s new l i Hl) in Hf. unfold kept in Hf'.
    apply map_lookup_filter_Some in Hf' as [_ Hi]. unfold inside, in_range in Hi. simpl in Hi.
    case_decide; [|done].
    destruct (new !! (i - s)%nat) as [[]|] eqn:Hn; simpl in Hf; [|done..].
    apply lookup_lt_Some in Hn. apply negb_true_iff, andb_false_iff in Hi.
    rewrite Nat.leb_gt, Nat.ltb_ge in Hi. lia.
Qed.

Lemma runs_replace_fragments m0 m host id a s new l (Q : unit → Memory T → Prop) :
  memory_ok m0 → work_only m0 m → allocations m !! id = Some a →
  (s + length new ≤ length (data a))%nat → entries_at s new l → Z.of_nat (length l) < 2 ^ 60 →
  (∀ t w, (∀ i, ft_contents t !! i = with_fragments s new (ft_contents (fragments a)) i) →
     work m0 ≤ w ≤ max_work (mem_limits m0) →
     let al := <[id := set_fragments t a]> (allocations m0) in
     Z.of_nat (fragments_of al) ≤ max_pointer_fragments (mem_limits m0) →
     Q tt (mkMemory (mem_arena m0) al (mem_limits m0) (used_bytes m0) (Z.of_nat (fragments_of al)) w
             (next_address m0))) →
  runs m0 (replace_fragments host id s (s + length new) l) Q m.
Proof.
  intros Hm0 Hw Ha Hlen Hl Hll HQ. unfold replace_fragments.
  apply runs_bind, (runs_allocation_at _ _ a); [done|].
  pose proof (ft_capacity_range (fragments a)).
  apply runs_bind, runs_debug; [lia|].
  apply runs_bind, runs_charge; [apply Hm0|lia|done|]. intros m1 Hw1 Hal.
  apply runs_bind, runs_get.
  destruct Hw1 as (w & -> & Hw1), Hw as (w0 & -> & _). simpl in Ha, Hal |- *. clear Hal.
  set (g := ft_contents (fragments a)) in *.
  set (removed := length (filter _ (map_to_list g))).
  set (g' := foldl (λ g p, <[p.1 := p.2]> g) (filter (λ p, negb (in_range s (s + length new) p.1) = true) g) l).
  assert (∀ i, g' !! i = with_fragments s new g i) as Hg'.
  { intros i. unfold g'. rewrite foldl_insert_lookup by apply Hl.
    rewrite (entries_at_lookup s new l i Hl). unfold with_fragments.
    destruct (in_range_spec s (s + length new) i) as [Hr|Hr].
    - rewrite decide_True by lia. destruct (mjoin _) eqn:Hj; [done|].
      apply map_lookup_filter_None. right. intros f _. simpl.
      by destruct (in_range_spec s (s + length new) i).
    - assert (filter (λ p, negb (in_range s (s + length new) p.1) = true) g !! i = g !! i) as Hf.
      { apply map_lookup_filter_split. intros f. simpl.
        by destruct (in_range_spec s (s + length new) i). }
      case_decide; [|done]. by rewrite (lookup_ge_None_2 new) by lia. }
  pose proof (replaced_size s new l g g' Hl Hg') as Hsize.
  assert (fragment_count m0 = Z.of_nat (fragments_of (allocations m0))) as Hfc by apply Hm0.
  pose proof (sum_list_lookup (λ a, base.size (ft_contents (fragments a))) _ _ _ Ha) as Hsz.
  cbn beta in Hsz. fold g in Hsz. fold (fragments_of (allocations m0)) in Hsz.
  assert (removed ≤ base.size g)%nat as Hrem.
  { unfold removed. rewrite <- (length_map_to_list g). apply length_filter. }
  pose proof (ok_max_count _ Hm0). pose proof (ok_limits _ Hm0) as (_&_&?&_).
  apply runs_bind, runs_debug; [simpl; lia|]. simpl.
  apply runs_bind, runs_debug; [lia|].
  apply runs_bind, runs_when_err; [by exists w|]. intros Hmax%Z.ltb_ge.
  apply runs_bind, runs_when_err; [by exists w|]. intros _.
  pose proof (lookup_lt_Some _ _ _ Ha) as Hid.
  apply runs_bind, (runs_update _ _ _ a); [done|].
  apply runs_bind, (runs_update _ _ _ (set_fragments (ft_reserve (length l) (fragments a)) a));
    [by apply list_lookup_insert_eq|].
  simpl. rewrite list_insert_insert_eq.
  eapply runs_bind, runs_update; [by apply list_lookup_insert_eq|].
  simpl. rewrite list_insert_insert_eq. apply runs_modify. simpl.
  set (t := ft_extend l _). cbn [set_fragments kind base alloc_generation alive readable writable data initialized].
  assert (ft_contents t = g') as Ht.
  { unfold t, g', g. by rewrite ft_contents_extend, ft_contents_retain, ft_contents_reserve. }
  pose proof (sum_list_insert (λ a, base.size (ft_contents (fragments a))) _ _ _ (set_fragments t a) Ha) as Hsum.
  cbn beta in Hsum. cbn [set_fragments fragments] in Hsum. rewrite Ht in Hsum. fold g in Hsum.
  fold (fragments_of (allocations m0)) in Hsum.
  fold (fragments_of (<[id:=set_fragments t a]> (allocations m0))) in Hsum.
  fold removed in Hsize.
  assert (fragment_count m0 - Z.of_nat removed + Z.of_nat (length l) =
          Z.of_nat (fragments_of (<[id:=set_fragments t a]> (allocations m0)))) as Hnew by lia.
  unfold set_fragment_count, set_allocations, set_work. simpl. rewrite Hnew.
  apply HQ; [by intros; rewrite Ht|done|]. rewrite <- Hnew. lia.
Qed.
End cells.
