(* ===== verification/MemoryOps.v ===== *)
(** * The operations on tracked memory

    Each operation of [Memory.v] against the cells of [MemoryCells.v]. *)
From S2P Require Export MemoryCells.
Local Open Scope Z_scope.

(** ** The bytes of a value *)

Definition byte_size (t : ty) : nat :=
  match t with
  | Ty.Bool | Ty.I1 | Ty.U1 | Ty.I8 | Ty.U8 => 1
  | Ty.I16 | Ty.U16 | Ty.F16 => 2
  | Ty.I32 | Ty.U32 | Ty.F32 => 4
  | Ty.I128 | Ty.U128 => 16
  | _ => 8
  end%nat.

Definition value_bits (t : ty) (v : value) : Z :=
  match v with
  | Value.Scalar (ConstValue.F b) => bits b
  | Value.Scalar c => wrapu (match shape t with Some s => s.1 | None => 1 end) (denote c)
  | Value.Pointer p => address p
  | Value.FunctionPointer p => fp_bits p
  | Value.Checked _ _ => 0
  end.

Definition value_fragment (v : value) (i : nat) : option Fragment :=
  match v with
  | Value.Pointer p => Some (mkFragment (StoredPointer.Data p) (Z.of_nat i))
  | Value.FunctionPointer p => Some (mkFragment (StoredPointer.Function p) (Z.of_nat i))
  | _ => None
  end.

(** What a store does to a cell: write an initialized byte or leave it (the padding of
    a pair), and replace its fragment. *)
Notation patch := (option Z * option Fragment)%type.

Definition segment (t : ty) (v : value) : list patch :=
  imap (λ i b, (Some b, value_fragment v i)) (to_le_bytes (byte_size t) (value_bits t v)).

Definition encoded (t : ty) (v : value) : list patch :=
  match t, v with
  | Ty.Tuple (i :: _), Value.Checked c flag =>
      segment i (Value.Scalar c) ++ segment Ty.Bool (Value.Scalar (ConstValue.Bool flag))
        ++ replicate (byte_size i - 1) (None, None)
  | _, _ => segment t v
  end.

Definition is_scalar (t : ty) : bool :=
  match t with
  | Ty.Bool | Ty.F16 | Ty.F32 | Ty.F64 | Ty.Ptr _ | Ty.FnPtr _ => true
  | _ => is_int t
  end.

Lemma layout_scalar {E} t : is_scalar t = true →
  @layout E t = Ok (scalar (Z.of_nat (byte_size t)) (Z.of_nat (byte_size t))).
Proof. by destruct t. Qed.

Lemma layout_pair {E} i : is_int i = true →
  @layout E (Ty.Tuple [i; Ty.Bool]) =
    Ok (mkTypeLayout (2 * Z.of_nat (byte_size i)) (Z.of_nat (byte_size i))
          [0; Z.of_nat (byte_size i)] None).
Proof. by destruct i. Qed.

Lemma length_segment t v : length (segment t v) = byte_size t.
Proof. unfold segment. by rewrite length_imap, length_to_le_bytes. Qed.

Lemma has_type_scalar t v : has_type t v = true → is_scalar t = true.
Proof. by destruct t, v. Qed.

Lemma byte_size_bits t n s : shape t = Some (n, s) → 0 < n ≤ 8 * Z.of_nat (byte_size t).
Proof. destruct t; simpl; intros [= <- <-]; lia. Qed.

Lemma byte_size_le t : (1 ≤ byte_size t ≤ 16)%nat.
Proof. destruct t; simpl; lia. Qed.

(** [scalar_raw] and [scalar_pack] on values of the type. *)
Lemma scalar_raw_eq {E} t c : has_type t c = true → @scalar_raw E t c = Ok (value_bits t (Value.Scalar c)).
Proof.
  destruct (shape t) as [[n s]|] eqn:Ht.
  - intros Hv. pose proof (shape_is_int _ _ _ Ht) as Hi.
    pose proof (has_type_not_float _ _ Hi Hv). unfold scalar_raw, value_bits. rewrite Ht.
    assert (@raw E c n = Ok (wrapu n (denote c))) by (by eapply raw_has_type).
    by destruct c.
  - destruct t, c as [[]| | |]; try done.
Qed.

Lemma value_bits_range t c : has_type t c = true →
  0 ≤ value_bits t (Value.Scalar c) < 2 ^ (8 * Z.of_nat (byte_size t)).
Proof.
  intros Hv. destruct (shape t) as [[n s]|] eqn:Ht.
  - pose proof (shape_is_int _ _ _ Ht) as Hi. pose proof (has_type_not_float _ _ Hi Hv).
    pose proof (byte_size_bits _ _ _ Ht).
    assert (value_bits t (Value.Scalar c) = wrapu n (denote c)) as ->.
    { unfold value_bits. rewrite Ht. by destruct c. }
    pose proof (wrapu_range n (denote c)).
    pose proof (Z.pow_le_mono_r 2 n (8 * Z.of_nat (byte_size t))). lia.
  - unfold has_type in Hv. apply andb_true_iff in Hv as [Hv Hc].
    destruct t, c as [[]| | |[]]; try done; simpl in *; try (apply in_u_spec in Hc; lia).
    all: unfold wrapu; simpl; lia.
Qed.

Lemma scalar_pack_eq {E} t c : has_type t c = true → t ≠ Ty.Bool →
  @scalar_pack E t (value_bits t (Value.Scalar c)) = Ok c.
Proof.
  intros Hv Hb. destruct (shape t) as [[n s]|] eqn:Ht.
  - pose proof (shape_is_int _ _ _ Ht) as Hi. pose proof (has_type_not_float _ _ Hi Hv).
    assert (@scalar_pack E t (wrapu n (denote c)) = pack t (wrapu n (denote c))) as Hp by (by destruct t).
    assert (value_bits t (Value.Scalar c) = wrapu n (denote c)) as ->.
    { unfold value_bits. rewrite Ht. by destruct c. }
    rewrite Hp, pack_eq, (inject_wrapu t n s n) by (done || pose proof (shape_bits _ _ _ Ht); lia).
    f_equal. symmetry. by apply has_type_int.
  - unfold has_type in Hv. apply andb_true_iff in Hv as [Hv Hc].
    destruct t, c as [[]| | |[]]; try done; simpl in *; apply in_u_spec in Hc; by rewrite wrapu_id.
Qed.

(** [encode] of a value that fits one segment. *)
Definition stored_entries (s : nat) (v : value) : list (nat * Fragment) :=
  match v with
  | Value.Pointer p => (λ i, ((s + i)%nat, mkFragment (StoredPointer.Data p) (Z.of_nat i))) <$> seq 0 8
  | Value.FunctionPointer p =>
      (λ i, ((s + i)%nat, mkFragment (StoredPointer.Function p) (Z.of_nat i))) <$> seq 0 8
  | _ => []
  end.
Definition byte_entries (s : nat) (bs : list Z) : list (nat * Z) :=
  imap (λ i b, ((s + i)%nat, b)) bs.

Definition is_checked (v : value) : bool :=
  match v with Value.Checked _ _ => true | _ => false end.

Lemma value_ok_scalar t v : value_ok t v → is_checked v = false → is_scalar t = true.
Proof.
  destruct v; simpl; try done.
  - intros. by eapply has_type_scalar.
  - by intros [[? ->] _].
  - by intros [-> _].
Qed.

Lemma encode_eq {E} t v s :
  value_ok t v → is_checked v = false →
  @encode E t v s = Ok (byte_entries s (to_le_bytes (byte_size t) (value_bits t v)), stored_entries s v).
Proof.
  intros Hv Hc. unfold encode. rewrite layout_scalar by (by eapply value_ok_scalar).
  cbn [mbind result_bind scalar size]. rewrite Nat2Z.id. pose proof (byte_size_le t).
  rewrite (proj2 (Nat.ltb_ge 16 (byte_size t))) by lia.
  destruct v; simpl in *; try done.
  by rewrite scalar_raw_eq.
Qed.

Lemma value_fragments_at t v s :
  value_ok t v → is_checked v = false → entries_at s (snd <$> segment t v) (stored_entries s v).
Proof.
  intros Hv Hc.
  assert (∀ p, (byte_size t = 8)%nat →
    entries_at s (snd <$> imap (λ i b, (Some b, Some (mkFragment p (Z.of_nat i)))) (to_le_bytes (byte_size t) (value_bits t v)))
      ((λ i, ((s + i)%nat, mkFragment p (Z.of_nat i))) <$> seq 0 8)) as Hstored.
  { intros p Hsz. split.
    - rewrite <- list_fmap_compose. apply NoDup_fmap; [|apply NoDup_seq].
      intros i j. simpl. lia.
    - intros i f. rewrite list_elem_of_fmap, list_lookup_fmap, list_lookup_imap. split.
      + intros (k & [= -> ->] & Hk%elem_of_seq). split; [lia|].
        replace (s + k - s)%nat with k by lia.
        destruct (lookup_lt_is_Some_2 (to_le_bytes (byte_size t) (value_bits t v)) k) as [b ->];
          [rewrite length_to_le_bytes; lia|]. done.
      + intros [Hs Hf]. destruct (_ !! (i - s)%nat) eqn:Hb; [|done].
        apply lookup_lt_Some in Hb. rewrite length_to_le_bytes in Hb.
        simpl in Hf. injection Hf as <-. exists (i - s)%nat.
        split; [f_equal; lia|]. apply elem_of_seq. lia. }
  destruct v; simpl in *; try done.
  - split; [apply NoDup_nil_2|]. intros i f. rewrite list_lookup_fmap. split; [by intros ?%elem_of_nil|].
    intros [_ Hf]. unfold segment in Hf. rewrite list_lookup_imap in Hf.
    by destruct (_ !! _) in Hf.
  - apply Hstored. by destruct Hv as [[? ->] _].
  - apply Hstored. by destruct Hv as [-> _].
Qed.

(** ** Writing bytes *)

Lemma list_splice_intro {A} s (xs l l' : list A) :
  (s + length xs ≤ length l)%nat → length l' = length l →
  (∀ i, (i < length l)%nat → l' !! i = if decide (s ≤ i < s + length xs)%nat then xs !! (i - s)%nat else l !! i) →
  l' = splice s xs l.
Proof.
  intros Hlen Hl Hi. apply list_eq. intros i. destruct (decide (i < length l)%nat).
  - by rewrite lookup_splice, Hi.
  - rewrite !lookup_ge_None_2; rewrite ?length_splice; lia || done.
Qed.

Lemma splice_same {A} s n (l : list A) : (s + n ≤ length l)%nat → splice s (take n (drop s l)) l = l.
Proof.
  intros Hl. symmetry. apply list_splice_intro; rewrite ?length_take, ?length_drop; [lia|done|].
  intros i Hi. case_decide; [|done].
  rewrite lookup_take_lt by lia. rewrite lookup_drop. f_equal. lia.
Qed.

Lemma splice_splice_app {A} s (xs ys l : list A) :
  (s + length xs + length ys ≤ length l)%nat →
  splice (s + length xs) ys (splice s xs l) = splice s (xs ++ ys) l.
Proof.
  intros Hl. apply list_splice_intro; [rewrite length_app; lia|by rewrite !length_splice; rewrite ?length_splice; lia|].
  intros i Hi. rewrite length_app, !lookup_splice by (rewrite ?length_splice; lia).
  repeat case_decide; try lia; try done.
  - rewrite lookup_app_r by lia. f_equal. lia.
  - by rewrite lookup_app_l by lia.
Qed.

Lemma write_slice_ok {E A} (l : list A) s e xs :
  (s ≤ e ≤ length l)%nat → length xs = (e - s)%nat → @write_slice E A l s e xs = Ok (splice s xs l).
Proof. intros. unfold write_slice. rewrite bool_decide_true by lia. done. Qed.

Lemma slice_ok {E A} (l : list A) s e :
  (s ≤ e ≤ length l)%nat → @slice E A l s e = Ok (take (e - s) (drop s l)).
Proof. intros. unfold slice. rewrite bool_decide_true by lia. done. Qed.

(** Every type but a non-empty tuple, then that one. *)
Ltac case_tuple t := destruct t; try done; try (match goal with l : list ty |- _ => by destruct l end).

Section ops.
Context {T : Type} `{FragmentTable T}.
Implicit Types (m : Memory T) (a : Allocation T).

(** The memory after allocation [id] became [a], with [w] units of work done. *)
Definition with_alloc m0 id a (w : Z) : Memory T :=
  let l := <[id := a]> (allocations m0) in
  mkMemory (mem_arena m0) l (mem_limits m0) (used_bytes m0) (Z.of_nat (fragments_of l)) w
    (next_address m0).

Lemma with_alloc_lookup m0 id a a0 w :
  allocations m0 !! id = Some a0 → allocations (with_alloc m0 id a w) !! id = Some a.
Proof. intros Ha%lookup_lt_Some. simpl. by apply list_lookup_insert_eq. Qed.

Lemma fragments_of_insert l id a a' a0 :
  l !! id = Some a0 → ft_contents (fragments a) = ft_contents (fragments a') →
  fragments_of (<[id := a]> l) = fragments_of (<[id := a']> l).
Proof.
  intros Hl Hf. unfold fragments_of.
  pose proof (sum_list_insert (λ a, base.size (ft_contents (fragments a))) l id a0 a Hl).
  pose proof (sum_list_insert (λ a, base.size (ft_contents (fragments a))) l id a0 a' Hl).
  cbn beta in *. rewrite Hf in *. lia.
Qed.

Lemma with_alloc_update m0 id a a' a0 w :
  allocations m0 !! id = Some a0 → ft_contents (fragments a') = ft_contents (fragments a) →
  set_allocations (<[id := a']> (allocations (with_alloc m0 id a w))) (with_alloc m0 id a w) =
  with_alloc m0 id a' w.
Proof.
  intros Ha Hf. unfold set_allocations, with_alloc. simpl. rewrite list_insert_insert_eq.
  f_equal. f_equal. symmetry. eapply fragments_of_insert; done.
Qed.

Lemma runs_write_data m0 id a a0 w s e xs (Q : unit → Memory T → Prop) :
  allocations m0 !! id = Some a0 → (s ≤ e ≤ length (data a))%nat → length xs = (e - s)%nat →
  Q tt (with_alloc m0 id (set_data (splice s xs (data a)) a) w) →
  runs m0 (write_data id s e xs) Q (with_alloc m0 id a w).
Proof.
  intros Ha Hlen Hxs HQ. unfold write_data.
  eapply runs_bind, runs_allocation_at; [by eapply with_alloc_lookup|].
  apply runs_bind. rewrite write_slice_ok by done. apply runs_lift_ok.
  eapply runs_update; [by eapply with_alloc_lookup|]. by rewrite (with_alloc_update _ _ _ _ a0).
Qed.

Lemma runs_write_initialized m0 id a a0 w s e xs (Q : unit → Memory T → Prop) :
  allocations m0 !! id = Some a0 → (s ≤ e ≤ length (initialized a))%nat → length xs = (e - s)%nat →
  Q tt (with_alloc m0 id (set_initialized (splice s xs (initialized a)) a) w) →
  runs m0 (write_initialized id s e xs) Q (with_alloc m0 id a w).
Proof.
  intros Ha Hlen Hxs HQ. unfold write_initialized.
  eapply runs_bind, runs_allocation_at; [by eapply with_alloc_lookup|].
  apply runs_bind. rewrite write_slice_ok by done. apply runs_lift_ok.
  eapply runs_update; [by eapply with_alloc_lookup|]. by rewrite (with_alloc_update _ _ _ _ a0).
Qed.

(** The allocation after [write_bytes] of consecutive bytes. *)
Definition bytes_written (s : nat) (bs : list Z) a : Allocation T :=
  set_initialized (splice s (replicate (length bs) 1) (initialized a))
    (set_data (splice s bs (data a)) a).

Lemma runs_write_bytes m0 id a0 w (Q : unit → Memory T → Prop) rest : ∀ bs s a,
  allocations m0 !! id = Some a0 → (s + length bs ≤ length (data a))%nat →
  length (initialized a) = length (data a) →
  runs m0 (write_bytes id rest) Q (with_alloc m0 id (bytes_written s bs a) w) →
  runs m0 (write_bytes id (byte_entries s bs ++ rest)) Q (with_alloc m0 id a w).
Proof.
  intros bs. induction bs as [|b bs IH]; intros s a Ha Hlen Hflags Hrest; simpl in *.
  - unfold bytes_written in Hrest. simpl in Hrest.
    assert (∀ l : list Z, (s ≤ length l)%nat → splice s [] l = l) as Hnil.
    { intros l Hl. symmetry. apply list_splice_intro; simpl; [lia|done|]. intros. by rewrite decide_False by lia. }
    rewrite !Hnil in Hrest by lia. by destruct a.
  - rewrite Nat.add_0_r. eapply runs_bind, runs_write_data; [done|lia|simpl; lia|].
    eapply runs_bind, runs_write_initialized; [done|simpl; lia|simpl; lia|].
    set (a' := set_initialized _ _).
    assert (length (data a') = length (data a)) as Hd by (simpl; rewrite length_splice; simpl; lia).
    specialize (IH (S s) a').
    assert (byte_entries (S s) bs = imap ((λ i b0, ((s + i)%nat, b0)) ∘ S) bs) as Hbe.
    { apply imap_ext. intros. simpl. f_equal. lia. }
    rewrite <- Hbe. apply IH; [done|lia| |].
    + simpl. rewrite !length_splice; simpl; lia.
    + replace (bytes_written (S s) bs a') with (bytes_written s (b :: bs) a); [done|].
      unfold bytes_written, a', set_initialized, set_data. simpl. f_equal.
      * pose proof (splice_splice_app s [b] bs (data a)) as Hs. simpl in Hs.
        rewrite Nat.add_1_r in Hs. by rewrite Hs by lia.
      * pose proof (splice_splice_app s [1] (replicate (length bs) 1) (initialized a)) as Hs.
        simpl in Hs. rewrite Nat.add_1_r, length_replicate in Hs. by rewrite Hs by lia.
Qed.

(** ** Accessed ranges *)

(** [at_range m p n al wr id s a]: [p] grants an access of [n] bytes aligned to [al],
    at offset [s] of the live allocation [id], which is [a]. *)
Definition at_range m (p : Pointer) (n al : Z) (wr : bool) (id s : nat) a : Prop :=
  ∃ cap, tracked m p id cap a ∧ 0 ≤ offset cap ∧ s = Z.to_nat (offset cap) ∧
    offset cap + n ≤ upper cap ∧ (s + Z.to_nat n ≤ length (data a))%nat ∧
    (if wr then cap_write cap && writable a else cap_read cap && readable a) = true ∧
    (al | address p).

Lemma access_at m p n al wr r :
  pointer_ok p → 0 < al → 0 ≤ n → access m p n al wr = Ok r →
  ∃ id s a, r = (id, s, s + Z.to_nat n)%nat ∧ at_range m p n al wr id s a.
Proof.
  intros Hp Hal Hn Hacc. destruct r as [[id s] e].
  destruct (access_spec m p n al wr Hal) as [_ Hsp].
  destruct (Hsp id s e Hn Hacc) as (cap & a & Ht & Hup & Hrange & Hperm & Hdiv).
  pose proof Ht as (Hcap&_&_&_&_&_&Hlo&_). destruct Hp as [_ Hp]. rewrite Hcap in Hp.
  destruct Hrange as (-> & -> & ? & ?); [lia|].
  exists id, (Z.to_nat (offset cap)), a. split; [f_equal; lia|]. exists cap. split_and!; done || lia.
Qed.

Lemma runs_access m0 p n al wr (Q : nat * nat * nat → Memory T → Prop) :
  memory_ok m0 → pointer_ok p → 0 < al → 0 ≤ n →
  (∀ id s a, at_range m0 p n al wr id s a → Q (id, s, s + Z.to_nat n)%nat m0) →
  runs m0 (reads (λ m, access m p n al wr)) Q m0.
Proof.
  intros Hm Hp Hal Hn HQ. apply runs_reads; [by apply work_only_refl|by apply access_spec|].
  intros r Hr. destruct (access_at _ _ _ _ _ _ Hp Hal Hn Hr) as (id & s & a & -> & Ha).
  by eapply HQ.
Qed.

(** Replacing the fragments, from a state that only did some work. *)
Lemma runs_replaced m0 m host id a s new l (Q : unit → Memory T → Prop) :
  memory_ok m0 → work_only m0 m → allocations m0 !! id = Some a →
  (s + length new ≤ length (data a))%nat → entries_at s new l → Z.of_nat (length l) < 2 ^ 60 →
  (∀ t w, (∀ i, ft_contents t !! i = with_fragments s new (ft_contents (fragments a)) i) →
     work m0 ≤ w ≤ max_work (mem_limits m0) →
     Z.of_nat (fragments_of (<[id := set_fragments t a]> (allocations m0)))
       ≤ max_pointer_fragments (mem_limits m0) →
     Q tt (with_alloc m0 id (set_fragments t a) w)) →
  runs m0 (replace_fragments host id s (s + length new) l) Q m.
Proof.
  intros Hm0 Hw Ha ? ? ? HQ. apply (runs_replace_fragments m0 m host id a s new l); try done.
  by destruct Hw as (w & -> & _).
Qed.

(** A state reached by writing is an overwritten one. *)
Lemma overwrites_intro m0 id a a' s cs t w :
  allocations m0 !! id = Some a → (s + length cs ≤ length (data a))%nat →
  (∀ i, ft_contents t !! i = with_fragments s (cell_fragment <$> cs) (ft_contents (fragments a)) i) →
  work m0 ≤ w ≤ max_work (mem_limits m0) →
  Z.of_nat (fragments_of (<[id := set_fragments t a]> (allocations m0)))
    ≤ max_pointer_fragments (mem_limits m0) →
  a' = overwritten s cs t a → overwrites id s cs m0 (with_alloc m0 id a' w).
Proof.
  intros Ha Hlen Ht Hw Hmax ->. exists a, t, w. do 4 (split; [done|]). cbn zeta. split; [done|].
  by rewrite (fragments_of_insert _ _ _ (set_fragments t a) a).
Qed.

(** ** The mutating operations *)

Lemma entries_at_nil s n : entries_at s (replicate n None) [].
Proof.
  split; [apply NoDup_nil_2|]. intros i f. split; [by intros ?%elem_of_nil|].
  intros [_ [? _]%lookup_replicate]. done.
Qed.

Lemma cells_of_bytes a s n : (s + n ≤ length (data a))%nat →
  cell_byte <$> cells_of a s n = take n (drop s (data a)).
Proof.
  intros Hlen. apply list_eq. intros i. unfold cells_of. rewrite <- list_fmap_compose, list_lookup_fmap.
  destruct (decide (i < n)%nat).
  - rewrite lookup_seq_lt by done. rewrite lookup_take_lt, lookup_drop by done. simpl.
    unfold cell_byte, cell_at. simpl.
    destruct (lookup_lt_is_Some_2 (data a) (s + i)) as [b Hb]; [lia|].
    by rewrite (list_lookup_total_correct _ _ _ Hb), Hb.
  - rewrite lookup_seq_ge by lia. by rewrite lookup_take_ge by lia.
Qed.

Lemma cells_of_flags a s n : (s + n ≤ length (initialized a))%nat →
  cell_flag <$> cells_of a s n = take n (drop s (initialized a)).
Proof.
  intros Hlen. apply list_eq. intros i. unfold cells_of. rewrite <- list_fmap_compose, list_lookup_fmap.
  destruct (decide (i < n)%nat).
  - rewrite lookup_seq_lt by done. rewrite lookup_take_lt, lookup_drop by done. simpl.
    unfold cell_flag, cell_at. simpl.
    destruct (lookup_lt_is_Some_2 (initialized a) (s + i)) as [b Hb]; [lia|].
    by rewrite (list_lookup_total_correct _ _ _ Hb), Hb.
  - rewrite lookup_seq_ge by lia. by rewrite lookup_take_ge by lia.
Qed.

Lemma fmap_to_replicate {A B} (f : A → B) y (l : list A) :
  (∀ x, f x = y) → f <$> l = replicate (length l) y.
Proof. intros Hf. induction l; csimpl; [done|]. by rewrite Hf, IHl. Qed.

Lemma fmap_to_replicate_in {A B} (f : A → B) y (l : list A) :
  (∀ x, x ∈ l → f x = y) → f <$> l = replicate (length l) y.
Proof.
  intros Hf. induction l as [|x l IH]; csimpl; [done|].
  rewrite Hf by set_solver. f_equal. apply IH. set_solver.
Qed.

Lemma length_cells_of a s n : length (cells_of a s n) = n.
Proof. unfold cells_of. by rewrite length_fmap, length_seq. Qed.

Lemma at_range_alloc m p n al wr id s a :
  memory_ok m → at_range m p n al wr id s a →
  allocations m !! id = Some a ∧ alloc_ok a ∧ (s + Z.to_nat n ≤ length (data a))%nat.
Proof.
  intros Hm (cap & (_&_&_&Ha&_) & _ & _ & _ & Hlen & _). split; [done|]. split; [|done].
  eapply Forall_lookup_1; [apply Hm|done].
Qed.

(** The cells of an uninitialized range: the bytes stay. *)
Definition forgotten a (s n : nat) : list cell :=
  (λ c, (cell_byte c, 0, None)) <$> cells_of a s n.

Lemma runs_uninit m host p n al :
  memory_ok m → pointer_ok p → 0 < al → 0 ≤ n →
  runs m (uninit host p n al) (λ _ m', ∃ id s a, at_range m p n al true id s a ∧
    overwrites id s (forgotten a s (Z.to_nat n)) m m') m.
Proof.
  intros Hm Hp Hal Hn. unfold uninit. apply runs_bind, runs_access; [done..|].
  intros id s a Hat. destruct (at_range_alloc _ _ _ _ _ _ _ _ Hm Hat) as (Ha & Hok & Hlen).
  apply runs_bind, runs_charge; [apply Hm|lia|by apply work_only_refl|]. intros m1 Hw1 _.
  apply runs_bind. rewrite <- (length_replicate (Z.to_nat n) (@None Fragment)) at 1.
  eapply runs_replaced; [done..|by rewrite length_replicate|apply entries_at_nil|simpl; lia|].
  intros t w Ht Hw Hmax.
  eapply runs_write_initialized; [done|simpl; rewrite (alloc_length _ Hok); lia|by rewrite length_replicate|].
  exists id, s, a. split; [done|].
  assert (cell_fragment <$> forgotten a s (Z.to_nat n) = replicate (Z.to_nat n) None) as Hfr.
  { unfold forgotten. rewrite <- list_fmap_compose.
    by rewrite (fmap_to_replicate _ None), length_cells_of. }
  assert (cell_flag <$> forgotten a s (Z.to_nat n) = replicate (Z.to_nat n) 0) as Hfl.
  { unfold forgotten. rewrite <- list_fmap_compose.
    by rewrite (fmap_to_replicate _ 0), length_cells_of. }
  assert (cell_byte <$> forgotten a s (Z.to_nat n) = take (Z.to_nat n) (drop s (data a))) as Hby.
  { unfold forgotten. rewrite <- list_fmap_compose. by rewrite <- cells_of_bytes. }
  eapply overwrites_intro; [done| |by rewrite Hfr|done|done|].
  - unfold forgotten. by rewrite length_fmap, length_cells_of.
  - unfold overwritten, set_initialized, set_fragments. simpl. rewrite Hby, Hfl, splice_same by done.
    by replace (s + Z.to_nat n - s)%nat with (Z.to_nat n) by lia.
Qed.

Lemma runs_mem_set m host p byte n al :
  memory_ok m → pointer_ok p → 0 < al → 0 ≤ n →
  runs m (mem_set host p byte n al) (λ _ m',
    if n =? 0 then m' = m else ∃ id s a, at_range m p n al true id s a ∧
      overwrites id s (replicate (Z.to_nat n) (byte, 1, None)) m m') m.
Proof.
  intros Hm Hp Hal Hn. unfold mem_set. destruct (n =? 0); [by apply runs_ret|].
  apply runs_bind, runs_access; [done..|].
  intros id s a Hat. destruct (at_range_alloc _ _ _ _ _ _ _ _ Hm Hat) as (Ha & Hok & Hlen).
  apply runs_bind, runs_or_trap; [by apply work_only_refl|]. intros cost [-> Hc]%checked_u_Some.
  apply runs_bind, runs_charge; [apply Hm|lia|by apply work_only_refl|]. intros m1 Hw1 _.
  apply runs_bind. rewrite <- (length_replicate (Z.to_nat n) (@None Fragment)) at 1.
  eapply runs_replaced; [done..|by rewrite length_replicate|apply entries_at_nil|simpl; lia|].
  intros t w Ht Hw Hmax.
  eapply runs_bind, runs_write_data; [done|simpl; lia|by rewrite length_replicate|].
  eapply runs_write_initialized; [done|simpl; rewrite (alloc_length _ Hok); lia|by rewrite length_replicate|].
  exists id, s, a. split; [done|].
  eapply overwrites_intro; [done|by rewrite length_replicate| |done|done|].
  - intros i. by rewrite Ht, fmap_replicate.
  - unfold overwritten, set_initialized, set_data, set_fragments. simpl.
    rewrite !fmap_replicate. by replace (s + Z.to_nat n - s)%nat with (Z.to_nat n) by lia.
Qed.

(** The cells a store leaves. *)
Definition patch_cell (old : cell) (p : patch) : cell :=
  match p.1 with
  | Some b => (b, 1, p.2)
  | None => (cell_byte old, cell_flag old, p.2)
  end.
Definition patched a (s : nat) (ps : list patch) : list cell :=
  zip_with patch_cell (cells_of a s (length ps)) ps.

Lemma length_patched a s ps : length (patched a s ps) = length ps.
Proof. unfold patched. rewrite length_zip_with, length_cells_of. lia. Qed.

Lemma patched_fragments a s ps : cell_fragment <$> patched a s ps = snd <$> ps.
Proof.
  apply list_eq. intros i. unfold patched. rewrite !list_lookup_fmap, lookup_zip_with.
  destruct (ps !! i) as [[[b|] f]|] eqn:Hi.
  1,2: destruct (lookup_lt_is_Some_2 (cells_of a s (length ps)) i) as [c ->];
    [rewrite length_cells_of; by eapply lookup_lt_Some|done].
  simpl. by destruct (cells_of a s (length ps) !! i).
Qed.

(** Writing a prefix of a range is writing the range with the rest left as it is. *)
Lemma splice_prefix {A} s k (xs l : list A) : (s + length xs + k ≤ length l)%nat →
  splice s (xs ++ take k (drop (s + length xs) l)) l = splice s xs l.
Proof.
  intros Hl.
  assert (length (xs ++ take k (drop (s + length xs) l)) = length xs + k)%nat as Hlen.
  { rewrite length_app, length_take, length_drop. lia. }
  symmetry. apply list_splice_intro; [lia|by rewrite length_splice by lia|].
  intros i Hi. rewrite lookup_splice by lia. rewrite Hlen.
  repeat case_decide; try lia; try done.
  - by rewrite lookup_app_l by lia.
  - rewrite lookup_app_r by lia. rewrite lookup_take_lt by lia. rewrite lookup_drop. f_equal. lia.
Qed.

Lemma patched_field (field : cell → Z) (written : Z → Z) (l : list Z) a s ps bs k :
  (∀ c b f, field (patch_cell c (Some b, f)) = written b) →
  (∀ c f, field (patch_cell c (None, f)) = field c) →
  field <$> cells_of a s (length ps) = take (length ps) (drop s l) →
  length ps = (length bs + k)%nat → fst <$> ps = (Some <$> bs) ++ replicate k None →
  field <$> patched a s ps = (written <$> bs) ++ take k (drop (s + length bs) l).
Proof.
  intros Hw Ho Hold Hk Hps. apply list_eq. intros i. unfold patched.
  rewrite list_lookup_fmap, lookup_zip_with.
  assert (fst <$> ps !! i = ((Some <$> bs) ++ replicate k None) !! i) as Hi by (by rewrite <- Hps, list_lookup_fmap).
  apply (f_equal (lookup i)) in Hold. rewrite list_lookup_fmap in Hold.
  destruct (decide (i < length bs)%nat).
  - rewrite lookup_app_l in Hi by (by rewrite length_fmap). rewrite lookup_app_l by (by rewrite length_fmap).
    rewrite list_lookup_fmap in Hi. rewrite list_lookup_fmap. destruct (lookup_lt_is_Some_2 bs i) as [b Hb]; [done|].
    rewrite Hb in *. destruct (lookup_lt_is_Some_2 (cells_of a s (length ps)) i) as [c ->]; [rewrite length_cells_of; lia|].
    simpl. destruct (ps !! i) as [[[b'|] f]|]; simplify_eq/=. by rewrite Hw.
  - rewrite lookup_app_r in Hi by (rewrite length_fmap; lia). rewrite lookup_app_r by (rewrite length_fmap; lia).
    rewrite length_fmap in Hi. rewrite length_fmap.
    destruct (decide (i < length ps)%nat).
    + rewrite lookup_replicate_2 in Hi by lia. rewrite lookup_take_lt in Hold by lia.
      rewrite lookup_take_lt by lia. rewrite lookup_drop in Hold. rewrite lookup_drop. replace (s + length bs + (i - length bs))%nat with (s + i)%nat by lia.
      rewrite <- Hold. destruct (cells_of a s (length ps) !! i) as [c|]; [|done]. simpl.
      destruct (ps !! i) as [[[b'|] f]|]; simplify_eq/=. by rewrite Ho.
    + rewrite (lookup_ge_None_2 ps) by lia. rewrite lookup_take_ge by lia.
      by destruct (cells_of a s (length ps) !! i).
Qed.

(** The tail of [store]: the fragments, then the bytes one by one. *)
Lemma runs_store_tail m0 m1 host id s a ps bs k frags :
  work_only m0 m1 → memory_ok m0 → allocations m0 !! id = Some a →
  (s + length ps ≤ length (data a))%nat → length ps = (length bs + k)%nat →
  fst <$> ps = (Some <$> bs) ++ replicate k None →
  entries_at s (snd <$> ps) frags → Z.of_nat (length frags) < 2 ^ 60 →
  runs m0 (_ ← replace_fragments host id s (s + length ps) frags; write_bytes id (byte_entries s bs))
    (λ _ m', overwrites id s (patched a s ps) m0 m') m1.
Proof.
  intros Hw1 Hm Ha Hlen Hk Hps Hfr Hfl.
  assert (alloc_ok a) as Hok by (eapply Forall_lookup_1; [apply Hm|done]).
  pose proof (alloc_length _ Hok) as Hini.
  apply runs_bind. rewrite <- (length_fmap snd ps) at 1.
  eapply runs_replaced; [done..|by rewrite length_fmap|done|done|].
  intros t w Ht Hw Hmax. rewrite <- (app_nil_r (byte_entries s bs)).
  eapply runs_write_bytes; [done|simpl; lia|simpl; lia|]. apply runs_ret.
  eapply overwrites_intro; [done|by rewrite length_patched| |done|done|].
  - intros i. by rewrite Ht, patched_fragments.
  - unfold bytes_written, overwritten, set_initialized, set_data, set_fragments. simpl. f_equal.
    + rewrite (patched_field cell_byte (λ b, b) (data a) a s ps bs k), list_fmap_id; [|done..|by apply cells_of_bytes|done|done].
      rewrite splice_prefix by lia. done.
    + rewrite (patched_field cell_flag (λ _, 1) (initialized a) a s ps bs k);
        [|done..|apply cells_of_flags; lia|done|done].
      rewrite (fmap_to_replicate (λ _, 1) 1) by done.
      rewrite <- (length_replicate (length bs) 1) at 3. rewrite splice_prefix by (rewrite ?length_replicate; lia). done.
Qed.

(** Where a value of type [t] is stored: its size, and its bytes. *)
Definition stored_size (t : ty) (v : value) : nat :=
  match t, v with
  | Ty.Tuple (i :: _), Value.Checked _ _ => 2 * byte_size i
  | _, _ => byte_size t
  end.

Lemma length_encoded t v : value_ok t v → length (encoded t v) = stored_size t v.
Proof.
  destruct v; try (intros _; by case_tuple t).
  intros (i & -> & Hi & _). cbn [encoded stored_size].
  rewrite !length_app, !length_segment, length_replicate.
  pose proof (byte_size_le i). simpl. lia.
Qed.

Lemma segment_fst t v : fst <$> segment t v = Some <$> to_le_bytes (byte_size t) (value_bits t v).
Proof.
  apply list_eq. intros i. unfold segment. rewrite !list_lookup_fmap, list_lookup_imap.
  by destruct (_ !! i).
Qed.

Lemma segment_snd t c : snd <$> segment t (Value.Scalar c) = replicate (byte_size t) None.
Proof.
  rewrite (fmap_to_replicate_in _ None).
  - by rewrite length_segment.
  - unfold segment. intros x (i & Hx)%list_elem_of_lookup. rewrite list_lookup_imap in Hx.
    by destruct (_ !! i); simplify_eq/=.
Qed.

Lemma encoded_segment t v : is_checked v = false → encoded t v = segment t v.
Proof. by destruct v; case_tuple t. Qed.

Lemma byte_entries_app s bs bs' :
  byte_entries s (bs ++ bs') = byte_entries s bs ++ byte_entries (s + length bs) bs'.
Proof.
  unfold byte_entries. rewrite imap_app. f_equal. apply imap_ext. intros. simpl. f_equal. lia.
Qed.

Lemma not_pair {A} t v (pair : list ty → const_value → bool → A) (other : A) :
  is_checked v = false →
  match t, v with Ty.Tuple fields, Value.Checked c flag => pair fields c flag | _, _ => other end = other.
Proof. destruct v; [|discriminate|..]; by destruct t. Qed.

Lemma runs_store m host p t v al :
  memory_ok m → pointer_ok p → 0 < al → value_ok t v →
  runs m (store host p t v al) (λ _ m', ∃ id s a,
    at_range m p (Z.of_nat (stored_size t v)) al true id s a ∧
    overwrites id s (patched a s (encoded t v)) m m') m.
Proof.
  intros Hm Hp Hal Hv. unfold store. destruct (is_checked v) eqn:Hc.
  - destruct v as [|c flag| |]; try discriminate Hc. destruct Hv as (i & -> & Hi & Hcv).
    pose proof (byte_size_le i). apply runs_bind. rewrite layout_pair by done. apply runs_lift_ok.
    apply runs_bind. cbn [size].
    apply runs_access; [done..|lia|]. intros id s a Hat.
    replace (2 * Z.of_nat (byte_size i)) with (Z.of_nat (2 * byte_size i)) in * by lia.
    rewrite Nat2Z.id.
    destruct (at_range_alloc _ _ _ _ _ _ _ _ Hm Hat) as (Ha & Hok & Hlen). rewrite Nat2Z.id in Hlen.
    apply runs_bind. cbn [field_offsets lookup list_lookup expect mbind result_bind].
    rewrite (encode_eq i) by (done || by apply Hcv). cbn [mbind result_bind].
    rewrite (encode_eq Ty.Bool) by done. cbn [mbind result_bind]. apply runs_lift_ok.
    apply runs_bind, runs_charge; [apply Hm|lia|by apply work_only_refl|]. intros m1 Hw1 _.
    pose proof (length_encoded (Ty.Tuple [i; Ty.Bool]) (Value.Checked c flag)) as Hle.
    cbn [stored_size] in Hle. rewrite Z.add_0_r in Hle || idtac.
    rewrite <- Hle in * by (by exists i).
    set (bs0 := to_le_bytes (byte_size i) _).
    assert (length bs0 = byte_size i) as Hbs0 by apply length_to_le_bytes.
    rewrite Nat.add_0_r, Nat2Z.id, <- Hbs0, <- byte_entries_app.
    eapply runs_mono.
    + eapply (runs_store_tail m m1 host id s a (encoded (Ty.Tuple [i; Ty.Bool]) (Value.Checked c flag))
                _ (byte_size i - 1)); [done..| | | |simpl; lia].
      * rewrite Hle by (by exists i). rewrite length_app, Hbs0. simpl. lia.
      * cbn [encoded]. rewrite !fmap_app, fmap_replicate, !segment_fst, app_assoc. done.
      * cbn [encoded stored_entries app]. rewrite !fmap_app, fmap_replicate. simpl snd.
        rewrite !segment_snd, <- !replicate_add. apply entries_at_nil.
    + intros [] m' Ho. exists id, s, a. cbn [stored_size]. rewrite <- Hle by (by exists i). done.
  - assert (is_scalar t = true) as Hs by (by eapply value_ok_scalar).
    rewrite encoded_segment by done.
    assert (stored_size t v = byte_size t) as Hsz.
    { by destruct v; case_tuple t. }
    rewrite Hsz. apply runs_bind. rewrite layout_scalar by done. apply runs_lift_ok. cbn [scalar size].
    apply runs_bind, runs_access; [done..|lia|]. intros id s a Hat.
    destruct (at_range_alloc _ _ _ _ _ _ _ _ Hm Hat) as (Ha & Hok & Hlen).
    rewrite Nat2Z.id in *. apply runs_bind.
    rewrite not_pair by done. rewrite encode_eq by done. apply runs_lift_ok.
    apply runs_bind, runs_charge; [apply Hm|lia|by apply work_only_refl|]. intros m1 Hw1 _.
    rewrite <- (length_segment t v).
    eapply runs_mono.
    + eapply (runs_store_tail m m1 host id s a (segment t v) _ 0); [done..| | | | |].
      * by rewrite length_segment.
      * rewrite length_segment, length_to_le_bytes. lia.
      * rewrite segment_fst. cbn [replicate]. by rewrite app_nil_r, length_segment.
      * by apply value_fragments_at.
      * destruct v; simpl; lia.
    + intros [] m' Ho. exists id, s, a. rewrite length_segment. done.
Qed.

(** The fragments [copy] collects are those of the source range, moved. *)
Definition moved a (ss se ds : nat) : list (nat * Fragment) :=
  (λ p : nat * Fragment, ((ds + (p.1 - ss))%nat, p.2)) <$>
    filter (λ p, in_range ss se p.1 = true) (ft_iter (fragments a)).

Lemma moved_entries a ss n ds :
  entries_at ds (cell_fragment <$> cells_of a ss n) (moved a ss (ss + n) ds).
Proof.
  assert (∀ i f, (i, f) ∈ filter (λ p, in_range ss (ss + n) p.1 = true) (ft_iter (fragments a)) ↔
    (ss ≤ i < ss + n)%nat ∧ ft_contents (fragments a) !! i = Some f) as Hin.
  { intros i f. rewrite list_elem_of_filter, (ft_iter_contents (fragments a)), elem_of_map_to_list. simpl.
    by destruct (in_range_spec ss (ss + n) i); naive_solver. }
  split.
  - unfold moved. rewrite <- list_fmap_compose.
    rewrite (list_fmap_ext (fst ∘ _) ((λ i, (ds + (i - ss))%nat) ∘ fst)) by done.
    rewrite list_fmap_compose. apply NoDup_fmap_2_strong.
    + intros i j [[i' f] [-> Hi]]%list_elem_of_fmap [[j' g] [-> Hj]]%list_elem_of_fmap.
      apply Hin in Hi, Hj. simpl. lia.
    + apply NoDup_fmap_fst.
      * intros i f g [_ Hf]%Hin [_ Hg]%Hin. congruence.
      * apply NoDup_filter. rewrite ft_iter_contents. apply NoDup_map_to_list.
  - intros i f. unfold moved. rewrite list_elem_of_fmap. unfold cells_of.
    rewrite <- list_fmap_compose, list_lookup_fmap. split.
    + intros ([j g] & [= -> ->] & [Hj Hg]%Hin). simpl. split; [lia|].
      rewrite lookup_seq_lt by lia. simpl. unfold cell_fragment. simpl.
      replace (ss + (ds + (j - ss) - ds))%nat with j by lia. by rewrite Hg.
    + intros [Hi Hf]. destruct (decide (i - ds < n)%nat).
      * rewrite lookup_seq_lt in Hf by done. simpl in Hf. unfold cell_fragment in Hf. simpl in Hf.
        exists ((ss + (i - ds))%nat, f). simpl. split; [f_equal; lia|]. apply Hin.
        split; [lia|]. congruence.
      * by rewrite lookup_seq_ge in Hf by lia.
Qed.

Lemma length_moved m a id ss se ds :
  memory_ok m → allocations m !! id = Some a → Z.of_nat (length (moved a ss se ds)) < 2 ^ 60.
Proof.
  intros Hm Ha. unfold moved. rewrite length_fmap.
  assert (length (filter (λ p : nat * Fragment, in_range ss se p.1 = true) (ft_iter (fragments a)))
          ≤ base.size (ft_contents (fragments a)))%nat as Hlen.
  { etrans; [apply length_filter|]. by rewrite (ft_iter_contents (fragments a)), length_map_to_list. }
  pose proof (sum_list_lookup (λ a, base.size (ft_contents (fragments a))) _ _ _ Ha) as Hsz.
  cbn beta in Hsz. fold (fragments_of (allocations m)) in Hsz.
  pose proof (ok_count _ Hm). pose proof (ok_max_count _ Hm). pose proof (ok_limits _ Hm) as (_&_&?&_). lia.
Qed.

Lemma runs_mem_copy m host dst src n al :
  memory_ok m → pointer_ok dst → pointer_ok src → 0 < al → 0 ≤ n →
  runs m (mem_copy host dst src n al) (λ _ m',
    if n =? 0 then m' = m else ∃ sid ss sa did ds da,
      at_range m src n al false sid ss sa ∧ at_range m dst n al true did ds da ∧
      (sid = did → ss + Z.to_nat n ≤ ds ∨ ds + Z.to_nat n ≤ ss)%nat ∧
      overwrites did ds (cells_of sa ss (Z.to_nat n)) m m') m.
Proof.
  intros Hm Hd Hsrc Hal Hn. unfold mem_copy. destruct (Z.eqb_spec n 0); [by apply runs_ret|].
  apply runs_bind, runs_access; [done..|]. intros sid ss sa Hats.
  apply runs_bind, runs_access; [done..|]. intros did ds da Hatd.
  destruct (at_range_alloc _ _ _ _ _ _ _ _ Hm Hats) as (Hsa & Hsok & Hslen).
  destruct (at_range_alloc _ _ _ _ _ _ _ _ Hm Hatd) as (Hda & Hdok & Hdlen).
  apply runs_bind, runs_when_err; [by apply work_only_refl|]. intros Hov.
  assert (sid = did → ss + Z.to_nat n ≤ ds ∨ ds + Z.to_nat n ≤ ss)%nat as Hdisj.
  { intros ->. rewrite Nat.eqb_refl in Hov. simpl in Hov. apply andb_false_iff in Hov.
    rewrite !Nat.ltb_ge in Hov. lia. }
  apply runs_bind, (runs_allocation_at _ _ sa); [done|].
  pose proof (ft_capacity_range (fragments sa)).
  apply runs_bind, runs_or_trap; [by apply work_only_refl|]. intros cost Hcost.
  apply bind_Some in Hcost as (n4 & [-> ?]%checked_u_Some & [-> ?]%checked_u_Some).
  apply runs_bind, runs_charge; [apply Hm|lia|by apply work_only_refl|]. intros m1 Hw1 Hal1.
  apply runs_bind, (runs_allocation_at _ _ sa); [by rewrite Hal1|].
  do 3 (apply runs_bind, runs_when_err; [done|]; intros _).
  rewrite !slice_ok by (rewrite ?(alloc_length _ Hsok); lia).
  apply runs_bind, runs_lift_ok, runs_bind, runs_lift_ok.
  replace (ss + Z.to_nat n - ss)%nat with (Z.to_nat n) by lia.
  fold (moved sa ss (ss + Z.to_nat n) ds). apply runs_bind.
  set (cs := cells_of sa ss (Z.to_nat n)).
  assert (length cs = Z.to_nat n) as Hcs by apply length_cells_of.
  assert (take (Z.to_nat n) (drop ss (data sa)) = cell_byte <$> cs) as ->.
  { unfold cs. by rewrite cells_of_bytes. }
  assert (take (Z.to_nat n) (drop ss (initialized sa)) = cell_flag <$> cs) as ->.
  { unfold cs. by rewrite cells_of_flags by (rewrite (alloc_length _ Hsok); lia). }
  replace (Z.to_nat n) with (length (cell_fragment <$> cs)) at 1 by (by rewrite length_fmap).
  eapply (runs_replaced m m1 _ did da ds (cell_fragment <$> cs)); [done..|by rewrite length_fmap, Hcs|apply moved_entries|by eapply length_moved|].
  intros t w Ht Hw Hmax.
  eapply runs_bind, runs_write_data; [done|simpl; lia|rewrite length_fmap; lia|].
  eapply runs_write_initialized; [done|simpl; rewrite (alloc_length _ Hdok); lia|rewrite length_fmap; lia|].
  exists sid, ss, sa, did, ds, da. do 3 (split; [done|]).
  eapply overwrites_intro; [done| |done..|].
  - fold cs. by rewrite Hcs.
  - done.
Qed.
End ops.
