(* ===== verification/MemorySafety.v ===== *)
(** * Safety of tracked memory

    Loads, allocation and the end of lifetimes, then the properties: an invariant of
    every operation and the absence of panics, store-load round trips, copies that
    carry provenance, capabilities that cannot be forged, and the expiry of pointers. *)
From S2P Require Export MemoryOps.
Local Open Scope Z_scope.

Section loads.
Context {T : Type} `{FragmentTable T}.
Implicit Types (m : Memory T) (a : Allocation T).

(** ** Loads *)

Lemma check_initialized_spec flags n : ∀ s, (s + n ≤ length flags)%nat →
  (check_initialized flags s n = Ok tt ∧ ∀ i, (i < n)%nat → ∃ f, flags !! (s + i)%nat = Some f ∧ f ≠ 0) ∨
  ∃ i, (i < n)%nat ∧ check_initialized flags s n = Err (Fault.Trap (MemoryTrap.Uninitialized (Z.of_nat (s + i)))) ∧
    flags !! (s + i)%nat = Some 0 ∧ ∀ j, (j < i)%nat → ∃ f, flags !! (s + j)%nat = Some f ∧ f ≠ 0.
Proof.
  induction n as [|n IH]; intros s Hlen; simpl; [left; split; [done|lia]|].
  destruct (lookup_lt_is_Some_2 flags s) as [f Hf]; [lia|]. rewrite Hf. simpl.
  destruct (Z.eqb_spec f 0) as [->|Hnz].
  - right. exists 0%nat. rewrite Nat.add_0_r. split; [lia|]. split; [done|]. split; [done|lia].
  - assert (∀ P : nat → Prop, P s → (∀ i, (i < n)%nat → P (S s + i)%nat) →
      ∀ i, (i < S n)%nat → P (s + i)%nat) as Hshift.
    { intros P H0 HS [|i] Hi; [by rewrite Nat.add_0_r|]. rewrite <- Nat.add_succ_comm. apply HS. lia. }
    destruct (IH (S s)) as [[-> Hall]|(i & Hi & -> & Hz & Hbefore)]; [lia| |].
    + left. split; [done|]. apply (Hshift (λ k, ∃ f, flags !! k = Some f ∧ f ≠ 0)); [by eauto|done].
    + right. exists (S i). split; [lia|]. rewrite <- Nat.add_succ_comm. split; [done|]. split; [done|].
      intros [|j] Hj; [rewrite Nat.add_0_r; by eauto|]. rewrite <- Nat.add_succ_comm. apply Hbefore. lia.
Qed.

Lemma check_initialized_ok flags s n : (s + n ≤ length flags)%nat →
  (∀ i, (i < n)%nat → ∃ f, flags !! (s + i)%nat = Some f ∧ f ≠ 0) → check_initialized flags s n = Ok tt.
Proof.
  intros Hlen Hall. destruct (check_initialized_spec flags n s Hlen) as [[? _]|(i & Hi & _ & Hz & _)]; [done|].
  destruct (Hall i Hi) as (f & Hf & ?). congruence.
Qed.

(** The eight fragments of one pointer. *)
Definition fragments_at (g : gmap nat Fragment) (s : nat) (p : StoredPointer.t) : Prop :=
  ∀ i, (i < 8)%nat → g !! (s + i)%nat = Some (mkFragment p (Z.of_nat i)).

Lemma complete_fragment_spec g s addr p :
  complete_fragment g s addr = Some p ↔ stored_bits p = addr ∧ fragments_at g s p.
Proof.
  unfold complete_fragment. split.
  - intros (f & Hf & Hp)%bind_Some. destruct (_ && _) eqn:Hc; [|done]. injection Hp as <-.
    rewrite !andb_true_iff in Hc. destruct Hc as [[_ Hb%Z.eqb_eq] Hall]. split; [done|].
    intros i Hi. rewrite forallb_forall in Hall. apply (bool_decide_eq_true_1 _), Hall, in_seq. lia.
  - intros [<- Hall]. pose proof (Hall 0%nat) as H0. rewrite Nat.add_0_r in H0. rewrite H0 by lia. simpl.
    rewrite Z.eqb_refl. simpl.
    by rewrite !Hall by lia; rewrite !bool_decide_eq_true_2 by (f_equal; lia).
Qed.

Lemma slice_at {E} (l : list Z) s n : (s + n ≤ length l)%nat →
  @slice E Z l s (s + n) = Ok (take n (drop s l)).
Proof. intros. rewrite slice_ok by lia. do 2 f_equal. lia. Qed.

(** The values a scalar type can hold, from the bits and the fragment they carry. *)
Definition decode {E} (t : ty) (s : Z) (frag : option StoredPointer.t) : result E value :=
  match t with
  | Ty.Bool => Ok (Value.Scalar (ConstValue.Bool (s =? 1)))
  | Ty.Ptr _ =>
      Ok (Value.Pointer (if s =? 0 then raw_pointer 0
        else match frag with Some (StoredPointer.Data p) => p | _ => raw_pointer s end))
  | Ty.FnPtr sig =>
      Ok (Value.FunctionPointer (if s =? 0 then mkFunctionPointer sig FunctionTarget.Null
        else match frag with
             | Some (StoredPointer.Function p) =>
                 if decide (fp_signature p = sig) then p
                 else mkFunctionPointer sig (FunctionTarget.InvalidBits s)
             | _ => mkFunctionPointer sig (FunctionTarget.InvalidBits s)
             end))
  | _ => v ← scalar_pack t s; Ok (Value.Scalar v)
  end.

Definition same_signature (t : ty) (sig : option FunctionSignature) : Prop :=
  ∀ s s', t = Ty.FnPtr s → sig = Some s' → s = s'.

(** [load_scalar]: the first uninitialized byte traps, a [Bool] that is neither 0 nor 1
    traps, anything else decodes. *)
Lemma load_scalar_eq m id s t sig a :
  allocations m !! id = Some a → (s + byte_size t ≤ length (data a))%nat →
  length (initialized a) = length (data a) → is_scalar t = true → same_signature t sig →
  Forall (λ b, 0 ≤ b < 256) (data a) →
  let bytes := take (byte_size t) (drop s (data a)) in
  load_scalar m id s t sig =
    (_ ← check_initialized (initialized a) s (byte_size t);
     if bool_decide (t = Ty.Bool) && (1 <? from_le_bytes bytes)
     then Err (Fault.Trap (MemoryTrap.InvalidBool (from_le_bytes bytes)))
     else decode t (from_le_bytes bytes)
            (complete_fragment (ft_contents (fragments a)) s (from_le_bytes bytes))).
Proof.
  intros Ha Hlen Hini Hs Hsig Hb bytes. unfold load_scalar. rewrite Ha. cbn [expect mbind result_bind].
  rewrite layout_scalar by done. cbn [mbind result_bind scalar size]. rewrite Nat2Z.id, slice_at by done.
  cbn [mbind result_bind]. fold bytes.
  assert (length bytes = byte_size t) as Hlb by (unfold bytes; rewrite length_take, length_drop; lia).
  assert (Forall (λ b, 0 ≤ b < 256) bytes) as Hbytes by (by apply Forall_take, Forall_drop).
  destruct (check_initialized _ _ _) as [[]| |]; cbn [mbind result_bind]; try done.
  pose proof (byte_size_le t). case_bool_decide as Hbool.
  - subst t. cbn [byte_size] in Hlb. destruct bytes as [|b [|]] eqn:Hbs; try discriminate Hlb.
    apply Forall_cons_1 in Hbytes as [Hr _].
    cbn [lookup list_lookup expect mbind result_bind from_le_bytes andb decode].
    rewrite Z.mul_0_r, Z.add_0_r.
    destruct (Z.eqb_spec b 0) as [->|]; [done|]. destruct (Z.eqb_spec b 1) as [->|]; [done|].
    destruct (Z.ltb_spec 1 b); [done|lia].
  - cbn [andb]. destruct t; try done; cbn [byte_size] in Hlb; rewrite Hlb; try done.
    cbn [Nat.eqb negb decode].
    destruct sig as [s'|]; [|done]. by rewrite (Hsig sig0 s').
Qed.

Lemma decode_ok {E} t b frag : is_scalar t = true → 0 ≤ b < 2 ^ (8 * Z.of_nat (byte_size t)) →
  (∀ p, frag = Some p → stored_bits p = b ∧ fragment_ok (mkFragment p 0)) →
  ∃ v, @decode E t b frag = Ok v ∧ value_ok t v ∧
    ∀ q cap, v = Value.Pointer q → capability q = Some cap → frag = Some (StoredPointer.Data q).
Proof.
  intros Hs Hb Hfrag. destruct (shape t) as [[n sg]|] eqn:Ht.
  - pose proof (shape_is_int _ _ _ Ht) as Hi. exists (Value.Scalar (inject t b)).
    assert (@decode E t b frag = (v ← pack t b; Ok (Value.Scalar v))) as -> by (by destruct t).
    rewrite pack_eq by done. cbn [mbind result_bind]. split; [done|]. split; [|done].
    by apply has_type_inject.
  - destruct t; try done; cbn [decode scalar_pack mbind result_bind] in *.
    + eexists. split; [done|]. split; [|done]. simpl. unfold has_type. simpl. by destruct (b =? 1).
    + eexists. split; [done|]. split; [|done]. simpl. apply in_u_spec. apply wrapu_range. lia.
    + eexists. split; [done|]. split; [|done]. simpl. apply in_u_spec. apply wrapu_range. lia.
    + eexists. split; [done|]. split; [|done]. simpl. apply in_u_spec. apply wrapu_range. lia.
    + eexists. split; [done|]. cbn [byte_size] in Hb. destruct (Z.eqb_spec b 0) as [->|].
      { split; [|by intros ? ? [= <-]]. split; [by eexists|]. split; simpl; done. }
      destruct frag as [[q|q]|].
      * split; [|by intros ? ? [= <-]]. split; [by eexists|]. by apply (Hfrag _ eq_refl).
      * split; [|by intros ? ? [= <-]]. split; [by eexists|]. split; simpl; [lia|done].
      * split; [|by intros ? ? [= <-]]. split; [by eexists|]. split; simpl; [lia|done].
    + eexists. split; [done|]. split; [|done]. cbn [byte_size] in Hb.
      destruct (Z.eqb_spec b 0) as [->|]; [done|].
      change (2 ^ (8 * Z.of_nat 8)) with (2 ^ 64) in Hb.
      assert (function_ok (mkFunctionPointer sig (FunctionTarget.InvalidBits b))) as Hinv
        by (unfold function_ok; cbn [fp_target]; lia).
      destruct frag as [[q|q]|]; [by split| |by split].
      case_decide as Hsig; [|by split].
      split; [by rewrite Hsig|]. by apply (Hfrag _ eq_refl).
Qed.

(** The types a load accepts. *)
Definition loadable (t : ty) : Prop :=
  is_scalar t = true ∨ ∃ i, t = Ty.Tuple [i; Ty.Bool] ∧ is_int i = true.
Definition load_size (t : ty) : nat :=
  match t with Ty.Tuple (i :: _) => 2 * byte_size i | _ => byte_size t end.

Lemma load_scalar_ok m id s t sig a :
  allocations m !! id = Some a → alloc_ok a → (s + byte_size t ≤ length (data a))%nat →
  is_scalar t = true → same_signature t sig →
  load_scalar m id s t sig ≠ Panic ∧
  ∀ v, load_scalar m id s t sig = Ok v → value_ok t v ∧
    (∀ i, (i < byte_size t)%nat → initialized a !! (s + i)%nat = Some 1) ∧
    ∀ q cap, v = Value.Pointer q → capability q = Some cap →
      fragments_at (ft_contents (fragments a)) s (StoredPointer.Data q).
Proof.
  intros Ha Hok Hlen Hs Hsig. pose proof (alloc_length _ Hok) as Hini.
  rewrite (load_scalar_eq m id s t sig a) by first [assumption|apply Hok].
  set (bytes := take (byte_size t) (drop s (data a))).
  assert (length bytes = byte_size t) as Hlb by (unfold bytes; rewrite length_take, length_drop; lia).
  assert (0 ≤ from_le_bytes bytes < 2 ^ (8 * Z.of_nat (byte_size t))) as Hbits.
  { rewrite <- Hlb. apply from_le_bytes_range, Forall_take, Forall_drop, Hok. }
  destruct (decode_ok (E := fault) t (from_le_bytes bytes)
    (complete_fragment (ft_contents (fragments a)) s (from_le_bytes bytes))) as (v & Hd & Hv & Hcap);
    [done|done| |].
  { intros p [Hp Hall]%complete_fragment_spec. split; [done|].
    pose proof (Hall 0%nat) as H0. rewrite Nat.add_0_r in H0.
    apply (alloc_fragments _ Hok) in H0; [|lia]. by destruct H0. }
  destruct (check_initialized_spec (initialized a) (byte_size t) s) as [[-> Hall]|(i & Hi & -> & _)];
    [lia| |by split].
  cbn [mbind result_bind]. destruct (_ && _); [by split|]. rewrite Hd. split; [done|].
  intros ? [= <-]. split; [done|]. split.
  - intros i Hi. destruct (Hall i Hi) as (f & Hf & Hnz). rewrite Hf. f_equal.
    pose proof (proj1 (Forall_lookup _ _) (alloc_flags _ Hok) _ _ Hf) as [|]; [done|lia].
  - intros q cap Hq Hc. by eapply complete_fragment_spec, Hcap.
Qed.

(** What a stored segment loads back to. *)
Lemma load_scalar_segment m id s t v sig a :
  allocations m !! id = Some a → alloc_ok a → (s + byte_size t ≤ length (data a))%nat →
  value_ok t v → is_checked v = false → same_signature t sig →
  (∀ i c, segment t v !! i = Some c → cell_at a (s + i) = (default 0 c.1, 1, c.2)) →
  load_scalar m id s t sig = Ok v.
Proof.
  intros Ha Hok Hlen Hv Hc Hsig Hcells. pose proof (alloc_length _ Hok) as Hini.
  assert (is_scalar t = true) as Hs by (by eapply value_ok_scalar).
  assert (0 ≤ value_bits t v < 2 ^ (8 * Z.of_nat (byte_size t))) as Hbits.
  { destruct v as [c| |p|p]; simpl in Hv, Hc.
    - by apply value_bits_range.
    - done.
    - destruct Hv as [[? ->] [? _]]. done.
    - destruct Hv as [-> Hp]. simpl. unfold function_ok, fp_bits in *.
      destruct (fp_target p); simpl in *; lia. }
  assert (∀ i, (i < byte_size t)%nat → ∃ b, to_le_bytes (byte_size t) (value_bits t v) !! i = Some b ∧
    cell_at a (s + i) = (b, 1, value_fragment v i)) as Hat.
  { intros i Hi. destruct (lookup_lt_is_Some_2 (to_le_bytes (byte_size t) (value_bits t v)) i) as [b Hb];
      [by rewrite length_to_le_bytes|].
    exists b. split; [done|]. rewrite (Hcells i (Some b, value_fragment v i)); [done|].
    unfold segment. by rewrite list_lookup_imap, Hb. }
  rewrite (load_scalar_eq m id s t sig a) by (done || apply Hok).
  assert (take (byte_size t) (drop s (data a)) = to_le_bytes (byte_size t) (value_bits t v)) as ->.
  { apply list_eq. intros i. destruct (decide (i < byte_size t)%nat) as [Hi|Hi].
    - rewrite lookup_take_lt by done. rewrite lookup_drop.
      destruct (Hat i Hi) as (b & -> & Hcell). destruct (lookup_lt_is_Some_2 (data a) (s + i)) as [b' Hb']; [lia|].
      unfold cell_at in Hcell. rewrite (list_lookup_total_correct _ _ _ Hb') in Hcell. congruence.
    - rewrite lookup_take_ge by lia. by rewrite lookup_ge_None_2 by (rewrite length_to_le_bytes; lia). }
  rewrite from_to_le_bytes_id by done.
  rewrite check_initialized_ok; [|lia|].
  2: { intros i Hi. destruct (Hat i Hi) as (b & _ & Hcell). destruct (lookup_lt_is_Some_2 (initialized a) (s + i)) as [f Hf]; [lia|].
    unfold cell_at in Hcell. rewrite (list_lookup_total_correct _ _ _ Hf) in Hcell.
    exists f. split; [done|]. by simplify_eq. }
  cbn [mbind result_bind].
  assert (∀ p, byte_size t = 8%nat → (∀ i, value_fragment v i = Some (mkFragment p (Z.of_nat i))) → stored_bits p = value_bits t v →
    complete_fragment (ft_contents (fragments a)) s (value_bits t v) = Some p) as Hcf.
  { intros p Hsz Hvf Hp. apply complete_fragment_spec. split; [done|]. intros i Hi.
    destruct (Hat i) as (b & _ & Hcell); [lia|]. unfold cell_at in Hcell. rewrite <- Hvf. congruence. }
  destruct v as [c| |p|p]; simpl in Hv, Hc.
  - destruct (decide (t = Ty.Bool)) as [->|Hnb].
    + by destruct c as [[]| | |].
    + rewrite bool_decide_eq_false_2 by done. cbn [andb].
      assert (@decode fault t (value_bits t (Value.Scalar c)) (complete_fragment (ft_contents (fragments a)) s (value_bits t (Value.Scalar c)))
        = (v ← scalar_pack t (value_bits t (Value.Scalar c)); Ok (Value.Scalar v))) as ->.
      { pose proof (has_type_scalar t c Hv). by destruct t, c. }
      by rewrite scalar_pack_eq.
  - done.
  - destruct Hv as [[inner ->] [Hp Hcap]]. rewrite (Hcf (StoredPointer.Data p)) by done. simpl.
    destruct (Z.eqb_spec (address p) 0) as [Hz|]; [|done].
    destruct p as [addr [cap|]]; simpl in *; [lia|by subst].
  - destruct Hv as [-> Hp]. rewrite (Hcf (StoredPointer.Function p)) by done. simpl.
    rewrite decide_True by done. unfold function_ok, fp_bits in *.
    destruct p as [sg [|id'|b]]; simpl in *; [done|by rewrite (proj2 (Z.eqb_neq _ _)) by lia..].
Qed.

(** What a successful load of [v] at offset [s] of [a] says. *)
Definition load_result (t : ty) (v : value) (s : nat) a : Prop :=
  value_ok t v ∧
  (∀ i, (i < match t with Ty.Tuple (i :: _) => S (byte_size i) | _ => byte_size t end)%nat →
     initialized a !! (s + i)%nat = Some 1) ∧
  ∀ q cap, v = Value.Pointer q → capability q = Some cap →
    fragments_at (ft_contents (fragments a)) s (StoredPointer.Data q).

Lemma loadable_size {E} t : loadable t →
  ∃ l, @layout E t = Ok l ∧ size l = Z.of_nat (load_size t).
Proof.
  intros [Hs|(i & -> & Hi)].
  - eexists. rewrite layout_scalar by done. split; [done|]. simpl.
    f_equal. by destruct t as [| | | | | | | | | | | | | | | | | | | | |].
  - eexists. rewrite layout_pair by done. split; [done|]. simpl. lia.
Qed.

Lemma runs_load m p t al sig :
  memory_ok m → pointer_ok p → 0 < al → loadable t → same_signature t sig →
  runs m (load_with_signature p t al sig) (λ v m', work_only m m' ∧ ∃ id s a,
    at_range m p (Z.of_nat (load_size t)) al false id s a ∧ load_result t v s a) m.
Proof.
  intros Hm Hp Hal Ht Hsig. unfold load_with_signature.
  destruct (loadable_size (E := fault) t Ht) as (l & Hl & Hsz). apply runs_bind. rewrite Hl. apply runs_lift_ok.
  rewrite Hsz. apply runs_bind, runs_access; [done..|lia|]. intros id s a Hat.
  destruct (at_range_alloc _ _ _ _ _ _ _ _ Hm Hat) as (Ha & Hok & Hlen). rewrite Nat2Z.id in *.
  apply runs_bind, runs_charge; [apply Hm|lia|by apply work_only_refl|]. intros m1 Hw1 Hm1.
  rewrite <- Hm1 in Ha.
  destruct Ht as [Hs|(i & -> & Hi)].
  - assert (load_size t = byte_size t) as Hls by (by destruct t). rewrite Hls in *.
    assert (runs m (reads (λ m, load_scalar m id s t sig)) (λ v m', work_only m m' ∧ ∃ id s a,
      at_range m p (Z.of_nat (byte_size t)) al false id s a ∧ load_result t v s a) m1) as Hscalar.
    { destruct (load_scalar_ok m1 id s t sig a) as [Hnp Hres]; [done..|].
      apply runs_reads; [done..|]. intros v Hv. destruct (Hres v Hv) as (Hvok & Hini & Hcap).
      split; [done|]. exists id, s, a. split; [done|]. split; [done|]. split; [|done].
      intros k Hk. apply Hini. by destruct t. }
    destruct t; done.
  - pose proof (byte_size_le i) as Hbs. cbn [load_size] in *.
    rewrite layout_pair in Hl by done. injection Hl as <-.
    cbn [field_offsets lookup list_lookup expect].
    apply runs_bind, runs_lift_ok, runs_bind, runs_lift_ok. rewrite Nat.add_0_r.
    destruct (load_scalar_ok m1 id s i None a) as [Hnp Hres]; [done|done|lia|by destruct i|done|].
    apply runs_bind, runs_reads; [done..|]. intros v Hv. destruct (Hres v Hv) as (Hvok & Hini & _).
    apply runs_bind, runs_lift_ok, runs_bind, runs_lift_ok. rewrite Nat2Z.id.
    destruct (load_scalar_ok m1 id (s + byte_size i) Ty.Bool None a) as [Hnp' Hres'];
      [done|done|simpl; lia|done|done|].
    apply runs_bind, runs_reads; [done..|]. intros w Hw. destruct (Hres' w Hw) as (Hwok & Hini' & _).
    assert (∃ c, v = Value.Scalar c ∧ has_type i c = true) as (c & -> & Hc).
    { destruct v as [c|c fl|q|q]; simpl in Hvok; [by exists c|..].
      - by destruct Hvok as (? & -> & _).
      - by destruct Hvok as [[? ->] _].
      - by destruct Hvok as [-> _]. }
    assert (∃ b, w = Value.Scalar (ConstValue.Bool b)) as (b & ->).
    { destruct w as [[b| | |]|? ?|q|q]; simpl in Hwok; try done; [by exists b|..].
      - by destruct Hwok as (? & ? & _).
      - by destruct Hwok as [[? ?] _].
      - by destruct Hwok as [? _]. }
    apply runs_bind, runs_lift_ok, runs_bind, runs_lift_ok, runs_ret.
    split; [done|]. exists id, s, a. split; [done|]. split; [by exists i|]. split; [|done].
    intros k Hk. destruct (decide (k = byte_size i)) as [->|]; [|apply Hini; lia].
    specialize (Hini' 0%nat). rewrite Nat.add_0_r in Hini'. apply Hini'. simpl. lia.
Qed.

(** The cells after an overwrite, read back. *)
Lemma overwritten_cell s cs t a i c :
  (s + length cs ≤ length (data a))%nat → length (initialized a) = length (data a) →
  (∀ i, ft_contents t !! i = with_fragments s (cell_fragment <$> cs) (ft_contents (fragments a)) i) →
  cs !! i = Some c → cell_at (overwritten s cs t a) (s + i) = c.
Proof.
  intros Hlen Hini Ht Hc. pose proof (lookup_lt_Some _ _ _ Hc) as Hi. unfold cell_at. simpl.
  assert ((splice s (cell_byte <$> cs) (data a)) !! (s + i)%nat = Some (cell_byte c)) as Hb.
  { rewrite lookup_splice by (rewrite length_fmap; lia). rewrite length_fmap, decide_True by lia.
    rewrite list_lookup_fmap. replace (s + i - s)%nat with i by lia. by rewrite Hc. }
  assert ((splice s (cell_flag <$> cs) (initialized a)) !! (s + i)%nat = Some (cell_flag c)) as Hf.
  { rewrite lookup_splice by (rewrite length_fmap; lia). rewrite length_fmap, decide_True by lia.
    rewrite list_lookup_fmap. replace (s + i - s)%nat with i by lia. by rewrite Hc. }
  rewrite (list_lookup_total_correct _ _ _ Hb), (list_lookup_total_correct _ _ _ Hf), Ht.
  unfold with_fragments. rewrite length_fmap.
  destruct (in_range_spec s (s + length cs) (s + i)); [|lia].
  rewrite list_lookup_fmap. replace (s + i - s)%nat with i by lia. rewrite Hc.
  by destruct c as [[]].
Qed.

Definition granted (wr : bool) (cap : Capability) a : bool :=
  if wr then cap_write cap && writable a else cap_read cap && readable a.

Lemma access_intro m p n al wr id cap a :
  memory_ok m → tracked m p id cap a → 0 ≤ offset cap → 0 ≤ n → offset cap + n ≤ upper cap →
  0 < al → (al | address p) →
  access m p n al wr =
    if granted wr cap a then Ok (id, Z.to_nat (offset cap), Z.to_nat (offset cap + n))
    else Err (Fault.Trap MemoryTrap.PermissionDenied).
Proof.
  intros Hm Ht Ho Hn Hup Hal Hdiv. unfold access.
  rewrite (proj2 (proj2 (identity_spec m p) id cap)) by eauto. cbn [mbind result_bind].
  pose proof Ht as (_&_&_&Ha&_&_&_&Hlen&_).
  pose proof (ok_below _ Hm _ _ Ha). pose proof (ok_next _ Hm).
  assert (0 < base a) by (eapply alloc_base, Forall_lookup_1; [apply Hm|done]).
  rewrite (proj2 (checked_u_Some 64 _ (offset cap + n))) by lia. cbn [ok_or mbind result_bind].
  rewrite (proj2 (Z.ltb_ge _ _)) by lia. rewrite Ha. cbn [expect mbind result_bind].
  fold (granted wr cap a). destruct (granted wr cap a); [|done]. cbn [negb].
  rewrite (proj2 (Z.eqb_neq al 0)) by lia.
  by rewrite (proj2 (Z.eqb_eq _ _)) by (by apply Z.mod_divide; [lia|]).
Qed.

Lemma overwrites_tracked id s cs m m' p cap a :
  overwrites id s cs m m' → tracked m p id cap a → allocations m !! id = Some a →
  ∃ t, tracked m' p id cap (overwritten s cs t a) ∧
    (∀ i, ft_contents t !! i = with_fragments s (cell_fragment <$> cs) (ft_contents (fragments a)) i) ∧
    (s + length cs ≤ length (data a))%nat.
Proof.
  intros (a' & t & w & Ha' & Hlen & Ht & _ & -> & _) Htr Ha. simplify_eq. exists t.
  split; [|done]. destruct Htr as (?&?&?&_&?&?&?&?&?&?&?).
  split_and!; try done; simpl; try lia.
  - apply list_lookup_insert_eq. by eapply lookup_lt_Some.
  - rewrite length_splice by (by rewrite length_fmap). lia.
Qed.

Lemma patched_lookup a s ps i c :
  ps !! i = Some c → (∃ b, c.1 = Some b) → patched a s ps !! i = Some (default 0 c.1, 1, c.2).
Proof.
  intros Hi [b Hb]. unfold patched. rewrite lookup_zip_with.
  destruct (lookup_lt_is_Some_2 (cells_of a s (length ps)) i) as [c' ->];
    [rewrite length_cells_of; by eapply lookup_lt_Some|].
  rewrite Hi. cbn. destruct c as [o f]. simpl in *. by subst.
Qed.

Lemma value_loadable t v : value_ok t v → loadable t ∧ load_size t = stored_size t v.
Proof.
  intros Hv. destruct (is_checked v) eqn:Hc.
  - destruct v as [|c fl| |]; try discriminate Hc. destruct Hv as (i & -> & Hi & _).
    split; [right; by exists i|done].
  - pose proof (value_ok_scalar t v Hv Hc) as Hs. split; [by left|].
    destruct v; [|discriminate Hc|..]; by destruct t.
Qed.

Lemma segment_lookup t v i c : segment t v !! i = Some c →
  (i < byte_size t)%nat ∧ ∃ b, c.1 = Some b.
Proof.
  intros Hi. split; [rewrite <- (length_segment t v); by eapply lookup_lt_Some|].
  unfold segment in Hi. rewrite list_lookup_imap in Hi. destruct (_ !! i); simplify_eq/=. by eexists.
Qed.

Lemma mem_bind_eq {A B} (op : mem T A) (k : A → mem T B) m :
  (op ≫= k) m = match op m with
                | (Ok x, m') => k x m'
                | (Err e, m') => (Err e, m')
                | (Panic, m') => (Panic, m')
                end.
Proof. done. Qed.

(** Loading what was just stored. *)
Lemma store_load_eq m p t v al m' :
  memory_ok m → memory_ok m' → pointer_ok p → 0 < al → value_ok t v →
  (∃ id s a, at_range m p (Z.of_nat (stored_size t v)) al true id s a ∧
    overwrites id s (patched a s (encoded t v)) m m') →
  match load_with_signature p t al None m' with
  | (Ok w, _) => w = v
  | (Err e, _) => e = Fault.Limit MemoryResource.Work (max_work (mem_limits m)) ∨
                  e = Fault.Trap MemoryTrap.PermissionDenied
  | (Panic, _) => False
  end.
Proof.
  intros Hm Hm' Hp Hal Hv (id & s & a & Hat & Ho).
  pose proof Hat as (cap & Htr & Hoff & Hs & Hup & Hlen & _ & Hdiv).
  destruct (at_range_alloc _ _ _ _ _ _ _ _ Hm Hat) as (Ha & Hok & _).
  destruct (overwrites_tracked _ _ _ _ _ _ _ _ Ho Htr Ha) as (tb & Htr' & Htb & Hlen').
  destruct (value_loadable t v Hv) as [Hload Hsz].
  destruct (loadable_size (E := fault) t Hload) as (l & Hl & Hls).
  set (a' := overwritten s _ tb a) in *.
  assert (allocations m' !! id = Some a') as Ha' by (by destruct Htr' as (_&_&_&?&_)).
  assert (alloc_ok a') as Hok' by (eapply Forall_lookup_1; [apply Hm'|done]).
  assert (mem_limits m' = mem_limits m) as Hlim by (by destruct Ho as (?&?&?&_&_&_&_&->&_)).
  assert (∀ i c, patched a s (encoded t v) !! i = Some c → cell_at a' (s + i) = c) as Hcells.
  { intros i c. apply overwritten_cell; [done|apply (alloc_length _ Hok)|done]. }
  assert (length (data a') = length (data a)) as Hld.
  { simpl. apply length_splice. by rewrite length_fmap. }
  rewrite Nat2Z.id in Hlen.
  unfold load_with_signature. rewrite Hl, mem_bind_eq. cbn [lift]. rewrite mem_bind_eq. unfold reads at 1.
  rewrite Hls, Hsz. rewrite (access_intro m' p _ al false id cap a') by (done || lia).
  destruct (granted false cap a'); [|by right].
  rewrite mem_bind_eq, <- Hs. unfold charge. destruct (checked_u 64 _) as [total|]; [|left; by rewrite Hlim].
  destruct (total <=? _); [|left; by rewrite Hlim].
  set (m2 := set_work total m').
  assert (allocations m2 !! id = Some a') as Ha2 by done.
  destruct (is_checked v) eqn:Hc.
  - destruct v as [|c fl| |]; try discriminate Hc. destruct Hv as (i & -> & Hi & Hcv).
    pose proof (byte_size_le i). rewrite layout_pair in Hl by done. injection Hl as <-.
    cbn [stored_size encoded] in *.
    cbn [field_offsets lookup list_lookup expect]. do 2 (rewrite mem_bind_eq; cbn [lift]).
    rewrite mem_bind_eq. unfold reads at 1.
    rewrite (load_scalar_segment m2 id _ i (Value.Scalar c) None a'); [|done|done|lia|done|done|done|].
    2: { intros k x Hx. rewrite Nat.add_0_r. destruct (segment_lookup _ _ _ _ Hx) as [Hk Hb].
      apply Hcells, patched_lookup; [|done]. rewrite lookup_app_l by (by rewrite length_segment). done. }
    do 2 (rewrite mem_bind_eq; cbn [lift]). rewrite Nat2Z.id, mem_bind_eq. unfold reads at 1.
    rewrite (load_scalar_segment m2 id _ Ty.Bool (Value.Scalar (ConstValue.Bool fl)) None a'); [|done|done|cbn [byte_size]; lia|done|done|done|].
    2: { intros k x Hx. destruct (segment_lookup _ _ _ _ Hx) as [Hk Hb].
      rewrite <- Nat.add_assoc. apply Hcells, patched_lookup; [|done].
      rewrite lookup_app_r by (rewrite length_segment; lia). rewrite length_segment.
      rewrite lookup_app_l by (rewrite length_segment; lia). by replace (byte_size i + k - byte_size i)%nat with k by lia. }
    done.
  - rewrite encoded_segment in Hcells by done.
    assert (load_scalar m2 id s t None = Ok v) as Hls2.
    { apply (load_scalar_segment m2 id s t v None a'); [done..| |done|done|done|].
      - rewrite Hld. assert (stored_size t v = byte_size t) as <-; [|done].
        destruct v; [|discriminate Hc|..]; by case_tuple t.
      - intros k x Hx. destruct (segment_lookup _ _ _ _ Hx) as [Hk Hb].
        by apply Hcells, patched_lookup. }
    assert (is_scalar t = true) by (by eapply value_ok_scalar).
    assert (∀ A (pair : list ty → A) (other : A),
      match t with Ty.Tuple fields => pair fields | _ => other end = other) as Hmatch by (by destruct t).
    rewrite Hmatch. unfold reads. by rewrite Hls2.
Qed.
End loads.
