(* ===== verification/MemoryLifetime.v ===== *)
(** * Lifetimes in tracked memory

    Allocation, sealing and the end of lifetimes; address arithmetic and comparison;
    then the properties of the whole memory. *)
From S2P Require Export MemorySafety.
Local Open Scope Z_scope.

Lemma land_notu_low x k : 0 ≤ k ≤ 64 → 0 ≤ x < 2 ^ 64 →
  Z.land x (notu 64 (2 ^ k - 1)) = x - x mod 2 ^ k.
Proof.
  intros Hk Hx. unfold notu, wrapu.
  rewrite <- (Z.land_ones (Z.lnot _)) by lia.
  rewrite (Z.land_comm (Z.lnot _)), Z.land_assoc, Z.land_ones, (Z.mod_small x) by lia.
  change (Z.land x (Z.lnot (2 ^ k - 1))) with (Z.land x (Z.lnot (2 ^ k - 1))).
  rewrite <- Z.ldiff_land.
  replace (2 ^ k - 1) with (Z.ones k) by (rewrite Z.ones_equiv; lia).
  rewrite Z.ldiff_ones_r, Z.shiftl_mul_pow2, Z.shiftr_div_pow2 by lia.
  pose proof (Z.div_mod x (2 ^ k)). pose proof (pow2_pos k). lia.
Qed.

Lemma align_down x a : 0 ≤ x < 2 ^ 64 → is_power_of_two a = true → a ≤ 2 ^ 64 →
  Z.land x (notu 64 (a - 1)) = x - x mod a.
Proof.
  intros Hx (k & Hk & ->)%is_power_of_two_spec Ha. apply land_notu_low; [|done].
  split; [done|]. destruct (Z.le_gt_cases k 64) as [|Hgt]; [done|].
  pose proof (Z.pow_lt_mono_r 2 64 k). lia.
Qed.

Section lifetimes.
Context {T : Type} `{FragmentTable T}.
Implicit Types (m : Memory T) (a : Allocation T).

(** ** Allocation *)

Definition fresh_allocation (k : AllocationKind) (addr : Z) (n : nat) : Allocation T :=
  mkAllocation k addr 0 true true true (replicate n 0) (replicate n 0) ft_new.

(** [p] is a new allocation of [sz] uninitialized bytes at a multiple of [al], above
    every earlier one. *)
Definition allocated (k : AllocationKind) m (sz al : Z) (p : Pointer) m' : Prop :=
  ∃ addr w, next_address m ≤ addr ∧ addr + Z.max sz 1 + 1 < 2 ^ 64 ∧ (al | addr) ∧
    p = mkPointer addr (Some (mkCapability (mem_arena m) (length (allocations m)) 0 0 sz 0 true true)) ∧
    m' = mkMemory (mem_arena m) (allocations m ++ [fresh_allocation k addr (Z.to_nat sz)])
           (mem_limits m) (used_bytes m + sz) (fragment_count m) w (addr + Z.max sz 1 + 1) ∧
    used_bytes m + sz ≤ max_bytes (mem_limits m) ∧
    Z.of_nat (length (allocations m)) < max_allocations (mem_limits m) ∧
    work m ≤ w ≤ max_work (mem_limits m).

Lemma sum_list_app {A} (f : A → nat) l l' :
  (sum_list_with f (l ++ l') = sum_list_with f l + sum_list_with f l')%nat.
Proof. induction l; simpl; lia. Qed.

Lemma allocated_ok k m sz al p m' :
  memory_ok m → 0 ≤ sz → allocated k m sz al p m' → memory_ok m'.
Proof.
  intros [] Hsz (addr & w & Haddr & Hnext & _ & _ & -> & Hbytes & Hnum & Hw).
  set (a := fresh_allocation k addr (Z.to_nat sz)).
  assert (length (data a) = Z.to_nat sz) as Hlen by apply length_replicate.
  assert (∀ i b, (allocations m ++ [a]) !! i = Some b →
    allocations m !! i = Some b ∨ i = length (allocations m) ∧ b = a) as Hcases.
  { intros i b [Hb|[Hi Hb]]%lookup_app_Some; [by left|]. right.
    destruct (i - length (allocations m))%nat eqn:He; simplify_eq/=. split; [lia|done]. }
  split; simpl; try done; try lia.
  - apply Forall_app. split; [done|]. apply Forall_singleton. split; simpl.
    + by apply Forall_replicate.
    + apply Forall_replicate. by left.
    + by rewrite !length_replicate.
    + intros i f. by rewrite ft_contents_new, lookup_empty.
    + done.
    + done.
    + lia.
  - intros i j b c Hij Hb Hc. destruct (Hcases _ _ Hb) as [Hb'|[-> ->]].
    + destruct (Hcases _ _ Hc) as [Hc'|[-> ->]]; [by eauto|]. simpl.
      specialize (ok_below _ _ Hb'). lia.
    + apply lookup_lt_Some in Hc. rewrite length_app in Hc. simpl in Hc. lia.
  - intros i b Hb. destruct (Hcases _ _ Hb) as [Hb'|[-> ->]].
    + specialize (ok_below _ _ Hb'). lia.
    + rewrite Hlen. simpl. lia.
  - unfold fragments_of in *. rewrite sum_list_app. simpl. rewrite ft_contents_new, map_size_empty. lia.
  - unfold bytes_of in *. rewrite sum_list_app. simpl. rewrite length_replicate. lia.
  - rewrite length_app. simpl. lia.
Qed.

Lemma runs_allocate m host sz natural al :
  memory_ok m → 0 ≤ sz < 2 ^ 64 → is_power_of_two (Z.max al natural) = true → Z.max al natural ≤ 2 ^ 63 →
  runs m (allocate host sz natural al) (allocated Stack m sz (Z.max al natural)) m.
Proof.
  intros Hm Hsz Hp2 Hal. pose proof (is_power_of_two_pos _ Hp2). unfold allocate.
  apply runs_bind, runs_get. apply runs_bind, runs_when_err; [by apply work_only_refl|].
  intros Hnum%Z.leb_gt. pose proof (ok_bytes _ Hm). pose proof (ok_limits _ Hm) as (?&?&?&?).
  pose proof (ok_next _ Hm).
  apply runs_bind, runs_lift; [by apply work_only_refl| |].
  { destruct (checked_u 64 _); [|done]. by destruct (_ <=? _). }
  intros bytes Hbytes. destruct (checked_u 64 _) as [n|] eqn:Hn; [|done].
  apply checked_u_Some in Hn as [-> _]. destruct (Z.leb_spec (used_bytes m + sz) (max_bytes (mem_limits m))); [|done].
  injection Hbytes as <-.
  apply runs_bind, runs_debug; [lia|].
  apply runs_bind, runs_or_trap; [by apply work_only_refl|]. intros addr (x & [-> Hx]%checked_u_Some & ->)%fmap_Some.
  apply runs_bind, runs_or_trap; [by apply work_only_refl|].
  intros next (y & [-> Hy]%checked_u_Some & [-> Hy']%checked_u_Some)%bind_Some.
  apply runs_bind, runs_or_trap; [by apply work_only_refl|].
  intros cost (y & [-> ?]%checked_u_Some & [-> ?]%checked_u_Some)%bind_Some.
  apply runs_bind, runs_charge; [apply Hm|lia|by apply work_only_refl|]. intros m1 Hw1 _.
  do 3 (apply runs_bind, runs_when_err; [done|]; intros _).
  apply runs_bind, runs_get, runs_bind, runs_modify, runs_bind, runs_modify, runs_ret.
  destruct Hw1 as (w & -> & Hw). simpl. rewrite align_down in * by (done || lia).
  set (al' := Z.max al natural) in *. set (x := next_address m + (al' - 1)) in *.
  pose proof (Z.mod_pos_bound x al'). pose proof (Z.div_mod x al').
  exists (x - x mod al'), w. split_and!; try lia; try done.
  exists (x / al'). lia.
Qed.

(** Turning the last allocation into a global one. *)
Lemma allocated_global m sz al p m' :
  allocated Stack m sz al p m' → ∃ cap, capability p = Some cap ∧
  ∃ m'', update_allocation (allocation cap) (set_kind GlobalStore) m' = (Ok tt, m'') ∧
    allocated GlobalStore m sz al p m''.
Proof.
  intros (addr & w & ? & ? & ? & -> & -> & ? & ? & ?). eexists. split; [done|]. simpl.
  unfold update_allocation. simpl. rewrite lookup_app_r, Nat.sub_diag by lia. simpl.
  eexists. split; [done|]. exists addr, w. split_and!; try done; try lia.
  unfold set_allocations. simpl. f_equal. rewrite insert_app_r_alt, Nat.sub_diag by lia. done.
Qed.

Lemma runs_allocate_global m host sz natural al :
  memory_ok m → 0 ≤ sz < 2 ^ 64 → is_power_of_two (Z.max al natural) = true → Z.max al natural ≤ 2 ^ 63 →
  runs m (allocate_global host sz natural al) (allocated GlobalStore m sz (Z.max al natural)) m.
Proof.
  intros Hm Hsz Hp2 Hal. unfold allocate_global. apply runs_bind.
  eapply runs_mono; [by apply runs_allocate|]. intros p m' Hp.
  destruct (allocated_global _ _ _ _ _ Hp) as (cap & Hcap & m'' & Hup & Hg).
  apply runs_bind. rewrite Hcap. apply runs_lift_ok. apply runs_bind.
  unfold runs at 1. rewrite Hup. by apply runs_ret.
Qed.

(** ** The end of a lifetime *)

Definition ended m (id : nat) : Memory T :=
  match allocations m !! id with
  | Some a =>
      if alive a then
        mkMemory (mem_arena m) (<[id := retired a]> (allocations m)) (mem_limits m) (used_bytes m)
          (fragment_count m - Z.of_nat (base.size (ft_contents (fragments a)))) (work m) (next_address m)
      else m
  | None => m
  end.

Lemma retire_allocation_eq m id :
  memory_ok m → (id < length (allocations m))%nat → retire_allocation id m = (Ok tt, ended m id).
Proof.
  intros Hm [a Ha]%lookup_lt_is_Some_2. unfold retire_allocation, ended. rewrite Ha.
  rewrite mem_bind_eq. unfold allocation_at. rewrite Ha. cbn [expect].
  destruct (alive a); [|done]. rewrite mem_bind_eq. cbn [get]. rewrite mem_bind_eq. unfold lift, debug_u.
  pose proof (sum_list_lookup (λ a, base.size (ft_contents (fragments a))) _ _ _ Ha) as Hsz.
  cbn beta in Hsz. fold (fragments_of (allocations m)) in Hsz.
  pose proof (ok_count _ Hm). pose proof (ok_max_count _ Hm). pose proof (ok_limits _ Hm) as (?&?&?&?).
  rewrite (proj2 (checked_u_Some 64 _ _)) by (split; [done|lia]). cbn [expect].
  rewrite mem_bind_eq. unfold modify, update_allocation. simpl. by rewrite Ha.
Qed.

Lemma ended_ok m id : memory_ok m → memory_ok (ended m id).
Proof.
  intros Hm. unfold ended. destruct (allocations m !! id) as [a|] eqn:Ha; [|done].
  destruct (alive a) eqn:Hal; [|done]. destruct Hm.
  pose proof (proj1 (Forall_lookup _ _) ok_allocs _ _ Ha) as [].
  assert (∀ j b, <[id := retired a]> (allocations m) !! j = Some b →
    ∃ b', allocations m !! j = Some b' ∧ base b = base b' ∧ (length (data b) ≤ length (data b'))%nat) as Hsame.
  { intros j b Hb. destruct (decide (j = id)) as [->|Hne].
    - rewrite list_lookup_insert_eq in Hb by (by eapply lookup_lt_Some). simplify_eq.
      exists a. simpl. split_and!; try done. lia.
    - rewrite list_lookup_insert_ne in Hb by done. by exists b. }
  pose proof (sum_list_insert (λ a, base.size (ft_contents (fragments a))) _ _ _ (retired a) Ha) as Hfr.
  pose proof (sum_list_insert (λ a, length (data a)) _ _ _ (retired a) Ha) as Hby.
  cbn beta in Hfr, Hby. simpl in Hby. cbn [fragments retired] in Hfr.
  rewrite ft_contents_clear, map_size_empty in Hfr. unfold fragments_of, bytes_of in *.
  split; simpl; try done; try lia.
  - apply Forall_insert; [done|]. split; simpl; try done.
    intros i f. by rewrite ft_contents_clear, lookup_empty.
  - intros i j b c Hij Hb Hc. destruct (Hsame _ _ Hb) as (b'&?&->&?), (Hsame _ _ Hc) as (c'&?&->&?).
    specialize (ok_placed i j b' c'). naive_solver lia.
  - intros i b Hb. destruct (Hsame _ _ Hb) as (b'&?&->&?).
    specialize (ok_below i b'). naive_solver lia.
  - unfold fragments_of. lia.
  - unfold bytes_of. lia.
  - rewrite length_insert. lia.
Qed.

Lemma length_ended m id : length (allocations (ended m id)) = length (allocations m).
Proof.
  unfold ended. destruct (allocations m !! id); [|done]. destruct (alive _); [|done]. simpl. apply length_insert.
Qed.

(** [retire_loop], as a fold over the ids. *)
Definition retire_step m (id : nat) : Memory T :=
  match allocations m !! id with
  | Some a => if decide (kind a = Stack) then ended m id else m
  | None => m
  end.

Lemma retire_step_ok m id : memory_ok m → memory_ok (retire_step m id).
Proof.
  intros Hm. unfold retire_step. destruct (_ !! _); [|done]. case_decide; [|done]. by apply ended_ok.
Qed.
Lemma length_retire_step m id : length (allocations (retire_step m id)) = length (allocations m).
Proof. unfold retire_step. destruct (_ !! _); [|done]. case_decide; [|done]. apply length_ended. Qed.

Lemma retire_loop_eq n : ∀ id m, memory_ok m → (id + n ≤ length (allocations m))%nat →
  retire_loop id n m = (Ok tt, foldl retire_step m (seq id n)).
Proof.
  induction n as [|n IH]; intros id m Hm Hlen; [done|]. cbn [retire_loop seq foldl].
  destruct (lookup_lt_is_Some_2 (allocations m) id) as [a Ha]; [lia|].
  rewrite mem_bind_eq. unfold allocation_at. rewrite Ha. cbn [expect]. rewrite mem_bind_eq.
  assert ((if decide (kind a = Stack) then retire_allocation id else mret tt) m = (Ok tt, retire_step m id)) as ->.
  { unfold retire_step. rewrite Ha. case_decide; [|done]. apply retire_allocation_eq; [done|lia]. }
  apply IH; [by apply retire_step_ok|]. rewrite length_retire_step. lia.
Qed.

Lemma retire_fold_ok l : ∀ m, memory_ok m → memory_ok (foldl retire_step m l).
Proof. induction l as [|id l IH]; intros m Hm; simpl; [done|]. by apply IH, retire_step_ok. Qed.

Lemma ended_lookup m id j : allocations (ended m id) !! j =
  if decide (j = id) then (λ a, if alive a then retired a else a) <$> allocations m !! id
  else allocations m !! j.
Proof.
  unfold ended. destruct (allocations m !! id) as [a|] eqn:Ha.
  - destruct (alive a) eqn:Hal; simpl.
    + case_decide as Hj; [subst j|by apply list_lookup_insert_ne].
      rewrite Hal. apply list_lookup_insert_eq. by eapply lookup_lt_Some.
    + rewrite Hal. case_decide as Hj; [by subst|done].
  - case_decide as Hj; [by subst|done].
Qed.

(** The allocations after a loop: the live stack allocations of the range are retired. *)
Definition retires (a : Allocation T) : Allocation T :=
  if decide (kind a = Stack) then if alive a then retired a else a else a.

Lemma retire_step_lookup m id j : allocations (retire_step m id) !! j =
  if decide (j = id) then retires <$> allocations m !! id else allocations m !! j.
Proof.
  unfold retire_step, retires. destruct (allocations m !! id) as [a|] eqn:Ha; simpl.
  - case_decide.
    + rewrite ended_lookup, Ha. done.
    + case_decide as Hj; [by subst|done].
  - case_decide as Hj; [by subst|done].
Qed.

Lemma retire_fold_lookup n : ∀ id m j, allocations (foldl retire_step m (seq id n)) !! j =
  if decide (id ≤ j < id + n)%nat then retires <$> allocations m !! j else allocations m !! j.
Proof.
  induction n as [|n IH]; intros id m j; simpl; [by rewrite decide_False by lia|].
  rewrite IH, retire_step_lookup. repeat case_decide; subst; try lia; done.
Qed.

Lemma runs_retire_stack m p owner :
  memory_ok m → pointer_ok p →
  runs m (retire_stack p owner) (λ _ m', ∃ id cap a w, tracked m p id cap a ∧
    kind a = Stack ∧ (owner ≤ id)%nat ∧ offset cap = 0 ∧ lower cap = 0 ∧ upper cap = Z.of_nat (length (data a)) ∧
    work m ≤ w ≤ max_work (mem_limits m) ∧ m' = ended (set_work w m) id) m.
Proof.
  intros Hm Hp. unfold retire_stack. destruct (identity_spec m p) as [Hnp Hid].
  apply runs_bind, runs_reads; [by apply work_only_refl|done|]. intros [id cap] Hok.
  apply Hid in Hok as [a Htr]. pose proof Htr as (_&_&_&Ha&_).
  apply runs_bind, (runs_allocation_at _ _ a); [done|].
  apply runs_bind, runs_when_err; [by apply work_only_refl|]. intros Hcond.
  repeat (apply orb_false_iff in Hcond as [Hcond ?]).
  repeat match goal with Hb : negb _ = false |- _ => apply negb_false_iff in Hb end.
  apply bool_decide_eq_false in Hcond. rewrite bool_decide_eq_true in *. rewrite Z.eqb_eq in *.
  pose proof (sum_list_lookup (λ a, base.size (ft_contents (fragments a))) _ _ _ Ha) as Hsz.
  cbn beta in Hsz. fold (fragments_of (allocations m)) in Hsz.
  pose proof (ok_count _ Hm). pose proof (ok_max_count _ Hm). pose proof (ok_limits _ Hm) as (?&?&?&?).
  apply runs_bind, runs_debug; [lia|].
  apply runs_bind, runs_charge; [apply Hm|lia|by apply work_only_refl|]. intros m1 Hw1 _.
  pose proof (work_only_ok _ _ Hm Hw1) as Hm1. destruct Hw1 as (w & -> & Hw).
  unfold runs. rewrite retire_allocation_eq; [|done|by eapply lookup_lt_Some].
  exists id, cap, a, w. split_and!; try done; lia.
Qed.

Lemma runs_retire_from m start :
  memory_ok m → (start ≤ length (allocations m))%nat →
  runs m (retire_from start) (λ _ m', ∃ w, work m ≤ w ≤ max_work (mem_limits m) ∧
    m' = foldl retire_step (set_work w m) (seq start (length (allocations m) - start))) m.
Proof.
  intros Hm Hstart. unfold retire_from. apply runs_bind, runs_get.
  pose proof (ok_number _ Hm). pose proof (ok_limits _ Hm) as (?&?&?&?).
  apply runs_bind, runs_debug; [lia|].
  apply runs_bind, runs_charge; [apply Hm|lia|by apply work_only_refl|]. intros m1 Hw1 _.
  pose proof (work_only_ok _ _ Hm Hw1) as Hm1. destruct Hw1 as (w & -> & Hw).
  unfold runs. rewrite retire_loop_eq; [|done|simpl; lia]. by exists w.
Qed.

(** Sealing only sets the permission of a global allocation. *)
Definition sealed m (id : nat) (readonly : bool) : Memory T :=
  match allocations m !! id with
  | Some a => set_allocations (<[id := set_writable (negb readonly) a]> (allocations m)) m
  | None => m
  end.

Lemma sealed_ok m id ro : memory_ok m → memory_ok (sealed m id ro).
Proof.
  intros Hm. unfold sealed. destruct (allocations m !! id) as [a|] eqn:Ha; [|done]. destruct Hm.
  pose proof (proj1 (Forall_lookup _ _) ok_allocs _ _ Ha) as [].
  assert (∀ j b, <[id := set_writable (negb ro) a]> (allocations m) !! j = Some b →
    ∃ b', allocations m !! j = Some b' ∧ base b = base b' ∧ length (data b) = length (data b')) as Hsame.
  { intros j b Hb. destruct (decide (j = id)) as [->|Hne].
    - rewrite list_lookup_insert_eq in Hb by (by eapply lookup_lt_Some). simplify_eq. by exists a.
    - rewrite list_lookup_insert_ne in Hb by done. by exists b. }
  pose proof (sum_list_insert (λ a, base.size (ft_contents (fragments a))) _ _ _ (set_writable (negb ro) a) Ha) as Hfr.
  pose proof (sum_list_insert (λ a, length (data a)) _ _ _ (set_writable (negb ro) a) Ha) as Hby.
  cbn beta in Hfr, Hby. simpl in Hby, Hfr.
  split; simpl; try done.
  - by apply Forall_insert.
  - intros i j b c Hij Hb Hc. destruct (Hsame _ _ Hb) as (b'&?&->&->), (Hsame _ _ Hc) as (c'&?&->&_). eauto.
  - intros i b Hb. destruct (Hsame _ _ Hb) as (b'&?&->&->). eauto.
  - unfold fragments_of in *. lia.
  - unfold bytes_of in *. lia.
  - rewrite length_insert. lia.
Qed.

Lemma runs_seal m p ro :
  memory_ok m → pointer_ok p →
  runs m (seal_global p ro) (λ q m', ∃ id cap a, tracked m p id cap a ∧ kind a = GlobalStore ∧
    m' = sealed m id ro ∧ address q = address p ∧
    capability q = Some (mkCapability (arena cap) (allocation cap) (generation cap) (lower cap)
      (upper cap) (offset cap) (cap_read cap) (negb ro))) m.
Proof.
  intros Hm Hp. unfold seal_global. destruct (identity_spec m p) as [Hnp Hid].
  apply runs_bind, runs_reads; [by apply work_only_refl|done|]. intros [id cap] Hok.
  apply Hid in Hok as [a Htr]. pose proof Htr as (Hcap&_&_&Ha&_).
  apply runs_bind, (runs_allocation_at _ _ a); [done|].
  apply runs_bind, runs_when_err; [by apply work_only_refl|]. intros Hk%negb_false_iff%bool_decide_eq_true.
  apply runs_bind, (runs_update _ _ _ a); [done|].
  apply runs_bind. rewrite Hcap. apply runs_lift_ok, runs_ret.
  exists id, cap, a. split_and!; try done. unfold sealed. by rewrite Ha.
Qed.
End lifetimes.
