(* ===== verification/MemoryTheorems.v ===== *)
(** * Properties of tracked memory

    The operations as one command language ([operation], [perform]) and the
    theorems over every sequence of them, on top of the lemmas of [MemoryOps.v],
    [MemorySafety.v] and [MemoryLifetime.v]. *)
From S2P Require Export MemoryLifetime.
Local Open Scope Z_scope.

Section properties.
Context {T : Type} `{FragmentTable T}.
Implicit Types (m : Memory T) (a : Allocation T).

(** ** One operation *)

Inductive operation :=
  | OpAllocate (host : nat → bool) (size natural align : Z)
  | OpAllocateGlobal (host : nat → bool) (size natural align : Z)
  | OpSeal (p : Pointer) (readonly : bool)
  | OpStore (host : bool) (p : Pointer) (t : ty) (v : value) (align : Z)
  | OpLoad (p : Pointer) (t : ty) (align : Z) (signature : option FunctionSignature)
  | OpSet (host : bool) (p : Pointer) (byte n align : Z)
  | OpCopy (host : nat → bool) (dst src : Pointer) (n align : Z)
  | OpUninit (host : bool) (p : Pointer) (n align : Z)
  | OpRetireStack (p : Pointer) (owner_start : nat)
  | OpRetireFrom (start : nat).

Definition ignore {A} (op : mem T A) : mem T unit := _ ← op; mret tt.

Definition perform (o : operation) : mem T unit :=
  match o with
  | OpAllocate host size natural align => ignore (allocate host size natural align)
  | OpAllocateGlobal host size natural align => ignore (allocate_global host size natural align)
  | OpSeal p readonly => ignore (seal_global p readonly)
  | OpStore host p t v align => store host p t v align
  | OpLoad p t align signature => ignore (load_with_signature p t align signature)
  | OpSet host p byte size align => mem_set host p byte size align
  | OpCopy host dst src size align => mem_copy host dst src size align
  | OpUninit host p size align => uninit host p size align
  | OpRetireStack p owner_start => retire_stack p owner_start
  | OpRetireFrom start => retire_from start
  end.

Definition word (z : Z) : Prop := 0 ≤ z < 2 ^ 64.
Definition alignment_ok (natural align : Z) : Prop :=
  is_power_of_two (Z.max align natural) = true ∧ Z.max align natural ≤ 2 ^ 63.

(** The arguments are values of their types; alignments are nonzero. *)
Definition operation_ok m (o : operation) : Prop :=
  match o with
  | OpAllocate _ size natural align | OpAllocateGlobal _ size natural align =>
      word size ∧ alignment_ok natural align
  | OpSeal p _ => pointer_ok p
  | OpStore _ p t v align => pointer_ok p ∧ 0 < align ∧ value_ok t v
  | OpLoad p t align signature => pointer_ok p ∧ 0 < align ∧ loadable t ∧ same_signature t signature
  | OpSet _ p byte size align => pointer_ok p ∧ 0 ≤ byte < 256 ∧ word size ∧ 0 < align
  | OpCopy _ dst src size align => pointer_ok dst ∧ pointer_ok src ∧ word size ∧ 0 < align
  | OpUninit _ p size align => pointer_ok p ∧ word size ∧ 0 < align
  | OpRetireStack p _ => pointer_ok p
  | OpRetireFrom start => (start ≤ length (allocations m))%nat
  end.

(** What one operation may change of the allocations: they keep their addresses, none
    comes back to life, and new ones are added at the end. *)
Definition evolves m m' : Prop :=
  mem_arena m' = mem_arena m ∧ mem_limits m' = mem_limits m ∧
  ∀ id a, allocations m !! id = Some a → ∃ a', allocations m' !! id = Some a' ∧
    base a' = base a ∧ alloc_generation a' = alloc_generation a ∧ (alive a' = true → alive a = true).

#[local] Instance evolves_preorder : PreOrder evolves.
Proof.
  split.
  - intros m. split_and!; try done. intros id a Ha. by exists a.
  - intros m1 m2 m3 (E1&E2&E3) (F1&F2&F3). split; [congruence|]. split; [congruence|].
    intros id a (a'&Ha'&?&?&?)%E3. destruct (F3 _ _ Ha') as (a''&?&?&?&?).
    exists a''. split_and!; try congruence. auto.
Qed.

Lemma evolves_work m m' : work_only m m' → evolves m m'.
Proof. intros (w & -> & _). split_and!; try done. intros id a Ha. by exists a. Qed.

Lemma evolves_overwrites id s cs m m' : overwrites id s cs m m' → evolves m m'.
Proof.
  intros (a & t & w & Ha & _ & _ & _ & -> & _). split_and!; try done.
  intros j b Hb. simpl. destruct (decide (j = id)) as [->|].
  - rewrite list_lookup_insert_eq by (by eapply lookup_lt_Some). simplify_eq. eexists. split; [done|]. done.
  - rewrite list_lookup_insert_ne by done. by exists b.
Qed.

Lemma evolves_allocated k m sz al p m' : allocated k m sz al p m' → evolves m m'.
Proof.
  intros (addr & w & _ & _ & _ & _ & -> & _). split_and!; try done. intros id a Ha. exists a. simpl.
  split; [by apply lookup_app_l_Some|done].
Qed.

Lemma evolves_ended m id : evolves m (ended m id).
Proof.
  split_and!.
  - unfold ended. destruct (_ !! _); [|done]. by destruct (alive _).
  - unfold ended. destruct (_ !! _); [|done]. by destruct (alive _).
  - intros j a Ha. rewrite ended_lookup. case_decide; [subst|by exists a].
    rewrite Ha. simpl. destruct (alive a) eqn:Hal; eexists; (split; [done|]); simpl; split_and!; try done.
    by rewrite Hal.
Qed.

Lemma evolves_retire_step m id : evolves m (retire_step m id).
Proof.
  unfold retire_step. destruct (_ !! _); [|reflexivity]. case_decide; [apply evolves_ended|reflexivity].
Qed.

Lemma evolves_retire_fold l : ∀ m, evolves m (foldl retire_step m l).
Proof.
  induction l as [|id l IH]; intros m; simpl; [reflexivity|].
  etrans; [apply evolves_retire_step|apply IH].
Qed.

Lemma evolves_sealed m id ro : evolves m (sealed m id ro).
Proof.
  unfold sealed. destruct (allocations m !! id) as [a|] eqn:Ha; [|reflexivity].
  split_and!; try done. intros j b Hb. simpl. destruct (decide (j = id)) as [->|].
  - rewrite list_lookup_insert_eq by (by eapply lookup_lt_Some). simplify_eq. eexists. split; [done|]. done.
  - rewrite list_lookup_insert_ne by done. by exists b.
Qed.

(** The cells written by each operation are well formed. *)
Lemma alloc_cells_ok a s n : alloc_ok a → (s + n ≤ length (data a))%nat → Forall cell_ok (cells_of a s n).
Proof.
  intros Hok Hlen. apply Forall_forall. intros c (i & -> & Hi%elem_of_seq)%list_elem_of_fmap.
  pose proof (alloc_length _ Hok).
  destruct (lookup_lt_is_Some_2 (data a) i) as [b Hb]; [lia|].
  destruct (lookup_lt_is_Some_2 (initialized a) i) as [f Hf]; [lia|].
  unfold cell_ok, cell_at, cell_byte, cell_flag, cell_fragment. simpl.
  rewrite (list_lookup_total_correct _ _ _ Hb), (list_lookup_total_correct _ _ _ Hf). split_and!.
  - by eapply (proj1 (Forall_lookup _ _) (alloc_bytes _ Hok)).
  - by eapply (proj1 (Forall_lookup _ _) (alloc_bytes _ Hok)).
  - by eapply (proj1 (Forall_lookup _ _) (alloc_flags _ Hok)).
  - intros g Hg. by apply (alloc_fragments _ Hok) in Hg as [].
Qed.

Lemma forgotten_ok a s n : alloc_ok a → (s + n ≤ length (data a))%nat → Forall cell_ok (forgotten a s n).
Proof.
  intros Hok Hlen. unfold forgotten. apply Forall_fmap. eapply Forall_impl; [by apply alloc_cells_ok|].
  intros c (Hb & _). split; [done|]. split; [by left|done].
Qed.

Definition patch_ok (p : patch) : Prop :=
  (∀ b, p.1 = Some b → 0 ≤ b < 256) ∧ ∀ f, p.2 = Some f → fragment_ok f.

Lemma segment_ok t v : value_ok t v → is_checked v = false → Forall patch_ok (segment t v).
Proof.
  intros Hv Hc. apply Forall_forall. intros c (i & Hi)%list_elem_of_lookup. unfold segment in Hi.
  rewrite list_lookup_imap in Hi.
  destruct (to_le_bytes (byte_size t) (value_bits t v) !! i) as [b|] eqn:Hb; simplify_eq/=. split; simpl.
  - intros ? [= <-]. by eapply (proj1 (Forall_lookup _ _) (to_le_bytes_range _ _)).
  - intros f Hf. destruct v; simplify_eq/=; apply Hv.
Qed.

Lemma encoded_ok t v : value_ok t v → Forall patch_ok (encoded t v).
Proof.
  intros Hv. destruct (is_checked v) eqn:Hc; [|rewrite encoded_segment by done; by apply segment_ok].
  destruct v as [|c fl| |]; try discriminate Hc. destruct Hv as (i & -> & Hi & Hcv). cbn [encoded].
  apply Forall_app. split; [by apply segment_ok|]. apply Forall_app. split; [by apply segment_ok|].
  by apply Forall_replicate.
Qed.

Lemma patched_ok a s ps : alloc_ok a → (s + length ps ≤ length (data a))%nat → Forall patch_ok ps →
  Forall cell_ok (patched a s ps).
Proof.
  intros Hok Hlen Hps. apply Forall_lookup. intros i c. unfold patched.
  rewrite lookup_zip_with_Some. intros (old & p & -> & Hold & Hp).
  pose proof (proj1 (Forall_lookup _ _) (alloc_cells_ok a s _ Hok Hlen) _ _ Hold) as (?&?&?).
  pose proof (proj1 (Forall_lookup _ _) Hps _ _ Hp) as [Hb Hf].
  destruct p as [[b|] f]; simpl in *; (split; [|split]); simpl; auto.
Qed.

(** Every operation runs without a panic, keeps the invariant, and on failure has
    changed nothing but the work counter. *)
Lemma perform_runs m o : memory_ok m → operation_ok m o →
  runs m (perform o) (λ _ m', memory_ok m' ∧ evolves m m') m.
Proof.
  intros Hm Ho. destruct o; simpl in Ho |- *.
  - destruct Ho as [Hw [Hp Hb]]. apply runs_bind. eapply runs_mono; [by apply runs_allocate|].
    intros p m' Hal. apply runs_ret. split; [eapply allocated_ok; [done|apply Hw|done]|by eapply evolves_allocated].
  - destruct Ho as [Hw [Hp Hb]]. apply runs_bind. eapply runs_mono; [by apply runs_allocate_global|].
    intros p m' Hal. apply runs_ret. split; [eapply allocated_ok; [done|apply Hw|done]|by eapply evolves_allocated].
  - apply runs_bind. eapply runs_mono; [by apply runs_seal|]. intros q m' (id & cap & a & _ & _ & -> & _).
    apply runs_ret. split; [by apply sealed_ok|apply evolves_sealed].
  - destruct Ho as (Hp & Hal & Hv). eapply runs_mono; [by apply runs_store|].
    intros [] m' (id & s & a & Hat & Hov). split; [|by eapply evolves_overwrites].
    destruct (at_range_alloc _ _ _ _ _ _ _ _ Hm Hat) as (_ & Hok & Hlen).
    eapply overwrites_ok; [done| |done]. apply patched_ok; [done| |by apply encoded_ok].
    rewrite length_encoded by done. by rewrite Nat2Z.id in Hlen.
  - destruct Ho as (Hp & Hal & Ht & Hs). apply runs_bind. eapply runs_mono; [by apply runs_load|].
    intros v m' [Hw _]. apply runs_ret. split; [by eapply work_only_ok|by apply evolves_work].
  - destruct Ho as (Hp & Hb & [Hn _] & Hal). eapply runs_mono; [by apply runs_mem_set|].
    intros [] m'. destruct (n =? 0); [intros ->; split; [done|reflexivity]|].
    intros (id & s & a & Hat & Hov). split; [|by eapply evolves_overwrites].
    eapply overwrites_ok; [done| |done]. apply Forall_replicate. split; [done|]. split; [by right|done].
  - destruct Ho as (Hd & Hs & [Hn _] & Hal). eapply runs_mono; [by apply runs_mem_copy|].
    intros [] m'. destruct (n =? 0); [intros ->; split; [done|reflexivity]|].
    intros (sid & ss & sa & did & ds & da & Hats & Hatd & _ & Hov). split; [|by eapply evolves_overwrites].
    destruct (at_range_alloc _ _ _ _ _ _ _ _ Hm Hats) as (_ & Hok & Hlen).
    eapply overwrites_ok; [done| |done]. by apply alloc_cells_ok.
  - destruct Ho as (Hp & [Hn _] & Hal). eapply runs_mono; [by apply runs_uninit|].
    intros [] m' (id & s & a & Hat & Hov). split; [|by eapply evolves_overwrites].
    destruct (at_range_alloc _ _ _ _ _ _ _ _ Hm Hat) as (_ & Hok & Hlen).
    eapply overwrites_ok; [done| |done]. by apply forgotten_ok.
  - eapply runs_mono; [by apply runs_retire_stack|].
    intros [] m' (id & cap & a & w & _ & _ & _ & _ & _ & _ & Hw & ->).
    assert (work_only m (set_work w m)) as Hwo by (by exists w).
    split; [by apply ended_ok; eapply work_only_ok|]. etrans; [by apply evolves_work|apply evolves_ended].
  - eapply runs_mono; [by apply runs_retire_from|]. intros [] m' (w & Hw & ->).
    assert (work_only m (set_work w m)) as Hwo by (by exists w).
    split; [by apply retire_fold_ok; eapply work_only_ok|].
    etrans; [by apply evolves_work|apply evolves_retire_fold].
Qed.

(** ** Address arithmetic *)

Definition displacement (s : GepStep.t * const_value) : Z :=
  match s.1 with GepStep.Field off => off | GepStep.Stride stride => denote s.2 * stride end.
Definition total (steps : list (GepStep.t * const_value)) : Z := foldr (λ s z, displacement s + z) 0 steps.

(** Steps whose intermediate products fit 128 bits and whose intermediate addresses
    fit the address space. *)
Definition step_fits (s : GepStep.t * const_value) : bool :=
  match s.1 with
  | GepStep.Field _ => true
  | GepStep.Stride _ => in_s 128 (denote s.2) && in_s 128 (displacement s)
  end.
Fixpoint path_ok (addr : Z) (steps : list (GepStep.t * const_value)) : bool :=
  match steps with
  | [] => true
  | s :: steps =>
      step_fits s && in_u 64 (addr + displacement s) && path_ok (addr + displacement s) steps
  end.

(** Indices are integers, field offsets and strides are machine words. *)
Definition gep_step_ok (s : GepStep.t * const_value) : Prop :=
  match s.1 with
  | GepStep.Field off => word off
  | GepStep.Stride stride => word stride ∧
      match s.2 with ConstValue.I z => in_s 128 z = true | ConstValue.U _ => True | _ => False end
  end.

Lemma gep_delta_spec s : gep_step_ok s →
  gep_delta s.1 s.2 = if step_fits s then Ok (displacement s)
                      else Err (Fault.Trap MemoryTrap.AddressOverflow).
Proof.
  destruct s as [[stride|off] ix]; simpl; unfold step_fits, displacement; simpl; [|done].
  intros [_ Hix]. destruct ix as [|z|z|]; try done; simpl; unfold checked_s.
  - rewrite Hix. simpl. by destruct (in_s 128 (z * stride)).
  - destruct (in_s 128 z); simpl; [|done]. by destruct (in_s 128 (z * stride)).
Qed.

Lemma gep_loop_spec b steps : ∀ off, word b → word (b + off) → Forall gep_step_ok steps →
  gep_loop b off steps =
    if path_ok (b + off) steps then Ok (off + total steps)
    else Err (Fault.Trap MemoryTrap.AddressOverflow).
Proof.
  unfold word. induction steps as [|s steps IH]; intros off Hb Hoff Hs; simpl; [by rewrite Z.add_0_r|].
  apply Forall_cons in Hs as [Hs Hsteps]. destruct s as [step ix].
  pose proof (gep_delta_spec (step, ix) Hs) as Hd. cbn [fst snd] in Hd. rewrite Hd.
  destruct (step_fits (step, ix)) eqn:Hfit; cbn [andb mbind result_bind]; [|done].
  set (d := displacement (step, ix)) in *. rewrite Z.add_assoc.
  destruct (in_u 64 (b + off + d)) eqn:Hu; cbn [andb].
  - apply in_u_spec in Hu.
    rewrite (proj2 (checked_s_Some 128 (off + d) _)) by (split; [done|change (128 - 1) with 127; lia]). cbn [ok_or mbind result_bind].
    rewrite Z.add_assoc.
    rewrite (proj2 (checked_s_Some 128 (b + off + d) _)) by (split; [done|change (128 - 1) with 127; lia]). cbn [ok_or mbind result_bind].
    rewrite (proj2 (in_u_spec 64 _)) by lia. cbn [negb].
    rewrite IH; [|done|lia|done]. by rewrite <- !Z.add_assoc.
  - destruct (checked_s 128 (off + d)) as [o|] eqn:Ho; cbn [ok_or mbind result_bind]; [|done].
    apply checked_s_Some in Ho as [-> _]. rewrite Z.add_assoc.
    destruct (checked_s 128 (b + off + d)) as [o|] eqn:Ho; cbn [ok_or mbind result_bind]; [|done].
    apply checked_s_Some in Ho as [-> _]. by rewrite Hu.
Qed.

Definition moved_to (cap : Capability) (off : Z) : Capability :=
  mkCapability (arena cap) (allocation cap) (generation cap) (lower cap) (upper cap) off
    (cap_read cap) (cap_write cap).

Lemma tracked_bounds m p id cap a : memory_ok m → pointer_ok p → tracked m p id cap a →
  0 < base a ∧ 0 ≤ offset cap ∧ base a + Z.of_nat (length (data a)) < 2 ^ 64 ∧ 0 ≤ lower cap.
Proof.
  intros Hm [_ Hp] (Hcap&_&_&Ha&_&_&Hlo&_). rewrite Hcap in Hp.
  pose proof (ok_below _ Hm _ _ Ha). pose proof (ok_next _ Hm).
  assert (0 < base a) by (eapply alloc_base, Forall_lookup_1; [apply Hm|done]). lia.
Qed.

Lemma gep_eq m p plan indices : memory_ok m → pointer_ok p → indices ≠ [] →
  Forall gep_step_ok (zip plan indices) →
  gep m p plan indices =
    '(_, cap) ← identity m p;
    let steps := zip plan indices in
    if negb (path_ok (address p) steps) then Err (Fault.Trap MemoryTrap.AddressOverflow) else
    if negb ((lower cap <=? offset cap + total steps) && (offset cap + total steps <=? upper cap))
    then Err (Fault.Trap MemoryTrap.OutOfBounds)
    else Ok (mkPointer (address p + total steps) (Some (moved_to cap (offset cap + total steps)))).
Proof.
  intros Hm Hp Hne Hs. unfold gep. destruct indices as [|ix indices]; [done|].
  destruct (identity m p) as [[id cap]| |] eqn:Hid; cbn [mbind result_bind]; try done.
  apply identity_spec in Hid as [a Htr].
  destruct (tracked_bounds _ _ _ _ _ Hm Hp Htr) as (Hb & Ho & Hend & Hlow).
  pose proof Htr as (_&_&_&_&_&_&Hlo&Hup&_&Haddr&_).
  set (steps := zip plan (ix :: indices)) in *.
  replace (address p - offset cap) with (base a) by lia.
  rewrite gep_loop_spec by (unfold word; lia || done). rewrite <- Haddr.
  destruct (path_ok (address p) steps) eqn:Hpath; cbn [negb mbind result_bind]; [|done].
  set (new := offset cap + total steps).
  destruct (checked_u 64 new) as [n|] eqn:Hn; cbn [ok_or mbind result_bind].
  - apply checked_u_Some in Hn as [-> Hn].
    destruct (Z.ltb_spec new (lower cap)), (Z.ltb_spec (upper cap) new), (Z.leb_spec (lower cap) new),
      (Z.leb_spec new (upper cap)); try lia; cbn [orb andb negb]; try done.
    rewrite (proj2 (checked_u_Some 64 _ (base a + new))) by (split; [done|lia]). cbn [expect mbind result_bind].
    assert (base a + new = address p + total steps) as -> by (unfold new; lia). done.
  - apply checked_u_None in Hn.
    destruct (Z.leb_spec (lower cap) new), (Z.leb_spec new (upper cap)); try lia; done.
Qed.

(** ** Comparison *)

Lemma same_address m p q id cap a id' cap' a' : memory_ok m → pointer_ok p → pointer_ok q →
  tracked m p id cap a → tracked m q id' cap' a' →
  address p = address q ↔ id = id' ∧ offset cap = offset cap'.
Proof.
  intros Hm Hp Hq Ht Ht'. pose proof (tracked_bounds _ _ _ _ _ Hm Hp Ht). pose proof (tracked_bounds _ _ _ _ _ Hm Hq Ht').
  pose proof Ht as (_&_&_&Ha&_&_&Hlo&Hup&_&Haddr&_). pose proof Ht' as (_&_&_&Ha'&_&_&Hlo'&Hup'&_&Haddr'&_).
  split.
  - intros Heq. destruct (Nat.lt_trichotomy id id') as [Hlt|[->|Hlt]].
    + pose proof (ok_placed _ Hm _ _ _ _ Hlt Ha Ha'). lia.
    + simplify_eq. split; [done|lia].
    + pose proof (ok_placed _ Hm _ _ _ _ Hlt Ha' Ha). lia.
  - intros [-> Hoff]. simplify_eq. lia.
Qed.

(** ** Cells after a write *)

(** [m'] has the cells of [m], except that those of allocation [id] from [s] are [cs]. *)
Definition cells_written id s (cs : list cell) m m' : Prop :=
  ∀ j b, allocations m !! j = Some b → ∃ b', allocations m' !! j = Some b' ∧
    length (data b') = length (data b) ∧ alive b' = alive b ∧ base b' = base b ∧
    ∀ i, (i < length (data b))%nat →
      cell_at b' i = if decide (j = id ∧ s ≤ i < s + length cs)%nat
                     then default (cell_at b i) (cs !! (i - s)%nat) else cell_at b i.

Lemma cell_at_lookup a i b f : data a !! i = Some b → initialized a !! i = Some f →
  cell_at a i = (b, f, ft_contents (fragments a) !! i).
Proof.
  intros Hb Hf. unfold cell_at.
  by rewrite (list_lookup_total_correct _ _ _ Hb), (list_lookup_total_correct _ _ _ Hf).
Qed.

Lemma overwrites_cells id s cs m m' : memory_ok m → overwrites id s cs m m' → cells_written id s cs m m'.
Proof.
  intros Hm (a & t & w & Ha & Hlen & Ht & _ & -> & _) j b Hb. simpl.
  assert (alloc_ok b) as Hok by (eapply Forall_lookup_1; [apply Hm|done]). pose proof (alloc_length _ Hok) as Hini.
  destruct (decide (j = id)) as [->|Hne].
  2:{ rewrite list_lookup_insert_ne by done. exists b. split_and!; try done.
      intros i Hi. rewrite decide_False; [done|naive_solver]. }
  assert (a = b) as -> by congruence. rewrite list_lookup_insert_eq by (by eapply lookup_lt_Some).
  eexists. split; [done|]. split; [simpl; by rewrite length_splice by (by rewrite length_fmap)|].
  split; [done|]. split; [done|]. intros i Hi. case_decide as Hin.
  - destruct Hin as [_ Hin]. destruct (lookup_lt_is_Some_2 cs (i - s)) as [c Hc]; [lia|].
    rewrite Hc. simpl. replace i with (s + (i - s))%nat by lia. by eapply overwritten_cell.
  - destruct (lookup_lt_is_Some_2 (data b) i Hi) as [x Hx].
    destruct (lookup_lt_is_Some_2 (initialized b) i) as [f Hf]; [lia|].
    rewrite (cell_at_lookup b i x f) by done. rewrite (cell_at_lookup _ i x f); simpl.
    + rewrite Ht. unfold with_fragments. rewrite length_fmap.
      destruct (in_range_spec s (s + length cs) i); [|done]. naive_solver.
    + rewrite lookup_splice by (by rewrite length_fmap). rewrite length_fmap, decide_False; [done|naive_solver].
    + rewrite lookup_splice by (rewrite length_fmap; lia). rewrite length_fmap, decide_False; [done|naive_solver].
Qed.

(** ** Every sequence of operations *)

Inductive reachable (next_arena : Z) (limits : MemoryLimits) : Memory T → Prop :=
  | reachable_new : reachable next_arena limits (new next_arena limits).1
  | reachable_step m o : reachable next_arena limits m → operation_ok m o →
      reachable next_arena limits (perform o m).2.

Inductive steps : Memory T → Memory T → Prop :=
  | steps_refl m : steps m m
  | steps_step m o m' : operation_ok m o → steps (perform o m).2 m' → steps m m'.

Lemma new_ok next_arena limits : limits_bounded limits → memory_ok (new (T := T) next_arena limits).1.
Proof.
  intros Hl. pose proof Hl as (?&?&?&?). split; simpl; try done; try lia.
Qed.

Lemma perform_ok m o : memory_ok m → operation_ok m o →
  (perform o m).1 ≠ Panic ∧ memory_ok (perform o m).2 ∧ evolves m (perform o m).2 ∧
  ∀ e, (perform o m).1 = Err e → work_only m (perform o m).2.
Proof.
  intros Hm Ho. pose proof (perform_runs m o Hm Ho) as Hr. unfold runs in Hr.
  destruct (perform o m) as [[[]|e|] m']; simpl in *.
  - destruct Hr as [? ?]. split_and!; done.
  - split_and!; try done; [by eapply work_only_ok|by apply evolves_work].
  - done.
Qed.

Lemma reachable_ok next_arena limits m : limits_bounded limits → reachable next_arena limits m → memory_ok m.
Proof. intros Hl. induction 1; [by apply new_ok|]. by apply perform_ok. Qed.

Lemma steps_ok m m' : memory_ok m → steps m m' → memory_ok m' ∧ evolves m m'.
Proof.
  intros Hm Hs. induction Hs as [m|m o m' Ho Hs IH]; [done|].
  destruct (perform_ok m o Hm Ho) as (_ & Hok & Hev & _). destruct (IH Hok). split; [done|]. by etrans.
Qed.

(** A pointer into a dead allocation of this arena. *)
Lemma dead_identity m p cap a :
  capability p = Some cap → address p ≠ 0 → arena cap = mem_arena m →
  allocations m !! allocation cap = Some a → alive a = false →
  identity m p = Err (Fault.Trap MemoryTrap.ExpiredAllocation).
Proof.
  intros Hcap Hnz Har Ha Hdead. unfold identity. rewrite (proj2 (Z.eqb_neq _ _)) by done. rewrite Hcap.
  cbn [ok_or mbind result_bind]. rewrite (proj2 (Z.eqb_eq _ _)) by done. cbn [negb]. rewrite Ha.
  cbn [ok_or mbind result_bind]. by rewrite Hdead.
Qed.
End properties.

(** A concrete memory: a 16-byte and an 8-byte allocation, the first holding a pointer
    to the second. *)
Definition sample_new : Memory (gmap nat Fragment) := (new 1 default_memory_limits).1.
Definition sample_first : Memory (gmap nat Fragment) :=
  (perform (OpAllocate (λ _, true) 16 8 8) sample_new).2.
Definition sample_memory : Memory (gmap nat Fragment) :=
  (perform (OpAllocate (λ _, true) 8 1 4) sample_first).2.
Definition sample_pointer : Pointer := mkPointer 0x1000 (Some (mkCapability 1 0 0 0 16 0 true true)).
Definition sample_target : Pointer := mkPointer 4116 (Some (mkCapability 1 1 0 0 8 0 true true)).
Definition sample_stored : Memory (gmap nat Fragment) :=
  (perform (OpStore true sample_pointer (Ty.Ptr Ty.I8) (Value.Pointer sample_target) 8) sample_memory).2.

Ltac concrete := first [done|lia|vm_compute; done|vm_compute; intuition congruence].

Lemma sample_reachable : reachable 1 default_memory_limits sample_memory.
Proof.
  unfold sample_memory, sample_first. apply reachable_step; [apply reachable_step; [apply reachable_new|]|];
    unfold operation_ok, word, alignment_ok; split_and!; concrete.
Qed.
Lemma default_limits_bounded : limits_bounded default_memory_limits.
Proof. unfold limits_bounded. simpl. lia. Qed.
Lemma sample_ok : memory_ok sample_memory.
Proof. apply (reachable_ok 1 default_memory_limits); [apply default_limits_bounded|apply sample_reachable]. Qed.
Lemma sample_pointer_ok : pointer_ok sample_pointer ∧ pointer_ok sample_target.
Proof. unfold pointer_ok. simpl. split_and!; done || lia. Qed.

Section theorems.
Context {T : Type} `{FragmentTable T}.
Implicit Types (m : Memory T) (a : Allocation T).

(** C2: in every memory an interpreter can reach, every operation on well-typed
    arguments runs without a panic (no index out of range, no arithmetic overflow, no
    unreachable branch), keeps the invariant of the memory, keeps every allocation where
    it is, and when it fails has changed nothing but the work counter. *)
Theorem memory_operations_safe next_arena limits m o
    (Hl : limits_bounded limits) (Hr : reachable next_arena limits m) (Ho : operation_ok m o) :
  (perform o m).1 ≠ Panic ∧ memory_ok (perform o m).2 ∧ evolves m (perform o m).2 ∧
  ∀ e, (perform o m).1 = Err e → ∃ w, (perform o m).2 = set_work w m.
Proof.
  destruct (perform_ok m o) as (? & ? & ? & Hfail); [by eapply reachable_ok|done|].
  split_and!; try done. intros e He. destruct (Hfail e He) as (w & Hw & _). by exists w.
Qed.

(** C19: a store writes exactly the encoding of the value into the bytes the
    pointer designates, one pointer fragment per byte for a pointer, and leaves every
    other cell of every allocation as it was; the padding of a pair keeps its bytes. *)
Theorem store_exact host m p t v al m'
    (Hm : memory_ok m) (Hp : pointer_ok p) (Hal : 0 < al) (Hv : value_ok t v)
    (Hs : store host p t v al m = (Ok tt, m')) :
  ∃ id s a, at_range m p (Z.of_nat (stored_size t v)) al true id s a ∧
    cells_written id s (patched a s (encoded t v)) m m'.
Proof.
  pose proof (runs_store m host p t v al Hm Hp Hal Hv) as Hr. unfold runs in Hr. rewrite Hs in Hr.
  destruct Hr as (id & s & a & Hat & Ho). exists id, s, a. split; [done|]. by apply overwrites_cells.
Qed.

(** C18: what was stored is what is loaded back at the same type (integers, booleans,
    floats, checked pairs, data and function pointers with their provenance): a load
    fails only for want of work or of the permission to read. *)
Theorem store_load host m p t v al m'
    (Hm : memory_ok m) (Hp : pointer_ok p) (Hal : 0 < al) (Hv : value_ok t v)
    (Hs : store host p t v al m = (Ok tt, m')) :
  match load_with_signature p t al None m' with
  | (Ok w, _) => w = v
  | (Err e, _) => e = Fault.Limit MemoryResource.Work (max_work (mem_limits m)) ∨
                  e = Fault.Trap MemoryTrap.PermissionDenied
  | (Panic, _) => False
  end.
Proof.
  pose proof (runs_store m host p t v al Hm Hp Hal Hv) as Hr. unfold runs in Hr. rewrite Hs in Hr.
  apply (store_load_eq m); try assumption. destruct (perform_ok m (OpStore host p t v al)) as (_ & Hok & _); [done..|].
  simpl in Hok. by rewrite Hs in Hok.
Qed.

(** C32: a load changes nothing but the work counter, and a loaded value has the type
    asked for; all its bytes were initialized; and a loaded capability was stored there
    whole, fragment by fragment, so that no sequence of bytes forges one. *)
Theorem load_typed m p t al sig
    (Hm : memory_ok m) (Hp : pointer_ok p) (Hal : 0 < al) (Ht : loadable t)
    (Hsig : same_signature t sig) :
  match load_with_signature p t al sig m with
  | (Ok v, m') => (∃ w, m' = set_work w m) ∧ ∃ id s a,
      at_range m p (Z.of_nat (load_size t)) al false id s a ∧ load_result t v s a
  | (Err _, m') => ∃ w, m' = set_work w m
  | (Panic, _) => False
  end.
Proof.
  pose proof (runs_load m p t al sig Hm Hp Hal Ht Hsig) as Hr. unfold runs in Hr.
  destruct (load_with_signature p t al sig m) as [[v|e|] m'].
  - destruct Hr as [(w & Hw & _) Hr]. split; [by exists w|done].
  - destruct Hr as (w & Hw & _). by exists w.
  - done.
Qed.

(** C31: a copy of non-overlapping ranges moves bytes, initialization and pointer
    fragments cell by cell, so that provenance survives it and uninitialized bytes stay
    so; every cell outside the destination is unchanged. *)
Theorem copy_exact host m dst src n al m'
    (Hm : memory_ok m) (Hd : pointer_ok dst) (Hs : pointer_ok src) (Hal : 0 < al) (Hn : 0 < n)
    (Hc : mem_copy host dst src n al m = (Ok tt, m')) :
  ∃ sid ss sa did ds da, at_range m src n al false sid ss sa ∧ at_range m dst n al true did ds da ∧
    (sid = did → ss + Z.to_nat n ≤ ds ∨ ds + Z.to_nat n ≤ ss)%nat ∧
    cells_written did ds (cells_of sa ss (Z.to_nat n)) m m'.
Proof.
  assert (0 ≤ n) as Hn0 by lia.
  pose proof (runs_mem_copy m host dst src n al Hm Hd Hs Hal Hn0) as Hr. unfold runs in Hr.
  rewrite Hc, (proj2 (Z.eqb_neq n 0)) in Hr by lia.
  destruct Hr as (sid & ss & sa & did & ds & da & ? & ? & ? & Ho). exists sid, ss, sa, did, ds, da.
  split_and!; try done. by apply overwrites_cells.
Qed.

(** C28: when a call returns, every stack allocation made since its frame began is
    dead, and stays dead: whatever runs afterwards, an access through a pointer into
    one traps as expired.  Globals and the allocations of earlier frames keep their
    contents. *)
Theorem expiry_final m start m1 m2
    (Hm : memory_ok m) (Hstart : (start ≤ length (allocations m))%nat)
    (Hret : retire_from start m = (Ok tt, m1)) (Hsteps : steps m1 m2) :
  (∀ p cap a, capability p = Some cap → address p ≠ 0 → arena cap = mem_arena m →
     allocations m !! allocation cap = Some a → kind a = Stack → (start ≤ allocation cap)%nat →
     identity m2 p = Err (Fault.Trap MemoryTrap.ExpiredAllocation) ∧
     ∀ n al wr, access m2 p n al wr = Err (Fault.Trap MemoryTrap.ExpiredAllocation)) ∧
  (∀ id a, allocations m !! id = Some a → (id < start)%nat ∨ kind a = GlobalStore →
     allocations m1 !! id = Some a).
Proof.
  pose proof (runs_retire_from m start Hm Hstart) as Hr. unfold runs in Hr. rewrite Hret in Hr.
  destruct Hr as (w & Hw & Hm1).
  assert (∀ j, allocations m1 !! j = if decide (start ≤ j < length (allocations m))%nat
    then retires <$> allocations m !! j else allocations m !! j) as Hlook.
  { intros j. rewrite Hm1, retire_fold_lookup. simpl. by replace (start + _)%nat with (length (allocations m)) by lia. }
  assert (memory_ok m1) as Hok1.
  { rewrite Hm1. apply retire_fold_ok. eapply work_only_ok; [done|]. by exists w. }
  destruct (steps_ok m1 m2 Hok1 Hsteps) as [_ (Har & _ & Hev)].
  split.
  - intros p cap a Hcap Hnz Harena Ha Hk Hst.
    assert (∃ a1, allocations m1 !! allocation cap = Some a1 ∧ alive a1 = false) as (a1 & Ha1 & Hdead).
    { rewrite Hlook. pose proof (lookup_lt_Some _ _ _ Ha). rewrite decide_True, Ha by lia. simpl.
      exists (retires a). split; [done|]. unfold retires. rewrite decide_True by done.
      by destruct (alive a) eqn:?. }
    destruct (Hev _ _ Ha1) as (a2 & Ha2 & _ & _ & Hal).
    assert (mem_arena m1 = mem_arena m) as Har1.
    { rewrite Hm1. by rewrite (proj1 (evolves_retire_fold _ (set_work w m))). }
    assert (identity m2 p = Err (Fault.Trap MemoryTrap.ExpiredAllocation)) as Hid.
    { eapply dead_identity; [done|done|congruence|done|]. destruct (alive a2); [|done].
      rewrite Hal in Hdead by done. done. }
    split; [done|]. intros n al wr. unfold access. by rewrite Hid.
  - intros id a Ha Hor. rewrite Hlook. case_decide as Hin; [|done]. rewrite Ha. simpl. unfold retires.
    destruct Hor as [|Hk]; [lia|]. rewrite decide_False; [done|congruence].
Qed.

(** C33: a fresh allocation is disjoint from every earlier one, aligned as asked, all
    uninitialized and owned through a capability over exactly its bytes; an
    allocation fails without effect when a limit is reached. *)
Theorem allocation_fresh host m size natural al p m'
    (Hm : memory_ok m) (Hsz : word size) (Hal : alignment_ok natural al)
    (Ha : allocate host size natural al m = (Ok p, m')) :
  allocated Stack m size (Z.max al natural) p m' ∧
  ∀ id a, allocations m !! id = Some a →
    allocations m' !! id = Some a ∧ base a + Z.of_nat (length (data a)) < address p.
Proof.
  destruct Hal as [Hp2 Hle].
  pose proof (runs_allocate m host size natural al Hm Hsz Hp2 Hle) as Hr. unfold runs in Hr. rewrite Ha in Hr.
  split; [done|]. intros id a Hid. destruct Hr as (addr & w & Haddr & _ & _ & -> & -> & _). simpl.
  split; [by apply lookup_app_l_Some|]. pose proof (ok_below _ Hm _ _ Hid). lia.
Qed.

(** Address arithmetic is exact: it fails when a product leaves 128 bits, an
    intermediate address leaves the address space or the result leaves the bounds of
    the capability, and otherwise moves the pointer by the sum of the displacements,
    with the same capability, still designating the same live allocation. *)
Theorem gep_exact m p plan indices
    (Hm : memory_ok m) (Hp : pointer_ok p) (Hne : indices ≠ [])
    (Hs : Forall gep_step_ok (zip plan indices)) :
  let d := total (zip plan indices) in
  gep m p plan indices ≠ Panic ∧
  ∀ q, gep m p plan indices = Ok q ↔ ∃ id cap a, tracked m p id cap a ∧
    path_ok (address p) (zip plan indices) = true ∧ lower cap ≤ offset cap + d ≤ upper cap ∧
    q = mkPointer (address p + d) (Some (moved_to cap (offset cap + d))) ∧
    tracked m q id (moved_to cap (offset cap + d)) a.
Proof.
  intros d. rewrite gep_eq by done. destruct (identity_spec m p) as [Hnp Hid].
  destruct (identity m p) as [[id cap]|e|] eqn:Hi; cbn [mbind result_bind]; [|split; [done|]|done].
  2:{ intros q. split; [done|]. intros (id & cap & a & Htr & _).
      assert (Err e = Ok (id, cap)) by (apply Hid; by exists a). done. }
  destruct (proj1 (Hid id cap) eq_refl) as (a & Htr).
  destruct (tracked_bounds _ _ _ _ _ Hm Hp Htr) as (Hb & Ho & Hend & Hlow). fold d.
  assert (∀ id' cap' a', tracked m p id' cap' a' → id' = id ∧ cap' = cap ∧ a' = a) as Huniq.
  { intros id' cap' a' (?&?&?&?&_). destruct Htr as (?&?&?&?&_). by simplify_eq. }
  destruct (path_ok (address p) (zip plan indices)) eqn:Hpath; cbn [negb].
  2:{ split; [done|]. intros q. split; [done|]. by intros (? & ? & ? & _ & ? & _). }
  destruct (Z.leb_spec (lower cap) (offset cap + d)), (Z.leb_spec (offset cap + d) (upper cap)); cbn [andb negb].
  2-4: split; [done|]; intros q; split; [done|];
    intros (? & ? & ? & (-> & -> & ->)%Huniq & _ & ? & _); lia.
  split; [done|]. intros q. split.
  - intros [= <-]. exists id, cap, a. split; [done|]. split; [done|]. split; [lia|]. split; [done|].
    destruct Htr as (?&?&?&?&?&?&?&?&?&?&?). split_and!; simpl; done || lia.
  - by intros (? & ? & ? & (-> & -> & ->)%Huniq & _ & _ & -> & _).
Qed.

(** Comparison of live pointers agrees with their addresses: equality is
    equality of addresses (also across allocations), the difference of two pointers of
    one allocation is the difference of their addresses, and no comparison panics. *)
Theorem pointer_comparison_exact m p q
    (Hm : memory_ok m) (Hp : pointer_ok p) (Hq : pointer_ok q) :
  equal m p q ≠ Panic ∧ difference m p q ≠ Panic ∧
  (∀ b, equal m p q = Ok b → b = (address p =? address q)) ∧
  (∀ d, difference m p q = Ok d → d = address p - address q) ∧
  (∀ c, compare_order m p q = Ok c → c = Z.compare (address p) (address q)).
Proof.
  destruct (identity_spec m p) as [Hnp Hidp]. destruct (identity_spec m q) as [Hnq Hidq].
  assert (difference m p q ≠ Panic ∧ ∀ d, difference m p q = Ok d → d = address p - address q) as [Hd1 Hd2].
  { unfold difference. destruct (identity m p) as [[id cap]| |] eqn:Hip; cbn [mbind result_bind]; try done.
    destruct (identity m q) as [[id' cap']| |] eqn:Hiq; cbn [mbind result_bind]; try done.
    destruct (proj1 (Hidp id cap) eq_refl) as (a & Htr). destruct (proj1 (Hidq id' cap') eq_refl) as (a' & Htr').
    destruct (Nat.eqb_spec id id') as [<-|]; simpl; [|done]. destruct (_ =? _); simpl; [|done].
    split; [done|]. intros d [= <-].
    destruct Htr as (_&_&_&Ha&_&_&_&_&_&?&_). destruct Htr' as (_&_&_&Ha'&_&_&_&_&_&?&_).
    rewrite Ha in Ha'. injection Ha' as <-. lia. }
  split_and!; [|done| |done|].
  - unfold equal. destruct (address p =? 0), (address q =? 0); simpl; try done.
    + by destruct (identity m q) as [[]| |].
    + by destruct (identity m p) as [[]| |].
    + destruct (identity m p) as [[]| |]; simpl; try done. by destruct (identity m q) as [[]| |].
  - intros b. unfold equal. destruct (Z.eqb_spec (address p) 0), (Z.eqb_spec (address q) 0); simpl.
    + intros [= <-]. symmetry. apply Z.eqb_eq. lia.
    + destruct (identity m q) as [[]| |]; simpl; try done. intros [= <-]. symmetry. apply Z.eqb_neq. lia.
    + destruct (identity m p) as [[]| |]; simpl; try done. intros [= <-]. symmetry. apply Z.eqb_neq. lia.
    + destruct (identity m p) as [[id cap]| |] eqn:Hip; simpl; try done.
      destruct (identity m q) as [[id' cap']| |] eqn:Hiq; simpl; try done. intros [= <-].
      destruct (proj1 (Hidp id cap) eq_refl) as (a & Htr). destruct (proj1 (Hidq id' cap') eq_refl) as (a' & Htr').
      pose proof (same_address m p q id cap a id' cap' a' Hm Hp Hq Htr Htr') as Hsame.
      pose proof Htr as (_&Hc&_&Ha&_&Hg&_). pose proof Htr' as (_&Hc'&_&Ha'&_&Hg'&_).
      apply Bool.eq_true_iff_eq. rewrite bool_decide_eq_true, Z.eqb_eq. rewrite Hsame, Hc, Hc'. split.
      * by intros [= -> _ ->].
      * intros [-> ->]. rewrite Ha in Ha'. injection Ha' as <-. by rewrite <- Hg, <- Hg'.
  - intros c. unfold compare_order. destruct (difference m p q) as [d| |] eqn:Hd; simpl; try done.
    intros [= <-]. rewrite (Hd2 d eq_refl). symmetry. apply Z.compare_sub.
Qed.
End theorems.

(** ** Witnesses *)

Lemma memory_operations_safe_witness :
  (perform (OpStore true sample_pointer (Ty.Ptr Ty.I8) (Value.Pointer sample_target) 8) sample_memory).1 ≠ Panic ∧
  memory_ok sample_stored.
Proof.
  destruct (memory_operations_safe 1 default_memory_limits sample_memory
    (OpStore true sample_pointer (Ty.Ptr Ty.I8) (Value.Pointer sample_target) 8)) as (? & ? & _).
  - apply default_limits_bounded.
  - apply sample_reachable.
  - destruct sample_pointer_ok. split; [done|]. split; [done|]. split; [by eexists|done].
  - done.
Defined.

Lemma store_exact_witness :
  ∃ id s a, at_range sample_memory sample_pointer 8 8 true id s a ∧
    cells_written id s (patched a s (encoded (Ty.Ptr Ty.I8) (Value.Pointer sample_target))) sample_memory sample_stored.
Proof.
  destruct sample_pointer_ok as [? ?].
  apply (store_exact true sample_memory sample_pointer (Ty.Ptr Ty.I8) (Value.Pointer sample_target) 8);
    [apply sample_ok|done|lia|split; [by eexists|done]|vm_compute; reflexivity].
Defined.

Lemma store_load_witness :
  match load_with_signature sample_pointer (Ty.Ptr Ty.I8) 8 None sample_stored with
  | (Ok w, _) => w = Value.Pointer sample_target
  | (Err e, _) => e = Fault.Limit MemoryResource.Work (max_work (mem_limits sample_memory)) ∨
                  e = Fault.Trap MemoryTrap.PermissionDenied
  | (Panic, _) => False
  end ∧ is_ok (load_with_signature sample_pointer (Ty.Ptr Ty.I8) 8 None sample_stored).1 = true.
Proof.
  destruct sample_pointer_ok as [? ?]. split; [|vm_compute; reflexivity].
  apply (store_load true sample_memory sample_pointer (Ty.Ptr Ty.I8) (Value.Pointer sample_target) 8);
    [apply sample_ok|done|lia|split; [by eexists|done]|vm_compute; reflexivity].
Defined.

Lemma sample_stored_ok : memory_ok sample_stored.
Proof.
  unfold sample_stored. destruct sample_pointer_ok as [? ?]. apply perform_ok; [apply sample_ok|].
  split; [done|]. split; [lia|]. split; [by eexists|done].
Qed.

Lemma load_typed_witness :
  match load_with_signature sample_pointer (Ty.Ptr Ty.I8) 8 None sample_stored with
  | (Ok v, m') => (∃ w, m' = set_work w sample_stored) ∧ ∃ id s a,
      at_range sample_stored sample_pointer 8 8 false id s a ∧ load_result (Ty.Ptr Ty.I8) v s a
  | (Err _, m') => ∃ w, m' = set_work w sample_stored
  | (Panic, _) => False
  end.
Proof.
  destruct sample_pointer_ok as [? ?].
  apply (load_typed sample_stored sample_pointer (Ty.Ptr Ty.I8) 8 None);
    [apply sample_stored_ok|done|lia|by left|done].
Defined.

(** Copying the stored pointer eight bytes further. *)
Definition sample_upper : Pointer := mkPointer 4104 (Some (mkCapability 1 0 0 0 16 8 true true)).
Definition sample_copied : Memory (gmap nat Fragment) :=
  (perform (OpCopy (λ _, true) sample_upper sample_pointer 8 8) sample_stored).2.

Lemma copy_exact_witness :
  (∃ sid ss sa did ds da, at_range sample_stored sample_pointer 8 8 false sid ss sa ∧
    at_range sample_stored sample_upper 8 8 true did ds da ∧
    (sid = did → ss + Z.to_nat 8 ≤ ds ∨ ds + Z.to_nat 8 ≤ ss)%nat ∧
    cells_written did ds (cells_of sa ss (Z.to_nat 8)) sample_stored sample_copied) ∧
  (load_with_signature sample_upper (Ty.Ptr Ty.I8) 8 None sample_copied).1 = Ok (Value.Pointer sample_target).
Proof.
  destruct sample_pointer_ok as [? ?]. split; [|vm_compute; reflexivity].
  apply (copy_exact (λ _, true) sample_stored sample_upper sample_pointer 8 8);
    [apply sample_stored_ok|split; simpl; done || lia|done|lia|lia|vm_compute; reflexivity].
Defined.

Definition sample_retired : Memory (gmap nat Fragment) := (perform (OpRetireFrom 1) sample_memory).2.

Lemma expiry_final_witness :
  identity sample_retired sample_target = Err (Fault.Trap MemoryTrap.ExpiredAllocation) ∧
  is_ok (identity sample_retired sample_pointer) = true.
Proof.
  split; [|vm_compute; reflexivity].
  destruct (expiry_final sample_memory 1 sample_retired sample_retired) as [Hexp _].
  - apply sample_ok.
  - simpl. lia.
  - vm_compute. reflexivity.
  - apply steps_refl.
  - eapply Hexp; [reflexivity|done|reflexivity|vm_compute; reflexivity|reflexivity|simpl; lia].
Defined.

Lemma allocation_fresh_witness :
  allocated Stack sample_first 8 4 sample_target sample_memory ∧
  ∀ id a, allocations sample_first !! id = Some a →
    allocations sample_memory !! id = Some a ∧ base a + Z.of_nat (length (data a)) < address sample_target.
Proof.
  apply (allocation_fresh (λ _, true) sample_first 8 1 4);
    [|split; lia|split; [reflexivity|lia]|vm_compute; reflexivity].
  apply (perform_ok sample_new (OpAllocate (λ _, true) 16 8 8)).
  - apply new_ok, default_limits_bounded.
  - split; [split; lia|split; [reflexivity|lia]].
Defined.

Lemma gep_exact_witness :
  gep sample_memory sample_pointer [GepStep.Stride 4; GepStep.Field 2] [ConstValue.I 3; ConstValue.U 1] =
    Ok (mkPointer 4110 (Some (mkCapability 1 0 0 0 16 14 true true))).
Proof.
  destruct sample_pointer_ok as [? ?].
  apply (gep_exact sample_memory sample_pointer [GepStep.Stride 4; GepStep.Field 2] [ConstValue.I 3; ConstValue.U 1]);
    [apply sample_ok|done|done| |].
  - repeat constructor; simpl; done || lia.
  - exists 0%nat, (mkCapability 1 0 0 0 16 0 true true), (fresh_allocation Stack 4096 16).
    unfold tracked. split_and!; vm_compute; congruence.
Defined.

Lemma pointer_comparison_exact_witness :
  equal sample_memory sample_pointer sample_target = Ok false ∧
  difference sample_memory sample_upper sample_pointer = Ok 8 ∧ equal sample_memory sample_pointer sample_pointer ≠ Panic.
Proof.
  destruct sample_pointer_ok as [? ?]. split; [vm_compute; reflexivity|]. split; [vm_compute; reflexivity|].
  by apply (pointer_comparison_exact sample_memory sample_pointer sample_pointer); [apply sample_ok|..].
Defined.
