(* ===== verification/Signatures.v ===== *)
(** * Signatures, declarations and global storage ([function.rs], [global_storage.rs])

    The admission checks of a function signature, a declaration and an addressable
    global: a resource budget first, then a worklist over the nested signatures and
    types.  The last part proves that the worklist decides a recursive predicate. *)
From S2P Require Export Limits Integer.
Local Open Scope Z_scope.

(** ** Errors *)

Module BuilderError.
Inductive t :=
  | UnknownBlock (block : BlockId)
  | UnknownParameter (index count : nat)
  | UnknownValue (v : ValueId)
  | UnknownGlobal (g : GlobalId)
  | InvalidPointerOperands
  | TerminatedBlock (block : BlockId)
  | PhiAfterInstruction (block : BlockId).
#[global] Instance eq_dec : EqDecision t.
Proof. solve_decision. Defined.
End BuilderError.
Notation builder_error := BuilderError.t.

Module CallError.
Inductive t :=
  | Builder (e : builder_error)
  | ResourceLimit (e : LimitError)
  | UnknownFunction (f : FunctionId)
  | UnknownFunctionName (name : string)
  | ConflictingDeclaration (name : string)
  | DuplicateDefinition (f : FunctionId)
  | InvalidLinkName (name : string)
  | LinkNameCollision (link : string)
  | InvalidSignature (message : string)
  | DefinitionMismatch (f : FunctionId)
  | MissingDefinition (f : FunctionId)
  | UnknownValue (v : ValueId)
  | NotFunctionPointer (v : ValueId)
  | ArgumentCount (expected got : nat)
  | ArgumentType (index : nat) (expected got : ty)
  | ReturnType (expected got : ty)
  | ResultPresence
  | ConventionMismatch
  | AddressTypeMismatch
  | ForbiddenFunctionPointerCast.
#[global] Instance eq_dec : EqDecision t.
Proof. solve_decision. Defined.
End CallError.
Notation call_error := CallError.t.

Module GlobalStorageError.
Inductive t :=
  | ResourceLimit (e : LimitError)
  | InvalidType
  | InvalidInitializer
  | ReadOnlyUninitialized
  | InvalidAlignment
  | InvalidLinkName
  | DuplicateIdentity
  | DuplicateName
  | LinkNameCollision
  | UnknownGlobal
  | AddressTypeMismatch.
#[global] Instance eq_dec : EqDecision t.
Proof. solve_decision. Defined.
End GlobalStorageError.
Notation storage_error := GlobalStorageError.t.

(** ** Signatures *)

Definition invalid_signature : call_error :=
  CallError.InvalidSignature
    "void parameters, malformed types and variadic calls are unsupported"%string.
Definition invalid_aggregate : call_error :=
  CallError.InvalidSignature "SysV64 aggregate signatures are unsupported"%string.

Definition is_aggregate (t : ty) : bool :=
  match t with Ty.Array _ _ | Ty.Struct _ | Ty.Tuple _ => true | _ => false end.

(** The inner worklist over types; the top of a stack is the head of its list. *)
Fixpoint types_loop (fuel : nat) (types : list ty) (signatures : list FunctionSignature)
    : result call_error (list FunctionSignature) :=
  match fuel with
  | O => Panic
  | S fuel =>
      match types with
      | [] => Ok signatures
      | t :: types =>
          match t with
          | Ty.Void => Err invalid_signature
          | Ty.FnPtr sig => types_loop fuel types (sig :: signatures)
          | Ty.Ptr Ty.Void => types_loop fuel types signatures
          | Ty.Ptr t | Ty.Array t _ => types_loop fuel (t :: types) signatures
          | Ty.Struct ts | Ty.Tuple ts => types_loop fuel (rev ts ++ types) signatures
          | _ => types_loop fuel types signatures
          end
      end
  end.

Definition types_nodes (ts : list ty) : nat := sum_list_with ty_nodes ts.

(** The types of a signature in the order they are pushed. *)
Definition signature_types (sig : FunctionSignature) : list ty :=
  params sig ++ (if decide (ret sig = Ty.Void) then [] else [ret sig]).

(** The outer worklist over signatures. *)
Fixpoint signatures_loop (fuel : nat) (signatures : list FunctionSignature)
    : result call_error unit :=
  match fuel with
  | O => Panic
  | S fuel =>
      match signatures with
      | [] => Ok tt
      | sig :: signatures =>
          if variadic sig then Err invalid_signature else
          if bool_decide (convention sig = SysV64)
             && existsb is_aggregate (params sig ++ [ret sig])
          then Err invalid_aggregate else
          let types := rev (signature_types sig) in
          signatures ← types_loop (S (types_nodes types)) types signatures;
          signatures_loop fuel signatures
      end
  end.

Definition validate_signature_with_limits (sig : FunctionSignature) (limits : IrLimits)
    : result call_error unit :=
  _ ← map_err CallError.ResourceLimit
        (b ← new_budget limits; (budget_signature sig b).1);
  signatures_loop (S (sig_nodes sig)) [sig].
Definition validate_signature (sig : FunctionSignature) : result call_error unit :=
  validate_signature_with_limits sig default_limits.

(** ** Declarations *)

(** [str::contains('\0')]. *)
Definition contains_nul (s : string) : bool := bool_decide (0 ∈ bytes_of_string s).
(** The link name a linkage requires. *)
Definition link_name_ok (linkage : Linkage) (link_name : option string) : bool :=
  match linkage, link_name with
  | Internal, None => true
  | External, Some name => negb (String.eqb name "") && negb (contains_nul name)
  | _, _ => false
  end.

Definition validate_decl_with_limits (decl : FunctionDecl) (limits : IrLimits)
    : result call_error unit :=
  _ ← validate_signature_with_limits (decl_signature decl) limits;
  guard_err (link_name_ok (decl_linkage decl) (decl_link_name decl))
    (CallError.InvalidLinkName (decl_name decl)).

(** ** Global storage *)

Definition storage_type (t : ty) : bool :=
  match t with
  | Ty.Bool | Ty.I1 | Ty.U1 | Ty.I8 | Ty.U8 | Ty.I16 | Ty.U16 | Ty.I32 | Ty.U32
  | Ty.I64 | Ty.U64 | Ty.I128 | Ty.U128 | Ty.F16 | Ty.F32 | Ty.F64
  | Ty.Ptr _ | Ty.FnPtr _ => true
  | _ => false
  end.

(** [GlobalStorage::internal]. *)
Definition internal (name : string) (t : ty) (init : GlobalStorageInit.t) (readonly : bool)
    (align : Z) : GlobalStorage :=
  mkGlobalStorage (mkGlobalId 0) name t init readonly align Internal None.

Definition validate_storage_with_limits (g : GlobalStorage) (limits : IrLimits)
    : result storage_error unit :=
  _ ← map_err GlobalStorageError.ResourceLimit
        (b ← new_budget limits; (budget_ty (gs_ty g) b).1);
  if negb (storage_type (gs_ty g)) then Err GlobalStorageError.InvalidType else
  _ ← map_err (λ error, match error with
                        | CallError.ResourceLimit error => GlobalStorageError.ResourceLimit error
                        | _ => GlobalStorageError.InvalidType
                        end)
        (validate_signature_with_limits (whale [gs_ty g] Ty.Void) limits);
  if negb (is_power_of_two (gs_align g)) then Err GlobalStorageError.InvalidAlignment else
  match gs_init g with
  | GlobalStorageInit.Value value =>
      if negb (valid_constant (gs_ty g) value) then Err GlobalStorageError.InvalidInitializer
      else guard_err (link_name_ok (gs_linkage g) (gs_link_name g))
             GlobalStorageError.InvalidLinkName
  | GlobalStorageInit.Uninitialized =>
      if gs_readonly g then Err GlobalStorageError.ReadOnlyUninitialized
      else guard_err (link_name_ok (gs_linkage g) (gs_link_name g))
             GlobalStorageError.InvalidLinkName
  end.

(** ** The predicate the worklists decide *)

(** A type that may appear in a signature: no [Void] except behind a pointer, and
    nested signatures that are themselves admitted. *)
Fixpoint ty_admitted (t : ty) : bool :=
  match t with
  | Ty.Void => false
  | Ty.FnPtr (Ty.Sig ps r c v) =>
      negb v && negb (bool_decide (c = SysV64) && existsb is_aggregate (ps ++ [r]))
      && forallb ty_admitted ps
      && match r with Ty.Void => true | _ => ty_admitted r end
  | Ty.Ptr Ty.Void => true
  | Ty.Ptr t | Ty.Array t _ => ty_admitted t
  | Ty.Struct ts | Ty.Tuple ts => forallb ty_admitted ts
  | _ => true
  end.
Definition sig_admitted (sig : FunctionSignature) : bool := ty_admitted (Ty.FnPtr sig).

Lemma forallb_rev {A} (f : A → bool) l : forallb f (rev l) = forallb f l.
Proof.
  induction l as [|x l IH]; [done|]. simpl. rewrite forallb_app, IH. simpl.
  destruct (f x), (forallb f l); done.
Qed.

Lemma types_nodes_app ts us : types_nodes (ts ++ us) = (types_nodes ts + types_nodes us)%nat.
Proof. unfold types_nodes. induction ts; simpl; lia. Qed.
Lemma types_nodes_rev ts : types_nodes (rev ts) = types_nodes ts.
Proof. induction ts; simpl; [done|]. rewrite types_nodes_app, IHts. cbn. lia. Qed.
Lemma types_nodes_foldr ts : foldr (λ t n, ty_nodes t + n)%nat 0%nat ts = types_nodes ts.
Proof. unfold types_nodes. induction ts; simpl; lia. Qed.

Lemma aggregate_nodes ts : ty_nodes (Ty.Struct ts) = S (types_nodes ts).
Proof. apply (f_equal S), types_nodes_foldr. Qed.

Lemma sig_admitted_eq sig :
  sig_admitted sig =
    negb (variadic sig)
    && negb (bool_decide (convention sig = SysV64) && existsb is_aggregate (params sig ++ [ret sig]))
    && forallb ty_admitted (signature_types sig).
Proof.
  destruct sig as [ps r c v]. unfold sig_admitted, signature_types. simpl.
  rewrite forallb_app, !andb_assoc. f_equal.
  case_decide; [by subst r|]. simpl. rewrite andb_true_r. by destruct r.
Qed.

Lemma fn_nodes sig : ty_nodes (Ty.FnPtr sig) = sig_nodes sig.
Proof. destruct sig. unfold sig_nodes. simpl. rewrite types_nodes_foldr. done. Qed.
Lemma signature_types_nodes sig : (types_nodes (signature_types sig) < sig_nodes sig)%nat.
Proof.
  destruct sig as [ps r c v]. unfold signature_types, sig_nodes. simpl.
  rewrite types_nodes_app. unfold types_nodes. pose proof (ty_nodes_pos r). case_decide; simpl; lia.
Qed.

(** ** The worklists decide it *)

Definition sigs_nodes (l : list FunctionSignature) : nat := sum_list_with sig_nodes l.

(** The outcome of the inner loop: a rejection of an inadmissible type, or the stack of
    signatures that remain to be checked. *)
Definition types_outcome (types : list ty) (sigs : list FunctionSignature)
    (r : result call_error (list FunctionSignature)) : Prop :=
  (r = Err invalid_signature ∧ forallb ty_admitted types = false) ∨
  (∃ sigs', r = Ok sigs' ∧
     forallb sig_admitted sigs' = forallb ty_admitted types && forallb sig_admitted sigs ∧
     (sigs_nodes sigs' ≤ types_nodes types + sigs_nodes sigs)%nat).

(** A step of the worklist replaces its top by an equivalent list. *)
Lemma types_outcome_step t types types' sigs sigs' r :
  types_outcome types' sigs' r →
  forallb ty_admitted types' && forallb sig_admitted sigs' =
    ty_admitted t && forallb ty_admitted types && forallb sig_admitted sigs →
  (forallb ty_admitted types' = false → ty_admitted t && forallb ty_admitted types = false) →
  (types_nodes types' + sigs_nodes sigs' ≤ ty_nodes t + types_nodes types + sigs_nodes sigs)%nat →
  types_outcome (t :: types) sigs r.
Proof.
  intros [[-> Hf]|(s&->&Hs&Hn)] Heq Hbad Hle.
  - left. split; [done|]. simpl. auto.
  - right. exists s. split; [done|]. split; [by rewrite Hs, Heq|]. unfold types_nodes in *. simpl. lia.
Qed.

Lemma types_loop_spec fuel : ∀ types sigs,
  (types_nodes types < fuel)%nat → types_outcome types sigs (types_loop fuel types sigs).
Proof.
  induction fuel as [|fuel IH]; intros types sigs Hf; [lia|].
  destruct types as [|t types]; [right; by exists sigs|].
  assert (Hpos := ty_nodes_pos t).
  assert (Hnodes : (ty_nodes t + types_nodes types < S fuel)%nat) by exact Hf.
  assert (Hskip : ty_admitted t = true →
    types_outcome (t :: types) sigs (types_loop fuel types sigs)).
  { intros Ht. eapply types_outcome_step; [apply IH; lia|by rewrite Ht|by rewrite Ht|lia]. }
  assert (Hpush : ∀ us, (types_nodes us < ty_nodes t)%nat → forallb ty_admitted us = ty_admitted t →
    types_outcome (t :: types) sigs (types_loop fuel (us ++ types) sigs)).
  { intros us Hus Heq. eapply types_outcome_step; [apply IH|..];
      rewrite ?types_nodes_app, ?forallb_app, ?Heq; try lia; done. }
  destruct t as [ | | | | | | | | | | | | | | | | |inner|sig|t n|ts|ts]; simpl types_loop;
    try (apply Hskip; reflexivity).
  - by left.
  - destruct inner; try (apply Hskip; reflexivity);
      (apply (Hpush [_]); [unfold types_nodes; simpl; lia|apply andb_true_r]).
  - eapply types_outcome_step; [apply IH; lia|..].
    + simpl forallb. change (ty_admitted (Ty.FnPtr sig)) with (sig_admitted sig).
      destruct (sig_admitted sig), (forallb ty_admitted types), (forallb sig_admitted sigs); done.
    + intros ->. by rewrite andb_false_r.
    + rewrite fn_nodes. unfold sigs_nodes. simpl. lia.
  - apply (Hpush [t]); [unfold types_nodes; simpl; lia|apply andb_true_r].
  - apply Hpush; [rewrite types_nodes_rev, aggregate_nodes; lia|apply forallb_rev].
  - apply Hpush; [rewrite types_nodes_rev; fold (types_nodes ts); pose proof (aggregate_nodes ts); simpl in *; lia|apply forallb_rev].
Qed.

(** The outer loop accepts exactly the admitted signatures and otherwise reports one of
    the two signature errors. *)
Definition signatures_outcome (sigs : list FunctionSignature) (r : result call_error unit) : Prop :=
  if forallb sig_admitted sigs then r = Ok tt
  else r = Err invalid_signature ∨ r = Err invalid_aggregate.

Lemma signatures_loop_spec fuel : ∀ sigs,
  (sigs_nodes sigs < fuel)%nat → signatures_outcome sigs (signatures_loop fuel sigs).
Proof.
  induction fuel as [|fuel IH]; intros sigs Hf; [lia|].
  destruct sigs as [|sig sigs]; [done|].
  unfold signatures_outcome. simpl forallb. cbn [signatures_loop]. rewrite sig_admitted_eq.
  destruct (variadic sig); [by left|]. cbn [negb andb].
  destruct (bool_decide (convention sig = SysV64) && existsb is_aggregate (params sig ++ [ret sig]));
    [by right|]. cbn [negb andb].
  pose proof (signature_types_nodes sig) as Hn. change (sig_nodes sig + sigs_nodes sigs < S fuel)%nat in Hf.
  set (types := rev (signature_types sig)). cbv zeta. fold types.
  assert (Ha : forallb ty_admitted types = forallb ty_admitted (signature_types sig))
    by apply forallb_rev.
  assert (Hl : types_nodes types = types_nodes (signature_types sig)) by apply types_nodes_rev.
  destruct (types_loop_spec (S (types_nodes types)) types sigs) as [[-> Hbad]|(s&->&Hs&Hle)]; [lia|..].
  - rewrite <- Ha, Hbad. simpl. by left.
  - cbn [mbind result_bind]. rewrite <- Ha, <- Hs. apply IH. lia.
Qed.

Lemma validate_loop_spec sig :
  let r := signatures_loop (S (sig_nodes sig)) [sig] in
  if sig_admitted sig then r = Ok tt else r = Err invalid_signature ∨ r = Err invalid_aggregate.
Proof.
  pose proof (signatures_loop_spec (S (sig_nodes sig)) [sig]) as Hs.
  unfold signatures_outcome in Hs. simpl forallb in Hs. rewrite andb_true_r in Hs.
  apply Hs. change (sig_nodes sig + 0 < S (sig_nodes sig))%nat. lia.
Qed.

Lemma validate_signature_Ok_admitted sig lim :
  validate_signature_with_limits sig lim = Ok tt → sig_admitted sig = true.
Proof.
  unfold validate_signature_with_limits. intros (?&_&Hl)%bind_Ok.
  pose proof (validate_loop_spec sig) as Hs. rewrite Hl in Hs.
  destruct (sig_admitted sig); [done|]. by destruct Hs.
Qed.

(** ** Properties *)

(** C34: [validate_signature_with_limits] terminates without a panic and accepts exactly
    the signatures within the budget that are admitted: neither they nor a nested one
    is variadic or a SysV64 signature with an aggregate, and [Void] occurs only as
    a result or behind a pointer.  A rejection is a resource error exactly when the
    budget does not fit, whatever the shape of the signature. *)
Theorem validate_signature_decides sig lim (Hl : 0 ≤ max_nodes lim) :
  let fits := max_type_depth lim ≤ Z.of_nat MAX_IR_NESTING ∧
    max_const_depth lim ≤ Z.of_nat MAX_IR_NESTING ∧
    Z.of_nat (sig_nodes sig) ≤ max_nodes lim ∧ ∀ r, sig_fits lim sig r in
  (validate_signature_with_limits sig lim = Ok tt ↔ fits ∧ sig_admitted sig = true) ∧
  validate_signature_with_limits sig lim ≠ Panic ∧
  (∀ e, validate_signature_with_limits sig lim = Err e →
     (∃ r, e = CallError.ResourceLimit (exceeded lim r) ∧ ¬ fits) ∨
     (fits ∧ sig_admitted sig = false ∧ (e = invalid_signature ∨ e = invalid_aggregate))).
Proof.
  intros fits. unfold validate_signature_with_limits.
  pose proof (validate_loop_spec sig) as Hloop. cbv zeta in Hloop.
  unfold new_budget, validate_limits. destruct (orb _ _) eqn:Hv; simpl.
  - apply orb_true_iff in Hv. rewrite !Z.ltb_lt in Hv.
    assert (¬ fits) by (intros (?&?&_); lia).
    split; [split; [done|tauto]|]. split; [done|]. intros e [= <-]. left.
    by exists Resource.Configuration.
  - apply orb_false_iff in Hv as [Hv1 Hv2]. apply Z.ltb_ge in Hv1, Hv2.
    destruct (budget_signature_walk sig (mkBudget lim (max_nodes lim)) Hl)
      as [(Hf&Hn&->)|(r&b'&->&_&Hr)]; simpl in *.
    + assert fits by done.
      destruct (sig_admitted sig); [rewrite Hloop; by repeat split|].
      split; [split; [by destruct Hloop as [-> | ->]|by intros []]|].
      split; [by destruct Hloop as [-> | ->]|]. intros e He. right.
      split_and!; [done..|]. destruct Hloop as [E|E]; rewrite E in He; injection He; auto.
    + assert (¬ fits).
      { intros (_&_&Hn&Hf). case_decide; [lia|]. by apply Hr. }
      split; [split; [done|tauto]|]. split; [done|]. intros e [= <-]. left. by exists r.
Qed.

Lemma validate_signature_decides_witness :
  let sig := whale [Ty.Ptr Ty.Void; Ty.FnPtr (whale [Ty.I32] Ty.Void)] Ty.Void in
  0 ≤ max_nodes default_limits ∧ validate_signature sig = Ok tt ∧
  validate_signature_with_limits (whale [Ty.Void] Ty.I32) default_limits ≠ Panic.
Proof.
  split; [vm_compute; discriminate|]. split; [vm_compute; reflexivity|].
  refine (proj1 (proj2 (validate_signature_decides _ default_limits _))). vm_compute. discriminate.
Defined.
