(* ===== verification/Sources.v ===== *)
(** * Source metadata ([source.rs])

    Original-node identities attached to IR operations: validation against a module,
    lookup, and propagation to generated operations. *)
From S2P Require Export Syntax.
Local Open Scope Z_scope.

(** ** The code *)

Record FrontendSource := mkFrontendSource {
  fe_file : string; fe_line : Z; fe_column : Z; fe_end_line : Z; fe_end_column : Z;
}.
Record SourceAnnotation := mkAnnotation {
  annotation_id : Z; annotation_source : option FrontendSource;
}.

Record SourceMetadataError := mkSourceError { source_message : string }.
#[export] Instance SourceMetadataError_eq_dec : EqDecision SourceMetadataError.
Proof. solve_decision. Defined.

(** [SourceSpan::valid]. *)
Definition span_valid (s : SourceSpan) : bool :=
  (0 <? span_line s) && (0 <? span_column s) && (0 <? span_end_line s) && (0 <? span_end_column s)
  && ((span_line s <? span_end_line s)
      || ((span_line s =? span_end_line s) && (span_column s <=? span_end_column s))).

(** [add_frontend_original]. *)
Definition add_frontend_original (s : SourceMetadata) (annotation : SourceAnnotation)
    : SourceMetadata :=
  if existsb (λ node, node_id node =? annotation_id annotation) (originals s) then s else
  let '(fs, span) :=
    match annotation_source annotation with
    | None => (files s, None)
    | Some a =>
        let '(fs, file) :=
          match find_opt (λ file, String.eqb (file_name file) (fe_file a)) (files s) with
          | Some file => (files s, file_id file)
          | None =>
              let id := wrapu 32 (Z.of_nat (length (files s))) in
              (files s ++ [mkSourceFile id (fe_file a)], id)
          end in
        (fs, Some (mkSourceSpan file (fe_line a) (fe_column a) (fe_end_line a) (fe_end_column a)))
    end in
  mkSources fs (originals s ++ [mkOriginalNode (annotation_id annotation) span]) (mappings s).

(** The loop over [files]; the set of ids seen so far is carried along. *)
Fixpoint validate_files (seen : list Z) (fs : list SourceFile) : result SourceMetadataError (list Z) :=
  match fs with
  | [] => Ok seen
  | file :: fs =>
      if String.eqb (file_name file) "" || bool_decide (0 ∈ bytes_of_string (file_name file))
         || bool_decide (file_id file ∈ seen)
      then Err (mkSourceError "invalid or duplicate source file")
      else validate_files (file_id file :: seen) fs
  end.

Fixpoint validate_originals (fs seen : list Z) (nodes : list OriginalNode)
    : result SourceMetadataError (list Z) :=
  match nodes with
  | [] => Ok seen
  | node :: nodes =>
      if bool_decide (node_id node ∈ seen)
      then Err (mkSourceError "duplicate original node identity") else
      if match node_span node with
         | Some span => negb (bool_decide (span_file span ∈ fs)) || negb (span_valid span)
         | None => false
         end
      then Err (mkSourceError "invalid original source span")
      else validate_originals fs (node_id node :: seen) nodes
  end.

Definition block_map (m : Module_) : gmap (FunctionId * BlockId) BasicBlock :=
  collect (mjoin ((λ f, (λ b, ((function_id f, block_id b), b)) <$> blocks f) <$> functions m)).

Definition target_exists (m : Module_) (target : SourceTarget.t) : bool :=
  match target with
  | SourceTarget.Instruction function block index =>
      match block_map m !! (function, block) with
      | Some b => (index <? length (instructions b))%nat
      | None => false
      end
  | SourceTarget.Terminator function block =>
      match block_map m !! (function, block) with
      | Some b => is_terminated b
      | None => false
      end
  | SourceTarget.Global id =>
      bool_decide (id ∈ (global_id <$> globals m) ++ (gs_id <$> global_storage m))
  end.

Fixpoint validate_mappings (m : Module_) (nodes : list Z) (seen : list SourceTarget.t)
    (ms : list SourceMapping) : result SourceMetadataError unit :=
  match ms with
  | [] => Ok tt
  | mapping :: ms =>
      if negb (bool_decide (mapping_original mapping ∈ nodes))
         || bool_decide (mapping_target mapping ∈ seen)
      then Err (mkSourceError "unknown original node or duplicate source mapping") else
      if negb (target_exists m (mapping_target mapping))
      then Err (mkSourceError "source mapping targets a missing IR operation")
      else validate_mappings m nodes (mapping_target mapping :: seen) ms
  end.

(** [SourceMetadata::validate]. *)
Definition validate_sources (s : SourceMetadata) (m : Module_) : result SourceMetadataError unit :=
  match files s, originals s, mappings s with
  | [], [], [] => Ok tt
  | _, _, _ =>
      fs ← validate_files [] (files s);
      nodes ← validate_originals fs [] (originals s);
      validate_mappings m nodes [] (mappings s)
  end.

Definition original (s : SourceMetadata) (target : SourceTarget.t) : option OriginalNode :=
  m ← find_opt (λ m, bool_decide (mapping_target m = target)) (mappings s);
  find_opt (λ o, node_id o =? mapping_original m) (originals s).

Definition location (s : SourceMetadata) (target : SourceTarget.t) : option OriginalLocation :=
  o ← original s target;
  let source :=
    span ← node_span o;
    f ← find_opt (λ f, file_id f =? span_file span) (files s);
    Some (file_name f, span) in
  Some (mkLocation (node_id o) source).

Definition copy_mapping (s : SourceMetadata) (from to : SourceTarget.t)
    : result SourceMetadataError SourceMetadata :=
  m ← ok_or (find_opt (λ m, bool_decide (mapping_target m = from)) (mappings s))
        (mkSourceError "missing source mapping to propagate");
  if existsb (λ m, bool_decide (mapping_target m = to)) (mappings s)
  then Err (mkSourceError "destination already has a source mapping")
  else Ok (mkSources (files s) (originals s)
             (mappings s ++ [mkSourceMapping to (mapping_original m)])).

(** ** What validation decides *)

Definition file_ok (f : SourceFile) : Prop :=
  file_name f ≠ ""%string ∧ 0 ∉ bytes_of_string (file_name f).
Definition node_ok (fs : list Z) (n : OriginalNode) : Prop :=
  ∀ span, node_span n = Some span → span_file span ∈ fs ∧ span_valid span = true.

Record sources_ok (m : Module_) (s : SourceMetadata) : Prop := {
  ok_files : Forall file_ok (files s) ∧ NoDup (file_id <$> files s);
  ok_originals : Forall (node_ok (file_id <$> files s)) (originals s) ∧
    NoDup (node_id <$> originals s);
  ok_mappings : Forall (λ x, mapping_original x ∈ node_id <$> originals s ∧
      target_exists m (mapping_target x) = true) (mappings s) ∧
    NoDup (mapping_target <$> mappings s);
}.

(** A loop that checks [P] on every element and that no key repeats. *)
Lemma distinct_cons {A K} `{EqDecision K} (key : A → K) (P : A → Prop) seen x l :
  (Forall P (x :: l) ∧ NoDup (key <$> x :: l) ∧ (∀ k, k ∈ key <$> x :: l → k ∉ seen)) ↔
  P x ∧ key x ∉ seen ∧
    (Forall P l ∧ NoDup (key <$> l) ∧ (∀ k, k ∈ key <$> l → k ∉ key x :: seen)).
Proof.
  rewrite Forall_cons, fmap_cons, NoDup_cons. split.
  - intros ((?&?)&(Hx&?)&Hs). split_and!; auto.
    + apply Hs. by left.
    + intros k Hk [->|Hk']%elem_of_cons; [done|]. by apply (Hs k); [right|].
  - intros (?&?&?&?&Hs). split_and!; auto.
    + intros Hx. apply (Hs _ Hx). by left.
    + intros k [->|Hk]%elem_of_cons; [done|]. intros ?. apply (Hs _ Hk). by right.
Qed.

Lemma validate_files_Ok fs : ∀ seen seen',
  validate_files seen fs = Ok seen' ↔
    (Forall file_ok fs ∧ NoDup (file_id <$> fs) ∧ (∀ k, k ∈ file_id <$> fs → k ∉ seen)) ∧
    seen' = rev (file_id <$> fs) ++ seen.
Proof.
  induction fs as [|f fs IH]; intros seen seen'.
  - simpl. split; [intros [= ->]|by intros [_ ->]].
    split; [split_and!; [by constructor..|by intros ? ?%not_elem_of_nil]|done].
  - rewrite distinct_cons. cbn [validate_files fmap list_fmap rev].
    rewrite <- app_assoc. simpl app. unfold file_ok at 1.
    destruct (String.eqb_spec (file_name f) ""); simpl; [split; [done|tauto]|].
    case_bool_decide; simpl; [split; [done|tauto]|].
    case_bool_decide; [split; [done|tauto]|]. rewrite IH. tauto.
Qed.

Lemma node_ok_eq fs n :
  node_ok fs n ↔ match node_span n with
                 | Some span => span_file span ∈ fs ∧ span_valid span = true
                 | None => True
                 end.
Proof. unfold node_ok. destruct (node_span n); naive_solver. Qed.

Lemma validate_originals_Ok fs nodes : ∀ seen seen',
  validate_originals fs seen nodes = Ok seen' ↔
    (Forall (node_ok fs) nodes ∧ NoDup (node_id <$> nodes) ∧
     (∀ k, k ∈ node_id <$> nodes → k ∉ seen)) ∧
    seen' = rev (node_id <$> nodes) ++ seen.
Proof.
  induction nodes as [|n nodes IH]; intros seen seen'.
  - simpl. split; [intros [= ->]|by intros [_ ->]].
    split; [split_and!; [by constructor..|by intros ? ?%not_elem_of_nil]|done].
  - rewrite distinct_cons. cbn [validate_originals fmap list_fmap rev].
    rewrite <- app_assoc. simpl app.
    case_bool_decide; [split; [done|tauto]|]. rewrite (node_ok_eq fs n).
    destruct (node_span n) as [span|]; [|rewrite IH; tauto].
    case_bool_decide; simpl; [|split; [done|tauto]].
    destruct (span_valid span); simpl; [rewrite IH; tauto|split; [done|by intros [[[] _] _]]].
Qed.

Lemma validate_mappings_Ok m nodes ms : ∀ seen,
  validate_mappings m nodes seen ms = Ok tt ↔
    Forall (λ x, mapping_original x ∈ nodes ∧ target_exists m (mapping_target x) = true) ms ∧
    NoDup (mapping_target <$> ms) ∧ (∀ k, k ∈ mapping_target <$> ms → k ∉ seen).
Proof.
  induction ms as [|x ms IH]; intros seen.
  - split; [intros _|done]. split; [constructor|]. split; [constructor|].
    intros k Hk. by apply not_elem_of_nil in Hk.
  - rewrite distinct_cons. cbn [validate_mappings].
    case_bool_decide; simpl; [|split; [done|tauto]].
    case_bool_decide; simpl; [split; [done|tauto]|].
    destruct (target_exists m _); simpl; [rewrite IH; tauto|split; [done|by intros [[] _]]].
Qed.

Lemma elem_of_rev_nil {A} (x : A) l : x ∈ rev l ++ [] ↔ x ∈ l.
Proof. by rewrite app_nil_r, !list_elem_of_In, <- in_rev. Qed.

Lemma sources_ok_empty m : sources_ok m (mkSources [] [] []).
Proof. split; split; simpl; by constructor. Qed.

Lemma validate_sources_spec s m : validate_sources s m = Ok tt ↔ sources_ok m s.
Proof.
  assert (Hloops : (fs ← validate_files [] (files s);
      nodes ← validate_originals fs [] (originals s);
      validate_mappings m nodes [] (mappings s)) = Ok tt ↔ sources_ok m s).
  { rewrite bind_Ok. setoid_rewrite bind_Ok. setoid_rewrite validate_files_Ok.
    setoid_rewrite validate_originals_Ok. setoid_rewrite validate_mappings_Ok.
    assert (Hn : ∀ n, node_ok (rev (file_id <$> files s) ++ []) n ↔ node_ok (file_id <$> files s) n).
    { intros n. unfold node_ok. by setoid_rewrite elem_of_rev_nil. }
    split.
    - intros (?&((?&?&_)&->)&?&((Ho&?&_)&->)&(Hm&?&_)).
      split; split; try done; eapply Forall_impl; try eassumption; cbv beta; intros x; try apply Hn.
      by rewrite elem_of_rev_nil.
    - intros [[??] [Ho ?] [Hm ?]]. eexists. split; [split; [split_and!; [done..|]|reflexivity]|].
      { intros ??. apply not_elem_of_nil. }
      eexists. split; [split; [split_and!|reflexivity]|split_and!]; try done;
        try (intros ??; apply not_elem_of_nil).
      + eapply Forall_impl; [exact Ho|]. intros x. apply Hn.
      + eapply Forall_impl; [exact Hm|]. intros x. cbv beta. by rewrite elem_of_rev_nil. }
  unfold validate_sources.
  destruct (files s) eqn:Ef; [|exact Hloops]. destruct (originals s) eqn:Eo; [|exact Hloops].
  destruct (mappings s) eqn:Em; [|exact Hloops]. split; [|done]. intros _.
  destruct s; simpl in *; subst. apply sources_ok_empty.
Qed.

(** ** Lookup and propagation *)

Lemma find_opt_app {A} (p : A → bool) (l k : list A) :
  find_opt p (l ++ k) = match find_opt p l with Some x => Some x | None => find_opt p k end.
Proof.
  unfold find_opt. induction l as [|x l IH]; simpl; [done|].
  case_decide; simpl; [done|].
  destruct (list_find _ (l ++ k)) as [[??]|], (list_find _ l) as [[??]|]; simpl in *; naive_solver.
Qed.
Lemma find_opt_None {A} (p : A → bool) (l : list A) :
  find_opt p l = None ↔ ∀ x, x ∈ l → p x = false.
Proof.
  induction l as [|x l IH]; [split; [by intros _ ? ?%not_elem_of_nil|done]|].
  unfold find_opt in *. simpl. setoid_rewrite elem_of_cons.
  case_decide as Hp; simpl.
  - split; [done|]. intros Hx. specialize (Hx x). rewrite Hp in Hx. exfalso. naive_solver.
  - apply not_true_is_false in Hp.
    destruct (list_find _ l) as [[??]|]; simpl in *; [split; [done|]|]; naive_solver.
Qed.
Lemma find_opt_single {A} (p : A → bool) x : find_opt p [x] = if p x then Some x else None.
Proof. unfold find_opt. simpl. by destruct (p x). Qed.
Lemma find_opt_key {A K} `{EqDecision K} (key : A → K) (l : list A) x :
  NoDup (key <$> l) → x ∈ l → find_opt (λ y, bool_decide (key y = key x)) l = Some x.
Proof.
  induction l as [|y l IH]; [by intros _ ?%not_elem_of_nil|].
  rewrite fmap_cons, NoDup_cons. intros [Hy Hnd] Hx.
  unfold find_opt in *. simpl. case_decide as Hk; rewrite bool_decide_eq_true in Hk.
  - simpl. apply elem_of_cons in Hx as [->|Hx]; [done|]. exfalso. apply Hy. rewrite Hk.
    by apply list_elem_of_fmap_2.
  - apply elem_of_cons in Hx as [->|Hx]; [done|]. specialize (IH Hnd Hx).
    destruct (list_find _ l) as [[??]|]; simpl in *; congruence.
Qed.

Definition mapped (s : SourceMetadata) (t : SourceTarget.t) : Prop := t ∈ mapping_target <$> mappings s.
#[export] Instance mapped_dec s t : Decision (mapped s t).
Proof. unfold mapped. apply _. Defined.

Lemma mapping_of_None s t :
  find_opt (λ m, bool_decide (mapping_target m = t)) (mappings s) = None ↔ ¬ mapped s t.
Proof.
  rewrite find_opt_None. unfold mapped. rewrite list_elem_of_fmap. split.
  - intros Hf (m&->&Hm). specialize (Hf m Hm). by rewrite bool_decide_eq_false in Hf.
  - intros Hf m Hm. apply bool_decide_eq_false. intros <-. apply Hf. by exists m.
Qed.
Lemma mapping_exists_dec s t :
  existsb (λ m, bool_decide (mapping_target m = t)) (mappings s) = bool_decide (mapped s t).
Proof.
  apply eq_bool_prop_intro. rewrite !Is_true_true, existsb_exists, bool_decide_eq_true.
  unfold mapped. rewrite list_elem_of_fmap. setoid_rewrite list_elem_of_In.
  setoid_rewrite bool_decide_eq_true. naive_solver.
Qed.

(** ** Properties *)

(** Propagating a source mapping: [validate] decides the well-formedness of the
    metadata; on validated metadata [copy_mapping] succeeds exactly from a mapped to an
    unmapped target, and when the destination operation exists the result validates
    again, the destination has the original node and location of its origin and every
    other target keeps its own. *)
Theorem copy_mapping_propagates m s from to :
  (validate_sources s m = Ok tt ↔ sources_ok m s) ∧
  (mapped s from → ¬ mapped s to → target_exists m to = true → validate_sources s m = Ok tt →
   ∃ s', copy_mapping s from to = Ok s' ∧ validate_sources s' m = Ok tt ∧
     original s' to = original s from ∧ location s' to = location s from ∧
     is_Some (original s from) ∧
     ∀ t, t ≠ to → original s' t = original s t ∧ location s' t = location s t) ∧
  ((¬ mapped s from ∨ mapped s to) → ∃ e, copy_mapping s from to = Err e).
Proof.
  split; [apply validate_sources_spec|]. unfold copy_mapping. rewrite mapping_exists_dec.
  destruct (find_opt _ (mappings s)) as [x|] eqn:Hx.
  2: { apply mapping_of_None in Hx. split; [done|]. intros _. by eexists. }
  assert (Hxin := Hx). apply find_opt_Some in Hxin as [Hin Htgt]. apply bool_decide_eq_true in Htgt.
  assert (Hfrom : mapped s from) by (unfold mapped; rewrite <- Htgt; by apply list_elem_of_fmap_2).
  simpl. split; [|intros [?|?]; [done|rewrite bool_decide_eq_true_2 by done; by eexists]].
  intros _ Hto Hex Hok. rewrite bool_decide_eq_false_2 by done.
  eexists. split; [reflexivity|]. apply validate_sources_spec in Hok as [Hf Ho [Hm1 Hm2]].
  assert (Hxo : mapping_original x ∈ node_id <$> originals s).
  { rewrite Forall_forall in Hm1. by apply Hm1. }
  set (s' := mkSources _ _ _).
  assert (Hsame : ∀ t, t ≠ to → original s' t = original s t).
  { intros t Ht. unfold original. subst s'. cbn [mappings originals]. rewrite find_opt_app.
    destruct (find_opt (λ m, bool_decide (mapping_target m = t)) (mappings s)); [reflexivity|].
    rewrite find_opt_single. by rewrite bool_decide_eq_false_2 by (simpl; congruence). }
  assert (Horig : original s' to = original s from).
  { unfold original. subst s'. cbn [mappings originals]. rewrite find_opt_app.
    rewrite (proj2 (mapping_of_None s to) Hto), Hx, find_opt_single.
    by rewrite bool_decide_eq_true_2. }
  assert (Hloc : ∀ t u, original s' t = original s u → location s' t = location s u).
  { intros t u E. unfold location. by rewrite E. }
  split_and!; [|done|by apply Hloc| |intros t Ht; by split; [apply Hsame|apply Hloc, Hsame]].
  - apply validate_sources_spec. split; [done..|]. cbn [mappings originals s']. split.
    + apply Forall_app. split; [done|]. by repeat constructor.
    + rewrite fmap_app. apply NoDup_app. split_and!; [done| |apply NoDup_singleton].
      intros t Ht ->%list_elem_of_singleton. by apply Hto.
  - unfold original. rewrite Hx. apply list_elem_of_fmap in Hxo as (o&Eo&Hoin). simpl.
    rewrite Eo. destruct (find_opt _ (originals s)) eqn:Hn; [by eexists|].
    rewrite find_opt_None in Hn. specialize (Hn _ Hoin). by rewrite Z.eqb_refl in Hn.
Qed.

Definition sample_block : BasicBlock :=
  mkBlock (mkBlockId 0) "entry" [Instruction.Const (mkValueId 0) Ty.I32 (ConstValue.I 1)]
    (Some (Terminator.Ret Ty.Void None)).
Definition sample_sources : SourceMetadata :=
  mkSources [mkSourceFile 0 "a.wave"] [mkOriginalNode 7 (Some (mkSourceSpan 0 1 1 1 4))]
    [mkSourceMapping (SourceTarget.Instruction (mkFunctionId 0) (mkBlockId 0) 0) 7].
Definition sample_module : Module_ :=
  mkModule "x86_64-whale-linux" (mkDataLayout 64 Little) [] []
    [mkFunction (mkFunctionId 0) "f" [] Ty.Void [sample_block] (mkBlockId 0)
       [(mkValueId 0, Ty.I32)]] [] sample_sources.

Lemma copy_mapping_propagates_witness :
  let from := SourceTarget.Instruction (mkFunctionId 0) (mkBlockId 0) 0 in
  let to := SourceTarget.Terminator (mkFunctionId 0) (mkBlockId 0) in
  ∃ s', copy_mapping sample_sources from to = Ok s' ∧ original s' to = original sample_sources from.
Proof.
  intros from to.
  destruct (proj1 (proj2 (copy_mapping_propagates sample_module sample_sources from to)))
    as (s'&?&_&?&_).
  - apply (bool_decide_unpack (mapped sample_sources from)). vm_compute. exact I.
  - apply (bool_decide_unpack (¬ mapped sample_sources to)). vm_compute. exact I.
  - vm_compute. reflexivity.
  - vm_compute. reflexivity.
  - by exists s'.
Defined.
