(* ===== verification/ConstExpr.v ===== *)
(** * Constant expressions ([const_expr.rs])

    A typed constant expression is validated whole, then evaluated by an explicit stack
    machine.  The validation records what each reference resolved to, by the identity of
    its node; here a node is its path from the root together with the expression there.

    The machine is proved to compute [meaning], the expression evaluated with the
    operators of the interpreter: folding a constant and computing it at run time give
    the same value. *)
From S2P Require Export Limits Float.
Local Open Scope Z_scope.

Module ConstEvalError.
Inductive t :=
  | ResourceLimit (error : LimitError)
  | InvalidLiteral
  | TypeMismatch
  | UnsupportedOperation
  | DivisionByZero
  | RemainderByZero
  | UnknownReference (reference : ConstRef.t)
  | DuplicateDefinition (reference : ConstRef.t)
  | CyclicReference
  | ResultMismatch.
#[global] Instance eq_dec : EqDecision t.
Proof. solve_decision. Defined.
End ConstEvalError.
Notation const_error := ConstEvalError.t.

(** ** The code *)

Definition literal (t : ty) (value : const_value) : const_expr :=
  ConstExpr.mk t (ConstExpr.Literal value).

(** The loop of [references]; the worklist's top is the head of the list. *)
Fixpoint references_loop (fuel : nat) (pending : list const_expr) (found : list ConstRef.t)
    : result Empty_set (list ConstRef.t) :=
  match fuel with
  | O => Panic
  | S fuel =>
      match pending with
      | [] => Ok found
      | e :: pending =>
          match expr_kind e with
          | ConstExpr.Literal _ => references_loop fuel pending found
          | ConstExpr.Neg value | ConstExpr.Not value => references_loop fuel (value :: pending) found
          | ConstExpr.Reference r => references_loop fuel pending (found ++ [r])
          | ConstExpr.Binary _ l r | ConstExpr.Compare _ l r =>
              references_loop fuel (l :: r :: pending) found
          end
      end
  end.
Definition references (e : const_expr) : result Empty_set (list ConstRef.t) :=
  references_loop (S (expr_size e)) [e] [].

Definition same_value (l r : const_value) : bool :=
  match l, r with
  | ConstValue.F a, ConstValue.F b => bool_decide (a = b)
  | _, _ => bool_decide (l = r)
  end.

Definition ty_int_bits (t : ty) : option Z :=
  match t with
  | Ty.I1 | Ty.U1 => Some 1
  | Ty.I8 | Ty.U8 => Some 8
  | Ty.I16 | Ty.U16 => Some 16
  | Ty.I32 | Ty.U32 => Some 32
  | Ty.I64 | Ty.U64 => Some 64
  | Ty.I128 | Ty.U128 => Some 128
  | _ => None
  end.

Definition is_signed_int (t : ty) : bool :=
  match t with
  | Ty.I1 | Ty.I8 | Ty.I16 | Ty.I32 | Ty.I64 | Ty.I128 => true
  | _ => false
  end.

Definition wrap_u (v : Z) (t : ty) : Z :=
  let bits := default 128 (ty_int_bits t) in
  if 128 <=? bits then v else Z.land v (Z.shiftl 1 bits - 1).

Definition wrap_i (v : Z) (t : ty) : Z :=
  let bits := default 128 (ty_int_bits t) in
  if 128 <=? bits then v else
  let mask := Z.shiftl 1 bits - 1 in
  let u := Z.land (wrapu 128 v) mask in
  let sign := Z.shiftl 1 (bits - 1) in
  if negb (Z.land u sign =? 0) then wraps 128 (Z.lor u (notu 128 mask)) else wraps 128 u.

Definition shift_count {E} (t : ty) (raw : Z) : result E Z :=
  bits ← expect (ty_int_bits t); Ok (wrap_u raw t mod bits).

Definition const_not (t : ty) (value : const_value) : result const_error const_value :=
  match value with
  | ConstValue.I v =>
      if is_signed_int t then Ok (ConstValue.I (wrap_i (Z.lnot v) t))
      else Err ConstEvalError.UnsupportedOperation
  | ConstValue.U v =>
      if bool_decide (is_Some (ty_int_bits t)) then Ok (ConstValue.U (wrap_u (notu 128 v) t))
      else Err ConstEvalError.UnsupportedOperation
  | _ => Err ConstEvalError.UnsupportedOperation
  end.

Definition const_bin_float (op : ConstBinaryOp.t) (l r : const_value) : result const_error const_value :=
  match l, r with
  | ConstValue.F a, ConstValue.F b =>
      op ← match op with
           | ConstBinaryOp.Add => Ok BinOp.FAdd
           | ConstBinaryOp.Sub => Ok BinOp.FSub
           | ConstBinaryOp.Mul => Ok BinOp.FMul
           | ConstBinaryOp.Div => Ok BinOp.FDiv
           | ConstBinaryOp.Rem => Ok BinOp.FRem
           | _ => Err ConstEvalError.UnsupportedOperation
           end;
      value ← expect (arithmetic op a b);
      Ok (ConstValue.F value)
  | _, _ => Err ConstEvalError.UnsupportedOperation
  end.

Definition const_bin_signed (op : ConstBinaryOp.t) (t : ty) (l r : const_value) : result const_error const_value :=
  match l, r with
  | ConstValue.I a, ConstValue.I b =>
      raw ← match op with
        | ConstBinaryOp.Add => Ok (wraps 128 (a + b))
        | ConstBinaryOp.Sub => Ok (wraps 128 (a - b))
        | ConstBinaryOp.Mul => Ok (wraps 128 (a * b))
        | ConstBinaryOp.BitAnd => Ok (Z.land a b)
        | ConstBinaryOp.BitOr => Ok (Z.lor a b)
        | ConstBinaryOp.BitXor => Ok (Z.lxor a b)
        | ConstBinaryOp.Div => if b =? 0 then Err ConstEvalError.DivisionByZero else Ok (wraps 128 (Z.quot a b))
        | ConstBinaryOp.Rem => if b =? 0 then Err ConstEvalError.RemainderByZero else Ok (wraps 128 (Z.rem a b))
        | ConstBinaryOp.ShiftLeft => count ← shift_count t (wrapu 128 b); Ok (wraps 128 (Z.shiftl a count))
        | ConstBinaryOp.ShiftRight => count ← shift_count t (wrapu 128 b); Ok (Z.shiftr a count)
        | _ => Err ConstEvalError.UnsupportedOperation
        end;
      Ok (ConstValue.I (wrap_i raw t))
  | _, _ => Err ConstEvalError.UnsupportedOperation
  end.

Definition const_bin_unsigned (op : ConstBinaryOp.t) (t : ty) (l r : const_value) : result const_error const_value :=
  match l, r with
  | ConstValue.U a, ConstValue.U b =>
      raw ← match op with
        | ConstBinaryOp.Add => Ok (wrapu 128 (a + b))
        | ConstBinaryOp.Sub => Ok (wrapu 128 (a - b))
        | ConstBinaryOp.Mul => Ok (wrapu 128 (a * b))
        | ConstBinaryOp.BitAnd => Ok (Z.land a b)
        | ConstBinaryOp.BitOr => Ok (Z.lor a b)
        | ConstBinaryOp.BitXor => Ok (Z.lxor a b)
        | ConstBinaryOp.Div => if b =? 0 then Err ConstEvalError.DivisionByZero else Ok (a / b)
        | ConstBinaryOp.Rem => if b =? 0 then Err ConstEvalError.RemainderByZero else Ok (a mod b)
        | ConstBinaryOp.ShiftLeft => count ← shift_count t b; Ok (wrapu 128 (Z.shiftl a count))
        | ConstBinaryOp.ShiftRight => count ← shift_count t b; Ok (Z.shiftr a count)
        | _ => Err ConstEvalError.UnsupportedOperation
        end;
      Ok (ConstValue.U (wrap_u raw t))
  | _, _ => Err ConstEvalError.UnsupportedOperation
  end.

Definition const_bin (op : ConstBinaryOp.t) (t : ty) (l r : const_value) : result const_error const_value :=
  if float_type t then const_bin_float op l r
  else if bool_decide (is_Some (ty_int_bits t)) && negb (bool_decide (t = Ty.Bool)) then
    if is_signed_int t then const_bin_signed op t l r else const_bin_unsigned op t l r
  else Err ConstEvalError.UnsupportedOperation.

(** The generic comparison of the float branch of [const_cmp]. *)
Definition generic_compare (op : ConstCompareOp.t) : CmpOp.t :=
  match op with
  | ConstCompareOp.Eq => CmpOp.FEq
  | ConstCompareOp.Ne => CmpOp.FNe
  | ConstCompareOp.Lt => CmpOp.FLt
  | ConstCompareOp.Le => CmpOp.FLe
  | ConstCompareOp.Gt => CmpOp.FGt
  | ConstCompareOp.Ge => CmpOp.FGe
  end.
Definition order_test (op : ConstCompareOp.t) (a b : Z) : bool :=
  match op with
  | ConstCompareOp.Eq => a =? b
  | ConstCompareOp.Ne => negb (a =? b)
  | ConstCompareOp.Lt => a <? b
  | ConstCompareOp.Le => a <=? b
  | ConstCompareOp.Gt => b <? a
  | ConstCompareOp.Ge => b <=? a
  end.

Definition const_cmp (op : ConstCompareOp.t) (t : ty) (l r : const_value) : result const_error bool :=
  if float_type t then
    match l, r with
    | ConstValue.F a, ConstValue.F b =>
        predicate ← expect (float_predicate (generic_compare op));
        ok_or (float_compare a b predicate) ConstEvalError.TypeMismatch
    | _, _ => Err ConstEvalError.UnsupportedOperation
    end
  else if decide (t = Ty.Bool) then
    match l, r with
    | ConstValue.Bool a, ConstValue.Bool b =>
        match op with
        | ConstCompareOp.Eq => Ok (eqb a b)
        | ConstCompareOp.Ne => Ok (negb (eqb a b))
        | _ => Err ConstEvalError.UnsupportedOperation
        end
    | _, _ => Err ConstEvalError.UnsupportedOperation
    end
  else if bool_decide (is_Some (ty_int_bits t)) then
    if is_signed_int t then
      match l, r with
      | ConstValue.I a, ConstValue.I b => Ok (order_test op a b)
      | _, _ => Err ConstEvalError.UnsupportedOperation
      end
    else
      match l, r with
      | ConstValue.U a, ConstValue.U b => Ok (order_test op a b)
      | _, _ => Err ConstEvalError.UnsupportedOperation
      end
  else Err ConstEvalError.UnsupportedOperation.

(** A node of the tree: its path, innermost step first, and its expression. *)
Notation node := (list nat * const_expr)%type.
Definition child (n : node) (i : nat) (e : const_expr) : node := (i :: n.1, e).
Notation resolved_map := (gmap (list nat) const_value).

Definition numeric_type (t : ty) : bool := is_int t || float_type t.

Definition logical (op : ConstBinaryOp.t) : bool :=
  match op with ConstBinaryOp.LogicalAnd | ConstBinaryOp.LogicalOr => true | _ => false end.
Definition supported_binary (op : ConstBinaryOp.t) (t : ty) : bool :=
  if logical op then bool_decide (t = Ty.Bool)
  else if float_type t then
    match op with
    | ConstBinaryOp.Add | ConstBinaryOp.Sub | ConstBinaryOp.Mul | ConstBinaryOp.Div
    | ConstBinaryOp.Rem => true
    | _ => false
    end
  else bool_decide (is_Some (ty_int_bits t)).

Section evaluation.
Context (resolve : ConstRef.t → option (ty * const_value)).

(** One iteration of the validation loop: the nodes pushed, the budget left and the
    references resolved so far. *)
Definition inspect_step (n : node) (budget : Budget) (resolved : resolved_map)
    : result (const_error * node) (list node * Budget * resolved_map) :=
  let e := n.2 in
  let t := expr_ty e in
  match expr_kind e with
  | ConstExpr.Literal v =>
      if negb (valid_constant t v) then Err (ConstEvalError.InvalidLiteral, n)
      else Ok ([], budget, resolved)
  | ConstExpr.Reference reference =>
      '(ty', value) ← ok_or (resolve reference) (ConstEvalError.UnknownReference reference, n);
      match budget_ty ty' budget with
      | (Ok _, budget) =>
          if negb (bool_decide (ty' = t)) then Err (ConstEvalError.TypeMismatch, n)
          else if negb (valid_constant ty' value) then Err (ConstEvalError.InvalidLiteral, n)
          else Ok ([], budget, <[n.1 := value]> resolved)
      | (Err error, _) => Err (ConstEvalError.ResourceLimit error, n)
      | (Panic, _) => Panic
      end
  | ConstExpr.Neg value =>
      if negb (bool_decide (t = expr_ty value)) then Err (ConstEvalError.TypeMismatch, n)
      else if negb (bool_decide (is_Some (shape t))) && negb (float_type t)
      then Err (ConstEvalError.UnsupportedOperation, n)
      else Ok ([child n 0 value], budget, resolved)
  | ConstExpr.Not value =>
      if negb (bool_decide (t = expr_ty value)) then Err (ConstEvalError.TypeMismatch, n)
      else if negb (bool_decide (is_Some (ty_int_bits t)))
      then Err (ConstEvalError.UnsupportedOperation, n)
      else Ok ([child n 0 value], budget, resolved)
  | ConstExpr.Binary op l r =>
      if negb (bool_decide (expr_ty l = expr_ty r)) || negb (bool_decide (t = expr_ty l))
      then Err (ConstEvalError.TypeMismatch, n)
      else if negb (supported_binary op t) then Err (ConstEvalError.UnsupportedOperation, n)
      else Ok ([child n 0 l; child n 1 r], budget, resolved)
  | ConstExpr.Compare op l r =>
      if negb (bool_decide (expr_ty l = expr_ty r)) || negb (bool_decide (t = Ty.Bool))
      then Err (ConstEvalError.TypeMismatch, n)
      else if decide (expr_ty l = Ty.Bool) then
        match op with
        | ConstCompareOp.Eq | ConstCompareOp.Ne => Ok ([child n 0 l; child n 1 r], budget, resolved)
        | _ => Err (ConstEvalError.UnsupportedOperation, n)
        end
      else if negb (bool_decide (is_Some (ty_int_bits (expr_ty l)))) && negb (float_type (expr_ty l))
      then Err (ConstEvalError.UnsupportedOperation, n)
      else Ok ([child n 0 l; child n 1 r], budget, resolved)
  end.

Fixpoint inspect_loop (fuel : nat) (inspect : list node) (budget : Budget) (resolved : resolved_map)
    : result (const_error * node) resolved_map :=
  match fuel with
  | O => Panic
  | S fuel =>
      match inspect with
      | [] => Ok resolved
      | n :: inspect =>
          '(pushed, budget, resolved) ← inspect_step n budget resolved;
          inspect_loop fuel (pushed ++ inspect) budget resolved
      end
  end.

(** [values.pop().expect(..)]. *)
Definition pop {E A} (l : list A) : result E (A * list A) :=
  match l with [] => Panic | x :: l => Ok (x, l) end.

Definition at_node {A} (n : node) (r : result const_error A) : result (const_error * node) A :=
  map_err (λ e, (e, n)) r.

(** What one iteration of the evaluation loop does: push work, or a value. *)
Inductive eval_action := Continue (pending : list (node * nat)) | Value_ (value : const_value).

Definition eval_step (resolved : resolved_map) (n : node) (phase : nat) (values : list const_value)
    : result (const_error * node) (eval_action * list const_value) :=
  let e := n.2 in
  let t := expr_ty e in
  match expr_kind e with
  | ConstExpr.Literal value => Ok (Value_ value, values)
  | ConstExpr.Reference _ => value ← expect (resolved !! n.1); Ok (Value_ value, values)
  | ConstExpr.Neg value =>
      if (phase =? 0)%nat then Ok (Continue [(child n 0 value, 0%nat); (n, 1%nat)], values) else
      '(operand, values) ← pop values;
      value ← match operand with
              | ConstValue.F value => Ok (ConstValue.F (negate value))
              | value => neg_int t value
              end;
      Ok (Value_ value, values)
  | ConstExpr.Not value =>
      if (phase =? 0)%nat then Ok (Continue [(child n 0 value, 0%nat); (n, 1%nat)], values) else
      '(operand, values) ← pop values;
      value ← at_node n (const_not t operand);
      Ok (Value_ value, values)
  | ConstExpr.Binary op l r =>
      if logical op then
        if (phase =? 0)%nat then Ok (Continue [(child n 0 l, 0%nat); (n, 1%nat)], values) else
        '(value, values) ← pop values;
        match value with
        | ConstValue.Bool value =>
            if (phase =? 1)%nat
               && (bool_decide (op = ConstBinaryOp.LogicalAnd) && value
                   || bool_decide (op = ConstBinaryOp.LogicalOr) && negb value)
            then Ok (Continue [(child n 1 r, 0%nat); (n, 2%nat)], values)
            else Ok (Value_ (ConstValue.Bool value), values)
        | _ => Err (ConstEvalError.TypeMismatch, n)
        end
      else if (phase =? 0)%nat
      then Ok (Continue [(child n 0 l, 0%nat); (child n 1 r, 0%nat); (n, 1%nat)], values) else
      '(right_value, values) ← pop values;
      '(left_value, values) ← pop values;
      value ← at_node n (const_bin op (expr_ty l) left_value right_value);
      Ok (Value_ value, values)
  | ConstExpr.Compare op l r =>
      if (phase =? 0)%nat
      then Ok (Continue [(child n 0 l, 0%nat); (child n 1 r, 0%nat); (n, 1%nat)], values) else
      '(right_value, values) ← pop values;
      '(left_value, values) ← pop values;
      value ← at_node n (const_cmp op (expr_ty l) left_value right_value);
      Ok (Value_ (ConstValue.Bool value), values)
  end.

Fixpoint eval_loop (resolved : resolved_map) (fuel : nat) (pending : list (node * nat))
    (values : list const_value) : result (const_error * node) const_value :=
  match fuel with
  | O => Panic
  | S fuel =>
      match pending with
      | [] => '(value, _) ← pop values; Ok value
      | (n, phase) :: pending =>
          '(action, values) ← eval_step resolved n phase values;
          match action with
          | Continue pushed => eval_loop resolved fuel (pushed ++ pending) values
          | Value_ value =>
              if negb (valid_constant (expr_ty n.2) value) then Err (ConstEvalError.InvalidLiteral, n)
              else eval_loop resolved fuel pending (value :: values)
          end
      end
  end.

Definition evaluate_with_error_site (e : const_expr) (l : IrLimits)
    : result (const_error * node) const_value :=
  let root := ([], e) in
  budget ← map_err (λ error, (ConstEvalError.ResourceLimit error, root)) (new_budget l);
  match budget_expression e budget with
  | (Ok _, budget) =>
      resolved ← inspect_loop (S (expr_size e)) [root] budget ∅;
      eval_loop resolved (S (3 * expr_size e)) [(root, 0%nat)] []
  | (Err error, _) => Err (ConstEvalError.ResourceLimit error, root)
  | (Panic, _) => Panic
  end.

Definition evaluate_with_limits (e : const_expr) (l : IrLimits) : result const_error const_value :=
  map_err fst (evaluate_with_error_site e l).
Definition evaluate (e : const_expr) : result const_error const_value :=
  evaluate_with_limits e default_limits.
End evaluation.

(** ** Meaning

    The value of an expression, with the operators of the interpreter
    ([interpreter/integer.rs], [float/arithmetic.rs]). *)

Definition runtime_op (op : ConstBinaryOp.t) (t : ty) : BinOp.t :=
  let s := is_signed_int t in
  match op with
  | ConstBinaryOp.Add => if float_type t then BinOp.FAdd else BinOp.Add
  | ConstBinaryOp.Sub => if float_type t then BinOp.FSub else BinOp.Sub
  | ConstBinaryOp.Mul => if float_type t then BinOp.FMul else BinOp.Mul
  | ConstBinaryOp.Div => if float_type t then BinOp.FDiv else if s then BinOp.SDiv else BinOp.UDiv
  | ConstBinaryOp.Rem => if float_type t then BinOp.FRem else if s then BinOp.SRem else BinOp.URem
  | ConstBinaryOp.BitAnd | ConstBinaryOp.LogicalAnd => BinOp.And
  | ConstBinaryOp.BitOr | ConstBinaryOp.LogicalOr => BinOp.Or
  | ConstBinaryOp.BitXor => BinOp.Xor
  | ConstBinaryOp.ShiftLeft => BinOp.Shl
  | ConstBinaryOp.ShiftRight => if s then BinOp.AShr else BinOp.LShr
  end.

Definition runtime_predicate (op : ConstCompareOp.t) (t : ty) : ICmpPred.t :=
  let s := is_signed_int t in
  match op with
  | ConstCompareOp.Eq => ICmpPred.Eq
  | ConstCompareOp.Ne => ICmpPred.Ne
  | ConstCompareOp.Lt => if s then ICmpPred.Slt else ICmpPred.Ult
  | ConstCompareOp.Le => if s then ICmpPred.Sle else ICmpPred.Ule
  | ConstCompareOp.Gt => if s then ICmpPred.Sgt else ICmpPred.Ugt
  | ConstCompareOp.Ge => if s then ICmpPred.Sge else ICmpPred.Uge
  end.

Definition runtime_bin (op : ConstBinaryOp.t) (t : ty) (l r : const_value) : result TrapReason.t const_value :=
  match l, r with
  | ConstValue.F a, ConstValue.F b => z ← expect (arithmetic (runtime_op op t) a b); Ok (ConstValue.F z)
  | _, _ => bin (runtime_op op t) t l r
  end.

Definition runtime_compare (op : ConstCompareOp.t) (t : ty) (l r : const_value) : result TrapReason.t bool :=
  match l, r with
  | ConstValue.F a, ConstValue.F b =>
      predicate ← expect (float_predicate (generic_compare op)); expect (float_compare a b predicate)
  | _, _ => compare (runtime_predicate op t) t l r
  end.

Section meaning.
Context (resolve : ConstRef.t → option (ty * const_value)).

Fixpoint meaning (e : const_expr) : result TrapReason.t const_value :=
  let '(ConstExpr.mk t k) := e in
  match k with
  | ConstExpr.Literal v => Ok v
  | ConstExpr.Reference reference => p ← expect (resolve reference); Ok p.2
  | ConstExpr.Neg e =>
      v ← meaning e;
      match v with ConstValue.F b => Ok (ConstValue.F (negate b)) | v => neg_int t v end
  | ConstExpr.Not e => v ← meaning e; not_int t v
  | ConstExpr.Binary op l r =>
      if logical op then
        a ← meaning l;
        match a with
        | ConstValue.Bool b =>
            if bool_decide (op = ConstBinaryOp.LogicalAnd) && b || bool_decide (op = ConstBinaryOp.LogicalOr) && negb b
            then meaning r else Ok (ConstValue.Bool b)
        | _ => Panic
        end
      else a ← meaning l; b ← meaning r; runtime_bin op t a b
  | ConstExpr.Compare op l r =>
      a ← meaning l; b ← meaning r; c ← runtime_compare op (expr_ty l) a b; Ok (ConstValue.Bool c)
  end.

(** The typing rules of constant expressions. *)
Definition well_typed_node (e : const_expr) : bool :=
  let t := expr_ty e in
  match expr_kind e with
  | ConstExpr.Literal v => valid_constant t v
  | ConstExpr.Reference reference =>
      match resolve reference with
      | Some (t', v) => bool_decide (t' = t) && valid_constant t v
      | None => false
      end
  | ConstExpr.Neg e => bool_decide (expr_ty e = t) && numeric_type t
  | ConstExpr.Not e => bool_decide (expr_ty e = t) && is_int t
  | ConstExpr.Binary op l r =>
      bool_decide (expr_ty l = t) && bool_decide (expr_ty r = t) && supported_binary op t
  | ConstExpr.Compare op l r =>
      bool_decide (expr_ty l = expr_ty r) && bool_decide (t = Ty.Bool) &&
      (numeric_type (expr_ty l) ||
       bool_decide (expr_ty l = Ty.Bool) && match op with ConstCompareOp.Eq | ConstCompareOp.Ne => true | _ => false end)
  end.
Fixpoint well_typed (e : const_expr) : bool :=
  well_typed_node e &&
  match e with
  | ConstExpr.mk _ (ConstExpr.Neg e) | ConstExpr.mk _ (ConstExpr.Not e) => well_typed e
  | ConstExpr.mk _ (ConstExpr.Binary _ l r) | ConstExpr.mk _ (ConstExpr.Compare _ l r) =>
      well_typed l && well_typed r
  | _ => true
  end.
End meaning.

(** ** The operators agree with the interpreter's *)

Lemma ty_int_bits_shape t : ty_int_bits t = fst <$> shape t.
Proof. by destruct t. Qed.
Lemma is_signed_shape t bits s : shape t = Some (bits, s) → is_signed_int t = s.
Proof. by destruct t; intros [= <- <-]. Qed.
Lemma int_not_float t bits s : shape t = Some (bits, s) → float_type t = false ∧ t ≠ Ty.Bool.
Proof. by destruct t. Qed.

Lemma wrap_u_eq t bits s v : shape t = Some (bits, s) → 0 ≤ v < 2 ^ 128 → wrap_u v t = wrapu bits v.
Proof.
  intros Hs Hv. pose proof (shape_bits _ _ _ Hs). unfold wrap_u. rewrite ty_int_bits_shape, Hs. simpl.
  destruct (Z.leb_spec 128 bits).
  - replace bits with 128 by lia. by rewrite wrapu_id.
  - rewrite Z.shiftl_1_l. apply land_mask. lia.
Qed.

Lemma wrap_i_eq t bits s v : shape t = Some (bits, s) → - 2 ^ 127 ≤ v < 2 ^ 127 → wrap_i v t = wraps bits v.
Proof.
  intros Hs Hv. pose proof (shape_bits _ _ _ Hs). unfold wrap_i. rewrite ty_int_bits_shape, Hs. simpl.
  destruct (Z.leb_spec 128 bits).
  - replace bits with 128 by lia. symmetry. apply wraps_id; [lia|done].
  - pose proof (signed_wrapu bits v ltac:(lia)) as Hsw. unfold signed in Hsw.
    rewrite (proj2 (Z.ltb_lt bits 128)) in Hsw by lia. simpl in Hsw.
    rewrite mask_eq in Hsw by lia.
    rewrite (Z.shiftl_1_l bits), land_mask, wrapu_wrapu by lia. done.
Qed.

Lemma wrap_i_inject t bits v : shape t = Some (bits, true) → - 2 ^ 127 ≤ v < 2 ^ 127 →
  ConstValue.I (wrap_i v t) = inject t v.
Proof. intros Hs Hv. unfold inject, wrap. rewrite Hs. by rewrite (wrap_i_eq t bits true). Qed.
Lemma wrap_u_inject t bits v : shape t = Some (bits, false) → 0 ≤ v < 2 ^ 128 →
  ConstValue.U (wrap_u v t) = inject t v.
Proof. intros Hs Hv. unfold inject, wrap. rewrite Hs. by rewrite (wrap_u_eq t bits false). Qed.

Lemma has_type_signed t bits v : shape t = Some (bits, true) → has_type t v = true →
  ∃ x, v = ConstValue.I x ∧ - 2 ^ (bits - 1) ≤ x < 2 ^ (bits - 1) ∧ - 2 ^ 127 ≤ x < 2 ^ 127.
Proof.
  intros Hs [Hr Hv]%has_type_int; [|by eapply shape_is_int]. pose proof (shape_bits _ _ _ Hs).
  unfold int_range in Hr. rewrite Hs in Hr. apply in_s_spec in Hr.
  unfold inject in Hv. rewrite Hs in Hv.
  destruct v as [|x|x|]; try done. exists x. split; [done|]. simpl in Hr. split; [done|].
  pose proof (Z.pow_le_mono_r 2 (bits - 1) 127). lia.
Qed.
Lemma has_type_unsigned t bits v : shape t = Some (bits, false) → has_type t v = true →
  ∃ x, v = ConstValue.U x ∧ 0 ≤ x < 2 ^ bits ∧ 0 ≤ x < 2 ^ 128.
Proof.
  intros Hs [Hr Hv]%has_type_int; [|by eapply shape_is_int]. pose proof (shape_bits _ _ _ Hs).
  unfold int_range in Hr. rewrite Hs in Hr. apply in_u_spec in Hr.
  unfold inject in Hv. rewrite Hs in Hv.
  destruct v as [|x|x|]; try done. exists x. split; [done|]. simpl in Hr. split; [done|].
  pose proof (Z.pow_le_mono_r 2 bits 128). lia.
Qed.

(** The constant error of a trap of the interpreter. *)
Definition error_of_trap (e : TrapReason.t) : const_error :=
  match e with
  | TrapReason.DivisionByZero => ConstEvalError.DivisionByZero
  | TrapReason.RemainderByZero => ConstEvalError.RemainderByZero
  | _ => ConstEvalError.UnsupportedOperation
  end.

Lemma shift_count_eq {E} t bits s v : shape t = Some (bits, s) → 0 ≤ v < 2 ^ 128 →
  @shift_count E t v = Ok (wrapu bits v mod bits).
Proof.
  intros Hs Hv. unfold shift_count. rewrite ty_int_bits_shape, Hs. simpl.
  by rewrite (wrap_u_eq t bits s).
Qed.

Lemma bitop_s_range op x y : op = Z.land ∨ op = Z.lor ∨ op = Z.lxor →
  - 2 ^ 127 ≤ x < 2 ^ 127 → - 2 ^ 127 ≤ y < 2 ^ 127 → - 2 ^ 127 ≤ op x y < 2 ^ 127.
Proof.
  intros Hop Hx Hy. 
  assert (∀ z, - 2 ^ 127 ≤ z < 2 ^ 127 ↔ Z.shiftr z 127 = 0 ∨ Z.shiftr z 127 = -1) as Hsh.
  { intros z. rewrite Z.shiftr_div_pow2 by lia. pose proof (Z.div_mod z (2 ^ 127)).
    pose proof (Z.mod_pos_bound z (2 ^ 127)). split; intros; [|lia].
    destruct (Z.neg_nonneg_cases z); [right|left]; symmetry.
    - apply (Z.div_unique _ _ _ (z + 2 ^ 127)); lia.
    - apply (Z.div_unique _ _ _ z); lia. }
  apply Hsh in Hx, Hy. apply Hsh.
  destruct Hop as [->|[->| ->]]; rewrite ?Z.shiftr_land, ?Z.shiftr_lor, ?Z.shiftr_lxor;
    destruct Hx as [->| ->], Hy as [->| ->]; first [by left|by right].
Qed.

Lemma const_bin_runtime op t bits s l r :
  shape t = Some (bits, s) → logical op = false → has_type t l = true → has_type t r = true →
  const_bin op t l r = map_err error_of_trap (runtime_bin op t l r).
Proof.
  intros Hs Hop Hl Hr. pose proof (shape_bits _ _ _ Hs) as Hb.
  destruct (int_not_float t bits s Hs) as [Hf Hbool].
  assert (runtime_bin op t l r = bin (runtime_op op t) t l r) as ->.
  { pose proof (has_type_not_float t l (shape_is_int _ _ _ Hs) Hl). by destruct l. }
  rewrite (bin_exact t bits s) by done.
  unfold const_bin, runtime_op. rewrite Hf, ty_int_bits_shape, Hs, (is_signed_shape _ _ _ Hs).
  rewrite bool_decide_eq_true_2 by (by eexists). rewrite bool_decide_eq_false_2 by done. cbn [andb negb].
  pose proof (wrap_denote _ _ _ _ Hs Hl) as Hwl. pose proof (wrap_denote _ _ _ _ Hs Hr) as Hwr.
  destruct s.
  - destruct (has_type_signed t bits l Hs Hl) as (x & -> & Hx & Hx'), (has_type_signed t bits r Hs Hr) as (y & -> & Hy & Hy').
    cbn [denote] in *. unfold const_bin_signed.
    assert (wrapu bits y = 0 ↔ y = 0) as Hzero.
    { split; [|intros ->; apply Zmod_0_l]. intros Hz. rewrite <- Hwr.
      rewrite <- (wraps_wrapu bits y), Hz by lia. apply wraps_id; [lia|]. pose proof (pow2_pos (bits - 1)). lia. }
    assert ((wrapu bits y =? 0) = (y =? 0)) as Hz0.
    { destruct (Z.eqb_spec y 0) as [Hy0|Hy0]; [by apply Z.eqb_eq, Hzero|apply Z.eqb_neq; tauto]. }
    assert (∀ z, Ok (ConstValue.I (wrap_i (wraps 128 z) t)) = Ok (E := const_error) (inject t z)) as Hinj.
    { intros z. rewrite (wrap_i_inject t bits) by first [done|apply (wraps_range 128); lia]. f_equal. eapply inject_wraps; [done|lia]. }
    assert (∀ z, - 2 ^ 127 ≤ z < 2 ^ 127 → Ok (ConstValue.I (wrap_i z t)) = Ok (E := const_error) (inject t z)) as Hinj'.
    { intros z Hz. by rewrite (wrap_i_inject t bits). }
    assert (wrapu bits (wrapu 128 y) = wrapu bits y) as Hcount by (apply wrapu_wrapu; lia).
    pose proof (wrapu_range 128 y ltac:(lia)) as Hy128.
    pose proof (Z.mod_pos_bound (wrapu bits y) bits ltac:(lia)).
    destruct op; try done; cbn [int_semantics mbind result_bind fmap result_fmap map_err];
      rewrite ?(shift_count_eq t bits true), ?Hcount by done; cbn [mbind result_bind map_err];
      rewrite ?Z.shiftl_mul_pow2, ?Z.shiftr_div_pow2, ?Hinj by lia; try done.
    all: try (apply Hinj', bitop_s_range; auto).
    + rewrite Hz0. destruct (y =? 0); [done|].
      cbn [mbind result_bind fmap result_fmap map_err]. by rewrite Hinj, Hwl, Hwr.
    + rewrite Hz0. destruct (y =? 0); [done|].
      cbn [mbind result_bind fmap result_fmap map_err]. by rewrite Hinj, Hwl, Hwr.
    + rewrite Hwl. apply Hinj'. set (c := wrapu bits y mod bits) in *. pose proof (pow2_pos c ltac:(lia)).
      split; [apply Z.div_le_lower_bound; nia|apply Z.div_lt_upper_bound; nia].
  - destruct (has_type_unsigned t bits l Hs Hl) as (x & -> & Hx & Hx'), (has_type_unsigned t bits r Hs Hr) as (y & -> & Hy & Hy').
    cbn [denote] in *. unfold const_bin_unsigned.
    assert (∀ z, Ok (ConstValue.U (wrap_u (wrapu 128 z) t)) = Ok (E := const_error) (inject t z)) as Hinj.
    { intros z. rewrite (wrap_u_inject t bits) by first [done|apply (wrapu_range 128); lia]. f_equal. eapply inject_wrapu; [done|lia]. }
    assert (∀ z, 0 ≤ z < 2 ^ 128 → Ok (ConstValue.U (wrap_u z t)) = Ok (E := const_error) (inject t z)) as Hinj'.
    { intros z Hz. by rewrite (wrap_u_inject t bits). }
    pose proof (Z.mod_pos_bound (wrapu bits y) bits ltac:(lia)).
    destruct op; try done; cbn [int_semantics mbind result_bind fmap result_fmap map_err];
      rewrite ?(shift_count_eq t bits false) by done; cbn [mbind result_bind map_err];
      rewrite ?Z.shiftl_mul_pow2, ?Z.shiftr_div_pow2, ?Hinj by lia; try done.
    + apply Hinj', land_u_range; lia.
    + apply Hinj', lor_u_range; lia.
    + apply Hinj', lxor_u_range; lia.
    + rewrite Hwl, Hwr. destruct (Z.eqb_spec y 0); [done|]. cbn [mbind result_bind fmap result_fmap map_err].
      apply Hinj'. split; [apply Z.div_pos; lia|]. apply Z.div_lt_upper_bound; nia.
    + rewrite Hwl, Hwr. destruct (Z.eqb_spec y 0); [done|]. cbn [mbind result_bind fmap result_fmap map_err].
      apply Hinj'. pose proof (Z.mod_pos_bound x y). lia.
    + rewrite Hwl. apply Hinj'. set (c := wrapu bits y mod bits) in *. pose proof (pow2_pos c ltac:(lia)).
      split; [apply Z.div_pos; lia|apply Z.div_lt_upper_bound; nia].
Qed.

Lemma const_cmp_runtime op t bits s l r :
  shape t = Some (bits, s) → has_type t l = true → has_type t r = true →
  ∃ b, const_cmp op t l r = Ok b ∧ runtime_compare op t l r = Ok b.
Proof.
  intros Hs Hl Hr. pose proof (shape_bits _ _ _ Hs) as Hb.
  destruct (int_not_float t bits s Hs) as [Hf Hbool].
  assert (runtime_compare op t l r = compare (runtime_predicate op t) t l r) as ->.
  { pose proof (has_type_not_float t l (shape_is_int _ _ _ Hs) Hl). by destruct l. }
  rewrite (compare_exact t bits s) by done. unfold const_cmp, runtime_predicate.
  rewrite Hf, decide_False, ty_int_bits_shape, Hs, (is_signed_shape _ _ _ Hs) by done.
  rewrite bool_decide_eq_true_2 by (by eexists).
  pose proof (wrap_denote _ _ _ _ Hs Hl) as Hwl. pose proof (wrap_denote _ _ _ _ Hs Hr) as Hwr.
  pose proof (wrapu_denote_inj t bits s l r Hs Hl Hr) as Hinj.
  assert ((wrapu bits (denote l) =? wrapu bits (denote r)) = (denote l =? denote r)) as Heq.
  { destruct (Z.eqb_spec (denote l) (denote r)) as [->|]; [apply Z.eqb_refl|].
    apply Z.eqb_neq. tauto. }
  destruct s.
  - destruct (has_type_signed t bits l Hs Hl) as (x & -> & Hx & Hx'), (has_type_signed t bits r Hs Hr) as (y & -> & Hy & Hy').
    cbn [denote] in *. eexists. split; [done|].
    destruct op; cbn [compare_semantics order_test]; rewrite ?Heq, ?Hwl, ?Hwr; done.
  - destruct (has_type_unsigned t bits l Hs Hl) as (x & -> & Hx & Hx'), (has_type_unsigned t bits r Hs Hr) as (y & -> & Hy & Hy').
    cbn [denote] in *. eexists. split; [done|].
    destruct op; cbn [compare_semantics order_test]; rewrite ?Heq, ?Hwl, ?Hwr; done.
Qed.

Lemma const_not_runtime t v : is_int t = true → has_type t v = true →
  ∃ w, const_not t v = Ok w ∧ not_int t v = Ok w ∧ has_type t w = true.
Proof.
  intros (bits & s & Hs)%is_int_shape Hv. pose proof (shape_bits _ _ _ Hs). pose proof (shape_is_int _ _ _ Hs) as Hi.
  pose proof (wrap_denote _ _ _ _ Hs Hv) as Hw.
  exists (inject t (Z.lnot (denote v))). split_and!; [| |by apply has_type_inject].
  - unfold const_not. destruct s.
    + destruct (has_type_signed t bits v Hs Hv) as (x & -> & Hx & Hx'). rewrite (is_signed_shape _ _ _ Hs).
      rewrite (wrap_i_inject t bits); [done|done|]. unfold Z.lnot. lia.
    + destruct (has_type_unsigned t bits v Hs Hv) as (x & -> & Hx & Hx'). rewrite ty_int_bits_shape, Hs.
      rewrite bool_decide_eq_true_2 by (by eexists).
      rewrite (wrap_u_inject t bits); [|done|apply (wrapu_range 128); lia].
      f_equal. eapply inject_wrapu; [done|lia].
  - unfold not_int. rewrite Hs. cbn [expect mbind result_bind]. erewrite raw_has_type by done. cbn [mbind result_bind].
    rewrite pack_eq by done. f_equal. unfold notu. rewrite (inject_wrapu t bits s) by (done || lia).
    eapply inject_congr; [done|]. unfold Z.lnot.
    replace (_ - _) with (- (wrapu bits (denote v) - denote v)) by lia.
    apply Z.divide_opp_r, wrapu_congr. lia.
Qed.

Lemma neg_int_ok {E} t v : is_int t = true → has_type t v = true →
  ∃ w, @neg_int E t v = Ok w ∧ has_type t w = true.
Proof.
  intros Hi Hv. destruct (is_int_shape t Hi) as (bits & s & Hs). unfold neg_int. rewrite Hs.
  cbn [expect mbind result_bind]. erewrite raw_has_type by done. cbn [mbind result_bind].
  rewrite pack_eq by done. eexists. split; [done|]. by apply has_type_inject.
Qed.

(** Float results keep their format. *)
Lemma f_bits_format x v : format_of (f_bits (format_of x) v) = format_of x.
Proof. by destruct x. Qed.
Lemma f_pack_format x neg m e : format_of (f_pack (format_of x) neg m e) = format_of x.
Proof.
  unfold f_pack, f_special. repeat (case_match; try apply f_bits_format).
Qed.

Definition float_op (op : BinOp.t) : bool :=
  match op with BinOp.FAdd | BinOp.FSub | BinOp.FMul | BinOp.FDiv | BinOp.FRem => true | _ => false end.

Lemma arithmetic_format op x y : float_op op = true → format_of x = format_of y →
  ∃ z, arithmetic op x y = Some z ∧ format_of z = format_of x.
Proof.
  intros Hop Hf. unfold arithmetic.
  assert (width x = width y) as -> by (by destruct x, y). rewrite Z.eqb_refl. cbn [negb].
  destruct (_ || _); [eexists; split; [done|apply f_bits_format]|].
  generalize (normalize (format_of x) (unpack (format_of x) x)).
  match goal with |- context [normalize _ ?b] => generalize (normalize (format_of x) b) end.
  intros b a. destruct op; try done; eexists; (split; [done|]).
  1,2: unfold add_parts, add_ordered, f_special, f_nan;
    repeat (case_match; try apply f_bits_format; try apply f_pack_format).
  - unfold mul_parts, f_special, f_nan. repeat (case_match; try apply f_bits_format; try apply f_pack_format).
  - unfold div_parts, f_special, f_nan. repeat (case_match; try apply f_bits_format; try apply f_pack_format).
  - unfold rem_parts, f_nan. destruct (_ || _); [apply f_bits_format|]. destruct (_ || _); [done|].
    apply f_pack_format.
Qed.

Lemma valid_float t v : float_type t = true → valid_constant t v = true →
  ∃ x, v = ConstValue.F x ∧ ∀ y, format_of y = format_of x → valid_constant t (ConstValue.F y) = true.
Proof.
  destruct t, v as [|?|?|x]; try done; intros _; destruct x as [x|x|x]; try done; intros _;
    eexists; (split; [done|]); by intros [].
Qed.

Lemma valid_float_format t x y : float_type t = true →
  valid_constant t (ConstValue.F x) = true → valid_constant t (ConstValue.F y) = true →
  format_of x = format_of y ∧ width x = width y.
Proof. by destruct t, x, y. Qed.

(** A value of the type; the integer carriers are in range. *)
Definition typed (t : ty) (v : const_value) : Prop :=
  valid_constant t v = true ∧ (is_int t = true → has_type t v = true).

Lemma has_type_typed t v : has_type t v = true → typed t v.
Proof. intros Hv. split; [|done]. unfold has_type in Hv. by apply andb_true_iff in Hv as [-> _]. Qed.
Lemma typed_bool t v : t = Ty.Bool → typed t v → ∃ b, v = ConstValue.Bool b.
Proof. intros -> [Hv _]. destruct v as [b| | |]; try done. by exists b. Qed.
Lemma typed_boolean b : typed Ty.Bool (ConstValue.Bool b).
Proof. by apply has_type_typed. Qed.

(** Binary operators and comparisons on operands of a supported type. *)
Lemma const_bin_typed op t l r : logical op = false → supported_binary op t = true →
  typed t l → typed t r →
  const_bin op t l r = map_err error_of_trap (runtime_bin op t l r) ∧
  match runtime_bin op t l r with
  | Ok v => typed t v
  | Err e => e = TrapReason.DivisionByZero ∨ e = TrapReason.RemainderByZero
  | Panic => False
  end.
Proof.
  intros Hlog Hsup [Hl Hl'] [Hr Hr']. unfold supported_binary in Hsup. rewrite Hlog in Hsup.
  destruct (float_type t) eqn:Hf.
  - destruct (valid_float t l Hf Hl) as (x & -> & Hx), (valid_float t r Hf Hr) as (y & -> & _).
    destruct (valid_float_format t x y Hf Hl Hr) as [Hxy _].
    assert (float_op (runtime_op op t) = true) as Hop by (unfold runtime_op; rewrite Hf; by destruct op).
    destruct (arithmetic_format (runtime_op op t) x y Hop Hxy) as (z & Hz & Hfz).
    unfold const_bin, const_bin_float, runtime_bin. rewrite Hf, Hz. cbn [expect mbind result_bind map_err]. split.
    + unfold runtime_op in Hz. rewrite Hf in Hz. destruct op; try done; cbn [mbind result_bind]; by rewrite Hz.
    + split; [by apply Hx|]. by destruct t.
  - apply bool_decide_eq_true in Hsup as [bits' Hbits]. rewrite ty_int_bits_shape in Hbits.
    destruct (shape t) as [[bits s]|] eqn:Hs; [|done]. pose proof (shape_is_int _ _ _ Hs) as Hi.
    specialize (Hl' Hi). specialize (Hr' Hi). split; [by eapply const_bin_runtime|].
    assert (runtime_bin op t l r = bin (runtime_op op t) t l r) as ->.
    { pose proof (has_type_not_float t l Hi Hl'). by destruct l. }
    rewrite (bin_exact t bits s) by done. unfold runtime_op. rewrite Hf.
    destruct op, (is_signed_int t); try done; cbn [int_semantics];
      try destruct (wrapu bits (denote r) =? 0); cbn [fmap result_fmap];
      first [by left|by right|by apply has_type_typed, has_type_inject].
Qed.

Lemma const_cmp_typed op t l r :
  numeric_type t || bool_decide (t = Ty.Bool) && match op with ConstCompareOp.Eq | ConstCompareOp.Ne => true | _ => false end = true →
  typed t l → typed t r → ∃ b, const_cmp op t l r = Ok b ∧ runtime_compare op t l r = Ok b.
Proof.
  intros Hsup [Hl Hl'] [Hr Hr']. unfold numeric_type in Hsup. destruct (float_type t) eqn:Hf.
  - destruct (valid_float t l Hf Hl) as (x & -> & _), (valid_float t r Hf Hr) as (y & -> & _).
    destruct (valid_float_format t x y Hf Hl Hr) as [_ Hw].
    unfold const_cmp, runtime_compare. rewrite Hf.
    assert (∃ p, float_predicate (generic_compare op) = Some p) as [p ->] by (destruct op; by eexists).
    cbn [expect mbind result_bind].
    assert (∃ b, float_compare x y p = Some b) as [b ->].
    { unfold float_compare. rewrite Hw, Z.eqb_refl. cbn [negb]. destruct x; eexists; reflexivity. }
    by exists b.
  - rewrite orb_false_r in Hsup. destruct (is_int t) eqn:Hi.
    + destruct (is_int_shape t Hi) as (bits & s & Hs). apply (const_cmp_runtime op t bits s); auto.
    + simpl in Hsup. apply andb_true_iff in Hsup as [->%bool_decide_eq_true Hop].
      destruct l as [a| | |], r as [b| | |]; try done. unfold const_cmp. cbn [float_type].
      rewrite decide_True by done. destruct op; try done; destruct a, b; eexists; split; reflexivity.
Qed.

(** ** Validation *)

Section expr_induction.
Context (P : const_expr → Prop).
Context (HLit : ∀ t v, P (ConstExpr.mk t (ConstExpr.Literal v)))
  (HRef : ∀ t r, P (ConstExpr.mk t (ConstExpr.Reference r)))
  (HNeg : ∀ t e, P e → P (ConstExpr.mk t (ConstExpr.Neg e)))
  (HNot : ∀ t e, P e → P (ConstExpr.mk t (ConstExpr.Not e)))
  (HBin : ∀ t op l r, P l → P r → P (ConstExpr.mk t (ConstExpr.Binary op l r)))
  (HCmp : ∀ t op l r, P l → P r → P (ConstExpr.mk t (ConstExpr.Compare op l r))).
Fixpoint expr_ind_nested (e : const_expr) : P e :=
  match e with
  | ConstExpr.mk t k =>
      match k with
      | ConstExpr.Literal v => HLit t v
      | ConstExpr.Reference r => HRef t r
      | ConstExpr.Neg e => HNeg t e (expr_ind_nested e)
      | ConstExpr.Not e => HNot t e (expr_ind_nested e)
      | ConstExpr.Binary op l r => HBin t op l r (expr_ind_nested l) (expr_ind_nested r)
      | ConstExpr.Compare op l r => HCmp t op l r (expr_ind_nested l) (expr_ind_nested r)
      end
  end.
End expr_induction.

(** The errors of an ill-typed expression. *)
Definition type_error (e : const_error) : bool :=
  match e with
  | ConstEvalError.InvalidLiteral | ConstEvalError.TypeMismatch
  | ConstEvalError.UnsupportedOperation | ConstEvalError.UnknownReference _ => true
  | _ => false
  end.

(** [references] lists the references of an expression in evaluation order. *)
Fixpoint refs_of (e : const_expr) : list ConstRef.t :=
  match e with
  | ConstExpr.mk _ (ConstExpr.Literal _) => []
  | ConstExpr.mk _ (ConstExpr.Reference r) => [r]
  | ConstExpr.mk _ (ConstExpr.Neg e) | ConstExpr.mk _ (ConstExpr.Not e) => refs_of e
  | ConstExpr.mk _ (ConstExpr.Binary _ l r) | ConstExpr.mk _ (ConstExpr.Compare _ l r) => refs_of l ++ refs_of r
  end.

(** A resource that [n] nodes under the demand [fits] exceed. *)
Definition falls_short (n : nat) (fits : demand) (b : Budget) (error : LimitError) : Prop :=
  ∃ r, error = exceeded (limits b) r ∧
    if decide (r = Resource.Nodes) then remaining b < Z.of_nat n else ¬ fits r.

Lemma falls_short_mono n n' fits fits' b error :
  (n ≤ n')%nat → (∀ r, fits' r → fits r) →
  falls_short n fits b error → falls_short n' fits' b error.
Proof. intros Hn Hf (r & -> & Hr). exists r. split; [done|]. case_decide; [lia|naive_solver]. Qed.
Lemma falls_short_spend k n fits b error :
  falls_short n fits (spend k b) error → falls_short (k + n) fits b error.
Proof. intros (r & -> & Hr). exists r. split; [done|]. simpl in Hr. case_decide; [lia|done]. Qed.

Definition budget_state := (Budget * resolved_map)%type.

Section correctness.
Context (resolve : ConstRef.t → option (ty * const_value)).

(** The map holds what every reference of the subtree at [p] resolves to. *)
Fixpoint bound (p : list nat) (e : const_expr) (res : resolved_map) : Prop :=
  match e with
  | ConstExpr.mk _ k =>
      match k with
      | ConstExpr.Literal _ => True
      | ConstExpr.Reference r => ∃ t v, resolve r = Some (t, v) ∧ res !! p = Some v
      | ConstExpr.Neg e | ConstExpr.Not e => bound (0%nat :: p) e res
      | ConstExpr.Binary _ l r | ConstExpr.Compare _ l r =>
          bound (0%nat :: p) l res ∧ bound (1%nat :: p) r res
      end
  end.

(** Maps that agree outside the subtree at [p]. *)
Definition same_outside (p : list nat) (res res' : resolved_map) : Prop :=
  ∀ q, ¬ p `suffix_of` q → res' !! q = res !! q.

Lemma bound_ext e : ∀ p res res', (∀ q, p `suffix_of` q → res' !! q = res !! q) →
  bound p e res → bound p e res'.
Proof.
  induction e using expr_ind_nested; intros p res res' Hq; simpl; try done.
  - intros (t' & v & Hr & Hv). exists t', v. split; [done|]. by rewrite Hq.
  - apply IHe. intros q Hs. apply Hq. by eapply suffix_cons_l.
  - apply IHe. intros q Hs. apply Hq. by eapply suffix_cons_l.
  - intros [Hl Hr]. split; [eapply IHe1; [|done]|eapply IHe2; [|done]];
      intros q Hs; apply Hq; by eapply suffix_cons_l.
  - intros [Hl Hr]. split; [eapply IHe1; [|done]|eapply IHe2; [|done]];
      intros q Hs; apply Hq; by eapply suffix_cons_l.
Qed.

Lemma suffix_apart (p q : list nat) i j : i ≠ j → (i :: p) `suffix_of` q → ¬ (j :: p) `suffix_of` q.
Proof.
  intros Hij [k ->] [k' Hk].
  replace (k ++ i :: p) with ((k ++ [i]) ++ p) in Hk by (by rewrite <- app_assoc).
  replace (k' ++ j :: p) with ((k' ++ [j]) ++ p) in Hk by (by rewrite <- app_assoc).
  apply app_inv_tail, app_inj_tail in Hk as [_ ?]. done.
Qed.

(** The types that the references of an expression resolve to are charged as well. *)
Definition resolved_types (e : const_expr) : list ty := omap (λ r, fst <$> resolve r) (refs_of e).
Definition resolved_nodes (e : const_expr) : nat := sum_list_with ty_nodes (resolved_types e).
Definition resolved_fits (l : IrLimits) (e : const_expr) : demand :=
  each (type_fits l) (resolved_types e).

(** What the inspection of the subtree [e] at [p] leads to, before [rest]. *)
Definition inspected (e : const_expr) (p : list nat) (rest : list node) (k : nat)
    (b : Budget) (res : resolved_map) (r : result (const_error * node) resolved_map) : Prop :=
  (∃ error n, r = Err (ConstEvalError.ResourceLimit error, n) ∧
     falls_short (resolved_nodes e) (resolved_fits (limits b) e) b error) ∨
  (well_typed resolve e = false ∧ ∃ x n, type_error x = true ∧ r = Err (x, n)) ∨
  (well_typed resolve e = true ∧ Z.of_nat (resolved_nodes e) ≤ remaining b ∧
     (∀ r, resolved_fits (limits b) e r) ∧ ∃ res', bound p e res' ∧ same_outside p res res' ∧
     r = inspect_loop resolve k rest (spend (resolved_nodes e) b) res').

Lemma spend_0 b : spend 0 b = b.
Proof. destruct b. unfold spend. simpl. by rewrite Z.sub_0_r. Qed.
Lemma spend_add m n b : spend n (spend m b) = spend (m + n) b.
Proof. unfold spend. simpl. f_equal. lia. Qed.

Lemma inspect_leaf e p rest k b res :
  match expr_kind e with ConstExpr.Literal _ | ConstExpr.Reference _ => True | _ => False end →
  0 ≤ remaining b →
  inspected e p rest k b res (inspect_loop resolve (1 + k) ((p, e) :: rest) b res).
Proof.
  intros Hleaf Hb. destruct e as [t kd]. unfold inspected. cbn [Nat.add inspect_loop]. unfold inspect_step.
  cbn [fst snd expr_ty expr_kind] in *. cbn [well_typed]. unfold well_typed_node. cbn [expr_ty expr_kind].
  unfold resolved_nodes, resolved_fits, resolved_types.
  destruct kd as [| |v|r| |]; try done; cbn [refs_of list_omap].
  - destruct (valid_constant t v); cbn [negb andb mbind result_bind].
    + right; right. split; [done|]. split; [done|]. split; [intros r; constructor|]. exists res.
      split; [done|]. split; [by intros q _|].
      simpl. by rewrite spend_0.
    + right; left. split; [done|]. eexists _, _. by split; [|reflexivity].
  - cbn [omap list_omap]. destruct (resolve r) as [[t' v]|] eqn:Hr; cbn [ok_or mbind result_bind fmap option_fmap option_map fst].
    2: { right; left. split; [done|]. eexists _, _. by split; [|reflexivity]. }
    cbn [sum_list_with]. rewrite Nat.add_0_r.
    destruct (budget_ty_walk t' b Hb) as [(Hfits & Hn & ->)|(rs & b' & -> & _ & Hrs)].
    2: { left. eexists _, _. split; [reflexivity|]. exists rs. split; [done|].
         case_decide; [done|]. rewrite each_cons. tauto. }
    case_bool_decide as Ht; cbn [negb andb].
    2: { right; left. split; [done|]. eexists _, _. by split; [|reflexivity]. }
    subst t'. destruct (valid_constant t v) eqn:Hv; cbn [negb andb mbind result_bind].
    + right; right. split; [done|]. split; [done|].
      split; [intros r0; rewrite each_cons; split; [done|constructor]|]. exists (<[p := v]> res).
      split; [exists t, v; split; [done|by rewrite lookup_insert_eq]|].
      split; [|done]. intros q Hq. apply lookup_insert_ne. intros ->. by apply Hq.
    + right; left. split; [done|]. eexists _, _. by split; [|reflexivity].
Qed.

Definition children (n : node) : list node :=
  match expr_kind n.2 with
  | ConstExpr.Neg e | ConstExpr.Not e => [child n 0 e]
  | ConstExpr.Binary _ l r | ConstExpr.Compare _ l r => [child n 0 l; child n 1 r]
  | _ => []
  end.

(** An inner node is accepted exactly when it is well typed. *)
Definition accepted (n : node) (b : Budget) (res : resolved_map) : Prop :=
  (well_typed_node resolve n.2 = true ∧ inspect_step resolve n b res = Ok (children n, b, res)) ∨
  (well_typed_node resolve n.2 = false ∧ ∃ x, type_error x = true ∧ inspect_step resolve n b res = Err (x, n)).

Ltac decide_types :=
  repeat match goal with
  | |- context [bool_decide (?a = ?b)] =>
      let Heq := fresh in destruct (decide (a = b)) as [Heq|Heq];
      [rewrite (bool_decide_eq_true_2 (a = b)) by exact Heq
      |rewrite (bool_decide_eq_false_2 (a = b)) by exact Heq];
      try congruence
  end.
Ltac accept := by left.
Ltac refuse := right; split; [done|]; eexists; by split; [|reflexivity].

Lemma int_bits_bool t : bool_decide (is_Some (ty_int_bits t)) = is_int t.
Proof. rewrite ty_int_bits_shape. unfold is_int. by destruct (shape t). Qed.
Lemma shape_bool t : bool_decide (is_Some (shape t)) = is_int t.
Proof. unfold is_int. by destruct (shape t). Qed.

Lemma inspect_step_inner n b res :
  match expr_kind n.2 with ConstExpr.Literal _ | ConstExpr.Reference _ => False | _ => True end →
  accepted n b res.
Proof.
  intros Hinner. unfold accepted, inspect_step, well_typed_node, children, numeric_type.
  destruct n as [p [t k]]. cbn [fst snd expr_ty expr_kind] in *.
  destruct k as [e|e| | |op l r|op l r]; try done; rewrite ?int_bits_bool, ?shape_bool; decide_types; cbn [negb andb orb].
  all: try solve [refuse].
  - destruct (is_int t); [accept|refuse].
  - destruct (is_int t), (float_type t); first [accept|refuse].
  - destruct (supported_binary op t); [accept|refuse].
  - assert (is_int (expr_ty l) || float_type (expr_ty l) = false) as -> by (replace (expr_ty l) with Ty.Bool; done).
    destruct op; first [accept|refuse].
  - destruct (is_int (expr_ty l)), (float_type (expr_ty l)); first [accept|refuse].
Qed.

(** One and two subtrees, after the node itself. *)
Lemma inspect_one e t kd p rest k b res :
  (∀ p rest k b res, 0 ≤ remaining b →
    inspected e p rest k b res (inspect_loop resolve (expr_size e + k) ((p, e) :: rest) b res)) →
  kd = ConstExpr.Neg e ∨ kd = ConstExpr.Not e → 0 ≤ remaining b →
  inspected (ConstExpr.mk t kd) p rest k b res
    (inspect_loop resolve (S (expr_size e) + k) ((p, ConstExpr.mk t kd) :: rest) b res).
Proof.
  intros IH Hkd Hb. unfold inspected.
  assert (well_typed resolve (ConstExpr.mk t kd) = well_typed_node resolve (ConstExpr.mk t kd) && well_typed resolve e
    ∧ children (p, ConstExpr.mk t kd) = [(0%nat :: p, e)] ∧ refs_of (ConstExpr.mk t kd) = refs_of e ∧
    ∀ res, bound p (ConstExpr.mk t kd) res ↔ bound (0%nat :: p) e res) as (Hwt & Hch & Hrefs & Hbound)
    by (by destruct Hkd as [-> | ->]).
  unfold resolved_fits, resolved_nodes, resolved_types. rewrite Hwt, Hrefs. cbn [Nat.add inspect_loop].
  destruct (inspect_step_inner (p, ConstExpr.mk t kd) b res) as [[Hn Hstep]|(Hn & x & Hx & Hstep)];
    [by destruct Hkd as [-> | ->]|cbn [snd] in Hn; rewrite Hn, Hstep..].
  - rewrite Hch. cbn [mbind result_bind app andb].
    destruct (IH (0%nat :: p) rest k b res Hb) as [?|[?|(? & ? & ? & res' & ? & Hsame & ?)]]; [by left|by right; left|].
    right; right. split; [done|]. split; [done|]. split; [done|]. exists res'. split; [by apply Hbound|].
    split; [|done]. intros q Hq. apply Hsame. contradict Hq. by eapply suffix_cons_l.
  - right; left. split; [done|]. by exists x, (p, ConstExpr.mk t kd).
Qed.

Lemma inspect_two l r t kd p rest k b res :
  (∀ p rest k b res, 0 ≤ remaining b →
    inspected l p rest k b res (inspect_loop resolve (expr_size l + k) ((p, l) :: rest) b res)) →
  (∀ p rest k b res, 0 ≤ remaining b →
    inspected r p rest k b res (inspect_loop resolve (expr_size r + k) ((p, r) :: rest) b res)) →
  (∃ op, kd = ConstExpr.Binary op l r) ∨ (∃ op, kd = ConstExpr.Compare op l r) → 0 ≤ remaining b →
  inspected (ConstExpr.mk t kd) p rest k b res
    (inspect_loop resolve (S (expr_size l + expr_size r) + k) ((p, ConstExpr.mk t kd) :: rest) b res).
Proof.
  intros IHl IHr Hkd Hb. unfold inspected.
  assert (well_typed resolve (ConstExpr.mk t kd) =
      well_typed_node resolve (ConstExpr.mk t kd) && (well_typed resolve l && well_typed resolve r)
    ∧ children (p, ConstExpr.mk t kd) = [(0%nat :: p, l); (1%nat :: p, r)]
    ∧ refs_of (ConstExpr.mk t kd) = refs_of l ++ refs_of r ∧
    ∀ res, bound p (ConstExpr.mk t kd) res ↔ bound (0%nat :: p) l res ∧ bound (1%nat :: p) r res)
    as (Hwt & Hch & Hrefs & Hbound) by (by destruct Hkd as [[op ->]|[op ->]]).
  assert (resolved_types (ConstExpr.mk t kd) = resolved_types l ++ resolved_types r) as Htys
    by (unfold resolved_types; by rewrite Hrefs, omap_app).
  assert (resolved_nodes (ConstExpr.mk t kd) = resolved_nodes l + resolved_nodes r)%nat as Hnodes
    by (unfold resolved_nodes; by rewrite Htys, sum_list_with_app).
  assert (∀ l0 r0, resolved_fits l0 (ConstExpr.mk t kd) r0 ↔ resolved_fits l0 l r0 ∧ resolved_fits l0 r r0) as Hfits
    by (intros; unfold resolved_fits; by rewrite Htys, each_app).
  rewrite Hwt, Hnodes. cbn [Nat.add inspect_loop].
  destruct (inspect_step_inner (p, ConstExpr.mk t kd) b res) as [[Hn Hstep]|(Hn & x & Hx & Hstep)];
    [by destruct Hkd as [[op ->]|[op ->]]|cbn [snd] in Hn; rewrite Hn, Hstep..].
  - rewrite Hch. cbn [mbind result_bind app andb]. rewrite <- Nat.add_assoc.
    destruct (IHl (0%nat :: p) ((1%nat :: p, r) :: rest) (expr_size r + k)%nat b res Hb)
      as [(error & n & -> & Hshort)|[(Hl & x & n & Hx & ->)|(Hl & Hn1 & Hf1 & res1 & Hbl & Hsame1 & ->)]].
    { left. eexists _, _. split; [done|]. eapply falls_short_mono; [|intros ?|done]; [lia|].
      rewrite Hfits. tauto. }
    { right; left. rewrite Hl. split; [done|]. by exists x, n. }
    destruct (IHr (1%nat :: p) rest k (spend (resolved_nodes l) b) res1)
      as [(error & n & -> & Hshort)|[(Hr & x & n & Hx & ->)|(Hr & Hn2 & Hf2 & res2 & Hbr & Hsame2 & ->)]];
      [simpl; lia| | |].
    { left. eexists _, _. split; [done|]. apply falls_short_spend in Hshort.
      eapply falls_short_mono; [|intros ?|done]; [lia|]. rewrite Hfits. tauto. }
    { right; left. rewrite Hl, Hr. split; [done|]. by exists x, n. }
    right; right. rewrite Hl, Hr. split; [done|]. simpl in Hn2. split; [lia|].
    split; [intros ?; rewrite Hfits; split; [apply Hf1|apply Hf2]|]. exists res2.
    rewrite <- spend_add. split; [apply Hbound; split; [|done]|].
    + eapply bound_ext; [|exact Hbl]. intros q Hq. apply Hsame2. by eapply suffix_apart.
    + split; [|done]. intros q Hq. rewrite Hsame2, Hsame1; [done|..]; contradict Hq; by eapply suffix_cons_l.
  - right; left. split; [done|]. by exists x, (p, ConstExpr.mk t kd).
Qed.

Lemma inspect_correct e : ∀ p rest k b res, 0 ≤ remaining b →
  inspected e p rest k b res (inspect_loop resolve (expr_size e + k) ((p, e) :: rest) b res).
Proof.
  induction e as [t v|t r|t e IH|t e IH|t op l r IHl IHr|t op l r IHl IHr] using expr_ind_nested; intros p rest k b res Hb.
  - by apply inspect_leaf.
  - by apply inspect_leaf.
  - apply inspect_one; auto.
  - apply inspect_one; auto.
  - apply inspect_two; eauto.
  - apply inspect_two; eauto.
Qed.

(** ** Evaluation *)

(** The literals are in range of their Rust carriers. *)
Fixpoint literals_ok (e : const_expr) : bool :=
  match e with
  | ConstExpr.mk _ (ConstExpr.Literal v) => carrier_ok v
  | ConstExpr.mk _ (ConstExpr.Reference _) => true
  | ConstExpr.mk _ (ConstExpr.Neg e) | ConstExpr.mk _ (ConstExpr.Not e) => literals_ok e
  | ConstExpr.mk _ (ConstExpr.Binary _ l r) | ConstExpr.mk _ (ConstExpr.Compare _ l r) =>
      literals_ok l && literals_ok r
  end.
Definition resolve_ok : Prop := ∀ r t v,
  resolve r = Some (t, v) → is_int t = true → carrier_ok v = true.

Lemma step_value res k n phase rest vals v vals' :
  eval_step res n phase vals = Ok (Value_ v, vals') → valid_constant (expr_ty n.2) v = true →
  eval_loop res (S k) ((n, phase) :: rest) vals = eval_loop res k rest (v :: vals').
Proof. intros Hs Hv. cbn [eval_loop]. rewrite Hs. cbn [mbind result_bind]. by rewrite Hv. Qed.

Lemma step_continue res k n phase rest vals pushed vals' :
  eval_step res n phase vals = Ok (Continue pushed, vals') →
  eval_loop res (S k) ((n, phase) :: rest) vals = eval_loop res k (pushed ++ rest) vals'.
Proof. intros Hs. cbn [eval_loop]. by rewrite Hs. Qed.

Lemma step_error res k n phase rest vals e :
  eval_step res n phase vals = Err e → eval_loop res (S k) ((n, phase) :: rest) vals = Err e.
Proof. intros Hs. cbn [eval_loop]. by rewrite Hs. Qed.

(** What evaluating [e] at [p] does to the machine, from phase 0, within [n] steps. *)
Definition outcome (res : resolved_map) (e : const_expr) (p : list nat) (rest : list (node * nat))
    (vals : list const_value) (n k : nat) : Prop :=
  match meaning resolve e with
  | Ok v => typed (expr_ty e) v ∧
      eval_loop res (n + k) ((p, e, 0%nat) :: rest) vals = eval_loop res k rest (v :: vals)
  | Err tr => (tr = TrapReason.DivisionByZero ∨ tr = TrapReason.RemainderByZero) ∧
      ∃ site, eval_loop res (n + k) ((p, e, 0%nat) :: rest) vals = Err (error_of_trap tr, site)
  | Panic => False
  end.
Definition evaluates (res : resolved_map) (e : const_expr) : Prop := ∀ p rest vals,
  bound p e res → ∃ n, (n ≤ 3 * expr_size e)%nat ∧ ∀ k, outcome res e p rest vals n k.

Lemma evaluates_leaf res e v :
  match expr_kind e with ConstExpr.Literal _ | ConstExpr.Reference _ => True | _ => False end →
  meaning resolve e = Ok v → typed (expr_ty e) v →
  (∀ p vals, bound p e res → eval_step res (p, e) 0 vals = Ok (Value_ v, vals)) →
  evaluates res e.
Proof.
  intros Hk Hm Hv Hs p rest vals Hb. exists 1%nat. split; [destruct e as [? []]; simpl; lia|].
  intros k. unfold outcome. rewrite Hm. split; [done|]. eapply step_value; [by apply Hs|apply Hv].
Qed.

(** A unary node: its operand, then a value. *)
Lemma evaluates_unary res e t kd (f : const_value → result TrapReason.t const_value) :
  kd = ConstExpr.Neg e ∨ kd = ConstExpr.Not e →
  evaluates res e →
  meaning resolve (ConstExpr.mk t kd) = (v ← meaning resolve e; f v) →
  (∀ v, typed (expr_ty e) v → ∃ w, f v = Ok w ∧ typed t w ∧
     ∀ p vals, eval_step res (p, ConstExpr.mk t kd) 1 (v :: vals) = Ok (Value_ w, vals)) →
  evaluates res (ConstExpr.mk t kd).
Proof.
  intros Hkd IH Hm Hf p rest vals Hb.
  assert (bound (0%nat :: p) e res ∧ expr_size (ConstExpr.mk t kd) = S (expr_size e) ∧
    eval_step res (p, ConstExpr.mk t kd) 0 vals =
      Ok (Continue [(0%nat :: p, e, 0%nat); (p, ConstExpr.mk t kd, 1%nat)], vals)) as (Hbe & Hsz & Hstep)
    by (by destruct Hkd as [-> | ->]).
  destruct (IH (0%nat :: p) ((p, ConstExpr.mk t kd, 1%nat) :: rest) vals Hbe) as (n & Hn & Hout).
  exists (S (n + 1)). split; [lia|]. intros k. unfold outcome. rewrite Hm.
  specialize (Hout (S k)). unfold outcome in Hout.
  cbn [Nat.add]. rewrite (step_continue _ _ _ _ _ _ _ _ Hstep). cbn [app].
  replace (n + 1 + k)%nat with (n + S k)%nat by lia.
  destruct (meaning resolve e) as [v|tr|]; cbn [mbind result_bind]; [|done|done].
  destruct Hout as [Hv ->]. destruct (Hf v Hv) as (w & -> & Hw & Hs1). split; [done|].
  eapply step_value; [apply Hs1|apply Hw].
Qed.

(** A strict binary node: its operands from left to right, then a value or a trap. *)
Lemma evaluates_binary res l r t kd (f : const_value → const_value → result TrapReason.t const_value) :
  (∃ op, kd = ConstExpr.Binary op l r ∧ logical op = false) ∨ (∃ op, kd = ConstExpr.Compare op l r) →
  evaluates res l → evaluates res r →
  meaning resolve (ConstExpr.mk t kd) = (v ← meaning resolve l; w ← meaning resolve r; f v w) →
  (∀ v w, typed (expr_ty l) v → typed (expr_ty r) w →
    match f v w with
    | Ok z => typed t z ∧ ∀ p vals, eval_step res (p, ConstExpr.mk t kd) 1 (w :: v :: vals) = Ok (Value_ z, vals)
    | Err tr => (tr = TrapReason.DivisionByZero ∨ tr = TrapReason.RemainderByZero) ∧
        ∀ p vals, eval_step res (p, ConstExpr.mk t kd) 1 (w :: v :: vals) =
          Err (error_of_trap tr, (p, ConstExpr.mk t kd))
    | Panic => False
    end) →
  evaluates res (ConstExpr.mk t kd).
Proof.
  intros Hkd IHl IHr Hm Hf p rest vals Hb.
  assert (bound (0%nat :: p) l res ∧ bound (1%nat :: p) r res ∧
    expr_size (ConstExpr.mk t kd) = S (expr_size l + expr_size r) ∧
    eval_step res (p, ConstExpr.mk t kd) 0 vals =
      Ok (Continue [(0%nat :: p, l, 0%nat); (1%nat :: p, r, 0%nat); (p, ConstExpr.mk t kd, 1%nat)], vals))
    as (Hbl & Hbr & Hsz & Hstep).
  { destruct Hkd as [(op & -> & Hlog)|[op ->]]; destruct Hb; [|done].
    unfold eval_step. cbn [fst snd expr_kind]. by rewrite Hlog. }
  destruct (IHl (0%nat :: p) ((1%nat :: p, r, 0%nat) :: (p, ConstExpr.mk t kd, 1%nat) :: rest) vals Hbl) as (nl & Hnl & Houtl).
  destruct (meaning resolve l) as [v|tr|] eqn:Hml.
  - destruct (IHr (1%nat :: p) ((p, ConstExpr.mk t kd, 1%nat) :: rest) (v :: vals) Hbr) as (nr & Hnr & Houtr).
    exists (S (nl + nr + 1)). split; [lia|]. intros k. unfold outcome. rewrite Hm.
    specialize (Houtl (nr + S k)%nat). specialize (Houtr (S k)). unfold outcome in Houtl, Houtr.
    cbn [Nat.add]. rewrite (step_continue _ _ _ _ _ _ _ _ Hstep). cbn [app].
    replace (nl + nr + 1 + k)%nat with (nl + (nr + S k))%nat by lia.
    rewrite Hml in Houtl. destruct Houtl as [Hv ->]. cbn [mbind result_bind].
    destruct (meaning resolve r) as [w|tr|]; cbn [mbind result_bind]; [|done|done].
    destruct Houtr as [Hw ->]. specialize (Hf v w Hv Hw).
    destruct (f v w) as [z|tr|]; [|split; [apply Hf|]|done].
    + destruct Hf as [Hz Hs1]. split; [done|]. eapply step_value; [apply Hs1|apply Hz].
    + eexists. apply step_error, Hf.
  - exists (S nl). split; [lia|]. intros k. unfold outcome. rewrite Hm. specialize (Houtl k).
    unfold outcome in Houtl. cbn [Nat.add]. rewrite (step_continue _ _ _ _ _ _ _ _ Hstep). cbn [app].
    rewrite Hml in Houtl. done.
  - specialize (Houtl 0%nat). unfold outcome in Houtl. by rewrite Hml in Houtl.
Qed.

(** A logical node: the right operand only when the left one does not decide. *)
Lemma evaluates_logical res l r op :
  logical op = true → expr_ty l = Ty.Bool → expr_ty r = Ty.Bool →
  evaluates res l → evaluates res r →
  evaluates res (ConstExpr.mk Ty.Bool (ConstExpr.Binary op l r)).
Proof.
  intros Hop Hl Hr IHl IHr p rest vals [Hbl Hbr]. set (e := ConstExpr.mk Ty.Bool _).
  assert (∀ phase vals, eval_step res (p, e) phase vals =
    if (phase =? 0)%nat then Ok (Continue [(0%nat :: p, l, 0%nat); (p, e, 1%nat)], vals) else
    '(value, values) ← pop vals;
    match value with
    | ConstValue.Bool value =>
        if (phase =? 1)%nat
           && (bool_decide (op = ConstBinaryOp.LogicalAnd) && value
               || bool_decide (op = ConstBinaryOp.LogicalOr) && negb value)
        then Ok (Continue [(1%nat :: p, r, 0%nat); (p, e, 2%nat)], values)
        else Ok (Value_ (ConstValue.Bool value), values)
    | _ => Err (ConstEvalError.TypeMismatch, (p, e))
    end) as Hstep.
  { intros phase vals'. unfold eval_step, e. cbn [fst snd expr_kind]. by rewrite Hop. }
  destruct (IHl (0%nat :: p) ((p, e, 1%nat) :: rest) vals Hbl) as (nl & Hnl & Houtl).
  assert (expr_size e = S (expr_size l + expr_size r)) as Hsz by done.
  assert (meaning resolve e = a ← meaning resolve l;
    match a with
    | ConstValue.Bool b =>
        if bool_decide (op = ConstBinaryOp.LogicalAnd) && b || bool_decide (op = ConstBinaryOp.LogicalOr) && negb b
        then meaning resolve r else Ok (ConstValue.Bool b)
    | _ => Panic
    end) as Hm by (unfold e; cbn [meaning]; by rewrite Hop).
  assert (∀ k, eval_loop res (S k) ((p, e, 0%nat) :: rest) vals =
    eval_loop res k ((0%nat :: p, l, 0%nat) :: (p, e, 1%nat) :: rest) vals) as Hfirst.
  { intros k. eapply (step_continue _ _ _ _ _ _ [_; _]). by rewrite Hstep. }
  assert (expr_ty e = Ty.Bool) as Hty by done. clearbody e.
  destruct (meaning resolve l) as [v|tr|] eqn:Hml.
  2: { exists (S nl). split; [lia|]. intros k. unfold outcome. rewrite Hm. specialize (Houtl k).
       unfold outcome in Houtl. cbn [Nat.add]. rewrite Hfirst, Hml in *. done. }
  2: { specialize (Houtl 0%nat). unfold outcome in Houtl. by rewrite Hml in Houtl. }
  assert (typed (expr_ty l) v) as Hv.
  { specialize (Houtl 0%nat). unfold outcome in Houtl. rewrite Hml in Houtl. apply Houtl. }
  destruct (typed_bool _ v Hl Hv) as [b ->]. cbn [mbind result_bind] in Hm.
  destruct (bool_decide (op = ConstBinaryOp.LogicalAnd) && b || bool_decide (op = ConstBinaryOp.LogicalOr) && negb b) eqn:Hgo.
  - destruct (IHr (1%nat :: p) ((p, e, 2%nat) :: rest) vals Hbr) as (nr & Hnr & Houtr).
    exists (S (nl + S (nr + 1))). split; [lia|]. intros k. unfold outcome. rewrite Hm, Hty.
    specialize (Houtl (S (nr + S k))). specialize (Houtr (S k)). unfold outcome in Houtl, Houtr.
    cbn [Nat.add]. rewrite Hfirst. replace (nl + S (nr + 1) + k)%nat with (nl + S (nr + S k))%nat by lia.
    rewrite Hml in Houtl. destruct Houtl as [_ ->].
    rewrite (step_continue _ _ _ _ _ _ [(1%nat :: p, r, 0%nat); (p, e, 2%nat)] vals)
      by (rewrite Hstep; cbn [Nat.eqb pop mbind result_bind]; by rewrite Hgo).
    cbn [app]. destruct (meaning resolve r) as [w|tr|]; [|done|done].
    destruct Houtr as [Hw ->]. destruct (typed_bool _ w Hr Hw) as [c ->]. split; [apply typed_boolean|].
    eapply step_value; [by rewrite Hstep|]. cbn [snd]. by rewrite Hty.
  - exists (S (nl + 1)). split; [lia|]. intros k. unfold outcome. rewrite Hm, Hty.
    specialize (Houtl (S k)). unfold outcome in Houtl. cbn [Nat.add]. rewrite Hfirst.
    replace (nl + 1 + k)%nat with (nl + S k)%nat by lia.
    rewrite Hml in Houtl. destruct Houtl as [_ ->]. split; [apply typed_boolean|].
    eapply step_value; [rewrite Hstep; cbn [Nat.eqb pop mbind result_bind]; by rewrite Hgo|]. cbn [snd]. by rewrite Hty.
Qed.

Lemma valid_typed t v :
  valid_constant t v = true → (is_int t = true → carrier_ok v = true) → typed t v.
Proof. intros Hv Hc. split; [done|]. intros Hi. unfold has_type. by rewrite Hv, Hc. Qed.

Lemma well_typed_inner t k : well_typed resolve (ConstExpr.mk t k) = true →
  well_typed_node resolve (ConstExpr.mk t k) = true.
Proof. cbn [well_typed]. by intros [? _]%andb_true_iff. Qed.

Lemma evaluates_neg res e t : evaluates res e → expr_ty e = t → numeric_type t = true →
  evaluates res (ConstExpr.mk t (ConstExpr.Neg e)).
Proof.
  intros IH Ht Hnum.
  apply (evaluates_unary res e t _ (λ v, match v with ConstValue.F b => Ok (ConstValue.F (negate b)) | v => neg_int t v end));
    [by left|done|done|].
  rewrite Ht. intros v [Hv Hint]. unfold numeric_type in Hnum. destruct (float_type t) eqn:Hf.
  - destruct (valid_float t v Hf Hv) as (x & -> & Hx). exists (ConstValue.F (negate x)).
    split; [done|]. split; [|done]. split; [apply Hx; unfold negate; apply f_bits_format|by destruct t].
  - rewrite orb_false_r in Hnum. specialize (Hint Hnum).
    pose proof (has_type_not_float t v Hnum Hint) as Hnf.
    destruct (neg_int_ok (E := TrapReason.t) t v Hnum Hint) as (w & Hw & Htw).
    destruct (neg_int_ok (E := const_error * node) t v Hnum Hint) as (w' & Hw' & _).
    exists w. split; [by destruct v|]. split; [by apply has_type_typed|]. intros p vals.
    unfold eval_step. cbn [fst snd expr_ty expr_kind Nat.eqb pop mbind result_bind].
    assert (w' = w) as ->.
    { unfold neg_int, pack in Hw, Hw'. destruct (is_int_shape t Hnum) as (bits & s & Hs). rewrite Hs in Hw, Hw'.
      cbn [expect mbind result_bind] in Hw, Hw'. erewrite (raw_has_type t bits s) in Hw by done.
      erewrite (raw_has_type t bits s) in Hw' by done. cbn [mbind result_bind] in Hw, Hw'. destruct s; congruence. }
    destruct v; try done; by rewrite Hw'.
Qed.

Lemma evaluates_not res e t : evaluates res e → expr_ty e = t → is_int t = true →
  evaluates res (ConstExpr.mk t (ConstExpr.Not e)).
Proof.
  intros IH Ht Hi. apply (evaluates_unary res e t _ (not_int t)); [by right|done|done|].
  rewrite Ht. intros v [_ Hint]. destruct (const_not_runtime t v Hi (Hint Hi)) as (w & Hw & Hw' & Htw).
  exists w. split; [done|]. split; [by apply has_type_typed|]. intros p vals.
  unfold eval_step. cbn [fst snd expr_ty expr_kind Nat.eqb pop mbind result_bind]. by rewrite Hw.
Qed.

(** The machine computes the meaning of every well-typed expression. *)
Lemma evaluates_all res e : resolve_ok → well_typed resolve e = true → literals_ok e = true → evaluates res e.
Proof.
  intros Hres.
  induction e as [t v|t r|t e IH|t e IH|t op l r IHl IHr|t op l r IHl IHr] using expr_ind_nested;
    intros Hwt Hlit; pose proof (well_typed_inner _ _ Hwt) as Hnode; cbn [well_typed literals_ok] in Hwt, Hlit;
    apply andb_true_iff in Hwt as [_ Hwt]; unfold well_typed_node in Hnode; cbn [expr_ty expr_kind] in Hnode.
  - apply (evaluates_leaf res _ v); [done|done|by apply valid_typed|done].
  - destruct (resolve r) as [[t' v]|] eqn:Hr; [|done].
    apply andb_true_iff in Hnode as [->%bool_decide_eq_true Hv].
    apply (evaluates_leaf res _ v); [done|cbn [meaning]; by rewrite Hr|apply valid_typed; [done|by eapply Hres]|].
    intros p vals (t' & v' & Hr' & Hp). unfold eval_step. cbn [fst snd expr_kind]. rewrite Hp.
    rewrite Hr in Hr'. by injection Hr' as <- <-.
  - apply andb_true_iff in Hnode as [Ht%bool_decide_eq_true Hnum]. by apply evaluates_neg; [apply IH|..].
  - apply andb_true_iff in Hnode as [Ht%bool_decide_eq_true Hnum]. by apply evaluates_not; [apply IH|..].
  - apply andb_true_iff in Hwt as [Hwl Hwr], Hlit as [Hll Hlr].
    apply andb_true_iff in Hnode as [[Hl%bool_decide_eq_true Hr%bool_decide_eq_true]%andb_true_iff Hsup].
    specialize (IHl Hwl Hll). specialize (IHr Hwr Hlr). destruct (logical op) eqn:Hop.
    + unfold supported_binary in Hsup. rewrite Hop in Hsup. apply bool_decide_eq_true in Hsup as ->.
      by apply evaluates_logical.
    + apply (evaluates_binary res l r t _ (runtime_bin op t)); [left; by exists op|done|done|cbn [meaning]; by rewrite Hop|].
      rewrite Hl, Hr. intros v w Hv Hw.
      destruct (const_bin_typed op t v w Hop Hsup Hv Hw) as [Hcb Hout].
      assert (∀ p vals, eval_step res (p, ConstExpr.mk t (ConstExpr.Binary op l r)) 1 (w :: v :: vals) =
        value ← at_node (p, ConstExpr.mk t (ConstExpr.Binary op l r)) (map_err error_of_trap (runtime_bin op t v w));
        Ok (Value_ value, vals)) as Hstep.
      { intros p vals. unfold eval_step. cbn [fst snd expr_ty expr_kind Nat.eqb]. rewrite Hop, Hl.
        cbn [pop mbind result_bind]. by rewrite Hcb. }
      destruct (runtime_bin op t v w) as [z|tr|]; [split; [done|]; intros; by rewrite Hstep..|done].
  - apply andb_true_iff in Hwt as [Hwl Hwr], Hlit as [Hll Hlr].
    apply andb_true_iff in Hnode as [[Hl%bool_decide_eq_true Ht%bool_decide_eq_true]%andb_true_iff Hsup].
    specialize (IHl Hwl Hll). specialize (IHr Hwr Hlr). subst t.
    apply (evaluates_binary res l r Ty.Bool _ (λ a b, c ← runtime_compare op (expr_ty l) a b; Ok (ConstValue.Bool c)));
      [right; by exists op|done|done|done|].
    rewrite <- Hl. intros v w Hv Hw. destruct (const_cmp_typed op (expr_ty l) v w Hsup Hv Hw) as (b & Hc & Hrc).
    rewrite Hrc. cbn [mbind result_bind]. split; [apply typed_boolean|]. intros p vals.
    unfold eval_step. cbn [fst snd expr_ty expr_kind Nat.eqb pop mbind result_bind]. by rewrite Hc.
Qed.
End correctness.

Lemma references_loop_eq e : ∀ rest found k,
  references_loop (expr_size e + k) (e :: rest) found = references_loop k rest (found ++ refs_of e).
Proof.
  induction e as [t v|t r|t e IH|t e IH|t op l r IHl IHr|t op l r IHl IHr] using expr_ind_nested;
    intros rest found k; cbn [expr_size Nat.add references_loop expr_kind refs_of].
  - by rewrite app_nil_r.
  - done.
  - apply IH.
  - apply IH.
  - by rewrite <- Nat.add_assoc, IHl, IHr, <- app_assoc.
  - by rewrite <- Nat.add_assoc, IHl, IHr, <- app_assoc.
Qed.
Lemma references_eq e : references e = Ok (refs_of e).
Proof.
  unfold references. pose proof (references_loop_eq e [] [] 1) as He.
  rewrite Nat.add_1_r in He. by rewrite He.
Qed.

Definition sample_resolve (r : ConstRef.t) : option (ty * const_value) :=
  match r with ConstRef.Global (mkGlobalId 7) => Some (Ty.I8, ConstValue.I 100) | _ => None end.
(** [(g7 + 100 < 0) && (1 / 0 == 0)] at [I8]. *)
Definition sample_expr : const_expr :=
  let lit v := literal Ty.I8 (ConstValue.I v) in
  ConstExpr.mk Ty.Bool (ConstExpr.Binary ConstBinaryOp.LogicalAnd
    (ConstExpr.mk Ty.Bool (ConstExpr.Compare ConstCompareOp.Lt
      (ConstExpr.mk Ty.I8 (ConstExpr.Binary ConstBinaryOp.Add
        (ConstExpr.mk Ty.I8 (ConstExpr.Reference (ConstRef.Global (mkGlobalId 7)))) (lit 100))) (lit 0)))
    (ConstExpr.mk Ty.Bool (ConstExpr.Compare ConstCompareOp.Eq
      (ConstExpr.mk Ty.I8 (ConstExpr.Binary ConstBinaryOp.Div (lit 1) (lit 0))) (lit 0)))).

(** What the evaluation of an expression takes from the budget, and the limits it must keep: its own
    nodes and types, and the types its references resolve to. *)
Definition evaluation_nodes (resolve : ConstRef.t → option (ty * const_value)) (e : const_expr) : nat :=
  expr_nodes e + resolved_nodes resolve e.
Definition evaluation_fits (resolve : ConstRef.t → option (ty * const_value)) (l : IrLimits)
    (e : const_expr) : demand :=
  both (expr_fits l e) (resolved_fits resolve l e).
Definition within_limits (resolve : ConstRef.t → option (ty * const_value)) (l : IrLimits)
    (e : const_expr) : Prop :=
  max_type_depth l ≤ Z.of_nat MAX_IR_NESTING ∧ max_const_depth l ≤ Z.of_nat MAX_IR_NESTING ∧
  Z.of_nat (evaluation_nodes resolve e) ≤ max_nodes l ∧ ∀ r, evaluation_fits resolve l e r.
(** The limit an error names is one that the expression exceeds. *)
Definition over_limit (resolve : ConstRef.t → option (ty * const_value)) (l : IrLimits)
    (e : const_expr) (error : LimitError) : Prop :=
  error = exceeded l (resource error) ∧
  match resource error with
  | Resource.Configuration => Z.of_nat MAX_IR_NESTING < Z.max (max_type_depth l) (max_const_depth l)
  | Resource.Nodes => max_nodes l < Z.of_nat (evaluation_nodes resolve e)
  | Resource.TypeDepth =>
      ∃ t, t ∈ expr_types e ++ resolved_types resolve e ∧ max_type_depth l < Z.of_nat (ty_depth t)
  | Resource.ConstantDepth => max_const_depth l < Z.of_nat (expr_depth e)
  | _ => False
  end.

Lemma each_type_short l ts r :
  ¬ each (type_fits l) ts r →
  r = Resource.TypeDepth ∧ ∃ t, t ∈ ts ∧ max_type_depth l < Z.of_nat (ty_depth t).
Proof.
  unfold each. intros (t & Ht & Hf)%not_Forall_Exists%Exists_exists; [|intros t; unfold type_fits; apply _].
  unfold type_fits in Hf. destruct (decide (r = Resource.TypeDepth)) as [->|Hr]; [|by destruct Hf].
  split; [done|]. exists t. split; [done|]. apply Z.lt_nge. intros ?. by apply Hf.
Qed.

Lemma falls_short_over resolve l e error :
  falls_short (evaluation_nodes resolve e) (evaluation_fits resolve l e) (mkBudget l (max_nodes l)) error →
  over_limit resolve l e error.
Proof.
  intros (r & -> & Hr). split; [done|]. simpl in *. case_decide; [by subst r|].
  unfold evaluation_fits, both, expr_fits, both in Hr.
  destruct (decide (each (type_fits l) (expr_types e ++ resolved_types resolve e) r)) as [Hf|Hf].
  - apply each_app in Hf. destruct (decide (const_fits l e r)) as [|Hc]; [by destruct Hr; tauto|].
    unfold const_fits in Hc. destruct (decide (r = Resource.ConstantDepth)) as [->|?]; [|by destruct Hc].
    apply Z.lt_nge. intros ?. by apply Hc.
  - by apply each_type_short in Hf as [-> Ht].
Qed.

Lemma evaluation_outcome resolve e l
    (Hl : 0 ≤ max_nodes l) (Hr : resolve_ok resolve) (He : literals_ok e = true) :
  match evaluate_with_error_site resolve e l with
  | Ok v => within_limits resolve l e ∧ well_typed resolve e = true ∧
      meaning resolve e = Ok v ∧ typed (expr_ty e) v
  | Err (ConstEvalError.ResourceLimit error, _) => over_limit resolve l e error
  | Err (x, _) => (type_error x = true ∧ well_typed resolve e = false) ∨
      (within_limits resolve l e ∧ well_typed resolve e = true ∧
        ∃ tr, meaning resolve e = Err tr ∧ x = error_of_trap tr ∧
          (tr = TrapReason.DivisionByZero ∨ tr = TrapReason.RemainderByZero))
  | Panic => False
  end.
Proof.
  unfold evaluate_with_error_site, new_budget, validate_limits.
  destruct (_ || _) eqn:Hv; cbn [map_err mbind result_bind].
  { apply orb_true_iff in Hv. rewrite !Z.ltb_lt in Hv. split; [done|]. simpl. lia. }
  apply orb_false_iff in Hv as [Hv1%Z.ltb_ge Hv2%Z.ltb_ge].
  set (b := mkBudget l (max_nodes l)).
  destruct (budget_expression_walk e b Hl) as [(Hf1 & Hn1 & ->)|(r & b' & -> & _ & Hr')].
  2: { apply falls_short_over, (falls_short_mono (expr_nodes e) _ (expr_fits l e)); [|by intros r0 []|by exists r].
       unfold evaluation_nodes. lia. }
  assert (0 ≤ remaining (spend (expr_nodes e) b)) as Hrem' by (simpl in *; lia).
  pose proof (inspect_correct resolve e [] [] 1 _ ∅ Hrem') as Hins. rewrite Nat.add_1_r in Hins.
  destruct Hins as [(x & n & -> & Hshort)|[(Hwt & x & n & Hx & ->)|(Hwt & Hn2 & Hf2 & res & Hbd & _ & ->)]];
    cbn [mbind result_bind].
  - apply falls_short_over, (falls_short_mono (expr_nodes e + resolved_nodes resolve e) _ (resolved_fits resolve l e));
      [done|by intros r0 []|by apply falls_short_spend in Hshort].
  - destruct x; try done; by left.
  - cbn [inspect_loop mbind result_bind]. simpl in Hn2.
    assert (within_limits resolve l e) as Hin.
    { split; [done|]. split; [done|]. unfold evaluation_nodes. split; [lia|]. intros r. split; [apply Hf1|apply Hf2]. }
    destruct (evaluates_all resolve res e Hr Hwt He [] [] [] Hbd) as (n & Hn' & Hout).
    destruct (Nat.le_exists_sub n (3 * expr_size e) Hn') as (d & Hd & _).
    specialize (Hout (S d)). unfold outcome in Hout.
    replace (S (3 * expr_size e)) with (n + S d)%nat by lia.
    destruct (meaning resolve e) as [v|tr|].
    + destruct Hout as [Hv ->]. cbn [eval_loop pop mbind result_bind]. done.
    + destruct Hout as (Htr & site & ->). destruct Htr as [-> | ->]; right; (split; [done|]); (split; [done|]);
        eexists; split_and!; try done; [by left|by right].
    + done.
Qed.

Lemma evaluate_no_panic resolve e l :
  0 ≤ max_nodes l → resolve_ok resolve → literals_ok e = true →
  evaluate_with_limits resolve e l ≠ Panic.
Proof.
  intros Hl Hr He. pose proof (evaluation_outcome resolve e l Hl Hr He) as Ho.
  unfold evaluate_with_limits. by destruct (evaluate_with_error_site resolve e l) as [|[]|].
Qed.
Lemma evaluate_typed resolve e l v :
  0 ≤ max_nodes l → resolve_ok resolve → literals_ok e = true →
  evaluate_with_limits resolve e l = Ok v → typed (expr_ty e) v.
Proof.
  intros Hl Hr He. pose proof (evaluation_outcome resolve e l Hl Hr He) as Ho.
  unfold evaluate_with_limits. destruct (evaluate_with_error_site resolve e l) as [|[]|]; [|done..].
  simpl. intros [= <-]. tauto.
Qed.

(** ** The evaluator reads only the references of the expression *)

Definition agree (resolve resolve' : ConstRef.t → option (ty * const_value)) (e : const_expr) : Prop :=
  ∀ r, r ∈ refs_of e → resolve r = resolve' r.

Lemma inspect_step_agree resolve resolve' n b res :
  agree resolve resolve' n.2 → inspect_step resolve n b res = inspect_step resolve' n b res.
Proof.
  destruct n as [p [t []]]; intros Ha; try done.
  unfold inspect_step. cbn [snd expr_kind]. by rewrite Ha by by left.
Qed.
Lemma inspect_step_refs resolve n b res pushed b' res' :
  inspect_step resolve n b res = Ok (pushed, b', res') →
  ∀ c r, c ∈ pushed → r ∈ refs_of c.2 → r ∈ refs_of n.2.
Proof.
  destruct n as [p [t []]]; unfold inspect_step, ok_or; cbn [snd expr_kind expr_ty refs_of child fst];
    intros Hstep c r Hc Hr; repeat (case_match; simplify_eq/=);
    repeat (apply elem_of_cons in Hc as [->|Hc]; [rewrite ?elem_of_app; auto|]);
    by apply not_elem_of_nil in Hc.
Qed.

Lemma inspect_loop_agree resolve resolve' fuel : ∀ ns b res,
  Forall (λ n, agree resolve resolve' n.2) ns →
  inspect_loop resolve fuel ns b res = inspect_loop resolve' fuel ns b res.
Proof.
  induction fuel as [|fuel IH]; intros ns b res Hns; [done|]. destruct Hns as [|n ns Hn Hns]; [done|].
  cbn [inspect_loop]. rewrite (inspect_step_agree resolve resolve') by done.
  destruct (inspect_step resolve' n b res) as [[[pushed b'] res']| |] eqn:E; [|done..]. simpl.
  apply IH, Forall_app; split; [|done]. apply Forall_forall. intros c Hc r Hr.
  by apply Hn, (inspect_step_refs _ _ _ _ _ _ _ E c).
Qed.
Lemma evaluate_agree resolve resolve' e l :
  agree resolve resolve' e → evaluate_with_limits resolve e l = evaluate_with_limits resolve' e l.
Proof.
  intros Ha. unfold evaluate_with_limits, evaluate_with_error_site.
  destruct (map_err _ (new_budget l)) as [b| |]; [|done..]. cbn [mbind result_bind].
  destruct (budget_expression e b) as [[[]| |] b']; [|done..].
  rewrite (inspect_loop_agree resolve resolve' _ [([], e)]); [done|by apply Forall_singleton].
Qed.

(** C16: the constant evaluator terminates without a panic.  It returns a value only for a
    well-typed expression within the limits, and then the value is that of the expression under
    the operators of the interpreter, of the declared type, logical operators being lazy.  It
    names a limit only when that limit is exceeded: by the configured depths, by the nodes of the
    expression and of the types its references resolve to, or by the depth of one of these types
    or of the expression.  Any other failure is a type error of an ill-typed expression, or,
    within the limits, the division or remainder by zero the interpreter would trap on.  So an
    expression within the limits is accepted exactly when it is well typed and has a value. *)
Theorem const_eval_correct resolve e l
    (Hl : 0 ≤ max_nodes l) (Hr : resolve_ok resolve) (He : literals_ok e = true) :
  match evaluate_with_error_site resolve e l with
  | Ok v => within_limits resolve l e ∧ well_typed resolve e = true ∧
      meaning resolve e = Ok v ∧ typed (expr_ty e) v
  | Err (ConstEvalError.ResourceLimit error, _) => over_limit resolve l e error
  | Err (x, _) => (type_error x = true ∧ well_typed resolve e = false) ∨
      (within_limits resolve l e ∧ well_typed resolve e = true ∧
        ∃ tr, meaning resolve e = Err tr ∧ x = error_of_trap tr ∧
          (tr = TrapReason.DivisionByZero ∨ tr = TrapReason.RemainderByZero))
  | Panic => False
  end.
Proof. by apply evaluation_outcome. Qed.

(** The expression has 22 nodes with its types; the type its reference resolves to is one more. *)
Definition scant_limits : IrLimits := mkIrLimits 128 128 22 1024 10 1024.

Lemma const_eval_correct_witness :
  (∃ site, evaluate_with_error_site sample_resolve sample_expr default_limits = Err (ConstEvalError.DivisionByZero, site)
     ∧ within_limits sample_resolve default_limits sample_expr) ∧
  (∃ error site, evaluate_with_error_site sample_resolve sample_expr scant_limits = Err (ConstEvalError.ResourceLimit error, site)
     ∧ over_limit sample_resolve scant_limits sample_expr error).
Proof.
  assert (resolve_ok sample_resolve) as Hr.
  { intros r t v Hr. unfold sample_resolve in Hr. repeat case_match; simplify_eq. reflexivity. }
  assert (∃ site, evaluate_with_error_site sample_resolve sample_expr default_limits =
    Err (ConstEvalError.DivisionByZero, site)) as [d Ed] by (eexists; vm_compute; reflexivity).
  assert (∃ error site, evaluate_with_error_site sample_resolve sample_expr scant_limits =
    Err (ConstEvalError.ResourceLimit error, site)) as (error & site & Et) by (eexists _, _; vm_compute; reflexivity).
  split.
  - exists d. split; [exact Ed|].
    pose proof (const_eval_correct sample_resolve sample_expr default_limits ltac:(simpl; lia) Hr eq_refl) as Hd.
    rewrite Ed in Hd. by destruct Hd as [[? _]|[Hin _]].
  - exists error, site. split; [exact Et|].
    pose proof (const_eval_correct sample_resolve sample_expr scant_limits ltac:(simpl; lia) Hr eq_refl) as Ht.
    rewrite Et in Ht. exact Ht.
Defined.
