(* ===== verification/Frontend.v ===== *)
(** * The frontend AST ([lower_ast/frontend.rs], [error.rs], [limits.rs])

    The typed syntax tree a frontend hands to the lowering, and the errors the lowering reports.  The
    builder needs both: it keeps the annotations of constant expressions and charges source work. *)
From S2P Require Export Signatures Sources ConstExpr.
Local Open Scope Z_scope.

(** ** Types *)

Module TypeRef.
Inductive t :=
  | Void
  | Bool
  | Int (bits : Z) (signed : bool)
  | Float (bits : Z)
  | Ptr (inner : t)
  | FnPtr (sig : signature)
  | Array (elem : t) (len : Z)
  | Struct (fields : list field)
  | Opaque (name : string)
with signature :=
  | Signature (params : list t) (ret : t) (convention : CallingConvention) (variadic : bool)
with field :=
  | Field (name : string) (ty : t).
End TypeRef.
Notation type_ref := TypeRef.t.

(** ** Operators and literals *)

Module CmpOpRef.
Inductive t := Eq | Ne | Lt | Le | Gt | Ge.
#[global] Instance eq_dec : EqDecision t.
Proof. solve_decision. Defined.
End CmpOpRef.

Module BinOpRef.
Inductive t :=
  | Add | Sub | Mul | BitAnd | BitOr | BitXor | Div | Rem | ShiftLeft | ShiftRight
  | LogicalAnd | LogicalOr.
#[global] Instance eq_dec : EqDecision t.
Proof. solve_decision. Defined.
End BinOpRef.

Module Lit.
Inductive t :=
  | Bool (b : bool)
  | Int (bits : Z) (signed : bool) (value : string)
  | Float (bits : Z) (value : string).
End Lit.

Module IntegerCast.
Inductive t := Numeric | Checked.
End IntegerCast.

(** ** Expressions *)

Module Expr.
Inductive t :=
  | Located (annotation : SourceAnnotation) (expression : t)
  | Struct (ty : type_ref) (fields : list (string * t))
  | Array (ty : type_ref) (elements : list t)
  | Field (base : t) (layout : type_ref) (name : string)
  | Index (base index : t)
  | AddressOf (place : t)
  | Deref (pointer : t)
  | VolatileLoad (pointer : t)
  | PointerOffset (base index : t)
  | BitNot (value : t)
  | Neg (value : t)
  | Cast (value : t) (ty : type_ref) (kind : IntegerCast.t)
  | FunctionRef (name : string)
  | NullFunction (sig : TypeRef.signature)
  | Call (callee : callee) (args : list t)
  | Var (name : string)
  | Literal (lit : Lit.t)
  | Binary (left : t) (op : BinOpRef.t) (right : t)
  | Cmp (left : t) (op : CmpOpRef.t) (right : t)
with callee :=
  | Direct (name : string)
  | Indirect (value : t).
End Expr.
Notation frontend_expr := Expr.t.

(** ** Errors *)

Module AstLimitError.
Inductive t := Source | SourceWork | Expansion | Depth | Nodes | Strings | Output.
#[global] Instance eq_dec : EqDecision t.
Proof. solve_decision. Defined.
End AstLimitError.

Module LowerError.
Inductive t :=
  | Located (annotation : SourceAnnotation) (error : t)
  | ResourceLimit (e : AstLimitError.t)
  | Call (e : call_error)
  | VoidCallUsedAsValue
  | NumericLiteral (message : string)
  | ConstantEvaluation (e : const_error)
  | Target (e : TargetError)
  | Layout (e : LayoutError.t)
  | UnsupportedType (name : string)
  | UnknownVariable (name : string)
  | TypeMismatch (expected got : ty)
  | MissingInit (name : string)
  | Aggregate (message : string)
  | UnsupportedStmt
  | UnsupportedExpr
  | BreakOutsideLoop
  | ContinueOutsideLoop
  | DuplicateGlobal (name : string)
  | DuplicateFunction (name : string)
  | DuplicateParameter (func param : string)
  | ValueReturnedFromVoid
  | InvalidLiteral (t : ty) (value : const_value)
  | AssignToConst (name : string)
  | NonConstExpr.
End LowerError.
Notation lower_error := LowerError.t.

Definition source_work_limit : lower_error := LowerError.ResourceLimit AstLimitError.SourceWork.
Definition expansion_limit : lower_error := LowerError.ResourceLimit AstLimitError.Expansion.
