(* ===== verification/Builder.v ===== *)
(** * The IR builder ([builder.rs])

    [ModuleBuilder.t] is a module under construction with its counters, [FunctionBuilder.t] a function
    under construction that holds the module builder.  The operations that the code calls legacy panic
    on a wrong order of construction; each [try_] operation checks first and reports an error.

    A method is a computation of [stm] over its builder.  [as_f32] stands for the cast of an [f64] to an
    [f32], on bits. *)
From S2P Require Export Frontend Float.
Local Open Scope Z_scope.

(** [self.check()?] for a check that only reads the builder. *)
Definition check {S E A} (f : S → result E A) : stm S E A := λ s, (f s, s).
(** [Result::expect]. *)
Definition expect_ok {E F A} (r : result E A) : result F A := expect (ok r).
(** A method of a field. *)
Definition zoom {S T E A} (field : S → T) (set : T → S → S) (op : stm T E A) : stm S E A := λ s,
  let '(r, t) := op (field s) in (r, set t s).
(** [map_err] on a method. *)
Definition stm_map_err {S E F A} (g : E → F) (op : stm S E A) : stm S F A := λ s,
  let '(r, s) := op s in (map_err g r, s).

(** ** Modules under construction *)

(** [Module::new]. *)
Definition empty_module (target : string) (layout : DataLayout) : Module_ :=
  mkModule target layout [] [] [] [] (mkSources [] [] []).
(** [BasicBlock::new]. *)
Definition new_block (id : BlockId) (name : string) : BasicBlock := mkBlock id name [] None.

Definition set_globals (gs : list Global) (m : Module_) : Module_ :=
  mkModule (module_target m) (datalayout m) gs (global_storage m) (functions m) (declarations m)
    (sources m).
Definition set_global_storage (gs : list GlobalStorage) (m : Module_) : Module_ :=
  mkModule (module_target m) (datalayout m) (globals m) gs (functions m) (declarations m) (sources m).
Definition set_functions (fs : list Function) (m : Module_) : Module_ :=
  mkModule (module_target m) (datalayout m) (globals m) (global_storage m) fs (declarations m)
    (sources m).
Definition set_declarations (ds : list FunctionDecl) (m : Module_) : Module_ :=
  mkModule (module_target m) (datalayout m) (globals m) (global_storage m) (functions m) ds (sources m).
Definition set_sources (s : SourceMetadata) (m : Module_) : Module_ :=
  mkModule (module_target m) (datalayout m) (globals m) (global_storage m) (functions m)
    (declarations m) s.
Definition set_mappings (ms : list SourceMapping) (s : SourceMetadata) : SourceMetadata :=
  mkSources (files s) (originals s) ms.

Module ModuleBuilder.

Record t := mk {
  module : Module_;
  next_value : Z;
  next_block : Z;
  next_global : Z;
  source_work : Z;
  lower_storage_budget : Budget;
  source_shifts : gmap FunctionId (nat * nat);
  source_mapped_functions : gset FunctionId;
}.

Definition with_module (m : Module_) (b : t) : t :=
  mk m (next_value b) (next_block b) (next_global b) (source_work b) (lower_storage_budget b)
    (source_shifts b) (source_mapped_functions b).
Definition with_next_global (n : Z) (b : t) : t :=
  mk (module b) (next_value b) (next_block b) n (source_work b) (lower_storage_budget b)
    (source_shifts b) (source_mapped_functions b).
Definition with_work (n : Z) (b : t) : t :=
  mk (module b) (next_value b) (next_block b) (next_global b) n (lower_storage_budget b)
    (source_shifts b) (source_mapped_functions b).
Definition with_budget (budget : Budget) (b : t) : t :=
  mk (module b) (next_value b) (next_block b) (next_global b) (source_work b) budget
    (source_shifts b) (source_mapped_functions b).
Definition with_shifts (shifts : gmap FunctionId (nat * nat)) (b : t) : t :=
  mk (module b) (next_value b) (next_block b) (next_global b) (source_work b)
    (lower_storage_budget b) shifts (source_mapped_functions b).
Definition with_mapped (mapped : gset FunctionId) (b : t) : t :=
  mk (module b) (next_value b) (next_block b) (next_global b) (source_work b)
    (lower_storage_budget b) (source_shifts b) mapped.
Definition with_sources (s : SourceMetadata) (b : t) : t := with_module (set_sources s (module b)) b.

Definition new {E} (target : string) (layout : DataLayout) : result E t :=
  budget ← expect_ok (new_budget default_limits);
  Ok (mk (empty_module target layout) 0 0 0 (max_analysis_work default_limits) budget ∅ ∅).

Section methods.
Context {E : Type}.
#[local] Notation method A := (stm t E A).

Definition fresh_value : method ValueId := λ b,
  match debug_u 32 (next_value b + 1) with
  | Ok n => (Ok (mkValueId (next_value b)),
      mk (module b) n (next_block b) (next_global b) (source_work b) (lower_storage_budget b)
        (source_shifts b) (source_mapped_functions b))
  | Err e => (Err e, b)
  | Panic => (Panic, b)
  end.

Definition fresh_block : method BlockId := λ b,
  match debug_u 32 (next_block b + 1) with
  | Ok n => (Ok (mkBlockId (next_block b)),
      mk (module b) (next_value b) n (next_global b) (source_work b) (lower_storage_budget b)
        (source_shifts b) (source_mapped_functions b))
  | Err e => (Err e, b)
  | Panic => (Panic, b)
  end.

Definition add_global_const (name : string) (expression : const_expr) (init : const_value) (align : Z)
    : method GlobalId :=
  b ← get;
  let id := mkGlobalId (next_global b) in
  next ← lift (debug_u 32 (next_global b + 1));
  _ ← modify (with_next_global next);
  _ ← modify (λ b, with_module
        (set_globals (globals (module b) ++ [mkGlobal id name (expr_ty expression) init expression align])
           (module b)) b);
  mret id.

Definition add_global (name : string) (type : ty) (init : const_value) (align : Z) : method GlobalId :=
  add_global_const name (ConstExpr.mk type (ConstExpr.Literal init)) init align.
End methods.

(** *** Addressable storage *)

(** The operation on [link_name], when there is one. *)
Definition link_taken (m : Module_) (link : string) : bool :=
  existsb (λ d, bool_decide (decl_link_name d = Some link)) (declarations m)
  || existsb (λ g, bool_decide (gs_link_name g = Some link)) (global_storage m).

Definition set_id (id : GlobalId) (g : GlobalStorage) : GlobalStorage :=
  mkGlobalStorage id (gs_name g) (gs_ty g) (gs_init g) (gs_readonly g) (gs_align g) (gs_linkage g)
    (gs_link_name g).

Definition try_add_global_storage (storage : GlobalStorage) : stm t storage_error GlobalId :=
  _ ← lift (validate_storage_with_limits storage default_limits);
  b ← get;
  _ ← when_err (existsb (λ g, String.eqb (global_name g) (gs_name storage)) (globals (module b))
                || existsb (λ g, String.eqb (gs_name g) (gs_name storage)) (global_storage (module b)))
        GlobalStorageError.DuplicateName;
  _ ← when_err match gs_link_name storage with Some link => link_taken (module b) link | None => false end
        GlobalStorageError.LinkNameCollision;
  let id := mkGlobalId (next_global b) in
  next ← lift (ok_or (checked_u 32 (next_global b + 1)) GlobalStorageError.DuplicateIdentity);
  _ ← modify (with_next_global next);
  _ ← modify (λ b, with_module
        (set_global_storage (global_storage (module b) ++ [set_id id storage]) (module b)) b);
  mret id.

(** *** Declarations *)

(** The declaration under the identity of another one. *)
Definition with_decl_id (id : FunctionId) (d : FunctionDecl) : FunctionDecl :=
  mkDecl id (decl_name d) (decl_signature d) (decl_linkage d) (decl_link_name d).

#[global] Instance decl_eq_dec : EqDecision FunctionDecl.
Proof. solve_decision. Defined.

Definition next_function (b : t) : FunctionId :=
  mkFunctionId (wrapu 32 (Z.of_nat (length (declarations (module b))))).
Definition push_decl (d : FunctionDecl) (b : t) : t :=
  with_module (set_declarations (declarations (module b) ++ [d]) (module b)) b.

Definition declare_function_with_limits (name : string) (sig : FunctionSignature) (linkage : Linkage)
    (link_name : option string) (limits : IrLimits) : stm t call_error FunctionId :=
  b ← get;
  let candidate := mkDecl (next_function b) name sig linkage link_name in
  _ ← lift (validate_decl_with_limits candidate limits);
  match find_opt (λ d, String.eqb (decl_name d) name) (declarations (module b)) with
  | Some existing =>
      if bool_decide (with_decl_id (decl_id existing) candidate = existing)
      then mret (decl_id existing) else throw (CallError.ConflictingDeclaration name)
  | None =>
      _ ← match link_name with
          | Some link => when_err (link_taken (module b) link) (CallError.LinkNameCollision link)
          | None => mret tt
          end;
      _ ← modify (push_decl candidate);
      mret (decl_id candidate)
  end.

Definition declare_function (name : string) (sig : FunctionSignature) (linkage : Linkage)
    (link_name : option string) : stm t call_error FunctionId :=
  declare_function_with_limits name sig linkage link_name default_limits.

Definition function_id (name : string) (b : t) : result call_error FunctionId :=
  d ← ok_or (find_opt (λ d, String.eqb (decl_name d) name) (declarations (module b)))
        (CallError.UnknownFunctionName name);
  Ok (decl_id d).

Definition finish (b : t) : Module_ := module b.

(** *** Source work *)

Definition charge_source_work (amount : nat) : stm t lower_error unit := λ b,
  match checked_u 64 (source_work b - Z.of_nat amount) with
  | Some left_ => (Ok tt, with_work left_ b)
  | None => (Err source_work_limit, b)
  end.

Definition string_bytes (s : string) : nat := length (bytes_of_string s).
(** The length of the file an annotation names. *)
Definition annotation_bytes (a : SourceAnnotation) : nat :=
  match annotation_source a with Some s => string_bytes (fe_file s) | None => 0 end.
Definition file_bytes (s : SourceMetadata) : nat :=
  sum_list_with (λ f, string_bytes (file_name f)) (files s).

Definition retain_source (annotation : SourceAnnotation) : stm t lower_error unit :=
  b ← get;
  let s := sources (module b) in
  _ ← charge_source_work
        (1 + length (originals s) + length (files s) + file_bytes s + annotation_bytes annotation);
  modify (λ b, with_sources (add_frontend_original (sources (module b)) annotation) b).

(** The nodes that [retain_const_sources] visits. *)
Fixpoint const_nodes (e : frontend_expr) : nat :=
  match e with
  | Expr.Located _ e | Expr.Neg e | Expr.BitNot e | Expr.Cast e _ _ => S (const_nodes e)
  | Expr.Binary l _ r | Expr.Cmp l _ r => S (const_nodes l + const_nodes r)
  | _ => 1
  end.

(** The worklist, whose top is the head of the list. *)
Fixpoint retain_loop (fuel : nat) (pending : list frontend_expr) : stm t lower_error unit :=
  match fuel, pending with
  | _, [] => mret tt
  | O, _ => lift Panic
  | S fuel, e :: pending =>
      _ ← charge_source_work 1;
      match e with
      | Expr.Located annotation e => _ ← retain_source annotation; retain_loop fuel (e :: pending)
      | Expr.Binary l _ r | Expr.Cmp l _ r => retain_loop fuel (l :: r :: pending)
      | Expr.Neg e | Expr.BitNot e | Expr.Cast e _ _ => retain_loop fuel (e :: pending)
      | _ => retain_loop fuel pending
      end
  end.
Definition retain_const_sources (e : frontend_expr) : stm t lower_error unit :=
  retain_loop (const_nodes e) [e].

Definition annotate_global_source (id : GlobalId) (annotation : SourceAnnotation)
    : stm t lower_error unit :=
  _ ← retain_source annotation;
  modify (λ b, let s := sources (module b) in
    with_sources
      (set_mappings (mappings s ++ [mkSourceMapping (SourceTarget.Global id) (annotation_id annotation)]) s)
      b).

End ModuleBuilder.
Notation module_builder := ModuleBuilder.t.

(** ** Functions under construction *)

Definition set_blocks (bs : list BasicBlock) (f : Function) : Function :=
  mkFunction (function_id f) (function_name f) (function_params f) (ret_ty f) bs (entry f)
    (value_types f).
Definition set_value_types (ts : list (ValueId * ty)) (f : Function) : Function :=
  mkFunction (function_id f) (function_name f) (function_params f) (ret_ty f) (blocks f) (entry f) ts.

Definition set_instructions (l : list instruction) (b : BasicBlock) : BasicBlock :=
  mkBlock (block_id b) (block_name b) l (block_terminator b).
Definition push_instruction (i : instruction) (b : BasicBlock) : BasicBlock :=
  set_instructions (instructions b ++ [i]) b.
Definition set_terminator (t : terminator) (b : BasicBlock) : BasicBlock :=
  mkBlock (block_id b) (block_name b) (instructions b) (Some t).

Definition is_alloca (i : instruction) : bool :=
  match i with Instruction.Alloca _ _ _ => true | _ => false end.
Definition is_phi (i : instruction) : bool :=
  match i with Instruction.Phi _ _ _ => true | _ => false end.
(** The number of allocations a list starts with. *)
Fixpoint alloca_prefix (l : list instruction) : nat :=
  match l with
  | i :: l => if is_alloca i then S (alloca_prefix l) else 0
  | [] => 0
  end.

(** The first block of an identity, changed in place. *)
Fixpoint update_block (id : BlockId) (g : BasicBlock → BasicBlock) (bs : list BasicBlock)
    : option (list BasicBlock) :=
  match bs with
  | [] => None
  | b :: bs => if bool_decide (block_id b = id) then Some (g b :: bs) else cons b <$> update_block id g bs
  end.

Definition shift_target (function : FunctionId) (block : BlockId) (position count : nat)
    (t : SourceTarget.t) : SourceTarget.t :=
  match t with
  | SourceTarget.Instruction f b index =>
      if bool_decide (f = function) && bool_decide (b = block) && (position <=? index)%nat
      then SourceTarget.Instruction f b (index + count) else t
  | _ => t
  end.
Definition shift_mapping (function : FunctionId) (block : BlockId) (position count : nat)
    (m : SourceMapping) : SourceMapping :=
  mkSourceMapping (shift_target function block position count (mapping_target m)) (mapping_original m).

Module FunctionBuilder.

Record t := mk { mb : module_builder; func : Function; insert_block : BlockId }.

Definition with_mb (b : module_builder) (s : t) : t := mk b (func s) (insert_block s).
Definition with_func (f : Function) (s : t) : t := mk (mb s) f (insert_block s).
Definition with_insert (b : BlockId) (s : t) : t := mk (mb s) (func s) b.
Definition module (s : t) : Module_ := ModuleBuilder.module (mb s).

(** *** Checks *)

Definition find_block (id : BlockId) (s : t) : option BasicBlock :=
  find_opt (λ b, bool_decide (block_id b = id)) (blocks (func s)).

Definition ensure_block (id : BlockId) (s : t) : result builder_error unit :=
  guard_err (existsb (λ b, bool_decide (block_id b = id)) (blocks (func s)))
    (BuilderError.UnknownBlock id).

Definition ensure_insertable (s : t) : result builder_error unit :=
  block ← ok_or (find_block (insert_block s) s) (BuilderError.UnknownBlock (insert_block s));
  if is_terminated block then Err (BuilderError.TerminatedBlock (block_id block)) else Ok tt.

Fixpoint ensure_values (values : list ValueId) (s : t) : result builder_error unit :=
  match values with
  | [] => Ok tt
  | v :: values =>
      match value_type (func s) v with
      | None => Err (BuilderError.UnknownValue v)
      | Some _ => ensure_values values s
      end
  end.

Definition current_block_id (s : t) : BlockId := insert_block s.
Definition entry_block (s : t) : BlockId := entry (func s).
Definition is_current_block_terminated (s : t) : bool :=
  match find_block (insert_block s) s with Some b => is_terminated b | None => false end.

Definition try_param_value (index : nat) (s : t) : result builder_error ValueId :=
  p ← ok_or (function_params (func s) !! index)
        (BuilderError.UnknownParameter index (length (function_params (func s))));
  Ok (param_id p).
Definition param_value {E} (index : nat) (s : t) : result E ValueId :=
  expect_ok (try_param_value index s).

(** *** The primitive edits *)

Section legacy.
Context {E : Type}.
#[local] Notation method A := (stm t E A).

Definition on_mb {A} (op : stm module_builder E A) : method A := zoom mb with_mb op.

(** A change of [cur_block_mut()]. *)
Definition edit_block (g : BasicBlock → BasicBlock) : method unit :=
  _ ← check (λ s, expect_ok (ensure_insertable s));
  bs ← check (λ s, expect (update_block (insert_block s) g (blocks (func s))));
  modify (λ s, with_func (set_blocks bs (func s)) s).
Definition push (i : instruction) : method unit := edit_block (push_instruction i).
Definition terminate (term : terminator) : method unit := edit_block (set_terminator term).

Definition define_value (type : ty) : method ValueId :=
  _ ← check (λ s, expect_ok (ensure_insertable s));
  id ← on_mb ModuleBuilder.fresh_value;
  _ ← modify (λ s, with_func (set_value_types (value_types (func s) ++ [(id, type)]) (func s)) s);
  mret id.

(** An instruction that defines a value. *)
Definition emit (type : ty) (i : ValueId → instruction) : method ValueId :=
  dst ← define_value type;
  _ ← push (i dst);
  mret dst.

(** *** Legacy operations *)

Definition neg (type : ty) (src : ValueId) : method ValueId :=
  emit type (λ dst, Instruction.Neg dst type src).
Definition not (type : ty) (src : ValueId) : method ValueId :=
  emit type (λ dst, Instruction.Not dst type src).
Definition undef (type : ty) : method ValueId := emit type (λ dst, Instruction.Undef dst type).
Definition const_decl (name : string) (expression : const_expr) (value : const_value) : method ValueId :=
  emit (expr_ty expression) (λ dst, Instruction.ConstDecl dst name expression value).
Definition const_bool (v : bool) : method ValueId :=
  emit Ty.Bool (λ dst, Instruction.Const dst Ty.Bool (ConstValue.Bool v)).
Definition const_i32 (v : Z) : method ValueId :=
  emit Ty.I32 (λ dst, Instruction.Const dst Ty.I32 (ConstValue.I v)).
Definition const_int (type : ty) (v : Z) : method ValueId :=
  emit type (λ dst, Instruction.Const dst type (ConstValue.I v)).
Definition const_uint (type : ty) (v : Z) : method ValueId :=
  emit type (λ dst, Instruction.Const dst type (ConstValue.U v)).
Definition const_float_bits (type : ty) (v : FloatBits) : method ValueId :=
  emit type (λ dst, Instruction.Const dst type (ConstValue.F v)).
Definition bin (op : BinOp.t) (type : ty) (lhs rhs : ValueId) : method ValueId :=
  emit type (λ dst, Instruction.Bin dst op type lhs rhs).
Definition add (type : ty) (lhs rhs : ValueId) : method ValueId :=
  emit type (λ dst, Instruction.Bin dst BinOp.Add type lhs rhs).
Definition icmp (pred : ICmpPred.t) (type : ty) (lhs rhs : ValueId) : method ValueId :=
  emit Ty.Bool (λ dst, Instruction.ICmp dst pred type lhs rhs).
Definition cmp (op : CmpOp.t) (type : ty) (lhs rhs : ValueId) : method ValueId :=
  emit Ty.Bool (λ dst, Instruction.Cmp dst op type lhs rhs).
Definition cast (op : CastOp.t) (src_ty dst_ty : ty) (src : ValueId) : method ValueId :=
  emit dst_ty (λ dst, Instruction.Cast dst op dst_ty src_ty src).
Definition checked (op : CheckedOp.t) (type : ty) (lhs rhs : ValueId) : method ValueId :=
  emit (Ty.Tuple [type; Ty.Bool]) (λ dst, Instruction.Checked dst op type lhs rhs).
Definition extract (tuple_ty dst_ty : ty) (tuple : ValueId) (index : Z) : method ValueId :=
  emit dst_ty (λ dst, Instruction.Extract dst dst_ty tuple index).
Definition alloca (type : ty) (align : Z) : method ValueId :=
  emit (ptr_to type) (λ dst, Instruction.Alloca dst type align).
Definition gep (base_ptr : ValueId) (indices : list ValueId) (dst_ty : ty) : method ValueId :=
  emit dst_ty (λ dst, Instruction.Gep dst dst_ty base_ptr indices).
Definition load (type : ty) (ptr : ValueId) (align : Z) : method ValueId :=
  emit type (λ dst, Instruction.Load dst type ptr align).
Definition volatile_load (type : ty) (ptr : ValueId) (align : Z) : method ValueId :=
  emit type (λ dst, Instruction.VolatileLoad dst type ptr align).

Definition memcpy (dst src n : ValueId) (align : Z) : method unit :=
  push (Instruction.Memcpy dst src n align).
Definition volatile_store (type : ty) (value ptr : ValueId) (align : Z) : method unit :=
  push (Instruction.VolatileStore type value ptr align).
Definition uninit (type : ty) (ptr : ValueId) (align : Z) : method unit :=
  push (Instruction.Uninit type ptr align).
Definition store (type : ty) (value ptr : ValueId) (align : Z) : method unit :=
  push (Instruction.Store type value ptr align).
Definition trap_if (cond : ValueId) (reason : string) : method unit :=
  push (Instruction.TrapIf cond reason).

Definition br (target : BlockId) : method unit := terminate (Terminator.Br target).
Definition cbr (cond : ValueId) (then_bb else_bb : BlockId) : method unit :=
  terminate (Terminator.CBr cond then_bb else_bb).
Definition ret (value : option ValueId) : method unit :=
  s ← get; terminate (Terminator.Ret (ret_ty (func s)) value).
Definition trap (reason : string) : method unit := terminate (Terminator.Trap reason).

Definition create_block (name : string) : method BlockId :=
  id ← on_mb ModuleBuilder.fresh_block;
  _ ← modify (λ s, with_func (set_blocks (blocks (func s) ++ [new_block id name]) (func s)) s);
  mret id.
Definition set_insert_point (bb : BlockId) : method unit :=
  _ ← check (λ s, expect_ok (ensure_block bb s));
  modify (with_insert bb).

(** The allocation goes behind the allocations the entry block starts with; the shift of the source
    mappings behind it is recorded. *)
Definition record_shift (pos : nat) (s : t) : t :=
  let id := function_id (func s) in
  let b := mb s in
  if bool_decide (id ∈ ModuleBuilder.source_mapped_functions b) then
    let shift := match ModuleBuilder.source_shifts b !! id with
                 | Some (at_, count) => (at_, S count)
                 | None => (pos, 1%nat)
                 end in
    with_mb (ModuleBuilder.with_shifts (<[id := shift]> (ModuleBuilder.source_shifts b)) b) s
  else s.
Definition insert_at {A} (pos : nat) (x : A) (l : list A) : list A := take pos l ++ x :: drop pos l.
Definition alloca_in_entry (type : ty) (align : Z) : method ValueId :=
  dst ← define_value (Ty.Ptr type);
  s ← get;
  block ← lift (expect (find_block (entry (func s)) s));
  let pos := alloca_prefix (instructions block) in
  bs ← lift (expect (update_block (entry (func s))
         (λ b, set_instructions (insert_at pos (Instruction.Alloca dst type align) (instructions b)) b)
         (blocks (func s))));
  _ ← modify (λ s, with_func (set_blocks bs (func s)) s);
  _ ← modify (record_shift pos);
  mret dst.
End legacy.

(** [FloatBits::from_f64] on the bits of its argument. *)
Definition from_f64 (as_f32 : Z → Z) (width value : Z) : result string FloatBits :=
  if width =? 16 then Ok (F16Bits (f64_to_f16 value)) else
  if width =? 32 then Ok (F32Bits (as_f32 value)) else
  if width =? 64 then Ok (F64Bits value) else Err "float width must be 16, 32 or 64"%string.
Definition const_float {E} (as_f32 : Z → Z) (type : ty) (v : Z) : stm t E ValueId :=
  let width := match type with Ty.F16 => 16 | Ty.F32 => 32 | _ => 64 end in
  bits ← lift (expect_ok (from_f64 as_f32 width v));
  const_float_bits type bits.

(** *** Checked operations *)

Section try_operations.
#[local] Notation method A := (stm t builder_error A).

(** The operation, after its values have been looked up. *)
Definition insertable : method unit := check ensure_insertable.
Definition known (values : list ValueId) : method unit := check (ensure_values values).
Definition with_values {A} (values : list ValueId) (op : method A) : method A :=
  _ ← insertable; _ ← known values; op.

Definition try_global_addr (global : GlobalId) : method ValueId :=
  _ ← insertable;
  g ← check (λ s, ok_or (find_opt (λ g, bool_decide (gs_id g = global)) (global_storage (module s)))
                    (BuilderError.UnknownGlobal global));
  emit (ptr_to (gs_ty g)) (λ dst, Instruction.GlobalAddr dst global (gs_ty g)).

Definition is_data_pointer (o : option ty) : bool := match o with Some (Ty.Ptr _) => true | _ => false end.
Definition try_lifetime_end (ptr : ValueId) : method unit :=
  with_values [ptr]
    (_ ← check (λ s, guard_err (is_data_pointer (value_type (func s) ptr))
                       BuilderError.InvalidPointerOperands);
     push (Instruction.LifetimeEnd ptr)).

Definition try_ptrdiff (lhs rhs : ValueId) : method ValueId :=
  with_values [lhs; rhs]
    (t ← check (λ s, expect (value_type (func s) lhs));
     _ ← check (λ s, guard_err (is_data_pointer (Some t)
                                && bool_decide (value_type (func s) rhs = Some t))
                       BuilderError.InvalidPointerOperands);
     emit Ty.I128 (λ dst, Instruction.PtrDiff dst lhs rhs)).

Fixpoint ensure_incomings (incomings : list (ValueId * BlockId)) (s : t) : result builder_error unit :=
  match incomings with
  | [] => Ok tt
  | (value, block) :: incomings =>
      _ ← ensure_values [value] s; _ ← ensure_block block s; ensure_incomings incomings s
  end.
Definition try_phi (type : ty) (incomings : list (ValueId * BlockId)) : method ValueId :=
  _ ← insertable;
  _ ← check (ensure_incomings incomings);
  _ ← check (λ s, block ← expect (find_block (insert_block s) s);
                  guard_err (negb (existsb (λ i, negb (is_phi i)) (instructions block)))
                    (BuilderError.PhiAfterInstruction (insert_block s)));
  emit type (λ dst, Instruction.Phi dst type incomings).

Definition try_set_insert_point (bb : BlockId) : method unit :=
  _ ← check (ensure_block bb); modify (with_insert bb).

Definition try_not (type : ty) (src : ValueId) : method ValueId := with_values [src] (not type src).
Definition try_undef (type : ty) : method ValueId := _ ← insertable; undef type.
Definition try_const_decl (name : string) (expression : const_expr) (value : const_value)
    : method ValueId :=
  _ ← insertable; const_decl name expression value.
Definition try_const_bool (v : bool) : method ValueId := _ ← insertable; const_bool v.
Definition try_const_i32 (v : Z) : method ValueId := _ ← insertable; const_i32 v.
Definition try_const_int (type : ty) (v : Z) : method ValueId := _ ← insertable; const_int type v.
Definition try_const_uint (type : ty) (v : Z) : method ValueId := _ ← insertable; const_uint type v.
Definition try_const_float (as_f32 : Z → Z) (type : ty) (v : Z) : method ValueId :=
  _ ← insertable; const_float as_f32 type v.
Definition try_const_float_bits (type : ty) (v : FloatBits) : method ValueId :=
  _ ← insertable; const_float_bits type v.
Definition try_add (type : ty) (lhs rhs : ValueId) : method ValueId :=
  with_values [lhs; rhs] (add type lhs rhs).
Definition try_bin (op : BinOp.t) (type : ty) (lhs rhs : ValueId) : method ValueId :=
  with_values [lhs; rhs] (bin op type lhs rhs).
Definition try_icmp (pred : ICmpPred.t) (type : ty) (lhs rhs : ValueId) : method ValueId :=
  with_values [lhs; rhs] (icmp pred type lhs rhs).
Definition try_cmp (op : CmpOp.t) (type : ty) (lhs rhs : ValueId) : method ValueId :=
  with_values [lhs; rhs] (cmp op type lhs rhs).
Definition try_checked (op : CheckedOp.t) (type : ty) (lhs rhs : ValueId) : method ValueId :=
  with_values [lhs; rhs] (checked op type lhs rhs).
Definition try_extract (tuple_ty dst_ty : ty) (tuple : ValueId) (index : Z) : method ValueId :=
  with_values [tuple] (extract tuple_ty dst_ty tuple index).
Definition try_alloca (type : ty) (align : Z) : method ValueId := _ ← insertable; alloca type align.
Definition try_alloca_in_entry (type : ty) (align : Z) : method ValueId :=
  _ ← insertable;
  s ← get;
  _ ← check (ensure_block (entry (func s)));
  block ← lift (expect (find_block (entry (func s)) s));
  _ ← when_err (is_terminated block) (BuilderError.TerminatedBlock (entry (func s)));
  alloca_in_entry type align.
Definition try_load (type : ty) (ptr : ValueId) (align : Z) : method ValueId :=
  with_values [ptr] (load type ptr align).
Definition try_uninit (type : ty) (ptr : ValueId) (align : Z) : method unit :=
  with_values [ptr] (uninit type ptr align).
Definition try_store (type : ty) (value ptr : ValueId) (align : Z) : method unit :=
  with_values [value; ptr] (store type value ptr align).
Definition try_trap_if (cond : ValueId) (reason : string) : method unit :=
  with_values [cond] (trap_if cond reason).

Definition try_br (target : BlockId) : method unit :=
  _ ← insertable; _ ← check (ensure_block target); br target.
Definition try_cbr (cond : ValueId) (then_bb else_bb : BlockId) : method unit :=
  with_values [cond]
    (_ ← check (ensure_block then_bb); _ ← check (ensure_block else_bb); cbr cond then_bb else_bb).
Definition try_trap (reason : string) : method unit := _ ← insertable; trap reason.
Definition try_ret (value : option ValueId) : method unit :=
  _ ← insertable;
  _ ← match value with Some v => known [v] | None => mret tt end;
  ret value.
End try_operations.

(** *** Calls *)

Section calls.
#[local] Notation method A := (stm t call_error A).

Definition function_id (name : string) (s : t) : result call_error FunctionId :=
  ModuleBuilder.function_id name (mb s).

Definition find_declaration (id : FunctionId) (m : Module_) : result call_error FunctionDecl :=
  ok_or (find_opt (λ d, bool_decide (decl_id d = id)) (declarations m)) (CallError.UnknownFunction id).

Definition callee_signature (callee : Callee.t) (s : t) : result call_error FunctionSignature :=
  sig ← match callee with
        | Callee.Direct id => d ← find_declaration id (module s); Ok (decl_signature d)
        | Callee.Indirect value =>
            match value_type (func s) value with
            | Some (Ty.FnPtr sig) => Ok sig
            | Some _ => Err (CallError.NotFunctionPointer value)
            | None => Err (CallError.UnknownValue value)
            end
        end;
  _ ← validate_signature sig;
  Ok sig.

Definition insertable_call : method unit := stm_map_err CallError.Builder insertable.

Definition null_function (sig : FunctionSignature) : method ValueId :=
  _ ← lift (validate_signature sig);
  _ ← insertable_call;
  emit (Ty.FnPtr sig) (λ dst, Instruction.NullFunction dst sig).

Definition function_addr (function : FunctionId) : method ValueId :=
  sig ← check (callee_signature (Callee.Direct function));
  _ ← lift (validate_signature sig);
  _ ← insertable_call;
  emit (Ty.FnPtr sig) (λ dst, Instruction.FunctionAddr dst function sig).

Fixpoint check_arguments (index : nat) (args : list (ValueId * ty)) (s : t) : result call_error unit :=
  match args with
  | [] => Ok tt
  | (arg, expected) :: args =>
      got ← ok_or (value_type (func s) arg) (CallError.UnknownValue arg);
      _ ← guard_err (bool_decide (got = expected)) (CallError.ArgumentType index expected got);
      check_arguments (S index) args s
  end.

Definition call (callee : Callee.t) (args : list ValueId) : method (option ValueId) :=
  _ ← insertable_call;
  sig ← check (callee_signature callee);
  _ ← lift (validate_signature sig);
  _ ← lift (guard_err (length args =? length (params sig))%nat
              (CallError.ArgumentCount (length (params sig)) (length args)));
  _ ← check (check_arguments 0 (zip args (params sig)));
  dst ← (if bool_decide (Syntax.ret sig = Ty.Void) then mret None
         else dst ← define_value (Syntax.ret sig); mret (Some dst));
  _ ← push (Instruction.Call (convention sig) dst (Syntax.ret sig) callee args);
  mret dst.
End calls.

(** *** Source mappings *)

(** The shifts recorded for the function are applied to the mappings of its entry block. *)
Definition flush_source_shifts (s : t) : t :=
  let f := func s in
  let b := mb s in
  match ModuleBuilder.source_shifts b !! Syntax.function_id f with
  | Some (position, count) =>
      let m := ModuleBuilder.module b in
      let ms := shift_mapping (Syntax.function_id f) (entry f) position count <$> mappings (sources m) in
      with_mb
        (ModuleBuilder.with_shifts (delete (Syntax.function_id f) (ModuleBuilder.source_shifts b))
           (ModuleBuilder.with_sources (set_mappings ms (sources m)) b)) s
  | None => s
  end.

Definition finish (s : t) : module_builder :=
  let s := flush_source_shifts s in
  let b := mb s in
  ModuleBuilder.with_module
    (set_functions (functions (ModuleBuilder.module b) ++ [func s]) (ModuleBuilder.module b)) b.

Section sources.
#[local] Notation method A := (stm t lower_error A).

Definition charge_source_work (amount : nat) : method unit :=
  on_mb (ModuleBuilder.charge_source_work amount).

Definition retain_const_sources (e : frontend_expr) : method unit :=
  on_mb (ModuleBuilder.retain_const_sources e).

(** The storage budget pays sixteen times for a type. *)
Definition charge_lower_type (type : ty) : method unit :=
  for_each (seq 0 16) (λ _,
    on_mb (zoom ModuleBuilder.lower_storage_budget ModuleBuilder.with_budget
             (stm_map_err (λ _, expansion_limit) (budget_ty type)))).

Definition finish_source_mapping : method unit :=
  s ← get;
  match ModuleBuilder.source_shifts (mb s) !! Syntax.function_id (func s) with
  | Some _ =>
      _ ← charge_source_work (length (mappings (Syntax.sources (module s))));
      modify flush_source_shifts
  | None => mret tt
  end.

(** For a block: its length, the allocations it starts with, and whether it is terminated. *)
Notation checkpoint := (list (BlockId * (nat * nat * bool))).
Definition instruction_count (f : Function) : nat := sum_list_with (λ b, length (instructions b)) (blocks f).
Definition block_checkpoint (b : BasicBlock) : BlockId * (nat * nat * bool) :=
  (block_id b, (length (instructions b), alloca_prefix (instructions b), is_terminated b)).

Definition source_checkpoint : method checkpoint :=
  s ← get;
  _ ← charge_source_work (length (blocks (func s)));
  s ← get;
  _ ← charge_source_work
        (instruction_count (func s) + length (mappings (Syntax.sources (module s))));
  _ ← modify flush_source_shifts;
  s ← get;
  mret (block_checkpoint <$> blocks (func s)).

(** Whether an instruction of a block is new since the checkpoint of the block. *)
Definition new_index (in_entry : bool) (old : nat * nat * bool) (allocas index : nat) : bool :=
  let '(old_len, old_allocas, _) := old in
  if in_entry : bool then
    ((old_allocas <=? index) && (index <? allocas))%nat
    || (old_len + (allocas - old_allocas) <=? index)%nat
  else (old_len <=? index)%nat.

Definition block_targets (f : Function) (before : gmap BlockId (nat * nat * bool)) (b : BasicBlock)
    : list SourceTarget.t :=
  let old := default (0%nat, 0%nat, false) (before !! block_id b) in
  let allocas := alloca_prefix (instructions b) in
  let in_entry := bool_decide (block_id b = entry f) in
  (SourceTarget.Instruction (Syntax.function_id f) (block_id b) <$>
    filter (λ index, new_index in_entry old allocas index = true) (seq 0 (length (instructions b))))
  ++ (if is_terminated b && negb old.2
      then [SourceTarget.Terminator (Syntax.function_id f) (block_id b)] else []).

(** The mappings that [annotate_source] adds: every new operation without a mapping. *)
Definition new_mappings (original : Z) (f : Function) (before : gmap BlockId (nat * nat * bool))
    (existing : list SourceTarget.t) : list SourceMapping :=
  (λ target, mkSourceMapping target original) <$>
    filter (.∉ existing) (blocks f ≫= block_targets f before).

Definition annotate_source (annotation : SourceAnnotation) (before : checkpoint) : method unit :=
  s ← get;
  _ ← charge_source_work (length (blocks (func s)) + length (files (Syntax.sources (module s))));
  s ← get;
  let m := Syntax.sources (module s) in
  _ ← charge_source_work
        (instruction_count (func s) + length (mappings m) + length (originals m)
         + ModuleBuilder.file_bytes m + ModuleBuilder.annotation_bytes annotation);
  _ ← modify flush_source_shifts;
  modify (λ s,
    let sources := add_frontend_original (Syntax.sources (module s)) annotation in
    let added := new_mappings (annotation_id annotation) (func s) (collect before)
                   (mapping_target <$> mappings sources) in
    let b := ModuleBuilder.with_sources (set_mappings (mappings sources ++ added) sources) (mb s) in
    with_mb (ModuleBuilder.with_mapped
      ({[Syntax.function_id (func s)]} ∪ ModuleBuilder.source_mapped_functions b) b) s).
End sources.
End FunctionBuilder.
Notation function_builder := FunctionBuilder.t.

(** ** Beginning a function *)

Section begin.
Context {E : Type}.
#[local] Notation method A := (stm module_builder E A).

(** The parameters get the first values of the function. *)
Fixpoint build_params (ps : list (string * ty)) : method (list Param) :=
  match ps with
  | [] => mret []
  | (name, type) :: ps =>
      id ← ModuleBuilder.fresh_value;
      ps ← build_params ps;
      mret (mkParam name id type :: ps)
  end.

(** The function builder that is returned holds the state reached. *)
Definition build_function (id : FunctionId) (name : string) (ps : list (string * ty)) (return_type : ty)
    : method (Function * BlockId) :=
  params ← build_params ps;
  entry ← ModuleBuilder.fresh_block;
  mret (mkFunction id name params return_type [new_block entry "entry"] entry
          ((λ p, (param_id p, param_ty p)) <$> params), entry).
End begin.

(** The builder over the state reached. *)
Definition builder_of {E} (op : stm module_builder E (Function * BlockId)) (b : module_builder)
    : result E function_builder :=
  match op b with
  | (Ok (f, entry), b) => Ok (FunctionBuilder.mk b f entry)
  | (Err e, _) => Err e
  | (Panic, _) => Panic
  end.

Definition begin_declared_function (id : FunctionId) (names : list string)
    : stm module_builder call_error (Function * BlockId) :=
  d ← check (λ b, FunctionBuilder.find_declaration id (ModuleBuilder.module b));
  _ ← lift (validate_signature (decl_signature d));
  b ← get;
  _ ← when_err (existsb (λ f, bool_decide (function_id f = id)) (functions (ModuleBuilder.module b)))
        (CallError.DuplicateDefinition id);
  _ ← when_err (negb (length names =? length (params (decl_signature d)))%nat)
        (CallError.DefinitionMismatch id);
  build_function id (decl_name d) (zip names (params (decl_signature d))) (ret (decl_signature d)).

(** The legacy operation declares the function without a check. *)
Definition begin_function {E} (name : string) (ps : list (string * ty)) (return_type : ty)
    : stm module_builder E (Function * BlockId) :=
  b ← get;
  let id := ModuleBuilder.next_function b in
  _ ← modify (ModuleBuilder.push_decl (mkDecl id name (whale ps.*2 return_type) Internal None));
  build_function id name ps return_type.
