(* ===== verification/Operands.v ===== *)
(** * Operand checks of the verifier ([verifier/index.rs], [verifier/operands.rs])

    The errors of the verifier, the indexed view of a function and the type rules of single
    instructions.  The counter of type lookups, a statistic that no decision reads, is left
    out. *)
From S2P Require Export Signatures Sources ConstExpr.
Local Open Scope Z_scope.

(** ** Errors ([verifier.rs]) *)

Module VerifyError.
Inductive t :=
  | GlobalStorage (name : string) (global : GlobalId) (reason : storage_error)
  | SourceMetadata (e : SourceMetadataError)
  | ResourceLimit (e : LimitError)
  | ForbiddenUndef (func : string) (value : ValueId)
  | InvalidMemoryLayout (func operation : string) (reason : LayoutError.t)
  | InvalidCast (func : string) (value : ValueId) (op : CastOp.t) (source destination : ty)
  | Call (func : string) (reason : call_error)
  | Target (e : TargetError)
  | InvalidConstExpression (scope : string) (declaration : ConstRef.t) (reason : const_error)
  | NonDominatingValue (func : string) (value : ValueId) (block : BlockId)
  | InvalidPhi (func : string) (block : BlockId) (value : ValueId) (reason : string)
  | InvalidGep (func : string) (value : ValueId) (index : option nat) (reason : string)
  | InvalidInstructionType (func operation : string) (t : ty)
  | OperandTypeMismatch (func : string) (value : ValueId) (expected got : ty)
  | InvalidMemoryAlignment (func : string) (align : Z)
  | InvalidSwitchCase (func : string) (block : BlockId) (index : nat)
  | DuplicateSwitchCase (func : string) (block : BlockId) (index : nat)
  | DuplicateFunction (name : string)
  | DuplicateGlobal (name : string)
  | InvalidConstant (func : string) (value : ValueId) (t : ty) (payload : const_value)
  | InvalidGlobalInitializer (name : string) (t : ty) (payload : const_value)
  | InvalidGlobalAlignment (name : string) (align : Z)
  | ConditionTypeMismatch (func : string) (value : ValueId) (got : ty)
  | DuplicateBlock (func : string) (block : BlockId)
  | DuplicateValue (func : string) (value : ValueId)
  | DuplicateValueType (func : string) (value : ValueId)
  | UnexpectedValueType (func : string) (value : ValueId)
  | ValueTypeMismatch (func : string) (value : ValueId) (expected got : ty)
  | InvalidEntryBlock (func : string) (entry : BlockId)
  | EntryHasPredecessor (func : string) (entry predecessor : BlockId)
  | InvalidBranchTarget (func : string) (block target : BlockId)
  | MissingValueType (func : string) (value : ValueId)
  | VoidParameter (func param : string)
  | UnterminatedBlock (func block : string)
  | RetTypeMismatch (func : string) (expected : ty) (got : option ty)
  | UseOfUndefinedValue (func : string) (value : ValueId).
End VerifyError.
Notation verify_err := VerifyError.t.
Notation checked_ := (result verify_err).

(** A computation that cannot fail, among those that can. *)
Definition no_error {E A} (r : result Empty_set A) : result E A :=
  map_err (λ e : Empty_set, match e with end) r.

(** ** The indexed function ([index.rs]) *)

(** [entry(key).or_insert(value)] over the entries in order: the first one wins. *)
Definition or_insert_all `{Countable K} {V} (l : list (K * V)) : gmap K V :=
  foldl (λ m p, match m !! p.1 with Some _ => m | None => <[p.1 := p.2]> m end) ∅ l.

Record IndexedFunction := mkIndexed {
  indexed : Function;
  types : gmap ValueId ty;
  constants : gmap ValueId const_value;
}.

Definition function_instructions_of (f : Function) : list instruction :=
  f.(blocks) ≫= instructions.
Definition constant_entry (ins : instruction) : option (ValueId * const_value) :=
  match ins with
  | Instruction.Const dst _ value | Instruction.ConstDecl dst _ _ value => Some (dst, value)
  | _ => None
  end.
Definition new_indexed (f : Function) : IndexedFunction :=
  mkIndexed f (or_insert_all (value_types f))
    (or_insert_all (omap constant_entry (function_instructions_of f))).

Definition type_of (f : IndexedFunction) (v : ValueId) : option ty := types f !! v.
Definition constant_of (f : IndexedFunction) (v : ValueId) : option const_value := constants f !! v.
Definition func_name (f : IndexedFunction) : string := function_name (indexed f).

(** ** Type predicates ([operands.rs]) *)

Definition is_signed (t : ty) : bool :=
  match t with Ty.I1 | Ty.I8 | Ty.I16 | Ty.I32 | Ty.I64 | Ty.I128 => true | _ => false end.
Definition is_unsigned (t : ty) : bool :=
  match t with Ty.U1 | Ty.U8 | Ty.U16 | Ty.U32 | Ty.U64 | Ty.U128 => true | _ => false end.
Definition is_integer (t : ty) : bool := is_signed t || is_unsigned t.
Definition is_float (t : ty) : bool :=
  match t with Ty.F16 | Ty.F32 | Ty.F64 => true | _ => false end.

Definition integer_width (t : ty) : option Z :=
  match t with
  | Ty.I1 | Ty.U1 => Some 1
  | Ty.I8 | Ty.U8 => Some 8
  | Ty.I16 | Ty.U16 => Some 16
  | Ty.I32 | Ty.U32 => Some 32
  | Ty.I64 | Ty.U64 => Some 64
  | Ty.I128 | Ty.U128 => Some 128
  | _ => None
  end.
Definition float_width (t : ty) : option Z :=
  match t with Ty.F16 => Some 16 | Ty.F32 => Some 32 | Ty.F64 => Some 64 | _ => None end.

Definition is_ptr (t : ty) : bool := match t with Ty.Ptr _ => true | _ => false end.

(** [a.zip(b).is_some_and(f)]. *)
Definition both_and (a b : option Z) (f : Z → Z → bool) : bool :=
  match a, b with Some x, Some y => f x y | _, _ => false end.
Definition or_else {A} (a b : option A) : option A := match a with Some _ => a | None => b end.

Definition valid_cast (op : CastOp.t) (source destination : ty) : bool :=
  let integer_pair := both_and (integer_width source) (integer_width destination) in
  let float_pair := both_and (float_width source) (float_width destination) in
  match op with
  | CastOp.ZExt =>
      if bool_decide (source = Ty.Bool)
      then is_integer destination && negb (bool_decide (destination = Ty.I1))
      else integer_pair Z.ltb
  | CastOp.SExt => integer_pair Z.ltb
  | CastOp.CheckedInt => integer_pair (λ _ _, true)
  | CastOp.Trunc => integer_pair (λ s d, d <? s)
  | CastOp.FExt => float_pair Z.ltb
  | CastOp.FTrunc => float_pair (λ s d, d <? s)
  | CastOp.IToF_S => is_signed source && is_float destination
  | CastOp.IToF_U => is_unsigned source && is_float destination
  | CastOp.FToI_S => is_float source && is_signed destination
  | CastOp.FToI_U => is_float source && is_unsigned destination
  | CastOp.Bitcast =>
      both_and (or_else (integer_width source) (float_width source))
        (or_else (integer_width destination) (float_width destination)) Z.eqb
      || (is_ptr source && is_ptr destination)
  | CastOp.PtrToInt => is_ptr source && is_integer destination
  | CastOp.IntToPtr => is_integer source && is_ptr destination
  end.

Definition supports_equality (t : ty) : bool :=
  is_integer t || match t with Ty.Bool | Ty.Ptr _ => true | _ => false end.

Fixpoint is_storable (t : ty) : bool :=
  match t with
  | Ty.Void => false
  | Ty.Array element _ => is_storable element
  | Ty.Struct fields | Ty.Tuple fields => forallb is_storable fields
  | _ => true
  end.
Definition is_aggregate_type (t : ty) : bool :=
  match t with Ty.Array _ _ | Ty.Struct _ | Ty.Tuple _ => true | _ => false end.

(** ** The checks *)

Section checks.
Context (f : IndexedFunction).

Definition verify_type_category (operation : string) (t : ty) (valid : bool) : checked_ unit :=
  guard_err valid (VerifyError.InvalidInstructionType (func_name f) operation t).

Definition typed_value (v : ValueId) : checked_ ty :=
  ok_or (type_of f v) (VerifyError.MissingValueType (func_name f) v).

Definition verify_operand (v : ValueId) (expected : ty) : checked_ unit :=
  got ← typed_value v;
  guard_err (bool_decide (got = expected))
    (VerifyError.OperandTypeMismatch (func_name f) v expected got).

Definition verify_alignment (align : Z) : checked_ unit :=
  guard_err (is_power_of_two align) (VerifyError.InvalidMemoryAlignment (func_name f) align).

Definition verify_condition (v : ValueId) : checked_ unit :=
  t ← typed_value v;
  guard_err (bool_decide (t = Ty.Bool)) (VerifyError.ConditionTypeMismatch (func_name f) v t).

(** The ordinal a constant index selects. *)
Definition field_ordinal (v : ValueId) : option nat :=
  match constant_of f v with
  | Some (ConstValue.I n) | Some (ConstValue.U n) => if in_u 64 n then Some (Z.to_nat n) else None
  | _ => None
  end.

(** The loop over the indices of [verify_gep]. *)
Fixpoint gep_selected (dst : ValueId) (position : nat) (selected : ty) (indices : list ValueId)
    : checked_ ty :=
  let invalid (index : nat) (reason : string) :=
    VerifyError.InvalidGep (func_name f) dst (Some index) reason in
  match indices with
  | [] => Ok selected
  | value :: indices =>
      t ← typed_value value;
      if negb (is_integer t) then Err (invalid position "index must be an integer"%string) else
      if (position =? 0)%nat then gep_selected dst (S position) selected indices else
      selected ←
        match selected with
        | Ty.Array element _ => Ok element
        | Ty.Struct fields | Ty.Tuple fields =>
            ordinal ← ok_or (field_ordinal value)
                        (invalid position "field index must be a nonnegative integer constant"%string);
            ok_or (fields !! ordinal)
              (invalid position "field index is outside the aggregate type"%string)
        | _ => Err (invalid position
                 "further indices require an array, struct, or tuple; GEP does not load pointers"%string)
        end;
      gep_selected dst (S position) selected indices
  end.

Definition verify_gep (dst : ValueId) (dst_ty : ty) (base : ValueId) (indices : list ValueId)
    : checked_ unit :=
  base_ty ← typed_value base;
  match base_ty with
  | Ty.Ptr selected =>
      if negb (bool_decide (indices = [])) && negb (is_storable selected)
      then Err (VerifyError.InvalidGep (func_name f) dst None
                  "element addressing requires a concrete stored type")
      else
        selected ← gep_selected dst 0 selected indices;
        guard_err (bool_decide (dst_ty = Ty.Ptr selected))
          (VerifyError.OperandTypeMismatch (func_name f) dst (Ty.Ptr selected) dst_ty)
  | _ => Err (VerifyError.InvalidGep (func_name f) dst None "base must be a pointer")
  end.

Definition checked_category (op : CheckedOp.t) (t : ty) : bool :=
  match op with
  | CheckedOp.SAdd | CheckedOp.SSub | CheckedOp.SMul => is_signed t
  | CheckedOp.UAdd | CheckedOp.USub | CheckedOp.UMul => is_unsigned t
  end.
Definition bin_category (op : BinOp.t) (t : ty) : bool :=
  match op with
  | BinOp.FAdd | BinOp.FSub | BinOp.FMul | BinOp.FDiv | BinOp.FRem => is_float t
  | BinOp.SDiv | BinOp.SRem => is_signed t
  | BinOp.UDiv | BinOp.URem => is_unsigned t
  | _ => is_integer t
  end.
Definition cmp_category (op : CmpOp.t) (t : ty) : bool :=
  match op with
  | CmpOp.Eq | CmpOp.Ne => supports_equality t
  | CmpOp.SLt | CmpOp.SLe | CmpOp.SGt | CmpOp.SGe => is_signed t || is_ptr t
  | CmpOp.ULt | CmpOp.ULe | CmpOp.UGt | CmpOp.UGe => is_unsigned t || is_ptr t
  | _ => is_float t
  end.
Definition icmp_category (pred : ICmpPred.t) (t : ty) : bool :=
  match pred with
  | ICmpPred.Eq | ICmpPred.Ne => supports_equality t
  | ICmpPred.Slt | ICmpPred.Sle | ICmpPred.Sgt | ICmpPred.Sge => is_signed t || is_ptr t
  | _ => is_unsigned t || is_ptr t
  end.

Definition verify_instruction (ins : instruction) : checked_ unit :=
  match ins with
  | Instruction.Neg _ t src =>
      _ ← verify_type_category "neg" t (is_integer t || is_float t); verify_operand src t
  | Instruction.Cast dst op dst_ty src_ty src =>
      _ ← verify_operand src src_ty;
      guard_err (valid_cast op src_ty dst_ty)
        (VerifyError.InvalidCast (func_name f) dst op src_ty dst_ty)
  | Instruction.Checked _ op t lhs rhs =>
      _ ← verify_type_category "checked arithmetic" t (checked_category op t);
      _ ← verify_operand lhs t; verify_operand rhs t
  | Instruction.Bin _ op t lhs rhs =>
      _ ← verify_type_category "binary operation" t (bin_category op t);
      _ ← verify_operand lhs t; verify_operand rhs t
  | Instruction.LifetimeEnd ptr =>
      t ← typed_value ptr; verify_type_category "lifetime_end" t (is_ptr t)
  | Instruction.PtrDiff _ lhs rhs =>
      t ← typed_value lhs;
      _ ← verify_type_category "ptrdiff" t (is_ptr t); verify_operand rhs t
  | Instruction.Not _ t src =>
      _ ← verify_type_category "not" t (is_integer t); verify_operand src t
  | Instruction.Mov _ t src =>
      _ ← verify_type_category "mov" t (is_storable t); verify_operand src t
  | Instruction.Cmp _ op t lhs rhs =>
      _ ← verify_type_category "comparison" t (cmp_category op t);
      _ ← verify_operand lhs t; verify_operand rhs t
  | Instruction.ICmp _ pred t lhs rhs =>
      _ ← verify_type_category "integer comparison" t (icmp_category pred t);
      _ ← verify_operand lhs t; verify_operand rhs t
  | Instruction.FCmp _ _ t lhs rhs =>
      _ ← verify_type_category "floating comparison" t (is_float t);
      _ ← verify_operand lhs t; verify_operand rhs t
  | Instruction.Select _ t cond on_true on_false =>
      _ ← verify_condition cond;
      _ ← verify_type_category "select" t (is_storable t);
      _ ← verify_operand on_true t; verify_operand on_false t
  | Instruction.Extract _ dst_ty tuple index =>
      let field := match type_of f tuple with
                   | Some (Ty.Tuple fields) => fields !! Z.to_nat index
                   | _ => None
                   end in
      verify_type_category "extract" dst_ty (bool_decide (field = Some dst_ty))
  | Instruction.Uninit t ptr align =>
      _ ← verify_alignment align;
      _ ← verify_type_category "uninit" t (is_storable t); verify_operand ptr (ptr_to t)
  | Instruction.Alloca _ t align =>
      _ ← verify_alignment align; verify_type_category "alloca" t (is_storable t)
  | Instruction.VolatileLoad _ t ptr align =>
      _ ← verify_alignment align;
      _ ← verify_type_category "volatile load" t (is_storable t && negb (is_aggregate_type t));
      verify_operand ptr (ptr_to t)
  | Instruction.VolatileStore t value ptr align =>
      _ ← verify_alignment align;
      _ ← verify_type_category "volatile store" t (is_storable t && negb (is_aggregate_type t));
      _ ← verify_operand ptr (ptr_to t); verify_operand value t
  | Instruction.Load _ t ptr align =>
      _ ← verify_alignment align;
      _ ← verify_type_category "load" t (is_storable t); verify_operand ptr (ptr_to t)
  | Instruction.Store t value ptr align =>
      _ ← verify_alignment align;
      _ ← verify_type_category "store" t (is_storable t);
      _ ← verify_operand ptr (ptr_to t); verify_operand value t
  | Instruction.Gep dst dst_ty base_ptr indices => verify_gep dst dst_ty base_ptr indices
  | Instruction.Memcpy dst src n align =>
      _ ← verify_alignment align;
      _ ← verify_operand dst (ptr_to Ty.U8);
      _ ← verify_operand src (ptr_to Ty.U8); verify_operand n Ty.U64
  | Instruction.Memset dst val n align =>
      _ ← verify_alignment align;
      _ ← verify_operand dst (ptr_to Ty.U8);
      _ ← verify_operand val Ty.U8; verify_operand n Ty.U64
  | _ => Ok tt
  end.
End checks.
