(* ===== verification/Calls.v ===== *)
(** * Call checks of the verifier ([verifier/calls.rs])

    Declarations against definitions, and the signatures of calls and function addresses. *)
From S2P Require Export Operands.
Local Open Scope Z_scope.

Definition call_failure {A} (name : string) (r : result call_error A) : checked_ A :=
  map_err (VerifyError.Call name) r.

(** [validate_pointer_types]. *)
Fixpoint validate_pointer_types (limits : IrLimits) (t : ty) : result call_error unit :=
  match t with
  | Ty.FnPtr sig => validate_signature_with_limits sig limits
  | Ty.Ptr t | Ty.Array t _ => validate_pointer_types limits t
  | Ty.Struct ts | Ty.Tuple ts =>
      (fix each (ts : list ty) : result call_error unit :=
         match ts with
         | [] => Ok tt
         | t :: ts => _ ← validate_pointer_types limits t; each ts
         end) ts
  | _ => Ok tt
  end.

Fixpoint contains_function_pointer (t : ty) : bool :=
  match t with
  | Ty.FnPtr _ => true
  | Ty.Ptr t | Ty.Array t _ => contains_function_pointer t
  | Ty.Struct ts | Ty.Tuple ts => existsb contains_function_pointer ts
  | _ => false
  end.

(** A [for] loop over a slice whose body may return early. *)
Fixpoint for_all {E A} (body : A → result E unit) (l : list A) : result E unit :=
  match l with
  | [] => Ok tt
  | x :: l => _ ← body x; for_all body l
  end.

(** ** Declarations *)

Definition verify_function_types (limits : IrLimits) (f : Function) : checked_ unit :=
  _ ← for_all (λ p, call_failure (function_name f) (validate_pointer_types limits p.2)) (value_types f);
  for_all (λ p, guard_err (negb (bool_decide (param_ty p = Ty.Void)))
                  (VerifyError.VoidParameter (function_name f) (param_name p)))
    (function_params f).

(** The sets the loop over declarations fills. *)
Record DeclSets := mkDeclSets { decl_ids : gset FunctionId; decl_names : gset string; decl_links : gset string }.

Definition verify_decl (m : Module_) (limits : IrLimits) (sets : DeclSets) (d : FunctionDecl)
    : checked_ DeclSets :=
  let error {A} (e : call_error) : checked_ A := Err (VerifyError.Call (decl_name d) e) in
  _ ← call_failure (decl_name d) (validate_decl_with_limits d limits);
  if bool_decide (decl_id d ∈ decl_ids sets) || bool_decide (decl_name d ∈ decl_names sets)
  then error (CallError.ConflictingDeclaration (decl_name d)) else
  links ← match decl_link_name d with
          | Some link =>
              if bool_decide (link ∈ decl_links sets) then error (CallError.LinkNameCollision link)
              else Ok ({[link]} ∪ decl_links sets)
          | None => Ok (decl_links sets)
          end;
  if bool_decide (decl_linkage d = Internal)
     && negb (existsb (λ f, bool_decide (function_id f = decl_id d)) (functions m))
  then error (CallError.MissingDefinition (decl_id d))
  else Ok (mkDeclSets ({[decl_id d]} ∪ decl_ids sets) ({[decl_name d]} ∪ decl_names sets) links).

Fixpoint verify_decls (m : Module_) (limits : IrLimits) (sets : DeclSets) (ds : list FunctionDecl)
    : checked_ unit :=
  match ds with
  | [] => Ok tt
  | d :: ds => sets ← verify_decl m limits sets d; verify_decls m limits sets ds
  end.

Definition find_decl (m : Module_) (id : FunctionId) : option FunctionDecl :=
  find_opt (λ d, bool_decide (decl_id d = id)) (declarations m).

Definition verify_body (m : Module_) (f : Function) : checked_ unit :=
  d ← ok_or (find_decl m (function_id f))
        (VerifyError.Call (function_name f) (CallError.UnknownFunction (function_id f)));
  guard_err (bool_decide (decl_name d = function_name f)
             && bool_decide (ret (decl_signature d) = ret_ty f)
             && bool_decide (params (decl_signature d) = param_ty <$> function_params f))
    (VerifyError.Call (function_name f) (CallError.DefinitionMismatch (function_id f))).

Fixpoint verify_bodies (m : Module_) (seen : gset FunctionId) (fs : list Function) : checked_ unit :=
  match fs with
  | [] => Ok tt
  | f :: fs =>
      if bool_decide (function_id f ∈ seen)
      then Err (VerifyError.Call (function_name f) (CallError.DuplicateDefinition (function_id f)))
      else _ ← verify_body m f; verify_bodies m ({[function_id f]} ∪ seen) fs
  end.

Definition verify_declarations (m : Module_) (limits : IrLimits) : checked_ unit :=
  _ ← for_all (verify_function_types limits) (functions m);
  _ ← verify_decls m limits (mkDeclSets ∅ ∅ ∅) (declarations m);
  verify_bodies m ∅ (functions m).

(** ** Instructions *)

Definition callee_signature (m : Module_) (f : IndexedFunction) (callee : Callee.t)
    : result call_error FunctionSignature :=
  match callee with
  | Callee.Direct id =>
      d ← ok_or (find_decl m id) (CallError.UnknownFunction id); Ok (decl_signature d)
  | Callee.Indirect value =>
      match type_of f value with
      | Some (Ty.FnPtr sig) => Ok sig
      | Some _ => Err (CallError.NotFunctionPointer value)
      | None => Err (CallError.UnknownValue value)
      end
  end.

Fixpoint verify_arguments (f : IndexedFunction) (index : nat) (args : list (ValueId * ty))
    : result call_error unit :=
  match args with
  | [] => Ok tt
  | (value, expected) :: args =>
      got ← ok_or (type_of f value) (CallError.UnknownValue value);
      _ ← guard_err (bool_decide (got = expected)) (CallError.ArgumentType index expected got);
      verify_arguments f (S index) args
  end.

Definition verify_call (m : Module_) (f : IndexedFunction) (limits : IrLimits)
    (conv : CallingConvention) (dst : option ValueId) (t : ty) (callee : Callee.t)
    (args : list ValueId) : result call_error unit :=
  sig ← callee_signature m f callee;
  _ ← validate_signature_with_limits sig limits;
  _ ← guard_err (bool_decide (conv = convention sig)) CallError.ConventionMismatch;
  _ ← guard_err (bool_decide (t = ret sig)) (CallError.ReturnType (ret sig) t);
  _ ← guard_err (negb (Bool.eqb (bool_decide (is_Some dst)) (bool_decide (ret sig = Ty.Void))))
        CallError.ResultPresence;
  _ ← guard_err (length args =? length (params sig))%nat
        (CallError.ArgumentCount (length (params sig)) (length args));
  verify_arguments f 0 (zip args (params sig)).

(** The only cast of a type that reaches a function pointer is between pointers. *)
Definition forbidden_cast (f : IndexedFunction) (op : CastOp.t) (src_ty dst_ty : ty) (src : ValueId)
    : bool :=
  let src_is (p : ty → bool) := match type_of f src with Some t => p t | None => false end in
  negb (bool_decide (op = CastOp.Bitcast) && is_ptr src_ty && is_ptr dst_ty && src_is is_ptr)
  && (contains_function_pointer src_ty || contains_function_pointer dst_ty
      || src_is contains_function_pointer).

Definition check_call_instruction (m : Module_) (f : IndexedFunction) (limits : IrLimits)
    (ins : instruction) : result call_error unit :=
  match ins with
  | Instruction.NullFunction _ sig => validate_signature_with_limits sig limits
  | Instruction.FunctionAddr _ id sig =>
      d ← ok_or (find_decl m id) (CallError.UnknownFunction id);
      guard_err (bool_decide (decl_signature d = sig)) CallError.AddressTypeMismatch
  | Instruction.Call conv dst t callee args => verify_call m f limits conv dst t callee args
  | Instruction.Cast _ op dst_ty src_ty src =>
      guard_err (negb (forbidden_cast f op src_ty dst_ty src)) CallError.ForbiddenFunctionPointerCast
  | _ => Ok tt
  end.

Definition verify_call_instruction (m : Module_) (f : IndexedFunction) (limits : IrLimits)
    (ins : instruction) : checked_ unit :=
  call_failure (func_name f) (check_call_instruction m f limits ins).
