(* ===== verification/Constants.v ===== *)
(** * Constant declarations ([verifier/constants.rs])

    The verifier evaluates the constants of a scope in dependency order: a queue of the
    declarations whose references are all known, in the manner of Kahn's topological sort.

    [Resolution.v] proves that it decides whether the declarations have a valuation. *)
From S2P Require Export Calls.
Local Open Scope Z_scope.

#[export] Instance ConstRef_countable : Countable ConstRef.t.
Proof.
  refine (inj_countable'
    (λ r, match r with ConstRef.Global g => inl g | ConstRef.Local v => inr v end)
    (λ s, match s with inl g => ConstRef.Global g | inr v => ConstRef.Local v end) _).
  by intros [].
Defined.

(** ** The code *)

Definition Values := gmap ConstRef.t (ty * const_value).

Definition lookup_constant (locals globals : Values) (reference : ConstRef.t)
    : option (ty * const_value) :=
  or_else (locals !! reference) (globals !! reference).

Record Definition_ := mkDefinition {
  def_id : ConstRef.t;
  def_ty : ty;
  def_expression : const_expr;
  def_result : const_value;
}.

(** The queue's state; [users] is fixed when the queue starts. *)
Record Kahn := mkKahn {
  known : Values;
  remaining_of : list nat;
  ready : list nat;
  completed : list bool;
}.

Section evaluate.
Context (scope : string) (definitions : list Definition_) (initial globals : Values)
  (l : IrLimits).

Definition const_failure (declaration : ConstRef.t) (reason : const_error) : verify_err :=
  VerifyError.InvalidConstExpression scope declaration reason.

(** The identities of the definitions. *)
Fixpoint index_definitions (i : nat) (indices : gmap ConstRef.t nat) (defs : list Definition_)
    : checked_ (gmap ConstRef.t nat) :=
  match defs with
  | [] => Ok indices
  | d :: defs =>
      if bool_decide (is_Some (indices !! def_id d))
         || bool_decide (is_Some (lookup_constant initial globals (def_id d)))
      then Err (const_failure (def_id d) (ConstEvalError.DuplicateDefinition (def_id d))) else
      if negb (bool_decide (def_ty d = expr_ty (def_expression d)))
      then Err (const_failure (def_id d) ConstEvalError.TypeMismatch)
      else index_definitions (S i) (<[def_id d := i]> indices) defs
  end.

(** The references of a definition: how many are not known yet, and who waits for them. *)
Fixpoint count_references (indices : gmap ConstRef.t nat) (i : nat) (d : Definition_)
    (seen : gset ConstRef.t) (refs : list ConstRef.t) (count : nat) (users : list (list nat))
    : checked_ (nat * list (list nat)) :=
  match refs with
  | [] => Ok (count, users)
  | r :: refs =>
      if bool_decide (r ∈ seen) || bool_decide (is_Some (lookup_constant initial globals r))
      then count_references indices i d ({[r]} ∪ seen) refs count users
      else
        dependency ← ok_or (indices !! r)
                       (const_failure (def_id d) (ConstEvalError.UnknownReference r));
        waiting ← expect (users !! dependency);
        count_references indices i d ({[r]} ∪ seen) refs (S count)
          (<[dependency := waiting ++ [i]]> users)
  end.

Fixpoint count_definitions (indices : gmap ConstRef.t nat) (i : nat) (defs : list Definition_)
    (remaining : list nat) (users : list (list nat)) (queue : list nat)
    : checked_ (list nat * list (list nat) * list nat) :=
  match defs with
  | [] => Ok (remaining, users, queue)
  | d :: defs =>
      refs ← no_error (references (def_expression d));
      '(count, users) ← count_references indices i d ∅ refs 0 users;
      count_definitions indices (S i) defs (remaining ++ [count]) users
        (if (count =? 0)%nat then queue ++ [i] else queue)
  end.

(** One user of a completed definition has one reference less to wait for. *)
Fixpoint release (waiting : list nat) (remaining : list nat) (queue : list nat)
    : checked_ (list nat * list nat) :=
  match waiting with
  | [] => Ok (remaining, queue)
  | user :: waiting =>
      n ← expect (remaining !! user);
      n ← expect (checked_sub_nat n 1);
      release waiting (<[user := n]> remaining) (if (n =? 0)%nat then queue ++ [user] else queue)
  end.

Definition complete (users : list (list nat)) (k : Kahn) (i : nat) (queue : list nat)
    : checked_ Kahn :=
  d ← expect (definitions !! i);
  result ← map_err (const_failure (def_id d))
             (evaluate_with_limits (lookup_constant (known k) globals) (def_expression d) l);
  if negb (same_value result (def_result d))
  then Err (const_failure (def_id d) ConstEvalError.ResultMismatch) else
  waiting ← expect (users !! i);
  '(remaining, queue) ← release waiting (remaining_of k) queue;
  Ok (mkKahn (<[def_id d := (def_ty d, result)]> (known k)) remaining queue
        (<[i := true]> (completed k))).

Fixpoint drain (users : list (list nat)) (fuel : nat) (k : Kahn) : checked_ Kahn :=
  match fuel with
  | O => Panic
  | S fuel =>
      match ready k with
      | [] => Ok k
      | i :: queue => k ← complete users k i queue; drain users fuel k
      end
  end.

(** The position of the first incomplete definition. *)
Definition unfinished (k : Kahn) : option nat :=
  fst <$> list_find (λ b, b = false) (completed k).

Definition evaluate_definitions : checked_ Values :=
  indices ← index_definitions 0 ∅ definitions;
  '(remaining, users, queue) ←
    count_definitions indices 0 definitions [] (replicate (length definitions) []) [];
  k ← drain users (S (length definitions))
        (mkKahn initial remaining queue (replicate (length definitions) false));
  match unfinished k with
  | Some i =>
      d ← expect (definitions !! i);
      Err (const_failure (def_id d) ConstEvalError.CyclicReference)
  | None => Ok (known k)
  end.
End evaluate.

Definition global_definition (g : Global) : Definition_ :=
  mkDefinition (ConstRef.Global (global_id g)) (global_ty g) (init_expr g) (global_init g).
Definition verify_globals (m : Module_) (l : IrLimits) : checked_ Values :=
  evaluate_definitions "module" (global_definition <$> globals m) ∅ ∅ l.

Definition local_constant (ins : instruction) : option (ConstRef.t * (ty * const_value)) :=
  match ins with
  | Instruction.Const dst t value => Some (ConstRef.Local dst, (t, value))
  | _ => None
  end.
Definition local_definition (ins : instruction) : option Definition_ :=
  match ins with
  | Instruction.ConstDecl dst _ e value =>
      Some (mkDefinition (ConstRef.Local dst) (expr_ty e) e value)
  | _ => None
  end.
Definition verify_locals (f : Function) (globals : Values) (l : IrLimits) : checked_ unit :=
  _ ← evaluate_definitions (function_name f) (omap local_definition (function_instructions_of f))
        (collect (omap local_constant (function_instructions_of f))) globals l;
  Ok tt.
