(* ===== verification/Resolution.v ===== *)
(** * The order of constant declarations

    [evaluate_definitions] of [Constants.v] decides whether a scope has a valuation: every
    declaration is new and of the type of its expression, no declaration depends on itself, and
    every expression evaluates, in the valuation, to the declared result.  The queue finds a
    valuation exactly if there is one, it is the only one, and the queue needs as many steps as there
    are declarations. *)
From S2P Require Export Constants.
Local Open Scope Z_scope.

Lemma filter_ext_in {A} (P Q : A → Prop) `{!∀ x, Decision (P x), !∀ x, Decision (Q x)} (xs : list A) :
  (∀ x, x ∈ xs → P x ↔ Q x) → filter P xs = filter Q xs.
Proof.
  induction xs as [|x xs IH]; intros Hext; [done|]. rewrite !filter_cons.
  rewrite (decide_ext (P x) (Q x)) by (apply Hext; by left). by rewrite IH by (intros y ?; apply Hext; by right).
Qed.

Lemma filter_all {A} (P : A → Prop) `{!∀ x, Decision (P x)} (xs : list A) :
  (∀ x, P x) → filter P xs = xs.
Proof. intros HP. induction xs as [|x xs IH]; [done|]. by rewrite filter_cons_True, IH. Qed.

Section resolution.
Context (scope : string) (definitions : list Definition_) (initial globals : Values) (l : IrLimits).
#[local] Notation n := (length definitions).
#[local] Notation ids := (def_id <$> definitions).
#[local] Notation given r := (lookup_constant initial globals r).

(** ** Valuations *)

(** The declarations are new, each once, and of the declared types. *)
Record declared : Prop := {
  declared_distinct : NoDup ids;
  declared_fresh d : d ∈ definitions → given (def_id d) = None;
  declared_type d : d ∈ definitions → def_ty d = expr_ty (def_expression d);
}.

(** The value of a declaration in a valuation is the value of its expression there. *)
Definition settled_at (K : Values) (d : Definition_) : Prop := ∃ v,
  K !! def_id d = Some (def_ty d, v) ∧
  evaluate_with_limits (lookup_constant K globals) (def_expression d) l = Ok v ∧
  same_value v (def_result d) = true.

Record valuation (K : Values) : Prop := {
  val_declared : declared;
  val_frame r : r ∉ ids → K !! r = initial !! r;
  val_settled d : d ∈ definitions → settled_at K d;
  val_known d r : d ∈ definitions → r ∈ refs_of (def_expression d) →
    is_Some (given r) ∨ r ∈ ids;
  val_acyclic : ∃ rank : ConstRef.t → nat, ∀ d r,
    d ∈ definitions → r ∈ refs_of (def_expression d) → r ∈ ids → (rank r < rank (def_id d))%nat;
}.

(** ** References between declarations *)

(** Declaration [i] refers to declaration [j]. *)
Definition refers (i j : nat) : Prop :=
  match definitions !! i, definitions !! j with
  | Some d, Some d' => def_id d' ∈ refs_of (def_expression d)
  | _, _ => False
  end.
#[global] Instance refers_dec i j : Decision (refers i j).
Proof. unfold refers. repeat case_match; apply _. Defined.
Definition deps (i : nat) : list nat := filter (refers i) (seq 0 n).

(** The references of a declaration that wait for a declaration still to be completed. *)
Definition awaited (order : list nat) (i : nat) : nat := length (filter (.∉ order) (deps i)).

Lemma refers_spec i j d : definitions !! i = Some d →
  refers i j ↔ ∃ d', definitions !! j = Some d' ∧ def_id d' ∈ refs_of (def_expression d).
Proof. unfold refers. intros ->. destruct (definitions !! j); naive_solver. Qed.
Lemma refers_bound i j : refers i j → (i < n)%nat ∧ (j < n)%nat.
Proof.
  unfold refers. destruct (definitions !! i) eqn:E1, (definitions !! j) eqn:E2; try done.
  intros _. split; by eapply lookup_lt_Some.
Qed.
Lemma elem_of_deps i j : j ∈ deps i ↔ refers i j.
Proof.
  unfold deps. rewrite list_elem_of_filter, elem_of_seq. split; [tauto|].
  intros Hr. split; [done|]. apply refers_bound in Hr. lia.
Qed.
Lemma NoDup_deps i : NoDup (deps i).
Proof. apply NoDup_filter, NoDup_seq. Qed.

(** ** The table of identities *)

Definition identifies (indices : gmap ConstRef.t nat) (defs : list Definition_) : Prop := ∀ r k,
  indices !! r = Some k ↔ ∃ d, defs !! k = Some d ∧ def_id d = r.

Lemma identifies_snoc indices pre d :
  identifies indices pre → indices !! def_id d = None →
  identifies (<[def_id d := length pre]> indices) (pre ++ [d]).
Proof.
  intros Hid Hnew r k. destruct (decide (r = def_id d)) as [->|Hr].
  - rewrite lookup_insert_eq. split.
    + intros [= <-]. exists d. by rewrite list_lookup_middle.
    + intros (d'&Hk&Hd'). apply lookup_app_Some in Hk as [Hk|[Hle Hk]].
      { assert (indices !! def_id d = Some k) by (apply Hid; eauto). congruence. }
      apply list_lookup_singleton_Some in Hk as [Hz _]. f_equal. lia.
  - rewrite lookup_insert_ne by done. rewrite (Hid r k). split.
    + intros (d'&Hk&Hd'). exists d'. by rewrite lookup_app_l by by eapply lookup_lt_Some.
    + intros (d'&Hk&Hd'). exists d'. split; [|done]. apply lookup_app_Some in Hk as [|[_ Hk]]; [done|].
      apply list_lookup_singleton_Some in Hk as [_ ->]. congruence.
Qed.

Lemma index_definitions_spec defs : ∀ pre indices,
  definitions = pre ++ defs → identifies indices pre → NoDup (def_id <$> pre) →
  (∀ d, d ∈ pre → given (def_id d) = None ∧ def_ty d = expr_ty (def_expression d)) →
  yields (λ _, ¬ declared) (index_definitions scope initial globals (length pre) indices defs)
    (λ indices', declared ∧ identifies indices' definitions).
Proof.
  induction defs as [|d defs IH]; intros pre indices Hdefs Hid Hnd Hok; cbn [index_definitions].
  { rewrite app_nil_r in Hdefs. subst pre. split; [|done]. split; [done|apply Hok..]. }
  assert (Hd : d ∈ definitions) by (rewrite Hdefs; set_solver).
  destruct (indices !! def_id d) as [k|] eqn:Ek.
  { rewrite bool_decide_true by done. simpl. intros [Hdist _ _]. apply Hid in Ek as (d'&Hk&Heq).
    rewrite Hdefs, fmap_app, NoDup_app in Hdist. destruct Hdist as (_&Hdis&_).
    apply (Hdis (def_id d)); [|by left]. rewrite <- Heq. apply list_elem_of_fmap_2.
    by eapply list_elem_of_lookup_2. }
  rewrite bool_decide_false by by intros []. cbn [orb].
  destruct (given (def_id d)) as [x|] eqn:Eg.
  { rewrite bool_decide_true by done. simpl. intros [_ Hfresh _]. by rewrite Hfresh in Eg. }
  rewrite bool_decide_false by by intros []. case_bool_decide as Hty; cbn [negb].
  2: { simpl. intros [_ _ Ht]. by apply Hty, Ht. }
  replace (S (length pre)) with (length (pre ++ [d])) by (rewrite length_app; simpl; lia).
  apply IH.
  - by rewrite <- app_assoc.
  - by apply identifies_snoc.
  - rewrite fmap_app. apply NoDup_app. split; [done|]. split; [|apply NoDup_singleton].
    intros r Hr ->%list_elem_of_singleton. apply list_elem_of_fmap in Hr as (d'&Heq&(k&Hk)%list_elem_of_lookup).
    assert (indices !! def_id d = Some k) by (apply Hid; eauto). congruence.
  - intros d' [?| ->%list_elem_of_singleton]%elem_of_app; auto.
Qed.

Lemma awaited_list order i (xs : list nat) : NoDup xs → i ∉ order →
  length (filter (.∉ order) xs) =
    (length (filter (.∉ order ++ [i]) xs) + if decide (i ∈ xs) then 1 else 0)%nat.
Proof.
  intros Hnd Hi. induction Hnd as [|x xs Hx Hnd IH]; [done|].
  rewrite !filter_cons. destruct (decide (x = i)) as [->|Hne].
  - rewrite decide_True by done. rewrite (decide_False (P := i ∉ order ++ [i])) by set_solver.
    rewrite (decide_True (P := i ∈ i :: xs)) by by left. rewrite decide_False in IH by done. simpl. lia.
  - rewrite (decide_ext (x ∉ order) (x ∉ order ++ [i])) by set_solver.
    rewrite (decide_ext (i ∈ x :: xs) (i ∈ xs)) by set_solver.
    destruct (decide (x ∉ order ++ [i])); simpl; rewrite IH; lia.
Qed.
Lemma awaited_nil i : awaited [] i = length (deps i).
Proof. unfold awaited. f_equal. apply filter_all. intros x. apply not_elem_of_nil. Qed.
Lemma awaited_step order i k : i ∉ order →
  awaited order k = (awaited (order ++ [i]) k + if decide (refers k i) then 1 else 0)%nat.
Proof.
  intros Hi. unfold awaited. rewrite (awaited_list order i) by (apply NoDup_deps || done).
  f_equal. apply decide_ext, elem_of_deps.
Qed.
Lemma awaited_0 order k : awaited order k = 0%nat ↔ ∀ j, refers k j → j ∈ order.
Proof.
  unfold awaited. rewrite length_zero_iff_nil. split.
  - intros Hnil j Hj%elem_of_deps. destruct (decide (j ∈ order)) as [|Hno]; [done|].
    assert (Hin : j ∈ filter (.∉ order) (deps k)) by by apply list_elem_of_filter.
    rewrite Hnil in Hin. by apply not_elem_of_nil in Hin.
  - intros Hall. destruct (filter (.∉ order) (deps k)) as [|j js] eqn:E; [done|].
    assert (Hin : j ∈ filter (.∉ order) (deps k)) by (rewrite E; by left).
    apply list_elem_of_filter in Hin as [Hno Hj%elem_of_deps]. by apply Hall in Hj.
Qed.

Lemma release_spec waiting : ∀ remaining queue, NoDup waiting →
  (∀ u, u ∈ waiting → ∃ m, remaining !! u = Some (S m)) →
  ∃ remaining', release waiting remaining queue =
      Ok (remaining', queue ++ filter (λ u, remaining !! u = Some 1%nat) waiting) ∧
    length remaining' = length remaining ∧
    ∀ u m, remaining !! u = Some m →
      remaining' !! u = Some (m - if decide (u ∈ waiting) then 1 else 0)%nat.
Proof.
  induction waiting as [|u waiting IH]; intros remaining queue Hnd Hpos; cbn [release].
  { exists remaining. rewrite filter_nil, app_nil_r. split_and!; [done..|].
    intros u m Hu. rewrite decide_False by apply not_elem_of_nil. by rewrite Nat.sub_0_r. }
  apply NoDup_cons in Hnd as [Hu Hnd]. destruct (Hpos u) as [m Hm]; [by left|].
  rewrite Hm. cbn [expect mbind result_bind]. unfold checked_sub_nat. rewrite decide_True by lia.
  cbn [expect mbind result_bind]. replace (S m - 1)%nat with m by lia.
  destruct (IH (<[u := m]> remaining) (if (m =? 0)%nat then queue ++ [u] else queue) Hnd)
    as (remaining'&->&Hl&Hrem).
  { intros w Hw. destruct (Hpos w) as [m' Hm']; [by right|]. exists m'.
    rewrite list_lookup_insert_ne; [done|]. by intros ->. }
  exists remaining'. split_and!.
  - do 2 f_equal. rewrite filter_cons, Hm.
    rewrite (filter_ext_in _ (λ w, remaining !! w = Some 1%nat)).
    + destruct m as [|m]; cbn [Nat.eqb].
      * rewrite decide_True by done. by rewrite <- app_assoc.
      * by rewrite decide_False by done.
    + intros w Hw. by rewrite list_lookup_insert_ne by (intros ->; done).
  - by rewrite Hl, length_insert.
  - intros w m' Hw. destruct (decide (w = u)) as [->|Hne].
    + rewrite (Hrem u m) by (apply list_lookup_insert_eq; by eapply lookup_lt_Some).
      simplify_eq. rewrite decide_False by done. rewrite decide_True by by left. f_equal; lia.
    + rewrite (Hrem w m') by by rewrite list_lookup_insert_ne.
      rewrite (decide_ext (w ∈ u :: waiting) (w ∈ waiting)); [done|].
      rewrite elem_of_cons. split; [by intros []|auto].
Qed.
(** ** The references that wait *)

Section queue.
Context (indices : gmap ConstRef.t nat) (Hdecl : declared) (Hid : identifies indices definitions).
#[local] Set Default Proof Using "Type*".

Lemma indices_inj r r' k : indices !! r = Some k → indices !! r' = Some k → r = r'.
Proof. rewrite !(Hid _ k). naive_solver. Qed.
Lemma indices_bound r k : indices !! r = Some k → (k < n)%nat.
Proof. intros (d&Hk&_)%Hid. by eapply lookup_lt_Some. Qed.
Lemma indices_ids r : is_Some (indices !! r) ↔ r ∈ ids.
Proof.
  rewrite list_elem_of_fmap. split.
  - intros [k (d&Hk&<-)%Hid]. exists d. split; [done|]. by eapply list_elem_of_lookup_2.
  - intros (d&->&(k&Hk)%list_elem_of_lookup). exists k. apply Hid. eauto.
Qed.
Lemma fresh_ids r : r ∈ ids → given r = None.
Proof. intros (d&->&Hd)%list_elem_of_fmap. by apply Hdecl. Qed.

(** The declarations that the references name, those already seen left out. *)
Definition names (seen : gset ConstRef.t) (refs : list ConstRef.t) (j : nat) : Prop :=
  ∃ r, r ∈ refs ∧ r ∉ seen ∧ given r = None ∧ indices !! r = Some j.
(** The table of users after [i] was added to the lists at [js]. *)
Definition registered (i : nat) (js : list nat) (users users' : list (list nat)) : Prop :=
  length users' = length users ∧ ∀ j us, users !! j = Some us →
    users' !! j = Some (us ++ if decide (j ∈ js) then [i] else []).

Lemma count_references_spec i d refs : ∀ seen count users, length users = n →
  yields (λ _, ∃ r, r ∈ refs ∧ given r = None ∧ r ∉ ids)
    (count_references scope initial globals indices i d seen refs count users)
    (λ p, ∃ js, NoDup js ∧ (∀ j, j ∈ js ↔ names seen refs j) ∧ p.1 = (count + length js)%nat ∧
       registered i js users p.2 ∧ ∀ r, r ∈ refs → r ∈ seen ∨ is_Some (given r) ∨ r ∈ ids).
Proof.
  induction refs as [|r refs IH]; intros seen count users Hlen; cbn [count_references].
  { exists []. split; [constructor|]. split; [|split; [simpl; lia|split]].
    - intros j. split; [by intros ?%not_elem_of_nil|]. by intros (r&?%not_elem_of_nil&_).
    - split; [done|]. intros j us Hj. rewrite decide_False by apply not_elem_of_nil. by rewrite app_nil_r.
    - by intros r ?%not_elem_of_nil. }
  assert (Hseen : ∀ j, names ({[r]} ∪ seen) refs j → names seen (r :: refs) j).
  { intros j (r'&?&[_ ?]%not_elem_of_union&?). exists r'. split_and!; [by right|done|tauto..]. }
  destruct (bool_decide (r ∈ seen) || bool_decide (is_Some (given r))) eqn:Eskip.
  { eapply yields_mono; [| |by apply IH].
    - intros _ (r'&?&?). exists r'. split; [by right|done].
    - intros [count' users'] (js&Hnd&Hjs&Hc&Hreg&Hk). exists js.
      assert (Hr : r ∈ seen ∨ is_Some (given r)).
      { apply orb_true_iff in Eskip as [?%bool_decide_eq_true|?%bool_decide_eq_true]; auto. }
      split_and!; [done| |done..|].
      2: { intros r' [->|Hr']%elem_of_cons; [tauto|].
           destruct (Hk r' Hr') as [[->%elem_of_singleton|?]%elem_of_union|?]; tauto. }
      intros j. rewrite Hjs. split; [apply Hseen|]. intros (r'&[->|Hr']%elem_of_cons&Hns&Hg&Hj).
      + destruct Hr as [?|[x ?]]; [done|congruence].
      + exists r'. split; [done|]. split; [|done]. apply not_elem_of_union. split; [|done].
        intros ->%elem_of_singleton.
        destruct Hr as [?|[x ?]]; [done|congruence]. }
  apply orb_false_iff in Eskip as [Hns%bool_decide_eq_false Hg%bool_decide_eq_false].
  apply eq_None_not_Some in Hg. apply yields_bind, yields_ok_or.
  { intros Hnone. exists r. split; [by left|]. split; [done|]. rewrite <- indices_ids, Hnone. by intros []. }
  intros j Hj. destruct (lookup_lt_is_Some_2 users j) as [us Hus].
  { rewrite Hlen. by eapply indices_bound. }
  apply yields_bind. eapply yields_expect; [done|]. eapply yields_mono; [| |apply IH].
  - intros _ (r'&?&?). exists r'. split; [by right|done].
  - intros [count' users'] (js&Hnd&Hjs&Hc&[Hl Hreg]&Hk). cbn [fst snd] in *.
    assert (Hnew : j ∉ js).
    { intros (r'&_&Hr'&_&Hj')%Hjs. rewrite (indices_inj _ _ _ Hj' Hj) in Hr'. apply Hr', elem_of_union_l.
      by apply elem_of_singleton. }
    exists (j :: js). split_and!; [by constructor| |simpl; lia| |].
    + intros j'. rewrite elem_of_cons, Hjs. split.
      * intros [->|?]; [|auto]. exists r. split; [by left|done].
      * intros (r'&[->|Hr']%elem_of_cons&Hns'&Hg'&Hj'); [left; congruence|].
        destruct (decide (r' = r)) as [->|]; [left; congruence|]. right. exists r'. split_and!; [done| |done..].
        apply not_elem_of_union. split; [|done]. by intros ->%elem_of_singleton.
    + split; [by rewrite Hl, length_insert|]. intros k ks Hksome. destruct (decide (k = j)) as [->|Hkj].
      * simplify_eq. rewrite (Hreg j (us ++ [i])).
        -- rewrite decide_False by done. by rewrite decide_True by left; rewrite app_nil_r.
        -- apply list_lookup_insert_eq. by eapply lookup_lt_Some.
      * rewrite (Hreg k ks) by by rewrite list_lookup_insert_ne.
        do 2 f_equal. apply decide_ext. rewrite elem_of_cons. split; [auto|]. by intros [].
    + intros r' [->|Hr']%elem_of_cons; [right; right; apply indices_ids; by eexists|].
      destruct (Hk r' Hr') as [[->%elem_of_singleton|?]%elem_of_union|?]; [|auto..].
      right; right. apply indices_ids. by eexists.
  - by rewrite length_insert.
Qed.

Lemma names_refers i d j : definitions !! i = Some d →
  names ∅ (refs_of (def_expression d)) j ↔ refers i j.
Proof.
  intros Hd. rewrite (refers_spec i j d) by done. split.
  - intros (r&Hr&_&_&(d'&Hd'&<-)%Hid). eauto.
  - intros (d'&Hd'&Hr). exists (def_id d'). split_and!; [done|apply not_elem_of_empty| |apply Hid; eauto].
    apply fresh_ids, list_elem_of_fmap_2. by eapply list_elem_of_lookup_2.
Qed.

(** The users of [j] among the first [i] declarations, and the declarations among them that wait
    for nothing. *)
Definition users_upto (i j : nat) : list nat := filter (λ k, refers k j) (seq 0 i).
Definition ready_upto (i : nat) : list nat := filter (λ k, length (deps k) = 0%nat) (seq 0 i).
Definition users_exact (i : nat) (users : list (list nat)) : Prop :=
  length users = n ∧ ∀ j us, users !! j = Some us → us = users_upto i j.

Lemma seq_snoc (P : nat → Prop) `{!∀ k, Decision (P k)} i :
  filter P (seq 0 (S i)) = filter P (seq 0 i) ++ if decide (P i) then [i] else [].
Proof. rewrite seq_S, filter_app, Nat.add_0_l, filter_cons, filter_nil. by case_decide. Qed.

(** Every reference is to a known value or to a declaration. *)
Definition all_known : Prop := ∀ d r,
  d ∈ definitions → r ∈ refs_of (def_expression d) → is_Some (given r) ∨ r ∈ ids.

Lemma users_step i d js users users' :
  definitions !! i = Some d → (∀ j, j ∈ js ↔ refers i j) → users_exact i users →
  registered i js users users' → users_exact (S i) users'.
Proof.
  intros Hd Hjs [Hlen Hus] [Hlen' Hreg]. split; [congruence|]. intros j us Hj.
  destruct (lookup_lt_is_Some_2 users j) as [us0 Hus0].
  { rewrite <- Hlen'. by eapply lookup_lt_Some. }
  rewrite (Hreg _ _ Hus0) in Hj. injection Hj as <-. unfold users_upto.
  rewrite seq_snoc. f_equal; [by apply Hus|]. by apply decide_ext.
Qed.

Lemma count_definitions_spec defs : ∀ pre users,
  definitions = pre ++ defs → users_exact (length pre) users →
  (∀ d r, d ∈ pre → r ∈ refs_of (def_expression d) → is_Some (given r) ∨ r ∈ ids) →
  yields (λ _, ¬ all_known)
    (count_definitions scope initial globals indices (length pre) defs
       ((λ k, length (deps k)) <$> seq 0 (length pre)) users (ready_upto (length pre)))
    (λ p, p.1.1 = ((λ k, length (deps k)) <$> seq 0 n) ∧ users_exact n p.1.2 ∧ p.2 = ready_upto n ∧
       all_known).
Proof.
  induction defs as [|d defs IH]; intros pre users Hdefs Hus Hknown.
  { rewrite app_nil_r in Hdefs. subst pre. done. }
  assert (Hd : definitions !! length pre = Some d) by by rewrite Hdefs, list_lookup_middle.
  cbn [count_definitions]. rewrite references_eq. cbn [no_error map_err mbind result_bind].
  apply yields_bind. eapply yields_mono; [| |apply count_references_spec; apply Hus].
  { intros _ (r&Hr&Hg&Hnr) Hall. destruct (Hall d r) as [[x ?]|?]; [|done|congruence|done].
    by eapply list_elem_of_lookup_2. }
  intros [count users'] (js&Hnd&Hjs&Hc&Hreg&Hk). cbn [fst snd] in *.
  assert (Hjs' : ∀ j, j ∈ js ↔ refers (length pre) j) by (intros j; by rewrite Hjs, names_refers).
  assert (Hcount : count = length (deps (length pre))).
  { rewrite Hc. simpl. apply Permutation_length, NoDup_Permutation; [done|apply NoDup_deps|].
    intros j. by rewrite Hjs', elem_of_deps. }
  assert (Hlen : S (length pre) = length (pre ++ [d])) by (rewrite length_app; simpl; lia).
  specialize (IH (pre ++ [d]) users'). rewrite <- Hlen in IH.
  rewrite seq_S, fmap_app, Nat.add_0_l in IH. unfold ready_upto in IH. rewrite seq_snoc in IH.
  rewrite Hcount. cbn [fmap list_fmap] in IH.
  replace (if (length (deps (length pre)) =? 0)%nat then ready_upto (length pre) ++ [length pre]
           else ready_upto (length pre))
    with (ready_upto (length pre) ++ if decide (length (deps (length pre)) = 0%nat) then [length pre] else []).
  2: { case_decide as Hz; [by rewrite (proj2 (Nat.eqb_eq _ _) Hz)|].
       by rewrite (proj2 (Nat.eqb_neq _ _) Hz), app_nil_r. }
  apply IH.
  - by rewrite <- app_assoc.
  - by eapply users_step.
  - intros d' r [Hd'| ->%list_elem_of_singleton]%elem_of_app Hr; [by eapply Hknown|].
    destruct (Hk r Hr) as [[]%elem_of_empty|?]; done.
Qed.


(** ** The queue *)

Context (users : list (list nat)) (Husers : users_exact n users) (Hknown : all_known).
Context (Hnodes : 0 ≤ max_nodes l).
Context (Hliterals : ∀ d, d ∈ definitions → literals_ok (def_expression d) = true).
Context (Hgiven : resolve_ok (λ r, given r)).

Record draining (order : list nat) (k : Kahn) : Prop := {
  dr_NoDup : NoDup (order ++ ready k);
  dr_bound i : i ∈ order ++ ready k → (i < n)%nat;
  dr_remaining : remaining_of k = awaited order <$> seq 0 n;
  dr_ready i : (i < n)%nat → i ∈ order ++ ready k ↔ awaited order i = 0%nat;
  dr_completed : completed k = (λ i, bool_decide (i ∈ order)) <$> seq 0 n;
  dr_order p i j : order !! p = Some i → refers i j → ∃ q, (q < p)%nat ∧ order !! q = Some j;
  dr_frame r : r ∉ ids → known k !! r = initial !! r;
  dr_new i d : definitions !! i = Some d → i ∉ order → known k !! def_id d = None;
  dr_settled i d : definitions !! i = Some d → i ∈ order → settled_at (known k) d;
  dr_unique K i d : valuation K → definitions !! i = Some d → i ∈ order →
    known k !! def_id d = K !! def_id d;
  dr_values : resolve_ok (lookup_constant (known k) globals);
}.

(** References of a declaration whose dependencies are complete. *)
Lemma draining_reference order k i d r :
  draining order k → definitions !! i = Some d → (∀ j, refers i j → j ∈ order) →
  r ∈ refs_of (def_expression d) →
  (r ∉ ids) ∨ ∃ j d', definitions !! j = Some d' ∧ def_id d' = r ∧ j ∈ order.
Proof.
  intros Hdr Hd Hdeps Hr. destruct (decide (r ∈ ids)) as [Hin|]; [right|by left].
  apply indices_ids in Hin as [j (d'&Hj&Heq)%Hid]. exists j, d'. split_and!; try done.
  apply Hdeps, (refers_spec i j d); [done|]. exists d'. by rewrite Heq.
Qed.

(** Two tables that agree where the completed declarations and the given constants are. *)
Lemma settled_transfer order k K i d :
  draining order k → definitions !! i = Some d → (∀ j, refers i j → j ∈ order) →
  (∀ r, r ∉ ids → K !! r = initial !! r) →
  (∀ j d', definitions !! j = Some d' → j ∈ order → K !! def_id d' = known k !! def_id d') →
  evaluate_with_limits (lookup_constant (known k) globals) (def_expression d) l =
  evaluate_with_limits (lookup_constant K globals) (def_expression d) l.
Proof.
  intros Hdr Hd Hdeps Hframe Hsame. apply evaluate_agree. intros r Hr. unfold lookup_constant.
  destruct (draining_reference _ _ _ _ _ Hdr Hd Hdeps Hr) as [Hout|(j&d'&Hj&<-&Ho)].
  - by rewrite (dr_frame _ _ Hdr), Hframe.
  - by rewrite (Hsame j d').
Qed.

Lemma ids_inj i j d d' :
  definitions !! i = Some d → definitions !! j = Some d' → def_id d = def_id d' → i = j.
Proof.
  intros Hi Hj Heq. eapply NoDup_lookup; [apply (declared_distinct Hdecl)|..];
    rewrite list_lookup_fmap; [by rewrite Hi|rewrite Hj; simpl; by rewrite Heq].
Qed.
Lemma elem_of_users i us k : users !! i = Some us → k ∈ us ↔ (k < n)%nat ∧ refers k i.
Proof.
  intros ->%(proj2 Husers). unfold users_upto. rewrite list_elem_of_filter, elem_of_seq. naive_solver lia.
Qed.
Lemma NoDup_users i us : users !! i = Some us → NoDup us.
Proof. intros ->%(proj2 Husers). apply NoDup_filter, NoDup_seq. Qed.

Lemma ready_deps order k i : draining order k → i ∈ order ++ ready k → ∀ j, refers i j → j ∈ order.
Proof. intros Hdr Hi. apply awaited_0, (dr_ready _ _ Hdr); [by eapply dr_bound|done]. Qed.

(** Removing a declaration from the queue, and adding the users that waited for it alone. *)
Lemma queue_step order k i queue us :
  draining order k → ready k = i :: queue → users !! i = Some us →
  let added := filter (λ u, remaining_of k !! u = Some 1%nat) us in
  NoDup ((order ++ [i]) ++ queue ++ added) ∧
  (∀ x, x ∈ (order ++ [i]) ++ queue ++ added → (x < n)%nat) ∧
  ∀ x, (x < n)%nat → x ∈ (order ++ [i]) ++ queue ++ added ↔ awaited (order ++ [i]) x = 0%nat.
Proof.
  intros Hdr Hq Hus added.
  assert (Hadded : ∀ x, x ∈ added ↔ (x < n)%nat ∧ refers x i ∧ awaited order x = 1%nat).
  { intros x. unfold added. rewrite list_elem_of_filter, (elem_of_users _ _ _ Hus), (dr_remaining _ _ Hdr).
    rewrite list_lookup_fmap. split.
    - intros (Hr&Hx&?). rewrite lookup_seq_lt in Hr by done. simpl in Hr. naive_solver.
    - intros (Hx&?&Hw). rewrite lookup_seq_lt by done. simpl. by rewrite Hw. }
  assert (Hold : ∀ x, x ∈ (order ++ [i]) ++ queue ↔ x ∈ order ++ ready k).
  { intros x. by rewrite Hq, <- app_assoc. }
  assert (Hi : i ∉ order).
  { pose proof (dr_NoDup _ _ Hdr) as Hnd. rewrite Hq in Hnd. apply NoDup_app in Hnd as (_&Hdis&_).
    intros Ho. apply (Hdis i Ho). by left. }
  rewrite app_assoc. split_and!.
  - apply NoDup_app. split_and!.
    + rewrite <- app_assoc. simpl. rewrite <- Hq. apply (dr_NoDup _ _ Hdr).
    + intros x Hx%Hold (Hn&_&Hw)%Hadded. apply (dr_ready _ _ Hdr) in Hx; [lia|done].
    + by apply NoDup_filter, (NoDup_users i).
  - intros x [Hx%Hold|Hx%Hadded]%elem_of_app; [by eapply dr_bound|tauto].
  - intros x Hx. rewrite elem_of_app, Hold, Hadded, (dr_ready _ _ Hdr x Hx).
    rewrite (awaited_step order i x Hi). case_decide; [|rewrite Nat.add_0_r; tauto].
    split; [intros [?|(_&_&?)]; lia|]. intros ->. right. auto.
Qed.

(** The table of values after [i] was completed. *)
Lemma known_step order k i d v :
  draining order k → i ∉ order → (∀ j, refers i j → j ∈ order) → definitions !! i = Some d →
  evaluate_with_limits (lookup_constant (known k) globals) (def_expression d) l = Ok v →
  same_value v (def_result d) = true →
  let known' := <[def_id d := (def_ty d, v)]> (known k) in
  (∀ r, r ∉ ids → known' !! r = initial !! r) ∧
  (∀ j d', definitions !! j = Some d' → j ∉ order ++ [i] → known' !! def_id d' = None) ∧
  (∀ j d', definitions !! j = Some d' → j ∈ order ++ [i] → settled_at known' d') ∧
  (∀ K j d', valuation K → definitions !! j = Some d' → j ∈ order ++ [i] →
     known' !! def_id d' = K !! def_id d') ∧
  resolve_ok (lookup_constant known' globals).
Proof.
  intros Hdr Hi Hdeps Hd Hv Hsame known'.
  assert (Hin : def_id d ∈ ids) by by eapply list_elem_of_fmap_2, list_elem_of_lookup_2.
  assert (Hself : known' !! def_id d = Some (def_ty d, v)) by apply lookup_insert_eq.
  assert (Hne : ∀ r, r ≠ def_id d → known' !! r = known k !! r) by (intros; by apply lookup_insert_ne).
  clearbody known'.
  assert (Hother : ∀ j d', definitions !! j = Some d' → j ≠ i → known' !! def_id d' = known k !! def_id d').
  { intros j d' Hj Hji. apply Hne. intros Heq. by apply Hji, (ids_inj j i d' d). }
  assert (Hframe : ∀ r, r ∉ ids → known' !! r = initial !! r).
  { intros r Hr. rewrite Hne by (intros ->; done). by apply (dr_frame _ _ Hdr). }
  assert (Hkeep : ∀ j d', definitions !! j = Some d' → j ∈ order → known' !! def_id d' = known k !! def_id d').
  { intros j d' Hj Ho. apply (Hother j d' Hj). by intros ->. }
  split_and!; [done|..].
  - intros j d' Hj Hno. rewrite not_elem_of_app, not_elem_of_cons in Hno. destruct Hno as (Hno&Hji&_).
    rewrite (Hother j) by done. by apply (dr_new _ _ Hdr j).
  - intros j d' Hj [Ho| ->%list_elem_of_singleton]%elem_of_app.
    + destruct (dr_settled _ _ Hdr j d' Hj Ho) as (w&Hw&He&Hr). exists w.
      rewrite (Hkeep j) by done. split_and!; [done| |done]. rewrite <- He. symmetry.
      apply (settled_transfer order k known' j); try done.
      apply (ready_deps _ _ _ Hdr), elem_of_app. by left.
    + assert (d' = d) as -> by congruence. exists v. split_and!; [done| |done].
      rewrite <- Hv. symmetry. by apply (settled_transfer order k known' i).
  - intros K j d' HK Hj [Ho| ->%list_elem_of_singleton]%elem_of_app.
    + rewrite (Hkeep j) by done. by apply (dr_unique _ _ Hdr K j).
    + assert (d' = d) as -> by congruence. destruct (val_settled _ HK d) as (w&Hw&He&_); [by eapply list_elem_of_lookup_2|].
      rewrite Hself, Hw. do 2 f_equal.
      rewrite (settled_transfer order k K i) in Hv; [congruence|done..|by apply val_frame|].
      intros j d'' Hj' Ho. symmetry. by apply (dr_unique _ _ Hdr K j).
  - assert (Hd' : d ∈ definitions) by by eapply list_elem_of_lookup_2.
    intros r t w Hr Ht. unfold lookup_constant in Hr. destruct (decide (r = def_id d)) as [->|Hrd].
    + rewrite Hself in Hr. simpl in Hr. injection Hr as <- <-.
      rewrite (declared_type Hdecl d Hd') in Ht.
      destruct (evaluate_typed _ _ _ _ Hnodes (dr_values _ _ Hdr) (Hliterals d Hd') Hv) as [_ Hty].
      specialize (Hty Ht). unfold has_type in Hty. by apply andb_true_iff in Hty as [_ ?].
    + rewrite Hne in Hr by done. by apply (dr_values _ _ Hdr r t w).
Qed.

(** The counters and the marks after [i] was completed. *)
Lemma release_step order k i us queue :
  draining order k → i ∉ order → users !! i = Some us →
  ∃ remaining', release us (remaining_of k) queue =
      Ok (remaining', queue ++ filter (λ u, remaining_of k !! u = Some 1%nat) us) ∧
    remaining' = awaited (order ++ [i]) <$> seq 0 n.
Proof.
  intros Hdr Hi Hus.
  assert (Hlook : ∀ u, (u < n)%nat → remaining_of k !! u = Some (awaited order u)).
  { intros u Hu. by rewrite (dr_remaining _ _ Hdr), list_lookup_fmap, lookup_seq_lt. }
  destruct (release_spec us (remaining_of k) queue) as (remaining'&->&Hl&Hrem).
  { by eapply NoDup_users. }
  { intros u [Hu Hru]%(elem_of_users i us _ Hus). exists (awaited (order ++ [i]) u).
    rewrite Hlook by done. f_equal. rewrite (awaited_step order i u Hi), decide_True by done. lia. }
  exists remaining'. split; [done|].
  apply list_eq_same_length with n; rewrite ?Hl, ?(dr_remaining _ _ Hdr), ?length_fmap, ?length_seq; try done.
  intros x y z Hx Hy Hz. rewrite list_lookup_fmap, lookup_seq_lt in Hz by done. simpl in Hz. injection Hz as <-.
  rewrite (Hrem x (awaited order x) (Hlook x Hx)) in Hy. injection Hy as <-.
  rewrite (awaited_step order i x Hi). assert (Hiff : x ∈ us ↔ refers x i).
  { rewrite (elem_of_users _ _ _ Hus). tauto. }
  destruct (decide (refers x i)); [rewrite decide_True by tauto|rewrite decide_False by tauto]; lia.
Qed.
Lemma completed_step order k i :
  draining order k → (i < n)%nat →
  <[i := true]> (completed k) = (λ j, bool_decide (j ∈ order ++ [i])) <$> seq 0 n.
Proof.
  intros Hdr Hn. rewrite (dr_completed _ _ Hdr).
  apply list_eq_same_length with n; rewrite ?length_insert, ?length_fmap, ?length_seq; try done.
  intros x y z Hx Hy Hz. rewrite list_lookup_fmap, lookup_seq_lt in Hz by done. simpl in Hz. injection Hz as <-.
  destruct (decide (x = i)) as [->|Hne].
  - rewrite list_lookup_insert_eq in Hy by by rewrite length_fmap, length_seq.
    injection Hy as <-. symmetry. apply bool_decide_eq_true, elem_of_app. right. by left.
  - rewrite list_lookup_insert_ne, list_lookup_fmap, lookup_seq_lt in Hy by done. simpl in Hy.
    injection Hy as <-. apply bool_decide_ext. rewrite elem_of_app, list_elem_of_singleton. tauto.
Qed.

(** One iteration completes a declaration, or there is no valuation. *)
Lemma complete_spec order k i queue :
  draining order k → ready k = i :: queue →
  yields (λ _, ∀ K, ¬ valuation K) (complete scope definitions globals l users k i queue)
    (draining (order ++ [i])).
Proof.
  intros Hdr Hq. assert (Hready : i ∈ order ++ ready k) by (rewrite Hq, elem_of_app; right; by left).
  pose proof (dr_bound _ _ Hdr _ Hready) as Hn.
  assert (Hi : i ∉ order).
  { pose proof (dr_NoDup _ _ Hdr) as Hnd. rewrite Hq in Hnd. apply NoDup_app in Hnd as (_&Hdis&_).
    intros Ho. apply (Hdis i Ho). by left. }
  pose proof (ready_deps _ _ _ Hdr Hready) as Hdeps.
  destruct (lookup_lt_is_Some_2 definitions i Hn) as [d Hd].
  assert (Hdin : d ∈ definitions) by by eapply list_elem_of_lookup_2.
  assert (Hval : ∀ K, valuation K → ∃ v,
    evaluate_with_limits (lookup_constant (known k) globals) (def_expression d) l = Ok v ∧
    same_value v (def_result d) = true).
  { intros K HK. destruct (val_settled _ HK d Hdin) as (v&_&He&Hs). exists v. split; [|done].
    rewrite <- He. apply (settled_transfer order k K i); [done..|by apply val_frame|].
    intros j d' Hj Ho. symmetry. by apply (dr_unique _ _ Hdr K j). }
  unfold complete. apply yields_bind. eapply yields_expect; [done|].
  apply yields_bind, yields_map_err.
  { apply evaluate_no_panic; [done|by apply (dr_values _ _ Hdr)|by apply Hliterals]. }
  { intros e He K HK. destruct (Hval K HK) as (v&?&_). congruence. }
  intros v Hv. destruct (same_value v (def_result d)) eqn:Hsame; cbn [negb].
  2: { intros K HK. destruct (Hval K HK) as (w&?&?). congruence. }
  destruct (lookup_lt_is_Some_2 users i) as [us Hus]; [by rewrite (proj1 Husers)|].
  apply yields_bind. eapply yields_expect; [done|].
  destruct (queue_step _ _ _ _ _ Hdr Hq Hus) as (Hnd&Hb&Hr).
  destruct (known_step _ _ _ _ _ Hdr Hi Hdeps Hd Hv Hsame) as (Hframe&Hnew&Hsettled&Huniq&Hvalues).
  destruct (release_step _ _ _ _ queue Hdr Hi Hus) as (remaining'&->&->).
  cbn [mbind result_bind yields]. split; cbn [known remaining_of ready completed]; try done.
  - by apply completed_step.
  - intros p x j Hp Hxj. apply lookup_app_Some in Hp as [Hp|[Hle Hp]].
    + destruct (dr_order _ _ Hdr p x j Hp Hxj) as (q&?&?). exists q. split; [done|].
      rewrite lookup_app_l; [done|]. by eapply lookup_lt_Some.
    + apply list_lookup_singleton_Some in Hp as [Hp <-].
      apply Hdeps, list_elem_of_lookup in Hxj as [q Hq']. exists q.
      pose proof (lookup_lt_Some _ _ _ Hq'). split; [lia|]. by rewrite lookup_app_l.
Qed.

Lemma drain_spec fuel : ∀ order k,
  draining order k → (length order + fuel = S n)%nat →
  yields (λ _, ∀ K, ¬ valuation K) (drain scope definitions globals l users fuel k)
    (λ k', ready k' = [] ∧ ∃ order', draining order' k').
Proof.
  induction fuel as [|fuel IH]; intros order k Hdr Hfuel.
  { exfalso. assert (length order ≤ n)%nat; [|lia]. rewrite <- (length_seq n 0).
    apply submseteq_length, NoDup_submseteq.
    - pose proof (dr_NoDup _ _ Hdr) as Hnd. by apply NoDup_app in Hnd as (?&_).
    - intros i Hi. apply elem_of_seq. enough (i < n)%nat by lia. apply (dr_bound _ _ Hdr), elem_of_app. by left. }
  cbn [drain]. destruct (ready k) as [|i queue] eqn:Hq; [split; [done|by exists order]|].
  apply yields_bind. eapply yields_mono; [| |by apply (complete_spec order)]; [done|].
  intros k' Hdr'. apply (IH _ _ Hdr'). rewrite length_app. simpl. lia.
Qed.

(** The rank of a declaration is its position in the order of completion. *)
Definition order_rank (order : list nat) (r : ConstRef.t) : nat :=
  match indices !! r with
  | Some i => default 0%nat (fst <$> list_find (i =.) order)
  | None => 0%nat
  end.
Lemma order_rank_eq order p i d :
  NoDup order → definitions !! i = Some d → order !! p = Some i → order_rank order (def_id d) = p.
Proof.
  intros Hnd Hd Hp. unfold order_rank. assert (indices !! def_id d = Some i) as -> by (apply Hid; eauto).
  replace (list_find (i =.) order) with (Some (p, i)); [done|]. symmetry. apply list_find_Some.
  split_and!; [done..|]. intros q y Hq Hlt <-. pose proof (NoDup_lookup _ _ _ _ Hnd Hp Hq). lia.
Qed.

Lemma initial_unknown d : d ∈ definitions → initial !! def_id d = None.
Proof. intros Hd%(declared_fresh Hdecl). unfold lookup_constant in Hd. by destruct (initial !! _). Qed.

Lemma draining_start :
  draining [] (mkKahn initial (awaited [] <$> seq 0 n) (ready_upto n) (replicate n false)).
Proof.
  split; cbn [app known remaining_of ready completed]; try done.
  - apply NoDup_filter, NoDup_seq.
  - intros i [_ Hi%elem_of_seq]%list_elem_of_filter. lia.
  - intros i Hi. unfold ready_upto. rewrite list_elem_of_filter, elem_of_seq, awaited_nil. intuition lia.
  - apply list_eq_same_length with n; rewrite ?length_replicate, ?length_fmap, ?length_seq; try done.
    intros x y z Hx [-> _]%lookup_replicate Hz.
    rewrite list_lookup_fmap, lookup_seq_lt in Hz by done. by injection Hz as <-.
  - intros i d Hd _. by apply initial_unknown, list_elem_of_lookup_2 with i.
  - by intros i d _ ?%not_elem_of_nil.
  - by intros K i d _ _ ?%not_elem_of_nil.
Qed.

(** When the queue is empty and every declaration is complete, the table is the valuation. *)
Lemma drained_valuation order k :
  draining order k → (∀ i, (i < n)%nat → i ∈ order) →
  valuation (known k) ∧ ∀ K, valuation K → K = known k.
Proof.
  intros Hdr Hall.
  assert (Hin : ∀ d, d ∈ definitions → ∃ i, definitions !! i = Some d ∧ i ∈ order).
  { intros d (i&Hi)%list_elem_of_lookup. exists i. split; [done|]. by eapply Hall, lookup_lt_Some. }
  assert (Hnd : NoDup order) by by apply (NoDup_app order (ready k)), (dr_NoDup _ _ Hdr).
  split; [split; try done|].
  - apply (dr_frame _ _ Hdr).
  - intros d (i&Hi&Ho)%Hin. by apply (dr_settled _ _ Hdr i).
  - exists (order_rank order). intros d r (i&Hi&Ho)%Hin Hr Hrid.
    apply indices_ids in Hrid as [j (d'&Hj&<-)%Hid]. apply list_elem_of_lookup in Ho as [p Hp].
    destruct (dr_order _ _ Hdr p i j Hp) as (q&Hqp&Hq).
    { apply (refers_spec i j d); [done|]. exists d'. done. }
    by rewrite (order_rank_eq order p i d), (order_rank_eq order q j d').
  - intros K HK. apply map_eq. intros r. destruct (decide (r ∈ ids)) as [Hr|Hr].
    + apply list_elem_of_fmap in Hr as (d&->&(i&Hi&Ho)%Hin). symmetry. by apply (dr_unique _ _ Hdr K i).
    + by rewrite (val_frame _ HK), (dr_frame _ _ Hdr).
Qed.

(** A valuation leaves nothing waiting. *)
Lemma drained_all order k K :
  draining order k → ready k = [] → valuation K → ∀ i, (i < n)%nat → i ∈ order.
Proof.
  intros Hdr Hq HK. destruct (val_acyclic _ HK) as [rank Hrank].
  assert (Hind : ∀ m i d, definitions !! i = Some d → (rank (def_id d) < m)%nat → i ∈ order).
  { induction m as [|m IH]; intros i d Hd Hm; [lia|].
    assert (Hi : (i < n)%nat) by by eapply lookup_lt_Some.
    pose proof (dr_ready _ _ Hdr i Hi) as Hready. rewrite Hq, app_nil_r in Hready.
    apply Hready, awaited_0. intros j (d'&Hj&Hr)%(refers_spec i j d Hd).
    apply (IH j d' Hj). assert (rank (def_id d') < rank (def_id d))%nat; [|lia].
    apply Hrank; [by eapply list_elem_of_lookup_2|done|].
    by eapply list_elem_of_fmap_2, list_elem_of_lookup_2. }
  intros i [d Hd]%lookup_lt_is_Some_2. by eapply Hind; [|apply Nat.lt_succ_diag_r].
Qed.
End queue.

(** ** The evaluation *)

Context (Hnodes : 0 ≤ max_nodes l).
Context (Hliterals : ∀ d, d ∈ definitions → literals_ok (def_expression d) = true).
Context (Hgiven : resolve_ok (λ r, given r)).

Lemma unfinished_spec order k : draining order k →
  match unfinished k with
  | Some i => (i < n)%nat ∧ i ∉ order
  | None => ∀ i, (i < n)%nat → i ∈ order
  end.
Proof.
  intros Hdr. unfold unfinished. rewrite (dr_completed _ _ Hdr).
  destruct (list_find _ _) as [[i b]|] eqn:E; simpl.
  - apply list_find_Some in E as (Hi&->&_). apply list_lookup_fmap_Some in Hi as (j&Hb&Hj).
    apply lookup_seq in Hj as [-> Hj]. split; [done|]. simpl in Hb. symmetry in Hb. by apply bool_decide_eq_false in Hb.
  - intros i Hi. apply list_find_None in E. rewrite Forall_fmap, Forall_forall in E.
    destruct (decide (i ∈ order)) as [|Hno]; [done|]. exfalso. apply (E i).
    + apply elem_of_seq. lia.
    + by apply bool_decide_eq_false.
Qed.

Lemma evaluate_definitions_spec :
  yields (λ _, ∀ K, ¬ valuation K) (evaluate_definitions scope definitions initial globals l)
    (λ K, valuation K ∧ (∀ K', valuation K' → K' = K) ∧ resolve_ok (lookup_constant K globals)).
Proof using Hnodes Hliterals Hgiven.
  unfold evaluate_definitions. apply yields_bind.
  eapply yields_mono; [| |apply (index_definitions_spec definitions [] ∅); try done].
  { intros e Hno K HK. by apply Hno, (val_declared K). }
  2: { intros r k. by split; [intros ?%lookup_empty_Some|intros (d&?&_)]. }
  2: { constructor. }
  2: { by intros d ?%not_elem_of_nil. }
  intros indices [Hdecl Hid]. apply yields_bind.
  eapply yields_mono; [| |apply (count_definitions_spec indices Hdecl Hid definitions [])]; [| |done| |].
  { intros e Hno K HK. apply Hno. intros d r. by apply (val_known K). }
  2: { split; [by rewrite length_replicate|]. by intros j us [-> _]%lookup_replicate. }
  2: { by intros d r ?%not_elem_of_nil. }
  intros [[remaining users] queue]. cbn [fst snd]. intros (->&Husers&->&Hknown).
  assert (Hstart : (λ k, length (deps k)) <$> seq 0 n = awaited [] <$> seq 0 n).
  { apply list_fmap_ext. intros _ i _. by rewrite awaited_nil. }
  rewrite Hstart. apply yields_bind.
  eapply yields_mono; [| |eapply (drain_spec indices Hdecl Hid users Husers Hknown Hnodes Hliterals Hgiven (S n) [])]; [done| | |].
  2: { by apply (draining_start indices Hdecl Hid users Husers Hknown Hnodes Hliterals Hgiven). }
  2: { done. }
  intros k (Hq&order&Hdr). pose proof (unfinished_spec _ _ Hdr) as Hun.
  destruct (unfinished k) as [i|].
  - destruct Hun as [Hi Hno]. destruct (lookup_lt_is_Some_2 definitions i Hi) as [d Hd].
    apply yields_bind. eapply yields_expect; [done|]. intros K HK.
    by apply Hno, (drained_all indices Hdecl Hid users Husers Hknown Hnodes Hliterals Hgiven order k K).
  - destruct (drained_valuation indices Hdecl Hid users Husers Hknown Hnodes Hliterals Hgiven order k)
      as [HK Huniq]; [done..|]. split_and!; [done..|]. by apply (dr_values _ _ Hdr).
Qed.
End resolution.

(** C4: the verifier's evaluation of a scope of constant declarations terminates without a panic
    and decides whether the scope has a valuation: it succeeds exactly if the declarations are new,
    distinct and of the types of their expressions, no declaration depends on itself, and every
    expression evaluates to its declared result in the table, and then it returns that table, the
    only one. *)
Theorem constants_decided scope definitions initial globals l
    (Hnodes : 0 ≤ max_nodes l)
    (Hliterals : ∀ d, d ∈ definitions → literals_ok (def_expression d) = true)
    (Hgiven : resolve_ok (lookup_constant initial globals)) :
  evaluate_definitions scope definitions initial globals l ≠ Panic ∧
  ∀ K, evaluate_definitions scope definitions initial globals l = Ok K ↔
       valuation definitions initial globals l K.
Proof.
  pose proof (evaluate_definitions_spec scope definitions initial globals l Hnodes Hliterals Hgiven)
    as Hspec.
  destruct (evaluate_definitions _ _ _ _ _) as [K'|e|]; [|split; [done|]..|done].
  - destruct Hspec as (HK'&Huniq&_). split; [done|]. intros K. split; [by intros [= <-]|].
    intros HK. by rewrite (Huniq K HK).
  - intros K. split; [done|]. by intros HK%Hspec.
Qed.

(** [a = b + 1; b = 41], declared in this order, and [a = b; b = a]. *)
Definition sample_name (i : Z) : ConstRef.t := ConstRef.Global (mkGlobalId i).
Definition sample_reference (i : Z) : const_expr := ConstExpr.mk Ty.I8 (ConstExpr.Reference (sample_name i)).
Definition sample_declarations : list Definition_ :=
  [ mkDefinition (sample_name 0) Ty.I8
      (ConstExpr.mk Ty.I8 (ConstExpr.Binary ConstBinaryOp.Add (sample_reference 1)
         (literal Ty.I8 (ConstValue.I 1)))) (ConstValue.I 42);
    mkDefinition (sample_name 1) Ty.I8 (literal Ty.I8 (ConstValue.I 41)) (ConstValue.I 41) ].
Definition sample_cycle : list Definition_ :=
  [ mkDefinition (sample_name 0) Ty.I8 (sample_reference 1) (ConstValue.I 0);
    mkDefinition (sample_name 1) Ty.I8 (sample_reference 0) (ConstValue.I 0) ].

Lemma constants_decided_witness :
  (∃ K, valuation sample_declarations ∅ ∅ default_limits K ∧
        K !! sample_name 0 = Some (Ty.I8, ConstValue.I 42)) ∧
  ∀ K, ¬ valuation sample_cycle ∅ ∅ default_limits K.
Proof.
  assert (Hnone : resolve_ok (lookup_constant ∅ ∅)) by by intros r t v.
  split.
  - eexists. split.
    + apply (constants_decided "module" sample_declarations ∅ ∅ default_limits); [done| |done|].
      * intros d [->|[->|[]%not_elem_of_nil]%elem_of_cons]%elem_of_cons; reflexivity.
      * vm_compute. reflexivity.
    + vm_compute. reflexivity.
  - intros K HK. eapply (constants_decided "module" sample_cycle ∅ ∅ default_limits) in HK; [|done| |done].
    + vm_compute in HK. discriminate HK.
    + intros d [->|[->|[]%not_elem_of_nil]%elem_of_cons]%elem_of_cons; reflexivity.
Defined.
