(* ===== verification/Cfg.v ===== *)
(** * Control flow of the verifier ([verifier/cfg.rs])

    The control-flow graph of a function, its dominator tree and the availability of every use.
    The code is a computation on the shared [AnalysisBudget]: every loop charges it, so the
    budget that is left bounds the number of iterations, and that is the fuel of the loops here.

    [Dominators.v] proves what the analysis computes. *)
From S2P Require Export Operands.
Local Open Scope Z_scope.

(** ** The budget ([verifier.rs]) *)

Record AnalysisBudget := mkAnalysis {
  analysis_limit : Z;
  analysis_work : Z;
  dominance_queries : Z;
}.
Definition analysis (A : Type) : Type := stm AnalysisBudget verify_err A.

Definition charge_analysis : analysis unit := λ b,
  if analysis_limit b <=? analysis_work b
  then (Err (VerifyError.ResourceLimit (mkLimitError Resource.AnalysisWork (analysis_limit b))), b)
  else (Ok tt, mkAnalysis (analysis_limit b) (analysis_work b + 1) (dominance_queries b)).
Definition count_query : analysis unit :=
  modify (λ b, mkAnalysis (analysis_limit b) (analysis_work b) (dominance_queries b + 1)).

(** A loop of which every iteration but the last charges the budget. *)
Definition fuelled {A} (loop : nat → analysis A) : analysis A := λ b,
  loop (S (Z.to_nat (analysis_limit b - analysis_work b))) b.

(** ** Edges *)

Definition branch_targets (t : terminator) : list BlockId :=
  match t with
  | Terminator.Br target => [target]
  | Terminator.CBr _ then_bb else_bb => [then_bb; else_bb]
  | Terminator.Switch _ _ default_bb cases => default_bb :: cases.*2
  | Terminator.Ret _ _ | Terminator.Trap _ => []
  end.

Definition push_at (i x : nat) (l : list (list nat)) : list (list nat) := alter (λ xs, xs ++ [x]) i l.

Section edges.
Context (indices : gmap BlockId nat).

Fixpoint add_targets (index : nat) (seen : gset nat) (targets : list BlockId)
    (successors predecessors : list (list nat)) : analysis (list (list nat) * list (list nat)) :=
  match targets with
  | [] => mret (successors, predecessors)
  | target :: targets =>
      _ ← charge_analysis;
      target ← lift (expect (indices !! target));
      if bool_decide (target ∈ seen) then add_targets index seen targets successors predecessors
      else add_targets index ({[target]} ∪ seen) targets
             (push_at index target successors) (push_at target index predecessors)
  end.

Fixpoint add_blocks (index : nat) (bs : list BasicBlock) (successors predecessors : list (list nat))
    : analysis (list (list nat) * list (list nat)) :=
  match bs with
  | [] => mret (successors, predecessors)
  | b :: bs =>
      _ ← charge_analysis;
      t ← lift (expect (block_terminator b));
      '(successors, predecessors) ←
        add_targets index ∅ (branch_targets t) successors predecessors;
      add_blocks (S index) bs successors predecessors
  end.
End edges.

(** ** Depth-first order *)

Definition at_ {A} (l : list A) (i : nat) : analysis A := lift (expect (l !! i)).

(** The stack, whose top is the head of the list, marks the blocks being left. *)
Fixpoint dfs_loop (successors : list (list nat)) (fuel : nat) (stack : list (nat * bool))
    (seen : list bool) (order : list nat) : analysis (list nat) :=
  match fuel with
  | O => lift Panic
  | S fuel =>
      match stack with
      | [] => mret order
      | (block, exiting) :: stack =>
          _ ← charge_analysis;
          if exiting : bool then dfs_loop successors fuel stack seen (order ++ [block]) else
          visited ← at_ seen block;
          if visited : bool then dfs_loop successors fuel stack seen order else
          next ← at_ successors block;
          dfs_loop successors fuel (((λ n, (n, false)) <$> next) ++ (block, true) :: stack)
            (<[block := true]> seen) order
      end
  end.

(** The position of every block in the order. *)
Definition ranks (n : nat) (order : list nat) : list nat :=
  foldl (λ rank p, <[p.2 := p.1]> rank) (replicate n 0%nat) (imap pair order).

(** ** Immediate dominators *)

Section dominators.
Context (predecessors : list (list nat)) (rank : list nat).

Definition parent (idom : list (option nat)) (a : nat) : analysis nat :=
  o ← at_ idom a; lift (expect o).

Fixpoint intersect (idom : list (option nat)) (fuel : nat) (a b : nat) : analysis nat :=
  match fuel with
  | O => lift Panic
  | S fuel =>
      if (a =? b)%nat then mret a else
      _ ← charge_analysis;
      ra ← at_ rank a;
      rb ← at_ rank b;
      if (rb <? ra)%nat then a ← parent idom a; intersect idom fuel a b
      else b ← parent idom b; intersect idom fuel a b
  end.

Fixpoint meet_predecessors (idom : list (option nat)) (ps : list nat) (next : option nat)
    : analysis (option nat) :=
  match ps with
  | [] => mret next
  | p :: ps =>
      _ ← charge_analysis;
      o ← at_ idom p;
      match o, next with
      | None, _ => meet_predecessors idom ps next
      | Some _, None => meet_predecessors idom ps (Some p)
      | Some _, Some a =>
          x ← fuelled (λ fuel, intersect idom fuel a p);
          meet_predecessors idom ps (Some x)
      end
  end.

Fixpoint idom_pass (bs : list nat) (idom : list (option nat)) (changed : bool)
    : analysis (list (option nat) * bool) :=
  match bs with
  | [] => mret (idom, changed)
  | b :: bs =>
      _ ← charge_analysis;
      ps ← at_ predecessors b;
      next ← meet_predecessors idom ps None;
      old ← at_ idom b;
      if decide (next = old) then idom_pass bs idom changed
      else idom_pass bs (<[b := next]> idom) true
  end.

Fixpoint idom_loop (order : list nat) (fuel : nat) (idom : list (option nat))
    : analysis (list (option nat)) :=
  match fuel with
  | O => lift Panic
  | S fuel =>
      '(idom, changed) ← idom_pass (tail order) idom false;
      if changed : bool then idom_loop order fuel idom else mret idom
  end.
End dominators.

(** ** Intervals of the dominator tree *)

Fixpoint add_children (block : nat) (idom : list (option nat)) (children : list (list nat))
    : analysis (list (list nat)) :=
  match idom with
  | [] => mret children
  | parent :: idom =>
      _ ← charge_analysis;
      add_children (S block) idom
        match parent with
        | Some parent => if (parent =? block)%nat then children else push_at parent block children
        | None => children
        end
  end.

Notation intervals_t := (list (option (nat * nat))).


Fixpoint interval_loop (children : list (list nat)) (fuel : nat) (stack : list (nat * bool))
    (intervals : intervals_t) (clock : nat) : analysis intervals_t :=
  match fuel with
  | O => lift Panic
  | S fuel =>
      match stack with
      | [] => mret intervals
      | (block, exiting) :: stack =>
          _ ← charge_analysis;
          if exiting : bool then
            o ← at_ intervals block;
            i ← lift (expect o);
            interval_loop children fuel stack (<[block := Some (i.1, clock)]> intervals) (S clock)
          else
            next ← at_ children block;
            interval_loop children fuel (((λ n, (n, false)) <$> next) ++ (block, true) :: stack)
              (<[block := Some (clock, clock)]> intervals) (S clock)
      end
  end.

(** ** The graph *)

Record Cfg := mkCfg {
  indices : gmap BlockId nat;
  successors_of : list (list nat);
  predecessors_of : list (list nat);
  idom_of : list (option nat);
  intervals : intervals_t;
}.

Definition block_indices (f : Function) : gmap BlockId nat :=
  collect (imap (λ i b, (block_id b, i)) (blocks f)).

(** The phases after the edges: the dominator tree and its intervals. *)
Definition analyse (successors predecessors : list (list nat)) (entry_index : nat)
    : analysis (list (option nat) * intervals_t) :=
  let n := length successors in
  order ← fuelled (λ fuel,
    dfs_loop successors fuel [(entry_index, false)] (replicate n false) []);
  let order := rev order in
  let rank := ranks n order in
  idom ← fuelled (λ fuel,
    idom_loop predecessors rank order fuel (<[entry_index := Some entry_index]> (replicate n None)));
  children ← add_children 0 idom (replicate n []);
  intervals ← fuelled (λ fuel,
    interval_loop children fuel [(entry_index, false)] (replicate n None) 0);
  mret (idom, intervals).

Definition new_cfg (f : Function) : analysis Cfg :=
  let n := length (blocks f) in
  let indices := block_indices f in
  '(successors, predecessors) ←
    add_blocks indices 0 (blocks f) (replicate n []) (replicate n []);
  entry_index ← lift (expect (indices !! entry f));
  ps ← at_ predecessors entry_index;
  _ ← match ps with
      | p :: _ =>
          b ← at_ (blocks f) p;
          throw (VerifyError.EntryHasPredecessor (function_name f) (entry f) (block_id b))
      | [] => mret tt
      end;
  '(idom, intervals) ← analyse successors predecessors entry_index;
  mret (mkCfg indices successors predecessors idom intervals).

Definition within (d u : option (nat * nat)) : bool :=
  match d, u with
  | Some (s, e), Some (us, ue) => (s <=? us)%nat && (ue <=? e)%nat
  | _, _ => false
  end.

Definition dominates (c : Cfg) (definition usage : nat) : analysis bool :=
  _ ← charge_analysis;
  _ ← count_query;
  d ← at_ (intervals c) definition;
  u ← at_ (intervals c) usage;
  mret (within d u).

(** ** Results and uses of instructions ([verifier.rs]) *)

Definition instr_result (ins : instruction) : option (ValueId * ty) :=
  match ins with
  | Instruction.NullFunction dst sig | Instruction.FunctionAddr dst _ sig =>
      Some (dst, Ty.FnPtr sig)
  | Instruction.ConstDecl dst _ e _ => Some (dst, expr_ty e)
  | Instruction.Const dst t _ | Instruction.Undef dst t | Instruction.Mov dst t _
  | Instruction.Bin dst _ t _ _ | Instruction.Neg dst t _ | Instruction.Not dst t _
  | Instruction.Select dst t _ _ _ | Instruction.Phi dst t _
  | Instruction.VolatileLoad dst t _ _ | Instruction.Load dst t _ _ => Some (dst, t)
  | Instruction.Cmp dst _ _ _ _ | Instruction.ICmp dst _ _ _ _
  | Instruction.FCmp dst _ _ _ _ => Some (dst, Ty.Bool)
  | Instruction.Cast dst _ dst_ty _ _ | Instruction.Extract dst dst_ty _ _
  | Instruction.Gep dst dst_ty _ _ => Some (dst, dst_ty)
  | Instruction.Checked dst _ t _ _ => Some (dst, Ty.Tuple [t; Ty.Bool])
  | Instruction.Alloca dst t _ | Instruction.GlobalAddr dst _ t => Some (dst, ptr_to t)
  | Instruction.PtrDiff dst _ _ => Some (dst, Ty.I128)
  | Instruction.LifetimeEnd _ | Instruction.Uninit _ _ _ | Instruction.VolatileStore _ _ _ _
  | Instruction.Store _ _ _ _ | Instruction.Memcpy _ _ _ _ | Instruction.Memset _ _ _ _
  | Instruction.TrapIf _ _ => None
  | Instruction.Call _ dst t _ _ => (λ v, (v, t)) <$> dst
  end.

Definition local_reference (r : ConstRef.t) : option ValueId :=
  match r with ConstRef.Local v => Some v | ConstRef.Global _ => None end.

Definition instr_uses (ins : instruction) : checked_ (list ValueId) :=
  match ins with
  | Instruction.ConstDecl _ _ e _ =>
      refs ← no_error (references e); Ok (omap (M := list) local_reference refs)
  | Instruction.GlobalAddr _ _ _ | Instruction.Const _ _ _ | Instruction.Undef _ _
  | Instruction.NullFunction _ _ | Instruction.FunctionAddr _ _ _ => Ok []
  | Instruction.Mov _ _ src | Instruction.Neg _ _ src | Instruction.Not _ _ src
  | Instruction.Cast _ _ _ _ src => Ok [src]
  | Instruction.Bin _ _ _ lhs rhs | Instruction.PtrDiff _ lhs rhs
  | Instruction.Cmp _ _ _ lhs rhs | Instruction.ICmp _ _ _ lhs rhs
  | Instruction.FCmp _ _ _ lhs rhs | Instruction.Checked _ _ _ lhs rhs => Ok [lhs; rhs]
  | Instruction.Select _ _ cond on_true on_false => Ok [cond; on_true; on_false]
  | Instruction.Phi _ _ incomings => Ok incomings.*1
  | Instruction.Extract _ _ tuple _ => Ok [tuple]
  | Instruction.Alloca _ _ _ => Ok []
  | Instruction.VolatileLoad _ _ ptr _ | Instruction.Load _ _ ptr _
  | Instruction.Uninit _ ptr _ | Instruction.LifetimeEnd ptr => Ok [ptr]
  | Instruction.VolatileStore _ value ptr _ | Instruction.Store _ value ptr _ => Ok [value; ptr]
  | Instruction.Gep _ _ base_ptr indices => Ok (base_ptr :: indices)
  | Instruction.Memcpy dst src n _ => Ok [dst; src; n]
  | Instruction.Memset dst val n _ => Ok [dst; val; n]
  | Instruction.Call _ _ _ callee args =>
      Ok (match callee with Callee.Indirect v => [v] | Callee.Direct _ => [] end ++ args)
  | Instruction.TrapIf cond _ => Ok [cond]
  end.

Definition terminator_use (t : terminator) : option ValueId :=
  match t with
  | Terminator.CBr cond _ _ => Some cond
  | Terminator.Switch _ value _ _ => Some value
  | Terminator.Ret _ value => value
  | Terminator.Br _ | Terminator.Trap _ => None
  end.

(** ** Availability of the uses *)

(** Where a value is defined: a parameter, or a position of a block. *)
Definition definitions_t := gmap ValueId (option (nat * nat)).
Definition block_definitions (block : nat) (b : BasicBlock) : list (ValueId * option (nat * nat)) :=
  omap (λ o, o) (imap (λ position ins, (λ r, (r.1, Some (block, position))) <$> instr_result ins)
             (instructions b)).
Definition definitions_of (f : Function) : definitions_t :=
  collect (((λ p, (param_id p, None)) <$> function_params f)
           ++ mjoin (imap block_definitions (blocks f))).

Section verify.
Context (f : IndexedFunction) (c : Cfg) (definitions : definitions_t).
#[local] Notation fn := (indexed f).

Definition available (value : ValueId) (block position : nat) : analysis unit :=
  definition ← lift (ok_or (definitions !! value)
                       (VerifyError.UseOfUndefinedValue (func_name f) value));
  reachable ← at_ (idom_of c) block;
  match reachable, definition with
  | Some _, Some (def_block, def_position) =>
      valid ← if (def_block =? block)%nat then mret (def_position <? position)%nat
              else dominates c def_block block;
      if valid : bool then mret tt else
      b ← at_ (blocks fn) block;
      throw (VerifyError.NonDominatingValue (func_name f) value (block_id b))
  | _, _ => mret tt
  end.

Fixpoint all_available (values : list ValueId) (block position : nat) : analysis unit :=
  match values with
  | [] => mret tt
  | v :: values => _ ← available v block position; all_available values block position
  end.

Fixpoint phi_inputs (block : nat) (t : ty) (invalid : string → verify_err) (seen : gset nat)
    (incomings : list (ValueId * BlockId)) : analysis (gset nat) :=
  match incomings with
  | [] => mret seen
  | (value, predecessor) :: incomings =>
      _ ← charge_analysis;
      pred ← lift (ok_or (indices c !! predecessor)
                     (invalid "phi names an unknown predecessor"%string));
      ps ← at_ (predecessors_of c) block;
      if negb (bool_decide (pred ∈ ps))
      then throw (invalid "phi input is not a predecessor"%string) else
      if bool_decide (pred ∈ seen) then throw (invalid "duplicate phi predecessor"%string) else
      _ ← lift (verify_operand f value t);
      from ← at_ (blocks fn) pred;
      _ ← available value pred (length (instructions from));
      phi_inputs block t invalid ({[pred]} ∪ seen) incomings
  end.

Definition verify_phi (block : nat) (b : BasicBlock) (past_phi : bool) (dst : ValueId) (t : ty)
    (incomings : list (ValueId * BlockId)) : analysis unit :=
  let invalid := VerifyError.InvalidPhi (func_name f) (block_id b) dst in
  if past_phi then throw (invalid "phi must precede non-phi instructions"%string) else
  if bool_decide (block_id b = entry fn)
  then throw (invalid "function entry has no incoming SSA value"%string) else
  if bool_decide (incomings = []) then throw (invalid "phi requires incoming values"%string) else
  _ ← lift (verify_type_category f "phi" t (is_storable t));
  seen ← phi_inputs block t invalid ∅ incomings;
  ps ← at_ (predecessors_of c) block;
  if (base.size seen =? length ps)%nat then mret tt
  else throw (invalid "phi is missing a predecessor"%string).

Fixpoint verify_instructions (block : nat) (b : BasicBlock) (position : nat) (past_phi : bool)
    (insts : list instruction) : analysis unit :=
  match insts with
  | [] => mret tt
  | ins :: insts =>
      _ ← charge_analysis;
      match ins with
      | Instruction.Phi dst t incomings =>
          _ ← verify_phi block b past_phi dst t incomings;
          verify_instructions block b (S position) past_phi insts
      | _ =>
          uses ← lift (instr_uses ins);
          _ ← all_available uses block position;
          verify_instructions block b (S position) true insts
      end
  end.

Fixpoint verify_blocks (block : nat) (bs : list BasicBlock) : analysis unit :=
  match bs with
  | [] => mret tt
  | b :: bs =>
      _ ← verify_instructions block b 0 false (instructions b);
      t ← lift (expect (block_terminator b));
      _ ← match terminator_use t with
          | Some value => available value block (length (instructions b))
          | None => mret tt
          end;
      verify_blocks (S block) bs
  end.
End verify.

Definition verify_cfg (f : IndexedFunction) : analysis unit :=
  c ← new_cfg (indexed f);
  verify_blocks f c (definitions_of (indexed f)) 0 (blocks (indexed f)).
