(* ===== verification/Verify.v ===== *)
(** * The module verifier ([verifier.rs])

    The checks of a whole module, in the order of the code.  The statistics of the verifier are
    reduced to the analysis budget, the only counter that decides anything. *)
From S2P Require Export Constants Cfg.
Local Open Scope Z_scope.

(** ** Storage layouts of memory operations *)

Definition verify_layout (target : TargetSpec) (l : IrLimits) (func operation : string) (t : ty)
    : checked_ unit :=
  match layout_for_target t target (Z.to_nat (max_type_depth l)) with
  | Ok _ => Ok tt
  | Err reason => Err (VerifyError.InvalidMemoryLayout func operation reason)
  | Panic => Panic
  end.

Definition stored_type (f : IndexedFunction) (ins : instruction) : option (string * ty) :=
  match ins with
  | Instruction.Alloca _ t _ => Some ("alloca"%string, t)
  | Instruction.VolatileLoad _ t _ _ | Instruction.Load _ t _ _ => Some ("load"%string, t)
  | Instruction.VolatileStore t _ _ _ | Instruction.Store t _ _ _ => Some ("store"%string, t)
  | Instruction.Uninit t _ _ => Some ("uninit"%string, t)
  | Instruction.Gep _ _ base_ptr (_ :: _) =>
      match type_of f base_ptr with
      | Some (Ty.Ptr t) => Some ("gep"%string, t)
      | _ => None
      end
  | _ => None
  end.

Definition verify_storage (target : TargetSpec) (l : IrLimits) (f : IndexedFunction)
    (ins : instruction) : checked_ unit :=
  match ins with
  | Instruction.Undef dst _ => Err (VerifyError.ForbiddenUndef (func_name f) dst)
  | _ =>
      match stored_type f ins with
      | Some (operation, t) =>
          if is_storable t then verify_layout target l (func_name f) operation t else Ok tt
      | None => Ok tt
      end
  end.

Definition verify_function_storage (target : TargetSpec) (l : IrLimits) (f : IndexedFunction)
    : checked_ unit :=
  for_all (verify_storage target l f) (function_instructions_of (indexed f)).

(** ** Globals *)

Fixpoint verify_global_constants (names : gset string) (gs : list Global) : checked_ (gset string) :=
  match gs with
  | [] => Ok names
  | g :: gs =>
      if bool_decide (global_name g ∈ names)
      then Err (VerifyError.DuplicateGlobal (global_name g)) else
      if negb (valid_constant (global_ty g) (global_init g))
      then Err (VerifyError.InvalidGlobalInitializer (global_name g) (global_ty g) (global_init g))
      else
      if negb (is_power_of_two (global_align g))
      then Err (VerifyError.InvalidGlobalAlignment (global_name g) (global_align g))
      else verify_global_constants ({[global_name g]} ∪ names) gs
  end.

(** The sets and the table that the loop over the addressable globals fills. *)
Record StorageSets := mkStorageSets {
  storage_ids : gset GlobalId;
  storage_names : gset string;
  storage_links : gset string;
  storage_types : gmap GlobalId ty;
}.

Definition verify_global_storage (target : TargetSpec) (l : IrLimits) (sets : StorageSets)
    (g : GlobalStorage) : checked_ StorageSets :=
  let error {A} (reason : storage_error) : checked_ A :=
    Err (VerifyError.GlobalStorage (gs_name g) (gs_id g) reason) in
  _ ← map_err (VerifyError.GlobalStorage (gs_name g) (gs_id g)) (validate_storage_with_limits g l);
  if bool_decide (gs_id g ∈ storage_ids sets) then error GlobalStorageError.DuplicateIdentity else
  if bool_decide (gs_name g ∈ storage_names sets) then error GlobalStorageError.DuplicateName else
  links ← match gs_link_name g with
          | Some link =>
              if bool_decide (link ∈ storage_links sets)
              then error GlobalStorageError.LinkNameCollision else Ok ({[link]} ∪ storage_links sets)
          | None => Ok (storage_links sets)
          end;
  _ ← verify_layout target l (gs_name g) "global storage" (gs_ty g);
  Ok (mkStorageSets ({[gs_id g]} ∪ storage_ids sets) ({[gs_name g]} ∪ storage_names sets) links
        (<[gs_id g := gs_ty g]> (storage_types sets))).

Fixpoint verify_global_storages (target : TargetSpec) (l : IrLimits) (sets : StorageSets)
    (gs : list GlobalStorage) : checked_ StorageSets :=
  match gs with
  | [] => Ok sets
  | g :: gs => sets ← verify_global_storage target l sets g; verify_global_storages target l sets gs
  end.

(** ** The structure of a function *)

(** [HashSet::insert] over a list: the elements are inserted one by one, a duplicate is an error. *)
Fixpoint insert_distinct `{Countable K} {A} (key : A → K) (error : A → verify_err) (seen : gset K)
    (l : list A) : checked_ (gset K) :=
  match l with
  | [] => Ok seen
  | x :: l =>
      if bool_decide (key x ∈ seen) then Err (error x)
      else insert_distinct key error ({[key x]} ∪ seen) l
  end.

Section structure.
Context (f : Function).
#[local] Notation name := (function_name f).

Fixpoint define_params (defined : gset ValueId) (ps : list Param) : checked_ (gset ValueId) :=
  match ps with
  | [] => Ok defined
  | p :: ps =>
      if bool_decide (param_ty p = Ty.Void)
      then Err (VerifyError.VoidParameter name (param_name p)) else
      if bool_decide (param_id p ∈ defined)
      then Err (VerifyError.DuplicateValue name (param_id p))
      else define_params ({[param_id p]} ∪ defined) ps
  end.

Definition function_results : list (ValueId * ty) := omap instr_result (function_instructions_of f).

(** The blocks of the function, and the values it defines. *)
Definition verify_identities : checked_ (gset BlockId * gset ValueId) :=
  bs ← insert_distinct block_id (λ b, VerifyError.DuplicateBlock name (block_id b)) ∅ (blocks f);
  _ ← guard_err (bool_decide (entry f ∈ bs)) (VerifyError.InvalidEntryBlock name (entry f));
  defined ← define_params ∅ (function_params f);
  defined ← insert_distinct fst (λ r, VerifyError.DuplicateValue name r.1) defined function_results;
  Ok (bs, defined).

Context (known_blocks : gset BlockId) (defined : gset ValueId).

Definition verify_defined (v : ValueId) : checked_ unit :=
  guard_err (bool_decide (v ∈ defined)) (VerifyError.UseOfUndefinedValue name v).

Definition verify_target (b : BasicBlock) (target : BlockId) : checked_ unit :=
  guard_err (bool_decide (target ∈ known_blocks))
    (VerifyError.InvalidBranchTarget name (block_id b) target).
End structure.

Section bodies.
Context (f : IndexedFunction) (known_blocks : gset BlockId) (defined : gset ValueId).
#[local] Notation fn := (indexed f).
#[local] Notation name := (func_name f).

Definition verify_uses (ins : instruction) : checked_ unit :=
  uses ← instr_uses ins;
  _ ← for_all (verify_defined fn defined) uses;
  match ins with
  | Instruction.Const dst t value =>
      guard_err (valid_constant t value) (VerifyError.InvalidConstant name dst t value)
  | Instruction.Select _ _ cond _ _ | Instruction.TrapIf cond _ => verify_condition f cond
  | _ => Ok tt
  end.

(** The bits of a switch key, as [u128]. *)
Definition switch_key (key : const_value) : checked_ Z :=
  match key with
  | ConstValue.I value => Ok (wrapu 128 value)
  | ConstValue.U value => Ok value
  | ConstValue.Bool value => Ok (Z.b2z value)
  | ConstValue.F _ => Panic
  end.

Fixpoint verify_cases (b : BasicBlock) (t : ty) (index : nat) (keys : gset Z)
    (cases : list (const_value * BlockId)) : checked_ unit :=
  match cases with
  | [] => Ok tt
  | (key, _) :: cases =>
      if negb (valid_constant t key)
      then Err (VerifyError.InvalidSwitchCase name (block_id b) index) else
      bits ← switch_key key;
      if bool_decide (bits ∈ keys) then Err (VerifyError.DuplicateSwitchCase name (block_id b) index)
      else verify_cases b t (S index) ({[bits]} ∪ keys) cases
  end.

Definition verify_return (t : ty) (value : option ValueId) : checked_ unit :=
  let mismatch (got : option ty) := VerifyError.RetTypeMismatch name (ret_ty fn) got in
  _ ← guard_err (bool_decide (t = ret_ty fn)) (mismatch (Some t));
  match value with
  | Some v =>
      _ ← verify_defined fn defined v;
      value_ty ← typed_value f v;
      guard_err (negb (bool_decide (ret_ty fn = Ty.Void)) && bool_decide (value_ty = ret_ty fn))
        (mismatch (Some value_ty))
  | None => guard_err (bool_decide (ret_ty fn = Ty.Void)) (mismatch None)
  end.

Definition verify_terminator (b : BasicBlock) (t : terminator) : checked_ unit :=
  match t with
  | Terminator.Br _ | Terminator.Trap _ => Ok tt
  | Terminator.CBr cond _ _ => _ ← verify_defined fn defined cond; verify_condition f cond
  | Terminator.Switch t value _ cases =>
      _ ← verify_defined fn defined value;
      _ ← verify_type_category f "switch" t (is_integer t || bool_decide (t = Ty.Bool));
      _ ← verify_operand f value t;
      verify_cases b t 0 ∅ cases
  | Terminator.Ret t value => verify_return t value
  end.

Definition verify_block (b : BasicBlock) : checked_ unit :=
  t ← ok_or (block_terminator b) (VerifyError.UnterminatedBlock name (block_name b));
  _ ← for_all (verify_target fn known_blocks b) (branch_targets t);
  _ ← for_all verify_uses (instructions b);
  verify_terminator b t.

(** *** Value types *)

Definition function_definitions : list (ValueId * ty) :=
  ((λ p, (param_id p, param_ty p)) <$> function_params fn) ++ function_results fn.

Definition verify_definition (d : ValueId * ty) : checked_ unit :=
  got ← typed_value f d.1;
  guard_err (bool_decide (got = d.2)) (VerifyError.ValueTypeMismatch name d.1 d.2 got).

Definition verify_value_types : checked_ unit :=
  seen ← insert_distinct fst (λ p, VerifyError.DuplicateValueType name p.1) ∅ (value_types fn);
  _ ← for_all verify_definition function_definitions;
  let seen := seen ∖ list_to_set function_definitions.*1 in
  for_all (λ p, guard_err (negb (bool_decide (p.1 ∈ seen))) (VerifyError.UnexpectedValueType name p.1))
    (value_types fn).
End bodies.

(** ** Functions *)

Section functions.
Context (m : Module_) (l : IrLimits) (storage_types : gmap GlobalId ty) (constant_globals : Values).

Definition verify_global_address (f : IndexedFunction) (ins : instruction) : checked_ unit :=
  match ins with
  | Instruction.GlobalAddr _ global t =>
      let error (reason : storage_error) : checked_ unit :=
        Err (VerifyError.GlobalStorage (func_name f) global reason) in
      match storage_types !! global with
      | None => error GlobalStorageError.UnknownGlobal
      | Some declared =>
          if bool_decide (declared = t) then Ok tt else error GlobalStorageError.AddressTypeMismatch
      end
  | _ => Ok tt
  end.

Definition verify_operation (f : IndexedFunction) (ins : instruction) : checked_ unit :=
  _ ← verify_global_address f ins;
  _ ← verify_call_instruction m f l ins;
  verify_instruction f ins.

Definition verify_function (f : IndexedFunction) : analysis unit :=
  '(known_blocks, defined) ← lift (verify_identities (indexed f));
  _ ← lift (for_all (verify_block f known_blocks defined) (blocks (indexed f)));
  _ ← lift (verify_value_types f);
  _ ← lift (verify_locals (indexed f) constant_globals l);
  _ ← verify_cfg f;
  lift (for_all (verify_operation f) (function_instructions_of (indexed f))).
End functions.

(** ** Modules *)

Definition target_failure {A} (r : result TargetError A) : checked_ A := map_err VerifyError.Target r.

Definition mismatch_message (id : string) : string :=
  ("module target/layout does not match " +:+ id)%string.

Definition verify_module_for_target_with_stats (m : Module_) (target : TargetSpec) (l : IrLimits)
    : checked_ AnalysisBudget :=
  _ ← map_err VerifyError.ResourceLimit (check_module m l);
  _ ← map_err VerifyError.SourceMetadata (validate_sources (sources m) m);
  _ ← target_failure (map_err Contract (validate_spec target));
  _ ← guard_err (bool_decide (module_target m = id target)
                 && bool_decide (datalayout m = data (storage target)))
        (VerifyError.Target (Contract (mismatch_message (id target))));
  let indexed := new_indexed <$> functions m in
  _ ← for_all (verify_function_storage target l) indexed;
  names ← verify_global_constants ∅ (globals m);
  sets ← verify_global_storages target l
           (mkStorageSets (list_to_set (global_id <$> globals m)) names
              (list_to_set (omap decl_link_name (declarations m))) ∅)
           (global_storage m);
  constant_globals ← verify_globals m l;
  _ ← insert_distinct function_name (λ f, VerifyError.DuplicateFunction (function_name f)) ∅
        (functions m);
  _ ← verify_declarations m l;
  match for_each indexed (verify_function m l (storage_types sets) constant_globals)
          (mkAnalysis (max_analysis_work l) 0 0) with
  | (Ok _, analysis) => Ok analysis
  | (Err e, _) => Err e
  | (Panic, _) => Panic
  end.

Definition verify_module_for_target (m : Module_) (target : TargetSpec) (l : IrLimits)
    : checked_ unit :=
  _ ← verify_module_for_target_with_stats m target l; Ok tt.

Definition verify_module_with_stats (m : Module_) (l : IrLimits) : checked_ AnalysisBudget :=
  target ← target_failure (lookup_target (module_target m));
  _ ← target_failure (validate_layout target (datalayout m));
  verify_module_for_target_with_stats m (specification target) l.

Definition verify_module_with_limits (m : Module_) (l : IrLimits) : checked_ unit :=
  _ ← verify_module_with_stats m l; Ok tt.
Definition verify_module (m : Module_) : checked_ unit := verify_module_with_limits m default_limits.
