(* ===== verification/Dominators.v ===== *)
(** * What the control-flow analysis computes ([verifier/cfg.rs])

    The graph has the edges of the branches; the depth-first order is a reverse postorder of the
    blocks reachable from the entry; the iteration over it reaches the dominator tree; the
    intervals of the tree decide dominance.  Dominance is the textbook notion: every walk from the
    entry to the block visits the dominator. *)
From S2P Require Export Verify.
Local Open Scope Z_scope.

(** ** Graphs *)

Definition edge (g : list (list nat)) (i j : nat) : Prop := ∃ l, g !! i = Some l ∧ j ∈ l.

(** A walk from [s], with the blocks it visits. *)
Inductive walk (E : nat → nat → Prop) (s : nat) : list nat → nat → Prop :=
  | walk_start : walk E s [s] s
  | walk_step l u v : walk E s l u → E u v → walk E s (v :: l) v.
Definition reachable (E : nat → nat → Prop) (s u : nat) : Prop := ∃ l, walk E s l u.
Definition dominator (E : nat → nat → Prop) (s d u : nat) : Prop := ∀ l, walk E s l u → d ∈ l.

Section walks.
Context (E : nat → nat → Prop) (s : nat).

Lemma walk_end l u : walk E s l u → u ∈ l.
Proof. intros []; left. Qed.
Lemma walk_reachable l u x : walk E s l u → x ∈ l → reachable E s x.
Proof.
  induction 1 as [|l u v Hw IH He]; intros Hx.
  - apply list_elem_of_singleton in Hx as ->. exists [s]. constructor.
  - apply elem_of_cons in Hx as [->|Hx]; [|auto]. exists (v :: l). by econstructor.
Qed.
Lemma reachable_start : reachable E s s.
Proof. exists [s]. constructor. Qed.
Lemma reachable_edge u v : reachable E s u → E u v → reachable E s v.
Proof. intros [l Hl] He. exists (v :: l). by econstructor. Qed.
Lemma dominator_reachable d u : reachable E s u → dominator E s d u → reachable E s d.
Proof. intros [l Hl] Hd. eapply walk_reachable; [done|]. by apply Hd. Qed.
Lemma dominator_refl u : dominator E s u u.
Proof. intros l Hl. by eapply walk_end. Qed.
Lemma dominator_pred d u v : dominator E s d v → d ≠ v → E u v → dominator E s d u.
Proof.
  intros Hd Hne He l Hl. assert (Hv : d ∈ v :: l) by (apply Hd; by econstructor).
  by apply elem_of_cons in Hv as [->|].
Qed.

Lemma walk_iff (E' : nat → nat → Prop) l u :
  (∀ i j, E i j ↔ E' i j) → walk E s l u ↔ walk E' s l u.
Proof.
  intros HE. split; induction 1; econstructor; try done; by apply HE.
Qed.
End walks.
Lemma reachable_iff E E' s u : (∀ i j, E i j ↔ E' i j) → reachable E s u ↔ reachable E' s u.
Proof. intros HE. unfold reachable. by setoid_rewrite (walk_iff E s E' _ _ HE). Qed.
Lemma dominator_iff E E' s d u :
  (∀ i j, E i j ↔ E' i j) → dominator E s d u ↔ dominator E' s d u.
Proof. intros HE. unfold dominator. by setoid_rewrite (walk_iff E s E' _ _ HE). Qed.

(** ** The edges of the branches *)

Definition limit_error (e : verify_err) : Prop := ∃ r, e = VerifyError.ResourceLimit r.

Lemma wp_charge F Q b :
  (∀ e, limit_error e → F e) →
  (analysis_work b < analysis_limit b →
   Q tt (mkAnalysis (analysis_limit b) (analysis_work b + 1) (dominance_queries b))) →
  wp F charge_analysis Q b.
Proof.
  intros HF HQ. unfold wp, charge_analysis. destruct (Z.leb_spec (analysis_limit b) (analysis_work b)).
  - apply HF. by eexists.
  - by apply HQ.
Qed.

Lemma push_at_lookup i x l j :
  push_at i x l !! j = (if decide (i = j) then (λ xs, xs ++ [x]) <$> l !! j else l !! j).
Proof.
  unfold push_at. destruct (decide (i = j)) as [->|Hij].
  - apply list_lookup_alter_eq.
  - by apply list_lookup_alter_ne.
Qed.
Lemma push_at_edge i x l j k :
  (i < length l)%nat → edge (push_at i x l) j k ↔ edge l j k ∨ (j = i ∧ k = x).
Proof.
  intros Hi. unfold edge. rewrite push_at_lookup. destruct (decide (i = j)) as [<-|Hij].
  - destruct (lookup_lt_is_Some_2 l i Hi) as [xs Hxs]. rewrite Hxs. simpl. split.
    + intros (?&[= <-]&Hk). apply elem_of_app in Hk as [Hk|Hk%list_elem_of_singleton]; eauto.
    + intros [(?&[= <-]&Hk)|[_ ->]]; eexists; (split; [done|]); apply elem_of_app; auto.
      right. by apply list_elem_of_singleton.
  - naive_solver.
Qed.

(** The two tables hold the same edges, and a predecessor is listed once. *)
Record mirrored (n : nat) (succs preds : list (list nat)) : Prop := {
  mirror_lengths : length succs = n ∧ length preds = n;
  mirror_edge i j : edge succs i j ↔ edge preds j i;
  mirror_bound i j : edge succs i j → (i < n)%nat ∧ (j < n)%nat;
  mirror_NoDup j l : preds !! j = Some l → NoDup l;
}.

Lemma mirror_pred n succs preds b ps :
  mirrored n succs preds → preds !! b = Some ps → ∀ q, q ∈ ps ↔ edge succs q b.
Proof. intros Hm Hps q. rewrite (mirror_edge _ _ _ Hm). unfold edge. rewrite Hps. naive_solver. Qed.

Lemma mirrored_push n succs preds i j :
  mirrored n succs preds → (i < n)%nat → (j < n)%nat → ¬ edge succs i j →
  mirrored n (push_at i j succs) (push_at j i preds).
Proof.
  intros [[Hs Hp] He Hb Hn] Hi Hj Hij. split.
  - unfold push_at. by rewrite !length_alter.
  - intros a b. rewrite !push_at_edge by lia. rewrite He. naive_solver.
  - intros a b. rewrite push_at_edge by lia. naive_solver.
  - intros a l. rewrite push_at_lookup. destruct (decide (j = a)) as [->|]; [|apply Hn].
    intros (xs&Hxs&->)%fmap_Some. apply NoDup_app. split; [by eapply Hn|]. split; [|apply NoDup_singleton].
    intros x Hx ->%list_elem_of_singleton. apply Hij, He. by exists xs.
Qed.

Section edges.
Context (indices : gmap BlockId nat) (n : nat).
Context (Hindices : ∀ b i, indices !! b = Some i → (i < n)%nat).

Lemma add_targets_spec i ts : ∀ seen succs preds b,
  (i < n)%nat → mirrored n succs preds → (∀ j, edge succs i j ↔ j ∈ seen) →
  (∀ t, t ∈ ts → is_Some (indices !! t)) →
  wp limit_error (add_targets indices i seen ts succs preds) (λ r _,
    mirrored n r.1 r.2 ∧ (∀ a j, a ≠ i → edge r.1 a j ↔ edge succs a j) ∧
    ∀ j, edge r.1 i j ↔ j ∈ seen ∨ ∃ t, t ∈ ts ∧ indices !! t = Some j) b.
Proof using Hindices.
  induction ts as [|t ts IH]; intros seen succs preds b Hi Hm Hseen Hts; simpl.
  - apply wp_ret. split; [done|]. split; [done|]. intros j. rewrite Hseen. clear. set_solver.
  - apply wp_bind, wp_charge; [done|]. intros _.
    destruct (Hts t) as [j Hj]; [by left|]. apply wp_bind. eapply wp_expect; [done|].
    assert (Hts' : ∀ t, t ∈ ts → is_Some (indices !! t)) by (intros; apply Hts; by right).
    case_bool_decide as Hin.
    + eapply wp_mono; [|by apply IH]. intros r _ (?&?&Hr). split; [done|]. split; [done|].
      intros k. rewrite Hr. clear -Hj Hin. set_solver.
    + assert (Hjn := Hindices t j Hj). assert (Hlen := mirror_lengths _ _ _ Hm).
      eapply wp_mono; [|apply IH; try done].
      * intros r _ (?&Ho&Hr). split; [done|]. split.
        -- intros a k Ha. rewrite Ho by done. rewrite push_at_edge by lia. clear -Ha. naive_solver.
        -- intros k. rewrite Hr. clear -Hj. set_solver.
      * apply mirrored_push; try done. by rewrite Hseen.
      * intros k. rewrite push_at_edge by lia. rewrite Hseen. clear. set_solver.
Qed.
(** The branches of a block, as indices. *)
Definition branches (b : BasicBlock) (j : nat) : Prop :=
  ∃ t target, block_terminator b = Some t ∧ target ∈ branch_targets t ∧ indices !! target = Some j.

Lemma add_blocks_spec bs : ∀ i succs preds b,
  (i + length bs ≤ n)%nat → mirrored n succs preds →
  (∀ a j, edge succs a j → (a < i)%nat) →
  Forall (λ x, ∃ t, block_terminator x = Some t ∧
    ∀ target, target ∈ branch_targets t → is_Some (indices !! target)) bs →
  wp limit_error (add_blocks indices i bs succs preds) (λ r _,
    mirrored n r.1 r.2 ∧
    ∀ a j, edge r.1 a j ↔ edge succs a j ∨ ∃ k x, bs !! k = Some x ∧ a = (i + k)%nat ∧ branches x j) b.
Proof using Hindices.
  induction bs as [|x bs IH]; intros i succs preds b Hn Hm Hnew Hbs; simpl.
  { apply wp_ret. split; [done|]. intros a j. split; [auto|]. by intros [|(?&?&?&_)]. }
  apply Forall_cons in Hbs as [(t&Ht&Hts) Hbs]. simpl in Hn.
  apply wp_bind, wp_charge; [done|]. intros _. apply wp_bind. eapply wp_expect; [done|].
  assert (Hno : ∀ j, edge succs i j ↔ j ∈ (∅ : gset nat)).
  { intros j. split; [intros He%Hnew; lia|by intros ?%not_elem_of_empty]. }
  apply wp_bind. eapply wp_mono; [|apply add_targets_spec; [lia|done..]].
  intros [succs1 preds1] b1 (Hm1&Ho&Hi). simpl in *.
  eapply wp_mono; [|apply IH; [lia|done| |done]].
  - intros r _ [Hm2 He]. split; [done|]. intros a j. rewrite He. split.
    + intros [Hs|(k&y&Hk&->&Hy)]; [|right; exists (S k), y; split_and!; [done|lia|done]].
      destruct (decide (a = i)) as [->|Ha]; [|left; by apply Ho].
      apply Hi in Hs as [Hs|(target&?&?)]; [by apply not_elem_of_empty in Hs|].
      right. exists 0%nat, x. split_and!; [done|lia|]. by exists t, target.
    + intros [Hs|([|k]&y&Hk&->&Hy)].
      * left. apply Ho; [|done]. intros ->. apply Hnew in Hs. lia.
      * injection Hk as <-. left. rewrite Nat.add_0_r. apply Hi. right.
        destruct Hy as (t'&target&Ht'&?&?). exists target. by replace t with t' by congruence.
      * right. exists k, y. split_and!; [done|lia|done].
  - intros a j Hs. destruct (decide (a = i)) as [->|Ha]; [lia|]. apply Ho, Hnew in Hs; [lia|done].
Qed.
End edges.

(** ** The depth-first order *)

(** The block whose successors are being visited: the topmost exit marker. *)
Fixpoint top_exit (stack : list (nat * bool)) : option nat :=
  match stack with
  | [] => None
  | (x, true) :: _ => Some x
  | _ :: stack => top_exit stack
  end.
Definition exits (stack : list (nat * bool)) : list nat :=
  omap (λ p : nat * bool, if p.2 then Some p.1 else None) stack.

(** Below every entry of the stack is the exit marker of the block that pushed it. *)
Fixpoint stacked (push : nat → nat → Prop) (root : nat) (stack : list (nat * bool)) : Prop :=
  match stack with
  | [] => True
  | (x, _) :: stack =>
      match top_exit stack with Some y => push y x | None => x = root end ∧ stacked push root stack
  end.

Lemma top_exit_pushed xs stack :
  top_exit (((λ n, (n, false)) <$> xs) ++ stack) = top_exit stack.
Proof. by induction xs. Qed.
Lemma stacked_pushed push root xs y stack :
  top_exit stack = Some y → Forall (push y) xs → stacked push root stack →
  stacked push root (((λ n, (n, false)) <$> xs) ++ stack).
Proof.
  intros Hy. induction 1 as [|x xs Hx Hxs IH]; intros Hs; simpl; [done|].
  rewrite top_exit_pushed, Hy. auto.
Qed.
Lemma exits_pushed xs stack : exits (((λ n, (n, false)) <$> xs) ++ stack) = exits stack.
Proof. by induction xs. Qed.
Lemma top_exit_exits stack : top_exit stack = head (exits stack).
Proof. by induction stack as [|[x []] stack IH]. Qed.
Lemma elem_of_exits x stack : x ∈ exits stack ↔ (x, true) ∈ stack.
Proof.
  unfold exits. rewrite list_elem_of_omap. split.
  - intros ([y []]&Hy&Heq); [|done]. by injection Heq as ->.
  - intros Hx. by exists (x, true).
Qed.

Lemma stacked_parent push root stack c f :
  stacked push root stack → (c, f) ∈ stack → c = root ∨ ∃ p, push p c ∧ p ∈ exits stack.
Proof.
  induction stack as [|[y e] stack IH]; intros Hst Hc; [by apply not_elem_of_nil in Hc|].
  destruct Hst as [Htop Hst].
  assert (Hmono : ∀ p, p ∈ exits stack → p ∈ exits ((y, e) :: stack)).
  { intros p Hp. destruct e; [by right|done]. }
  apply elem_of_cons in Hc as [[= -> ->]|Hc].
  - destruct (top_exit stack) as [p|] eqn:Ep; [|by left]. right. exists p. split; [done|].
    apply Hmono. rewrite top_exit_exits in Ep. destruct (exits stack); [done|]. injection Ep as ->. by left.
  - destruct (IH Hst Hc) as [->|(p&?&?)]; [by left|]. right. exists p. auto.
Qed.

(** The budget bounds the iterations that are left. *)
Definition enough (fuel : nat) (b : AnalysisBudget) : Prop :=
  (Z.to_nat (analysis_limit b - analysis_work b) < fuel)%nat.
Lemma wp_fuelled {A} F (loop : nat → analysis A) Q b :
  (∀ fuel, enough fuel b → wp F (loop fuel) Q b) → wp F (fuelled loop) Q b.
Proof. intros Hl. unfold fuelled. apply Hl. unfold enough. lia. Qed.
Lemma enough_charge fuel b :
  enough (S fuel) b → analysis_work b < analysis_limit b →
  enough fuel (mkAnalysis (analysis_limit b) (analysis_work b + 1) (dominance_queries b)).
Proof. unfold enough. simpl. lia. Qed.
Lemma wp_at {A} F (l : list A) i x Q b : l !! i = Some x → Q x b → wp F (at_ l i) Q b.
Proof. apply wp_expect. Qed.

Section dfs.
#[local] Set Default Proof Using "Type*".
Context (g : list (list nat)) (root : nat).
Context (Hbound : ∀ i j, edge g i j → (j < length g)%nat) (Hroot : (root < length g)%nat).

Record dfs_ok (stack : list (nat * bool)) (seen : list bool) (order : list nat) : Prop := {
  dfs_length : length seen = length g;
  dfs_seen x : seen !! x = Some true ↔ x ∈ order ∨ x ∈ exits stack;
  dfs_NoDup : NoDup (order ++ exits stack);
  dfs_stacked : stacked (edge g) root stack;
  dfs_reach x : x ∈ order ∨ x ∈ stack.*1 → reachable (edge g) root x;
  dfs_closed x y : x ∈ order ∨ x ∈ exits stack → edge g x y →
    y ∈ order ∨ y ∈ exits stack ∨ (y, false) ∈ stack;
  dfs_parent k x : order !! k = Some x → x ≠ root →
    ∃ p, edge g p x ∧ (p ∈ exits stack ∨ ∃ k', (k < k')%nat ∧ order !! k' = Some p);
  dfs_root : root ∈ order ∨ root ∈ exits stack ∨ (root, false) ∈ stack;
}.

Lemma reachable_bound x : reachable (edge g) root x → (x < length g)%nat.
Proof. intros [l Hl]. inversion Hl; subst; [done|by eapply Hbound]. Qed.

Lemma dfs_start : dfs_ok [(root, false)] (replicate (length g) false) [].
Proof.
  split; simpl; try done.
  - apply length_replicate.
  - intros x. split; [|by intros [[]%not_elem_of_nil|[]%not_elem_of_nil]].
    intros [? ?]%lookup_replicate. done.
  - constructor.
  - intros x [[]%not_elem_of_nil|Hx%list_elem_of_singleton]. subst. apply reachable_start.
  - intros x y [[]%not_elem_of_nil|[]%not_elem_of_nil].
  - right. right. by left.
Qed.

Lemma exits_cons x stack : exits ((x, true) :: stack) = x :: exits stack.
Proof. done. Qed.

Lemma dfs_exit x stack seen order :
  dfs_ok ((x, true) :: stack) seen order → dfs_ok stack seen (order ++ [x]).
Proof.
  intros [Hl Hs Hn [Hp Hst] Hr Hc Hpar Hrt]. rewrite exits_cons in *.
  assert (Hmove : ∀ y, y ∈ order ++ [x] ∨ y ∈ exits stack ↔ y ∈ order ∨ y ∈ x :: exits stack).
  { intros y. rewrite elem_of_app, list_elem_of_singleton, elem_of_cons. tauto. }
  split; try done.
  - intros y. by rewrite Hs, Hmove.
  - by rewrite <- app_assoc.
  - intros y. rewrite elem_of_app, list_elem_of_singleton. intros Hy. apply Hr. simpl.
    rewrite elem_of_cons. tauto.
  - intros a y Ha He. apply Hmove in Ha.
    destruct (Hc a y Ha He) as [Hy|[Hy|[Hy|Hy]%elem_of_cons]]; [| |done|auto].
    + left. apply elem_of_app. by left.
    + apply elem_of_cons in Hy as [->|Hy]; [|auto]. left. apply elem_of_app. right.
      by apply list_elem_of_singleton.
  - intros k y Hy Hne. apply lookup_app_Some in Hy as [Hy|[Hk Hy]].
    + destruct (Hpar k y Hy Hne) as (p&He&[Hex|(k'&Hk'&Hp')]); exists p; split; try done.
      * apply elem_of_cons in Hex as [->|Hex]; [|by left]. right. exists (length order).
        split; [by eapply lookup_lt_Some|]. by rewrite lookup_app_r, Nat.sub_diag.
      * right. exists k'. split; [done|]. by apply lookup_app_l_Some.
    + apply list_lookup_singleton_Some in Hy as [_ <-].
      destruct (top_exit stack) as [p|] eqn:Etop; [|done]. exists p. split; [done|]. left.
      rewrite top_exit_exits in Etop. destruct (exits stack); [done|]. injection Etop as ->. by left.
  - destruct Hrt as [?|[Hx|[?|?]%elem_of_cons]]; [| |done|auto].
    + left. apply elem_of_app. by left.
    + apply elem_of_cons in Hx as [->|]; [|auto]. left. apply elem_of_app. right.
      by apply list_elem_of_singleton.
Qed.

Lemma dfs_skip x stack seen order :
  seen !! x = Some true → dfs_ok ((x, false) :: stack) seen order → dfs_ok stack seen order.
Proof.
  intros Hx [Hl Hs Hn [Hp Hst] Hr Hc Hpar Hrt]. simpl in *.
  assert (Hgone : ∀ y, (y, false) ∈ (x, false) :: stack →
    y ∈ order ∨ y ∈ exits stack ∨ (y, false) ∈ stack).
  { intros y [[= ->]|Hy]%elem_of_cons; [|auto]. apply Hs in Hx as [|]; auto. }
  split; try done.
  - intros y Hy. apply Hr. rewrite elem_of_cons. tauto.
  - intros a y Ha He. destruct (Hc a y Ha He) as [?|[?|?]]; auto.
  - destruct Hrt as [?|[?|?]]; auto.
Qed.

Lemma dfs_visit x next stack seen order :
  seen !! x = Some false → g !! x = Some next → dfs_ok ((x, false) :: stack) seen order →
  dfs_ok (((λ n, (n, false)) <$> next) ++ (x, true) :: stack) (<[x := true]> seen) order.
Proof.
  intros Hx Hnext [Hl Hs Hn [Hp Hst] Hr Hc Hpar Hrt]. simpl in *.
  assert (Hlt : (x < length seen)%nat) by by eapply lookup_lt_Some.
  assert (Hfresh : x ∉ order ∧ x ∉ exits stack).
  { split; intros Hin; assert (seen !! x = Some true) by (apply Hs; auto); congruence. }
  assert (Hedge : ∀ y, y ∈ next ↔ edge g x y).
  { intros y. unfold edge. rewrite Hnext. naive_solver. }
  assert (Hpush : ∀ y b, (y, b) ∈ ((λ n : nat, (n, false)) <$> next) ++ (x, true) :: stack ↔
    (y ∈ next ∧ b = false) ∨ (y = x ∧ b = true) ∨ (y, b) ∈ stack).
  { intros y b. rewrite elem_of_app, elem_of_cons, list_elem_of_fmap. clear. naive_solver. }
  split.
  - by rewrite length_insert.
  - intros y. rewrite exits_pushed, exits_cons, elem_of_cons. destruct (decide (x = y)) as [<-|Hy].
    + rewrite list_lookup_insert_eq by done. clear. naive_solver.
    + rewrite list_lookup_insert_ne by done. rewrite Hs. clear -Hy. naive_solver.
  - rewrite exits_pushed, exits_cons. apply NoDup_app in Hn as (Ho&Hd&He). apply NoDup_app.
    split; [done|]. split; [|by constructor; [apply Hfresh|]].
    intros y Hy. rewrite not_elem_of_cons. split; [|by apply Hd]. intros ->. by apply (proj1 Hfresh).
  - apply (stacked_pushed _ _ _ x); [done| |by split]. apply Forall_forall. intros y. by apply Hedge.
  - intros y [Hy|Hy]; [apply Hr; auto|]. apply list_elem_of_fmap in Hy as ([z b]&->&Hz). simpl.
    apply Hpush in Hz as [[Hz _]|[[-> _]|Hz]].
    + eapply reachable_edge; [|by apply Hedge]. apply Hr. right. by left.
    + apply Hr. right. by left.
    + apply Hr. right. right. apply list_elem_of_fmap. by exists (z, b).
  - intros a y Ha He. rewrite exits_pushed, exits_cons, !elem_of_cons in *.
    rewrite Hpush. destruct Ha as [Ha|[->|Ha]].
    2: { apply Hedge in He. auto. }
    all: destruct (Hc a y) as [?|[?|[Hq|?]%elem_of_cons]]; auto 6.
    all: injection Hq as ->; auto 6.
  - intros k y Hy Hne. destruct (Hpar k y Hy Hne) as (p&He&[Hex|?]); exists p; split; auto.
    left. rewrite exits_pushed. by right.
  - rewrite exits_pushed, exits_cons, Hpush, elem_of_cons.
    destruct Hrt as [?|[?|[Hq|?]%elem_of_cons]]; auto 6.
    injection Hq as ->; auto 6.
Qed.

(** The order is a postorder of the reachable blocks: every block but the root comes before one
    of its predecessors. *)
Record postorder (order : list nat) : Prop := {
  post_NoDup : NoDup order;
  post_reach x : x ∈ order ↔ reachable (edge g) root x;
  post_parent k x : order !! k = Some x → x ≠ root →
    ∃ p k', edge g p x ∧ (k < k')%nat ∧ order !! k' = Some p;
}.

Lemma dfs_finished seen order : dfs_ok [] seen order → postorder order.
Proof.
  intros [Hl Hs Hn _ Hr Hc Hpar Hrt]. simpl in *. rewrite app_nil_r in Hn. split; [done| |].
  - intros x. split; [intros Hx; apply Hr; auto|]. intros [l Hl']. induction Hl' as [|l u v _ IH He].
    + by destruct Hrt as [?|[[]%not_elem_of_nil|[]%not_elem_of_nil]].
    + by destruct (Hc u v) as [?|[[]%not_elem_of_nil|[]%not_elem_of_nil]]; auto.
  - intros k x Hx Hne. destruct (Hpar k x Hx Hne) as (p&He&[[]%not_elem_of_nil|(k'&?&?)]).
    by exists p, k'.
Qed.

Lemma dfs_loop_spec fuel : ∀ stack seen order b,
  enough fuel b → dfs_ok stack seen order →
  wp limit_error (dfs_loop g fuel stack seen order) (λ r _, postorder r) b.
Proof.
  induction fuel as [|fuel IH]; intros stack seen order b Hb Hok; [unfold enough in Hb; lia|].
  destruct stack as [|[x exiting] stack]; simpl; [by eapply wp_ret, dfs_finished|].
  apply wp_bind, wp_charge; [done|]. intros Hw. apply enough_charge in Hb; [|done].
  destruct exiting; [by apply IH, dfs_exit|].
  assert (Hx : (x < length g)%nat).
  { apply reachable_bound. eapply dfs_reach; [done|]. right. by left. }
  destruct (lookup_lt_is_Some_2 seen x) as [visited Hv]; [by rewrite (dfs_length _ _ _ Hok)|].
  apply wp_bind. eapply wp_at; [done|]. destruct visited; [by eapply IH, dfs_skip|].
  destruct (lookup_lt_is_Some_2 g x Hx) as [next Hnext].
  apply wp_bind. eapply wp_at; [done|]. apply IH; [done|]. by apply dfs_visit.
Qed.
End dfs.

(** *** Ranks *)

Lemma ranks_snoc n order x : ranks n (order ++ [x]) = <[x := length order]> (ranks n order).
Proof.
  unfold ranks. rewrite imap_app, foldl_app. simpl. by rewrite Nat.add_0_r.
Qed.
Lemma length_ranks n order : length (ranks n order) = n.
Proof.
  induction order as [|x order IH] using rev_ind; [apply length_replicate|].
  by rewrite ranks_snoc, length_insert.
Qed.
Lemma ranks_lookup n order k x :
  NoDup order → Forall (λ y, (y < n)%nat) order → order !! k = Some x →
  ranks n order !! x = Some k.
Proof.
  induction order as [|y order IH] using rev_ind; intros Hn Hb Hk; [done|].
  apply Forall_app in Hb as [Hb [Hy _]%Forall_cons]. apply NoDup_app in Hn as (Hn&Hd&_).
  rewrite ranks_snoc. apply lookup_app_Some in Hk as [Hk|[Hlen Hk]].
  - rewrite list_lookup_insert_ne; [by apply IH|]. intros ->. apply (Hd x).
    + by eapply list_elem_of_lookup_2.
    + by apply list_elem_of_singleton.
  - apply list_lookup_singleton_Some in Hk as [Hk <-].
    rewrite list_lookup_insert_eq by (rewrite length_ranks; lia). f_equal. lia.
Qed.

(** What the later phases use of the order: it ranks the reachable blocks, the root first, and
    every other block has a predecessor of smaller rank. *)
Record ranked (g : list (list nat)) (root : nat) (rpo rank : list nat) (rk : nat → nat) : Prop := {
  rk_rank x : reachable (edge g) root x → rank !! x = Some (rk x);
  rk_rpo k x : rpo !! k = Some x ↔ reachable (edge g) root x ∧ rk x = k;
  rk_root : rk root = 0%nat;
  rk_pred x : reachable (edge g) root x → x ≠ root →
    ∃ p, edge g p x ∧ reachable (edge g) root p ∧ (rk p < rk x)%nat;
}.

Lemma postorder_ranked g root order :
  (∀ x, reachable (edge g) root x → (x < length g)%nat) → postorder g root order →
  ranked g root (rev order) (ranks (length g) (rev order))
    (λ x, default 0%nat (ranks (length g) (rev order) !! x)).
Proof.
  rewrite (rev_alt order). change (rev_append order []) with (reverse order).
  intros Hbound [Hn Hr Hp]. set (rank := ranks (length g) (reverse order)).
  assert (Hn' : NoDup (reverse order)) by by rewrite reverse_Permutation.
  assert (Hr' : ∀ x, x ∈ reverse order ↔ reachable (edge g) root x).
  { intros x. rewrite <- Hr. apply elem_of_reverse. }
  assert (Hb : Forall (λ y, (y < length g)%nat) (reverse order)).
  { apply Forall_forall. intros x Hx. by apply Hbound, Hr'. }
  assert (Hk : ∀ k x, reverse order !! k = Some x → rank !! x = Some k).
  { intros k x. by apply ranks_lookup. }
  assert (Hrpo : ∀ k x, reverse order !! k = Some x ↔ reachable (edge g) root x ∧ default 0%nat (rank !! x) = k).
  { intros k x. split.
    - intros Hx. rewrite (Hk _ _ Hx). split; [|done]. apply Hr'. by eapply list_elem_of_lookup_2.
    - intros [Hx <-]. apply Hr', list_elem_of_lookup in Hx as [j Hj]. by rewrite (Hk _ _ Hj). }
  assert (Hpred : ∀ x, reachable (edge g) root x → x ≠ root →
    ∃ p, edge g p x ∧ reachable (edge g) root p ∧ (default 0%nat (rank !! p) < default 0%nat (rank !! x))%nat).
  { intros x Hx Hne. apply Hr, list_elem_of_lookup in Hx as [k Hx].
    destruct (Hp k x Hx Hne) as (p&k'&He&Hlt&Hp'). exists p.
    assert (Hrev : ∀ i y, order !! i = Some y → reverse order !! (length order - S i)%nat = Some y).
    { intros i y Hy. rewrite reverse_lookup.
      - rewrite <- Hy. f_equal. apply lookup_lt_Some in Hy. lia.
      - apply lookup_lt_Some in Hy. lia. }
    split; [done|]. split; [apply Hr; by eapply list_elem_of_lookup_2|].
    rewrite (Hk _ _ (Hrev _ _ Hp')), (Hk _ _ (Hrev _ _ Hx)). simpl.
    apply lookup_lt_Some in Hp'. lia. }
  split; try done.
  - intros x Hx. apply Hr', list_elem_of_lookup in Hx as [k Hx]. by rewrite (Hk _ _ Hx).
  - destruct (reverse order !! 0%nat) as [x|] eqn:Hx.
    + destruct (decide (x = root)) as [->|Hne]; [by rewrite (Hk _ _ Hx)|].
      apply Hrpo in Hx as [Hx H0]. destruct (Hpred x Hx Hne) as (p&_&_&?). lia.
    + apply lookup_ge_None in Hx. assert (root ∈ reverse order) as Hin by (apply Hr', reachable_start).
      apply list_elem_of_lookup in Hin as [i Hi%lookup_lt_Some]. lia.
Qed.

(** ** The dominator tree *)

(** [d] is above [a] in the tree, or [a] itself. *)
Inductive above (idom : list (option nat)) : nat → nat → Prop :=
  | above_refl a : above idom a a
  | above_step a p d : idom !! a = Some (Some p) → above idom p d → above idom a d.

Definition processed (idom : list (option nat)) (a : nat) : Prop := ∃ p, idom !! a = Some (Some p).

Lemma above_trans idom a b d : above idom a b → above idom b d → above idom a d.
Proof. induction 1; [done|]. intros. by eapply above_step; [|auto]. Qed.

(** An edge into a block ranked after [r]. *)
Definition edge_after (g : list (list nat)) (rk : nat → nat) (r u v : nat) : Prop :=
  edge g u v ∧ (r < rk v)%nat.

Lemma edge_after_weaken g rk r r' u v :
  (r' ≤ r)%nat → rtc (edge_after g rk r) u v → rtc (edge_after g rk r') u v.
Proof.
  intros Hr. induction 1 as [|u v w [He Hlt] _ IH]; [done|]. eapply rtc_l; [|done]. split; [done|lia].
Qed.
(** A walk extended by edges into late blocks visits only late blocks more. *)
Lemma walk_after g rk s r l u v :
  walk (edge g) s l u → rtc (edge_after g rk r) u v →
  ∃ l', walk (edge g) s (l' ++ l) v ∧ Forall (λ x, (r < rk x)%nat) l'.
Proof.
  intros Hw. induction 1 as [|u v w [He Hlt] _ IH] in l, Hw |- *.
  - by exists [].
  - destruct (IH (v :: l)) as (l'&Hl'&Hf); [by econstructor|]. exists (l' ++ [v]).
    rewrite <- app_assoc. split; [done|]. apply Forall_app. split; [done|]. by repeat constructor.
Qed.

(** *** The loops spend the budget *)

Definition spends (b b' : AnalysisBudget) : Prop :=
  analysis_limit b' = analysis_limit b ∧ analysis_work b ≤ analysis_work b'.
#[export] Instance spends_preorder : PreOrder spends.
Proof. split; [done|]. intros a b c [? ?] [? ?]. unfold spends. split; [congruence|lia]. Qed.
Lemma spends_charge : Respects spends charge_analysis.
Proof.
  intros b r b'. unfold charge_analysis. destruct (_ <=? _); intros [= _ <-]; [done|].
  unfold spends. simpl. lia.
Qed.
#[export] Hint Resolve spends_charge : respects.
#[export] Hint Extern 1 (Respects _ (at_ _ _)) => apply respects_pure : respects.

Section spends.
Context (preds : list (list nat)) (rank : list nat).
Lemma spends_intersect idom fuel : ∀ a b, Respects spends (intersect rank idom fuel a b).
Proof.
  induction fuel; intros a b; simpl; [auto with respects|]. unfold parent. respects_auto.
Qed.
Lemma spends_meet idom ps : ∀ next, Respects spends (meet_predecessors rank idom ps next).
Proof.
  induction ps as [|p ps IH]; intros next; simpl; [auto with respects|]. respects_auto.
  intros b r b'. unfold fuelled. apply spends_intersect.
Qed.
Hint Resolve spends_meet : respects.
Lemma spends_pass bs : ∀ idom changed, Respects spends (idom_pass preds rank bs idom changed).
Proof. induction bs as [|b bs IH]; intros idom changed; simpl; respects_auto. Qed.

(** A pass that changes a block charges the budget. *)
Lemma pass_charges F bs idom Q s :
  wp F (idom_pass preds rank bs idom false) Q s →
  wp F (idom_pass preds rank bs idom false) (λ r s', Q r s' ∧
    analysis_limit s' = analysis_limit s ∧ (r.2 = true → analysis_work s < analysis_work s' ∧ analysis_work s < analysis_limit s)) s.
Proof.
  destruct bs as [|b bs]; [by split|]. cbn [idom_pass].
  match goal with |- wp _ (_ ≫= λ _, ?k) _ _ → _ => set (rest := k) end.
  assert (Hrest : Respects spends rest) by (subst rest; pose proof spends_pass; respects_auto).
  unfold wp, mbind, stm_bind, charge_analysis.
  destruct (Z.leb_spec (analysis_limit s) (analysis_work s)); [done|]. intros Hwp.
  apply (wp_respects _ spends) in Hwp; [|done].
  eapply wp_mono; [|exact Hwp]. intros r s' [HQ [Hl Hw]]. simpl in *. split; [done|].
  split; [done|]. lia.
Qed.

End spends.

Definition opened (iv : intervals_t) (x : nat) : Prop := ∃ i, iv !! x = Some (Some i).

Lemma opened_insert iv x i y :
  (x < length iv)%nat → opened (<[x := Some i]> iv) y ↔ y = x ∨ opened iv y.
Proof.
  intros Hx. unfold opened. destruct (decide (x = y)) as [<-|Hne].
  - setoid_rewrite list_lookup_insert_eq; [|done]. naive_solver.
  - setoid_rewrite list_lookup_insert_ne; [|done]. naive_solver.
Qed.

Section idom.
Context (g preds : list (list nat)) (root : nat) (rpo rank : list nat) (rk : nat → nat).
Context (Hm : mirrored (length g) g preds) (Hr : ranked g root rpo rank rk).
Context (Hroot : ∀ x, ¬ edge g x root) (Hroot_bound : (root < length g)%nat).
#[local] Set Default Proof Using "Type*".

(** The state of the iteration: a tree rooted at the entry whose ranks increase downwards, in
    which every dominator of a block is above it. *)
Record tree_ok (idom : list (option nat)) : Prop := {
  tree_length : length idom = length g;
  tree_root : idom !! root = Some (Some root);
  tree_reach b p : idom !! b = Some (Some p) → reachable (edge g) root b ∧ processed idom p;
  tree_rank b p : idom !! b = Some (Some p) → b ≠ root → (rk p < rk b)%nat;
  tree_via b p : idom !! b = Some (Some p) → b ≠ root → rtc (edge_after g rk (rk p)) p b;
  tree_dom b d : processed idom b → dominator (edge g) root d b → above idom b d;
}.

Lemma above_rank idom a d :
  tree_ok idom → above idom a d → processed idom a →
  processed idom d ∧ (d = a ∨ (rk d < rk a)%nat).
Proof.
  intros Hok. induction 1 as [a|a p d Ha _ IH]; intros Hp; [auto|].
  destruct (IH (proj2 (tree_reach _ Hok _ _ Ha))) as [Hd Hlt]. split; [done|].
  destruct (decide (a = root)) as [->|Hne].
  - rewrite (tree_root _ Hok) in Ha. injection Ha as <-. naive_solver.
  - apply (tree_rank _ Hok) in Ha; [|done]. destruct Hlt as [->|]; lia.
Qed.
Lemma above_via idom a d :
  tree_ok idom → above idom a d → processed idom a → rtc (edge_after g rk (rk d)) d a.
Proof.
  intros Hok. induction 1 as [a|a p d Ha Hab IH]; intros Hp; [done|].
  assert (Hpp := proj2 (tree_reach _ Hok _ _ Ha)). specialize (IH Hpp).
  destruct (decide (a = root)) as [->|Hne].
  - rewrite (tree_root _ Hok) in Ha. by injection Ha as <-.
  - etrans; [done|]. eapply edge_after_weaken; [|by apply (tree_via _ Hok)].
    apply above_rank in Hab as [_ [->|]]; auto with lia.
Qed.

Lemma rk_inj x y : reachable (edge g) root x → reachable (edge g) root y → rk x = rk y → x = y.
Proof.
  intros Hx Hy Heq. assert (H1 : rpo !! rk y = Some x) by by apply (rk_rpo _ _ _ _ _ Hr).
  assert (H2 : rpo !! rk y = Some y) by by apply (rk_rpo _ _ _ _ _ Hr). congruence.
Qed.

Lemma processed_reach idom a : tree_ok idom → processed idom a → reachable (edge g) root a.
Proof. intros Hok [p Hp]. by apply (tree_reach _ Hok) in Hp as [? _]. Qed.
Lemma processed_bound idom a : tree_ok idom → processed idom a → (a < length g)%nat.
Proof. intros Hok [p Hp]. apply lookup_lt_Some in Hp. by rewrite (tree_length _ Hok) in Hp. Qed.

(** *** The meet of two blocks *)

Definition lowest (idom : list (option nat)) (a b x : nat) : Prop :=
  above idom a x ∧ above idom b x ∧ ∀ d, above idom a d → above idom b d → above idom x d.

(** The later of two blocks is not above the other one, so the meet is above its parent. *)
Lemma lowest_parent idom a b p x :
  tree_ok idom → processed idom a → processed idom b → (rk b < rk a)%nat →
  idom !! a = Some (Some p) → lowest idom p b x → lowest idom a b x.
Proof.
  intros Hok Ha Hb Hlt Hp (Hpx&Hbx&Hx). split_and!; [by eapply above_step|done|].
  intros d Had Hbd. apply Hx; [|done]. inversion Had as [|? q ? Hq Hqd]; subst; [|congruence].
  apply above_rank in Hbd as [_ Hd]; [|done..]. destruct Hd as [->|]; lia.
Qed.
Lemma lowest_sym idom a b x : lowest idom a b x → lowest idom b a x.
Proof. intros (?&?&Hx). split_and!; auto. Qed.

Lemma intersect_spec idom fuel : ∀ a b s,
  enough fuel s → tree_ok idom → processed idom a → processed idom b →
  wp limit_error (intersect rank idom fuel a b) (λ x _, lowest idom a b x) s.
Proof.
  induction fuel as [|fuel IH]; intros a b s Hs Hok Ha Hb; [unfold enough in Hs; lia|]. simpl.
  destruct (Nat.eqb_spec a b) as [->|Hab]; [apply wp_ret; split_and!; auto using above_refl|].
  apply wp_bind, wp_charge; [done|]. intros Hw. apply enough_charge in Hs; [|done].
  assert (Hra := processed_reach _ _ Hok Ha). assert (Hrb := processed_reach _ _ Hok Hb).
  apply wp_bind. eapply wp_at; [by apply (rk_rank _ _ _ _ _ Hr)|].
  apply wp_bind. eapply wp_at; [by apply (rk_rank _ _ _ _ _ Hr)|].
  assert (Hparent : ∀ c Q s', processed idom c → (∀ p, idom !! c = Some (Some p) → Q p s') →
    wp limit_error (parent idom c) Q s').
  { intros c Q s' [p Hp] HQ. apply wp_bind. eapply wp_at; [done|]. exact (HQ p Hp). }
  destruct (Nat.ltb_spec (rk b) (rk a)) as [Hlt|Hge].
  - apply wp_bind, Hparent; [done|]. intros p Hp.
    eapply wp_mono; [|apply IH; try done; by apply (tree_reach _ Hok) in Hp as [_ ?]].
    intros x ? Hx. by eapply lowest_parent.
  - apply wp_bind, Hparent; [done|]. intros p Hp.
    eapply wp_mono; [|apply IH; try done; by apply (tree_reach _ Hok) in Hp as [_ ?]].
    intros x ? Hx. apply lowest_sym. eapply lowest_parent; try done; [|by apply lowest_sym].
    destruct (decide (rk a = rk b)) as [Heq|]; [|lia]. by apply rk_inj in Heq.
Qed.

(** *** The meet of the predecessors *)

Definition meets (idom : list (option nat)) (ps : list nat) (next : option nat) : Prop :=
  match next with
  | None => ∀ p, p ∈ ps → ¬ processed idom p
  | Some x =>
      (∃ p, p ∈ ps ∧ processed idom p ∧ above idom p x) ∧
      (∀ p, p ∈ ps → processed idom p → above idom p x) ∧
      ∀ d, (∀ p, p ∈ ps → processed idom p → above idom p d) → above idom x d
  end.

Lemma meets_skip idom ps p next :
  ¬ processed idom p → meets idom ps next → meets idom (ps ++ [p]) next.
Proof.
  intros Hp. assert (Hin : ∀ q, q ∈ ps ++ [p] ↔ q ∈ ps ∨ q = p).
  { intros q. by rewrite elem_of_app, list_elem_of_singleton. }
  destruct next as [x|]; simpl; setoid_rewrite Hin; clear -Hp; naive_solver.
Qed.
Lemma meets_first idom ps p : meets idom ps None → processed idom p → meets idom (ps ++ [p]) (Some p).
Proof.
  intros Hn Hp. assert (Hin : ∀ q, q ∈ ps ++ [p] ↔ q ∈ ps ∨ q = p).
  { intros q. by rewrite elem_of_app, list_elem_of_singleton. }
  simpl in *. setoid_rewrite Hin. split_and!.
  - exists p. auto using above_refl.
  - intros q [Hq| ->]; [by intros ?%Hn|]. constructor.
  - intros d Hd. apply Hd; auto.
Qed.
Lemma meets_next idom ps a p x :
  meets idom ps (Some a) → processed idom p → lowest idom a p x → meets idom (ps ++ [p]) (Some x).
Proof.
  intros (_&Ha&Hd) Hp (Hax&Hpx&Hx). assert (Hin : ∀ q, q ∈ ps ++ [p] ↔ q ∈ ps ∨ q = p).
  { intros q. by rewrite elem_of_app, list_elem_of_singleton. }
  simpl. setoid_rewrite Hin. split_and!.
  - exists p. auto.
  - intros q [Hq| ->]; [|done]. intros Hqp. eapply above_trans; [by apply Ha|done].
  - intros d Hall. apply Hx; [apply Hd; auto|auto].
Qed.

Lemma meet_spec idom ps : ∀ before next s,
  tree_ok idom → Forall (λ p, (p < length g)%nat) ps → meets idom before next →
  (∀ a, next = Some a → processed idom a) →
  wp limit_error (meet_predecessors rank idom ps next) (λ r _, meets idom (before ++ ps) r) s.
Proof.
  induction ps as [|p ps IH]; intros before next s Hok Hps Hn Hnext; simpl.
  { apply wp_ret. by rewrite app_nil_r. }
  apply Forall_cons in Hps as [Hp Hps]. rewrite (app_assoc before [p] ps : before ++ p :: ps = _).
  apply wp_bind, wp_charge; [done|]. intros _.
  destruct (lookup_lt_is_Some_2 idom p) as [o Ho]; [by rewrite (tree_length _ Hok)|].
  apply wp_bind. eapply wp_at; [done|]. destruct o as [q|].
  - assert (Hpp : processed idom p) by by exists q.
    destruct next as [a|].
    + apply wp_bind, wp_fuelled. intros fuel Hf.
      eapply wp_mono; [|apply intersect_spec; auto]. intros x s' Hx. simpl.
      apply IH; [done..|by eapply meets_next|]. intros ? [= <-].
      eapply (above_rank _ p); [done| |done]. apply Hx.
    + apply IH; [done..|by apply meets_first|]. by intros ? [= <-].
  - apply IH; [done..| |done]. apply meets_skip; [|done]. intros [q Hq]. congruence.
Qed.

(** *** Updating a block *)

(** The chain of an earlier block does not meet [b]. *)
Lemma above_insert_before idom b o y d :
  tree_ok idom → above idom y d → processed idom y → (rk y < rk b)%nat →
  above (<[b := o]> idom) y d.
Proof.
  intros Hok. induction 1 as [y|y q d Hq _ IH]; intros Hp Hlt; [constructor|].
  destruct (decide (y = root)) as [->|Hne].
  - rewrite (tree_root _ Hok) in Hq. injection Hq as <-. auto.
  - eapply above_step; [rewrite list_lookup_insert_ne; [done|intros ->; lia]|].
    apply IH; [by apply (tree_reach _ Hok) in Hq as [_ ?]|]. apply (tree_rank _ Hok) in Hq; [lia|done].
Qed.
(** A chain that meets [b] continues along the new parent of [b]. *)
Lemma above_insert idom b x c d :
  tree_ok idom → b ≠ root → above idom c d → processed idom c →
  (above idom c b → (rk d < rk b)%nat → above (<[b := Some x]> idom) b d) →
  above (<[b := Some x]> idom) c d.
Proof.
  intros Hok Hb. induction 1 as [c|c q d Hq Hab IH]; intros Hp Hnew; [constructor|].
  destruct (decide (c = b)) as [->|Hne].
  - apply Hnew; [constructor|]. apply (tree_reach _ Hok) in Hq as Hqp.
    apply (tree_rank _ Hok) in Hq; [|done].
    apply above_rank in Hab as [_ [->|]]; [lia..|done|apply Hqp].
  - eapply above_step; [by rewrite list_lookup_insert_ne|]. apply IH.
    + by apply (tree_reach _ Hok) in Hq as [_ ?].
    + intros Hqb. apply Hnew. by eapply above_step.
Qed.

Lemma tree_update idom b ps x :
  tree_ok idom → reachable (edge g) root b → b ≠ root → preds !! b = Some ps →
  meets idom ps (Some x) → (rk x < rk b)%nat → tree_ok (<[b := Some x]> idom).
Proof.
  intros Hok Hb Hne Hps ((p&Hpin&Hpp&Hpx)&Hall&Hlow) Hlt.
  assert (Hblt : (b < length idom)%nat).
  { rewrite (tree_length _ Hok). destruct Hb as [l Hl]. inversion Hl; subst; [done|].
    by eapply (mirror_bound _ _ _ Hm). }
  assert (Hxp : processed idom x) by (by eapply (above_rank idom p x)).
  assert (Hedge := mirror_pred _ _ _ _ _ Hm Hps).
  assert (Hproc : ∀ c, processed idom c → processed (<[b := Some x]> idom) c).
  { intros c [q Hq]. destruct (decide (b = c)) as [->|Hcb].
    - exists x. by rewrite list_lookup_insert_eq.
    - exists q. by rewrite list_lookup_insert_ne. }
  assert (Hbdom : ∀ d, dominator (edge g) root d b → above (<[b := Some x]> idom) b d).
  { intros d Hd. destruct (decide (d = b)) as [->|Hdb]; [constructor|].
    eapply above_step; [by rewrite list_lookup_insert_eq|]. apply above_insert_before; try done.
    apply Hlow. intros q Hq Hqp. apply (tree_dom _ Hok); [done|].
    eapply dominator_pred; [done..|by apply Hedge]. }
  split.
  - by rewrite length_insert, (tree_length _ Hok).
  - by rewrite list_lookup_insert_ne, (tree_root _ Hok).
  - intros c q. destruct (decide (b = c)) as [<-|Hcb].
    + rewrite list_lookup_insert_eq by done. intros [= <-]. auto.
    + rewrite list_lookup_insert_ne by done. intros [? ?]%(tree_reach _ Hok). auto.
  - intros c q. destruct (decide (b = c)) as [<-|Hcb].
    + rewrite list_lookup_insert_eq by done. by intros [= <-].
    + rewrite list_lookup_insert_ne by done. apply (tree_rank _ Hok).
  - intros c q. destruct (decide (b = c)) as [<-|Hcb].
    + rewrite list_lookup_insert_eq by done. intros [= <-] _.
      eapply rtc_r; [by eapply above_via|]. split; [by apply Hedge|done].
    + rewrite list_lookup_insert_ne by done. apply (tree_via _ Hok).
  - intros c d Hc Hd. destruct (decide (b = c)) as [<-|Hcb]; [by apply Hbdom|].
    assert (Hcp : processed idom c).
    { destruct Hc as [q Hq]. rewrite list_lookup_insert_ne in Hq by done. by exists q. }
    apply above_insert; try done; [by apply (tree_dom _ Hok)|]. intros Hcb' Hdb. apply Hbdom.
    intros l Hl. destruct (walk_after g rk root (rk b) l b c Hl) as (l'&Hl'&Hf); [by eapply above_via|].
    apply Hd, elem_of_app in Hl' as [Hin|]; [|done]. rewrite Forall_forall in Hf.
    apply Hf in Hin. lia.
Qed.

(** *** The iteration *)

Definition settled (idom : list (option nat)) (b : nat) : Prop :=
  ∃ ps o, preds !! b = Some ps ∧ idom !! b = Some o ∧ meets idom ps o.

Lemma pass_spec bs : ∀ k idom changed s,
  bs = drop k rpo → (0 < k)%nat → tree_ok idom →
  (∀ j c, (j < k)%nat → rpo !! j = Some c → processed idom c) →
  wp limit_error (idom_pass preds rank bs idom changed) (λ r _,
    tree_ok r.1 ∧ (∀ c, reachable (edge g) root c → processed r.1 c) ∧
    (r.2 = false → changed = false ∧ r.1 = idom ∧ ∀ b, b ∈ bs → settled idom b)) s.
Proof.
  induction bs as [|b bs IH]; intros k idom changed s Hbs Hk Hok Hbefore; simpl.
  { apply wp_ret. simpl. split; [done|]. split; [|by intros ->; split_and!; [..|intros ? []%not_elem_of_nil]].
    intros c Hc. apply (Hbefore (rk c)); [|by apply (rk_rpo _ _ _ _ _ Hr)].
    assert (Hlen : (length rpo ≤ k)%nat).
    { apply (f_equal length) in Hbs. rewrite length_drop in Hbs. simpl in Hbs. lia. }
    assert (Hc' : rpo !! rk c = Some c) by by apply (rk_rpo _ _ _ _ _ Hr).
    apply lookup_lt_Some in Hc'. lia. }
  assert (Hb : rpo !! k = Some b).
  { assert (drop k rpo !! 0%nat = Some b) as Hd by by rewrite <- Hbs.
    by rewrite lookup_drop, Nat.add_0_r in Hd. }
  assert (Hrest : bs = drop (S k) rpo).
  { rewrite (drop_S _ _ _ Hb) in Hbs. by injection Hbs. }
  apply (rk_rpo _ _ _ _ _ Hr) in Hb as Hbk. destruct Hbk as [Hreach Hrank].
  assert (Hbn : (b < length g)%nat).
  { destruct Hreach as [l Hl]. inversion Hl; subst; [done|]. by eapply (mirror_bound _ _ _ Hm). }
  assert (Hne : b ≠ root) by (intros ->; rewrite (rk_root _ _ _ _ _ Hr) in Hrank; lia).
  apply wp_bind, wp_charge; [done|]. intros _.
  destruct (lookup_lt_is_Some_2 preds b) as [ps Hps]; [by rewrite (proj2 (mirror_lengths _ _ _ Hm))|].
  apply wp_bind. eapply wp_at; [done|].
  assert (Hedge := mirror_pred _ _ _ _ _ Hm Hps).
  apply wp_bind. eapply wp_mono; [|apply (meet_spec idom ps []); try done].
  2: { apply Forall_forall. intros q Hq. by apply (mirror_bound _ _ _ Hm q b), Hedge. }
  2: { intros p []%not_elem_of_nil. }
  intros next s' Hmeets. simpl in Hmeets.
  destruct (lookup_lt_is_Some_2 idom b) as [old Hold]; [by rewrite (tree_length _ Hok)|].
  apply wp_bind. eapply wp_at; [done|].
  destruct (rk_pred _ _ _ _ _ Hr b Hreach Hne) as (p&Hpb&Hpr&Hplt).
  assert (Hpp : processed idom p).
  { apply (Hbefore (rk p)); [lia|by apply (rk_rpo _ _ _ _ _ Hr)]. }
  destruct next as [x|]; [|by destruct (Hmeets p); [apply Hedge|]].
  assert (Hlt : (rk x < rk b)%nat).
  { destruct Hmeets as (_&Hall&_). specialize (Hall p (proj2 (Hedge p) Hpb) Hpp).
    apply above_rank in Hall as [_ [->|]]; [lia..|done|done]. }
  assert (Hnext : ∀ idom', tree_ok idom' → (∀ c, processed idom c → processed idom' c) →
    processed idom' b → ∀ j c, (j < S k)%nat → rpo !! j = Some c → processed idom' c).
  { intros idom' _ Hmono Hpb' j c Hj Hc. destruct (decide (j = k)) as [->|]; [by simplify_eq|].
    apply Hmono. apply (Hbefore j); [lia|done]. }
  case_decide as Hsame.
  - subst old. eapply wp_mono; [|apply (IH (S k)); [done|lia|done|]].
    + intros r ? (?&?&Hun). split; [done|]. split; [done|]. intros Hf.
      destruct (Hun Hf) as (->&Hid&Hset). split; [done|]. split; [done|].
      intros c [->|Hc]%elem_of_cons; [|by apply Hset]. by exists ps, (Some x).
    + apply Hnext; try done. by exists x.
  - eapply wp_mono; [|apply (IH (S k)); [done|lia|by eapply tree_update|]].
    + intros r ? (?&?&Hun). split; [done|]. split; [done|]. intros Hf. by destruct (Hun Hf).
    + apply Hnext; [by eapply tree_update| |].
      * intros c [q Hq]. destruct (decide (b = c)) as [->|Hcb].
        -- exists x. rewrite list_lookup_insert_eq; [done|]. by rewrite (tree_length _ Hok).
        -- exists q. by rewrite list_lookup_insert_ne.
      * exists x. rewrite list_lookup_insert_eq; [done|]. by rewrite (tree_length _ Hok).
Qed.

Lemma tree_start : tree_ok (<[root := Some root]> (replicate (length g) None)).
Proof.
  assert (Hlen : length (replicate (length g) (@None nat)) = length g) by apply length_replicate.
  assert (Hlook : ∀ b p, <[root := Some root]> (replicate (length g) None) !! b = Some (Some p) →
    b = root ∧ p = root).
  { intros b p. destruct (decide (root = b)) as [<-|Hne].
    - rewrite list_lookup_insert_eq by lia. by intros [= <-].
    - rewrite list_lookup_insert_ne by done. by intros [? ?]%lookup_replicate. }
  split.
  - by rewrite length_insert.
  - rewrite list_lookup_insert_eq; [done|lia].
  - intros b p [-> ->]%Hlook. split; [apply reachable_start|]. exists root.
    rewrite list_lookup_insert_eq; [done|lia].
  - by intros b p [-> ->]%Hlook.
  - by intros b p [-> ->]%Hlook.
  - intros b d [p [-> ->]%Hlook] Hd. specialize (Hd [root] (walk_start (edge g) root)).
    apply list_elem_of_singleton in Hd as ->. constructor.
Qed.

(** The result: exactly the reachable blocks are in the tree, and what is above a block in it are
    its dominators. *)
Record dominator_tree (idom : list (option nat)) : Prop := {
  dt_tree : tree_ok idom;
  dt_reach b : processed idom b ↔ reachable (edge g) root b;
  dt_dominator b d : reachable (edge g) root b → above idom b d ↔ dominator (edge g) root d b;
}.

Lemma tree_exact idom :
  tree_ok idom → (∀ c, reachable (edge g) root c → processed idom c) →
  (∀ b, b ∈ tail rpo → settled idom b) → dominator_tree idom.
Proof.
  intros Hok Hall Hset. split; [done| |].
  - intros b. split; [by apply processed_reach|by apply Hall].
  - intros b d Hb. split; [|apply (tree_dom _ Hok); auto].
    intros Hab l Hl. revert d Hab. induction Hl as [|l u v Hl IH He]; intros d Hab.
    + apply (above_rank _ _ _ Hok) in Hab as [_ Hd]; [|by apply Hall].
      rewrite (rk_root _ _ _ _ _ Hr) in Hd. destruct Hd as [->|]; [by left|lia].
    + assert (Hu : reachable (edge g) root u) by by exists l.
      assert (Hne : v ≠ root) by (intros ->; by apply Hroot in He).
      assert (Hvt : v ∈ tail rpo).
      { assert (Hv : rpo !! rk v = Some v) by by apply (rk_rpo _ _ _ _ _ Hr).
        assert (Hpos : rk v ≠ 0%nat).
        { intros H0. rewrite H0 in Hv. assert (Hrt : rpo !! 0%nat = Some root).
          { apply (rk_rpo _ _ _ _ _ Hr). split; [apply reachable_start|apply (rk_root _ _ _ _ _ Hr)]. }
          congruence. }
        destruct rpo as [|r0 rpo']; [done|]. destruct (rk v) as [|k]; [done|].
        by eapply list_elem_of_lookup_2. }
      destruct (Hset v Hvt) as (ps&o&Hps&Ho&Hmeets).
      assert (Hin : u ∈ ps) by by apply (mirror_pred _ _ _ _ _ Hm Hps).
      destruct o as [x|]; [|by destruct (Hmeets u Hin); auto].
      destruct Hmeets as (_&Habove&_). inversion Hab as [|? q ? Hq Hqd]; subst; [by left|].
      right. apply IH; [done|]. eapply above_trans; [by apply Habove; auto|]. congruence.
Qed.

Lemma idom_loop_spec fuel : ∀ idom s,
  enough fuel s → tree_ok idom →
  wp limit_error (idom_loop preds rank rpo fuel idom) (λ r _, dominator_tree r) s.
Proof.
  induction fuel as [|fuel IH]; intros idom s Hs Hok; [unfold enough in Hs; lia|]. cbn [idom_loop].
  apply wp_bind. eapply wp_mono; [|apply pass_charges, (pass_spec _ 1)]; try done.
  - intros [idom' changed] s' ((Hok'&Hall&Hun)&Hl&Hw). simpl in *. destruct changed.
    + apply IH; [|done]. destruct (Hw eq_refl). unfold enough in *. lia.
    + destruct (Hun eq_refl) as (_&->&Hset). apply wp_ret. by apply tree_exact.
  - lia.
  - intros j c Hj Hc. assert (j = 0%nat) as -> by lia. exists root.
    apply (rk_rpo _ _ _ _ _ Hr) in Hc as [Hc H0]. rewrite <- (rk_root _ _ _ _ _ Hr) in H0.
    apply rk_inj in H0 as ->; [apply Hok|done|apply reachable_start].
Qed.

(** ** The intervals of the tree *)

Section intervals.
Context (idom : list (option nat)) (Hok : tree_ok idom) (children : list (list nat)).
Context (Hlen : length children = length g).
Context (Hchild : ∀ p c, edge children p c ↔ idom !! c = Some (Some p) ∧ c ≠ p).
Context (HNoDup : ∀ p l, children !! p = Some l → NoDup l).

Lemma child_processed p c : edge children p c → processed idom c ∧ processed idom p.
Proof. intros [Hc _]%Hchild. split; [by exists p|by apply (tree_reach _ Hok) in Hc as [_ ?]]. Qed.
Lemma child_above p c d : edge children p c → above idom c d → d ≠ c → above idom p d.
Proof.
  intros [Hc _]%Hchild Hab Hne. inversion Hab as [|? q ? Hq Hqd]; subst; [done|congruence].
Qed.
Lemma above_antisym a b : processed idom a → above idom a b → above idom b a → a = b.
Proof.
  intros Ha Hab Hba. apply above_rank in Hab as [Hb [->|]]; [done| |done..].
  apply above_rank in Hba as [_ [->|]]; [done|lia|done..].
Qed.
Lemma above_root d : above idom root d → d = root.
Proof.
  intros Hd. apply above_rank in Hd as [_ [->|Hlt]]; [done| |done|].
  - rewrite (rk_root _ _ _ _ _ Hr) in Hlt. lia.
  - exists root. apply Hok.
Qed.

(** What is open on the stack is above what comes next. *)
Lemma stacked_exits x f stack a :
  stacked (edge children) root ((x, f) :: stack) → a ∈ exits stack → above idom x a.
Proof.
  revert x f. induction stack as [|[y e] stack IH]; intros x f [Htop Hst] Ha.
  { by apply not_elem_of_nil in Ha. }
  destruct e; simpl in Htop.
  - apply Hchild in Htop as [Hx _]. eapply above_step; [done|].
    rewrite exits_cons in Ha. apply elem_of_cons in Ha as [->|Ha]; [constructor|by eapply IH].
  - apply (IH x f); [|done]. split; [done|apply Hst].
Qed.

(** An open block contains what has been opened since; a closed one what its interval does. *)
Definition nested (iv : intervals_t) (open : list nat) : Prop := ∀ a c sa ea sc ec,
  iv !! a = Some (Some (sa, ea)) → iv !! c = Some (Some (sc, ec)) →
  (a ∈ open → above idom c a ↔ (sa ≤ sc)%nat) ∧
  (a ∉ open → (above idom c a ↔ (sa ≤ sc)%nat ∧ (sc < ea)%nat) ∧
              (above idom c a → c ∉ open ∧ (ec ≤ ea)%nat)).

Record iv_ok (stack : list (nat * bool)) (iv : intervals_t) (clock : nat) : Prop := {
  iv_length : length iv = length g;
  iv_stacked : stacked (edge children) root stack;
  iv_NoDup : NoDup stack.*1;
  iv_open x : x ∈ exits stack → opened iv x;
  iv_pending x : (x, false) ∈ stack → ¬ opened iv x ∧ processed idom x;
  iv_opened x : opened iv x → processed idom x ∧ (x = root ∨ ∃ p, edge children p x ∧ opened iv p);
  iv_children x c : opened iv x → edge children x c → opened iv c ∨ (c, false) ∈ stack;
  iv_root : opened iv root ∨ (root, false) ∈ stack;
  iv_clock c s e : iv !! c = Some (Some (s, e)) →
    (s < clock)%nat ∧ (e < clock)%nat ∧ (c ∉ exits stack → (s < e)%nat);
  iv_nested : nested iv (exits stack);
}.

Lemma iv_start : iv_ok [(root, false)] (replicate (length g) None) 0.
Proof.
  assert (Hnone : ∀ x i, replicate (length g) (@None (nat * nat)) !! x ≠ Some (Some i)).
  { intros x i [? ?]%lookup_replicate. done. }
  split.
  - apply length_replicate.
  - done.
  - repeat constructor. apply not_elem_of_nil.
  - by intros x []%not_elem_of_nil.
  - intros x Hx%list_elem_of_singleton. injection Hx as ->. split; [by intros [i []%Hnone]|].
    exists root. apply Hok.
  - by intros x [i []%Hnone].
  - by intros x c [i []%Hnone].
  - right. by left.
  - by intros c s e []%Hnone.
  - by intros a c sa ea sc ec []%Hnone.
Qed.

(** Opened blocks are closed upwards. *)
Lemma opened_above stack iv clock c d :
  iv_ok stack iv clock → above idom c d → opened iv c → opened iv d.
Proof.
  intros Hiv. induction 1 as [c|c p d Hc _ IH]; intros Ho; [done|]. apply IH.
  destruct (iv_opened _ _ _ Hiv _ Ho) as [_ [->|(q&Hq&Hqo)]].
  - rewrite (tree_root _ Hok) in Hc. by injection Hc as <-.
  - apply Hchild in Hq as [Hq _]. by replace p with q by congruence.
Qed.

Lemma nested_enter x stack iv clock :
  (x < length iv)%nat → iv_ok ((x, false) :: stack) iv clock → processed idom x → ¬ opened iv x →
  nested (<[x := Some (clock, clock)]> iv) (x :: exits stack).
Proof.
  intros Hx Hiv Hpx Hfresh a c sa ea sc ec Ha Hc.
  assert (Hexit : ∀ y, y ∈ exits stack → above idom x y).
  { intros y Hy. eapply stacked_exits; [apply Hiv|done]. }
  assert (Hxe : x ∉ exits stack).
  { intros Hin. by apply Hfresh, (iv_open _ _ _ Hiv). }
  destruct (decide (x = a)) as [<-|Hxa], (decide (x = c)) as [<-|Hxc];
    rewrite ?list_lookup_insert_eq in * by done; rewrite ?list_lookup_insert_ne in * by done.
  - simplify_eq. split; [split; [lia|constructor]|]. intros Hn. destruct Hn. by left.
  - simplify_eq. apply (iv_clock _ _ _ Hiv) in Hc as Hcl.
    assert (Hno : ¬ above idom c x).
    { intros Hab. apply Hfresh. eapply opened_above; [done..|]. by eexists. }
    split; [|intros Hn; destruct Hn; by left]. intros _. split; [done|lia].
  - simplify_eq. apply (iv_clock _ _ _ Hiv) in Ha as Hcl. split.
    + intros [->|Hin]%elem_of_cons; [done|]. split; [lia|]. intros _. by apply Hexit.
    + intros [_ Hn]%not_elem_of_cons.
      assert (Hno : ¬ above idom x a).
      { intros Hab. inversion Hab as [|? p ? Hp Hpa]; subst; [done|].
        assert (Hpar : p ∈ exits stack ∨ x = root).
        { destruct (stacked_parent (edge children) root ((x, false) :: stack) x false)
            as [->|(q&Hq&Hqe)]; [apply Hiv|by left|by right|]. left.
          apply Hchild in Hq as [Hq _]. by replace p with q by congruence. }
        destruct Hpar as [Hpe| ->]; [|by apply above_root in Hab].
        destruct (iv_open _ _ _ Hiv p Hpe) as [[sp ep] Hpo].
        destruct (iv_nested _ _ _ Hiv a p _ _ _ _ Ha Hpo) as [_ Hcl']. simpl in Hcl'.
        destruct (Hcl' Hn) as [_ Hout]. by destruct (Hout Hpa). }
      split; [|done]. split; [done|lia].
  - destruct (iv_nested _ _ _ Hiv a c _ _ _ _ Ha Hc) as [Ho Hcl]. simpl in *.
    split.
    + intros [->|Hin]%elem_of_cons; [done|]. by apply Ho.
    + intros [_ Hn]%not_elem_of_cons. destruct (Hcl Hn) as [? Hin]. split; [done|]. intros Hab.
      destruct (Hin Hab). split; [|done]. apply not_elem_of_cons. split; [|done]. by intros ->.
Qed.

Lemma iv_enter x next stack iv clock :
  children !! x = Some next → iv_ok ((x, false) :: stack) iv clock →
  iv_ok (((λ n, (n, false)) <$> next) ++ (x, true) :: stack) (<[x := Some (clock, clock)]> iv) (S clock).
Proof.
  intros Hnext Hiv.
  destruct (iv_pending _ _ _ Hiv x) as [Hfresh Hpx]; [by left|].
  assert (Hx : (x < length iv)%nat).
  { rewrite (iv_length _ _ _ Hiv), <- (tree_length _ Hok). by destruct Hpx as [? ?%lookup_lt_Some]. }
  assert (Hedge : ∀ c, c ∈ next ↔ edge children x c).
  { intros c. unfold edge. rewrite Hnext. clear. naive_solver. }
  assert (Hopen : ∀ y, opened (<[x := Some (clock, clock)]> iv) y ↔ y = x ∨ opened iv y).
  { intros y. by apply opened_insert. }
  assert (Hpush : ∀ y b, (y, b) ∈ ((λ n : nat, (n, false)) <$> next) ++ (x, true) :: stack ↔
    (y ∈ next ∧ b = false) ∨ (y = x ∧ b = true) ∨ (y, b) ∈ stack).
  { intros y b. rewrite elem_of_app, elem_of_cons, list_elem_of_fmap. clear. naive_solver. }
  assert (Hnew : ∀ c, c ∈ next → c ≠ x ∧ ¬ opened iv c ∧ c ∉ stack.*1).
  { intros c Hc%Hedge. assert (Hcx := proj2 (proj1 (Hchild _ _) Hc)).
    assert (Hno : ¬ opened iv c).
    { intros Ho. apply Hfresh. eapply (opened_above _ _ _ c x Hiv); [|done].
      apply Hchild in Hc as [Hc _]. eapply above_step; [done|constructor]. }
    split; [done|]. split; [done|]. intros Hin. apply list_elem_of_fmap in Hin as ([c' b]&->&Hin).
    simpl in *. apply Hfresh.
    destruct (stacked_parent (edge children) root ((x, false) :: stack) c' b) as [->|(p&Hp&Hpe)].
    - apply Hiv.
    - by right.
    - apply Hchild in Hc as [Hc _]. rewrite (tree_root _ Hok) in Hc. by injection Hc as ->.
    - apply (iv_open _ _ _ Hiv). apply Hchild in Hp as [Hp _]. apply Hchild in Hc as [Hc _].
      by replace x with p by congruence. }
  split.
  - by rewrite length_insert, (iv_length _ _ _ Hiv).
  - apply (stacked_pushed _ _ _ x); [done| |apply Hiv]. apply Forall_forall. intros y. by apply Hedge.
  - rewrite fmap_app, fmap_cons. apply NoDup_app. rewrite <- list_fmap_compose. simpl.
    rewrite list_fmap_id. split; [by eapply HNoDup|]. split; [|apply (iv_NoDup _ _ _ Hiv)].
    intros c Hc Hin. destruct (Hnew c Hc) as (?&_&?). by apply elem_of_cons in Hin as [|].
  - intros y. rewrite exits_pushed, exits_cons, Hopen, elem_of_cons. intros [->|Hy]; [by left|].
    right. by apply (iv_open _ _ _ Hiv).
  - intros y. rewrite Hpush, Hopen. intros [[Hy _]|[[_ ?]|Hy]]; [|done|].
    + destruct (Hnew y Hy) as (?&?&_). split; [by intros [|]|]. by apply Hedge, child_processed in Hy as [? _].
    + destruct (iv_pending _ _ _ Hiv y) as [? ?]; [by right|]. split; [|done]. intros [->|]; [|done].
      pose proof (iv_NoDup _ _ _ Hiv) as Hnd. apply NoDup_cons in Hnd as [Hnd _]. apply Hnd.
      apply list_elem_of_fmap. by exists (x, false).
  - intros y. rewrite Hopen. setoid_rewrite Hopen. intros [->|Hy].
    + split; [done|].
      destruct (stacked_parent (edge children) root ((x, false) :: stack) x false) as [->|(p&Hp&Hpe)];
        [apply Hiv|by left|by left|]. right. exists p. split; [done|]. right.
      by apply (iv_open _ _ _ Hiv).
    + destruct (iv_opened _ _ _ Hiv y Hy) as [? [->|(p&?&?)]]; split; eauto.
  - intros y c Hy Hc. rewrite Hpush. rewrite Hopen in *. destruct Hy as [->|Hy].
    + apply Hedge in Hc. auto.
    + destruct (iv_children _ _ _ Hiv y c Hy Hc) as [?|[Hcx|?]%elem_of_cons]; auto.
      injection Hcx as ->. auto.
  - rewrite Hpush, Hopen. destruct (iv_root _ _ _ Hiv) as [?|[Hcx|?]%elem_of_cons]; auto.
    injection Hcx as ->. auto.
  - intros c s e. rewrite exits_pushed, exits_cons. destruct (decide (x = c)) as [<-|Hne].
    + rewrite list_lookup_insert_eq by done. intros [= <- <-]. split; [lia|]. split; [lia|].
      intros Hn. destruct Hn. by left.
    + rewrite list_lookup_insert_ne by done. intros Hc. apply (iv_clock _ _ _ Hiv) in Hc as (?&?&Hcl).
      split; [lia|]. split; [lia|]. intros Hn. apply Hcl. simpl. by apply not_elem_of_cons in Hn as [_ ?].
  - rewrite exits_pushed, exits_cons. by apply nested_enter.
Qed.

Lemma iv_leave x stack iv clock s e :
  iv !! x = Some (Some (s, e)) → iv_ok ((x, true) :: stack) iv clock →
  iv_ok stack (<[x := Some (s, clock)]> iv) (S clock).
Proof.
  intros Hx Hiv. assert (Hxl : (x < length iv)%nat) by by eapply lookup_lt_Some.
  assert (Hopen : ∀ y, opened (<[x := Some (s, clock)]> iv) y ↔ opened iv y).
  { intros y. rewrite opened_insert by done. split; [|auto]. intros [->|]; [by eexists|done]. }
  pose proof (iv_NoDup _ _ _ Hiv) as Hnd. apply NoDup_cons in Hnd as [Hxs Hnd]. simpl in Hxs.
  assert (Hxe : x ∉ exits stack).
  { intros Hin%elem_of_exits. apply Hxs. apply list_elem_of_fmap. by exists (x, true). }
  split.
  - by rewrite length_insert, (iv_length _ _ _ Hiv).
  - apply Hiv.
  - done.
  - intros y Hy. apply Hopen, (iv_open _ _ _ Hiv). by right.
  - intros y Hy. rewrite Hopen. apply (iv_pending _ _ _ Hiv). by right.
  - intros y. rewrite Hopen. setoid_rewrite Hopen. apply (iv_opened _ _ _ Hiv).
  - intros y c. rewrite !Hopen. intros Hy Hc.
    by destruct (iv_children _ _ _ Hiv y c Hy Hc) as [?|[?|?]%elem_of_cons]; [left| |right].
  - rewrite Hopen. by destruct (iv_root _ _ _ Hiv) as [?|[?|?]%elem_of_cons]; [left| |right].
  - intros c s' e'. destruct (decide (x = c)) as [<-|Hne].
    + rewrite list_lookup_insert_eq by done. intros [= <- <-].
      apply (iv_clock _ _ _ Hiv) in Hx as (?&?&_). lia.
    + rewrite list_lookup_insert_ne by done. intros Hc. apply (iv_clock _ _ _ Hiv) in Hc as (?&?&Hcl).
      split; [lia|]. split; [lia|]. intros Hn. apply Hcl. rewrite exits_cons. by apply not_elem_of_cons.
  - intros a c sa ea sc ec Ha Hc.
    assert (Hexit : ∀ y, y ∈ exits stack → above idom x y).
    { intros y Hy. eapply stacked_exits; [apply Hiv|done]. }
    assert (Hcx := iv_clock _ _ _ Hiv x s e Hx).
    assert (Hcons : ∀ y, x ≠ y → y ∈ exits ((x, true) :: stack) ↔ y ∈ exits stack).
    { intros y Hy. rewrite exits_cons, elem_of_cons. split; [by intros [->|]|auto]. }
    destruct (decide (x = a)) as [<-|Hxa], (decide (x = c)) as [<-|Hxc];
      rewrite ?list_lookup_insert_eq in * by done; rewrite ?list_lookup_insert_ne in * by done.
    + simplify_eq. split; [done|]. intros _. split; [|by split].
      split; [lia|]. intros _. constructor.
    + simplify_eq. split; [done|]. intros _. assert (Hcc := iv_clock _ _ _ Hiv _ _ _ Hc).
      destruct (iv_nested _ _ _ Hiv x c _ _ _ _ Hx Hc) as [Ho _].
      assert (Hopx : x ∈ exits ((x, true) :: stack)) by by left. specialize (Ho Hopx).
      split; [rewrite Ho; lia|]. intros Hab. split; [|lia]. intros Hce%Hexit.
      apply Hxc. apply above_antisym; [|done..]. apply (iv_opened _ _ _ Hiv); by eexists.
    + simplify_eq. destruct (iv_nested _ _ _ Hiv a x _ _ _ _ Ha Hx) as [Ho Hcl].
      rewrite (Hcons a) in * by done. split; [done|]. intros Hn. destruct (Hcl Hn) as [Hiff Hin].
      split; [done|]. intros Hab. destruct (Hin Hab) as [Hnx _]. destruct Hnx. by left.
    + destruct (iv_nested _ _ _ Hiv a c _ _ _ _ Ha Hc) as [Ho Hcl]. by rewrite !Hcons in * by done.
Qed.

(** The intervals decide what is above what, for the blocks of the tree. *)
Definition intervals_exact (iv : intervals_t) : Prop :=
  length iv = length g ∧ (∀ x, opened iv x ↔ processed idom x) ∧
  ∀ a c i j, iv !! a = Some (Some i) → iv !! c = Some (Some j) →
    above idom c a ↔ (i.1 ≤ j.1 ∧ j.2 ≤ i.2)%nat.

Lemma iv_finished iv clock : iv_ok [] iv clock → intervals_exact iv.
Proof.
  intros Hiv. split; [apply Hiv|]. split.
  - intros x. split; [intros Hx; by apply (iv_opened _ _ _ Hiv)|]. intros Hx.
    assert (Hind : ∀ k y, (rk y < k)%nat → processed idom y → opened iv y).
    { induction k as [|k IH]; intros y Hy [p Hp]; [lia|].
      destruct (decide (y = root)) as [->|Hne].
      - by destruct (iv_root _ _ _ Hiv) as [?|[]%not_elem_of_nil].
      - assert (Hlt := tree_rank _ Hok _ _ Hp Hne).
        destruct (iv_children _ _ _ Hiv p y) as [?|[]%not_elem_of_nil]; [| |done].
        + apply IH; [lia|]. by apply (tree_reach _ Hok) in Hp as [_ ?].
        + apply Hchild. split; [done|]. intros ->. lia. }
    by apply (Hind (S (rk x))); [lia|].
  - intros a c [sa ea] [sc ec] Ha Hc. simpl.
    destruct (iv_nested _ _ _ Hiv a c _ _ _ _ Ha Hc) as [_ Hcl].
    destruct Hcl as [Hiff Hin]; [apply not_elem_of_nil|].
    destruct (iv_clock _ _ _ Hiv _ _ _ Hc) as (_&_&Hse). specialize (Hse (not_elem_of_nil c)).
    split; [intros Hab; destruct (Hin Hab); split; [by apply Hiff|done]|].
    intros [? ?]. apply Hiff. lia.
Qed.

Lemma interval_loop_spec fuel : ∀ stack iv clock s,
  enough fuel s → iv_ok stack iv clock →
  wp limit_error (interval_loop children fuel stack iv clock) (λ r _, intervals_exact r) s.
Proof.
  induction fuel as [|fuel IH]; intros stack iv clock s Hs Hiv; [unfold enough in Hs; lia|].
  destruct stack as [|[x exiting] stack]; cbn [interval_loop]; [by eapply wp_ret, iv_finished|].
  apply wp_bind, wp_charge; [done|]. intros Hw. apply enough_charge in Hs; [|done].
  destruct exiting.
  - destruct (iv_open _ _ _ Hiv x) as [[si ei] Hx]; [by left|].
    apply wp_bind. eapply wp_at; [done|]. apply wp_bind. eapply wp_expect; [done|].
    apply IH; [done|]. by eapply iv_leave.
  - destruct (iv_pending _ _ _ Hiv x) as [_ Hp]; [by left|].
    destruct (lookup_lt_is_Some_2 children x) as [next Hnext].
    { rewrite Hlen, <- (tree_length _ Hok). by destruct Hp as [? ?%lookup_lt_Some]. }
    apply wp_bind. eapply wp_at; [done|]. apply IH; [done|]. by apply iv_enter.
Qed.
End intervals.
End idom.

(** ** The children of the tree *)

Lemma add_children_spec n rest : ∀ block children s,
  length children = n → Forall (λ o, ∀ p, o = Some p → (p < n)%nat) rest →
  wp limit_error (add_children block rest children) (λ r _,
    length r = n ∧
    (∀ p c, edge r p c ↔ edge children p c ∨
       ((block ≤ c)%nat ∧ rest !! (c - block)%nat = Some (Some p) ∧ c ≠ p)) ∧
    ((∀ p l, children !! p = Some l → NoDup l ∧ Forall (λ c, (c < block)%nat) l) →
     ∀ p l, r !! p = Some l → NoDup l)) s.
Proof.
  induction rest as [|o rest IH]; intros block children s Hlen Hrest; simpl.
  { apply wp_ret. split; [done|]. split; [|by intros Hn p l [? _]%Hn].
    intros p c. split; [auto|]. by intros [?|(_&?&_)]. }
  apply Forall_cons in Hrest as [Ho Hrest]. apply wp_bind, wp_charge; [done|]. intros _.
  set (children' := match o with
                    | Some p => if (p =? block)%nat then children else push_at p block children
                    | None => children
                    end).
  assert (Hlen' : length children' = n).
  { subst children'. destruct o; [destruct (_ =? _)%nat|]; [done| |done].
    unfold push_at. by rewrite length_alter. }
  assert (He : ∀ p c, edge children' p c ↔ edge children p c ∨ (c = block ∧ o = Some p ∧ c ≠ p)).
  { intros p c. subst children'. clear -Ho Hlen. destruct o as [q|].
    - destruct (Nat.eqb_spec q block) as [->|Hq].
      + split; [auto|]. by intros [?|(->&[= ->]&?)].
      + rewrite push_at_edge by (rewrite Hlen; auto). split.
        * intros [?|[-> ->]]; auto.
        * intros [?|(->&[= ->]&_)]; auto.
    - split; [auto|]. by intros [?|(_&?&_)]. }
  eapply wp_mono; [|by apply (IH (S block) children')].
  intros r _ (Hr&Hedge&Hnd). split; [done|]. split.
  - intros p c. rewrite Hedge, He. split.
    + intros [[?|(->&->&?)]|(?&Hc&?)]; [by left|right|right].
      * by rewrite Nat.sub_diag.
      * split; [lia|]. split; [|done]. by replace (c - block)%nat with (S (c - S block)) by lia.
    + intros [?|(Hle&Hc&?)]; [auto|]. destruct (decide (c = block)) as [->|Hne].
      * rewrite Nat.sub_diag in Hc. injection Hc as ->. auto.
      * right. split; [lia|]. by replace (c - block)%nat with (S (c - S block)) in Hc by lia.
  - intros Hch. apply Hnd. intros p l Hl. subst children'.
    assert (Hkeep : ∀ l, children !! p = Some l → NoDup l ∧ Forall (λ c, (c < S block)%nat) l).
    { intros l' Hl'. destruct (Hch p l' Hl') as [? Hf]. split; [done|].
      eapply Forall_impl; [done|]. simpl. lia. }
    destruct o as [q|]; [|auto]. destruct (q =? block)%nat; [auto|].
    rewrite push_at_lookup in Hl. destruct (decide (q = p)) as [->|]; [|auto].
    apply fmap_Some in Hl as (l'&Hl'&->). destruct (Hch p l' Hl') as [Hnl Hf]. split.
    + apply NoDup_app. split; [done|]. split; [|apply NoDup_singleton].
      intros c Hc ->%list_elem_of_singleton. rewrite Forall_forall in Hf. apply Hf in Hc. lia.
    + apply Forall_app. split; [|by repeat constructor]. by apply Hkeep.
Qed.

(** ** The graph of a function *)

(** What the structural checks establish before the analysis: distinct blocks, an entry, and
    terminators that branch to blocks of the function. *)
Record structured (f : Function) : Prop := {
  str_NoDup : NoDup (block_id <$> blocks f);
  str_entry : entry f ∈ block_id <$> blocks f;
  str_targets b : b ∈ blocks f → ∃ t, block_terminator b = Some t ∧
    ∀ target, target ∈ branch_targets t → target ∈ block_id <$> blocks f;
}.

(** The control flow between the positions of the blocks. *)
Definition flow (f : Function) (i j : nat) : Prop :=
  ∃ b t b', blocks f !! i = Some b ∧ block_terminator b = Some t ∧
    blocks f !! j = Some b' ∧ block_id b' ∈ branch_targets t.
Definition is_entry (f : Function) (i : nat) : Prop :=
  ∃ b, blocks f !! i = Some b ∧ block_id b = entry f.

Lemma block_indices_lookup f t i :
  NoDup (block_id <$> blocks f) →
  block_indices f !! t = Some i ↔ ∃ b, blocks f !! i = Some b ∧ block_id b = t.
Proof.
  intros Hn. unfold block_indices.
  assert (Hfst : (imap (λ i b, (block_id b, i)) (blocks f)).*1 = block_id <$> blocks f).
  { rewrite fmap_imap. apply list_eq. intros k. rewrite list_lookup_imap, list_lookup_fmap.
    by destruct (blocks f !! k). }
  assert (Hin : ∀ t i, (t, i) ∈ imap (λ i b, (block_id b, i)) (blocks f) ↔
    ∃ b, blocks f !! i = Some b ∧ block_id b = t).
  { intros t' i'. rewrite elem_of_lookup_imap. naive_solver. }
  split.
  - intros Hi%collect_lookup_Some. by apply Hin.
  - intros Hb%Hin. apply collect_lookup_NoDup; [by rewrite Hfst|done].
Qed.

Lemma analyse_spec g preds root s :
  mirrored (length g) g preds → (root < length g)%nat → (∀ x, ¬ edge g x root) →
  wp limit_error (analyse g preds root) (λ r _,
    length r.1 = length g ∧ length r.2 = length g ∧
    (∀ i, processed r.1 i ↔ reachable (edge g) root i) ∧
    (∀ i, opened r.2 i ↔ reachable (edge g) root i) ∧
    ∀ d u i j, r.2 !! d = Some (Some i) → r.2 !! u = Some (Some j) →
      (i.1 ≤ j.1 ∧ j.2 ≤ i.2)%nat ↔ dominator (edge g) root d u) s.
Proof.
  intros Hm Hroot Hno. unfold analyse. cbv zeta.
  assert (Hbound : ∀ i j, edge g i j → (j < length g)%nat).
  { intros i j He. by apply (mirror_bound _ _ _ Hm) in He as [_ ?]. }
  apply wp_bind, wp_fuelled. intros fuel Hfuel.
  eapply wp_mono; [|apply (dfs_loop_spec g root); [done..|by apply dfs_start]].
  intros order s1 Hpost. clear fuel Hfuel.
  apply postorder_ranked in Hpost as Hr; [|intros x; by apply reachable_bound].
  set (rank := ranks (length g) (rev order)) in *. set (rk := λ x, _) in Hr.
  apply wp_bind, wp_fuelled. intros fuel Hfuel.
  eapply wp_mono; [|eapply idom_loop_spec; [done..|by eapply tree_start]].
  intros idom s2 [Htree Hreach Hdom]. clear fuel Hfuel.
  apply wp_bind. eapply wp_mono; [|apply (add_children_spec (length g)); [apply length_replicate|]].
  2: { apply Forall_forall. intros o Ho p ->. apply list_elem_of_lookup in Ho as [b Hb].
       assert (Hp : processed idom p) by exact (proj2 (tree_reach _ _ _ _ Htree _ _ Hb)).
       by eapply processed_bound. }
  intros children s3 (Hlen&Hchild&Hnd). simpl in Hchild.
  assert (Hch : ∀ p c, edge children p c ↔ idom !! c = Some (Some p) ∧ c ≠ p).
  { intros p c. rewrite Hchild, Nat.sub_0_r. split; [|intros [? ?]; right; split; [lia|done]].
    by intros [(l&[-> _]%lookup_replicate&[]%not_elem_of_nil)|(_&?&?)]. }
  assert (Hndc : ∀ p l, children !! p = Some l → NoDup l).
  { apply Hnd. intros p l [-> _]%lookup_replicate. split; [constructor|done]. }
  apply wp_bind, wp_fuelled. intros fuel Hfuel.
  eapply wp_mono; [|eapply (interval_loop_spec g preds root (rev order) rank rk); try done].
  - intros iv s4 (Hli&Hopen&Hiv). apply wp_ret. cbn [fst snd].
    assert (Ho : ∀ i, opened iv i ↔ reachable (edge g) root i) by (intros i; by rewrite Hopen).
    split_and!; try done; [apply Htree|]. intros d u i j Hd Hu. rewrite <- (Hiv d u i j Hd Hu).
    apply Hdom, Ho. by exists j.
  - by eapply (iv_start g preds root (rev order) rank rk).
Qed.

Section function.
Context (f : Function) (Hf : structured f).
#[local] Set Default Proof Using "Type*".
#[local] Notation n := (length (blocks f)).

Lemma index_bound t i : block_indices f !! t = Some i → (i < n)%nat.
Proof. intros (b&Hb&_)%block_indices_lookup; [by eapply lookup_lt_Some|apply Hf]. Qed.
Lemma index_known t : t ∈ block_id <$> blocks f → is_Some (block_indices f !! t).
Proof.
  intros (b&->&Hb)%list_elem_of_fmap. apply list_elem_of_lookup in Hb as [i Hi].
  exists i. apply block_indices_lookup; [apply Hf|]. by exists b.
Qed.

Lemma branches_flow b i j :
  blocks f !! i = Some b → branches (block_indices f) b j ↔ flow f i j.
Proof.
  intros Hb. unfold branches, flow. split.
  - intros (t&target&Ht&Hin&(b'&Hb'&<-)%block_indices_lookup); [|apply Hf]. by exists b, t, b'.
  - intros (b0&t&b'&Hb0&Ht&Hb'&Hin). simplify_eq. exists t, (block_id b'). split; [done|].
    split; [done|]. apply block_indices_lookup; [apply Hf|]. by exists b'.
Qed.

Lemma mirrored_start m : mirrored m (replicate m []) (replicate m []).
Proof.
  assert (Hno : ∀ i j, ¬ edge (replicate m []) i j).
  { intros i j (l&[-> _]%lookup_replicate&[]%not_elem_of_nil). }
  split.
  - by rewrite length_replicate.
  - intros i j. split; by intros ?%Hno.
  - by intros i j ?%Hno.
  - intros j l [-> _]%lookup_replicate. constructor.
Qed.

(** The graph the analysis builds is the control flow of the function, its tree and intervals
    are the dominator tree. *)
Record cfg_exact (c : Cfg) (root : nat) : Prop := {
  exact_indices t i : indices c !! t = Some i ↔ ∃ b, blocks f !! i = Some b ∧ block_id b = t;
  exact_root : is_entry f root ∧ ∀ i, ¬ flow f i root;
  exact_edge i j : edge (successors_of c) i j ↔ flow f i j;
  exact_mirror : mirrored n (successors_of c) (predecessors_of c);
  exact_idom : length (idom_of c) = n ∧ length (intervals c) = n;
  exact_reachable i : processed (idom_of c) i ↔ reachable (flow f) root i;
  exact_opened i : opened (intervals c) i ↔ reachable (flow f) root i;
  exact_dominator d u i j : intervals c !! d = Some (Some i) → intervals c !! u = Some (Some j) →
    (i.1 ≤ j.1 ∧ j.2 ≤ i.2)%nat ↔ dominator (flow f) root d u;
}.

(** The only failure beside an exhausted budget is a branch to the entry. *)
Definition entry_error (e : verify_err) : Prop :=
  limit_error e ∨ ∃ p root, is_entry f root ∧ flow f p root ∧
    ∃ b, blocks f !! p = Some b ∧
      e = VerifyError.EntryHasPredecessor (function_name f) (entry f) (block_id b).

Lemma new_cfg_spec s : wp entry_error (new_cfg f) (λ c _, ∃ root, cfg_exact c root) s.
Proof.
  unfold new_cfg. apply wp_bind.
  eapply wp_errors; [by left| |apply (add_blocks_spec (block_indices f) n index_bound)];
    [|lia|apply mirrored_start|..].
  2: { intros a j (l&[-> _]%lookup_replicate&[]%not_elem_of_nil). }
  2: { apply Forall_forall. intros b Hb. destruct (str_targets _ Hf b Hb) as (t&Ht&Hts).
       exists t. split; [done|]. intros target Htg. by apply index_known, Hts. }
  intros [g preds] s1 [Hm He]. cbn [fst snd] in *.
  assert (Hg : ∀ i j, edge g i j ↔ flow f i j).
  { intros i j. rewrite He. split.
    - intros [(l&[-> _]%lookup_replicate&[]%not_elem_of_nil)|(k&b&Hb&->&Hbr)].
      by apply (branches_flow _ _ _ Hb).
    - intros Hfl. pose proof Hfl as (b&_&_&Hb&_). right. exists i, b.
      split; [done|]. split; [done|]. by apply (branches_flow _ _ _ Hb). }
  destruct (index_known _ (str_entry _ Hf)) as [root Hroot].
  apply wp_bind. eapply wp_expect; [done|].
  apply block_indices_lookup in Hroot as Hentry; [|apply Hf].
  assert (Hrn := index_bound _ _ Hroot).
  pose proof (mirror_lengths _ _ _ Hm) as [Hlg Hlp].
  destruct (lookup_lt_is_Some_2 preds root) as [ps Hps]; [by rewrite Hlp|].
  apply wp_bind. eapply wp_at; [done|].
  assert (Hps' := mirror_pred _ _ _ _ _ Hm Hps). apply wp_bind. destruct ps as [|p ps].
  2: { assert (Hp : edge g p root) by (apply Hps'; by left).
       destruct (lookup_lt_is_Some_2 (blocks f) p) as [b Hb]; [by apply (mirror_bound _ _ _ Hm) in Hp as [? _]|].
       apply wp_bind. eapply wp_at; [done|]. apply wp_throw. right. exists p, root.
       split; [done|]. split; [by apply Hg|]. by exists b. }
  apply wp_ret.
  assert (Hnoroot : ∀ x, ¬ edge g x root) by (by intros x []%Hps'%not_elem_of_nil).
  rewrite <- Hlg in *. pose proof (analyse_spec g preds root s1 Hm Hrn Hnoroot) as Ha.
  apply wp_bind. eapply wp_errors; [by left| |exact Ha].
  intros [idom iv] s2 (Hli&Hlv&Hreach&Hopen&Hdom). cbn [fst snd] in *.
  apply wp_ret. exists root. split; cbn [indices successors_of predecessors_of idom_of intervals].
  - intros t i. apply block_indices_lookup, Hf.
  - split; [done|]. intros i Hi%Hg. by apply Hnoroot in Hi.
  - done.
  - by rewrite <- Hlg.
  - by rewrite <- Hlg.
  - intros i. rewrite Hreach. by apply reachable_iff.
  - intros i. rewrite Hopen. by apply reachable_iff.
  - intros d u i j Hd Hu. rewrite (Hdom d u i j Hd Hu). by apply dominator_iff.
Qed.
End function.
