(* ===== verification/Ssa.v ===== *)
(** * The uses of values ([verifier/cfg.rs])

    What it means that a function is in SSA form with respect to its control flow: every use of a
    value in a reachable block comes after its definition on every way to the use, and every phi has
    one input for each predecessor.  The check of the verifier decides it, up to its budget. *)
From S2P Require Export Dominators.
Local Open Scope Z_scope.

Definition is_phi_instruction (ins : instruction) : bool :=
  match ins with Instruction.Phi _ _ _ => true | _ => false end.

Lemma drop_lookup_head {A} (l : list A) x xs i : x :: xs = drop i l → l !! i = Some x.
Proof. intros Hd. pose proof (lookup_drop l i 0) as Hl. rewrite <- Hd, Nat.add_0_r in Hl. done. Qed.
Lemma drop_tail {A} (l : list A) x xs i : x :: xs = drop i l → xs = drop (S i) l.
Proof. intros Hd. by rewrite <- Nat.add_1_r, <- drop_drop, <- Hd. Qed.
Lemma drop_nil_inv {A} (l : list A) i : drop i l = [] → (length l ≤ i)%nat.
Proof. intros Hd%(f_equal length). rewrite length_drop in Hd. simpl in Hd. lia. Qed.

(** ** Deciding a property within the budget *)

(** An operation that succeeds exactly if [P], and fails otherwise or when the budget is
    exhausted. *)
Definition decides_ (P : Prop) (op : analysis unit) : Prop := ∀ s,
  wp (λ e, limit_error e ∨ ¬ P) op (λ _ _, P) s.

Lemma decides_and P P' op op' :
  decides_ P op → (P → decides_ P' op') → decides_ (P ∧ P') (_ ← op; op').
Proof.
  intros H1 H2 s. apply wp_bind. eapply wp_errors; [| |apply H1].
  - intros e [?|?]; [by left|right; tauto].
  - intros [] s' HP. eapply wp_errors; [| |by apply H2].
    + intros e [?|?]; [by left|right; tauto].
    + done.
Qed.
Lemma decides_iff P P' op : (P ↔ P') → decides_ P op → decides_ P' op.
Proof.
  intros HP Hop s. eapply wp_errors; [| |apply Hop]; [|by intros _ _ ?%HP].
  intros e [?|?]; [by left|right; tauto].
Qed.
#[global] Instance decides_proper : Proper (iff ==> eq ==> iff) decides_.
Proof. intros P P' HP op ? <-. split; by apply decides_iff. Qed.
Lemma decides_true op : op = mret tt → decides_ True op.
Proof. intros -> s. by apply wp_ret. Qed.
Lemma decides_false op e : op = throw e → decides_ False op.
Proof. intros -> s. apply wp_throw. right. tauto. Qed.
Lemma decides_charge P op : decides_ P op → decides_ P (_ ← charge_analysis; op).
Proof. intros Hop s. apply wp_bind, wp_charge; [auto|]. intros _. apply Hop. Qed.
Lemma decides_guard P (b : bool) e op :
  (P → b = false) → (b = false → decides_ P op) → decides_ P (if b then throw e else op).
Proof.
  intros Hb Hop. destruct b; [|auto]. intros s. apply wp_throw. right. intros HP. by apply Hb in HP.
Qed.
Lemma decides_at {A} P (l : list A) i x (k : A → analysis unit) :
  l !! i = Some x → decides_ P (k x) → decides_ P (y ← at_ l i; k y).
Proof. intros Hl Hk s. apply wp_bind. eapply wp_at; [done|]. apply Hk. Qed.
Lemma decides_expect {A} P (o : option A) x (k : A → analysis unit) :
  o = Some x → decides_ P (k x) → decides_ P (y ← lift (expect o); k y).
Proof. intros -> Hk s. apply wp_bind. apply Hk. Qed.
Lemma decides_lift P (r : checked_ unit) :
  r ≠ Panic → (r = Ok tt ↔ P) → decides_ P (lift r).
Proof.
  intros Hp HP s. apply wp_lift; [done| |by intros [] ?%HP].
  intros e ->. right. rewrite <- HP. done.
Qed.
Lemma decides_lift_bind {A} P (r : checked_ A) x (k : A → analysis unit) :
  r = Ok x → decides_ P (k x) → decides_ P (y ← lift r; k y).
Proof. intros -> Hk s. apply wp_bind, Hk. Qed.
Lemma decides_and_then P P' op (op' : analysis unit) :
  decides_ P op → (P → decides_ P' op') → (P' → P) → decides_ P' (_ ← op; op').
Proof.
  intros H1 H2 H3. eapply (decides_iff (P ∧ P')); [tauto|]. by apply decides_and.
Qed.

Section ssa.
Context (f : IndexedFunction).
#[local] Notation fn := (indexed f).

(** The value can be used at the position: a parameter, or defined earlier in the block, or in a
    block on every way to this one. *)
Definition usable (i pos : nat) (v : ValueId) : Prop :=
  is_Some (definitions_of fn !! v) ∧
  ∀ root db dp, is_entry fn root → reachable (flow fn) root i →
    definitions_of fn !! v = Some (Some (db, dp)) →
    if decide (db = i) then (dp < pos)%nat else dominator (flow fn) root db i.

Record phi_ok (i : nat) (b : BasicBlock) (pos : nat) (t : ty) (incomings : list (ValueId * BlockId))
    : Prop := {
  phi_first k ins : (k < pos)%nat → instructions b !! k = Some ins → is_phi_instruction ins = true;
  phi_entry : block_id b ≠ entry fn;
  phi_storable : is_storable t = true;
  phi_nonempty : incomings ≠ [];
  phi_distinct : NoDup incomings.*2;
  phi_predecessors p : p ∈ incomings.*2 ↔ ∃ j b', blocks fn !! j = Some b' ∧ block_id b' = p ∧ flow fn j i;
  phi_inputs_ok v p j b' : (v, p) ∈ incomings → blocks fn !! j = Some b' → block_id b' = p →
    type_of f v = Some t ∧ usable j (length (instructions b')) v;
}.

Record ssa_ok : Prop := {
  ssa_entry root i : is_entry fn root → ¬ flow fn i root;
  ssa_uses i b pos ins uses v :
    blocks fn !! i = Some b → instructions b !! pos = Some ins → is_phi_instruction ins = false →
    instr_uses ins = Ok uses → v ∈ uses → usable i pos v;
  ssa_phi i b pos dst t incomings :
    blocks fn !! i = Some b → instructions b !! pos = Some (Instruction.Phi dst t incomings) →
    phi_ok i b pos t incomings;
  ssa_terminator i b t v :
    blocks fn !! i = Some b → block_terminator b = Some t → terminator_use t = Some v →
    usable i (length (instructions b)) v;
}.

(** ** The check decides it *)

Context (Hf : structured fn).
#[local] Set Default Proof Using "Type*".

Lemma entry_unique r r' : is_entry fn r → is_entry fn r' → r = r'.
Proof.
  intros (b&Hb&He) (b'&Hb'&He').
  assert (H1 : block_indices fn !! entry fn = Some r) by (apply block_indices_lookup; [apply Hf|eauto]).
  assert (H2 : block_indices fn !! entry fn = Some r') by (apply block_indices_lookup; [apply Hf|eauto]).
  congruence.
Qed.


Lemma definitions_lookup v db dp :
  definitions_of fn !! v = Some (Some (db, dp)) →
  ∃ b ins t, blocks fn !! db = Some b ∧ instructions b !! dp = Some ins ∧
    instr_result ins = Some (v, t).
Proof.
  intros Hv%collect_lookup_Some. apply elem_of_app in Hv as [Hv|Hv].
  { by apply list_elem_of_fmap in Hv as (p&[=]&_). }
  apply list_elem_of_join in Hv as (l&Hv&Hl). apply elem_of_lookup_imap in Hl as (i&b&->&Hb).
  unfold block_definitions in Hv. apply list_elem_of_omap in Hv as (o&Ho&->).
  apply elem_of_lookup_imap in Ho as (k&ins&Hk&Hins). destruct (instr_result ins) as [[v' t]|] eqn:E; [|done].
  simpl in Hk. injection Hk as -> -> ->. by exists b, ins, t.
Qed.

Section available.
Context (c : Cfg) (root : nat) (Hc : cfg_exact fn c root).

Lemma dominates_spec d i s :
  (d < length (blocks fn))%nat → reachable (flow fn) root i →
  wp limit_error (dominates c d i) (λ r _, r = true ↔ dominator (flow fn) root d i) s.
Proof.
  intros Hd Hi. unfold dominates. apply wp_bind, wp_charge; [done|]. intros _.
  apply wp_bind. simpl. destruct (exact_idom _ _ _ Hc) as [_ Hlv].
  destruct (lookup_lt_is_Some_2 (intervals c) d) as [od Hod]; [by rewrite Hlv|].
  pose proof (proj2 (exact_opened _ _ _ Hc i) Hi) as [u Hu].
  apply wp_bind. eapply wp_at; [done|]. apply wp_bind. eapply wp_at; [done|]. apply wp_ret.
  destruct od as [[ds de]|]; simpl.
  - destruct u as [us ue]. rewrite <- (exact_dominator _ _ _ Hc d i _ _ Hod Hu). simpl.
    by rewrite andb_true_iff, !Nat.leb_le.
  - split; [done|]. intros Hdom. assert (Hr : reachable (flow fn) root d) by by eapply dominator_reachable.
    apply (exact_opened _ _ _ Hc) in Hr as [j Hj]. congruence.
Qed.

Lemma available_decides v i pos :
  (i < length (blocks fn))%nat →
  decides_ (usable i pos v) (available f c (definitions_of fn) v i pos).
Proof.
  intros Hi. unfold available, usable. pose proof (proj1 (exact_root _ _ _ Hc)) as Hroot.
  destruct (definitions_of fn !! v) as [d|] eqn:Ed; [|intros s; apply wp_throw; right; intros [[d Hd] _]; discriminate Hd].
  destruct (exact_idom _ _ _ Hc) as [Hli Hlv].
  destruct (lookup_lt_is_Some_2 (idom_of c) i) as [o Ho]; [by rewrite Hli|].
  eapply (decides_expect _ (Some d)); [done|]. eapply decides_at; [done|].
  assert (Hreach : reachable (flow fn) root i ↔ o ≠ None).
  { rewrite <- (exact_reachable _ _ _ Hc). unfold processed. rewrite Ho.
    destruct o; naive_solver. }
  destruct o as [q|].
  2: { eapply decides_iff; [|by apply decides_true]. split; [|done]. intros _. split; [by eexists|].
       intros r db dp Hr Hri _. rewrite (entry_unique r root) in Hri by done.
       by apply Hreach in Hri. }
  assert (Hri : reachable (flow fn) root i) by by apply Hreach.
  destruct d as [[db dp]|].
  2: { eapply decides_iff; [|by apply decides_true]. split; [|done]. intros _. by split; [eexists|]. }
  destruct (definitions_lookup _ _ _ Ed) as (b&ins&t&Hb&_&_).
  assert (Hdom : ∀ P : Prop, (P ↔ if decide (db = i) then (dp < pos)%nat else dominator (flow fn) root db i) →
    (is_Some (Some (Some (db, dp))) ∧ (∀ r db' dp', is_entry fn r → reachable (flow fn) r i →
       Some (Some (db, dp)) = Some (Some (db', dp')) →
       if decide (db' = i) then (dp' < pos)%nat else dominator (flow fn) r db' i)) ↔ P).
  { intros P ->. split.
    - intros [_ HH]. by apply (HH root).
    - intros HP. split; [by eexists|]. intros r db' dp' Hr _ [= <- <-].
      by rewrite (entry_unique r root) by done. }
  set (cond := if decide (db = i) then (dp < pos)%nat else dominator (flow fn) root db i) in Hdom.
  eapply decides_iff; [symmetry; by apply (Hdom cond)|]. clear Hdom.
  intros s. apply wp_bind. eapply (wp_errors limit_error _ _ (λ valid _, valid = true ↔ cond)).
  { by left. }
  2: { subst cond. destruct (Nat.eqb_spec db i) as [->|Hne].
       - apply wp_ret. rewrite decide_True by done. by rewrite Nat.ltb_lt.
       - rewrite decide_False by done. apply dominates_spec; [by eapply lookup_lt_Some|done]. }
  intros valid s' Hvalid. destruct valid; [by apply wp_ret, Hvalid|].
  destruct (lookup_lt_is_Some_2 (blocks fn) i Hi) as [b' Hb'].
  apply wp_bind. eapply wp_at; [done|]. apply wp_throw. right. by intros ?%Hvalid.
Qed.

Lemma all_available_decides vs i pos :
  (i < length (blocks fn))%nat →
  decides_ (∀ v, v ∈ vs → usable i pos v) (all_available f c (definitions_of fn) vs i pos).
Proof.
  intros Hi. induction vs as [|v vs IH]; simpl.
  - eapply decides_iff; [|by apply decides_true]. split; [|done]. by intros _ v []%not_elem_of_nil.
  - eapply decides_iff; [|apply decides_and; [by apply available_decides|intros _; exact IH]].
    setoid_rewrite elem_of_cons. split; [intros [Hv Hvs] w [->|Hw]; auto|]. auto.
Qed.

Lemma verify_operand_decides v t :
  verify_operand f v t ≠ Panic ∧ (verify_operand f v t = Ok tt ↔ type_of f v = Some t).
Proof.
  unfold verify_operand, typed_value. destruct (type_of f v) as [got|]; [|done]. simpl.
  unfold guard_err. case_bool_decide as Ht; split; try done; [by rewrite Ht|].
  split; [done|]. by intros [= ->].
Qed.

(** *** Phis *)

(** The inputs of a phi, given the predecessors already seen. *)
Record inputs_ok (i : nat) (t : ty) (seen : gset nat) (incs : list (ValueId * BlockId)) : Prop := {
  in_distinct : NoDup incs.*2;
  in_predecessors p : p ∈ incs.*2 →
    ∃ j b', blocks fn !! j = Some b' ∧ block_id b' = p ∧ flow fn j i ∧ j ∉ seen;
  in_inputs v p j b' : (v, p) ∈ incs → blocks fn !! j = Some b' → block_id b' = p →
    type_of f v = Some t ∧ usable j (length (instructions b')) v;
}.
Definition seen_after (seen : gset nat) (incs : list (ValueId * BlockId)) (seen' : gset nat) : Prop :=
  (∀ j, j ∈ seen' ↔ j ∈ seen ∨ ∃ b', blocks fn !! j = Some b' ∧ block_id b' ∈ incs.*2) ∧
  base.size seen' = (base.size seen + length incs)%nat.

Lemma block_position j j' b b' :
  blocks fn !! j = Some b → blocks fn !! j' = Some b' → block_id b = block_id b' → j = j' ∧ b = b'.
Proof.
  intros Hj Hj' Hid. assert (j = j') as ->.
  { eapply NoDup_lookup; [apply (str_NoDup _ Hf)|..].
    - by rewrite list_lookup_fmap, Hj.
    - rewrite list_lookup_fmap, Hj'. simpl. by rewrite Hid. }
  split; [done|congruence].
Qed.

Lemma inputs_cons i t seen v j b' incs :
  blocks fn !! j = Some b' → j ∉ seen → flow fn j i → type_of f v = Some t →
  usable j (length (instructions b')) v →
  inputs_ok i t ({[j]} ∪ seen) incs → inputs_ok i t seen ((v, block_id b') :: incs).
Proof.
  intros Hj Hns Hfl Ht Hu [Hd Hp Hin]. split; simpl.
  - constructor; [|done]. intros Hpin. destruct (Hp _ Hpin) as (j'&b''&Hj'&Hid&_&Hns').
    destruct (block_position _ _ _ _ Hj' Hj Hid) as [-> ->]. apply Hns'. set_solver.
  - intros p [->|Hpin]%elem_of_cons; [by exists j, b'|].
    destruct (Hp _ Hpin) as (j'&b''&?&?&?&?). exists j', b''. split_and!; try done. set_solver.
  - intros w p j' b'' [[= -> ->]|Hw]%elem_of_cons Hj' Hid; [|by eapply Hin].
    by destruct (block_position _ _ _ _ Hj' Hj Hid) as [-> ->].
Qed.
Lemma inputs_cons_inv i t seen v j b' incs :
  blocks fn !! j = Some b' → inputs_ok i t seen ((v, block_id b') :: incs) →
  j ∉ seen ∧ flow fn j i ∧ type_of f v = Some t ∧ usable j (length (instructions b')) v ∧
  inputs_ok i t ({[j]} ∪ seen) incs.
Proof.
  intros Hj [Hd Hp Hin]. simpl in *. apply NoDup_cons in Hd as [Hnew Hd].
  destruct (Hp (block_id b')) as (j0&b0&Hj0&Hid&Hfl&Hns); [by left|].
  destruct (block_position _ _ _ _ Hj0 Hj Hid) as [-> ->].
  destruct (Hin v (block_id b') j b') as [Ht Hu]; [by left|done..|].
  split_and!; try done. split; [done| |].
  - intros p Hpin. destruct (Hp p) as (j'&b''&Hj'&Hid'&Hfl'&Hns'); [by right|].
    exists j', b''. split_and!; try done. apply not_elem_of_union. split; [|done].
    intros ->%elem_of_singleton. apply Hnew. simplify_eq. done.
  - intros w p j' b'' Hw. apply Hin. by right.
Qed.

Lemma phi_inputs_spec i t invalid incs : ∀ seen s,
  (i < length (blocks fn))%nat →
  wp (λ e, limit_error e ∨ ¬ inputs_ok i t seen incs)
    (phi_inputs f c (definitions_of fn) i t invalid seen incs)
    (λ seen' _, inputs_ok i t seen incs ∧ seen_after seen incs seen') s.
Proof.
  induction incs as [|[v p] incs IH]; intros seen s Hi; cbn [phi_inputs].
  { apply wp_ret. split; [split; simpl|].
    - constructor.
    - by intros p []%not_elem_of_nil.
    - by intros v p j b' []%not_elem_of_nil.
    - split; [|simpl; lia]. intros j. split; [auto|]. by intros [|(?&_&[]%not_elem_of_nil)]. }
  apply wp_bind, wp_charge; [auto|]. intros _. apply wp_bind.
  destruct (indices c !! p) as [j|] eqn:Ej.
  2: { apply wp_throw. right. intros Hok. destruct (in_predecessors _ _ _ _ Hok p) as (j&b'&Hj&Hid&_).
       - by left.
       - assert (indices c !! p = Some j) by (apply (exact_indices _ _ _ Hc); eauto). congruence. }
  simpl. apply (exact_indices _ _ _ Hc) in Ej as (b'&Hj&<-).
  pose proof (exact_mirror _ _ _ Hc) as Hm.
  destruct (lookup_lt_is_Some_2 (predecessors_of c) i) as [ps Hps].
  { by rewrite (proj2 (mirror_lengths _ _ _ Hm)). }
  apply wp_bind. eapply wp_at; [done|].
  assert (Hfl : j ∈ ps ↔ flow fn j i).
  { by rewrite (mirror_pred _ _ _ _ _ Hm Hps), (exact_edge _ _ _ Hc). }
  case_bool_decide as Hjp; cbn [negb].
  2: { apply wp_throw. right. intros Hok. apply inputs_cons_inv with (j := j) in Hok as (_&?&_); [|done].
       by apply Hjp, Hfl. }
  case_bool_decide as Hjs.
  { apply wp_throw. right. intros Hok. by apply inputs_cons_inv with (j := j) in Hok as (?&_); [|done]. }
  destruct (verify_operand_decides v t) as [Hnp Hty]. apply wp_bind, wp_lift; [done| |].
  { intros e He. right. intros Hok. apply inputs_cons_inv with (j := j) in Hok as (_&_&Ht&_); [|done].
    apply Hty in Ht. congruence. }
  intros [] Ht%Hty. apply wp_bind. eapply wp_at; [done|]. apply wp_bind.
  eapply wp_errors; [| |apply available_decides; by eapply lookup_lt_Some].
  { intros e [?|Hnu]; [by left|]. right. intros Hok.
    by apply inputs_cons_inv with (j := j) in Hok as (_&_&_&?&_); [|done]. }
  intros [] s' Hu. eapply wp_errors; [| |by apply IH].
  { intros e [?|Hno]; [by left|]. right. intros Hok.
    by apply inputs_cons_inv with (j := j) in Hok as (_&_&_&_&?); [|done]. }
  intros seen' s'' (Hok&Hseen&Hsize). split.
  - apply inputs_cons with (j := j); try done. by apply Hfl.
  - split.
    + intros k. rewrite Hseen, elem_of_union, elem_of_singleton. simpl. setoid_rewrite elem_of_cons.
      split.
      * intros [[->|?]|(b0&?&?)]; [right; eauto|auto|right; eauto].
      * intros [?|(b0&Hb0&[Heq|?])]; [auto| |right; eauto]. left. left.
        by destruct (block_position _ _ _ _ Hb0 Hj Heq).
    + rewrite Hsize, size_union, size_singleton by set_solver. simpl. lia.
Qed.

(** The predecessors of a block, each once. *)
Lemma predecessors_of_spec i ps :
  predecessors_of c !! i = Some ps → NoDup ps ∧ ∀ j, j ∈ ps ↔ flow fn j i.
Proof.
  intros Hps. pose proof (exact_mirror _ _ _ Hc) as Hm. split.
  - by eapply mirror_NoDup.
  - intros j. by rewrite (mirror_pred _ _ _ _ _ Hm Hps), (exact_edge _ _ _ Hc).
Qed.

(** The inputs cover the predecessors exactly if there are as many of them. *)
Lemma inputs_cover i t incs seen ps :
  predecessors_of c !! i = Some ps → inputs_ok i t ∅ incs → seen_after ∅ incs seen →
  base.size seen = length ps ↔
  ∀ p j b', blocks fn !! j = Some b' → block_id b' = p → flow fn j i → p ∈ incs.*2.
Proof.
  intros Hps [_ Hpred _] [Hseen _]. destruct (predecessors_of_spec _ _ Hps) as [Hnd Hin].
  assert (Hsub : seen ⊆ list_to_set ps).
  { intros j [?|(b'&Hb'&Hp)]%Hseen; [set_solver|]. destruct (Hpred _ Hp) as (j'&b0&Hb0&Hid&Hfl&_).
    destruct (block_position _ _ _ _ Hb0 Hb' Hid) as [-> _]. by apply elem_of_list_to_set, Hin. }
  assert (Hsize : base.size (list_to_set ps : gset nat) = length ps) by by apply size_list_to_set.
  split.
  - intros Heq p j b' Hb' <- Hfl.
    assert (Hall : seen = list_to_set ps).
    { apply leibniz_equiv. apply set_subseteq_size_equiv; [done|]. by rewrite Hsize, Heq. }
    assert (Hj : j ∈ seen) by by rewrite Hall; apply elem_of_list_to_set, Hin.
    apply Hseen in Hj as [?|(b0&Hb0&?)]; [set_solver|]. by simplify_eq.
  - intros Hcov. rewrite <- Hsize. f_equal. apply leibniz_equiv, (anti_symm (⊆)); [done|].
    intros j Hj%elem_of_list_to_set%Hin. apply Hseen. right.
    pose proof Hj as (b'&_&_&Hb'&_). exists b'. split; [done|]. by eapply Hcov.
Qed.

Lemma type_category_decides what t allowed :
  verify_type_category f what t allowed ≠ Panic ∧
  (verify_type_category f what t allowed = Ok tt ↔ allowed = true).
Proof. unfold verify_type_category. by destruct allowed. Qed.

(** Whether an instruction other than a phi precedes the position. *)
Definition past_phis (b : BasicBlock) (pos : nat) (past : bool) : Prop :=
  past = true ↔ ∃ k ins, (k < pos)%nat ∧ instructions b !! k = Some ins ∧ is_phi_instruction ins = false.

Lemma verify_phi_decides i b pos past dst t incs :
  blocks fn !! i = Some b → past_phis b pos past →
  decides_ (phi_ok i b pos t incs) (verify_phi f c (definitions_of fn) i b past dst t incs).
Proof.
  intros Hb Hpast. assert (Hi : (i < length (blocks fn))%nat) by by eapply lookup_lt_Some.
  unfold verify_phi. apply decides_guard.
  { intros Hok. apply not_true_is_false. intros (k&ins&Hk&Hins&Hphi)%Hpast.
    by rewrite (phi_first _ _ _ _ _ Hok k ins) in Hphi. }
  intros Hp. apply decides_guard.
  { intros Hok. apply bool_decide_eq_false, (phi_entry _ _ _ _ _ Hok). }
  intros Hentry%bool_decide_eq_false. apply decides_guard.
  { intros Hok. apply bool_decide_eq_false, (phi_nonempty _ _ _ _ _ Hok). }
  intros Hne%bool_decide_eq_false.
  eapply decides_and_then; [apply decides_lift; apply type_category_decides| |
                            apply phi_storable].
  intros Hst s. destruct (lookup_lt_is_Some_2 (predecessors_of c) i) as [ps Hps].
  { by rewrite (proj2 (mirror_lengths _ _ _ (exact_mirror _ _ _ Hc))). }
  apply wp_bind. eapply wp_errors; [| |by apply phi_inputs_spec].
  { intros e [?|Hno]; [by left|right]. intros Hok. apply Hno. split.
    - apply (phi_distinct _ _ _ _ _ Hok).
    - intros p (j&b'&?&?&?)%(phi_predecessors _ _ _ _ _ Hok). exists j, b'. set_solver.
    - apply (phi_inputs_ok _ _ _ _ _ Hok). }
  intros seen s' [Hin Hseen]. pose proof (inputs_cover _ _ _ _ _ Hps Hin Hseen) as Hcover.
  apply wp_bind. eapply wp_at; [done|]. destruct (Nat.eqb_spec (base.size seen) (length ps)) as [Heq|Hneq].
  - apply wp_ret. destruct Hin as [Hd Hpred Hty]. split; try done.
    + intros k ins Hk Hins. destruct (is_phi_instruction ins) eqn:E; [done|].
      enough (past = true) by congruence. apply Hpast. eauto.
    + intros p. split.
      * intros (j&b'&?&?&?&_)%Hpred. eauto.
      * intros (j&b'&?&?&?). by eapply (proj1 Hcover Heq).
  - apply wp_throw. right. intros Hok. apply Hneq, Hcover. intros p j b' ???.
    apply (phi_predecessors _ _ _ _ _ Hok). eauto.
Qed.

(** *** Blocks *)

(** What the check asks of one instruction, and of a terminator. *)
Definition instruction_ok (i : nat) (b : BasicBlock) (pos : nat) (ins : instruction) : Prop :=
  match ins with
  | Instruction.Phi _ t incs => phi_ok i b pos t incs
  | _ => ∀ uses v, instr_uses ins = Ok uses → v ∈ uses → usable i pos v
  end.
Definition terminator_ok (i : nat) (b : BasicBlock) : Prop := ∀ t v,
  block_terminator b = Some t → terminator_use t = Some v → usable i (length (instructions b)) v.

Lemma instr_uses_Ok ins : ∃ uses, instr_uses ins = Ok uses.
Proof. destruct ins; simpl; eauto. rewrite references_eq. simpl. eauto. Qed.

Lemma instruction_ok_ordinary i b pos ins :
  is_phi_instruction ins = false →
  instruction_ok i b pos ins ↔ ∀ uses v, instr_uses ins = Ok uses → v ∈ uses → usable i pos v.
Proof. by destruct ins. Qed.

Lemma past_phis_step b pos past ins :
  instructions b !! pos = Some ins → past_phis b pos past →
  past_phis b (S pos) (past || negb (is_phi_instruction ins)).
Proof.
  intros Hins Hpast. unfold past_phis in *. rewrite orb_true_iff, Hpast. split.
  - intros [(k&ins'&?&?&?)|Hn%negb_true_iff]; [exists k, ins'; auto with lia|]. exists pos, ins. auto with lia.
  - intros (k&ins'&Hk&?&Hphi). destruct (decide (k = pos)) as [->|].
    + right. simplify_eq. by rewrite Hphi.
    + left. exists k, ins'. split; [lia|done].
Qed.

Lemma verify_instructions_cons i b pos past ins insts :
  is_phi_instruction ins = false →
  verify_instructions f c (definitions_of fn) i b pos past (ins :: insts) =
  (_ ← charge_analysis; uses ← lift (instr_uses ins);
   _ ← all_available f c (definitions_of fn) uses i pos;
   verify_instructions f c (definitions_of fn) i b (S pos) true insts).
Proof. by destruct ins. Qed.

Lemma verify_instructions_decides i b insts : ∀ pos past,
  blocks fn !! i = Some b → insts = drop pos (instructions b) → past_phis b pos past →
  decides_ (∀ k ins, (pos ≤ k)%nat → instructions b !! k = Some ins → instruction_ok i b k ins)
    (verify_instructions f c (definitions_of fn) i b pos past insts).
Proof.
  induction insts as [|ins insts IH]; intros pos past Hb Hd Hpast.
  { eapply decides_iff; [|by apply decides_true]. split; [|done]. intros _ k ins Hk Hins.
    symmetry in Hd. apply drop_nil_inv in Hd. apply lookup_lt_Some in Hins. lia. }
  assert (Hins : instructions b !! pos = Some ins) by by eapply drop_lookup_head.
  assert (Hrest : insts = drop (S pos) (instructions b)) by by eapply drop_tail.
  pose proof (past_phis_step _ _ _ _ Hins Hpast) as Hpast'.
  assert (Hsplit : (instruction_ok i b pos ins ∧
    ∀ k ins', (S pos ≤ k)%nat → instructions b !! k = Some ins' → instruction_ok i b k ins') ↔
    ∀ k ins', (pos ≤ k)%nat → instructions b !! k = Some ins' → instruction_ok i b k ins').
  { split; [|intros H; split; [by apply H|intros; apply H; auto with lia]].
    intros [H1 H2] k ins' Hk Hk'. destruct (decide (k = pos)) as [->|]; [by simplify_eq|].
    apply H2; [lia|done]. }
  eapply decides_iff; [exact Hsplit|]. destruct (is_phi_instruction ins) eqn:Ephi.
  - destruct ins; try done. cbn [verify_instructions]. apply decides_charge, decides_and.
    + by apply verify_phi_decides.
    + intros _. apply IH; [done..|]. by rewrite orb_false_r in Hpast'.
  - rewrite verify_instructions_cons by done. apply decides_charge.
    rewrite instruction_ok_ordinary by done. destruct (instr_uses_Ok ins) as [uses Hu].
    eapply (decides_lift_bind _ _ uses); [done|].
    apply (decides_iff ((∀ v, v ∈ uses → usable i pos v) ∧
      ∀ k ins', (S pos ≤ k)%nat → instructions b !! k = Some ins' → instruction_ok i b k ins')).
    { apply and_iff_compat_r. rewrite Hu. naive_solver. }
    apply decides_and; [apply all_available_decides; by eapply lookup_lt_Some|].
    intros _. apply IH; [done..|]. by rewrite orb_true_r in Hpast'.
Qed.

Lemma verify_blocks_decides bs : ∀ i, bs = drop i (blocks fn) →
  decides_ (∀ j b, (i ≤ j)%nat → blocks fn !! j = Some b →
      (∀ k ins, instructions b !! k = Some ins → instruction_ok j b k ins) ∧ terminator_ok j b)
    (verify_blocks f c (definitions_of fn) i bs).
Proof.
  induction bs as [|b bs IH]; intros i Hd; cbn [verify_blocks].
  { eapply decides_iff; [|by apply decides_true]. split; [|done]. intros _ j b Hj Hb.
    symmetry in Hd. apply drop_nil_inv in Hd. apply lookup_lt_Some in Hb. lia. }
  assert (Hb : blocks fn !! i = Some b) by by eapply drop_lookup_head.
  assert (Hrest : bs = drop (S i) (blocks fn)) by by eapply drop_tail.
  destruct (str_targets _ Hf b) as (t&Ht&_); [by eapply list_elem_of_lookup_2|].
  apply (decides_iff ((∀ k ins, (0 ≤ k)%nat → instructions b !! k = Some ins → instruction_ok i b k ins) ∧
    terminator_ok i b ∧ ∀ j b', (S i ≤ j)%nat → blocks fn !! j = Some b' →
      (∀ k ins, instructions b' !! k = Some ins → instruction_ok j b' k ins) ∧ terminator_ok j b')).
  { split.
    - intros (H1&H2&H3) j b' Hj Hb'. destruct (decide (j = i)) as [->|]; [|apply H3; [lia|done]].
      simplify_eq. split; [|done]. intros. by apply H1; [lia|].
    - intros Hall. destruct (Hall i b) as [H1 H2]; [lia|done|]. split_and!; [auto|done|].
      intros j b' Hj. apply Hall. lia. }
  apply decides_and.
  { apply verify_instructions_decides; [done..|]. split; [done|]. by intros (k&_&?%Nat.nlt_0_r&_). }
  intros _. eapply decides_expect; [done|]. apply decides_and; [|intros _; by apply IH].
  unfold terminator_ok. rewrite Ht. destruct (terminator_use t) as [v|] eqn:Ev.
  - eapply decides_iff; [|apply available_decides; by eapply lookup_lt_Some]. naive_solver.
  - eapply decides_iff; [|by apply decides_true]. naive_solver.
Qed.

Lemma blocks_ssa :
  (∀ j b, (0 ≤ j)%nat → blocks fn !! j = Some b →
     (∀ k ins, instructions b !! k = Some ins → instruction_ok j b k ins) ∧ terminator_ok j b) ↔ ssa_ok.
Proof.
  split.
  - intros Hall. split.
    + intros r i Hr. destruct (exact_root _ _ _ Hc) as [Hroot Hno].
      rewrite (entry_unique r root) by done. apply Hno.
    + intros i b pos ins uses v Hb Hins Hphi. destruct (Hall i b) as [Hok _]; [lia|done|].
      pose proof (proj1 (instruction_ok_ordinary _ _ _ _ Hphi) (Hok _ _ Hins)) as Hu. apply Hu.
    + intros i b pos dst t incs Hb Hins. destruct (Hall i b) as [Hok _]; [lia|done|].
      apply (Hok _ _ Hins).
    + intros i b t v Hb. destruct (Hall i b) as [_ Hok]; [lia|done|]. apply Hok.
  - intros Hok j b _ Hb. split.
    + intros k ins Hins. destruct (is_phi_instruction ins) eqn:E.
      * destruct ins; try done. by eapply (ssa_phi Hok).
      * apply instruction_ok_ordinary; [done|]. intros uses v. by eapply (ssa_uses Hok).
    + intros t v. by eapply (ssa_terminator Hok).
Qed.
End available.

Lemma verify_cfg_decides_ : decides_ ssa_ok (verify_cfg f).
Proof.
  intros s. unfold verify_cfg. apply wp_bind.
  eapply wp_errors; [| |by apply new_cfg_spec].
  - intros e [?|(p&root&Hroot&Hfl&_)]; [by left|]. right. intros Hok. by eapply (ssa_entry Hok).
  - intros c s' (root&Hc). eapply decides_iff; [by eapply blocks_ssa|].
    eapply verify_blocks_decides; [done|]. by rewrite drop_0.
Qed.
End ssa.

(** C6: dominance queries are exact.  After the analysis of a function in which every block is
    terminated and branches to blocks of the function, the comparison of two intervals answers, for
    a block reachable from the entry, whether every path from the entry to it passes through the
    other block; the only failure is the exhausted budget. *)
Theorem dominance_exact f s c s' root d i (Hf : structured f)
    (Hc : new_cfg f s = (Ok c, s')) (Hroot : is_entry f root)
    (Hd : (d < length (blocks f))%nat) (Hi : reachable (flow f) root i) b :
  match (dominates c d i b).1 with
  | Ok r => r = true ↔ dominator (flow f) root d i
  | Err e => limit_error e
  | Panic => False
  end.
Proof.
  destruct (wp_Ok _ _ _ _ _ _ (new_cfg_spec f Hf s) Hc) as (root'&Hexact).
  pose proof (dominates_spec (mkIndexed f ∅ ∅) Hf c root' Hexact d i b Hd) as Hspec.
  rewrite (entry_unique (mkIndexed f ∅ ∅) Hf root root' Hroot (proj1 (exact_root _ _ _ Hexact))) in Hi |- *.
  specialize (Hspec Hi). unfold wp in Hspec. by destruct (dominates c d i b) as [[]].
Qed.

(** C3: on a function in which every block is terminated and branches to blocks of the function,
    the verifier's control-flow check accepts exactly the functions in SSA form, unless it runs out
    of its budget: no branch enters the entry, every use in a reachable block is dominated by its
    definition, and every phi stands at the head of its block and has exactly one input of its type
    for every predecessor, available at the end of that predecessor.  It never panics. *)
Theorem verify_cfg_decides f s r s' (Hf : structured (indexed f))
    (Hr : verify_cfg f s = (r, s')) :
  match r with
  | Ok _ => ssa_ok f
  | Err e => limit_error e ∨ ¬ ssa_ok f
  | Panic => False
  end.
Proof.
  pose proof (verify_cfg_decides_ f Hf s) as Hd. unfold wp in Hd. rewrite Hr in Hd. by destruct r.
Qed.

(** A loop that counts from its parameter down, and the same loop whose exit uses a value that
    only the body defines. *)
Definition count_down (result : ValueId) : Function :=
  let v n := mkValueId n in let b n := mkBlockId n in
  mkFunction (mkFunctionId 0) "count_down" [mkParam "n" (v 0) Ty.I32] Ty.I32
    [mkBlock (b 0) "entry" [Instruction.Const (v 1) Ty.I32 (ConstValue.I 1)] (Some (Terminator.Br (b 1)));
     mkBlock (b 1) "loop"
       [Instruction.Phi (v 2) Ty.I32 [(v 0, b 0); (v 3, b 2)];
        Instruction.Cmp (v 4) CmpOp.Eq Ty.I32 (v 2) (v 1)]
       (Some (Terminator.CBr (v 4) (b 3) (b 2)));
     mkBlock (b 2) "body" [Instruction.Bin (v 3) BinOp.Sub Ty.I32 (v 2) (v 1)] (Some (Terminator.Br (b 1)));
     mkBlock (b 3) "done" [] (Some (Terminator.Ret Ty.I32 (Some result)))]
    (b 0)
    [(v 0, Ty.I32); (v 1, Ty.I32); (v 2, Ty.I32); (v 3, Ty.I32); (v 4, Ty.Bool)].
Definition count_budget : AnalysisBudget := mkAnalysis 1000 0 0.

Lemma count_down_structured v : structured (count_down v).
Proof.
  split.
  - apply (bool_decide_eq_true_1 _). vm_compute. reflexivity.
  - by left.
  - intros b Hb. repeat (apply elem_of_cons in Hb as [->|Hb];
      [eexists; split; [reflexivity|];
       intros t Ht; repeat (apply elem_of_cons in Ht as [->|Ht]; [by repeat constructor|]);
       by apply not_elem_of_nil in Ht|]). by apply not_elem_of_nil in Hb.
Qed.

Lemma flow_at f i j b t b' :
  blocks f !! i = Some b → block_terminator b = Some t → blocks f !! j = Some b' →
  block_id b' ∈ branch_targets t → flow f i j.
Proof. intros. by exists b, t, b'. Qed.

Lemma dominance_exact_witness :
  dominator (flow (count_down (mkValueId 2))) 0 1 3 ∧
  ¬ dominator (flow (count_down (mkValueId 2))) 0 2 3.
Proof.
  assert (Hf := count_down_structured (mkValueId 2)).
  destruct (new_cfg (count_down (mkValueId 2)) count_budget) as [r s'] eqn:E.
  destruct r as [c|e|]; [|vm_compute in E; discriminate E..].
  assert (Hroot : is_entry (count_down (mkValueId 2)) 0) by (eexists; split; reflexivity).
  assert (Hi : reachable (flow (count_down (mkValueId 2))) 0 3).
  { pose proof (flow_at (count_down (mkValueId 2)) 0 1 _ _ _ eq_refl eq_refl eq_refl ltac:(left)) as H1.
    pose proof (flow_at (count_down (mkValueId 2)) 1 3 _ _ _ eq_refl eq_refl eq_refl ltac:(left)) as H3.
    exact (reachable_edge _ _ _ _ (reachable_edge _ _ _ _ (reachable_start _ _) H1) H3). }
  pose proof (λ d Hd, dominance_exact (count_down (mkValueId 2)) count_budget c s' 0 d 3 Hf E Hroot Hd Hi count_budget) as Hdom.
  vm_compute in E. injection E as <- _. split.
  - apply (Hdom 1%nat); [simpl; lia|reflexivity].
  - intros Hd%(Hdom 2%nat); [discriminate Hd|simpl; lia].
Defined.

Lemma verify_cfg_decides_witness :
  ssa_ok (new_indexed (count_down (mkValueId 2))) ∧ ¬ ssa_ok (new_indexed (count_down (mkValueId 3))).
Proof.
  split.
  - exact (verify_cfg_decides (new_indexed (count_down (mkValueId 2))) count_budget (Ok tt) _
             (count_down_structured _) ltac:(vm_compute; reflexivity)).
  - destruct (verify_cfg_decides (new_indexed (count_down (mkValueId 3))) count_budget
      (Err (VerifyError.NonDominatingValue "count_down" (mkValueId 3) (mkBlockId 3))) _
      (count_down_structured _) ltac:(vm_compute; reflexivity)) as [[r Hr]|Hno]; [discriminate Hr|exact Hno].
Defined.
