(* ===== verification/Verified.v ===== *)
(** * What the verifier guarantees ([verifier.rs])

    The verifier never panics, on any module and within any limits, and a module it accepts is
    well formed: every function has distinct blocks and values, terminated blocks whose branches stay
    inside the function, declared value types, is in SSA form, and its constants have a valuation. *)
From S2P Require Export Verify Ssa Resolution.
Local Open Scope Z_scope.

(** ** Totality of the checks *)

Lemma total_for_all {E A} (body : A → result E unit) l :
  (∀ x, x ∈ l → body x ≠ Panic) → for_all body l ≠ Panic.
Proof.
  induction l as [|x l IH]; intros Hb; simpl; [done|]. apply total_bind; [apply Hb; by left|].
  intros _ _. apply IH. intros y Hy. apply Hb. by right.
Qed.
#[export] Hint Resolve total_for_all : total.

Lemma total_expect_limits (l : IrLimits) : new_budget l ≠ Panic.
Proof. unfold new_budget, validate_limits. by destruct (orb _ _). Qed.
Lemma walk_total fits n (m : stm Budget LimitError unit) b : walk_outcome fits n m b → (m b).1 ≠ Panic.
Proof. intros [(_&_&->)|(r&b'&->&_)]; done. Qed.
Lemma new_budget_remaining l b : new_budget l = Ok b → remaining b = max_nodes l.
Proof. unfold new_budget, validate_limits. destruct (orb _ _); [done|]. by intros [= <-]. Qed.

Section limits.
Context (l : IrLimits) (Hl : limits_ok l).
#[local] Set Default Proof Using "Type*".

Lemma signature_total sig : validate_signature_with_limits sig l ≠ Panic.
Proof.
  unfold validate_signature_with_limits. apply total_bind.
  - apply total_map_err, total_bind; [apply total_expect_limits|]. intros b Hb%new_budget_remaining.
    apply (walk_total (sig_fits (limits b) sig) (sig_nodes sig)), budget_signature_walk.
    rewrite Hb. apply Hl.
  - intros _ _. pose proof (validate_loop_spec sig) as Hs. cbv zeta in Hs.
    destruct (sig_admitted sig); [by rewrite Hs|]. by destruct Hs as [-> | ->].
Qed.
Lemma ty_total t : (b ← new_budget l; (budget_ty t b).1) ≠ Panic.
Proof.
  apply total_bind; [apply total_expect_limits|]. intros b Hb%new_budget_remaining.
  apply (walk_total (type_fits (limits b) t) (ty_nodes t)), budget_ty_walk. rewrite Hb. apply Hl.
Qed.
Lemma check_module_total m : check_module m l ≠ Panic.
Proof.
  unfold check_module, new_budget, validate_limits. destruct (orb _ _); [done|]. simpl.
  by destruct (check_module_walk m l Hl) as [(_&_&->)|(r&b'&->&_)].
Qed.

Lemma decl_total d : validate_decl_with_limits d l ≠ Panic.
Proof. unfold validate_decl_with_limits. auto using signature_total with total. Qed.
Lemma storage_total g : validate_storage_with_limits g l ≠ Panic.
Proof.
  unfold validate_storage_with_limits. apply total_bind; [apply total_map_err, ty_total|].
  intros _ _. case_match; [done|]. apply total_bind; [apply total_map_err, signature_total|].
  auto with total.
Qed.
Lemma pointer_types_total t : validate_pointer_types l t ≠ Panic.
Proof.
  assert (Hts : ∀ ts, Forall (λ t, validate_pointer_types l t ≠ Panic) ts →
    (fix each (ts : list ty) : result call_error unit :=
       match ts with
       | [] => Ok tt
       | t :: ts => _ ← validate_pointer_types l t; each ts
       end) ts ≠ Panic).
  { induction 1 as [|t' ts Ht Hts IH]; [done|]. by apply total_bind. }
  induction t using ty_ind_nested with (Q := λ _, True); try exact I; simpl; auto using signature_total.
Qed.

Lemma call_instruction_total m f ins : verify_call_instruction m f l ins ≠ Panic.
Proof.
  unfold verify_call_instruction, call_failure. apply total_map_err.
  destruct ins; simpl; auto using signature_total with total.
  unfold verify_call. apply total_bind; [unfold callee_signature; auto with total|]. intros sig _.
  apply total_bind; [apply signature_total|]. intros _ _.
  do 4 (apply total_bind; [apply total_guard|intros _ _]). generalize 0%nat.
  induction (zip _ _) as [|[v t] args' IH]; intros n; simpl; auto with total.
Qed.
End limits.

Lemma sources_total s m : validate_sources s m ≠ Panic.
Proof.
  assert (H1 : ∀ fs seen, validate_files seen fs ≠ Panic).
  { induction fs as [|f fs IH]; intros seen; simpl; [done|]. by case_match. }
  assert (H2 : ∀ fs nodes seen, validate_originals fs seen nodes ≠ Panic).
  { induction nodes as [|n nodes IH]; intros seen; simpl; [done|]. do 2 (case_match; [done|]). apply IH. }
  assert (H3 : ∀ nodes ms seen, validate_mappings m nodes seen ms ≠ Panic).
  { induction ms as [|x ms IH]; intros seen; simpl; [done|]. do 2 (case_match; [done|]). apply IH. }
  unfold validate_sources. repeat case_match; try done;
    (apply total_bind; [apply H1|]; intros ? _; apply total_bind; auto).
Qed.

Lemma verify_layout_total t l func operation ty_ : verify_layout (specification t) l func operation ty_ ≠ Panic.
Proof.
  unfold verify_layout, layout_for_target. rewrite specification_valid. simpl.
  pose proof (layout_storage_not_Panic (storage (specification t)) ty_
    (Nat.min (Z.to_nat (max_type_depth l)) MAX_IR_NESTING)) as Hl.
  destruct (layout_storage _ _ _); try done. exfalso. apply Hl; [|by destruct t|done].
  apply (validate_spec_storage _ tt), specification_valid.
Qed.

Section operations.
Context (f : IndexedFunction).

Lemma operand_total v t : verify_operand f v t ≠ Panic.
Proof. unfold verify_operand, typed_value. auto with total. Qed.
Lemma category_total o t b : verify_type_category f o t b ≠ Panic.
Proof. apply total_guard. Qed.
Lemma alignment_total a : verify_alignment f a ≠ Panic.
Proof. apply total_guard. Qed.
Lemma typed_value_total v : typed_value f v ≠ Panic.
Proof. apply total_ok_or. Qed.
Lemma condition_total v : verify_condition f v ≠ Panic.
Proof. unfold verify_condition. auto using typed_value_total with total. Qed.
Lemma gep_total dst dst_ty base indices : verify_gep f dst dst_ty base indices ≠ Panic.
Proof.
  assert (Hsel : ∀ indices position selected, gep_selected f dst position selected indices ≠ Panic).
  { clear indices. induction indices as [|v indices IH]; intros position selected; simpl; [done|].
    apply total_bind; [apply typed_value_total|]. intros t _. do 2 (case_match; auto using IH with total).
    all: apply total_bind; auto with total; repeat case_match; auto with total. }
  unfold verify_gep. apply total_bind; [apply typed_value_total|]. intros t _.
  case_match; try done. case_match; auto with total.
Qed.
Lemma instruction_total ins : verify_instruction f ins ≠ Panic.
Proof.
  destruct ins; cbn [verify_instruction];
    eauto 8 using operand_total, category_total, alignment_total, condition_total, gep_total,
      typed_value_total with total.
Qed.
End operations.
#[export] Hint Resolve operand_total category_total condition_total typed_value_total : total.

(** ** What the checks of a function establish *)

Lemma for_all_spec {E A} (body : A → result E unit) l :
  for_all body l = Ok tt ↔ ∀ x, x ∈ l → body x = Ok tt.
Proof.
  induction l as [|x l IH]; simpl.
  - split; [intros _ x ?%not_elem_of_nil; done|done].
  - rewrite bind_Ok. setoid_rewrite elem_of_cons. split.
    + intros ([]&Hx&Hl) y [->|Hy]; [done|]. by apply IH.
    + intros Hall. exists tt. split; [by apply Hall; left|]. apply IH. auto.
Qed.

Lemma insert_distinct_spec `{Countable K} {A} (key : A → K) error (l : list A) : ∀ seen,
  yields (λ _, True) (insert_distinct key error seen l)
    (λ seen', seen' = seen ∪ list_to_set (key <$> l) ∧ NoDup (key <$> l) ∧
       ∀ x, x ∈ l → key x ∉ seen).
Proof.
  induction l as [|x l IH]; intros seen; cbn [insert_distinct].
  - split; [set_solver|]. split; [constructor|]. by intros x ?%not_elem_of_nil.
  - case_bool_decide as Hx; [done|]. eapply yields_mono; [done| |apply IH].
    intros seen' (->&Hnd&Hnew). split; [set_solver|]. split.
    + constructor; [|done]. intros (y&Hy&Hin)%list_elem_of_fmap.
      apply (Hnew y Hin). rewrite <- Hy. set_solver.
    + intros y [->|Hy]%elem_of_cons; [done|]. specialize (Hnew y Hy). set_solver.
Qed.

Section function.
Context (f : Function).

Definition definitions_of_function : list ValueId := (param_id <$> function_params f) ++ (function_results f).*1.

Lemma define_params_spec ps : ∀ seen,
  yields (λ _, True) (define_params f seen ps)
    (λ seen', seen' = seen ∪ list_to_set (param_id <$> ps) ∧ NoDup (param_id <$> ps) ∧
       (∀ p, p ∈ ps → param_id p ∉ seen)).
Proof.
  induction ps as [|p ps IH]; intros seen; cbn [define_params].
  - split; [set_solver|]. split; [constructor|]. by intros x ?%not_elem_of_nil.
  - case_bool_decide; [done|]. case_bool_decide as Hx; [done|]. eapply yields_mono; [done| |apply IH].
    intros seen' (->&Hnd&Hnew). split; [set_solver|]. split.
    + constructor; [|done]. intros (y&Hy&Hin)%list_elem_of_fmap.
      apply (Hnew y Hin). rewrite <- Hy. set_solver.
    + intros y [->|Hy]%elem_of_cons; [done|]. specialize (Hnew y Hy). set_solver.
Qed.

Lemma verify_identities_spec :
  yields (λ _, True) (verify_identities f) (λ p,
    p.1 = list_to_set (block_id <$> blocks f) ∧ p.2 = list_to_set definitions_of_function ∧
    NoDup (block_id <$> blocks f) ∧ entry f ∈ block_id <$> blocks f ∧
    NoDup definitions_of_function).
Proof.
  unfold verify_identities. apply yields_bind. eapply yields_mono; [done| |apply insert_distinct_spec].
  intros bs (->&Hnb&_). apply yields_bind, yields_guard; [done|]. intros Hentry%bool_decide_eq_true.
  apply yields_bind. eapply yields_mono; [done| |apply define_params_spec].
  intros d (->&Hnp&_). apply yields_bind. eapply yields_mono; [done| |apply insert_distinct_spec].
  intros d' (->&Hnr&Hnew). unfold definitions_of_function. cbn [fst snd yields].
  rewrite !(left_id_L ∅ (∪)), list_to_set_app_L. split_and!; try done.
  - set_solver.
  - apply NoDup_app. split_and!; [done| |done]. intros v Hv (r&->&Hr)%list_elem_of_fmap.
    apply (Hnew r Hr). set_solver.
Qed.

Context (m : Module_) (l : IrLimits) (storage_types : gmap GlobalId ty) (constant_globals : Values).
#[local] Notation g := (new_indexed f).

(** The terminator of a block is typed by the function. *)
Definition terminator_typed (t : terminator) : Prop :=
  match t with
  | Terminator.Br _ | Terminator.Trap _ => True
  | Terminator.CBr cond _ _ => type_of g cond = Some Ty.Bool
  | Terminator.Switch t value _ cases =>
      (is_integer t = true ∨ t = Ty.Bool) ∧ type_of g value = Some t ∧
      ∀ c, c ∈ cases → valid_constant t c.1 = true
  | Terminator.Ret t None => ret_ty f = Ty.Void ∧ t = Ty.Void
  | Terminator.Ret t (Some v) => ret_ty f ≠ Ty.Void ∧ t = ret_ty f ∧ type_of g v = Some t
  end.

(** A function the verifier accepts. *)
Record function_ok : Prop := {
  fo_structured : structured f;
  fo_distinct : NoDup definitions_of_function;
  fo_types v t : (v, t) ∈ ((λ p, (param_id p, param_ty p)) <$> function_params f) ++ function_results f →
    type_of g v = Some t;
  fo_only v : v ∈ (value_types f).*1 → v ∈ definitions_of_function;
  fo_uses ins uses v : ins ∈ function_instructions_of f → instr_uses ins = Ok uses → v ∈ uses →
    v ∈ definitions_of_function;
  fo_terminators b t : b ∈ blocks f → block_terminator b = Some t → terminator_typed t;
  fo_constants : ∃ K, valuation (omap local_definition (function_instructions_of f))
    (collect (omap local_constant (function_instructions_of f))) constant_globals l K;
  fo_ssa : ssa_ok g;
  fo_operations ins : ins ∈ function_instructions_of f →
    verify_instruction g ins = Ok tt ∧ verify_call_instruction m g l ins = Ok tt ∧
    verify_global_address storage_types g ins = Ok tt;
}.

Lemma verify_operand_Ok v t : verify_operand g v t = Ok tt → type_of g v = Some t.
Proof.
  unfold verify_operand, typed_value. destruct (type_of g v) as [t'|]; [|done]. simpl.
  unfold guard_err. by case_bool_decide as Ht; [intros _; rewrite Ht|].
Qed.
Lemma verify_condition_Ok v : verify_condition g v = Ok tt → type_of g v = Some Ty.Bool.
Proof.
  unfold verify_condition, typed_value. destruct (type_of g v) as [t'|]; [|done]. simpl.
  unfold guard_err. by case_bool_decide as Ht; [intros _; rewrite Ht|].
Qed.

Lemma verify_cases_spec b t cases : (is_integer t = true ∨ t = Ty.Bool) → ∀ i keys,
  yields (λ _, True) (verify_cases g b t i keys cases)
    (λ _, ∀ c, c ∈ cases → valid_constant t c.1 = true).
Proof.
  intros Ht. induction cases as [|[key target] cases IH]; intros i keys; cbn [verify_cases].
  { by intros c ?%not_elem_of_nil. }
  destruct (valid_constant t key) eqn:Hv; [|done]. cbn [negb].
  assert (Hkey : ∃ bits, switch_key key = Ok bits).
  { destruct key; try (by eexists). destruct Ht as [Ht | ->]; [|done]. by destruct t. }
  destruct Hkey as [bits ->]. cbn [mbind result_bind]. case_bool_decide; [done|].
  eapply yields_mono; [done| |apply IH]. intros [] Hall c [->|Hc]%elem_of_cons; auto.
Qed.

Lemma verify_terminator_spec defined b t :
  yields (λ _, True) (verify_terminator g defined b t) (λ _, terminator_typed t).
Proof.
  destruct t as [target|cond tt_ ff|t v d cases|t v|r]; cbn [verify_terminator terminator_typed]; try done.
  - apply yields_bind, yields_guard; [done|]. intros _. apply yields_case; [apply condition_total|done|].
    intros [] ?. by apply verify_condition_Ok.
  - apply yields_bind, yields_guard; [done|]. intros _. apply yields_bind, yields_guard; [done|].
    intros Ht. apply orb_true_iff in Ht. rewrite bool_decide_eq_true in Ht.
    apply yields_bind, yields_case; [apply operand_total|done|]. intros [] Hv%verify_operand_Ok.
    eapply yields_mono; [done| |by apply verify_cases_spec]. auto.
  - unfold verify_return. apply yields_bind, yields_guard; [done|]. intros Ht%bool_decide_eq_true.
    destruct v as [v|]; simpl in Ht; subst t.
    + apply yields_bind, yields_guard; [done|]. intros _. apply yields_bind, yields_ok_or; [done|].
      intros vt Hvt. apply yields_guard; [done|]. intros [Hne Heq]%andb_true_iff.
      apply negb_true_iff, bool_decide_eq_false in Hne. apply bool_decide_eq_true in Heq. by subst vt.
    + apply yields_guard; [done|]. by intros ?%bool_decide_eq_true.
Qed.

Lemma verify_uses_spec defined ins :
  yields (λ _, True) (verify_uses g defined ins)
    (λ _, ∀ uses v, instr_uses ins = Ok uses → v ∈ uses → v ∈ defined).
Proof.
  unfold verify_uses. destruct (instr_uses_Ok ins) as [uses Hu]. rewrite Hu. cbn [mbind result_bind].
  apply yields_bind, yields_case; [apply total_for_all; intros; apply total_guard|done|]. intros [] Hall.
  assert (Hin : ∀ uses' v, Ok (E := verify_err) uses = Ok uses' → v ∈ uses' → v ∈ defined).
  { intros uses' v [= <-] Hv. apply for_all_spec with (x := v) in Hall; [|done].
    unfold verify_defined, guard_err in Hall. by case_bool_decide. }
  apply yields_case; [destruct ins; auto using condition_total with total|done|auto].
Qed.

Lemma verify_block_spec known defined b :
  yields (λ _, True) (verify_block g known defined b) (λ _,
    (∃ t, block_terminator b = Some t ∧ (∀ target, target ∈ branch_targets t → target ∈ known) ∧
       terminator_typed t) ∧
    ∀ ins uses v, ins ∈ instructions b → instr_uses ins = Ok uses → v ∈ uses → v ∈ defined).
Proof.
  unfold verify_block. apply yields_bind, yields_ok_or; [done|]. intros t Ht.
  apply yields_bind, yields_case; [apply total_for_all; intros; apply total_guard|done|]. intros [] Htargets.
  apply yields_bind, yields_case; [|done|].
  { apply total_for_all. intros ins _. eapply yields_not_Panic, verify_uses_spec. }
  intros [] Huses. eapply yields_mono; [done| |apply verify_terminator_spec].
  intros [] Hty. split.
  - exists t. split_and!; [done| |done]. intros target Htg.
    apply for_all_spec with (x := target) in Htargets; [|done].
    unfold verify_target, guard_err in Htargets. by case_bool_decide.
  - intros ins uses v Hins Hu Hv. apply for_all_spec with (x := ins) in Huses; [|done].
    by eapply (yields_Ok _ _ _ _ (verify_uses_spec defined ins)).
Qed.

Lemma function_definitions_keys : (function_definitions g).*1 = definitions_of_function.
Proof. unfold function_definitions, definitions_of_function. by rewrite fmap_app, <- list_fmap_compose. Qed.

Lemma verify_definition_Ok v t : verify_definition g (v, t) = Ok tt → type_of g v = Some t.
Proof.
  unfold verify_definition, typed_value. simpl. destruct (type_of g v) as [t'|]; [|done]. simpl.
  unfold guard_err. by case_bool_decide as Ht; [intros _; rewrite Ht|].
Qed.

Lemma verify_value_types_spec :
  yields (λ _, True) (verify_value_types g) (λ _,
    (∀ v t, (v, t) ∈ ((λ p, (param_id p, param_ty p)) <$> function_params f) ++ function_results f →
       type_of g v = Some t) ∧
    ∀ v, v ∈ (value_types f).*1 → v ∈ definitions_of_function).
Proof.
  unfold verify_value_types. apply yields_bind.
  eapply yields_mono; [done| |apply insert_distinct_spec]. intros seen (->&_&_).
  apply yields_bind, yields_case; [|done|].
  { apply total_for_all. intros d _. unfold verify_definition. auto with total. }
  intros [] Hdefs. apply yields_case; [apply total_for_all; intros; apply total_guard|done|].
  intros [] Hextra. split.
  - intros v t Hv. apply verify_definition_Ok. by apply for_all_spec with (x := (v, t)) in Hdefs.
  - intros v (p&->&Hp)%list_elem_of_fmap. apply for_all_spec with (x := p) in Hextra; [|done].
    unfold guard_err in Hextra. case_bool_decide as Hin; [done|].
    rewrite <- function_definitions_keys. apply dec_stable. intros Hno. apply Hin.
    apply elem_of_difference. split; [|by rewrite elem_of_list_to_set].
    apply elem_of_union_r, elem_of_list_to_set, list_elem_of_fmap. by exists p.
Qed.

(** The constants of the function and of the module are in the range of the code's integers. *)
Definition carriers_ok : Prop := ∀ ins, ins ∈ function_instructions_of f →
  match ins with
  | Instruction.Const _ _ value => carrier_ok value = true
  | Instruction.ConstDecl _ _ e _ => literals_ok e = true
  | _ => True
  end.
Context (Hl : limits_ok l) (Hcarriers : carriers_ok).
Context (Hglobals : resolve_ok (λ r, constant_globals !! r)).
#[local] Set Default Proof Using "Type*".

Lemma verify_locals_spec :
  yields (λ _, True) (verify_locals f constant_globals l) (λ _,
    ∃ K, valuation (omap local_definition (function_instructions_of f))
      (collect (omap local_constant (function_instructions_of f))) constant_globals l K).
Proof.
  unfold verify_locals. apply yields_bind.
  eapply yields_mono; [| |apply evaluate_definitions_spec]; [done| |apply Hl|..].
  - intros K [HK _]. by exists K.
  - intros d (ins&Hins&Hd)%list_elem_of_omap. apply Hcarriers in Hins.
    destruct ins; try done. simpl in Hd. by injection Hd as <-.
  - intros r t v Hr Ht. unfold lookup_constant, or_else in Hr. destruct (_ !! r) as [x|] eqn:E in Hr.
    2: { by apply (Hglobals r t v). }
    injection Hr as ->. apply collect_lookup_Some in E.
    apply list_elem_of_omap in E as (ins&Hins&Hd). apply Hcarriers in Hins.
    destruct ins; try done. simpl in Hd. by injection Hd as <- <- <-.
Qed.

Lemma operation_spec ins :
  yields (λ _, True) (verify_operation m l storage_types g ins) (λ _,
    verify_instruction g ins = Ok tt ∧ verify_call_instruction m g l ins = Ok tt ∧
    verify_global_address storage_types g ins = Ok tt).
Proof.
  unfold verify_operation. apply yields_bind, yields_case; [|done|].
  { destruct ins; simpl; try done. repeat case_match; done. }
  intros [] H1. apply yields_bind, yields_case; [by apply call_instruction_total|done|]. intros [] H2.
  apply yields_case; [apply instruction_total|done|]. by intros [] H3.
Qed.

Lemma verify_function_spec s :
  wp (λ _, True) (verify_function m l storage_types constant_globals g) (λ _ _, function_ok) s.
Proof.
  unfold verify_function. cbn [indexed new_indexed]. apply wp_bind, wp_yields.
  eapply yields_mono; [| |apply verify_identities_spec]; [done|].
  intros [known defined]. cbn [fst snd]. intros (->&->&Hnb&Hentry&Hnd).
  apply wp_bind, wp_yields, yields_case; [|done|].
  { apply total_for_all. intros b _. eapply yields_not_Panic, verify_block_spec. }
  intros [] Hblocks. apply wp_bind, wp_yields.
  eapply yields_mono; [| |apply verify_value_types_spec]; [done|]. intros [] [Htypes Honly].
  apply wp_bind, wp_yields. eapply yields_mono; [| |apply verify_locals_spec]; [done|]. intros [] Hconst.
  assert (Hblock : ∀ b, b ∈ blocks f →
    (∃ t, block_terminator b = Some t ∧
       (∀ target, target ∈ branch_targets t → target ∈ block_id <$> blocks f) ∧ terminator_typed t) ∧
    ∀ ins uses v, ins ∈ instructions b → instr_uses ins = Ok uses → v ∈ uses → v ∈ definitions_of_function).
  { intros b Hb. apply for_all_spec with (x := b) in Hblocks; [|done].
    apply (yields_Ok _ _ _ _ (verify_block_spec _ _ b)) in Hblocks as [(t&Ht&Htg&Hty) Huses].
    setoid_rewrite elem_of_list_to_set in Htg. setoid_rewrite elem_of_list_to_set in Huses.
    split; [by exists t|done]. }
  assert (Hst : structured f).
  { split; [done..|]. intros b Hb. destruct (Hblock b Hb) as [(t&Ht&Htg&_) _]. by exists t. }
  apply wp_bind. eapply wp_errors; [| |by apply (verify_cfg_decides_ g)]; [done|]. intros [] s' Hssa.
  apply wp_yields, yields_case; [|done|].
  { apply total_for_all. intros ins _. eapply yields_not_Panic, operation_spec. }
  intros [] Hops. split; try done.
  - intros ins uses v (b&Hins&Hb)%list_elem_of_bind. by apply (Hblock b Hb).
  - intros b t Hb Ht. destruct (Hblock b Hb) as [(t'&Ht'&_&Hty) _]. congruence.
  - intros ins Hins. apply for_all_spec with (x := ins) in Hops; [|done].
    by apply (yields_Ok _ _ _ tt (operation_spec ins)).
Qed.
End function.

(** ** Modules *)

Section module_.
Context (m : Module_) (l : IrLimits) (t : Target).

(** The tables the verifier fills from the module, and what it checked. *)
Record module_ok (types : gmap GlobalId ty) (constants : Values) : Prop := {
  mo_functions f : f ∈ functions m → function_ok f m l types constants;
  mo_names : NoDup (function_name <$> functions m);
  mo_ids : NoDup (function_id <$> functions m);
  mo_declared f : f ∈ functions m → ∃ d, find_decl m (function_id f) = Some d ∧
    decl_name d = function_name f ∧ ret (decl_signature d) = ret_ty f ∧
    params (decl_signature d) = param_ty <$> function_params f;
  mo_defined ins f : f ∈ functions m → ins ∈ function_instructions_of f →
    match ins with Instruction.Undef _ _ => False | _ => True end;
  mo_layouts ins f operation ty_ : f ∈ functions m → ins ∈ function_instructions_of f →
    stored_type (new_indexed f) ins = Some (operation, ty_) → is_storable ty_ = true →
    ∃ lay, layout_for_target ty_ (specification t) (Z.to_nat (max_type_depth l)) = Ok lay;
  mo_storage_ids : NoDup ((global_id <$> globals m) ++ (gs_id <$> global_storage m));
  mo_storage id_ ty_ : types !! id_ = Some ty_ ↔
    ∃ g, g ∈ global_storage m ∧ gs_id g = id_ ∧ gs_ty g = ty_;
  mo_constants : valuation (global_definition <$> globals m) ∅ ∅ l constants;
}.

(** Every constant of the module is in the range of the code's integers. *)
Definition module_carriers : Prop :=
  (∀ g, g ∈ globals m → literals_ok (init_expr g) = true) ∧
  ∀ f, f ∈ functions m → carriers_ok f.

Lemma verify_bodies_spec fs : ∀ seen,
  yields (λ _, True) (verify_bodies m seen fs) (λ _,
    NoDup (function_id <$> fs) ∧ (∀ f, f ∈ fs → function_id f ∉ seen) ∧
    ∀ f, f ∈ fs → ∃ d, find_decl m (function_id f) = Some d ∧
      decl_name d = function_name f ∧ ret (decl_signature d) = ret_ty f ∧
      params (decl_signature d) = param_ty <$> function_params f).
Proof.
  induction fs as [|f fs IH]; intros seen; cbn [verify_bodies].
  { split; [constructor|]. split; by intros f ?%not_elem_of_nil. }
  case_bool_decide as Hf; [done|]. unfold verify_body. apply yields_bind, yields_bind, yields_ok_or; [done|].
  intros d Hd. apply yields_guard; [done|].
  intros [[Hn%bool_decide_eq_true Hr%bool_decide_eq_true]%andb_true_iff Hp%bool_decide_eq_true]%andb_true_iff.
  eapply yields_mono; [| |apply IH]; [done|]. intros [] (Hnd&Hout&Hall). split; [|split].
  - constructor; [|done]. intros (f'&Heq&Hf')%list_elem_of_fmap. apply (Hout f' Hf').
    rewrite <- Heq. apply elem_of_union_l. by apply elem_of_singleton.
  - intros f' [->|Hf']%elem_of_cons; [done|]. specialize (Hout f' Hf'). by apply not_elem_of_union in Hout as [_ ?].
  - intros f' [->|Hf']%elem_of_cons; [by exists d|auto].
Qed.

Lemma global_constants_spec gs : ∀ names,
  yields (λ _, True) (verify_global_constants names gs) (λ _, True).
Proof. induction gs as [|g gs IH]; intros names; simpl; [done|]. repeat (case_match; [done|]). apply IH. Qed.

Context (Hl : limits_ok l).
#[local] Set Default Proof Using "Type*".

Lemma global_storage_spec g sets :
  yields (λ _, True) (verify_global_storage (specification t) l sets g) (λ sets',
    storage_ids sets' = {[gs_id g]} ∪ storage_ids sets ∧ gs_id g ∉ storage_ids sets ∧
    storage_types sets' = <[gs_id g := gs_ty g]> (storage_types sets)).
Proof.
  unfold verify_global_storage. apply yields_bind, yields_case; [by apply total_map_err, storage_total|done|].
  intros [] _. case_bool_decide as Hid; [done|]. case_bool_decide; [done|].
  apply yields_bind, yields_case; [repeat case_match; done|done|]. intros links _.
  apply yields_bind, yields_case; [apply verify_layout_total|done|]. by intros [] _.
Qed.

Lemma global_storages_spec gs : ∀ sets,
  (∀ i ty_, storage_types sets !! i = Some ty_ → i ∈ storage_ids sets) →
  yields (λ _, True) (verify_global_storages (specification t) l sets gs) (λ sets',
    NoDup (gs_id <$> gs) ∧ (∀ g, g ∈ gs → gs_id g ∉ storage_ids sets) ∧
    ∀ i ty_, storage_types sets' !! i = Some ty_ ↔
      storage_types sets !! i = Some ty_ ∨ ∃ g, g ∈ gs ∧ gs_id g = i ∧ gs_ty g = ty_).
Proof.
  induction gs as [|g gs IH]; intros sets Hsub; cbn [verify_global_storages].
  { split; [constructor|]. split; [by intros g ?%not_elem_of_nil|]. intros i ty_. split; [by left|].
    by intros [?|(g&?%not_elem_of_nil&_)]. }
  apply yields_bind. eapply yields_mono; [| |apply global_storage_spec]; [done|].
  intros sets1 (Hids&Hnew&Hty). eapply yields_mono; [| |apply IH]; [done| |].
  - intros sets' (Hnd&Hout&Htypes). rewrite Hids in Hout. split; [|split].
    + constructor; [|done]. intros (g'&Heq&Hg')%list_elem_of_fmap. apply (Hout g' Hg').
      rewrite <- Heq. apply elem_of_union_l. by apply elem_of_singleton.
    + intros g' [->|Hg']%elem_of_cons; [done|]. specialize (Hout g' Hg'). by apply not_elem_of_union in Hout as [_ ?].
    + intros i ty_. rewrite Htypes, Hty. destruct (decide (i = gs_id g)) as [->|Hne].
      * rewrite lookup_insert_eq. split.
        -- intros [[= <-]|(g'&Hg'&Heq&_)]; [right; exists g; split_and!; [by left|done..]|].
           exfalso. apply (Hout g' Hg'). rewrite Heq. apply elem_of_union_l. by apply elem_of_singleton.
        -- intros [Hs|(g'&[->|Hg']%elem_of_cons&Heq&<-)]; [by apply Hsub in Hs|by left|].
           exfalso. apply (Hout g' Hg'). rewrite Heq. apply elem_of_union_l. by apply elem_of_singleton.
      * rewrite lookup_insert_ne by done. setoid_rewrite elem_of_cons. split.
        { intros [?|(g'&?&?&?)]; [by left|right]. exists g'. auto. }
        intros [?|(g'&[->|?]&?&?)]; [by left|done|right; eauto].
  - intros i ty_. rewrite Hty, Hids. destruct (decide (i = gs_id g)) as [->|Hne].
    { intros _. apply elem_of_union_l. by apply elem_of_singleton. }
    rewrite lookup_insert_ne by done. intros ?%Hsub. by apply elem_of_union_r.
Qed.

Lemma verify_declarations_spec :
  yields (λ _, True) (verify_declarations m l) (λ _, NoDup (function_id <$> functions m) ∧
    ∀ f, f ∈ functions m → ∃ d, find_decl m (function_id f) = Some d ∧
      decl_name d = function_name f ∧ ret (decl_signature d) = ret_ty f ∧
      params (decl_signature d) = param_ty <$> function_params f).
Proof.
  unfold verify_declarations. apply yields_bind, yields_case; [|done|].
  { apply total_for_all. intros f _. unfold verify_function_types. apply total_bind.
    - apply total_for_all. intros p _. by apply total_map_err, pointer_types_total.
    - intros _ _. apply total_for_all. intros p _. apply total_guard. }
  intros [] _. apply yields_bind, yields_case; [|done|].
  { generalize (mkDeclSets ∅ ∅ ∅). induction (declarations m) as [|d ds IH]; intros sets; simpl; [done|].
    apply total_bind; [|auto]. unfold verify_decl. apply total_bind; [by apply total_map_err, decl_total|].
    intros _ _. case_match; [done|]. apply total_bind; [repeat case_match; done|].
    intros links _. by case_match. }
  intros [] _. eapply yields_mono; [| |apply verify_bodies_spec]; [done|]. by intros [] (?&_&?).
Qed.

Lemma wp_for_each {S E A} (F : E → Prop) (P : A → Prop) (op : A → stm S E unit) xs :
  (∀ x s, x ∈ xs → wp F (op x) (λ _ _, P x) s) →
  ∀ s, wp F (for_each xs op) (λ _ _, ∀ x, x ∈ xs → P x) s.
Proof using.
  induction xs as [|x xs IH]; intros Hop s; cbn [for_each].
  - apply wp_ret. by intros x ?%not_elem_of_nil.
  - apply wp_bind. eapply wp_mono; [|by apply Hop; left]. intros [] s' Hx.
    eapply wp_mono; [|apply IH; intros; apply Hop; by right].
    intros [] s'' Hxs y [->|Hy]%elem_of_cons; auto.
Qed.

Lemma function_storage_spec f :
  yields (λ _, True) (verify_function_storage (specification t) l (new_indexed f)) (λ _,
    ∀ ins, ins ∈ function_instructions_of f →
      match ins with Instruction.Undef _ _ => False | _ => True end ∧
      ∀ operation ty_, stored_type (new_indexed f) ins = Some (operation, ty_) → is_storable ty_ = true →
        ∃ lay, layout_for_target ty_ (specification t) (Z.to_nat (max_type_depth l)) = Ok lay).
Proof using.
  unfold verify_function_storage. cbn [indexed new_indexed]. apply yields_case; [|done|].
  { apply total_for_all. intros ins _. unfold verify_storage.
    repeat case_match; try done; apply verify_layout_total. }
  intros [] Hall ins Hins. apply for_all_spec with (x := ins) in Hall; [|done].
  unfold verify_storage in Hall. split; [by destruct ins|].
  intros operation ty_ Hs Hst. assert (Hlay : verify_layout (specification t) l (func_name (new_indexed f)) operation ty_ = Ok tt).
  { destruct ins; try done; rewrite Hs, Hst in Hall; exact Hall. }
  unfold verify_layout in Hlay. destruct (layout_for_target _ _ _) as [lay| |]; [by exists lay|done..].
Qed.

Context (Hcarriers : module_carriers).

Lemma verify_globals_spec :
  yields (λ _, True) (verify_globals m l) (λ K,
    valuation (global_definition <$> globals m) ∅ ∅ l K ∧ resolve_ok (λ r, K !! r)).
Proof.
  unfold verify_globals. eapply yields_mono; [| |apply evaluate_definitions_spec]; [done| |apply Hl|..].
  - intros K (HK&_&Hr). split; [done|]. intros r t' v Hv. apply (Hr r). unfold lookup_constant. by rewrite Hv.
  - intros d (g&->&Hg)%list_elem_of_fmap. by apply Hcarriers.
  - by intros r t' v Hr.
Qed.

Lemma verify_module_for_target_spec :
  yields (λ _, True) (verify_module_for_target_with_stats m (specification t) l)
    (λ _, ∃ types constants, module_ok types constants).
Proof.
  unfold verify_module_for_target_with_stats.
  apply yields_bind, yields_case; [by apply total_map_err, check_module_total|done|]. intros [] _.
  apply yields_bind, yields_case; [apply total_map_err, sources_total|done|]. intros [] _.
  apply yields_bind, yields_case; [by unfold target_failure; rewrite specification_valid|done|]. intros [] _.
  apply yields_bind, yields_guard; [done|]. intros _. cbv zeta.
  apply yields_bind, yields_case; [|done|].
  { apply total_for_all. intros f (f'&->&_)%list_elem_of_fmap. eapply yields_not_Panic, function_storage_spec. }
  intros [] Hstored. apply yields_bind. eapply yields_mono; [| |apply global_constants_spec]; [done|].
  intros names _. apply yields_bind. eapply yields_mono; [| |apply global_storages_spec]; [done| |].
  2: { intros i ty_ Hi. cbn [storage_types] in Hi. by apply lookup_empty_Some in Hi. }
  intros sets (Hids&Hout&Htypes). apply yields_bind.
  eapply yields_mono; [| |apply verify_globals_spec]; [done|]. intros constants [HK Hres].
  apply yields_bind. eapply yields_mono; [| |apply insert_distinct_spec]; [done|].
  intros _s (_&Hnames&_). apply yields_bind.
  eapply yields_mono; [| |apply verify_declarations_spec]; [done|]. intros [] [Hfids Hdecl].
  assert (Hfs : ∀ s, wp (λ _, True) (for_each (new_indexed <$> functions m)
      (verify_function m l (storage_types sets) constants)) (λ _ _, ∀ x, x ∈ new_indexed <$> functions m →
        function_ok (indexed x) m l (storage_types sets) constants) s).
  { apply wp_for_each. intros x s (f&->&Hf)%list_elem_of_fmap.
    apply verify_function_spec; [done|by apply Hcarriers|done]. }
  specialize (Hfs (mkAnalysis (max_analysis_work l) 0 0)). unfold wp in Hfs.
  destruct (for_each _ _ _) as [[[]| |] b]; [|done..].
  assert (Hstored' : ∀ f ins, f ∈ functions m → ins ∈ function_instructions_of f → _) by
    (intros f ins Hf Hins; apply for_all_spec with (x := new_indexed f) in Hstored;
       [exact (yields_Ok _ _ _ tt (function_storage_spec f) Hstored ins Hins)|by apply list_elem_of_fmap_2]).
  exists (storage_types sets), constants. split; try done.
  - intros f Hf. apply (Hfs (new_indexed f)). by apply list_elem_of_fmap_2.
  - intros ins f Hf Hins. exact (proj1 (Hstored' f ins Hf Hins)).
  - intros ins f operation ty_ Hf Hins. by apply (proj2 (Hstored' f ins Hf Hins)).
  - apply NoDup_app. split_and!; [|intros i Hi (g&->&Hg)%list_elem_of_fmap|done].
    + pose proof (declared_distinct _ _ _ (val_declared _ _ _ _ _ HK)) as Hd.
      rewrite <- list_fmap_compose in Hd. change (def_id ∘ global_definition) with (ConstRef.Global ∘ global_id) in Hd.
      rewrite list_fmap_compose in Hd. by eapply NoDup_fmap_1.
    + apply (Hout g Hg). by apply elem_of_list_to_set.
  - intros i ty_. rewrite Htypes. cbn [storage_types]. split; [|by right].
    intros [Hi|?]; [|done]. by apply lookup_empty_Some in Hi.
Qed.
End module_.

Lemma verify_module_spec m l :
  limits_ok l → module_carriers m →
  yields (λ _, True) (verify_module_with_limits m l) (λ _, ∃ t types constants,
    lookup_target (module_target m) = Ok t ∧ module_ok m l t types constants).
Proof.
  intros Hl Hc. unfold verify_module_with_limits, verify_module_with_stats.
  apply yields_bind, yields_bind, yields_case; [apply total_map_err, total_ok_or|done|].
  intros t Ht. apply yields_bind, yields_case; [|done|].
  { apply total_map_err. unfold validate_layout. by case_decide. }
  intros [] _. eapply yields_mono; [| |by apply verify_module_for_target_spec]; [done|].
  intros _b (types&constants&Hok). exists t, types, constants. split; [|done].
  unfold target_failure in Ht. destruct (lookup_target (module_target m)); simpl in Ht; congruence.
Qed.

(** C5: the verifier is total.  On every module whose constants are in the range of the code's
    integers, and within every admissible resource limits, the whole verification, that is the
    resource walk, the storage layouts, the evaluation of the constants, the declarations, the
    control flow of every function and the types of every operation, ends without a panic. *)
Theorem verifier_total m l (Hl : limits_ok l) (Hc : module_carriers m) :
  verify_module_with_limits m l ≠ Panic.
Proof. by eapply yields_not_Panic, verify_module_spec. Qed.

(** C1: a module the verifier accepts is well formed.  The identities of functions and globals are
    distinct, every function has a declaration of its signature, every stored type has a layout, the
    constants have a valuation; in every function the blocks and values are distinct, the blocks are
    terminated and branch inside the function, the declared types are those of the definitions, every
    operand and terminator is typed, and the function is in SSA form. *)
Theorem verified_module_ok m l (Hl : limits_ok l) (Hc : module_carriers m)
    (Hok : verify_module_with_limits m l = Ok tt) :
  ∃ t types constants, lookup_target (module_target m) = Ok t ∧ module_ok m l t types constants.
Proof. exact (yields_Ok _ _ _ tt (verify_module_spec m l Hl Hc) Hok). Qed.

(** The loop of [Ssa.v] in a module with a constant global. *)
Definition sample_module (result : ValueId) : Module_ :=
  mkModule "x86_64-whale-linux" (mkDataLayout 64 Little)
    [mkGlobal (mkGlobalId 0) "limit" Ty.I32 (ConstValue.I 7) (literal Ty.I32 (ConstValue.I 7)) 4]
    [] [count_down result]
    [mkDecl (mkFunctionId 0) "count_down" (whale [Ty.I32] Ty.I32) Internal None] (mkSources [] [] []).

Lemma sample_carriers result : module_carriers (sample_module result).
Proof.
  split.
  - intros g [->|[]%not_elem_of_nil]%elem_of_cons. reflexivity.
  - intros f [->|[]%not_elem_of_nil]%elem_of_cons ins Hins.
    repeat (apply elem_of_cons in Hins as [->|Hins]; [done|]). by apply not_elem_of_nil in Hins.
Qed.

Lemma verifier_total_witness :
  verify_module_with_limits (sample_module (mkValueId 2)) default_limits ≠ Panic ∧
  verify_module_with_limits (sample_module (mkValueId 3)) default_limits ≠ Panic.
Proof.
  split; (apply verifier_total; [split; simpl; lia|apply sample_carriers]).
Defined.

Lemma verified_module_ok_witness :
  ∃ types constants,
    module_ok (sample_module (mkValueId 2)) default_limits X86_64WhaleLinux types constants.
Proof.
  destruct (verified_module_ok (sample_module (mkValueId 2)) default_limits) as (t&types&constants&Ht&Hok).
  - split; simpl; lia.
  - apply sample_carriers.
  - vm_compute. reflexivity.
  - assert (t = X86_64WhaleLinux) as -> by (vm_compute in Ht; congruence). exists types, constants. exact Hok.
Defined.
