(* ===== verification/BuilderInvariant.v ===== *)
(** * The invariant of the builder ([builder.rs])

    What a function under construction satisfies after any sequence of checked operations, and that
    every checked operation keeps it, does not panic while the counters have room, and leaves the
    builder alone when it reports an error. *)
From S2P Require Export Builder Verified.
Import FunctionBuilder.
Local Open Scope Z_scope.

(** ** Functions under construction *)

Section built.
Context (m : Module_) (f : Function).

(** Every use of an instruction is a value of the function.  The references of a constant
    declaration are not looked up by the builder. *)
Definition operands_known (i : instruction) : Prop :=
  match i with
  | Instruction.ConstDecl _ _ _ _ => True
  | _ => ∀ us v, instr_uses i = Ok us → v ∈ us → v ∈ (value_types f).*1
  end.

(** The calls, function addresses and global addresses agree with the module. *)
Definition symbols_ok (i : instruction) : Prop :=
  match i with
  | Instruction.NullFunction _ sig => validate_signature sig = Ok tt
  | Instruction.FunctionAddr _ id sig => ∃ d, find_decl m id = Some d ∧ decl_signature d = sig
  | Instruction.GlobalAddr _ id t =>
      ∃ g, find_opt (λ g, bool_decide (gs_id g = id)) (global_storage m) = Some g ∧ gs_ty g = t
  | Instruction.Call conv dst t callee args =>
      ∃ sig, match callee with
             | Callee.Direct id => ∃ d, find_decl m id = Some d ∧ decl_signature d = sig
             | Callee.Indirect v => value_type f v = Some (Ty.FnPtr sig)
             end ∧
        validate_signature sig = Ok tt ∧ conv = convention sig ∧ t = Syntax.ret sig ∧
        (is_Some dst ↔ Syntax.ret sig ≠ Ty.Void) ∧
        Forall2 (λ a t, value_type f a = Some t) args (params sig)
  | Instruction.Cast _ _ _ _ _ => False
  | _ => True
  end.

Definition instruction_built (i : instruction) : Prop :=
  operands_known i ∧ symbols_ok i ∧
  match i with Instruction.Phi _ _ incs => ∀ p, p ∈ incs → p.2 ∈ block_id <$> blocks f | _ => True end.

Definition terminator_built (t : terminator) : Prop :=
  (∀ v, terminator_use t = Some v → v ∈ (value_types f).*1) ∧
  (∀ target, target ∈ branch_targets t → target ∈ block_id <$> blocks f) ∧
  match t with Terminator.Ret ty _ => ty = ret_ty f | _ => True end.

(** The phis of a block come first. *)
Definition phis_first (l : list instruction) : Prop :=
  ∃ phis rest, l = phis ++ rest ∧ Forall (λ i, is_phi i = true) phis ∧ Forall (λ i, is_phi i = false) rest.

Record built (nv nb : Z) : Prop := {
  bt_values : NoDup (value_types f).*1;
  bt_fresh p : p ∈ value_types f → vid p.1 < nv;
  bt_definitions : value_types f ≡ₚ function_definitions (new_indexed f);
  bt_blocks : NoDup (block_id <$> blocks f);
  bt_block_fresh b : b ∈ blocks f → bid (block_id b) < nb;
  bt_entry : entry f ∈ block_id <$> blocks f;
  bt_instructions b i : b ∈ blocks f → i ∈ instructions b → instruction_built i;
  bt_terminators b t : b ∈ blocks f → block_terminator b = Some t → terminator_built t;
  bt_phis b : b ∈ blocks f → block_id b ≠ entry f → phis_first (instructions b);
}.
End built.

(** ** Lookups in lists that grow *)

Lemma value_type_app f v t extra :
  value_type f v = Some t →
  value_type (set_value_types (value_types f ++ extra) f) v = Some t.
Proof.
  unfold value_type. cbn [value_types set_value_types]. rewrite find_opt_app. by destruct (find_opt _ _).
Qed.
Lemma value_type_key f v : is_Some (value_type f v) ↔ v ∈ (value_types f).*1.
Proof.
  unfold value_type. rewrite fmap_is_Some, <- not_eq_None_Some, find_opt_None.
  split.
  - intros Hn. apply dec_stable. intros Hk. apply Hn. intros p Hp. apply bool_decide_eq_false.
    intros <-. apply Hk, list_elem_of_fmap. by exists p.
  - intros (p & -> & Hp)%list_elem_of_fmap Hn. specialize (Hn p Hp). by rewrite bool_decide_eq_false in Hn.
Qed.

(** The fields of a module that a built function depends on only grow. *)
Definition extends (m m' : Module_) : Prop :=
  (∃ ds, declarations m' = declarations m ++ ds) ∧ (∃ gs, global_storage m' = global_storage m ++ gs).
#[export] Instance extends_preorder : PreOrder extends.
Proof.
  split.
  - intros m. split; exists []; by rewrite app_nil_r.
  - intros m1 m2 m3 [[d Hd] [g Hg]] [[d' Hd'] [g' Hg']].
    split; [exists (d ++ d'); by rewrite Hd', Hd, app_assoc|exists (g ++ g'); by rewrite Hg', Hg, app_assoc].
Qed.

Lemma find_opt_extend {A} (p : A → bool) l l' x :
  find_opt p l = Some x → find_opt p (l ++ l') = Some x.
Proof. rewrite find_opt_app. by intros ->. Qed.

(** The function has the same blocks up to their contents, and at least the same values. *)
Definition grows (f f' : Function) : Prop :=
  (∀ v t, value_type f v = Some t → value_type f' v = Some t) ∧
  (∀ b, b ∈ block_id <$> blocks f → b ∈ block_id <$> blocks f') ∧ ret_ty f' = ret_ty f.

Section grows.
Context (m m' : Module_) (f f' : Function) (Hm : extends m m') (Hf : grows f f').
#[local] Set Default Proof Using "Type*".

Lemma known_grows v : v ∈ (value_types f).*1 → v ∈ (value_types f').*1.
Proof. rewrite <- !value_type_key. intros [t Ht]. exists t. by apply Hf. Qed.

Lemma symbols_grow i : symbols_ok m f i → symbols_ok m' f' i.
Proof.
  destruct Hm as [[ds Hd] [gs Hg]], Hf as (Hv & _ & _).
  destruct i; simpl; try done; unfold find_decl; rewrite ?Hd, ?Hg.
  - intros (g & E & <-). exists g. eauto using find_opt_extend.
  - intros (d & E & <-). exists d. eauto using find_opt_extend.
  - intros (sig & Hc & Hsig & Hconv & Ht & Hdst & Hargs). exists sig. split_and!; try done.
    + destruct callee; [|by apply Hv]. destruct Hc as (d & E & <-). exists d. eauto using find_opt_extend.
    + eapply Forall2_impl; [exact Hargs|]. intros a t' ?. by apply Hv.
Qed.

Lemma instruction_grows i : instruction_built m f i → instruction_built m' f' i.
Proof.
  intros (Hk & Hs & Hp). split_and!; [|by apply symbols_grow|].
  - destruct i; try done; intros us v Hu Hin; eapply known_grows, Hk; done.
  - destruct i; try done. intros p Hin. by apply Hf, Hp.
Qed.

Lemma terminator_grows t : terminator_built f t → terminator_built f' t.
Proof.
  intros (Hu & Ht & Hr). split_and!.
  - intros v Hv. by apply known_grows, Hu.
  - intros b Hb. by apply Hf, Ht.
  - destruct t; try done. by rewrite Hr, (proj2 (proj2 Hf)).
Qed.
End grows.

Lemma grows_refl f : grows f f.
Proof. split_and!; auto. Qed.

(** A function stays built while the module grows and the counters rise. *)
Lemma built_extend m m' f nv nb nv' nb' :
  built m f nv nb → extends m m' → nv ≤ nv' → nb ≤ nb' → built m' f nv' nb'.
Proof.
  intros [] Hm Hv Hb. split; eauto.
  - intros p Hp. pose proof (bt_fresh0 p Hp). lia.
  - intros b Hp. pose proof (bt_block_fresh0 b Hp). lia.
  - intros b i Hbi Hi. eapply instruction_grows; eauto using grows_refl.
Qed.

(** ** An edit of one block *)

(** The block [b] becomes [b'] with the instructions [new] added, whose results are new values. *)
Section edit.
Context (m : Module_) (f : Function) (nv nb : Z) (Hb : built m f nv nb).
Context (pre post : list BasicBlock) (b b' : BasicBlock).
Context (Hblocks : blocks f = pre ++ b :: post) (Hid : block_id b' = block_id b).
Context (new : list instruction) (nv' : Z).
Context (Hinstr : instructions b' ≡ₚ instructions b ++ new).
#[local] Notation results := (omap instr_result new).
Context (Hnew_ids : NoDup results.*1) (Hnew_fresh : ∀ r, r ∈ results → nv ≤ vid r.1 < nv').
Context (Hnv : nv ≤ nv').
#[local] Notation f' :=
  (set_value_types (value_types f ++ results) (set_blocks (pre ++ b' :: post) f)).
Context (Hnew : ∀ i, i ∈ new → instruction_built m f' i).
Context (Hterm : ∀ t, block_terminator b' = Some t → block_terminator b = Some t ∨ terminator_built f' t).
Context (Hphi : block_id b ≠ entry f → phis_first (instructions b')).
#[local] Set Default Proof Using "Type*".

Lemma edit_ids : block_id <$> blocks f' = block_id <$> blocks f.
Proof. cbn. rewrite Hblocks, !fmap_app, !fmap_cons. by rewrite Hid. Qed.
Lemma edit_grows : grows f f'.
Proof.
  split_and!; [|by rewrite edit_ids|done].
  intros v t Hv. by apply (value_type_app (set_blocks (pre ++ b' :: post) f)).
Qed.
Lemma edit_results : function_results f' ≡ₚ function_results f ++ results.
Proof.
  unfold function_results, function_instructions_of. cbn. rewrite Hblocks.
  rewrite !bind_app, !bind_cons, !omap_app.
  assert (omap instr_result (instructions b') ≡ₚ omap instr_result (instructions b) ++ results) as ->.
  { rewrite Hinstr. by rewrite omap_app. }
  solve_Permutation.
Qed.
Lemma in_edit x : x ∈ blocks f' → x = b' ∨ x ∈ blocks f.
Proof. cbn. rewrite Hblocks, !elem_of_app, !elem_of_cons. tauto. Qed.
Lemma edited_in : b ∈ blocks f.
Proof. rewrite Hblocks. apply elem_of_app. right. by left. Qed.

Lemma built_edit : built m f' nv' nb.
Proof.
  pose proof edited_in as Hin. pose proof edit_grows as Hg.
  assert (Hext : extends m m) by done.
  split.
  - cbn. rewrite fmap_app. apply NoDup_app. split_and!; [apply Hb| |done].
    intros v (p & -> & Hp)%list_elem_of_fmap (r & E & Hr)%list_elem_of_fmap.
    pose proof (bt_fresh _ _ _ _ Hb p Hp). pose proof (Hnew_fresh r Hr). rewrite E in *. lia.
  - cbn. intros p [Hp|Hp]%elem_of_app; [|by apply Hnew_fresh].
    pose proof (bt_fresh _ _ _ _ Hb p Hp). lia.
  - unfold function_definitions. cbn [indexed new_indexed].
    rewrite edit_results, app_assoc. cbn. by rewrite (bt_definitions _ _ _ _ Hb).
  - rewrite edit_ids. apply Hb.
  - intros x [->|Hx]%in_edit; [rewrite Hid|]; by eapply bt_block_fresh.
  - rewrite edit_ids. apply Hb.
  - intros x i [->|Hx]%in_edit Hi.
    + rewrite Hinstr in Hi. apply elem_of_app in Hi as [Hi|Hi]; [|by apply Hnew].
      eapply instruction_grows; [exact Hext|exact Hg|]. by eapply bt_instructions.
    + eapply instruction_grows; [exact Hext|exact Hg|]. by eapply bt_instructions.
  - intros x t [->|Hx]%in_edit Ht.
    + apply Hterm in Ht as [Ht|Ht]; [|done]. eapply terminator_grows; [exact Hg|]. by eapply bt_terminators.
    + eapply terminator_grows; [exact Hg|]. by eapply bt_terminators.
  - intros x [->|Hx]%in_edit Hne; [apply Hphi; by rewrite <- Hid|]. by eapply bt_phis.
Qed.
End edit.

(** ** Builders *)

(** [FunctionBuilder]'s operations leave the declarations of the module alone and number at most [k]
    values and blocks. *)
Record frame (k : Z) (s s' : function_builder) : Prop := {
  st_module : module s' = module s;
  st_id : Syntax.function_id (func s') = Syntax.function_id (func s);
  st_name : function_name (func s') = function_name (func s);
  st_params : function_params (func s') = function_params (func s);
  st_ret : ret_ty (func s') = ret_ty (func s);
  st_entry : entry (func s') = entry (func s);
  st_value : ModuleBuilder.next_value (mb s) ≤ ModuleBuilder.next_value (mb s')
    ≤ ModuleBuilder.next_value (mb s) + k;
  st_block : ModuleBuilder.next_block (mb s) ≤ ModuleBuilder.next_block (mb s')
    ≤ ModuleBuilder.next_block (mb s) + k;
  st_global : ModuleBuilder.next_global (mb s') = ModuleBuilder.next_global (mb s);
}.
Lemma frame_refl s : frame 0 s s.
Proof. split; auto; lia. Qed.
Lemma frame_trans k k' s1 s2 s3 : frame k s1 s2 → frame k' s2 s3 → frame (k + k') s1 s3.
Proof. intros [] []. split; first [lia|congruence]. Qed.

(** What an operation does to the blocks of the function. *)
Definition quiet (s s' : function_builder) : Prop :=
  Syntax.function_id (func s') = Syntax.function_id (func s) ∧ entry (func s') = entry (func s) ∧
  module s' = module s ∧
  ModuleBuilder.source_mapped_functions (mb s') = ModuleBuilder.source_mapped_functions (mb s).
Definition same_shifts (s s' : function_builder) : Prop :=
  ModuleBuilder.source_shifts (mb s') = ModuleBuilder.source_shifts (mb s).

Inductive edit (s s' : function_builder) : Prop :=
  | edit_none : quiet s s' → same_shifts s s' → blocks (func s') = blocks (func s) → edit s s'
  | edit_push pre b post i : quiet s s' → same_shifts s s' →
      blocks (func s) = pre ++ b :: post → blocks (func s') = pre ++ push_instruction i b :: post →
      edit s s'
  | edit_terminate pre b post t : quiet s s' → same_shifts s s' → block_terminator b = None →
      blocks (func s) = pre ++ b :: post → blocks (func s') = pre ++ set_terminator t b :: post →
      edit s s'
  | edit_new_block id name : quiet s s' → same_shifts s s' → id ∉ block_id <$> blocks (func s) →
      blocks (func s') = blocks (func s) ++ [new_block id name] → edit s s'
  | edit_hoist pre b post i q : quiet s q → same_shifts s q →
      block_id b = entry (func s) → is_alloca i = true →
      blocks (func s) = pre ++ b :: post →
      blocks (func q) =
        pre ++ set_instructions (insert_at (alloca_prefix (instructions b)) i (instructions b)) b :: post →
      s' = record_shift (alloca_prefix (instructions b)) q → edit s s'.

Record step (k : Z) (s s' : function_builder) : Prop := {
  st_frame : frame k s s';
  st_edits : rtc edit s s';
}.
Lemma step_refl s : step 0 s s.
Proof. split; [apply frame_refl|done]. Qed.
Lemma step_trans k k' s1 s2 s3 : step k s1 s2 → step k' s2 s3 → step (k + k') s1 s3.
Proof. intros [] []. split; [by eapply frame_trans|by etrans]. Qed.

Record built_state (s : function_builder) : Prop := {
  bs_built : built (module s) (func s) (ModuleBuilder.next_value (mb s)) (ModuleBuilder.next_block (mb s));
  bs_insert : insert_block s ∈ block_id <$> blocks (func s);
  bs_counters : 0 ≤ ModuleBuilder.next_value (mb s) ∧ 0 ≤ ModuleBuilder.next_block (mb s);
}.
(** Another value and another block can be numbered. *)
Definition room (s : function_builder) : Prop :=
  ModuleBuilder.next_value (mb s) + 1 < 2 ^ 32 ∧ ModuleBuilder.next_block (mb s) + 1 < 2 ^ 32.

(** The operation does not panic, keeps the invariant, and an error leaves the builder as it was. *)
Definition safe {E A} (op : stm t E A) (s : function_builder) : Prop :=
  match op s with
  | (Ok _, s') => built_state s' ∧ step 1 s s'
  | (Err _, s') => s' = s
  | (Panic, _) => False
  end.

Section safe.
Context {E : Type}.

Lemma safe_check {A B} (g : function_builder → result E A) (k : A → stm t E B) s :
  g s ≠ Panic → (∀ a, g s = Ok a → safe (k a) s) → safe (check g ≫= k) s.
Proof.
  unfold safe, check, mbind, stm_bind. destruct (g s) as [a|e|]; [intros _ H; by apply (H a)|done|done].
Qed.
Lemma safe_lift {A B} (r : result E A) (k : A → stm t E B) s :
  r ≠ Panic → (∀ a, r = Ok a → safe (k a) s) → safe (lift r ≫= k) s.
Proof. apply (safe_check (λ _, r)). Qed.
Lemma safe_when {B} (b : bool) (e : E) (k : unit → stm t E B) s :
  (b = false → safe (k tt) s) → safe (when_err b e ≫= k) s.
Proof. unfold safe, mbind, stm_bind. destruct b; [done|]. intros H. exact (H eq_refl). Qed.
Lemma safe_get {B} (k : function_builder → stm t E B) s : safe (k s) s → safe (get ≫= k) s.
Proof. done. Qed.
Lemma safe_map_err {F A} (g : E → F) (op : stm t E A) s : safe op s → safe (stm_map_err g op) s.
Proof. unfold safe, stm_map_err. by destruct (op s) as [[] ?]. Qed.
Lemma safe_map {A B} (op : stm t E A) (g : A → B) s : safe op s → safe (x ← op; mret (g x)) s.
Proof. unfold safe, mbind, stm_bind. by destruct (op s) as [[] ?]. Qed.
End safe.

(** *** The primitive edits *)

Lemma ensure_insertable_total s : ensure_insertable s ≠ Panic.
Proof. unfold ensure_insertable. apply total_bind; [auto with total|]. intros b _. by destruct (is_terminated b). Qed.
Lemma ensure_block_total b s : ensure_block b s ≠ Panic.
Proof. apply total_guard. Qed.
Lemma ensure_values_total vs s : ensure_values vs s ≠ Panic.
Proof. induction vs as [|v vs IH]; simpl; [done|]. by destruct (value_type _ _). Qed.
#[export] Hint Resolve ensure_insertable_total ensure_block_total ensure_values_total : total.

Lemma ensure_block_Ok b s : ensure_block b s = Ok tt → b ∈ block_id <$> blocks (func s).
Proof.
  unfold ensure_block. rewrite guard_err_Ok, existsb_exists. intros (x & Hx & <-%bool_decide_eq_true).
  by apply list_elem_of_fmap_2, list_elem_of_In.
Qed.
Lemma ensure_values_Ok vs s : ensure_values vs s = Ok tt → Forall (λ v, v ∈ (value_types (func s)).*1) vs.
Proof.
  induction vs as [|v vs IH]; simpl; [by constructor|].
  destruct (value_type (func s) v) eqn:Ev; [|done]. intros H. constructor; [|by apply IH].
  apply value_type_key. by rewrite Ev.
Qed.

(** The block a lookup finds, and the list around it. *)
Lemma find_block_split id bs b :
  find_opt (λ b, bool_decide (block_id b = id)) bs = Some b →
  ∃ pre post, bs = pre ++ b :: post ∧ block_id b = id ∧
    ∀ g, update_block id g bs = Some (pre ++ g b :: post).
Proof.
  induction bs as [|x bs IH]; [done|]. unfold find_opt. simpl. case_decide as Hx.
  - intros [= <-]. exists [], bs. apply bool_decide_eq_true in Hx. split_and!; try done.
    intros g. by rewrite bool_decide_eq_true_2.
  - intros Hf. destruct IH as (pre & post & -> & Hid & Hg).
    { unfold find_opt. by destruct (list_find _ bs) as [[]|]. }
    exists (x :: pre), post. split_and!; try done. intros g.
    rewrite bool_decide_eq_false_2 by (by intros ?; apply Hx, bool_decide_eq_true). by rewrite Hg.
Qed.

Lemma ensure_insertable_Ok s :
  ensure_insertable s = Ok tt →
  ∃ pre b post, blocks (func s) = pre ++ b :: post ∧ block_id b = insert_block s ∧
    find_block (insert_block s) s = Some b ∧ block_terminator b = None ∧
    ∀ g, update_block (insert_block s) g (blocks (func s)) = Some (pre ++ g b :: post).
Proof.
  unfold ensure_insertable. rewrite bind_Ok. intros (b & Hb%ok_or_Ok & Ht).
  destruct (find_block_split _ _ _ Hb) as (pre & post & Hbs & Hid & Hg).
  exists pre, b, post. split_and!; try done. unfold is_terminated in Ht. by destruct (block_terminator b).
Qed.

Lemma phis_first_snoc l i :
  is_phi i = false ∨ Forall (λ i, is_phi i = true) l → phis_first l → phis_first (l ++ [i]).
Proof.
  intros Hi (phis & rest & -> & Hp & Hr). destruct (is_phi i) eqn:Ei.
  - destruct Hi as [|Hl]; [done|]. exists ((phis ++ rest) ++ [i]), [].
    rewrite app_nil_r. split_and!; [done| |constructor]. apply Forall_app. auto.
  - exists phis, (rest ++ [i]). rewrite app_assoc. split_and!; auto. apply Forall_app; auto.
Qed.

Section primitives.
Context (s : function_builder) (Hs : built_state s) (Hroom : room s).
Context (Hins : ensure_insertable s = Ok tt).
#[local] Set Default Proof Using "Type*".

(** Where phis may still be added. *)
Definition phi_allowed (i : instruction) : Prop :=
  is_phi i = false ∨
  ∀ b, find_block (insert_block s) s = Some b → Forall (λ i, is_phi i = true) (instructions b).

Lemma insert_same b pre post b' :
  blocks (func s) = pre ++ b :: post → block_id b' = block_id b →
  insert_block s ∈ block_id <$> pre ++ b' :: post.
Proof.
  intros Hbs Hid. pose proof (bs_insert _ Hs) as Hi. rewrite Hbs, fmap_app, fmap_cons in Hi.
  by rewrite fmap_app, fmap_cons, Hid.
Qed.

Lemma set_no_values f : set_value_types (value_types f ++ []) f = f.
Proof. rewrite app_nil_r. by destruct f. Qed.

Lemma edit_block_eq {E} g : ∃ pre b post,
  blocks (func s) = pre ++ b :: post ∧ block_id b = insert_block s ∧
  find_block (insert_block s) s = Some b ∧ block_terminator b = None ∧
  @edit_block E g s = (Ok tt, with_func (set_blocks (pre ++ g b :: post) (func s)) s).
Proof.
  destruct (ensure_insertable_Ok s Hins) as (pre & b & post & Hbs & Hid & Hf & Ht & Hg).
  exists pre, b, post. split_and!; try done.
  unfold edit_block, check, mbind, stm_bind. rewrite Hins. cbn -[update_block]. by rewrite Hg.
Qed.

(** An edit without a new value. *)
Lemma safe_edit {E} (g : BasicBlock → BasicBlock) new :
  (∀ b, block_id (g b) = block_id b ∧ instructions (g b) = instructions b ++ new) →
  omap instr_result new = [] → (∀ i, i ∈ new → instruction_built (module s) (func s) i ∧ is_phi i = false) →
  (∀ b t, block_terminator (g b) = Some t → block_terminator b = Some t ∨ terminator_built (func s) t) →
  (∀ pre b post, blocks (func s) = pre ++ b :: post → block_terminator b = None →
     edit s (with_func (set_blocks (pre ++ g b :: post) (func s)) s)) →
  safe (@edit_block E g) s.
Proof.
  intros Hg Hr Hnew Hterm Hedit. unfold safe.
  destruct (@edit_block_eq E g) as (pre & b & post & Hbs & Hid & Hf & Ht & ->).
  destruct (Hg b) as [Hgid Hgi]. pose proof (bs_built _ Hs) as Hb.
  assert (Hgrows : grows (func s) (set_blocks (pre ++ g b :: post) (func s))).
  { split_and!; [done| |done]. intros x. cbn. by rewrite Hbs, !fmap_app, !fmap_cons, Hgid. }
  assert (Hb' := built_edit _ _ _ _ Hb pre post b (g b) Hbs Hgid new (ModuleBuilder.next_value (mb s))).
  rewrite Hr in Hb'.
  change (value_types (func s)) with (value_types (set_blocks (pre ++ g b :: post) (func s))) in Hb'.
  rewrite set_no_values in Hb'.
  split; [split|].
  - apply Hb'.
    + by rewrite Hgi.
    + constructor.
    + by intros r ?%not_elem_of_nil.
    + lia.
    + intros j Hj. eapply instruction_grows; [done|exact Hgrows|]. by apply Hnew.
    + intros t [|Ht']%Hterm; [by left|right]. by eapply terminator_grows.
    + intros Hne. assert (Hl : phis_first (instructions b)).
      { eapply bt_phis; [done| |done]. rewrite Hbs. apply elem_of_app. right. by left. }
      rewrite Hgi. assert (Hall : ∀ i, i ∈ new → is_phi i = false) by (intros i Hi; by apply Hnew).
      clear -Hl Hall. revert Hl Hall. generalize (instructions b). induction new as [|i l IH]; intros k Hk Hall.
      { by rewrite app_nil_r. }
      rewrite (cons_middle i k l), app_assoc. apply IH.
      * apply phis_first_snoc; [left; apply Hall; by left|done].
      * intros j Hj. apply Hall. by right.
  - by eapply insert_same.
  - apply Hs.
  - split; [split; cbn; auto; lia|]. apply rtc_once. by apply Hedit.
Qed.

Lemma safe_push {E} i :
  instr_result i = None → instruction_built (module s) (func s) i → is_phi i = false → safe (@push E i) s.
Proof.
  intros Hr Hi Hphi. apply (safe_edit _ [i]); [done|cbn; by rewrite Hr| |auto|].
  - by intros j ->%list_elem_of_singleton.
  - intros pre b post Hbs _. by eapply edit_push.
Qed.
Lemma safe_terminate {E} term : terminator_built (func s) term → safe (@terminate E term) s.
Proof.
  intros Htm. apply (safe_edit _ []); [intros b; by rewrite app_nil_r|done|by intros i ?%not_elem_of_nil|..].
  - cbn. intros b t [= <-]. by right.
  - intros pre b post Hbs Ht. by eapply edit_terminate.
Qed.

(** The builder with a new value of its type. *)
Definition with_value (type : ty) : function_builder :=
  let b := mb s in
  mk (ModuleBuilder.mk (ModuleBuilder.module b) (ModuleBuilder.next_value b + 1)
        (ModuleBuilder.next_block b) (ModuleBuilder.next_global b) (ModuleBuilder.source_work b)
        (ModuleBuilder.lower_storage_budget b) (ModuleBuilder.source_shifts b)
        (ModuleBuilder.source_mapped_functions b))
    (set_value_types (value_types (func s) ++ [(mkValueId (ModuleBuilder.next_value b), type)]) (func s))
    (insert_block s).

Lemma define_value_eq {E} type :
  @define_value E type s = (Ok (mkValueId (ModuleBuilder.next_value (mb s))), with_value type).
Proof.
  unfold define_value, check, mbind, stm_bind. rewrite Hins. cbn.
  unfold on_mb, zoom, ModuleBuilder.fresh_value.
  rewrite debug_u_id; [done|]. pose proof (bs_counters _ Hs). destruct Hroom. lia.
Qed.

(** The entry or current block with an instruction that defines the new value. *)
Lemma value_edit pre b post b' i type bb :
  let dst := mkValueId (ModuleBuilder.next_value (mb s)) in
  blocks (func s) = pre ++ b :: post → block_id b' = block_id b →
  instructions b' ≡ₚ instructions b ++ [i] → block_terminator b' = block_terminator b →
  instr_result i = Some (dst, type) → instruction_built (module s) (func s) i →
  (block_id b ≠ entry (func s) → phis_first (instructions b')) →
  bb = insert_block s →
  let s' := with_func (set_blocks (pre ++ b' :: post) (func (with_value type))) (with_value type) in
  built_state s' ∧ frame 1 s s'.
Proof.
  intros dst Hbs Hid Hi Ht Hr Hok Hphi -> s'.
  pose proof (bs_built _ Hs) as Hb. pose proof (bs_counters _ Hs) as [Hc Hc'].
  assert (Hb' := built_edit _ _ _ _ Hb pre post b b' Hbs Hid [i]
    (ModuleBuilder.next_value (mb s) + 1) Hi).
  cbn [omap list_omap] in Hb'. rewrite Hr in Hb'.
  split; [split|].
  - apply Hb'.
    + apply NoDup_singleton.
    + intros r ->%list_elem_of_singleton. cbn. lia.
    + lia.
    + intros j ->%list_elem_of_singleton. eapply instruction_grows; [done| |exact Hok].
      split_and!; [|by cbn; rewrite Hbs, !fmap_app, !fmap_cons, Hid|done].
      intros v t Hv. by apply (value_type_app (set_blocks (pre ++ b' :: post) (func s))).
    + intros t. rewrite Ht. auto.
    + done.
  - by eapply insert_same.
  - cbn. lia.
  - split; cbn; auto; lia.
Qed.

Lemma safe_emit {E} type (i : ValueId → instruction) :
  (∀ dst, instr_result (i dst) = Some (dst, type)) →
  (∀ dst, instruction_built (module s) (func s) (i dst)) → (∀ dst, phi_allowed (i dst)) →
  safe (@emit E type i) s.
Proof.
  intros Hr Hi Hphi. unfold safe, emit.
  rewrite (stm_bind_step _ _ _ _ _ (define_value_eq type)).
  set (dst := mkValueId _). set (s1 := with_value type).
  assert (Hins1 : ensure_insertable s1 = Ok tt) by exact Hins.
  destruct (ensure_insertable_Ok s Hins) as (pre & b & post & Hbs & Hid & Hf & Ht & Hg).
  assert (@push E (i dst) s1 =
    (Ok tt, with_func (set_blocks (pre ++ push_instruction (i dst) b :: post) (func s1)) s1)) as Hp.
  { unfold push, edit_block, check, mbind, stm_bind. rewrite Hins1. cbn -[update_block].
    by rewrite Hg. }
  rewrite (stm_bind_step _ _ _ _ _ Hp). cbn -[s1].
  assert (Hv : edit s s1) by by apply edit_none.
  destruct (value_edit pre b post (push_instruction (i dst) b) (i dst) type (insert_block s)) as [Hb2 Hf2];
    try done.
  - intros Hne. apply phis_first_snoc.
    + destruct (Hphi dst) as [|Hall]; [by left|]. right. by apply Hall.
    + eapply bt_phis; [apply Hs| |done]. rewrite Hbs. apply elem_of_app. right. by left.
  - split; [done|]. split; [done|]. eapply rtc_l; [exact Hv|]. apply rtc_once. by eapply edit_push.
Qed.
End primitives.

(** ** The checked operations *)

Module Op.
Inductive t :=
  | GlobalAddr (global : GlobalId)
  | LifetimeEnd (ptr : ValueId)
  | PtrDiff (lhs rhs : ValueId)
  | Not (type : ty) (src : ValueId)
  | Phi (type : ty) (incomings : list (ValueId * BlockId))
  | SetInsertPoint (bb : BlockId)
  | CreateBlock (name : string)
  | Undef (type : ty)
  | ConstDecl (name : string) (expression : const_expr) (value : const_value)
  | ConstBool (v : bool)
  | ConstI32 (v : Z)
  | ConstInt (type : ty) (v : Z)
  | ConstUint (type : ty) (v : Z)
  | ConstFloat (as_f32 : Z → Z) (type : ty) (v : Z)
  | ConstFloatBits (type : ty) (v : FloatBits)
  | Add (type : ty) (lhs rhs : ValueId)
  | Bin (op : BinOp.t) (type : ty) (lhs rhs : ValueId)
  | ICmp (pred : ICmpPred.t) (type : ty) (lhs rhs : ValueId)
  | Cmp (op : CmpOp.t) (type : ty) (lhs rhs : ValueId)
  | Checked (op : CheckedOp.t) (type : ty) (lhs rhs : ValueId)
  | Extract (tuple_ty dst_ty : ty) (tuple : ValueId) (index : Z)
  | Alloca (type : ty) (align : Z)
  | AllocaInEntry (type : ty) (align : Z)
  | Load (type : ty) (ptr : ValueId) (align : Z)
  | Uninit (type : ty) (ptr : ValueId) (align : Z)
  | Store (type : ty) (value ptr : ValueId) (align : Z)
  | TrapIf (cond : ValueId) (reason : string)
  | Br (target : BlockId)
  | CBr (cond : ValueId) (then_bb else_bb : BlockId)
  | Trap (reason : string)
  | Ret (value : option ValueId)
  | NullFunction (sig : FunctionSignature)
  | FunctionAddr (function : FunctionId)
  | Call (callee : Callee.t) (args : list ValueId).
End Op.

Definition built_value (op : stm t builder_error ValueId) : stm t call_error (option ValueId) :=
  stm_map_err CallError.Builder (v ← op; mret (Some v)).
Definition built_unit (op : stm t builder_error unit) : stm t call_error (option ValueId) :=
  stm_map_err CallError.Builder (_ ← op; mret None).

Definition run (o : Op.t) : stm t call_error (option ValueId) :=
  match o with
  | Op.GlobalAddr g => built_value (try_global_addr g)
  | Op.LifetimeEnd ptr => built_unit (try_lifetime_end ptr)
  | Op.PtrDiff lhs rhs => built_value (try_ptrdiff lhs rhs)
  | Op.Not type src => built_value (try_not type src)
  | Op.Phi type incomings => built_value (try_phi type incomings)
  | Op.SetInsertPoint bb => built_unit (try_set_insert_point bb)
  | Op.CreateBlock name => built_unit (_ ← create_block name; mret tt)
  | Op.Undef type => built_value (try_undef type)
  | Op.ConstDecl name e v => built_value (try_const_decl name e v)
  | Op.ConstBool v => built_value (try_const_bool v)
  | Op.ConstI32 v => built_value (try_const_i32 v)
  | Op.ConstInt type v => built_value (try_const_int type v)
  | Op.ConstUint type v => built_value (try_const_uint type v)
  | Op.ConstFloat as_f32 type v => built_value (try_const_float as_f32 type v)
  | Op.ConstFloatBits type v => built_value (try_const_float_bits type v)
  | Op.Add type lhs rhs => built_value (try_add type lhs rhs)
  | Op.Bin op type lhs rhs => built_value (try_bin op type lhs rhs)
  | Op.ICmp pred type lhs rhs => built_value (try_icmp pred type lhs rhs)
  | Op.Cmp op type lhs rhs => built_value (try_cmp op type lhs rhs)
  | Op.Checked op type lhs rhs => built_value (try_checked op type lhs rhs)
  | Op.Extract tuple_ty dst_ty tuple index => built_value (try_extract tuple_ty dst_ty tuple index)
  | Op.Alloca type align => built_value (try_alloca type align)
  | Op.AllocaInEntry type align => built_value (try_alloca_in_entry type align)
  | Op.Load type ptr align => built_value (try_load type ptr align)
  | Op.Uninit type ptr align => built_unit (try_uninit type ptr align)
  | Op.Store type value ptr align => built_unit (try_store type value ptr align)
  | Op.TrapIf cond reason => built_unit (try_trap_if cond reason)
  | Op.Br target => built_unit (try_br target)
  | Op.CBr cond then_bb else_bb => built_unit (try_cbr cond then_bb else_bb)
  | Op.Trap reason => built_unit (try_trap reason)
  | Op.Ret value => built_unit (try_ret value)
  | Op.NullFunction sig => v ← null_function sig; mret (Some v)
  | Op.FunctionAddr function => v ← function_addr function; mret (Some v)
  | Op.Call callee args => call callee args
  end.

Lemma safe_value op s : safe op s → safe (built_value op) s.
Proof. intros. by apply safe_map_err, safe_map. Qed.
Lemma safe_unit op s : safe op s → safe (built_unit op) s.
Proof. intros. by apply safe_map_err, (safe_map op (λ _, None)). Qed.

(** An instruction whose operands are among known values and that names no symbol. *)
Lemma plain_ok m f i vs :
  instr_uses i = Ok vs → Forall (λ v, v ∈ (value_types f).*1) vs → symbols_ok m f i → is_phi i = false →
  instruction_built m f i.
Proof.
  intros Hu Hk Hs Hphi. split_and!; [|done|by destruct i].
  rewrite Forall_forall in Hk. destruct i; try exact I;
    intros us v Hus Hin; rewrite Hu in Hus; injection Hus as <-; by apply Hk.
Qed.

Section operations.
Context (s : function_builder) (Hs : built_state s) (Hroom : room s).
#[local] Set Default Proof Using "Type*".

Lemma safe_insertable {E A} (g : builder_error → E) (k : unit → stm t E A) :
  (ensure_insertable s = Ok tt → safe (k tt) s) → safe (stm_map_err g insertable ≫= k) s.
Proof.
  intros Hk. unfold safe, stm_map_err, insertable, check, mbind, stm_bind.
  pose proof (ensure_insertable_total s). destruct (ensure_insertable s) as [[]| |]; [|done..].
  by apply Hk.
Qed.
Lemma safe_insertable' {A} (k : unit → stm t builder_error A) :
  (ensure_insertable s = Ok tt → safe (k tt) s) → safe (insertable ≫= k) s.
Proof. intros Hk. apply safe_check; [apply ensure_insertable_total|]. by intros []. Qed.
Lemma safe_known {A} vs (k : unit → stm t builder_error A) :
  (Forall (λ v, v ∈ (value_types (func s)).*1) vs → safe (k tt) s) → safe (known vs ≫= k) s.
Proof. intros Hk. apply safe_check; [auto with total|]. by intros [] ?%ensure_values_Ok; apply Hk. Qed.
Lemma safe_with_values {A} vs (op : stm t builder_error A) :
  (ensure_insertable s = Ok tt → Forall (λ v, v ∈ (value_types (func s)).*1) vs → safe op s) →
  safe (with_values vs op) s.
Proof. intros Hop. apply safe_insertable'. intros Hi. apply safe_known. auto. Qed.

(** An instruction after its operands have been looked up. *)
Lemma safe_plain {E} type (i : ValueId → instruction) vs :
  ensure_insertable s = Ok tt → Forall (λ v, v ∈ (value_types (func s)).*1) vs →
  (∀ dst, instr_uses (i dst) = Ok vs) → (∀ dst, instr_result (i dst) = Some (dst, type)) →
  (∀ dst, symbols_ok (module s) (func s) (i dst)) → (∀ dst, is_phi (i dst) = false) →
  safe (@emit E type i) s.
Proof.
  intros Hi Hk Hu Hr Hsym Hp. apply safe_emit; try done.
  - intros dst. by eapply plain_ok.
  - intros dst. by left.
Qed.
Lemma safe_plain_push {E} i vs :
  ensure_insertable s = Ok tt → Forall (λ v, v ∈ (value_types (func s)).*1) vs → instr_uses i = Ok vs →
  instr_result i = None → symbols_ok (module s) (func s) i → is_phi i = false → safe (@push E i) s.
Proof. intros. apply safe_push; try done. by eapply plain_ok. Qed.

Lemma safe_const_decl {E} name e v :
  ensure_insertable s = Ok tt → safe (@const_decl E name e v) s.
Proof.
  intros Hi. apply safe_emit; try done. intros dst. by left.
Qed.

Lemma safe_phi type incs : safe (try_phi type incs) s.
Proof.
  unfold try_phi. apply safe_insertable'. intros Hi. apply safe_check.
  { induction incs as [|[v b] incs IH]; cbn [ensure_incomings]; [done|]. auto 8 with total. }
  intros [] Hinc.
  assert (Hin : Forall (λ p, p.1 ∈ (value_types (func s)).*1 ∧ p.2 ∈ block_id <$> blocks (func s)) incs).
  { clear -Hinc. induction incs as [|[v b] incs IH]; [by constructor|]. cbn [ensure_incomings] in Hinc.
    apply bind_Ok in Hinc as ([] & Hv & ([] & Hb & Hrest)%bind_Ok).
    apply ensure_values_Ok in Hv. rewrite Forall_singleton in Hv. apply ensure_block_Ok in Hb. constructor; [done|].
    by apply IH. }
  rewrite Forall_forall in Hin. clear Hinc.
  destruct (ensure_insertable_Ok s Hi) as (pre & b & post & Hbs & Hid & Hf & Ht & Hg).
  apply safe_check; [rewrite Hf; apply total_guard|]. intros []. rewrite Hf. cbn [mbind result_bind expect].
  rewrite guard_err_Ok. intros Hphis%negb_true_iff. apply safe_emit; try done.
  - intros dst. split_and!; [|done|].
    + intros us v [= <-] (p & -> & Hp)%list_elem_of_fmap. by apply Hin.
    + intros p Hp. by apply Hin.
  - intros dst. right. intros b' Hb'. rewrite Hf in Hb'. injection Hb' as <-.
    apply Forall_forall. intros i Hi'. apply not_false_is_true. intros Hno.
    assert (existsb (λ i, negb (is_phi i)) (instructions b) = true) as Hc; [|congruence].
    apply existsb_exists. exists i. rewrite Hno. split; [by apply list_elem_of_In|done].
Qed.

Lemma safe_set_insert_point bb : safe (try_set_insert_point bb) s.
Proof.
  apply safe_check; [auto with total|]. intros [] Hb%ensure_block_Ok. split.
  - split; [apply Hs|exact Hb|apply Hs].
  - split; [split; cbn; auto; lia|]. apply rtc_once. by apply edit_none.
Qed.

Lemma safe_create_block name : safe (E := builder_error) (create_block name) s.
Proof.
  pose proof (bs_counters _ Hs) as [Hc Hc']. destruct Hroom as [Hr Hr'].
  unfold safe, create_block, on_mb, zoom, ModuleBuilder.fresh_block, mbind, stm_bind, modify.
  rewrite debug_u_id by lia. cbn [ModuleBuilder.next_block].
  destruct (bs_built _ Hs) as [B1 B2 B3 B4 B5 B6 B7 B8 B9].
  set (id := mkBlockId _). set (f' := set_blocks _ _).
  assert (Hids : block_id <$> blocks f' = (block_id <$> blocks (func s)) ++ [id]).
  { cbn. by rewrite fmap_app. }
  assert (Hin : ∀ b, b ∈ blocks f' → b ∈ blocks (func s) ∨ b = new_block id name).
  { cbn. intros b. rewrite elem_of_app, list_elem_of_singleton. tauto. }
  assert (Hg : grows (func s) f').
  { split_and!; [done| |done]. intros b Hb. rewrite Hids. apply elem_of_app. by left. }
  split; [split|]; cbn [func mb module with_func with_mb ModuleBuilder.module ModuleBuilder.next_value
    ModuleBuilder.next_block insert_block].
  - split; try done.
    + change (value_types f') with (value_types (func s)). rewrite B3.
      unfold function_definitions, function_results, function_instructions_of. cbn.
      rewrite bind_app. cbn. by rewrite app_nil_r.
    + rewrite Hids. apply NoDup_app. split_and!; [done| |apply NoDup_singleton].
      intros b (x & -> & Hx)%list_elem_of_fmap Hb%list_elem_of_singleton.
      pose proof (B5 x Hx). rewrite Hb in *. cbn in *. lia.
    + intros b [Hb| ->]%Hin; [pose proof (B5 b Hb)|]; cbn; lia.
    + rewrite Hids. apply elem_of_app. by left.
    + intros b i [Hb| ->]%Hin; [|by intros ?%not_elem_of_nil]. intros Hi. eapply instruction_grows; eauto.
      reflexivity.
    + intros b t [Hb| ->]%Hin; [|done]. intros Ht. eapply terminator_grows; eauto.
    + intros b [Hb| ->]%Hin; [by eauto|]. intros _. exists [], []. by repeat constructor.
  - rewrite Hids. apply elem_of_app. left. apply Hs.
  - lia.
  - split; [split; cbn; auto; lia|]. apply rtc_once. apply (edit_new_block _ _ id name); try done.
    intros (x & Ex & Hx)%list_elem_of_fmap. pose proof (B5 x Hx). rewrite <- Ex in *. cbn in *. lia.
Qed.

Lemma insert_at_Permutation {A} n (x : A) l : insert_at n x l ≡ₚ l ++ [x].
Proof.
  unfold insert_at. rewrite <- (take_drop n l) at 3. rewrite <- app_assoc. apply Permutation_app_head.
  apply Permutation_cons_append.
Qed.

Lemma record_shift_same pos (q : function_builder) :
  built_state q → frame 1 s q → built_state (record_shift pos q) ∧ frame 1 s (record_shift pos q).
Proof. intros Hq Hst. unfold record_shift. case_bool_decide; [|done]. split; destruct Hq, Hst; by split. Qed.

Lemma safe_alloca_in_entry {E} type align :
  ensure_insertable s = Ok tt → safe (@alloca_in_entry E type align) s.
Proof.
  intros Hi. unfold safe, alloca_in_entry.
  rewrite (stm_bind_step _ _ _ _ _ (define_value_eq s Hs Hroom Hi (Ty.Ptr type))).
  set (dst := mkValueId _). set (s1 := with_value s _). unfold get, mbind, stm_bind.
  assert (Hentry : ∃ b, find_block (entry (func s1)) s1 = Some b).
  { destruct (find_block _ _) eqn:Hf; [by eexists|]. exfalso. unfold find_block in Hf.
    rewrite find_opt_None in Hf. pose proof (bt_entry _ _ _ _ (bs_built _ Hs)) as He.
    apply list_elem_of_fmap in He as (b & Eb & Hb). specialize (Hf b Hb).
    by rewrite bool_decide_eq_false in Hf. }
  destruct Hentry as [b Hf]. rewrite Hf. cbn [expect lift].
  destruct (find_block_split _ _ _ Hf) as (pre & post & Hbs & Hid & Hg). rewrite Hg. cbn [expect].
  cbn [modify]. set (b' := set_instructions _ b).
  set (s2 := with_func _ s1).
  destruct (value_edit s Hs Hroom Hi pre b post b' (Instruction.Alloca dst type align) (Ty.Ptr type)
    (insert_block s)) as [Hb2 Hst2]; try done.
  - apply insert_at_Permutation.
  - by eapply (plain_ok _ _ _ []).
  - destruct (record_shift_same (alloca_prefix (instructions b)) s2 Hb2 Hst2) as [Hb3 Hf3].
    split; [done|]. split; [done|]. eapply rtc_l; [by apply (edit_none s s1)|]. apply rtc_once.
    by apply (edit_hoist s1 _ pre b post (Instruction.Alloca dst type align) s2).
Qed.

Lemma safe_try_alloca_in_entry type align : safe (try_alloca_in_entry type align) s.
Proof.
  unfold try_alloca_in_entry. apply safe_insertable'. intros Hi. apply safe_get.
  apply safe_check; [auto with total|]. intros [] (b & Eb & Hb)%ensure_block_Ok%list_elem_of_fmap.
  destruct (find_block (entry (func s)) s) as [x|] eqn:Hf.
  - apply safe_when. intros _. by apply safe_alloca_in_entry.
  - unfold find_block in Hf. rewrite find_opt_None in Hf. specialize (Hf b Hb).
    by rewrite bool_decide_eq_false in Hf.
Qed.
End operations.

(** ** Calls *)

Lemma default_limits_ok : limits_ok default_limits.
Proof. split; simpl; lia. Qed.
Lemma validate_signature_total sig : validate_signature sig ≠ Panic.
Proof. exact (signature_total default_limits default_limits_ok sig). Qed.
#[export] Hint Resolve validate_signature_total : total.

Lemma callee_signature_total c s : callee_signature c s ≠ Panic.
Proof.
  unfold callee_signature. apply total_bind; [|auto with total].
  destruct c; [unfold find_declaration; auto with total|]. repeat case_match; auto with total.
Qed.
Lemma callee_signature_Ok c s sig :
  callee_signature c s = Ok sig →
  match c with
  | Callee.Direct id => ∃ d, find_decl (module s) id = Some d ∧ decl_signature d = sig
  | Callee.Indirect v => value_type (func s) v = Some (Ty.FnPtr sig)
  end ∧ validate_signature sig = Ok tt.
Proof.
  unfold callee_signature. rewrite bind_Ok. intros (sig' & Hc & ([] & Hv & [= ->])%bind_Ok).
  split; [|done]. destruct c as [id|v].
  - apply bind_Ok in Hc as (d & Hd%ok_or_Ok & [= <-]). by exists d.
  - destruct (value_type _ _) as [[]|]; try done. by injection Hc as ->.
Qed.

Lemma check_arguments_total n l s : check_arguments n l s ≠ Panic.
Proof. revert n. induction l as [|[a t] l IH]; intros n; simpl; [done|]. auto 8 with total. Qed.
Lemma check_arguments_Ok args ts s : length args = length ts → ∀ n,
  check_arguments n (zip args ts) s = Ok tt → Forall2 (λ a t, value_type (func s) a = Some t) args ts.
Proof.
  revert ts. induction args as [|a args IH]; intros [|t ts] Hl n; simpl; try done.
  intros (got & Hg%ok_or_Ok & ([] & ->%guard_err_Ok%bool_decide_eq_true & Hr)%bind_Ok)%bind_Ok.
  constructor; [done|]. injection Hl as Hl. by eapply IH.
Qed.

Section calls.
Context (s : function_builder) (Hs : built_state s) (Hroom : room s).
#[local] Set Default Proof Using "Type*".

Lemma safe_null_function sig : safe (v ← null_function sig; mret (Some v)) s.
Proof.
  apply (safe_map _ Some). unfold null_function. apply safe_lift; [auto with total|]. intros [] Hsig.
  apply safe_insertable; try done. intros Hi. by apply (safe_plain s Hs Hroom _ _ []).
Qed.

Lemma safe_function_addr f : safe (v ← function_addr f; mret (Some v)) s.
Proof.
  apply (safe_map _ Some). unfold function_addr. apply safe_check; [apply callee_signature_total|].
  intros sig [Hd Hsig]%callee_signature_Ok. apply safe_lift; [auto with total|]. intros [] _.
  apply safe_insertable; try done. intros Hi. by apply (safe_plain s Hs Hroom _ _ []).
Qed.

(** The end of [call], where a result is defined first. *)
Lemma call_tail t (i : option ValueId → instruction) :
  (dst ← (dst ← define_value t; mret (Some dst)); _ ← push (i dst); mret dst) s =
  (x ← @emit call_error t (λ dst, i (Some dst)); mret (Some x)) s.
Proof.
  unfold emit, mbind, stm_bind. destruct (define_value t s) as [[dst|e|] s1]; try done. cbn.
  by destruct (push _ s1) as [[]].
Qed.

Lemma safe_call callee args : safe (call callee args) s.
Proof.
  unfold call. apply safe_insertable; try done. intros Hi.
  apply safe_check; [apply callee_signature_total|]. intros sig [Hd Hsig]%callee_signature_Ok.
  apply safe_lift; [auto with total|]. intros [] _.
  apply safe_lift; [apply total_guard|]. intros []. rewrite guard_err_Ok. intros Hlen%Nat.eqb_eq.
  apply safe_check; [apply check_arguments_total|]. intros [] Hargs%check_arguments_Ok; [|done].
  assert (Hok : ∀ dst, (is_Some dst ↔ Syntax.ret sig ≠ Ty.Void) →
    instruction_built (module s) (func s)
      (Instruction.Call (convention sig) dst (Syntax.ret sig) callee args)).
  { intros dst Hdst. split_and!; [|by exists sig|done].
    intros us v [= <-] Hv. apply value_type_key. apply elem_of_app in Hv as [Hv|Hv].
    - destruct callee as [id|w]; [by apply not_elem_of_nil in Hv|].
      apply list_elem_of_singleton in Hv as ->. by rewrite Hd.
    - apply list_elem_of_lookup in Hv as [k Hk].
      destruct (Forall2_lookup_l _ _ _ _ _ Hargs Hk) as (t & _ & Ht). by rewrite Ht. }
  case_bool_decide as Hvoid.
  - apply (safe_map _ (λ _, None)), safe_push; try done. apply Hok. rewrite Hvoid.
    split; [by intros []|done].
  - unfold safe. rewrite (call_tail _ (λ dst, Instruction.Call _ dst _ _ _)).
    apply (safe_map _ Some), safe_emit; try done.
    + intros dst. apply Hok. split; [done|by eexists].
    + intros dst. by left.
Qed.
End calls.

(** ** Every checked operation *)

Lemma terminator_known f t :
  (∀ v, terminator_use t = Some v → v ∈ (value_types f).*1) →
  (∀ b, b ∈ branch_targets t → b ∈ block_id <$> blocks f) →
  match t with Terminator.Ret ty _ => ty = ret_ty f | _ => True end → terminator_built f t.
Proof. intros Hu Hb Ht. exact (conj Hu (conj Hb Ht)). Qed.

Section run.
Context (s : function_builder) (Hs : built_state s) (Hroom : room s).
#[local] Set Default Proof Using "Type*".

Lemma safe_global_addr g : safe (try_global_addr g) s.
Proof.
  unfold try_global_addr. apply safe_insertable'; [done..|]. intros Hi.
  apply safe_check; [apply total_ok_or|]. intros x Hx%ok_or_Ok.
  apply (safe_plain s Hs Hroom _ _ []); try done. intros dst. by exists x.
Qed.
Lemma safe_lifetime_end ptr : safe (try_lifetime_end ptr) s.
Proof.
  apply safe_with_values; [done..|]. intros Hi Hk. apply safe_check; [apply total_guard|]. intros [] _.
  by apply (safe_plain_push s Hs Hroom _ [ptr]).
Qed.
Lemma safe_ptrdiff lhs rhs : safe (try_ptrdiff lhs rhs) s.
Proof.
  apply safe_with_values; [done..|]. intros Hi Hk. assert (Hl := Hk).
  apply Forall_cons in Hl as [[t Ht]%value_type_key _].
  apply safe_check; [by rewrite Ht|]. intros t' _. apply safe_check; [apply total_guard|]. intros [] _.
  by apply (safe_plain s Hs Hroom _ _ [lhs; rhs]).
Qed.
Lemma safe_const_float as_f32 type v : safe (try_const_float as_f32 type v) s.
Proof.
  apply safe_insertable'; [done..|]. intros Hi. unfold const_float. apply safe_lift.
  - unfold from_f64. by destruct type.
  - intros bits _. by apply (safe_plain s Hs Hroom _ _ []).
Qed.
Lemma safe_br target : safe (try_br target) s.
Proof.
  apply safe_insertable'; [done..|]. intros Hi. apply safe_check; [auto with total|].
  intros [] Hb%ensure_block_Ok. apply safe_terminate; try done. apply terminator_known; try done.
  by intros b ->%list_elem_of_singleton.
Qed.
Lemma safe_cbr cond b1 b2 : safe (try_cbr cond b1 b2) s.
Proof.
  apply safe_with_values; [done..|]. intros Hi Hk. rewrite Forall_singleton in Hk.
  apply safe_check; [auto with total|]. intros [] H1%ensure_block_Ok.
  apply safe_check; [auto with total|]. intros [] H2%ensure_block_Ok.
  apply safe_terminate; try done. apply terminator_known; try done.
  - by intros v [= <-].
  - by intros b [-> | ->%list_elem_of_singleton]%elem_of_cons.
Qed.
Lemma safe_trap reason : safe (try_trap reason) s.
Proof.
  apply safe_insertable'; [done..|]. intros Hi. apply safe_terminate; try done.
  apply terminator_known; try done. by intros b ?%not_elem_of_nil.
Qed.
Lemma safe_ret value : safe (try_ret value) s.
Proof.
  apply safe_insertable'; [done..|]. intros Hi.
  assert (Hret : (∀ v, value = Some v → v ∈ (value_types (func s)).*1) →
    safe (E := builder_error) (ret value) s).
  { intros Hv. apply safe_get, safe_terminate; try done. apply terminator_known; try done.
    by intros b ?%not_elem_of_nil. }
  destruct value as [v|]; [|by apply Hret].
  apply safe_known; [done..|]. intros Hk. rewrite Forall_singleton in Hk. apply Hret. by intros w [= <-].
Qed.

(** Every checked operation on a built function runs without a panic as long as the counters have
    room, keeps the function built, and leaves the builder as it was when it reports an error. *)
Lemma run_safe o : safe (run o) s.
Proof.
  destruct o; cbn [run];
    try (apply safe_value + apply safe_unit);
    eauto using safe_global_addr, safe_lifetime_end, safe_ptrdiff, safe_phi, safe_set_insert_point,
      safe_const_float, safe_try_alloca_in_entry, safe_br, safe_cbr, safe_trap, safe_ret,
      safe_null_function, safe_function_addr, safe_call;
    try (apply safe_with_values; [done..|]; intros Hi Hk;
         first [ by eapply (safe_plain s Hs Hroom) | by eapply (safe_plain_push s Hs Hroom) ]);
    try (apply safe_insertable'; [done..|]; intros Hi;
         first [ by eapply (safe_plain s Hs Hroom _ _ []) | by apply safe_const_decl ]).
  by apply (safe_map _ (λ _, tt)), safe_create_block.
Qed.
End run.
