(* ===== verification/BuiltModule.v ===== *)
(** * Modules built through the checked interface ([builder.rs], [verifier.rs])

    A client of the builder is a sequence of declarations, addressable globals and functions, each
    function a sequence of checked operations.  Whatever the client does, nothing panics while the
    32-bit counters have room, and the module that results passes the structural checks of the
    verifier: its errors can only be about types, constants (the references of constant declarations
    included), control flow (blocks without a terminator included), storage without a layout and
    missing definitions. *)
From S2P Require Export BuilderInvariant.
Import FunctionBuilder.
Local Open Scope Z_scope.

(** ** Clients *)

(** A client that goes on after an error. *)
Definition settle {S E A} (p : result E A * S) : result Empty_set S :=
  match p with (Panic, _) => Panic | (_, s) => Ok s end.

Definition run_ops (ops : list Op.t) (s : function_builder) : result Empty_set function_builder :=
  try_fold (λ s o, settle (run o s)) ops s.

Module ModuleOp.
Inductive t :=
  | DeclareFunction (name : string) (sig : FunctionSignature) (linkage : Linkage) (link_name : option string)
  | AddStorage (storage : GlobalStorage)
  | Build (id : FunctionId) (names : list string) (ops : list Op.t).
End ModuleOp.

Definition run_module_op (b : module_builder) (o : ModuleOp.t) : result Empty_set module_builder :=
  match o with
  | ModuleOp.DeclareFunction name sig linkage link_name =>
      settle (ModuleBuilder.declare_function name sig linkage link_name b)
  | ModuleOp.AddStorage storage => settle (ModuleBuilder.try_add_global_storage storage b)
  | ModuleOp.Build id names ops =>
      match begin_declared_function id names b with
      | (Ok (f, entry), b) => s ← run_ops ops (mk b f entry); Ok (FunctionBuilder.finish s)
      | (Err _, b) => Ok b
      | (Panic, _) => Panic
      end
  end.

Definition build_module (target : string) (layout : DataLayout) (ops : list ModuleOp.t)
    : result Empty_set Module_ :=
  b ← ModuleBuilder.new target layout;
  b ← try_fold run_module_op ops b;
  Ok (ModuleBuilder.finish b).

(** An upper bound on the identities a client takes. *)
Definition op_cost (o : ModuleOp.t) : Z :=
  match o with
  | ModuleOp.DeclareFunction _ _ _ _ | ModuleOp.AddStorage _ => 1
  | ModuleOp.Build _ names ops => 1 + len names + len ops
  end.
Definition total_cost (ops : list ModuleOp.t) : Z := foldr (λ o n, op_cost o + n) 0 ops.

(** ** Functions *)

Lemma run_ops_safe ops : ∀ s, built_state s →
  ModuleBuilder.next_value (mb s) + len ops < 2 ^ 32 →
  ModuleBuilder.next_block (mb s) + len ops < 2 ^ 32 →
  ∃ s', run_ops ops s = Ok s' ∧ built_state s' ∧ step (len ops) s s'.
Proof.
  induction ops as [|o ops IH]; intros s Hs Hv Hb.
  { exists s. split; [done|]. split; [done|apply step_refl]. }
  unfold len in *. cbn [length] in *. rewrite Nat2Z.inj_succ in *.
  assert (Hroom : room s) by (split; lia).
  assert (Hsafe := run_safe s Hs Hroom o). unfold safe in Hsafe. unfold run_ops. cbn [try_fold settle].
  destruct (run o s) as [[a|e|] s1]; cbn [settle mbind result_bind]; [|subst s1|done].
  - destruct Hsafe as [Hs1 Hst]. destruct (st_frame _ _ _ Hst).
    destruct (IH s1 Hs1) as (s' & Hrun & Hs' & Hst2); [lia..|].
    exists s'. split_and!; [done..|]. replace (Z.succ _) with (1 + Z.of_nat (length ops)) by lia.
    by eapply step_trans.
  - destruct (IH s Hs) as (s' & Hrun & Hs' & Hst); [lia..|]. exists s'. split_and!; [done..|].
    destruct Hst as [[] ?]. by split; [split; first [lia|done]|].
Qed.

(** Only the source mappings change when shifts are applied. *)
Lemma flush_same s :
  func (flush_source_shifts s) = func s ∧
  declarations (module (flush_source_shifts s)) = declarations (module s) ∧
  global_storage (module (flush_source_shifts s)) = global_storage (module s) ∧
  globals (module (flush_source_shifts s)) = globals (module s) ∧
  functions (module (flush_source_shifts s)) = functions (module s) ∧
  ModuleBuilder.next_value (mb (flush_source_shifts s)) = ModuleBuilder.next_value (mb s) ∧
  ModuleBuilder.next_block (mb (flush_source_shifts s)) = ModuleBuilder.next_block (mb s) ∧
  ModuleBuilder.next_global (mb (flush_source_shifts s)) = ModuleBuilder.next_global (mb s).
Proof. unfold flush_source_shifts. by destruct (_ !! _) as [[]|]. Qed.

(** *** The parameters *)

Definition advance (n : Z) (b : module_builder) : module_builder :=
  ModuleBuilder.mk (ModuleBuilder.module b) (ModuleBuilder.next_value b + n) (ModuleBuilder.next_block b)
    (ModuleBuilder.next_global b) (ModuleBuilder.source_work b) (ModuleBuilder.lower_storage_budget b)
    (ModuleBuilder.source_shifts b) (ModuleBuilder.source_mapped_functions b).

Lemma build_params_spec {E} ps : ∀ b,
  0 ≤ ModuleBuilder.next_value b → ModuleBuilder.next_value b + len ps < 2 ^ 32 →
  ∃ params, @build_params E ps b = (Ok params, advance (len ps) b) ∧
    param_ty <$> params = ps.*2 ∧ NoDup (param_id <$> params) ∧
    ∀ p, p ∈ params → ModuleBuilder.next_value b ≤ vid (param_id p) < ModuleBuilder.next_value b + len ps.
Proof.
  unfold len. induction ps as [|[name type] ps IH]; intros b H1 H2.
  { exists []. split; [|split; [done|split; [constructor|by intros p ?%not_elem_of_nil]]].
    unfold advance. cbn. rewrite Z.add_0_r. by destruct b. }
  cbn [length build_params] in *. rewrite Nat2Z.inj_succ in *.
  destruct (IH (advance 1 b)) as (params & Hp & Hty & Hnd & Hr); [cbn; lia..|]. cbn in Hr.
  exists (mkParam name (mkValueId (ModuleBuilder.next_value b)) type :: params).
  split_and!.
  - unfold ModuleBuilder.fresh_value, mbind, stm_bind. rewrite debug_u_id by lia.
    change (ModuleBuilder.mk _ _ _ _ _ _ _ _) with (advance 1 b). rewrite Hp. cbn.
    unfold advance. cbn. by replace (_ + 1 + _) with (ModuleBuilder.next_value b + Z.succ (Z.of_nat (length ps))) by lia.
  - cbn. by rewrite Hty.
  - cbn. apply NoDup_cons. split; [|done]. intros (p & E1 & Hp')%list_elem_of_fmap.
    specialize (Hr p Hp'). rewrite <- E1 in Hr. cbn in Hr. lia.
  - intros p [->|Hp']%elem_of_cons; [cbn; lia|]. specialize (Hr p Hp'). lia.
Qed.

Lemma build_function_spec {E} id name ps return_type b :
  0 ≤ ModuleBuilder.next_value b → 0 ≤ ModuleBuilder.next_block b →
  ModuleBuilder.next_value b + len ps < 2 ^ 32 → ModuleBuilder.next_block b + 1 < 2 ^ 32 →
  ∃ s, builder_of (E := E) (build_function id name ps return_type) b = Ok s ∧
    build_function (E := E) id name ps return_type b = (Ok (func s, insert_block s), mb s) ∧
    built_state s ∧ module s = ModuleBuilder.module b ∧
    ModuleBuilder.next_value (mb s) = ModuleBuilder.next_value b + len ps ∧
    ModuleBuilder.next_block (mb s) = ModuleBuilder.next_block b + 1 ∧
    ModuleBuilder.next_global (mb s) = ModuleBuilder.next_global b ∧
    Syntax.function_id (func s) = id ∧ function_name (func s) = name ∧
    ret_ty (func s) = return_type ∧ param_ty <$> function_params (func s) = ps.*2.
Proof.
  intros Hv Hb Hvr Hbr. destruct (@build_params_spec E ps b Hv Hvr) as (params & Hp & Hty & Hnd & Hr).
  set (b' := ModuleBuilder.mk (ModuleBuilder.module b) (ModuleBuilder.next_value b + len ps)
    (ModuleBuilder.next_block b + 1) (ModuleBuilder.next_global b) (ModuleBuilder.source_work b)
    (ModuleBuilder.lower_storage_budget b) (ModuleBuilder.source_shifts b)
    (ModuleBuilder.source_mapped_functions b)).
  set (entry_ := mkBlockId (ModuleBuilder.next_block b)).
  set (f := mkFunction id name params return_type [new_block entry_ "entry"] entry_
    ((λ p, (param_id p, param_ty p)) <$> params)).
  assert (Hrun : build_function (E := E) id name ps return_type b = (Ok (f, entry_), b')).
  { unfold build_function. rewrite (stm_bind_step _ _ _ _ _ Hp).
    unfold ModuleBuilder.fresh_block, mbind, stm_bind. cbn. by rewrite debug_u_id by lia. }
  exists (mk b' f entry_). unfold builder_of. rewrite Hrun. split_and!; try done.
  assert (Hkeys : (value_types f).*1 = param_id <$> params) by (cbn; by rewrite <- list_fmap_compose).
  assert (Hone : ∀ x, x ∈ blocks f → x = new_block entry_ "entry") by by intros x ->%list_elem_of_singleton.
  split; cbn [func mb insert_block].
  - split; cbn [ModuleBuilder.next_value ModuleBuilder.next_block b'].
    + by rewrite Hkeys.
    + intros p (q & -> & Hq)%list_elem_of_fmap. by apply Hr.
    + unfold function_definitions, function_results, function_instructions_of. cbn. by rewrite app_nil_r.
    + apply NoDup_singleton.
    + intros x ->%Hone. cbn. lia.
    + by left.
    + intros x i ->%Hone. by intros ?%not_elem_of_nil.
    + by intros x t ->%Hone.
    + intros x ->%Hone _. exists [], []. by repeat constructor.
  - by left.
  - cbn. unfold len in *. lia.
Qed.

(** ** Modules *)

(** The function and its declaration agree, and no parameter is [Void]. *)
Definition declared (m : Module_) (f : Function) : Prop :=
  ∃ d, find_decl m (Syntax.function_id f) = Some d ∧ decl_name d = function_name f ∧
    Syntax.ret (decl_signature d) = ret_ty f ∧ params (decl_signature d) = param_ty <$> function_params f ∧
    Ty.Void ∉ params (decl_signature d).

Lemma declared_extend m m' f : declared m f → extends m m' → declared m' f.
Proof.
  intros (d & Hd & H) [[ds E] _]. exists d. split; [|done]. unfold find_decl. rewrite E.
  by apply find_opt_extend.
Qed.

Definition links (m : Module_) : list string :=
  omap decl_link_name (declarations m) ++ omap gs_link_name (global_storage m).

(** [n] bounds the identities taken so far. *)
Record module_built (n : Z) (b : module_builder) : Prop := {
  mo_values : 0 ≤ ModuleBuilder.next_value b ≤ n;
  mo_blocks : 0 ≤ ModuleBuilder.next_block b ≤ n;
  mo_next_global : 0 ≤ ModuleBuilder.next_global b ≤ n;
  mo_declarations : len (declarations (ModuleBuilder.module b)) ≤ n;
  mo_functions f : f ∈ functions (ModuleBuilder.module b) →
    built (ModuleBuilder.module b) f (ModuleBuilder.next_value b) (ModuleBuilder.next_block b) ∧
    declared (ModuleBuilder.module b) f;
  mo_distinct : NoDup (Syntax.function_id <$> functions (ModuleBuilder.module b));
  mo_decls d : d ∈ declarations (ModuleBuilder.module b) →
    validate_decl_with_limits d default_limits = Ok tt;
  mo_decl_ids i d : declarations (ModuleBuilder.module b) !! i = Some d →
    decl_id d = mkFunctionId (Z.of_nat i);
  mo_decl_names : NoDup (decl_name <$> declarations (ModuleBuilder.module b));
  mo_storage g : g ∈ global_storage (ModuleBuilder.module b) →
    validate_storage_with_limits g default_limits = Ok tt ∧ gid (gs_id g) < ModuleBuilder.next_global b;
  mo_storage_ids : NoDup (gs_id <$> global_storage (ModuleBuilder.module b));
  mo_storage_names : NoDup (gs_name <$> global_storage (ModuleBuilder.module b));
  mo_links : NoDup (links (ModuleBuilder.module b));
  mo_globals : globals (ModuleBuilder.module b) = [];
}.

Lemma module_built_weaken n n' b : module_built n b → n ≤ n' → module_built n' b.
Proof. intros [] ?. split; first [lia|done]. Qed.

Lemma snoc_NoDup {A} (l : list A) x : NoDup l → x ∉ l → NoDup (l ++ [x]).
Proof.
  intros Hl Hx. apply NoDup_app. split_and!; [done| |apply NoDup_singleton].
  by intros y Hy ->%list_elem_of_singleton.
Qed.

Lemma existsb_none {A} (p : A → bool) l : existsb p l = false ↔ ∀ x, x ∈ l → p x = false.
Proof.
  induction l as [|x l IH]; simpl; [split; [by intros _ y ?%not_elem_of_nil|done]|].
  rewrite orb_false_iff, IH. setoid_rewrite elem_of_cons. naive_solver.
Qed.

Lemma link_taken_false m link : ModuleBuilder.link_taken m link = false ↔ link ∉ links m.
Proof.
  unfold ModuleBuilder.link_taken, links. rewrite orb_false_iff, !existsb_none, elem_of_app, !list_elem_of_omap.
  setoid_rewrite bool_decide_eq_false. naive_solver.
Qed.

(** The fields of a built module that an extension of declarations or storage keeps. *)
Lemma functions_extend m m' nv nb nv' nb' :
  extends m m' → functions m' = functions m → nv ≤ nv' → nb ≤ nb' →
  (∀ f, f ∈ functions m → built m f nv nb ∧ declared m f) →
  ∀ f, f ∈ functions m' → built m' f nv' nb' ∧ declared m' f.
Proof.
  intros Hm E ?? Hf f. rewrite E. intros [Hb Hd]%Hf.
  split; [by eapply built_extend|by eapply declared_extend].
Qed.

Lemma declare_safe n b name sig linkage link_name :
  module_built n b → n + 1 < 2 ^ 32 →
  ∃ b', settle (ModuleBuilder.declare_function name sig linkage link_name b) = Ok b' ∧
    module_built (n + 1) b'.
Proof.
  intros Hb Hn. unfold ModuleBuilder.declare_function, ModuleBuilder.declare_function_with_limits.
  assert (Hsame : module_built (n + 1) b) by (eapply module_built_weaken; [done|lia]).
  unfold get, lift, mbind, stm_bind. set (d := mkDecl _ name sig linkage link_name).
  pose proof (decl_total default_limits default_limits_ok d) as Htotal.
  destruct (validate_decl_with_limits d default_limits) as [[]|e|] eqn:Hd; [|by exists b|done].
  destruct (find_opt _ _) as [x|] eqn:Hf; [case_bool_decide; by exists b|].
  set (m := ModuleBuilder.module b) in *.
  assert (Hlink : ∀ (P : Prop), (match link_name with Some l => ModuleBuilder.link_taken m l = false | None => True end → P) →
    (match link_name with Some l => ModuleBuilder.link_taken m l = true | None => False end → P) → P).
  { intros P H1 H2. destruct link_name as [l|]; [|by apply H1]. destruct (ModuleBuilder.link_taken m l) eqn:E; auto. }
  apply Hlink; clear Hlink; intros Hlink.
  2: { exists b. destruct link_name as [l|]; [|done]. by rewrite Hlink. }
  exists (ModuleBuilder.push_decl d b). split.
  { destruct link_name as [l|]; [by rewrite Hlink|done]. }
  destruct Hb as [B1 B2 B3 B4 B5 B6 B7 B8 B9 B10 B11 B12 B13 B14]. fold m in B4, B5, B6, B7, B8, B9, B10, B11, B12, B13, B14.
  assert (Hfresh : d.(decl_name) ∉ decl_name <$> declarations m).
  { rewrite find_opt_None in Hf. intros (y & Ey & Hy)%list_elem_of_fmap. specialize (Hf y Hy).
    cbv beta in Hf. by rewrite <- Ey, String.eqb_refl in Hf. }
  unfold len in *.
  split; cbn [ModuleBuilder.push_decl ModuleBuilder.with_module ModuleBuilder.next_value
    ModuleBuilder.next_block ModuleBuilder.next_global ModuleBuilder.module set_declarations
    declarations global_storage functions globals]; fold m; try lia; try done.
  - unfold len. rewrite length_app. cbn. lia.
  - apply (functions_extend m (set_declarations (declarations m ++ [d]) m)
      (ModuleBuilder.next_value b) (ModuleBuilder.next_block b)); try done.
    split; [by exists [d]|exists []; by rewrite app_nil_r].
  - intros x [Hx| ->%list_elem_of_singleton]%elem_of_app; auto.
  - intros i x [Hx|[Hi Hx]]%lookup_app_Some; [by eapply B8|].
    destruct (i - length (declarations m))%nat as [|k] eqn:Ek; [|done].
    injection Hx as <-. change (ModuleBuilder.next_function b = mkFunctionId (Z.of_nat i)).
    unfold ModuleBuilder.next_function. fold m. f_equal. rewrite wrapu_id; lia.
  - rewrite fmap_app. by apply snoc_NoDup.
  - unfold links. cbn. rewrite omap_app. destruct link_name as [l|]; cbn; [|by rewrite app_nil_r].
    rewrite <- app_assoc. unfold links in B13.
    assert (omap decl_link_name (declarations m) ++ [l] ++ omap gs_link_name (global_storage m) ≡ₚ
      links m ++ [l]) as ->.
    { unfold links. solve_Permutation. }
    apply snoc_NoDup; [done|]. by apply link_taken_false.
Qed.

Lemma add_storage_safe n b g :
  module_built n b → n + 1 < 2 ^ 32 →
  ∃ b', settle (ModuleBuilder.try_add_global_storage g b) = Ok b' ∧ module_built (n + 1) b'.
Proof.
  intros Hb Hn. unfold ModuleBuilder.try_add_global_storage.
  assert (Hsame : module_built (n + 1) b) by (eapply module_built_weaken; [done|lia]).
  unfold get, lift, mbind, stm_bind.
  pose proof (storage_total default_limits default_limits_ok g) as Htotal.
  destruct (validate_storage_with_limits g default_limits) as [[]|e|] eqn:Hd; [|by exists b|done].
  set (m := ModuleBuilder.module b) in *.
  destruct (existsb _ (globals m) || _) eqn:Hname; [by exists b|]. cbn [when_err mret stm_ret].
  apply orb_false_iff in Hname as [_ Hname].
  assert (Hlink : ∀ (P : Prop), (match gs_link_name g with Some l => ModuleBuilder.link_taken m l | None => false end = false → P) →
    (match gs_link_name g with Some l => ModuleBuilder.link_taken m l | None => false end = true → P) → P).
  { intros P H1 H2. by destruct (match gs_link_name g with Some _ => _ | None => _ end); auto. }
  apply Hlink; clear Hlink; intros Hlink; rewrite Hlink; [|by exists b]. cbn [when_err mret stm_ret].
  destruct Hb as [B1 B2 B3 B4 B5 B6 B7 B8 B9 B10 B11 B12 B13 B14].
  fold m in B4, B5, B6, B7, B8, B9, B10, B11, B12, B13, B14.
  rewrite checked_u_id by lia. cbn [ok_or modify].
  eexists. split; [reflexivity|].
  set (g' := ModuleBuilder.set_id _ g).
  assert (Hfresh : gs_name g' ∉ gs_name <$> global_storage m).
  { rewrite existsb_none in Hname. intros (y & Ey & Hy)%list_elem_of_fmap. specialize (Hname y Hy).
    cbv beta in Hname. by rewrite <- Ey, String.eqb_refl in Hname. }
  split; cbn [ModuleBuilder.with_module ModuleBuilder.with_next_global ModuleBuilder.next_value
    ModuleBuilder.next_block ModuleBuilder.next_global ModuleBuilder.module set_global_storage
    declarations global_storage functions globals]; fold m; try lia; try done.
  - apply (functions_extend m (set_global_storage (global_storage m ++ [g']) m)
      (ModuleBuilder.next_value b) (ModuleBuilder.next_block b)); try done.
    split; [exists []; by rewrite app_nil_r|by exists [g']].
  - intros x [Hx| ->%list_elem_of_singleton]%elem_of_app.
    + destruct (B10 x Hx). split; [done|lia].
    + split; [exact Hd|cbn; lia].
  - rewrite fmap_app. apply snoc_NoDup; [done|]. intros (y & Ey & Hy)%list_elem_of_fmap.
    destruct (B10 y Hy) as [_ Hlt]. rewrite <- Ey in Hlt. cbn in Hlt. lia.
  - rewrite fmap_app. by apply snoc_NoDup.
  - unfold links. cbn. rewrite omap_app, app_assoc. cbn.
    destruct (gs_link_name g) as [l|]; [|by rewrite app_nil_r].
    apply snoc_NoDup; [done|]. by apply link_taken_false.
Qed.

Lemma admitted_params sig : validate_signature sig = Ok tt → Ty.Void ∉ params sig.
Proof.
  intros Hv Hin. assert (Ha := validate_signature_Ok_admitted sig default_limits Hv). clear Hv.
  rename Ha into Hv. rewrite sig_admitted_eq in Hv.
  apply andb_true_iff in Hv as [_ Hv]. rewrite forallb_forall in Hv.
  assert (ty_admitted Ty.Void = true); [|done]. apply Hv, list_elem_of_In.
  unfold signature_types. apply elem_of_app. by left.
Qed.

Lemma build_safe n b id names ops :
  module_built n b → n + op_cost (ModuleOp.Build id names ops) < 2 ^ 32 →
  ∃ b', run_module_op b (ModuleOp.Build id names ops) = Ok b' ∧
    module_built (n + op_cost (ModuleOp.Build id names ops)) b'.
Proof.
  cbn [run_module_op op_cost]. intros Hb Hn. unfold begin_declared_function.
  assert (0 ≤ len names ∧ 0 ≤ len ops) as [Hl1 Hl2] by (unfold len; lia).
  assert (Hsame : module_built (n + (1 + len names + len ops)) b)
    by (eapply module_built_weaken; [done|lia]).
  unfold check, get, lift, mbind, stm_bind.
  destruct (find_declaration _ _) as [d|e|] eqn:Hd; [|by exists b|by apply ok_or_not_Panic in Hd].
  apply ok_or_Ok in Hd. pose proof (validate_signature_total (decl_signature d)).
  destruct (validate_signature (decl_signature d)) as [[]|e|] eqn:Hsig; [|by exists b|done].
  destruct (existsb _ _) eqn:Hdup; [by exists b|]. cbn [when_err mret stm_ret].
  destruct (length names =? _)%nat eqn:Hlen; [|by exists b]. cbn [when_err mret stm_ret negb].
  apply Nat.eqb_eq in Hlen.
  destruct Hb as [B1 B2 B3 B4 B5 B6 B7 B8 B9 B10 B11 B12 B13 B14].
  set (m := ModuleBuilder.module b) in *. set (ps := zip names _).
  assert (Hps : len ps = len names).
  { unfold len, ps. rewrite length_zip_with, Hlen. lia. }
  destruct (@build_function_spec call_error id (decl_name d) ps (Syntax.ret (decl_signature d)) b)
    as (s & _ & Hrun & Hs & Hm & Hnv & Hnb & Hng & Hid & Hname & Hret & Hparams); [lia..|].
  rewrite Hrun. destruct (run_ops_safe ops s Hs) as (s' & Hops & Hs' & Hst); [lia..|].
  replace (mk (mb s) (func s) (insert_block s)) with s by by destruct s.
  rewrite Hops. cbn [mbind result_bind]. eexists. split; [reflexivity|].
  destruct (flush_same s') as (F1 & F2 & F3 & F4 & F5 & F6 & F7 & F8).
  destruct Hst as [[] _].
  assert (Em : module s' = m) by by rewrite st_module, Hm.
  rewrite Em in F2, F3, F4, F5.
  unfold finish. set (q := flush_source_shifts s') in *.
  set (m' := set_functions _ _).
  assert (Hds : declarations m' = declarations m) by exact F2.
  assert (Hgs : global_storage m' = global_storage m) by exact F3.
  assert (Hgl : globals m' = globals m) by exact F4.
  assert (Hfs : functions m' = functions m ++ [func s']) by (rewrite <- F5, <- F1; done).
  assert (Hext : extends m m') by (split; exists []; by rewrite app_nil_r).
  split; cbn [ModuleBuilder.with_module ModuleBuilder.next_value ModuleBuilder.next_block
    ModuleBuilder.next_global ModuleBuilder.module]; fold m'; rewrite ?F6, ?F7, ?F8, ?Hds, ?Hgs, ?Hgl;
    try lia; try done.
  - rewrite Hfs. intros f [Hf| ->%list_elem_of_singleton]%elem_of_app.
    + destruct (B5 f Hf). split; [eapply built_extend; [done|done|lia..]|by eapply declared_extend].
    + split.
      * pose proof (bs_built _ Hs') as Hbt. rewrite Em in Hbt. eapply built_extend; [exact Hbt|done|lia..].
      * exists d. unfold find_decl. rewrite Hds, st_id, Hid. split; [exact Hd|].
        rewrite st_name, st_ret, st_params, Hname, Hret, Hparams. split_and!; try done.
        -- unfold ps. rewrite snd_zip; [done|]. by rewrite Hlen.
        -- by apply admitted_params.
  - rewrite Hfs, fmap_app. apply snoc_NoDup; [done|]. rewrite st_id, Hid.
    rewrite existsb_none in Hdup. intros (f & Ef & Hf)%list_elem_of_fmap. specialize (Hdup f Hf).
    rewrite bool_decide_eq_false in Hdup. by apply Hdup.
  - intros g Hg. rewrite st_global, Hng. by apply B10.
  - change (NoDup (links m')). unfold links. by rewrite Hds, Hgs.
Qed.

Lemma run_module_op_safe n b o :
  module_built n b → n + op_cost o < 2 ^ 32 →
  ∃ b', run_module_op b o = Ok b' ∧ module_built (n + op_cost o) b'.
Proof. destruct o; [apply declare_safe|apply add_storage_safe|apply build_safe]. Qed.

Lemma op_cost_nonneg o : 0 ≤ op_cost o.
Proof. destruct o; simpl; unfold len; lia. Qed.
Lemma total_cost_nonneg ops : 0 ≤ total_cost ops.
Proof.
  induction ops as [|o ops IH]; [done|]. change (0 ≤ op_cost o + total_cost ops).
  pose proof (op_cost_nonneg o). lia.
Qed.

Lemma run_module_ops_safe ops : ∀ n b,
  module_built n b → n + total_cost ops < 2 ^ 32 →
  ∃ b', try_fold run_module_op ops b = Ok b' ∧ module_built (n + total_cost ops) b'.
Proof.
  induction ops as [|o ops IH]; intros n b Hb Hn; cbn [try_fold].
  { exists b. split; [done|]. cbn. by rewrite Z.add_0_r. }
  change (total_cost (o :: ops)) with (op_cost o + total_cost ops) in *.
  pose proof (total_cost_nonneg ops).
  destruct (run_module_op_safe n b o Hb) as (b1 & -> & Hb1); [lia|].
  destruct (IH _ b1 Hb1) as (b2 & Hrun & Hb2); [lia|]. exists b2. split; [done|].
  by rewrite Z.add_assoc.
Qed.

Lemma build_module_built target layout ops :
  total_cost ops < 2 ^ 32 →
  ∃ b, build_module target layout ops = Ok (ModuleBuilder.module b) ∧ module_built (total_cost ops) b.
Proof.
  intros Hn. unfold build_module.
  assert (∃ b0, ModuleBuilder.new (E := Empty_set) target layout = Ok b0 ∧ module_built 0 b0)
    as (b0 & -> & Hb0).
  { eexists. split; [reflexivity|]. split; cbn; try (unfold len; cbn; lia); try done;
      first [ by apply NoDup_nil | intros x Hx; by apply not_elem_of_nil in Hx ]. }
  destruct (run_module_ops_safe ops 0 b0 Hb0 Hn) as (b & Hrun & Hb). cbn [mbind result_bind].
  rewrite Hrun. by exists b.
Qed.

(** ** The structural checks of the verifier *)

(** The first entry of a key in the list is the entry of the table. *)
Lemma or_insert_lookup `{Countable K} {V} (l : list (K * V)) k : ∀ acc : gmap K V,
  foldl (λ m p, match m !! p.1 with Some _ => m | None => <[p.1 := p.2]> m end) acc l !! k =
    match acc !! k with
    | Some v => Some v
    | None => snd <$> find_opt (λ p, bool_decide (p.1 = k)) l
    end.
Proof.
  induction l as [|[k' v'] l IH]; intros acc; cbn [foldl].
  { by destruct (acc !! k). }
  rewrite IH. unfold find_opt. cbn [list_find fst snd]. case_decide as Hk.
  - apply bool_decide_eq_true in Hk as ->. destruct (acc !! k) eqn:E; rewrite ?E; [done|].
    by rewrite lookup_insert_eq.
  - assert (k' ≠ k) by (intros ->; by apply Hk, bool_decide_eq_true).
    assert ((match acc !! k' with Some _ => acc | None => <[k':=v']> acc end) !! k = acc !! k) as ->.
    { destruct (acc !! k'); [done|]. by rewrite lookup_insert_ne. }
    destruct (acc !! k); [done|]. by destruct (list_find _ l) as [[]|].
Qed.
Lemma type_of_value f v : type_of (new_indexed f) v = value_type f v.
Proof.
  unfold type_of, value_type. cbn [types new_indexed]. unfold or_insert_all.
  by rewrite or_insert_lookup, lookup_empty.
Qed.

Lemma insert_distinct_ok `{Countable K} {A} (key : A → K) error (l : list A) : ∀ seen,
  NoDup (key <$> l) → (∀ x, x ∈ l → key x ∉ seen) → ∃ seen', insert_distinct key error seen l = Ok seen'.
Proof.
  induction l as [|x l IH]; intros seen Hnd Hnew; cbn [insert_distinct]; [by eexists|].
  apply NoDup_cons in Hnd as [Hx Hnd]. rewrite bool_decide_eq_false_2 by (apply Hnew; by left).
  apply IH; [done|]. intros y Hy [Heq%elem_of_singleton|Hin]%elem_of_union.
  - apply Hx. rewrite <- Heq. by apply list_elem_of_fmap_2.
  - apply (Hnew y); [by right|done].
Qed.

Lemma define_params_ok f ps : ∀ seen,
  NoDup (param_id <$> ps) → Ty.Void ∉ param_ty <$> ps → (∀ p, p ∈ ps → param_id p ∉ seen) →
  ∃ seen', define_params f seen ps = Ok seen'.
Proof.
  induction ps as [|p ps IH]; intros seen Hnd Hvoid Hnew; cbn [define_params]; [by eexists|].
  rewrite fmap_cons in Hvoid. apply not_elem_of_cons in Hvoid as [Hv Hvoid].
  rewrite bool_decide_eq_false_2 by congruence.
  apply NoDup_cons in Hnd as [Hx Hnd]. rewrite bool_decide_eq_false_2 by (apply Hnew; by left).
  apply IH; [done..|]. intros y Hy [Heq%elem_of_singleton|Hin]%elem_of_union.
  - apply Hx. rewrite <- Heq. by apply list_elem_of_fmap_2.
  - apply (Hnew y); [by right|done].
Qed.

Section function.
Context (m : Module_) (f : Function) (nv nb : Z) (Hf : built m f nv nb).
#[local] Set Default Proof Using "Type*".

Lemma built_keys : (value_types f).*1 ≡ₚ definitions_of_function f.
Proof.
  rewrite <- function_definitions_keys. by rewrite (bt_definitions _ _ _ _ Hf).
Qed.

Lemma built_identities :
  Ty.Void ∉ param_ty <$> function_params f →
  verify_identities f =
    Ok (list_to_set (block_id <$> blocks f), list_to_set (definitions_of_function f)).
Proof.
  intros Hvoid. pose proof (bt_values _ _ _ _ Hf) as Hnd. rewrite built_keys in Hnd.
  unfold definitions_of_function in Hnd. apply NoDup_app in Hnd as (Hp & Hdisj & Hr).
  assert (∃ bs ds, verify_identities f = Ok (bs, ds)) as (bs & ds & E).
  { unfold verify_identities.
    destruct (insert_distinct_ok block_id (λ b, VerifyError.DuplicateBlock (function_name f) (block_id b))
      (blocks f) ∅) as [bs Hbs]; [apply Hf|set_solver|].
    assert (Hbs' := insert_distinct_spec block_id
      (λ b, VerifyError.DuplicateBlock (function_name f) (block_id b)) (blocks f) ∅).
    rewrite Hbs in Hbs' |- *. destruct Hbs' as [-> _]. cbn [mbind result_bind].
    pose proof (bt_entry _ _ _ _ Hf). rewrite bool_decide_eq_true_2 by set_solver. cbn [guard_err].
    destruct (define_params_ok f (function_params f) ∅) as [d Hd]; [done..|set_solver|].
    assert (Hd' := define_params_spec f (function_params f) ∅).
    rewrite Hd in Hd' |- *. destruct Hd' as [-> _]. cbn [mbind result_bind].
    destruct (insert_distinct_ok fst (λ r, VerifyError.DuplicateValue (function_name f) r.1)
      (function_results f) (∅ ∪ list_to_set (param_id <$> function_params f))) as [d' Hd'].
    - done.
    - intros r Hr' [?|Hin]%elem_of_union; [set_solver|]. apply elem_of_list_to_set in Hin.
      apply (Hdisj _ Hin). by apply list_elem_of_fmap_2.
    - rewrite Hd'. by eexists _, _. }
  pose proof (verify_identities_spec f) as Hspec. rewrite E in Hspec |- *. cbn in Hspec.
  by destruct Hspec as (-> & -> & _).
Qed.

Lemma built_value_types : verify_value_types (new_indexed f) = Ok tt.
Proof.
  unfold verify_value_types.
  destruct (insert_distinct_ok fst
    (λ p, VerifyError.DuplicateValueType (func_name (new_indexed f)) p.1) (value_types f) ∅) as [seen Hs];
    [apply Hf|set_solver|].
  assert (Hs' := insert_distinct_spec fst
    (λ p, VerifyError.DuplicateValueType (func_name (new_indexed f)) p.1) (value_types f) ∅).
  cbn [indexed new_indexed] in *. rewrite Hs in Hs' |- *. destruct Hs' as [-> _]. cbn [mbind result_bind].
  assert (Hdefs : for_all (verify_definition (new_indexed f)) (function_definitions (new_indexed f)) = Ok tt).
  { apply for_all_spec. intros [v t] Hin. rewrite <- (bt_definitions _ _ _ _ Hf) in Hin.
    unfold verify_definition, typed_value. cbn [fst snd]. rewrite type_of_value.
    assert (value_type f v = Some t) as ->.
    { unfold value_type. erewrite (find_opt_key fst _ (v, t)); [done|apply Hf|done]. }
    cbn. by rewrite bool_decide_eq_true_2. }
  rewrite Hdefs. cbn [mbind result_bind]. apply for_all_spec. intros p Hp.
  rewrite bool_decide_eq_false_2; [done|]. intros [_ Hno]%elem_of_difference. apply Hno.
  rewrite elem_of_list_to_set. rewrite <- (bt_definitions _ _ _ _ Hf). by apply list_elem_of_fmap_2.
Qed.

Lemma built_in i : i ∈ function_instructions_of f → instruction_built m f i.
Proof.
  intros (b & Hi & Hb)%list_elem_of_bind. by eapply bt_instructions.
Qed.

(** The uses that the builder has looked up. *)
Definition is_const_decl (i : instruction) : bool :=
  match i with Instruction.ConstDecl _ _ _ _ => true | _ => false end.

Lemma built_uses i us :
  i ∈ function_instructions_of f → is_const_decl i = false → instr_uses i = Ok us →
  for_all (verify_defined f (list_to_set (definitions_of_function f))) us = Ok tt.
Proof.
  intros [Hk _]%built_in Hc Hu. apply for_all_spec. intros v Hv. unfold verify_defined.
  rewrite bool_decide_eq_true_2; [done|]. rewrite elem_of_list_to_set, <- built_keys.
  by destruct i; try done; eapply Hk.
Qed.

Lemma built_terminators b t :
  b ∈ blocks f → block_terminator b = Some t →
  for_all (verify_target f (list_to_set (block_id <$> blocks f)) b) (branch_targets t) = Ok tt ∧
  ∀ v, terminator_use t = Some v → verify_defined f (list_to_set (definitions_of_function f)) v = Ok tt.
Proof.
  intros Hb Ht. destruct (bt_terminators _ _ _ _ Hf b t Hb Ht) as (Hu & Htg & _). split.
  - apply for_all_spec. intros x Hx. unfold verify_target.
    rewrite bool_decide_eq_true_2; [done|]. rewrite elem_of_list_to_set. auto.
  - intros v Hv. unfold verify_defined. rewrite bool_decide_eq_true_2; [done|].
    rewrite elem_of_list_to_set, <- built_keys. auto.
Qed.

Lemma built_calls i :
  i ∈ function_instructions_of f → verify_call_instruction m (new_indexed f) default_limits i = Ok tt.
Proof.
  intros (_ & Hsym & _)%built_in. unfold verify_call_instruction, call_failure.
  assert (check_call_instruction m (new_indexed f) default_limits i = Ok tt) as ->; [|done].
  destruct i; cbn [symbols_ok check_call_instruction] in *; try done.
  - destruct Hsym as (d & -> & <-). cbn. by rewrite bool_decide_eq_true_2.
  - destruct Hsym as (sig & Hc & Hv & -> & -> & Hdst & Hargs). unfold verify_call.
    assert (Calls.callee_signature m (new_indexed f) callee = Ok sig) as ->.
    { destruct callee; cbn; [by destruct Hc as (d & -> & <-)|]. by rewrite type_of_value, Hc. }
    cbn [mbind result_bind]. unfold validate_signature in Hv. rewrite Hv. cbn [mbind result_bind].
    rewrite (bool_decide_eq_true_2 (convention sig = _)), (bool_decide_eq_true_2 (Syntax.ret sig = Syntax.ret sig)) by done.
    cbn [guard_err mbind result_bind].
    assert (negb (Bool.eqb (bool_decide (is_Some dst)) (bool_decide (Syntax.ret sig = Ty.Void))) = true) as ->.
    { do 2 case_bool_decide; try done; exfalso; tauto. }
    cbn [guard_err mbind result_bind]. rewrite (Forall2_length _ _ _ Hargs), Nat.eqb_refl.
    cbn [guard_err mbind result_bind]. clear -Hargs. generalize 0%nat.
    induction Hargs as [|a t args ts Ha _ IH]; intros n; [done|]. cbn [zip verify_arguments].
    rewrite type_of_value, Ha. cbn. rewrite (bool_decide_eq_true_2 (t = t)) by done. apply IH.
Qed.
End function.

Lemma bodies_pass m fs : ∀ seen,
  NoDup (Syntax.function_id <$> fs) → (∀ f, f ∈ fs → Syntax.function_id f ∉ seen) →
  (∀ f, f ∈ fs → declared m f) → verify_bodies m seen fs = Ok tt.
Proof.
  induction fs as [|f fs IH]; intros seen Hnd Hnew Hd; [done|]. cbn [verify_bodies].
  rewrite bool_decide_eq_false_2 by (apply Hnew; by left).
  destruct (Hd f) as (d & Hfind & Hname & Hret & Hparams & _); [by left|].
  unfold verify_body. rewrite Hfind. cbn [ok_or mbind result_bind].
  rewrite (bool_decide_eq_true_2 (decl_name d = _)), (bool_decide_eq_true_2 (Syntax.ret _ = _)),
    (bool_decide_eq_true_2 (params _ = _)) by done.
  cbn [andb guard_err mbind result_bind].
  apply NoDup_cons in Hnd as [Hx Hnd]. apply IH; [done| |intros g Hg; apply Hd; by right].
  intros g Hg [Heq%elem_of_singleton|Hin]%elem_of_union.
  - apply Hx. rewrite <- Heq. by apply list_elem_of_fmap_2.
  - apply (Hnew g); [by right|done].
Qed.

(** A declaration without the definition it needs. *)
Definition undefined (m : Module_) (d : FunctionDecl) : Prop :=
  d ∈ declarations m ∧ decl_linkage d = Internal ∧
  ∀ f, f ∈ functions m → Syntax.function_id f ≠ decl_id d.

Lemma fresh_cons `{Countable K} {A} (key : A → K) x l (seen : gset K) :
  NoDup (key <$> x :: l) → (∀ y, y ∈ x :: l → key y ∉ seen) →
  key x ∉ seen ∧ NoDup (key <$> l) ∧ ∀ y, y ∈ l → key y ∉ ({[key x]} ∪ seen : gset K).
Proof.
  intros [Hx Hnd]%NoDup_cons Hnew. split; [apply Hnew; by left|]. split; [done|].
  intros y Hy [Heq%elem_of_singleton|Hin]%elem_of_union.
  - apply Hx. change (key x ∈ key <$> l). rewrite <- Heq. by apply list_elem_of_fmap_2.
  - apply (Hnew y); [by right|done].
Qed.

Lemma decls_pass m ds : ∀ sets,
  (∀ d, d ∈ ds → d ∈ declarations m ∧ validate_decl_with_limits d default_limits = Ok tt) →
  NoDup (decl_id <$> ds) → (∀ d, d ∈ ds → decl_id d ∉ decl_ids sets) →
  NoDup (decl_name <$> ds) → (∀ d, d ∈ ds → decl_name d ∉ decl_names sets) →
  NoDup (omap decl_link_name ds) → (∀ l, l ∈ omap decl_link_name ds → l ∉ decl_links sets) →
  verify_decls m default_limits sets ds = Ok tt ∨
  ∃ d, undefined m d ∧ verify_decls m default_limits sets ds =
    Err (VerifyError.Call (decl_name d) (CallError.MissingDefinition (decl_id d))).
Proof.
  induction ds as [|d ds IH]; intros sets Hok Hi Hi' Hn Hn' Hl Hl'; [by left|]. cbn [verify_decls].
  destruct (fresh_cons _ _ _ _ Hi Hi') as (I1 & I2 & I3).
  destruct (fresh_cons _ _ _ _ Hn Hn') as (N1 & N2 & N3).
  destruct (Hok d) as [Hin Hv]; [by left|]. unfold verify_decl, call_failure. rewrite Hv.
  cbn [map_err mbind result_bind]. rewrite !bool_decide_eq_false_2 by done. cbn [orb].
  assert (∃ links_, match decl_link_name d with
      | Some link => if bool_decide (link ∈ decl_links sets)
          then Err (VerifyError.Call (decl_name d) (CallError.LinkNameCollision link))
          else Ok ({[link]} ∪ decl_links sets)
      | None => Ok (decl_links sets) end = Ok links_ ∧
    NoDup (omap decl_link_name ds) ∧ ∀ l, l ∈ omap decl_link_name ds → l ∉ links_)
    as (links_ & -> & L2 & L3).
  { cbn [omap list_omap] in Hl, Hl'. destruct (decl_link_name d) as [l|]; [|by eexists].
    apply NoDup_cons in Hl as [L1 L2]. rewrite bool_decide_eq_false_2 by (apply Hl'; by left).
    eexists. split; [reflexivity|]. split; [done|]. intros k Hk [->%elem_of_singleton|Hk']%elem_of_union;
      [done|]. apply (Hl' k); [by right|done]. }
  cbn [mbind result_bind]. destruct (bool_decide (decl_linkage d = Internal) && _) eqn:Hmiss.
  - right. exists d. split; [|done]. apply andb_true_iff in Hmiss as [Hint Hno%negb_true_iff].
    split_and!; [done|by apply bool_decide_eq_true in Hint|]. rewrite existsb_none in Hno.
    intros f Hf. specialize (Hno f Hf). by apply bool_decide_eq_false in Hno.
  - cbn [mbind result_bind]. apply IH; try done. intros x Hx. apply Hok. by right.
Qed.

Section storage.
Context (T : Target).

Lemma storages_pass gs : ∀ sets,
  (∀ g, g ∈ gs → validate_storage_with_limits g default_limits = Ok tt) →
  NoDup (gs_id <$> gs) → (∀ g, g ∈ gs → gs_id g ∉ storage_ids sets) →
  NoDup (gs_name <$> gs) → (∀ g, g ∈ gs → gs_name g ∉ storage_names sets) →
  NoDup (omap gs_link_name gs) → (∀ l, l ∈ omap gs_link_name gs → l ∉ storage_links sets) →
  (∃ sets', verify_global_storages (specification T) default_limits sets gs = Ok sets' ∧
     (∀ id t, storage_types sets !! id = Some t → id ∉ gs_id <$> gs → storage_types sets' !! id = Some t) ∧
     ∀ g, g ∈ gs → storage_types sets' !! gs_id g = Some (gs_ty g)) ∨
  ∃ g reason, verify_global_storages (specification T) default_limits sets gs =
    Err (VerifyError.InvalidMemoryLayout (gs_name g) "global storage" reason).
Proof.
  induction gs as [|g gs IH]; intros sets Hok Hi Hi' Hn Hn' Hl Hl'; cbn [verify_global_storages].
  { left. exists sets. split_and!; [done|done|by intros g ?%not_elem_of_nil]. }
  destruct (fresh_cons _ _ _ _ Hi Hi') as (I1 & I2 & I3).
  destruct (fresh_cons _ _ _ _ Hn Hn') as (N1 & N2 & N3).
  unfold verify_global_storage. rewrite Hok by (by left).
  cbn [map_err mbind result_bind]. rewrite !bool_decide_eq_false_2 by done.
  assert (∃ links_, match gs_link_name g with
      | Some link => if bool_decide (link ∈ storage_links sets)
          then Err (VerifyError.GlobalStorage (gs_name g) (gs_id g) GlobalStorageError.LinkNameCollision)
          else Ok ({[link]} ∪ storage_links sets)
      | None => Ok (storage_links sets) end = Ok links_ ∧
    NoDup (omap gs_link_name gs) ∧ ∀ l, l ∈ omap gs_link_name gs → l ∉ links_)
    as (links_ & -> & L2 & L3).
  { cbn [omap list_omap] in Hl, Hl'. destruct (gs_link_name g) as [l|]; [|by eexists].
    apply NoDup_cons in Hl as [L1 L2]. rewrite bool_decide_eq_false_2 by (apply Hl'; by left).
    eexists. split; [reflexivity|]. split; [done|]. intros k Hk [->%elem_of_singleton|Hk']%elem_of_union;
      [done|]. apply (Hl' k); [by right|done]. }
  cbn [mbind result_bind].
  pose proof (verify_layout_total T default_limits (gs_name g) "global storage" (gs_ty g)) as Htotal.
  unfold verify_layout in *. destruct (layout_for_target _ _ _) as [y|reason|];
    cbn [mbind result_bind]; [|by right; exists g, reason|done].
  destruct (IH (mkStorageSets ({[gs_id g]} ∪ storage_ids sets) ({[gs_name g]} ∪ storage_names sets) links_
    (<[gs_id g:=gs_ty g]> (storage_types sets)))) as [(sets' & E & Hold & Hnew)|(g' & reason & E)];
    try done.
  - intros x Hx. apply Hok. by right.
  - left. exists sets'. split; [done|]. cbn [storage_types] in Hold. apply NoDup_cons in Hi as [Hgi _]. split.
    + intros id t Ht [Hne Hid]%not_elem_of_cons. apply Hold; [|done]. by rewrite lookup_insert_ne.
    + intros x [->|Hx]%elem_of_cons; [|by apply Hnew]. apply Hold; [|done]. by rewrite lookup_insert_eq.
  - right. by exists g', reason.
Qed.
End storage.

Lemma decl_ids_distinct (ds : list FunctionDecl) :
  (∀ i d, ds !! i = Some d → decl_id d = mkFunctionId (Z.of_nat i)) → NoDup (decl_id <$> ds).
Proof.
  intros Hids. apply NoDup_alt. intros i j x. rewrite !list_lookup_fmap.
  intros (d & Hd & ->)%fmap_Some (e & He & Heq)%fmap_Some.
  rewrite (Hids _ _ Hd), (Hids _ _ He) in Heq. injection Heq. lia.
Qed.

(** ** Properties *)

(** The structural checks of the verifier on a function. *)
Definition function_passes (m : Module_) (f : Function) : Prop :=
  let known := list_to_set (block_id <$> blocks f) in
  let defined := list_to_set (definitions_of_function f) in
  verify_identities f = Ok (known, defined) ∧
  verify_value_types (new_indexed f) = Ok tt ∧
  (∀ b t, b ∈ blocks f → block_terminator b = Some t →
     for_all (verify_target f known b) (branch_targets t) = Ok tt ∧
     ∀ v, terminator_use t = Some v → verify_defined f defined v = Ok tt) ∧
  (∀ b, b ∈ blocks f → block_id b ≠ entry f → phis_first (instructions b)) ∧
  ∀ i, i ∈ function_instructions_of f →
    verify_call_instruction m (new_indexed f) default_limits i = Ok tt ∧
    ∀ us, is_const_decl i = false → instr_uses i = Ok us → for_all (verify_defined f defined) us = Ok tt.

Lemma function_built_passes m f nv nb : built m f nv nb → declared m f → function_passes m f.
Proof.
  intros Hf (d & _ & _ & _ & Hp & Hvoid). split_and!.
  - eapply built_identities; [done|]. by rewrite <- Hp.
  - by eapply built_value_types.
  - intros b t. by eapply built_terminators.
  - intros b. by eapply bt_phis.
  - intros i Hi. split; [by eapply built_calls|]. intros us. by eapply built_uses.
Qed.

(** The state in which the verifier reaches the addressable globals. *)
Definition storage_start (m : Module_) : StorageSets :=
  mkStorageSets (list_to_set (global_id <$> globals m)) ∅
    (list_to_set (omap decl_link_name (declarations m))) ∅.

Lemma built_storage_passes n b T :
  module_built n b →
  let m := ModuleBuilder.module b in
  (∃ sets, verify_global_storages (specification T) default_limits (storage_start m) (global_storage m) =
     Ok sets ∧
     ∀ f i, f ∈ functions m → i ∈ function_instructions_of f →
       verify_global_address (storage_types sets) (new_indexed f) i = Ok tt) ∨
  ∃ g reason, verify_global_storages (specification T) default_limits (storage_start m) (global_storage m) =
    Err (VerifyError.InvalidMemoryLayout (gs_name g) "global storage" reason).
Proof.
  intros [B1 B2 B3 B4 B5 B6 B7 B8 B9 B10 B11 B12 B13 B14] m.
  fold m in B5, B10, B11, B12, B13, B14.
  unfold links in B13. apply NoDup_app in B13 as (Hl1 & Hdisj & Hl2).
  destruct (storages_pass T (global_storage m) (storage_start m)) as [(sets & E & _ & Hg)|Herr];
    try done; cbn [storage_start storage_ids storage_names storage_links].
  - intros g Hg. by apply B10.
  - rewrite B14. set_solver.
  - set_solver.
  - left. exists sets. split; [done|]. intros f i Hf Hi. destruct (B5 f Hf) as [Hb _].
    destruct (built_in _ _ _ _ Hb i Hi) as (_ & Hsym & _).
    destruct i; cbn [verify_global_address symbols_ok] in *; try done.
    destruct Hsym as (g & Hfind & <-). apply find_opt_Some in Hfind as [Hin <-%bool_decide_eq_true].
    rewrite (Hg g Hin). by rewrite bool_decide_eq_true_2.
  - by right.
Qed.


(** A client that declares and defines a function with a loop, an external one and a global. *)
Definition sample_client : list ModuleOp.t :=
  [ ModuleOp.DeclareFunction "external" (whale [Ty.I32] Ty.Void) External (Some "ext"%string);
    ModuleOp.DeclareFunction "main" (whale [Ty.I32] Ty.I32) Internal None;
    ModuleOp.AddStorage (internal "counter" Ty.I32 (GlobalStorageInit.Value (ConstValue.I 3)) false 4);
    ModuleOp.Build (mkFunctionId 1) ["n"%string]
      [ Op.CreateBlock "loop"; Op.AllocaInEntry Ty.I32 4;
        Op.Br (mkBlockId 1); Op.Ret None; Op.SetInsertPoint (mkBlockId 1);
        Op.Phi Ty.I32 [(mkValueId 0, mkBlockId 0)]; Op.GlobalAddr (mkGlobalId 0);
        Op.Load Ty.I32 (mkValueId 3) 4; Op.Add Ty.I32 (mkValueId 2) (mkValueId 4);
        Op.Call (Callee.Direct (mkFunctionId 0)) [mkValueId 5]; Op.Ret (Some (mkValueId 5)) ] ].

