(* ===== verification/BuilderSources.v ===== *)
(** * Source mappings under construction ([builder.rs])

    The builder keeps the mappings of a function by position, while allocations are hoisted into the
    middle of the entry block.  Shifts are recorded and applied before the mappings are read: this file
    proves that every mapping then still names the operation it was made for, and that
    [annotate_source] maps exactly the operations added since the checkpoint. *)
From S2P Require Export BuiltModule.
Import FunctionBuilder.
Local Open Scope Z_scope.

(** ** Operations by target *)

Inductive operation := AnInstruction (i : instruction) | ATerminator (t : terminator).

Definition block_of (f : Function) (id : BlockId) : option BasicBlock :=
  find_opt (λ b, bool_decide (block_id b = id)) (blocks f).
Definition instruction_at (f : Function) (id : BlockId) (index : nat) : option instruction :=
  b ← block_of f id; instructions b !! index.
Definition terminator_at (f : Function) (id : BlockId) : option terminator :=
  b ← block_of f id; block_terminator b.

(** The operation a target names. *)
Definition operation_at (f : Function) (target : SourceTarget.t) : option operation :=
  match target with
  | SourceTarget.Instruction fn id index =>
      if decide (fn = Syntax.function_id f) then AnInstruction <$> instruction_at f id index else None
  | SourceTarget.Terminator fn id =>
      if decide (fn = Syntax.function_id f) then ATerminator <$> terminator_at f id else None
  | SourceTarget.Global _ => None
  end.

(** ** An edit, block by block *)

Lemma find_opt_cons {A} (p : A → bool) x l :
  find_opt p (x :: l) = if p x then Some x else find_opt p l.
Proof.
  unfold find_opt. cbn [list_find]. case_decide as Hx; [by rewrite Hx|].
  apply not_true_is_false in Hx. rewrite Hx. by destruct (list_find _ l) as [[]|].
Qed.

Lemma find_block_edit pre (b b' : BasicBlock) post id :
  NoDup (block_id <$> pre ++ b :: post) → block_id b' = block_id b →
  find_opt (λ b, bool_decide (block_id b = id)) (pre ++ b' :: post) =
    if decide (block_id b = id) then Some b'
    else find_opt (λ b, bool_decide (block_id b = id)) (pre ++ b :: post).
Proof.
  intros Hnd Hid. case_decide as Hb.
  - assert (Hx : b' ∈ pre ++ b' :: post) by (apply elem_of_app; right; by left).
    assert (Hnd' : NoDup (block_id <$> pre ++ b' :: post)) by (by rewrite fmap_app, fmap_cons, Hid, <- fmap_cons, <- fmap_app).
    pose proof (find_opt_key block_id _ _ Hnd' Hx) as Hf. by rewrite <- Hb, <- Hid.
  - rewrite !find_opt_app, !find_opt_cons, Hid. by rewrite bool_decide_eq_false_2.
Qed.

Lemma alloca_prefix_le l : (alloca_prefix l ≤ length l)%nat.
Proof. induction l as [|i l IH]; simpl; [done|]. destruct (is_alloca i); lia. Qed.
Lemma alloca_prefix_app l l' :
  alloca_prefix (l ++ l') =
    if (alloca_prefix l =? length l)%nat then (length l + alloca_prefix l')%nat else alloca_prefix l.
Proof.
  induction l as [|i l IH]; [done|]. simpl. destruct (is_alloca i); [|done].
  rewrite IH. simpl. by destruct (_ =? _)%nat.
Qed.
Lemma alloca_prefix_hoist i l :
  is_alloca i = true → alloca_prefix (insert_at (alloca_prefix l) i l) = S (alloca_prefix l).
Proof.
  intros Hi. unfold insert_at. induction l as [|j l IH]; simpl; [by rewrite Hi|].
  destruct (is_alloca j) eqn:Hj; simpl; [rewrite Hj; by f_equal|by rewrite Hi, Hj].
Qed.
Lemma lookup_insert_at {A} n (x : A) l i y :
  (n ≤ length l)%nat → l !! i = Some y →
  insert_at n x l !! (if n <=? i then S i else i)%nat = Some y.
Proof.
  intros Hn Hy. unfold insert_at. destruct (Nat.leb_spec n i).
  - rewrite lookup_app_r by (rewrite length_take; lia). rewrite length_take, Nat.min_l by lia.
    rewrite lookup_cons_ne_0 by lia. rewrite lookup_drop.
    by replace (n + Nat.pred (S i - n))%nat with i by lia.
  - rewrite lookup_app_l by (rewrite length_take; lia). by rewrite lookup_take_lt.
Qed.

(** ** The positions after a sequence of edits *)

Section follow.
Context (s0 : function_builder).
#[local] Notation id := (Syntax.function_id (func s0)).
#[local] Notation entry0 := (entry (func s0)).

(** The allocations that the entry block of a function starts with. *)
Definition prefix_of (f : Function) : nat :=
  match block_of f entry0 with Some b => alloca_prefix (instructions b) | None => 0 end.
#[local] Notation prefix0 := (prefix_of (func s0)).

(** Where an instruction is once the entry block starts with [prefix] allocations. *)
Definition moved (prefix : nat) (block : BlockId) (i : nat) : nat :=
  if bool_decide (block = entry0) && (prefix0 <=? i)%nat then (i + (prefix - prefix0))%nat else i.
(** Where the recorded shift says it is. *)
Definition shifted (shift : option (nat * nat)) (block : BlockId) (i : nat) : nat :=
  match shift with
  | Some (pos, count) =>
      if bool_decide (block = entry0) && (pos <=? i)%nat then (i + count)%nat else i
  | None => i
  end.

Record follows (s : function_builder) : Prop := {
  fl_quiet : Syntax.function_id (func s) = id ∧ entry (func s) = entry0 ∧ module s = module s0 ∧
    ModuleBuilder.source_mapped_functions (mb s) = ModuleBuilder.source_mapped_functions (mb s0);
  fl_blocks : NoDup (block_id <$> blocks (func s));
  fl_entry : is_Some (block_of (func s) entry0);
  fl_prefix : (prefix0 ≤ prefix_of (func s))%nat;
  fl_instructions b i x : instruction_at (func s0) b i = Some x →
    instruction_at (func s) b (moved (prefix_of (func s)) b i) = Some x;
  fl_terminators b t : terminator_at (func s0) b = Some t → terminator_at (func s) b = Some t;
  fl_shift : id ∈ ModuleBuilder.source_mapped_functions (mb s0) →
    (∀ b i, is_Some (instruction_at (func s0) b i) →
       shifted (ModuleBuilder.source_shifts (mb s) !! id) b i = moved (prefix_of (func s)) b i) ∧
    ∀ pos count, ModuleBuilder.source_shifts (mb s) !! id = Some (pos, count) →
      (pos ≤ prefix_of (func s) ∧ 1 ≤ count)%nat;
}.

(** An edit of one block that moves its instructions by [move]. *)
Lemma instruction_edit f f' pre b b' post (move : nat → nat) c i x :
  NoDup (block_id <$> blocks f) → blocks f = pre ++ b :: post → blocks f' = pre ++ b' :: post →
  block_id b' = block_id b →
  (∀ i x, instructions b !! i = Some x → instructions b' !! move i = Some x) →
  instruction_at f c i = Some x →
  instruction_at f' c (if decide (block_id b = c) then move i else i) = Some x.
Proof.
  intros Hnd Hf Hf' Hid Hmove. unfold instruction_at, block_of.
  rewrite Hf in Hnd. rewrite Hf', (find_block_edit pre b b' post c) by done. rewrite Hf.
  case_decide as Hc; [|done]. rewrite (find_block_edit pre b b post c) by done.
  rewrite decide_True by done. apply Hmove.
Qed.
Lemma terminator_edit f f' pre b b' post c t :
  NoDup (block_id <$> blocks f) → blocks f = pre ++ b :: post → blocks f' = pre ++ b' :: post →
  block_id b' = block_id b → (∀ t, block_terminator b = Some t → block_terminator b' = Some t) →
  terminator_at f c = Some t → terminator_at f' c = Some t.
Proof.
  intros Hnd Hf Hf' Hid Ht. unfold terminator_at, block_of.
  rewrite Hf in Hnd. rewrite Hf', (find_block_edit pre b b' post c) by done. rewrite Hf.
  case_decide as Hc; [|done]. rewrite (find_block_edit pre b b post c) by done.
  rewrite decide_True by done. apply Ht.
Qed.
Lemma block_of_edit f f' pre b b' post c x :
  NoDup (block_id <$> blocks f) → blocks f = pre ++ b :: post → blocks f' = pre ++ b' :: post →
  block_id b' = block_id b → block_of f' c = Some x →
  (block_id b = c ∧ x = b' ∧ block_of f c = Some b) ∨ (block_id b ≠ c ∧ block_of f c = Some x).
Proof.
  intros Hnd Hf Hf' Hid. unfold block_of. rewrite Hf in Hnd.
  rewrite Hf', (find_block_edit pre b b' post c) by done. rewrite Hf. case_decide as Hc; [|by right].
  intros [= <-]. left. split_and!; [done|done|].
  rewrite (find_block_edit pre b b post c) by done. by rewrite decide_True.
Qed.
Lemma edited_ids (pre : list BasicBlock) b b' post :
  block_id b' = block_id b → block_id <$> pre ++ b' :: post = block_id <$> pre ++ b :: post.
Proof. intros Hid. by rewrite !fmap_app, !fmap_cons, Hid. Qed.

Lemma alloca_prefix_grows l l' : (alloca_prefix l ≤ alloca_prefix (l ++ l'))%nat.
Proof. rewrite alloca_prefix_app. pose proof (alloca_prefix_le l). case_match; lia. Qed.
Lemma alloca_prefix_stays l l' : (alloca_prefix l < length l)%nat → alloca_prefix (l ++ l') = alloca_prefix l.
Proof. intros Hl. rewrite alloca_prefix_app. by destruct (Nat.eqb_spec (alloca_prefix l) (length l)); [lia|]. Qed.

Lemma instruction_at_same f f' c : blocks f' = blocks f → instruction_at f' c = instruction_at f c.
Proof. intros Hb. unfold instruction_at, block_of. by rewrite Hb. Qed.

Lemma moved_other prefix c i : c ≠ entry0 → moved prefix c i = i.
Proof. intros Hc. unfold moved. by rewrite bool_decide_eq_false_2. Qed.
Lemma moved_entry prefix i :
  moved prefix entry0 i = if (prefix0 <=? i)%nat then (i + (prefix - prefix0))%nat else i.
Proof. unfold moved. by rewrite bool_decide_eq_true_2. Qed.
Lemma shifted_other shift c i : c ≠ entry0 → shifted shift c i = i.
Proof. intros Hc. destruct shift as [[]|]; [|done]. cbn. by rewrite bool_decide_eq_false_2. Qed.
Lemma shifted_entry pos count i :
  shifted (Some (pos, count)) entry0 i = if (pos <=? i)%nat then (i + count)%nat else i.
Proof. cbn. by rewrite bool_decide_eq_true_2. Qed.

Lemma entry_prefix f b : block_of f entry0 = Some b → prefix_of f = alloca_prefix (instructions b).
Proof. intros Hb. unfold prefix_of. by rewrite Hb. Qed.

Lemma prefix_of_edit f f' pre b b' post :
  NoDup (block_id <$> blocks f) → blocks f = pre ++ b :: post → blocks f' = pre ++ b' :: post →
  block_id b' = block_id b → is_Some (block_of f entry0) →
  is_Some (block_of f' entry0) ∧
  if decide (block_id b = entry0)
  then prefix_of f = alloca_prefix (instructions b) ∧ prefix_of f' = alloca_prefix (instructions b')
  else prefix_of f' = prefix_of f.
Proof.
  intros Hnd Hb Hb' Hid Hsome. unfold prefix_of, block_of in *.
  rewrite Hb in Hnd, Hsome. rewrite Hb', (find_block_edit pre b b' post) by done. rewrite Hb.
  pose proof (find_block_edit pre b b post entry0 Hnd eq_refl) as Hf.
  case_decide; [rewrite Hf|]; by eauto.
Qed.

(** An instruction behind the allocations keeps their number when something is added at the end. *)
Lemma moved_stays s b extra i :
  follows s → block_of (func s) entry0 = Some b → is_Some (instruction_at (func s0) entry0 i) →
  (prefix0 ≤ i)%nat → alloca_prefix (instructions b ++ extra) = alloca_prefix (instructions b).
Proof.
  intros Hs Hb [x Hx] Hi. assert (Hy := fl_instructions _ Hs _ _ _ Hx). pose proof (fl_prefix _ Hs).
  rewrite moved_entry, (proj2 (Nat.leb_le _ _) Hi) in Hy. unfold instruction_at in Hy. rewrite Hb in Hy.
  cbn in Hy. apply lookup_lt_Some in Hy. rewrite (entry_prefix _ _ Hb) in *.
  apply alloca_prefix_stays. lia.
Qed.

(** Old instructions do not move when the edit adds at the end of a block. *)
Lemma moved_append s s' pre b b' post extra c i :
  follows s → blocks (func s) = pre ++ b :: post → blocks (func s') = pre ++ b' :: post →
  block_id b' = block_id b → instructions b' = instructions b ++ extra →
  is_Some (instruction_at (func s0) c i) →
  moved (prefix_of (func s')) c i = moved (prefix_of (func s)) c i.
Proof.
  intros Hs Hb Hb' Hid Hins Hi. destruct (decide (c = entry0)) as [->|Hc]; [|by rewrite !moved_other].
  destruct (prefix_of_edit _ _ _ _ _ _ (fl_blocks _ Hs) Hb Hb' Hid (fl_entry _ Hs)) as [_ Hp].
  case_decide as He; [|by rewrite Hp]. destruct Hp as [Hp Hp']. rewrite !moved_entry.
  destruct (Nat.leb_spec prefix0 i) as [Hle|]; [|done].
  assert (block_of (func s) entry0 = Some b) as Hbo.
  { unfold block_of. rewrite <- He. apply (find_opt_key block_id); [apply Hs|].
    rewrite Hb. apply elem_of_app. right. by left. }
  by rewrite Hp', Hp, Hins, (moved_stays s b extra i Hs Hbo Hi Hle).
Qed.

Lemma follows_append s s' pre b b' post extra :
  follows s → quiet s s' → same_shifts s s' →
  blocks (func s) = pre ++ b :: post → blocks (func s') = pre ++ b' :: post →
  block_id b' = block_id b → instructions b' = instructions b ++ extra →
  (∀ t, block_terminator b = Some t → block_terminator b' = Some t) → follows s'.
Proof.
  intros Hs (R1 & R2 & R3 & R4) Hsh Hb Hb' Hid Hins Ht. red in Hsh.
  assert (Hsame := λ c i, moved_append s s' pre b b' post extra c i Hs Hb Hb' Hid Hins).
  destruct Hs as [(Q1 & Q2 & Q3 & Q4) F2 Fe Fp F3 F4 F5].
  destruct (prefix_of_edit _ (func s') _ _ _ _ F2 Hb Hb' Hid Fe) as [He Hp].
  assert (Hgrow : (prefix_of (func s) ≤ prefix_of (func s'))%nat).
  { case_decide; [|lia]. destruct Hp as [-> ->]. rewrite Hins. apply alloca_prefix_grows. }
  split; [split_and!; congruence| |done|lia| | |].
  - rewrite Hb', (edited_ids pre b b') by done. by rewrite <- Hb.
  - intros c i x Hx. rewrite Hsame by (by eexists). apply F3 in Hx.
    assert (Hmove : ∀ i x, instructions b !! i = Some x → instructions b' !! i = Some x).
    { intros j y Hy. rewrite Hins. by apply lookup_app_l_Some. }
    pose proof (instruction_edit _ (func s') _ _ _ _ (λ i, i) c _ _ F2 Hb Hb' Hid Hmove Hx) as H.
    by destruct (decide (block_id b = c)).
  - intros c t Hc. eapply terminator_edit; eauto.
  - intros Hm. destruct (F5 Hm) as [H1 H2]. rewrite Hsh. split.
    + intros c i Hi. rewrite Hsame by done. by apply H1.
    + intros pos count E. destruct (H2 pos count E). lia.
Qed.

Lemma follows_hoist s q pre b post i :
  follows s → quiet s q → same_shifts s q → block_id b = entry (func s) → is_alloca i = true →
  blocks (func s) = pre ++ b :: post →
  blocks (func q) =
    pre ++ set_instructions (insert_at (alloca_prefix (instructions b)) i (instructions b)) b :: post →
  follows (record_shift (alloca_prefix (instructions b)) q).
Proof.
  intros [(Q1 & Q2 & Q3 & Q4) F2 Fe Fp F3 F4 F5] (R1 & R2 & R3 & R4) Hsh He Hi Hb Hb'.
  red in Hsh. set (n := alloca_prefix (instructions b)) in *. set (b' := set_instructions _ b) in *.
  assert (Hn : (n ≤ length (instructions b))%nat) by apply alloca_prefix_le.
  destruct (prefix_of_edit _ (func q) _ _ b' _ F2 Hb Hb' eq_refl Fe) as [Hsome Hp].
  rewrite decide_True in Hp by congruence. destruct Hp as [Hp Hp']. fold n in Hp.
  assert (alloca_prefix (instructions b') = S n) as Hn' by by apply alloca_prefix_hoist.
  rewrite Hn' in Hp'. rewrite Hp in *.
  assert (Hmoved : ∀ j, moved (S n) entry0 j =
    if (n <=? moved n entry0 j)%nat then S (moved n entry0 j) else moved n entry0 j).
  { intros j. rewrite !moved_entry. destruct (Nat.leb_spec prefix0 j) as [Hj|Hj].
    - destruct (Nat.leb_spec n (j + (n - prefix0))); lia.
    - destruct (Nat.leb_spec n j); lia. }
  assert (Hfunc : func (record_shift n q) = func q) by (unfold record_shift; by case_bool_decide).
  assert (Hmod : module (record_shift n q) = module q) by (unfold record_shift; by case_bool_decide).
  assert (Hmap : ModuleBuilder.source_mapped_functions (mb (record_shift n q)) =
    ModuleBuilder.source_mapped_functions (mb q)) by (unfold record_shift; by case_bool_decide).
  split; rewrite ?Hfunc, ?Hmod, ?Hmap; try done.
  - split_and!; congruence.
  - rewrite Hb', (edited_ids pre b b') by done. by rewrite <- Hb.
  - rewrite Hp'. lia.
  - intros c j x Hx. assert (Hx' := F3 c j x Hx). rewrite Hp'.
    pose proof (instruction_edit _ (func q) _ _ b' _ (λ i, if (n <=? i)%nat then S i else i) c _ _ F2 Hb Hb'
      eq_refl (λ k y, lookup_insert_at n i (instructions b) k y Hn) Hx') as H.
    destruct (decide (c = entry0)) as [->|Hc].
    + rewrite decide_True in H by congruence. by rewrite Hmoved.
    + rewrite decide_False in H by congruence. rewrite moved_other in H by done. by rewrite moved_other.
  - intros c t Hc. eapply (terminator_edit _ _ pre b b'); eauto.
  - intros Hm. destruct (F5 Hm) as [H1 H2]. rewrite Hp'.
    unfold record_shift. rewrite R4, Q4, R1, Q1, Hsh, bool_decide_eq_true_2 by done.
    cbn [mb with_mb ModuleBuilder.with_shifts ModuleBuilder.source_shifts]. rewrite lookup_insert_eq.
    destruct (ModuleBuilder.source_shifts (mb s) !! id) as [[pos count]|] eqn:Es.
    + destruct (H2 pos count eq_refl) as [Hpos Hcount]. split; [|intros ? ? [= <- <-]; lia].
      intros c j Hj. destruct (decide (c = entry0)) as [->|Hc]; [|by rewrite shifted_other, moved_other].
      pose proof (H1 entry0 j Hj) as E. rewrite shifted_entry, moved_entry in *.
      destruct (Nat.leb_spec pos j), (Nat.leb_spec prefix0 j); lia.
    + split; [|intros ? ? [= <- <-]; lia].
      intros c j Hj. destruct (decide (c = entry0)) as [->|Hc]; [|by rewrite shifted_other, moved_other].
      pose proof (H1 entry0 j Hj) as E. rewrite shifted_entry, moved_entry in *. cbn [shifted] in E.
      destruct (Nat.leb_spec n j), (Nat.leb_spec prefix0 j); lia.
Qed.

Lemma follows_edit s s' : follows s → edit s s' → follows s'.
Proof.
  intros Hs. assert (Hs' := Hs). destruct Hs' as [(Q1 & Q2 & Q3 & Q4) F2 Fe Fp F3 F4 F5].
  intros [HQ Hsh Hb|pre b post i HQ Hsh Hb Hb'|pre b post t HQ Hsh Ht Hb Hb'
         |nid name HQ Hsh Hnew Hb|pre b post i q HQ Hsh He Hi Hb Hb' ->].
  - destruct HQ as (R1 & R2 & R3 & R4). red in Hsh.
    assert (Hblock : ∀ c, block_of (func s') c = block_of (func s) c) by (intros c; unfold block_of; by rewrite Hb).
    assert (Hp : prefix_of (func s') = prefix_of (func s)) by (unfold prefix_of; by rewrite Hblock).
    split; rewrite ?Hb, ?Hblock, ?Hp, ?Hsh; try done; [split_and!; congruence|..].
    + intros c i x Hx%F3. by rewrite (instruction_at_same _ _ _ Hb).
    + intros c t Hc%F4. unfold terminator_at in *. by rewrite Hblock.
  - by eapply (follows_append s s' pre b _ post [i]).
  - eapply (follows_append s s' pre b _ post []); try done; cbn; [by rewrite app_nil_r|].
    intros t'. by rewrite Ht.
  - destruct HQ as (R1 & R2 & R3 & R4). red in Hsh.
    assert (Hfind : ∀ c x, block_of (func s) c = Some x → block_of (func s') c = Some x).
    { intros c x Hx. unfold block_of in *. rewrite Hb. by apply find_opt_extend. }
    destruct Fe as [be Hbe]. assert (Hbe' := Hfind _ _ Hbe).
    assert (Hp : prefix_of (func s') = prefix_of (func s)) by (unfold prefix_of; by rewrite Hbe, Hbe').
    split; rewrite ?Hp, ?Hsh; try done; [split_and!; congruence|..].
    + rewrite Hb, fmap_app. by apply snoc_NoDup.
    + intros c i x Hx%F3. unfold instruction_at in *.
      destruct (block_of (func s) c) as [y|] eqn:Hy; [|done]. by rewrite (Hfind _ _ Hy).
    + intros c t Ht%F4. unfold terminator_at in *.
      destruct (block_of (func s) c) as [y|] eqn:Hy; [|done]. by rewrite (Hfind _ _ Hy).
  - by eapply (follows_hoist s q).
Qed.

Lemma follows_edits x y : rtc edit x y → follows x → follows y.
Proof. induction 1; eauto using follows_edit. Qed.

Lemma follows_start :
  NoDup (block_id <$> blocks (func s0)) → entry0 ∈ block_id <$> blocks (func s0) →
  (id ∈ ModuleBuilder.source_mapped_functions (mb s0) → ModuleBuilder.source_shifts (mb s0) !! id = None) →
  follows s0.
Proof.
  intros Hnd (b & Eb & Hb)%list_elem_of_fmap Hs.
  assert (Hsame : ∀ c i, moved prefix0 c i = i).
  { intros c i. unfold moved. rewrite Nat.sub_diag, Nat.add_0_r. by destruct (_ && _). }
  split; try done.
  - unfold block_of. rewrite Eb, (find_opt_key block_id _ _ Hnd Hb). by eexists.
  - intros c i x. by rewrite Hsame.
  - intros Hm. rewrite (Hs Hm). split; [intros c i _; by rewrite Hsame|done].
Qed.
End follow.

(** ** Properties *)

(** The target after the shifts of a function have been applied. *)
Definition shifted_target (s : function_builder) (target : SourceTarget.t) : SourceTarget.t :=
  match ModuleBuilder.source_shifts (mb s) !! Syntax.function_id (func s) with
  | Some (pos, count) => shift_target (Syntax.function_id (func s)) (entry (func s)) pos count target
  | None => target
  end.

Lemma shift_target_inj fn entry_ pos count t u :
  shift_target fn entry_ pos count t = shift_target fn entry_ pos count u → t = u.
Proof.
  set (here f b := bool_decide (f = fn) && bool_decide (b = entry_)).
  assert (Heq : ∀ f b i, shift_target fn entry_ pos count (SourceTarget.Instruction f b i) =
    SourceTarget.Instruction f b (if here f b && (pos <=? i)%nat then i + count else i)).
  { intros f b i. cbn [shift_target]. fold (here f b). by destruct (here f b && _). }
  destruct t as [f b i|f b|g], u as [f' c j|f' c|g']; rewrite ?Heq; cbn [shift_target]; try done.
  intros [= -> -> Hi]. f_equal. destruct (here f' c); cbn [andb] in Hi; [|done].
  destruct (Nat.leb_spec pos i), (Nat.leb_spec pos j); lia.
Qed.
Lemma shifted_target_inj s t u : shifted_target s t = shifted_target s u → t = u.
Proof. unfold shifted_target. destruct (_ !! _) as [[pos count]|]; [apply shift_target_inj|done]. Qed.

(** C15: hoisting an allocation into the entry block does not detach a source mapping.  When the
    mappings of a mapped function are in step with its blocks, then after any sequence of checked
    operations, allocations hoisted into the entry block included, applying the recorded shifts leaves
    every mapping with its original node on the operation it was made for, distinct targets stay
    distinct, and the mappings are in step again. *)
Theorem mappings_follow s ops s' (Hs : built_state s)
    (Hvalues : ModuleBuilder.next_value (mb s) + len ops < 2 ^ 32)
    (Hblocks : ModuleBuilder.next_block (mb s) + len ops < 2 ^ 32)
    (Hmapped : Syntax.function_id (func s) ∈ ModuleBuilder.source_mapped_functions (mb s))
    (Hstep : ModuleBuilder.source_shifts (mb s) !! Syntax.function_id (func s) = None)
    (Hrun : run_ops ops s = Ok s') :
  let q := flush_source_shifts s' in
  func q = func s' ∧
  ModuleBuilder.source_shifts (mb q) !! Syntax.function_id (func q) = None ∧
  mappings (sources (module q)) =
    (λ m, mkSourceMapping (shifted_target s' (mapping_target m)) (mapping_original m)) <$>
      mappings (sources (module s)) ∧
  (∀ t u, shifted_target s' t = shifted_target s' u → t = u) ∧
  ∀ t o, operation_at (func s) t = Some o → operation_at (func q) (shifted_target s' t) = Some o.
Proof.
  intros q. destruct (run_ops_safe ops s Hs Hvalues Hblocks) as (x & Hx & _ & Hst).
  rewrite Hrun in Hx. injection Hx as <-.
  destruct (bs_built _ Hs) as [_ _ _ Hnd _ He _ _ _].
  assert (Hf : follows s s').
  { eapply follows_edits; [by apply Hst|]. by apply follows_start. }
  destruct Hf as [(Q1 & Q2 & Q3 & Q4) F2 _ _ F3 F4 F5]. destruct (F5 Hmapped) as [F6 _].
  assert (Hq : func q = func s') by apply flush_same. rewrite Hq. split; [done|].
  split; [|split; [|split; [intros t u; apply shifted_target_inj|]]].
  - unfold q, flush_source_shifts.
    destruct (ModuleBuilder.source_shifts (mb s') !! Syntax.function_id (func s')) as [[pos count]|] eqn:E;
      [|done]. cbn. apply lookup_delete_eq.
  - unfold q, flush_source_shifts, shifted_target.
    destruct (ModuleBuilder.source_shifts (mb s') !! Syntax.function_id (func s')) as [[pos count]|] eqn:E.
    + cbn. by rewrite <- Q3.
    + rewrite Q3. symmetry. rewrite <- (list_fmap_id (mappings _)) at 2. apply list_fmap_ext. by intros i [].
  - intros t o. unfold operation_at. destruct t as [f b i|f b|g]; [| |done]; case_decide as Hfid; try done;
      subst f; intros (y & Hy & ->)%fmap_Some.
    + apply F3 in Hy as Hy'. rewrite <- F6 in Hy' by by eexists.
      assert (shifted_target s' (SourceTarget.Instruction (Syntax.function_id (func s)) b i) =
        SourceTarget.Instruction (Syntax.function_id (func s)) b
          (shifted s (ModuleBuilder.source_shifts (mb s') !! Syntax.function_id (func s)) b i)) as ->.
      { unfold shifted_target. rewrite Q1, Q2. clear F6.
        destruct (ModuleBuilder.source_shifts (mb s') !! Syntax.function_id (func s)) as [[pos count]|]; [|done]. cbn.
        rewrite bool_decide_eq_true_2 by done. cbn. by destruct (_ && _). }
      rewrite decide_True by done. by rewrite Hy'.
    + assert (shifted_target s' (SourceTarget.Terminator (Syntax.function_id (func s)) b) =
        SourceTarget.Terminator (Syntax.function_id (func s)) b) as ->.
      { unfold shifted_target. clear F6.
        by destruct (ModuleBuilder.source_shifts (mb s') !! Syntax.function_id (func s')) as [[pos count]|]. }
      rewrite decide_True by done. by rewrite (F4 _ _ Hy).
Qed.

(** ** Annotations *)

Lemma charge_same n s s' :
  charge_source_work n s = (Ok tt, s') →
  func s' = func s ∧ insert_block s' = insert_block s ∧ module s' = module s ∧
  ModuleBuilder.source_shifts (mb s') = ModuleBuilder.source_shifts (mb s) ∧
  ModuleBuilder.source_mapped_functions (mb s') = ModuleBuilder.source_mapped_functions (mb s) ∧
  ModuleBuilder.next_value (mb s') = ModuleBuilder.next_value (mb s) ∧
  ModuleBuilder.next_block (mb s') = ModuleBuilder.next_block (mb s).
Proof.
  unfold charge_source_work, on_mb, zoom, ModuleBuilder.charge_source_work.
  destruct (checked_u _ _); [|done]. by intros [= <-].
Qed.

(** [flush_source_shifts] sees only the shifts, the function and the module. *)
Lemma flush_charged s s' :
  func s' = func s → module s' = module s →
  ModuleBuilder.source_shifts (mb s') = ModuleBuilder.source_shifts (mb s) →
  module (flush_source_shifts s') = module (flush_source_shifts s) ∧
  ModuleBuilder.source_shifts (mb (flush_source_shifts s')) =
    ModuleBuilder.source_shifts (mb (flush_source_shifts s)).
Proof.
  intros Hf Hm Hs. unfold flush_source_shifts. rewrite Hf, Hs. unfold module in *.
  destruct (ModuleBuilder.source_shifts (mb s) !! Syntax.function_id (func s)) as [[]|]; [|done].
  cbn. unfold ModuleBuilder.with_sources, ModuleBuilder.with_module. cbn. by rewrite Hm.
Qed.
Lemma flush_step s :
  ModuleBuilder.source_shifts (mb (flush_source_shifts s)) !! Syntax.function_id (func s) = None.
Proof.
  unfold flush_source_shifts.
  destruct (ModuleBuilder.source_shifts (mb s) !! Syntax.function_id (func s)) as [[]|] eqn:E; [|done].
  cbn. apply lookup_delete_eq.
Qed.

Lemma checkpoint_spec s cp s' :
  source_checkpoint s = (Ok cp, s') →
  cp = block_checkpoint <$> blocks (func s') ∧ func s' = func s ∧ insert_block s' = insert_block s ∧
  ModuleBuilder.next_value (mb s') = ModuleBuilder.next_value (mb s) ∧
  ModuleBuilder.next_block (mb s') = ModuleBuilder.next_block (mb s) ∧
  declarations (module s') = declarations (module s) ∧
  global_storage (module s') = global_storage (module s) ∧
  ModuleBuilder.source_shifts (mb s') !! Syntax.function_id (func s') = None.
Proof.
  unfold source_checkpoint. intros (z&z'&[= <- <-]&([]&s1&H1&H)%stm_bind_Ok)%stm_bind_Ok.
  apply stm_bind_Ok in H as (x&s1'&[= <- <-]&([]&s2&H2&H)%stm_bind_Ok).
  apply stm_bind_Ok in H as ([]&s3&[= <-]&H). apply stm_bind_Ok in H as (y&s3'&[= <- <-]&[= <- <-]).
  apply charge_same in H1 as (A1 & A2 & A3 & A4 & A5 & A6 & A7).
  apply charge_same in H2 as (B1 & B2 & B3 & B4 & B5 & B6 & B7).
  destruct (flush_same s2) as (F1 & F2 & F3 & F4 & F5 & F6 & F7 & F8).
  assert (Hi : insert_block (flush_source_shifts s2) = insert_block s2).
  { unfold flush_source_shifts. by destruct (_ !! _) as [[]|]. }
  split_and!; try congruence. rewrite F1. apply flush_step.
Qed.

Lemma add_original_mappings sources a : mappings (add_frontend_original sources a) = mappings sources.
Proof.
  unfold add_frontend_original. destruct (existsb _ _); [done|].
  destruct (annotation_source a) as [x|]; [|done]. by destruct (find_opt _ _).
Qed.

Lemma annotate_spec a cp s s' :
  annotate_source a cp s = (Ok tt, s') →
  func s' = func s ∧
  mappings (sources (module s')) =
    mappings (sources (module (flush_source_shifts s))) ++
    new_mappings (annotation_id a) (func s) (collect cp)
      (mapping_target <$> mappings (sources (module (flush_source_shifts s)))) ∧
  Syntax.function_id (func s) ∈ ModuleBuilder.source_mapped_functions (mb s') ∧
  ModuleBuilder.source_shifts (mb s') !! Syntax.function_id (func s) = None.
Proof.
  unfold annotate_source. intros (z&z'&[= <- <-]&([]&s1&H1&H)%stm_bind_Ok)%stm_bind_Ok.
  apply stm_bind_Ok in H as (x&s1'&[= <- <-]&([]&s2&H2&H)%stm_bind_Ok).
  apply stm_bind_Ok in H as ([]&s3&[= <-]&[= <-]).
  apply charge_same in H1 as (A1 & A2 & A3 & A4 & A5 & A6 & A7).
  apply charge_same in H2 as (B1 & B2 & B3 & B4 & B5 & B6 & B7).
  destruct (flush_charged s s2) as [Hm Hs]; try congruence.
  assert (Hf : func (flush_source_shifts s2) = func s) by (rewrite (proj1 (flush_same s2)); congruence).
  cbn [func mb with_mb]. rewrite Hf. split; [done|]. split.
  - cbn. rewrite !add_original_mappings. unfold module in *. by rewrite Hm.
  - cbn [ModuleBuilder.source_mapped_functions ModuleBuilder.source_shifts ModuleBuilder.with_mapped
      ModuleBuilder.with_sources ModuleBuilder.with_module]. rewrite Hs. split; [set_solver|apply flush_step].
Qed.

(** Where a target of [s0] is once the entry block starts with [prefix] allocations. *)
Definition moved_target (s0 : function_builder) (prefix : nat) (t : SourceTarget.t) : SourceTarget.t :=
  match t with
  | SourceTarget.Instruction f b i => SourceTarget.Instruction f b (moved s0 prefix b i)
  | _ => t
  end.

(** The test of [annotate_source] in the entry block: what it accepts is not an old position. *)
Lemma new_index_entry old_len p0 p1 terminated i :
  (p0 ≤ p1)%nat → (p0 ≤ old_len)%nat →
  new_index true (old_len, p0, terminated) p1 i = true ↔
    ¬ ∃ j, (j < old_len)%nat ∧ (if (p0 <=? j)%nat then j + (p1 - p0) else j)%nat = i.
Proof.
  intros Hp Hl. unfold new_index.
  rewrite orb_true_iff, andb_true_iff, !Nat.leb_le, Nat.ltb_lt. split.
  - intros Hi (j & Hj & Ej). destruct (Nat.leb_spec p0 j); lia.
  - intros Hno. destruct (decide (p0 ≤ i ∧ i < p1)%nat) as [|Hout]; [by left|right].
    destruct (Nat.le_gt_cases (old_len + (p1 - p0)) i) as [|Hlt]; [done|exfalso]. apply Hno.
    destruct (Nat.le_gt_cases p0 i).
    + exists (i - (p1 - p0))%nat. split; [lia|]. destruct (Nat.leb_spec p0 (i - (p1 - p0))); lia.
    + exists i. split; [lia|]. destruct (Nat.leb_spec p0 i); lia.
Qed.

Section annotation.
Context (s0 s : function_builder) (Hfollows : follows s0 s).
Context (H0 : NoDup (block_id <$> blocks (func s0))).
Context (Hentry0 : entry (func s0) ∈ block_id <$> blocks (func s0)).
#[local] Notation before := (collect (block_checkpoint <$> blocks (func s0))).
#[local] Notation move := (moved_target s0 (prefix_of s0 (func s))).
#[local] Set Default Proof Using "Type*".

Lemma block_of_in f b : NoDup (block_id <$> blocks f) → b ∈ blocks f → block_of f (block_id b) = Some b.
Proof using. intros Hnd Hb. by apply (find_opt_key block_id). Qed.
Lemma block_of_Some f c b : block_of f c = Some b → b ∈ blocks f ∧ block_id b = c.
Proof using. intros [Hb Hc]%find_opt_Some. by apply bool_decide_eq_true in Hc. Qed.

Lemma before_lookup c :
  before !! c = (λ b, (length (instructions b), alloca_prefix (instructions b), is_terminated b)) <$> block_of (func s0) c.
Proof.
  assert (Hkeys : (block_checkpoint <$> blocks (func s0)).*1 = block_id <$> blocks (func s0))
    by by rewrite <- list_fmap_compose.
  destruct (block_of (func s0) c) as [b|] eqn:Hb; cbn.
  - apply block_of_Some in Hb as [Hb <-]. apply collect_lookup_NoDup; [by rewrite Hkeys|].
    apply list_elem_of_fmap. by exists b.
  - apply collect_lookup_None. rewrite Hkeys. intros (b & -> & Hin)%list_elem_of_fmap.
    by rewrite block_of_in in Hb.
Qed.

(** A new instruction is one that no old instruction has moved to. *)
Lemma new_index_spec b i :
  b ∈ blocks (func s) → (i < length (instructions b))%nat →
  new_index (bool_decide (block_id b = entry (func s)))
    (default (0%nat, 0%nat, false) (before !! block_id b)) (alloca_prefix (instructions b)) i = true ↔
  ∀ j, is_Some (instruction_at (func s0) (block_id b) j) → moved s0 (prefix_of s0 (func s)) (block_id b) j ≠ i.
Proof.
  intros Hb Hi. destruct Hfollows as [(Q1 & Q2 & Q3 & Q4) F2 Fe Fp F3 F4 F5].
  rewrite before_lookup, Q2. unfold instruction_at.
  destruct (block_of (func s0) (block_id b)) as [b0|] eqn:Hb0; cbn [fmap option_fmap option_map default from_option Datatypes.id].
  - assert (Hlen : ∀ j, is_Some (instructions b0 !! j) ↔ (j < length (instructions b0))%nat)
      by apply lookup_lt_is_Some.
    cbn [mbind option_bind]. setoid_rewrite Hlen. case_bool_decide as He.
    + assert (Hp0 : prefix_of s0 (func s0) = alloca_prefix (instructions b0)).
      { apply entry_prefix. by rewrite <- He. }
      assert (Hp : prefix_of s0 (func s) = alloca_prefix (instructions b)).
      { apply entry_prefix. rewrite <- He. by apply block_of_in. }
      rewrite He. setoid_rewrite moved_entry. rewrite Hp0, Hp in *.
      rewrite new_index_entry; [|done|apply alloca_prefix_le]. split.
      * intros Hno j Hj Ej. apply Hno. by exists j.
      * intros Hall (j & Hj & Ej). by apply (Hall j).
    + setoid_rewrite (moved_other s0 _ _ _ He). cbn [new_index]. rewrite Nat.leb_le. split.
      * intros Hle j Hj ->. lia.
      * intros Hall. destruct (Nat.le_gt_cases (length (instructions b0)) i) as [|Hlt]; [done|].
        by destruct (Hall i Hlt).
  - rewrite bool_decide_eq_false_2.
    + cbn. split; [by intros _ j []|done].
    + intros He. apply list_elem_of_fmap in Hentry0 as (x & Ex & Hx).
      rewrite He, Ex, block_of_in in Hb0; done.
Qed.

Lemma block_targets_spec b t :
  b ∈ blocks (func s) →
  t ∈ block_targets (func s) before b ↔
    match t with
    | SourceTarget.Instruction f c _ | SourceTarget.Terminator f c =>
        f = Syntax.function_id (func s) ∧ c = block_id b
    | SourceTarget.Global _ => False
    end ∧ is_Some (operation_at (func s) t) ∧
    ∀ t0, is_Some (operation_at (func s0) t0) → move t0 ≠ t.
Proof.
  intros Hb. assert (Hs := Hfollows). destruct Hs as [(Q1 & Q2 & Q3 & Q4) F2 Fe Fp F3 F4 F5].
  assert (Hbo := block_of_in _ _ F2 Hb). unfold block_targets. rewrite elem_of_app, list_elem_of_fmap.
  setoid_rewrite list_elem_of_filter. setoid_rewrite elem_of_seq.
  destruct t as [f c i|f c|g].
  - split.
    + intros [(j & [= -> -> ->] & Hnew & Hj)|Hin]; [|by destruct (_ && _); [apply list_elem_of_singleton in Hin|apply not_elem_of_nil in Hin]].
      destruct Hj as [_ Hj]. split; [done|]. split.
      * cbn. rewrite decide_True by done. unfold instruction_at. rewrite Hbo. cbn.
        destruct (lookup_lt_is_Some_2 _ _ Hj) as [x ->]. by eexists.
      * intros [f c k|f c|g] Hk Heq; try done. cbn in Heq. injection Heq as -> -> Heq.
        eapply (proj1 (new_index_spec b j Hb Hj)); [done| |exact Heq].
        cbn in Hk. rewrite decide_True in Hk by done. by apply fmap_is_Some in Hk.
    + intros ([-> ->] & Hop & Hall). left. cbn in Hop. rewrite decide_True in Hop by done.
      unfold instruction_at in Hop. rewrite Hbo in Hop. cbn in Hop. apply fmap_is_Some, lookup_lt_is_Some in Hop.
      exists i. split; [done|]. split; [|lia]. apply new_index_spec; [done..|].
      intros j Hj Heq. apply (Hall (SourceTarget.Instruction (Syntax.function_id (func s)) (block_id b) j)).
      * cbn. rewrite decide_True by done. by apply fmap_is_Some.
      * cbn. by rewrite Heq.
  - assert (Hold : (default (0%nat, 0%nat, false) (before !! block_id b)).2 = true ↔
      is_Some (terminator_at (func s0) (block_id b))).
    { rewrite before_lookup. unfold terminator_at. destruct (block_of (func s0) (block_id b)) as [b0|]; cbn;
        [unfold is_terminated; destruct (block_terminator b0)|]; split; try done; by intros []. }
    assert (Hterm : is_terminated b = true ↔ is_Some (terminator_at (func s) (block_id b))).
    { unfold terminator_at, is_terminated. rewrite Hbo. cbn.
      destruct (block_terminator b); split; try done; by intros []. }
    split.
    + intros [(j & ? & _)|Hin]; [done|].
      destruct (is_terminated b && _) eqn:Ht; [|by apply not_elem_of_nil in Hin].
      apply list_elem_of_singleton in Hin as [= -> ->].
      apply andb_true_iff in Ht as [Ht Hn%negb_true_iff]. split; [done|]. split.
      * cbn. rewrite decide_True by done. by apply fmap_is_Some, Hterm.
      * intros [f c k|f c|g] Hk Heq; try done. cbn in Heq. injection Heq as -> ->.
        cbn in Hk. rewrite decide_True in Hk by done. apply fmap_is_Some, Hold in Hk. congruence.
    + intros ([-> ->] & Hop & Hall). right. cbn in Hop. rewrite decide_True in Hop by done.
      apply fmap_is_Some, Hterm in Hop. rewrite Hop.
      destruct (default _ _).2 eqn:Eo; cbn.
      * exfalso. apply (Hall (SourceTarget.Terminator (Syntax.function_id (func s)) (block_id b))); [|done].
        cbn. rewrite decide_True by done. by apply fmap_is_Some, Hold.
      * by apply list_elem_of_singleton.
  - split; [|by intros []]. intros [(j & ? & _)|Hin]; [done|].
    destruct (is_terminated b && _); [by apply list_elem_of_singleton in Hin|by apply not_elem_of_nil in Hin].
Qed.
End annotation.

Lemma new_targets_NoDup f before : NoDup (block_id <$> blocks f) → NoDup (blocks f ≫= block_targets f before).
Proof.
  intros Hnd. assert (Hone : ∀ b, NoDup (block_targets f before b) ∧
    ∀ t, t ∈ block_targets f before b → match t with
      | SourceTarget.Instruction _ c _ | SourceTarget.Terminator _ c => c = block_id b
      | SourceTarget.Global _ => False end).
  { intros b. unfold block_targets. split.
    - apply NoDup_app. split_and!.
      + apply NoDup_fmap_2; [by intros i j [= ->]|]. apply NoDup_filter, NoDup_seq.
      + intros t (i & -> & _)%list_elem_of_fmap Hin. destruct (_ && _);
          [by apply list_elem_of_singleton in Hin|by apply not_elem_of_nil in Hin].
      + destruct (_ && _); [apply NoDup_singleton|constructor].
    - intros t [(i & -> & _)%list_elem_of_fmap|Hin]%elem_of_app; [done|].
      destruct (_ && _); [by apply list_elem_of_singleton in Hin as ->|by apply not_elem_of_nil in Hin]. }
  revert Hnd. induction (blocks f) as [|b bs IH]; [constructor|]. rewrite fmap_cons.
  intros [Hb Hnd]%NoDup_cons. rewrite bind_cons. apply NoDup_app. split_and!; [apply Hone| |by apply IH].
  intros t Ht (b' & Ht' & Hin)%list_elem_of_bind. apply Hone in Ht, Ht'.
  apply Hb. destruct t as [f' c i|f' c|g]; [..|done]; subst c; rewrite Ht'; by apply list_elem_of_fmap_2.
Qed.

Lemma moved_operation s0 s t o :
  follows s0 s → operation_at (func s0) t = Some o →
  operation_at (func s) (moved_target s0 (prefix_of s0 (func s)) t) = Some o.
Proof.
  intros [(Q1 & Q2 & Q3 & Q4) F2 Fe Fp F3 F4 F5]. unfold operation_at.
  destruct t as [f b i|f b|g]; cbn [moved_target]; [| |done]; rewrite Q1; case_decide; try done;
    intros (y & Hy & ->)%fmap_Some.
  - by rewrite (F3 _ _ _ Hy).
  - by rewrite (F4 _ _ Hy).
Qed.

(** C39: an annotation maps exactly the operations of its statement.  Between a checkpoint and the
    annotation that takes it, whatever checked operations a client runs, every operation that was there
    keeps a place, and the targets the annotation adds, each once and with its original node, are those
    of the operations without a mapping that are not one of the old operations. *)
Theorem annotation_exact s cp s1 ops s2 a s3 (Hs : built_state s)
    (Hvalues : ModuleBuilder.next_value (mb s) + len ops < 2 ^ 32)
    (Hblocks : ModuleBuilder.next_block (mb s) + len ops < 2 ^ 32)
    (Hcheckpoint : source_checkpoint s = (Ok cp, s1)) (Hrun : run_ops ops s1 = Ok s2)
    (Hannotate : annotate_source a cp s2 = (Ok tt, s3)) :
  let before := mappings (sources (module (flush_source_shifts s2))) in
  ∃ move added,
    mappings (sources (module s3)) = before ++ ((λ t, mkSourceMapping t (annotation_id a)) <$> added) ∧
    (∀ t o, operation_at (func s) t = Some o → operation_at (func s3) (move t) = Some o) ∧
    NoDup added ∧
    ∀ t, t ∈ added ↔ is_Some (operation_at (func s3) t) ∧ t ∉ mapping_target <$> before ∧
      ∀ t0, is_Some (operation_at (func s) t0) → move t0 ≠ t.
Proof.
  intros before. apply checkpoint_spec in Hcheckpoint as (-> & C1 & C2 & C3 & C4 & C5 & C6 & C7).
  apply annotate_spec in Hannotate as (-> & Hm & _ & _). fold before in Hm.
  assert (Hs1 : built_state s1).
  { destruct Hs as [Hb Hi Hc]. split; [|by rewrite C1, C2|by rewrite C3, C4].
    rewrite C1, C3, C4. eapply built_extend; [exact Hb| |lia..].
    split; exists []; by rewrite app_nil_r. }
  destruct (run_ops_safe ops s1 Hs1) as (x & Hx & _ & Hst); [by rewrite C3|by rewrite C4|].
  rewrite Hrun in Hx. injection Hx as <-.
  destruct (bs_built _ Hs1) as [_ _ _ Hnd _ He _ _ _].
  assert (Hf : follows s1 s2) by (eapply follows_edits; [by apply Hst|by apply follows_start]).
  exists (moved_target s1 (prefix_of s1 (func s2))),
    (filter (.∉ mapping_target <$> before)
       (blocks (func s2) ≫= block_targets (func s2) (collect (block_checkpoint <$> blocks (func s1))))).
  rewrite <- C1. split; [done|]. split; [intros t o; by apply moved_operation|].
  split; [apply NoDup_filter, new_targets_NoDup, Hf|].
  intros t. rewrite list_elem_of_filter, list_elem_of_bind. split.
  - intros (Hno & b & Hin & Hb). apply (block_targets_spec s1 s2 Hf Hnd He b t Hb) in Hin as (_ & ? & ?).
    done.
  - intros (Hop & Hno & Hold). split; [done|].
    assert (∃ b, b ∈ blocks (func s2) ∧ match t with
      | SourceTarget.Instruction f c _ | SourceTarget.Terminator f c =>
          f = Syntax.function_id (func s2) ∧ c = block_id b
      | SourceTarget.Global _ => False end) as (b & Hb & Ht).
    { unfold operation_at, instruction_at, terminator_at in Hop.
      destruct t as [f c i|f c|g]; [..|by destruct Hop]; (case_decide; [|by destruct Hop]);
        apply fmap_is_Some in Hop as [y Hy]; (destruct (block_of (func s2) c) as [b|] eqn:Hb; [|done]);
        apply block_of_Some in Hb as [Hb <-]; by exists b. }
    exists b. split; [|done]. by apply (block_targets_spec s1 s2 Hf Hnd He b t Hb).
Qed.

(** *** A function with a mapped instruction *)

Definition sample_instruction : instruction := Instruction.Const (mkValueId 1) Ty.I32 (ConstValue.I 7).
Definition sample_function : Function :=
  mkFunction (mkFunctionId 0) "f" [mkParam "n" (mkValueId 0) Ty.I32] Ty.I32
    [mkBlock (mkBlockId 0) "entry" [sample_instruction] None] (mkBlockId 0)
    [(mkValueId 0, Ty.I32); (mkValueId 1, Ty.I32)].
Definition sample_target (index : nat) : SourceTarget.t :=
  SourceTarget.Instruction (mkFunctionId 0) (mkBlockId 0) index.
Definition sample_builder : function_builder :=
  mk (ModuleBuilder.mk
        (set_sources (mkSources [] [mkOriginalNode 5 None] [mkSourceMapping (sample_target 0) 5])
           (empty_module "x86_64-whale-linux" (mkDataLayout 64 Little)))
        2 1 0 1000 (mkBudget default_limits 1000) ∅ {[mkFunctionId 0]})
    sample_function (mkBlockId 0).
Definition sample_ops : list Op.t :=
  [Op.AllocaInEntry Ty.I32 4; Op.ConstI32 3; Op.AllocaInEntry Ty.I64 8].

Lemma sample_built : built_state sample_builder.
Proof.
  assert (Hone : ∀ b, b ∈ blocks sample_function → b = mkBlock (mkBlockId 0) "entry" [sample_instruction] None)
    by by intros b ->%list_elem_of_singleton.
  split; [split| |by split]; cbn [module func mb sample_builder insert_block].
  - apply (bool_decide_unpack (NoDup (value_types sample_function).*1)). vm_compute. exact I.
  - intros p [->|[->|[]%not_elem_of_nil]%elem_of_cons]%elem_of_cons; done.
  - reflexivity.
  - apply NoDup_singleton.
  - by intros b ->%Hone.
  - by left.
  - intros b i ->%Hone ->%list_elem_of_singleton. by apply (plain_ok _ _ _ []).
  - by intros b t ->%Hone.
  - by intros b ->%Hone.
  - by left.
Qed.

Lemma sample_mapped :
  Syntax.function_id (func sample_builder) ∈ ModuleBuilder.source_mapped_functions (mb sample_builder).
Proof. change (mkFunctionId 0 ∈ ({[mkFunctionId 0]} : gset FunctionId)). by apply elem_of_singleton. Qed.

Lemma mappings_follow_witness :
  ∃ s', run_ops sample_ops sample_builder = Ok s' ∧
    operation_at (func (flush_source_shifts s')) (shifted_target s' (sample_target 0)) =
      Some (AnInstruction sample_instruction) ∧
    (* the instruction is the third of its block now *)
    settle (run (Op.AllocaInEntry Ty.I32 4) sample_builder) ≫=
      (λ s, Ok (mapping_target <$> mappings (sources (module (flush_source_shifts s))))) =
      Ok [sample_target 1].
Proof.
  destruct (run_ops_safe sample_ops sample_builder sample_built) as (s' & Hrun & _); [done..|].
  exists s'. split; [done|].
  destruct (mappings_follow sample_builder sample_ops s' sample_built) as (_ & _ & _ & _ & Hop);
    [done|done|by apply sample_mapped|done|done|].
  split; [|vm_compute; reflexivity]. by apply Hop.
Defined.

Lemma annotation_exact_witness :
  ∃ cp s1 s2 s3, source_checkpoint sample_builder = (Ok cp, s1) ∧ run_ops sample_ops s1 = Ok s2 ∧
    annotate_source (mkAnnotation 6 None) cp s2 = (Ok tt, s3) ∧
    mapping_target <$> mappings (sources (module s3)) =
      [sample_target 2; sample_target 0; sample_target 1; sample_target 3] ∧
    ∃ move, operation_at (func s3) (move (sample_target 0)) = Some (AnInstruction sample_instruction).
Proof.
  assert (∃ cp s1 s2 s3, source_checkpoint sample_builder = (Ok cp, s1) ∧
    run_ops sample_ops s1 = Ok s2 ∧ annotate_source (mkAnnotation 6 None) cp s2 = (Ok tt, s3) ∧
    mapping_target <$> mappings (sources (module s3)) =
      [sample_target 2; sample_target 0; sample_target 1; sample_target 3])
    as (cp & s1 & s2 & s3 & E1 & E2 & E3 & E4).
  { eexists _, _, _, _. split; [vm_compute; reflexivity|]. split; [vm_compute; reflexivity|].
    split; vm_compute; reflexivity. }
  exists cp, s1, s2, s3. split_and!; [done..|].
  destruct (annotation_exact sample_builder cp s1 sample_ops s2 (mkAnnotation 6 None) s3 sample_built)
    as (move & added & _ & Hop & _ & _); [done..|].
  exists move. by apply Hop.
Defined.
