(* ===== verification/Passes.v ===== *)
(** * Verified, transactional pass boundaries ([pass.rs], [zero/pass.rs])

    A pass is any code that transforms a module in place and reports what it changed: an instance
    of the class [Pass], the trait of the source.  The one pass of the repository, [ZeroPass],
    changes nothing.  The runner verifies the module before and after it, compares the module with a
    copy, holds the report against the comparison, advances the epochs of the analyses, and puts
    the copy back when anything failed.

    The theorems are about arbitrary passes: one that fails, lies or leaves an ill formed module is
    covered.  A pass that panics takes the runner down with it, without the copy put back; the
    transaction is about passes that return.  The interface between the runner and the clients that cache an analysis
    is [AnalysisState]: [cache_fresh] is proved against it alone. *)
From S2P Require Import Verified.
Local Open Scope Z_scope.

(** ** Equality of modules

    The runner compares modules with the derived [PartialEq]. *)
Fixpoint const_expr_dec (a b : const_expr) {struct a} : {a = b} + {a ≠ b}
with const_kind_dec (a b : ConstExpr.kind) {struct a} : {a = b} + {a ≠ b}.
Proof.
  - decide equality. apply ty_eq_dec.
  - decide equality; [apply ConstValue.eq_dec|apply ConstRef.eq_dec|apply ConstBinaryOp.eq_dec|
      apply ConstCompareOp.eq_dec].
Defined.
#[export] Instance const_expr_eq_dec : EqDecision const_expr := const_expr_dec.
#[export] Instance instruction_eq_dec : EqDecision instruction.
Proof. solve_decision. Defined.
#[export] Instance terminator_eq_dec : EqDecision terminator.
Proof. solve_decision. Defined.
#[export] Instance BasicBlock_eq_dec : EqDecision BasicBlock.
Proof. solve_decision. Defined.
#[export] Instance Param_eq_dec : EqDecision Param.
Proof. solve_decision. Defined.
#[export] Instance Function_eq_dec : EqDecision Function.
Proof. solve_decision. Defined.
#[export] Instance FunctionDecl_eq_dec : EqDecision FunctionDecl.
Proof. solve_decision. Defined.
#[export] Instance GlobalStorageInit_eq_dec : EqDecision GlobalStorageInit.t.
Proof. solve_decision. Defined.
#[export] Instance GlobalStorage_eq_dec : EqDecision GlobalStorage.
Proof. solve_decision. Defined.
#[export] Instance Global_eq_dec : EqDecision Global.
Proof. solve_decision. Defined.
#[export] Instance SourceFile_eq_dec : EqDecision SourceFile.
Proof. solve_decision. Defined.
#[export] Instance OriginalNode_eq_dec : EqDecision OriginalNode.
Proof. solve_decision. Defined.
#[export] Instance SourceMapping_eq_dec : EqDecision SourceMapping.
Proof. solve_decision. Defined.
#[export] Instance SourceMetadata_eq_dec : EqDecision SourceMetadata.
Proof. solve_decision. Defined.
#[export] Instance Module_eq_dec : EqDecision Module_.
Proof. solve_decision. Defined.

(** ** Analyses *)

Module AnalysisKind.
Inductive t := Cfg | Values | Effects.
#[global] Instance eq_dec : EqDecision t.
Proof. solve_decision. Defined.
End AnalysisKind.

Module Invalidates.
Record t := mk { cfg : bool; values : bool; effects : bool }.
#[global] Instance eq_dec : EqDecision t.
Proof. solve_decision. Defined.
Definition ALL : t := mk true true true.
(** [Invalidates::default], derived. *)
Definition default : t := mk false false false.
End Invalidates.

(** One flag of [Invalidates]; the source lists them in the order of the kinds. *)
Definition invalid (which : Invalidates.t) (kind : AnalysisKind.t) : bool :=
  match kind with
  | AnalysisKind.Cfg => Invalidates.cfg which
  | AnalysisKind.Values => Invalidates.values which
  | AnalysisKind.Effects => Invalidates.effects which
  end.

(** The array of three epochs, indexed by [kind as usize]. *)
Record Epochs := mkEpochs { cfg_epoch : Z; values_epoch : Z; effects_epoch : Z }.
Definition epoch_at (e : Epochs) (kind : AnalysisKind.t) : Z :=
  match kind with
  | AnalysisKind.Cfg => cfg_epoch e
  | AnalysisKind.Values => values_epoch e
  | AnalysisKind.Effects => effects_epoch e
  end.
Definition set_epoch (e : Epochs) (kind : AnalysisKind.t) (n : Z) : Epochs :=
  match kind with
  | AnalysisKind.Cfg => mkEpochs n (values_epoch e) (effects_epoch e)
  | AnalysisKind.Values => mkEpochs (cfg_epoch e) n (effects_epoch e)
  | AnalysisKind.Effects => mkEpochs (cfg_epoch e) (values_epoch e) n
  end.

(** The identity is the address of the shared allocation. *)
Record AnalysisState := mkAnalyses { identity : Z; epochs : Epochs }.

(** [AnalysisState::epoch]. *)
Definition epoch (s : AnalysisState) (kind : AnalysisKind.t) : Z := epoch_at (epochs s) kind.

(** [u64::checked_add(1)]. *)
Definition next_epoch (n : Z) : option Z := if n + 1 <? 2 ^ 64 then Some (n + 1) else None.

(** [AnalysisState::invalidate]: the new epochs are stored once they all exist. *)
Definition invalidate (which : Invalidates.t) : stm AnalysisState string unit := λ s,
  let step (next : Epochs) (kind : AnalysisKind.t) : result string Epochs :=
    if invalid which kind
    then n ← ok_or (next_epoch (epoch_at next kind)) "analysis epoch exhausted"%string;
         Ok (set_epoch next kind n)
    else Ok next in
  match try_fold step [AnalysisKind.Cfg; AnalysisKind.Values; AnalysisKind.Effects] (epochs s) with
  | Ok next => (Ok tt, mkAnalyses (identity s) next)
  | Err e => (Err e, s)
  | Panic => (Panic, s)
  end.

Module AnalysisCache.
Record t (T : Type) := mk {
  cache_identity : Z; cache_kind : AnalysisKind.t; cache_epoch : Z; cache_value : T;
}.
Arguments mk {T} _ _ _ _.
Arguments cache_identity {T} _.
Arguments cache_kind {T} _.
Arguments cache_epoch {T} _.
Arguments cache_value {T} _.
(** [AnalysisCache::new]. *)
Definition new {T} (kind : AnalysisKind.t) (state : AnalysisState) (value : T) : t T :=
  mk (identity state) kind (epoch state kind) value.
(** [AnalysisCache::get]. *)
Definition get {T} (c : t T) (state : AnalysisState) : option T :=
  if bool_decide (cache_identity c = identity state) &&
     (cache_epoch c =? epoch state (cache_kind c))
  then Some (cache_value c) else None.
End AnalysisCache.

(** ** Passes *)

Record PassChange := mkChange { changed : bool; invalidates : Invalidates.t }.

(** The trait: [run] takes the pass and the module by mutable reference. *)
Class Pass (P : Type) := {
  pass_name : P → string;
  pass_run : stm (P * Module_) string PassChange;
}.

Module PassStage.
Inductive t := Before | Transform | After | Contract.
End PassStage.

Module PassFailure.
Inductive t := Verification (e : VerifyError.t) | Message (m : string).
End PassFailure.

Record PassError := mkPassError {
  error_pass : string; error_target : string;
  error_stage : PassStage.t; error_cause : PassFailure.t;
}.

Section runner.
Context {P : Type} `{!Pass P}.

(** What the runner is lent: the module, the pass and the analyses. *)
Record Lent := mkLent { lent_module : Module_; lent_pass : P; lent_analyses : AnalysisState }.

Definition with_module (s : Lent) (m : Module_) : Lent := mkLent m (lent_pass s) (lent_analyses s).

(** [pass.run(module)]. *)
Definition transform : stm Lent string PassChange := λ s,
  let '(r, (p, m)) := pass_run (lent_pass s, lent_module s) in (r, mkLent m p (lent_analyses s)).

(** [analyses.invalidate]. *)
Definition invalidate_lent (which : Invalidates.t) : stm Lent string unit := λ s,
  let '(r, a) := invalidate which (lent_analyses s) in (r, mkLent (lent_module s) (lent_pass s) a).

Definition map_err_stm {S E F A} (f : E → F) (m : stm S E A) : stm S F A := λ s,
  let '(r, s') := m s in (map_err f r, s').

Definition contract_message : string :=
  "report must match the mutation and explicitly invalidate all analyses on change".

(** The report breaks the contract. *)
Definition breaks_contract (report : PassChange) (changed_ : bool) : bool :=
  negb (Bool.eqb (changed report) changed_)
  || changed_ && negb (bool_decide (invalidates report = Invalidates.ALL))
  || negb changed_ && negb (bool_decide (invalidates report = Invalidates.default)).

(** The closure of [run_pass_with_limits]. *)
Definition transaction (limits : IrLimits) (before : Module_)
    (error : PassStage.t → PassFailure.t → PassError) : stm Lent PassError PassChange :=
  report ← map_err_stm (error PassStage.Transform ∘ PassFailure.Message) transform;
  module ← asks lent_module;
  _ ← lift (map_err (error PassStage.After ∘ PassFailure.Verification)
              (verify_module_with_limits module limits));
  _ ← when_err (breaks_contract report (negb (bool_decide (module = before))))
        (error PassStage.Contract (PassFailure.Message contract_message));
  _ ← map_err_stm (error PassStage.Contract ∘ PassFailure.Message)
        (invalidate_lent (invalidates report));
  mret report.

Definition run_pass_with_limits (limits : IrLimits) : stm Lent PassError PassChange := λ s,
  let name := pass_name (lent_pass s) in
  let target := module_target (lent_module s) in
  let error stage cause := mkPassError name target stage cause in
  match verify_module_with_limits (lent_module s) limits with
  | Err e => (Err (error PassStage.Before (PassFailure.Verification e)), s)
  | Panic => (Panic, s)
  | Ok _ =>
      let before := lent_module s in
      match transaction limits before error s with
      | (Err e, s') => (Err e, with_module s' before)
      | r => r
      end
  end.
Definition run_pass : stm Lent PassError PassChange := run_pass_with_limits default_limits.
End runner.
Arguments Lent P : clear implicits.
Arguments mkLent {P} _ _ _.

(** ** The pass that does nothing *)

Definition run_zero_pass (m : Module_) : Module_ := m.

Inductive ZeroPass := mkZeroPass.
#[export] Instance zero_pass : Pass ZeroPass := {
  pass_name _ := "zero"%string;
  pass_run := mret (mkChange false Invalidates.default);
}.

(** ** The epochs *)

Definition epochs_room (a : AnalysisState) : Prop := ∀ k, epoch a k + 1 < 2 ^ 64.

(** The state after every analysis was invalidated. *)
Definition bumped (a : AnalysisState) : AnalysisState :=
  mkAnalyses (identity a) (mkEpochs (epoch a AnalysisKind.Cfg + 1) (epoch a AnalysisKind.Values + 1)
    (epoch a AnalysisKind.Effects + 1)).

Lemma epoch_bumped a k : epoch (bumped a) k = epoch a k + 1.
Proof. by destruct k. Qed.

Lemma next_epoch_spec n : next_epoch n = if bool_decide (n + 1 < 2 ^ 64) then Some (n + 1) else None.
Proof. unfold next_epoch. case_bool_decide; case_match; lia || done. Qed.

Lemma invalidate_all a :
  (epochs_room a ∧ invalidate Invalidates.ALL a = (Ok tt, bumped a)) ∨
  (¬ epochs_room a ∧ invalidate Invalidates.ALL a = (Err "analysis epoch exhausted"%string, a)).
Proof.
  assert (epochs_room a ↔ epoch a AnalysisKind.Cfg + 1 < 2 ^ 64 ∧ epoch a AnalysisKind.Values + 1 < 2 ^ 64 ∧
    epoch a AnalysisKind.Effects + 1 < 2 ^ 64) as Hroom.
  { split; [by intros H; split_and!; apply H|]. by intros (?&?&?) []. }
  rewrite Hroom. destruct a as [i [c v e]]. unfold invalidate. cbn -[next_epoch Z.pow Z.add].
  do 3 (rewrite next_epoch_spec; case_bool_decide; cbn -[next_epoch Z.pow Z.add]; [|right; tauto]). by left.
Qed.

Lemma invalidate_default a : invalidate Invalidates.default a = (Ok tt, a).
Proof. by destruct a as [i []]. Qed.

(** The report a pass owes for the modules before and after it. *)
Definition report_for (m m' : Module_) : PassChange :=
  if decide (m' = m) then mkChange false Invalidates.default else mkChange true Invalidates.ALL.
Definition analyses_for (m m' : Module_) (a : AnalysisState) : AnalysisState :=
  if decide (m' = m) then a else bumped a.

Lemma contract_kept report m m' :
  breaks_contract report (negb (bool_decide (m' = m))) = false ↔ report = report_for m m'.
Proof.
  unfold breaks_contract, report_for. destruct report as [c i].
  case_bool_decide; case_decide; try done; destruct c; simpl; repeat case_bool_decide; naive_solver.
Qed.

(** ** What a run does *)
Section spec.
Context {P : Type} `{!Pass P}.
Implicit Types (s : Lent P).

(** Every way a run of the pass may end; [m'] is the module it left and [r] what it returned. *)
Inductive failure (limits : IrLimits) s (m' : Module_) (r : result string PassChange)
    : PassStage.t → PassFailure.t → Prop :=
  | fails_before e : verify_module_with_limits (lent_module s) limits = Err e →
      failure limits s m' r PassStage.Before (PassFailure.Verification e)
  | fails_transform e : r = Err e →
      failure limits s m' r PassStage.Transform (PassFailure.Message e)
  | fails_after e report : r = Ok report → verify_module_with_limits m' limits = Err e →
      failure limits s m' r PassStage.After (PassFailure.Verification e)
  | fails_contract report : r = Ok report → report ≠ report_for (lent_module s) m' →
      failure limits s m' r PassStage.Contract (PassFailure.Message contract_message)
  | fails_epochs : m' ≠ lent_module s → ¬ epochs_room (lent_analyses s) →
      failure limits s m' r PassStage.Contract (PassFailure.Message "analysis epoch exhausted").

Context (limits : IrLimits) (Hlimits : limits_ok limits).

Lemma transaction_spec before error s p' m' r
  (Hrun : pass_run (lent_pass s, lent_module s) = (r, (p', m')))
  (Hr : r ≠ Panic) (Hm' : module_carriers m') (Hbefore : before = lent_module s) :
  let '(result, s') := transaction limits before error s in
  lent_pass s' = p' ∧ lent_module s' = m' ∧
  match result with
  | Ok report => r = Ok report ∧ report = report_for before m' ∧
      verify_module_with_limits m' limits = Ok tt ∧
      lent_analyses s' = analyses_for before m' (lent_analyses s) ∧
      (m' ≠ before → epochs_room (lent_analyses s))
  | Err e => lent_analyses s' = lent_analyses s ∧
      ∃ stage cause, e = error stage cause ∧ failure limits s m' r stage cause
  | Panic => False
  end.
Proof using Hlimits.
  unfold transaction, transform, map_err_stm, asks, lift. rewrite stm_bind_eq, Hrun.
  destruct r as [report|e|]; cbn; [|by eauto 10 using failure|done].
  rewrite stm_bind_eq. cbn. rewrite stm_bind_eq. cbn.
  pose proof (verify_module_spec m' limits Hlimits Hm') as Hv.
  destruct (verify_module_with_limits m' limits) as [[]|e|] eqn:Hafter; cbn; [|by eauto 10 using failure|done].
  rewrite stm_bind_eq. unfold when_err.
  destruct (breaks_contract report _) eqn:Hc; cbn.
  { split_and!; try done. eexists _, _. split; [done|]. apply (fails_contract _ _ _ _ report); [done|].
    rewrite <- Hbefore. intros Heq%contract_kept. congruence. }
  apply contract_kept in Hc as ->. rewrite stm_bind_eq. unfold invalidate_lent. cbn -[invalidate].
  unfold report_for, analyses_for. case_decide as Hch; cbn -[invalidate].
  { by rewrite invalidate_default. }
  destruct (invalidate_all (lent_analyses s)) as [[Hroom ->]|[Hroom ->]]; cbn; [by split_and!|].
  split_and!; try done. eexists _, _. split; [done|]. apply fails_epochs; [by rewrite <- Hbefore|done].
Qed.

(** Without hypotheses on the carriers: what the runner keeps whatever the pass does, as long as
    neither the verifier nor the pass panics. *)
Lemma run_pass_keeps s :
  let '(result, s') := run_pass_with_limits limits s in
  match result with
  | Ok report => report = report_for (lent_module s) (lent_module s') ∧
      lent_analyses s' = analyses_for (lent_module s) (lent_module s') (lent_analyses s)
  | Err _ => lent_module s' = lent_module s ∧ lent_analyses s' = lent_analyses s
  | Panic => True
  end.
Proof.
  unfold run_pass_with_limits. destruct (verify_module_with_limits _ _); [|done..]. unfold transaction.
  rewrite stm_bind_eq. unfold transform, map_err_stm.
  destruct (pass_run (lent_pass s, lent_module s)) as [[report|e|] [p' m']]; cbn; [|done..].
  rewrite stm_bind_eq. cbn. rewrite stm_bind_eq. unfold lift.
  destruct (verify_module_with_limits m' limits) as [[]|e|]; cbn; [|done..].
  rewrite stm_bind_eq. unfold when_err. destruct (breaks_contract report _) eqn:Hc; cbn; [done|].
  apply contract_kept in Hc as ->. rewrite stm_bind_eq. unfold invalidate_lent. cbn -[invalidate].
  unfold report_for, analyses_for. case_decide as Hch; cbn -[invalidate].
  - rewrite invalidate_default. cbn. by rewrite !decide_True by done.
  - destruct (invalidate_all (lent_analyses s)) as [[Hroom ->]|[Hroom ->]]; cbn; [|done].
    by rewrite !decide_False by done.
Qed.
End spec.

(** C14: a run of a pass is a transaction.  Whatever code the pass is, if it does not panic then
    neither does the runner, and one of two things happens.  On success the module is the one the
    pass left and is well formed, in every sense of the verifier; the report is exactly the one owed
    for it, "changed, and all analyses invalid" when it differs from the module before, "unchanged,
    and none invalid" otherwise; and the epochs advanced by one each, without overflow, exactly when
    it differs.  On failure the module is the original one and no epoch moved; the error names the
    pass and the target and the stage that failed, and that stage did fail: the original did not
    verify, the pass returned the message, the module it left did not verify, its report was not the
    one owed, or an epoch was exhausted. *)
Theorem run_pass_transactional {P} `{!Pass P} limits (s : Lent P) p' m' r
  (Hlimits : limits_ok limits) (Hm : module_carriers (lent_module s))
  (Hrun : pass_run (lent_pass s, lent_module s) = (r, (p', m')))
  (Hr : r ≠ Panic) (Hm' : module_carriers m') :
  let '(result, s') := run_pass_with_limits limits s in
  match result with
  | Ok report => lent_module s' = m' ∧ lent_pass s' = p' ∧ r = Ok report ∧
      report = report_for (lent_module s) m' ∧
      (∃ t types constants, lookup_target (module_target m') = Ok t ∧ module_ok m' limits t types constants) ∧
      lent_analyses s' = analyses_for (lent_module s) m' (lent_analyses s) ∧
      (m' ≠ lent_module s → epochs_room (lent_analyses s))
  | Err e => lent_module s' = lent_module s ∧ lent_analyses s' = lent_analyses s ∧
      error_pass e = pass_name (lent_pass s) ∧ error_target e = module_target (lent_module s) ∧
      failure limits s m' r (error_stage e) (error_cause e)
  | Panic => False
  end.
Proof.
  unfold run_pass_with_limits. pose proof (verify_module_spec _ _ Hlimits Hm) as Hv.
  destruct (verify_module_with_limits (lent_module s) limits) as [[]|e|] eqn:Hbefore; [|split_and!; try done; by apply fails_before|done].
  set (error := λ stage cause, _). pose proof (transaction_spec limits Hlimits _ error s _ _ _ Hrun Hr Hm' eq_refl) as Ht.
  destruct (transaction limits _ error s) as [[report|e|] s']; [| |tauto].
  - destruct Ht as (Hp&<-&->&->&Hok&Ha&Hroom). split_and!; try done.
    exact (yields_Ok _ _ _ tt (verify_module_spec _ _ Hlimits Hm') Hok).
  - destruct Ht as (Hp&Hmod&Ha&stage&cause&->&Hf). by split_and!.
Qed.

(** ** Caches *)

(** The runs of passes on one module and its analyses, with the number of those that changed it. *)
Inductive runs : Z → Module_ * AnalysisState → Module_ * AnalysisState → Prop :=
  | runs_none ma : runs 0 ma ma
  | runs_ok n ma m a P `{!Pass P} (p : P) limits report s' :
      runs n ma (m, a) → run_pass_with_limits limits (mkLent m p a) = (Ok report, s') →
      runs (if changed report then n + 1 else n) ma (lent_module s', lent_analyses s')
  | runs_err n ma m a P `{!Pass P} (p : P) limits e s' :
      runs n ma (m, a) → run_pass_with_limits limits (mkLent m p a) = (Err e, s') →
      runs n ma (lent_module s', lent_analyses s').

(** The epochs count the runs that changed the module. *)
Lemma runs_epochs n ma ma' : runs n ma ma' →
  0 ≤ n ∧ identity ma'.2 = identity ma.2 ∧ (∀ k, epoch ma'.2 k = epoch ma.2 k + n) ∧ (n = 0 → ma'.1 = ma.1).
Proof.
  induction 1 as [ma|n ma m a P ? p limits report s' Hruns IH Hrun|n ma m a P ? p limits e s' Hruns IH Hrun];
    cbn in *.
  - split_and!; try done. intros. lia.
  - destruct IH as (Hn&Hid&Hep&Hmod). pose proof (run_pass_keeps limits (mkLent m p a)) as Hk.
    rewrite Hrun in Hk. cbn in Hk. destruct Hk as [-> ->]. unfold report_for, analyses_for.
    case_decide as Hch; cbn; [rewrite Hch; by split_and!|]. split_and!; [lia|done| |lia].
    intros k. rewrite epoch_bumped, Hep. lia.
  - destruct IH as (Hn&Hid&Hep&Hmod). pose proof (run_pass_keeps limits (mkLent m p a)) as Hk.
    rewrite Hrun in Hk. cbn in Hk. destruct Hk as [-> ->]. by split_and!.
Qed.

(** C40: a cached analysis is never stale.  Take an analysis computed for a module, and any runs of
    any passes since, those that failed included.  The cache serves its value exactly when no run
    changed the module; then the module is the one the value was computed for.  It serves nothing
    against the state of another module, even at equal epochs. *)
Theorem cache_fresh {T} (compute : Module_ → T) kind n m a m' a'
  (Hruns : runs n (m, a) (m', a')) :
  let cache := AnalysisCache.new kind a (compute m) in
  (AnalysisCache.get cache a' = Some (compute m') ∧ n = 0 ∧ m' = m ∨
   AnalysisCache.get cache a' = None ∧ 0 < n) ∧
  (∀ other, identity other ≠ identity a → AnalysisCache.get cache other = None).
Proof.
  destruct (runs_epochs _ _ _ Hruns) as (Hn&Hid&Hep&Hmod). cbn in *. unfold AnalysisCache.get. cbn. split.
  - rewrite Hid, Hep, bool_decide_eq_true_2 by done. cbn. destruct (decide (n = 0)) as [Hz|Hz].
    + left. rewrite (Hmod Hz), Hz. rewrite (proj2 (Z.eqb_eq _ _)) by lia. done.
    + right. rewrite (proj2 (Z.eqb_neq _ _)) by lia. split; [done|lia].
  - intros other Hother. by rewrite bool_decide_eq_false_2 by congruence.
Qed.

(** The zero pass is the check of the verifier. *)
Lemma zero_pass_verifies limits m a :
  run_pass_with_limits limits (mkLent m mkZeroPass a) =
  (match verify_module_with_limits m limits with
   | Ok _ => Ok (report_for m m)
   | Err e => Err (mkPassError "zero" (module_target m) PassStage.Before (PassFailure.Verification e))
   | Panic => Panic
   end, mkLent m mkZeroPass a).
Proof.
  unfold run_pass_with_limits. cbn [lent_module lent_pass pass_name zero_pass].
  destruct (verify_module_with_limits m limits) as [u|e|] eqn:Hv; [|done..].
  unfold transaction, report_for. rewrite decide_True by done.
  unfold mbind, stm_bind, asks, lift, map_err_stm, transform, invalidate_lent, when_err.
  cbn -[verify_module_with_limits invalidate breaks_contract bool_decide].
  rewrite Hv, bool_decide_eq_true_2 by done. 
  assert (breaks_contract (mkChange false Invalidates.default) false = false) as Hc by done.
  cbn [map_err negb]. rewrite Hc. cbn -[invalidate]. by rewrite invalidate_default.
Qed.

(** ** Passes to run the theorems on *)

(** Sets the value of the first global; [honest] says whether it tells. *)
Record SetGlobal := mkSetGlobal { new_value : Z; honest : bool; applied : Z }.
#[export] Instance set_global_pass : Pass SetGlobal := {
  pass_name _ := "set-global"%string;
  pass_run '(p, m) :=
    let globals' := match globals m with
      | g :: gs => mkGlobal (global_id g) (global_name g) (global_ty g) (ConstValue.I (new_value p))
                     (literal (global_ty g) (ConstValue.I (new_value p))) (global_align g) :: gs
      | [] => []
      end in
    let m' := mkModule (module_target m) (datalayout m) globals' (global_storage m) (functions m)
                (declarations m) (sources m) in
    (Ok (if honest p then report_for m m' else mkChange false Invalidates.default),
     (mkSetGlobal (new_value p) (honest p) (applied p + 1), m'));
}.

Definition one_global : Module_ :=
  mkModule "x86_64-whale-linux" (mkDataLayout 64 Little)
    [mkGlobal (mkGlobalId 0) "limit" Ty.I32 (ConstValue.I 7) (literal Ty.I32 (ConstValue.I 7)) 4]
    [] [] [] (mkSources [] [] []).
Definition sample_lent (value : Z) (honest : bool) : Lent SetGlobal :=
  mkLent one_global (mkSetGlobal value honest 0) (mkAnalyses 1 (mkEpochs 0 0 (2 ^ 64 - 2))).

Definition sample_outcome (value : Z) (honest : bool) : option (bool + PassStage.t) * list const_value * Z :=
  let '(r, s) := run_pass (sample_lent value honest) in
  (match r with Ok report => Some (inl (changed report)) | Err e => Some (inr (error_stage e)) | Panic => None end,
   global_init <$> globals (lent_module s), epoch (lent_analyses s) AnalysisKind.Cfg).

Example sample_outcomes :
  sample_outcome 9 true = (Some (inl true), [ConstValue.I 9], 1) ∧
  sample_outcome 7 true = (Some (inl false), [ConstValue.I 7], 0) ∧
  sample_outcome 9 false = (Some (inr PassStage.Contract), [ConstValue.I 7], 0) ∧
  sample_outcome (2 ^ 40) true = (Some (inr PassStage.After), [ConstValue.I 7], 0).
Proof. vm_compute. done. Qed.

Lemma run_pass_transactional_witness :
  let '(result, s') := run_pass_with_limits default_limits (sample_lent 9 true) in
  match result with
  | Ok report => epochs_room (lent_analyses (sample_lent 9 true)) ∧ changed report = true
  | _ => False
  end.
Proof.
  assert (module_carriers (lent_module (sample_lent 9 true))) as Hm.
  { split; [|by intros f ?%not_elem_of_nil]. intros g [->|[]%not_elem_of_nil]%elem_of_cons. reflexivity. }
  destruct (pass_run (lent_pass (sample_lent 9 true), lent_module (sample_lent 9 true)))
    as [r [p' m']] eqn:Hrun.
  assert (Hm' : module_carriers m').
  { injection Hrun. intros <- _ _. split; [|by intros f ?%not_elem_of_nil].
    intros g [->|[]%not_elem_of_nil]%elem_of_cons. reflexivity. }
  assert (Hr : r ≠ Panic) by (injection Hrun; intros _ _ <-; discriminate).
  assert (Hne : m' ≠ lent_module (sample_lent 9 true)) by (injection Hrun; intros <- _ _; discriminate).
  assert (Hok : is_ok (run_pass_with_limits default_limits (sample_lent 9 true)).1 = true)
    by (vm_compute; reflexivity).
  pose proof (run_pass_transactional default_limits (sample_lent 9 true) p' m' r
    ltac:(split; simpl; lia) Hm Hrun Hr Hm') as Hs.
  destruct (run_pass_with_limits default_limits (sample_lent 9 true)) as [[report|e|] s'];
    [|discriminate Hok|discriminate Hok].
  destruct Hs as (_&_&_&->&_&_&Hroom). split; [by apply Hroom|].
  unfold report_for. by rewrite decide_False.
Defined.

(** Whether a run succeeded and reported a change. *)
Definition reported (r : result PassError PassChange) : option bool :=
  match r with Ok report => Some (changed report) | _ => None end.

Lemma cache_fresh_witness :
  let '(_, s1) := run_pass_with_limits default_limits (sample_lent 7 true) in
  let '(_, s2) := run_pass_with_limits default_limits (sample_lent 9 true) in
  let cache := AnalysisCache.new AnalysisKind.Cfg (mkAnalyses 1 (mkEpochs 0 0 (2 ^ 64 - 2))) 3 in
  AnalysisCache.get cache (lent_analyses s1) = Some 3 ∧ AnalysisCache.get cache (lent_analyses s2) = None.
Proof.
  assert (reported (run_pass_with_limits default_limits (sample_lent 7 true)).1 = Some false) as C1
    by (vm_compute; reflexivity).
  assert (reported (run_pass_with_limits default_limits (sample_lent 9 true)).1 = Some true) as C2
    by (vm_compute; reflexivity).
  destruct (run_pass_with_limits default_limits (sample_lent 7 true)) as [[report1|e|] s1] eqn:H1;
    [|discriminate C1..].
  destruct (run_pass_with_limits default_limits (sample_lent 9 true)) as [[report2|e|] s2] eqn:H2;
    [|discriminate C2..].
  cbn [reported fst] in C1, C2.
  assert (changed report1 = false) as Hc1 by congruence. assert (changed report2 = true) as Hc2 by congruence.
  unfold sample_lent in H1, H2.
  pose proof (runs_ok _ _ _ _ _ _ _ _ _ (runs_none _) H1) as R1.
  pose proof (runs_ok _ _ _ _ _ _ _ _ _ (runs_none _) H2) as R2.
  rewrite Hc1 in R1. rewrite Hc2 in R2.
  pose proof (cache_fresh (λ _, 3) AnalysisKind.Cfg _ _ _ _ _ R1) as [F1 _].
  pose proof (cache_fresh (λ _, 3) AnalysisKind.Cfg _ _ _ _ _ R2) as [F2 _].
  cbv zeta in F1, F2. clear - F1 F2.
  split; [destruct F1 as [F1|F1]|destruct F2 as [F2|F2]].
  - exact (proj1 F1).
  - exfalso. exact (Z.lt_irrefl 0 (proj2 F1)).
  - exfalso. destruct F2 as (_&E&_). discriminate E.
  - exact (proj1 F2).
Defined.
