(* ===== verification/Interp.v ===== *)
(** * The interpreter ([interpreter/mod.rs])

    A bounded oracle for verified IR: preparation of the reachable functions, the step
    function over a stack of frames, and the diagnostics of a failure.

    One iteration of the interpreter loop is [iteration], a computation on the explicit
    [Machine] state; [run_loop] iterates it.  The top of the call stack is the head of the list
    of frames.  The module verifier is the interface [Verifier]; whether the host
    grants a reservation is an oracle argument [host], asked with a number per request.

    Signatures behind [Arc] are compared by pointer in the code; every one of them comes out of
    one table of interned signatures, which makes that comparison the equality of
    signatures, and it is modelled as such. *)
From S2P Require Export Signatures Sources Memory.
Local Open Scope Z_scope.

(** ** Options, results and errors *)

Record InterpreterOptions := mkOptions {
  max_steps : Z;
  max_call_depth : Z;
  max_frames : Z;
  max_live_values : Z;
  max_trace_frames : Z;
  ir_limits : IrLimits;
  memory_limits : MemoryLimits;
}.
Definition default_options : InterpreterOptions :=
  mkOptions 1000000 256 100000 1000000 64 default_limits default_memory_limits.

Record InterpreterResult := mkResult { result_value : option const_value; result_steps : Z }.

Record ExecutionSite := mkSite {
  site_function : FunctionId;
  site_block : BlockId;
  site_instruction : nat;
  site_value : option ValueId;
}.
#[export] Instance ExecutionSite_eq_dec : EqDecision ExecutionSite.
Proof. solve_decision. Defined.

Definition MAX_RUNTIME_TRACE_FRAMES : Z := 256.
Definition MAX_RUNTIME_DIAGNOSTIC_SOURCE_BYTES : Z := 1024 * 1024.

Record RuntimeCallFrame := mkCallFrame {
  caller : FunctionId;
  callee : FunctionId;
  call_frame_site : ExecutionSite;
  call_original : option OriginalLocation;
}.

Record RuntimeDiagnostic := mkDiagnostic {
  diagnostic_site : option ExecutionSite;
  diagnostic_global : option GlobalId;
  diagnostic_original : option OriginalLocation;
  calls : list RuntimeCallFrame;
  omitted_call_frames : Z;
  omitted_source_details : Z;
}.

Record InterpreterTrap := mkTrap {
  trap_site : ExecutionSite; trap_reason : TrapReason.t; trap_steps : Z;
}.

Module CallResource.
Inductive t := Depth | Frames | Values | HostAllocation.
#[global] Instance eq_dec : EqDecision t.
Proof. solve_decision. Defined.
End CallResource.

(** The verifier as the interpreter sees it. *)
Class Verifier := {
  verify_error : Type;
  verify_module_with_limits : Module_ → IrLimits → result verify_error unit;
}.

Module InterpreterError.
Inductive t `{Verifier} :=
  | Diagnostic (cause : t) (diagnostic : RuntimeDiagnostic)
  | Verification (e : verify_error)
  | UnknownFunction (f : FunctionId)
  | UnsupportedGlobal (g : GlobalId)
  | GlobalMemory (global : GlobalId) (reason : MemoryTrap.t)
  | GlobalMemoryLimit (global : GlobalId) (resource : MemoryResource.t) (limit : Z)
  | UnsupportedSignature (f : FunctionId)
  | ArgumentCount (expected got : nat)
  | ArgumentType (index : nat) (expected : ty)
  | UnsupportedInstruction (site : ExecutionSite) (operation : string)
  | StepLimit (site : ExecutionSite) (limit : Z)
  | MemoryLimit (site : ExecutionSite) (resource : MemoryResource.t) (limit : Z)
  | CallLimit (site : ExecutionSite) (resource : CallResource.t) (limit : Z)
  | Trap (trap : InterpreterTrap).
End InterpreterError.
Notation interp_error := InterpreterError.t.

Section errors.
Context `{Verifier}.

Fixpoint root_cause (e : interp_error) : interp_error :=
  match e with InterpreterError.Diagnostic cause _ => root_cause cause | _ => e end.
(** [into_root_cause] moves what [root_cause] borrows. *)
Definition into_root_cause (e : interp_error) : interp_error := root_cause e.
Definition error_diagnostic (e : interp_error) : option RuntimeDiagnostic :=
  match e with InterpreterError.Diagnostic _ d => Some d | _ => None end.
Definition runtime_site (e : interp_error) : option ExecutionSite :=
  match root_cause e with
  | InterpreterError.Trap t => Some (trap_site t)
  | InterpreterError.StepLimit site _ | InterpreterError.MemoryLimit site _ _
  | InterpreterError.CallLimit site _ _ => Some site
  | _ => None
  end.
End errors.

(** ** Which types and instructions are supported *)

Definition scalar_type (t : ty) : bool := bool_decide (t = Ty.Bool) || is_int t || float_type t.
Definition is_pointer (t : ty) : bool := match t with Ty.Ptr _ => true | _ => false end.
Definition is_fn_pointer (t : ty) : bool := match t with Ty.FnPtr _ => true | _ => false end.

Definition value_type (t : ty) : bool :=
  scalar_type t || is_pointer t || is_fn_pointer t
  || match t with Ty.Tuple [i; b] => is_int i && bool_decide (b = Ty.Bool) | _ => false end.

Definition call_value_type (t : ty) : bool := scalar_type t || is_pointer t || is_fn_pointer t.

Definition callable_signature (sig : FunctionSignature) : bool :=
  bool_decide (convention sig = Whale) && negb (variadic sig)
  && forallb call_value_type (params sig)
  && (bool_decide (ret sig = Ty.Void) || call_value_type (ret sig)).

Definition destination (inst : instruction) : option ValueId :=
  match inst with
  | Instruction.ConstDecl dst _ _ _ | Instruction.Const dst _ _ | Instruction.Undef dst _
  | Instruction.Mov dst _ _ | Instruction.Bin dst _ _ _ _ | Instruction.Neg dst _ _
  | Instruction.Not dst _ _ | Instruction.Cmp dst _ _ _ _ | Instruction.ICmp dst _ _ _ _
  | Instruction.FCmp dst _ _ _ _ | Instruction.Select dst _ _ _ _
  | Instruction.Cast dst _ _ _ _ | Instruction.Phi dst _ _ | Instruction.Extract dst _ _ _
  | Instruction.Checked dst _ _ _ _ | Instruction.Alloca dst _ _
  | Instruction.VolatileLoad dst _ _ _ | Instruction.Load dst _ _ _
  | Instruction.Gep dst _ _ _ | Instruction.NullFunction dst _
  | Instruction.FunctionAddr dst _ _ | Instruction.GlobalAddr dst _ _
  | Instruction.PtrDiff dst _ _ => Some dst
  | Instruction.Call _ dst _ _ _ => dst
  | Instruction.LifetimeEnd _ | Instruction.Uninit _ _ _ | Instruction.VolatileStore _ _ _ _
  | Instruction.Store _ _ _ _ | Instruction.Memcpy _ _ _ _ | Instruction.Memset _ _ _ _
  | Instruction.TrapIf _ _ => None
  end.

(** [allocation_type]: a worklist of types whose top is the head of the list. *)
Fixpoint allocation_loop (fuel : nat) (pending : list ty) : bool :=
  match fuel with
  | O => false
  | S fuel =>
      match pending with
      | [] => true
      | t :: pending =>
          if call_value_type t then allocation_loop fuel pending else
          match t with
          | Ty.Array t _ => allocation_loop fuel (t :: pending)
          | Ty.Struct fields | Ty.Tuple fields => allocation_loop fuel (rev fields ++ pending)
          | _ => false
          end
      end
  end.
Definition allocation_type (root : ty) : bool := allocation_loop (S (ty_nodes root)) [root].

Definition supported_cast (op : CastOp.t) (src_ty dst_ty : ty) : bool :=
  match op with
  | CastOp.ZExt | CastOp.SExt | CastOp.Trunc | CastOp.CheckedInt =>
      (bool_decide (src_ty = Ty.Bool) || is_int src_ty) && is_int dst_ty
  | CastOp.FExt | CastOp.FTrunc | CastOp.IToF_S | CastOp.IToF_U | CastOp.FToI_S
  | CastOp.FToI_U => true
  | CastOp.Bitcast =>
      (is_int src_ty || float_type src_ty) && (is_int dst_ty || float_type dst_ty)
      || is_pointer src_ty && is_pointer dst_ty
  | CastOp.IntToPtr | CastOp.PtrToInt => true
  end.

(** [supported]; the error is the name of the operation. *)
Definition supported (inst : instruction) : result string unit :=
  match inst with
  | Instruction.Neg _ t _ | Instruction.Bin _ _ t _ _ =>
      guard_err (is_int t || float_type t) "non-integer arithmetic/comparison"
  | Instruction.ConstDecl _ _ _ _ => Ok tt
  | Instruction.Const _ t _ => guard_err (scalar_type t) "non-scalar constant"
  | Instruction.Mov _ t _ | Instruction.Phi _ t _ | Instruction.Select _ t _ _ _ =>
      guard_err (value_type t) "non-scalar value"
  | Instruction.Not _ t _ | Instruction.Checked _ _ t _ _ =>
      guard_err (is_int t) "non-integer arithmetic/comparison"
  | Instruction.Cmp _ _ t _ _ =>
      guard_err (bool_decide (t = Ty.Bool) || is_int t || is_pointer t || float_type t)
        "non-integer arithmetic/comparison"
  | Instruction.ICmp _ _ t _ _ =>
      guard_err (bool_decide (t = Ty.Bool) || is_int t || is_pointer t)
        "non-integer arithmetic/comparison"
  | Instruction.FCmp _ _ t _ _ => guard_err (float_type t) "non-integer arithmetic/comparison"
  | Instruction.Cast _ op dst_ty src_ty _ =>
      guard_err (supported_cast op src_ty dst_ty) "unsupported cast"
  | Instruction.Extract _ dst_ty _ _ => guard_err (scalar_type dst_ty) "non-scalar value"
  | Instruction.Alloca _ t _ => guard_err (allocation_type t) "alloca"
  | Instruction.Uninit t _ _ => guard_err (allocation_type t) "uninit"
  | Instruction.VolatileLoad _ t _ _ | Instruction.Load _ t _ _ => guard_err (value_type t) "load"
  | Instruction.VolatileStore t _ _ _ | Instruction.Store t _ _ _ =>
      guard_err (value_type t) "store"
  | Instruction.Undef _ _ => Err "undef"%string
  | Instruction.Gep _ _ _ _ | Instruction.GlobalAddr _ _ _ | Instruction.LifetimeEnd _
  | Instruction.PtrDiff _ _ _ | Instruction.TrapIf _ _ | Instruction.Memcpy _ _ _ _
  | Instruction.Memset _ _ _ _ | Instruction.NullFunction _ _ | Instruction.FunctionAddr _ _ _
  | Instruction.Call _ _ _ _ _ => Ok tt
  end.

(** ** Pieces of the evaluation *)

(** [cmp_pred]; the floating predicates are unreachable. *)
Definition cmp_pred {E} (op : CmpOp.t) : result E ICmpPred.t :=
  match op with
  | CmpOp.Eq => Ok ICmpPred.Eq
  | CmpOp.Ne => Ok ICmpPred.Ne
  | CmpOp.SLt => Ok ICmpPred.Slt
  | CmpOp.SLe => Ok ICmpPred.Sle
  | CmpOp.SGt => Ok ICmpPred.Sgt
  | CmpOp.SGe => Ok ICmpPred.Sge
  | CmpOp.ULt => Ok ICmpPred.Ult
  | CmpOp.ULe => Ok ICmpPred.Ule
  | CmpOp.UGt => Ok ICmpPred.Ugt
  | CmpOp.UGe => Ok ICmpPred.Uge
  | _ => Panic
  end.

(** [gep_plan]: one step per index, following the type from the pointee. *)
Fixpoint gep_plan_loop {E} (ordinals : gmap ValueId nat) (first : bool) (selected : ty)
    (indices : list ValueId) : result E (list GepStep.t) :=
  match indices with
  | [] => Ok []
  | index :: indices =>
      if first then
        l ← layout selected;
        plan ← gep_plan_loop ordinals false selected indices;
        Ok (GepStep.Stride (size l) :: plan)
      else
        match selected with
        | Ty.Array element _ =>
            l ← layout element;
            plan ← gep_plan_loop ordinals false element indices;
            Ok (GepStep.Stride (size l) :: plan)
        | Ty.Struct fields | Ty.Tuple fields =>
            ordinal ← expect (ordinals !! index);
            l ← layout selected;
            offset ← expect (field_offsets l !! ordinal);
            field ← expect (fields !! ordinal);
            plan ← gep_plan_loop ordinals false field indices;
            Ok (GepStep.Field offset :: plan)
        | _ => Panic
        end
  end.

Definition gep_plan {E} (value_types : gmap ValueId ty) (ordinals : gmap ValueId nat)
    (base : ValueId) (indices : list ValueId) : result E (list GepStep.t) :=
  t ← expect (value_types !! base);
  match t with
  | Ty.Ptr pointee => gep_plan_loop ordinals true pointee indices
  | _ => Panic
  end.

(** A comparison result against a predicate of order. *)
Definition order_holds {E} (pred : ICmpPred.t) (c : comparison) : result E bool :=
  match pred with
  | ICmpPred.Ult | ICmpPred.Slt => Ok (match c with Lt => true | _ => false end)
  | ICmpPred.Ule | ICmpPred.Sle => Ok (match c with Gt => false | _ => true end)
  | ICmpPred.Ugt | ICmpPred.Sgt => Ok (match c with Gt => true | _ => false end)
  | ICmpPred.Uge | ICmpPred.Sge => Ok (match c with Lt => false | _ => true end)
  | _ => Panic
  end.

Definition pointer_compare {T} `{FragmentTable T} (memory : Memory T) (pred : ICmpPred.t)
    (lhs rhs : Pointer) : result fault bool :=
  match pred with
  | ICmpPred.Eq => equal memory lhs rhs
  | ICmpPred.Ne => negb <$> equal memory lhs rhs
  | _ => ordering ← compare_order memory lhs rhs; order_holds pred ordering
  end.

(** ** Runtime values and arguments *)

(** A checked library value; a module is known by the address of its reference. *)
Record RuntimeValue := mkRuntimeValue {
  rv_ty : ty; rv_value : value; callable_module : option Z;
}.
Record RuntimeInterpreterResult := mkRuntimeResult {
  runtime_value : option RuntimeValue; runtime_steps : Z;
}.

Definition runtime_scalar (t : ty) (v : const_value) : result call_error RuntimeValue :=
  if negb (scalar_type t) || negb (valid_constant t v)
  then Err (CallError.InvalidSignature "invalid scalar runtime value")
  else Ok (mkRuntimeValue t (Value.Scalar v) None).

Definition runtime_raw_pointer (t : ty) (address : Z) : result call_error RuntimeValue :=
  _ ← map_err CallError.ResourceLimit
        (b ← new_budget default_limits; (budget_ty t b).1);
  if negb (is_pointer t) then Err (CallError.InvalidSignature "data pointer type required") else
  _ ← validate_signature_with_limits (whale [t] Ty.Void) default_limits;
  Ok (mkRuntimeValue t (Value.Pointer (raw_pointer address)) None).

Definition runtime_function (module : Module_) (module_ref : Z) (target : FunctionId)
    : result call_error RuntimeValue :=
  declaration ← ok_or (find_opt (λ d, bool_decide (decl_id d = target)) (declarations module))
                  (CallError.UnknownFunction target);
  _ ← validate_signature_with_limits (decl_signature declaration) default_limits;
  let signature := decl_signature declaration in
  Ok (mkRuntimeValue (Ty.FnPtr signature)
        (Value.FunctionPointer (mkFunctionPointer signature (FunctionTarget.Defined target)))
        (Some module_ref)).

Definition runtime_null_function (signature : FunctionSignature) : result call_error RuntimeValue :=
  _ ← validate_signature_with_limits signature default_limits;
  Ok (mkRuntimeValue (Ty.FnPtr signature)
        (Value.FunctionPointer (mkFunctionPointer signature FunctionTarget.Null)) None).

(** The observations of a library value: [ty] is the field [rv_ty]. *)
Definition scalar_value (v : RuntimeValue) : option const_value :=
  match rv_value v with Value.Scalar v => Some v | _ => None end.
Definition pointer_address (v : RuntimeValue) : option Z :=
  match rv_value v with Value.Pointer p => Some (address p) | _ => None end.
Definition function_target (v : RuntimeValue) : option FunctionId :=
  match rv_value v with
  | Value.FunctionPointer p =>
      match fp_target p with FunctionTarget.Defined id => Some id | _ => None end
  | _ => None
  end.

Module Arguments.
Inductive t := Scalars (l : list const_value) | Runtime (l : list RuntimeValue).
End Arguments.

Definition arguments_len (a : Arguments.t) : nat :=
  match a with
  | Arguments.Scalars l => length l
  | Arguments.Runtime l => length l
  end.
Definition argument_value {E} (a : Arguments.t) (index : nat) : result E value :=
  match a with
  | Arguments.Scalars l => v ← expect (l !! index); Ok (Value.Scalar v)
  | Arguments.Runtime l => v ← expect (l !! index); Ok (rv_value v)
  end.
Definition argument_valid_type {E} (a : Arguments.t) (index : nat) (expected : ty) : result E bool :=
  match a with
  | Arguments.Scalars _ => Ok true
  | Arguments.Runtime l => v ← expect (l !! index); Ok (bool_decide (rv_ty v = expected))
  end.
Definition argument_valid_origin {E} (a : Arguments.t) (index : nat) (module_ref : Z)
    : result E bool :=
  match a with
  | Arguments.Scalars _ => Ok true
  | Arguments.Runtime l =>
      v ← expect (l !! index);
      match rv_value v with
      | Value.FunctionPointer p =>
          match fp_target p with
          | FunctionTarget.Defined _ => Ok (bool_decide (callable_module v = Some module_ref))
          | _ => Ok true
          end
      | _ => Ok true
      end
  end.

(** ** Preparation *)

Record Prepared := mkPrepared {
  p_fun : Function;
  value_capacity : nat;
  p_blocks : gmap BlockId BasicBlock;
  sizes : gmap (BlockId * nat) (Z * Z);
  geps : gmap (BlockId * nat) (list GepStep.t);
  signatures : gmap (BlockId * nat) FunctionSignature;
}.

(** The tables of a module that the run consults. *)
Definition function_map (m : Module_) : gmap FunctionId Function :=
  collect ((λ f, (function_id f, f)) <$> functions m).
Definition declaration_map (m : Module_) : gmap FunctionId FunctionDecl :=
  collect ((λ d, (decl_id d, d)) <$> declarations m).

(** Association lists keyed by signatures, as [HashMap::get] and [entry] use them. *)
Definition by_signature {A} (sig : FunctionSignature) (l : list (FunctionSignature * A))
    : option A := snd <$> find_opt (λ p, bool_decide (p.1 = sig)) l.
Fixpoint push_by_signature (sig : FunctionSignature) (id : FunctionId)
    (l : list (FunctionSignature * list FunctionId)) : list (FunctionSignature * list FunctionId) :=
  match l with
  | [] => [(sig, [id])]
  | (s, ids) :: l =>
      if decide (s = sig) then (s, ids ++ [id]) :: l else (s, ids) :: push_by_signature sig id l
  end.

(** The worklist of the preparation: the top of [pending] is its head. *)
Record Worklist := mkWorklist {
  pending : list FunctionId;
  callable_targets : gset FunctionId;
  callable_by_signature : list (FunctionSignature * list FunctionId);
  indirect_signatures : list (FunctionSignature * ExecutionSite);
  visited : gset FunctionId;
  prepared : gmap FunctionId Prepared;
}.
Definition set_pending (l : list FunctionId) (w : Worklist) : Worklist :=
  mkWorklist l (callable_targets w) (callable_by_signature w) (indirect_signatures w) (visited w)
    (prepared w).
Definition push_pending (id : FunctionId) (w : Worklist) : Worklist :=
  set_pending (id :: pending w) w.
Definition add_callable (id : FunctionId) (sig : FunctionSignature) (w : Worklist) : Worklist :=
  mkWorklist (pending w) ({[id]} ∪ callable_targets w)
    (push_by_signature sig id (callable_by_signature w)) (indirect_signatures w) (visited w)
    (prepared w).
Definition add_indirect (sig : FunctionSignature) (at_ : ExecutionSite) (w : Worklist) : Worklist :=
  mkWorklist (pending w) (callable_targets w) (callable_by_signature w)
    ((sig, at_) :: indirect_signatures w) (visited w) (prepared w).
Definition add_visited (id : FunctionId) (w : Worklist) : Worklist :=
  mkWorklist (pending w) (callable_targets w) (callable_by_signature w) (indirect_signatures w)
    ({[id]} ∪ visited w) (prepared w).
Definition add_prepared (id : FunctionId) (p : Prepared) (w : Worklist) : Worklist :=
  mkWorklist (pending w) (callable_targets w) (callable_by_signature w) (indirect_signatures w)
    (visited w) (<[id := p]> (prepared w)).

(** The plans of one function, filled instruction by instruction. *)
Record Plans := mkPlans {
  plan_sizes : gmap (BlockId * nat) (Z * Z);
  plan_geps : gmap (BlockId * nat) (list GepStep.t);
  plan_signatures : gmap (BlockId * nat) FunctionSignature;
}.
Definition plan_size (key : BlockId * nat) (s : Z * Z) (p : Plans) : Plans :=
  mkPlans (<[key := s]> (plan_sizes p)) (plan_geps p) (plan_signatures p).
Definition plan_gep (key : BlockId * nat) (g : list GepStep.t) (p : Plans) : Plans :=
  mkPlans (plan_sizes p) (<[key := g]> (plan_geps p)) (plan_signatures p).
Definition plan_signature (key : BlockId * nat) (s : FunctionSignature) (p : Plans) : Plans :=
  mkPlans (plan_sizes p) (plan_geps p) (<[key := s]> (plan_signatures p)).

(** The constants of a function that fit a [usize], for field ordinals. *)
Definition ordinal_of (inst : instruction) : option (ValueId * nat) :=
  match inst with
  | Instruction.Const dst _ value | Instruction.ConstDecl dst _ _ value =>
      match value with
      | ConstValue.I v | ConstValue.U v =>
          v ← checked_u 64 v; Some (dst, Z.to_nat v)
      | _ => None
      end
  | _ => None
  end.
Definition function_instructions (f : Function) : list instruction :=
  mjoin (instructions <$> blocks f).
Definition ordinals_of (f : Function) : gmap ValueId nat :=
  collect (omap ordinal_of (function_instructions f)).

(** Size and alignment of an [Alloca] or [Uninit]. *)
Definition size_plan {E} (t : ty) : result E (Z * Z) :=
  l ← layout t;
  Ok (size l, if is_array t && (16 <=? size l) then Z.max (align l) 16 else align l).

Definition capacity_of (f : Function) : nat :=
  length (function_params f) +
  length (filter (λ i, is_Some (destination i)) (function_instructions f)).

Section prepare.
Context `{Verifier}.
Context (functions : gmap FunctionId Function) (declarations : gmap FunctionId FunctionDecl).

Definition prep (A : Type) : Type := stm Worklist interp_error A.

Definition call_error_at (at_ : ExecutionSite) : interp_error :=
  InterpreterError.UnsupportedInstruction at_ "call".

(** A callee that the run may enter: an internal declaration with a body. *)
Definition check_target (at_ : ExecutionSite) (id : FunctionId) : prep unit :=
  declaration ← lift (expect (declarations !! id));
  when_err (negb (bool_decide (decl_linkage declaration = Internal))
            || negb (bool_decide (is_Some (functions !! id)))) (call_error_at at_).

Definition prepare_call (value_types : gmap ValueId ty) (at_ : ExecutionSite)
    (conv : CallingConvention) (callee : Callee.t) : prep unit :=
  _ ← when_err (negb (bool_decide (conv = Whale))) (call_error_at at_);
  match callee with
  | Callee.Direct id => _ ← check_target at_ id; modify (push_pending id)
  | Callee.Indirect v =>
      t ← lift (expect (value_types !! v));
      match t with
      | Ty.FnPtr signature =>
          w ← get;
          match by_signature signature (indirect_signatures w) with
          | Some _ => mret tt
          | None =>
              _ ← modify (add_indirect signature at_);
              for_each (default [] (by_signature signature (callable_by_signature w)))
                (λ target, _ ← check_target at_ target; modify (push_pending target))
          end
      | _ => lift Panic
      end
  end.

Definition prepare_function_addr (target : FunctionId) (signature : FunctionSignature) : prep unit :=
  w ← get;
  if decide (target ∈ callable_targets w) then mret tt else
  _ ← modify (add_callable target signature);
  match by_signature signature (indirect_signatures w) with
  | None => mret tt
  | Some at_ => _ ← check_target at_ target; modify (push_pending target)
  end.

Definition prepare_instruction (value_types : gmap ValueId ty) (ordinals : gmap ValueId nat)
    (key : BlockId * nat) (at_ : ExecutionSite) (inst : instruction) (plans : Plans) : prep Plans :=
  _ ← lift (map_err (InterpreterError.UnsupportedInstruction at_) (supported inst));
  match inst with
  | Instruction.NullFunction _ signature => mret (plan_signature key signature plans)
  | Instruction.VolatileLoad _ (Ty.FnPtr signature) _ _
  | Instruction.Load _ (Ty.FnPtr signature) _ _ => mret (plan_signature key signature plans)
  | Instruction.Call conv _ _ callee _ =>
      _ ← prepare_call value_types at_ conv callee; mret plans
  | Instruction.FunctionAddr _ target signature =>
      _ ← prepare_function_addr target signature; mret (plan_signature key signature plans)
  | Instruction.Alloca _ t _ | Instruction.Uninit t _ _ =>
      s ← lift (size_plan t); mret (plan_size key s plans)
  | Instruction.Gep _ _ base_ptr indices =>
      plan ← lift (gep_plan value_types ordinals base_ptr indices);
      _ ← when_err (bool_decide (GepStep.Stride 0 ∈ plan))
            (InterpreterError.UnsupportedInstruction at_ "zero-sized pointer arithmetic");
      mret (plan_gep key plan plans)
  | _ => mret plans
  end.

Fixpoint prepare_instructions (value_types : gmap ValueId ty) (ordinals : gmap ValueId nat)
    (function : FunctionId) (block : BlockId) (index : nat) (insts : list instruction)
    (plans : Plans) : prep Plans :=
  match insts with
  | [] => mret plans
  | inst :: insts =>
      plans ← prepare_instruction value_types ordinals (block, index)
                (mkSite function block index (destination inst)) inst plans;
      prepare_instructions value_types ordinals function block (S index) insts plans
  end.

Fixpoint prepare_blocks (value_types : gmap ValueId ty) (ordinals : gmap ValueId nat)
    (function : FunctionId) (bs : list BasicBlock) (plans : Plans) : prep Plans :=
  match bs with
  | [] => mret plans
  | block :: bs =>
      plans ← prepare_instructions value_types ordinals function (block_id block) 0
                (instructions block) plans;
      prepare_blocks value_types ordinals function bs plans
  end.

(** The body of the worklist loop for a function not visited before. *)
Definition prepare_function (function : FunctionId) : prep unit :=
  f ← lift (expect (functions !! function));
  declaration ← lift (expect (declarations !! function));
  _ ← when_err (negb (callable_signature (decl_signature declaration)))
        (InterpreterError.UnsupportedSignature function);
  plans ← prepare_blocks (collect (value_types f)) (ordinals_of f) function (blocks f)
            (mkPlans ∅ ∅ ∅);
  modify (add_prepared function
    (mkPrepared f (capacity_of f) (collect ((λ b, (block_id b, b)) <$> blocks f))
       (plan_sizes plans) (plan_geps plans) (plan_signatures plans))).

Fixpoint prepare_loop (fuel : nat) : prep unit :=
  match fuel with
  | O => lift Panic
  | S fuel =>
      w ← get;
      match pending w with
      | [] => mret tt
      | function :: rest =>
          _ ← modify (set_pending rest);
          if decide (function ∈ visited w) then prepare_loop fuel else
          _ ← modify (add_visited function);
          _ ← prepare_function function;
          prepare_loop fuel
      end
  end.
End prepare.

(** ** The machine *)

Record Frame := mkFrame {
  frame_function : FunctionId;
  frame_values : gmap ValueId value;
  current : BlockId;
  predecessor : option BlockId;
  frame_instruction : nat;
  allocation_start : nat;
  return_destination : option ValueId;
  call_site : option ExecutionSite;
}.
Definition set_instruction (n : nat) (f : Frame) : Frame :=
  mkFrame (frame_function f) (frame_values f) (current f) (predecessor f) n (allocation_start f)
    (return_destination f) (call_site f).
Definition set_values (vs : gmap ValueId value) (f : Frame) : Frame :=
  mkFrame (frame_function f) vs (current f) (predecessor f) (frame_instruction f)
    (allocation_start f) (return_destination f) (call_site f).
Definition insert_value (id : ValueId) (v : value) (f : Frame) : Frame :=
  set_values (<[id := v]> (frame_values f)) f.
(** [HashMap::extend]. *)
Definition extend_values (l : list (ValueId * value)) (vs : gmap ValueId value) : gmap ValueId value :=
  foldl (λ m p, <[p.1 := p.2]> m) vs l.
(** The assignments after the terminator: a jump to [next]. *)
Definition jump (next : BlockId) (f : Frame) : Frame :=
  mkFrame (frame_function f) (frame_values f) next (Some (current f)) 0 (allocation_start f)
    (return_destination f) (call_site f).

(** What the run prepared once. *)
Record Program := mkProgram {
  prog_prepared : gmap FunctionId Prepared;
  function_signatures : gmap FunctionId FunctionSignature;
  global_pointers : gmap GlobalId Pointer;
  options : InterpreterOptions;
  prog_ref : Z;
}.

Definition memory_failure `{Verifier} (f : fault) (site : ExecutionSite) (steps : Z) : interp_error :=
  match f with
  | Fault.Trap reason =>
      InterpreterError.Trap (mkTrap site (TrapReason.Memory reason) steps)
  | Fault.Limit resource limit => InterpreterError.MemoryLimit site resource limit
  end.

Section machine.
Context {T : Type} `{FragmentTable T} `{Verifier}.

Record Machine := mkMachine {
  memory : Memory T;
  frames : list Frame;
  frames_created : Z;
  live_values : Z;
  steps : Z;
}.
Definition run (A : Type) : Type := stm Machine interp_error A.

Definition set_memory (m : Memory T) (s : Machine) : Machine :=
  mkMachine m (frames s) (frames_created s) (live_values s) (steps s).
Definition set_frames (l : list Frame) (s : Machine) : Machine :=
  mkMachine (memory s) l (frames_created s) (live_values s) (steps s).
Definition push_frame (f : Frame) (live : Z) (s : Machine) : Machine :=
  mkMachine (memory s) (f :: frames s) (frames_created s + 1) live (steps s).
Definition set_live (n : Z) (s : Machine) : Machine :=
  mkMachine (memory s) (frames s) (frames_created s) n (steps s).
Definition set_steps (n : Z) (s : Machine) : Machine :=
  mkMachine (memory s) (frames s) (frames_created s) (live_values s) n.

(** [frames.last_mut().unwrap()], read and assigned. *)
Definition top : run Frame := λ s, (expect (head (frames s)), s).
Definition update_top (f : Frame → Frame) : run unit := λ s,
  match frames s with
  | top :: rest => (Ok tt, set_frames (f top :: rest) s)
  | [] => (Panic, s)
  end.

(** A call into the memory, whose failure becomes a failure at [site]. *)
Definition on_memory {A} (site : ExecutionSite) (op : mem T A) : run A := λ s,
  let '(r, m) := op (memory s) in
  (map_err (λ f, memory_failure f site (steps s)) r, set_memory m s).
Definition trap_at {A} (site : ExecutionSite) (reason : TrapReason.t) : run A := λ s,
  (Err (InterpreterError.Trap (mkTrap site reason (steps s))), s).
Definition or_trap_at {A} (site : ExecutionSite) (r : result TrapReason.t A) : run A := λ s,
  (map_err (λ reason, InterpreterError.Trap (mkTrap site reason (steps s))) r, s).

#[local] Instance run_fmap : FMap run := λ A B f m, x ← m; mret (f x).

Section program.
Context (prog : Program).

Definition charge_step (site : ExecutionSite) : run unit := λ s,
  if max_steps (options prog) <=? steps s
  then (Err (InterpreterError.StepLimit site (max_steps (options prog))), s)
  else (Ok tt, set_steps (steps s + 1) s).

Definition host_grants (granted : bool) (site : ExecutionSite) (limit : Z) : run unit :=
  when_err (negb granted) (InterpreterError.CallLimit site CallResource.HostAllocation limit).

Definition site_in (f : Frame) (index : nat) (v : option ValueId) : ExecutionSite :=
  mkSite (frame_function f) (current f) index v.

(** The operands of an instruction, read from the values of the frame. *)
Definition operand (vs : gmap ValueId value) (id : ValueId) : run value :=
  lift (expect (vs !! id)).
Definition scalar_operand (vs : gmap ValueId value) (id : ValueId) : run const_value :=
  v ← operand vs id; lift (value_scalar v).
Definition pointer_operand (vs : gmap ValueId value) (id : ValueId) : run Pointer :=
  v ← operand vs id; lift (value_pointer v).
Definition boolean_operand (vs : gmap ValueId value) (id : ValueId) : run bool :=
  v ← operand vs id; lift (value_boolean v).

(** *** Phi nodes: all inputs are read before any is assigned *)

Definition is_phi (inst : instruction) : bool :=
  match inst with Instruction.Phi _ _ _ => true | _ => false end.
Fixpoint phi_count (insts : list instruction) : nat :=
  match insts with
  | inst :: insts => if is_phi inst then S (phi_count insts) else 0%nat
  | [] => 0%nat
  end.

Fixpoint read_phis (f : Frame) (index : nat) (insts : list instruction)
    : run (list (ValueId * value)) :=
  match insts with
  | Instruction.Phi dst _ incomings :: insts =>
      _ ← charge_step (site_in f index (Some dst));
      input ← lift (expect (find_opt (λ p, bool_decide (Some p.2 = predecessor f)) incomings));
      v ← operand (frame_values f) input.1;
      phis ← read_phis f (S index) insts;
      mret ((dst, v) :: phis)
  | _ => mret []
  end.

Definition enter_block (host : bool) (f : Frame) (block : BasicBlock) : run unit :=
  if (frame_instruction f =? 0)%nat then
    _ ← host_grants host (site_in f 0 None) (Z.of_nat (phi_count (instructions block)));
    phis ← read_phis f 0 (instructions block);
    update_top (λ f, set_values (extend_values phis (frame_values f))
                       (set_instruction (length phis) f))
  else mret tt.

(** *** Calls *)

(** [frame_values]: the parameters bound to the arguments. *)
Definition new_frame_values (f : Function) (arguments : list value) : gmap ValueId value :=
  extend_values (zip (param_id <$> function_params f) arguments) ∅.

Definition resolve_callee (vs : gmap ValueId value) (at_ : ExecutionSite) (callee : Callee.t)
    : run FunctionId :=
  match callee with
  | Callee.Direct id => mret id
  | Callee.Indirect id =>
      v ← operand vs id;
      match v with
      | Value.FunctionPointer pointer =>
          match fp_target pointer with
          | FunctionTarget.Null => trap_at at_ TrapReason.NullFunction
          | FunctionTarget.InvalidBits _ => trap_at at_ TrapReason.InvalidFunctionPointer
          | FunctionTarget.Defined id =>
              if decide (function_signatures prog !! id = Some (fp_signature pointer))
              then mret id else trap_at at_ TrapReason.FunctionSignatureMismatch
          end
      | _ => lift Panic
      end
  end.

Fixpoint operands (vs : gmap ValueId value) (ids : list ValueId) : run (list value) :=
  match ids with
  | [] => mret []
  | id :: ids => v ← operand vs id; l ← operands vs ids; mret (v :: l)
  end.

(** The slots of the callee, added to those of the active frames. *)
Definition reserve_values (at_ : ExecutionSite) (capacity : nat) : run Z := λ s,
  let limit := max_live_values (options prog) in
  let failure := InterpreterError.CallLimit at_ CallResource.Values limit in
  (match checked_u 64 (live_values s + Z.of_nat capacity) with
   | Some n => guard_err (n <=? limit) failure ≫= λ _, Ok n
   | None => Err failure
   end, s).

(** The frame of a callee, once admitted, and the live values with it. *)
Definition callee_frame (host : nat → bool) (depth : nat) (vs : gmap ValueId value)
    (at_ : ExecutionSite) (callee : Callee.t) (args : list ValueId) (dst : option ValueId)
    : run (Frame * Z) :=
  target ← resolve_callee vs at_ callee;
  s ← get;
  _ ← when_err (max_call_depth (options prog) <=? Z.of_nat depth)
        (InterpreterError.CallLimit at_ CallResource.Depth (max_call_depth (options prog)));
  _ ← when_err (max_frames (options prog) <=? frames_created s)
        (InterpreterError.CallLimit at_ CallResource.Frames (max_frames (options prog)));
  child ← lift (expect (prog_prepared prog !! target));
  next_live_values ← reserve_values at_ (value_capacity child);
  _ ← host_grants (host 1%nat) at_ (Z.of_nat (value_capacity child));
  arguments ← operands vs (take (length (function_params (p_fun child))) args);
  let child_values := new_frame_values (p_fun child) arguments in
  _ ← host_grants (host 2%nat) at_ (Z.of_nat depth);
  mret (mkFrame target child_values (entry (p_fun child)) None 0 (allocation_count (memory s)) dst
          (Some at_), next_live_values).

Definition exec_call (host : nat → bool) (depth : nat) (vs : gmap ValueId value)
    (at_ : ExecutionSite) (callee : Callee.t) (args : list ValueId) (dst : option ValueId)
    : run unit :=
  '(f, next_live_values) ← callee_frame host depth vs at_ callee args dst;
  modify (push_frame f next_live_values).

(** *** The instructions, by arm of the match; [None] stands for [continue] *)

Definition neg_operand (t : ty) (v : const_value) : run const_value :=
  match v with
  | ConstValue.F x => mret (ConstValue.F (negate x))
  | _ => lift (neg_int t v)
  end.

Definition exec_bin (vs : gmap ValueId value) (at_ : ExecutionSite) (op : BinOp.t) (t : ty)
    (lhs rhs : ValueId) : run const_value :=
  l ← scalar_operand vs lhs;
  match l with
  | ConstValue.F a =>
      r ← scalar_operand vs rhs;
      match r with
      | ConstValue.F b => v ← lift (expect (arithmetic op a b)); mret (ConstValue.F v)
      | _ => lift Panic
      end
  | _ => r ← scalar_operand vs rhs; or_trap_at at_ (bin op t l r)
  end.

Definition exec_cmp (vs : gmap ValueId value) (at_ : ExecutionSite) (op : CmpOp.t) (t : ty)
    (lhs rhs : ValueId) : run bool :=
  if float_type t then
    p ← lift (expect (float_predicate op));
    l ← scalar_operand vs lhs;
    r ← scalar_operand vs rhs;
    lift (scalar_compare p l r)
  else if is_pointer t then
    p ← lift (cmp_pred op);
    l ← pointer_operand vs lhs;
    r ← pointer_operand vs rhs;
    on_memory at_ (reads (λ m, pointer_compare m p l r))
  else
    p ← lift (cmp_pred op);
    l ← scalar_operand vs lhs;
    r ← scalar_operand vs rhs;
    or_trap_at at_ (compare p t l r).

Definition exec_icmp (vs : gmap ValueId value) (at_ : ExecutionSite) (pred : ICmpPred.t) (t : ty)
    (lhs rhs : ValueId) : run bool :=
  if is_pointer t then
    l ← pointer_operand vs lhs;
    r ← pointer_operand vs rhs;
    on_memory at_ (reads (λ m, pointer_compare m pred l r))
  else
    l ← scalar_operand vs lhs;
    r ← scalar_operand vs rhs;
    or_trap_at at_ (compare pred t l r).

Definition exec_cast (vs : gmap ValueId value) (at_ : ExecutionSite) (op : CastOp.t)
    (src_ty dst_ty : ty) (src : ValueId) : run value :=
  match op with
  | CastOp.FExt | CastOp.FTrunc | CastOp.IToF_S | CastOp.IToF_U | CastOp.FToI_S | CastOp.FToI_U =>
      v ← scalar_operand vs src;
      o ← lift (convert op src_ty dst_ty v);
      x ← or_trap_at at_ (ok_or o TrapReason.InvalidConversion);
      mret (Value.Scalar x)
  | CastOp.CheckedInt =>
      v ← scalar_operand vs src;
      x ← or_trap_at at_ (checked_cast src_ty dst_ty v);
      mret (Value.Scalar x)
  | CastOp.IntToPtr =>
      v ← scalar_operand vs src;
      a ← lift (raw v 64);
      mret (Value.Pointer (raw_pointer (wrapu 64 a)))
  | CastOp.PtrToInt =>
      p ← pointer_operand vs src;
      x ← lift (pack dst_ty (address p));
      mret (Value.Scalar x)
  | CastOp.Bitcast =>
      if is_pointer src_ty then operand vs src else
      v ← scalar_operand vs src;
      bits ← lift (scalar_raw src_ty v);
      x ← lift (scalar_pack dst_ty bits);
      mret (Value.Scalar x)
  | _ =>
      v ← scalar_operand vs src;
      x ← or_trap_at at_ (cast op src_ty dst_ty v);
      mret (Value.Scalar x)
  end.

Definition exec_extract (vs : gmap ValueId value) (tuple : ValueId) (index : Z) : run value :=
  v ← operand vs tuple;
  match v with
  | Value.Checked v overflow =>
      mret (Value.Scalar (if index =? 0 then v else ConstValue.Bool overflow))
  | _ => lift Panic
  end.

(** Addresses of globals and functions, and pointer differences. *)
Definition exec_reference (p : Prepared) (vs : gmap ValueId value) (key : BlockId * nat)
    (at_ : ExecutionSite) (inst : instruction) : run value :=
  match inst with
  | Instruction.GlobalAddr _ global _ =>
      g ← lift (expect (global_pointers prog !! global)); mret (Value.Pointer g)
  | Instruction.PtrDiff _ lhs rhs =>
      l ← pointer_operand vs lhs;
      r ← pointer_operand vs rhs;
      d ← on_memory at_ (reads (λ m, difference m l r));
      mret (Value.Scalar (ConstValue.I d))
  | Instruction.NullFunction _ _ =>
      sig ← lift (expect (signatures p !! key));
      mret (Value.FunctionPointer (mkFunctionPointer sig FunctionTarget.Null))
  | Instruction.FunctionAddr _ target _ =>
      sig ← lift (expect (signatures p !! key));
      mret (Value.FunctionPointer (mkFunctionPointer sig (FunctionTarget.Defined target)))
  | _ => lift Panic
  end.

Definition exec_gep (p : Prepared) (vs : gmap ValueId value) (key : BlockId * nat)
    (at_ : ExecutionSite) (base_ptr : ValueId) (indices : list ValueId) : run value :=
  inputs ← operands vs indices;
  inputs ← lift (mapM value_scalar inputs);
  base ← pointer_operand vs base_ptr;
  plan ← lift (expect (geps p !! key));
  q ← on_memory at_ (reads (λ m, gep m base plan inputs));
  mret (Value.Pointer q).

Definition exec_checked (vs : gmap ValueId value) (at_ : ExecutionSite) (op : CheckedOp.t) (t : ty)
    (lhs rhs : ValueId) : run value :=
  l ← scalar_operand vs lhs;
  r ← scalar_operand vs rhs;
  '(v, overflow) ← or_trap_at at_ (checked op t l r);
  mret (Value.Checked v overflow).

(** The arms that compute a value from values. *)
Definition exec_value (vs : gmap ValueId value) (at_ : ExecutionSite) (inst : instruction)
    : run value :=
  match inst with
  | Instruction.Const _ _ v | Instruction.ConstDecl _ _ _ v => mret (Value.Scalar v)
  | Instruction.Mov _ _ src => operand vs src
  | Instruction.Neg _ t src =>
      v ← scalar_operand vs src; x ← neg_operand t v; mret (Value.Scalar x)
  | Instruction.Bin _ op t lhs rhs => x ← exec_bin vs at_ op t lhs rhs; mret (Value.Scalar x)
  | Instruction.Not _ t src =>
      v ← scalar_operand vs src; x ← or_trap_at at_ (not_int t v); mret (Value.Scalar x)
  | Instruction.Cmp _ op t lhs rhs =>
      b ← exec_cmp vs at_ op t lhs rhs; mret (Value.Scalar (ConstValue.Bool b))
  | Instruction.ICmp _ pred t lhs rhs =>
      b ← exec_icmp vs at_ pred t lhs rhs; mret (Value.Scalar (ConstValue.Bool b))
  | Instruction.FCmp _ pred _ lhs rhs =>
      l ← scalar_operand vs lhs;
      r ← scalar_operand vs rhs;
      b ← lift (scalar_compare pred l r);
      mret (Value.Scalar (ConstValue.Bool b))
  | Instruction.Select _ _ cond on_true on_false =>
      c ← boolean_operand vs cond; operand vs (if c : bool then on_true else on_false)
  | Instruction.Cast _ op dst_ty src_ty src => exec_cast vs at_ op src_ty dst_ty src
  | _ => lift Panic
  end.

(** The arms that act on memory. *)
Definition exec_memory (host : nat → bool) (f : Frame) (p : Prepared) (vs : gmap ValueId value)
    (key : BlockId * nat) (at_ : ExecutionSite) (inst : instruction) : run (option value) :=
  match inst with
  | Instruction.LifetimeEnd ptr =>
      q ← pointer_operand vs ptr;
      _ ← on_memory at_ (retire_stack q (allocation_start f));
      mret None
  | Instruction.Alloca _ _ align =>
      '(size, natural) ← lift (expect (sizes p !! key));
      q ← on_memory at_ (allocate host size natural align);
      mret (Some (Value.Pointer q))
  | Instruction.VolatileLoad _ t ptr align | Instruction.Load _ t ptr align =>
      q ← pointer_operand vs ptr;
      v ← on_memory at_ (load_with_signature q t align (signatures p !! key));
      mret (Some v)
  | Instruction.VolatileStore t v ptr align | Instruction.Store t v ptr align =>
      q ← pointer_operand vs ptr;
      x ← operand vs v;
      _ ← on_memory at_ (store (host 0%nat) q t x align);
      mret None
  | Instruction.Uninit _ ptr align =>
      q ← pointer_operand vs ptr;
      s ← lift (expect (sizes p !! key));
      _ ← on_memory at_ (uninit (host 0%nat) q s.1 align);
      mret None
  | Instruction.Memcpy dst src n align =>
      d ← pointer_operand vs dst;
      q ← pointer_operand vs src;
      count ← scalar_operand vs n;
      bytes ← lift (raw count 64);
      _ ← on_memory at_ (mem_copy host d q (wrapu 64 bytes) align);
      mret None
  | Instruction.Memset dst val n align =>
      d ← pointer_operand vs dst;
      byte ← scalar_operand vs val;
      byte ← lift (raw byte 8);
      count ← scalar_operand vs n;
      bytes ← lift (raw count 64);
      _ ← on_memory at_ (mem_set (host 0%nat) d (wrapu 8 byte) (wrapu 64 bytes) align);
      mret None
  | _ => lift Panic
  end.

Definition exec_trap_if (vs : gmap ValueId value) (at_ : ExecutionSite) (cond : ValueId)
    (reason : string) : run (option value) :=
  c ← boolean_operand vs cond;
  if c : bool then trap_at at_ (TrapReason.Explicit reason) else mret None.

(** The match on the instruction. *)
Definition execute (host : nat → bool) (depth : nat) (f : Frame) (p : Prepared)
    (key : BlockId * nat) (at_ : ExecutionSite) (inst : instruction) : run (option value) :=
  let vs := frame_values f in
  match inst with
  | Instruction.Call _ dst _ callee args =>
      _ ← exec_call host depth vs at_ callee args dst; mret None
  | Instruction.LifetimeEnd _ | Instruction.Alloca _ _ _ | Instruction.VolatileLoad _ _ _ _
  | Instruction.Load _ _ _ _ | Instruction.VolatileStore _ _ _ _ | Instruction.Store _ _ _ _
  | Instruction.Uninit _ _ _ | Instruction.Memcpy _ _ _ _ | Instruction.Memset _ _ _ _ =>
      exec_memory host f p vs key at_ inst
  | Instruction.TrapIf cond reason => exec_trap_if vs at_ cond reason
  | Instruction.GlobalAddr _ _ _ | Instruction.PtrDiff _ _ _ | Instruction.NullFunction _ _
  | Instruction.FunctionAddr _ _ _ => Some <$> exec_reference p vs key at_ inst
  | Instruction.Gep _ _ base_ptr indices => Some <$> exec_gep p vs key at_ base_ptr indices
  | Instruction.Checked _ op t lhs rhs => Some <$> exec_checked vs at_ op t lhs rhs
  | Instruction.Extract _ _ tuple index => Some <$> exec_extract vs tuple index
  | _ => Some <$> exec_value vs at_ inst
  end.

Definition instruction_step (host : nat → bool) (depth : nat) (p : Prepared) (block : BasicBlock)
    (inst : instruction) : run unit :=
  f ← top;
  let index := frame_instruction f in
  _ ← update_top (set_instruction (S index));
  let at_ := site_in f index (destination inst) in
  _ ← charge_step at_;
  r ← execute host depth f p (current f, index) at_ inst;
  match r with
  | None => mret tt
  | Some v =>
      dst ← lift (expect (destination inst));
      update_top (insert_value dst v)
  end.

(** *** Terminators *)

(** [Ret]: retire the allocations of the frame and hand the value to the caller. *)
Definition exec_return (p : Prepared) (f : Frame) (at_ : ExecutionSite) (v : option ValueId)
    : run (option RuntimeInterpreterResult) :=
  v ← match v with
      | Some id => x ← operand (frame_values f) id; mret (Some x)
      | None => mret None
      end;
  _ ← on_memory at_ (retire_from (allocation_start f));
  s ← get;
  _ ← modify (set_frames (tail (frames s)));
  live ← lift (debug_u 64 (live_values s - Z.of_nat (value_capacity p)));
  _ ← modify (set_live live);
  s ← get;
  match frames s with
  | _ :: _ =>
      match return_destination f with
      | Some dst => x ← lift (expect v); _ ← update_top (insert_value dst x); mret None
      | None => mret None
      end
  | [] =>
      mret (Some (mkRuntimeResult
        ((λ x, mkRuntimeValue (ret_ty (p_fun p)) x (Some (prog_ref prog))) <$> v) (steps s)))
  end.

Definition branch_target (vs : gmap ValueId value) (at_ : ExecutionSite) (t : terminator)
    : run BlockId :=
  match t with
  | Terminator.Br target => mret target
  | Terminator.CBr cond then_bb else_bb =>
      c ← boolean_operand vs cond; mret (if c : bool then then_bb else else_bb)
  | Terminator.Switch _ value default_bb cases =>
      match cases with
      | [] => mret default_bb
      | _ =>
          v ← scalar_operand vs value;
          mret (default default_bb (snd <$> find_opt (λ c, bool_decide (c.1 = v)) cases))
      end
  | Terminator.Ret _ _ => lift Panic
  | Terminator.Trap reason => trap_at at_ (TrapReason.Explicit reason)
  end.

Definition terminator_step (p : Prepared) (block : BasicBlock)
    : run (option RuntimeInterpreterResult) :=
  f ← top;
  let at_ := site_in f (length (instructions block)) None in
  _ ← charge_step at_;
  t ← lift (expect (block_terminator block));
  match t with
  | Terminator.Ret _ v => exec_return p f at_ v
  | _ =>
      next ← branch_target (frame_values f) at_ t;
      _ ← update_top (jump next);
      mret None
  end.

(** *** One iteration of the loop *)

Definition iteration (host : nat → bool) : run (option RuntimeInterpreterResult) :=
  s ← get;
  let depth := length (frames s) in
  f ← top;
  p ← lift (expect (prog_prepared prog !! frame_function f));
  block ← lift (expect (p_blocks p !! current f));
  _ ← enter_block (host 0%nat) f block;
  f ← top;
  match instructions block !! frame_instruction f with
  | Some inst => _ ← instruction_step (λ i, host (S i)) depth p block inst; mret None
  | None => terminator_step p block
  end.

(** The loop; [host i] answers the requests of the [i]-th iteration. *)
Fixpoint run_loop (host : nat → nat → bool) (fuel : nat) : run RuntimeInterpreterResult :=
  match fuel with
  | O => lift Panic
  | S fuel =>
      r ← iteration (host 0%nat);
      match r with
      | Some r => mret r
      | None => run_loop (λ i, host (S i)) fuel
      end
  end.
End program.
End machine.
Arguments Machine T : clear implicits.

(** ** The run *)

Section setup.
Context {T : Type} `{FragmentTable T} `{Verifier}.

(** An argument of the entry function, checked against its parameter; the pointer keeps the interned
    signature of the parameter, which is equal to its own. *)
Definition check_argument (decls : gmap FunctionId FunctionDecl) (module_ref : Z)
    (arguments : Arguments.t) (index : nat) (t : ty) : result interp_error value :=
  valid_type ← argument_valid_type arguments index t;
  argument ← argument_value arguments index;
  let valid_value :=
    match argument with
    | Value.Scalar v => scalar_type t && valid_constant t v
    | Value.Pointer _ => is_pointer t
    | Value.FunctionPointer pointer =>
        bool_decide (t = Ty.FnPtr (fp_signature pointer))
        && match fp_target pointer with
           | FunctionTarget.Defined id =>
               match decls !! id with
               | Some d => bool_decide (decl_signature d = fp_signature pointer)
               | None => false
               end
           | FunctionTarget.Null | FunctionTarget.InvalidBits _ => true
           end
    | Value.Checked _ _ => false
    end in
  if negb valid_type || negb valid_value
  then Err (InterpreterError.ArgumentType index t) else
  valid_origin ← argument_valid_origin arguments index module_ref;
  if valid_origin : bool then Ok argument else Err (InterpreterError.ArgumentType index t).

Fixpoint check_arguments (decls : gmap FunctionId FunctionDecl) (module_ref : Z)
    (arguments : Arguments.t) (index : nat) (ps : list Param) : result interp_error (list value) :=
  match ps with
  | [] => Ok []
  | param :: ps =>
      v ← check_argument decls module_ref arguments index (param_ty param);
      l ← check_arguments decls module_ref arguments (S index) ps;
      Ok (v :: l)
  end.

(** The call targets among the arguments, in order, without repetition. *)
Fixpoint argument_targets (decls : gmap FunctionId FunctionDecl) (arguments : list value)
    (w : Worklist) : result interp_error Worklist :=
  match arguments with
  | [] => Ok w
  | Value.FunctionPointer (mkFunctionPointer _ (FunctionTarget.Defined id)) :: arguments =>
      if decide (id ∈ callable_targets w) then argument_targets decls arguments w else
      d ← expect (decls !! id);
      argument_targets decls arguments (add_callable id (decl_signature d) w)
  | _ :: arguments => argument_targets decls arguments w
  end.

(** Enough fuel for the worklist: every function is visited once and pushes at
    most one entry per instruction, besides the targets among the arguments. *)
Definition prepare_fuel (fs : gmap FunctionId Function) (arguments : list value) : nat :=
  S (S (length arguments +
        map_fold (λ _ f n, length (function_instructions f) + n)%nat 0%nat fs)).

Definition global_failure (id : GlobalId) (f : fault) : interp_error :=
  match f with
  | Fault.Trap reason => InterpreterError.GlobalMemory id reason
  | Fault.Limit resource limit => InterpreterError.GlobalMemoryLimit id resource limit
  end.

(** One global: allocate, initialize and seal. *)
Definition install_global (host : nat → bool) (lim : IrLimits) (g : GlobalStorage)
    : mem T Pointer :=
  l ← lift (match layout_of_with_limit (gs_ty g) X86_64WhaleLinux (Z.to_nat (max_type_depth lim)) with
            | Ok l => Ok l
            | _ => Panic
            end);
  pointer ← allocate_global host (size l) (align l) (gs_align g);
  _ ← match gs_init g with
      | GlobalStorageInit.Value v =>
          store (host 3%nat) pointer (gs_ty g) (Value.Scalar v) (gs_align g)
      | GlobalStorageInit.Uninitialized => mret tt
      end;
  seal_global pointer (gs_readonly g).

Fixpoint install_globals (host : nat → nat → bool) (lim : IrLimits) (gs : list GlobalStorage)
    (pointers : gmap GlobalId Pointer) (m : Memory T)
    : result interp_error (gmap GlobalId Pointer * Memory T) :=
  match gs with
  | [] => Ok (pointers, m)
  | g :: gs =>
      let '(r, m) := install_global (host 0%nat) lim g m in
      p ← map_err (global_failure (gs_id g)) r;
      install_globals (λ i, host (S i)) lim gs (<[gs_id g := p]> pointers) m
  end.

Definition unsupported_global (m : Module_) : option GlobalStorage :=
  find_opt (λ g, negb (call_value_type (gs_ty g))) (global_storage m).

Definition scalar_entry (f : Function) : bool :=
  forallb (λ p, scalar_type (param_ty p)) (function_params f)
  && (bool_decide (ret_ty f = Ty.Void) || scalar_type (ret_ty f)).

(** The checks of the entry function and its arguments. *)
Definition check_entry (m : Module_) (module_ref : Z) (granted : bool) (function : FunctionId)
    (arguments : Arguments.t) : result interp_error (Function * list value) :=
  f ← ok_or (function_map m !! function) (InterpreterError.UnknownFunction function);
  if match arguments with Arguments.Scalars _ => negb (scalar_entry f) | _ => false end
  then Err (InterpreterError.UnsupportedSignature function) else
  if negb (arguments_len arguments =? length (function_params f))%nat
  then Err (InterpreterError.ArgumentCount (length (function_params f)) (arguments_len arguments)) else
  if negb granted
  then Err (InterpreterError.CallLimit (mkSite function (entry f) 0 None)
              CallResource.HostAllocation (Z.of_nat (arguments_len arguments))) else
  l ← check_arguments (declaration_map m) module_ref arguments 0 (function_params f);
  Ok (f, l).

(** The functions the run can reach, prepared. *)
Definition prepare_program (m : Module_) (function : FunctionId) (arguments : list value)
    : result interp_error (gmap FunctionId Prepared) :=
  let fs := function_map m in
  let decls := declaration_map m in
  w ← argument_targets decls arguments (mkWorklist [function] ∅ [] [] ∅ ∅);
  let '(r, w) := prepare_loop fs decls (prepare_fuel fs arguments) w in
  _ ← r;
  Ok (prepared w).

(** The first frame, after the resource checks. *)
Definition start_machine (prog : Program) (granted : bool) (function : FunctionId) (f : Function)
    (arguments : list value) (m : Memory T) : result interp_error (Machine T) :=
  let o := options prog in
  let at_ := mkSite function (entry f) 0 None in
  if (max_call_depth o =? 0) || (max_frames o =? 0)
  then Err (InterpreterError.CallLimit at_
              (if max_call_depth o =? 0 then CallResource.Depth else CallResource.Frames) 0) else
  p ← expect (prog_prepared prog !! function);
  let live := Z.of_nat (value_capacity p) in
  if max_live_values o <? live
  then Err (InterpreterError.CallLimit at_ CallResource.Values (max_live_values o)) else
  if negb granted then Err (InterpreterError.CallLimit at_ CallResource.HostAllocation live) else
  Ok (mkMachine m
        [mkFrame function (new_frame_values f arguments) (entry f) None 0 (allocation_count m) None
           None] 1 live 0).

(** Everything before the loop. The oracle answers the arguments buffer, the globals and
    the first frame; the arena counter is passed in. *)
Definition setup (host_entry : nat → bool) (host_globals : nat → nat → bool) (arena : Z)
    (m : Module_) (module_ref : Z) (function : FunctionId) (arguments : Arguments.t)
    (o : InterpreterOptions) : result interp_error (Program * Machine T) :=
  _ ← map_err InterpreterError.Verification (verify_module_with_limits m (ir_limits o));
  '(f, l) ← check_entry m module_ref (host_entry 0%nat) function arguments;
  prepared ← prepare_program m function l;
  match unsupported_global m with
  | Some g => Err (InterpreterError.UnsupportedGlobal (gs_id g))
  | None =>
      '(pointers, mem) ← install_globals host_globals (ir_limits o) (global_storage m) ∅
                           (new arena (memory_limits o)).1;
      let prog := mkProgram prepared
        (collect ((λ d, (decl_id d, decl_signature d)) <$> declarations m)) pointers o module_ref in
      s ← start_machine prog (host_entry 1%nat) function f l mem;
      Ok (prog, s)
  end.
End setup.

(** ** Diagnostics *)

Record SourceDetailBudget := mkDetailBudget { detail_remaining : Z; detail_omitted : Z }.
Definition new_detail_budget : SourceDetailBudget :=
  mkDetailBudget MAX_RUNTIME_DIAGNOSTIC_SOURCE_BYTES 0.
Definition string_len (s : string) : Z := Z.of_nat (String.length s).

(** [SourceDetailBudget::location]. *)
Definition detail_location (host : bool) (m : Module_) (target : SourceTarget.t)
    (b : SourceDetailBudget) : option OriginalLocation * SourceDetailBudget :=
  match original (sources m) target with
  | None => (None, b)
  | Some o =>
      let omit := mkDetailBudget (detail_remaining b) (detail_omitted b + 1) in
      let '(source, b) :=
        match node_span o with
        | None => (None, b)
        | Some span =>
            match find_opt (λ f, file_id f =? span_file span) (files (sources m)) with
            | None => (None, b)
            | Some file =>
                if detail_remaining b <? string_len (file_name file) then (None, omit) else
                if negb host then (None, omit) else
                (Some (file_name file, span),
                 mkDetailBudget (detail_remaining b - string_len (file_name file))
                   (detail_omitted b))
            end
        end in
      (Some (mkLocation (node_id o) source), b)
  end.

Definition execution_source (host : bool) (m : Module_) (at_ : ExecutionSite)
    (b : SourceDetailBudget) : option OriginalLocation * SourceDetailBudget :=
  match find_opt (λ f, bool_decide (function_id f = site_function at_)) (functions m) with
  | None => (None, b)
  | Some f =>
      match find_opt (λ b, bool_decide (block_id b = site_block at_)) (blocks f) with
      | None => (None, b)
      | Some block =>
          detail_location host m
            (if (site_instruction at_ =? length (instructions block))%nat
             then SourceTarget.Terminator (site_function at_) (site_block at_)
             else SourceTarget.Instruction (site_function at_) (site_block at_)
                    (site_instruction at_)) b
      end
  end.

(** The retained caller edges, innermost first. *)
Fixpoint call_trace {E} (host : nat → bool) (m : Module_) (retained : list Frame)
    (b : SourceDetailBudget) : result E (list RuntimeCallFrame * SourceDetailBudget) :=
  match retained with
  | [] => Ok ([], b)
  | child :: retained =>
      at_ ← expect (call_site child);
      let '(o, b) := execution_source (host 0%nat) m at_ b in
      '(l, b) ← call_trace (λ i, host (S i)) m retained b;
      Ok (mkCallFrame (site_function at_) (frame_function child) at_ o :: l, b)
  end.

Section failures.
Context `{Verifier}.

(** [runtime_failure]; the frames are innermost first. *)
Definition runtime_failure {E} (host : nat → bool) (m : Module_) (cause : interp_error)
    (fs : list Frame) (trace_limit : Z) : result E interp_error :=
  match runtime_site cause with
  | None => Ok cause
  | Some at_ =>
      let '(o, b) := execution_source (host 0%nat) m at_ new_detail_budget in
      let caller_count := (length fs - 1)%nat in
      if bool_decide (o = None) && (caller_count =? 0)%nat then Ok cause else
      let retained :=
        Nat.min caller_count (Z.to_nat (Z.min trace_limit MAX_RUNTIME_TRACE_FRAMES)) in
      let retained := if host 1%nat : bool then retained else 0%nat in
      '(calls, b) ← call_trace (λ i, host (S (S i))) m (take retained fs) b;
      Ok (InterpreterError.Diagnostic cause
            (mkDiagnostic (Some at_) None o (rev calls) (Z.of_nat (caller_count - retained))
               (detail_omitted b)))
  end.

(** The [map_err] of [run], for failures that carry no diagnostic yet. *)
Definition setup_failure {E} (host : nat → bool) (m : Module_) (cause : interp_error)
    (trace_limit : Z) : result E interp_error :=
  match error_diagnostic cause with
  | Some _ => Ok cause
  | None =>
      let global :=
        match cause with
        | InterpreterError.GlobalMemory g _ | InterpreterError.GlobalMemoryLimit g _ _
        | InterpreterError.UnsupportedGlobal g => Some g
        | _ => None
        end in
      match global with
      | Some g =>
          match detail_location (host 0%nat) m (SourceTarget.Global g) new_detail_budget with
          | (Some o, b) =>
              Ok (InterpreterError.Diagnostic cause
                    (mkDiagnostic None (Some g) (Some o) [] 0 (detail_omitted b)))
          | (None, _) => runtime_failure host m cause [] trace_limit
          end
      | None => runtime_failure host m cause [] trace_limit
      end
  end.
End failures.

(** The answers of the host, by phase. *)
Record Host := mkHost {
  host_entry : nat → bool;
  host_globals : nat → nat → bool;
  host_loop : nat → nat → bool;
  host_failure : nat → bool;
  host_wrap : nat → bool;
}.

Section interpret.
Context {T : Type} `{FragmentTable T} `{Verifier}.
Context (host : Host) (arena : Z) (m : Module_) (module_ref : Z).

(** [run_inner]: the loop runs at most once more than the step limit. *)
Definition run_inner (function : FunctionId) (arguments : Arguments.t) (o : InterpreterOptions)
    : result interp_error RuntimeInterpreterResult :=
  '(prog, s) ← setup (T := T) (host_entry host) (host_globals host) arena m module_ref function
                 arguments o;
  match run_loop prog (host_loop host) (S (Z.to_nat (max_steps o))) s with
  | (Ok r, _) => Ok r
  | (Err cause, s) =>
      e ← runtime_failure (host_failure host) m cause (frames s) (max_trace_frames o); Err e
  | (Panic, _) => Panic
  end.

(** [run]. *)
Definition run_module (function : FunctionId) (arguments : Arguments.t) (o : InterpreterOptions)
    : result interp_error RuntimeInterpreterResult :=
  match run_inner function arguments o with
  | Ok r => Ok r
  | Err cause => e ← setup_failure (host_wrap host) m cause (max_trace_frames o); Err e
  | Panic => Panic
  end.

Definition interpret_values_with_options (function : FunctionId) (arguments : list RuntimeValue)
    (o : InterpreterOptions) : result interp_error RuntimeInterpreterResult :=
  run_module function (Arguments.Runtime arguments) o.
Definition interpret_values (function : FunctionId) (arguments : list RuntimeValue)
    : result interp_error RuntimeInterpreterResult :=
  interpret_values_with_options function arguments default_options.

Definition interpret_with_options (function : FunctionId) (arguments : list const_value)
    (o : InterpreterOptions) : result interp_error InterpreterResult :=
  r ← run_module function (Arguments.Scalars arguments) o;
  v ← match runtime_value r with
      | Some v => x ← value_scalar (rv_value v); Ok (Some x)
      | None => Ok None
      end;
  Ok (mkResult v (runtime_steps r)).
Definition interpret (function : FunctionId) (arguments : list const_value)
    : result interp_error InterpreterResult :=
  interpret_with_options function arguments default_options.
End interpret.
