(* ===== verification/Preparation.v ===== *)
(** * The fuel of the preparation ([interpreter/mod.rs])

    Before a run the interpreter decides with worklists whether it supports an allocated type
    ([allocation_type]) and which functions the run can reach ([prepare_program]).  This file proves
    that the fuel their loops are given is enough: the first computes a plain recursion over the
    type, the second comes to the same end with any fuel above the one it is given.

    A function is visited once, and each of its instructions owes the worklist at most one entry:
    a direct callee, or the target of an address, pushed when an indirect call has its signature.
    [pushes k] is the judgement that a step owes at most [k] entries. *)
From S2P Require Import Interp.
Local Open Scope nat_scope.

(** ** Types that can be allocated *)

Fixpoint allocatable (t : ty) : bool :=
  call_value_type t ||
  match t with
  | Ty.Array t _ => allocatable t
  | Ty.Struct ts | Ty.Tuple ts => forallb allocatable ts
  | _ => false
  end.

Lemma forallb_reversed {A} (p : A → bool) l : forallb p (rev l) = forallb p l.
Proof. induction l as [|x l IH]; simpl; [done|]. rewrite forallb_app, IH. simpl. by destruct (p x), (forallb p l). Qed.

Lemma pending_nodes_rev ts : sum_list_with ty_nodes (rev ts) = sum_list_with ty_nodes ts.
Proof. induction ts as [|t ts IH]; simpl; [done|]. rewrite sum_list_with_app, IH. simpl. lia. Qed.
Lemma fields_nodes ts : foldr (λ t n, ty_nodes t + n) 0 ts = sum_list_with ty_nodes ts.
Proof. induction ts as [|t ts IH]; simpl; [done|]. by rewrite IH. Qed.

Lemma allocation_loop_eq fuel pending :
  sum_list_with ty_nodes pending < fuel → allocation_loop fuel pending = forallb allocatable pending.
Proof.
  revert pending. induction fuel as [|fuel IH]; intros pending Hf; [lia|].
  destruct pending as [|t pending]; [done|]. cbn [sum_list_with] in Hf. pose proof (ty_nodes_pos t).
  cbn [allocation_loop forallb].
  assert (allocatable t = call_value_type t || match t with
    | Ty.Array t _ => allocatable t | Ty.Struct ts | Ty.Tuple ts => forallb allocatable ts | _ => false end) as ->
    by by destruct t.
  destruct (call_value_type t); cbn [orb]; [rewrite IH; [done|lia]|].
  destruct t; try done; cbn [ty_nodes] in Hf; rewrite ?fields_nodes in Hf; rewrite IH;
    rewrite ?sum_list_with_app, ?pending_nodes_rev, ?forallb_app, ?forallb_reversed; cbn [sum_list_with]; done || lia.
Qed.
Lemma allocation_type_eq t : allocation_type t = allocatable t.
Proof. unfold allocation_type. rewrite allocation_loop_eq; simpl; [by rewrite andb_true_r|lia]. Qed.

(** ** Entries owed to the worklist *)

(** Targets of known addresses whose signature no indirect call has yet. *)
Definition waiting_in (indirect : list (FunctionSignature * ExecutionSite))
    (callable : list (FunctionSignature * list FunctionId)) : nat :=
  sum_list_with (λ p, match by_signature p.1 indirect with None => length p.2 | Some _ => 0 end) callable.
Definition owed (w : Worklist) : nat :=
  length (pending w) + waiting_in (indirect_signatures w) (callable_by_signature w).

Lemma by_signature_cons {A} sig s (a : A) l :
  by_signature sig ((s, a) :: l) = if decide (s = sig) then Some a else by_signature sig l.
Proof.
  unfold by_signature, find_opt. simpl. destruct (decide (s = sig)) as [->|Hne].
  - by rewrite decide_True by by apply bool_decide_eq_true.
  - rewrite decide_False by by rewrite bool_decide_eq_true. by destruct (list_find _ l) as [[]|].
Qed.

Lemma waiting_push ind sig id l :
  waiting_in ind (push_by_signature sig id l) =
  waiting_in ind l + match by_signature sig ind with None => 1 | Some _ => 0 end.
Proof.
  unfold waiting_in. induction l as [|[s ids] l IH]; simpl; [by destruct (by_signature sig ind)|].
  case_decide as Hs; simpl; [subst s|lia].
  destruct (by_signature sig ind); rewrite ?length_app; simpl; lia.
Qed.
Lemma waiting_indirect ind sig at_ l :
  by_signature sig ind = None →
  waiting_in ((sig, at_) :: ind) l + length (default [] (by_signature sig l)) ≤ waiting_in ind l.
Proof.
  intros Hn. unfold waiting_in.
  assert (∀ l, sum_list_with (λ p, match by_signature p.1 ((sig, at_) :: ind) with None => length p.2 | Some _ => 0 end) l
    ≤ sum_list_with (λ p : FunctionSignature * list FunctionId,
        match by_signature p.1 ind with None => length p.2 | Some _ => 0 end) l) as Hle.
  { induction l0 as [|[s ids] l0 IH]; simpl; [lia|]. rewrite by_signature_cons. case_decide; [subst s|]; lia. }
  induction l as [|[s ids] l IH]; [simpl; lia|]. rewrite (by_signature_cons sig s). simpl. rewrite by_signature_cons.
  destruct (decide (s = sig)) as [->|Hne].
  - rewrite decide_True, Hn by done. simpl. specialize (Hle l). lia.
  - rewrite decide_False by done. lia.
Qed.

Section pushes.
Context `{Verifier}.
Context (functions : gmap FunctionId Function) (declarations : gmap FunctionId FunctionDecl).

Definition pushes {A} (k : nat) (m : prep A) : Prop :=
  ∀ w, visited (m w).2 = visited w ∧ owed (m w).2 ≤ owed w + k.

Lemma prep_bind_eq {A B} (m : prep A) (f : A → prep B) w :
  (m ≫= f) w = match m w with
               | (Ok a, w') => f a w'
               | (Err e, w') => (Err e, w')
               | (Panic, w') => (Panic, w')
               end.
Proof. done. Qed.
Lemma pushes_mono {A} j k (m : prep A) : j ≤ k → pushes j m → pushes k m.
Proof. intros Hjk Hm w. destruct (Hm w). split; [done|lia]. Qed.
Lemma pushes_bind {A B} j k (m : prep A) (f : A → prep B) :
  pushes j m → (∀ a, pushes k (f a)) → pushes (j + k) (m ≫= f).
Proof.
  intros Hm Hf w. destruct (Hm w) as [Hv Ho]. rewrite prep_bind_eq.
  destruct (m w) as [[a|e|] w1]; simpl in *; [|split; [done|lia]..].
  destruct (Hf a w1). split; [congruence|lia].
Qed.
Lemma pushes_bind_0 {A B} k (m : prep A) (f : A → prep B) :
  pushes 0 m → (∀ a, pushes k (f a)) → pushes k (m ≫= f).
Proof. apply (pushes_bind 0). Qed.
Lemma pushes_ret {A} k (a : A) : pushes k (mret a).
Proof. intros w. split; [done|simpl; lia]. Qed.
Lemma pushes_lift {A} k (r : result interp_error A) : pushes k (lift r).
Proof. intros w. split; [done|simpl; lia]. Qed.
Lemma pushes_when_err k b (e : interp_error) : pushes k (when_err b e).
Proof. intros w. unfold when_err. destruct b; (split; [done|simpl; lia]). Qed.
Lemma pushes_modify k f :
  (∀ w, visited (f w) = visited w ∧ owed (f w) ≤ owed w + k) → pushes k (modify f).
Proof. intros Hf w. apply Hf. Qed.
Lemma pushes_pending id : pushes 1 (modify (push_pending id)).
Proof. apply pushes_modify. intros w. split; [done|]. unfold owed. simpl. lia. Qed.
Lemma pushes_check_target at_ id : pushes 0 (check_target functions declarations at_ id).
Proof. apply pushes_bind_0; [apply pushes_lift|]. intros d. apply pushes_when_err. Qed.

Lemma pushes_target at_ id :
  pushes 1 (_ ← check_target functions declarations at_ id; modify (push_pending id)).
Proof. apply pushes_bind_0; [apply pushes_check_target|]. intros _. apply pushes_pending. Qed.
Lemma pushes_targets at_ ids :
  pushes (length ids) (for_each ids (λ id, _ ← check_target functions declarations at_ id; modify (push_pending id))).
Proof.
  induction ids as [|id ids IH]; [apply pushes_ret|]. simpl.
  apply (pushes_bind 1); [apply pushes_target|done].
Qed.

Lemma pushes_call types at_ conv callee : pushes 1 (prepare_call functions declarations types at_ conv callee).
Proof.
  apply pushes_bind_0; [apply pushes_when_err|]. intros _. destruct callee as [id|v]; [apply pushes_target|].
  apply pushes_bind_0; [apply pushes_lift|]. intros t. destruct t as [ | | | | | | | | | | | | | | | | | |sig| | | ];
    try apply pushes_lift.
  intros w. rewrite prep_bind_eq. simpl. destruct (by_signature sig (indirect_signatures w)) eqn:Hs.
  { split; [done|simpl; lia]. }
  rewrite prep_bind_eq. simpl.
  destruct (pushes_targets at_ (default [] (by_signature sig (callable_by_signature w))) (add_indirect sig at_ w))
    as [Hv Ho]. split; [by rewrite Hv|]. etrans; [exact Ho|].
  pose proof (waiting_indirect _ _ at_ (callable_by_signature w) Hs). unfold owed. simpl. lia.
Qed.

Lemma pushes_function_addr target sig : pushes 1 (prepare_function_addr functions declarations target sig).
Proof.
  intros w. unfold prepare_function_addr. rewrite prep_bind_eq. simpl.
  case_decide; [split; [done|simpl; lia]|]. rewrite prep_bind_eq. simpl.
  pose proof (waiting_push (indirect_signatures w) sig target (callable_by_signature w)) as Hw.
  destruct (by_signature sig (indirect_signatures w)) as [at_|].
  - destruct (pushes_target at_ target (add_callable target sig w)) as [Hv Ho].
    split; [by rewrite Hv|]. etrans; [exact Ho|]. unfold owed. simpl. lia.
  - split; [done|]. unfold owed. simpl. lia.
Qed.

Lemma pushes_instruction types ordinals key at_ inst plans :
  pushes 1 (prepare_instruction functions declarations types ordinals key at_ inst plans).
Proof.
  apply pushes_bind_0; [apply pushes_lift|]. intros _.
  destruct inst; lazymatch goal with
    | |- pushes _ (mret _) => apply pushes_ret
    | |- pushes _ (_ ← prepare_call _ _ _ _ _ _; _) =>
        apply (pushes_bind 1 0); [apply pushes_call|intros; apply pushes_ret]
    | |- pushes _ (_ ← prepare_function_addr _ _ _ _; _) =>
        apply (pushes_bind 1 0); [apply pushes_function_addr|intros; apply pushes_ret]
    | |- pushes _ (match ?t with _ => _ end) => destruct t; apply pushes_ret
    | _ => apply pushes_bind_0; [apply pushes_lift|]; intros s
    end; try lazymatch goal with |- pushes _ (mret _) => apply pushes_ret end.
  apply pushes_bind_0; [apply pushes_when_err|]. intros _. apply pushes_ret.
Qed.
Lemma pushes_instructions types ordinals function block insts : ∀ index plans,
  pushes (length insts) (prepare_instructions functions declarations types ordinals function block index insts plans).
Proof.
  induction insts as [|inst insts IH]; intros index plans; [apply pushes_ret|].
  apply (pushes_bind 1); [apply pushes_instruction|done].
Qed.
Lemma pushes_blocks types ordinals function bs : ∀ plans,
  pushes (length (mjoin (instructions <$> bs))) (prepare_blocks functions declarations types ordinals function bs plans).
Proof.
  induction bs as [|block bs IH]; intros plans; [apply pushes_ret|]. csimpl. rewrite length_app.
  apply pushes_bind; [apply pushes_instructions|done].
Qed.
Lemma pushes_function function f :
  functions !! function = Some f →
  pushes (length (function_instructions f)) (prepare_function functions declarations function).
Proof.
  intros Hf w. unfold prepare_function. rewrite Hf, prep_bind_eq. revert w.
  apply (pushes_bind_0 (A := FunctionDecl)); [apply pushes_lift|]. intros d.
  apply pushes_bind_0; [apply pushes_when_err|]. intros _.
  rewrite <- (Nat.add_0_r (length _)). apply pushes_bind; [apply pushes_blocks|]. intros plans.
  apply pushes_modify. intros w. split; [done|]. unfold owed. simpl. lia.
Qed.

(** ** The loop *)

(** The instructions of the functions not visited yet. *)
Definition unvisited (seen : gset FunctionId) : nat :=
  map_fold (λ _ f n, length (function_instructions f) + n) 0 (filter (λ p, p.1 ∉ seen) functions).

Lemma unvisited_visit id f seen :
  functions !! id = Some f → id ∉ seen →
  unvisited seen = length (function_instructions f) + unvisited ({[id]} ∪ seen).
Proof.
  intros Hf Hid. unfold unvisited.
  rewrite (map_fold_delete_L _ _ id f); [|intros; lia|by apply map_lookup_filter_Some].
  do 2 f_equal. apply map_eq. intros j. apply option_eq. intros g.
  rewrite lookup_delete_Some, !map_lookup_filter_Some. simpl. set_solver.
Qed.

Lemma prepare_loop_fuel fuel : ∀ k w,
  owed w + unvisited (visited w) < fuel →
  prepare_loop functions declarations (fuel + k) w = prepare_loop functions declarations fuel w.
Proof.
  induction fuel as [|fuel IH]; intros k w Hf; [lia|]. cbn [Nat.add prepare_loop]. rewrite !prep_bind_eq. simpl.
  destruct (pending w) as [|id rest] eqn:Hp; [done|]. rewrite !prep_bind_eq. simpl.
  assert (owed w = S (owed (set_pending rest w))) as Ho by (unfold owed; rewrite Hp; simpl; lia).
  case_decide as Hid; [apply IH; simpl; lia|]. rewrite !prep_bind_eq. simpl.
  set (w1 := add_visited id (set_pending rest w)). rewrite !prep_bind_eq.
  destruct (functions !! id) as [f|] eqn:Hfn.
  2: { unfold prepare_function. by rewrite Hfn, !prep_bind_eq. }
  destruct (pushes_function id f Hfn w1) as [Hv Hle].
  destruct (prepare_function functions declarations id w1) as [[[]|e|] w2]; [|done..]. simpl in Hv, Hle.
  apply IH. rewrite Hv. pose proof (unvisited_visit id f (visited w) Hfn Hid).
  assert (owed w1 = owed (set_pending rest w)) by done. simpl. lia.
Qed.
End pushes.

Lemma argument_targets_owed `{Verifier} decls arguments : ∀ w w',
  argument_targets decls arguments w = Ok w' →
  visited w' = visited w ∧ owed w' ≤ owed w + length arguments.
Proof.
  induction arguments as [|v arguments IH]; intros w w' Ha; [injection Ha as <-; split; [done|simpl; lia]|].
  assert (∀ w1, visited w1 = visited w → owed w1 ≤ owed w + 1 → argument_targets decls arguments w1 = Ok w' →
    visited w' = visited w ∧ owed w' ≤ owed w + length (v :: arguments)) as Hstep.
  { intros w1 Hv Ho Hw. destruct (IH _ _ Hw). simpl. split; [congruence|lia]. }
  cbn [argument_targets] in Ha. repeat case_match; try (eapply Hstep; [done|lia|done]).
  apply bind_Ok in Ha as (d & _ & Ha). eapply Hstep; [| |exact Ha]; [done|].
  unfold owed. simpl. rewrite waiting_push. case_match; lia.
Qed.

(** The preparation of a run comes to the same end with any fuel above the one it is given. *)
Lemma prepare_fuel_enough `{Verifier} functions declarations decls function arguments w k :
  argument_targets decls arguments (mkWorklist [function] ∅ [] [] ∅ ∅) = Ok w →
  prepare_loop functions declarations (prepare_fuel functions arguments + k) w =
  prepare_loop functions declarations (prepare_fuel functions arguments) w.
Proof.
  intros Ha. destruct (argument_targets_owed _ _ _ _ Ha) as [Hv Ho]. apply prepare_loop_fuel.
  rewrite Hv. unfold prepare_fuel, unvisited, owed in *. simpl in *.
  rewrite map_filter_id by set_solver. lia.
Qed.
