(* ===== verification/Execution.v ===== *)
(** * What an execution keeps ([interpreter/mod.rs])

    The resource invariant of the machine, the step bound and the termination of the loop.

    Most of an iteration is [Respects quiet]: it keeps the call stack up to the progress of its
    frames.  The lemmas that show it are in the hint database [respects]; calls and returns, the two
    places that change the stack, are treated apart. *)
From S2P Require Export Interp.
Local Open Scope Z_scope.

Section memory.
Context {T : Type} `{FragmentTable T}.
Implicit Types m : Memory T.

(** ** The memory never forgets an allocation, revives one or turns a global into a local *)

Definition kept (a a' : Allocation T) : Prop :=
  (alive a' = true → alive a = true) ∧ (kind a = GlobalStore → kind a' = GlobalStore).

(** Without [fresh] there is no new allocation either. *)
Record mem_extends (fresh : bool) m m' : Prop := {
  extends_kept id a : allocations m !! id = Some a →
    ∃ a', allocations m' !! id = Some a' ∧ kept a a';
  extends_count : fresh = false → allocation_count m' = allocation_count m;
}.
#[export] Instance mem_extends_preorder fresh : PreOrder (mem_extends fresh).
Proof.
  split.
  - intros m. split; [|done]. intros id a Ha. exists a. split; [done|]. by split.
  - intros m1 m2 m3 [H1 C1] [H2 C2]. split; [|intros E; by rewrite C2, C1].
    intros id a (a2&Ha2&?&?)%H1. destruct (H2 id a2 Ha2) as (a3&?&?&?).
    exists a3. split; [done|]. split; auto.
Qed.

Lemma mem_extends_count fresh m m' :
  mem_extends fresh m m' → (allocation_count m ≤ allocation_count m')%nat.
Proof.
  intros [Hk _]. unfold allocation_count.
  destruct (decide (length (allocations m) = 0%nat)); [lia|].
  destruct (lookup_lt_is_Some_2 (allocations m) (length (allocations m) - 1)) as [a Ha]; [lia|].
  apply Hk in Ha as (a'&Ha'&_). apply lookup_lt_Some in Ha'. lia.
Qed.

Lemma mem_extends_same fresh m m' : allocations m' = allocations m → mem_extends fresh m m'.
Proof.
  intros Hm. split; [|intros _; unfold allocation_count; by rewrite Hm].
  intros id a Ha. rewrite Hm. exists a. split; [done|]. by split.
Qed.
Lemma grows_append f :
  (∀ m, ∃ l, allocations (f m) = allocations m ++ l) →
  Respects (mem_extends true) (modify (E := fault) f).
Proof.
  intros Hf m r m' [= _ <-]. destruct (Hf m) as [l Hl]. split; [|done].
  intros id a Ha. rewrite Hl. exists a. split; [by apply lookup_app_l_Some|]. by split.
Qed.
Lemma grows_update fresh id f : (∀ a, kept a (f a)) → Respects (mem_extends fresh) (update_allocation id f).
Proof.
  intros Hf m r m'. unfold update_allocation.
  destruct (allocations m !! id) as [a0|] eqn:E; intros [= _ <-]; [|done].
  split; [|intros _; unfold allocation_count; simpl; by rewrite length_insert].
  intros j a Ha. simpl. destruct (decide (id = j)) as [->|Hj].
  - rewrite list_lookup_insert_eq by (by eapply lookup_lt_Some). eexists. split; [done|].
    replace a with a0 by congruence. apply Hf.
  - rewrite list_lookup_insert_ne by done. exists a. split; [done|]. by split.
Qed.
Lemma grows_charge fresh n : Respects (mem_extends fresh) (charge n).
Proof.
  intros m r m'. unfold charge.
  destruct (checked_u 64 _) as [z|]; [case_match|]; intros [= _ <-]; try done.
  by apply mem_extends_same.
Qed.
End memory.
#[export] Hint Resolve grows_charge : respects.
#[export] Hint Extern 1 (Respects _ (reads _)) => apply respects_pure : respects.
#[export] Hint Extern 1 (Respects _ (allocation_at _)) => apply respects_pure : respects.
#[export] Hint Extern 1 (Respects _ (host_limit _ _)) => apply respects_when_err : respects.
#[export] Hint Extern 1 (Respects _ (trap_when _ _)) => apply respects_when_err : respects.
#[export] Hint Extern 1 (Respects _ (or_trap _ _)) => apply respects_pure : respects.
#[export] Hint Extern 2 (Respects (mem_extends _) (modify _)) =>
  apply respects_modify; intros ?; by apply mem_extends_same : respects.
#[export] Hint Extern 2 (Respects (mem_extends true) (modify _)) =>
  apply grows_append; intros ?; eexists; reflexivity : respects.
#[export] Hint Extern 1 (Respects _ (update_allocation _ _)) =>
  apply grows_update; intros ?; by split : respects.

Section memory_growth.
Context {T : Type} `{FragmentTable T}.

Lemma grows_replace_fragments fresh host id s e new : Respects (mem_extends (T := T) fresh) (replace_fragments host id s e new).
Proof. unfold replace_fragments. respects_auto. Qed.
Hint Resolve grows_replace_fragments : respects.
Lemma grows_write_data fresh id s e xs : Respects (mem_extends (T := T) fresh) (write_data id s e xs).
Proof. unfold write_data. respects_auto. Qed.
Lemma grows_write_initialized fresh id s e xs : Respects (mem_extends (T := T) fresh) (write_initialized id s e xs).
Proof. unfold write_initialized. respects_auto. Qed.
Hint Resolve grows_write_data grows_write_initialized : respects.
Lemma grows_write_bytes fresh id bytes : Respects (mem_extends (T := T) fresh) (write_bytes id bytes).
Proof. induction bytes as [|[at_ b] bytes IH]; simpl; respects_auto. Qed.
Hint Resolve grows_write_bytes : respects.
Lemma grows_retire_allocation fresh id : Respects (mem_extends (T := T) fresh) (retire_allocation id).
Proof. unfold retire_allocation. respects_auto. Qed.
Hint Resolve grows_retire_allocation : respects.
Lemma grows_retire_loop fresh n : ∀ id, Respects (mem_extends (T := T) fresh) (retire_loop id n).
Proof. induction n; intros id; simpl; respects_auto. Qed.
Hint Resolve grows_retire_loop : respects.

Lemma grows_allocate host size natural align : Respects (mem_extends (T := T) true) (allocate host size natural align).
Proof. unfold allocate. respects_auto. Qed.
Lemma grows_retire_stack fresh p n : Respects (mem_extends (T := T) fresh) (retire_stack p n).
Proof. unfold retire_stack. respects_auto. Qed.
Lemma grows_retire_from fresh n : Respects (mem_extends (T := T) fresh) (retire_from n).
Proof. unfold retire_from. respects_auto. Qed.
Lemma grows_uninit fresh host p n al : Respects (mem_extends (T := T) fresh) (uninit host p n al).
Proof. unfold uninit. respects_auto. Qed.
Lemma grows_store fresh host p t v al : Respects (mem_extends (T := T) fresh) (store host p t v al).
Proof. unfold store. respects_auto. Qed.
Lemma grows_load fresh p t al sig : Respects (mem_extends (T := T) fresh) (load_with_signature p t al sig).
Proof. unfold load_with_signature. respects_auto. Qed.
Lemma grows_copy fresh host d s n al : Respects (mem_extends (T := T) fresh) (mem_copy host d s n al).
Proof. unfold mem_copy. respects_auto. Qed.
Lemma grows_set fresh host d b n al : Respects (mem_extends (T := T) fresh) (mem_set host d b n al).
Proof. unfold mem_set. respects_auto. Qed.
End memory_growth.
#[export] Hint Resolve grows_allocate grows_retire_stack grows_retire_from grows_uninit grows_store
  grows_load grows_copy grows_set : respects.

(** ** Quiet computations: the call stack keeps its shape *)

(** What a frame keeps from its creation to its return. *)
Definition shape_of (f : Frame) : FunctionId * nat * option ValueId * option ExecutionSite :=
  (frame_function f, allocation_start f, return_destination f, call_site f).

Section quiet.
Context {T : Type} `{FragmentTable T} `{Verifier}.
Implicit Types s : Machine T.

Record quiet (limit : Z) s s' : Prop := {
  quiet_frames : shape_of <$> frames s' = shape_of <$> frames s;
  quiet_created : frames_created s' = frames_created s;
  quiet_live : live_values s' = live_values s;
  quiet_steps : steps s ≤ steps s' ∧ (steps s ≤ limit → steps s' ≤ limit);
  quiet_memory : mem_extends true (memory s) (memory s');
}.
#[export] Instance quiet_preorder limit : PreOrder (quiet limit).
Proof.
  split.
  - intros s. by split.
  - intros s1 s2 s3 [?? ? [? ?] ?] [?? ? [? ?] ?].
    split; [congruence..|split; [lia|auto]|by etrans].
Qed.

Lemma quiet_on_memory {A} limit site (op : mem T A) :
  Respects (mem_extends true) op → Respects (quiet limit) (on_memory site op).
Proof.
  intros Hop s r s'. unfold on_memory. destruct (op (memory s)) as [x m] eqn:E.
  intros [= _ <-]. apply Hop in E. split; try done; split; done.
Qed.
Lemma quiet_update_top limit f : (∀ x, shape_of (f x) = shape_of x) → Respects (quiet limit) (update_top f).
Proof.
  intros Hf s r s'. unfold update_top. destruct (frames s) as [|x rest] eqn:E; intros [= _ <-].
  - done.
  - split; try done. cbn [set_frames frames]. rewrite E. csimpl. by rewrite Hf.
Qed.
Lemma quiet_charge prog site :
  Respects (quiet (max_steps (options prog))) (charge_step prog site).
Proof.
  intros s r s'. unfold charge_step. case_match eqn:E; intros [= _ <-]; [done|].
  apply Z.leb_gt in E. split; try done; simpl. lia.
Qed.
End quiet.
#[export] Hint Resolve quiet_on_memory quiet_charge : respects.
#[export] Hint Extern 1 (Respects _ top) => apply respects_pure : respects.
#[export] Hint Extern 1 (Respects _ (trap_at _ _)) => apply respects_pure : respects.
#[export] Hint Extern 1 (Respects _ (or_trap_at _ _)) => apply respects_pure : respects.
#[export] Hint Extern 1 (Respects _ (host_grants _ _ _)) => apply respects_when_err : respects.
#[export] Hint Extern 1 (Respects _ (operand _ _)) => unfold operand : respects.
#[export] Hint Extern 1 (Respects (quiet _) (update_top _)) =>
  apply quiet_update_top; reflexivity : respects.
#[export] Hint Extern 1 (Respects _ (reserve_values _ _ _)) => apply respects_pure : respects.

Section arms.
Context {T : Type} `{FragmentTable T} `{Verifier}.
Context (prog : Program).
Notation limit := (max_steps (options prog)).

Lemma quiet_scalar_operand l vs id : Respects (quiet (T := T) l) (scalar_operand vs id).
Proof. unfold scalar_operand. auto with respects. Qed.
Lemma quiet_pointer_operand l vs id : Respects (quiet (T := T) l) (pointer_operand vs id).
Proof. unfold pointer_operand. auto with respects. Qed.
Lemma quiet_boolean_operand l vs id : Respects (quiet (T := T) l) (boolean_operand vs id).
Proof. unfold boolean_operand. auto with respects. Qed.
Hint Resolve quiet_scalar_operand quiet_pointer_operand quiet_boolean_operand : respects.
Lemma quiet_operands l vs ids : Respects (quiet (T := T) l) (operands vs ids).
Proof. induction ids; simpl; respects_auto. Qed.
Hint Resolve quiet_operands : respects.
Lemma quiet_resolve_callee l vs at_ c : Respects (quiet (T := T) l) (resolve_callee prog vs at_ c).
Proof. unfold resolve_callee. respects_auto. Qed.
Hint Resolve quiet_resolve_callee : respects.

Lemma quiet_read_phis f insts : ∀ i, Respects (quiet (T := T) limit) (read_phis prog f i insts).
Proof. induction insts as [|inst insts IH]; intros i; simpl; [|destruct inst]; respects_auto. Qed.
Hint Resolve quiet_read_phis : respects.
Lemma quiet_enter_block host f b : Respects (quiet (T := T) limit) (enter_block prog host f b).
Proof. unfold enter_block. respects_auto. Qed.

Lemma quiet_exec_reference l p vs key at_ i : Respects (quiet (T := T) l) (exec_reference prog p vs key at_ i).
Proof. unfold exec_reference. respects_auto. Qed.
Lemma quiet_exec_gep l p vs key at_ b is_ : Respects (quiet (T := T) l) (exec_gep p vs key at_ b is_).
Proof. unfold exec_gep. respects_auto. Qed.
Lemma quiet_exec_checked l vs at_ op t x y : Respects (quiet (T := T) l) (exec_checked vs at_ op t x y).
Proof. unfold exec_checked. respects_auto. Qed.
Lemma quiet_exec_extract l vs v i : Respects (quiet (T := T) l) (exec_extract vs v i).
Proof. unfold exec_extract. respects_auto. Qed.
Lemma quiet_exec_bin l vs at_ op t x y : Respects (quiet (T := T) l) (exec_bin vs at_ op t x y).
Proof. unfold exec_bin. respects_auto. Qed.
Lemma quiet_exec_cmp l vs at_ op t x y : Respects (quiet (T := T) l) (exec_cmp vs at_ op t x y).
Proof. unfold exec_cmp. respects_auto. Qed.
Lemma quiet_exec_icmp l vs at_ op t x y : Respects (quiet (T := T) l) (exec_icmp vs at_ op t x y).
Proof. unfold exec_icmp. respects_auto. Qed.
Lemma quiet_exec_cast l vs at_ op t t' x : Respects (quiet (T := T) l) (exec_cast vs at_ op t t' x).
Proof. unfold exec_cast. respects_auto. Qed.
Lemma quiet_neg_operand l t v : Respects (quiet (T := T) l) (neg_operand t v).
Proof. unfold neg_operand. respects_auto. Qed.
Lemma quiet_exec_memory l host f p vs key at_ i :
  Respects (quiet (T := T) l) (exec_memory host f p vs key at_ i).
Proof. unfold exec_memory. respects_auto. Qed.
Lemma quiet_exec_trap_if l vs at_ c r : Respects (quiet (T := T) l) (exec_trap_if vs at_ c r).
Proof. unfold exec_trap_if. respects_auto. Qed.
Lemma quiet_branch_target l vs at_ t : Respects (quiet (T := T) l) (branch_target vs at_ t).
Proof. unfold branch_target. respects_auto. Qed.
End arms.
#[export] Hint Resolve quiet_scalar_operand quiet_pointer_operand quiet_boolean_operand
  quiet_operands quiet_resolve_callee quiet_read_phis quiet_enter_block quiet_exec_reference
  quiet_exec_gep quiet_exec_checked quiet_exec_extract quiet_exec_bin quiet_exec_cmp
  quiet_exec_icmp quiet_exec_cast quiet_neg_operand quiet_exec_memory quiet_exec_trap_if
  quiet_branch_target : respects.

(** ** The resource invariant *)

Section invariant.
Context {T : Type} `{FragmentTable T} `{Verifier}.
Context (prog : Program).
Notation limit := (max_steps (options prog)).
Implicit Types s : Machine T.

(** The slots a frame reserves. *)
Definition frame_capacity (f : Frame) : nat :=
  match prog_prepared prog !! frame_function f with Some p => value_capacity p | None => 0%nat end.
Definition capacity (fs : list Frame) : Z := Z.of_nat (sum_list_with frame_capacity fs).

(** The chain of frames: the allocations of a callee start above those of its caller, and
    every frame but the entry records its caller. *)
Fixpoint chained (count : nat) (fs : list Frame) : Prop :=
  match fs with
  | [] => True
  | f :: fs =>
      (allocation_start f ≤ count)%nat ∧ (is_Some (call_site f) ↔ fs ≠ []) ∧
      chained (allocation_start f) fs
  end.

Record machine_ok s : Prop := {
  ok_depth : Z.of_nat (length (frames s)) ≤ max_call_depth (options prog);
  ok_created : Z.of_nat (length (frames s)) ≤ frames_created s ≤ max_frames (options prog);
  ok_live : live_values s = capacity (frames s) ∧ live_values s ≤ max_live_values (options prog);
  ok_steps : 0 ≤ steps s ≤ limit;
  ok_chain : chained (allocation_count (memory s)) (frames s);
}.

Lemma fmap_shape_cons f fs f' fs' :
  shape_of <$> f' :: fs' = shape_of <$> f :: fs →
  frame_function f' = frame_function f ∧ allocation_start f' = allocation_start f ∧
  call_site f' = call_site f ∧ shape_of <$> fs' = shape_of <$> fs.
Proof. rewrite !fmap_cons. by intros [= ?? _ ? ?]. Qed.

Lemma shape_capacity fs fs' : shape_of <$> fs' = shape_of <$> fs → capacity fs' = capacity fs.
Proof.
  unfold capacity. intros E. f_equal. revert fs' E.
  induction fs as [|f fs IH]; intros [|f' fs'] E; try done.
  apply fmap_shape_cons in E as (Ef&_&_&E). simpl.
  assert (frame_capacity f' = frame_capacity f) as -> by (unfold frame_capacity; by rewrite Ef). auto.
Qed.
Lemma chained_mono n n' fs : (n ≤ n')%nat → chained n fs → chained n' fs.
Proof. destruct fs; [done|]. intros ? (?&?&?). split_and!; [lia|done..]. Qed.
Lemma shape_chained fs : ∀ fs' n, shape_of <$> fs' = shape_of <$> fs → chained n fs → chained n fs'.
Proof.
  induction fs as [|f fs IH]; intros [|f' fs'] n E; try done. intros (?&?&Hc). simpl.
  apply fmap_shape_cons in E as (_&->&->&E).
  split; [done|]. split; [|by apply IH]. destruct fs, fs'; try discriminate E; naive_solver.
Qed.
Lemma shape_length fs fs' : shape_of <$> fs' = shape_of <$> fs → length fs' = length fs.
Proof. intros E. by apply (f_equal length) in E; rewrite !length_fmap in E. Qed.

Lemma quiet_machine_ok s s' : quiet limit s s' → machine_ok s → machine_ok s'.
Proof.
  intros [Hf Hc Hl [Hs1 Hs2] Hm] []. apply mem_extends_count in Hm.
  split.
  - by rewrite (shape_length _ _ Hf).
  - by rewrite (shape_length _ _ Hf), Hc.
  - by rewrite (shape_capacity _ _ Hf), Hl.
  - lia.
  - eapply shape_chained; [done|]. by eapply chained_mono.
Qed.

(** ** Calls and returns *)

(** A call: the state [s'] has the new frame [f] on top of the frames of [s]. *)
Record enters (f : Frame) s s' : Prop := {
  enters_frames : shape_of <$> frames s' = shape_of f :: (shape_of <$> frames s);
  enters_depth : Z.of_nat (length (frames s)) < max_call_depth (options prog);
  enters_created : frames_created s < max_frames (options prog) ∧
    frames_created s' = frames_created s + 1;
  enters_live : live_values s' = live_values s + Z.of_nat (frame_capacity f) ∧
    live_values s' ≤ max_live_values (options prog);
  enters_steps : steps s ≤ steps s' ∧ (steps s ≤ limit → steps s' ≤ limit);
  enters_memory : mem_extends true (memory s) (memory s');
  enters_start : (allocation_start f ≤ allocation_count (memory s'))%nat ∧
    (allocation_count (memory s) ≤ allocation_start f)%nat;
  enters_site : is_Some (call_site f);
}.

(** What an arm of the iteration does: it is quiet, or pushes a frame. *)
Definition progresses s s' : Prop := quiet limit s s' ∨ ∃ f, enters f s s'.

Lemma progresses_refl s : progresses s s.
Proof. left. reflexivity. Qed.

Lemma quiet_progresses s s' s'' : quiet limit s s' → progresses s' s'' → progresses s s''.
Proof.
  intros Hq [Hq'|[f [Hf' ? Hc' [? ?] [??] ? [??] ?]]]; [left; by etrans|right].
  destruct Hq as [Hf Hc Hl [??] Hm]. pose proof (mem_extends_count _ _ _ Hm).
  exists f. split; try done; rewrite <- ?(shape_length _ _ Hf), <- ?Hc, <- ?Hl, <- ?Hf; try done.
  - split; [lia|auto].
  - by etrans.
  - lia.
Qed.

Lemma progresses_quiet s s' s'' : progresses s s' → quiet limit s' s'' → progresses s s''.
Proof.
  intros [Hq'|[f [Hf' ? Hc' [? ?] [??] ? [??] ?]]] Hq; [left; by etrans|right].
  destruct Hq as [Hf Hc Hl [??] Hm]. pose proof (mem_extends_count _ _ _ Hm).
  exists f. split; try done; rewrite ?Hc, ?Hl, ?Hf; try done.
  - split; [lia|auto].
  - by etrans.
  - lia.
Qed.

Lemma enters_ok f s s' : frames s ≠ [] → enters f s s' → machine_ok s → machine_ok s'.
Proof.
  intros Hne [Hf ? [? Hc] [??] [??] Hm [??] Hsite] [D C [L L'] S Ch].
  destruct (frames s') as [|g rest] eqn:Hs'; [done|].
  rewrite fmap_cons in Hf. injection Hf as Hg Hb Hr Hd Hrest.
  pose proof (shape_length _ _ Hrest) as Hlen.
  split; rewrite ?Hs', ?Hc; simpl; [lia|lia| |lia|].
  - assert (frame_capacity g = frame_capacity f) as Hcap by (unfold frame_capacity; by rewrite Hg).
    unfold capacity in *. simpl. rewrite Hcap, Nat2Z.inj_add. fold (capacity rest).
    rewrite (shape_capacity _ _ Hrest). unfold capacity. lia.
  - split; [lia|]. split; [|eapply shape_chained; [done|]; eapply chained_mono; [|done]; lia].
    rewrite Hd. split; [|done]. intros _ ->. simpl in Hlen. by destruct (frames s).
Qed.

Lemma run_bind_eq {A B} (m : run (T := T) A) (k : A → run B) s :
  (m ≫= k) s = match m s with
               | (Ok a, s') => k a s'
               | (Err e, s') => (Err e, s')
               | (Panic, s') => (Panic, s')
               end.
Proof. done. Qed.

Lemma when_err_Ok {E} b (e : E) (s : Machine T) r s' :
  when_err b e s = (Ok r, s') → b = false ∧ s' = s.
Proof. destruct b; by intros [= _ <-]. Qed.
Lemma operands_pure vs ids : ∀ s r s', operands vs ids s = (r, s') → s' = s.
Proof.
  induction ids as [|id ids IH]; intros s r s'; simpl; [by intros [= _ <-]|].
  rewrite run_bind_eq. unfold operand, lift. destruct (expect _); [|by intros [= _ <-]..].
  rewrite run_bind_eq. destruct (operands vs ids s) as [[] ] eqn:E; apply IH in E as ->;
    by intros [= _ <-].
Qed.
Lemma resolve_callee_pure vs at_ c s r s' : resolve_callee prog vs at_ c s = (r, s') → s' = s.
Proof.
  unfold resolve_callee. destruct c; [by intros [= _ <-]|].
  rewrite run_bind_eq. unfold operand, lift. destruct (expect _) as [x| |]; [|by intros [= _ <-]..].
  destruct x as [| | |p]; try by intros [= _ <-]. destruct (fp_target p); [|case_decide|];
    by intros [= _ <-].
Qed.
Lemma reserve_values_Ok at_ n s z s' :
  reserve_values prog at_ n s = (Ok z, s') →
  s' = s ∧ z = live_values s + Z.of_nat n ∧ z ≤ max_live_values (options prog).
Proof.
  unfold reserve_values. destruct (checked_u 64 _) as [x|] eqn:E; [|done].
  unfold guard_err. destruct (x <=? _) eqn:Hx; simpl; intros [= <- <-].
  apply Z.leb_le in Hx. unfold checked_u in E. by destruct (in_u _ _); simplify_eq.
Qed.

Lemma quiet_callee_frame host depth vs at_ callee args dst :
  Respects (quiet limit) (callee_frame (T := T) prog host depth vs at_ callee args dst).
Proof. unfold callee_frame. respects_auto. Qed.

Lemma callee_frame_Ok host depth vs at_ callee args dst s f z s' :
  callee_frame prog host depth vs at_ callee args dst s = (Ok (f, z), s') →
  s' = s ∧ Z.of_nat depth < max_call_depth (options prog) ∧
  frames_created s < max_frames (options prog) ∧
  z = live_values s + Z.of_nat (frame_capacity f) ∧ z ≤ max_live_values (options prog) ∧
  ∃ target child arguments,
    resolve_callee prog vs at_ callee s = (Ok target, s) ∧
    prog_prepared prog !! target = Some child ∧
    operands vs (take (length (function_params (p_fun child))) args) s = (Ok arguments, s) ∧
    f = mkFrame target (new_frame_values (p_fun child) arguments) (entry (p_fun child)) None 0
          (allocation_count (memory s)) dst (Some at_).
Proof.
  unfold callee_frame. intros (target&s1&Ht&E)%stm_bind_Ok.
  assert (s1 = s) as -> by by eapply resolve_callee_pure.
  apply stm_bind_Ok in E as (?&?&[= <- <-]&E).
  apply stm_bind_Ok in E as (?&s2&[Hd ->]%when_err_Ok&E).
  apply stm_bind_Ok in E as (?&s2&[Hf ->]%when_err_Ok&E).
  apply stm_bind_Ok in E as (child&s2&Hc&E). unfold lift in Hc.
  injection Hc as Hc <-. apply expect_Ok in Hc.
  apply stm_bind_Ok in E as (n&s2&(->&Hn&Hle)%reserve_values_Ok&E).
  apply stm_bind_Ok in E as (?&s2&[_ ->]%when_err_Ok&E).
  apply stm_bind_Ok in E as (arguments&s2&Ha&E).
  assert (s2 = s) as -> by by eapply operands_pure.
  apply stm_bind_Ok in E as (?&s2&[_ ->]%when_err_Ok&E). injection E as <- <- <-.
  apply Z.leb_gt in Hd, Hf. unfold frame_capacity. cbn [frame_function]. rewrite Hc.
  split_and!; try done. by exists target, child, arguments.
Qed.

Lemma progresses_exec_call host vs at_ callee args dst s r s' :
  exec_call prog host (length (frames s)) vs at_ callee args dst s = (r, s') → progresses s s'.
Proof.
  unfold exec_call. rewrite run_bind_eq.
  destruct (callee_frame _ _ _ _ _ _ _ _ s) as [[[f z]|e|] s1] eqn:E.
  2, 3: intros [= _ <-]; left; by eapply quiet_callee_frame.
  apply callee_frame_Ok in E as (->&Hd&Hf&->&Hle&target&child&arguments&_&Hc&_&->).
  intros [= _ <-]. right. eexists. split; done.
Qed.

Lemma progresses_execute host f p key at_ inst s r s' :
  execute prog host (length (frames s)) f p key at_ inst s = (r, s') → progresses s s'.
Proof.
  assert (Hq : ∀ op : run (option value), Respects (quiet limit) op → op s = (r, s') → progresses s s').
  { intros op Hop E. left. by eapply Hop. }
  unfold execute. destruct inst; try (apply Hq; solve [respects_auto | unfold exec_value; respects_auto]).
  rewrite run_bind_eq. destruct (exec_call _ _ _ _ _ _ _ _ s) as [x s1] eqn:E.
  apply progresses_exec_call in E. destruct x; by intros [= _ <-].
Qed.

(** A return: the frame [f] is popped and its locals are dead. *)
Record leaves (f : Frame) s s' : Prop := {
  leaves_frames : shape_of <$> frames s = shape_of f :: (shape_of <$> frames s');
  leaves_created : frames_created s' = frames_created s;
  leaves_live : live_values s' = live_values s - Z.of_nat (frame_capacity f);
  leaves_steps : steps s ≤ steps s' ∧ (steps s ≤ limit → steps s' ≤ limit);
  leaves_memory : mem_extends true (memory s) (memory s');
  leaves_dead id a : (allocation_start f ≤ id)%nat → allocations (memory s') !! id = Some a →
    kind a = Stack → alive a = false;
}.

Lemma leaves_ok f s s' : leaves f s s' → machine_ok s → machine_ok s'.
Proof.
  intros [Hf Hc Hl [??] Hm _] [D C [L L'] S Ch]. apply mem_extends_count in Hm.
  destruct (frames s) as [|g rest] eqn:Hs; [done|].
  rewrite fmap_cons in Hf. injection Hf as Hg Hb Hr Hd Hrest.
  pose proof (shape_length _ _ Hrest) as Hlen. simpl in D, C, Ch, L.
  assert (frame_capacity g = frame_capacity f) as Hcap by (unfold frame_capacity; by rewrite Hg).
  split.
  - lia.
  - lia.
  - unfold capacity in *. simpl in L. rewrite Hcap in L.
    apply shape_capacity in Hrest. unfold capacity in Hrest. lia.
  - lia.
  - destruct Ch as (?&_&Ch). eapply shape_chained; [by symmetry|].
    eapply chained_mono; [|done]. lia.
Qed.

Definition moves s s' : Prop := progresses s s' ∨ ∃ f, leaves f s s'.
Lemma quiet_moves s s' s'' : quiet limit s s' → moves s' s'' → moves s s''.
Proof.
  intros Hq [Hp|[f [Hf Hc Hl [??] Hm ?]]]; [left; by eapply quiet_progresses|right].
  destruct Hq as [Hf' Hc' Hl' [??] Hm']. exists f.
  split; try congruence; [split; [lia|auto]|by etrans|done].
Qed.
Lemma moves_quiet s s' s'' : moves s s' → quiet limit s' s'' → memory s'' = memory s' → moves s s''.
Proof.
  intros [Hp|[f [Hf Hc Hl [??] Hm Hdead]]] Hq Hmem; [left; by eapply progresses_quiet|right].
  destruct Hq as [Hf' Hc' Hl' [??] Hm']. exists f.
  split; try congruence; [split; [lia|auto]|by rewrite Hmem].
Qed.
End invariant.

(** ** Retirement *)

Section retirement.
Context {T : Type} `{FragmentTable T}.
Implicit Types m : Memory T.

(** Every stack allocation from [start] up to [stop] is dead. *)
Definition dead_between (start stop : nat) m : Prop := ∀ id a,
  (start ≤ id < stop)%nat → allocations m !! id = Some a → kind a = Stack → alive a = false.

Lemma dead_extends start stop m m' :
  mem_extends false m m' → dead_between start stop m → dead_between start stop m'.
Proof.
  intros [Hk Hc] Hd id a' Hid Ha' Hs. specialize (Hc eq_refl). unfold allocation_count in Hc.
  destruct (lookup_lt_is_Some_2 (allocations m) id) as [a Ha].
  { rewrite <- Hc. by eapply lookup_lt_Some. }
  destruct (Hk id a Ha) as (a''&Ha''&Hal&Hg). simplify_eq.
  destruct (alive a') eqn:E; [|done]. rewrite <- (Hal eq_refl). apply (Hd id); [done..|].
  destruct (kind a); [done|]. by rewrite Hg in Hs.
Qed.

Lemma retire_allocation_dead id m m' :
  retire_allocation id m = (Ok tt, m') → dead_between id (S id) m'.
Proof.
  unfold retire_allocation, mbind, stm_bind, allocation_at. intros E j a' Hj Ha' _.
  assert (j = id) as -> by lia.
  destruct (allocations m !! id) as [a|] eqn:Ha; simpl in E; [|done].
  destruct (alive a) eqn:Hal; [|by injection E as <-; simplify_eq].
  unfold lift, get, modify in E. destruct (debug_u 64 _) as [n| |]; try done.
  unfold update_allocation in E. cbn in E. rewrite Ha in E. injection E as <-.
  cbn in Ha'. rewrite list_lookup_insert_eq in Ha' by (by eapply lookup_lt_Some).
  by injection Ha' as <-.
Qed.

Lemma retire_loop_dead count : ∀ id m m',
  retire_loop id count m = (Ok tt, m') → dead_between id (id + count) m'.
Proof.
  induction count as [|count IH]; intros id m m' E.
  - intros j ? ?. lia.
  - cbn [retire_loop] in E. unfold mbind at 1, stm_bind at 1, allocation_at in E.
    destruct (allocations m !! id) as [a|] eqn:Ha; simpl in E; [|done].
    unfold mbind, stm_bind in E.
    destruct ((if decide (kind a = Stack) then retire_allocation id else mret tt) m) as [[[]|?|] m1]
      eqn:E1; try done.
    assert (Hdead : dead_between id (S id) m1).
    { case_decide as Hk; [by eapply retire_allocation_dead|]. injection E1 as <-.
      intros j a' ? Ha'. assert (j = id) as -> by lia. by simplify_eq. }
    pose proof (grows_retire_loop false count (S id) _ _ _ E) as Hg.
    eapply dead_extends in Hdead; [|done]. apply IH in E.
    intros j a' Hj. destruct (decide (j = id)) as [->|?].
    + apply Hdead. lia.
    + apply E. lia.
Qed.

Lemma retire_from_dead start m m' :
  retire_from start m = (Ok tt, m') → dead_between start (allocation_count m') m'.
Proof.
  intros E. assert (Hg := grows_retire_from false start m _ _ E).
  unfold retire_from, mbind, stm_bind, get, lift in E. destruct (debug_u 64 _) as [n| |]; try done.
  pose proof (grows_charge (T := T) false n m) as Hch.
  destruct (charge n m) as [[[]|?|] m1] eqn:E1; try done.
  specialize (Hch _ _ eq_refl). destruct Hg as [_ Hg]. rewrite (Hg eq_refl).
  apply retire_loop_dead in E. intros j a ? ?. eapply E; [|done].
  unfold allocation_count in *. destruct (decide (start ≤ length (allocations m))%nat); [lia|].
  assert (length (allocations m') = length (allocations m)) by by apply Hg.
  apply lookup_lt_Some in H1. lia.
Qed.
End retirement.

(** ** One iteration *)

Section iteration.
Context {T : Type} `{FragmentTable T} `{Verifier}.
Context (prog : Program).
Notation limit := (max_steps (options prog)).
Implicit Types s : Machine T.

Lemma charge_step_Ok site s r s' :
  charge_step prog site s = (Ok r, s') → steps s' = steps s + 1 ∧ steps s < limit.
Proof.
  unfold charge_step. case_match eqn:E; intros [= _ <-]. apply Z.leb_gt in E. done.
Qed.

(** The steps after [s], and where an iteration that succeeds gets. *)
Definition advances {A} s (r : result interp_error A) s' : Prop :=
  (∀ x, r = Ok x → steps s < steps s').

Lemma advances_failed {A} s (r : result interp_error A) s' : ¬ is_ok r = true → advances s r s'.
Proof. intros Hr x ->. by destruct Hr. Qed.

Lemma moves_steps s s' : moves prog s s' → steps s ≤ steps s'.
Proof.
  intros [[Hq|[f He]]|[f Hl]];
    [apply (quiet_steps _ _ _ Hq)|apply (enters_steps _ _ _ _ He)|apply (leaves_steps _ _ _ _ Hl)].
Qed.

(** The states between two computations. *)
Lemma bind_cases {A B} (op : run (T := T) A) (k : A → run B) s r s' :
  (op ≫= k) s = (r, s') →
  (∃ a s1, op s = (Ok a, s1) ∧ k a s1 = (r, s')) ∨
  (∃ r1, op s = (r1, s') ∧ ¬ is_ok r1 = true ∧ ¬ is_ok r = true).
Proof.
  rewrite run_bind_eq. destruct (op s) as [[a|e|] s1]; [by left; eauto|right..].
  - injection H1 as <- <-. by exists (Err e).
  - injection H1 as <- <-. by exists Panic.
Qed.

Lemma instruction_step_moves host p block inst s r s' :
  instruction_step prog host (length (frames s)) p block inst s = (r, s') →
  moves prog s s' ∧ advances s r s'.
Proof.
  unfold instruction_step. intros E.
  apply bind_cases in E as [(f&s1&Hf&E)|(r1&Hf&?&Hr)].
  2: { unfold top in Hf. injection Hf as _ <-. split; [left; apply progresses_refl|].
       by apply advances_failed. }
  unfold top in Hf. injection Hf as _ <-.
  assert (Hup : Respects (quiet limit) (update_top (T := T) (set_instruction (S (frame_instruction f)))))
    by auto with respects.
  apply bind_cases in E as [(u&s1&Hu&E)|(r1&Hu&?&Hr)]; apply Hup in Hu as Hq.
  2: { split; [by left; left|]. by apply advances_failed. }
  assert (Hlen : length (frames s1) = length (frames s)) by apply (shape_length _ _ (quiet_frames _ _ _ Hq)).
  rewrite <- Hlen in E.
  apply bind_cases in E as [(u'&s2&Hc&E)|(r1&Hc&?&Hr)]; apply quiet_charge in Hc as Hq2.
  2: { split; [left; left; by etrans|]. by apply advances_failed. }
  apply charge_step_Ok in Hc as [Hs2 _].
  assert (Hlen2 : length (frames s2) = length (frames s1))
    by apply (shape_length _ _ (quiet_frames _ _ _ Hq2)).
  rewrite <- Hlen2 in E. assert (Hq' : quiet limit s s2) by by etrans.
  assert (Hlt : steps s < steps s2) by (destruct Hq as [_ _ _ [? _] _]; lia).
  apply bind_cases in E as [(v&s3&Hx&E)|(r1&Hx&?&Hr)]; apply progresses_execute in Hx as Hp.
  2: { split; [left; by eapply quiet_progresses|]. by apply advances_failed. }
  assert (Hq3 : quiet limit s3 s').
  { destruct v as [v|]; [|by injection E as _ <-].
    assert (Hq3 : Respects (quiet (T := T) limit) (dst ← lift (expect (destination inst)); update_top (insert_value dst v)))
      by respects_auto. by eapply Hq3. }
  assert (Hm : progresses prog s2 s') by by eapply progresses_quiet.
  split; [left; by eapply quiet_progresses|]. intros x _.
  enough (steps s2 ≤ steps s') by lia. apply moves_steps. by left.
Qed.

(** The slots that [exec_return] gives back are there. *)
Lemma capacity_returned s f rest :
  max_live_values (options prog) < 2 ^ 64 → machine_ok prog s → frames s = f :: rest →
  @debug_u interp_error 64 (live_values s - Z.of_nat (frame_capacity prog f)) =
    Ok (live_values s - Z.of_nat (frame_capacity prog f)).
Proof.
  intros Hmax [_ _ [L L'] _ _] Hf. rewrite Hf in L. unfold capacity in L. simpl in L.
  unfold debug_u, checked_u, in_u.
  rewrite (proj2 (Z.leb_le 0 _)), (proj2 (Z.ltb_lt _ _)) by lia. done.
Qed.

Lemma exec_return_moves p f rest at_ v s r s' :
  max_live_values (options prog) < 2 ^ 64 → machine_ok prog s →
  frames s = f :: rest → prog_prepared prog !! frame_function f = Some p →
  exec_return prog p f at_ v s = (r, s') →
  moves prog s s' ∧ (∀ x, r = Ok (Some x) → frames s' = [] ∧ runtime_steps x = steps s').
Proof.
  intros Hmax Hok Hf Hp E. unfold exec_return in E.
  apply bind_cases in E as [(x&s1&Hx&E)|(r1&Hx&?&Hr)].
  2: { split; [|intros ? ->; by destruct Hr]. left. left.
       assert (Hq : Respects (quiet (T := T) limit) (match v with
         | Some id => x ← operand (frame_values f) id; mret (Some x) | None => mret None end))
         by (destruct v; respects_auto). by eapply Hq. }
  assert (s1 = s) as ->.
  { destruct v; [|by injection Hx as _ <-]. apply stm_bind_Ok in Hx as (?&?&Ho&[= _ <-]).
    by injection Ho as _ <-. }
  apply bind_cases in E as [([]&s1&Hm&E)|(r1&Hm&?&Hr)].
  2: { split; [|intros ? ->; by destruct Hr]. left. left.
       eapply (quiet_on_memory limit at_); [|exact Hm]. apply grows_retire_from. }
  unfold on_memory in Hm. destruct (retire_from (allocation_start f) (memory s)) as [x' m1] eqn:Er.
  injection Hm as Hx' <-. destruct x' as [[]| |]; try done.
  assert (Hgrow := grows_retire_from true _ _ _ _ Er). apply retire_from_dead in Er.
  assert (Hcap : frame_capacity prog f = value_capacity p) by (unfold frame_capacity; by rewrite Hp).
  pose proof (capacity_returned s f rest Hmax Hok Hf) as Hlive. rewrite Hcap in Hlive.
  unfold mbind, stm_bind, get, modify, lift in E. cbn [live_values set_memory] in E.
  rewrite Hlive in E. unfold set_live, set_frames, set_memory in E. rewrite Hf in E. cbn in E.
  set (s2 := mkMachine m1 rest (frames_created s) (live_values s - Z.of_nat (value_capacity p)) (steps s)) in *.
  assert (Hl : leaves prog f s s2).
  { split; try done.
    - by rewrite Hf.
    - cbn. by rewrite Hcap.
    - intros id a Hid Ha. apply (Er id); [|done]. apply lookup_lt_Some in Ha.
      unfold allocation_count. cbn in Ha. lia. }
  destruct rest as [|g rest']; [|split].
  - injection E as <- <-. split; [right; by exists f|]. by intros ? [= <-].
  - destruct (return_destination f) as [dst|]; [|injection E as _ <-; right; by exists f].
    destruct x as [x|]; cbn in E; injection E as _ <-; [|right; by exists f].
    eapply moves_quiet; [right; by exists f| |done].
    split; done.
  - destruct (return_destination f) as [dst|]; [|by injection E as <- _].
    destruct x as [x|]; cbn in E; by injection E as <- _.
Qed.

(** A failed prefix of a computation is quiet here and advances nothing. *)
Ltac failed Hr :=
  split; [by left; left|split; [by apply advances_failed|intros ? ->; by destruct Hr]].

Lemma terminator_step_moves p f rest block s r s' :
  max_live_values (options prog) < 2 ^ 64 → machine_ok prog s →
  frames s = f :: rest → prog_prepared prog !! frame_function f = Some p →
  terminator_step prog p block s = (r, s') →
  moves prog s s' ∧ advances s r s' ∧
  (∀ x, r = Ok (Some x) → frames s' = [] ∧ runtime_steps x = steps s').
Proof.
  intros Hmax Hok Hf Hp E. unfold terminator_step in E.
  apply bind_cases in E as [(f'&s1&Ht&E)|(r1&Ht&?&Hr)]; unfold top in Ht; injection Ht as Ht <-;
    [|failed Hr].
  rewrite Hf in Ht. injection Ht as <-.
  apply bind_cases in E as [([]&s1&Hc&E)|(r1&Hc&?&Hr)]; apply quiet_charge in Hc as Hq;
    [|failed Hr].
  assert (Hf1 : frames s1 = f :: rest).
  { unfold charge_step in Hc. case_match; by simplify_eq. }
  assert (Hok1 : machine_ok prog s1) by by eapply quiet_machine_ok.
  apply charge_step_Ok in Hc as [Hs _].
  assert (Hfinal : ∀ op : run (T := T) (option RuntimeInterpreterResult),
    Respects (quiet limit) op → op s1 = (r, s') → (∀ x, r ≠ Ok (Some x)) →
    moves prog s s' ∧ advances s r s' ∧
    (∀ x, r = Ok (Some x) → frames s' = [] ∧ runtime_steps x = steps s')).
  { intros op Hop Eop Hnone. apply Hop in Eop. split; [left; left; by etrans|].
    split; [|by intros x ?%Hnone]. intros x _. destruct Eop as [_ _ _ [? _] _]. lia. }
  assert (Hbranch : ∀ t,
    (next ← branch_target (frame_values f) (site_in f (length (instructions block)) None) t;
     _ ← update_top (jump next); mret None) s1 = (r, s') →
    moves prog s s' ∧ advances s r s' ∧
    (∀ x, r = Ok (Some x) → frames s' = [] ∧ runtime_steps x = steps s')).
  { intros t Et. eapply Hfinal; [|exact Et|]; [respects_auto|]. intros x ->.
    apply stm_bind_Ok in Et as (?&?&_&Et). by apply stm_bind_Ok in Et as (?&?&_&[= ]). }
  destruct (block_terminator block) as [t|].
  2: { eapply (Hfinal (lift Panic)); [auto with respects|exact E|]. intros x ->. done. }
  rewrite run_bind_eq in E. unfold lift in E. cbn [expect] in E.
  destruct t as [| | |rt v|]; try (by eapply Hbranch).
  eapply exec_return_moves in E as [Hm Hx]; try done.
  split; [by eapply quiet_moves|]. split; [|done].
  intros x _. apply moves_steps in Hm. lia.
Qed.

Lemma iteration_moves host s r s' :
  max_live_values (options prog) < 2 ^ 64 → machine_ok prog s →
  iteration prog host s = (r, s') →
  moves prog s s' ∧ advances s r s' ∧
  (∀ x, r = Ok (Some x) → frames s' = [] ∧ runtime_steps x = steps s').
Proof.
  intros Hmax Hok E. unfold iteration in E.
  apply bind_cases in E as [(?&?&[= <- <-]&E)|(?&[= <- <-]&[]&_)]; [|done].
  apply bind_cases in E as [(f&s1&Ht&E)|(r1&Ht&?&Hr)]; unfold top in Ht; injection Ht as Ht <-;
    [|failed Hr].
  destruct (frames s) as [|f0 rest] eqn:Hf; [done|]. injection Ht as <-.
  apply bind_cases in E as [(p&s1&Hp&E)|(r1&Hp&?&Hr)]; injection Hp as Hp <-; [|failed Hr].
  apply expect_Ok in Hp.
  apply bind_cases in E as [(block&s1&Hb&E)|(r1&Hb&?&Hr)]; injection Hb as Hb <-; [|failed Hr].
  apply bind_cases in E as [([]&s1&He&E)|(r1&He&?&Hr)]; apply quiet_enter_block in He as Hq;
    [|failed Hr].
  assert (Hok1 : machine_ok prog s1) by by eapply quiet_machine_ok.
  apply bind_cases in E as [(f&s2&Ht&E)|(r1&Ht&?&Hr)]; unfold top in Ht; injection Ht as Ht <-;
    [|failed Hr].
  pose proof (quiet_frames _ _ _ Hq) as Hshape. rewrite Hf in Hshape.
  destruct (frames s1) as [|f1 rest1] eqn:Hf1; [done|]. injection Ht as <-.
  apply fmap_shape_cons in Hshape as (Hfun&_&_&Hrest).
  assert (Hlen : length (f0 :: rest) = length (frames s1)).
  { rewrite Hf1. simpl. f_equal. symmetry. by apply shape_length. }
  destruct (instructions block !! frame_instruction f1) as [inst|].
  - rewrite Hlen in E. apply bind_cases in E as [([]&s2&Hi&E)|(r1&Hi&?&Hr)];
      apply instruction_step_moves in Hi as [Hm Ha].
    + injection E as <- <-. split; [by eapply quiet_moves|]. split; [|done].
      intros x _. specialize (Ha _ eq_refl). destruct Hq as [_ _ _ [? _] _]. lia.
    + split; [by eapply quiet_moves|]. split; [by apply advances_failed|].
      intros x ->. by destruct Hr.
  - eapply terminator_step_moves in E as (Hm&Ha&Hx); [|done..|by rewrite Hfun].
    split; [by eapply quiet_moves|]. split; [|done].
    intros x Ex. specialize (Ha x Ex). destruct Hq as [_ _ _ [? _] _]. lia.
Qed.

Lemma iteration_ok host s r s' :
  max_live_values (options prog) < 2 ^ 64 → machine_ok prog s →
  iteration prog host s = (r, s') → machine_ok prog s'.
Proof.
  intros Hmax Hok E. destruct (iteration_moves _ _ _ _ Hmax Hok E) as [Hm _].
  destruct Hm as [[Hq|[f He]]|[f Hl]];
    [by eapply quiet_machine_ok| |by eapply leaves_ok].
  destruct (frames s) eqn:Hf; [|eapply enters_ok; [|done..]; by rewrite Hf].
  exfalso. unfold iteration in E. rewrite run_bind_eq in E. cbn [get] in E.
  rewrite run_bind_eq in E. unfold top in E. rewrite Hf in E. injection E as _ <-.
  destruct He as [Hs _ _ _ _ _ _ _]. by rewrite Hf in Hs.
Qed.
End iteration.

(** ** The loop *)

Section loop.
Context {T : Type} `{FragmentTable T} `{Verifier}.
Context (prog : Program).
Notation limit := (max_steps (options prog)).
Implicit Types s : Machine T.

(** [n] iterations that each continue. *)
Inductive iterates : (nat → nat → bool) → nat → Machine T → Machine T → Prop :=
  | iterates_zero host s : iterates host 0 s s
  | iterates_more host n s s1 s2 :
      iteration prog (host 0%nat) s = (Ok None, s1) →
      iterates (λ i, host (S i)) n s1 s2 → iterates host (S n) s s2.

(** The result of the loop after an iteration that does not continue. *)
Definition finished (r : result interp_error (option RuntimeInterpreterResult))
    : result interp_error RuntimeInterpreterResult :=
  match r with Ok (Some x) => Ok x | Err e => Err e | _ => Panic end.

Lemma iterates_ok host n s s' :
  max_live_values (options prog) < 2 ^ 64 → iterates host n s s' → machine_ok prog s →
  machine_ok prog s'.
Proof. intros Hmax. induction 1; [done|]. eauto using iteration_ok. Qed.

Lemma iterates_snoc host n s s1 s2 :
  iterates host n s s1 → iteration prog (host n) s1 = (Ok None, s2) → iterates host (S n) s s2.
Proof.
  intros Hi. revert s2. induction Hi; intros s3 E; [econstructor; [exact E|constructor]|].
  econstructor; [done|]. by apply IHHi.
Qed.

(** The state after [n] iterations. *)
Fixpoint after (host : nat → nat → bool) (n : nat) s : option (Machine T) :=
  match n with
  | O => Some s
  | S n => match iteration prog (host 0%nat) s with
           | (Ok None, s1) => after (λ i, host (S i)) n s1
           | _ => None
           end
  end.
Lemma after_iterates host n s s' : after host n s = Some s' → iterates host n s s'.
Proof.
  revert host s. induction n as [|n IH]; intros host s; simpl; [intros [= ->]; constructor|].
  destruct (iteration prog (host 0%nat) s) as [[[]| |] s1] eqn:E; try done. intros Ha.
  econstructor; [done|]. by apply IH.
Qed.

Lemma loop_terminates fuel : ∀ host s,
  max_live_values (options prog) < 2 ^ 64 → machine_ok prog s →
  (Z.to_nat (limit - steps s) < fuel)%nat →
  ∃ n s1 r s2, Z.of_nat n ≤ limit - steps s ∧ iterates host n s s1 ∧
    iteration prog (host n) s1 = (r, s2) ∧ r ≠ Ok None ∧
    run_loop prog host fuel s = (finished r, s2).
Proof.
  induction fuel as [|fuel IH]; intros host s Hmax Hok Hf; [lia|].
  destruct (iteration prog (host 0%nat) s) as [r s'] eqn:E.
  destruct (iteration_moves _ _ _ _ _ Hmax Hok E) as (_&Ha&_).
  assert (Hok' := iteration_ok _ _ _ _ _ Hmax Hok E).
  assert (0 ≤ steps s ≤ limit) by apply Hok. assert (0 ≤ steps s' ≤ limit) by apply Hok'.
  assert (r = Ok None ∨ r ≠ Ok None) as [->|Hr] by (destruct r as [[]| |]; auto).
  - specialize (Ha _ eq_refl).
    destruct (IH (λ i, host (S i)) s' Hmax Hok') as (n&s1&r&s2&?&?&?&?&Hl); [lia|].
    exists (S n), s1, r, s2. split_and!; [lia|by econstructor|done|done|].
    cbn [run_loop]. by rewrite run_bind_eq, E.
  - exists 0%nat, s, r, s'. split_and!; [lia|constructor|done|done|].
    cbn [run_loop]. rewrite run_bind_eq, E. destruct r as [[]| |]; done.
Qed.
End loop.

(** ** The bottom of the call stack *)

Section bottom.
Context {T : Type} `{FragmentTable T} `{Verifier}.
Context (prog : Program).
Implicit Types s : Machine T.

Lemma iteration_frames host s r s' : iteration prog host s = (Ok r, s') → frames s ≠ [].
Proof.
  unfold iteration. intros E Hnil.
  apply stm_bind_Ok in E as (?&?&[= <- <-]&E). apply stm_bind_Ok in E as (f&?&Ht&_).
  unfold top in Ht. by rewrite Hnil in Ht.
Qed.

Lemma moves_memory s s' : moves prog s s' → mem_extends true (memory s) (memory s').
Proof.
  intros [[Hq|[f He]]|[f Hl]];
    [apply (quiet_memory _ _ _ Hq)|apply (enters_memory _ _ _ _ He)|apply (leaves_memory _ _ _ _ Hl)].
Qed.

Lemma moves_bottom s s' :
  moves prog s s' → frames s ≠ [] → frames s' ≠ [] →
  last (shape_of <$> frames s') = last (shape_of <$> frames s).
Proof.
  assert (Hlast : ∀ (x : FunctionId * nat * option ValueId * option ExecutionSite) l,
    l ≠ [] → last (x :: l) = last l) by by intros x [].
  assert (Hne : ∀ l, l ≠ [] → shape_of <$> l ≠ []) by by intros [].
  intros [[Hq|[f He]]|[f Hl]] Hs Hs'.
  - by rewrite (quiet_frames _ _ _ Hq).
  - rewrite (enters_frames _ _ _ _ He). auto.
  - rewrite (leaves_frames _ _ _ _ Hl), Hlast; auto.
Qed.

Lemma iterates_bottom host n s s' :
  max_live_values (options prog) < 2 ^ 64 → machine_ok prog s → iterates prog host n s s' →
  mem_extends true (memory s) (memory s') ∧
  (frames s' ≠ [] → frames s ≠ [] ∧ last (shape_of <$> frames s') = last (shape_of <$> frames s)).
Proof.
  intros Hmax Hok Hi. induction Hi as [host s|host n s s1 s2 E Hi IH]; [done|].
  destruct (iteration_moves _ _ _ _ _ Hmax Hok E) as [Hm _].
  destruct IH as [Hmem Hlast]; [by eapply iteration_ok|].
  split; [etrans; [by apply moves_memory|done]|]. intros Hs2.
  destruct (Hlast Hs2) as [Hs1 ->]. assert (Hs := iteration_frames _ _ _ _ E).
  split; [done|]. by apply moves_bottom.
Qed.
End bottom.

(** ** The first state *)

Section setup.
Context {T : Type} `{FragmentTable T} `{Verifier}.
Implicit Types m : Memory T.

(** The options as the code holds them: [u64] and [usize] values. *)
Definition options_ok (o : InterpreterOptions) : Prop :=
  0 ≤ max_steps o < 2 ^ 64 ∧ 0 ≤ max_call_depth o < 2 ^ 64 ∧ 0 ≤ max_frames o < 2 ^ 64 ∧
  0 ≤ max_live_values o < 2 ^ 64.

Definition all_globals m : Prop := ∀ id a, allocations m !! id = Some a → kind a = GlobalStore.

Lemma globals_extend m m' : mem_extends false m m' → all_globals m → all_globals m'.
Proof.
  intros [Hk Hc] Hg id a' Ha'. specialize (Hc eq_refl). unfold allocation_count in Hc.
  destruct (lookup_lt_is_Some_2 (allocations m) id) as [a Ha].
  { rewrite <- Hc. by eapply lookup_lt_Some. }
  destruct (Hk id a Ha) as (a''&?&_&Hg'). simplify_eq. apply Hg', (Hg id a Ha).
Qed.

Ltac split_run E :=
  repeat (cbv zeta in E; lazymatch type of E with
  | (_ ≫= _) _ = (Ok _, _) =>
      let E1 := fresh "E" in
      apply stm_bind_Ok in E as (?&?&E1&E);
      match type of E1 with
      | modify _ _ = _ => injection E1 as <- <-
      | get _ = _ => injection E1 as <- <-
      | charge _ _ = _ => unfold charge in E1; repeat case_match; simplify_eq
      | when_err ?b _ _ = _ => destruct b; [discriminate E1|injection E1 as <- <-]
      | host_limit ?b _ _ = _ => destruct b; [injection E1 as <- <-|discriminate E1]
      | or_trap _ _ _ = _ => unfold or_trap, lift in E1; injection E1 as E1 <-
      | lift _ _ = _ => unfold lift in E1; injection E1 as E1 <-
      end
  end).

Lemma allocate_appends host size natural al m p m' :
  allocate host size natural al m = (Ok p, m') →
  ∃ c a, capability p = Some c ∧ allocation c = length (allocations m) ∧
    allocations m' = allocations m ++ [a].
Proof.
  unfold allocate. intros E. split_run E. injection E as <- <-. eexists _, _.
  split; [reflexivity|]. done.
Qed.

Lemma allocate_global_globals host size natural al m p m' :
  allocate_global host size natural al m = (Ok p, m') → all_globals m → all_globals m'.
Proof.
  unfold allocate_global. intros (q&m1&Ha&E)%stm_bind_Ok Hg.
  apply allocate_appends in Ha as (c&a&Hc&Hid&Hal).
  apply stm_bind_Ok in E as (c'&m2&Hc'&E). rewrite Hc in Hc'. injection Hc' as <- <-.
  apply stm_bind_Ok in E as (u&m2&Hu&E). injection E as <- <-.
  unfold update_allocation in Hu. rewrite Hal, Hid in Hu.
  rewrite lookup_app_r, Nat.sub_diag in Hu by lia. injection Hu as _ <-.
  intros id b. cbn. rewrite insert_app_r_alt, Nat.sub_diag by lia. cbn.
  rewrite lookup_app_Some. intros [?|[_ Hb]]; [by eapply Hg|].
  apply list_lookup_singleton_Some in Hb as [_ <-]. done.
Qed.

Lemma install_global_globals host lim g m p m' :
  install_global host lim g m = (Ok p, m') → all_globals m → all_globals m'.
Proof.
  unfold install_global. intros E Hg.
  apply stm_bind_Ok in E as (l&m1&El&E). injection El as El <-.
  apply stm_bind_Ok in E as (q&m1&Ea&E). eapply allocate_global_globals in Ea; [|done].
  eapply globals_extend; [|exact Ea].
  assert (Hrest : Respects (mem_extends (T := T) false)
    (_ ← match gs_init g with
         | GlobalStorageInit.Value v => store (host 3%nat) q (gs_ty g) (Value.Scalar v) (gs_align g)
         | GlobalStorageInit.Uninitialized => mret tt
         end; seal_global q (gs_readonly g))).
  { unfold seal_global. respects_auto. }
  by eapply Hrest.
Qed.

Lemma install_globals_globals gs : ∀ host lim ps m ps' m',
  install_globals host lim gs ps m = Ok (ps', m') → all_globals m → all_globals m'.
Proof.
  induction gs as [|g gs IH]; intros host lim ps m ps' m'; simpl; [by intros [= _ <-]|].
  destruct (install_global (host 0%nat) lim g m) as [r m1] eqn:E.
  intros (p&Hr&Hrest)%bind_Ok Hg. destruct r as [q| |]; try done. injection Hr as <-.
  eapply IH; [exact Hrest|]. by eapply install_global_globals.
Qed.

(** What a successful setup hands to the loop. *)
Lemma setup_Ok he hg arena md r f args o prog (s : Machine T) :
  options_ok o → setup he hg arena md r f args o = Ok (prog, s) →
  options prog = o ∧ machine_ok prog s ∧ steps s = 0 ∧ all_globals (memory s) ∧
  ∃ fr, frames s = [fr] ∧ frame_function fr = f ∧
    allocation_start fr = allocation_count (memory s).
Proof.
  unfold setup. intros (Hst&Hd&Hf&Hl) E.
  apply bind_Ok in E as (?&_&E). apply bind_Ok in E as ([fn l]&_&E).
  apply bind_Ok in E as (pr&_&E). destruct (unsupported_global md); [done|].
  apply bind_Ok in E as ([ps mem]&Hg&E). apply bind_Ok in E as (s'&Hs&E). injection E as <- <-.
  apply install_globals_globals in Hg; [|by intros ? ?].
  unfold start_machine in Hs. cbn [options] in Hs.
  destruct ((max_call_depth o =? 0) || (max_frames o =? 0)) eqn:Hz; [done|].
  apply orb_false_iff in Hz as [Hz1%Z.eqb_neq Hz2%Z.eqb_neq].
  apply bind_Ok in Hs as (p&Hp%expect_Ok&Hs). cbn [prog_prepared] in Hp.
  destruct (max_live_values o <? _) eqn:Hlt; [done|]. apply Z.ltb_ge in Hlt.
  destruct (negb _); [done|]. injection Hs as <-.
  split; [done|]. split; [|split; [done|split; [done|by eexists]]].
  split; cbn; try lia.
  - unfold capacity, frame_capacity. cbn. rewrite Hp. lia.
  - split; [lia|]. split; [|done]. split; [by intros [? ?]|done].
Qed.
End setup.

(** ** Diagnostics *)

Section diagnostics.
Implicit Types b : SourceDetailBudget.

(** The bytes of the file name a location carries. *)
Definition location_bytes (o : option OriginalLocation) : Z :=
  match o with
  | Some l => match location_source l with Some (name, _) => string_len name | None => 0 end
  | None => 0
  end.
Definition trace_bytes (l : list RuntimeCallFrame) : Z :=
  foldr (λ c n, location_bytes (call_original c) + n) 0 l.

(** The location the source metadata gives for a site, without a budget. *)
Definition site_location (m : Module_) (at_ : ExecutionSite) : option OriginalLocation :=
  f ← find_opt (λ f, bool_decide (function_id f = site_function at_)) (functions m);
  block ← find_opt (λ block, bool_decide (block_id block = site_block at_)) (blocks f);
  location (sources m)
    (if (site_instruction at_ =? length (instructions block))%nat
     then SourceTarget.Terminator (site_function at_) (site_block at_)
     else SourceTarget.Instruction (site_function at_) (site_block at_) (site_instruction at_)).

(** A diagnostic keeps that location, or its original node alone, when the file name is left out. *)
Definition located (m : Module_) (at_ : ExecutionSite) (o : option OriginalLocation) : Prop :=
  match site_location m at_ with
  | None => o = None
  | Some full => o = Some full ∨ o = Some (mkLocation (location_original full) None)
  end.
Definition left_out (m : Module_) (at_ : ExecutionSite) (o : option OriginalLocation) : Z :=
  match site_location m at_ ≫= location_source, o ≫= location_source with
  | Some _, None => 1
  | _, _ => 0
  end.
Definition trace_left_out (m : Module_) (l : list RuntimeCallFrame) : Z :=
  foldr (λ c n, left_out m (call_frame_site c) (call_original c) + n) 0 l.
Definition trace_full_bytes (m : Module_) (l : list RuntimeCallFrame) : Z :=
  foldr (λ c n, location_bytes (site_location m (call_frame_site c)) + n) 0 l.

Lemma detail_location_spec host m t b :
  let '(o, b') := detail_location host m t b in
  match location (sources m) t with
  | None => o = None ∧ b' = b
  | Some full =>
      o = Some full ∧ detail_omitted b' = detail_omitted b
        ∧ detail_remaining b' = detail_remaining b - location_bytes (Some full)
        ∧ (0 ≤ detail_remaining b → 0 ≤ detail_remaining b') ∨
      o = Some (mkLocation (location_original full) None) ∧ is_Some (location_source full)
        ∧ detail_omitted b' = detail_omitted b + 1 ∧ detail_remaining b' = detail_remaining b
        ∧ (host = false ∨ detail_remaining b < location_bytes (Some full))
  end.
Proof.
  unfold detail_location, location. destruct (original (sources m) t) as [o|]; [|done].
  cbn [mbind option_bind]. destruct (node_span o) as [span|]; cbn [mbind option_bind].
  2: { left. simpl. split_and!; [done..|lia|done]. }
  destruct (find_opt _ (files (sources m))) as [file|].
  2: { left. simpl. split_and!; [done..|lia|done]. }
  destruct (Z.ltb_spec (detail_remaining b) (string_len (file_name file))); [by right; eauto 10|].
  destruct host; [left|by right; eauto 10]. simpl. split_and!; [done..|lia].
Qed.

(** What one location takes from the budget. *)
Lemma execution_source_spec host m at_ b o b' :
  0 ≤ detail_remaining b → execution_source host m at_ b = (o, b') →
  located m at_ o ∧ 0 ≤ detail_remaining b' ∧
  detail_remaining b' + location_bytes o = detail_remaining b ∧
  detail_omitted b' = detail_omitted b + left_out m at_ o ∧
  (host = true → location_bytes (site_location m at_) ≤ detail_remaining b →
    left_out m at_ o = 0 ∧ location_bytes o = location_bytes (site_location m at_)).
Proof.
  unfold execution_source, located, left_out, site_location. intros Hb E.
  destruct (find_opt _ (functions m)) as [f|]; cbn [mbind option_bind]; [|by simplify_eq; simpl; split_and!; lia || done].
  destruct (find_opt _ (blocks f)) as [block|]; cbn [mbind option_bind]; [|by simplify_eq; simpl; split_and!; lia || done].
  pose proof (detail_location_spec host m (if (site_instruction at_ =? length (instructions block))%nat
     then SourceTarget.Terminator (site_function at_) (site_block at_)
     else SourceTarget.Instruction (site_function at_) (site_block at_) (site_instruction at_)) b) as Hs.
  rewrite E in Hs. destruct (location (sources m) _) as [full|].
  2: { destruct Hs as [-> ->]. simpl. split_and!; lia || done. }
  destruct Hs as [(-> & Ho & Hr & Hp)|(-> & [[name span] Hn] & Ho & Hr & Hh)].
  - split; [by left|]. assert (∀ z, match Some full ≫= location_source, Some full ≫= location_source with
      Some _, None => 1 | _, _ => z end = z) as Hz by by destruct (Some full ≫= location_source).
    rewrite Hz. split_and!; [auto|lia|lia|done].
  - split; [by right|]. simpl in *. rewrite Hn in *. split_and!; [lia|lia|lia|].
    intros -> Hle. destruct Hh as [|Hh]; [done|]. lia.
Qed.

Lemma trace_bytes_rev l : trace_bytes (rev l) = trace_bytes l.
Proof.
  assert (Happ : ∀ l l', trace_bytes (l ++ l') = trace_bytes l + trace_bytes l').
  { intros l1 l2. induction l1; simpl; [done|]. unfold trace_bytes in *. lia. }
  induction l as [|c l IH]; simpl; [done|]. rewrite Happ, IH. unfold trace_bytes. simpl. lia.
Qed.
Lemma trace_left_out_rev m l : trace_left_out m (rev l) = trace_left_out m l.
Proof.
  assert (Happ : ∀ l l', trace_left_out m (l ++ l') = trace_left_out m l + trace_left_out m l').
  { intros l1 l2. induction l1; simpl; [done|]. unfold trace_left_out in *. lia. }
  induction l as [|c l IH]; simpl; [done|]. rewrite Happ, IH. unfold trace_left_out. simpl. lia.
Qed.
Lemma trace_full_bytes_rev m l : trace_full_bytes m (rev l) = trace_full_bytes m l.
Proof.
  assert (Happ : ∀ l l', trace_full_bytes m (l ++ l') = trace_full_bytes m l + trace_full_bytes m l').
  { intros l1 l2. induction l1; simpl; [done|]. unfold trace_full_bytes in *. lia. }
  induction l as [|c l IH]; simpl; [done|]. rewrite Happ, IH. unfold trace_full_bytes. simpl. lia.
Qed.
Lemma fmap_rev {A B} (g : A → B) l : g <$> rev l = rev (g <$> l).
Proof. apply map_rev. Qed.

Lemma location_bytes_nonneg o : 0 ≤ location_bytes o.
Proof. destruct o as [[? [[]|]]|]; simpl; unfold string_len; lia. Qed.
Lemma trace_full_bytes_nonneg m l : 0 ≤ trace_full_bytes m l.
Proof.
  induction l as [|c l IH]; [done|]. unfold trace_full_bytes in *. simpl.
  pose proof (location_bytes_nonneg (site_location m (call_frame_site c))). lia.
Qed.

Lemma call_trace_spec {E} m fs : ∀ host b,
  0 ≤ detail_remaining b → Forall (λ f, is_Some (call_site f)) fs →
  ∃ l b', @call_trace E host m fs b = Ok (l, b') ∧
    callee <$> l = frame_function <$> fs ∧ (Some ∘ call_frame_site) <$> l = call_site <$> fs ∧
    Forall (λ c, caller c = site_function (call_frame_site c) ∧ located m (call_frame_site c) (call_original c)) l ∧
    0 ≤ detail_remaining b' ∧ detail_remaining b' + trace_bytes l = detail_remaining b ∧
    detail_omitted b' = detail_omitted b + trace_left_out m l ∧
    ((∀ i, host i = true) → trace_full_bytes m l ≤ detail_remaining b → trace_left_out m l = 0).
Proof.
  induction fs as [|f fs IH]; intros host b Hb Hfs; [exists [], b; split_and!; try done; simpl; lia|].
  apply Forall_cons in Hfs as [[at_ Hat] Hfs]. simpl. rewrite Hat. simpl.
  destruct (execution_source (host 0%nat) m at_ b) as [o b1] eqn:Eo.
  apply execution_source_spec in Eo as (Hloc & Hb1 & Ho & Hom & Hfull); [|done].
  destruct (IH (λ i, host (S i)) b1 Hb1 Hfs) as (l&b'&->&Hc&Hs&Hk&?&Hn&Hm&Hall). simpl.
  eexists _, b'. split; [reflexivity|]. split_and!; try done; [| |by constructor|simpl; lia|simpl in *; lia|].
  - rewrite fmap_cons, Hc. done.
  - rewrite fmap_cons, Hs. done.
  - intros Hhost Hle. simpl in *. pose proof (trace_full_bytes_nonneg m l).
    pose proof (location_bytes_nonneg (site_location m at_)).
    destruct (Hfull (Hhost _)) as [-> Heq]; [unfold trace_full_bytes in *; lia|].
    rewrite Hall; [done|by intros|]. unfold trace_full_bytes in *. lia.
Qed.

Lemma chained_sites n fs k :
  chained n fs → (k ≤ length fs - 1)%nat → Forall (λ f, is_Some (call_site f)) (take k fs).
Proof.
  revert n k. induction fs as [|f fs IH]; intros n [|k] Hc Hk; simpl in *; try by constructor.
  destruct Hc as (_&Hs&Hc). constructor; [|by eapply IH; [done|lia]].
  apply Hs. intros ->. simpl in Hk. lia.
Qed.
End diagnostics.

(** ** A run *)

Section sample.
Import Instruction.

(** A stand-in verifier for the witnesses: the resource walk alone. *)
Definition budget_verifier : Verifier :=
  {| verify_error := LimitError; verify_module_with_limits := check_module |}.

Definition v (n : Z) : ValueId := mkValueId n.
Definition b (n : Z) : BlockId := mkBlockId n.
Definition i32 (n : Z) (x : Z) : instruction := Const (v n) Ty.I32 (ConstValue.I x).

(** [factorial(n)] by a loop with phi nodes, through a stack slot. *)
Definition factorial : Function :=
  mkFunction (mkFunctionId 1) "factorial" [mkParam "n" (v 0) Ty.I32] Ty.I32
    [mkBlock (b 0) "entry" [i32 1 1; i32 2 0] (Some (Terminator.Br (b 1)));
     mkBlock (b 1) "loop"
       [Phi (v 3) Ty.I32 [(v 0, b 0); (v 6, b 2)]; Phi (v 4) Ty.I32 [(v 1, b 0); (v 7, b 2)];
        Cmp (v 5) CmpOp.Eq Ty.I32 (v 3) (v 2)]
       (Some (Terminator.CBr (v 5) (b 3) (b 2)));
     mkBlock (b 2) "body"
       [Bin (v 6) BinOp.Sub Ty.I32 (v 3) (v 1); Bin (v 7) BinOp.Mul Ty.I32 (v 4) (v 3)]
       (Some (Terminator.Br (b 1)));
     mkBlock (b 3) "done"
       [Alloca (v 8) Ty.I32 4; Store Ty.I32 (v 4) (v 8) 4; Load (v 9) Ty.I32 (v 8) 4]
       (Some (Terminator.Ret Ty.I32 (Some (v 9))))]
    (b 0)
    [(v 0, Ty.I32); (v 1, Ty.I32); (v 2, Ty.I32); (v 3, Ty.I32); (v 4, Ty.I32); (v 5, Ty.Bool);
     (v 6, Ty.I32); (v 7, Ty.I32); (v 8, Ty.Ptr Ty.I32); (v 9, Ty.I32)].
Definition main : Function :=
  mkFunction (mkFunctionId 0) "main" [mkParam "n" (v 10) Ty.I32] Ty.I32
    [mkBlock (b 4) "entry"
       [Call Whale (Some (v 11)) Ty.I32 (Callee.Direct (mkFunctionId 1)) [v 10]]
       (Some (Terminator.Ret Ty.I32 (Some (v 11))))]
    (b 4) [(v 10, Ty.I32); (v 11, Ty.I32)].
Definition factorial_module : Module_ :=
  mkModule "x86_64-whale-linux" (mkDataLayout 64 Little) []
    [mkGlobalStorage (mkGlobalId 0) "counter" Ty.I32 (GlobalStorageInit.Value (ConstValue.I 7))
       false 4 Internal None]
    [main; factorial]
    [mkDecl (mkFunctionId 0) "main" (whale [Ty.I32] Ty.I32) Internal None;
     mkDecl (mkFunctionId 1) "factorial" (whale [Ty.I32] Ty.I32) Internal None]
    (mkSources [] [] []).

Definition grant : nat → bool := λ _, true.
Definition grant_all : nat → nat → bool := λ _ _, true.
Definition sample_host : Host := mkHost grant grant_all grant_all grant grant.

Definition sample_setup :
    result (@InterpreterError.t budget_verifier) (Program * Machine (gmap nat Fragment)) :=
  @setup _ _ budget_verifier grant grant_all 1 factorial_module 0 (mkFunctionId 0)
    (Arguments.Scalars [ConstValue.I 5]) default_options.
End sample.

Example factorial_5 :
  ok (@interpret _ gmap_table budget_verifier sample_host 1 factorial_module 0 (mkFunctionId 0)
        [ConstValue.I 5]) = Some (mkResult (Some (ConstValue.I 120)) 48).
Proof. vm_compute. reflexivity. Qed.

(** ** Properties *)

(** What a diagnostic says of a failure at [at_] with the call stack [fs]: the calls retained are the
    innermost edges, outermost first; [host 1] is the answer to the reservation of the trace. *)
Definition retained_calls (host : nat → bool) (fs : list Frame) (lim : Z) : nat :=
  if host 1%nat then Nat.min (length fs - 1) (Z.to_nat (Z.min lim MAX_RUNTIME_TRACE_FRAMES)) else 0.

Record diagnosis (host : nat → bool) (m : Module_) (at_ : ExecutionSite) (fs : list Frame) (lim : Z)
    (d : RuntimeDiagnostic) : Prop := {
  dg_site : diagnostic_site d = Some at_ ∧ diagnostic_global d = None;
  dg_original : located m at_ (diagnostic_original d);
  dg_retained : length (calls d) = retained_calls host fs lim;
  dg_omitted : Z.of_nat (length (calls d)) + omitted_call_frames d = Z.of_nat (length fs - 1);
  dg_callees : callee <$> calls d = rev (frame_function <$> take (length (calls d)) fs);
  dg_sites : (Some ∘ call_frame_site) <$> calls d = rev (call_site <$> take (length (calls d)) fs);
  dg_calls : Forall (λ c, caller c = site_function (call_frame_site c) ∧
                          located m (call_frame_site c) (call_original c)) (calls d);
  dg_bytes : location_bytes (diagnostic_original d) + trace_bytes (calls d) ≤
               MAX_RUNTIME_DIAGNOSTIC_SOURCE_BYTES;
  dg_details : omitted_source_details d = left_out m at_ (diagnostic_original d) + trace_left_out m (calls d);
  dg_full : (∀ i, host i = true) →
    location_bytes (site_location m at_) + trace_full_bytes m (calls d) ≤ MAX_RUNTIME_DIAGNOSTIC_SOURCE_BYTES →
    omitted_source_details d = 0;
}.

(** C30: a failure is diagnosed without a panic and without losing its cause.  It stays bare exactly
    if it has no site, or if its site has no source location and no caller.  Otherwise the diagnostic
    has the location of the site; it retains the innermost edges of the call stack, outermost first,
    as many as the configured and the hard bound allow (none if the host refuses the trace), and
    counts the others; each call has the location of its site; the file names kept fit the byte
    budget, those left out are counted, and none is if the host grants them and all fit. *)
Theorem failure_diagnosed `{Verifier} {E} host m cause fs lim (n : nat) :
  chained n fs → 0 ≤ lim →
  ∃ e, @runtime_failure _ E host m cause fs lim = Ok e ∧ root_cause e = root_cause cause ∧
    match runtime_site cause with
    | None => e = cause
    | Some at_ =>
        if decide (site_location m at_ = None ∧ length fs - 1 = 0)%nat then e = cause
        else ∃ d, e = InterpreterError.Diagnostic cause d ∧ diagnosis host m at_ fs lim d
    end.
Proof.
  intros Hc Hlim. unfold runtime_failure.
  destruct (runtime_site cause) as [at_|] eqn:Hsite; [|by exists cause; auto].
  destruct (execution_source (host 0%nat) m at_ new_detail_budget) as [o b1] eqn:Eo.
  apply execution_source_spec in Eo as (Hloc & Hb1 & Ho & Hom & Hfull); [|done].
  assert (o = None ↔ site_location m at_ = None) as Hnone.
  { unfold located in Hloc. destruct (site_location m at_); [|naive_solver]. split; [|done].
    by destruct Hloc as [-> | ->]. }
  case_decide as Hbare.
  { exists cause. destruct Hbare as [Hl Hz]. rewrite (bool_decide_eq_true_2 _ (proj2 Hnone Hl)), Hz. done. }
  replace (bool_decide (o = None) && (length fs - 1 =? 0)%nat) with false.
  2: { symmetry. apply andb_false_iff. rewrite bool_decide_eq_false, Nat.eqb_neq, Hnone.
       destruct (decide (site_location m at_ = None)); tauto. }
  cbv zeta. fold (retained_calls host fs lim). set (r := retained_calls host fs lim).
  assert (Hr : (r ≤ length fs - 1)%nat) by (subst r; unfold retained_calls; destruct (host 1%nat); lia).
  assert (Hf : Forall (λ f, is_Some (call_site f)) (take r fs)) by (eapply chained_sites; [done|lia]).
  destruct (@call_trace_spec E m (take r fs) (λ i, host (S (S i))) b1 Hb1 Hf)
    as (l&b2&->&Hcallee&Hsites&Hcalls&?&Hbytes&Hmiss&Hall).
  assert (Hl : length l = r).
  { apply (f_equal length) in Hcallee. rewrite !length_fmap, length_take in Hcallee. lia. }
  eexists. split; [reflexivity|]. split; [done|]. eexists. split; [reflexivity|].
  assert (0 ≤ location_bytes (site_location m at_) ∧ 0 ≤ trace_full_bytes m l) as [Hp1 Hp2]
    by (split; [apply location_bytes_nonneg|apply trace_full_bytes_nonneg]).
  split; cbn [diagnostic_site diagnostic_global diagnostic_original calls omitted_call_frames omitted_source_details];
    rewrite ?length_rev, ?Hl, ?trace_bytes_rev, ?trace_left_out_rev, ?trace_full_bytes_rev.
  - done.
  - done.
  - done.
  - lia.
  - by rewrite fmap_rev, Hcallee.
  - by rewrite fmap_rev, Hsites.
  - by apply Forall_rev.
  - cbn in Ho. lia.
  - cbn in Hom. lia.
  - intros Hhost Hle. destruct (Hfull (Hhost _)) as [Hz Heq]; [cbn in Ho |- *; lia|].
    cbn in Hom, Ho. rewrite Hmiss, Hom, Hz, Hall; [done|by intros|lia].
Qed.

Section properties.
Context {T : Type} `{FragmentTable T} `{Verifier}.
Context (he : nat → bool) (hg : nat → nat → bool) (arena : Z) (m : Module_) (module_ref : Z)
  (f : FunctionId) (args : Arguments.t) (o : InterpreterOptions) (prog : Program) (s0 : Machine T).

(** C17: an execution terminates within the step limit: after a setup the loop continues for
    at most [max_steps] iterations and then returns, traps, or fails; any fuel above the
    limit gives that result, and a returned step count is within the limit. *)
Theorem execution_terminates (Ho : options_ok o)
    (Hsetup : setup he hg arena m module_ref f args o = Ok (prog, s0)) host :
  ∃ n s1 r s2,
    Z.of_nat n ≤ max_steps o ∧ iterates prog host n s0 s1 ∧
    iteration prog (host n) s1 = (r, s2) ∧ r ≠ Ok None ∧
    (∀ fuel, (Z.to_nat (max_steps o) < fuel)%nat → run_loop prog host fuel s0 = (finished r, s2)) ∧
    (∀ x, r = Ok (Some x) → runtime_steps x = steps s2 ∧ 0 < runtime_steps x ≤ max_steps o).
Proof.
  destruct (setup_Ok _ _ _ _ _ _ _ _ _ _ Ho Hsetup) as (<-&Hok&Hs0&_).
  assert (Hmax : max_live_values (options prog) < 2 ^ 64) by apply Ho.
  destruct (loop_terminates prog (S (Z.to_nat (max_steps (options prog)))) host s0 Hmax Hok)
    as (n&s1&r&s2&Hn&Hi&E&Hr&_); [rewrite Hs0, Z.sub_0_r; lia|].
  rewrite Hs0, Z.sub_0_r in Hn.
  assert (Hok1 := iterates_ok _ _ _ _ _ Hmax Hi Hok).
  exists n, s1, r, s2. split_and!; [done..| |].
  - intros fuel Hfuel. clear Hok1. revert fuel Hfuel.
    assert (Hgen : ∀ fuel, (n < fuel)%nat → run_loop prog host fuel s0 = (finished r, s2)).
    { clear Hok Hsetup Hs0 Hn. induction Hi as [host s|host n s s' s'' E' Hi IH];
        intros [|fuel] Hf; [lia| |lia|]; cbn [run_loop]; rewrite run_bind_eq.
      - rewrite E. by destruct r as [[]| |].
      - rewrite E'. apply IH; [done|lia]. }
    intros fuel Hf. apply Hgen. lia.
  - intros x Hx. destruct (iteration_moves _ _ _ _ _ Hmax Hok1 E) as (_&Ha&Hend).
    destruct (Hend x Hx) as [_ ->]. specialize (Ha _ Hx).
    pose proof (iteration_ok _ _ _ _ _ Hmax Hok1 E) as [_ _ _ ? _].
    destruct Hok1 as [_ _ _ ? _]. split; [done|]. lia.
Qed.

(** C29: the configured resources bound every state an execution reaches, the state a
    failure leaves included: the depth of the call stack, the frames created, the live
    SSA slots, which are exactly those of the active frames, and the steps; the
    allocations of a callee start above those of its caller. *)
Theorem resources_bounded (Ho : options_ok o)
    (Hsetup : setup he hg arena m module_ref f args o = Ok (prog, s0)) host n s r s' :
  iterates prog host n s0 s → iteration prog (host n) s = (r, s') →
  machine_ok prog s ∧ machine_ok prog s'.
Proof.
  intros Hi E. destruct (setup_Ok _ _ _ _ _ _ _ _ _ _ Ho Hsetup) as (<-&Hok&_).
  assert (Hmax : max_live_values (options prog) < 2 ^ 64) by apply Ho.
  assert (Hok' := iterates_ok _ _ _ _ _ Hmax Hi Hok). eauto using iteration_ok.
Qed.

(** C24: locals do not survive their frame: when an iteration pops a frame, every stack
    allocation made since the frame was entered is dead, and after a run that returns no stack
    allocation is alive at all. *)
Theorem returns_expire_locals (Ho : options_ok o)
    (Hsetup : setup he hg arena m module_ref f args o = Ok (prog, s0)) host n s r s' :
  iterates prog host n s0 s → iteration prog (host n) s = (r, s') →
  (∀ fr rest, frames s = fr :: rest → length (frames s') = length rest →
     dead_between (allocation_start fr) (allocation_count (memory s')) (memory s')) ∧
  (∀ x, r = Ok (Some x) → ∀ id a,
     allocations (memory s') !! id = Some a → kind a = Stack → alive a = false).
Proof.
  intros Hi E. destruct (setup_Ok _ _ _ _ _ _ _ _ _ _ Ho Hsetup) as (<-&Hok&_&Hg&fr&Hfr&_&Hstart).
  assert (Hmax : max_live_values (options prog) < 2 ^ 64) by apply Ho.
  assert (Hok' := iterates_ok _ _ _ _ _ Hmax Hi Hok).
  destruct (iteration_moves _ _ _ _ _ Hmax Hok' E) as (Hm&_&Hend).
  assert (Hpop : ∀ fr rest, frames s = fr :: rest → length (frames s') = length rest →
     dead_between (allocation_start fr) (allocation_count (memory s')) (memory s')).
  { intros fr' rest Hs Hlen. destruct Hm as [[Hq|[g Hen]]|[g Hl]].
    - apply quiet_frames, shape_length in Hq. rewrite Hs in Hq. simpl in Hq. lia.
    - pose proof (enters_frames _ _ _ _ Hen) as Hf. apply (f_equal length) in Hf.
      simpl in Hf. rewrite !length_fmap, Hs in Hf. simpl in Hf. lia.
    - pose proof (leaves_frames _ _ _ _ Hl) as Hf. rewrite Hs, fmap_cons in Hf.
      injection Hf as _ Hb _ _ _. rewrite Hb.
      intros id a [? _]. by apply (leaves_dead _ _ _ _ Hl). }
  split; [done|]. intros x Hx id a Ha Hk.
  destruct (Hend x Hx) as [Hnil _].
  assert (Hne : frames s ≠ []) by (rewrite Hx in E; by eapply iteration_frames).
  destruct (iterates_bottom _ _ _ _ _ Hmax Hok Hi) as [Hmem Hlast].
  destruct (Hlast Hne) as [_ Hbot]. rewrite Hfr in Hbot.
  assert (Hmem' : mem_extends true (memory s0) (memory s')) by (etrans; [done|by apply (moves_memory prog)]).
  destruct (decide (id < allocation_count (memory s0))%nat) as [Hid|Hid].
  { destruct (lookup_lt_is_Some_2 _ _ Hid) as [a0 Ha0].
    destruct (extends_kept _ _ _ Hmem' id a0 Ha0) as (a'&Ha'&_&Hglobal).
    rewrite Ha' in Ha. injection Ha as ->. rewrite Hglobal in Hk; [done|by eapply Hg]. }
  destruct (frames s) as [|fr' rest] eqn:Hs; [done|].
  assert (rest = []) as ->.
  { destruct Hm as [[Hq|[g Hen]]|[g Hl]].
    - apply quiet_frames, shape_length in Hq. by rewrite Hs, Hnil in Hq.
    - pose proof (enters_frames _ _ _ _ Hen) as Hf. by rewrite Hnil in Hf.
    - pose proof (leaves_frames _ _ _ _ Hl) as Hf. rewrite Hs, Hnil in Hf. by destruct rest. }
  injection Hbot as _ Hb _ _. eapply (Hpop fr' []); [done|by rewrite Hnil| |done|done].
  apply lookup_lt_Some in Ha. unfold allocation_count in *. lia.
Qed.
End properties.

Lemma sample_setup_Ok : is_ok sample_setup = true.
Proof. vm_compute. reflexivity. Qed.
Lemma default_options_ok : options_ok default_options.
Proof. unfold options_ok. simpl. lia. Qed.

Lemma execution_terminates_witness :
  ∃ prog s0, sample_setup = Ok (prog, s0) ∧
    ∃ r s, run_loop (H0 := budget_verifier) prog grant_all (S (Z.to_nat 1000000)) s0 =
      (finished (H0 := budget_verifier) r, s).
Proof.
  destruct sample_setup as [[prog s0]| |] eqn:E; [|by apply (f_equal is_ok) in E; vm_compute in E..].
  exists prog, s0. split; [done|].
  destruct (@execution_terminates _ gmap_table budget_verifier grant grant_all 1 factorial_module 0
    (mkFunctionId 0) (Arguments.Scalars [ConstValue.I 5]) default_options prog s0 default_options_ok E grant_all)
    as (_&_&r&s&_&_&_&_&Hl&_).
  exists r, s. apply Hl. apply Nat.lt_succ_diag_r.
Defined.

Lemma resources_bounded_witness :
  ∃ prog s0, sample_setup = Ok (prog, s0) ∧ machine_ok prog s0.
Proof.
  destruct sample_setup as [[prog s0]| |] eqn:E; [|by apply (f_equal is_ok) in E; vm_compute in E..].
  exists prog, s0. split; [done|].
  destruct (iteration (H0 := budget_verifier) prog (grant_all 0%nat) s0) as [r s] eqn:Ei.
  exact (proj1 (@resources_bounded _ gmap_table budget_verifier grant grant_all 1 factorial_module 0
    (mkFunctionId 0) (Arguments.Scalars [ConstValue.I 5]) default_options prog s0 default_options_ok E
    grant_all 0%nat s0 r s (iterates_zero (H0 := budget_verifier) prog grant_all s0) Ei)).
Defined.

(** The sample before and after iteration [n]: the steps it returns, the frames and the allocations. *)
Definition sample_iteration (n : nat)
    : option (option (option Z) * nat * nat * option nat * list (AllocationKind * bool)) :=
  match sample_setup with
  | Ok (prog, s0) =>
      match after (H0 := budget_verifier) prog grant_all n s0 with
      | Some s =>
          let '(r, s') := iteration (H0 := budget_verifier) prog (grant_all n) s in
          Some (match r with Ok x => Some (runtime_steps <$> x) | _ => None end,
                length (frames s), length (frames s'), allocation_start <$> head (frames s),
                (λ a, (kind a, alive a)) <$> allocations (memory s))
      | None => None
      end
  | _ => None
  end.
(** Iteration 34 returns from [factorial], whose stack slot is alive until then; iteration 35 ends. *)
Lemma sample_pops : sample_iteration 34 =
  Some (Some None, 2%nat, 1%nat, Some 1%nat, [(GlobalStore, true); (Stack, true)]).
Proof. vm_compute. reflexivity. Qed.
Lemma sample_ends : sample_iteration 35 =
  Some (Some (Some 48), 1%nat, 0%nat, Some 1%nat, [(GlobalStore, true); (Stack, false)]).
Proof. vm_compute. reflexivity. Qed.

Lemma returns_expire_locals_witness :
  ∃ prog s0, sample_setup = Ok (prog, s0) ∧
    (∃ s s' fr rest, iterates (H0 := budget_verifier) prog grant_all 34 s0 s ∧
       iteration (H0 := budget_verifier) prog (grant_all 34%nat) s = (Ok None, s') ∧
       frames s = fr :: rest ∧ length (frames s') = length rest ∧ allocation_start fr = 1%nat ∧
       (λ a, (kind a, alive a)) <$> allocations (memory s) = [(GlobalStore, true); (Stack, true)] ∧
       dead_between 1 (allocation_count (memory s')) (memory s')) ∧
    (∃ s s' x, iterates (H0 := budget_verifier) prog grant_all 35 s0 s ∧
       iteration (H0 := budget_verifier) prog (grant_all 35%nat) s = (Ok (Some x), s') ∧
       ∀ id a, allocations (memory s') !! id = Some a → kind a = Stack → alive a = false).
Proof.
  pose proof sample_pops as Hp. pose proof sample_ends as Hq. unfold sample_iteration in Hp, Hq.
  destruct sample_setup as [[prog s0]| |] eqn:E; [|done..].
  exists prog, s0. split; [done|].
  pose proof (@returns_expire_locals _ gmap_table budget_verifier grant grant_all 1 factorial_module 0
    (mkFunctionId 0) (Arguments.Scalars [ConstValue.I 5]) default_options prog s0 default_options_ok E
    grant_all) as Ht.
  split.
  - clear Hq. destruct (after (H0 := budget_verifier) prog grant_all 34 s0) as [s|] eqn:Ea; [|discriminate Hp].
    apply after_iterates in Ea.
    destruct (iteration (H0 := budget_verifier) prog (grant_all 34%nat) s) as [r s'] eqn:Ei.
    injection Hp as Hr Hf Hrest Hstart Hallocs.
    destruct r as [[x|]|e|]; [discriminate Hr| |discriminate Hr..].
    destruct (frames s) as [|fr rest] eqn:Ef; [discriminate Hf|].
    injection Hstart as Hstart. injection Hf as Hf.
    assert (Hlen : length (frames s') = length rest) by congruence.
    exists s, s', fr, rest. split_and!; [exact Ea|exact Ei|exact Ef|exact Hlen|exact Hstart|exact Hallocs|].
    rewrite <- Hstart. exact (proj1 (Ht 34%nat s _ s' Ea Ei) fr rest Ef Hlen).
  - clear Hp. destruct (after (H0 := budget_verifier) prog grant_all 35 s0) as [s|] eqn:Ea; [|discriminate Hq].
    apply after_iterates in Ea.
    destruct (iteration (H0 := budget_verifier) prog (grant_all 35%nat) s) as [r s'] eqn:Ei.
    injection Hq as Hr _ _ _ _.
    destruct r as [[x|]|e|]; [|discriminate Hr..].
    exists s, s', x. split_and!; [exact Ea|exact Ei|]. exact (proj2 (Ht 35%nat s _ s' Ea Ei) x eq_refl).
Defined.

(** The module with a source location for the call of [factorial]. *)
Definition located_module : Module_ :=
  mkModule "x86_64-whale-linux" (mkDataLayout 64 Little) [] [] (functions factorial_module)
    (declarations factorial_module)
    (mkSources [mkSourceFile 0 "main.w"] [mkOriginalNode 5 (Some (mkSourceSpan 0 3 1 3 9))]
       [mkSourceMapping (SourceTarget.Instruction (mkFunctionId 0) (b 4) 0) 5]).

(** A failure in [factorial], and one in [main] before any call. *)
Lemma failure_diagnosed_witness :
  let at_call := mkSite (mkFunctionId 0) (b 4) 0 None in
  let at_loop := mkSite (mkFunctionId 1) (b 1) 0 None in
  let fs := [mkFrame (mkFunctionId 1) ∅ (b 1) None 0 1 None (Some at_call);
             mkFrame (mkFunctionId 0) ∅ (b 4) None 0 1 None None] in
  let trap site := @InterpreterError.Trap budget_verifier (mkTrap site TrapReason.NullFunction 3) in
  chained 1 fs ∧
  (∃ d, @runtime_failure budget_verifier Empty_set grant located_module (trap at_loop) fs 64 =
      Ok (InterpreterError.Diagnostic (H := budget_verifier) (trap at_loop) d) ∧
    diagnosis grant located_module at_loop fs 64 d ∧ diagnostic_original d = None ∧
    calls d = [mkCallFrame (mkFunctionId 0) (mkFunctionId 1) at_call
                 (Some (mkLocation 5 (Some ("main.w", mkSourceSpan 0 3 1 3 9))))]) ∧
  @runtime_failure budget_verifier Empty_set grant factorial_module (trap at_call) (drop 1 fs) 64 = Ok (trap at_call).
Proof.
  intros at_call at_loop fs trap.
  assert (Hc : chained 1 fs).
  { split; [simpl; lia|]. split; [split; [done|by eexists]|]. split; [simpl; lia|].
    split; [split; [by intros [? ?]|done]|done]. }
  split; [done|]. split.
  - destruct (@failure_diagnosed budget_verifier Empty_set grant located_module (trap at_loop) fs 64 1 Hc)
      as (e&He&_&Hd); [lia|]. cbn in Hd.
    destruct Hd as (d&->&Hd). exists d. split; [exact He|]. split; [exact Hd|].
    assert (Hv : match @runtime_failure budget_verifier Empty_set grant located_module (trap at_loop) fs 64 with
      | Ok (InterpreterError.Diagnostic _ d) => Some (diagnostic_original d, calls d) | _ => None end =
      Some (None, [mkCallFrame (mkFunctionId 0) (mkFunctionId 1) at_call
                     (Some (mkLocation 5 (Some ("main.w", mkSourceSpan 0 3 1 3 9))))]))
      by (vm_compute; reflexivity).
    rewrite He in Hv. by injection Hv as -> ->.
  - assert (Hc' : chained 1 (drop 1 fs)) by apply Hc.
    destruct (@failure_diagnosed budget_verifier Empty_set grant factorial_module (trap at_call) (drop 1 fs) 64 1 Hc')
      as (e&He&_&Hd); [lia|]. cbn in Hd. by rewrite Hd in He.
Defined.
