(* ===== verification/Effects.v ===== *)
(** * Observable effects ([effects.rs])

    The conservative classification of instructions that a pass consults before it deletes an
    unused one, and its soundness against the interpreter of [Interp.v]: what an instruction is
    not classified to do, its execution does not do.

    Computations that neither change the machine nor look at the contents of memory are
    [Inert]; their lemmas are in the hint database [inert]. *)
From S2P Require Export Execution.
Local Open Scope Z_scope.

(** ** The code *)

Record Effects := mkEffects {
  reads_memory : bool;
  writes_memory : bool;
  volatile : bool;
  has_calls : bool;
  may_trap : bool;
  changes_lifetime : bool;
}.
#[export] Instance Effects_eq_dec : EqDecision Effects.
Proof. solve_decision. Defined.

Definition no_effects : Effects := mkEffects false false false false false false.
Definition permits_unused_removal (e : Effects) : bool := bool_decide (e = no_effects).

Definition instruction_effects (inst : instruction) : Effects :=
  match inst with
  | Instruction.VolatileLoad _ _ _ _ => mkEffects true false true false true false
  | Instruction.VolatileStore _ _ _ _ => mkEffects false true true false true false
  | Instruction.Load _ _ _ _ => mkEffects true false false false true false
  | Instruction.Store _ _ _ _ | Instruction.Uninit _ _ _ | Instruction.Memset _ _ _ _ =>
      mkEffects false true false false true false
  | Instruction.Memcpy _ _ _ _ => mkEffects true true false false true false
  | Instruction.Alloca _ _ _ | Instruction.LifetimeEnd _ =>
      mkEffects false false false false true true
  | Instruction.Call _ _ _ _ _ => mkEffects true true false true true false
  | Instruction.Gep _ _ _ _ | Instruction.PtrDiff _ _ _ | Instruction.TrapIf _ _
  | Instruction.Undef _ _ => mkEffects false false false false true false
  | Instruction.Bin _ (BinOp.UDiv | BinOp.SDiv | BinOp.URem | BinOp.SRem) _ _ _ =>
      mkEffects false false false false true false
  | Instruction.Cast _ (CastOp.CheckedInt | CastOp.FToI_S | CastOp.FToI_U) _ _ _ =>
      mkEffects false false false false true false
  | Instruction.Cmp _ _ (Ty.Ptr _) _ _ | Instruction.ICmp _ _ (Ty.Ptr _) _ _ =>
      mkEffects false false false false true false
  | Instruction.Const _ _ _ | Instruction.ConstDecl _ _ _ _ | Instruction.Mov _ _ _
  | Instruction.Bin _ _ _ _ _ | Instruction.Neg _ _ _ | Instruction.Not _ _ _
  | Instruction.Cmp _ _ _ _ _ | Instruction.ICmp _ _ _ _ _ | Instruction.FCmp _ _ _ _ _
  | Instruction.Select _ _ _ _ _ | Instruction.Cast _ _ _ _ _ | Instruction.Phi _ _ _
  | Instruction.Extract _ _ _ _ | Instruction.Checked _ _ _ _ _ | Instruction.NullFunction _ _
  | Instruction.FunctionAddr _ _ _ | Instruction.GlobalAddr _ _ _ => no_effects
  end.

Definition terminator_effects (t : terminator) : Effects :=
  mkEffects false false false false
    match t with Terminator.Trap _ => true | _ => false end false.

(** ** Inert computations *)

Section effects.
Context {T : Type} `{FragmentTable T} `{Verifier} (prog : Program).
Implicit Types (s : Machine T) (m : Memory T).
#[local] Notation exec := (run (T := T)).
#[local] Existing Instance run_fmap.

(** What an allocation is, its contents aside. *)
Definition outline (a : Allocation T) :=
  (kind a, base a, alloc_generation a, alive a, readable a, writable a, length (data a)).
(** Memories that hold the same allocations, with any contents. *)
Definition same_outline m1 m2 : Prop :=
  mem_arena m1 = mem_arena m2 ∧ outline <$> allocations m1 = outline <$> allocations m2.
Definition similar s1 s2 : Prop :=
  steps s1 = steps s2 ∧ same_outline (memory s1) (memory s2).

Definition no_err {E A} (r : result E A) : Prop := ∀ e, r ≠ Err e.

(** It changes nothing, its outcome does not depend on the contents of memory, and it fails only
    where [fails] allows. *)
Definition Inert {A} (fails : bool) (op : exec A) : Prop := ∀ s1 s2,
  similar s1 s2 →
  ∃ r, op s1 = (r, s1) ∧ op s2 = (r, s2) ∧ (fails = false → no_err r).

Lemma inert_pure {A} fails (r : result interp_error A) :
  (fails = false → no_err r) → Inert fails (lift r : exec A).
Proof. intros Hr s1 s2 _. by exists r. Qed.
Lemma inert_expect {A} fails (o : option A) : Inert fails (lift (expect o) : exec A).
Proof. apply inert_pure. by destruct o. Qed.
Lemma inert_ret {A} fails (a : A) : Inert fails (mret a : exec A).
Proof. intros s1 s2 _. by exists (Ok a). Qed.
Lemma inert_bind {A B} fails (op : exec A) (k : A → exec B) :
  Inert fails op → (∀ a, Inert fails (k a)) → Inert fails (op ≫= k).
Proof.
  intros Hop Hk s1 s2 Hs. destruct (Hop s1 s2 Hs) as (r&H1&H2&Hr).
  rewrite !run_bind_eq, H1, H2. destruct r as [a|e|].
  - by apply Hk.
  - exists (Err e). split_and!; [done..|]. intros Hf e' [= ->]. by apply (Hr Hf e').
  - by exists Panic.
Qed.
Lemma inert_bind_lift {A B} fails (r : result interp_error A) (k : A → exec B) :
  no_err r → (∀ a, r = Ok a → Inert fails (k a)) → Inert fails (lift r ≫= k).
Proof.
  intros Hr Hk s1 s2 Hs. rewrite !run_bind_eq. unfold lift. destruct r as [a|e|].
  - by apply Hk.
  - by destruct (Hr e).
  - by exists Panic.
Qed.
Lemma inert_fmap {A B} fails (f : A → B) (op : exec A) : Inert fails op → Inert fails (f <$> op).
Proof. intros Hop. apply inert_bind; [done|]. intros a. apply inert_ret. Qed.
Lemma inert_trap {A} at_ reason : Inert true (trap_at at_ reason : exec A).
Proof. intros s1 s2 [Hs _]. unfold trap_at. rewrite Hs. by eexists. Qed.
Lemma inert_or_trap {A} fails at_ (r : result TrapReason.t A) :
  (fails = false → no_err r) → Inert fails (or_trap_at at_ r : exec A).
Proof.
  intros Hr s1 s2 [Hs _]. unfold or_trap_at. rewrite Hs. eexists. split_and!; [done..|].
  intros Hf e. destruct r as [| e'|]; try done. by destruct (Hr Hf e').
Qed.
Lemma inert_reads {A} at_ (f : Memory T → result fault A) :
  (∀ m1 m2, same_outline m1 m2 → f m1 = f m2) → Inert true (on_memory at_ (reads f) : exec A).
Proof.
  intros Hf [m1 ????] [m2 ????] [Hs Hm]. simpl in *. unfold on_memory, reads. simpl.
  rewrite (Hf _ _ Hm), Hs. by eexists.
Qed.

(** Every address computation starts from [identity], which reads the outline. *)
Lemma identity_outline m1 m2 p : same_outline m1 m2 → identity m1 p = identity m2 p.
Proof.
  intros [Ha Ho]. unfold identity. rewrite Ha.
  destruct (address p =? 0); [done|]. destruct (capability p) as [cap|]; [|done]. simpl.
  destruct (negb (arena cap =? mem_arena m2)); [done|].
  apply (f_equal (λ l, l !! allocation cap)) in Ho. rewrite !list_lookup_fmap in Ho.
  destruct (allocations m1 !! _) as [a|], (allocations m2 !! _) as [a'|]; try done.
  injection Ho as Hk Hb Hg Hl Hr Hw Hd. simpl. by rewrite Hl, Hg, Hd, Hb.
Qed.
Lemma difference_outline p q m1 m2 : same_outline m1 m2 → difference m1 p q = difference m2 p q.
Proof. intros Hm. unfold difference. by rewrite !(identity_outline _ _ _ Hm). Qed.
Lemma pointer_compare_outline pred p q m1 m2 :
  same_outline m1 m2 → pointer_compare m1 pred p q = pointer_compare m2 pred p q.
Proof.
  intros Hm. unfold pointer_compare, equal, compare_order, difference.
  by rewrite !(identity_outline _ _ _ Hm).
Qed.
Lemma gep_outline p plan is_ m1 m2 : same_outline m1 m2 → gep m1 p plan is_ = gep m2 p plan is_.
Proof.
  intros Hm. unfold gep. destruct is_; [done|]. by rewrite (identity_outline _ _ _ Hm).
Qed.
End effects.

(** ** Failures of the scalar operations *)

Create HintDb inert.

Section no_err.
Context {E : Type}.

Lemma no_err_ret {A} (a : A) : no_err (Ok a : result E A).
Proof. done. Qed.
Lemma no_err_panic {A} : no_err (Panic : result E A).
Proof. done. Qed.
Lemma no_err_bind {A B} (r : result E A) (k : A → result E B) :
  no_err r → (∀ a, no_err (k a)) → no_err (r ≫= k).
Proof. intros Hr Hk e. destruct r as [a|e'|]; [apply Hk| |done]. by destruct (Hr e'). Qed.
Lemma no_err_expect {A} (o : option A) : no_err (expect o : result E A).
Proof. by destruct o. Qed.
End no_err.
#[export] Hint Resolve no_err_ret no_err_panic no_err_bind no_err_expect : inert.

(** Opens matches, then uses the database. *)
Ltac inert_step :=
  lazymatch goal with
  | |- no_err (_ ≫= _) => apply no_err_bind
  | |- Inert _ (_ ≫= _) => apply inert_bind
  | |- forall _, _ => intros ?
  | |- context [let '(_, _) := ?p in _] => destruct p
  | |- context [match ?x with _ => _ end] => destruct x
  end.
Ltac inert_auto := repeat (solve [auto with inert] || (cbv zeta; inert_step)); auto with inert.

Lemma no_err_raw {E} v bits : no_err (raw v bits : result E Z).
Proof. unfold raw. inert_auto. Qed.
Lemma no_err_pack {E} t v : no_err (pack t v : result E const_value).
Proof. unfold pack. inert_auto. Qed.
#[export] Hint Resolve no_err_raw no_err_pack : inert.
Lemma no_err_checked op t a b : no_err (checked op t a b).
Proof. unfold checked. inert_auto. Qed.
Lemma no_err_cast op t t' a : no_err (cast op t t' a).
Proof. unfold cast. inert_auto. Qed.
Lemma no_err_compare pred t a b : no_err (compare pred t a b).
Proof. unfold compare. inert_auto. Qed.
Lemma no_err_not t a : no_err (not_int t a).
Proof. unfold not_int. inert_auto. Qed.
Lemma no_err_neg {E} t a : no_err (neg_int t a : result E const_value).
Proof. unfold neg_int. inert_auto. Qed.
#[export] Hint Resolve no_err_checked no_err_cast no_err_compare no_err_not no_err_neg : inert.

Definition divides (op : BinOp.t) : bool :=
  match op with BinOp.UDiv | BinOp.SDiv | BinOp.URem | BinOp.SRem => true | _ => false end.
Lemma no_err_bin op t a b : divides op = false → no_err (bin op t a b).
Proof. intros Hop. unfold bin. destruct op; try done; inert_auto. Qed.

Lemma no_err_format {E} t : no_err (Float.format t : result E Format).
Proof. by destruct t. Qed.
#[export] Hint Resolve no_err_format : inert.
Lemma no_err_convert {E} op t t' v : no_err (convert op t t' v : result E (option const_value)).
Proof. unfold convert. inert_auto. Qed.
Lemma no_err_scalar_raw {E} t v : no_err (scalar_raw t v : result E Z).
Proof. unfold scalar_raw. inert_auto. Qed.
Lemma no_err_scalar_pack {E} t v : no_err (scalar_pack t v : result E const_value).
Proof. unfold scalar_pack. inert_auto. Qed.
Lemma no_err_scalar_compare {E} p a b : no_err (scalar_compare p a b : result E bool).
Proof. unfold scalar_compare. inert_auto. Qed.
Lemma no_err_cmp_pred {E} op : no_err (cmp_pred op : result E ICmpPred.t).
Proof. by destruct op. Qed.
#[export] Hint Resolve no_err_convert no_err_scalar_raw no_err_scalar_pack no_err_scalar_compare
  no_err_cmp_pred : inert.

(** A conversion that is not into an integer yields a value. *)
Definition into_int (op : CastOp.t) : bool :=
  match op with CastOp.FToI_S | CastOp.FToI_U => true | _ => false end.
Definition to_float (op : CastOp.t) : bool :=
  match op with
  | CastOp.FExt | CastOp.FTrunc | CastOp.IToF_S | CastOp.IToF_U => true
  | _ => false
  end.
Lemma convert_total {E} op t t' v o :
  to_float op = true → (convert op t t' v : result E _) = Ok o → is_Some o.
Proof.
  destruct op; try done; intros _; unfold convert.
  1,2: destruct v; try done.
  all: intros; repeat (case_match || inv_ok_step || simpl in *); eauto.
Qed.

(** ** The arms of the interpreter *)

Section arms.
Context {T : Type} `{FragmentTable T} `{Verifier} (prog : Program).
Implicit Types (s : Machine T) (m : Memory T).
#[local] Notation exec := (run (T := T)).
#[local] Existing Instance run_fmap.

Hint Resolve inert_expect inert_ret inert_fmap inert_trap : inert.
Hint Extern 1 (Inert _ (lift _)) => apply inert_pure; first [discriminate|intros _] : inert.
Hint Extern 1 (Inert _ (or_trap_at _ _)) => apply inert_or_trap; first [discriminate|intros _] : inert.
Hint Extern 1 (Inert _ (operand _ _)) => unfold operand : inert.
Hint Extern 2 (Inert _ (_ ≫= _)) => apply inert_bind : inert.

Lemma inert_scalar fails vs id : Inert fails (scalar_operand vs id : exec _).
Proof.
  apply inert_bind; [auto with inert|]. intros v. apply inert_pure. by destruct v.
Qed.
Lemma inert_pointer fails vs id : Inert fails (pointer_operand vs id : exec _).
Proof.
  apply inert_bind; [auto with inert|]. intros v. apply inert_pure. by destruct v.
Qed.
Lemma inert_boolean fails vs id : Inert fails (boolean_operand vs id : exec _).
Proof.
  apply inert_bind; [auto with inert|]. intros v. apply inert_pure. by destruct v as [[]| | |].
Qed.
Lemma inert_operands fails vs ids : Inert fails (operands vs ids : exec _).
Proof. induction ids; simpl; auto with inert. Qed.
Hint Resolve inert_scalar inert_pointer inert_boolean inert_operands : inert.

Lemma inert_comparison at_ pred p q :
  Inert true (on_memory at_ (reads (λ m, pointer_compare m pred p q)) : exec _).
Proof. apply inert_reads. intros. by apply pointer_compare_outline. Qed.
Hint Resolve inert_comparison : inert.

Lemma inert_bin fails vs at_ op t x y :
  (fails = false → divides op = false) → Inert fails (exec_bin vs at_ op t x y : exec _).
Proof.
  intros Hop. unfold exec_bin. apply inert_bind; [auto with inert|]. intros [| | |]; inert_auto.
  all: apply inert_or_trap; intros Hf; by apply no_err_bin, Hop.
Qed.
Lemma inert_cmp fails vs at_ op t x y :
  (fails = false → is_pointer t = false) → Inert fails (exec_cmp vs at_ op t x y : exec _).
Proof.
  intros Ht. unfold exec_cmp. destruct (float_type t); [inert_auto|].
  destruct fails; [inert_auto|]. rewrite (Ht eq_refl). inert_auto.
Qed.
Lemma inert_icmp fails vs at_ p t x y :
  (fails = false → is_pointer t = false) → Inert fails (exec_icmp vs at_ p t x y : exec _).
Proof.
  intros Ht. unfold exec_icmp. destruct fails; [inert_auto|]. rewrite (Ht eq_refl). inert_auto.
Qed.
Lemma inert_cast fails vs at_ op t t' x :
  (fails = false → into_int op = false ∧ op ≠ CastOp.CheckedInt) →
  Inert fails (exec_cast vs at_ op t t' x : exec _).
Proof.
  intros Hop. destruct fails; [unfold exec_cast; inert_auto|]. specialize (Hop eq_refl) as [Hi Hc].
  unfold exec_cast. destruct op; try done; try solve [inert_auto].
  all: apply inert_bind; [auto with inert|]; intros v; apply inert_bind_lift; [auto with inert|].
  all: intros o Ho; apply convert_total in Ho as [c ->]; [|done]; simpl; auto with inert.
Qed.
Lemma inert_extract fails vs v i : Inert fails (exec_extract vs v i : exec _).
Proof. unfold exec_extract. inert_auto. Qed.
Lemma inert_checked fails vs at_ op t x y : Inert fails (exec_checked vs at_ op t x y : exec _).
Proof. unfold exec_checked. inert_auto. Qed.
Lemma inert_trap_if vs at_ c r : Inert true (exec_trap_if vs at_ c r : exec _).
Proof. unfold exec_trap_if. inert_auto. Qed.
Lemma inert_gep p vs key at_ x is_ : Inert true (exec_gep p vs key at_ x is_ : exec _).
Proof.
  unfold exec_gep. inert_auto. apply inert_reads. intros. by apply gep_outline.
Qed.
Lemma inert_reference fails p vs key at_ i :
  (fails = false → may_trap (instruction_effects i) = false) →
  Inert fails (exec_reference prog p vs key at_ i : exec _).
Proof.
  intros Hi. unfold exec_reference. destruct i; try solve [inert_auto].
  destruct fails; [|by specialize (Hi eq_refl)]. inert_auto.
  apply inert_reads. intros. by apply difference_outline.
Qed.
Hint Resolve inert_extract inert_checked inert_trap_if inert_gep : inert.

Lemma inert_neg fails t v : Inert fails (neg_operand t v : exec _).
Proof. unfold neg_operand. inert_auto. Qed.
Hint Resolve inert_neg : inert.

Lemma inert_value fails vs at_ i :
  (fails = false → may_trap (instruction_effects i) = false) →
  Inert fails (exec_value vs at_ i : exec _).
Proof.
  intros Hi. unfold exec_value. destruct i; try solve [inert_auto].
  - apply inert_bind; [|auto with inert]. apply inert_bin. intros Hf. specialize (Hi Hf).
    by destruct op.
  - apply inert_bind; [|auto with inert]. apply inert_cmp. intros Hf. specialize (Hi Hf).
    by destruct ty.
  - apply inert_bind; [|auto with inert]. apply inert_icmp. intros Hf. specialize (Hi Hf).
    by destruct ty.
  - apply inert_cast. intros Hf. specialize (Hi Hf). by destruct op.
Qed.

(** ** What the classification promises *)

Definition touches_memory (e : Effects) : bool :=
  writes_memory e || has_calls e || changes_lifetime e.

Lemma inert_execute host depth f p key at_ i :
  let e := instruction_effects i in
  reads_memory e || touches_memory e = false →
  Inert (may_trap e) (execute prog host depth f p key at_ i : exec _).
Proof.
  cbv zeta. unfold execute. intros He. destruct i; try done; inert_auto.
  all: apply inert_fmap; (apply inert_value || apply inert_reference || idtac); auto with inert.
Qed.
Lemma inert_branch fails vs at_ t :
  (fails = false → may_trap (terminator_effects t) = false) →
  Inert fails (branch_target vs at_ t : exec _).
Proof.
  intros Ht. unfold branch_target. destruct t; inert_auto.
  destruct fails; [apply inert_trap|]. by specialize (Ht eq_refl).
Qed.

(** A load accounts for its work and changes nothing else. *)
Definition works s s' : Prop := ∃ w, s' = set_memory (set_work w (memory s)) s.
#[export] Instance works_preorder : PreOrder works.
Proof.
  split.
  - intros [[] ????]. eexists. reflexivity.
  - intros s1 s2 s3 [w ->] [w' ->]. by exists w'.
Qed.
(** Only the memory changes. *)
Definition stores s s' : Prop := ∃ m, s' = set_memory m s.
#[export] Instance stores_preorder : PreOrder stores.
Proof.
  split.
  - intros []. eexists. reflexivity.
  - intros s1 s2 s3 [w ->] [w' ->]. by exists w'.
Qed.
Definition charges m m' : Prop := ∃ w, m' = set_work w m.
#[export] Instance charges_preorder : PreOrder charges.
Proof.
  split.
  - intros []. eexists. reflexivity.
  - intros s1 s2 s3 [w ->] [w' ->]. by exists w'.
Qed.

Lemma stores_on_memory {A} at_ (op : mem T A) : Respects stores (on_memory at_ op).
Proof. intros s r s'. unfold on_memory. destruct (op (memory s)). intros [= _ <-]. by eexists. Qed.
Lemma works_on_memory {A} at_ (op : mem T A) :
  Respects charges op → Respects works (on_memory at_ op).
Proof.
  intros Hop s r s'. unfold on_memory. destruct (op (memory s)) as [r' m'] eqn:E.
  intros [= _ <-]. apply Hop in E as [w ->]. by exists w.
Qed.
Lemma charges_charge n : Respects charges (charge n).
Proof.
  intros m r m'. unfold charge.
  destruct (checked_u 64 _); [case_match|]; intros [= _ <-]; first [by eexists|reflexivity].
Qed.
Hint Resolve stores_on_memory works_on_memory charges_charge : respects.
Lemma charges_load p t al sig : Respects charges (load_with_signature p t al sig).
Proof. unfold load_with_signature. respects_auto. Qed.
Hint Resolve charges_load : respects.

Lemma inert_respects {A} R fails (op : exec A) : Reflexive R → Inert fails op → Respects R op.
Proof.
  intros HR Hop s r s' E. destruct (Hop s s) as (r'&E'&_); [done|].
  rewrite E' in E. by injection E as _ <-.
Qed.
Lemma respects_pointer R vs id : Reflexive R → Respects R (pointer_operand vs id : exec _).
Proof. intros. eapply (inert_respects _ false); [done|]. apply inert_pointer. Qed.
Lemma respects_scalar R vs id : Reflexive R → Respects R (scalar_operand vs id : exec _).
Proof. intros. eapply (inert_respects _ false); [done|]. apply inert_scalar. Qed.
Lemma respects_operand R vs id : PreOrder R → Respects R (operand vs id : exec _).
Proof. intros. unfold operand. auto with respects. Qed.
Hint Extern 0 (Reflexive _) => typeclasses eauto : respects.
Hint Resolve respects_pointer respects_scalar respects_operand : respects.

Lemma stores_memory host f p vs key at_ i : Respects stores (exec_memory host f p vs key at_ i).
Proof. unfold exec_memory. respects_auto. Qed.
Lemma works_memory host f p vs key at_ i :
  touches_memory (instruction_effects i) = false →
  Respects works (exec_memory host f p vs key at_ i).
Proof. intros Hi. unfold exec_memory. destruct i; try done; respects_auto. Qed.
Hint Resolve stores_memory works_memory : respects.

(** What acts on memory is a call or goes through [exec_memory]. *)
Lemma acts_on_memory i :
  reads_memory (instruction_effects i) || touches_memory (instruction_effects i) = true →
  has_calls (instruction_effects i) = true ∨
  ∀ host depth f p key at_, execute (T := T) prog host depth f p key at_ i =
    exec_memory host f p (frame_values f) key at_ i.
Proof. destruct i; simpl; intros Hi; repeat case_match; try done; auto. Qed.
Lemma trap_free i :
  may_trap (instruction_effects i) = false →
  reads_memory (instruction_effects i) || touches_memory (instruction_effects i) = false.
Proof. destruct i; simpl; intros Hi; repeat case_match; done. Qed.

Lemma execute_stores host depth f p key at_ i :
  has_calls (instruction_effects i) = false →
  Respects stores (execute prog host depth f p key at_ i).
Proof.
  intros Hi. destruct (reads_memory (instruction_effects i) || touches_memory (instruction_effects i))
    eqn:Ht; [|eapply inert_respects, inert_execute; [apply _|done]].
  apply acts_on_memory in Ht as [Hc|He]; [by rewrite Hi in Hc|]. rewrite He. auto with respects.
Qed.
Lemma execute_works host depth f p key at_ i :
  touches_memory (instruction_effects i) = false →
  Respects works (execute prog host depth f p key at_ i).
Proof.
  intros Hi. destruct (reads_memory (instruction_effects i)) eqn:Hr;
    [|eapply inert_respects, inert_execute; [apply _|by rewrite Hr, Hi]].
  destruct (acts_on_memory i) as [Hc|He]; [by rewrite Hr| |rewrite He; auto with respects].
  unfold touches_memory in Hi. by rewrite Hc, orb_true_r in Hi.
Qed.

(** C37: what an instruction is not classified to do, its execution does not do.  Without a call
    only the memory changes; without a write, a call or a lifetime change only the work counter
    changes; if it does not read memory either, then nothing changes and the outcome is the same
    in every machine whose memory holds the same allocations with other contents; and it fails
    only if it may trap. *)
Theorem effects_sound host depth f p key at_ i s1 r s1' :
  let e := instruction_effects i in
  execute prog host depth f p key at_ i s1 = (r, s1') →
  (has_calls e = false → ∃ m, s1' = set_memory m s1) ∧
  (touches_memory e = false → ∃ w, s1' = set_memory (set_work w (memory s1)) s1) ∧
  (reads_memory e || touches_memory e = false →
    s1' = s1 ∧ ∀ s2, similar s1 s2 → execute prog host depth f p key at_ i s2 = (r, s2)) ∧
  (may_trap e = false → ∀ err, r ≠ Err err).
Proof.
  intros e E. assert (Hinert := inert_execute host depth f p key at_ i). fold e in Hinert.
  cbv zeta in Hinert. split_and!.
  - intros Hc. by eapply execute_stores.
  - intros Ht. by eapply execute_works.
  - intros Ht. split.
    + symmetry. eapply (inert_respects eq); [done|by apply Hinert|done].
    + intros s2 Hs. destruct (Hinert Ht s1 s2 Hs) as (r'&E1&E2&_). congruence.
  - intros Ht. destruct (Hinert) with (s1 := s1) (s2 := s1) as (r'&E1&_&Hr); [|done|].
    + by apply trap_free.
    + assert (r = r') as -> by congruence. by apply Hr.
Qed.

(** C38: a step over an instruction that permits the removal of its unused result either hits the
    step limit or only accounts for the step, moves past the instruction and writes its
    destination: the memory, the other frames and every other value are those before. *)
Theorem unused_removal_sound host depth p block i s1 r s1' fr rest :
  permits_unused_removal (instruction_effects i) = true →
  frames s1 = fr :: rest →
  instruction_step prog host depth p block i s1 = (r, s1') → r ≠ Panic →
  let skipped := set_instruction (S (frame_instruction fr)) fr in
  (∃ at_, r = Err (InterpreterError.StepLimit at_ (max_steps (options prog))) ∧
          s1' = set_frames (skipped :: rest) s1) ∨
  (r = Ok tt ∧ ∃ values, frames s1' = set_values values skipped :: rest ∧
     (∀ id, Some id ≠ destination i → values !! id = frame_values fr !! id) ∧
     memory s1' = memory s1 ∧ frames_created s1' = frames_created s1 ∧
     live_values s1' = live_values s1 ∧ steps s1' = steps s1 + 1).
Proof.
  intros Hi Hf E Hr skipped. apply bool_decide_eq_true in Hi.
  assert (Hinert := inert_execute host depth fr p (current fr, frame_instruction fr)
    (site_in fr (frame_instruction fr) (destination i)) i).
  rewrite Hi in Hinert. specialize (Hinert eq_refl).
  unfold instruction_step, top in E. rewrite run_bind_eq, Hf in E. cbn [head expect] in E.
  cbv zeta in E. rewrite run_bind_eq in E. unfold update_top in E at 1. rewrite Hf in E.
  rewrite run_bind_eq in E. unfold charge_step in E.
  destruct (max_steps (options prog) <=? _); cbn beta iota in E;
    [injection E as <- <-; left; by eexists|right].
  match type of E with context [set_steps ?n ?s] => set (s2 := set_steps n s) in E end.
  rewrite run_bind_eq in E. destruct (Hinert s2 s2) as (r'&Ex&_&He); [done|]. rewrite Ex in E.
  destruct r' as [[v|]|e'|]; [|injection E as <- <-|by destruct (He eq_refl e')|by injection E as <- <-].
  - rewrite run_bind_eq in E. unfold lift in E.
    destruct (destination i) as [dst|]; cbn [expect] in E; [|by injection E as <- <-].
    injection E as <- <-. split; [done|]. exists (<[dst := v]> (frame_values fr)).
    split; [done|]. split; [|done].
    intros id Hid. rewrite lookup_insert_ne; [done|]. congruence.
  - split; [done|]. exists (frame_values fr). split; [by destruct fr|done].
Qed.
End arms.

(** ** A run *)

Section sample.
Import Instruction.

Definition sum_instruction : instruction := Bin (v 2) BinOp.Add Ty.I8 (v 0) (v 1).
Definition sum_frame : Frame :=
  mkFrame (mkFunctionId 0)
    (extend_values [(v 0, Value.Scalar (ConstValue.I 100)); (v 1, Value.Scalar (ConstValue.I 29))] ∅)
    (b 0) None 0 0 None None.
Definition sum_program : Program := mkProgram ∅ ∅ ∅ default_options 0.
Definition sum_prepared : Prepared := mkPrepared factorial 3 ∅ ∅ ∅ ∅.
Definition sum_block : BasicBlock := mkBlock (b 0) "entry" [sum_instruction] None.
Definition sum_machine : Machine (gmap nat Fragment) :=
  mkMachine (new 1 default_memory_limits).1 [sum_frame] 1 3 0.
Definition sum_site : ExecutionSite := site_in sum_frame 0 (Some (v 2)).

Lemma effects_sound_witness :
  execute (H0 := budget_verifier) sum_program grant 1 sum_frame sum_prepared (b 0, 0%nat) sum_site
    sum_instruction sum_machine = (Ok (Some (Value.Scalar (ConstValue.I (-127)))), sum_machine) ∧
  ∀ s2, similar sum_machine s2 →
    execute (H0 := budget_verifier) sum_program grant 1 sum_frame sum_prepared (b 0, 0%nat) sum_site
      sum_instruction s2 = (Ok (Some (Value.Scalar (ConstValue.I (-127)))), s2).
Proof.
  assert (E : execute (H0 := budget_verifier) sum_program grant 1 sum_frame sum_prepared
    (b 0, 0%nat) sum_site sum_instruction sum_machine =
    (Ok (Some (Value.Scalar (ConstValue.I (-127)))), sum_machine)) by reflexivity.
  split; [exact E|].
  destruct (@effects_sound _ gmap_table budget_verifier sum_program grant 1 sum_frame sum_prepared
    (b 0, 0%nat) sum_site sum_instruction sum_machine _ _ E) as (_&_&Hsame&_).
  exact (proj2 (Hsame eq_refl)).
Defined.

Lemma unused_removal_sound_witness :
  permits_unused_removal (instruction_effects sum_instruction) = true ∧
  let '(r, s) := instruction_step (H0 := budget_verifier) sum_program grant 1 sum_prepared sum_block
    sum_instruction sum_machine in
  r = Ok tt ∧ memory s = memory sum_machine ∧ steps s = 1.
Proof.
  split; [reflexivity|].
  destruct (instruction_step (H0 := budget_verifier) sum_program grant 1 sum_prepared sum_block
    sum_instruction sum_machine) as [r s] eqn:E.
  destruct (@unused_removal_sound _ gmap_table budget_verifier sum_program grant 1 sum_prepared
    sum_block sum_instruction sum_machine r s sum_frame [] eq_refl eq_refl E)
    as [(at_&Hr&_)|(Hr&values&_&_&Hm&_&_&Hs)].
  - intros ->. apply (f_equal (λ x, is_ok x.1)) in E. discriminate E.
  - exfalso. apply (f_equal (λ x, is_ok x.1)) in E. rewrite Hr in E. discriminate E.
  - split; [exact Hr|]. split; [exact Hm|exact Hs].
Defined.
End sample.
